(* ===== verification/_CoqProject ===== *)
-Q . S2P
Prelude.v
Lengths.v
BitBox.v
Path.v
FileInfo.v
ChunkTracker.v
Duration.v
PieceTracker.v
LiveDownload.v
ManagedTorrent.v
HashId.v
RoutingTable.v
DoubleBuf.v
Message.v
Metadata.v
Storage.v
FileOps.v
AtomicWrite.v
Bitv.v
JsonStore.v
Initializing.v
TorrentMeta.v
CreateTorrent.v
Relocate.v
OutputFolder.v
Session.v
Peers.v
Bencode.v
Serde.v
Compact.v
PeerTasks.v
PeerHandler.v
PeerConnection.v
UdpTracker.v
TrackerHttp.v
TrackerComms.v
PeerStore.v
Krpc.v
KrpcCodec.v
Bep44Crypto.v
Dht.v
DhtLookup.v
MutableItemStore.v
ReadBuf.v
Streaming.v
SpeedLimits.v
Auth.v
