(* ===== verification/Prelude.v ===== *)
(** * rustTorrent: a verification library

    rustTorrent is a BitTorrent client in Rust: a library of crates under
    [src/crates] and programs on top of it.  This library models the parts that
    carry the logic of downloading and of the protocols, as executable
    definitions translated from the source, and proves what makes them correct.

    ** The program

    A torrent is described by its metainfo ([TorrentMeta], made of files by
    [CreateTorrent] or fetched from peers, [Metadata]).  It is cut into pieces
    and pieces into chunks of 16 KiB ([Lengths]); its files lie one after the
    other ([FileInfo]).  The session ([Session]) adds and deletes torrents,
    chooses their folders ([OutputFolder]) and remembers them ([JsonStore]).  A
    managed torrent ([ManagedTorrent]) is initialized, paused, live or in
    error; before it starts, its data is checked ([Initializing]) or its saved
    bit field is trusted ([Bitv]).

    While it is live, [ChunkTracker] knows which pieces are had, queued and
    selected, and which chunks have arrived; [PieceTracker] owns it and the
    pieces in flight, and gives pieces to peers (reserving and stealing).  The
    peer handlers drive the piece tracker under its lock ([LiveDownload]), keep
    the table of peers with its counters ([Peers]), and answer the messages of
    their peers ([PeerHandler]), whose connections write and read them
    ([PeerConnection]); other tasks find, tell and replace peers ([PeerTasks]).
    Blocks go to disk, are read for uploads and hashed by [FileOps], over a
    [Storage] whose files can be renamed and moved ([Relocate]).  A file can be
    read while it is downloaded ([Streaming]).  Rates are limited
    ([SpeedLimits]).

    Peers talk in messages ([Message], parsed from two-part buffers,
    [DoubleBuf], out of a ring, [ReadBuf]).  Peers are found through the DHT:
    a node ([Dht]) sends and answers packets ([Krpc], [KrpcCodec]), looks for
    others ([DhtLookup]), keeps them in the [RoutingTable] by the XOR distance
    of ids ([HashId]), and stores peers ([PeerStore]) and items
    ([MutableItemStore], signed as in [Bep44Crypto]) for others; through
    trackers ([TrackerComms], over [UdpTracker] and [TrackerHttp]) and from
    other peers ([Compact]).  Metainfo, extended messages, DHT packets and HTTP
    trackers' responses are in bencode ([Bencode], [Serde]).

    ** Files

    Shared:
    - [Prelude]: panics ([outcome]), errors ([result]) and their notations,
      loops, machine integers, sums, stable sorting, the tactics and the hint
      databases.
    - [Duration]: the scaling of durations by the steal thresholds.
    - [Path]: std's paths: components, joining, prefixes, file names.

    Geometry and metainfo:
    - [Lengths]: librtbit-core/src/lengths.rs.  Piece and chunk sizes, chunk
      bits, pieces of a file.
    - [BitBox]: the bit boxes of the bitvec crate and bitv.rs, as a class with
      laws and an instance on lists of booleans; the clients are proved against
      the class.
    - [FileInfo]: librtbit/src/file_info.rs and the order of a file's pieces.
    - [TorrentMeta]: librtbit-core/src/torrent_metainfo.rs and the metadata of
      torrent_state/mod.rs.  The decoder of file names is an argument.
    - [CreateTorrent]: librtbit/src/create_torrent_file.rs, to the info
      dictionary.  What a read returns is an argument.

    A live torrent:
    - [ChunkTracker], [PieceTracker]: chunk_tracker.rs and piece_tracker.rs of
      librtbit/src.  The iteration order of the map of in-flight pieces is an
      argument.
    - [LiveDownload]: the critical sections of
      torrent_state/live/peer_handler.rs and live/mod.rs as events of a live
      torrent; an abstract machine on the states of pieces, which every event
      refines, and the invariants by induction on runs.
    - [Peers]: torrent_state/live/peer, torrent_state/live/peers and the peer
      operations of live/mod.rs and peer_handler.rs.
    - [Metadata]: librtbit/src/peer_info_reader and the metadata messages.
    - [PeerHandler]: the rest of peer_handler.rs, the handler of messages and
      the requester of chunks, as events of all peers over [LiveDownload] and
      [Peers]; its runs refine those of [LiveDownload].
    - [PeerConnection]: librtbit/src/peer_connection.rs, the writer and the
      reader of every connection over the semaphore of upload slots.
    - [PeerTasks]: peer exchange, the peer adder and the health monitor of
      torrent_state/live/tasks.rs.
    - [Streaming]: torrent_state/streaming.rs; the tasks that read and the
      tasks that complete pieces are events.

    Disk:
    - [Storage], [FileOps]: librtbit/src/storage and librtbit/src/file_ops.rs.
      The trait of storages is a class; reading, writing and hashing are proved
      against it and instantiated with the file system storage, whose
      [pwritev] is an argument.
    - [AtomicWrite], [Bitv], [JsonStore]: the replacement of a file by a
      renamed temporary one, bitv.rs with bitv_factory.rs, and
      session_persistence/json.rs, over a disk where every step can fail and
      the program can end between any two.
    - [Initializing]: torrent_state/initializing.rs.
    - [Relocate]: renaming files and moving the root, in
      storage/filesystem and torrent_state/mod.rs.
    - [OutputFolder]: the folders, selections, moves and deletions of
      session/mod.rs and session/helpers.rs.

    Torrents and the session:
    - [ManagedTorrent]: the states of torrent_state/mod.rs; its calls and the
      tasks it spawns are events.
    - [Session]: the database and the add, delete and update operations of
      session/mod.rs, cut at their awaits, over a store.
    - [SpeedLimits]: limits.rs, alt_speed.rs and the handlers of
      http_api/handlers/qbit_compat.rs that set limits.
    - [Auth]: http_api/auth.rs and the authentication layers of
      http_api/mod.rs and qbit_compat.rs, over the requests that come in.

    Protocols:
    - [DoubleBuf], [Message], [ReadBuf]: double_buf.rs and lib.rs of
      librtbit-peer-protocol, and librtbit/src/read_buf.rs.  The codec of
      extended payloads is an argument.
    - [Bencode], [Serde]: librtbit-bencode, for the dynamic value and for the
      structures that serde derives.  The number scanner of the atoi crate is
      an argument.
    - [Compact]: librtbit-core/src/compact_ip.rs and the peer exchange and hole
      punching messages of librtbit-peer-protocol/src/extended; the trait of
      compact forms is a class with laws.
    - [UdpTracker], [TrackerHttp], [TrackerComms]: librtbit-tracker-comms/src,
      the two protocols of trackers and the tasks that announce a torrent.

    DHT (librtbit-dht/src):
    - [HashId], [RoutingTable]: librtbit-core/src/hash_id.rs, routing_table.rs.
    - [PeerStore], [MutableItemStore]: peer_store.rs, mutable_item_store.rs.
    - [Krpc], [KrpcCodec]: bprotocol.rs, the messages and their compact parts,
      and how packets are written and read.
    - [Bep44Crypto]: bep44_crypto.rs; SHA-1 and Ed25519 are arguments.
    - [Dht]: the requests, answers and workers of dht.rs as events of a node.
    - [DhtLookup]: the recursive lookups of dht.rs.

    ** What the theorems show

    - Downloading: in every interleaving of peers, requests, disk, deaths and
      selections nothing panics, no selected piece is lost and a piece is in
      one state at a time, within the stated conditions; each operation of the
      trackers does exactly what its answer says; the incremental byte counters
      equal a recount; a pause requeues what was in flight.
    - Peers: the counters are the numbers of peers in each state in every run;
      the requests sent stay within the window; only chunks we have are
      uploaded; a private torrent says nothing of its peers; a connection
      writes what it is told in order and once, over four upload slots; peer
      exchange converges.
    - Metainfo: paths of a validated torrent stay below its folder, its
      metadata is well formed; fetched metadata has the hash asked for; a
      created torrent is complete on the files it was made of.
    - Disk: what is written is read back across files and no other byte
      changes; a piece check hashes exactly its bytes, and the sequential check
      of a whole torrent agrees with the check of single pieces; the bit field
      and the session database survive crashes; moves and renames lose no file.
    - Torrents and the session: the states of a torrent change along the
      documented transitions but for the recorded exceptions; the indexes of
      the session agree and its store follows it; limits in force refine their
      abstract state; only who may use the API passes its layers.
    - Protocols: messages, handshakes, tracker responses, bencode values and
      DHT packets are read back as they were written, however the input is cut;
      the parsers return on every input; a tracker response reaches the request
      it answers, and its peers the torrent.
    - DHT: the routing table keeps its invariant and the distance is the XOR of
      numbers; a request is answered by the node it asked; every query gets one
      answer; lookups end; the stores stay within their limits; the signed bytes
      of an item determine it.
    - Streaming: a stream returns only bytes of pieces we have; one that sleeps
      waits for a missing piece or has its wake-up still to come, unless the
      torrent was paused.
    - Behaviour that differs from what the code means to do is proved on
      concrete runs, in theorems next to the component they are about.

    ** Conventions

    A w-bit integer is a [Z] with its wrap-around written out (arithmetic is
    that of the release profile); bytes are integers below 256; a slice or a
    [Vec] is a list.  A panic is the value [Panic].  Loops that are not
    structural take fuel, and running out of it is [Panic]: every theorem about
    such code shows [Done], so the fuel is enough; [interleave] and
    [chunks_exact], which make lists, stop instead, and their theorems give the
    whole list.  The fuel is a measure of the input: the bytes left
    ([parse_addrs], [piece_loop], [hash_file], [Bencode]), the depth of the
    tree of buckets (160 bits), the bytes missing ([read_more]), the free space
    of the ring ([read_loop]), the steps of a call ([run_task]).  Clocks,
    random numbers, hash functions, sockets, errors of the system and iteration
    orders of hash maps are arguments.  Asynchronous code is cut at its locks
    and awaits, and its interleavings are sequences of events.

    ** Not modelled

    The HTTP API and its compatibility layers (but for authentication and
    limits), the command line program, UPnP, the media server, local discovery, RSS,
    watched directories, categories and statistics are glue around libraries
    and I/O.  The bencode form of metainfo and of extended messages and the
    JSON of the API are taken at their decoded values: their codec is generated
    code.  Magnet links are parsed by a library; connecting (TCP, uTP, proxies),
    the start-up of the session and the PostgreSQL store are I/O around the
    modelled parts; the memory-mapped storage is raw memory. *)

From stdpp Require Export base list list_numbers gmap sorting.
From Stdlib Require Export ZArith Lia.
#[export] Set Default Goal Selector "!".
#[export] Set Warnings "-clear-no-such-hyp".

(** ** Outcomes of Rust code *)

(** [outcome A] is the result of code that may panic (index out of bounds,
    division by zero, [unwrap] on an absent value). *)
Inductive outcome (A : Type) : Type :=
| Done (a : A)
| Panic.
Arguments Done {A} _.
Arguments Panic {A}.

(** [result E A] is Rust's [Result<A, E>]. *)
Inductive result (E A : Type) : Type :=
| Ok (a : A)
| Err (e : E).
Arguments Ok {E A} _.
Arguments Err {E A} _.

#[export] Instance outcome_eq_dec `{EqDecision A} : EqDecision (outcome A).
Proof. solve_decision. Defined.
#[export] Instance result_eq_dec `{EqDecision E, EqDecision A} : EqDecision (result E A).
Proof. solve_decision. Defined.

(** Sequencing of code that may panic. *)
Definition outcome_bind {A B} (m : outcome A) (k : A -> outcome B) : outcome B :=
  match m with Done a => k a | Panic => Panic end.

(** Sequencing with [?]. *)
Definition result_bind {E A B} (m : result E A) (k : A -> result E B) : result E B :=
  match m with Ok a => k a | Err e => Err e end.

(** [Option::ok_or]. *)
Definition ok_or {A E} (o : option A) (e : E) : result E A :=
  match o with Some a => Ok a | None => Err e end.

(** [Option::unwrap] and slice indexing: panic when the value is absent. *)
Definition unwrap {A} (o : option A) : outcome A :=
  match o with Some a => Done a | None => Panic end.

(** Sequencing of code that returns a [Result] and may panic: [?] on an
    [Err] returns it. *)
Definition try_bind {E A B} (m : outcome (result E A)) (k : A -> outcome (result E B)) :
    outcome (result E B) :=
  match m with
  | Done (Ok a) => k a
  | Done (Err e) => Done (Err e)
  | Panic => Panic
  end.

Declare Scope rust_scope.
Delimit Scope rust_scope with rust.
Open Scope rust_scope.
Notation "x ←! m ; k" := (outcome_bind m (fun x => k))
  (at level 20, m at level 100, k at level 200) : rust_scope.
Notation "x ←? m ; k" := (result_bind m (fun x => k))
  (at level 20, m at level 100, k at level 200) : rust_scope.
Notation "x ←?! m ; k" := (try_bind m (fun x => k))
  (at level 20, m at level 100, k at level 200) : rust_scope.

(** A [for] loop whose body may panic. *)
Fixpoint for_each {A S} (f : S -> A -> outcome S) (s : S) (l : list A) : outcome S :=
  match l with
  | [] => Done s
  | x :: l => s ←! f s x; for_each f s l
  end.

(** A [for] loop whose body may panic or return early with [?]. *)
Fixpoint try_for_each {A S E} (f : S -> A -> outcome (result E S)) (s : S) (l : list A) :
    outcome (result E S) :=
  match l with
  | [] => Done (Ok s)
  | x :: l => s ←?! f s x; try_for_each f s l
  end.

(** [Iterator::filter] with a predicate that may panic. *)
Fixpoint filter_outcome {A} (f : A -> outcome bool) (l : list A) : outcome (list A) :=
  match l with
  | [] => Done []
  | x :: l => b ←! f x; l' ←! filter_outcome f l; Done (if (b : bool) then x :: l' else l')
  end.

Lemma filter_outcome_Done {A} (f : A -> outcome bool) (p : A -> bool) (l : list A) :
  (forall x, x ∈ l -> f x = Done (p x)) -> filter_outcome f l = Done (List.filter p l).
Proof.
  induction l as [|x l IH]; intros Hf; [done|]. simpl. rewrite Hf by set_solver. simpl.
  rewrite IH by set_solver. simpl. by destruct (p x).
Qed.

Lemma for_each_inv {A S} (P : list A -> S -> Prop) (f : S -> A -> outcome S) s l :
  P [] s ->
  (forall done x s, done ++ [x] `prefix_of` l -> P done s -> exists s', f s x = Done s' /\ P (done ++ [x]) s') ->
  exists s', for_each f s l = Done s' /\ P l s'.
Proof.
  intros H0 Hstep. revert s H0.
  cut (forall done rest s, done ++ rest = l -> P done s ->
         exists s', for_each f s rest = Done s' /\ P l s').
  { intros Hc s H0. by apply (Hc [] l s). }
  intros done rest. revert done. induction rest as [|x rest IH]; intros done s Hl HP.
  - rewrite app_nil_r in Hl. subst. by exists s.
  - destruct (Hstep done x s) as (s' & Hf & HP'); [|done|].
    { exists rest. by rewrite <- Hl, <- app_assoc. }
    simpl. rewrite Hf. simpl. apply (IH (done ++ [x])); [|done].
    by rewrite <- app_assoc.
Qed.

Lemma try_for_each_inv {A S E} (P : list A -> S -> Prop) (f : S -> A -> outcome (result E S)) s l :
  P [] s ->
  (forall done x s, done ++ [x] `prefix_of` l -> P done s ->
     exists s', f s x = Done (Ok s') /\ P (done ++ [x]) s') ->
  exists s', try_for_each f s l = Done (Ok s') /\ P l s'.
Proof.
  intros H0 Hstep. revert s H0.
  cut (forall done rest s, done ++ rest = l -> P done s ->
         exists s', try_for_each f s rest = Done (Ok s') /\ P l s').
  { intros Hc s H0. by apply (Hc [] l s). }
  intros done rest. revert done. induction rest as [|x rest IH]; intros done s Hl HP.
  - rewrite app_nil_r in Hl. subst. by exists s.
  - destruct (Hstep done x s) as (s' & Hf & HP'); [|done|].
    { exists rest. by rewrite <- Hl, <- app_assoc. }
    simpl. rewrite Hf. simpl. apply (IH (done ++ [x])); [|done].
    by rewrite <- app_assoc.
Qed.

(** A loop that runs on, or stops with an error at the first element that is
    told to stop it. *)
Lemma try_for_each_stop {A S E} (P : list A -> S -> Prop) (stop : A -> bool) (e : E)
    (f : S -> A -> outcome (result E S)) s l : P [] s ->
  (forall done x s, done ++ [x] `prefix_of` l -> P done s ->
     if stop x then f s x = Done (Err e) else exists s', f s x = Done (Ok s') /\ P (done ++ [x]) s') ->
  if existsb stop l then try_for_each f s l = Done (Err e) else exists s', try_for_each f s l = Done (Ok s') /\ P l s'.
Proof.
  intros H0 Hstep. revert s H0.
  cut (forall done rest s, done ++ rest = l -> P done s ->
    if existsb stop rest then try_for_each f s rest = Done (Err e) else exists s', try_for_each f s rest = Done (Ok s') /\ P l s').
  { intros Hc s H0. by apply (Hc [] l s). }
  intros done rest. revert done. induction rest as [|x rest IH]; intros done s Hl HP.
  - rewrite app_nil_r in Hl. subst. by exists s.
  - specialize (Hstep done x s ltac:(exists rest; by rewrite <- Hl, <- app_assoc) HP). cbn [existsb try_for_each].
    destruct (stop x); [by rewrite Hstep|]. destruct Hstep as (s' & -> & HP'). cbn [orb try_bind].
    apply (IH (done ++ [x])); [by rewrite <- app_assoc|done].
Qed.

(** ** Hints

    [len] computes the lengths of lists built from slices; [wrap] removes the
    wrap-around of integers that are in range. *)
Create Rewrite HintDb len.
#[export] Hint Rewrite @length_app @length_drop @length_take @length_replicate : len.
Create Rewrite HintDb wrap.

(** Arithmetic on the lengths of lists. *)
Ltac len_lia := autorewrite with len in *; lia.

(** Reduce the monads only. *)
Ltac rsimpl := cbn [outcome_bind result_bind try_bind unwrap ok_or for_each try_for_each].

(** ** Machine integers

    A w-bit unsigned integer is a [Z] in [0 .. 2^w).  Arithmetic is that of
    the release profile (no overflow checks): it wraps. *)
Open Scope Z_scope.

Abbreviation U8 := 256.
Abbreviation U16 := 65536.
Abbreviation U32 := 4294967296.
Abbreviation U64 := 18446744073709551616.

Definition is_u8 (z : Z) : Prop := 0 <= z < U8.
Definition is_u16 (z : Z) : Prop := 0 <= z < U16.
Definition is_u32 (z : Z) : Prop := 0 <= z < U32.
Definition is_u64 (z : Z) : Prop := 0 <= z < U64.

Definition wrap32 (z : Z) : Z := z mod U32.
Definition wrap64 (z : Z) : Z := z mod U64.

(** [u64::div_ceil] (and its u32 version): the divisor is not zero. *)
Definition div_ceil (a b : Z) : Z :=
  if 0 <? a mod b then a / b + 1 else a / b.

(** [saturating_sub] on unsigned integers. *)
Definition saturating_sub (a b : Z) : Z := Z.max 0 (a - b).

(** [u32::try_from] on a wider unsigned integer. *)
Definition try_into_u32 (z : Z) : option Z :=
  if z <? U32 then Some z else None.

(** [lia] after turning divisions and remainders into equations. *)
Ltac zlia := intros; Z.div_mod_to_equations; lia.
Ltac znia := intros; Z.div_mod_to_equations; nia.

(** Case analysis on the boolean comparisons of the goal or a hypothesis. *)
Ltac bcases :=
  repeat match goal with
  | |- context [?a =? ?b] => destruct (Z.eqb_spec a b)
  | |- context [?a <? ?b] => destruct (Z.ltb_spec a b)
  | |- context [?a <=? ?b] => destruct (Z.leb_spec a b)
  | H : context [?a =? ?b] |- _ => destruct (Z.eqb_spec a b)
  | H : context [?a <? ?b] |- _ => destruct (Z.ltb_spec a b)
  | H : context [?a <=? ?b] |- _ => destruct (Z.leb_spec a b)
  end.

(** Products of ordered factors, to spare [nia] a search. *)
Lemma mul_le_mono_nonneg a b c : 0 <= a <= b -> 0 <= c -> 0 <= a * c <= b * c.
Proof. nia. Qed.

Lemma mul_lt_step a b c : a < b -> 0 <= c -> a * c + c <= b * c.
Proof. nia. Qed.

Lemma div_bounds c d : 0 <= c -> 0 < d -> 0 <= c / d /\ c / d * d <= c < c / d * d + d.
Proof.
  intros Hc Hd. pose proof (Z.div_mod c d). pose proof (Z.mod_pos_bound c d).
  pose proof (Z.div_pos c d). lia.
Qed.

Lemma wrap32_small z : 0 <= z < U32 -> wrap32 z = z.
Proof. intros; apply Z.mod_small; lia. Qed.

Lemma wrap64_small z : 0 <= z < U64 -> wrap64 z = z.
Proof. intros; apply Z.mod_small; lia. Qed.

#[export] Hint Rewrite wrap32_small wrap64_small using lia : wrap.

Lemma wrap32_range z : 0 <= wrap32 z < U32.
Proof. apply Z.mod_pos_bound; lia. Qed.

Lemma wrap64_range z : 0 <= wrap64 z < U64.
Proof. apply Z.mod_pos_bound; lia. Qed.

(** [div_ceil] is the least [q] with [a <= q * b]. *)
Lemma div_ceil_eq a b : 0 <= a -> 0 < b -> div_ceil a b = (a + b - 1) / b.
Proof. unfold div_ceil. intros; bcases; znia. Qed.

Lemma div_ceil_pred a b : 0 < a -> 0 < b -> div_ceil a b = (a - 1) / b + 1.
Proof. unfold div_ceil. intros; bcases; znia. Qed.

Lemma div_ceil_spec a b :
  0 <= a -> 0 < b -> (div_ceil a b - 1) * b < a <= div_ceil a b * b.
Proof. unfold div_ceil. intros; bcases; znia. Qed.

Lemma div_ceil_nonneg a b : 0 <= a -> 0 < b -> 0 <= div_ceil a b.
Proof. intros; pose proof (div_ceil_spec a b); nia. Qed.

Lemma div_ceil_pos a b : 0 < a -> 0 < b -> 0 < div_ceil a b.
Proof. intros; pose proof (div_ceil_spec a b); nia. Qed.

Lemma div_ceil_gt k a b : 0 <= a -> 0 < b -> (k < div_ceil a b <-> k * b < a).
Proof. intros; pose proof (div_ceil_spec a b); split; nia. Qed.

Lemma div_ceil_le k a b : 0 <= a -> 0 < b -> (div_ceil a b <= k <-> a <= k * b).
Proof. intros; pose proof (div_ceil_spec a b); split; nia. Qed.

Lemma try_into_u32_Some z v : try_into_u32 z = Some v <-> v = z /\ z < U32.
Proof. unfold try_into_u32. bcases; split; [|intros [-> ?]| |intros [-> ?]]; try lia; naive_solver. Qed.

(** ** Lists *)

(** [Iterator::sum]. *)
Definition sumZ (l : list Z) : Z := foldr Z.add 0 l.

Lemma sumZ_app l1 l2 : sumZ (l1 ++ l2) = sumZ l1 + sumZ l2.
Proof. unfold sumZ. induction l1; simpl; lia. Qed.

Lemma sumZ_nonneg l : Forall (fun z => 0 <= z) l -> 0 <= sumZ l.
Proof. induction 1; simpl; unfold sumZ in *; lia. Qed.

Lemma sumZ_perm l1 l2 : l1 ≡ₚ l2 -> sumZ l1 = sumZ l2.
Proof. unfold sumZ. induction 1; simpl; lia. Qed.

(** A telescoping sum over a range. *)
Lemma sumZ_telescope (f g : Z -> Z) (m n : Z) :
  0 <= n -> (forall i, m <= i < m + n -> f i = g (i + 1) - g i) ->
  sumZ (f <$> seqZ m n) = g (m + n) - g m.
Proof.
  intros Hn. revert m. pattern n. apply natlike_ind; [|clear n Hn|exact Hn].
  - intros m _. simpl. rewrite Z.add_0_r. lia.
  - intros n Hn IH m Hf. rewrite seqZ_cons by lia. simpl.
    rewrite Z.pred_succ. change (foldr Z.add 0) with sumZ. rewrite IH.
    + rewrite Hf by lia. replace (Z.succ m + n) with (m + Z.succ n) by lia.
      replace (Z.succ m) with (m + 1) by lia. lia.
    + intros; apply Hf; lia.
Qed.

Lemma sumZ_fmap_ext {A} (f g : A -> Z) (l : list A) :
  (forall x, x ∈ l -> f x = g x) -> sumZ (f <$> l) = sumZ (g <$> l).
Proof.
  induction l as [|x l IH]; intros H; [done|]. simpl.
  rewrite (H x) by set_solver. f_equal. apply IH. set_solver.
Qed.


Lemma sumZ_fmap_cons {A} (f : A -> Z) x (l : list A) : sumZ (f <$> x :: l) = f x + sumZ (f <$> l).
Proof. done. Qed.

Lemma sumZ_filter {A} (p : A -> bool) (f : A -> Z) (l : list A) :
  sumZ (f <$> List.filter p l) = sumZ ((fun x => if p x then f x else 0) <$> l).
Proof.
  induction l as [|x l IH]; [done|]. simpl List.filter. rewrite sumZ_fmap_cons.
  destruct (p x); [rewrite sumZ_fmap_cons|]; lia.
Qed.

Lemma sumZ_zero {A} (f : A -> Z) (l : list A) :
  (forall x, x ∈ l -> 0 <= f x) ->
  sumZ (f <$> l) = 0 <-> (forall x, x ∈ l -> f x = 0).
Proof.
  intros Hf. induction l as [|y l IH]; [set_solver|].
  assert (Hl : 0 <= sumZ (f <$> l)).
  { apply sumZ_nonneg, Forall_fmap, Forall_forall. intros x Hx. apply Hf. set_solver. }
  pose proof (Hf y ltac:(set_solver)) as Hy.
  assert (IH' : sumZ (f <$> l) = 0 <-> (forall x, x ∈ l -> f x = 0)).
  { apply IH. intros; apply Hf; set_solver. }
  change (sumZ (f <$> y :: l)) with (f y + sumZ (f <$> l)). split.
  - intros Hs x [->|Hx]%elem_of_cons; [lia|]. apply IH'; [lia|done].
  - intros Hall. rewrite (Hall y) by set_solver. rewrite (proj2 IH'); [done|set_solver].
Qed.

Lemma sumZ_fmap_le {A} (f g : A -> Z) (l : list A) :
  (forall x, x ∈ l -> f x <= g x) -> sumZ (f <$> l) <= sumZ (g <$> l).
Proof.
  induction l as [|y l IH]; intros Hle; [done|].
  change (f y + sumZ (f <$> l) <= g y + sumZ (g <$> l)).
  pose proof (Hle y ltac:(set_solver)). pose proof (IH ltac:(set_solver)). lia.
Qed.

Lemma sumZ_fmap_prefix {A} (f : A -> Z) (l1 l2 : list A) :
  l1 `prefix_of` l2 -> (forall x, x ∈ l2 -> 0 <= f x) ->
  sumZ (f <$> l1) <= sumZ (f <$> l2).
Proof.
  intros [k ->] Hf. rewrite fmap_app, sumZ_app.
  assert (0 <= sumZ (f <$> k)); [|lia].
  apply sumZ_nonneg, Forall_fmap, Forall_forall. set_solver.
Qed.

Lemma sumZ_snoc {A} (f : A -> Z) (l : list A) x : sumZ (f <$> l ++ [x]) = sumZ (f <$> l) + f x.
Proof. rewrite fmap_app, sumZ_app. simpl. lia. Qed.

(** Changing one term of a sum over a range. *)
Lemma sumZ_seqZ_update (f g : Z -> Z) (n j : Z) : 0 <= j < n ->
  (forall i, i <> j -> g i = f i) ->
  sumZ (g <$> seqZ 0 n) = sumZ (f <$> seqZ 0 n) + (g j - f j).
Proof.
  intros Hj Hfg. assert (Hn : n = j + (1 + (n - j - 1))) by lia. rewrite Hn.
  rewrite seqZ_app, seqZ_app, !fmap_app, !sumZ_app by lia.
  rewrite (sumZ_fmap_ext g f (seqZ 0 j)).
  2: { intros i Hi%elem_of_seqZ. apply Hfg. lia. }
  rewrite (sumZ_fmap_ext g f (seqZ _ (n - j - 1))).
  2: { intros i Hi%elem_of_seqZ. apply Hfg. lia. }
  rewrite !(seqZ_cons _ 1), !(seqZ_nil _ (Z.pred 1)) by lia.
  rewrite Z.add_0_l. simpl. lia.
Qed.

(** ** Text *)

(** [str::split]. *)
Fixpoint split_on (c : Z) (l : list Z) : list (list Z) :=
  match l with
  | [] => [[]]
  | x :: l =>
      if x =? c then [] :: split_on c l
      else match split_on c l with p :: ps => (x :: p) :: ps | [] => [[x]] end
  end.

(** ** Stable sorting

    [slice::sort_by_key] is stable, so its result is determined by the order:
    insertion sort computes it. *)
Fixpoint insert_by {A} (leb : A -> A -> bool) (x : A) (l : list A) : list A :=
  match l with
  | [] => [x]
  | y :: l' => if leb x y then x :: l else y :: insert_by leb x l'
  end.

Definition sort_by {A} (leb : A -> A -> bool) (l : list A) : list A :=
  foldr (insert_by leb) [] l.

Lemma insert_by_perm {A} (leb : A -> A -> bool) x l : insert_by leb x l ≡ₚ x :: l.
Proof.
  induction l as [|y l IH]; [done|]. simpl. destruct (leb x y); [done|].
  rewrite IH. apply Permutation_swap.
Qed.

Lemma sort_by_perm {A} (leb : A -> A -> bool) l : sort_by leb l ≡ₚ l.
Proof. induction l as [|x l IH]; [done|]. simpl. by rewrite insert_by_perm, IH. Qed.

Lemma insert_by_sorted {A} (leb : A -> A -> bool) (x : A) l :
  (forall a b, leb a b = false -> leb b a = true) ->
  (forall a b c, leb a b = true -> leb b c = true -> leb a c = true) ->
  StronglySorted (fun a b => leb a b = true) l ->
  StronglySorted (fun a b => leb a b = true) (insert_by leb x l).
Proof.
  intros Htot Htr. induction 1 as [|y l Hl IH Hy]; simpl; [by repeat constructor|].
  destruct (leb x y) eqn:E.
  - constructor; [by constructor|]. constructor; [done|].
    eapply Forall_impl; [exact Hy|]. intros z Hz. by eapply Htr.
  - constructor; [done|]. rewrite insert_by_perm. constructor; [by apply Htot|done].
Qed.

Lemma sort_by_sorted {A} (leb : A -> A -> bool) (l : list A) :
  (forall a b, leb a b = false -> leb b a = true) ->
  (forall a b c, leb a b = true -> leb b c = true -> leb a c = true) ->
  StronglySorted (fun a b => leb a b = true) (sort_by leb l).
Proof. intros Htot Htr. induction l; simpl; [constructor|]. by apply insert_by_sorted. Qed.

(** A list sorted by a strict order is determined by its elements. *)
Lemma sorted_unique {A} (key : A -> Z) (l l' : list A) :
  StronglySorted (fun a b => key a < key b) l -> StronglySorted (fun a b => key a < key b) l' ->
  (forall x, x ∈ l <-> x ∈ l') -> l = l'.
Proof.
  intros Hl. revert l'. induction Hl as [|x l Hl IH Hx]; intros l' Hl' Hel.
  - destruct l' as [|y l']; [done|]. exfalso. apply (not_elem_of_nil y), Hel. set_solver.
  - destruct Hl' as [|y l' Hl' Hy].
    { exfalso. apply (not_elem_of_nil x), Hel. set_solver. }
    rewrite Forall_forall in Hx, Hy.
    assert (x = y) as ->.
    { assert (Hx' : x ∈ y :: l') by (apply Hel; set_solver).
      assert (Hy' : y ∈ x :: l) by (apply Hel; set_solver).
      apply elem_of_cons in Hx' as [->|Hx']; [done|].
      apply elem_of_cons in Hy' as [->|Hy']; [done|].
      specialize (Hx _ Hy'). specialize (Hy _ Hx'). lia. }
    f_equal. apply IH; [done|]. intros z. split; intros Hz.
    + assert (Hz' : z ∈ y :: l') by (apply Hel; set_solver).
      apply elem_of_cons in Hz' as [->|?]; [|done]. specialize (Hx _ Hz). lia.
    + assert (Hz' : z ∈ y :: l) by (apply Hel; set_solver).
      apply elem_of_cons in Hz' as [->|?]; [|done]. specialize (Hy _ Hz). lia.
Qed.

Lemma sorted_NoDup {A} (key : A -> Z) (l : list A) :
  StronglySorted (fun a b => key a < key b) l -> NoDup (key <$> l).
Proof.
  induction 1 as [|x l Hl IH Hx]; [constructor|]. rewrite fmap_cons. constructor; [|done].
  intros (y & Heq & Hy)%list_elem_of_fmap. rewrite Forall_forall in Hx.
  specialize (Hx y Hy). simpl in Hx. lia.
Qed.
