(* ===== verification/Lengths.v ===== *)
(** * Lengths: piece and chunk geometry of a torrent

    Models [crates/librtbit-core/src/lengths.rs]: the [Lengths] record built
    once per torrent and every query on it.  A torrent is a flat blob of
    [l_total_length] bytes cut into pieces, and each piece into chunks
    (blocks) of [CHUNK_SIZE] bytes.

    [wf] is the well-formedness invariant [new] establishes; under it no
    u32/u64 computation wraps. *)

From S2P Require Import Prelude.

(** ** Data *)

Definition CHUNK_SIZE : Z := 16384.

(** The errors of [crate::Error] this module raises. *)
Inductive Error :=
| BadTorrentZeroLength
| InvalidPieceIndex (index : Z).

(** [ValidPieceIndex] is a newtype of u32 that only [Lengths] makes. *)
Abbreviation ValidPieceIndex := Z (only parsing).

Record PieceInfo := mkPieceInfo {
  pi_piece_index : ValidPieceIndex;
  pi_len : Z;
}.

Record ChunkInfo := mkChunkInfo {
  ci_piece_index : ValidPieceIndex;
  ci_chunk_index : Z;
  ci_absolute_index : Z;
  ci_size : Z;
  ci_offset : Z;
}.

Record Lengths := mkLengths {
  l_total_length : Z;
  l_piece_length : Z;
  l_last_piece_id : Z;
  l_last_piece_length : Z;
  l_chunks_per_piece : Z;
}.

#[export] Instance ChunkInfo_eq_dec : EqDecision ChunkInfo.
Proof. solve_decision. Defined.

(** ** Operations *)

(** The divisor is never zero at the call sites ([new] has divided by it
    already, [chunk_size] passes [CHUNK_SIZE]). *)
Definition last_element_size (total_length piece_length : Z) : Z :=
  let rem := total_length mod piece_length in
  if rem =? 0 then piece_length else rem.

Definition new (total_length piece_length : Z) : outcome (result Error Lengths) :=
  if total_length =? 0 then Done (Err BadTorrentZeroLength)
  else if piece_length =? 0 then Panic (* div_ceil by zero *)
  else
    let total_pieces := wrap32 (div_ceil total_length piece_length) in
    Done (Ok {|
      l_piece_length := piece_length;
      l_total_length := total_length;
      l_chunks_per_piece := wrap32 (div_ceil piece_length CHUNK_SIZE);
      l_last_piece_id := wrap32 (total_pieces - 1);
      l_last_piece_length := wrap32 (last_element_size total_length piece_length)
    |}).

Definition total_pieces (l : Lengths) : Z := wrap32 (l_last_piece_id l + 1).

Definition piece_bitfield_bytes (l : Lengths) : Z := div_ceil (total_pieces l) 8.

Definition chunks_per_piece (l : Lengths) (index : ValidPieceIndex) : Z :=
  if index =? l_last_piece_id l
  then div_ceil (l_last_piece_length l) CHUNK_SIZE
  else l_chunks_per_piece l.

Definition total_chunks (l : Lengths) : Z :=
  wrap32 (wrap32 (l_last_piece_id l * l_chunks_per_piece l)
          + chunks_per_piece l (l_last_piece_id l)).

Definition chunk_bitfield_bytes (l : Lengths) : Z := div_ceil (total_chunks l) 8.

Definition validate_piece_index (l : Lengths) (index : Z) : option ValidPieceIndex :=
  if l_last_piece_id l <? index then None else Some index.

Definition try_validate_piece_index (l : Lengths) (index : Z) : result Error ValidPieceIndex :=
  ok_or (validate_piece_index l index) (InvalidPieceIndex index).

Definition piece_length (l : Lengths) (index : ValidPieceIndex) : Z :=
  if index =? l_last_piece_id l then l_last_piece_length l else l_piece_length l.

Definition piece_offset (l : Lengths) (index : ValidPieceIndex) : Z :=
  wrap64 (index * l_piece_length l).

Definition chunk_absolute_offset (l : Lengths) (ci : ChunkInfo) : Z :=
  wrap64 (piece_offset l (ci_piece_index ci) + ci_offset ci).

Definition iter_piece_infos (l : Lengths) : list PieceInfo :=
  (fun idx => {| pi_piece_index := idx;
                 pi_len := if idx =? l_last_piece_id l
                           then l_last_piece_length l else l_piece_length l |})
    <$> seqZ 0 (total_pieces l).

(** The half-open range [start..end] of piece ids, as a pair. *)
Definition iter_pieces_within_offset (l : Lengths) (offset_bytes len : Z) : Z * Z :=
  let offset_bytes := Z.min offset_bytes (l_total_length l) in
  let end_bytes := Z.min (wrap64 (offset_bytes + len)) (l_total_length l) in
  let start_piece_id := wrap32 (offset_bytes / l_piece_length l) in
  let end_piece_id :=
    if end_bytes =? offset_bytes then start_piece_id
    else wrap32 (div_ceil end_bytes (l_piece_length l)) in
  (start_piece_id, end_piece_id).

(** The [scan] of [iter_chunk_infos]: [offset] and [remaining] are its state. *)
Fixpoint iter_chunk_infos_scan (fuel : nat) (index : ValidPieceIndex)
    (absolute_offset idx offset remaining : Z) : list ChunkInfo :=
  match fuel with
  | O => []
  | S fuel =>
      if remaining =? 0 then []
      else
        let s := Z.min remaining CHUNK_SIZE in
        {| ci_piece_index := index;
           ci_chunk_index := idx;
           ci_absolute_index := wrap32 (absolute_offset + idx);
           ci_size := s;
           ci_offset := offset |}
        :: iter_chunk_infos_scan fuel index absolute_offset (idx + 1)
             (wrap32 (offset + s)) (remaining - s)
  end.

(** Fuel: every step consumes [min remaining CHUNK_SIZE] bytes, so the number
    of chunks of the piece is enough ([iter_chunk_infos_closed]). *)
Definition iter_chunk_infos (l : Lengths) (index : ValidPieceIndex) : list ChunkInfo :=
  let remaining := piece_length l index in
  iter_chunk_infos_scan (Z.to_nat (div_ceil remaining CHUNK_SIZE)) index
    (wrap32 (index * l_chunks_per_piece l)) 0 0 remaining.

Definition chunk_offset_in_piece (l : Lengths) (piece_index : ValidPieceIndex)
    (chunk_index : Z) : option Z :=
  if chunks_per_piece l piece_index <=? chunk_index then None
  else Some (wrap32 (chunk_index * CHUNK_SIZE)).

Definition chunk_size (l : Lengths) (piece_index : ValidPieceIndex)
    (chunk_index : Z) : option Z :=
  let piece_length := piece_length l piece_index in
  let last_chunk_id := wrap32 (div_ceil piece_length CHUNK_SIZE - 1) in
  if chunk_index <? last_chunk_id then Some CHUNK_SIZE
  else if chunk_index =? last_chunk_id
  then Some (last_element_size piece_length CHUNK_SIZE)
  else None.

Definition chunk_info_from_received_data (l : Lengths) (piece_index : ValidPieceIndex)
    (begin_ chunk_size_ : Z) : option ChunkInfo :=
  let index := begin_ / CHUNK_SIZE in
  expected_chunk_size ← chunk_size l piece_index index;
  offset ← chunk_offset_in_piece l piece_index index;
  if negb (offset =? begin_) then None
  else if negb (expected_chunk_size =? chunk_size_) then None
  else
    Some {| ci_piece_index := piece_index;
            ci_chunk_index := index;
            ci_size := chunk_size_;
            ci_offset := offset;
            ci_absolute_index :=
              wrap32 (wrap32 (l_chunks_per_piece l * piece_index) + index) |}.

(** The half-open range of chunk bits of a piece. *)
Definition chunk_range (l : Lengths) (index : ValidPieceIndex) : Z * Z :=
  let start := wrap32 (index * l_chunks_per_piece l) in
  (start, wrap32 (start + chunks_per_piece l index)).

Definition size_of_piece_in_file (l : Lengths) (piece_id file_offset file_len : Z) : Z :=
  let piece_offset := wrap64 (piece_id * l_piece_length l) in
  let piece_end := wrap64 (piece_offset + l_piece_length l) in
  let file_end := wrap64 (file_offset + file_len) in
  let offset := Z.max file_offset piece_offset in
  let end_ := Z.min file_end piece_end in
  saturating_sub end_ offset.

Record CurrentPiece := mkCurrentPiece {
  cp_id : ValidPieceIndex;
  cp_piece_remaining : Z;
  cp_piece_offset : Z;
}.

Definition compute_current_piece (l : Lengths)
    (file_pos file_torrent_abs_offset : Z) : option CurrentPiece :=
  let dpl := l_piece_length l in
  let abs_pos := wrap64 (file_torrent_abs_offset + file_pos) in
  piece_id ← try_into_u32 (abs_pos / dpl);
  piece_id ← validate_piece_index l piece_id;
  let piece_len := piece_length l piece_id in
  piece_offset ← try_into_u32 (abs_pos / dpl);
  piece_remaining ← try_into_u32 (wrap64 (piece_len - abs_pos mod dpl));
  Some {| cp_id := piece_id;
          cp_piece_offset := piece_offset;
          cp_piece_remaining := piece_remaining |}.

(** ** Well-formedness *)

(** The inputs [new] is meant for: a non-empty torrent whose chunks can be
    counted in a u32. *)
Definition valid_input (total_length piece_length : Z) : Prop :=
  0 < total_length < U64 /\ 0 < piece_length < U32 /\
  ((total_length - 1) / piece_length + 1) * div_ceil piece_length CHUNK_SIZE < U32.

Record wf (l : Lengths) : Prop := {
  wf_input : valid_input (l_total_length l) (l_piece_length l);
  wf_last_piece_id : l_last_piece_id l = (l_total_length l - 1) / l_piece_length l;
  wf_last_piece_length :
    l_last_piece_length l = l_total_length l - l_last_piece_id l * l_piece_length l;
  wf_chunks_per_piece : l_chunks_per_piece l = div_ceil (l_piece_length l) CHUNK_SIZE;
}.

(** [ValidPieceIndex]: an index [validate_piece_index] has accepted. *)
Definition valid_index (l : Lengths) (i : Z) : Prop := 0 <= i <= l_last_piece_id l.

(** The number of pieces, without machine arithmetic. *)
Definition pieces (l : Lengths) : Z := l_last_piece_id l + 1.

(** All the arithmetic facts the proofs below use, in one place. *)
Lemma wf_facts l : wf l ->
  0 < l_total_length l < U64 /\ 0 < l_piece_length l < U32 /\
  0 <= l_last_piece_id l /\
  0 < l_last_piece_length l <= l_piece_length l /\
  l_total_length l = l_last_piece_id l * l_piece_length l + l_last_piece_length l /\
  0 < l_chunks_per_piece l /\
  (l_chunks_per_piece l - 1) * CHUNK_SIZE < l_piece_length l
    <= l_chunks_per_piece l * CHUNK_SIZE /\
  pieces l * l_chunks_per_piece l < U32 /\ pieces l < U32.
Proof.
  intros [(Ht & Hp & Hc) Hid Hlen Hcpp]. unfold pieces, CHUNK_SIZE in *.
  pose proof (div_ceil_pos (l_piece_length l) 16384).
  pose proof (div_ceil_spec (l_piece_length l) 16384).
  rewrite Hcpp, Hlen, Hid in *.
  set (q := (l_total_length l - 1) / l_piece_length l) in *.
  assert (0 <= q /\ q * l_piece_length l < l_total_length l <= (q + 1) * l_piece_length l)
    by (unfold q; znia).
  repeat split; nia.
Qed.

Ltac lengths_facts :=
  match goal with
  | H : wf ?l |- _ =>
      let F := fresh "F" in
      pose proof (wf_facts l H) as F; unfold CHUNK_SIZE, pieces in F;
      destruct F as (? & ? & ? & ? & ? & ? & ? & ? & ?)
  end.

(** The whole torrent is far below the 64-bit limit. *)
Lemma wf_total_bound l : wf l -> l_total_length l + l_piece_length l < U64.
Proof. intros H. lengths_facts. nia. Qed.

Lemma total_pieces_eq l : wf l -> total_pieces l = pieces l.
Proof. intros H. lengths_facts. unfold total_pieces, pieces. apply wrap32_small; lia. Qed.

Lemma validate_piece_index_Some l i j :
  validate_piece_index l i = Some j <-> j = i /\ i <= l_last_piece_id l.
Proof.
  unfold validate_piece_index. bcases; split; try (intros [-> ?]); try (intros [=]);
    subst; try lia; try done; split; done || lia.
Qed.

(** A piece is the part of the blob between two consecutive piece offsets. *)
Lemma piece_length_cut l i : wf l -> valid_index l i ->
  piece_length l i = Z.min (l_total_length l) ((i + 1) * l_piece_length l)
                     - i * l_piece_length l.
Proof.
  intros H Hi. lengths_facts. unfold piece_length, valid_index in *. bcases; nia.
Qed.

Lemma piece_length_pos l i : wf l -> valid_index l i ->
  0 < piece_length l i <= l_piece_length l.
Proof. intros H Hi. lengths_facts. unfold piece_length. bcases; lia. Qed.

(** Chunk bit positions stay below 2^32. *)
Lemma chunk_base_bound l i : wf l -> valid_index l i ->
  0 <= i * l_chunks_per_piece l /\ i * l_chunks_per_piece l + l_chunks_per_piece l < U32.
Proof. intros H Hi. lengths_facts. unfold valid_index in *. clear -Hi H0 H1 H2 H5 H7. nia. Qed.

Lemma piece_offset_eq l i : wf l -> valid_index l i ->
  piece_offset l i = i * l_piece_length l.
Proof.
  intros H Hi. lengths_facts. unfold piece_offset, valid_index in *.
  apply wrap64_small. nia.
Qed.

Lemma chunks_per_piece_eq l i : wf l -> valid_index l i ->
  chunks_per_piece l i = div_ceil (piece_length l i) CHUNK_SIZE.
Proof.
  intros H Hi. unfold chunks_per_piece, piece_length. bcases; [done|].
  by rewrite (wf_chunks_per_piece l H).
Qed.

Lemma chunks_per_piece_bound l i : wf l -> valid_index l i ->
  0 < chunks_per_piece l i <= l_chunks_per_piece l.
Proof.
  intros H Hi. rewrite chunks_per_piece_eq by done.
  pose proof (piece_length_pos l i H Hi). lengths_facts.
  unfold CHUNK_SIZE. split.
  - apply div_ceil_pos; lia.
  - apply div_ceil_le; lia.
Qed.

Lemma chunk_range_eq l i : wf l -> valid_index l i ->
  chunk_range l i = (i * l_chunks_per_piece l,
                     i * l_chunks_per_piece l + chunks_per_piece l i).
Proof.
  intros H Hi. pose proof (chunks_per_piece_bound l i H Hi). lengths_facts.
  unfold chunk_range, valid_index in *.
  rewrite (wrap32_small (i * _)) by nia. rewrite wrap32_small by nia. done.
Qed.

Lemma total_chunks_eq l : wf l ->
  total_chunks l = l_last_piece_id l * l_chunks_per_piece l
                   + chunks_per_piece l (l_last_piece_id l).
Proof.
  intros H. assert (Hv : valid_index l (l_last_piece_id l)).
  { lengths_facts. unfold valid_index. lia. }
  pose proof (chunks_per_piece_bound l _ H Hv). lengths_facts. unfold total_chunks.
  rewrite (wrap32_small (_ * _)) by nia. apply wrap32_small. nia.
Qed.

Lemma last_element_size_eq t p : 0 < t -> 0 < p ->
  last_element_size t p = t - (div_ceil t p - 1) * p.
Proof. unfold last_element_size, div_ceil. intros; bcases; znia. Qed.

(** On a non-zero length and piece length (whose piece count fits a u32)
    [new] succeeds without a panic, and the fields it stores are the exact
    counts and remainders: a well-formed [Lengths]. *)
Theorem new_wf total pl : valid_input total pl ->
  exists l, new total pl = Done (Ok l) /\ wf l /\
    l_total_length l = total /\ l_piece_length l = pl /\
    total_pieces l = div_ceil total pl.
Proof.
  intros (Ht & Hp & Hc).
  assert (0 < div_ceil pl CHUNK_SIZE) by (apply div_ceil_pos; unfold CHUNK_SIZE; lia).
  assert (0 <= (total - 1) / pl /\ (total - 1) / pl < U32 - 1)
    by (split; [apply Z.div_pos; lia | nia]).
  unfold new. bcases; [lia..|]. eexists. split; [done|].
  rewrite last_element_size_eq, div_ceil_pred by lia.
  assert (Hlast : wrap32 (total - ((total - 1) / pl + 1 - 1) * pl)
                  = total - ((total - 1) / pl) * pl).
  { rewrite wrap32_small; [f_equal; f_equal; lia|]. znia. }
  rewrite Hlast, (wrap32_small ((total - 1) / pl + 1)) by lia. autorewrite with wrap.
  split.
  - constructor; simpl; [unfold valid_input; tauto|lia|lia|done].
  - unfold total_pieces. simpl. rewrite wrap32_small by lia. split_and!; try done; lia.
Qed.

(** ** Chunks of a piece *)

(** The [k]-th chunk of a piece, in closed form. *)
Definition nth_chunk (l : Lengths) (i k : Z) : ChunkInfo := {|
  ci_piece_index := i;
  ci_chunk_index := k;
  ci_absolute_index := i * l_chunks_per_piece l + k;
  ci_size := Z.min (piece_length l i - k * CHUNK_SIZE) CHUNK_SIZE;
  ci_offset := k * CHUNK_SIZE;
|}.

Lemma iter_chunk_infos_scan_closed l i n idx : wf l -> valid_index l i ->
  0 <= idx -> 0 <= n -> idx + n = chunks_per_piece l i ->
  iter_chunk_infos_scan (Z.to_nat n) i (i * l_chunks_per_piece l) idx (idx * CHUNK_SIZE)
    (Z.max 0 (piece_length l i - idx * CHUNK_SIZE))
  = nth_chunk l i <$> seqZ idx n.
Proof.
  intros H Hi Hidx Hn. revert idx Hidx. pattern n. apply natlike_ind; [done| |done].
  clear n Hn. intros n Hn IH idx Hidx Hsum.
  pose proof (chunks_per_piece_eq l i H Hi) as Hcpp.
  pose proof (piece_length_pos l i H Hi) as Hpl.
  pose proof (div_ceil_gt idx (piece_length l i) CHUNK_SIZE) as Hgt.
  pose proof (chunks_per_piece_bound l i H Hi) as Hb.
  lengths_facts. unfold valid_index in Hi. unfold CHUNK_SIZE in *.
  rewrite Z2Nat.inj_succ, seqZ_cons by lia. cbn [iter_chunk_infos_scan fmap list_fmap].
  rewrite Z.max_r by lia. destruct (Z.eqb_spec (piece_length l i - idx * 16384) 0); [lia|].
  f_equal.
  - unfold nth_chunk, CHUNK_SIZE. f_equal. apply wrap32_small; nia.
  - rewrite Z.pred_succ, <- (IH (Z.succ idx)) by lia.
    destruct (decide (n = 0)) as [->|Hn0]; [done|].
    pose proof (div_ceil_gt (idx + 1) (piece_length l i) 16384).
    f_equal; unfold CHUNK_SIZE; [rewrite wrap32_small; lia|lia].
Qed.

Lemma iter_chunk_infos_closed l i : wf l -> valid_index l i ->
  iter_chunk_infos l i = nth_chunk l i <$> seqZ 0 (chunks_per_piece l i).
Proof.
  intros H Hi. pose proof (chunks_per_piece_bound l i H Hi) as Hb.
  pose proof (piece_length_pos l i H Hi) as Hpl.
  rewrite <- (iter_chunk_infos_scan_closed l i (chunks_per_piece l i) 0) by (done || lia).
  unfold iter_chunk_infos. rewrite chunks_per_piece_eq by done.
  pose proof (chunk_base_bound l i H Hi). lengths_facts.
  rewrite wrap32_small by lia. f_equal; lia.
Qed.

Lemma elem_of_iter_chunk_infos l i ci : wf l -> valid_index l i ->
  ci ∈ iter_chunk_infos l i <->
  exists k, 0 <= k < chunks_per_piece l i /\ ci = nth_chunk l i k.
Proof.
  intros H Hi. rewrite iter_chunk_infos_closed, list_elem_of_fmap by done.
  setoid_rewrite elem_of_seqZ.
  split; intros (k & ? & ?); exists k; (split; [|lia || done]); lia || done.
Qed.

Lemma chunk_size_eq l i k : wf l -> valid_index l i -> 0 <= k ->
  chunk_size l i k =
  if k <? chunks_per_piece l i
  then Some (Z.min (piece_length l i - k * CHUNK_SIZE) CHUNK_SIZE) else None.
Proof.
  intros H Hi Hk. pose proof (piece_length_pos l i H Hi).
  pose proof (chunks_per_piece_bound l i H Hi) as Hb.
  unfold chunk_size. rewrite last_element_size_eq by (unfold CHUNK_SIZE; lia).
  rewrite chunks_per_piece_eq in * by done.
  pose proof (div_ceil_spec (piece_length l i) CHUNK_SIZE) as Hs.
  lengths_facts. unfold CHUNK_SIZE in *. rewrite wrap32_small by nia.
  bcases; try lia; f_equal; lia.
Qed.

Lemma chunk_offset_in_piece_eq l i k : wf l -> valid_index l i -> 0 <= k ->
  chunk_offset_in_piece l i k =
  if k <? chunks_per_piece l i then Some (k * CHUNK_SIZE) else None.
Proof.
  intros H Hi Hk. pose proof (piece_length_pos l i H Hi).
  unfold chunk_offset_in_piece. bcases; try lia; [|done]. f_equal.
  rewrite chunks_per_piece_eq in * by done.
  pose proof (div_ceil_gt k (piece_length l i) CHUNK_SIZE).
  lengths_facts. unfold CHUNK_SIZE in *. apply wrap32_small. lia.
Qed.

Lemma nth_chunk_size_pos l i k : wf l -> valid_index l i -> k < chunks_per_piece l i -> 0 < ci_size (nth_chunk l i k).
Proof.
  intros H Hi. pose proof (piece_length_pos l i H Hi). rewrite (chunks_per_piece_eq l i H Hi), div_ceil_gt by (unfold CHUNK_SIZE; lia).
  simpl. unfold CHUNK_SIZE in *. lia.
Qed.

Lemma chunk_info_from_received_data_eq l i b s : wf l -> valid_index l i -> 0 <= b ->
  chunk_info_from_received_data l i b s =
  let k := b / CHUNK_SIZE in
  if (k <? chunks_per_piece l i) && (b =? k * CHUNK_SIZE)
     && (s =? ci_size (nth_chunk l i k))
  then Some (nth_chunk l i k) else None.
Proof.
  intros H Hi Hb. assert (0 <= b / CHUNK_SIZE) by (apply Z.div_pos; unfold CHUNK_SIZE; lia).
  unfold chunk_info_from_received_data. cbv zeta.
  rewrite chunk_size_eq, chunk_offset_in_piece_eq by done.
  pose proof (chunks_per_piece_bound l i H Hi).
  destruct (Z.ltb_spec (b / CHUNK_SIZE) (chunks_per_piece l i)); [|done]. simpl.
  rewrite (Z.eqb_sym _ b), (Z.eqb_sym _ s).
  destruct (Z.eqb_spec b (b / CHUNK_SIZE * CHUNK_SIZE)) as [Hbeq|]; [|done]. simpl.
  destruct (Z.eqb_spec s (Z.min (piece_length l i - b / CHUNK_SIZE * CHUNK_SIZE) CHUNK_SIZE))
    as [->|]; [|done]. simpl. f_equal.
  unfold nth_chunk. f_equal. pose proof (chunk_base_bound l i H Hi).
  rewrite (wrap32_small (_ * i)) by lia. rewrite wrap32_small by lia. lia.
Qed.

(** ** Properties *)

(** [new] never accepts an empty torrent, and a zero piece length is not
    an error value: the division in [div_ceil] panics. *)
Theorem new_error_branches total pl :
  new 0 pl = Done (Err BadTorrentZeroLength) /\ (total <> 0 -> new total 0 = Panic).
Proof. split; [done|]. intros Ht. unfold new. bcases; done. Qed.

Lemma new_error_branches_witness : new 1 0 = Panic.
Proof. apply (new_error_branches 1 16384). lia. Defined.

Lemma iter_piece_infos_eq l :
  iter_piece_infos l = (fun i => mkPieceInfo i (piece_length l i)) <$> seqZ 0 (total_pieces l).
Proof. done. Qed.

Lemma piece_lengths_sum l n : wf l -> 0 <= n <= pieces l ->
  sumZ (piece_length l <$> seqZ 0 n) = Z.min (l_total_length l) (n * l_piece_length l).
Proof.
  intros H Hn.
  rewrite (sumZ_telescope _ (fun i => Z.min (l_total_length l) (i * l_piece_length l))).
  - lengths_facts. rewrite Z.add_0_l, Z.mul_0_l. lia.
  - lia.
  - intros i Hi. assert (Hv : valid_index l i) by (unfold valid_index, pieces in *; lia).
    rewrite piece_length_cut by done. lengths_facts.
    assert (i * l_piece_length l <= l_last_piece_id l * l_piece_length l).
    { apply Z.mul_le_mono_nonneg_r; unfold valid_index in *; lia. }
    lia.
Qed.

Lemma piece_lengths_total l : wf l ->
  sumZ (piece_length l <$> seqZ 0 (pieces l)) = l_total_length l.
Proof.
  intros H. rewrite piece_lengths_sum by (done || (lengths_facts; unfold pieces; lia)).
  lengths_facts. unfold pieces. lia.
Qed.

(** The pieces tile the torrent: their lengths sum to the total length,
    the [k]-th one starts where the previous ones end, and its recorded
    length is [piece_length]. *)
Theorem piece_infos_tile l : wf l ->
  sumZ (pi_len <$> iter_piece_infos l) = l_total_length l /\
  forall k, valid_index l k ->
    iter_piece_infos l !! Z.to_nat k = Some (mkPieceInfo k (piece_length l k)) /\
    piece_offset l k = sumZ (pi_len <$> take (Z.to_nat k) (iter_piece_infos l)).
Proof.
  intros H. rewrite iter_piece_infos_eq, total_pieces_eq by done. split.
  - rewrite <- list_fmap_compose. by apply piece_lengths_total.
  - intros k Hk. pose proof Hk as [? ?]. split.
    + rewrite list_lookup_fmap, lookup_seqZ_lt by (unfold pieces; lia). simpl.
      by rewrite Z2Nat.id, Z.add_0_l by lia.
    + rewrite <- fmap_take, <- list_fmap_compose. unfold seqZ at 1.
      rewrite <- fmap_take, take_seq, Nat.min_l by (unfold pieces; lia).
      rewrite piece_offset_eq by done.
      pose proof (piece_lengths_sum l k H) as Hs. unfold seqZ in Hs.
      etransitivity; [|symmetry; apply Hs; unfold pieces; lia].
      lengths_facts. assert (k * l_piece_length l <= l_last_piece_id l * l_piece_length l).
      { apply Z.mul_le_mono_nonneg_r; lia. } lia.
Qed.

(** A concrete torrent of 35000 bytes in pieces of 20000: two chunks in the
    first piece, one in the second. *)
Definition ex_lengths : Lengths := mkLengths 35000 20000 1 15000 2.

Lemma ex_lengths_new : new 35000 20000 = Done (Ok ex_lengths).
Proof. reflexivity. Qed.

Lemma ex_lengths_wf : wf ex_lengths.
Proof. constructor; [|reflexivity..]. split_and!; vm_compute; done. Qed.

Lemma new_wf_witness : valid_input 35000 20000 /\
  exists l, new 35000 20000 = Done (Ok l) /\ wf l.
Proof.
  assert (Hv : valid_input 35000 20000) by (split_and!; vm_compute; done).
  split; [exact Hv|]. destruct (new_wf 35000 20000 Hv) as (l & ? & ? & _). eauto.
Defined.

Lemma piece_infos_tile_witness :
  sumZ (pi_len <$> iter_piece_infos ex_lengths) = 35000.
Proof. exact (proj1 (piece_infos_tile ex_lengths ex_lengths_wf)). Defined.

(** The chunks of a piece tile it, and the check on data received from a
    peer accepts exactly them: a block is accepted iff [iter_chunk_infos]
    lists a chunk with that offset and that size. *)
Theorem received_chunk_iff l i b s ci : wf l -> valid_index l i -> 0 <= b ->
  chunk_info_from_received_data l i b s = Some ci <->
  ci ∈ iter_chunk_infos l i /\ ci_offset ci = b /\ ci_size ci = s.
Proof.
  intros H Hi Hb. rewrite chunk_info_from_received_data_eq by done.
  rewrite elem_of_iter_chunk_infos by done. cbv zeta.
  assert (Hk : forall k, k * CHUNK_SIZE / CHUNK_SIZE = k)
    by (intros; apply Z.div_mul; unfold CHUNK_SIZE; lia).
  split.
  - destruct (_ && _) eqn:E; intros [= <-].
    apply andb_prop in E as [[? ?]%andb_prop ?]. bcases; try done.
    split; [|by subst]. exists (b / CHUNK_SIZE). split; [|done].
    split; [apply Z.div_pos; unfold CHUNK_SIZE; lia | done].
  - intros [(k & Hr & ->) [<- <-]]. simpl. rewrite Hk.
    bcases; try lia. done.
Qed.

Lemma received_chunk_iff_witness :
  chunk_info_from_received_data ex_lengths 0 16384 3616
  = Some (mkChunkInfo 0 1 1 3616 16384).
Proof.
  apply (received_chunk_iff ex_lengths 0 16384 3616); [exact ex_lengths_wf|unfold valid_index; simpl; lia|lia|].
  split_and!; [|done..]. vm_compute. right; left.
Defined.

(** The chunks of a piece are consecutive and their sizes sum to the
    length of the piece. *)
Theorem chunk_infos_tile l i : wf l -> valid_index l i ->
  sumZ (ci_size <$> iter_chunk_infos l i) = piece_length l i /\
  forall k ci, iter_chunk_infos l i !! k = Some ci ->
    ci_chunk_index ci = Z.of_nat k /\
    ci_offset ci = sumZ (ci_size <$> take k (iter_chunk_infos l i)) /\
    0 < ci_size ci <= CHUNK_SIZE.
Proof.
  intros H Hi. rewrite iter_chunk_infos_closed by done.
  pose proof (chunks_per_piece_bound l i H Hi) as Hb.
  pose proof (piece_length_pos l i H Hi) as Hpl.
  pose proof (chunks_per_piece_eq l i H Hi) as Hc.
  assert (Hgt : forall k, k < chunks_per_piece l i <-> k * CHUNK_SIZE < piece_length l i).
  { intros k. rewrite Hc. apply div_ceil_gt; unfold CHUNK_SIZE; lia. }
  set (g k := Z.min (piece_length l i) (k * CHUNK_SIZE)).
  assert (Hsum : forall n, 0 <= n <= chunks_per_piece l i ->
    sumZ (ci_size <$> (nth_chunk l i <$> seqZ 0 n)) = g n).
  { intros n Hn. rewrite <- list_fmap_compose.
    rewrite (sumZ_telescope _ g); [unfold g; unfold CHUNK_SIZE; lia|lia|].
    intros k Hk. simpl. unfold g. specialize (Hgt k). unfold CHUNK_SIZE in *. lia. }
  pose proof (Hgt (chunks_per_piece l i)).
  split; [rewrite Hsum by lia; unfold g; lia|].
  intros k ci Hlook. rewrite list_lookup_fmap_Some in Hlook.
  destruct Hlook as (z & -> & [-> Hz]%lookup_seqZ). simpl.
  specialize (Hgt (0 + Z.of_nat k)). split; [lia|]. split.
  - rewrite <- fmap_take. unfold seqZ. rewrite <- fmap_take, take_seq, Nat.min_l by lia.
    pose proof (Hsum (Z.of_nat k)) as Hk. unfold seqZ in Hk. rewrite Nat2Z.id in Hk.
    rewrite Hk by lia. unfold g. unfold CHUNK_SIZE in *. lia.
  - unfold CHUNK_SIZE in *. lia.
Qed.

Lemma chunk_infos_tile_witness :
  sumZ (ci_size <$> iter_chunk_infos ex_lengths 0) = 20000.
Proof.
  apply (chunk_infos_tile ex_lengths 0 ex_lengths_wf). unfold valid_index; simpl; lia.
Defined.

Lemma chunk_range_unique l i j c : wf l -> valid_index l i -> valid_index l j ->
  (chunk_range l i).1 <= c < (chunk_range l i).2 ->
  (chunk_range l j).1 <= c < (chunk_range l j).2 -> i = j.
Proof.
  intros H Hi Hj. rewrite !chunk_range_eq by done. cbn [fst snd]. intros Hwi Hwj.
  pose proof (chunks_per_piece_bound l i H Hi). pose proof (chunks_per_piece_bound l j H Hj).
  pose proof (mul_lt_step i j (l_chunks_per_piece l)).
  pose proof (mul_lt_step j i (l_chunks_per_piece l)). lia.
Qed.

(** The chunk ranges of the pieces partition the bits of the chunk
    bitfield: every bit below [total_chunks] is in the range of exactly one
    valid piece, and no range reaches beyond. *)
Theorem chunk_ranges_partition l c : wf l ->
  let within i := (chunk_range l i).1 <= c < (chunk_range l i).2 in
  (0 <= c < total_chunks l <-> exists i, valid_index l i /\ within i) /\
  (forall i j, valid_index l i -> valid_index l j -> within i -> within j -> i = j).
Proof.
  intros H within.
  assert (Hw : forall i, valid_index l i -> within i <->
    i * l_chunks_per_piece l <= c < i * l_chunks_per_piece l + chunks_per_piece l i).
  { intros i Hi. unfold within. by rewrite chunk_range_eq. }
  assert (Hlast : valid_index l (l_last_piece_id l)).
  { lengths_facts. unfold valid_index. lia. }
  assert (Hb : forall i, valid_index l i -> 0 < chunks_per_piece l i <= l_chunks_per_piece l)
    by (intros; by apply chunks_per_piece_bound).
  assert (Hfull : forall i, i <> l_last_piece_id l -> chunks_per_piece l i = l_chunks_per_piece l).
  { intros i Hi. unfold chunks_per_piece. bcases; done. }
  split.
  - rewrite total_chunks_eq by done. pose proof (Hb _ Hlast). split.
    + intros Hc. assert (0 < l_chunks_per_piece l) by lia.
      destruct (div_bounds c (l_chunks_per_piece l)) as [Hq0 Hq]; [lia..|].
      set (q := c / l_chunks_per_piece l) in *.
      assert (Hqv : valid_index l q).
      { split; [done|]. apply Z.lt_succ_r, Z.nle_gt. intros Hle.
        pose proof (mul_lt_step (l_last_piece_id l) q (l_chunks_per_piece l)). lia. }
      exists q. split; [done|]. apply Hw; [done|].
      destruct (decide (q = l_last_piece_id l)) as [->|Hne]; [lia|].
      rewrite Hfull by done. lia.
    + intros (i & Hi & Hwi). apply Hw in Hwi; [|done]. pose proof (Hb i Hi).
      pose proof (chunk_base_bound l i H Hi).
      destruct (decide (i = l_last_piece_id l)) as [->|]; [lia|].
      pose proof (mul_lt_step i (l_last_piece_id l) (l_chunks_per_piece l)).
      unfold valid_index in *. lia.
  - intros i j Hi Hj Hwi Hwj. by apply (chunk_range_unique l i j c).
Qed.

Lemma chunk_ranges_partition_witness :
  exists i, valid_index ex_lengths i /\ (chunk_range ex_lengths i).1 <= 2 < (chunk_range ex_lengths i).2.
Proof. apply (chunk_ranges_partition ex_lengths 2 ex_lengths_wf). vm_compute; done. Defined.

(** ** Files laid over the pieces *)

(** The bytes of piece [i] inside the interval, in closed form. *)
Lemma size_of_piece_in_file_eq l i off len : wf l -> is_u32 i -> 0 <= off -> 0 <= len ->
  off + len <= l_total_length l ->
  size_of_piece_in_file l i off len =
  Z.max 0 (Z.min (off + len) ((i + 1) * l_piece_length l) - Z.max off (i * l_piece_length l)).
Proof.
  intros H Hi Ho Hl Ht. pose proof (wf_total_bound l H). lengths_facts.
  assert (0 <= i * l_piece_length l /\ i * l_piece_length l + l_piece_length l < U64).
  { unfold is_u32 in *. clear -Hi H2. nia. }
  unfold size_of_piece_in_file, saturating_sub.
  rewrite !wrap64_small by (rewrite ?wrap64_small; lia). lia.
Qed.

(** The cut points of an interval at the piece boundaries. *)
Lemma size_of_piece_in_file_telescope l i off len : wf l -> is_u32 i -> 0 <= off -> 0 <= len ->
  off + len <= l_total_length l ->
  let g k := Z.max off (Z.min (k * l_piece_length l) (off + len)) in
  size_of_piece_in_file l i off len = g (i + 1) - g i.
Proof.
  intros H Hi Ho Hl Ht g. rewrite size_of_piece_in_file_eq by done. unfold g.
  lengths_facts. lia.
Qed.

Lemma iter_pieces_within_offset_eq l off len : wf l -> 0 <= off -> 0 <= len ->
  off + len <= l_total_length l ->
  iter_pieces_within_offset l off len =
  (off / l_piece_length l,
   if len =? 0 then off / l_piece_length l else div_ceil (off + len) (l_piece_length l)).
Proof.
  intros H Ho Hl Ht. pose proof (wf_total_bound l H). lengths_facts.
  unfold iter_pieces_within_offset.
  rewrite (Z.min_l off), wrap64_small, (Z.min_l (off + len)) by lia.
  assert (Hdiv : off / l_piece_length l <= l_last_piece_id l + 1).
  { apply Z.div_le_upper_bound; lia. }
  assert (Hceil : div_ceil (off + len) (l_piece_length l) <= l_last_piece_id l + 1).
  { apply div_ceil_le; lia. }
  pose proof (Z.div_pos off (l_piece_length l)).
  pose proof (div_ceil_nonneg (off + len) (l_piece_length l)).
  autorewrite with wrap. bcases; try lia; done.
Qed.

Lemma iter_pieces_within_offset_spec l off len : wf l -> 0 <= off -> 0 <= len ->
  off + len <= l_total_length l ->
  let r := iter_pieces_within_offset l off len in
  (forall i, is_u32 i ->
     r.1 <= i < r.2 <-> valid_index l i /\ 0 < size_of_piece_in_file l i off len) /\
  sumZ ((fun i => size_of_piece_in_file l i off len) <$> seqZ r.1 (r.2 - r.1)) = len.
Proof.
  intros H Ho Hl Ht r. unfold r. rewrite iter_pieces_within_offset_eq by done. cbn [fst snd].
  lengths_facts. destruct (div_bounds off (l_piece_length l)) as [Hq0 Hq]; [lia..|].
  set (q := off / l_piece_length l) in *. destruct (Z.eqb_spec len 0) as [->|Hlen].
  - split.
    + intros i Hi. rewrite size_of_piece_in_file_eq by (done || lia). lia.
    + rewrite Z.sub_diag. done.
  - destruct (div_ceil_spec (off + len) (l_piece_length l)) as [He1 He2]; [lia..|].
    set (e := div_ceil (off + len) (l_piece_length l)) in *.
    assert (Hqe : q < e).
    { apply Z.nle_gt. intros Hle. pose proof (mul_le_mono_nonneg e q (l_piece_length l)).
      assert (0 <= e) by (apply div_ceil_nonneg; lia). lia. }
    assert (He : e <= l_last_piece_id l + 1) by (apply div_ceil_le; lia).
    split.
    + intros i Hi. rewrite size_of_piece_in_file_eq by (done || lia). unfold valid_index, is_u32 in *.
      assert (q <= i <-> off < (i + 1) * l_piece_length l).
      { split; intros Hle.
        - pose proof (mul_le_mono_nonneg q i (l_piece_length l)). lia.
        - apply Z.nlt_ge. intros Hlt. pose proof (mul_lt_step i q (l_piece_length l)). lia. }
      assert (i < e <-> i * l_piece_length l < off + len) by (apply div_ceil_gt; lia).
      lia.
    + rewrite (sumZ_telescope _
        (fun k => Z.max off (Z.min (k * l_piece_length l) (off + len)))).
      * replace (q + (e - q)) with e by lia. lia.
      * lia.
      * intros i Hi. apply size_of_piece_in_file_telescope; done || (unfold is_u32; lia).
Qed.

(** For a file inside the torrent, [iter_pieces_within_offset] lists
    exactly the valid pieces that hold at least one of its bytes, and the
    bytes those pieces hold add up to the length of the file. *)
Theorem pieces_within_offset_exact l off len : wf l -> 0 <= off -> 0 <= len ->
  off + len <= l_total_length l ->
  let r := iter_pieces_within_offset l off len in
  (forall i, is_u32 i ->
     r.1 <= i < r.2 <-> valid_index l i /\ 0 < size_of_piece_in_file l i off len) /\
  sumZ ((fun i => size_of_piece_in_file l i off len) <$> seqZ r.1 (r.2 - r.1)) = len.
Proof. apply iter_pieces_within_offset_spec. Qed.

Lemma pieces_within_offset_exact_witness :
  iter_pieces_within_offset ex_lengths 19000 3000 = (0, 2) /\
  0 < size_of_piece_in_file ex_lengths 1 19000 3000.
Proof.
  split; [reflexivity|].
  apply (pieces_within_offset_exact ex_lengths 19000 3000 ex_lengths_wf);
    [lia|lia|simpl; lia|split; lia|vm_compute; done].
Defined.

(** At a position inside the torrent, [compute_current_piece] names the
    piece that holds it and the number of bytes left in that piece, which is
    positive; beyond the end it returns nothing. *)
Theorem current_piece_spec l pos off : wf l -> 0 <= pos -> 0 <= off -> off + pos < U64 ->
  let p := off + pos in
  (p < l_total_length l -> exists cp,
     compute_current_piece l pos off = Some cp /\ valid_index l (cp_id cp) /\
     piece_offset l (cp_id cp) <= p /\ 0 < cp_piece_remaining cp /\
     p + cp_piece_remaining cp = piece_offset l (cp_id cp) + piece_length l (cp_id cp)) /\
  (l_total_length l < p -> compute_current_piece l pos off = None).
Proof.
  intros H Hp Ho Hlt p. unfold compute_current_piece. fold p.
  rewrite wrap64_small by lia. lengths_facts.
  destruct (div_bounds p (l_piece_length l)) as [Hq0 Hq]; [lia..|].
  pose proof (Z.div_mod p (l_piece_length l)) as Hdm.
  set (q := p / l_piece_length l) in *.
  assert (Hpl : q * l_piece_length l + p mod l_piece_length l = p) by lia. clear Hdm.
  split.
  - intros Hin.
    assert (Hv : valid_index l q).
    { split; [done|]. apply Z.lt_succ_r, Z.nle_gt. intros Hle.
      pose proof (mul_lt_step (l_last_piece_id l) q (l_piece_length l)). lia. }
    pose proof (piece_length_cut l q H Hv) as Hcut. pose proof (piece_length_pos l q H Hv).
    assert (Hu : try_into_u32 q = Some q).
    { apply try_into_u32_Some. unfold valid_index in *. lia. }
    rewrite Hu. simpl. assert (Hi : validate_piece_index l q = Some q).
    { apply validate_piece_index_Some. unfold valid_index in *. lia. }
    rewrite Hi. simpl. rewrite wrap64_small by lia.
    assert (Hr : try_into_u32 (piece_length l q - p mod l_piece_length l)
            = Some (piece_length l q - p mod l_piece_length l)).
    { apply try_into_u32_Some. pose proof (Z.mod_pos_bound p (l_piece_length l)). lia. }
    rewrite Hr. simpl. eexists. split; [done|]. simpl. rewrite piece_offset_eq by done.
    split; [done|]. lia.
  - intros Hout. destruct (try_into_u32 q) as [q'|] eqn:Hu; [|done]. simpl.
    apply try_into_u32_Some in Hu as [-> Hu].
    destruct (validate_piece_index l q) as [i|] eqn:Hi; [|done]. simpl.
    apply validate_piece_index_Some in Hi as [-> Hi].
    assert (q = l_last_piece_id l) as Hql.
    { apply Z.le_antisymm; [done|]. apply Z.nlt_ge. intros Hlt2.
      pose proof (mul_lt_step q (l_last_piece_id l) (l_piece_length l)). lia. }
    unfold piece_length. rewrite Hql, Z.eqb_refl.
    destruct (try_into_u32 _) eqn:Hr; [|done]. exfalso.
    apply try_into_u32_Some in Hr as [-> Hr]. unfold wrap64 in Hr.
    rewrite <- (Z.mod_add _ 1 U64), Z.mod_small in Hr by
      (pose proof (Z.mod_pos_bound p (l_piece_length l)); lia).
    pose proof (Z.mod_pos_bound p (l_piece_length l)). lia.
Qed.

Lemma current_piece_spec_witness : exists cp,
  compute_current_piece ex_lengths 5000 19000 = Some cp /\ cp_id cp = 1 /\
  24000 + cp_piece_remaining cp = 35000.
Proof.
  destruct (current_piece_spec ex_lengths 5000 19000 ex_lengths_wf) as [Hin _]; [lia..|].
  destruct Hin as (cp & Hcp & _ & _ & _ & Hr); [simpl; lia|].
  exists cp. split; [exact Hcp|]. revert Hr. injection Hcp as <-. done.
Defined.

(** The field [piece_offset] of [CurrentPiece] is documented by its name as an
    offset, but it is computed as [abs_pos / piece_length]: it always repeats
    the piece id. *)
Lemma current_piece_offset_is_id l pos off cp :
  compute_current_piece l pos off = Some cp -> cp_piece_offset cp = cp_id cp.
Proof.
  unfold compute_current_piece. intros Hc.
  repeat match goal with
  | H : (_ ← ?x; _) = Some _ |- _ => destruct x as [?|] eqn:?; simpl in H; [|done]
  end.
  simplify_eq. apply validate_piece_index_Some in Heqo0 as [-> _].
  apply try_into_u32_Some in Heqo as [-> _]. simpl in *. congruence.
Qed.
