(* ===== verification/BitBox.v ===== *)
(** * BitBox: the interface of the bit vectors the trackers are built on

    [BF = bitvec::boxed::BitBox<u8, Msb0>] ([crates/librtbit/src/type_aliases.rs])
    comes from the third-party crate [bitvec].  It is a parameter of the
    development: the class [BitBox] lists the mutating operations the trackers
    call, each with its documented effect on the sequence of bits ([bits]), and
    every theorem of the trackers is proved against the class.  Lists of
    booleans are an instance, used by the concrete examples. *)

From S2P Require Import Prelude.

Class BitBox (B : Type) := {
  (** The bits, in Msb0 order: what indexing, [len], [get], [all] and
      [iter_ones] read. *)
  bits : B -> list bool;
  (** [BitBox::from_boxed_slice] on [n] zero bytes. *)
  zeroed_bytes : nat -> B;
  (** [set(i, v)], called in range. *)
  bit_set : nat -> bool -> B -> B;
  (** [get_mut(s..e).fill(v)], called in range. *)
  bit_fill : nat -> nat -> bool -> B -> B;
  (** [!b], [b & b'], [b | b'] on operands of the same length. *)
  bit_not : B -> B;
  bit_and : B -> B -> B;
  bit_or : B -> B -> B;

  bits_zeroed n : bits (zeroed_bytes n) = replicate (8 * n) false;
  bits_set i v b : (i < length (bits b))%nat -> bits (bit_set i v b) = <[i:=v]> (bits b);
  bits_fill s e v b : (s <= e <= length (bits b))%nat ->
    bits (bit_fill s e v b) = take s (bits b) ++ replicate (e - s) v ++ drop e (bits b);
  bits_not b : bits (bit_not b) = negb <$> bits b;
  bits_and b b' : length (bits b) = length (bits b') ->
    bits (bit_and b b') = zip_with andb (bits b) (bits b');
  bits_or b b' : length (bits b) = length (bits b') ->
    bits (bit_or b b') = zip_with orb (bits b) (bits b');
}.

#[export] Program Instance list_bool_BitBox : BitBox (list bool) := {
  bits b := b;
  zeroed_bytes n := replicate (8 * n) false;
  bit_set i v b := <[i:=v]> b;
  bit_fill s e v b := take s b ++ replicate (e - s) v ++ drop e b;
  bit_not b := negb <$> b;
  bit_and := zip_with andb;
  bit_or := zip_with orb;
}.
Solve Obligations with done.

Section ops.
Context {B : Type} `{BitBox B}.

(** [b.len()]. *)
Definition bit_len (b : B) : Z := Z.of_nat (length (bits b)).

(** [b[i]]: panics out of range. *)
Definition bit_index (b : B) (i : Z) : outcome bool := unwrap (bits b !! Z.to_nat i).

(** [b.get(i).map(|r| *r).unwrap_or_default()]: the bit at [i], false outside. *)
Definition bit_at (b : B) (i : Z) : bool := default false (bits b !! Z.to_nat i).

(** [b.set(i, v)]: panics out of range. *)
Definition bit_set_checked (b : B) (i : Z) (v : bool) : outcome B :=
  if i <? bit_len b then Done (bit_set (Z.to_nat i) v b) else Panic.

(** [b.get(s..e)]: [None] when the range is not inside the vector. *)
Definition bit_get_range (b : B) (s e : Z) : option (list bool) :=
  if (s <=? e) && (e <=? bit_len b)
  then Some (take (Z.to_nat e - Z.to_nat s) (drop (Z.to_nat s) (bits b))) else None.

(** [b.get_mut(s..e)] followed by [fill(v)]. *)
Definition bit_fill_range (b : B) (s e : Z) (v : bool) : option B :=
  if (s <=? e) && (e <=? bit_len b)
  then Some (bit_fill (Z.to_nat s) (Z.to_nat e) v b) else None.

(** [iter_ones]. *)
Definition bit_iter_ones (b : B) : list Z :=
  filter (fun i => bits b !! Z.to_nat i = Some true) (seqZ 0 (bit_len b)).

Lemma bit_index_in b i : 0 <= i < bit_len b -> bit_index b i = Done (bit_at b i).
Proof.
  intros Hi. unfold bit_index, bit_at, bit_len in *.
  destruct (lookup_lt_is_Some_2 (bits b) (Z.to_nat i)) as [v Hv]; [lia|].
  by rewrite Hv.
Qed.

Lemma bit_at_out b i : bit_len b <= i -> bit_at b i = false.
Proof.
  intros Hi. unfold bit_at, bit_len in *. by rewrite lookup_ge_None_2 by lia.
Qed.

Lemma bit_at_zeroed n i : bit_at (zeroed_bytes n) i = false.
Proof.
  unfold bit_at. rewrite bits_zeroed.
  destruct (replicate _ _ !! _) as [v|] eqn:E; [|done].
  by apply lookup_replicate in E as [-> _].
Qed.

Lemma bit_len_zeroed n : bit_len (zeroed_bytes n) = 8 * Z.of_nat n.
Proof. unfold bit_len. rewrite bits_zeroed, length_replicate. lia. Qed.

Lemma bit_len_set b i v : 0 <= i < bit_len b ->
  bit_len (bit_set (Z.to_nat i) v b) = bit_len b.
Proof. intros Hi. unfold bit_len in *. by rewrite bits_set, length_insert by lia. Qed.

Lemma bit_at_set b i v j : 0 <= i < bit_len b -> 0 <= j ->
  bit_at (bit_set (Z.to_nat i) v b) j = if j =? i then v else bit_at b j.
Proof.
  intros Hi Hj. unfold bit_at, bit_len in *. rewrite bits_set by lia.
  destruct (Z.eqb_spec j i) as [->|Hne].
  - by rewrite list_lookup_insert_eq by lia.
  - by rewrite list_lookup_insert_ne by lia.
Qed.

Lemma bit_set_checked_in b i v : 0 <= i < bit_len b ->
  bit_set_checked b i v = Done (bit_set (Z.to_nat i) v b).
Proof. intros Hi. unfold bit_set_checked. bcases; [done|lia]. Qed.

Lemma bit_len_fill b s e v : 0 <= s <= e -> e <= bit_len b ->
  bit_len (bit_fill (Z.to_nat s) (Z.to_nat e) v b) = bit_len b.
Proof.
  intros Hs He. unfold bit_len in *. rewrite bits_fill by lia.
  rewrite !length_app, length_take, length_replicate, length_drop. lia.
Qed.

Lemma bit_at_fill b s e v i : 0 <= s <= e -> e <= bit_len b -> 0 <= i ->
  bit_at (bit_fill (Z.to_nat s) (Z.to_nat e) v b) i =
  if (s <=? i) && (i <? e) then v else bit_at b i.
Proof.
  intros Hs He Hi. unfold bit_at, bit_len in *. rewrite bits_fill by lia.
  destruct (Z.leb_spec s i); simpl.
  - rewrite lookup_app_r, length_take by (rewrite length_take; lia).
    destruct (Z.ltb_spec i e).
    + rewrite lookup_app_l, lookup_replicate_2 by (rewrite ?length_replicate; lia). done.
    + rewrite lookup_app_r, length_replicate, lookup_drop by (rewrite length_replicate; lia).
      do 2 f_equal. lia.
  - rewrite lookup_app_l, lookup_take by (rewrite ?length_take; lia).
    case_decide; [done|lia].
Qed.

Lemma bit_fill_range_in b s e v : 0 <= s <= e -> e <= bit_len b ->
  bit_fill_range b s e v = Some (bit_fill (Z.to_nat s) (Z.to_nat e) v b).
Proof. intros. unfold bit_fill_range. bcases; done || lia. Qed.

Lemma bit_len_not b : bit_len (bit_not b) = bit_len b.
Proof. unfold bit_len. by rewrite bits_not, length_fmap. Qed.

Lemma bit_at_not b i : 0 <= i < bit_len b -> bit_at (bit_not b) i = negb (bit_at b i).
Proof.
  intros Hi. unfold bit_at, bit_len in *. rewrite bits_not, list_lookup_fmap.
  destruct (lookup_lt_is_Some_2 (bits b) (Z.to_nat i)) as [v Hv]; [lia|]. by rewrite Hv.
Qed.

Lemma bit_at_zip (f : bool -> bool -> bool) b b' c i : f false false = false ->
  bits c = zip_with f (bits b) (bits b') -> bit_len b = bit_len b' ->
  bit_at c i = f (bit_at b i) (bit_at b' i) /\ bit_len c = bit_len b.
Proof.
  intros Hf Hc Hl. unfold bit_at, bit_len in *. rewrite Hc, length_zip_with. split; [|lia].
  rewrite lookup_zip_with.
  destruct (decide (Z.to_nat i < length (bits b))%nat).
  - destruct (lookup_lt_is_Some_2 (bits b) (Z.to_nat i)) as [v Hv]; [lia|].
    destruct (lookup_lt_is_Some_2 (bits b') (Z.to_nat i)) as [v' Hv']; [lia|].
    by rewrite Hv, Hv'.
  - rewrite !lookup_ge_None_2 by lia. simpl. by rewrite Hf.
Qed.

Lemma bit_at_and b b' i : bit_len b = bit_len b' ->
  bit_at (bit_and b b') i = bit_at b i && bit_at b' i /\ bit_len (bit_and b b') = bit_len b.
Proof.
  intros Hl. apply bit_at_zip; [done| |done]. apply bits_and. unfold bit_len in Hl. lia.
Qed.

Lemma bit_at_or b b' i : bit_len b = bit_len b' ->
  bit_at (bit_or b b') i = bit_at b i || bit_at b' i /\ bit_len (bit_or b b') = bit_len b.
Proof.
  intros Hl. apply bit_at_zip; [done| |done]. apply bits_or. unfold bit_len in Hl. lia.
Qed.

Lemma elem_of_bit_iter_ones b i : 0 <= i -> i ∈ bit_iter_ones b <-> bit_at b i = true.
Proof.
  intros Hi. unfold bit_iter_ones, bit_at. rewrite list_elem_of_filter, elem_of_seqZ.
  split; [by intros [-> _]|]. intros Hv. destruct (bits b !! Z.to_nat i) as [v|] eqn:E; [|done].
  simpl in Hv. subst v. split; [done|]. apply lookup_lt_Some in E. unfold bit_len. lia.
Qed.

Lemma bit_iter_ones_range b i : i ∈ bit_iter_ones b -> 0 <= i < bit_len b.
Proof. unfold bit_iter_ones. rewrite list_elem_of_filter, elem_of_seqZ. lia. Qed.

(** [get(s..e)] is all ones exactly when every bit of the range is set. *)
Lemma bit_get_range_all b s e : 0 <= s <= e -> e <= bit_len b ->
  exists r, bit_get_range b s e = Some r /\ Z.of_nat (length r) = e - s /\
    (forallb id r = true <-> forall i, s <= i < e -> bit_at b i = true).
Proof.
  intros Hs He. unfold bit_get_range. bcases; simpl; [|lia..].
  eexists. split; [done|]. rewrite forallb_forall. unfold bit_at, bit_len in *.
  split; [rewrite length_take, length_drop; lia|]. split.
  - intros Hall i Hi. destruct (lookup_lt_is_Some_2 (bits b) (Z.to_nat i)) as [v Hv]; [lia|].
    rewrite Hv. simpl. apply Hall, list_elem_of_In, list_elem_of_lookup.
    exists (Z.to_nat i - Z.to_nat s)%nat. rewrite lookup_take, lookup_drop.
    case_decide; [|lia]. rewrite <- Hv. f_equal. lia.
  - intros Hall v Hin. apply list_elem_of_In, list_elem_of_lookup in Hin as [k Hk].
    rewrite lookup_take in Hk. case_decide; [|done]. rewrite lookup_drop in Hk.
    specialize (Hall (s + Z.of_nat k)). rewrite Z2Nat.inj_add, Nat2Z.id, Hk in Hall by lia.
    simpl in Hall. unfold id. apply Hall. lia.
Qed.
End ops.

Arguments bit_at : simpl never.
Arguments bit_len : simpl never.

(** The bytes of a bit vector ([as_bytes], [BitVec::from_vec]). *)
Class BitRaw (B : Type) `{BitBox B} := {
  as_bytes : B -> list Z;
  from_vec : list Z -> B;
  from_vec_len l : bit_len (from_vec l) = 8 * Z.of_nat (length l);
  from_as_bytes b n : bit_len b = 8 * n -> from_vec (as_bytes b) = b;
}.

(** Bit vectors as lists of booleans, eight a byte, the highest bit first. *)
Section list_raw.
Definition byte_bits (z : Z) : list bool := Z.testbit z <$> [7; 6; 5; 4; 3; 2; 1; 0].
Definition bits_byte (l : list bool) : Z := foldl (fun acc (b : bool) => 2 * acc + if b then 1 else 0) 0 l.

Fixpoint bytes_of_bits (fuel : nat) (l : list bool) : list Z :=
  match fuel, l with
  | S fuel, _ :: _ => bits_byte (take 8 l) :: bytes_of_bits fuel (drop 8 l)
  | _, _ => []
  end.

Lemma byte_bits_of_byte l : length l = 8%nat -> byte_bits (bits_byte l) = l.
Proof.
  destruct l as [|a [|b [|c [|d [|e [|f [|g [|h [|]]]]]]]]]; try done. intros _.
  by destruct a, b, c, d, e, f, g, h.
Qed.

Lemma bits_of_bytes n : forall l, length l = (8 * n)%nat -> (bytes_of_bits (length l) l ≫= byte_bits) = l.
Proof.
  assert (Hgen : forall n l fuel, (n <= fuel)%nat -> length l = (8 * n)%nat -> (bytes_of_bits fuel l ≫= byte_bits) = l).
  { clear n. induction n as [|n IH]; intros l fuel Hf Hl.
    { destruct l; [|simpl in Hl; lia]. by destruct fuel. }
    destruct fuel as [|fuel]; [lia|]. destruct l as [|b l]; [simpl in Hl; lia|]. cbn [bytes_of_bits].
    rewrite bind_cons, byte_bits_of_byte by (rewrite length_take; lia). rewrite IH; [apply take_drop|lia|].
    rewrite length_drop. lia. }
  intros l Hl. apply (Hgen n); lia.
Qed.

#[export] Program Instance list_bool_raw : BitRaw (list bool) := {
  as_bytes b := bytes_of_bits (length b) b;
  from_vec l := l ≫= byte_bits;
}.
Next Obligation.
  intros l. unfold bit_len. cbn [bits list_bool_BitBox].
  induction l as [|z l IH]; [done|]. rewrite bind_cons, length_app, length_cons. cbn [length byte_bits fmap list_fmap]. lia.
Qed.
Next Obligation.
  intros b n Hb. unfold bit_len in Hb. cbn [bits list_bool_BitBox] in Hb. apply (bits_of_bytes (Z.to_nat n)). lia.
Qed.
End list_raw.
