(* ===== verification/Path.v ===== *)
(** * Path: file system paths on unix

    The part of [std::path] the program uses, for unix: a path is a string of
    bytes; [push], [join] and [components] as the standard library defines
    them.  Two paths are equal when their components are. *)

From Stdlib Require Import Ascii.
From stdpp Require Import strings.
From S2P Require Import Prelude.

Inductive Component := RootDir | CurDir | ParentDir | Normal (name : string).

#[export] Instance Component_eq_dec : EqDecision Component.
Proof. solve_decision. Defined.

#[export] Instance Component_countable : Countable Component.
Proof.
  apply (inj_countable'
    (fun c => match c with RootDir => inl 0%nat | CurDir => inl 1%nat | ParentDir => inl 2%nat | Normal s => inr s end)
    (fun x => match x with inl 0%nat => RootDir | inl 1%nat => CurDir | inl _ => ParentDir | inr s => Normal s end)).
  by intros [].
Defined.

Definition SEP : Ascii.ascii := "/"%char.

Definition starts_with_sep (s : string) : bool :=
  match s with String.String c _ => bool_decide (c = SEP) | _ => false end.

Fixpoint ends_with_sep (s : string) : bool :=
  match s with
  | String.EmptyString => false
  | String.String c String.EmptyString => bool_decide (c = SEP)
  | String.String _ s => ends_with_sep s
  end.

Fixpoint has_sep (s : string) : bool :=
  match s with
  | String.EmptyString => false
  | String.String c s => bool_decide (c = SEP) || has_sep s
  end.

(** [Path::is_absolute]. *)
Definition is_absolute (s : string) : bool := starts_with_sep s.

(** [PathBuf::push]: an absolute path replaces the buffer. *)
Definition push (buf path : string) : string :=
  if is_absolute path then path
  else
    let need_sep := negb (bool_decide (buf = "")) && negb (ends_with_sep buf) in
    if need_sep then String.app buf (String.String SEP path) else String.app buf path.

Definition join (buf path : string) : string := push buf path.

(** The parts between separators. *)
Fixpoint split_sep (s : string) : list string :=
  match s with
  | String.EmptyString => [""]
  | String.String c s =>
      if bool_decide (c = SEP) then "" :: split_sep s
      else
        match split_sep s with
        | [] => [String.String c String.EmptyString]
        | p :: ps => String.String c p :: ps
        end
  end.

Definition to_component (p : string) : Component :=
  if bool_decide (p = ".") then CurDir else if bool_decide (p = "..") then ParentDir else Normal p.

(** Empty parts vanish, and so do [.] ones except at the start of a relative
    path. *)
Definition parts (s : string) : list string := List.filter (fun p => negb (bool_decide (p = ""))) (split_sep s).

Definition drop_cur (l : list Component) : list Component :=
  List.filter (fun c => negb (bool_decide (c = CurDir))) l.

Definition components (s : string) : list Component :=
  let cs := to_component <$> parts s in
  if starts_with_sep s then RootDir :: drop_cur cs
  else match cs with [] => [] | c :: cs => c :: drop_cur cs end.

Example components_test :
  components <$> ["a/b"; "/a/./b/"; "./a//.."; ""; "."] =
  [[Normal "a"; Normal "b"]; [RootDir; Normal "a"; Normal "b"]; [CurDir; Normal "a"; ParentDir]; []; [CurDir]].
Proof. reflexivity. Qed.

Example push_test : push (push (push "" "a") "b") "c" = "a/b/c" /\ push "a" "/b" = "/b".
Proof. done. Qed.

(** ** Names that are single components *)

(** The paths below a directory are those made of names and current
    directories. *)
Definition stays_below (s : string) : Prop :=
  Forall (fun c => match c with Normal _ | CurDir => True | _ => False end) (components s).

(** A name without separators that does not go up. *)
Definition plain (s : string) : Prop := has_sep s = false /\ s <> "..".

Lemma split_sep_nonempty s : split_sep s <> [].
Proof. destruct s as [|c s]; [done|]. simpl. destruct (bool_decide _); [done|]. by destruct (split_sep s). Qed.

Lemma split_sep_plain s : has_sep s = false -> split_sep s = [s].
Proof.
  induction s as [|c s IH]; [done|]. simpl. destruct (bool_decide (c = SEP)); [done|]. simpl.
  intros Hs. by rewrite (IH Hs).
Qed.

Lemma split_sep_app a b : split_sep (String.app a (String.String SEP b)) = split_sep a ++ split_sep b.
Proof.
  induction a as [|c a IH]; [done|].
  change (String.app (String.String c a) (String.String SEP b)) with (String.String c (String.app a (String.String SEP b))).
  cbn [split_sep]. rewrite IH. destruct (bool_decide (c = SEP)); [done|].
  destruct (split_sep a) as [|p ps] eqn:E; [by destruct (split_sep_nonempty a)|]. done.
Qed.

Lemma ends_with_sep_split a : ends_with_sep a = true -> exists a', a = String.app a' (String.String SEP "").
Proof.
  induction a as [|c a IH]; [done|]. simpl. destruct a as [|d a].
  - intros Hc%bool_decide_eq_true. subst c. by exists "".
  - intros Ha. destruct (IH Ha) as [a' ->]. by exists (String.String c a').
Qed.

Lemma app_string_assoc a b c : String.app (String.app a b) c = String.app a (String.app b c).
Proof. induction a as [|x a IH]; [done|]. exact (f_equal (String.String x) IH). Qed.

(** Pushing a relative path appends its parts. *)
Lemma parts_push_relative buf name : starts_with_sep name = false -> parts (push buf name) = parts buf ++ parts name.
Proof.
  intros Hs. unfold push, is_absolute, parts. rewrite Hs.
  destruct (bool_decide_reflect (buf = "")) as [->|Hb]; [done|]. simpl.
  destruct (ends_with_sep buf) eqn:He; simpl.
  - apply ends_with_sep_split in He as [a ->]. rewrite app_string_assoc.
    change (String.app (String.String SEP "") name) with (String.String SEP name).
    rewrite !split_sep_app, !List.filter_app. by rewrite app_nil_r.
  - by rewrite split_sep_app, List.filter_app.
Qed.

Lemma no_sep_relative name : has_sep name = false -> starts_with_sep name = false.
Proof. destruct name as [|c name]; [done|]. simpl. by destruct (bool_decide (c = SEP)). Qed.

Lemma parts_push buf name : has_sep name = false -> parts (push buf name) = parts buf ++ parts name.
Proof. intros Hn. by apply parts_push_relative, no_sep_relative. Qed.

Lemma push_relative buf name : has_sep name = false -> starts_with_sep (push buf name) = true ->
  starts_with_sep buf = true.
Proof.
  intros Hn. unfold push, is_absolute.
  assert (Hs : starts_with_sep name = false).
  { destruct name as [|c name]; [done|]. simpl in *. by destruct (bool_decide (c = SEP)). }
  rewrite Hs. destruct buf as [|c buf]; [|by destruct (_ && _)].
  intros Habs. assert (starts_with_sep name = true) by exact Habs. congruence.
Qed.

(** ** Paths by their components

    [PathBuf]s are compared by their components, so code that only joins,
    compares and strips paths can be read on lists of components. *)
Abbreviation Path := (list Component).

Definition path_join (base path : Path) : Path :=
  match path with
  | RootDir :: _ => path
  | CurDir :: path' => if decide (base = []) then path else base ++ path'
  | _ => base ++ path
  end.

(** [Path::strip_prefix]. *)
Fixpoint strip_prefix (path base : Path) : option Path :=
  match base, path with
  | [], _ => Some path
  | b :: base, p :: path => if decide (p = b) then strip_prefix path base else None
  | _, _ => None
  end.

(** [Path::parent]. *)
Definition parent (path : Path) : option Path :=
  match path with
  | [] | [RootDir] => None
  | _ => Some (removelast path)
  end.

Definition is_normal (c : Component) : bool := match c with Normal _ => true | _ => false end.

Lemma strip_prefix_join base rel : Forall (fun c => is_normal c) rel ->
  strip_prefix (path_join base rel) base = Some rel.
Proof.
  intros Hr. assert (path_join base rel = base ++ rel) as ->.
  { destruct Hr as [|[] rel Hc Hr]; try done. }
  induction base as [|b base IH]; [by destruct rel|]. simpl. by rewrite decide_True.
Qed.

Lemma path_join_normal base rel : Forall (fun c => is_normal c) rel -> path_join base rel = base ++ rel.
Proof. intros Hr. by destruct Hr as [|[] rel Hc Hr]. Qed.

(** Joining a path made of names. *)
Lemma components_join base sub : Forall (fun c => is_normal c) (components sub) ->
  components (join base sub) = components base ++ components sub.
Proof.
  intros Hn. destruct (starts_with_sep sub) eqn:Hs.
  { unfold components in Hn. rewrite Hs in Hn. by apply Forall_cons in Hn as [? _]. }
  assert (Hsub : components sub = drop_cur (to_component <$> parts sub)).
  { unfold components in *. rewrite Hs in *. destruct (to_component <$> parts sub) as [|c cs]; [done|].
    apply Forall_cons in Hn as [Hc _]. by destruct c. }
  assert (Hstart : starts_with_sep (push base sub) = starts_with_sep base).
  { unfold push, is_absolute. rewrite Hs. destruct base as [|c base]; [exact Hs|]. by destruct (_ && _). }
  unfold components at 1 2, join. rewrite parts_push_relative, fmap_app, Hstart by done.
  destruct (starts_with_sep base); [|destruct (to_component <$> parts base) as [|c cs]].
  - rewrite Hsub. unfold drop_cur. by rewrite List.filter_app.
  - simpl. unfold components. by rewrite Hs.
  - rewrite Hsub. unfold drop_cur. simpl. by rewrite List.filter_app.
Qed.
