(* ===== verification/FileInfo.v ===== *)
(** * FileInfo: a file of the torrent and the order its pieces are fetched in

    Models [crates/librtbit/src/file_info.rs]. *)

From stdpp Require Import strings.
From S2P Require Import Prelude.

(** [FileDetailsAttrs] of [torrent_metainfo.rs] (BEP 47 attributes). *)
Record FileDetailsAttrs := mkAttrs {
  symlink : bool;
  hidden : bool;
  padding : bool;
  executable : bool;
}.

Record FileInfo := mkFileInfo {
  fi_relative_filename : string;
  fi_offset_in_torrent : Z;
  fi_piece_range : Z * Z; (* half-open [start..end] *)
  fi_attrs : FileDetailsAttrs;
  fi_len : Z;
}.

#[export] Instance FileDetailsAttrs_eq_dec : EqDecision FileDetailsAttrs.
Proof. solve_decision. Defined.
#[export] Instance FileInfo_eq_dec : EqDecision FileInfo.
Proof. solve_decision. Defined.

Definition no_attrs : FileDetailsAttrs := mkAttrs false false false false.

(** [Iterator::take] with a machine-sized count. *)
Definition iter_take {A} (n : Z) (l : list A) : list A :=
  if Z.of_nat (length l) <=? n then l else take (Z.to_nat n) l.

(** [Range::len]. *)
Definition range_len (r : Z * Z) : Z := Z.max 0 (r.2 - r.1).

(** First piece, last piece, then the rest in order; the two subtractions wrap
    ([overflowing_sub]) and the final [take] drops what they make up. *)
Definition iter_piece_priorities_range (r : Z * Z) : list Z :=
  let first := [r.1] in
  let last := [wrap64 (r.1 + wrap64 (range_len r - 1))] in
  let mid := iter_take (wrap64 (range_len r - 2)) (drop 1 (seqZ r.1 (range_len r))) in
  iter_take (range_len r) (first ++ last ++ mid).

Definition piece_range_usize (fi : FileInfo) : Z * Z := fi_piece_range fi.

Definition iter_piece_priorities (fi : FileInfo) : list Z :=
  iter_piece_priorities_range (piece_range_usize fi).

(** The cases of the source's own unit test. *)
Example iter_piece_priorities_test :
  iter_piece_priorities_range <$> [(0,0); (0,1); (0,2); (0,3); (0,4)]
  = [[]; [0]; [0;1]; [0;2;1]; [0;3;1;2]].
Proof. reflexivity. Qed.

Lemma iter_take_all {A} n (l : list A) : Z.of_nat (length l) <= n -> iter_take n l = l.
Proof. intros. unfold iter_take. bcases; [done|lia]. Qed.

Lemma iter_take_eq {A} n (l : list A) : 0 <= n -> iter_take n l = take (Z.to_nat n) l.
Proof. intros. unfold iter_take. bcases; [|done]. rewrite take_ge by lia. done. Qed.

(** The list a range of at least two pieces yields. *)
Lemma iter_piece_priorities_long s e : 0 <= s -> e < U64 -> s + 2 <= e ->
  iter_piece_priorities_range (s, e) = s :: (e - 1) :: seqZ (s + 1) (e - s - 2).
Proof.
  intros Hs He Hse. unfold iter_piece_priorities_range, range_len. cbn [fst snd].
  rewrite (Z.max_r 0 (e - s)) by lia.
  rewrite !(wrap64_small (e - s - _)) by lia. rewrite wrap64_small by lia.
  replace (s + (e - s - 1)) with (e - 1) by lia.
  assert (Hmid : iter_take (e - s - 2) (drop 1 (seqZ s (e - s))) = seqZ (s + 1) (e - s - 2)).
  { rewrite iter_take_eq, seqZ_cons by lia. simpl. rewrite drop_0.
    replace (Z.pred (e - s)) with ((e - s - 2) + 1) by lia.
    rewrite seqZ_app by lia. rewrite take_app_length'; [|rewrite length_seqZ; lia].
    by replace (Z.succ s) with (s + 1) by lia. }
  rewrite Hmid. apply iter_take_all. simpl. rewrite length_seqZ. lia.
Qed.

Lemma iter_piece_priorities_Permutation s e : 0 <= s -> 0 <= e < U64 ->
  iter_piece_priorities_range (s, e) ≡ₚ seqZ s (e - s).
Proof.
  intros Hs He. destruct (decide (s + 2 <= e)) as [Hlong|].
  - rewrite iter_piece_priorities_long by lia.
    rewrite (seqZ_cons s) by lia. constructor.
    replace (Z.pred (e - s)) with ((e - s - 2) + 1) by lia. rewrite seqZ_app by lia.
    replace (Z.succ s) with (s + 1) by lia.
    rewrite (seqZ_cons _ 1), (seqZ_nil _ (Z.pred 1)) by lia. rewrite <- Permutation_cons_append.
    by replace (s + 1 + (e - s - 2)) with (e - 1) by lia.
  - unfold iter_piece_priorities_range, range_len. cbn [fst snd].
    destruct (decide (e = s + 1)) as [->|].
    + replace (s + 1 - s) with 1 by lia. rewrite Z.max_r, (iter_take_eq 1) by lia.
      rewrite seqZ_cons by lia. done.
    + rewrite Z.max_l, (iter_take_eq 0) by lia. rewrite take_0.
      rewrite seqZ_nil by lia. done.
Qed.

Lemma elem_of_iter_piece_priorities fi i :
  0 <= (fi_piece_range fi).1 -> 0 <= (fi_piece_range fi).2 < U64 ->
  i ∈ iter_piece_priorities fi <-> (fi_piece_range fi).1 <= i < (fi_piece_range fi).2.
Proof.
  intros Hs He. unfold iter_piece_priorities, piece_range_usize.
  destruct (fi_piece_range fi) as [s e]. simpl in *.
  rewrite iter_piece_priorities_Permutation, elem_of_seqZ by lia. lia.
Qed.

(** The fetch order of a file is a permutation of its piece range: every
    piece exactly once, the first and the last ones ahead. *)
Theorem iter_piece_priorities_perm s e : 0 <= s -> 0 <= e < U64 ->
  iter_piece_priorities_range (s, e) ≡ₚ seqZ s (e - s) /\
  (s + 2 <= e -> take 2 (iter_piece_priorities_range (s, e)) = [s; e - 1]).
Proof.
  intros Hs He. split; [by apply iter_piece_priorities_Permutation|].
  intros. by rewrite iter_piece_priorities_long by lia.
Qed.

Lemma iter_piece_priorities_perm_witness :
  take 2 (iter_piece_priorities_range (3, 7)) = [3; 6] /\
  iter_piece_priorities_range (3, 7) = [3; 6; 4; 5].
Proof. split; [apply (iter_piece_priorities_perm 3 7); lia | reflexivity]. Defined.
