(* ===== verification/ChunkTracker.v ===== *)
(** * ChunkTracker: which pieces and chunks we have, need and want

    Models [crates/librtbit/src/chunk_tracker.rs]: the four bit vectors, the
    byte counters kept in sync with them, and every operation.  The bit vectors
    are an abstract [BitBox]; the [have] vector is a [Box<dyn BitV>] whose
    [as_slice]/[as_slice_mut] give the same bits ([crates/librtbit/src/bitv.rs]). *)

From stdpp Require Import strings.
From S2P Require Import Prelude Lengths BitBox FileInfo.

Record HaveNeededSelected := mkHNS {
  have_bytes : Z;
  needed_bytes : Z;
  selected_bytes : Z;
}.

#[export] Instance HNS_eq_dec : EqDecision HaveNeededSelected.
Proof. solve_decision. Defined.

Definition hns_default : HaveNeededSelected := mkHNS 0 0 0.

Definition progress (h : HaveNeededSelected) : Z := wrap64 (selected_bytes h - needed_bytes h).
Definition total (h : HaveNeededSelected) : Z := selected_bytes h.
Definition finished (h : HaveNeededSelected) : bool := needed_bytes h =? 0.

(** The [anyhow] errors of the constructors. *)
Inductive CtError :=
| HavePiecesTooShort
| BugInBitvec
| LenMismatch.

Inductive ChunkMarkingResult := PreviouslyCompleted | NotCompleted | Completed.

(** What [mark_chunk_downloaded] reads of a [Piece] message. *)
Record PieceMsg := mkPieceMsg {
  pm_index : Z;
  pm_begin : Z;
  pm_len : Z;
}.

Section tracker.
Context {BF : Type} `{BitBox BF}.

Record ChunkTracker := mkChunkTracker {
  queue_pieces : BF;
  chunk_status : BF;
  have : BF;
  selected : BF;
  per_file_bytes : list Z;
  lengths : Lengths.Lengths;
  hns : HaveNeededSelected;
}.

(** ** Record updates *)
Definition with_queue_pieces (ct : ChunkTracker) (q : BF) : ChunkTracker :=
  mkChunkTracker q (chunk_status ct) (have ct) (selected ct) (per_file_bytes ct)
    (lengths ct) (hns ct).
Definition with_chunk_status (ct : ChunkTracker) (c : BF) : ChunkTracker :=
  mkChunkTracker (queue_pieces ct) c (have ct) (selected ct) (per_file_bytes ct)
    (lengths ct) (hns ct).
Definition with_have (ct : ChunkTracker) (h : BF) : ChunkTracker :=
  mkChunkTracker (queue_pieces ct) (chunk_status ct) h (selected ct) (per_file_bytes ct)
    (lengths ct) (hns ct).
Definition with_selected (ct : ChunkTracker) (s : BF) : ChunkTracker :=
  mkChunkTracker (queue_pieces ct) (chunk_status ct) (have ct) s (per_file_bytes ct)
    (lengths ct) (hns ct).
Definition with_per_file_bytes (ct : ChunkTracker) (p : list Z) : ChunkTracker :=
  mkChunkTracker (queue_pieces ct) (chunk_status ct) (have ct) (selected ct) p
    (lengths ct) (hns ct).
Definition with_hns (ct : ChunkTracker) (h : HaveNeededSelected) : ChunkTracker :=
  mkChunkTracker (queue_pieces ct) (chunk_status ct) (have ct) (selected ct)
    (per_file_bytes ct) (lengths ct) h.

(** ** Construction *)

Definition compute_chunk_have_status (l : Lengths.Lengths) (have_pieces : BF) :
    outcome (result CtError BF) :=
  if bit_len have_pieces <? Lengths.total_pieces l then Done (Err HavePiecesTooShort)
  else
    let chunk_bf := zeroed_bytes (Z.to_nat (Lengths.chunk_bitfield_bytes l)) in
    try_for_each (fun chunk_bf piece =>
        let chunks := Lengths.chunks_per_piece l (pi_piece_index piece) in
        let offset := wrap32 (l_chunks_per_piece l * pi_piece_index piece) in
        h ←! bit_index have_pieces (pi_piece_index piece);
        if (h : bool)
        then Done (ok_or (bit_fill_range chunk_bf offset (offset + chunks) true) BugInBitvec)
        else Done (Ok chunk_bf))
      chunk_bf (Lengths.iter_piece_infos l).

Definition compute_queued_pieces_unchecked (have_pieces selected_pieces : BF) : BF :=
  bit_and (bit_not have_pieces) selected_pieces.

Definition compute_queued_pieces (have_pieces selected_pieces : BF) : result CtError BF :=
  if negb (bit_len have_pieces =? bit_len selected_pieces) then Err LenMismatch
  else Ok (compute_queued_pieces_unchecked have_pieces selected_pieces).

(** [file_infos.iter().enumerate()]. *)
Definition enumerate {A} (l : list A) : list (Z * A) :=
  zip (seqZ 0 (Z.of_nat (length l))) l.

Definition compute_selected_pieces (l : Lengths.Lengths)
    (only_files_is_empty_or_contains : Z -> bool) (file_infos : list FileInfo) : BF :=
  let bf := zeroed_bytes (Z.to_nat (Lengths.piece_bitfield_bytes l)) in
  foldl (fun bf '(_, fi) =>
      match bit_fill_range bf (piece_range_usize fi).1 (piece_range_usize fi).2 true with
      | Some bf => bf
      | None => bf
      end)
    bf
    (List.filter (fun '(id, _) => only_files_is_empty_or_contains id)
      (List.filter (fun '(_, fi) => negb (padding (fi_attrs fi))) (enumerate file_infos))).

(** The bytes of a file inside the pieces we have. *)
Definition file_have_bytes (ct : ChunkTracker) (fi : FileInfo) : outcome Z :=
  ps ←! filter_outcome (fun p => bit_index (have ct) p)
         (seqZ (fi_piece_range fi).1 ((fi_piece_range fi).2 - (fi_piece_range fi).1));
  Done (wrap64 (sumZ
    ((fun id => Lengths.size_of_piece_in_file (lengths ct) id
                  (fi_offset_in_torrent fi) (fi_len fi)) <$> ps))).

(** [per_file_bytes.iter_mut().zip(file_infos.iter())]: slots beyond the
    shorter list keep their value. *)
Fixpoint recalculate_slots (ct : ChunkTracker) (slots : list Z) (file_infos : list FileInfo) :
    outcome (list Z) :=
  match slots, file_infos with
  | _ :: slots, fi :: file_infos =>
      v ←! file_have_bytes ct fi;
      rest ←! recalculate_slots ct slots file_infos;
      Done (v :: rest)
  | _, _ => Done slots
  end.

Definition recalculate_per_file_bytes (ct : ChunkTracker) (file_infos : list FileInfo) :
    outcome ChunkTracker :=
  slots ←! recalculate_slots ct (per_file_bytes ct) file_infos;
  Done (with_per_file_bytes ct slots).

(** The body of the loop of [calc_hns]. *)
Definition calc_hns_step (ct : ChunkTracker) (h : HaveNeededSelected) (piece : PieceInfo) :
    outcome HaveNeededSelected :=
  let id := pi_piece_index piece in
  let len := pi_len piece in
  is_have ←! bit_index (have ct) id;
  is_selected ←! bit_index (selected ct) id;
  let is_needed := is_selected && negb is_have in
  Done {| have_bytes := wrap64 (have_bytes h + len * Z.b2z is_have);
          selected_bytes := wrap64 (selected_bytes h + len * Z.b2z is_selected);
          needed_bytes := wrap64 (needed_bytes h + len * Z.b2z is_needed) |}.

Definition calc_hns (ct : ChunkTracker) : outcome HaveNeededSelected :=
  for_each (calc_hns_step ct) hns_default (Lengths.iter_piece_infos (lengths ct)).

Definition new (have_pieces selected_pieces : BF) (l : Lengths.Lengths)
    (file_infos : list FileInfo) : outcome (result CtError ChunkTracker) :=
  needed_pieces ←?! Done (compute_queued_pieces have_pieces selected_pieces);
  chunk_status ←?! compute_chunk_have_status l have_pieces;
  let ct := {|
    chunk_status := chunk_status;
    queue_pieces := needed_pieces;
    selected := selected_pieces;
    lengths := l;
    have := have_pieces;
    hns := hns_default;
    per_file_bytes := replicate (length file_infos) 0
  |} in
  ct ←! recalculate_per_file_bytes ct file_infos;
  h ←! calc_hns ct;
  Done (Ok (with_hns ct h)).

(** ** Queries *)

Definition is_piece_have (ct : ChunkTracker) (id : ValidPieceIndex) : outcome bool :=
  bit_index (have ct) id.

Definition is_chunk_ready_to_upload (ct : ChunkTracker) (chunk : ChunkInfo) : bool :=
  bit_at (have ct) (ci_piece_index chunk).

Definition get_remaining_bytes (ct : ChunkTracker) : Z := needed_bytes (hns ct).

Definition is_file_finished (ct : ChunkTracker) (fi : FileInfo) : bool :=
  match bit_get_range (have ct) (piece_range_usize fi).1 (piece_range_usize fi).2 with
  | Some r => forallb id r
  | None => true
  end.

Definition is_finished (ct : ChunkTracker) : bool := finished (hns ct).

(** The iterator, run to its end: the pieces of the files in priority order
    that are in the queue. *)
Definition iter_queued_pieces (ct : ChunkTracker) (file_priorities : list Z)
    (file_infos : list FileInfo) : outcome (list ValidPieceIndex) :=
  let files : list (Z * FileInfo) :=
    omap (fun p => (fun fi => (p, fi)) <$> file_infos !! Z.to_nat p) file_priorities in
  files ←! filter_outcome (fun '(id, f) =>
            have_b ←! unwrap (per_file_bytes ct !! Z.to_nat id);
            Done (negb (have_b =? fi_len f))) files;
  ids ←! filter_outcome (fun id => bit_index (queue_pieces ct) id)
          (files ≫= fun '(_, f) => iter_piece_priorities f);
  Done (omap (fun id => id ← try_into_u32 id;
                        Lengths.validate_piece_index (lengths ct) id) ids).

(** ** Updates *)

Definition reserve_needed_piece (ct : ChunkTracker) (index : ValidPieceIndex) :
    outcome ChunkTracker :=
  q ←! bit_set_checked (queue_pieces ct) index false;
  Done (with_queue_pieces ct q).

Definition mark_piece_broken_if_not_have (ct : ChunkTracker) (index : ValidPieceIndex) :
    outcome ChunkTracker :=
  if bit_at (have ct) index then Done ct
  else
    q ←! bit_set_checked (queue_pieces ct) index true;
    let ct := with_queue_pieces ct q in
    let r := Lengths.chunk_range (lengths ct) index in
    match bit_fill_range (chunk_status ct) r.1 r.2 false with
    | Some s => Done (with_chunk_status ct s)
    | None => Done ct
    end.

Definition mark_piece_downloaded (ct : ChunkTracker) (idx : ValidPieceIndex) :
    outcome ChunkTracker :=
  is_have ←! bit_index (have ct) idx;
  if (is_have : bool) then Done ct
  else
    h ←! bit_set_checked (have ct) idx true;
    let ct := with_have ct h in
    let len := Lengths.piece_length (lengths ct) idx in
    let n := hns ct in
    let n := mkHNS (wrap64 (have_bytes n + len)) (needed_bytes n) (selected_bytes n) in
    is_selected ←! bit_index (selected ct) idx;
    Done (with_hns ct
      (if (is_selected : bool)
       then mkHNS (have_bytes n) (wrap64 (needed_bytes n - len)) (selected_bytes n)
       else n)).

Definition mark_chunk_downloaded (ct : ChunkTracker) (piece : PieceMsg) :
    outcome (option ChunkMarkingResult * ChunkTracker) :=
  match Lengths.validate_piece_index (lengths ct) (pm_index piece) with
  | None => Done (None, ct)
  | Some index =>
      len ←! unwrap (try_into_u32 (pm_len piece));
      match Lengths.chunk_info_from_received_data (lengths ct) index (pm_begin piece) len with
      | None => Done (None, ct)
      | Some chunk_info =>
          let r := Lengths.chunk_range (lengths ct) (ci_piece_index chunk_info) in
          chunk_range ←! unwrap (bit_get_range (chunk_status ct) r.1 r.2);
          if forallb id chunk_range then Done (Some PreviouslyCompleted, ct)
          else if negb (ci_chunk_index chunk_info <? Z.of_nat (length chunk_range)) then Panic
          else
            let s := bit_set (Z.to_nat (r.1 + ci_chunk_index chunk_info)) true (chunk_status ct) in
            let ct := with_chunk_status ct s in
            chunk_range ←! unwrap (bit_get_range (chunk_status ct) r.1 r.2);
            if forallb id chunk_range then Done (Some Completed, ct)
            else Done (Some NotCompleted, ct)
      end
  end.

Definition update_only_files (ct : ChunkTracker) (file_infos : list FileInfo)
    (new_only_files : gset Z) : outcome (HaveNeededSelected * ChunkTracker) :=
  let selected_ :=
    compute_selected_pieces (lengths ct) (fun idx => bool_decide (idx ∈ new_only_files))
      file_infos in
  let prev_selected := selected ct in
  let ct := with_selected ct selected_ in
  (* prev_selected=false and selected=true and have=false: requeue the piece *)
  let b := zeroed_bytes (Z.to_nat (Lengths.piece_bitfield_bytes (lengths ct))) in
  idxs ←! filter_outcome (fun idx =>
           p ←! bit_index prev_selected idx;
           if (p : bool) then Done false
           else h ←! bit_index (have ct) idx; Done (negb h))
         (bit_iter_ones (selected ct));
  b ←! for_each (fun b idx => bit_set_checked b idx true) b idxs;
  ct ←! for_each (fun ct idx =>
         match (i ← try_into_u32 idx; Lengths.validate_piece_index (lengths ct) i) with
         | Some validated => mark_piece_broken_if_not_have ct validated
         | None => Done ct
         end) ct (bit_iter_ones b);
  (* selected=false, have=false: don't need the piece, and don't have it *)
  let have_or_selected := bit_or (selected ct) (have ct) in
  let ct := with_queue_pieces ct (bit_and (queue_pieces ct) have_or_selected) in
  h ←! calc_hns ct;
  Done (h, with_hns ct h).

(** Returns the bytes still missing from the file. *)
Definition update_file_have_on_piece_completed (ct : ChunkTracker)
    (piece_id : ValidPieceIndex) (file_id : Z) (file_info : FileInfo) :
    outcome (Z * ChunkTracker) :=
  let diff_have := Lengths.size_of_piece_in_file (lengths ct) piece_id
                     (fi_offset_in_torrent file_info) (fi_len file_info) in
  v ←! unwrap (per_file_bytes ct !! Z.to_nat file_id);
  let v := wrap64 (v + diff_have) in
  Done (saturating_sub (fi_len file_info) v,
        with_per_file_bytes ct (<[Z.to_nat file_id := v]> (per_file_bytes ct))).

End tracker.
Arguments ChunkTracker BF : clear implicits.

(** ** The invariant *)
Section invariant.
Context {BF : Type} `{BitBox BF}.
Implicit Types ct : ChunkTracker BF.

(** The bytes of the pieces that satisfy a predicate. *)
Definition bytes_of (l : Lengths.Lengths) (P : Z -> bool) : Z :=
  sumZ ((fun i => if P i then Lengths.piece_length l i else 0) <$> seqZ 0 (pieces l)).

(** What the counters must be, as a function of the bit vectors. *)
Definition hns_spec (l : Lengths.Lengths) (have_ selected_ : BF) : HaveNeededSelected := {|
  have_bytes := bytes_of l (bit_at have_);
  needed_bytes := bytes_of l (fun i => bit_at selected_ i && negb (bit_at have_ i));
  selected_bytes := bytes_of l (bit_at selected_);
|}.

Definition bitfield_len (l : Lengths.Lengths) : Z := 8 * Lengths.piece_bitfield_bytes l.
Definition chunkfield_len (l : Lengths.Lengths) : Z := 8 * Lengths.chunk_bitfield_bytes l.

(** The shape: every vector has the size its bitfield needs. *)
Record shape ct : Prop := {
  inv_wf : wf (lengths ct);
  inv_queue : bit_len (queue_pieces ct) = bitfield_len (lengths ct);
  inv_have : bit_len (have ct) = bitfield_len (lengths ct);
  inv_selected : bit_len (selected ct) = bitfield_len (lengths ct);
  inv_chunks : bit_len (chunk_status ct) = chunkfield_len (lengths ct);
}.

(** The invariant: the shape, and the counters in sync with the vectors. *)
Record inv ct : Prop := {
  inv_shape : shape ct;
  inv_hns : hns ct = hns_spec (lengths ct) (have ct) (selected ct);
}.

Lemma pieces_le_bitfield l : wf l -> 0 < pieces l <= bitfield_len l.
Proof.
  intros Hwf. unfold bitfield_len, Lengths.piece_bitfield_bytes.
  rewrite total_pieces_eq by done. lengths_facts.
  pose proof (div_ceil_spec (pieces l) 8). unfold pieces in *. lia.
Qed.

Lemma total_chunks_le_chunkfield l : wf l -> Lengths.total_chunks l <= chunkfield_len l.
Proof.
  intros Hwf. unfold chunkfield_len, Lengths.chunk_bitfield_bytes.
  assert (0 <= Lengths.total_chunks l) by (unfold Lengths.total_chunks; apply wrap32_range).
  pose proof (div_ceil_spec (Lengths.total_chunks l) 8). lia.
Qed.

(** The chunk bits of a valid piece are inside the chunk bitfield. *)
Lemma chunk_range_in l i : wf l -> valid_index l i ->
  0 <= (Lengths.chunk_range l i).1 < (Lengths.chunk_range l i).2 /\
  (Lengths.chunk_range l i).2 <= chunkfield_len l.
Proof.
  intros Hwf Hi. pose proof (total_chunks_le_chunkfield l Hwf) as Hc.
  rewrite total_chunks_eq in Hc by done. rewrite chunk_range_eq by done. cbn [fst snd].
  pose proof (chunks_per_piece_bound l i Hwf Hi). pose proof (chunk_base_bound l i Hwf Hi).
  split; [lia|]. destruct (decide (i = l_last_piece_id l)) as [->|Hne]; [lia|].
  unfold valid_index in Hi. assert (Hlast : valid_index l (l_last_piece_id l)) by (split; lia).
  pose proof (chunks_per_piece_bound l _ Hwf Hlast).
  pose proof (mul_lt_step i (l_last_piece_id l) (l_chunks_per_piece l)). lia.
Qed.

Lemma bytes_of_bounds l P : wf l -> 0 <= bytes_of l P <= l_total_length l.
Proof.
  intros Hwf. rewrite <- (piece_lengths_total l Hwf). unfold bytes_of.
  assert (Hpos : forall i, i ∈ seqZ 0 (pieces l) -> 0 < Lengths.piece_length l i).
  { intros i Hi%elem_of_seqZ. apply piece_length_pos; [done|]. unfold valid_index, pieces in *. lia. }
  split.
  - apply sumZ_nonneg, Forall_fmap, Forall_forall. intros i Hi. simpl.
    specialize (Hpos i Hi). destruct (P i); lia.
  - apply sumZ_fmap_le. intros i Hi. specialize (Hpos i Hi). destruct (P i); lia.
Qed.

Lemma bytes_of_ext l P Q : (forall i, 0 <= i < pieces l -> P i = Q i) ->
  bytes_of l P = bytes_of l Q.
Proof.
  intros HPQ. apply sumZ_fmap_ext. intros i Hi%elem_of_seqZ. rewrite HPQ by lia. done.
Qed.

(** Adding one piece to a set of pieces adds its length. *)
Lemma bytes_of_add l P Q j : valid_index l j -> P j = false -> Q j = true ->
  (forall i, i <> j -> Q i = P i) ->
  bytes_of l Q = bytes_of l P + Lengths.piece_length l j.
Proof.
  intros Hj HP HQ Hne. unfold bytes_of.
  rewrite (sumZ_seqZ_update (fun i => if P i then Lengths.piece_length l i else 0) _ _ j).
  - rewrite HP, HQ. lia.
  - unfold valid_index, pieces in *. lia.
  - intros i Hi. by rewrite Hne.
Qed.

Lemma bytes_of_zero l P : wf l ->
  bytes_of l P = 0 <-> (forall i, valid_index l i -> P i = false).
Proof.
  intros Hwf. unfold bytes_of.
  assert (Hpos : forall i, i ∈ seqZ 0 (pieces l) <-> valid_index l i).
  { intros i. rewrite elem_of_seqZ. unfold valid_index, pieces. lia. }
  rewrite sumZ_zero.
  - setoid_rewrite Hpos. split; intros Hall i Hi; specialize (Hall i Hi);
      pose proof (piece_length_pos l i Hwf Hi); destruct (P i); done || lia.
  - intros i Hi%Hpos. pose proof (piece_length_pos l i Hwf Hi). destruct (P i); lia.
Qed.

Lemma calc_hns_eq ct : wf (lengths ct) ->
  bit_len (have ct) = bitfield_len (lengths ct) ->
  bit_len (selected ct) = bitfield_len (lengths ct) ->
  calc_hns ct = Done (hns_spec (lengths ct) (have ct) (selected ct)).
Proof.
  intros Hwf Hh Hs. set (l := lengths ct) in *.
  pose proof (pieces_le_bitfield l Hwf) as Hpl.
  set (w (P : Z -> bool) (ps : list PieceInfo) :=
    sumZ ((fun p => if P (pi_piece_index p) then pi_len p else 0) <$> ps)).
  assert (Hw : forall P, w P (Lengths.iter_piece_infos l) = bytes_of l P).
  { intros P. unfold w. rewrite iter_piece_infos_eq, total_pieces_eq by done.
    by rewrite <- list_fmap_compose. }
  assert (Hin : forall p, p ∈ Lengths.iter_piece_infos l ->
    0 <= pi_piece_index p < pieces l /\ 0 <= pi_len p).
  { intros p. rewrite iter_piece_infos_eq, total_pieces_eq, list_elem_of_fmap by done.
    intros (i & -> & Hi%elem_of_seqZ). simpl. split; [lia|].
    assert (valid_index l i) as Hv by (unfold valid_index, pieces in *; lia).
    pose proof (piece_length_pos l i Hwf Hv). lia. }
  assert (Hbound : forall P ps, ps `prefix_of` Lengths.iter_piece_infos l ->
    0 <= w P ps < U64).
  { intros P ps Hpre. split.
    - apply sumZ_nonneg, Forall_fmap, Forall_forall. intros p Hp. simpl.
      destruct Hpre as [k Hk]. assert (p ∈ Lengths.iter_piece_infos l) as Hpi by (rewrite Hk; set_solver).
      apply Hin in Hpi. destruct (P _); lia.
    - pose proof (bytes_of_bounds l P Hwf). pose proof (wf_facts l Hwf). rewrite <- Hw in *.
      assert (w P ps <= w P (Lengths.iter_piece_infos l)); [|lia].
      apply sumZ_fmap_prefix; [done|]. intros p Hp%Hin. destruct (P _); lia. }
  destruct (for_each_inv
    (fun ps h => h = mkHNS (w (bit_at (have ct)) ps)
                       (w (fun i => bit_at (selected ct) i && negb (bit_at (have ct) i)) ps)
                       (w (bit_at (selected ct)) ps))
    (calc_hns_step ct) hns_default (Lengths.iter_piece_infos l)) as (h & Hfold & ->).
  - done.
  - intros ps p h Hpre ->.
    assert (Hadd : forall P b, b = P (pi_piece_index p) ->
      wrap64 (w P ps + pi_len p * Z.b2z b) = w P (ps ++ [p])).
    { intros P b ->. specialize (Hbound P _ Hpre). unfold w in *.
      rewrite sumZ_snoc in *. rewrite wrap64_small; destruct (P _); simpl; lia. }
    assert (p ∈ Lengths.iter_piece_infos l) as Hp.
    { destruct Hpre as [k ->]. set_solver. }
    apply Hin in Hp as [Hi Hlen]. unfold calc_hns_step. rewrite !bit_index_in by lia. simpl.
    eexists. split; [done|]. f_equal; by apply Hadd.
  - unfold calc_hns. fold l. rewrite Hfold. unfold hns_spec. by rewrite !Hw.
Qed.

(** ** Every operation preserves the invariant, and never panics on a valid piece *)

Lemma shape_with_queue ct q : shape ct -> bit_len q = bit_len (queue_pieces ct) ->
  shape (with_queue_pieces ct q).
Proof. intros [] Hq. constructor; simpl; congruence. Qed.

Lemma shape_with_chunks ct c : shape ct -> bit_len c = bit_len (chunk_status ct) ->
  shape (with_chunk_status ct c).
Proof. intros [] Hq. constructor; simpl; congruence. Qed.

Lemma valid_index_in_bitfield ct i : shape ct -> valid_index (lengths ct) i ->
  0 <= i < bitfield_len (lengths ct).
Proof.
  intros Hinv [? ?]. pose proof (pieces_le_bitfield _ (inv_wf _ Hinv)).
  unfold pieces in *. lia.
Qed.

Lemma reserve_needed_piece_eq ct i : shape ct -> valid_index (lengths ct) i ->
  reserve_needed_piece ct i =
  Done (with_queue_pieces ct (bit_set (Z.to_nat i) false (queue_pieces ct))).
Proof.
  intros Hinv Hi. pose proof (valid_index_in_bitfield ct i Hinv Hi).
  unfold reserve_needed_piece.
  rewrite bit_set_checked_in by (rewrite (inv_queue _ Hinv); lia). done.
Qed.

(** The state after [mark_piece_broken_if_not_have] on a missing piece. *)
Definition broken ct (i : Z) : ChunkTracker BF :=
  let r := Lengths.chunk_range (lengths ct) i in
  with_chunk_status (with_queue_pieces ct (bit_set (Z.to_nat i) true (queue_pieces ct)))
    (bit_fill (Z.to_nat r.1) (Z.to_nat r.2) false (chunk_status ct)).

Lemma mark_piece_broken_eq ct i : shape ct -> valid_index (lengths ct) i ->
  mark_piece_broken_if_not_have ct i = Done (if bit_at (have ct) i then ct else broken ct i).
Proof.
  intros Hinv Hi. pose proof (valid_index_in_bitfield ct i Hinv Hi).
  pose proof (chunk_range_in _ i (inv_wf _ Hinv) Hi) as [? ?].
  unfold mark_piece_broken_if_not_have. destruct (bit_at (have ct) i); [done|].
  rewrite bit_set_checked_in by (rewrite (inv_queue _ Hinv); lia). rsimpl.
  cbv zeta. change (lengths (with_queue_pieces ct ?q)) with (lengths ct).
  change (chunk_status (with_queue_pieces ct ?q)) with (chunk_status ct).
  rewrite bit_fill_range_in by (rewrite ?(inv_chunks _ Hinv); lia). done.
Qed.

Lemma shape_broken ct i : shape ct -> valid_index (lengths ct) i -> shape (broken ct i).
Proof.
  intros Hinv Hi. pose proof (valid_index_in_bitfield ct i Hinv Hi).
  pose proof (chunk_range_in _ i (inv_wf _ Hinv) Hi) as [? ?].
  apply shape_with_chunks; [apply shape_with_queue; [done|]|].
  - apply bit_len_set. rewrite (inv_queue _ Hinv). lia.
  - apply bit_len_fill; [lia|]. cbn [with_queue_pieces chunk_status].
    rewrite (inv_chunks _ Hinv). lia.
Qed.

Lemma queue_broken ct i j : shape ct -> valid_index (lengths ct) i -> 0 <= j ->
  bit_at (queue_pieces (broken ct i)) j = if j =? i then true else bit_at (queue_pieces ct) j.
Proof.
  intros Hinv Hi Hj. pose proof (valid_index_in_bitfield ct i Hinv Hi).
  apply bit_at_set; [rewrite (inv_queue _ Hinv); lia|done].
Qed.

Lemma inv_broken ct i : inv ct -> valid_index (lengths ct) i -> inv (broken ct i).
Proof. intros [Hs Hh] Hi. constructor; [by apply shape_broken|done]. Qed.

Lemma mark_piece_downloaded_cases ct i : inv ct -> valid_index (lengths ct) i ->
  exists ct', mark_piece_downloaded ct i = Done ct' /\ inv ct' /\
    lengths ct' = lengths ct /\ queue_pieces ct' = queue_pieces ct /\
    chunk_status ct' = chunk_status ct /\ selected ct' = selected ct /\
    per_file_bytes ct' = per_file_bytes ct /\
    (forall j, 0 <= j -> bit_at (have ct') j = (j =? i) || bit_at (have ct) j).
Proof.
  intros Hinv Hi. pose proof (valid_index_in_bitfield ct i (inv_shape _ Hinv) Hi) as Hin.
  pose proof Hinv as [[Hwf Hq Hh Hs Hc] Hhns]. unfold mark_piece_downloaded.
  rewrite bit_index_in by lia. simpl. destruct (bit_at (have ct) i) eqn:Ehave.
  { exists ct. split_and!; try done. intros j Hj. bcases; [by subst|done]. }
  rewrite bit_set_checked_in, bit_index_in by (simpl; lia). simpl.
  set (h' := bit_set (Z.to_nat i) true (have ct)).
  assert (Hat : forall j, 0 <= j -> bit_at h' j = (j =? i) || bit_at (have ct) j).
  { intros j Hj. unfold h'. rewrite bit_at_set by lia. bcases; done. }
  assert (Hlen : bit_len h' = bitfield_len (lengths ct)).
  { unfold h'. rewrite bit_len_set by lia. done. }
  set (l := lengths ct) in *. pose proof (piece_length_pos l i Hwf Hi).
  pose proof (wf_facts l Hwf).
  assert (Hbytes : bytes_of l (bit_at h') =
    bytes_of l (bit_at (have ct)) + Lengths.piece_length l i).
  { rewrite <- (bytes_of_add l (bit_at (have ct)) (fun j => (j =? i) || bit_at (have ct) j) i); try done.
    - apply bytes_of_ext. intros; apply Hat; lia.
    - by rewrite Z.eqb_refl.
    - intros j Hj. bcases; done. }
  assert (Hneed : bytes_of l (fun j => bit_at (selected ct) j && negb (bit_at (have ct) j)) =
    bytes_of l (fun j => bit_at (selected ct) j && negb (bit_at h' j)) +
    if bit_at (selected ct) i then Lengths.piece_length l i else 0).
  { rewrite (bytes_of_ext l (fun j => bit_at (selected ct) j && negb (bit_at h' j))
      (fun j => bit_at (selected ct) j && negb ((j =? i) || bit_at (have ct) j)))
      by (intros; by rewrite Hat by lia).
    destruct (bit_at (selected ct) i) eqn:Esel.
    - apply bytes_of_add; [done|by rewrite Z.eqb_refl, andb_false_r|by rewrite Esel, Ehave|].
      intros j Hj. bcases; done.
    - rewrite Z.add_0_r. apply bytes_of_ext. intros j Hj. bcases; [|done].
      subst. by rewrite Esel. }
  pose proof (bytes_of_bounds l (bit_at h') Hwf).
  pose proof (bytes_of_bounds l (fun j => bit_at (selected ct) j && negb (bit_at h' j)) Hwf).
  eexists. split; [done|].
  split; [|by split_and!]. constructor; [by constructor|]. simpl.
  rewrite Hhns. unfold hns_spec; simpl. fold l. rewrite Hneed.
  rewrite (wrap64_small (bytes_of l (bit_at (have ct)) + _)) by lia.
  destruct (bit_at (selected ct) i); simpl; f_equal; try lia.
  rewrite wrap64_small; lia.
Qed.

(** ** Construction *)

(** Chunk bit [c] belongs to piece [i]. *)
Definition in_chunk_range (l : Lengths.Lengths) (i c : Z) : bool :=
  ((Lengths.chunk_range l i).1 <=? c) && (c <? (Lengths.chunk_range l i).2).

Lemma fill_chunk_range bf l i v : wf l -> valid_index l i ->
  bit_len bf = chunkfield_len l ->
  let r := Lengths.chunk_range l i in
  exists bf', bit_fill_range bf r.1 r.2 v = Some bf' /\ bit_len bf' = chunkfield_len l /\
    forall c, 0 <= c -> bit_at bf' c = if in_chunk_range l i c then v else bit_at bf c.
Proof.
  intros Hwf Hi Hlen r. pose proof (chunk_range_in l i Hwf Hi) as [Hr1 Hr2]. fold r in Hr1, Hr2.
  rewrite bit_fill_range_in by lia. eexists. split; [done|].
  split; [rewrite bit_len_fill by lia; done|]. intros c Hc. by rewrite bit_at_fill by lia.
Qed.

Lemma elem_of_iter_piece_infos l p : wf l ->
  p ∈ Lengths.iter_piece_infos l <->
  valid_index l (pi_piece_index p) /\ pi_len p = Lengths.piece_length l (pi_piece_index p).
Proof.
  intros Hwf. destruct p as [pi pl].
  rewrite iter_piece_infos_eq, total_pieces_eq, list_elem_of_fmap by done.
  setoid_rewrite elem_of_seqZ. unfold valid_index, pieces. simpl. split.
  - intros (i & [= -> ->] & Hi). split; [lia|done].
  - intros [Hi ->]. exists pi. split; [done|lia].
Qed.

(** Some piece of [ps] that we have owns chunk bit [c]. *)
Definition covered (l : Lengths.Lengths) (have_ : BF) (ps : list PieceInfo) (c : Z) : bool :=
  existsb (fun p => bit_at have_ (pi_piece_index p) && in_chunk_range l (pi_piece_index p) c) ps.

Lemma compute_chunk_have_status_loop l have_ : wf l -> pieces l <= bit_len have_ ->
  exists bf, compute_chunk_have_status l have_ = Done (Ok bf) /\
    bit_len bf = chunkfield_len l /\
    forall c, 0 <= c -> bit_at bf c = covered l have_ (Lengths.iter_piece_infos l) c.
Proof.
  intros Hwf Hlen. unfold compute_chunk_have_status. rewrite total_pieces_eq by done.
  bcases; [lia|]. cbv zeta.
  apply (try_for_each_inv (fun ps bf => bit_len bf = chunkfield_len l /\
       forall c, 0 <= c -> bit_at bf c = covered l have_ ps c)).
  - rewrite bit_len_zeroed, Z2Nat.id; [split; [done|]|].
    + intros c Hc. apply bit_at_zeroed.
    + apply div_ceil_nonneg; [|lia]. apply wrap32_range.
  - intros ps p bf Hpre [Hl Hc].
    assert (Hp : valid_index l (pi_piece_index p)).
    { apply (elem_of_iter_piece_infos l p Hwf). destruct Hpre as [k ->]. set_solver. }
    destruct (fill_chunk_range bf l _ true Hwf Hp Hl) as (bf' & Hfill & Hlen' & Hat).
    rewrite chunk_range_eq in Hfill by done. cbn [fst snd] in Hfill.
    pose proof (chunk_base_bound l _ Hwf Hp) as [? ?].
    rewrite (Z.mul_comm (l_chunks_per_piece l)), wrap32_small
      by (pose proof (chunks_per_piece_bound l _ Hwf Hp); lia).
    rewrite bit_index_in by (unfold valid_index, pieces in *; lia). rsimpl.
    unfold covered. setoid_rewrite existsb_app. cbn [existsb].
    destruct (bit_at have_ (pi_piece_index p)).
    + rewrite Hfill. exists bf'. split; [done|]. split; [done|]. intros c Hc0.
      rewrite Hat, Hc by done. destruct (in_chunk_range _ _ c); simpl;
        by rewrite ?orb_true_r, ?orb_false_r.
    + exists bf. split; [done|]. split; [done|]. intros c Hc0.
      rewrite Hc by done. simpl. by rewrite orb_false_r.
Qed.

Lemma compute_chunk_have_status_spec l have_ : wf l -> pieces l <= bit_len have_ ->
  exists bf, compute_chunk_have_status l have_ = Done (Ok bf) /\
    bit_len bf = chunkfield_len l /\
    forall i c, valid_index l i -> in_chunk_range l i c = true -> bit_at bf c = bit_at have_ i.
Proof.
  intros Hwf Hlen. destruct (compute_chunk_have_status_loop l have_ Hwf Hlen) as (bf & He & Hl & Hc).
  exists bf. split_and!; [done..|]. intros i c Hi Hr.
  pose proof (chunk_range_in l i Hwf Hi) as [Hr1 _].
  rewrite Hc by (unfold in_chunk_range in Hr; lia). apply eq_true_iff_eq. unfold covered.
  rewrite existsb_exists. setoid_rewrite <- list_elem_of_In.
  setoid_rewrite elem_of_iter_piece_infos; [|done]. split.
  - intros (p & [Hp _] & Hb%andb_prop). destruct Hb as [Hb Hr'].
    replace i with (pi_piece_index p); [done|].
    apply (chunk_range_unique l (pi_piece_index p) i c); try done;
      unfold in_chunk_range in *; lia.
  - intros Hb. exists (mkPieceInfo i (Lengths.piece_length l i)). simpl. by rewrite Hb, Hr.
Qed.

(** A [FileInfo] as the session builds it: inside the torrent, with the piece
    range [iter_pieces_within_offset] computes. *)
Record file_of (l : Lengths.Lengths) (fi : FileInfo) : Prop := {
  file_off : 0 <= fi_offset_in_torrent fi;
  file_len : 0 <= fi_len fi;
  file_end : fi_offset_in_torrent fi + fi_len fi <= l_total_length l;
  file_range : fi_piece_range fi =
    Lengths.iter_pieces_within_offset l (fi_offset_in_torrent fi) (fi_len fi);
}.

(** The bytes of piece [i] inside the file. *)
Abbreviation piece_in_file l fi i :=
  (Lengths.size_of_piece_in_file l i (fi_offset_in_torrent fi) (fi_len fi)).

Lemma file_range_bounds l fi : wf l -> file_of l fi ->
  0 <= (fi_piece_range fi).1 <= (fi_piece_range fi).2 /\ (fi_piece_range fi).2 <= pieces l.
Proof.
  intros Hwf [Ho Hl He ->]. rewrite iter_pieces_within_offset_eq by done. cbn [fst snd].
  lengths_facts. unfold pieces in *.
  pose proof (Z.div_pos (fi_offset_in_torrent fi) (l_piece_length l)).
  destruct (Z.eqb_spec (fi_len fi) 0) as [Hz|Hne].
  - split; [lia|]. apply Z.div_le_upper_bound; lia.
  - split; [split; [lia|]|].
    + apply Z.lt_le_incl, div_ceil_gt; [lia..|].
      pose proof (div_bounds (fi_offset_in_torrent fi) (l_piece_length l)). lia.
    + apply div_ceil_le; lia.
Qed.

Lemma file_range_spec l fi : wf l -> file_of l fi ->
  (forall i, (fi_piece_range fi).1 <= i < (fi_piece_range fi).2 -> 0 < piece_in_file l fi i) /\
  sumZ ((fun i => piece_in_file l fi i) <$>
        seqZ (fi_piece_range fi).1 ((fi_piece_range fi).2 - (fi_piece_range fi).1)) = fi_len fi.
Proof.
  intros Hwf Hf. pose proof (file_range_bounds l fi Hwf Hf) as [Hb1 Hb2].
  destruct Hf as [Ho Hl He Hr].
  destruct (iter_pieces_within_offset_spec l _ _ Hwf Ho Hl He) as [Hin Hsum].
  rewrite <- Hr in *. split; [|done].
  intros i Hi. apply Hin; [|done]. lengths_facts. unfold is_u32, pieces in *. lia.
Qed.

(** The bytes a file has in the pieces of [have], as one sum. *)
Definition file_bytes_spec (l : Lengths.Lengths) (have_ : BF) (fi : FileInfo) : Z :=
  sumZ ((fun i => if bit_at have_ i then piece_in_file l fi i else 0) <$>
        seqZ (fi_piece_range fi).1 ((fi_piece_range fi).2 - (fi_piece_range fi).1)).

Lemma file_bytes_spec_bounds l have_ fi : wf l -> file_of l fi ->
  0 <= file_bytes_spec l have_ fi <= fi_len fi /\
  (file_bytes_spec l have_ fi = fi_len fi <->
   forall i, (fi_piece_range fi).1 <= i < (fi_piece_range fi).2 -> bit_at have_ i = true).
Proof.
  intros Hwf Hf. destruct (file_range_spec l fi Hwf Hf) as [Hpos Hsum].
  set (r := seqZ _ _) in *.
  assert (Hr : forall i, i ∈ r -> 0 < piece_in_file l fi i).
  { intros i Hi%elem_of_seqZ. apply Hpos. lia. }
  set (miss i := if bit_at have_ i then 0 else piece_in_file l fi i).
  assert (Hsplit : sumZ ((fun i => piece_in_file l fi i) <$> r) =
    file_bytes_spec l have_ fi + sumZ (miss <$> r)).
  { unfold file_bytes_spec. fold r. clear Hr Hsum. induction r as [|i r' IH]; [done|].
    unfold miss in *. rewrite !sumZ_fmap_cons, IH.
    destruct (bit_at have_ i); lia. }
  assert (Hm : sumZ (miss <$> r) = 0 <-> forall i, i ∈ r -> bit_at have_ i = true).
  { unfold miss. rewrite sumZ_zero.
    - split; intros Hall i Hi; specialize (Hall i Hi); specialize (Hr i Hi);
        destruct (bit_at have_ i); done || lia.
    - intros i Hi%Hr. destruct (bit_at have_ i); lia. }
  assert (0 <= sumZ (miss <$> r)).
  { apply sumZ_nonneg, Forall_fmap, Forall_forall. intros i Hi%Hr. unfold miss; simpl.
    destruct (bit_at have_ i); lia. }
  assert (0 <= file_bytes_spec l have_ fi).
  { apply sumZ_nonneg, Forall_fmap, Forall_forall. intros i Hi%Hr. simpl.
    destruct (bit_at have_ i); lia. }
  split; [lia|]. transitivity (sumZ (miss <$> r) = 0); [lia|]. rewrite Hm.
  unfold r. setoid_rewrite elem_of_seqZ. split; intros Hall i Hi; apply Hall; lia.
Qed.

Lemma file_have_bytes_eq ct fi : wf (lengths ct) ->
  bit_len (have ct) = bitfield_len (lengths ct) -> file_of (lengths ct) fi ->
  file_have_bytes ct fi = Done (file_bytes_spec (lengths ct) (have ct) fi).
Proof.
  intros Hwf Hlen Hf. unfold file_have_bytes.
  pose proof (pieces_le_bitfield _ Hwf). pose proof (file_range_bounds _ fi Hwf Hf).
  rewrite (filter_outcome_Done _ (bit_at (have ct))).
  2: { intros i Hi%elem_of_seqZ. apply bit_index_in. lia. }
  rsimpl. rewrite sumZ_filter. fold (file_bytes_spec (lengths ct) (have ct) fi).
  pose proof (file_bytes_spec_bounds _ (have ct) fi Hwf Hf) as [Hb _].
  destruct Hf as [? ? ? ?]. rewrite wrap64_small; [done|]. lengths_facts. lia.
Qed.

Lemma recalculate_slots_eq ct fis : wf (lengths ct) ->
  bit_len (have ct) = bitfield_len (lengths ct) -> Forall (file_of (lengths ct)) fis ->
  recalculate_slots ct (replicate (length fis) 0) fis
  = Done (file_bytes_spec (lengths ct) (have ct) <$> fis).
Proof.
  intros Hwf Hlen. induction 1 as [|fi fis Hf _ IH]; [done|].
  simpl. rewrite file_have_bytes_eq by done. rsimpl. rewrite IH. done.
Qed.

Lemma new_spec have_ sel l fis : wf l -> bit_len have_ = bitfield_len l ->
  bit_len sel = bitfield_len l -> Forall (file_of l) fis ->
  exists ct, new have_ sel l fis = Done (Ok ct) /\ inv ct /\
    lengths ct = l /\ have ct = have_ /\ selected ct = sel /\
    per_file_bytes ct = file_bytes_spec l have_ <$> fis /\
    (forall i, 0 <= i < bitfield_len l ->
       bit_at (queue_pieces ct) i = bit_at sel i && negb (bit_at have_ i)) /\
    (forall i c, valid_index l i -> in_chunk_range l i c = true ->
       bit_at (chunk_status ct) c = bit_at have_ i).
Proof.
  intros Hwf Hh Hs Hfiles. unfold new, compute_queued_pieces. rewrite Hh, Hs, Z.eqb_refl. rsimpl.
  pose proof (pieces_le_bitfield l Hwf).
  destruct (compute_chunk_have_status_spec l have_ Hwf) as (cs & -> & Hcl & Hcs); [lia|].
  rsimpl. unfold recalculate_per_file_bytes. cbn [negb]. rsimpl.
  set (ct0 := mkChunkTracker _ _ _ _ _ _ _).
  change (per_file_bytes ct0) with (replicate (length fis) 0).
  rewrite (recalculate_slots_eq ct0) by done. rsimpl. rewrite calc_hns_eq by done. rsimpl.
  destruct (bit_at_and (bit_not have_) sel 0) as [_ Hql]; [rewrite bit_len_not; congruence|].
  eexists. split; [done|]. split.
  { constructor; [|done]. constructor; try done. simpl. unfold compute_queued_pieces_unchecked.
    by rewrite Hql, bit_len_not. }
  split_and!; try done. intros i Hi. simpl. unfold compute_queued_pieces_unchecked.
  destruct (bit_at_and (bit_not have_) sel i) as [-> _]; [rewrite bit_len_not; congruence|].
  rewrite bit_at_not by lia. apply andb_comm.
Qed.

(** All the chunks of piece [i] are marked. *)
Definition piece_chunks_full ct (i : Z) : Prop :=
  forall c, in_chunk_range (lengths ct) i c = true -> bit_at (chunk_status ct) c = true.

Lemma chunk_slice_all ct i : shape ct -> valid_index (lengths ct) i ->
  let r := Lengths.chunk_range (lengths ct) i in
  exists sl, bit_get_range (chunk_status ct) r.1 r.2 = Some sl /\
    Z.of_nat (length sl) = r.2 - r.1 /\
    (forallb id sl = true <-> piece_chunks_full ct i).
Proof.
  intros Hinv Hi r. pose proof (chunk_range_in _ i (inv_wf _ Hinv) Hi) as [Hr1 Hr2].
  fold r in Hr1, Hr2.
  destruct (bit_get_range_all (chunk_status ct) r.1 r.2) as (sl & Hsl & Hn & Hall);
    [lia|rewrite (inv_chunks _ Hinv); lia|].
  exists sl. split; [done|]. split; [done|].
  rewrite Hall. unfold piece_chunks_full, in_chunk_range. fold r.
  split; intros Hc c Hin; apply Hc; lia.
Qed.

Lemma mark_chunk_downloaded_cases ct msg : inv ct -> 0 <= pm_index msg ->
  0 <= pm_begin msg -> 0 <= pm_len msg < U32 ->
  match Lengths.chunk_info_from_received_data (lengths ct) (pm_index msg) (pm_begin msg) (pm_len msg) with
  | Some ci =>
      if l_last_piece_id (lengths ct) <? pm_index msg
      then mark_chunk_downloaded ct msg = Done (None, ct)
      else
        (piece_chunks_full ct (pm_index msg) /\
         mark_chunk_downloaded ct msg = Done (Some PreviouslyCompleted, ct)) \/
        (~ piece_chunks_full ct (pm_index msg) /\ exists ct',
           ct' = with_chunk_status ct
                   (bit_set (Z.to_nat (ci_absolute_index ci)) true (chunk_status ct)) /\
           in_chunk_range (lengths ct) (pm_index msg) (ci_absolute_index ci) = true /\ inv ct' /\
           ((piece_chunks_full ct' (pm_index msg) /\
             mark_chunk_downloaded ct msg = Done (Some Completed, ct')) \/
            (~ piece_chunks_full ct' (pm_index msg) /\
             mark_chunk_downloaded ct msg = Done (Some NotCompleted, ct'))))
  | None => mark_chunk_downloaded ct msg = Done (None, ct)
  end.
Proof.
  intros Hinv0 Hidx Hb Hlen. pose proof (inv_shape _ Hinv0) as Hinv. unfold mark_chunk_downloaded, Lengths.validate_piece_index.
  assert (Hu : try_into_u32 (pm_len msg) = Some (pm_len msg)) by (apply try_into_u32_Some; lia).
  destruct (Z.ltb_spec (l_last_piece_id (lengths ct)) (pm_index msg)) as [|Hle];
    [by case_match|]. rewrite Hu. rsimpl.
  assert (Hi : valid_index (lengths ct) (pm_index msg)) by (split; lia).
  pose proof (inv_wf _ Hinv) as Hwf.
  destruct (Lengths.chunk_info_from_received_data _ _ _ _) as [ci|] eqn:Eci; [|done].
  rewrite chunk_info_from_received_data_eq in Eci by done. cbv zeta in Eci.
  destruct (_ && _) eqn:Eb; [|done]. injection Eci as <-.
  apply andb_prop in Eb as [[Hk%Z.ltb_lt _]%andb_prop _].
  set (k := pm_begin msg / CHUNK_SIZE) in *.
  assert (0 <= k) by (apply Z.div_pos; unfold CHUNK_SIZE; lia).
  cbn [ci_piece_index nth_chunk ci_chunk_index ci_absolute_index].
  destruct (chunk_slice_all ct _ Hinv Hi) as (sl & -> & Hsl & Hfull). rsimpl.
  pose proof (chunk_range_in _ _ Hwf Hi) as [Hr1 Hr2].
  pose proof (chunk_range_eq _ _ Hwf Hi) as Hre.
  destruct (forallb id sl) eqn:Ef; [left; by rewrite <- Hfull|]. right.
  split; [by rewrite <- Hfull|].
  rewrite Hre in *. cbn [fst snd] in *. rewrite Hsl.
  destruct (Z.ltb_spec k (pm_index msg * l_chunks_per_piece (lengths ct)
     + Lengths.chunks_per_piece (lengths ct) (pm_index msg)
     - pm_index msg * l_chunks_per_piece (lengths ct))); [|lia]. cbn [negb].
  set (ct' := with_chunk_status ct _).
  assert (Hinv' : shape ct').
  { apply shape_with_chunks; [done|]. apply bit_len_set. rewrite (inv_chunks _ Hinv). lia. }
  exists ct'. split; [done|]. split; [unfold in_chunk_range; rewrite Hre; simpl; lia|].
  split; [constructor; [done|by apply Hinv0]|].
  destruct (chunk_slice_all ct' _ Hinv' Hi) as (sl' & Hsl'e & _ & Hfull').
  change (lengths ct') with (lengths ct) in Hsl'e. rewrite Hre in Hsl'e. cbn [fst snd] in Hsl'e.
  rewrite Hsl'e. rsimpl. rewrite <- Hfull'.
  destruct (forallb id sl'); [left|right]; done.
Qed.

(** ** Selection *)

(** Piece [i] holds a byte of a selected file that is not padding. *)
Definition piece_selected (P : Z -> bool) (fis : list FileInfo) (i : Z) : bool :=
  existsb (fun '(id, fi) => negb (padding (fi_attrs fi)) && P id
             && ((fi_piece_range fi).1 <=? i) && (i <? (fi_piece_range fi).2))
    (enumerate fis).

Lemma elem_of_enumerate {A} (l : list A) id x :
  (id, x) ∈ enumerate l <-> 0 <= id /\ l !! Z.to_nat id = Some x.
Proof.
  unfold enumerate. rewrite list_elem_of_lookup. setoid_rewrite lookup_zip_Some.
  setoid_rewrite lookup_seqZ. split.
  - intros (k & [-> ?] & Hk). split; [lia|]. rewrite <- Hk. f_equal. lia.
  - intros [Hid Hk]. exists (Z.to_nat id). pose proof (lookup_lt_Some _ _ _ Hk). split; [lia|done].
Qed.

Lemma fill_files_spec (files : list (Z * FileInfo)) n bf : bit_len bf = n ->
  Forall (fun '(_, fi) => 0 <= (fi_piece_range fi).1 <= (fi_piece_range fi).2
                          /\ (fi_piece_range fi).2 <= n) files ->
  let bf' := foldl (fun bf '(_, fi) =>
      match bit_fill_range bf (piece_range_usize fi).1 (piece_range_usize fi).2 true with
      | Some bf => bf
      | None => bf
      end) bf files in
  bit_len bf' = n /\ forall i, 0 <= i ->
    bit_at bf' i = bit_at bf i || existsb (fun '(_, fi) =>
      ((fi_piece_range fi).1 <=? i) && (i <? (fi_piece_range fi).2)) files.
Proof.
  intros Hl Hf. revert bf Hl. induction Hf as [|[id fi] files [Hr1 Hr2] _ IH]; intros bf Hl.
  - simpl. split; [done|]. intros i _. by rewrite orb_false_r.
  - cbn [foldl existsb]. rewrite bit_fill_range_in by (unfold piece_range_usize; lia).
    destruct (IH (bit_fill (Z.to_nat (fi_piece_range fi).1) (Z.to_nat (fi_piece_range fi).2)
                    true bf)) as [Hl' Hat]; [rewrite bit_len_fill by lia; done|].
    unfold piece_range_usize in *.
    split; [done|]. intros i Hi. rewrite Hat, bit_at_fill by lia.
    destruct ((_ <=? i) && _); simpl; by rewrite ?orb_true_r.
Qed.

Lemma existsb_filter {A} (p q : A -> bool) (l : list A) :
  existsb q (List.filter p l) = existsb (fun x => p x && q x) l.
Proof. induction l as [|x l IH]; [done|]. simpl. destruct (p x); simpl; by rewrite IH. Qed.

Lemma compute_selected_pieces_spec l P fis : wf l -> Forall (file_of l) fis ->
  bit_len (compute_selected_pieces l P fis) = bitfield_len l /\
  forall i, 0 <= i -> bit_at (compute_selected_pieces l P fis) i = piece_selected P fis i.
Proof.
  intros Hwf Hfiles. pose proof (pieces_le_bitfield l Hwf).
  unfold compute_selected_pieces. set (files := List.filter _ _).
  set (z := zeroed_bytes _).
  assert (Hz : bit_len z = bitfield_len l).
  { unfold z. rewrite bit_len_zeroed, Z2Nat.id; [done|].
    unfold Lengths.piece_bitfield_bytes. rewrite total_pieces_eq by done.
    apply div_ceil_nonneg; lia. }
  destruct (fill_files_spec files (bitfield_len l) z Hz) as [Hl Hat].
  { apply Forall_forall. intros [id fi] Hin.
    apply list_elem_of_In, filter_In in Hin as [[Hin _]%filter_In _].
    apply list_elem_of_In, elem_of_enumerate in Hin as [_ Hin].
    pose proof (Forall_lookup_1 _ _ _ _ Hfiles Hin) as Hf. simpl in Hf.
    pose proof (file_range_bounds l fi Hwf Hf). lia. }
  split; [exact Hl|]. intros i Hi. rewrite (Hat i Hi). unfold z. rewrite bit_at_zeroed. simpl.
  unfold files. rewrite !existsb_filter. unfold piece_selected.
  generalize (enumerate fis) as r. clear -P i.
  induction r as [|[id fi] r IH]; [done|]. cbn [existsb].
  rewrite IH. by rewrite !andb_assoc.
Qed.

(** The loop of [update_only_files] that requeues pieces. *)
Definition requeue_step ct (idx : Z) : outcome (ChunkTracker BF) :=
  match (i ← try_into_u32 idx; Lengths.validate_piece_index (lengths ct) i) with
  | Some validated => mark_piece_broken_if_not_have ct validated
  | None => Done ct
  end.

(** Everything but the queue and the chunk bits is the same. *)
Definition same_frame ct ct' : Prop :=
  lengths ct' = lengths ct /\ have ct' = have ct /\ selected ct' = selected ct /\
  per_file_bytes ct' = per_file_bytes ct /\ hns ct' = hns ct.

Lemma requeue_loop_spec ct idxs : shape ct ->
  (forall i, i ∈ idxs -> 0 <= i /\ bit_at (have ct) i = false) ->
  exists ct', for_each requeue_step ct idxs = Done ct' /\ shape ct' /\ same_frame ct ct' /\
    forall i, valid_index (lengths ct) i ->
      bit_at (queue_pieces ct') i = bool_decide (i ∈ idxs) || bit_at (queue_pieces ct) i.
Proof.
  intros Hshape Hidx.
  pose (Q (done_ : list Z) (ct' : ChunkTracker BF) := shape ct' /\ same_frame ct ct' /\
    forall i, valid_index (lengths ct) i ->
      bit_at (queue_pieces ct') i = bool_decide (i ∈ done_) || bit_at (queue_pieces ct) i).
  apply (for_each_inv Q).
  - by split_and!.
  - intros done_ x ct' Hpre (Hs' & (Hl & Hh & Hse & Hpf & Hhns) & Hq).
    assert (Hx : 0 <= x /\ bit_at (have ct) x = false).
    { apply Hidx. destruct Hpre as [k ->]. set_solver. }
    unfold requeue_step.
    assert (Hcase : (exists i, (i ← try_into_u32 x; Lengths.validate_piece_index (lengths ct') i)
                       = Some i /\ i = x /\ valid_index (lengths ct') x) \/
                    ((i ← try_into_u32 x; Lengths.validate_piece_index (lengths ct') i) = None
                     /\ ~ valid_index (lengths ct') x)).
    { unfold try_into_u32, Lengths.validate_piece_index, valid_index.
      pose proof (wf_facts _ (inv_wf _ Hs')). unfold pieces in *.
      bcases; simpl; bcases; [right|left|right]; try (split; [done|lia]).
      exists x. split_and!; done || lia. }
    destruct Hcase as [(i & -> & -> & Hv)|[-> Hnv]].
    + rewrite mark_piece_broken_eq by done. rewrite Hh. destruct Hx as [Hx0 ->].
      exists (broken ct' x). split; [done|]. split; [by apply shape_broken|].
      split; [done|]. intros j Hj. rewrite queue_broken by (done || apply Hj).
      rewrite Hq by done. destruct (Z.eqb_spec j x) as [->|Hne].
      * rewrite bool_decide_eq_true_2 by set_solver. done.
      * f_equal. apply bool_decide_ext. set_solver.
    + exists ct'. split; [done|]. split; [done|]. split; [by split_and!|].
      intros j Hj. rewrite Hq by done. f_equal. apply bool_decide_ext.
      assert (j <> x) by (intros ->; rewrite Hl in Hnv; done). set_solver.
Qed.

(** Setting the bits of a list of in-range positions. *)
Lemma set_bits_loop n (b : BF) idxs : bit_len b = n ->
  (forall i, i ∈ idxs -> 0 <= i < n) ->
  exists b', for_each (fun b idx => bit_set_checked b idx true) b idxs = Done b' /\
    bit_len b' = n /\
    forall i, 0 <= i -> bit_at b' i = bool_decide (i ∈ idxs) || bit_at b i.
Proof.
  intros Hn Hidx.
  pose (Q (done_ : list Z) (b' : BF) := bit_len b' = n /\
    forall i, 0 <= i -> bit_at b' i = bool_decide (i ∈ done_) || bit_at b i).
  apply (for_each_inv Q); [done|].
  intros done_ x b' Hpre [Hl Hat].
  assert (Hx : 0 <= x < n) by (apply Hidx; destruct Hpre as [k ->]; set_solver).
  rewrite bit_set_checked_in by lia. eexists. split; [done|].
  split; [rewrite bit_len_set by lia; done|]. intros i Hi. rewrite bit_at_set, Hat by lia.
  destruct (Z.eqb_spec i x) as [->|].
  - by rewrite bool_decide_eq_true_2 by set_solver.
  - f_equal. apply bool_decide_ext. set_solver.
Qed.

(** A piece that becomes wanted: selected now, not before, and missing. *)
Definition newly_wanted ct (P : Z -> bool) (fis : list FileInfo) (i : Z) : bool :=
  piece_selected P fis i && negb (bit_at (selected ct) i) && negb (bit_at (have ct) i).

(** The indices [update_only_files] collects in its scratch vector. *)
Lemma wanted_indices ct sel' P fis : shape ct ->
  bit_len sel' = bitfield_len (lengths ct) ->
  (forall i, 0 <= i -> bit_at sel' i = piece_selected P fis i) ->
  exists idxs,
    filter_outcome (fun idx =>
        p ←! bit_index (selected ct) idx;
        if (p : bool) then Done false
        else h ←! bit_index (have ct) idx; Done (negb h)) (bit_iter_ones sel') = Done idxs /\
    (forall i, 0 <= i -> i ∈ idxs <-> newly_wanted ct P fis i = true) /\
    (forall i, i ∈ idxs -> 0 <= i < bitfield_len (lengths ct)).
Proof.
  intros [Hwf Hq Hh Hs Hc] Hsl Hsat.
  rewrite (filter_outcome_Done _ (fun i => negb (bit_at (selected ct) i) && negb (bit_at (have ct) i))).
  2: { intros i Hi%bit_iter_ones_range.
       rewrite !bit_index_in by lia. rsimpl. by destruct (bit_at (selected ct) i). }
  eexists. split; [done|]. split.
  - intros i Hi. rewrite list_elem_of_In, filter_In, <- list_elem_of_In.
    rewrite elem_of_bit_iter_ones, Hsat by done. unfold newly_wanted.
    rewrite <- andb_assoc, (andb_true_iff (piece_selected _ _ _)). done.
  - intros i. rewrite list_elem_of_In, filter_In, <- list_elem_of_In.
    intros [Hi%bit_iter_ones_range _]. lia.
Qed.

Lemma update_only_files_cases ct fis only : inv ct -> Forall (file_of (lengths ct)) fis ->
  let P idx := bool_decide (idx ∈ only) in
  exists ct', update_only_files ct fis only = Done (hns ct', ct') /\ inv ct' /\
    lengths ct' = lengths ct /\ have ct' = have ct /\ per_file_bytes ct' = per_file_bytes ct /\
    (forall i, 0 <= i -> bit_at (selected ct') i = piece_selected P fis i) /\
    (forall i, valid_index (lengths ct) i ->
       bit_at (queue_pieces ct') i =
       (newly_wanted ct P fis i || bit_at (queue_pieces ct) i) &&
       (piece_selected P fis i || bit_at (have ct) i)).
Proof.
  intros [[Hwf Hq Hh Hs Hc] _] Hfiles P. unfold update_only_files. fold P.
  set (sel' := compute_selected_pieces _ _ _).
  destruct (compute_selected_pieces_spec (lengths ct) P fis Hwf Hfiles) as [Hsl Hsat].
  fold sel' in Hsl, Hsat. set (ct1 := with_selected ct sel').
  assert (Hshape1 : shape ct1) by (constructor; done).
  destruct (wanted_indices ct sel' P fis) as (idxs & Hfil & Hidxs & Hrange); [by constructor|done..|].
  change (selected ct1) with sel'. change (have ct1) with (have ct). rewrite Hfil. rsimpl.
  set (z := zeroed_bytes _).
  assert (Hz : bit_len z = bitfield_len (lengths ct)).
  { unfold z. rewrite bit_len_zeroed, Z2Nat.id; [done|].
    unfold Lengths.piece_bitfield_bytes. apply div_ceil_nonneg; [apply wrap32_range|lia]. }
  destruct (set_bits_loop _ z idxs Hz Hrange) as (b & -> & Hbl & Hbat). rsimpl.
  assert (Hones : forall i, 0 <= i -> i ∈ bit_iter_ones b <-> newly_wanted ct P fis i = true).
  { intros i Hi. rewrite elem_of_bit_iter_ones, Hbat, <- Hidxs by done. unfold z.
    rewrite bit_at_zeroed, orb_false_r. apply bool_decide_eq_true. }
  destruct (requeue_loop_spec ct1 (bit_iter_ones b) Hshape1) as (ct2 & Hloop & Hsh2 & Hfr & Hq2).
  { intros i Hi. pose proof (bit_iter_ones_range b i Hi) as [Hi0 _]. split; [done|].
    apply Hones in Hi; [|done]. unfold newly_wanted in Hi. simpl.
    destruct (bit_at (have ct) i); [|done]. by rewrite andb_false_r in Hi. }
  change (for_each requeue_step ct1 (bit_iter_ones b) = Done ct2) in Hloop.
  unfold requeue_step in Hloop. rewrite Hloop. clear Hloop. rsimpl.
  destruct Hfr as (Hfl & Hfh & Hfs & Hfp & _). simpl in Hfl, Hfh, Hfs, Hfp.
  assert (Hor : forall i, bit_at (bit_or (selected ct2) (have ct2)) i
      = bit_at sel' i || bit_at (have ct) i /\
      bit_len (bit_or (selected ct2) (have ct2)) = bit_len sel').
  { intros i. rewrite Hfs, Hfh. apply bit_at_or. congruence. }
  assert (Hand : forall i, bit_at (bit_and (queue_pieces ct2) (bit_or (selected ct2) (have ct2))) i
      = bit_at (queue_pieces ct2) i && (bit_at sel' i || bit_at (have ct) i) /\
      bit_len (bit_and (queue_pieces ct2) (bit_or (selected ct2) (have ct2)))
      = bit_len (queue_pieces ct2)).
  { intros i. destruct (Hor i) as [<- Hol]. apply bit_at_and.
    rewrite Hol, Hsl, (inv_queue _ Hsh2). by rewrite Hfl. }
  set (ct3 := with_queue_pieces ct2 _).
  assert (Hshape3 : shape ct3) by (apply shape_with_queue; [done|apply (Hand 0)]).
  rewrite calc_hns_eq by apply Hshape3. rsimpl.
  exists (with_hns ct3 (hns_spec (lengths ct3) (have ct3) (selected ct3))).
  split; [done|]. split; [constructor; [by destruct Hshape3|done]|].
  split_and!; [exact Hfl|exact Hfh|exact Hfp| |].
  - intros i Hi. simpl. rewrite Hfs. by apply Hsat.
  - intros i Hi. simpl. destruct (Hand i) as [-> _]. rewrite Hsat by apply Hi.
    rewrite Hq2 by done. f_equal. f_equal. simpl.
    apply eq_true_iff_eq. rewrite bool_decide_eq_true. apply Hones. apply Hi.
Qed.

(** ** The queue iterator *)

(** File [id] is in the priority list, incomplete, and holds piece [i]. *)
Definition wanted_by_file ct (prios : list Z) (fis : list FileInfo) (i : Z) : Prop :=
  exists id fi have_b, id ∈ prios /\ fis !! Z.to_nat id = Some fi /\
    per_file_bytes ct !! Z.to_nat id = Some have_b /\ have_b <> fi_len fi /\
    (fi_piece_range fi).1 <= i < (fi_piece_range fi).2.

Lemma iter_queued_files ct prios fis : length (per_file_bytes ct) = length fis ->
  exists files,
    filter_outcome (fun '(id, f) =>
        have_b ←! unwrap (per_file_bytes ct !! Z.to_nat id);
        Done (negb (have_b =? fi_len f)))
      (omap (fun p => (fun fi => (p, fi)) <$> fis !! Z.to_nat p) prios) = Done files /\
    forall id fi, (id, fi) ∈ files <-> id ∈ prios /\ fis !! Z.to_nat id = Some fi /\
      exists have_b, per_file_bytes ct !! Z.to_nat id = Some have_b /\ have_b <> fi_len fi.
Proof.
  intros Hlen.
  set (files := omap _ _).
  assert (Hfiles : forall id fi, (id, fi) ∈ files <-> id ∈ prios /\ fis !! Z.to_nat id = Some fi).
  { intros id fi. unfold files. rewrite list_elem_of_omap. split.
    - intros (p & Hp & Hfi). apply fmap_Some in Hfi as (fi' & ? & [= -> ->]). done.
    - intros [Hp Hfi]. exists id. by rewrite Hfi. }
  rewrite (filter_outcome_Done _ (fun '(id, f) =>
    negb (default 0 (per_file_bytes ct !! Z.to_nat id) =? fi_len f))).
  - eexists. split; [done|]. intros id fi.
    rewrite list_elem_of_In, filter_In, <- list_elem_of_In, Hfiles, negb_true_iff, Z.eqb_neq.
    split.
    + intros [[Hp Hfi] Hne]. split_and!; [done..|]. pose proof (lookup_lt_Some _ _ _ Hfi).
      destruct (lookup_lt_is_Some_2 (per_file_bytes ct) (Z.to_nat id)) as [v Hv]; [lia|].
      exists v. by rewrite Hv in Hne.
    + intros (Hp & Hfi & v & Hv & Hne). by rewrite Hv.
  - intros [id fi] [_ Hfi]%Hfiles. pose proof (lookup_lt_Some _ _ _ Hfi).
    destruct (lookup_lt_is_Some_2 (per_file_bytes ct) (Z.to_nat id)) as [v Hv]; [lia|].
    by rewrite Hv.
Qed.

Lemma iter_queued_pieces_cases ct prios fis : shape ct -> Forall (file_of (lengths ct)) fis ->
  length (per_file_bytes ct) = length fis ->
  exists ps, iter_queued_pieces ct prios fis = Done ps /\
    forall i, i ∈ ps <-> valid_index (lengths ct) i /\ bit_at (queue_pieces ct) i = true /\
                        wanted_by_file ct prios fis i.
Proof.
  intros Hshape Hfiles Hlen. unfold iter_queued_pieces. cbv zeta.
  destruct (iter_queued_files ct prios fis Hlen) as (files & -> & Hfs). rsimpl.
  pose proof (inv_wf _ Hshape) as Hwf. pose proof (pieces_le_bitfield _ Hwf) as Hpl.
  assert (Hin : forall i, i ∈ (files ≫= (fun '(_, f) => iter_piece_priorities f)) <->
                  wanted_by_file ct prios fis i).
  { assert (Hrange : forall fi, Forall (file_of (lengths ct)) fis -> fi ∈ fis -> forall i,
      i ∈ iter_piece_priorities fi <-> (fi_piece_range fi).1 <= i < (fi_piece_range fi).2).
    { intros fi _ Hfi i. rewrite Forall_forall in Hfiles. specialize (Hfiles fi Hfi).
      pose proof (file_range_bounds _ fi Hwf Hfiles).
      apply elem_of_iter_piece_priorities; lengths_facts; unfold pieces in *; lia. }
    intros i. rewrite list_elem_of_bind. split.
    - intros ([id fi] & Hi & (Hp & Hfi & v & Hv & Hne)%Hfs).
      apply Hrange in Hi; [|done|by eapply list_elem_of_lookup_2].
      exists id, fi, v. split_and!; done || lia.
    - intros (id & fi & v & Hp & Hfi & Hv & Hne & Hr). exists (id, fi). split.
      + apply Hrange; [done|by eapply list_elem_of_lookup_2|done].
      + apply Hfs. eauto. }
  assert (Hbound : forall i, wanted_by_file ct prios fis i -> valid_index (lengths ct) i).
  { intros i (id & fi & v & _ & Hfi & _ & _ & Hr).
    pose proof (Forall_lookup_1 _ _ _ _ Hfiles Hfi) as Hf.
    pose proof (file_range_bounds _ fi Hwf Hf). unfold valid_index, pieces in *. lia. }
  rewrite (filter_outcome_Done _ (bit_at (queue_pieces ct))).
  2: { intros i Hi%Hin%Hbound. apply bit_index_in. rewrite (inv_queue _ Hshape).
       unfold valid_index, pieces in *. lia. }
  rsimpl. eexists. split; [done|]. intros i. rewrite list_elem_of_omap.
  setoid_rewrite list_elem_of_In. setoid_rewrite filter_In. setoid_rewrite <- list_elem_of_In.
  setoid_rewrite Hin. split.
  - intros (j & [Hj Hq] & Hv). apply bind_Some in Hv as (j' & Hu & Hv).
    apply try_into_u32_Some in Hu as [-> Hu]. apply validate_piece_index_Some in Hv as [-> Hv].
    split_and!; [|done..]. by apply Hbound.
  - intros (Hv & Hq & Hw). exists i. split; [done|].
    unfold try_into_u32, Lengths.validate_piece_index. lengths_facts.
    unfold valid_index, pieces in *. bcases; simpl; bcases; done || lia.
Qed.

End invariant.

(** ** Properties *)

Section properties.
Context {BF : Type} `{BitBox BF}.
Implicit Types ct : ChunkTracker BF.

(** On vectors of the right size and well-formed files, the constructor
    succeeds, establishes the invariant (sizes, counters in sync), queues
    exactly the pieces that are selected and missing, marks exactly the chunks
    of the pieces we have, and counts the bytes of every file. *)
Theorem new_establishes_invariant have_ sel l fis : wf l ->
  bit_len have_ = bitfield_len l -> bit_len sel = bitfield_len l -> Forall (file_of l) fis ->
  exists ct : ChunkTracker BF, new have_ sel l fis = Done (Ok ct) /\ inv ct /\
    per_file_bytes ct = file_bytes_spec l have_ <$> fis /\
    (forall i, 0 <= i < bitfield_len l ->
       bit_at (queue_pieces ct) i = bit_at sel i && negb (bit_at have_ i)) /\
    (forall i c, valid_index l i -> in_chunk_range l i c = true ->
       bit_at (chunk_status ct) c = bit_at have_ i).
Proof.
  intros Hwf Hh Hs Hf. destruct (new_spec have_ sel l fis Hwf Hh Hs Hf)
    as (ct & ? & ? & _ & _ & _ & ? & ? & ?). eauto 10.
Qed.

(** Marking a piece as downloaded sets exactly its [have] bit, never
    panics on a valid piece, and keeps the counters equal to what a full
    recount of the vectors gives. *)
Theorem mark_piece_downloaded_sync ct i : inv ct -> valid_index (lengths ct) i ->
  exists ct', mark_piece_downloaded ct i = Done ct' /\
    calc_hns ct' = Done (hns ct') /\ inv ct' /\
    (forall j, 0 <= j -> bit_at (have ct') j = (j =? i) || bit_at (have ct) j).
Proof.
  intros Hinv Hi. destruct (mark_piece_downloaded_cases ct i Hinv Hi)
    as (ct' & ? & Hinv' & _ & _ & _ & _ & _ & ?).
  exists ct'. split_and!; try done. rewrite (inv_hns _ Hinv').
  apply calc_hns_eq; apply Hinv'.
Qed.

(** The answers of [mark_chunk_downloaded]: nothing for a block that is
    not a chunk; [PreviouslyCompleted] (and no change) iff all the chunks of
    the piece were marked before; otherwise exactly the bit of that chunk is
    set, the invariant is kept, and the answer is [Completed] iff all the
    chunks of the piece are marked now. *)
Theorem mark_chunk_downloaded_spec ct msg : inv ct ->
  valid_index (lengths ct) (pm_index msg) -> 0 <= pm_begin msg -> 0 <= pm_len msg < U32 ->
  match Lengths.chunk_info_from_received_data (lengths ct) (pm_index msg) (pm_begin msg) (pm_len msg) with
  | None => mark_chunk_downloaded ct msg = Done (None, ct)
  | Some ci => exists r ct', mark_chunk_downloaded ct msg = Done (Some r, ct') /\ inv ct' /\
      (r = PreviouslyCompleted <-> piece_chunks_full ct (pm_index msg)) /\
      (r = PreviouslyCompleted -> ct' = ct) /\
      (r <> PreviouslyCompleted ->
         ct' = with_chunk_status ct
                 (bit_set (Z.to_nat (ci_absolute_index ci)) true (chunk_status ct)) /\
         in_chunk_range (lengths ct) (pm_index msg) (ci_absolute_index ci) = true /\
         (r = Completed <-> piece_chunks_full ct' (pm_index msg)))
  end.
Proof.
  intros Hinv Hi Hb Hl. pose proof (mark_chunk_downloaded_cases ct msg Hinv) as Hc.
  destruct Hi as [Hi0 Hi1]. specialize (Hc Hi0 Hb Hl).
  destruct (Lengths.chunk_info_from_received_data _ _ _ _) as [ci|]; [|done].
  destruct (Z.ltb_spec (l_last_piece_id (lengths ct)) (pm_index msg)); [lia|].
  destruct Hc as [[Hf He]|(Hf & ct' & Hct & Hr & Hinv' & [[Hf' He]|[Hf' He]])].
  - exists PreviouslyCompleted, ct. split_and!; done.
  - exists Completed, ct'. split_and!; try done.
  - exists NotCompleted, ct'. split_and!; try done.
Qed.

(** C19: changing the selected files keeps the invariant and the pieces we
    have, selects exactly the pieces of the chosen files that are not padding,
    drops from the queue every missing piece no longer wanted, and requeues
    the missing pieces that become wanted. *)
Theorem update_only_files_spec ct fis only : inv ct -> Forall (file_of (lengths ct)) fis ->
  let P idx := bool_decide (idx ∈ only) in
  exists ct', update_only_files ct fis only = Done (hns ct', ct') /\ inv ct' /\
    have ct' = have ct /\
    (forall i, 0 <= i -> bit_at (selected ct') i = piece_selected P fis i) /\
    (forall i, valid_index (lengths ct) i ->
       bit_at (queue_pieces ct') i =
       (newly_wanted ct P fis i || bit_at (queue_pieces ct) i) &&
       (piece_selected P fis i || bit_at (have ct) i)).
Proof.
  intros Hinv Hf P. destruct (update_only_files_cases ct fis only Hinv Hf)
    as (ct' & ? & ? & _ & ? & _ & ? & ?). eauto 10.
Qed.

(** The download is finished iff every selected piece is one we have. *)
Theorem is_finished_iff ct : inv ct ->
  is_finished ct = true <->
  forall i, valid_index (lengths ct) i -> bit_at (selected ct) i = true ->
            bit_at (have ct) i = true.
Proof.
  intros Hinv. unfold is_finished, finished. rewrite (inv_hns _ Hinv). simpl.
  rewrite Z.eqb_eq, bytes_of_zero by apply Hinv.
  split; intros Hall i Hi; specialize (Hall i Hi);
    destruct (bit_at (selected ct) i), (bit_at (have ct) i); naive_solver.
Qed.

(** A file is finished (all its pieces are there) iff the bytes counted
    for it are its whole length. *)
Theorem is_file_finished_iff ct fi : inv ct -> file_of (lengths ct) fi ->
  is_file_finished ct fi = true <-> file_have_bytes ct fi = Done (fi_len fi).
Proof.
  intros Hinv Hf. pose proof (inv_shape _ Hinv) as Hs. pose proof (inv_wf _ Hs) as Hwf.
  rewrite file_have_bytes_eq by (done || apply Hs).
  pose proof (file_range_bounds _ fi Hwf Hf) as [? ?]. pose proof (pieces_le_bitfield _ Hwf).
  destruct (bit_get_range_all (have ct) (fi_piece_range fi).1 (fi_piece_range fi).2)
    as (r & Hr & _ & Hall); [lia|rewrite (inv_have _ Hs); lia|].
  unfold is_file_finished, piece_range_usize. rewrite Hr, Hall.
  destruct (file_bytes_spec_bounds _ (have ct) fi Hwf Hf) as [_ Heq]. rewrite <- Heq.
  split; [by intros ->|by intros [= ?]].
Qed.

(** The queue iterator lists exactly the valid pieces that are in the
    queue and belong to an incomplete file of the priority list. *)
Theorem iter_queued_pieces_exact ct prios fis : inv ct -> Forall (file_of (lengths ct)) fis ->
  length (per_file_bytes ct) = length fis ->
  exists ps, iter_queued_pieces ct prios fis = Done ps /\
    forall i, i ∈ ps <-> valid_index (lengths ct) i /\ bit_at (queue_pieces ct) i = true /\
                        wanted_by_file ct prios fis i.
Proof. intros Hinv. apply iter_queued_pieces_cases. apply Hinv. Qed.

End properties.

(** ** A concrete torrent *)

(** 35000 bytes in two pieces; two files that share piece 0; we have piece 0
    and want both. *)
Definition ex_files : list FileInfo :=
  [mkFileInfo "a" 0 (0, 1) no_attrs 19000; mkFileInfo "b" 19000 (0, 2) no_attrs 16000].

Definition ex_have : list bool := true :: replicate 7 false.
Definition ex_selected : list bool := true :: true :: replicate 6 false.

Definition ex_ct : ChunkTracker (list bool) :=
  match new ex_have ex_selected ex_lengths ex_files with
  | Done (Ok ct) => ct
  | _ => mkChunkTracker [] [] [] [] [] ex_lengths hns_default
  end.

Lemma ex_files_ok : Forall (file_of ex_lengths) ex_files.
Proof. repeat constructor; simpl; done || lia. Qed.

Lemma ex_ct_inv : inv ex_ct.
Proof.
  destruct (new_spec ex_have ex_selected ex_lengths ex_files ex_lengths_wf)
    as (ct & Hct & Hinv & _); [done..|exact ex_files_ok|].
  unfold ex_ct. by rewrite Hct.
Qed.

Lemma ex_piece_1 : valid_index (lengths ex_ct) 1.
Proof. split; vm_compute; done. Qed.

Lemma new_establishes_invariant_witness :
  exists ct, new ex_have ex_selected ex_lengths ex_files = Done (Ok ct) /\ inv ct /\
    per_file_bytes ct = [19000; 1000].
Proof.
  destruct (new_establishes_invariant ex_have ex_selected ex_lengths ex_files ex_lengths_wf)
    as (ct & ? & ? & Hb & _); [reflexivity|reflexivity|exact ex_files_ok|].
  exists ct. split; [assumption|]. split; [assumption|]. rewrite Hb. vm_compute. reflexivity.
Defined.

Lemma mark_piece_downloaded_sync_witness :
  exists ct', mark_piece_downloaded ex_ct 1 = Done ct' /\ inv ct' /\ bit_at (have ct') 1 = true.
Proof.
  destruct (mark_piece_downloaded_sync ex_ct 1 ex_ct_inv ex_piece_1) as (ct' & ? & _ & ? & Hb).
  exists ct'. split; [assumption|]. split; [assumption|]. rewrite Hb; [reflexivity|lia].
Defined.

Lemma mark_chunk_downloaded_spec_witness :
  exists r ct', mark_chunk_downloaded ex_ct (mkPieceMsg 1 0 15000) = Done (Some r, ct') /\
    r <> PreviouslyCompleted /\ inv ct'.
Proof.
  destruct (mark_chunk_downloaded_spec ex_ct (mkPieceMsg 1 0 15000) ex_ct_inv ex_piece_1)
    as (r & ct' & Hm & ? & Hp & _); [simpl; lia..|].
  exists r, ct'. split; [exact Hm|]. split; [|assumption].
  intros ->. vm_compute in Hm. discriminate.
Defined.

Lemma update_only_files_spec_witness :
  exists ct', update_only_files ex_ct ex_files {[0]} = Done (hns ct', ct') /\ inv ct' /\
    bit_at (selected ct') 1 = false.
Proof.
  destruct (update_only_files_spec ex_ct ex_files {[0]} ex_ct_inv ex_files_ok)
    as (ct' & ? & ? & _ & Hs & _).
  exists ct'. split; [assumption|]. split; [assumption|].
  rewrite Hs by lia. vm_compute. reflexivity.
Defined.

Lemma is_finished_iff_witness : is_finished ex_ct = false /\
  (is_finished ex_ct = true <-> forall i, valid_index (lengths ex_ct) i ->
     bit_at (selected ex_ct) i = true -> bit_at (have ex_ct) i = true).
Proof. split; [vm_compute; reflexivity|exact (is_finished_iff ex_ct ex_ct_inv)]. Defined.

Lemma is_file_finished_iff_witness :
  file_have_bytes ex_ct (mkFileInfo "a" 0 (0, 1) no_attrs 19000) = Done 19000.
Proof.
  apply (is_file_finished_iff ex_ct (mkFileInfo "a" 0 (0, 1) no_attrs 19000) ex_ct_inv).
  - exact (Forall_inv ex_files_ok).
  - vm_compute. reflexivity.
Defined.

Lemma iter_queued_pieces_exact_witness :
  exists ps, iter_queued_pieces ex_ct [1; 0] ex_files = Done ps /\ 1 ∈ ps.
Proof.
  destruct (iter_queued_pieces_exact ex_ct [1; 0] ex_files ex_ct_inv ex_files_ok)
    as (ps & ? & Hps); [reflexivity|].
  exists ps. split; [assumption|]. apply Hps. split; [exact ex_piece_1|].
  split; [vm_compute; reflexivity|].
  exists 1, (mkFileInfo "b" 19000 (0, 2) no_attrs 16000), 1000.
  split_and!; first [done | vm_compute; done | set_solver].
Defined.
