(* ===== verification/Duration.v ===== *)
(** * Duration: the parts of [std::time::Duration] the program uses

    A [Duration] is its number of nanoseconds; [f64] is the Standard Library's
    executable IEEE-754 binary64 ([SpecFloat] with 53 bits of precision).
    Used by [PieceTracker::try_steal], which scales a duration with
    [Duration::from_secs_f64(d.as_secs_f64() * threshold)]. *)

From Stdlib Require Import SpecFloat.
From S2P Require Import Prelude.

Definition NANOS_PER_SEC : Z := 1000000000.

Definition f64_of_Z (z : Z) : spec_float := binary_normalize 53 1024 z 0 false.
Definition f64_add : spec_float -> spec_float -> spec_float := SFadd 53 1024.
Definition f64_mul : spec_float -> spec_float -> spec_float := SFmul 53 1024.
Definition f64_div : spec_float -> spec_float -> spec_float := SFdiv 53 1024.

(** [Duration::as_secs_f64]. *)
Definition as_secs_f64 (d : Z) : spec_float :=
  f64_add (f64_of_Z (d / NANOS_PER_SEC))
          (f64_div (f64_of_Z (d mod NANOS_PER_SEC)) (f64_of_Z NANOS_PER_SEC)).

(** [n / 2^k] rounded to the nearest integer, ties to even. *)
Definition shiftr_nearest_even (n k : Z) : Z :=
  let q := Z.shiftr n k in
  let r := n - Z.shiftl q k in
  let half := Z.shiftl 1 (k - 1) in
  if r <? half then q else if half <? r then q + 1 else if Z.even q then q else q + 1.

(** [Duration::from_secs_f64]: panics when the value is negative, not a
    number, or too large; otherwise rounds to the nearest nanosecond. *)
Definition from_secs_f64 (f : spec_float) : outcome Z :=
  match f with
  | S754_zero _ => Done 0
  | S754_finite false m e =>
      let nanos :=
        if e <? 0 then shiftr_nearest_even (Zpos m * NANOS_PER_SEC) (- e)
        else Z.shiftl (Zpos m) e * NANOS_PER_SEC in
      if nanos / NANOS_PER_SEC <? U64 then Done nanos else Panic
  | _ => Panic
  end.

(** [Duration::from_secs_f64(d.as_secs_f64() * threshold)]. *)
Definition scale (d : Z) (threshold : Z) : outcome Z :=
  from_secs_f64 (f64_mul (as_secs_f64 d) (f64_of_Z threshold)).

(** 3.5 s and 12 ns, ten times: exact; 1/3 s rounds to a whole nanosecond. *)
Example scale_exact : scale 3500000012 10 = Done 35000000120.
Proof. vm_compute. reflexivity. Qed.

Example scale_rounds : scale 333333333 3 = Done 999999999.
Proof. vm_compute. reflexivity. Qed.

Example scale_overflow : scale (U64 * NANOS_PER_SEC - 1) 10 = Panic.
Proof. vm_compute. reflexivity. Qed.
