(* ===== verification/PieceTracker.v ===== *)
(** * PieceTracker: queued, in-flight and finished pieces

    Models [crates/librtbit/src/piece_tracker.rs]: the [ChunkTracker] wrapped
    with the map of the pieces being downloaded and by which peer.  A peer
    handle is any type with decidable equality; [Instant::now()] is an argument
    [now] (nanoseconds).  The iteration order of a [HashMap] is not specified:
    every operation that iterates over one takes the order it sees as an
    argument, a function that lists the entries of the map ([iter_order]). *)

From stdpp Require Import strings.
From S2P Require Import Prelude Lengths BitBox FileInfo ChunkTracker Duration.

Section pieces.
Context {BF : Type} `{BitBox BF} {Peer : Type} `{EqDecision Peer}.

Record InflightPiece := mkInflight {
  if_peer : Peer;
  if_started : Z;
}.

Inductive AcquireResult :=
| Reserved (piece : ValidPieceIndex)
| Stolen (piece : ValidPieceIndex) (from_peer : Peer)
| NoneAvailable.

Record AcquireRequest := mkAcquireRequest {
  rq_peer : Peer;
  rq_peer_avg_time : option Z;
  rq_priority_pieces : list ValidPieceIndex;
  rq_file_priorities : list Z;
  rq_file_infos : list FileInfo;
  rq_peer_has_piece : ValidPieceIndex -> bool;
  rq_can_steal : ValidPieceIndex -> bool;
}.

Record PieceTracker := mkPieceTracker {
  pt_chunks : ChunkTracker BF;
  pt_inflight : gmap Z InflightPiece;
}.

(** The order in which the entries of a map are seen. *)
Definition order : Type := gmap Z InflightPiece -> list (Z * InflightPiece).

Definition with_chunks (pt : PieceTracker) (ct : ChunkTracker BF) : PieceTracker :=
  mkPieceTracker ct (pt_inflight pt).
Definition with_inflight (pt : PieceTracker) (m : gmap Z InflightPiece) : PieceTracker :=
  mkPieceTracker (pt_chunks pt) m.

(** ** Construction *)

Definition pt_new (chunks : ChunkTracker BF) : PieceTracker := mkPieceTracker chunks ∅.

Definition into_chunks (ord : order) (pt : PieceTracker) : outcome (ChunkTracker BF) :=
  for_each mark_piece_broken_if_not_have (pt_chunks pt) (fst <$> ord (pt_inflight pt)).

(** ** Acquisition *)

Definition reserve_piece (now : Z) (pt : PieceTracker) (piece : ValidPieceIndex) (peer : Peer) :
    outcome (AcquireResult * PieceTracker) :=
  ct ←! reserve_needed_piece (pt_chunks pt) piece;
  Done (Reserved piece, mkPieceTracker ct (<[piece := mkInflight peer now]> (pt_inflight pt))).

(** [started.elapsed()]: saturates at zero. *)
Definition elapsed (now started : Z) : Z := saturating_sub now started.

(** [Iterator::max_by_key]: the last of the greatest entries. *)
Definition max_by_key {A} (key : A -> Z) (l : list A) : option A :=
  foldl (fun best x => match best with
                       | Some b => if key x <? key b then Some b else Some x
                       | None => Some x
                       end) None l.

Definition try_steal (now : Z) (ord : order) (pt : PieceTracker) (req : AcquireRequest)
    (threshold : Z) : outcome (option (AcquireResult * PieceTracker)) :=
  match rq_peer_avg_time req with
  | None => Done None
  | Some my_avg =>
      min_elapsed ←! scale my_avg threshold;
      let candidates :=
        List.filter (fun '(_, _, el) => min_elapsed <=? el)
          ((fun '(p, info) => (p, if_peer info, elapsed now (if_started info))) <$>
            List.filter (fun '(p, _) => rq_peer_has_piece req p)
              (List.filter (fun '(_, info) => negb (bool_decide (if_peer info = rq_peer req)))
                (ord (pt_inflight pt)))) in
      match max_by_key (fun '(_, _, el) => el) candidates with
      | None => Done None
      | Some (piece, old_peer, _) =>
          if negb (rq_can_steal req piece) then Done None
          else match pt_inflight pt !! piece with
               | None => Done None
               | Some _ =>
                   Done (Some (Stolen piece old_peer,
                     with_inflight pt
                       (<[piece := mkInflight (rq_peer req) now]> (pt_inflight pt))))
               end
      end
  end.

(** The first priority piece to reserve. *)
Fixpoint find_priority (pt : PieceTracker) (req : AcquireRequest) (l : list ValidPieceIndex) :
    outcome (option ValidPieceIndex) :=
  match l with
  | [] => Done None
  | piece :: l =>
      h ←! is_piece_have (pt_chunks pt) piece;
      if negb h && negb (bool_decide (is_Some (pt_inflight pt !! piece))) &&
         rq_peer_has_piece req piece
      then Done (Some piece)
      else find_priority pt req l
  end.

Definition acquire_piece (now : Z) (ord : order) (pt : PieceTracker) (req : AcquireRequest) :
    outcome (AcquireResult * PieceTracker) :=
  (* 1. steal with the 10x threshold *)
  s ←! try_steal now ord pt req 10;
  match s with
  | Some result => Done result
  | None =>
      (* 2. reserve: the priority pieces, then the queue *)
      p ←! find_priority pt req (rq_priority_pieces req);
      match p with
      | Some piece => reserve_piece now pt piece (rq_peer req)
      | None =>
          queued ←! iter_queued_pieces (pt_chunks pt) (rq_file_priorities req)
                     (rq_file_infos req);
          match List.find (rq_peer_has_piece req) queued with
          | Some piece => reserve_piece now pt piece (rq_peer req)
          | None =>
              (* 3. steal with the 3x threshold *)
              s ←! try_steal now ord pt req 3;
              match s with
              | Some result => Done result
              | None => Done (NoneAvailable, pt)
              end
          end
      end
  end.

(** ** Completion *)

(** Also the download time, when the piece was in flight. *)
Definition take_inflight (now : Z) (pt : PieceTracker) (piece : ValidPieceIndex) :
    option Z * PieceTracker :=
  match pt_inflight pt !! piece with
  | None => (None, pt)
  | Some info =>
      (Some (elapsed now (if_started info)), with_inflight pt (delete piece (pt_inflight pt)))
  end.

Definition mark_piece_hash_ok (pt : PieceTracker) (piece : ValidPieceIndex) :
    outcome PieceTracker :=
  ct ←! mark_piece_downloaded (pt_chunks pt) piece; Done (with_chunks pt ct).

Definition mark_piece_hash_failed (pt : PieceTracker) (piece : ValidPieceIndex) :
    outcome PieceTracker :=
  ct ←! mark_piece_broken_if_not_have (pt_chunks pt) piece; Done (with_chunks pt ct).

Definition release_pieces_owned_by (ord : order) (pt : PieceTracker) (peer : Peer) :
    outcome (Z * PieceTracker) :=
  let pieces_to_release :=
    fst <$> List.filter (fun '(_, info) => bool_decide (if_peer info = peer))
              (ord (pt_inflight pt)) in
  let count := Z.of_nat (length pieces_to_release) in
  pt ←! for_each (fun pt piece =>
          let pt := with_inflight pt (delete piece (pt_inflight pt)) in
          ct ←! mark_piece_broken_if_not_have (pt_chunks pt) piece;
          Done (with_chunks pt ct)) pt pieces_to_release;
  Done (count, pt).

(** ** Queries and pass-through methods *)

Definition get_inflight (pt : PieceTracker) (piece : ValidPieceIndex) : option InflightPiece :=
  pt_inflight pt !! piece.

Definition is_inflight (pt : PieceTracker) (piece : ValidPieceIndex) : bool :=
  bool_decide (is_Some (pt_inflight pt !! piece)).

Definition inflight_count (pt : PieceTracker) : Z := Z.of_nat (size (pt_inflight pt)).

Definition pt_mark_chunk_downloaded (pt : PieceTracker) (piece : PieceMsg) :
    outcome (option ChunkMarkingResult * PieceTracker) :=
  r ←! mark_chunk_downloaded (pt_chunks pt) piece; Done (r.1, with_chunks pt r.2).

Definition pt_update_only_files (pt : PieceTracker) (file_infos : list FileInfo)
    (new_only_files : gset Z) : outcome (HaveNeededSelected * PieceTracker) :=
  r ←! update_only_files (pt_chunks pt) file_infos new_only_files;
  Done (r.1, with_chunks pt r.2).

Definition pt_update_file_have_on_piece_completed (pt : PieceTracker)
    (piece_id : ValidPieceIndex) (file_id : Z) (file_info : FileInfo) :
    outcome (Z * PieceTracker) :=
  r ←! update_file_have_on_piece_completed (pt_chunks pt) piece_id file_id file_info;
  Done (r.1, with_chunks pt r.2).

End pieces.
Arguments InflightPiece : clear implicits.
Arguments AcquireResult : clear implicits.
Arguments AcquireRequest : clear implicits.
Arguments PieceTracker : clear implicits.
Arguments order : clear implicits.

(** ** Invariant and behaviour of each operation *)
Section spec.
Context {BF : Type} `{BitBox BF} {Peer : Type} `{EqDecision Peer}.
Implicit Types (pt : PieceTracker BF Peer) (req : AcquireRequest Peer) (ord : order Peer).

(** [ord] lists every entry of a map exactly once. *)
Definition iter_order ord : Prop := forall m, ord m ≡ₚ map_to_list m.

(** The four states of a piece. *)
Definition is_have pt (i : Z) : bool := bit_at (have (pt_chunks pt)) i.
Definition is_queued pt (i : Z) : bool := bit_at (queue_pieces (pt_chunks pt)) i.
Definition is_selected pt (i : Z) : bool := bit_at (selected (pt_chunks pt)) i.

Record pt_inv pt : Prop := {
  pt_chunks_inv : inv (pt_chunks pt);
  pt_inflight_valid : forall i info, pt_inflight pt !! i = Some info ->
    valid_index (lengths (pt_chunks pt)) i;
}.

Lemma elem_of_order ord m i info : iter_order ord -> (i, info) ∈ ord m <-> m !! i = Some info.
Proof. intros Ho. by rewrite (Ho m), elem_of_map_to_list. Qed.

Lemma elem_of_order_keys ord m i : iter_order ord -> i ∈ (ord m).*1 <-> is_Some (m !! i).
Proof.
  intros Ho. rewrite list_elem_of_fmap. split.
  - intros ([j info] & -> & Hj%elem_of_order); [|done]. by exists info.
  - intros [info Hi]. exists (i, info). split; [done|]. by apply elem_of_order.
Qed.

Lemma inv_frame (ct ct' : ChunkTracker BF) : inv ct -> shape ct' -> same_frame ct ct' -> inv ct'.
Proof.
  intros [_ Hh] Hs (Hl & Hhave & Hsel & _ & Hn). constructor; [done|].
  by rewrite Hn, Hh, Hl, Hhave, Hsel.
Qed.

(** One requeue, whatever the piece's state. *)
Lemma mark_broken_frame (ct : ChunkTracker BF) i : shape ct -> valid_index (lengths ct) i ->
  exists ct', mark_piece_broken_if_not_have ct i = Done ct' /\ shape ct' /\ same_frame ct ct' /\
    forall j, 0 <= j -> bit_at (queue_pieces ct') j =
      bit_at (queue_pieces ct) j || (j =? i) && negb (bit_at (have ct) i).
Proof.
  intros Hs Hi. rewrite mark_piece_broken_eq by done. eexists. split; [done|].
  destruct (bit_at (have ct) i) eqn:Eh.
  - split_and!; try done. intros j _. by rewrite andb_false_r, orb_false_r.
  - split_and!; [by apply shape_broken|done|]. intros j Hj. rewrite queue_broken by done.
    destruct (j =? i), (bit_at (queue_pieces ct) j); done.
Qed.

Lemma same_frame_trans (a b c : ChunkTracker BF) :
  same_frame a b -> same_frame b c -> same_frame a c.
Proof. unfold same_frame. intros (?&?&?&?&?) (?&?&?&?&?). split_and!; congruence. Qed.

Definition requeued (ct ct' : ChunkTracker BF) (l : list Z) : Prop :=
  shape ct' /\ same_frame ct ct' /\
  forall j, 0 <= j -> bit_at (queue_pieces ct') j =
    bit_at (queue_pieces ct) j || bool_decide (j ∈ l) && negb (bit_at (have ct) j).

Lemma requeued_nil (ct : ChunkTracker BF) : shape ct -> requeued ct ct [].
Proof. intros Hs. split_and!; try done. intros j _. by rewrite orb_false_r. Qed.

Lemma requeued_snoc (ct ct' : ChunkTracker BF) l i : valid_index (lengths ct) i ->
  requeued ct ct' l ->
  exists ct'', mark_piece_broken_if_not_have ct' i = Done ct'' /\ requeued ct ct'' (l ++ [i]).
Proof.
  intros Hi (Hs & Hf & Hq). destruct (mark_broken_frame ct' i Hs) as (ct'' & -> & Hs' & Hf' & Hq').
  { destruct Hf as (-> & _). done. }
  exists ct''. split; [done|]. split_and!; [done|by eapply same_frame_trans|].
  intros j Hj. rewrite Hq', Hq by done. destruct Hf as (_ & -> & _).
  rewrite <- orb_assoc. f_equal. destruct (Z.eqb_spec j i) as [->|Hne].
  - rewrite (bool_decide_true (i ∈ l ++ [i])) by set_solver.
    destruct (bool_decide (i ∈ l)), (bit_at (have ct) i); done.
  - rewrite (bool_decide_ext (j ∈ l ++ [i]) (j ∈ l)) by set_solver. by rewrite orb_false_r.
Qed.

Lemma requeue_all_spec (ct : ChunkTracker BF) l : shape ct ->
  (forall i, i ∈ l -> valid_index (lengths ct) i) ->
  exists ct', for_each mark_piece_broken_if_not_have ct l = Done ct' /\ requeued ct ct' l.
Proof.
  intros Hs Hl. apply (for_each_inv (fun l ct' => requeued ct ct' l)); [by apply requeued_nil|].
  intros done_ i ct' [k Hk] Hr. apply requeued_snoc; [|done]. apply Hl. rewrite Hk. set_solver.
Qed.

Lemma into_chunks_spec ord pt : pt_inv pt -> iter_order ord ->
  exists ct', into_chunks ord pt = Done ct' /\ inv ct' /\ same_frame (pt_chunks pt) ct' /\
    forall j, 0 <= j -> bit_at (queue_pieces ct') j =
      is_queued pt j || is_inflight pt j && negb (is_have pt j).
Proof.
  intros [Hinv Hv] Ho. pose proof (inv_shape _ Hinv) as Hs.
  destruct (requeue_all_spec (pt_chunks pt) (ord (pt_inflight pt)).*1 Hs) as (ct' & Hct & Hs' & Hf & Hq).
  { intros i [info Hi]%elem_of_order_keys; eauto. }
  exists ct'. split_and!; [done|by eapply inv_frame|done|]. intros j Hj. rewrite Hq by done.
  unfold is_inflight. by rewrite (bool_decide_ext _ _ (elem_of_order_keys ord _ j Ho)).
Qed.

(** The pieces a peer owns. *)
Definition owned pt (peer : Peer) (i : Z) : bool :=
  match pt_inflight pt !! i with
  | Some info => bool_decide (if_peer info = peer)
  | None => false
  end.

Lemma elem_of_owned ord pt peer i : iter_order ord ->
  i ∈ (fst <$> List.filter (fun '(_, info) => bool_decide (if_peer info = peer))
                 (ord (pt_inflight pt))) <-> owned pt peer i = true.
Proof.
  intros Ho. rewrite list_elem_of_fmap. unfold owned. split.
  - intros ([j info] & -> & [Hin Hp]%list_elem_of_In%filter_In).
    apply list_elem_of_In, elem_of_order in Hin; [|done]. cbn [fst]. by rewrite Hin.
  - intros Hi. destruct (pt_inflight pt !! i) as [info|] eqn:E; [|done].
    exists (i, info). split; [done|]. apply list_elem_of_In, filter_In.
    split; [|done]. by apply list_elem_of_In, elem_of_order.
Qed.

Lemma release_spec ord pt peer : pt_inv pt -> iter_order ord ->
  exists n pt', release_pieces_owned_by ord pt peer = Done (n, pt') /\ pt_inv pt' /\
    same_frame (pt_chunks pt) (pt_chunks pt') /\
    (forall i, pt_inflight pt' !! i = if owned pt peer i then None else pt_inflight pt !! i) /\
    (forall j, 0 <= j -> is_queued pt' j =
       is_queued pt j || owned pt peer j && negb (is_have pt j)).
Proof.
  intros [Hinv Hv] Ho. unfold release_pieces_owned_by. cbv zeta.
  set (l := fst <$> List.filter _ _).
  assert (Hl : forall i, i ∈ l <-> owned pt peer i = true) by (intros; by apply elem_of_owned).
  destruct (for_each_inv (fun l pt' => requeued (pt_chunks pt) (pt_chunks pt') l /\
      forall i, pt_inflight pt' !! i = if bool_decide (i ∈ l) then None else pt_inflight pt !! i)
    (fun pt piece =>
          let pt := with_inflight pt (delete piece (pt_inflight pt)) in
          ct ←! mark_piece_broken_if_not_have (pt_chunks pt) piece;
          Done (with_chunks pt ct)) pt l) as (pt' & Hfe & Hreq & Hinf).
  - split; [apply requeued_nil, Hinv|]. intros i. by rewrite bool_decide_false by set_solver.
  - intros done_ i s [k Hk] [Hreq Hinf]. cbv zeta. cbn [with_inflight pt_chunks].
    destruct (requeued_snoc (pt_chunks pt) (pt_chunks s) done_ i) as (ct'' & -> & Hreq'); [|done|].
    { assert (Hi : i ∈ l) by (rewrite Hk; set_solver). apply Hl in Hi. unfold owned in Hi.
      destruct (pt_inflight pt !! i) eqn:E; [eauto|done]. }
    eexists. split; [done|]. split; [done|]. intros j. cbn [with_chunks with_inflight pt_inflight].
    destruct (decide (j = i)) as [->|Hne].
    + rewrite lookup_delete_eq. by rewrite bool_decide_true by set_solver.
    + rewrite lookup_delete_ne by done. rewrite Hinf.
      by rewrite (bool_decide_ext (j ∈ done_ ++ [i]) (j ∈ done_)) by set_solver.
  - cbv zeta in Hfe. rewrite Hfe. rsimpl.
    destruct Hreq as (Hs & Hf & Hq).
    assert (Hown : forall i, bool_decide (i ∈ l) = owned pt peer i).
    { intros i. apply eq_true_iff_eq. by rewrite bool_decide_eq_true, Hl. }
    assert (Hinf' : forall i, pt_inflight pt' !! i =
      if owned pt peer i then None else pt_inflight pt !! i) by (intros; by rewrite Hinf, Hown).
    eexists _, pt'. split_and!; [done| |done|done|].
    + constructor; [by eapply inv_frame|]. intros i info. rewrite Hinf'.
      destruct Hf as (-> & _). destruct (owned pt peer i); [done|apply Hv].
    + intros j Hj. unfold is_queued, is_have. by rewrite Hq, Hown by done.
Qed.

Lemma max_by_key_spec {A} (key : A -> Z) (l : list A) x : max_by_key key l = Some x ->
  x ∈ l /\ forall y, y ∈ l -> key y <= key x.
Proof.
  unfold max_by_key.
  assert (Hgen : forall best, foldl (fun best x => match best with
                       | Some b => if key x <? key b then Some b else Some x
                       | None => Some x end) best l = Some x ->
    (x ∈ l \/ best = Some x) /\ (forall y, y ∈ l \/ best = Some y -> key y <= key x)).
  { induction l as [|z l IH]; intros best; cbn [foldl].
    - intros ->. split; [by right|]. intros y [?|[= ->]]; [set_solver|lia].
    - intros [Hx Hmax]%IH. destruct best as [b|].
      + destruct (Z.ltb_spec (key z) (key b)).
        * split; [set_solver|]. intros y [[->|Hy]%elem_of_cons|[= ->]].
          -- assert (key b <= key x) by (apply Hmax; by right). lia.
          -- apply Hmax. by left.
          -- apply Hmax. by right.
        * split; [destruct Hx as [?|[= ->]]; set_solver|].
          intros y [[->|Hy]%elem_of_cons|[= ->]].
          -- apply Hmax. by right.
          -- apply Hmax. by left.
          -- assert (key z <= key x) by (apply Hmax; by right). lia.
      + split; [destruct Hx as [?|[= ->]]; set_solver|].
        intros y [[->|Hy]%elem_of_cons|[=]]; apply Hmax; auto. }
  intros [[Hx|[=]] Hmax]%Hgen. split; [done|]. intros y Hy. apply Hmax. by left.
Qed.

(** Stealing: nothing, or the slowest piece of another peer that has been in
    flight for the threshold, which the thief has and may take. *)
Definition steals (now : Z) ord pt req (threshold : Z) (i : Z) (from : Peer) : Prop :=
  exists avg min info, rq_peer_avg_time req = Some avg /\ scale avg threshold = Done min /\
    pt_inflight pt !! i = Some info /\ if_peer info = from /\ from <> rq_peer req /\
    rq_peer_has_piece req i = true /\ rq_can_steal req i = true /\
    min <= elapsed now (if_started info) /\
    forall j info', pt_inflight pt !! j = Some info' -> if_peer info' <> rq_peer req ->
      rq_peer_has_piece req j = true ->
      elapsed now (if_started info') <= elapsed now (if_started info) \/
      elapsed now (if_started info') < min.

Definition stolen (now : Z) pt req (i : Z) : PieceTracker BF Peer :=
  with_inflight pt (<[i := mkInflight (rq_peer req) now]> (pt_inflight pt)).

Definition reserved (now : Z) pt (peer : Peer) (i : Z) : PieceTracker BF Peer :=
  mkPieceTracker
    (with_queue_pieces (pt_chunks pt) (bit_set (Z.to_nat i) false (queue_pieces (pt_chunks pt))))
    (<[i := mkInflight peer now]> (pt_inflight pt)).

(** The durations a request scales are in range. *)
Definition can_scale req : Prop :=
  forall avg, rq_peer_avg_time req = Some avg ->
    (exists m, scale avg 10 = Done m) /\ (exists m, scale avg 3 = Done m).

Lemma steal_candidates now ord pt req min p from el : iter_order ord ->
  (p, from, el) ∈ List.filter (fun '(_, _, el) => min <=? el)
          ((fun '(p, info) => (p, if_peer info, elapsed now (if_started info))) <$>
            List.filter (fun '(p, _) => rq_peer_has_piece req p)
              (List.filter (fun '(_, info) => negb (bool_decide (if_peer info = rq_peer req)))
                (ord (pt_inflight pt)))) <->
  exists info, pt_inflight pt !! p = Some info /\ from = if_peer info /\
    el = elapsed now (if_started info) /\ from <> rq_peer req /\
    rq_peer_has_piece req p = true /\ min <= el.
Proof.
  intros Ho. rewrite list_elem_of_In, filter_In, <- list_elem_of_In, list_elem_of_fmap, Z.leb_le.
  split.
  - intros [([q info] & [= -> -> ->] & Hin) Hmin]. apply list_elem_of_In, filter_In in Hin as [Hin Hp].
    apply filter_In in Hin as [Hin Hne]. apply list_elem_of_In, elem_of_order in Hin; [|done].
    apply negb_true_iff, bool_decide_eq_false in Hne. eauto 10.
  - intros (info & Hi & -> & -> & Hne & Hp & Hmin). split; [|done]. exists (p, info). split; [done|].
    apply list_elem_of_In, filter_In. split; [|done]. apply filter_In. split.
    + by apply list_elem_of_In, elem_of_order.
    + by apply negb_true_iff, bool_decide_eq_false.
Qed.

Lemma try_steal_cases now ord pt req threshold : iter_order ord ->
  (forall avg, rq_peer_avg_time req = Some avg -> exists m, scale avg threshold = Done m) ->
  try_steal now ord pt req threshold = Done None \/
  exists i from, try_steal now ord pt req threshold = Done (Some (Stolen i from, stolen now pt req i)) /\
    steals now ord pt req threshold i from.
Proof.
  intros Ho Hscale. unfold try_steal. destruct (rq_peer_avg_time req) as [avg|] eqn:Eavg; [|by left].
  destruct (Hscale avg eq_refl) as [min Hmin]. rewrite Hmin. rsimpl. cbv zeta.
  match goal with |- context [max_by_key _ ?l] => set (cands := l) end.
  destruct (max_by_key _ cands) as [[[p from] el]|] eqn:Emax; [|by left].
  apply max_by_key_spec in Emax as [Hin Hmax].
  apply steal_candidates in Hin as (info & Hi & -> & -> & Hne & Hp & Hle); [|done].
  destruct (rq_can_steal req p) eqn:Ecan; simpl; [|by left]. right. rewrite Hi.
  exists p, (if_peer info). split; [done|]. exists avg, min, info. split_and!; try done.
  intros j info' Hj Hne' Hp'.
  destruct (Z.le_gt_cases min (elapsed now (if_started info'))) as [Hge|]; [left|by right].
  apply (Hmax (j, if_peer info', elapsed now (if_started info'))).
  apply steal_candidates; [done|]. eauto 10.
Qed.

Lemma find_priority_cases pt req l : shape (pt_chunks pt) ->
  (forall i, i ∈ l -> valid_index (lengths (pt_chunks pt)) i) ->
  exists r, find_priority pt req l = Done r /\
    match r with
    | Some i => i ∈ l /\ is_have pt i = false /\ is_inflight pt i = false /\
                rq_peer_has_piece req i = true
    | None => True
    end.
Proof.
  intros Hs. induction l as [|i l IH]; intros Hv; [by exists None|].
  cbn [find_priority]. unfold is_piece_have.
  pose proof (valid_index_in_bitfield _ i Hs (Hv i ltac:(set_solver))).
  rewrite bit_index_in by (rewrite (inv_have _ Hs); lia). rsimpl.
  destruct (negb _ && negb _ && _) eqn:E.
  - exists (Some i). split; [done|]. rewrite !andb_true_iff, !negb_true_iff in E.
    split; [set_solver|]. tauto.
  - destruct IH as (r & Hr & Hprop); [set_solver|]. exists r. split; [done|].
    destruct r as [j|]; [|done]. destruct Hprop as [? Hp]. split; [set_solver|exact Hp].
Qed.

Lemma find_some_iff {A} (f : A -> bool) l x : List.find f l = Some x -> x ∈ l /\ f x = true.
Proof. intros [? ?]%List.find_some. by rewrite list_elem_of_In. Qed.

(** The request comes with the files the tracker was built for. *)
Record request_ok pt req : Prop := {
  rq_priority_valid : forall i, i ∈ rq_priority_pieces req ->
    valid_index (lengths (pt_chunks pt)) i;
  rq_files_ok : Forall (file_of (lengths (pt_chunks pt))) (rq_file_infos req);
  rq_files_len : length (per_file_bytes (pt_chunks pt)) = length (rq_file_infos req);
  rq_scale_ok : can_scale req;
}.

(** What [acquire_piece] does, on every branch. *)
Inductive acquired (now : Z) ord pt req : AcquireResult Peer -> PieceTracker BF Peer -> Prop :=
| acq_priority i : i ∈ rq_priority_pieces req -> is_have pt i = false ->
    is_inflight pt i = false -> rq_peer_has_piece req i = true ->
    acquired now ord pt req (Reserved i) (reserved now pt (rq_peer req) i)
| acq_queued i : valid_index (lengths (pt_chunks pt)) i -> is_queued pt i = true ->
    rq_peer_has_piece req i = true ->
    acquired now ord pt req (Reserved i) (reserved now pt (rq_peer req) i)
| acq_stolen threshold i from : threshold = 10 \/ threshold = 3 ->
    steals now ord pt req threshold i from ->
    acquired now ord pt req (Stolen i from) (stolen now pt req i)
| acq_none : acquired now ord pt req NoneAvailable pt.

Lemma reserve_piece_eq now pt i peer : shape (pt_chunks pt) ->
  valid_index (lengths (pt_chunks pt)) i ->
  reserve_piece now pt i peer = Done (Reserved i, reserved now pt peer i).
Proof. intros. unfold reserve_piece. by rewrite reserve_needed_piece_eq. Qed.

Lemma acquire_piece_cases now ord pt req : pt_inv pt -> iter_order ord -> request_ok pt req ->
  exists r pt', acquire_piece now ord pt req = Done (r, pt') /\ acquired now ord pt req r pt'.
Proof.
  intros [Hinv Hv] Ho [Hprio Hfiles Hlen Hscale]. pose proof (inv_shape _ Hinv) as Hs.
  unfold acquire_piece.
  destruct (try_steal_cases now ord pt req 10 Ho) as [->|(i & from & -> & Hst)].
  { intros avg Havg. by apply Hscale in Havg as [? _]. }
  2: { rsimpl. eexists _, _. split; [done|]. apply (acq_stolen _ _ _ _ 10); auto. }
  destruct (find_priority_cases pt req (rq_priority_pieces req) Hs Hprio) as (p & Hfp & Hp).
  rsimpl. rewrite Hfp. rsimpl.
  destruct p as [i|].
  { destruct Hp as (Hin & ? & ? & ?). rewrite reserve_piece_eq by auto.
    eexists _, _. split; [done|]. by apply acq_priority. }
  destruct (iter_queued_pieces_cases (pt_chunks pt) (rq_file_priorities req) (rq_file_infos req)
              Hs Hfiles Hlen) as (ps & -> & Hps). rsimpl.
  destruct (List.find _ ps) as [i|] eqn:Efind.
  { apply find_some_iff in Efind as [(Hvi & Hqi & _)%Hps Hpi]. rewrite reserve_piece_eq by done.
    eexists _, _. split; [done|]. by apply acq_queued. }
  destruct (try_steal_cases now ord pt req 3 Ho) as [->|(i & from & -> & Hst)].
  { intros avg Havg. by apply Hscale in Havg as [_ ?]. }
  - rsimpl. eexists _, _. split; [done|]. apply acq_none.
  - rsimpl. eexists _, _. split; [done|]. apply (acq_stolen _ _ _ _ 3); auto.
Qed.

(** ** The effect of the operations on the states of the pieces *)

Lemma valid_index_nonneg l i : valid_index l i -> 0 <= i.
Proof. by intros [? _]. Qed.

Lemma reserved_effect now pt peer i : pt_inv pt -> valid_index (lengths (pt_chunks pt)) i ->
  pt_inv (reserved now pt peer i) /\
  forall j, 0 <= j -> is_queued (reserved now pt peer i) j = negb (j =? i) && is_queued pt j.
Proof.
  intros [[Hs Hh] Hv] Hi. pose proof (valid_index_in_bitfield _ i Hs Hi).
  pose proof (inv_queue _ Hs). split.
  - constructor.
    + constructor; [|exact Hh]. apply shape_with_queue; [done|]. apply bit_len_set. lia.
    + intros j info. cbn [reserved pt_inflight pt_chunks with_queue_pieces lengths].
      destruct (decide (j = i)) as [->|]; [done|]. rewrite lookup_insert_ne by done. apply Hv.
  - intros j Hj. unfold is_queued. cbn [reserved pt_chunks with_queue_pieces queue_pieces].
    rewrite bit_at_set by lia. by destruct (j =? i).
Qed.

Lemma stolen_inv now pt req i : pt_inv pt -> is_inflight pt i = true -> pt_inv (stolen now pt req i).
Proof.
  intros [Hc Hv] [info Hi]%bool_decide_eq_true. constructor; [done|].
  intros j info'. cbn [stolen with_inflight pt_inflight pt_chunks].
  destruct (decide (j = i)) as [->|]; [|rewrite lookup_insert_ne by done]; eauto.
Qed.

Lemma hash_ok_effect pt i : pt_inv pt -> valid_index (lengths (pt_chunks pt)) i ->
  exists pt', mark_piece_hash_ok pt i = Done pt' /\ pt_inv pt' /\
    lengths (pt_chunks pt') = lengths (pt_chunks pt) /\
    pt_inflight pt' = pt_inflight pt /\
    queue_pieces (pt_chunks pt') = queue_pieces (pt_chunks pt) /\
    selected (pt_chunks pt') = selected (pt_chunks pt) /\
    per_file_bytes (pt_chunks pt') = per_file_bytes (pt_chunks pt) /\
    chunk_status (pt_chunks pt') = chunk_status (pt_chunks pt) /\
    forall j, 0 <= j -> is_have pt' j = (j =? i) || is_have pt j.
Proof.
  intros [Hinv Hv] Hi. unfold mark_piece_hash_ok.
  destruct (mark_piece_downloaded_cases _ i Hinv Hi) as (ct' & -> & Hinv' & Hl & ? & ? & ? & ? & ?).
  eexists. split; [done|]. split_and!; try done. constructor; [done|].
  intros j info Hj. cbn [with_chunks pt_chunks]. rewrite Hl. eauto.
Qed.

Lemma hash_failed_effect pt i : pt_inv pt -> valid_index (lengths (pt_chunks pt)) i ->
  exists pt', mark_piece_hash_failed pt i = Done pt' /\ pt_inv pt' /\
    same_frame (pt_chunks pt) (pt_chunks pt') /\ pt_inflight pt' = pt_inflight pt /\
    forall j, 0 <= j -> is_queued pt' j = is_queued pt j || (j =? i) && negb (is_have pt i).
Proof.
  intros [Hinv Hv] Hi. unfold mark_piece_hash_failed.
  destruct (mark_broken_frame _ i (inv_shape _ Hinv) Hi) as (ct' & -> & Hs & Hf & Hq).
  eexists. split; [done|]. split_and!; try done. constructor; [by eapply inv_frame|].
  intros j info Hj. cbn [with_chunks pt_chunks]. destruct Hf as (-> & _). eauto.
Qed.

(** Marking a chunk touches the chunk bits only. *)
Lemma mark_chunk_frame (ct : ChunkTracker BF) msg : inv ct -> 0 <= pm_index msg ->
  0 <= pm_begin msg -> 0 <= pm_len msg < U32 ->
  exists r s, mark_chunk_downloaded ct msg = Done (r, with_chunk_status ct s) /\
    inv (with_chunk_status ct s).
Proof.
  intros Hinv Hi Hb Hl. pose proof (mark_chunk_downloaded_cases ct msg Hinv Hi Hb Hl) as Hc.
  assert (Hnone : forall r, mark_chunk_downloaded ct msg = Done (r, ct) ->
    exists r s, mark_chunk_downloaded ct msg = Done (r, with_chunk_status ct s) /\
      inv (with_chunk_status ct s)).
  { intros r Hr. exists r, (chunk_status ct). by destruct ct. }
  destruct (Lengths.chunk_info_from_received_data _ _ _ _) as [ci|]; [|by eapply Hnone].
  destruct (_ <? _); [by eapply Hnone|].
  destruct Hc as [[_ Hc]|(_ & ct' & -> & _ & Hinv' & [[_ Hc]|[_ Hc]])]; [by eapply Hnone|eauto..].
Qed.

Lemma mark_chunk_effect pt msg : pt_inv pt -> 0 <= pm_index msg -> 0 <= pm_begin msg ->
  0 <= pm_len msg < U32 ->
  exists r s, pt_mark_chunk_downloaded pt msg =
    Done (r, with_chunks pt (with_chunk_status (pt_chunks pt) s)) /\
  pt_inv (with_chunks pt (with_chunk_status (pt_chunks pt) s)).
Proof.
  intros [Hinv Hv] Hi Hb Hl. unfold pt_mark_chunk_downloaded.
  destruct (mark_chunk_frame _ msg Hinv Hi Hb Hl) as (r & s & -> & Hs).
  exists r, s. split; [done|]. by constructor.
Qed.

Lemma update_files_effect pt fis only : pt_inv pt ->
  Forall (file_of (lengths (pt_chunks pt))) fis ->
  let P idx := bool_decide (idx ∈ only) in
  exists h pt', pt_update_only_files pt fis only = Done (h, pt') /\ pt_inv pt' /\
    lengths (pt_chunks pt') = lengths (pt_chunks pt) /\
    have (pt_chunks pt') = have (pt_chunks pt) /\ pt_inflight pt' = pt_inflight pt /\
    per_file_bytes (pt_chunks pt') = per_file_bytes (pt_chunks pt) /\
    (forall i, 0 <= i -> is_selected pt' i = piece_selected P fis i) /\
    (forall i, valid_index (lengths (pt_chunks pt)) i -> is_queued pt' i =
       (newly_wanted (pt_chunks pt) P fis i || is_queued pt i) &&
       (piece_selected P fis i || is_have pt i)).
Proof.
  intros [Hinv Hv] Hf P. unfold pt_update_only_files.
  destruct (update_only_files_cases _ fis only Hinv Hf) as (ct' & -> & Hinv' & Hl & ? & ? & ? & ?).
  eexists _, _. split; [done|]. split_and!; try done. constructor; [done|].
  intros j info Hj. cbn [with_chunks pt_chunks snd]. rewrite Hl. eauto.
Qed.

End spec.

(** ** Properties *)
Section properties.
Context {BF : Type} `{BitBox BF} {Peer : Type} `{EqDecision Peer}.
Implicit Types (pt : PieceTracker BF Peer) (req : AcquireRequest Peer) (ord : order Peer).

(** [acquire_piece] never panics and does one of four things: reserves a
    priority piece that is missing and not in flight, reserves a piece of the
    queue, steals the slowest piece of another peer that is slower than the
    threshold, or nothing; a piece it gives out is one the peer has, and is in
    flight for that peer and out of the queue afterwards. *)
Theorem acquire_piece_spec now ord pt req : pt_inv pt -> iter_order ord -> request_ok pt req ->
  (forall i, is_inflight pt i = true -> is_queued pt i = false) ->
  exists r pt', acquire_piece now ord pt req = Done (r, pt') /\
    acquired now ord pt req r pt' /\ pt_inv pt' /\
    forall i from, r = Reserved i \/ r = Stolen i from ->
      rq_peer_has_piece req i = true /\
      get_inflight pt' i = Some (mkInflight (rq_peer req) now) /\ is_queued pt' i = false.
Proof.
  intros Hpt Ho Hreq Hex.
  destruct (acquire_piece_cases now ord pt req Hpt Ho Hreq) as (r & pt' & Heq & Hacq).
  exists r, pt'. split_and!; [done..| |].
  - destruct Hacq as [i Hin ? ? ?|i Hi ? ?|t i from _ (avg & min & info & _ & _ & Hi & _)|]; [..|done].
    + apply reserved_effect; [done|by apply Hreq].
    + by apply reserved_effect.
    + apply stolen_inv; [done|]. apply bool_decide_eq_true. by exists info.
  - assert (Hres : forall i, valid_index (lengths (pt_chunks pt)) i ->
      get_inflight (reserved now pt (rq_peer req) i) i = Some (mkInflight (rq_peer req) now) /\
      is_queued (reserved now pt (rq_peer req) i) i = false).
    { intros i Hi. destruct (reserved_effect now pt (rq_peer req) i Hpt Hi) as [_ Hq].
      split; [apply lookup_insert_eq|]. rewrite Hq, Z.eqb_refl; [done|by eapply valid_index_nonneg]. }
    intros j from Hr. destruct Hacq as [i Hin ? ? ?|i Hi ? ?|t i fr _ Hst|];
      destruct Hr as [Hr|Hr]; try done; injection Hr; intros; subst.
    + split; [done|]. apply Hres. by apply Hreq.
    + split; [done|]. by apply Hres.
    + destruct Hst as (avg & min & info & _ & _ & Hi & _ & _ & Hp & _).
      split_and!; [done|apply lookup_insert_eq|]. apply Hex, bool_decide_eq_true. by exists info.
Qed.

(** The death of a peer takes exactly its pieces out of flight and puts
    the missing ones back in the queue; the others keep their owner. *)
Theorem release_requeues_owned ord pt peer : pt_inv pt -> iter_order ord ->
  exists n pt', release_pieces_owned_by ord pt peer = Done (n, pt') /\ pt_inv pt' /\
    have (pt_chunks pt') = have (pt_chunks pt) /\
    (forall i, get_inflight pt' i = if owned pt peer i then None else get_inflight pt i) /\
    (forall j, 0 <= j -> is_queued pt' j =
       is_queued pt j || owned pt peer j && negb (is_have pt j)).
Proof.
  intros Hpt Ho. destruct (release_spec ord pt peer Hpt Ho)
    as (n & pt' & ? & ? & (_ & ? & _) & ? & ?). by exists n, pt'.
Qed.

End properties.

(** ** A concrete tracker: piece 1 is in flight for peer 1 since time 0 *)

Definition ex_pt : PieceTracker (list bool) nat :=
  mkPieceTracker (with_queue_pieces ex_ct (replicate 8 false)) {[ 1 := mkInflight 1%nat 0 ]}.

Lemma ex_pt_ok : pt_inv ex_pt.
Proof.
  constructor.
  - pose proof ex_ct_inv as [[? ? ? ? ?] ?]. constructor; [by constructor|done].
  - intros i info Hi. cbn [ex_pt pt_inflight] in Hi.
    apply lookup_singleton_Some in Hi as [<- _]. split; vm_compute; done.
Qed.

(** Peer 2 needs 1 s per piece; 20 s have passed. *)
Definition ex_thief : AcquireRequest nat :=
  mkAcquireRequest 2%nat (Some 1000000000) [] [0; 1] ex_files (fun _ => true) (fun _ => true).

Lemma acquire_piece_spec_witness : exists pt',
  acquire_piece 20000000000 map_to_list ex_pt ex_thief = Done (Stolen 1 1%nat, pt') /\ pt_inv pt'.
Proof.
  destruct (acquire_piece_spec 20000000000 map_to_list ex_pt ex_thief ex_pt_ok)
    as (r & pt' & Heq & _ & Hinv & _).
  - intros m. reflexivity.
  - constructor; [intros i Hi; apply elem_of_nil in Hi; contradiction|exact ex_files_ok|reflexivity|].
    intros avg [= <-]. split; eexists; vm_compute; reflexivity.
  - intros i Hi. unfold is_inflight in Hi. apply bool_decide_eq_true in Hi as [info Hi].
    cbn [ex_pt pt_inflight] in Hi. apply lookup_singleton_Some in Hi as [<- _]. vm_compute. reflexivity.
  - exists pt'. split; [|exact Hinv].
    vm_compute in Heq. injection Heq as <- <-. vm_compute. reflexivity.
Defined.

Lemma release_requeues_owned_witness : exists n pt',
  release_pieces_owned_by map_to_list ex_pt 1%nat = Done (n, pt') /\ is_queued pt' 1 = true.
Proof.
  destruct (release_requeues_owned map_to_list ex_pt 1%nat ex_pt_ok) as (n & pt' & ? & _ & _ & _ & Hq).
  - intros m. reflexivity.
  - exists n, pt'. split; [assumption|]. rewrite Hq by lia. vm_compute. reflexivity.
Defined.
