(* ===== verification/LiveDownload.v ===== *)
(** * LiveDownload: how the tasks of a live torrent drive the piece tracker

    Models the parts of [torrent_state/live/peer_handler.rs] and
    [torrent_state/live/mod.rs] that change the piece tracker: [acquire_next_piece],
    [on_received_piece] with its inner [write_to_disk], [on_peer_died],
    [update_only_files], [on_piece_completed] and [pause].  Every critical section
    (the code between two acquisitions of the torrent's lock) is one event, so the
    interleavings of the peer tasks are the sequences of events.  Disk writes and
    the hash check happen between events: [write_to_disk] of one peer is the task
    [Writing] until the chunk is marked, then [Checking] while the piece is hashed,
    then [Completing] until [on_piece_completed] ran. *)

From stdpp Require Import strings.
From S2P Require Import Prelude Lengths BitBox FileInfo ChunkTracker Duration PieceTracker.

(** The bytes of piece [i] inside the file. *)
Abbreviation piece_in_file l fi i :=
  (Lengths.size_of_piece_in_file l i (fi_offset_in_torrent fi) (fi_len fi)).

Section live.
Context {BF : Type} `{BitBox BF} {Peer : Type} `{Countable Peer}.

(** Where a peer's [write_to_disk] is. *)
Inductive Task :=
| Writing (msg : PieceMsg) (chunk_info : ChunkInfo)
| Checking (piece : ValidPieceIndex)
| Completing (piece : ValidPieceIndex).

Record Live := mkLive {
  lv_pieces : PieceTracker BF Peer;
  lv_tasks : gmap Peer Task;
}.

(** ** The critical sections *)

(** [on_received_piece] up to the lock of [write_to_disk]: [None] when the
    message is not a chunk of the torrent (the peer is dropped). *)
Definition on_received_piece (l : Lengths.Lengths) (piece : PieceMsg) : option ChunkInfo :=
  piece_index ← Lengths.validate_piece_index l (pm_index piece);
  len ← try_into_u32 (pm_len piece);
  Lengths.chunk_info_from_received_data l piece_index (pm_begin piece) len.

(** [write_to_disk], lock "check_steal": go on only when the piece is still
    in flight for this peer. *)
Definition check_steal (pt : PieceTracker BF Peer) (addr : Peer) (chunk_info : ChunkInfo) : bool :=
  match get_inflight pt (ci_piece_index chunk_info) with
  | Some inflight => bool_decide (if_peer inflight = addr)
  | None => false
  end.

(** [write_to_disk], lock "mark_chunk_downloaded", after the write: the download
    time when the piece is complete and has to be checked; [Err] when the
    message cannot be mapped to a chunk. *)
Definition chunk_written (now : Z) (pt : PieceTracker BF Peer) (piece : PieceMsg)
    (chunk_info : ChunkInfo) :
    outcome (result (PieceTracker BF Peer) (option Z * PieceTracker BF Peer)) :=
  r ←! pt_mark_chunk_downloaded pt piece;
  match r.1 with
  | Some Completed => Done (Ok (take_inflight now r.2 (ci_piece_index chunk_info)))
  | Some PreviouslyCompleted => Done (Ok (None, r.2))
  | Some NotCompleted => Done (Ok (None, r.2))
  | None => Done (Err r.2)
  end.

(** [write_to_disk], after [check_piece]: [None] is an I/O error of the check,
    which returns with [?]. *)
Definition piece_checked (pt : PieceTracker BF Peer) (piece : ValidPieceIndex)
    (check_piece : option bool) : outcome (PieceTracker BF Peer) :=
  match check_piece with
  | Some true => mark_piece_hash_ok pt piece
  | Some false => mark_piece_hash_failed pt piece
  | None => Done pt
  end.

(** [Iterator::skip_while] and [take_while]. *)
Fixpoint skip_while {A} (f : A -> bool) (l : list A) : list A :=
  match l with
  | [] => []
  | x :: l' => if f x then skip_while f l' else l
  end.
Fixpoint take_while {A} (f : A -> bool) (l : list A) : list A :=
  match l with
  | [] => []
  | x :: l => if f x then x :: take_while f l else []
  end.

Definition range_contains (r : Z * Z) (i : Z) : bool := (r.1 <=? i) && (i <? r.2).

(** The loop of [on_piece_completed] over the files of the piece. *)
Definition on_piece_completed (pt : PieceTracker BF Peer) (file_infos : list FileInfo)
    (id : ValidPieceIndex) : outcome (PieceTracker BF Peer) :=
  for_each (fun pt '(idx, file_info) =>
      r ←! pt_update_file_have_on_piece_completed pt id idx file_info; Done r.2) pt
    (take_while (fun p => range_contains (fi_piece_range p.2) id)
      (skip_while (fun p => negb (range_contains (fi_piece_range p.2) id))
        (enumerate file_infos))).

(** ** Events *)
Inductive event :=
| Acquire (now : Z) (ord : order Peer) (req : AcquireRequest Peer)
| Receive (peer : Peer) (msg : PieceMsg)
| Written (now : Z) (peer : Peer)
| WriteError (peer : Peer)
| Checked (peer : Peer) (check_piece : option bool)
| PieceCompleted (peer : Peer) (file_infos : list FileInfo)
| PeerDied (ord : order Peer) (peer : Peer)
| SelectFiles (file_infos : list FileInfo) (only_files : gset Z).

(** The state after the code of an event. *)
Definition exec (s : Live) (e : event) : outcome Live :=
  let pt := lv_pieces s in
  let tasks := lv_tasks s in
  match e with
  | Acquire now ord req =>
      r ←! acquire_piece now ord pt req; Done (mkLive r.2 tasks)
  | Receive peer msg =>
      match on_received_piece (lengths (pt_chunks pt)) msg with
      | Some ci => if check_steal pt peer ci
                   then Done (mkLive pt (<[peer := Writing msg ci]> tasks))
                   else Done s
      | None => Done s
      end
  | Written now peer =>
      match tasks !! peer with
      | Some (Writing msg ci) =>
          r ←! chunk_written now pt msg ci;
          match r with
          | Ok (Some _, pt) => Done (mkLive pt (<[peer := Checking (ci_piece_index ci)]> tasks))
          | Ok (None, pt) => Done (mkLive pt (delete peer tasks))
          | Err pt => Done (mkLive pt (delete peer tasks))
          end
      | _ => Done s
      end
  | WriteError peer => Done (mkLive pt (delete peer tasks))
  | Checked peer check_piece =>
      match tasks !! peer with
      | Some (Checking piece) =>
          pt ←! piece_checked pt piece check_piece;
          Done (mkLive pt
            (if bool_decide (check_piece = Some true)
             then <[peer := Completing piece]> tasks else delete peer tasks))
      | _ => Done s
      end
  | PieceCompleted peer file_infos =>
      match tasks !! peer with
      | Some (Completing piece) =>
          pt ←! on_piece_completed pt file_infos piece;
          Done (mkLive pt (delete peer tasks))
      | _ => Done s
      end
  | PeerDied ord peer =>
      r ←! release_pieces_owned_by ord pt peer; Done (mkLive r.2 tasks)
  | SelectFiles file_infos only_files =>
      r ←! pt_update_only_files pt file_infos only_files; Done (mkLive r.2 tasks)
  end.

(** When an event can happen.  A peer's messages are handled one after the
    other, and it dies between two of them; the per-piece lock that [Writing]
    holds keeps [can_steal] false. *)
Definition enabled (s : Live) (e : event) : Prop :=
  let pt := lv_pieces s in
  match e with
  | Acquire _ ord req => iter_order ord /\ request_ok pt req /\
      forall i p msg ci, rq_can_steal req i = true ->
        lv_tasks s !! p = Some (Writing msg ci) -> ci_piece_index ci <> i
  | Receive peer msg => lv_tasks s !! peer = None /\
      is_u32 (pm_index msg) /\ is_u32 (pm_begin msg) /\ is_u32 (pm_len msg)
  | Written _ peer => exists msg ci, lv_tasks s !! peer = Some (Writing msg ci)
  | WriteError peer => exists msg ci, lv_tasks s !! peer = Some (Writing msg ci)
  | Checked peer _ => exists i, lv_tasks s !! peer = Some (Checking i)
  | PieceCompleted peer fis => (exists i, lv_tasks s !! peer = Some (Completing i)) /\
      Forall (file_of (lengths (pt_chunks pt))) fis /\
      length (per_file_bytes (pt_chunks pt)) = length fis
  | PeerDied ord peer => iter_order ord /\ lv_tasks s !! peer = None
  | SelectFiles fis _ => Forall (file_of (lengths (pt_chunks pt))) fis
  end.

Inductive step (s : Live) (e : event) (s' : Live) : Prop :=
| step_intro : enabled s e -> exec s e = Done s' -> step s e s'.

(** Executions whose events all satisfy [ok]. *)
Inductive run (ok : Live -> event -> Prop) : Live -> Live -> Prop :=
| run_refl s : run ok s s
| run_step s s' s'' e : run ok s s' -> ok s' e -> step s' e s'' -> run ok s s''.

End live.
Arguments Live BF Peer {_ _}.
Arguments Task : clear implicits.
Arguments event : clear implicits.

(** ** The abstract machine: what the tracker promises about each piece

    The state of a piece is four bits (have, queued, in flight, selected) and
    the peer that is hashing it, if any. *)
Section view.
Context {Peer : Type} `{Countable Peer}.

Record view := mkView {
  v_have : Z -> bool;
  v_queued : Z -> bool;
  v_inflight : Z -> bool;
  v_selected : Z -> bool;
  v_checking : gmap Peer Z;
}.

(** Equality of bit functions on the piece indices. *)
Definition same (f g : Z -> bool) : Prop := forall j, 0 <= j -> g j = f j.

Inductive vlabel :=
| VIdle
| VReserve (i : Z)
| VTake (p : Peer) (i : Z)
| VHashOk (p : Peer) (i : Z)
| VHashFailed (p : Peer) (i : Z)
| VCheckError (p : Peer) (i : Z)
| VRelease (owned : Z -> bool)
| VSelect (sel : Z -> bool).

(** One step of the abstract machine on the pieces [0 <= j < n]. *)
Definition vstep (n : Z) (v : view) (l : vlabel) (v' : view) : Prop :=
  match l with
  | VIdle =>
      same (v_have v) (v_have v') /\ same (v_queued v) (v_queued v') /\
      same (v_inflight v) (v_inflight v') /\ same (v_selected v) (v_selected v') /\
      v_checking v' = v_checking v
  | VReserve i => 0 <= i < n /\
      (v_queued v i = true \/ v_have v i = false /\ v_inflight v i = false) /\
      same (v_have v) (v_have v') /\
      same (fun j => negb (j =? i) && v_queued v j) (v_queued v') /\
      same (fun j => (j =? i) || v_inflight v j) (v_inflight v') /\
      same (v_selected v) (v_selected v') /\ v_checking v' = v_checking v
  | VTake p i => 0 <= i < n /\ v_inflight v i = true /\ v_checking v !! p = None /\
      same (v_have v) (v_have v') /\ same (v_queued v) (v_queued v') /\
      same (fun j => negb (j =? i) && v_inflight v j) (v_inflight v') /\
      same (v_selected v) (v_selected v') /\ v_checking v' = <[p := i]> (v_checking v)
  | VHashOk p i => v_checking v !! p = Some i /\
      same (fun j => (j =? i) || v_have v j) (v_have v') /\
      same (v_queued v) (v_queued v') /\ same (v_inflight v) (v_inflight v') /\
      same (v_selected v) (v_selected v') /\ v_checking v' = delete p (v_checking v)
  | VHashFailed p i => v_checking v !! p = Some i /\
      same (v_have v) (v_have v') /\
      same (fun j => v_queued v j || (j =? i) && negb (v_have v i)) (v_queued v') /\
      same (v_inflight v) (v_inflight v') /\
      same (v_selected v) (v_selected v') /\ v_checking v' = delete p (v_checking v)
  | VCheckError p i => v_checking v !! p = Some i /\
      same (v_have v) (v_have v') /\ same (v_queued v) (v_queued v') /\
      same (v_inflight v) (v_inflight v') /\
      same (v_selected v) (v_selected v') /\ v_checking v' = delete p (v_checking v)
  | VRelease owned => (forall j, owned j = true -> v_inflight v j = true) /\
      same (v_have v) (v_have v') /\
      same (fun j => v_queued v j || owned j && negb (v_have v j)) (v_queued v') /\
      same (fun j => negb (owned j) && v_inflight v j) (v_inflight v') /\
      same (v_selected v) (v_selected v') /\ v_checking v' = v_checking v
  | VSelect sel =>
      same (v_have v) (v_have v') /\
      (forall j, 0 <= j < n -> v_queued v' j =
         (sel j && negb (v_selected v j) && negb (v_have v j) || v_queued v j) &&
         (sel j || v_have v j)) /\
      same (v_inflight v) (v_inflight v') /\ same sel (v_selected v') /\
      v_checking v' = v_checking v
  end.

Definition checked_by (v : view) (i : Z) : Prop := exists p, v_checking v !! p = Some i.

(** No piece is lost: every selected piece we miss is queued, in flight, or
    being checked. *)
Definition no_lost (n : Z) (v : view) : Prop :=
  forall i, 0 <= i < n -> v_selected v i = true ->
    v_have v i = true \/ v_queued v i = true \/ v_inflight v i = true \/ checked_by v i.

(** A piece is in one state at most, and hashed by one peer at most. *)
Definition exclusive (n : Z) (v : view) : Prop :=
  (forall i, 0 <= i < n ->
     (v_queued v i = true -> v_have v i = false /\ v_inflight v i = false /\ ~ checked_by v i) /\
     (v_inflight v i = true -> v_have v i = false /\ ~ checked_by v i) /\
     (checked_by v i -> v_have v i = false)) /\
  (forall p q i, v_checking v !! p = Some i -> v_checking v !! q = Some i -> p = q).

(** The steps that keep the states apart: a reserved piece is not being
    hashed, and a newly selected one is not in flight or being hashed. *)
Definition vcalm (n : Z) (v : view) (l : vlabel) : Prop :=
  match l with
  | VReserve i => ~ checked_by v i
  | VSelect sel => forall i, 0 <= i < n -> sel i = true -> v_selected v i = false ->
      v_have v i = false -> v_inflight v i = false /\ ~ checked_by v i
  | _ => True
  end.

(** Read the equations of a step at piece [i]. *)
Ltac at_piece i :=
  repeat match goal with
  | Hs : same _ _ |- _ => specialize (Hs i ltac:(lia)); cbn beta in Hs; rewrite Hs in *; clear Hs
  end.

Lemma checked_by_insert v v' p i k : v_checking v !! p = None ->
  v_checking v' = <[p := k]> (v_checking v) -> checked_by v' i <-> i = k \/ checked_by v i.
Proof.
  intros Hp Hv'. unfold checked_by. rewrite Hv'. split.
  - intros [q Hq]. destruct (decide (q = p)) as [->|Hne].
    + rewrite lookup_insert_eq in Hq. left. congruence.
    + rewrite lookup_insert_ne in Hq by done. eauto.
  - intros [->|[q Hq]]; [exists p; by rewrite lookup_insert_eq|].
    exists q. rewrite lookup_insert_ne by congruence. done.
Qed.

Lemma checked_by_delete v v' p i k : v_checking v !! p = Some k ->
  v_checking v' = delete p (v_checking v) -> i <> k -> checked_by v' i <-> checked_by v i.
Proof.
  intros Hp Hv' Hik. unfold checked_by. rewrite Hv'. split; intros [q Hq]; exists q.
  - by apply lookup_delete_Some in Hq as [_ ?].
  - rewrite lookup_delete_ne by congruence. done.
Qed.

Lemma checked_by_same v v' i : v_checking v' = v_checking v -> checked_by v' i <-> checked_by v i.
Proof. intros Hv'. unfold checked_by. by rewrite Hv'. Qed.

(** No step but a failed check loses a piece. *)
Lemma vstep_no_lost n v l v' : vstep n v l v' -> (forall p i, l <> VCheckError p i) ->
  no_lost n v -> no_lost n v'.
Proof.
  intros Hstep Hl Hno i Hi Hsel. specialize (Hno i Hi).
  destruct l as [|k|p k|p k|p k|p k|owned|sel]; cbn [vstep] in Hstep; destruct_and! Hstep;
    try (exfalso; by eapply Hl); at_piece i.
  - rewrite checked_by_same by done. tauto.
  - rewrite checked_by_same by done. destruct (i =? k); simpl; tauto.
  - rewrite (checked_by_insert v v' p i k) by done.
    destruct (Z.eqb_spec i k); simpl; tauto.
  - destruct (Z.eqb_spec i k); simpl; [tauto|]. rewrite (checked_by_delete v v' p i k) by done. tauto.
  - destruct (Z.eqb_spec i k) as [->|]; simpl.
    + destruct (v_have v k), (v_queued v k); simpl; tauto.
    + rewrite (checked_by_delete v v' p i k) by done. rewrite orb_false_r. tauto.
  - rewrite checked_by_same by done.
    destruct (owned i), (v_have v i), (v_queued v i); simpl; tauto.
  - rewrite checked_by_same by done. 
    match goal with Hq : forall j, _ -> v_queued v' j = _ |- _ => rewrite (Hq i Hi) end.
    rewrite Hsel.
    destruct (v_selected v i), (v_have v i), (v_queued v i); simpl; tauto.
Qed.

Lemma checked_by_gone v v' p k :
  (forall q q' i, v_checking v !! q = Some i -> v_checking v !! q' = Some i -> q = q') ->
  v_checking v !! p = Some k -> v_checking v' = delete p (v_checking v) -> ~ checked_by v' k.
Proof.
  intros Hu Hp Hv' [q Hq]. rewrite Hv' in Hq. apply lookup_delete_Some in Hq as [Hne Hq].
  apply Hne. eauto.
Qed.

Lemma vstep_uniq n v l v' : vstep n v l v' -> exclusive n v ->
  forall p q i, v_checking v' !! p = Some i -> v_checking v' !! q = Some i -> p = q.
Proof.
  intros Hstep [Hex Huniq] a b i.
  destruct l as [|k|p k|p k|p k|p k|owned|sel]; cbn [vstep] in Hstep; destruct_and! Hstep;
    match goal with Hc : v_checking v' = _ |- _ => rewrite Hc end;
    rewrite ?lookup_insert_Some, ?lookup_delete_Some; try solve [intuition eauto].
  assert (Hk : ~ checked_by v k) by (apply (Hex k); done).
  intros [[-> ->]|[_ Ha]] [[<- Hb']|[_ Hb]]; try done; [..|eauto]; exfalso; apply Hk;
    [by exists b | exists a; congruence].
Qed.

(** A calm step keeps the states apart. *)
Lemma vstep_exclusive n v l v' : vstep n v l v' -> vcalm n v l -> exclusive n v -> exclusive n v'.
Proof.
  intros Hstep Hcalm Hexcl. split; [|by eapply vstep_uniq].
  destruct Hexcl as [Hex Huniq]. intros i Hi. specialize (Hex i Hi).
  destruct l as [|k|p k|p k|p k|p k|owned|sel]; cbn [vstep] in Hstep; destruct_and! Hstep;
    cbn [vcalm] in Hcalm; at_piece i.
  - rewrite checked_by_same by done. tauto.
  - rewrite checked_by_same by done. destruct (Z.eqb_spec i k) as [->|]; simpl; [|tauto].
    split; [done|]. destruct (v_have v k), (v_queued v k); intuition congruence.
  - rewrite (checked_by_insert v v' p i k) by done.
    destruct (Z.eqb_spec i k) as [->|]; simpl; [|tauto].
    destruct (v_queued v k), (v_have v k); intuition congruence.
  - destruct (Z.eqb_spec i k) as [->|]; simpl; [|by rewrite (checked_by_delete v v' p i k); tauto].
    pose proof (checked_by_gone v v' p k Huniq ltac:(done) ltac:(done)).
    assert (checked_by v k) by (by exists p).
    destruct (v_queued v k), (v_inflight v k); intuition congruence.
  - destruct (Z.eqb_spec i k) as [->|]; simpl.
    2: { rewrite (checked_by_delete v v' p i k), orb_false_r by done. tauto. }
    pose proof (checked_by_gone v v' p k Huniq ltac:(done) ltac:(done)).
    assert (checked_by v k) by (by exists p).
    destruct (v_queued v k), (v_inflight v k), (v_have v k); intuition congruence.
  - destruct (decide (i = k)) as [->|]; [|by rewrite (checked_by_delete v v' p i k); tauto].
    pose proof (checked_by_gone v v' p k Huniq ltac:(done) ltac:(done)).
    destruct (v_queued v k), (v_inflight v k); intuition congruence.
  - rewrite checked_by_same by done.
    match goal with Ho : forall j, owned j = true -> _ |- _ => specialize (Ho i) end.
    destruct (owned i), (v_inflight v i), (v_queued v i), (v_have v i); simpl; intuition congruence.
  - rewrite checked_by_same by done. specialize (Hcalm i Hi).
    match goal with Hq : forall j, _ -> v_queued v' j = _ |- _ => rewrite (Hq i Hi) end.
    destruct (sel i), (v_selected v i), (v_inflight v i), (v_queued v i), (v_have v i);
      simpl; intuition congruence.
Qed.

End view.
Arguments view Peer {_ _}.
Arguments vlabel : clear implicits.

(** ** The code implements the abstract machine *)
Section refinement.
Context {BF : Type} `{BitBox BF} {Peer : Type} `{Countable Peer}.
Implicit Types (s : Live BF Peer) (e : event Peer) (pt : PieceTracker BF Peer).

Definition checking_of (t : Task) : option Z :=
  match t with Checking i => Some i | _ => None end.

Definition view_of s : view Peer := {|
  v_have := is_have (lv_pieces s);
  v_queued := is_queued (lv_pieces s);
  v_inflight := is_inflight (lv_pieces s);
  v_selected := is_selected (lv_pieces s);
  v_checking := omap checking_of (lv_tasks s);
|}.

Definition live_lengths s : Lengths.Lengths := lengths (pt_chunks (lv_pieces s)).

(** What every task remembers is valid. *)
Definition task_ok (l : Lengths.Lengths) (t : Task) : Prop :=
  match t with
  | Writing msg ci => on_received_piece l msg = Some ci /\
      is_u32 (pm_index msg) /\ is_u32 (pm_begin msg) /\ is_u32 (pm_len msg)
  | Checking i | Completing i => valid_index l i
  end.

Record live_inv s : Prop := {
  live_pieces : pt_inv (lv_pieces s);
  live_tasks : forall p t, lv_tasks s !! p = Some t -> task_ok (live_lengths s) t;
}.

Lemma on_received_piece_index l msg ci : on_received_piece l msg = Some ci ->
  0 <= pm_index msg -> ci_piece_index ci = pm_index msg /\ valid_index l (pm_index msg).
Proof.
  unfold on_received_piece. intros (i & Hi & Hrest)%bind_Some Hnn.
  apply validate_piece_index_Some in Hi as [-> Hi].
  apply bind_Some in Hrest as (len & _ & Hci).
  unfold Lengths.chunk_info_from_received_data in Hci. cbv zeta in Hci.
  apply bind_Some in Hci as (sz & _ & Hci). apply bind_Some in Hci as (off & _ & Hci).
  destruct (negb _); [done|]. destruct (negb _); [done|]. injection Hci as <-. by split.
Qed.

(** The events that keep the states of the pieces apart. *)
Definition calm s e : Prop :=
  match e with
  | Acquire _ _ req => forall i, i ∈ rq_priority_pieces req -> ~ checked_by (view_of s) i
  | SelectFiles fis only => forall i, valid_index (live_lengths s) i ->
      newly_wanted (pt_chunks (lv_pieces s)) (fun idx => bool_decide (idx ∈ only)) fis i = true ->
      is_inflight (lv_pieces s) i = false /\ ~ checked_by (view_of s) i
  | _ => True
  end.

Definition no_check_error (s : Live BF Peer) e : Prop :=
  match e with Checked _ None => False | _ => True end.

(** [e] takes [s] to a state that the abstract machine reaches, too. *)
Definition simulated s e s' : Prop :=
  live_inv s' /\ live_lengths s' = live_lengths s /\
  exists l, vstep (pieces (live_lengths s)) (view_of s) l (view_of s') /\
    (exclusive (pieces (live_lengths s)) (view_of s) -> calm s e ->
     vcalm (pieces (live_lengths s)) (view_of s) l) /\
    (no_check_error s e -> forall p i, l <> VCheckError p i).

Lemma valid_in_pieces l i : valid_index l i <-> 0 <= i < pieces l.
Proof. unfold valid_index, pieces. lia. Qed.

Lemma same_refl (f : Z -> bool) : same f f.
Proof. by intros j _. Qed.

Lemma checking_same s p t : lv_tasks s !! p = t ->
  v_checking (view_of s) !! p = t ≫= checking_of.
Proof. intros <-. cbn [view_of v_checking]. apply lookup_omap. Qed.

Lemma omap_insert_none (m : gmap Peer Task) p t : checking_of t = None ->
  m !! p ≫= checking_of = None -> omap checking_of (<[p := t]> m) = omap checking_of m.
Proof.
  intros Ht Hp. apply map_eq. intros q. rewrite !lookup_omap.
  destruct (decide (q = p)) as [->|]; [|by rewrite lookup_insert_ne].
  rewrite lookup_insert_eq. simpl. by rewrite Ht.
Qed.

Lemma omap_delete_none (m : gmap Peer Task) p :
  m !! p ≫= checking_of = None -> omap checking_of (delete p m) = omap checking_of m.
Proof.
  intros Hp. apply map_eq. intros q. rewrite !lookup_omap.
  destruct (decide (q = p)) as [->|]; [|by rewrite lookup_delete_ne].
  by rewrite lookup_delete_eq, Hp.
Qed.

(** Changing the tasks only, and nobody starts or ends a check. *)
Lemma simulated_tasks s e tasks' : live_inv s ->
  (forall p t, tasks' !! p = Some t -> task_ok (live_lengths s) t) ->
  omap checking_of tasks' = omap checking_of (lv_tasks s) ->
  simulated s e (mkLive (lv_pieces s) tasks').
Proof.
  intros [Hpt Ht] Htasks Hom. split_and!; [by constructor|done|].
  exists VIdle. split_and!; [|done..]. cbn [vstep view_of v_checking lv_pieces lv_tasks].
  split_and!; try apply same_refl. done.
Qed.

Lemma tasks_insert_ok l (m : gmap Peer Task) p t : task_ok l t ->
  (forall p t, m !! p = Some t -> task_ok l t) ->
  forall q t', <[p := t]> m !! q = Some t' -> task_ok l t'.
Proof. intros Ht Hm q t' [[_ <-]|[_ Hq]]%lookup_insert_Some; eauto. Qed.

Lemma tasks_delete_ok l (m : gmap Peer Task) p :
  (forall p t, m !! p = Some t -> task_ok l t) ->
  forall q t', delete p m !! q = Some t' -> task_ok l t'.
Proof. intros Hm q t' [_ Hq]%lookup_delete_Some; eauto. Qed.

Lemma is_inflight_insert pt pt' i info j : pt_inflight pt' = <[i := info]> (pt_inflight pt) ->
  is_inflight pt' j = (j =? i) || is_inflight pt j.
Proof.
  intros Hm. unfold is_inflight. rewrite Hm. destruct (Z.eqb_spec j i) as [->|].
  - rewrite lookup_insert_eq. by rewrite bool_decide_true by eauto.
  - by rewrite lookup_insert_ne.
Qed.

Lemma is_inflight_delete pt pt' i j : pt_inflight pt' = delete i (pt_inflight pt) ->
  is_inflight pt' j = negb (j =? i) && is_inflight pt j.
Proof.
  intros Hm. unfold is_inflight. rewrite Hm. destruct (Z.eqb_spec j i) as [->|].
  - rewrite lookup_delete_eq. rewrite bool_decide_false; [done|]. by intros [? ?].
  - by rewrite lookup_delete_ne.
Qed.

Lemma simulate_acquire s now ord req : live_inv s -> enabled s (Acquire now ord req) ->
  exists s', exec s (Acquire now ord req) = Done s' /\ simulated s (Acquire now ord req) s'.
Proof.
  intros [Hpt Ht] (Ho & Hreq & Hlock). cbn [exec].
  destruct (acquire_piece_cases now ord _ req Hpt Ho Hreq) as (r & pt' & -> & Hacq). rsimpl.
  eexists. split; [done|].
  assert (Hreserve : forall i, valid_index (live_lengths s) i ->
    (is_queued (lv_pieces s) i = true \/
     is_have (lv_pieces s) i = false /\ is_inflight (lv_pieces s) i = false /\
     i ∈ rq_priority_pieces req) ->
    simulated s (Acquire now ord req)
      (mkLive (reserved now (lv_pieces s) (rq_peer req) i) (lv_tasks s))).
  { intros i Hi Hcase.
    destruct (reserved_effect now (lv_pieces s) (rq_peer req) i Hpt Hi) as [Hinv Hq].
    split_and!; [by constructor|done|]. exists (VReserve i). split_and!; [| |done].
    - cbn [vstep view_of v_queued v_have v_inflight v_selected v_checking lv_pieces lv_tasks].
      split_and!; try (by apply valid_in_pieces in Hi as []); try apply same_refl; try done.
      + tauto.
      + intros j _. by apply (is_inflight_insert (lv_pieces s) _ i (mkInflight (rq_peer req) now)).
    - intros [Hex _] Hcalm. cbn [vcalm].
      destruct Hcase as [Hqi|(_ & _ & Hprio)]; [|by apply Hcalm].
      apply valid_in_pieces in Hi. destruct (Hex i Hi) as [Hqx _]. by apply Hqx in Hqi as (_ & _ & ?). }
  destruct Hacq as [i Hprio ? ? _|i Hi ? _|t i from _ Hst|].
  - apply Hreserve; [by apply Hreq|auto].
  - apply Hreserve; auto.
  - destruct Hst as (avg & min & info & _ & _ & Hi & _).
    assert (Hinf : is_inflight (lv_pieces s) i = true) by (apply bool_decide_eq_true; by rewrite Hi).
    split_and!; [constructor; [by apply stolen_inv|done]|done|].
    exists VIdle. split_and!; [|done..].
    cbn [vstep view_of v_queued v_have v_inflight v_selected v_checking lv_pieces lv_tasks snd].
    split_and!; try apply same_refl; try done.
    intros j _. rewrite (is_inflight_insert (lv_pieces s) _ i (mkInflight (rq_peer req) now)) by done.
    destruct (Z.eqb_spec j i) as [->|]; [by rewrite Hinf|done].
  - by apply simulated_tasks.
Qed.

Lemma simulate_receive s peer msg : live_inv s -> enabled s (Receive peer msg) ->
  exists s', exec s (Receive peer msg) = Done s' /\ simulated s (Receive peer msg) s'.
Proof.
  intros Hinv (Hidle & Hbounds). cbn [exec]. fold (live_lengths s).
  destruct (on_received_piece _ msg) as [ci|] eqn:Eci.
  2: { exists s. split; [done|]. destruct s. by apply simulated_tasks; [|apply Hinv|]. }
  destruct (check_steal _ _ _).
  2: { exists s. split; [done|]. destruct s. by apply simulated_tasks; [|apply Hinv|]. }
  eexists. split; [done|]. apply simulated_tasks; [done| |].
  - apply tasks_insert_ok; [|apply Hinv]. by split.
  - apply omap_insert_none; [done|]. by rewrite Hidle.
Qed.

Lemma take_inflight_cases now pt i : take_inflight now pt i =
  match pt_inflight pt !! i with
  | Some info => (Some (elapsed now (if_started info)), with_inflight pt (delete i (pt_inflight pt)))
  | None => (None, pt)
  end.
Proof. unfold take_inflight. by destruct (pt_inflight pt !! i). Qed.

(** Only the chunk bits change, and a writer goes idle. *)
Lemma simulated_chunk s e p c : live_inv s -> lv_tasks s !! p ≫= checking_of = None ->
  let pt' := with_chunks (lv_pieces s) (with_chunk_status (pt_chunks (lv_pieces s)) c) in
  pt_inv pt' -> simulated s e (mkLive pt' (delete p (lv_tasks s))).
Proof.
  intros [Hpt Ht] Hp pt' Hpt'. split_and!; [|done|].
  - constructor; [done|]. by apply tasks_delete_ok.
  - exists VIdle. split_and!; [|done..].
    cbn [vstep view_of v_queued v_have v_inflight v_selected v_checking lv_pieces lv_tasks].
    split_and!; try apply same_refl. by apply omap_delete_none.
Qed.

Lemma omap_insert_checking (m : gmap Peer Task) p i :
  omap checking_of (<[p := Checking i]> m) = <[p := i]> (omap checking_of m).
Proof.
  apply map_eq. intros q. rewrite lookup_omap.
  destruct (decide (q = p)) as [->|]; [by rewrite !lookup_insert_eq|].
  by rewrite !lookup_insert_ne, lookup_omap by done.
Qed.

Lemma omap_end_checking (m m' : gmap Peer Task) p :
  m' !! p ≫= checking_of = None -> (forall q, q <> p -> m' !! q = m !! q) ->
  omap checking_of m' = delete p (omap checking_of m).
Proof.
  intros Hp Hq. apply map_eq. intros q. rewrite lookup_omap.
  destruct (decide (q = p)) as [->|]; [by rewrite lookup_delete_eq|].
  by rewrite lookup_delete_ne, lookup_omap, Hq by done.
Qed.

Lemma simulate_written s now peer : live_inv s -> enabled s (Written now peer) ->
  exists s', exec s (Written now peer) = Done s' /\ simulated s (Written now peer) s'.
Proof.
  intros Hinv (msg & ci & Htask). pose proof Hinv as [Hpt Ht]. cbn [exec]. rewrite Htask.
  destruct (Ht _ _ Htask) as (Hrec & [Hi _] & [Hb _] & Hl).
  destruct (on_received_piece_index _ _ _ Hrec Hi) as [Hci Hvalid].
  unfold chunk_written.
  destruct (mark_chunk_effect (lv_pieces s) msg Hpt Hi Hb Hl) as (r & c & -> & Hpt'). rsimpl.
  cbn [fst snd]. set (pt' := with_chunks _ _) in *.
  assert (Hidle : lv_tasks s !! peer ≫= checking_of = None) by (by rewrite Htask).
  assert (Hdel : simulated s (Written now peer) (mkLive pt' (delete peer (lv_tasks s)))).
  { by apply simulated_chunk. }
  destruct r as [[| |]|]; try (rsimpl; eauto; fail). rsimpl.
  rewrite take_inflight_cases. destruct (pt_inflight pt' !! _) as [info|] eqn:Einf; [|eauto].
  eexists. split; [done|]. rewrite Hci in *. split_and!; [|done|].
  - constructor.
    + constructor; [apply Hpt'|]. intros j info'. cbn [lv_pieces with_inflight pt_inflight].
      intros [_ Hj]%lookup_delete_Some. by eapply Hpt'.
    + by apply tasks_insert_ok.
  - exists (VTake peer (pm_index msg)). split_and!; [|done..].
    cbn [vstep view_of v_queued v_have v_inflight v_selected v_checking lv_pieces lv_tasks].
    split_and!; try (by apply valid_in_pieces in Hvalid as []); try apply same_refl.
    + apply bool_decide_eq_true. by exists info.
    + by rewrite lookup_omap.
    + intros j _. by apply (is_inflight_delete (lv_pieces s)).
    + apply omap_insert_checking.
Qed.

Lemma simulate_checked s peer c : live_inv s -> enabled s (Checked peer c) ->
  exists s', exec s (Checked peer c) = Done s' /\ simulated s (Checked peer c) s'.
Proof.
  intros [Hpt Ht] (i & Htask). cbn [exec]. rewrite Htask.
  pose proof (Ht _ _ Htask) as Hi. cbn [task_ok] in Hi.
  assert (Hchk : v_checking (view_of s) !! peer = Some i).
  { by rewrite (checking_same s peer _ Htask). }
  assert (Hdel : omap checking_of (delete peer (lv_tasks s)) = delete peer (omap checking_of (lv_tasks s))).
  { apply omap_end_checking; [by rewrite lookup_delete_eq|]. intros. by rewrite lookup_delete_ne. }
  destruct c as [[]|]; cbn [piece_checked].
  - destruct (hash_ok_effect (lv_pieces s) i Hpt Hi)
      as (pt' & -> & Hpt' & Hl & Hinf & Hq & Hs & _ & _ & Hh). rsimpl.
    rewrite bool_decide_true by done. eexists. split; [done|]. split_and!.
    + constructor; [done|]. unfold live_lengths. cbn [lv_pieces lv_tasks]. rewrite Hl.
      by apply tasks_insert_ok.
    + exact Hl.
    + exists (VHashOk peer i). split_and!; [|done..].
      cbn [vstep view_of v_queued v_have v_inflight v_selected lv_pieces lv_tasks].
      unfold is_queued, is_inflight, is_selected. rewrite Hinf, Hq, Hs.
      split_and!; [done|exact Hh|apply same_refl..|]. cbn [v_checking view_of lv_tasks].
      apply omap_end_checking; [by rewrite lookup_insert_eq|]. intros. by rewrite lookup_insert_ne.
  - destruct (hash_failed_effect (lv_pieces s) i Hpt Hi)
      as (pt' & -> & Hpt' & (Hl & Hh & Hs & _ & _) & Hinf & Hq). rsimpl.
    rewrite bool_decide_false by done. eexists. split; [done|]. split_and!.
    + constructor; [done|]. unfold live_lengths. cbn [lv_pieces lv_tasks]. rewrite Hl.
      by apply tasks_delete_ok.
    + exact Hl.
    + exists (VHashFailed peer i). split_and!; [|done..].
      cbn [vstep view_of v_queued v_have v_inflight v_selected lv_pieces lv_tasks].
      unfold is_have, is_inflight, is_selected in *. rewrite Hinf, Hh, Hs in *.
      split_and!; [done|apply same_refl|exact Hq|apply same_refl..|exact Hdel].
  - rsimpl. rewrite bool_decide_false by done. eexists. split; [done|]. split_and!; [|done|].
    + constructor; [done|]. by apply tasks_delete_ok.
    + exists (VCheckError peer i). split_and!; [|done|by intros []].
      cbn [vstep view_of v_queued v_have v_inflight v_selected lv_pieces lv_tasks].
      split_and!; [done|apply same_refl..|exact Hdel].
Qed.

Lemma simulate_died s ord peer : live_inv s -> enabled s (PeerDied ord peer) ->
  exists s', exec s (PeerDied ord peer) = Done s' /\ simulated s (PeerDied ord peer) s'.
Proof.
  intros [Hpt Ht] [Ho Hidle]. cbn [exec].
  destruct (release_spec ord (lv_pieces s) peer Hpt Ho)
    as (n & pt' & -> & Hpt' & (Hl & Hh & Hs & _ & _) & Hinf & Hq). rsimpl. cbn [snd].
  eexists. split; [done|]. split_and!; [|exact Hl|].
  - constructor; [done|]. unfold live_lengths. cbn [lv_pieces lv_tasks]. by rewrite Hl.
  - exists (VRelease (owned (lv_pieces s) peer)). split_and!; [|done..].
    cbn [vstep view_of v_queued v_have v_inflight v_selected v_checking lv_pieces lv_tasks].
    unfold is_have, is_selected in *. rewrite Hh, Hs in *.
    split_and!; [|apply same_refl|exact Hq| |apply same_refl|done].
    + intros j Hj. apply bool_decide_eq_true. unfold owned in Hj.
      by destruct (pt_inflight (lv_pieces s) !! j).
    + intros j _. unfold is_inflight. rewrite Hinf. by destruct (owned _ _ _).
Qed.

Lemma simulate_select s fis only : live_inv s -> enabled s (SelectFiles fis only) ->
  exists s', exec s (SelectFiles fis only) = Done s' /\ simulated s (SelectFiles fis only) s'.
Proof.
  intros [Hpt Ht] Hfiles. cbn [exec enabled] in *.
  destruct (update_files_effect (lv_pieces s) fis only Hpt Hfiles)
    as (h & pt' & -> & Hpt' & Hl & Hh & Hinf & _ & Hs & Hq). rsimpl. cbn [snd].
  eexists. split; [done|]. split_and!; [|exact Hl|].
  - constructor; [done|]. unfold live_lengths. cbn [lv_pieces lv_tasks]. by rewrite Hl.
  - set (P := fun idx => bool_decide (idx ∈ only)) in *.
    exists (VSelect (piece_selected P fis)). split_and!; [| |done].
    + cbn [vstep view_of v_queued v_have v_inflight v_selected v_checking lv_pieces lv_tasks].
      unfold is_have, is_inflight in *. rewrite Hh, Hinf in *.
      split_and!; [apply same_refl| |apply same_refl|exact Hs|done].
      intros j Hj%valid_in_pieces. by apply Hq.
    + intros _ Hcalm i Hi Hsel Hns Hnh. apply (Hcalm i); [by apply valid_in_pieces|].
      unfold newly_wanted. fold P. cbn [view_of v_selected v_have] in *.
      unfold is_selected, is_have in *. by rewrite Hsel, Hns, Hnh.
Qed.

(** ** Completing a piece *)

Lemma take_while_sublist {A} (f : A -> bool) l : take_while f l `sublist_of` l.
Proof.
  induction l as [|x l IH]; [done|]. simpl.
  destruct (f x); [by apply sublist_skip|apply sublist_nil_l].
Qed.

Lemma skip_while_sublist {A} (f : A -> bool) l : skip_while f l `sublist_of` l.
Proof. induction l as [|x l IH]; [done|]. simpl. destruct (f x); [by apply sublist_cons|done]. Qed.

(** The files [on_piece_completed] updates. *)
Definition touched (fis : list FileInfo) (id : Z) : list (Z * FileInfo) :=
  take_while (fun p => range_contains (fi_piece_range p.2) id)
    (skip_while (fun p => negb (range_contains (fi_piece_range p.2) id)) (enumerate fis)).

Lemma touched_sublist fis id : touched fis id `sublist_of` enumerate fis.
Proof.
  etransitivity; [apply take_while_sublist|apply skip_while_sublist].
Qed.

Lemma NoDup_enumerate {A} (l : list A) : NoDup (enumerate l).
Proof.
  apply (NoDup_fmap_1 fst). unfold enumerate. rewrite fst_zip; [apply NoDup_seqZ|].
  rewrite length_seqZ. lia.
Qed.

Definition files_updated (l : Lengths.Lengths) (id : Z) (fis : list FileInfo)
    (upd : list (Z * FileInfo)) (pf pf' : list Z) : Prop :=
  length pf' = length pf /\
  forall k fi v, fis !! k = Some fi -> pf !! k = Some v ->
    pf' !! k = Some (if bool_decide ((Z.of_nat k, fi) ∈ upd)
                     then wrap64 (v + piece_in_file l fi id) else v).

Lemma files_updated_snoc l id fis upd pf pf' idx fi v : 0 <= idx ->
  fis !! Z.to_nat idx = Some fi -> pf !! Z.to_nat idx = Some v -> (idx, fi) ∉ upd ->
  files_updated l id fis upd pf pf' ->
  pf' !! Z.to_nat idx = Some v /\
  files_updated l id fis (upd ++ [(idx, fi)]) pf
    (<[Z.to_nat idx := wrap64 (v + piece_in_file l fi id)]> pf').
Proof.
  intros Hidx Hfi Hv Hnot [Hl Hupd]. split; [|split; [by rewrite length_insert|]].
  { rewrite (Hupd _ _ _ Hfi Hv), Z2Nat.id by done. by rewrite bool_decide_false. }
  intros k fi' v' Hk Hv'. destruct (decide (k = Z.to_nat idx)) as [->|Hne].
  - rewrite list_lookup_insert_eq by (rewrite Hl; by eapply lookup_lt_Some).
    rewrite Z2Nat.id by done. rewrite bool_decide_true by set_solver. congruence.
  - rewrite list_lookup_insert_ne by done. rewrite (Hupd k fi' v') by done.
    rewrite (bool_decide_ext ((Z.of_nat k, fi') ∈ upd ++ [(idx, fi)])
               ((Z.of_nat k, fi') ∈ upd)); [done|].
    rewrite elem_of_app, list_elem_of_singleton. split; [|tauto].
    intros [?|[= <- _]]; [done|lia].
Qed.

Lemma on_piece_completed_effect pt fis id :
  length (per_file_bytes (pt_chunks pt)) = length fis ->
  exists pf', on_piece_completed pt fis id =
      Done (with_chunks pt (with_per_file_bytes (pt_chunks pt) pf')) /\
    files_updated (lengths (pt_chunks pt)) id fis (touched fis id)
      (per_file_bytes (pt_chunks pt)) pf'.
Proof.
  intros Hlen. unfold on_piece_completed. fold (touched fis id).
  pose proof (touched_sublist fis id) as Hsub.
  assert (Hnd : NoDup (touched fis id)) by (eapply sublist_NoDup; [apply NoDup_enumerate|done]).
  destruct (for_each_inv (fun upd pt' => exists pf',
      pt' = with_chunks pt (with_per_file_bytes (pt_chunks pt) pf') /\
      files_updated (lengths (pt_chunks pt)) id fis upd (per_file_bytes (pt_chunks pt)) pf')
    (fun pt '(idx, file_info) =>
      r ←! pt_update_file_have_on_piece_completed pt id idx file_info; Done r.2)
    pt (touched fis id)) as (pt' & Hfe & pf' & -> & Hupd); [| |by exists pf'].
  - exists (per_file_bytes (pt_chunks pt)). split; [by destruct pt as [[] ?]|]. split; [done|].
    intros k fi v _ Hv. by rewrite bool_decide_false by set_solver.
  - intros upd [idx fi] s [rest Hrest] (pf' & -> & Hupd).
    assert (Hin : (idx, fi) ∈ enumerate fis).
    { eapply elem_of_sublist; [|done]. rewrite Hrest. set_solver. }
    apply elem_of_enumerate in Hin as [Hidx Hfi].
    assert (Hnot : (idx, fi) ∉ upd).
    { rewrite Hrest, <- app_assoc in Hnd. apply NoDup_app in Hnd as (_ & Hd & _).
      intros Hc. apply (Hd _ Hc). set_solver. }
    destruct (lookup_lt_is_Some_2 (per_file_bytes (pt_chunks pt)) (Z.to_nat idx)) as [v Hv].
    { apply lookup_lt_Some in Hfi. lia. }
    destruct (files_updated_snoc _ id fis upd _ pf' idx fi v Hidx Hfi Hv Hnot Hupd) as [Hcur Hupd'].
    unfold pt_update_file_have_on_piece_completed, update_file_have_on_piece_completed.
    cbn [with_chunks pt_chunks with_per_file_bytes per_file_bytes lengths]. rewrite Hcur. rsimpl.
    cbn [fst snd]. eexists. split; [done|]. by eexists.
Qed.

Lemma with_per_file_inv pt pf : pt_inv pt ->
  pt_inv (with_chunks pt (with_per_file_bytes (pt_chunks pt) pf)).
Proof. intros [[[? ? ? ? ?] ?] ?]. constructor; [|done]. constructor; [|done]. by constructor. Qed.

Lemma simulate_completed s peer fis : live_inv s -> enabled s (PieceCompleted peer fis) ->
  exists s', exec s (PieceCompleted peer fis) = Done s' /\ simulated s (PieceCompleted peer fis) s'.
Proof.
  intros [Hpt Ht] ([i Htask] & Hf & Hlen). cbn [exec]. rewrite Htask.
  destruct (on_piece_completed_effect (lv_pieces s) fis i Hlen) as (pf & -> & _). rsimpl.
  eexists. split; [done|]. split_and!; [|done|].
  - constructor; [by apply with_per_file_inv|]. by apply tasks_delete_ok.
  - exists VIdle. split_and!; [|done..].
    cbn [vstep view_of v_queued v_have v_inflight v_selected v_checking lv_pieces lv_tasks].
    split_and!; try apply same_refl. apply omap_delete_none. by rewrite Htask.
Qed.

(** Every enabled event runs to its end without a panic, and the abstract
    machine can follow it. *)
Lemma exec_simulated s e : live_inv s -> enabled s e ->
  exists s', exec s e = Done s' /\ simulated s e s'.
Proof.
  intros Hinv Hen. destruct e.
  - by apply simulate_acquire.
  - by apply simulate_receive.
  - by apply simulate_written.
  - exists (mkLive (lv_pieces s) (delete peer (lv_tasks s))). split; [done|].
    destruct Hen as (msg & ci & Htask). apply simulated_tasks; [done| |].
    + apply tasks_delete_ok. apply Hinv.
    + apply omap_delete_none. by rewrite Htask.
  - by apply simulate_checked.
  - by apply simulate_completed.
  - by apply simulate_died.
  - by apply simulate_select.
Qed.

Lemma run_invariant ok s0 s (P : Live BF Peer -> Prop) : run ok s0 s -> live_inv s0 -> P s0 ->
  (forall s e s', live_inv s -> ok s e -> simulated s e s' -> P s -> P s') ->
  live_inv s /\ live_lengths s = live_lengths s0 /\ P s.
Proof.
  intros Hrun Hinv HP0 Hstep. induction Hrun as [|s0 s s' e Hr IH Hok [Hen Hex]]; [done|].
  destruct IH as (Hi & Hl & HP); [done..|].
  destruct (exec_simulated s e Hi Hen) as (s2 & Hex2 & Hsim).
  rewrite Hex in Hex2. injection Hex2 as <-.
  split_and!; [apply Hsim| |by eapply Hstep]. destruct Hsim as (_ & -> & _). done.
Qed.

End refinement.

(** ** Properties of the live torrent *)
Section properties.
Context {BF : Type} `{BitBox BF} {Peer : Type} `{Countable Peer}.
Implicit Types (s : Live BF Peer) (e : event Peer) (ct : ChunkTracker BF).

(** A live torrent as it starts: nothing in flight, no tasks. *)
Definition start ct : Live BF Peer := mkLive (pt_new ct) ∅.

(** The pieces that are selected and missing are queued. *)
Definition fresh ct : Prop :=
  inv ct /\ forall i, valid_index (lengths ct) i ->
    bit_at (queue_pieces ct) i = bit_at (selected ct) i && negb (bit_at (have ct) i).

Lemma new_fresh have_ sel l fis ct : wf l ->
  bit_len have_ = bitfield_len l -> bit_len sel = bitfield_len l -> Forall (file_of l) fis ->
  new have_ sel l fis = Done (Ok ct) -> fresh ct /\ lengths ct = l.
Proof.
  intros Hwf Hh Hs Hf Hnew. destruct (new_spec have_ sel l fis Hwf Hh Hs Hf)
    as (ct' & Hnew' & Hinv & Hl & Hhave & Hsel & _ & Hq & _).
  rewrite Hnew in Hnew'. injection Hnew' as <-. split; [split; [done|]|done].
  intros i Hi. rewrite Hhave, Hsel. apply Hq.
  rewrite Hl in Hi. pose proof (pieces_le_bitfield l Hwf). unfold valid_index, pieces in *. lia.
Qed.

Lemma start_inv ct : fresh ct -> live_inv (start ct).
Proof.
  intros [Hinv _]. constructor; [|intros p t; cbn [start lv_tasks]; by rewrite lookup_empty].
  constructor; [done|]. intros i info. cbn [start lv_pieces pt_new pt_inflight].
  by rewrite lookup_empty.
Qed.

Lemma start_view ct : fresh ct -> no_lost (pieces (lengths ct)) (view_of (start ct)) /\
  exclusive (pieces (lengths ct)) (view_of (start ct)).
Proof.
  intros [_ Hq].
  assert (Hno : forall i, ~ checked_by (view_of (start ct)) i).
  { intros i [p Hp]. cbn [view_of v_checking start lv_tasks] in Hp.
    by rewrite lookup_omap, lookup_empty in Hp. }
  assert (Hinf : forall i, v_inflight (view_of (start ct)) i = false).
  { intros i. apply bool_decide_eq_false. cbn [start lv_pieces pt_new pt_inflight].
    rewrite lookup_empty. by intros [? ?]. }
  split.
  - intros i Hi Hsel. apply valid_in_pieces in Hi. specialize (Hq i Hi).
    cbn in *. unfold is_have, is_queued, is_selected in *. cbn in *. rewrite Hq, Hsel.
    destruct (bit_at (have ct) i); auto.
  - split; [|intros p q i Hp; exfalso; apply (Hno i); by exists p].
    intros i Hi. rewrite Hinf. apply valid_in_pieces in Hi. specialize (Hq i Hi).
    split_and!; [|done|by intros ?%Hno]. cbn. unfold is_have, is_queued. cbn. rewrite Hq.
    intros [_ Hh%negb_true_iff]%andb_true_iff. by split_and!.
Qed.

Lemma run_trans ok s1 s2 s3 : run ok s1 s2 -> run ok s2 s3 -> run ok s1 s3.
Proof. intros H12 H23. induction H23 as [|s2 s3 s4 e _ IH]; [done|]. eapply run_step; [by apply IH|done..]. Qed.

Lemma run_mono (ok ok' : Live BF Peer -> event Peer -> Prop) s s' : (forall s e, ok s e -> ok' s e) ->
  run ok s s' -> run ok' s s'.
Proof. intros Hok Hr. induction Hr as [|s0 s1 s2 e _ IH]; [constructor|]. eapply run_step; eauto. Qed.

Lemma run_no_lost s0 s n : live_inv s0 -> n = pieces (live_lengths s0) -> no_lost n (view_of s0) ->
  run no_check_error s0 s -> no_lost n (view_of s).
Proof.
  intros Hinv -> Hno Hrun. apply (run_invariant _ _ _ (fun s' =>
    live_lengths s' = live_lengths s0 /\ no_lost (pieces (live_lengths s0)) (view_of s')) Hrun); [done..|].
  intros s1 e s2 _ Hok (_ & Hl & lab & Hstep & _ & Hlab) [Hl1 Hno1].
  split; [congruence|]. rewrite Hl1 in Hstep. eapply vstep_no_lost; eauto.
Qed.

(** A piece we have stays. *)
Lemma run_have ok s0 s i : live_inv s0 -> run ok s0 s -> 0 <= i ->
  is_have (lv_pieces s0) i = true -> is_have (lv_pieces s) i = true.
Proof.
  intros Hinv Hrun Hi H0'. apply (run_invariant _ _ _ (fun s' => is_have (lv_pieces s') i = true) Hrun); [done..|].
  intros s1 e s2 _ _ (_ & _ & lab & Hstep & _) Hh1.
  change (v_have (view_of s2) i = true). change (v_have (view_of s1) i = true) in Hh1.
  destruct lab; cbn [vstep] in Hstep; destruct_and! Hstep;
    match goal with Hs : same _ (v_have _) |- _ => rewrite (Hs i Hi) end; rewrite Hh1; auto using orb_true_r.
Qed.

(** C2: every event of a live torrent (acquiring a piece, receiving a chunk,
    marking it, hashing, completing a piece, the death of a peer, a change of
    the selected files) runs without a panic from a well-formed state, keeps it
    well-formed, and is a step of the abstract machine on piece states. *)
Theorem live_refines_view s e : live_inv s -> enabled s e ->
  exists s' l, exec s e = Done s' /\ live_inv s' /\
    vstep (pieces (live_lengths s)) (view_of s) l (view_of s').
Proof.
  intros Hinv Hen. destruct (exec_simulated s e Hinv Hen) as (s' & ? & ? & _ & l & ? & _).
  by exists s', l.
Qed.

(** C1: no piece is lost: in every state a live torrent reaches, in any
    interleaving of the peers, as long as no hash check fails with an I/O
    error, a selected piece we miss is queued, in flight or being hashed. *)
Theorem no_piece_lost have_ sel l fis ct s : wf l ->
  bit_len have_ = bitfield_len l -> bit_len sel = bitfield_len l -> Forall (file_of l) fis ->
  new have_ sel l fis = Done (Ok ct) -> run no_check_error (start ct) s ->
  no_lost (pieces l) (view_of s).
Proof.
  intros Hwf Hh Hs Hf Hnew Hrun. destruct (new_fresh have_ sel l fis ct) as [Hfresh Hl]; try done.
  subst l. apply (run_no_lost (start ct)); [by apply start_inv|done|by apply start_view|done].
Qed.

(** C3: in every state reached by calm events (a stream does not ask for a
    piece being hashed; a file is not selected again while a piece of it is in
    flight or being hashed) a piece is in at most one of the states have,
    queued, in flight, being hashed, and hashed by at most one peer. *)
Theorem piece_states_exclusive have_ sel l fis ct s : wf l ->
  bit_len have_ = bitfield_len l -> bit_len sel = bitfield_len l -> Forall (file_of l) fis ->
  new have_ sel l fis = Done (Ok ct) -> run calm (start ct) s ->
  exclusive (pieces l) (view_of s).
Proof.
  intros Hwf Hh Hs Hf Hnew Hrun. destruct (new_fresh have_ sel l fis ct) as [Hfresh Hl]; try done.
  subst l. apply (run_invariant _ _ _ (fun s' =>
    live_lengths s' = lengths ct /\ exclusive (pieces (lengths ct)) (view_of s')) Hrun).
  - by apply start_inv.
  - split; [done|by apply start_view].
  - intros s1 e s2 Hinv Hok (_ & Hl & lab & Hstep & Hcalm & _) [Hl1 Hno].
    split; [congruence|]. rewrite Hl1 in *. eapply vstep_exclusive; eauto.
Qed.

(** Pausing a well-formed torrent in which no hash check is running gives
    a chunk tracker that keeps its invariant and its [have] bits, and in which
    every selected piece we miss is queued again, if none was lost before. *)
Theorem pause_requeues_inflight s ord : live_inv s -> iter_order ord ->
  no_lost (pieces (live_lengths s)) (view_of s) -> (forall i, ~ checked_by (view_of s) i) ->
  exists ct, into_chunks ord (lv_pieces s) = Done ct /\ inv ct /\
    have ct = have (pt_chunks (lv_pieces s)) /\
    forall i, valid_index (live_lengths s) i -> bit_at (selected ct) i = true ->
      bit_at (have ct) i = true \/ bit_at (queue_pieces ct) i = true.
Proof.
  intros [Hpt _] Ho Hno Hidle.
  destruct (into_chunks_spec ord _ Hpt Ho) as (ct & -> & Hinv & (Hl & Hh & Hs & _) & Hq).
  exists ct. split_and!; [done..|]. intros i Hi Hsel. rewrite Hs in Hsel.
  rewrite Hq by (by eapply valid_index_nonneg). apply valid_in_pieces in Hi.
  destruct (Hno i Hi Hsel) as [Hx|[Hx|[Hx|Hx]]]; cbn in Hx.
  - left. by rewrite Hh.
  - right. by rewrite Hx.
  - rewrite Hx, Hh. unfold is_have. destruct (bit_at (have _) i); [by left|right].
    by rewrite orb_true_r.
  - by apply Hidle in Hx.
Qed.

(** ** File progress *)

(** Consecutive files: each one starts where the one before it ends, and none
    is empty. *)
Definition consecutive (fis : list FileInfo) : Prop :=
  (forall fi, fi ∈ fis -> 0 < fi_len fi) /\
  forall k fi fi', fis !! k = Some fi -> fis !! S k = Some fi' ->
    fi_offset_in_torrent fi' = fi_offset_in_torrent fi + fi_len fi.

Lemma consecutive_ordered fis a b fa fb : consecutive fis -> (a < b)%nat ->
  fis !! a = Some fa -> fis !! b = Some fb ->
  fi_offset_in_torrent fa + fi_len fa <= fi_offset_in_torrent fb.
Proof.
  intros [Hpos Hnext]. revert fb. induction b as [|b IH]; intros fb Hab Ha Hb; [lia|].
  destruct (lookup_lt_is_Some_2 fis b) as [fm Hm]; [apply lookup_lt_Some in Hb; lia|].
  pose proof (Hnext b fm fb Hm Hb).
  pose proof (Hpos fm ltac:(by eapply list_elem_of_lookup_2)).
  destruct (decide (a = b)) as [->|]; [simplify_eq; lia|].
  specialize (IH fm ltac:(lia) Ha Hm). lia.
Qed.

Lemma skip_take_convex {A} (f : A -> bool) (l : list A) :
  (forall a b c x y z, (a < b < c)%nat -> l !! a = Some x -> l !! b = Some y -> l !! c = Some z ->
     f x = true -> f z = true -> f y = true) ->
  forall x, x ∈ take_while f (skip_while (fun x => negb (f x)) l) <-> x ∈ l /\ f x = true.
Proof.
  induction l as [|h l IH]; intros Hconv x; [set_solver|]. cbn [skip_while].
  destruct (f h) eqn:Eh; cbn [negb].
  - cbn [take_while]. rewrite Eh. clear IH.
    assert (Hl : forall y, y ∈ take_while f l <-> y ∈ l /\ f y = true).
    { assert (Hc : forall b c y z, (b < c)%nat -> l !! b = Some y -> l !! c = Some z ->
        f z = true -> f y = true).
      { intros b c y z Hbc Hb Hz Hfz. by apply (Hconv 0%nat (S b) (S c) h y z); try lia. }
      clear Hconv x Eh. induction l as [|g l IH]; intros y; [set_solver|]. cbn [take_while].
      destruct (f g) eqn:Eg.
      - rewrite !elem_of_cons, IH; [intuition congruence|].
        intros b c y' z Hbc. by apply (Hc (S b) (S c)); lia.
      - split; [set_solver|]. intros [[->|Hy]%elem_of_cons Hfy]; [congruence|].
        apply list_elem_of_lookup in Hy as [c Hc'].
        rewrite (Hc 0%nat (S c) g y) in Eg; done || lia. }
    rewrite !elem_of_cons, Hl. intuition congruence.
  - rewrite IH.
    + rewrite elem_of_cons. intuition congruence.
    + intros a b c u v w Habc. by apply (Hconv (S a) (S b) (S c)); lia.
Qed.

Lemma file_contains_iff l fi i : wf l -> file_of l fi -> valid_index l i ->
  range_contains (fi_piece_range fi) i = true <->
  0 < fi_len fi /\ fi_offset_in_torrent fi < (i + 1) * l_piece_length l /\
  i * l_piece_length l < fi_offset_in_torrent fi + fi_len fi.
Proof.
  intros Hwf Hf Hi. destruct Hf as [Ho Hl He Hr].
  destruct (iter_pieces_within_offset_spec l _ _ Hwf Ho Hl He) as [Hin _]. rewrite <- Hr in Hin.
  assert (Hu : is_u32 i) by (lengths_facts; unfold is_u32, valid_index in *; lia).
  unfold range_contains. rewrite andb_true_iff, Z.leb_le, Z.ltb_lt, (Hin i Hu).
  rewrite size_of_piece_in_file_eq by done. lengths_facts.
  split; [intros [_ Hpos]; lia|]. intros Hpos. split; [done|lia].
Qed.

Lemma lookup_enumerate {A} (l : list A) k p : enumerate l !! k = Some p ->
  p.1 = Z.of_nat k /\ l !! k = Some p.2.
Proof.
  destruct p as [idx x]. unfold enumerate. rewrite lookup_zip_Some, lookup_seqZ. cbn [fst snd].
  intros [[? ?] ?]. split; [lia|done].
Qed.

Lemma touched_iff l fis i idx fi : wf l -> Forall (file_of l) fis -> consecutive fis ->
  valid_index l i ->
  (idx, fi) ∈ touched fis i <->
  (idx, fi) ∈ enumerate fis /\ range_contains (fi_piece_range fi) i = true.
Proof.
  intros Hwf Hf Hcons Hi. unfold touched.
  pose proof (skip_take_convex (fun p : Z * FileInfo => range_contains (fi_piece_range p.2) i)
                (enumerate fis)) as Hc.
  rewrite Forall_forall in Hf.
  assert (Hiff : forall k p, enumerate fis !! k = Some p ->
    fis !! k = Some p.2 /\ 0 < fi_len p.2 /\
    (range_contains (fi_piece_range p.2) i = true <->
     fi_offset_in_torrent p.2 < (i + 1) * l_piece_length l /\
     i * l_piece_length l < fi_offset_in_torrent p.2 + fi_len p.2)).
  { intros k p [_ Hk]%lookup_enumerate. pose proof (list_elem_of_lookup_2 _ _ _ Hk) as Hel.
    pose proof (proj1 Hcons p.2 Hel). split_and!; [done..|].
    rewrite file_contains_iff by (done || by apply Hf). lia. }
  apply Hc. intros a b c x y z Habc (Hxa & Hxl & Hx)%Hiff (Hyb & Hyl & Hy)%Hiff (Hzc & Hzl & Hz)%Hiff.
  rewrite Hx, Hy, Hz. intros Hfx Hfz.
  pose proof (consecutive_ordered fis a b x.2 y.2 Hcons ltac:(lia) Hxa Hyb).
  pose proof (consecutive_ordered fis b c y.2 z.2 Hcons ltac:(lia) Hyb Hzc). lia.
Qed.

(** Adding piece [i] to [have] adds its bytes to the files that hold it. *)
Lemma file_bytes_add l (h h' : BF) fi i : wf l -> file_of l fi -> valid_index l i ->
  bit_at h i = false -> (forall j, 0 <= j -> bit_at h' j = (j =? i) || bit_at h j) ->
  file_bytes_spec l h' fi = file_bytes_spec l h fi +
    (if range_contains (fi_piece_range fi) i then piece_in_file l fi i else 0).
Proof.
  intros Hwf Hf Hi Hhi Hh'. pose proof (file_range_bounds l fi Hwf Hf) as [Hr _].
  unfold file_bytes_spec. set (f := fun j => if bit_at h j then piece_in_file l fi j else 0).
  set (g := fun j => if bit_at h' j then piece_in_file l fi j else 0).
  destruct (fi_piece_range fi) as [a b]. cbn [fst snd] in *.
  assert (Hfg : forall j, 0 <= j -> j <> i -> g j = f j).
  { intros j Hj Hne. unfold f, g. rewrite Hh' by done. by rewrite (proj2 (Z.eqb_neq j i) Hne). }
  unfold range_contains. cbn [fst snd]. destruct ((a <=? i) && (i <? b)) eqn:E.
  - apply andb_true_iff in E as [E1%Z.leb_le E2%Z.ltb_lt].
    assert (Hsplit : seqZ a (b - a) = seqZ a (i - a) ++ [i] ++ seqZ (i + 1) (b - i - 1)).
    { replace (b - a) with ((i - a) + (1 + (b - i - 1))) by lia.
      rewrite seqZ_app, seqZ_app by lia. replace (a + (i - a)) with i by lia. done. }
    rewrite Hsplit, !fmap_app, !sumZ_app.
    rewrite (sumZ_fmap_ext g f (seqZ a (i - a))) by (intros j Hj%elem_of_seqZ; apply Hfg; lia).
    rewrite (sumZ_fmap_ext g f (seqZ (i + 1) _)) by (intros j Hj%elem_of_seqZ; apply Hfg; lia).
    assert (Hg : g i = piece_in_file l fi i).
    { unfold g. by rewrite Hh', Z.eqb_refl by (destruct Hi; lia). }
    assert (Hfi : f i = 0) by (unfold f; by rewrite Hhi).
    change (sumZ (g <$> [i])) with (g i + 0). change (sumZ (f <$> [i])) with (f i + 0). lia.
  - rewrite Z.add_0_r. apply sumZ_fmap_ext. intros j Hj%elem_of_seqZ. apply Hfg; [lia|].
    intros ->. bcases; simpl in E; done || lia.
Qed.

(** Completing a piece keeps the per-file progress exact: when the files
    are consecutive and not empty, after the hash of a missing piece is
    accepted and [on_piece_completed] ran, every file counts exactly its bytes
    in the pieces we have, as a recount would. *)
Theorem on_piece_completed_sync (pt pt1 pt2 : PieceTracker BF Peer) fis i : pt_inv pt ->
  valid_index (lengths (pt_chunks pt)) i -> is_have pt i = false ->
  Forall (file_of (lengths (pt_chunks pt))) fis -> consecutive fis ->
  per_file_bytes (pt_chunks pt) =
    file_bytes_spec (lengths (pt_chunks pt)) (have (pt_chunks pt)) <$> fis ->
  mark_piece_hash_ok pt i = Done pt1 -> on_piece_completed pt1 fis i = Done pt2 ->
  per_file_bytes (pt_chunks pt2) =
    file_bytes_spec (lengths (pt_chunks pt2)) (have (pt_chunks pt2)) <$> fis.
Proof.
  intros Hpt Hi Hmiss Hfiles Hcons Hsync Hok Hdone. pose proof (inv_wf _ (inv_shape _ (pt_chunks_inv _ Hpt))) as Hwf.
  destruct (hash_ok_effect pt i Hpt Hi) as (pt' & Hok' & _ & Hl & _ & _ & _ & Hpf & _ & Hh).
  rewrite Hok in Hok'. injection Hok' as <-.
  destruct (on_piece_completed_effect pt1 fis i) as (pf' & Hdone' & Hlen & Hupd).
  { rewrite Hpf, Hsync. apply length_fmap. }
  rewrite Hdone in Hdone'. injection Hdone' as ->.
  cbn [with_chunks pt_chunks with_per_file_bytes per_file_bytes lengths have].
  rewrite Hl in *. apply list_eq. intros k. rewrite list_lookup_fmap.
  destruct (fis !! k) as [fi|] eqn:Ek; cbn [fmap option_fmap option_map].
  2: { apply lookup_ge_None in Ek. apply lookup_ge_None. rewrite Hlen, Hpf, Hsync, length_fmap. lia. }
  pose proof (Forall_lookup_1 _ _ _ _ Hfiles Ek) as Hf.
  rewrite (Hupd k fi (file_bytes_spec (lengths (pt_chunks pt)) (have (pt_chunks pt)) fi) Ek).
  2: { by rewrite Hpf, Hsync, list_lookup_fmap, Ek. }
  f_equal. rewrite (file_bytes_add _ _ _ fi i Hwf Hf Hi Hmiss Hh).
  pose proof (touched_iff (lengths (pt_chunks pt)) fis i (Z.of_nat k) fi Hwf Hfiles Hcons Hi) as Ht.
  assert (Hen : (Z.of_nat k, fi) ∈ enumerate fis).
  { apply elem_of_enumerate. rewrite Nat2Z.id. split; [lia|done]. }
  destruct (range_contains (fi_piece_range fi) i) eqn:Er.
  - rewrite bool_decide_true by (by apply Ht). apply wrap64_small.
    pose proof (file_bytes_add _ _ _ fi i Hwf Hf Hi Hmiss Hh) as Hadd. rewrite Er in Hadd.
    rewrite <- Hadd. pose proof (file_bytes_spec_bounds _ (have (pt_chunks pt1)) fi Hwf Hf) as [Hb _].
    destruct Hf as [? ? ? ?]. lengths_facts. lia.
  - rewrite bool_decide_false by (intros [_ ?]%Ht; done). lia.
Qed.

End properties.

(** ** Concrete executions

    The torrent of [ex_ct]: piece 0 is there, piece 1 is missing and queued.
    Peers are numbers; a [HashMap] is seen in the order of [map_to_list]. *)

Definition ex_order : order nat := map_to_list.

Lemma ex_order_ok : iter_order ex_order.
Proof. by intros m. Qed.

Definition ex_request (peer : nat) (prio : list Z) : AcquireRequest nat :=
  mkAcquireRequest peer None prio [0; 1] ex_files (fun _ => true) (fun _ => false).

(** The one chunk of piece 1. *)
Definition ex_chunk : PieceMsg := mkPieceMsg 1 0 15000.

Definition ex_start : Live (list bool) nat := start ex_ct.

(** The state after a list of events. *)
Fixpoint exec_all (s : Live (list bool) nat) (es : list (event nat)) : outcome (Live (list bool) nat) :=
  match es with
  | [] => Done s
  | e :: es => s ←! exec s e; exec_all s es
  end.

(** A list of events that are enabled one after the other. *)
Fixpoint enabled_all (ok : Live (list bool) nat -> event nat -> Prop) (s : Live (list bool) nat)
    (es : list (event nat)) : Prop :=
  match es with
  | [] => True
  | e :: es => enabled s e /\ ok s e /\
      match exec s e with Done s' => enabled_all ok s' es | Panic => False end
  end.

Lemma run_all ok s0 s es s' : run ok s0 s -> enabled_all ok s es -> exec_all s es = Done s' ->
  run ok s0 s'.
Proof.
  revert s. induction es as [|e es IH]; intros s Hr Hen Hex; cbn [exec_all enabled_all] in *.
  { by injection Hex as <-. }
  destruct Hen as (He & Ho & Hen). destruct (exec s e) as [s1|] eqn:E; [|done].
  apply (IH s1); [|done|done]. eapply run_step; [exact Hr|exact Ho|by constructor].
Qed.

Lemma ex_request_ok peer prio (s : Live (list bool) nat) :
  Forall (fun i => (0 <=? i) && (i <=? 1) = true) prio ->
  lengths (pt_chunks (lv_pieces s)) = ex_lengths ->
  length (per_file_bytes (pt_chunks (lv_pieces s))) = 2%nat ->
  request_ok (lv_pieces s) (ex_request peer prio).
Proof.
  intros Hprio Hl Hpf. rewrite Forall_forall in Hprio. constructor; rewrite ?Hl.
  - intros i Hi%Hprio. split; simpl; bcases; simpl in *; done || lia.
  - exact ex_files_ok.
  - done.
  - by intros avg.
Qed.

Lemma ex_acquire_enabled now peer prio (s : Live (list bool) nat) :
  Forall (fun i => (0 <=? i) && (i <=? 1) = true) prio ->
  lengths (pt_chunks (lv_pieces s)) = ex_lengths ->
  length (per_file_bytes (pt_chunks (lv_pieces s))) = 2%nat ->
  enabled s (Acquire now ex_order (ex_request peer prio)).
Proof. intros. split_and!; [exact ex_order_ok|by apply ex_request_ok|done]. Qed.

Ltac ex_enabled :=
  match goal with
  | |- enabled _ (Acquire _ _ _) => apply ex_acquire_enabled; [repeat constructor|reflexivity|reflexivity]
  | |- enabled _ (Receive _ _) => repeat split; first [reflexivity | vm_compute; discriminate]
  | |- enabled _ (Written _ _) => eexists _, _; vm_compute; reflexivity
  | |- enabled _ (Checked _ _) => eexists; vm_compute; reflexivity
  | |- enabled _ (PieceCompleted _ _) =>
      split; [eexists; vm_compute; reflexivity|split; [exact ex_files_ok|reflexivity]]
  | |- enabled _ (SelectFiles _ _) => exact ex_files_ok
  | |- enabled _ (PeerDied _ _) => split; [exact ex_order_ok|vm_compute; reflexivity]
  end.

Ltac ex_run :=
  cbn [enabled_all];
  repeat match goal with
  | |- enabled _ _ /\ _ => split; [ex_enabled|]
  | |- True /\ _ => split; [exact I|]
  | |- no_check_error _ _ /\ _ => split; [exact I|]
  | |- calm _ _ /\ _ => split; [first [exact I|intros i Hi; set_solver]|]
  | |- True => exact I
  | |- match exec ?s ?e with _ => _ end =>
      let r := eval vm_compute in (exec s e) in
      change (exec s e) with r; cbv iota
  end.

(** The state after a list of events of [ex_start]. *)
Definition ex_after (es : list (event nat)) : Live (list bool) nat :=
  match exec_all ex_start es with Done s => s | Panic => ex_start end.

Definition ex_download : list (event nat) :=
  [Acquire 0 ex_order (ex_request 1 []); Receive 1%nat ex_chunk; Written 5 1%nat;
   Checked 1%nat (Some true); PieceCompleted 1%nat ex_files].

Example ex_download_run : match exec_all ex_start ex_download with
  | Done s => is_finished (pt_chunks (lv_pieces s)) = true /\
              per_file_bytes (pt_chunks (lv_pieces s)) = [19000; 16000] /\ lv_tasks s = ∅
  | Panic => False
  end.
Proof. vm_compute. done. Qed.

(** Peer 1 downloads piece 1, and the check of its hash fails to read the disk. *)
Definition ex_check_error : list (event nat) :=
  [Acquire 0 ex_order (ex_request 1 []); Receive 1%nat ex_chunk; Written 5 1%nat;
   Checked 1%nat None].

(** An I/O error of the hash check loses the piece: it is selected and
    missing, and neither queued, nor in flight, nor being hashed. *)
Theorem check_error_loses_piece : exists s, run (fun _ _ => True) ex_start s /\
  is_selected (lv_pieces s) 1 = true /\ is_have (lv_pieces s) 1 = false /\
  is_queued (lv_pieces s) 1 = false /\ is_inflight (lv_pieces s) 1 = false /\ lv_tasks s = ∅.
Proof.
  exists (ex_after ex_check_error). split; [|vm_compute; done].
  apply (run_all _ _ ex_start ex_check_error); [constructor| |vm_compute; done].
  unfold ex_check_error. ex_run.
Qed.

(** Piece 1 is in flight when its file is unselected and selected again. *)
Definition ex_reselect : list (event nat) :=
  [Acquire 0 ex_order (ex_request 1 []); SelectFiles ex_files {[0]};
   SelectFiles ex_files {[0; 1]}].

(** Unselecting and selecting a file while one of its pieces is in flight
    puts the piece in two states at once, queued and in flight, and the next
    peer takes it over without a steal. *)
Theorem reselect_queues_inflight_piece : exists s s' info, run (fun _ _ => True) ex_start s /\
  is_queued (lv_pieces s) 1 = true /\ is_inflight (lv_pieces s) 1 = true /\
  step s (Acquire 7 ex_order (ex_request 2 [])) s' /\
  get_inflight (lv_pieces s') 1 = Some info /\ if_peer info = 2%nat.
Proof.
  exists (ex_after ex_reselect),
    (ex_after (ex_reselect ++ [Acquire 7 ex_order (ex_request 2 [])])), (mkInflight 2%nat 7).
  split_and!; try (vm_compute; done).
  - apply (run_all _ _ ex_start ex_reselect); [constructor| |vm_compute; done].
    unfold ex_reselect. ex_run.
  - constructor; [ex_enabled|vm_compute; done].
Qed.

(** Peer 2 streams piece 1 while peer 1 hashes it; then peer 2's chunk arrives. *)
Definition ex_stream : list (event nat) :=
  [Acquire 0 ex_order (ex_request 1 []); Receive 1%nat ex_chunk; Written 5 1%nat;
   Acquire 6 ex_order (ex_request 2 [1]); Checked 1%nat (Some true); Receive 2%nat ex_chunk].

(** A streaming peer can reserve a piece that is being hashed; once the
    hash is accepted the piece is both finished and in flight, and the peer
    is let through to write its chunk over the verified data. *)
Theorem stream_rewrites_finished_piece : exists s msg ci, run (fun _ _ => True) ex_start s /\
  is_have (lv_pieces s) 1 = true /\ is_inflight (lv_pieces s) 1 = true /\
  lv_tasks s !! 2%nat = Some (Writing msg ci) /\ ci_piece_index ci = 1.
Proof.
  exists (ex_after ex_stream), ex_chunk, (mkChunkInfo 1 0 2 15000 0).
  split_and!; try (vm_compute; done).
  apply (run_all _ _ ex_start ex_stream); [constructor| |vm_compute; done].
  unfold ex_stream. ex_run.
Qed.

Definition ex_checking : list (event nat) :=
  [Acquire 0 ex_order (ex_request 1 []); Receive 1%nat ex_chunk; Written 5 1%nat].

(** Pausing while a piece is being hashed loses it: the paused tracker has
    it selected, missing and not queued. *)
Theorem pause_during_check_loses_piece : exists s ct, run no_check_error ex_start s /\
  into_chunks ex_order (lv_pieces s) = Done ct /\
  bit_at (selected ct) 1 = true /\ bit_at (have ct) 1 = false /\
  bit_at (queue_pieces ct) 1 = false.
Proof.
  set (s := ex_after ex_checking).
  exists s, (pt_chunks (lv_pieces s)). split_and!; try (vm_compute; done).
  apply (run_all _ _ ex_start ex_checking); [constructor| |vm_compute; done].
  unfold ex_checking. ex_run.
Qed.

(** ** Witnesses *)

Lemma ex_start_fresh : fresh ex_ct.
Proof.
  apply (new_fresh ex_have ex_selected ex_lengths ex_files _ ex_lengths_wf); try done.
  exact ex_files_ok.
Qed.

Lemma live_refines_view_witness : exists s' l,
  exec ex_start (Acquire 0 ex_order (ex_request 1 [])) = Done s' /\ live_inv s' /\
  vstep 2 (view_of ex_start) l (view_of s').
Proof.
  apply (live_refines_view ex_start (Acquire 0 ex_order (ex_request 1 []))).
  - exact (start_inv ex_ct ex_start_fresh).
  - ex_enabled.
Defined.

Lemma ex_download_ok (ok : Live (list bool) nat -> event nat -> Prop) :
  enabled_all ok ex_start ex_download -> run ok ex_start (ex_after ex_download).
Proof. intros He. apply (run_all _ _ ex_start ex_download); [constructor|done|vm_compute; done]. Qed.

Lemma no_piece_lost_witness : no_lost 2 (view_of (ex_after ex_checking)).
Proof.
  apply (no_piece_lost ex_have ex_selected ex_lengths ex_files ex_ct (ex_after ex_checking)
    ex_lengths_wf); [reflexivity|reflexivity|exact ex_files_ok|vm_compute; reflexivity|].
  apply (run_all _ _ ex_start ex_checking); [constructor| |vm_compute; reflexivity].
  unfold ex_checking. ex_run.
Defined.

Lemma piece_states_exclusive_witness : exclusive 2 (view_of (ex_after ex_download)).
Proof.
  apply (piece_states_exclusive ex_have ex_selected ex_lengths ex_files ex_ct (ex_after ex_download)
    ex_lengths_wf); [reflexivity|reflexivity|exact ex_files_ok|vm_compute; reflexivity|].
  apply ex_download_ok. unfold ex_download.
  ex_run.
Defined.

Definition ex_flying : list (event nat) := [Acquire 0 ex_order (ex_request 1 [])].

Lemma ex_flying_lost : live_inv (ex_after ex_flying) /\ no_lost 2 (view_of (ex_after ex_flying)) /\
  forall i, ~ checked_by (view_of (ex_after ex_flying)) i.
Proof.
  destruct (exec_simulated ex_start (Acquire 0 ex_order (ex_request 1 [])))
    as (s' & Hex & Hinv & Hl & l & Hstep & _ & Hlab).
  { exact (start_inv ex_ct ex_start_fresh). }
  { ex_enabled. }
  assert (Hs : s' = ex_after ex_flying) by (vm_compute in Hex; by injection Hex as <-).
  subst s'. split_and!; [done| |].
  - eapply vstep_no_lost; [exact Hstep|by apply Hlab|].
    exact (proj1 (start_view ex_ct ex_start_fresh)).
  - intros i [p Hp]. cbn [view_of v_checking] in Hp. rewrite lookup_omap in Hp.
    assert (Ht : lv_tasks (ex_after ex_flying) = ∅) by (vm_compute; done).
    by rewrite Ht, lookup_empty in Hp.
Qed.

Lemma pause_requeues_inflight_witness : exists ct,
  into_chunks ex_order (lv_pieces (ex_after ex_flying)) = Done ct /\
  bit_at (queue_pieces ct) 1 = true.
Proof.
  destruct ex_flying_lost as (Hinv & Hno & Hidle).
  destruct (pause_requeues_inflight (ex_after ex_flying) ex_order Hinv ex_order_ok Hno Hidle)
    as (ct & Hct & _ & Hhave & Hq).
  exists ct. split; [exact Hct|].
  destruct (Hq 1) as [Hh|Hh]; [split; vm_compute; discriminate| | |exact Hh].
  - vm_compute in Hct. injection Hct as <-. reflexivity.
  - rewrite Hhave in Hh. vm_compute in Hh. discriminate.
Defined.

Lemma ex_pt_inv : pt_inv (pt_new (Peer := nat) ex_ct).
Proof. exact (live_pieces _ (start_inv ex_ct ex_start_fresh)). Qed.

Lemma on_piece_completed_sync_witness : exists pt1 pt2,
  mark_piece_hash_ok (pt_new (Peer := nat) ex_ct) 1 = Done pt1 /\
  on_piece_completed pt1 ex_files 1 = Done pt2 /\
  per_file_bytes (pt_chunks pt2) = [19000; 16000].
Proof.
  destruct (mark_piece_hash_ok (pt_new (Peer := nat) ex_ct) 1) as [pt1|] eqn:E1; [|vm_compute in E1; discriminate].
  destruct (on_piece_completed pt1 ex_files 1) as [pt2|] eqn:E2.
  2: { vm_compute in E1. injection E1 as <-. vm_compute in E2. discriminate. }
  exists pt1, pt2. split; [reflexivity|]. split; [exact E2|].
  rewrite (on_piece_completed_sync (pt_new (Peer := nat) ex_ct) pt1 pt2 ex_files 1).
  - vm_compute in E1. injection E1 as <-. vm_compute in E2. injection E2 as <-. vm_compute. reflexivity.
  - exact ex_pt_inv.
  - exact ex_piece_1.
  - vm_compute. reflexivity.
  - exact ex_files_ok.
  - split.
    + intros fi [->|[->|Hfi]%elem_of_cons]%elem_of_cons; [simpl; lia|simpl; lia|].
      apply elem_of_nil in Hfi. contradiction.
    + intros [|[|k]] fi fi' Ha Hb; cbn in Ha, Hb; try discriminate.
      injection Ha as <-. injection Hb as <-. reflexivity.
  - vm_compute. reflexivity.
  - exact E1.
  - exact E2.
Defined.

(** Three files, the second one empty, in piece 0 of the torrent. *)
Definition ex_files_empty : list FileInfo :=
  [mkFileInfo "a" 0 (0, 1) no_attrs 100; mkFileInfo "empty" 100 (0, 0) no_attrs 0;
   mkFileInfo "b" 100 (0, 2) no_attrs 34900].

(** Piece 0 arrives. *)
Definition ex_empty_run : outcome (PieceTracker (list bool) nat) :=
  r ←! new (replicate 8 false) ex_selected ex_lengths ex_files_empty;
  match r with
  | Ok ct => pt ←! mark_piece_hash_ok (pt_new ct) 0; on_piece_completed pt ex_files_empty 0
  | Err _ => Panic
  end.

(** An empty file between two files that share a piece stops the update of
    the progress: the file after it does not count the bytes of the piece,
    although a recount does. *)
Theorem empty_file_stops_progress : Forall (file_of ex_lengths) ex_files_empty /\
  exists pt, ex_empty_run = Done pt /\
    per_file_bytes (pt_chunks pt) = [100; 0; 0] /\
    file_have_bytes (pt_chunks pt) (mkFileInfo "b" 100 (0, 2) no_attrs 34900) = Done 19900.
Proof.
  split; [repeat constructor; simpl; done || lia|].
  exists (match ex_empty_run with Done pt => pt | Panic => pt_new ex_ct end).
  split_and!; vm_compute; reflexivity.
Qed.
