(* ===== verification/ManagedTorrent.v ===== *)
(** * ManagedTorrent: the life of a torrent

    Models the state machine of [crates/librtbit/src/torrent_state/mod.rs]
    ([start], [pause], [stop_with_error], [prepare_force_recheck],
    [update_only_files], the initialization task and the receiver of fatal
    errors), [paused.rs], and [TorrentStateLive::new], [pause],
    [on_fatal_error] and [update_only_files] of [live/mod.rs], and what
    [Session::delete] does to a torrent, as far as the state of the torrent
    goes.  [TorrentStateInitializing] and
    [TorrentStateLive] are shared between the lock and the tasks, so they live
    in tables and the state holds their index.  Each critical section is an
    event; the tasks' events come in any order.  The check of
    [TorrentStateInitializing] ([Initializing]) and the work of the live
    torrent ([LiveDownload]) are events that give the chunk tracker or the piece
    tracker that results. *)

From stdpp Require Import strings.
From S2P Require Import Prelude Lengths BitBox FileInfo ChunkTracker PieceTracker.

Inductive MtErrorReason := PausedDuringInit | CheckFailed | Fatal | PauseFailed.

Inductive MtError :=
| AlreadyLive | AlreadyPaused | AlreadyChecking | InErrorState | EmptyState | SessionIsDead | NoMetadata
| StorageCreate | StorageTake | BadOnlyFiles | CantUpdateInitializing | ChunkTrackerEmpty | LiveAlreadyPaused.

Section managed.
Context {BF : Type} `{BitBox BF} {Peer : Type} `{EqDecision Peer}.
(** [FileStorage]; [take] hands the files over and leaves a storage behind. *)
Context {Fl : Type} (fl_take : Fl -> result unit (Fl * Fl)).
Variable ord : order Peer.
Variable file_infos : list FileInfo.

(** [TorrentStateInitializing]. *)
Record Init := mkInit {
  i_files : Fl;
  i_only_files : option (gset Z);
  i_previously_errored : bool;
}.

(** [TorrentStateLive]: [None] for [pieces] once it was paused. *)
Record Live := mkLive {
  lv_pieces : option (PieceTracker BF Peer);
  lv_files : Fl;
  lv_fatal_errors_tx : bool;  (* not taken *)
  lv_cancelled : bool;        (* its cancellation token *)
}.

Inductive ManagedTorrentState :=
| MInitializing (i : nat)
| MPaused (files : Fl) (chunk_tracker : ChunkTracker BF)
| MLive (l : nat)
| MError (e : MtErrorReason)
| MNone.

(** The task [initialize_and_start]: checking, at the lock with the result of
    the check, or over. *)
Inductive TaskPc := TChecking | TChecked (r : result MtErrorReason (Fl * ChunkTracker BF)) | TDone.

Record InitTask := mkInitTask {
  t_init : nat;
  t_start_paused : bool;
  t_cancelled : bool;
  t_pc : TaskPc;
}.

(** The task [fatal_errors_receiver] of a live torrent. *)
Inductive RxPc := RxWaiting | RxSent | RxAtLock | RxDone.

Record World := mkWorld {
  w_paused : bool;
  w_state : ManagedTorrentState;
  w_only_files : option (gset Z);
  w_has_metadata : bool;
  w_inits : list Init;
  w_tasks : list InitTask;
  w_lives : list (Live * RxPc);
  w_cancelled : bool;  (* the token of the torrent, whose children the tasks get *)
}.

Definition set_state (w : World) (s : ManagedTorrentState) : World :=
  mkWorld (w_paused w) s (w_only_files w) (w_has_metadata w) (w_inits w) (w_tasks w) (w_lives w) (w_cancelled w).
Definition set_paused (w : World) (b : bool) : World :=
  mkWorld b (w_state w) (w_only_files w) (w_has_metadata w) (w_inits w) (w_tasks w) (w_lives w) (w_cancelled w).
Definition set_only_files (w : World) (o : option (gset Z)) : World :=
  mkWorld (w_paused w) (w_state w) o (w_has_metadata w) (w_inits w) (w_tasks w) (w_lives w) (w_cancelled w).
Definition set_inits (w : World) (l : list Init) : World :=
  mkWorld (w_paused w) (w_state w) (w_only_files w) (w_has_metadata w) l (w_tasks w) (w_lives w) (w_cancelled w).
Definition set_tasks (w : World) (l : list InitTask) : World :=
  mkWorld (w_paused w) (w_state w) (w_only_files w) (w_has_metadata w) (w_inits w) l (w_lives w) (w_cancelled w).
Definition set_lives (w : World) (l : list (Live * RxPc)) : World :=
  mkWorld (w_paused w) (w_state w) (w_only_files w) (w_has_metadata w) (w_inits w) (w_tasks w) l (w_cancelled w).
Definition set_cancelled (w : World) (b : bool) : World :=
  mkWorld (w_paused w) (w_state w) (w_only_files w) (w_has_metadata w) (w_inits w) (w_tasks w) (w_lives w) b.

(** ** The live torrent *)

(** [TorrentStateLive::new] and the receiver of its fatal errors, under a token
    that may be cancelled already.  It fails only for a dead session, and its
    callers hold the session. *)
Definition live_new (w : World) (token : bool) (files : Fl) (ct : ChunkTracker BF) : World :=
  let l := length (w_lives w) in
  set_state (set_lives w (w_lives w ++ [(mkLive (Some (pt_new ct)) files true token, RxWaiting)])) (MLive l).

Definition live_pause (w : World) (l : nat) : outcome (result MtError (Fl * ChunkTracker BF) * World) :=
  match w_lives w !! l with
  | None => Panic
  | Some (live, rx) =>
      let paused := mkLive None (lv_files live) false true in
      match lv_pieces live with
      | None => Done (Err LiveAlreadyPaused, set_lives w (<[l := (paused, rx)]> (w_lives w)))
      | Some pieces =>
          ct ←! into_chunks ord pieces;
          match fl_take (lv_files live) with
          | Err _ => Done (Err StorageTake, set_lives w (<[l := (paused, rx)]> (w_lives w)))
          | Ok (files, rest) =>
              Done (Ok (files, ct), set_lives w (<[l := (mkLive None rest false true, rx)]> (w_lives w)))
          end
      end
  end.

Definition on_fatal_error (w : World) (l : nat) : World :=
  match w_lives w !! l with
  | Some (live, rx) =>
      if lv_fatal_errors_tx live then
        match rx with
        | RxWaiting => set_lives w (<[l := (mkLive (lv_pieces live) (lv_files live) false (lv_cancelled live), RxSent)]> (w_lives w))
        | _ => (* the receiver is gone *)
            set_lives w (<[l := (mkLive (lv_pieces live) (lv_files live) false true, rx)]> (w_lives w))
        end
      else w
  | None => w
  end.

(** ** Starting *)

Definition spawn_init (w : World) (token : bool) (i : nat) (start_paused : bool) : World :=
  set_tasks w (w_tasks w ++ [mkInitTask i start_paused token TChecking]).

(** [_start], under the lock; [create] is what [create_and_init] returns,
    [token] whether the token is cancelled. *)
Definition start_locked (w : World) (token : bool) (start_paused : bool) (create : option Fl) : result MtError unit * World :=
  match w_state w with
  | MLive _ => (Err AlreadyLive, w)
  | MInitializing i => (Ok tt, spawn_init w token i start_paused)
  | MPaused files ct => (Ok tt, if start_paused then w else live_new w token files ct)
  | MError _ =>
      if negb (w_has_metadata w) then (Err NoMetadata, w)
      else
        match create with
        | None => (Err StorageCreate, w)
        | Some files =>
            let i := length (w_inits w) in
            let w := set_inits w (w_inits w ++ [mkInit files (w_only_files w) false]) in
            (Ok tt, spawn_init (set_state w (MInitializing i)) token i start_paused)
        end
  | MNone => (Err EmptyState, w)
  end.

Definition start (w : World) (session_alive start_paused : bool) (create : option Fl) : result MtError unit * World :=
  if negb session_alive then (Err SessionIsDead, w)
  else start_locked (set_paused w start_paused) (w_cancelled w) start_paused create.

(** ** The initialization task *)

(** [init.check()] is over: it found the pieces in [found], or failed.  Its
    last step takes the files. *)
Definition check_over (w : World) (k : nat) (found : option (ChunkTracker BF)) : World :=
  match w_tasks w !! k with
  | Some (mkInitTask i sp c TChecking) =>
      match w_inits w !! i with
      | Some init =>
          match found, fl_take (i_files init) with
          | Some ct, Ok (files, rest) =>
              set_tasks (set_inits w (<[i := mkInit rest (i_only_files init) (i_previously_errored init)]> (w_inits w)))
                (<[k := mkInitTask i sp c (TChecked (Ok (files, ct)))]> (w_tasks w))
          | _, _ => set_tasks w (<[k := mkInitTask i sp c (TChecked (Err CheckFailed))]> (w_tasks w))
          end
      | None => w
      end
  | _ => w
  end.

(** The rest of the task, under the lock. *)
Definition finish_init (w : World) (k : nat) : World :=
  match w_tasks w !! k with
  | Some (mkInitTask i sp c (TChecked r)) =>
      let w := set_tasks w (<[k := mkInitTask i sp c TDone]> (w_tasks w)) in
      match r with
      | Ok (files, ct) =>
          match w_state w with
          | MInitializing _ => (start_locked (set_state w (MPaused files ct)) c sp None).2
          | _ => w
          end
      | Err e => set_state w (MError e)
      end
  | _ => w
  end.

(** The future is dropped at an [await] after its token was cancelled. *)
Definition drop_init (w : World) (k : nat) : World :=
  match w_tasks w !! k with
  | Some (mkInitTask i sp true TChecking) => set_tasks w (<[k := mkInitTask i sp true TDone]> (w_tasks w))
  | _ => w
  end.

(** ** Stopping *)

(** The tokens of the tasks and of the live states are children of the token
    of the torrent. *)
Definition cancel_children (w : World) : World :=
  set_lives
    (set_tasks w ((fun t => mkInitTask (t_init t) (t_start_paused t) true (t_pc t)) <$> w_tasks w))
    ((fun '(live, rx) => (mkLive (lv_pieces live) (lv_files live) (lv_fatal_errors_tx live) true, rx)) <$> w_lives w).

(** The token is replaced while the session lives. *)
Definition cancel_and_reset_token (w : World) (session_alive : bool) : World :=
  set_cancelled (cancel_children w) (negb session_alive).

Definition cancel_token (w : World) : World := set_cancelled (cancel_children w) true.

Definition pause (w : World) (session_alive : bool) : outcome (result MtError unit * World) :=
  match w_state w with
  | MLive l =>
      r ←! live_pause w l;
      match r with
      | (Err e, w) => Done (Err e, w)
      | (Ok (files, ct), w) => Done (Ok tt, set_paused (set_state w (MPaused files ct)) true)
      end
  | MInitializing _ => Done (Ok tt, set_paused (set_state (cancel_and_reset_token w session_alive) (MError PausedDuringInit)) true)
  | MPaused _ _ => Done (Err AlreadyPaused, w)
  | MError _ => Done (Err InErrorState, w)
  | MNone => Done (Err EmptyState, w)
  end.

Definition stop_with_error (w : World) : outcome World :=
  match w_state w with
  | MLive l => r ←! live_pause w l; Done (set_state r.2 (MError Fatal))
  | _ => Done (set_state w (MError Fatal))
  end.

(** The receiver: the error arrives; then it waits for the lock; or it is
    cancelled, or the sender is dropped. *)
Definition rx_receive (w : World) (l : nat) : World :=
  match w_lives w !! l with
  | Some (live, RxSent) => set_lives w (<[l := (live, RxAtLock)]> (w_lives w))
  | Some (live, RxWaiting) =>
      if lv_fatal_errors_tx live then w else set_lives w (<[l := (live, RxDone)]> (w_lives w))
  | _ => w
  end.

Definition rx_cancel (w : World) (l : nat) : World :=
  match w_lives w !! l with
  | Some (live, RxWaiting) | Some (live, RxSent) =>
      if lv_cancelled live then set_lives w (<[l := (live, RxDone)]> (w_lives w)) else w
  | _ => w
  end.

Definition rx_stop (w : World) (l : nat) : outcome World :=
  match w_lives w !! l with
  | Some (live, RxAtLock) => stop_with_error (set_lives w (<[l := (live, RxDone)]> (w_lives w)))
  | _ => Done w
  end.

(** ** Checking again *)

Definition prepare_force_recheck (w : World) (create : option Fl) : outcome (result MtError bool * World) :=
  if negb (w_has_metadata w) then Done (Err NoMetadata, w)
  else
    let recheck w files resume :=
      let i := length (w_inits w) in
      let w := set_inits w (w_inits w ++ [mkInit files (w_only_files w) true]) in
      Done (Ok resume, set_paused (set_state w (MInitializing i)) (negb resume)) in
    match w_state w with
    | MInitializing _ => Done (Err AlreadyChecking, w)
    | MLive l =>
        r ←! live_pause w l;
        match r with
        | (Err e, w) => Done (Err e, set_state w (MError PauseFailed))
        | (Ok (files, _), w) => recheck w files true
        end
    | MPaused files _ => recheck w files false
    | MError _ =>
        match create with
        | None => Done (Err StorageCreate, w)
        | Some files => recheck w files false
        end
    | MNone => Done (Err EmptyState, w)
    end.

(** ** Deleting *)

(** What [Session::delete] does to a torrent it has removed from the database,
    after [cancel_token] and [pause]: it takes the state, with the storage if
    there is one, and leaves the empty state.  Without metadata it gives up. *)
Definition delete_take (w : World) : outcome (option Fl * World) :=
  if negb (w_has_metadata w) then Done (None, w)
  else
    match w_state w with
    | MInitializing i =>
        match w_inits w !! i with
        | None => Panic
        | Some init =>
            match fl_take (i_files init) with
            | Ok (files, rest) =>
                Done (Some files, set_state (set_inits w
                  (<[i := mkInit rest (i_only_files init) (i_previously_errored init)]> (w_inits w))) MNone)
            | Err _ => Done (None, set_state w MNone)
            end
        end
    | MPaused files _ => Done (Some files, set_state w MNone)
    | MLive l =>
        r ←! live_pause w l;
        Done (match r.1 with Ok (files, _) => Some files | Err _ => None end, set_state r.2 MNone)
    | MError _ | MNone => Done (None, set_state w MNone)
    end.

(** ** Selecting files *)

Definition update_only_files_managed (w : World) (only_files : gset Z) : outcome (result MtError unit * World) :=
  if negb (w_has_metadata w) then Done (Err NoMetadata, w)
  else if existsb (fun f => Z.of_nat (length file_infos) <=? f) (elements only_files) then Done (Err BadOnlyFiles, w)
  else
    match w_state w with
    | MInitializing _ => Done (Err CantUpdateInitializing, w)
    | MError _ | MNone => Done (Ok tt, set_only_files w (Some only_files))
    | MPaused files ct =>
        r ←! update_only_files ct file_infos only_files;
        Done (Ok tt, set_only_files (set_state w (MPaused files r.2)) (Some only_files))
    | MLive l =>
        match w_lives w !! l with
        | None => Panic
        | Some (live, rx) =>
            match lv_pieces live with
            | None => Done (Err ChunkTrackerEmpty, w)
            | Some pt =>
                r ←! pt_update_only_files pt file_infos only_files;
                let live := mkLive (Some r.2) (lv_files live) (lv_fatal_errors_tx live) (lv_cancelled live) in
                Done (Ok tt, set_only_files (set_lives w (<[l := (live, rx)]> (w_lives w))) (Some only_files))
            end
        end
    end.

(** ** Events *)

Inductive Event :=
| EvStart (session_alive start_paused : bool) (create : option Fl)
| EvPause (session_alive : bool)
| EvCancelToken
| EvDeleteTake
| EvForceRecheck (create : option Fl)
| EvUpdateOnlyFiles (only_files : gset Z)
| EvCheckOver (k : nat) (found : option (ChunkTracker BF))
| EvFinishInit (k : nat)
| EvDropInit (k : nat)
| EvLiveWork (l : nat) (pt : PieceTracker BF Peer)  (* downloading changes the piece tracker *)
| EvFatalError (l : nat)
| EvRxReceive (l : nat)
| EvRxCancel (l : nat)
| EvRxStop (l : nat).

Definition live_work (w : World) (l : nat) (pt : PieceTracker BF Peer) : World :=
  match w_lives w !! l with
  | Some (mkLive (Some _) files tx c, rx) => set_lives w (<[l := (mkLive (Some pt) files tx c, rx)]> (w_lives w))
  | _ => w
  end.

Definition step (w : World) (e : Event) : outcome World :=
  match e with
  | EvStart alive sp create => Done (start w alive sp create).2
  | EvPause alive => r ←! pause w alive; Done r.2
  | EvCancelToken => Done (cancel_token w)
  | EvDeleteTake => r ←! delete_take w; Done r.2
  | EvForceRecheck create => r ←! prepare_force_recheck w create; Done r.2
  | EvUpdateOnlyFiles only => r ←! update_only_files_managed w only; Done r.2
  | EvCheckOver k found => Done (check_over w k found)
  | EvFinishInit k => Done (finish_init w k)
  | EvDropInit k => Done (drop_init w k)
  | EvLiveWork l pt => Done (live_work w l pt)
  | EvFatalError l => Done (on_fatal_error w l)
  | EvRxReceive l => Done (rx_receive w l)
  | EvRxCancel l => Done (rx_cancel w l)
  | EvRxStop l => rx_stop w l
  end.

Definition run (w : World) (evs : list Event) : outcome World := for_each step w evs.
End managed.

Arguments World : clear implicits.
Arguments ManagedTorrentState : clear implicits.
Arguments Event : clear implicits.

(** ** The invariant *)
Section invariant.
Context {BF : Type} `{BitBox BF} {Peer : Type} `{EqDecision Peer}.
Context {Fl : Type} (fl_take : Fl -> result unit (Fl * Fl)).
Variable ord : order Peer.
Hypothesis ord_ok : iter_order ord.
Variable file_infos : list FileInfo.
Variable L : Lengths.Lengths.
Hypothesis Hfiles : Forall (file_of L) file_infos.

Abbreviation World := (World BF Peer Fl).
Implicit Types w : World.

Definition good_ct (ct : ChunkTracker BF) : Prop := inv ct /\ lengths ct = L.
Definition good_pt (pt : PieceTracker BF Peer) : Prop := pt_inv pt /\ lengths (pt_chunks pt) = L.

(** What an event may bring: a check finds a consistent chunk tracker, the
    work of a live torrent keeps its piece tracker consistent; and a check that
    has failed reports it while the torrent still is in the state it was started
    for (the code does not look, see [late_failure_orphans_live]). *)
Definition event_ok w (e : Event BF Peer Fl) : Prop :=
  match e with
  | EvCheckOver _ (Some ct) => good_ct ct
  | EvLiveWork _ pt => good_pt pt
  | EvFinishInit k =>
      match w_tasks w !! k with
      | Some (mkInitTask i _ _ (TChecked (Err _))) => w_state w = MInitializing i
      | _ => True
      end
  | _ => True
  end.

Fixpoint run_ok w (evs : list (Event BF Peer Fl)) : Prop :=
  match evs with
  | [] => True
  | e :: evs => event_ok w e /\ forall w', step fl_take ord file_infos w e = Done w' -> run_ok w' evs
  end.

(** A live state the lock no longer holds: paused, cancelled, unable to report
    an error. *)
Definition retired (live : Live (BF := BF) (Peer := Peer) (Fl := Fl)) : Prop :=
  lv_pieces live = None /\ lv_cancelled live = true /\ lv_fatal_errors_tx live = false.

Record managed_inv w : Prop := {
  mi_state : match w_state w with
    | MPaused _ ct => good_ct ct
    | MInitializing i => (i < length (w_inits w))%nat
    | MLive l => (l < length (w_lives w))%nat
    | MError _ | MNone => True
    end;
  mi_tasks k t : w_tasks w !! k = Some t -> (t_init t < length (w_inits w))%nat /\
    match t_pc t with TChecked (Ok (_, ct)) => good_ct ct | _ => True end;
  mi_lives l live rx : w_lives w !! l = Some (live, rx) -> w_state w <> MLive l -> retired live;
  mi_pieces l live rx pt : w_lives w !! l = Some (live, rx) -> lv_pieces live = Some pt -> good_pt pt;
}.

Lemma good_pt_new ct : good_ct ct -> good_pt (pt_new ct).
Proof. intros [Hi Hl]. split; [|done]. split; [done|]. intros i info. simpl. by rewrite lookup_empty. Qed.

Lemma good_into_chunks pt : good_pt pt -> exists ct, into_chunks ord pt = Done ct /\ good_ct ct.
Proof.
  intros [Hp Hl]. destruct (into_chunks_spec ord pt Hp ord_ok) as (ct & Hc & Hi & Hf & _). exists ct.
  split; [done|]. split; [done|]. destruct Hf as (Hlen & _). congruence.
Qed.

(** Changing the state while no live state is current. *)
Lemma inv_set_state w s : managed_inv w -> (forall l, w_state w <> MLive l) ->
  match s with MPaused _ ct => good_ct ct | MError _ | MNone => True | _ => False end -> managed_inv (set_state w s).
Proof.
  intros [H1 H2 H3 H4] Hn Hs. split; [by destruct s|exact H2| |exact H4].
  intros l live rx Hl _. by eapply H3.
Qed.

Lemma inv_set_paused w b : managed_inv w -> managed_inv (set_paused w b).
Proof. by intros [H1 H2 H3 H4]. Qed.

(** Replacing one live state by another: if it is the current one anything
    consistent goes, otherwise it stays retired. *)
Lemma inv_set_live w l old rx live' rx' : managed_inv w -> w_lives w !! l = Some (old, rx) ->
  (w_state w <> MLive l -> retired live') -> (forall pt, lv_pieces live' = Some pt -> good_pt pt) ->
  managed_inv (set_lives w (<[l := (live', rx')]> (w_lives w))).
Proof.
  intros [H1 H2 H3 H4] Hl Hr Hp. pose proof (lookup_lt_Some _ _ _ Hl) as Hlt. split; cbn.
  - destruct (w_state w); try done. by rewrite length_insert.
  - exact H2.
  - intros j live r. destruct (decide (j = l)) as [->|].
    + rewrite list_lookup_insert_eq by done. intros [= <- <-]. exact Hr.
    + rewrite list_lookup_insert_ne by done. apply H3.
  - intros j live r pt. destruct (decide (j = l)) as [->|].
    + rewrite list_lookup_insert_eq by done. intros [= <- <-]. apply Hp.
    + rewrite list_lookup_insert_ne by done. apply H4.
Qed.

(** Pausing the current live state retires it; the state may then be anything
    that is not live. *)
Lemma live_pause_spec w l : managed_inv w -> w_state w = MLive l ->
  exists r w', live_pause fl_take ord w l = Done (r, w') /\ managed_inv w' /\
    (forall j live rx, w_lives w' !! j = Some (live, rx) -> retired live) /\
    (forall files ct, r = Ok (files, ct) -> good_ct ct) /\
    w_state w' = w_state w /\ w_inits w' = w_inits w /\ w_tasks w' = w_tasks w.
Proof.
  intros Hinv Hs. pose proof (mi_state w Hinv) as Hlt. rewrite Hs in Hlt.
  destruct (lookup_lt_is_Some_2 (w_lives w) l Hlt) as [[live rx] Hl].
  unfold live_pause. rewrite Hl.
  assert (Hset : forall files (r' : result MtError (Fl * ChunkTracker BF)), let w' := set_lives w (<[l := (mkLive None files false true, rx)]> (w_lives w)) in
    (forall fs ct, r' = Ok (fs, ct) -> good_ct ct) ->
    exists r w1, Done (r', w') = Done (r, w1) /\ managed_inv w1 /\
    (forall j live rx, w_lives w1 !! j = Some (live, rx) -> retired live) /\
    (forall files ct, r = Ok (files, ct) -> good_ct ct) /\
    w_state w1 = w_state w /\ w_inits w1 = w_inits w /\ w_tasks w1 = w_tasks w).
  { intros files r' w' Hr. exists r', w'. split_and!; [done| | |done|done|done|done].
    - eapply inv_set_live; [done|exact Hl|done|done].
    - intros j lv r. unfold w'. cbn. destruct (decide (j = l)) as [->|].
      + rewrite list_lookup_insert_eq by done. by intros [= <- <-].
      + rewrite list_lookup_insert_ne by done. intros Hj. eapply (mi_lives w Hinv); [exact Hj|]. rewrite Hs. congruence. }
  destruct (lv_pieces live) as [pt|] eqn:Hp; [|by apply Hset].
  destruct (good_into_chunks pt) as (ct & -> & Hct); [by eapply (mi_pieces w Hinv)|]. rsimpl.
  destruct (fl_take (lv_files live)) as [[files rest]|]; apply Hset; [|done]. by intros fs c [= <- <-].
Qed.

(** With every live state retired the state can be set freely. *)
Lemma inv_retired_state w s : managed_inv w -> (forall j live rx, w_lives w !! j = Some (live, rx) -> retired live) ->
  match s with MPaused _ ct => good_ct ct | MInitializing i => (i < length (w_inits w))%nat | MError _ | MNone => True | _ => False end ->
  managed_inv (set_state w s).
Proof.
  intros [H1 H2 H3 H4] Hr Hs. split; [by destruct s|exact H2| |exact H4].
  intros l live rx Hl _. by eapply Hr.
Qed.

Lemma inv_live_new w token files ct : managed_inv w -> (forall l, w_state w <> MLive l) -> good_ct ct ->
  managed_inv (live_new w token files ct).
Proof.
  intros [H1 H2 H3 H4] Hn Hct. unfold live_new. split; cbn.
  - rewrite length_app. simpl. lia.
  - exact H2.
  - intros l live rx [Hl|[Hge Hl]]%lookup_app_Some Hne; [by eapply H3|].
    apply list_lookup_singleton_Some in Hl as [Hz _]. exfalso. apply Hne. f_equal. lia.
  - intros l live rx pt [Hl|[_ Hl]]%lookup_app_Some Hp; [by eapply H4|].
    apply list_lookup_singleton_Some in Hl as [_ [= <- <-]]. injection Hp as <-. by apply good_pt_new.
Qed.

Lemma inv_spawn_init w token i sp : managed_inv w -> (i < length (w_inits w))%nat -> managed_inv (spawn_init w token i sp).
Proof.
  intros [H1 H2 H3 H4] Hi. unfold spawn_init. split; cbn; [exact H1| |exact H3|exact H4].
  intros k t [Hk|[_ Hk]]%lookup_app_Some; [by eapply H2|].
  apply list_lookup_singleton_Some in Hk as [_ <-]. done.
Qed.

Lemma inv_new_init w init : managed_inv w -> managed_inv (set_inits w (w_inits w ++ [init])).
Proof.
  intros [H1 H2 H3 H4]. split; cbn; [|..|exact H3|exact H4].
  - destruct (w_state w); try done. rewrite length_app. simpl. lia.
  - intros k t Hk. destruct (H2 k t Hk). rewrite length_app. split; [lia|done].
Qed.

Lemma inv_start_locked w token sp create : managed_inv w -> managed_inv (start_locked w token sp create).2.
Proof.
  intros Hinv. unfold start_locked. destruct (w_state w) as [i|files ct|l|e|] eqn:Hs; cbn [snd]; try done.
  - apply inv_spawn_init; [done|]. pose proof (mi_state w Hinv) as Hi. by rewrite Hs in Hi.
  - destruct sp; [done|]. pose proof (mi_state w Hinv) as Hct. rewrite Hs in Hct.
    apply inv_live_new; [done|congruence|done].
  - destruct (negb (w_has_metadata w)); [done|]. destruct create as [files|]; [|done]. cbn [snd].
    apply inv_spawn_init; [|cbn; rewrite length_app; simpl; lia].
    apply inv_retired_state; [by apply inv_new_init| |cbn; rewrite length_app; simpl; lia].
    intros j live rx Hj. eapply (mi_lives w Hinv); [exact Hj|congruence].
Qed.

Lemma inv_set_task w k i sp c pc sp' c' pc' : managed_inv w -> w_tasks w !! k = Some (mkInitTask i sp c pc) ->
  match pc' with TChecked (Ok (_, ct)) => good_ct ct | _ => True end ->
  managed_inv (set_tasks w (<[k := mkInitTask i sp' c' pc']> (w_tasks w))).
Proof.
  intros [H1 H2 H3 H4] Hk Hpc. pose proof (lookup_lt_Some _ _ _ Hk) as Hlt. destruct (H2 k _ Hk) as [Hi _].
  split; cbn; [exact H1| |exact H3|exact H4]. intros j t. destruct (decide (j = k)) as [->|].
  - rewrite list_lookup_insert_eq by done. by intros [= <-].
  - rewrite list_lookup_insert_ne by done. apply H2.
Qed.

Lemma inv_set_inits w i init : managed_inv w -> managed_inv (set_inits w (<[i := init]> (w_inits w))).
Proof.
  intros [H1 H2 H3 H4]. split; cbn; [|..|exact H3|exact H4].
  - destruct (w_state w); try done. by rewrite length_insert.
  - intros k t Hk. rewrite length_insert. by apply (H2 k).
Qed.

Lemma inv_set_only_files w o : managed_inv w -> managed_inv (set_only_files w o).
Proof. by intros [H1 H2 H3 H4]. Qed.

Lemma inv_check_over w k found : managed_inv w -> (forall ct, found = Some ct -> good_ct ct) ->
  managed_inv (check_over fl_take w k found).
Proof.
  intros Hinv Hf. unfold check_over. destruct (w_tasks w !! k) as [[i sp c [| |]]|] eqn:Hk; try done.
  destruct (w_inits w !! i) as [init|]; [|done].
  destruct found as [ct|]; [destruct (fl_take (i_files init)) as [[files rest]|]|].
  - eapply (inv_set_task (set_inits w _) k); [by apply inv_set_inits|exact Hk|]. by apply Hf.
  - eapply inv_set_task; [done|exact Hk|done].
  - eapply inv_set_task; [done|exact Hk|done].
Qed.

Lemma inv_finish_init w k : managed_inv w -> event_ok w (EvFinishInit k) -> managed_inv (finish_init w k).
Proof.
  intros Hinv Hok. unfold finish_init. simpl in Hok. destruct (w_tasks w !! k) as [[i sp c [|r|]]|] eqn:Hk; try done.
  assert (Hd : managed_inv (set_tasks w (<[k := mkInitTask i sp c TDone]> (w_tasks w)))).
  { eapply inv_set_task; [done|exact Hk|done]. }
  destruct (mi_tasks w Hinv k _ Hk) as [_ Hr]. cbn in Hr.
  destruct r as [[files ct]|e].
  - cbn [w_state set_tasks]. destruct (w_state w) as [j| | | |] eqn:Hs; try done.
    apply inv_start_locked. apply inv_set_state; [done|cbn; congruence|done].
  - apply inv_set_state; [done|cbn; congruence|done].
Qed.

Lemma inv_drop_init w k : managed_inv w -> managed_inv (drop_init w k).
Proof.
  intros Hinv. unfold drop_init. destruct (w_tasks w !! k) as [[i sp [] [|r|]]|] eqn:Hk; try done.
  eapply inv_set_task; [done|exact Hk|done].
Qed.

Lemma inv_cancel w b : managed_inv w -> managed_inv (set_cancelled (cancel_children w) b).
Proof.
  intros [H1 H2 H3 H4]. unfold set_cancelled, cancel_children. split; cbn.
  - destruct (w_state w); try done. by rewrite length_fmap.
  - intros k t. rewrite list_lookup_fmap, fmap_Some. intros (t' & Ht & ->). by apply (H2 k t').
  - intros l live rx. rewrite list_lookup_fmap, fmap_Some. intros ([lv r] & Hl & [= -> ->]) Hs.
    destruct (H3 l lv r Hl Hs) as (A1 & _ & A3). done.
  - intros l live rx pt. rewrite list_lookup_fmap, fmap_Some. intros ([lv r] & Hl & [= -> ->]) Hp. by eapply (H4 l lv r).
Qed.

(** A live state that has its pieces, its sender, or is not cancelled, is the
    current one. *)
Lemma not_retired_current w l live rx : managed_inv w -> w_lives w !! l = Some (live, rx) ->
  (exists pt, lv_pieces live = Some pt) \/ lv_fatal_errors_tx live = true -> w_state w = MLive l.
Proof.
  intros Hinv Hl Hr. destruct (w_state w) as [i|f c|j|e|] eqn:Hs; try (
    destruct (mi_lives w Hinv l live rx Hl) as (A1 & A2 & A3); [by rewrite Hs|]; destruct Hr as [[pt Hpt]|Htx]; congruence).
  destruct (decide (j = l)) as [->|]; [done|].
  destruct (mi_lives w Hinv l live rx Hl) as (A1 & A2 & A3); [rewrite Hs; congruence|].
  destruct Hr as [[pt Hpt]|Htx]; congruence.
Qed.

Lemma inv_on_fatal_error w l : managed_inv w -> managed_inv (on_fatal_error w l).
Proof.
  intros Hinv. unfold on_fatal_error. destruct (w_lives w !! l) as [[live rx]|] eqn:Hl; [|done].
  destruct (lv_fatal_errors_tx live) eqn:Htx; [|done].
  pose proof (not_retired_current w l live rx Hinv Hl (or_intror Htx)) as Hs.
  destruct rx; (eapply inv_set_live; [done|exact Hl|by rewrite Hs|]); intros pt Hp; by eapply (mi_pieces w Hinv l live).
Qed.

Lemma inv_rx w l live rx rx' : managed_inv w -> w_lives w !! l = Some (live, rx) ->
  managed_inv (set_lives w (<[l := (live, rx')]> (w_lives w))).
Proof.
  intros Hinv Hl. eapply inv_set_live; [done|exact Hl| |].
  - intros Hs. by eapply (mi_lives w Hinv).
  - intros pt Hp. by eapply (mi_pieces w Hinv l live).
Qed.

Lemma inv_stop_with_error w : managed_inv w -> exists w', stop_with_error fl_take ord w = Done w' /\ managed_inv w'.
Proof.
  intros Hinv. unfold stop_with_error. destruct (w_state w) as [i|f c|l|e|] eqn:Hs.
  3: { destruct (live_pause_spec w l Hinv Hs) as (r & w' & -> & Hinv' & Hr & _). rsimpl.
       eexists. split; [done|]. by apply inv_retired_state. }
  all: eexists; (split; [done|]); apply inv_set_state; [done|congruence|done].
Qed.

Lemma inv_recheck w files b : managed_inv w -> (forall j live rx, w_lives w !! j = Some (live, rx) -> retired live) ->
  managed_inv (set_paused (set_state (set_inits w (w_inits w ++ [mkInit files (w_only_files w) true]))
    (MInitializing (length (w_inits w)))) b).
Proof.
  intros Hinv Hr. apply inv_set_paused, inv_retired_state; [by apply inv_new_init|done|].
  cbn. rewrite length_app. simpl. lia.
Qed.

Lemma all_retired w : managed_inv w -> (forall l, w_state w <> MLive l) ->
  forall j live rx, w_lives w !! j = Some (live, rx) -> retired live.
Proof. intros Hinv Hn j live rx Hj. by eapply (mi_lives w Hinv). Qed.

Lemma inv_delete_take w : managed_inv w ->
  exists w', outcome_bind (delete_take fl_take ord w) (fun r => Done r.2) = Done w' /\ managed_inv w'.
Proof.
  intros Hinv. unfold delete_take. destruct (negb _); [by eexists|]. pose proof (mi_state w Hinv) as Hst.
  destruct (w_state w) as [i|f c|l|e|] eqn:Hs.
  - destruct (lookup_lt_is_Some_2 (w_inits w) i Hst) as [init ->].
    destruct (fl_take _) as [[files rest]|]; (eexists; split; [done|]); apply inv_set_state; try done; [|cbn; congruence..].
    by apply inv_set_inits.
  - eexists. split; [done|]. apply inv_set_state; [done|congruence|done].
  - destruct (live_pause_spec w l Hinv Hs) as (r & w' & -> & Hinv' & Hr & _). eexists. split; [done|]. by apply inv_retired_state.
  - eexists. split; [done|]. apply inv_set_state; [done|congruence|done].
  - eexists. split; [done|]. apply inv_set_state; [done|congruence|done].
Qed.

Lemma step_inv w e : managed_inv w -> event_ok w e ->
  exists w', step fl_take ord file_infos w e = Done w' /\ managed_inv w'.
Proof.
  intros Hinv Hok. destruct e as [alive sp create|alive| | |create|only|k found|k|k|l pt|l|l|l|l]; simpl in Hok |- *.
  - eexists. split; [done|]. unfold start. destruct (negb alive); [done|]. by apply inv_start_locked, inv_set_paused.
  - unfold pause. destruct (w_state w) as [i|f c|l|e|] eqn:Hs; rsimpl; try (by eexists).
    + eexists. split; [done|]. apply inv_set_paused, inv_retired_state; [by apply inv_cancel| |done].
      intros j live rx. apply (all_retired (cancel_and_reset_token w alive)); [by apply inv_cancel|cbn; congruence].
    + destruct (live_pause_spec w l Hinv Hs) as ([[files ct]|e] & w' & -> & Hinv' & Hr & Hct & _); rsimpl.
      * eexists. split; [done|]. apply inv_set_paused, inv_retired_state; [done|done|by eapply Hct].
      * by eexists.
  - eexists. split; [done|]. by apply inv_cancel.
  - by apply inv_delete_take.
  - unfold prepare_force_recheck. destruct (negb (w_has_metadata w)); [by eexists|].
    destruct (w_state w) as [i|f c|l|e|] eqn:Hs; rsimpl; try (by eexists).
    + eexists. split; [done|]. apply inv_recheck; [done|]. apply all_retired; [done|congruence].
    + destruct (live_pause_spec w l Hinv Hs) as ([[files ct]|e] & w' & -> & Hinv' & Hr & Hct & _); rsimpl.
      * eexists. split; [done|]. by apply inv_recheck.
      * eexists. split; [done|]. by apply inv_retired_state.
    + destruct create as [files|]; [|by eexists]. eexists. split; [done|]. apply inv_recheck; [done|].
      apply all_retired; [done|congruence].
  - unfold update_only_files_managed. destruct (negb (w_has_metadata w)); [by eexists|].
    destruct (existsb _ _); [by eexists|]. pose proof (mi_state w Hinv) as Hst.
    destruct (w_state w) as [i|f c|l|e|] eqn:Hs; rsimpl; [by exists w|..].
    + destruct Hst as [Hci Hcl]. rewrite <- Hcl in Hfiles.
      destruct (update_only_files_cases c file_infos only Hci Hfiles) as (ct' & -> & Hi' & Hl' & _). rsimpl.
      eexists. split; [done|]. apply inv_set_only_files, inv_set_state; [done|congruence|]. split; [done|cbn; congruence].
    + destruct (lookup_lt_is_Some_2 (w_lives w) l Hst) as [[live rx] Hl]. rewrite Hl.
      destruct (lv_pieces live) as [pt|] eqn:Hp; [|by eexists].
      destruct (mi_pieces w Hinv l live rx pt Hl Hp) as [[Hci Hv] Hcl]. rewrite <- Hcl in Hfiles.
      unfold pt_update_only_files.
      destruct (update_only_files_cases (pt_chunks pt) file_infos only Hci Hfiles) as (ct' & -> & Hi' & Hl' & _). rsimpl.
      eexists. split; [done|]. apply inv_set_only_files. eapply inv_set_live; [done|exact Hl|by rewrite Hs|].
      intros pt' [= <-]. split; [|cbn; congruence]. split; [done|]. intros i info Hinfo. cbn in *. rewrite Hl'. by eapply Hv.
    + eexists. split; [done|]. by apply inv_set_only_files.
    + eexists. split; [done|]. by apply inv_set_only_files.
  - eexists. split; [done|]. apply inv_check_over; [done|]. intros ct ->. done.
  - eexists. split; [done|]. by apply inv_finish_init.
  - eexists. split; [done|]. by apply inv_drop_init.
  - eexists. split; [done|]. unfold live_work. destruct (w_lives w !! l) as [[[[old|] files tx c] rx]|] eqn:Hl; try done.
    eapply inv_set_live; [done|exact Hl| |].
    + intros Hs. destruct (mi_lives w Hinv l _ rx Hl Hs) as [? _]. done.
    + by intros pt' [= <-].
  - eexists. split; [done|]. by apply inv_on_fatal_error.
  - eexists. split; [done|]. unfold rx_receive. destruct (w_lives w !! l) as [[live []]|] eqn:Hl; try done.
    + destruct (lv_fatal_errors_tx live); [done|]. by eapply inv_rx.
    + by eapply inv_rx.
  - eexists. split; [done|]. unfold rx_cancel. destruct (w_lives w !! l) as [[live []]|] eqn:Hl; try done;
      (destruct (lv_cancelled live); [by eapply inv_rx|done]).
  - unfold rx_stop. destruct (w_lives w !! l) as [[live []]|] eqn:Hl; try (by exists w).
    apply inv_stop_with_error. by eapply inv_rx.
Qed.

Lemma managed_run_inv evs : forall w, managed_inv w -> run_ok w evs ->
  exists w', run fl_take ord file_infos w evs = Done w' /\ managed_inv w'.
Proof.
  induction evs as [|e evs IH]; intros w Hinv Hok; [by exists w|]. destruct Hok as [He Hr].
  destruct (step_inv w e Hinv He) as (w1 & Hw1 & Hinv1). unfold run in *. cbn [for_each]. rewrite Hw1. rsimpl.
  apply IH; [done|by apply Hr].
Qed.

(** ** Transitions *)

Inductive StateName := NInitializing | NPaused | NLive | NError | NNone.

Definition state_name w : StateName :=
  match w_state w with
  | MInitializing _ => NInitializing | MPaused _ _ => NPaused | MLive _ => NLive | MError _ => NError | MNone => NNone
  end.

(** The transitions listed at [ManagedTorrentState], and two of them in one
    critical section (a checked torrent that goes live at once). *)
Definition documented (a b : StateName) : Prop :=
  a = b \/ match a, b with
  | NError, NInitializing | NInitializing, NPaused | NPaused, NLive | NLive, NPaused
  | NInitializing, NError | NLive, NError | NInitializing, NLive => True
  | _, _ => False
  end.

Lemma start_locked_name w token sp create :
  let w' := (start_locked w token sp create).2 in
  state_name w' = state_name w \/ (state_name w = NPaused /\ state_name w' = NLive) \/
  (state_name w = NError /\ state_name w' = NInitializing).
Proof.
  unfold state_name, start_locked. destruct (w_state w) as [i|f c|l|e|] eqn:Hs; cbn [snd].
  - cbn. rewrite ?Hs. by left.
  - destruct sp; [rewrite Hs; by left|]. right. left. done.
  - rewrite Hs. by left.
  - destruct (negb (w_has_metadata w)); cbn [snd]; [rewrite Hs; by left|].
    destruct create; cbn [snd]; [|rewrite Hs; by left]. right. right. done.
  - rewrite Hs. by left.
Qed.

Lemma live_pause_state w l r w' : live_pause fl_take ord w l = Done (r, w') -> w_state w' = w_state w.
Proof.
  unfold live_pause. destruct (w_lives w !! l) as [[live rx]|]; [|done].
  destruct (lv_pieces live) as [pt|]; [|by intros [= <- <-]]. destruct (into_chunks ord pt); [|done]. rsimpl.
  by destruct (fl_take (lv_files live)) as [[files rest]|]; intros [= <- <-].
Qed.

Lemma same_name w w' : w_state w' = w_state w -> state_name w = state_name w'.
Proof. unfold state_name. by intros ->. Qed.

Lemma live_pause_name w l r w' : live_pause fl_take ord w l = Done (r, w') -> state_name w = state_name w'.
Proof. intros Hl. by eapply same_name, live_pause_state. Qed.

Lemma update_only_files_name w only r w' : update_only_files_managed file_infos w only = Done (r, w') ->
  state_name w = state_name w'.
Proof.
  unfold update_only_files_managed. destruct (negb (w_has_metadata w)); [by intros [= _ <-]|].
  destruct (existsb _ _); [by intros [= _ <-]|]. unfold state_name.
  destruct (w_state w) as [i|f c|l|e|] eqn:Hs; simpl; try (intros [= _ <-]; cbn; by rewrite Hs).
  - destruct (update_only_files c file_infos only); simpl; [by intros [= _ <-]|done].
  - destruct (w_lives w !! l) as [[live rx]|]; [|done]. destruct (lv_pieces live); [|intros [= _ <-]; by rewrite Hs].
    destruct (pt_update_only_files _ _ _); simpl; [intros [= _ <-]; cbn; by rewrite Hs|done].
Qed.

Lemma finish_init_name w k : let w' := finish_init w k in
  documented (state_name w) (state_name w') \/ state_name w' = NError.
Proof.
  unfold finish_init, documented. destruct (w_tasks w !! k) as [[i sp c [|r|]]|]; try (left; by left).
  destruct r as [[files ct]|e]; [|by right]. left. cbn [w_state set_tasks].
  destruct (w_state w) as [j|f c'|l|e|] eqn:Hs; try (left; unfold state_name; cbn; by rewrite Hs).
  right. assert (state_name w = NInitializing) as -> by (unfold state_name; by rewrite Hs).
  set (v := set_state _ _).
  destruct (start_locked_name v c sp None) as [Hn|[[_ Hn]|[Hn _]]]; [by rewrite Hn|by rewrite Hn|done].
Qed.

Lemma step_transitions w e w' : step fl_take ord file_infos w e = Done w' ->
  documented (state_name w) (state_name w') \/
  match e with
  | EvFinishInit _ | EvRxStop _ => state_name w' = NError
  | EvForceRecheck _ => state_name w' = NInitializing
  | EvDeleteTake => state_name w' = NNone
  | _ => False
  end.
Proof.
  assert (Hstay : forall v, w_state v = w_state w -> documented (state_name w) (state_name v)).
  { intros v Hv. left. by apply same_name. }
  destruct e as [alive sp create|alive| | |create|only|k found|k|k|l pt|l|l|l|l]; simpl.
  - intros [= <-]. left. unfold start. destruct (negb alive); [by left|].
    destruct (start_locked_name (set_paused w sp) (w_cancelled w) sp create) as [Hn|[[Hn1 Hn2]|[Hn1 Hn2]]]; [left; by rewrite Hn|right..];
      rewrite Hn2; change (state_name w) with (state_name (set_paused w sp)); by rewrite Hn1.
  - unfold pause. intros Hp. left. destruct (w_state w) as [i|f c|l|e|] eqn:Hs; simpl in Hp; try (injection Hp as <-; by left).
    + injection Hp as <-. right. unfold state_name. by rewrite Hs.
    + destruct (live_pause fl_take ord w l) as [[[[files ct]|e] w1]|] eqn:Hl; simpl in Hp; [| |done]; injection Hp as <-.
      * right. unfold state_name. by rewrite Hs.
      * left. by eapply live_pause_name.
  - intros [= <-]. left. by left.
  - unfold delete_take. destruct (negb (w_has_metadata w)); [intros [= <-]; left; by left|].
    destruct (w_state w) as [i|f c|l|e|]; try (intros [= <-]; by right).
    + destruct (w_inits w !! i); [|done]. destruct (fl_take _) as [[]|]; intros [= <-]; by right.
    + destruct (live_pause _ _ _ _) as [r|]; [intros [= <-]; by right|done].
  - unfold prepare_force_recheck. destruct (negb (w_has_metadata w)); [intros [= <-]; left; by left|].
    destruct (w_state w) as [i|f c|l|e|] eqn:Hs; simpl; try (intros [= <-]; left; by left).
    + intros [= <-]. by right.
    + destruct (live_pause fl_take ord w l) as [[[[files ct]|e] w1]|] eqn:Hl; simpl; [| |done]; intros [= <-]; [by right|].
      left. right. unfold state_name. by rewrite Hs.
    + destruct create; intros [= <-]; [by right|left; by left].
  - destruct (update_only_files_managed file_infos w only) as [[r w1]|] eqn:Hu; simpl; [|done]. intros [= <-].
    left. left. by eapply update_only_files_name.
  - intros [= <-]. left. unfold check_over. destruct (w_tasks w !! k) as [[i sp c [| |]]|]; try by left.
    destruct (w_inits w !! i) as [init|]; [|by left].
    destruct found; [destruct (fl_take (i_files init)) as [[]|]|]; by apply Hstay.
  - intros [= <-]. apply finish_init_name.
  - intros [= <-]. left. unfold drop_init. destruct (w_tasks w !! k) as [[i sp [] [| |]]|]; by apply Hstay.
  - intros [= <-]. left. unfold live_work. destruct (w_lives w !! l) as [[[[]] rx]|]; by apply Hstay.
  - intros [= <-]. left. unfold on_fatal_error. destruct (w_lives w !! l) as [[live []]|]; [..|by left];
      destruct (lv_fatal_errors_tx live); by apply Hstay.
  - intros [= <-]. left. unfold rx_receive. destruct (w_lives w !! l) as [[live []]|]; [destruct (lv_fatal_errors_tx live)|..]; by apply Hstay.
  - intros [= <-]. left. unfold rx_cancel. destruct (w_lives w !! l) as [[live []]|]; [destruct (lv_cancelled live)..| | |]; by apply Hstay.
  - unfold rx_stop. destruct (w_lives w !! l) as [[live []]|]; try (intros [= <-]; left; by left).
    unfold stop_with_error. destruct (w_state _); try (intros [= <-]; by right).
    destruct (live_pause _ _ _ _) as [r|]; simpl; [intros [= <-]; by right|done].
Qed.

(** ** Theorems *)

Lemma run_empty evs w w' : run fl_take ord file_infos w evs = Done w' -> state_name w' = NNone ->
  state_name w = NNone \/ EvDeleteTake ∈ evs.
Proof.
  revert w. induction evs as [|e evs IH]; intros w; [intros [= ->]; by left|]. unfold run in *. cbn [for_each].
  destruct (step fl_take ord file_infos w e) as [w1|] eqn:Hw; [|done]. rsimpl. intros Hr Hn.
  destruct (IH w1 Hr Hn) as [Hn1|Hin]; [|right; by right]. pose proof (step_transitions w e w1 Hw) as Ht. rewrite Hn1 in Ht.
  destruct Ht as [[->|Hd]|Ht]; [by left|by destruct (state_name w)|]. destruct e; try done. right. by left.
Qed.


(** The state changes only along the documented transitions, except that a
    recheck starts an initialization from any state, that a deletion leaves the
    empty state, and that a failed check or
    a fatal error, which do not look at the state they find, make an error of
    it. *)
Theorem managed_torrent_transitions w e w' : step fl_take ord file_infos w e = Done w' ->
  documented (state_name w) (state_name w') \/
  match e with
  | EvFinishInit _ | EvRxStop _ => state_name w' = NError
  | EvForceRecheck _ => state_name w' = NInitializing
  | EvDeleteTake => state_name w' = NNone
  | _ => False
  end.
Proof. apply step_transitions. Qed.

(** Pausing after starting gives the same pieces back: the torrent that is
    started, works, and is paused has in its chunk tracker what the work has
    made of it, every piece in flight queued again. *)
Theorem start_then_pause w files ct pt rest rest2 alive : managed_inv w -> w_state w = MPaused files ct -> alive = true ->
  fl_take files = Ok (rest, rest2) -> good_pt pt ->
  exists w' ct', run fl_take ord file_infos w
      [EvStart alive false None; EvLiveWork (length (w_lives w)) pt; EvPause true] = Done w' /\
    w_state w' = MPaused rest ct' /\ w_paused w' = true /\ inv ct' /\ have ct' = have (pt_chunks pt) /\
    forall j, 0 <= j -> bit_at (queue_pieces ct') j =
      bit_at (queue_pieces (pt_chunks pt)) j || bool_decide (is_Some (pt_inflight pt !! j)) && negb (bit_at (have (pt_chunks pt)) j).
Proof.
  intros Hinv Hs -> Htake [Hpt Hlen]. destruct (into_chunks_spec ord pt Hpt ord_ok) as (ct' & Hc & Hi & Hf & Hq).
  unfold run. cbn [for_each step]. unfold start. cbn [negb].
  assert (Hst : start_locked (set_paused w false) (w_cancelled w) false None = (Ok tt, live_new (set_paused w false) (w_cancelled w) files ct)).
  { unfold start_locked. cbn [w_state set_paused]. by rewrite Hs. }
  rewrite Hst. rsimpl. cbn [snd]. unfold live_new. cbn [w_lives set_paused].
  unfold live_work. cbn [w_lives set_state set_lives]. rewrite lookup_app_r, Nat.sub_diag by lia. cbn [lookup list_lookup].
  unfold pause. cbn [w_state set_state set_lives]. unfold live_pause. cbn [w_lives set_lives].
  rewrite list_lookup_insert_eq by (cbn; rewrite length_app; simpl; lia). cbn [lv_pieces lv_files]. rewrite Hc. rsimpl.
  rewrite Htake. rsimpl. eexists _, ct'. split; [done|]. cbn. split_and!; [done|done|done|apply Hf|].
  intros j Hj. rewrite Hq by done. done.
Qed.
End invariant.

(** ** Concrete runs

    Torrents whose storage is a flag: it still has its files. *)
Section example.
Definition flag_take (b : bool) : result unit (bool * bool) := Ok (b, false).
Definition ex_order : order nat := map_to_list.

Lemma ex_managed_order_ok : iter_order ex_order.
Proof. by intros m. Qed.

Abbreviation ex_run := (run (BF := list bool) flag_take ex_order ex_files).

(** A torrent that was just added. *)
Definition added : World (list bool) nat bool :=
  mkWorld false (MInitializing 0) None true [mkInit true None false] [] [] false.

Lemma added_inv : managed_inv ex_lengths added.
Proof. split; simpl; [lia|by intros k t|by intros l live rx|by intros l live rx pt]. Qed.

Lemma good_ex_ct : good_ct ex_lengths ex_ct.
Proof. split; [exact ex_ct_inv|vm_compute; reflexivity]. Qed.

Definition goes_live (k : nat) : list (Event (list bool) nat bool) := [EvCheckOver k (Some ex_ct); EvFinishInit k].

Definition ex_life : list (Event (list bool) nat bool) :=
  [EvStart true false None] ++ goes_live 0 ++ [EvCancelToken; EvPause true; EvDeleteTake].


Lemma managed_torrent_transitions_witness :
  documented NInitializing NError.
Proof.
  destruct (managed_torrent_transitions flag_take ex_order ex_files added (EvPause true)
    (match step flag_take ex_order ex_files added (EvPause true) with Done w => w | Panic => added end)) as [Hd|Hd].
  - vm_compute. reflexivity.
  - exact Hd.
  - destruct Hd.
Defined.

Definition stopped : World (list bool) nat bool :=
  mkWorld true (MPaused true ex_ct) None true [] [] [] false.

Lemma start_then_pause_witness : exists w' ct', ex_run stopped [EvStart true false None; EvLiveWork 0 (pt_new ex_ct); EvPause true] = Done w' /\
  w_state w' = MPaused true ct' /\ have ct' = have ex_ct.
Proof.
  destruct (start_then_pause flag_take ex_order ex_managed_order_ok ex_files ex_lengths stopped true ex_ct (pt_new ex_ct) true false true)
    as (w' & ct' & Hrun & Hs & _ & _ & Hh & _).
  - split; simpl; [exact good_ex_ct|by intros k t|by intros l live rx|by intros l live rx pt].
  - reflexivity.
  - reflexivity.
  - reflexivity.
  - apply good_pt_new, good_ex_ct.
  - exists w', ct'. split; [exact Hrun|]. split; [exact Hs|exact Hh].
Defined.

(** The names, and whether each live state still works. *)
Definition summary (o : outcome (World (list bool) nat bool)) : option (bool * StateName * list (bool * bool)) :=
  match o with
  | Done w => Some (w_paused w, state_name w,
      (fun '(live, _) => (match lv_pieces live with Some _ => true | None => false end, lv_cancelled live)) <$> w_lives w)
  | Panic => None
  end.

(** A check that was cancelled by a pause, and fails after the torrent was
    started again, overwrites the state of the torrent: it is in error although
    it was started, and the live state goes on downloading with nobody holding
    it.  The next start makes a second one. *)
Definition late_failure : list (Event (list bool) nat bool) :=
  [EvStart true false None; EvPause true; EvStart true false (Some true)] ++ goes_live 1 ++
  [EvCheckOver 0 None; EvFinishInit 0].

Lemma late_failure_orphans_live :
  summary (ex_run added late_failure) = Some (false, NError, [(true, false)]) /\
  summary (ex_run added (late_failure ++ [EvStart true false (Some true)] ++ goes_live 2)) =
    Some (false, NLive, [(true, false); (true, false)]).
Proof. split; vm_compute; reflexivity. Qed.

(** A fatal error that has reached its receiver before a pause turns the paused
    torrent into one in error. *)
Lemma fatal_error_after_pause :
  summary (ex_run added ([EvStart true false None] ++ goes_live 0 ++
    [EvFatalError 0; EvRxReceive 0; EvPause true; EvRxStop 0])) = Some (true, NError, [(false, true)]).
Proof. vm_compute. reflexivity. Qed.

(** Starting a torrent that is being checked starts a second check of the same
    storage: after the first has taken the files, the second runs without. *)
Lemma second_check_without_files :
  match ex_run added ([EvStart true true None; EvStart true true None] ++ goes_live 0) with
  | Done w => (i_files <$> w_inits w, t_pc <$> w_tasks w !! 1%nat, state_name w)
  | Panic => ([], None, NNone)
  end = ([false], Some TChecking, NPaused).
Proof. vm_compute. reflexivity. Qed.

(** A check that ends after a pause has cancelled it finds the torrent being
    checked again and makes it live under its own cancelled token: no task of
    it runs. *)
Lemma late_check_makes_dead_live :
  summary (ex_run added ([EvStart true false None; EvCheckOver 0 (Some ex_ct); EvPause true; EvStart true false (Some true); EvFinishInit 0])) =
    Some (false, NLive, [(true, true)]).
Proof. vm_compute. reflexivity. Qed.

(** A torrent added as paused and started while it is checked stays paused. *)
Lemma start_during_check_is_lost :
  summary (ex_run added ([EvStart true true None; EvStart true false None] ++ goes_live 0 ++ goes_live 1)) =
    Some (false, NPaused, []).
Proof. vm_compute. reflexivity. Qed.
End example.
