(* ===== verification/HashId.v ===== *)
(** * HashId: identifiers as byte arrays

    Models [crates/librtbit-core/src/hash_id.rs]: [Id<N>] is a list of [N] bytes,
    compared lexicographically (the derived [Ord] of an array); the bit operations
    work on one byte.  The section at the end relates them to the number the
    bytes spell, most significant byte first. *)

From S2P Require Import Prelude.

Abbreviation Id := (list Z).

Inductive IdError := WrongLength (expected got : Z).

Definition from_bytes (n : nat) (b : list Z) : result IdError Id :=
  if negb (length b =? n)%nat then Err (WrongLength (Z.of_nat n) (Z.of_nat (length b))) else Ok b.

Definition distance (self other : Id) : Id := zip_with Z.lxor self other.

(** [bit] is a [u8]; the mask is shifted inside a [u8]. *)
Definition get_bit (self : Id) (bit : Z) : outcome bool :=
  n ←! unwrap (self !! Z.to_nat (bit / 8));
  let mask := Z.shiftl 1 (7 - bit mod 8) in
  Done (0 <? Z.land n mask).

Definition set_bit (self : Id) (bit : Z) (value : bool) : outcome Id :=
  n ←! unwrap (self !! Z.to_nat (bit / 8));
  if value then Done (<[Z.to_nat (bit / 8) := Z.lor n (Z.shiftl 1 (7 - bit mod 8))]> self)
  else
    let mask := 255 - Z.shiftl 1 (7 - bit mod 8) in
    Done (<[Z.to_nat (bit / 8) := Z.land n mask]> self).

Definition set_bits_range (self : Id) (r : Z * Z) (value : bool) : outcome Id :=
  for_each (fun self bit => set_bit self bit value) self (seqZ r.1 (r.2 - r.1)).

Definition truncate_for_dht (self : Id) : Id := take 20 self.

(** The derived order of byte arrays. *)
Fixpoint id_ltb (a b : Id) : bool :=
  match a, b with
  | x :: a, y :: b => (x <? y) || (x =? y) && id_ltb a b
  | [], _ :: _ => true
  | _, [] => false
  end.
Definition id_leb (a b : Id) : bool := negb (id_ltb b a).
Definition id_eqb (a b : Id) : bool := bool_decide (a = b).

Lemma id_leb_total a b : id_leb a b = false -> id_leb b a = true.
Proof.
  unfold id_leb. revert b. induction a as [|x a IH]; intros [|y b]; simpl; try done.
  specialize (IH b). bcases; simpl; try done; try lia.
Qed.

Lemma id_leb_trans a b c : id_leb a b = true -> id_leb b c = true -> id_leb a c = true.
Proof.
  unfold id_leb. revert b c. induction a as [|x a IH]; intros [|y b] [|z c]; simpl; try done.
  specialize (IH b c). bcases; simpl; try done; try lia.
Qed.

(** ** The number an id spells *)

Definition wf_id (n : nat) (a : Id) : Prop := length a = n /\ Forall is_u8 a.

Fixpoint to_Z (a : Id) : Z :=
  match a with
  | [] => 0
  | b :: a => b * 2 ^ (8 * Z.of_nat (length a)) + to_Z a
  end.

Lemma wf_id_cons n b a : wf_id (S n) (b :: a) <-> is_u8 b /\ wf_id n a.
Proof. unfold wf_id. simpl. rewrite Forall_cons. split; intros [? ?]; intuition lia. Qed.

Lemma to_Z_bound n a : wf_id n a -> 0 <= to_Z a < 2 ^ (8 * Z.of_nat n).
Proof.
  revert n. induction a as [|b a IH]; intros n [<- Ha]; simpl length.
  - simpl. lia.
  - apply Forall_cons in Ha as [Hb Ha]. specialize (IH (length a) (conj eq_refl Ha)).
    cbn [to_Z]. unfold is_u8 in Hb.
    replace (8 * Z.of_nat (S (length a))) with (8 + 8 * Z.of_nat (length a)) by lia.
    rewrite Z.pow_add_r by lia. change (2 ^ 8) with 256. nia.
Qed.

(** The bits of a number in two parts. *)
Lemma testbit_split a b k n : 0 <= k -> 0 <= b < 2 ^ k -> 0 <= n ->
  Z.testbit (a * 2 ^ k + b) n = if n <? k then Z.testbit b n else Z.testbit a (n - k).
Proof.
  intros Hk Hb Hn. destruct (Z.ltb_spec n k).
  - rewrite <- (Z.mod_pow2_bits_low _ k n) by done.
    rewrite Z.add_comm, Z.mod_add, Z.mod_small by lia. done.
  - replace n with ((n - k) + k) at 1 by lia. rewrite <- Z.div_pow2_bits by lia.
    rewrite Z.add_comm, Z.div_add, Z.div_small by lia. by rewrite Z.add_0_l.
Qed.

(** Bit [k] of an id, counted from the most significant one, is bit
    [8n - 1 - k] of its number. *)
Lemma testbit_to_Z n a k : wf_id n a -> 0 <= k < 8 * Z.of_nat n ->
  exists b, a !! Z.to_nat (k / 8) = Some b /\ is_u8 b /\
    Z.testbit (to_Z a) (8 * Z.of_nat n - 1 - k) = Z.testbit b (7 - k mod 8).
Proof.
  revert n k. induction a as [|x a IH]; intros n k [<- Ha] Hk; simpl length in *; [lia|].
  apply Forall_cons in Ha as [Hx Ha]. pose proof (to_Z_bound _ a (conj eq_refl Ha)) as Hb.
  cbn [to_Z]. rewrite testbit_split by lia.
  destruct (Z.ltb_spec (8 * Z.of_nat (S (length a)) - 1 - k) (8 * Z.of_nat (length a))).
  - destruct (IH (length a) (k - 8) (conj eq_refl Ha)) as (b & Hl & Hu & Ht); [lia|].
    exists b. split_and!; [|done|].
    + replace (Z.to_nat (k / 8)) with (S (Z.to_nat ((k - 8) / 8))) by zlia. done.
    + replace (7 - k mod 8) with (7 - (k - 8) mod 8) by zlia. rewrite <- Ht. f_equal. lia.
  - exists x. replace (Z.to_nat (k / 8)) with 0%nat by zlia. split_and!; [done..|].
    f_equal. zlia.
Qed.

Lemma to_Z_testbit_high n a m : wf_id n a -> 8 * Z.of_nat n <= m -> Z.testbit (to_Z a) m = false.
Proof.
  intros Ha Hm. pose proof (to_Z_bound n a Ha).
  rewrite <- (Z.mod_small (to_Z a) (2 ^ (8 * Z.of_nat n))) by lia.
  apply Z.mod_pow2_bits_high. lia.
Qed.

Lemma land_pow2_pos b m : 0 <= b -> 0 <= m -> (0 <? Z.land b (Z.shiftl 1 m)) = Z.testbit b m.
Proof.
  intros Hb Hm. rewrite Z.shiftl_1_l.
  assert (He : Z.land b (2 ^ m) = if Z.testbit b m then 2 ^ m else 0).
  { apply Z.bits_inj'. intros j Hj. rewrite Z.land_spec, Z.pow2_bits_eqb by done.
    destruct (Z.eqb_spec m j) as [->|Hne].
    - destruct (Z.testbit b j); simpl; [by rewrite Z.pow2_bits_true|by rewrite Z.bits_0].
    - rewrite andb_false_r. destruct (Z.testbit b m); [|by rewrite Z.bits_0].
      by rewrite Z.pow2_bits_false. }
  rewrite He. destruct (Z.testbit b m); [|done]. apply Z.ltb_lt. by apply Z.pow_pos_nonneg.
Qed.

(** [get_bit] reads a bit of the number. *)
Lemma get_bit_testbit n a k : wf_id n a -> 0 <= k < 8 * Z.of_nat n ->
  get_bit a k = Done (Z.testbit (to_Z a) (8 * Z.of_nat n - 1 - k)).
Proof.
  intros Ha Hk. destruct (testbit_to_Z n a k Ha Hk) as (b & Hl & [Hb _] & ->).
  unfold get_bit. rewrite Hl. rsimpl. rewrite land_pow2_pos; [done|lia|zlia].
Qed.

Lemma byte_cases p : 0 <= p < 8 ->
  p = 0 \/ p = 1 \/ p = 2 \/ p = 3 \/ p = 4 \/ p = 5 \/ p = 6 \/ p = 7.
Proof. lia. Qed.

Lemma clear_mask_bits p q : 0 <= p < 8 -> 0 <= q < 8 ->
  Z.testbit (255 - Z.shiftl 1 p) q = negb (q =? p).
Proof.
  intros [->|[->|[->|[->|[->|[->|[->| ->]]]]]]]%byte_cases
    [->|[->|[->|[->|[->|[->|[->| ->]]]]]]]%byte_cases; reflexivity.
Qed.

(** The byte [set_bit] writes. *)
Definition set_byte (b p : Z) (v : bool) : Z :=
  if v then Z.lor b (Z.shiftl 1 p) else Z.land b (255 - Z.shiftl 1 p).

Lemma u8_high b m : is_u8 b -> 8 <= m -> Z.testbit b m = false.
Proof.
  intros Hb Hm. rewrite <- (Z.mod_small b (2 ^ 8)) by exact Hb. apply Z.mod_pow2_bits_high. lia.
Qed.

Lemma u8_of_bits b : 0 <= b -> (forall m, 8 <= m -> Z.testbit b m = false) -> is_u8 b.
Proof.
  intros Hb Hm. assert (Heq : b = b mod 2 ^ 8).
  { apply Z.bits_inj'. intros j Hj. rewrite Z.testbit_mod_pow2 by lia.
    destruct (Z.ltb_spec j 8); [done|]. by apply Hm. }
  rewrite Heq. apply Z.mod_pos_bound. lia.
Qed.

Lemma set_byte_bits b p v q : is_u8 b -> 0 <= p < 8 -> 0 <= q < 8 ->
  Z.testbit (set_byte b p v) q = if q =? p then v else Z.testbit b q.
Proof.
  intros Hb Hp Hq. unfold set_byte. destruct v.
  - rewrite Z.lor_spec, Z.shiftl_1_l, Z.pow2_bits_eqb, Z.eqb_sym by lia.
    destruct (q =? p); [by rewrite orb_true_r|by rewrite orb_false_r].
  - rewrite Z.land_spec, clear_mask_bits by done.
    destruct (q =? p); [by rewrite andb_false_r|by rewrite andb_true_r].
Qed.

Lemma set_byte_u8 b p v : is_u8 b -> 0 <= p < 8 -> is_u8 (set_byte b p v).
Proof.
  intros Hb Hp. apply u8_of_bits.
  - unfold set_byte, is_u8 in *. destruct v.
    + apply Z.lor_nonneg. split; [lia|]. apply Z.shiftl_nonneg. lia.
    + apply Z.land_nonneg. lia.
  - intros m Hm. unfold set_byte. destruct v.
    + rewrite Z.lor_spec, Z.shiftl_1_l, Z.pow2_bits_eqb, (u8_high b m Hb Hm) by lia.
      destruct (Z.eqb_spec p m); [lia|done].
    + by rewrite Z.land_spec, (u8_high b m Hb Hm).
Qed.

(** [set_bit] writes one bit of the number and no other. *)
Lemma set_bit_spec n a k v : wf_id n a -> 0 <= k < 8 * Z.of_nat n ->
  exists a', set_bit a k v = Done a' /\ wf_id n a' /\
    forall m, 0 <= m -> Z.testbit (to_Z a') m =
      if m =? 8 * Z.of_nat n - 1 - k then v else Z.testbit (to_Z a) m.
Proof.
  intros Ha Hk. destruct (testbit_to_Z n a k Ha Hk) as (b & Hl & Hb & _).
  assert (Hp : 0 <= 7 - k mod 8 < 8) by zlia.
  exists (<[Z.to_nat (k / 8) := set_byte b (7 - k mod 8) v]> a).
  assert (Ha' : wf_id n (<[Z.to_nat (k / 8) := set_byte b (7 - k mod 8) v]> a)).
  { destruct Ha as [Hn Hf]. split; [by rewrite length_insert|].
    apply Forall_insert; [done|]. by apply set_byte_u8. }
  split_and!; [unfold set_bit; rewrite Hl; by destruct v|done|].
  intros m Hm. destruct (Z.le_gt_cases (8 * Z.of_nat n) m) as [Hge|Hlt].
  { rewrite !(to_Z_testbit_high n) by done. destruct (Z.eqb_spec m (8 * Z.of_nat n - 1 - k)); [lia|done]. }
  set (j := 8 * Z.of_nat n - 1 - m). assert (Hj : 0 <= j < 8 * Z.of_nat n) by (unfold j; lia).
  destruct (testbit_to_Z n _ j Ha' Hj) as (b' & Hl' & _ & Ht').
  destruct (testbit_to_Z n _ j Ha Hj) as (b0 & Hl0 & _ & Ht0).
  replace (8 * Z.of_nat n - 1 - j) with m in * by (unfold j; lia). rewrite Ht', Ht0.
  destruct (decide (Z.to_nat (j / 8) = Z.to_nat (k / 8))) as [Heq|Hne].
  - rewrite Heq in Hl', Hl0. rewrite list_lookup_insert_eq in Hl' by (by eapply lookup_lt_Some).
    injection Hl' as <-. assert (b0 = b) as -> by congruence.
    rewrite set_byte_bits by (done || zlia).
    destruct (Z.eqb_spec (7 - j mod 8) (7 - k mod 8)), (Z.eqb_spec m (8 * Z.of_nat n - 1 - k));
      try done; exfalso; unfold j in *; zlia.
  - rewrite list_lookup_insert_ne in Hl' by done. assert (b' = b0) as -> by congruence.
    destruct (Z.eqb_spec m (8 * Z.of_nat n - 1 - k)) as [->|]; [|done].
    exfalso. apply Hne. f_equal. f_equal. unfold j. lia.
Qed.

Lemma set_bit_true n a k : wf_id n a -> 0 <= k < 8 * Z.of_nat n ->
  Z.testbit (to_Z a) (8 * Z.of_nat n - 1 - k) = false ->
  exists a', set_bit a k true = Done a' /\ wf_id n a' /\
    to_Z a' = to_Z a + 2 ^ (8 * Z.of_nat n - 1 - k).
Proof.
  intros Ha Hk Hb. destruct (set_bit_spec n a k true Ha Hk) as (a' & Hs & Ha' & Ht).
  exists a'. split_and!; [done..|]. set (p := 8 * Z.of_nat n - 1 - k) in *.
  assert (Hp : 0 <= p) by (unfold p; lia).
  rewrite <- Z.add_lor_land. assert (Hland : Z.land (to_Z a) (2 ^ p) = 0).
  { apply Z.bits_inj'. intros j Hj. rewrite Z.land_spec, Z.pow2_bits_eqb, Z.bits_0 by done.
    destruct (Z.eqb_spec p j) as [<-|]; [by rewrite Hb|by rewrite andb_false_r]. }
  rewrite Hland, Z.add_0_r. apply Z.bits_inj'. intros j Hj.
  rewrite Ht, Z.lor_spec, Z.pow2_bits_eqb, (Z.eqb_sym p j) by done.
  destruct (j =? p); [by rewrite orb_true_r|by rewrite orb_false_r].
Qed.

Lemma set_bit_false n a k : wf_id n a -> 0 <= k < 8 * Z.of_nat n ->
  Z.testbit (to_Z a) (8 * Z.of_nat n - 1 - k) = true ->
  exists a', set_bit a k false = Done a' /\ wf_id n a' /\
    to_Z a' = to_Z a - 2 ^ (8 * Z.of_nat n - 1 - k).
Proof.
  intros Ha Hk Hb. destruct (set_bit_spec n a k false Ha Hk) as (a' & Hs & Ha' & Ht).
  exists a'. split_and!; [done..|]. set (p := 8 * Z.of_nat n - 1 - k) in *.
  assert (Hp : 0 <= p) by (unfold p; lia).
  assert (Hland : Z.land (to_Z a') (2 ^ p) = 0).
  { apply Z.bits_inj'. intros j Hj. rewrite Z.land_spec, Z.pow2_bits_eqb, Z.bits_0, Ht by done.
    destruct (Z.eqb_spec p j) as [<-|]; [by rewrite Z.eqb_refl|by rewrite andb_false_r]. }
  assert (Hlor : Z.lor (to_Z a') (2 ^ p) = to_Z a).
  { apply Z.bits_inj'. intros j Hj.
    rewrite Z.lor_spec, Z.pow2_bits_eqb, Ht, (Z.eqb_sym p j) by done.
    destruct (Z.eqb_spec j p) as [->|]; [by rewrite Hb|by rewrite orb_false_r]. }
  pose proof (Z.add_lor_land (to_Z a') (2 ^ p)). lia.
Qed.

(** The order of byte arrays is the order of the numbers. *)
Lemma id_ltb_to_Z n a b : wf_id n a -> wf_id n b -> id_ltb a b = (to_Z a <? to_Z b).
Proof.
  revert a b. induction n as [|n IH]; intros a b Ha Hb.
  - destruct Ha as [Ha%length_zero_iff_nil _], Hb as [Hb%length_zero_iff_nil _]. by subst.
  - destruct a as [|x a]; [by destruct Ha|]. destruct b as [|y b]; [by destruct Hb|].
    apply wf_id_cons in Ha as [Hx Ha], Hb as [Hy Hb]. cbn [id_ltb to_Z].
    rewrite (IH a b Ha Hb), (proj1 Ha), (proj1 Hb).
    pose proof (to_Z_bound n a Ha). pose proof (to_Z_bound n b Hb).
    set (P := 2 ^ (8 * Z.of_nat n)) in *. unfold is_u8 in *.
    bcases; simpl; try done; try nia.
Qed.

Lemma id_leb_to_Z n a b : wf_id n a -> wf_id n b -> id_leb a b = (to_Z a <=? to_Z b).
Proof. intros Ha Hb. unfold id_leb. rewrite (id_ltb_to_Z n) by done. bcases; done || lia. Qed.

Lemma to_Z_inj n a b : wf_id n a -> wf_id n b -> to_Z a = to_Z b -> a = b.
Proof.
  revert a b. induction n as [|n IH]; intros a b Ha Hb Heq.
  - destruct Ha as [Ha%length_zero_iff_nil _], Hb as [Hb%length_zero_iff_nil _]. by subst.
  - destruct a as [|x a]; [by destruct Ha|]. destruct b as [|y b]; [by destruct Hb|].
    apply wf_id_cons in Ha as [Hx Ha], Hb as [Hy Hb]. cbn [to_Z] in Heq.
    rewrite (proj1 Ha), (proj1 Hb) in Heq.
    pose proof (to_Z_bound n a Ha). pose proof (to_Z_bound n b Hb).
    set (P := 2 ^ (8 * Z.of_nat n)) in *. assert (x = y) as -> by nia.
    f_equal. apply IH; [done..|]. lia.
Qed.

(** The xor distance of two ids is the xor of the numbers they spell, it is
    zero exactly on equal ids and symmetric. *)
Theorem distance_to_Z n a b : wf_id n a -> wf_id n b ->
  wf_id n (distance a b) /\ to_Z (distance a b) = Z.lxor (to_Z a) (to_Z b) /\
  (to_Z (distance a b) = 0 <-> a = b) /\ distance a b = distance b a.
Proof.
  intros Ha Hb.
  assert (Hmain : wf_id n (distance a b) /\ to_Z (distance a b) = Z.lxor (to_Z a) (to_Z b)).
  { revert a b Ha Hb. induction n as [|n IH]; intros a b Ha Hb.
    - destruct Ha as [Ha%length_zero_iff_nil _], Hb as [Hb%length_zero_iff_nil _]. by subst.
    - destruct a as [|x a]; [by destruct Ha|]. destruct b as [|y b]; [by destruct Hb|].
      apply wf_id_cons in Ha as [Hx Ha], Hb as [Hy Hb].
      destruct (IH a b Ha Hb) as [Hwf Hz]. unfold distance in *. cbn [zip_with]. split.
      + apply wf_id_cons. split; [|done]. apply u8_of_bits.
        * apply Z.lxor_nonneg. unfold is_u8 in *. lia.
        * intros m Hm. by rewrite Z.lxor_spec, !u8_high.
      + cbn [to_Z]. rewrite Hz. rewrite (proj1 Hwf), (proj1 Ha), (proj1 Hb).
        pose proof (to_Z_bound n a Ha). pose proof (to_Z_bound n b Hb).
        pose proof (to_Z_bound n _ Hwf) as Hd. rewrite Hz in Hd.
        apply Z.bits_inj'. intros m Hm. rewrite Z.lxor_spec, !testbit_split by lia.
        destruct (m <? _); by rewrite Z.lxor_spec. }
  destruct Hmain as [Hwf Hz]. split_and!; [done..| |].
  - rewrite Hz. split; [|intros ->; by apply Z.lxor_nilpotent].
    intros H0%Z.lxor_eq. by apply (to_Z_inj n).
  - unfold distance. apply list_eq. intros i. rewrite !lookup_zip_with.
    destruct (a !! i), (b !! i); simpl; try done. by rewrite Z.lxor_comm.
Qed.

Lemma distance_to_Z_witness : to_Z (distance [1; 2] [3; 2]) = 512.
Proof.
  destruct (distance_to_Z 2 [1; 2] [3; 2]) as (_ & H & _).
  - split; [reflexivity|]. repeat constructor; discriminate.
  - split; [reflexivity|]. repeat constructor; discriminate.
  - rewrite H. reflexivity.
Defined.
