(* ===== verification/RoutingTable.v ===== *)
(** * RoutingTable: the Kademlia bucket tree of the DHT

    Models [crates/librtbit-dht/src/routing_table.rs].  The tree is a vector of
    nodes whose children are indices into the vector, as in the code.  Time is an
    argument (nanoseconds); random bytes are an argument of
    [generate_random_id].  The loops take fuel: 161 steps for a walk from the root,
    since a child has one bit less than its parent, and one step per node of the
    vector for the iteration over the leaves. *)

From S2P Require Import Prelude HashId.

Section table.
Context {Addr : Type}.

Definition INACTIVITY_TIMEOUT : Z := 15 * 60 * 1000000000.

Record RoutingTableNode := mkNode {
  rn_id : Id;
  rn_addr : Addr;
  rn_last_request : option Z;
  rn_last_response : option Z;
  rn_last_query : option Z;
  rn_errors_in_a_row : Z;
}.

Inductive NodeStatus := Good | Questionable | Bad | Unknown.

(** [now - t] of two [Instant]s: saturates at zero. *)
Definition since (now t : Z) : Z := saturating_sub now t.

(** Both alternatives of an or-pattern are tried against its guard. *)
Definition status (n : RoutingTableNode) (now : Z) : NodeStatus :=
  let recent t := since now t <? INACTIVITY_TIMEOUT in
  let stale t := INACTIVITY_TIMEOUT <? since now t in
  let opt f o := match o with Some t => f t | None => false end in
  let request_stale := match rn_last_request n with Some e => stale e | None => true end in
  if bool_decide (is_Some (rn_last_request n)) && (2 <=? rn_errors_in_a_row n) then Bad
  else if bool_decide (is_Some (rn_last_request n)) && bool_decide (is_Some (rn_last_response n)) &&
          (opt recent (rn_last_response n) || opt recent (rn_last_query n)) then Good
  else if (opt stale (rn_last_query n) || opt stale (rn_last_response n)) && request_stale
  then Questionable
  else Unknown.

Definition mark_outgoing_request (n : RoutingTableNode) (now : Z) : RoutingTableNode :=
  mkNode (rn_id n) (rn_addr n) (Some now) (rn_last_response n) (rn_last_query n)
    (rn_errors_in_a_row n).
Definition mark_last_query (n : RoutingTableNode) (now : Z) : RoutingTableNode :=
  mkNode (rn_id n) (rn_addr n) (rn_last_request n) (rn_last_response n) (Some now)
    (rn_errors_in_a_row n).
Definition mark_response (n : RoutingTableNode) (now : Z) : RoutingTableNode :=
  mkNode (rn_id n) (rn_addr n)
    (match rn_last_request n with None => Some now | r => r end) (Some now) (rn_last_query n) 0.
Definition mark_error (n : RoutingTableNode) : RoutingTableNode :=
  mkNode (rn_id n) (rn_addr n) (rn_last_request n) (rn_last_response n) (rn_last_query n)
    (wrap64 (rn_errors_in_a_row n + 1)).

Record LeafBucket := mkLeafBucket {
  lb_nodes : list RoutingTableNode;
  lb_last_refreshed : Z;
}.

Inductive BucketTreeNodeData :=
| Leaf (leaf : LeafBucket)
| LeftRight (left right : nat).

Record BucketTreeNode := mkBucketTreeNode {
  bn_bits : Z;
  bn_start : Id;
  bn_end_inclusive : Id;
  bn_data : BucketTreeNodeData;
}.

Record BucketTree := mkBucketTree {
  bt_data : list BucketTreeNode;
  bt_size : Z;
  bt_max_size : Z;
}.

Inductive InsertResult :=
| WasExisting
| ReplacedBad (old : RoutingTableNode)
| Added
| Ignored.

Definition with_data (n : BucketTreeNode) (d : BucketTreeNodeData) : BucketTreeNode :=
  mkBucketTreeNode (bn_bits n) (bn_start n) (bn_end_inclusive n) d.
Definition with_tree_data (t : BucketTree) (d : list BucketTreeNode) : BucketTree :=
  mkBucketTree d (bt_size t) (bt_max_size t).

(** [BucketTree::new]; [now] is the time the first bucket is created. *)
Definition tree_new (now max_size : Z) : BucketTree :=
  mkBucketTree
    [mkBucketTreeNode 160 (replicate 20 0) (replicate 20 255) (Leaf (mkLeafBucket [] now))]
    0 max_size.

(** The items of [BucketTreeIterator], run to its end; the top of the stack is
    the head of [queue]. *)
Fixpoint iter_leaves_loop (fuel : nat) (data : list BucketTreeNode) (queue : list nat) :
    outcome (list (BucketTreeNode * LeafBucket)) :=
  match queue with
  | [] => Done []
  | idx :: queue =>
      match fuel with
      | O => Panic
      | S fuel =>
          match data !! idx with
          | Some node =>
              match bn_data node with
              | Leaf leaf => l ←! iter_leaves_loop fuel data queue; Done ((node, leaf) :: l)
              | LeftRight l_idx r_idx => iter_leaves_loop fuel data (l_idx :: r_idx :: queue)
              end
          | None => iter_leaves_loop fuel data queue
          end
      end
  end.

Definition iter_leaves (t : BucketTree) : outcome (list (BucketTreeNode * LeafBucket)) :=
  iter_leaves_loop (length (bt_data t)) (bt_data t) [0%nat].

Definition iter (t : BucketTree) : outcome (list RoutingTableNode) :=
  ls ←! iter_leaves t; Done (ls ≫= fun l => lb_nodes l.2).

(** Enough steps for a walk from the root, whose [bits] are 160. *)
Definition WALK_FUEL : nat := 161.

Fixpoint get_leaf_loop (fuel : nat) (data : list BucketTreeNode) (id : Id) (idx : nat) :
    outcome nat :=
  match fuel with
  | O => Panic
  | S fuel =>
      node ←! unwrap (data !! idx);
      match bn_data node with
      | Leaf _ => Done idx
      | LeftRight left_idx right_idx =>
          left ←! unwrap (data !! left_idx);
          if id_leb (bn_start left) id && id_leb id (bn_end_inclusive left)
          then get_leaf_loop fuel data id left_idx
          else get_leaf_loop fuel data id right_idx
      end
  end.

Definition get_leaf (t : BucketTree) (id : Id) : outcome nat :=
  get_leaf_loop WALK_FUEL (bt_data t) id 0.

(** Apply [f] to the first node with this id. *)
Fixpoint update_first (f : RoutingTableNode -> RoutingTableNode) (id : Id)
    (l : list RoutingTableNode) : option (list RoutingTableNode) :=
  match l with
  | [] => None
  | n :: l => if id_eqb (rn_id n) id then Some (f n :: l)
              else l' ← update_first f id l; Some (n :: l')
  end.

(** [get_mut] followed by the update [f] of the node it returns; [false] when
    there is no such node. *)
Definition get_mut (t : BucketTree) (id : Id) (refresh : option Z)
    (f : RoutingTableNode -> RoutingTableNode) : outcome (bool * BucketTree) :=
  idx ←! get_leaf t id;
  node ←! unwrap (bt_data t !! idx);
  match bn_data node with
  | LeftRight _ _ => Panic
  | Leaf leaf =>
      match update_first f id (lb_nodes leaf) with
      | Some nodes =>
          let leaf := mkLeafBucket nodes (default (lb_last_refreshed leaf) refresh) in
          Done (true, with_tree_data t (<[idx := with_data node (Leaf leaf)]> (bt_data t)))
      | None => Done (false, t)
      end
  end.

(** The debug assertions on the ends are not part of the release build. *)
Definition compute_split_start_end (start end_inclusive : Id) (bits : Z) :
    outcome ((Id * Id) * (Id * Id)) :=
  let changing_bit := (160 - bits) mod U8 in
  new_left_end ←! set_bit end_inclusive changing_bit false;
  new_right_start ←! set_bit start changing_bit true;
  Done ((start, new_left_end), (new_right_start, end_inclusive)).

(** Put [x] in the place of the first bad node. *)
Fixpoint replace_bad (now : Z) (x : RoutingTableNode) (l : list RoutingTableNode) :
    option (RoutingTableNode * list RoutingTableNode) :=
  match l with
  | [] => None
  | n :: l =>
      match status n now with
      | Bad => Some (n, x :: l)
      | _ => r ← replace_bad now x l; Some (r.1, n :: r.2)
      end
  end.

Definition sort_by_id (l : list RoutingTableNode) : list RoutingTableNode :=
  sort_by (fun a b => id_leb (rn_id a) (rn_id b)) l.

(** [now] is read once, at the start; [created] is the time the buckets of a
    split are created. *)
Fixpoint insert_into_leaf (fuel : nat) (now created : Z) (t : BucketTree) (idx : nat)
    (self_id id : Id) (addr : Addr) : outcome (InsertResult * BucketTree) :=
  match fuel with
  | O => Panic
  | S fuel =>
      leaf ←! unwrap (bt_data t !! idx);
      match bn_data leaf with
      | LeftRight _ _ => Panic
      | Leaf nodes =>
          if existsb (fun r => id_eqb (rn_id r) id) (lb_nodes nodes) then Done (WasExisting, t)
          else
            let new_node := mkNode id addr None None None 0 in
            match replace_bad now new_node (lb_nodes nodes) with
            | Some (bad_node, l) =>
                Done (ReplacedBad bad_node,
                  with_tree_data t
                    (<[idx := with_data leaf (Leaf (mkLeafBucket (sort_by_id l) now))]> (bt_data t)))
            | None =>
                if bt_size t =? bt_max_size t then Done (Ignored, t)
                else if (length (lb_nodes nodes) <? 8)%nat then
                  let l := sort_by_id (lb_nodes nodes ++ [new_node]) in
                  Done (Added,
                    mkBucketTree
                      (<[idx := with_data leaf (Leaf (mkLeafBucket l now))]> (bt_data t))
                      (wrap64 (bt_size t + 1)) (bt_max_size t))
                else if id_ltb self_id (bn_start leaf) || id_ltb (bn_end_inclusive leaf) self_id
                then Done (Ignored, t)
                else
                  s ←! compute_split_start_end (bn_start leaf) (bn_end_inclusive leaf) (bn_bits leaf);
                  let '((ls, le), (rs, re)) := s in
                  let ld := List.filter (fun n => id_ltb (rn_id n) rs) (lb_nodes nodes) in
                  let rd := List.filter (fun n => negb (id_ltb (rn_id n) rs)) (lb_nodes nodes) in
                  let bits := (bn_bits leaf - 1) mod U8 in
                  let left := mkBucketTreeNode bits ls le (Leaf (mkLeafBucket ld created)) in
                  let right := mkBucketTreeNode bits rs re (Leaf (mkLeafBucket rd created)) in
                  let left_idx := length (bt_data t) in
                  let right_idx := S left_idx in
                  let data :=
                    <[idx := with_data leaf (LeftRight left_idx right_idx)]>
                      (bt_data t ++ [left; right]) in
                  insert_into_leaf fuel now created (with_tree_data t data)
                    (if id_ltb id rs then left_idx else right_idx) self_id id addr
            end
      end
  end.

(** [BucketTree::add_node]. *)
Definition tree_add_node (now created : Z) (t : BucketTree) (self_id id : Id) (addr : Addr) :
    outcome (InsertResult * BucketTree) :=
  idx ←! get_leaf t id;
  insert_into_leaf WALK_FUEL now created t idx self_id id addr.

(** ** RoutingTable *)

Record RoutingTable := mkRoutingTable {
  rt_id : Id;
  rt_size : Z;
  rt_buckets : BucketTree;
}.

Definition DEFAULT_MAX_SIZE : Z := 512.

Definition table_new (now : Z) (id : Id) (max_size : option Z) : RoutingTable :=
  mkRoutingTable id 0 (tree_new now (default DEFAULT_MAX_SIZE max_size)).

Definition table_len (rt : RoutingTable) : Z := rt_size rt.

Definition status_rank (s : NodeStatus) : Z :=
  match s with Good => 0 | Questionable => 1 | Unknown => 2 | Bad => 3 end.

(** The order of the keys [(status, distance)]. *)
Definition closer (id : Id) (now : Z) (a b : RoutingTableNode) : bool :=
  let ra := status_rank (status a now) in
  let rb := status_rank (status b now) in
  (ra <? rb) || (ra =? rb) && id_leb (distance id (rn_id a)) (distance id (rn_id b)).

Definition sorted_by_distance_from (rt : RoutingTable) (id : Id) (now : Z) :
    outcome (list RoutingTableNode) :=
  l ←! iter (rt_buckets rt); Done (sort_by (closer id now) l).

Definition table_add_node (now created : Z) (rt : RoutingTable) (id : Id) (addr : Addr) :
    outcome (InsertResult * RoutingTable) :=
  r ←! tree_add_node now created (rt_buckets rt) (rt_id rt) id addr;
  let replaced :=
    match r.1 with
    | WasExisting => false
    | ReplacedBad _ => true
    | Added => true
    | Ignored => false
    end in
  Done (r.1, mkRoutingTable (rt_id rt)
    (if (replaced : bool) then wrap64 (rt_size rt + 1) else rt_size rt) r.2).

Definition table_mark (rt : RoutingTable) (id : Id) (refresh : option Z)
    (f : RoutingTableNode -> RoutingTableNode) : outcome (bool * RoutingTable) :=
  r ←! get_mut (rt_buckets rt) id refresh f;
  Done (r.1, mkRoutingTable (rt_id rt) (rt_size rt) r.2).

Definition table_mark_outgoing_request (rt : RoutingTable) (id : Id) (now : Z) :=
  table_mark rt id None (fun n => mark_outgoing_request n now).
Definition table_mark_response (rt : RoutingTable) (id : Id) (now : Z) :=
  table_mark rt id (Some now) (fun n => mark_response n now).
Definition table_mark_error (rt : RoutingTable) (id : Id) :=
  table_mark rt id None mark_error.
Definition table_mark_last_query (rt : RoutingTable) (id : Id) (now : Z) :=
  table_mark rt id None (fun n => mark_last_query n now).

(** [data] are the random bytes. *)
Definition generate_random_id (data : Id) (start : Id) (bits : Z) : outcome Id :=
  let remaining_bits := (160 - bits) mod U8 in
  for_each (fun data bit => b ←! get_bit start bit; set_bit data bit b) data
    (seqZ 0 remaining_bits).

End table.
Arguments RoutingTableNode : clear implicits.
Arguments LeafBucket : clear implicits.
Arguments BucketTreeNodeData : clear implicits.
Arguments BucketTreeNode : clear implicits.
Arguments BucketTree : clear implicits.
Arguments InsertResult : clear implicits.
Arguments RoutingTable : clear implicits.
Strategy expand [get_leaf].

(** ** The shape of the tree *)
Section shape.
Context {Addr : Type}.
Implicit Types (n : BucketTreeNode Addr) (d : list (BucketTreeNode Addr)) (t : BucketTree Addr).
Implicit Types (x y : RoutingTableNode Addr).

Definition key x : Z := to_Z (rn_id x).

(** A node covers the ids that share its first [160 - bits] bits. *)
Definition covers n (z : Z) : Prop :=
  to_Z (bn_start n) <= z < to_Z (bn_start n) + 2 ^ bn_bits n.

Record geometry n : Prop := {
  geo_bits : 0 <= bn_bits n <= 160;
  geo_start : wf_id 20 (bn_start n);
  geo_end : wf_id 20 (bn_end_inclusive n);
  geo_aligned : to_Z (bn_start n) mod 2 ^ bn_bits n = 0;
  geo_last : to_Z (bn_end_inclusive n) = to_Z (bn_start n) + 2 ^ bn_bits n - 1;
}.

(** The two halves of a node. *)
Definition halves d n (l r : nat) : Prop :=
  1 <= bn_bits n /\ exists ln rn, d !! l = Some ln /\ d !! r = Some rn /\
    bn_bits ln = bn_bits n - 1 /\ bn_bits rn = bn_bits n - 1 /\
    to_Z (bn_start ln) = to_Z (bn_start n) /\
    to_Z (bn_start rn) = to_Z (bn_start n) + 2 ^ (bn_bits n - 1).

Record bucket_ok n (lb : LeafBucket Addr) : Prop := {
  bucket_sorted : StronglySorted (fun x y => key x < key y) (lb_nodes lb);
  bucket_ids : Forall (fun x => wf_id 20 (rn_id x) /\ covers n (key x)) (lb_nodes lb);
  bucket_size : (length (lb_nodes lb) <= 8)%nat;
}.

Definition data_ok d n : Prop :=
  match bn_data n with
  | Leaf lb => bucket_ok n lb
  | LeftRight l r => halves d n l r
  end.

Record tree_ok d : Prop := {
  tree_nodes : forall i n, d !! i = Some n -> geometry n /\ data_ok d n;
  tree_root : exists n, d !! 0%nat = Some n /\ bn_bits n = 160 /\ to_Z (bn_start n) = 0;
}.

Lemma tree_ok_node d i n : tree_ok d -> d !! i = Some n -> geometry n /\ data_ok d n.
Proof. intros Hd. apply Hd. Qed.

Lemma halves_covers d n l r ln rn z : halves d n l r -> d !! l = Some ln -> d !! r = Some rn ->
  (covers n z <-> covers ln z \/ covers rn z) /\ ~ (covers ln z /\ covers rn z).
Proof.
  intros (Hb & ln' & rn' & Hl & Hr & Hlb & Hrb & Hls & Hrs) Hl' Hr'. simplify_eq.
  unfold covers. rewrite Hlb, Hrb, Hls, Hrs.
  assert (Hp : 2 ^ bn_bits n = 2 * 2 ^ (bn_bits n - 1)).
  { rewrite <- Z.pow_succ_r by lia. f_equal. lia. }
  pose proof (Z.pow_pos_nonneg 2 (bn_bits n - 1)). lia.
Qed.

(** The indices of the subtree at [idx], parents first, left before right. *)
Fixpoint preorder (f : nat) d (idx : nat) : list nat :=
  match f with
  | O => []
  | S f =>
      match d !! idx with
      | Some n => match bn_data n with
                  | Leaf _ => [idx]
                  | LeftRight l r => idx :: preorder f d l ++ preorder f d r
                  end
      | None => []
      end
  end.

Definition bucket_of d (idx : nat) : list (RoutingTableNode Addr) :=
  match d !! idx with
  | Some n => match bn_data n with Leaf lb => lb_nodes lb | LeftRight _ _ => [] end
  | None => []
  end.

Definition nodes_from (f : nat) d (idx : nat) : list (RoutingTableNode Addr) :=
  preorder f d idx ≫= bucket_of d.

(** The nodes of the table. *)
Definition nodes t : list (RoutingTableNode Addr) := nodes_from WALK_FUEL (bt_data t) 0.

Lemma nodes_from_eq f d idx : nodes_from (S f) d idx =
  match d !! idx with
  | Some n => match bn_data n with
              | Leaf lb => lb_nodes lb
              | LeftRight l r => nodes_from f d l ++ nodes_from f d r
              end
  | None => []
  end.
Proof.
  unfold nodes_from. cbn [preorder]. destruct (d !! idx) as [n|] eqn:E; [|done].
  destruct (bn_data n) as [lb|l r] eqn:Eb.
  - cbn. unfold bucket_of. by rewrite E, Eb, app_nil_r.
  - cbn [mbind list_bind]. unfold bucket_of at 1. rewrite E, Eb. cbn [app].
    apply bind_app.
Qed.

Strategy expand [nodes].

(** An induction on the subtrees: the bits go down. *)
Lemma subtree_ind d (P : nat -> nat -> BucketTreeNode Addr -> Prop) : tree_ok d ->
  (forall f idx n lb, d !! idx = Some n -> bn_data n = Leaf lb -> geometry n -> bucket_ok n lb ->
     bn_bits n < Z.of_nat (S f) -> P (S f) idx n) ->
  (forall f idx n l r ln rn, d !! idx = Some n -> bn_data n = LeftRight l r -> geometry n ->
     halves d n l r -> d !! l = Some ln -> d !! r = Some rn ->
     bn_bits ln < Z.of_nat f -> bn_bits rn < Z.of_nat f -> P f l ln -> P f r rn ->
     P (S f) idx n) ->
  forall f idx n, d !! idx = Some n -> bn_bits n < Z.of_nat f -> P f idx n.
Proof.
  intros Hd Hleaf Hsplit. induction f as [|f IH]; intros idx n Hn Hf.
  { destruct (tree_ok_node d idx n Hd Hn) as [[? _] _]. lia. }
  destruct (tree_ok_node d idx n Hd Hn) as [Hg Hdata]. unfold data_ok in Hdata.
  destruct (bn_data n) as [lb|l r] eqn:Eb; [by eapply Hleaf|].
  destruct Hdata as (Hb & ln & rn & Hl & Hr & Hlb & Hrb & Hs).
  eapply (Hsplit f idx n l r ln rn); try done.
  - split; [done|]. by exists ln, rn.
  - lia.
  - lia.
  - apply IH; [done|lia].
  - apply IH; [done|lia].
Qed.

Lemma sorted_app (l1 l2 : list (RoutingTableNode Addr)) m :
  StronglySorted (fun x y => key x < key y) l1 -> StronglySorted (fun x y => key x < key y) l2 ->
  (forall x, x ∈ l1 -> key x < m) -> (forall x, x ∈ l2 -> m <= key x) ->
  StronglySorted (fun x y => key x < key y) (l1 ++ l2).
Proof.
  induction 1 as [|x l1 H1 IH Hx]; intros H2 Hm1 Hm2; [done|]. simpl. constructor.
  - apply IH; [done|set_solver|done].
  - apply Forall_app. split; [done|]. apply Forall_forall. intros y Hy.
    assert (key x < m) by (apply Hm1; set_solver). specialize (Hm2 y Hy). lia.
Qed.

(** The nodes of a subtree are in its range, and sorted by id. *)
Lemma nodes_from_sorted d f idx n : tree_ok d -> d !! idx = Some n -> bn_bits n < Z.of_nat f ->
  StronglySorted (fun x y => key x < key y) (nodes_from f d idx) /\
  forall x, x ∈ nodes_from f d idx -> wf_id 20 (rn_id x) /\ covers n (key x).
Proof.
  intros Hd. revert f idx n.
  apply (subtree_ind d (fun f idx n =>
    StronglySorted (fun x y => key x < key y) (nodes_from f d idx) /\
    forall x, x ∈ nodes_from f d idx -> wf_id 20 (rn_id x) /\ covers n (key x)) Hd).
  - intros f idx n lb Hn Eb _ [Hs Hi _] _. rewrite nodes_from_eq, Hn, Eb. split; [done|].
    by rewrite Forall_forall in Hi.
  - intros f idx n l r ln rn Hn Eb _ Hh Hl Hr _ _ [Hsl Hil] [Hsr Hir].
    rewrite nodes_from_eq, Hn, Eb. split.
    + apply (sorted_app _ _ (to_Z (bn_start rn))); [done..| |].
      * intros x Hx. destruct (Hil x Hx) as [_ Hc].
        destruct Hh as (Hb & ln' & rn' & Hl' & Hr' & Hlb & Hrb & Hls & Hrs). simplify_eq.
        unfold covers in Hc. rewrite Hlb in Hc. lia.
      * intros x Hx. destruct (Hir x Hx) as [_ Hc]. unfold covers in Hc. lia.
    + intros x. rewrite elem_of_app. destruct (halves_covers d n l r ln rn (key x) Hh Hl Hr) as [Hc _].
      intros [[? ?]%Hil|[? ?]%Hir]; split; tauto.
Qed.

(** ** Finding the bucket of an id *)

Lemma in_left_iff n id : geometry n -> wf_id 20 id ->
  id_leb (bn_start n) id && id_leb id (bn_end_inclusive n) = true <-> covers n (to_Z id).
Proof.
  intros [_ Hs He _ Hl] Hid. rewrite !(id_leb_to_Z 20) by done.
  rewrite andb_true_iff, !Z.leb_le. unfold covers. lia.
Qed.

Lemma in_left_false n id : geometry n -> wf_id 20 id -> ~ covers n (to_Z id) ->
  id_leb (bn_start n) id && id_leb id (bn_end_inclusive n) = false.
Proof. intros Hg Hid Hc. apply not_true_iff_false. by rewrite in_left_iff. Qed.

(** The walk from [idx] takes the half that covers the id. *)
Lemma get_leaf_step d f idx n l r ln id : tree_ok d -> d !! idx = Some n ->
  bn_data n = LeftRight l r -> d !! l = Some ln -> wf_id 20 id ->
  (covers ln (to_Z id) -> get_leaf_loop (S f) d id idx = get_leaf_loop f d id l) /\
  (~ covers ln (to_Z id) -> get_leaf_loop (S f) d id idx = get_leaf_loop f d id r).
Proof.
  intros Hd Hn Eb Hl Hid. cbn [get_leaf_loop]. rewrite Hn. rsimpl. rewrite Eb, Hl. rsimpl.
  destruct (tree_ok_node d l ln Hd Hl) as [Hg _].
  split; intros Hc; [by rewrite (proj2 (in_left_iff ln id Hg Hid))|by rewrite in_left_false].
Qed.

Lemma get_leaf_loop_spec d f idx n id : tree_ok d -> d !! idx = Some n -> bn_bits n < Z.of_nat f ->
  wf_id 20 id -> covers n (to_Z id) ->
  exists j m lb, get_leaf_loop f d id idx = Done j /\ d !! j = Some m /\ bn_data m = Leaf lb /\
    covers m (to_Z id).
Proof.
  intros Hd Hn Hf Hid. revert f idx n Hn Hf.
  apply (subtree_ind d (fun f idx n => covers n (to_Z id) ->
    exists j m lb, get_leaf_loop f d id idx = Done j /\ d !! j = Some m /\ bn_data m = Leaf lb /\
    covers m (to_Z id)) Hd).
  - intros f idx n lb Hn Eb _ _ _ Hc. exists idx, n, lb. cbn [get_leaf_loop]. rewrite Hn. rsimpl.
    by rewrite Eb.
  - intros f idx n l r ln rn Hn Eb _ Hh Hl Hr Hfl Hfr IHl IHr Hc.
    destruct (get_leaf_step d f idx n l r ln id Hd Hn Eb Hl Hid) as [Hgl Hgr].
    destruct (halves_covers d n l r ln rn (to_Z id) Hh Hl Hr) as [Hcov _].
    destruct (decide (to_Z (bn_start ln) <= to_Z id < to_Z (bn_start ln) + 2 ^ bn_bits ln)) as [Hin|Hin].
    + rewrite (Hgl Hin). by apply IHl.
    + rewrite (Hgr Hin). apply IHr. unfold covers in *. tauto.
Qed.

(** A node is in a subtree iff the walk for its id finds it in a bucket. *)
Lemma nodes_from_iff d f idx n x : tree_ok d -> d !! idx = Some n -> bn_bits n < Z.of_nat f ->
  wf_id 20 (rn_id x) -> covers n (key x) ->
  x ∈ nodes_from f d idx <-> exists j, get_leaf_loop f d (rn_id x) idx = Done j /\ x ∈ bucket_of d j.
Proof.
  intros Hd Hn Hf Hid. revert f idx n Hn Hf.
  apply (subtree_ind d (fun f idx n => covers n (key x) -> x ∈ nodes_from f d idx <->
    exists j, get_leaf_loop f d (rn_id x) idx = Done j /\ x ∈ bucket_of d j) Hd).
  - intros f idx n lb Hn Eb _ _ _ Hc. rewrite nodes_from_eq, Hn, Eb. cbn [get_leaf_loop].
    rewrite Hn. rsimpl. rewrite Eb. unfold bucket_of. split.
    + intros Hx. exists idx. by rewrite Hn, Eb.
    + intros (j & [= <-] & Hx). by rewrite Hn, Eb in Hx.
  - intros f idx n l r ln rn Hn Eb _ Hh Hl Hr Hfl Hfr IHl IHr Hc.
    rewrite nodes_from_eq, Hn, Eb, elem_of_app.
    destruct (get_leaf_step d f idx n l r ln (rn_id x) Hd Hn Eb Hl Hid) as [Hgl Hgr].
    destruct (halves_covers d n l r ln rn (key x) Hh Hl Hr) as [Hcov Hdis].
    destruct (nodes_from_sorted d f l ln Hd Hl Hfl) as [_ Hinl].
    destruct (nodes_from_sorted d f r rn Hd Hr Hfr) as [_ Hinr].
    destruct (decide (to_Z (bn_start ln) <= key x < to_Z (bn_start ln) + 2 ^ bn_bits ln))
      as [Hin|Hin]; fold (covers ln (key x)) in Hin.
    + rewrite (Hgl Hin), <- IHl by done. split; [|tauto]. intros [?|[_ Hc']%Hinr]; tauto.
    + rewrite (Hgr Hin), <- IHr by tauto.
      split; [|tauto]. intros [[_ Hc']%Hinl|?]; tauto.
Qed.

Lemma walk_fuel_root n : bn_bits n = 160 -> bn_bits n < Z.of_nat WALK_FUEL.
Proof. intros ->. reflexivity. Qed.

(** The nodes of the table are those the walk finds, sorted by id. *)
Lemma root_covers d z : tree_ok d -> 0 <= z < 2 ^ 160 ->
  exists n, d !! 0%nat = Some n /\ bn_bits n = 160 /\ covers n z.
Proof.
  intros Hd Hz. destruct (tree_root d Hd) as (n & Hn & Hb & Hs). exists n. split_and!; [done..|].
  unfold covers. rewrite Hb, Hs. lia.
Qed.

Lemma id_bound id : wf_id 20 id -> 0 <= to_Z id < 2 ^ 160.
Proof. intros Hx. pose proof (to_Z_bound 20 _ Hx) as Hb. exact Hb. Qed.

Lemma key_bound x : wf_id 20 (rn_id x) -> 0 <= key x < 2 ^ 160.
Proof. apply id_bound. Qed.

Lemma elem_of_nodes t x : tree_ok (bt_data t) -> wf_id 20 (rn_id x) ->
  x ∈ nodes t <-> exists j, get_leaf t (rn_id x) = Done j /\ x ∈ bucket_of (bt_data t) j.
Proof.
  intros Hd Hx. destruct (root_covers _ (key x) Hd (key_bound x Hx)) as (n & Hn & Hb & Hc).
  unfold nodes, get_leaf. exact (nodes_from_iff _ WALK_FUEL 0 n x Hd Hn (walk_fuel_root n Hb) Hx Hc).
Qed.

Lemma nodes_sorted t : tree_ok (bt_data t) ->
  StronglySorted (fun x y => key x < key y) (nodes t) /\
  forall x, x ∈ nodes t -> wf_id 20 (rn_id x).
Proof.
  intros Hd. destruct (tree_root _ Hd) as (n & Hn & Hb & Hs).
  destruct (nodes_from_sorted (bt_data t) WALK_FUEL 0 n Hd Hn (walk_fuel_root n Hb)) as [H1 H2].
  unfold nodes. split; [exact H1|]. intros x Hx. exact (proj1 (H2 x Hx)).
Qed.

Lemma get_leaf_spec t id : tree_ok (bt_data t) -> wf_id 20 id ->
  exists j m lb, get_leaf t id = Done j /\ bt_data t !! j = Some m /\ bn_data m = Leaf lb /\
    covers m (to_Z id).
Proof.
  intros Hd Hid. destruct (root_covers _ (to_Z id) Hd (id_bound _ Hid)) as (n & Hn & Hb & Hc).
  unfold get_leaf. exact (get_leaf_loop_spec _ WALK_FUEL 0 n id Hd Hn (walk_fuel_root n Hb) Hid Hc).
Qed.

(** ** Changing the bucket of a leaf *)

Definition set_leaf d (i : nat) n (lb : LeafBucket Addr) : list (BucketTreeNode Addr) :=
  <[i := with_data n (Leaf lb)]> d.

Lemma set_leaf_lookup d i n lb j m : d !! i = Some n ->
  set_leaf d i n lb !! j = Some m ->
  exists m', d !! j = Some m' /\ bn_bits m = bn_bits m' /\ bn_start m = bn_start m' /\
    bn_end_inclusive m = bn_end_inclusive m' /\
    (j <> i -> bn_data m = bn_data m') /\ (j = i -> bn_data m = Leaf lb).
Proof.
  intros Hi Hj. unfold set_leaf in Hj. destruct (decide (j = i)) as [->|Hne].
  - rewrite list_lookup_insert_eq in Hj by (by eapply lookup_lt_Some). injection Hj as <-.
    exists n. by split_and!.
  - rewrite list_lookup_insert_ne in Hj by done. exists m. by split_and!.
Qed.

Lemma set_leaf_same d i n lb j m : d !! i = Some n -> d !! j = Some m ->
  exists m', set_leaf d i n lb !! j = Some m' /\ bn_bits m' = bn_bits m /\
    bn_start m' = bn_start m /\ bn_end_inclusive m' = bn_end_inclusive m.
Proof.
  intros Hi Hj. unfold set_leaf. destruct (decide (j = i)) as [->|Hne].
  - rewrite list_lookup_insert_eq by (by eapply lookup_lt_Some). simplify_eq. by eexists.
  - rewrite list_lookup_insert_ne by done. by exists m.
Qed.

Lemma set_leaf_ok d i n lb0 lb : tree_ok d -> d !! i = Some n -> bn_data n = Leaf lb0 ->
  bucket_ok n lb -> tree_ok (set_leaf d i n lb).
Proof.
  intros Hd Hi Eb Hlb. constructor.
  - intros j m Hm. destruct (set_leaf_lookup d i n lb j m Hi Hm) as (m' & Hm' & Hb & Hs & He & Hne & Heq).
    destruct (tree_ok_node d j m' Hd Hm') as [[G1 G2 G3 G4 G5] Hdata].
    split; [constructor; rewrite ?Hb, ?Hs, ?He; done|].
    unfold data_ok in *. destruct (decide (j = i)) as [->|Hji].
    + rewrite (Heq eq_refl). simplify_eq. destruct Hlb as [L1 L2 L3]. constructor; [done| |done].
      unfold covers in *. by rewrite Hb, Hs.
    + rewrite (Hne Hji). destruct (bn_data m') as [lb'|l r].
      * destruct Hdata as [L1 L2 L3]. constructor; [done| |done]. unfold covers in *. by rewrite Hb, Hs.
      * destruct Hdata as (Hb1 & ln & rn & Hl & Hr & Hlb' & Hrb' & Hls & Hrs).
        destruct (set_leaf_same d i n lb l ln Hi Hl) as (ln' & ? & Hx1 & Hx2 & _).
        destruct (set_leaf_same d i n lb r rn Hi Hr) as (rn' & ? & Hy1 & Hy2 & _).
        split; [lia|]. exists ln', rn'. rewrite Hx1, Hx2, Hy1, Hy2, Hb, Hs. by split_and!.
  - destruct (tree_root d Hd) as (m & Hm & Hb & Hs).
    destruct (set_leaf_same d i n lb 0%nat m Hi Hm) as (m' & ? & Hx1 & Hx2 & _).
    exists m'. by rewrite Hx1, Hx2.
Qed.

Lemma set_leaf_walk d i n lb0 lb f idx id : d !! i = Some n -> bn_data n = Leaf lb0 ->
  get_leaf_loop f (set_leaf d i n lb) id idx = get_leaf_loop f d id idx.
Proof.
  intros Hi Eb. revert idx. induction f as [|f IH]; intros idx; [done|]. cbn [get_leaf_loop].
  unfold set_leaf. destruct (decide (idx = i)) as [->|Hne].
  - rewrite list_lookup_insert_eq by (by eapply lookup_lt_Some). rewrite Hi. rsimpl.
    cbn [with_data bn_data]. by rewrite Eb.
  - rewrite list_lookup_insert_ne by done. destruct (d !! idx) as [m|]; [|done]. rsimpl.
    destruct (bn_data m) as [lb'|l r]; [done|].
    destruct (d !! l) as [ln|] eqn:El.
    + destruct (set_leaf_same d i n lb l ln Hi El) as (ln' & Hl' & _ & Hs & He).
      unfold set_leaf in Hl'. rewrite Hl'. rsimpl. rewrite Hs, He.
      fold (set_leaf d i n lb). by rewrite !IH.
    + rewrite list_lookup_insert_ne by congruence. by rewrite El.
Qed.

Lemma bucket_set_leaf d i n lb j : d !! i = Some n ->
  bucket_of (set_leaf d i n lb) j = if decide (j = i) then lb_nodes lb else bucket_of d j.
Proof.
  intros Hi. unfold bucket_of, set_leaf. destruct (decide (j = i)) as [->|Hne].
  - by rewrite list_lookup_insert_eq by (by eapply lookup_lt_Some).
  - by rewrite list_lookup_insert_ne.
Qed.

(** ** Splitting a leaf *)

Definition split_leaf d (i : nat) n ln rn : list (BucketTreeNode Addr) :=
  <[i := with_data n (LeftRight (length d) (S (length d)))]> (d ++ [ln; rn]).

(** What the code makes of a full leaf. *)
Record split_of n (lb : LeafBucket Addr) ln rn : Prop := {
  sp_bits : 1 <= bn_bits n;
  sp_left : geometry ln;
  sp_right : geometry rn;
  sp_left_bits : bn_bits ln = bn_bits n - 1;
  sp_right_bits : bn_bits rn = bn_bits n - 1;
  sp_left_start : to_Z (bn_start ln) = to_Z (bn_start n);
  sp_right_start : to_Z (bn_start rn) = to_Z (bn_start n) + 2 ^ (bn_bits n - 1);
  sp_left_data : exists c, bn_data ln = Leaf (mkLeafBucket
    (List.filter (fun x => id_ltb (rn_id x) (bn_start rn)) (lb_nodes lb)) c);
  sp_right_data : exists c, bn_data rn = Leaf (mkLeafBucket
    (List.filter (fun x => negb (id_ltb (rn_id x) (bn_start rn))) (lb_nodes lb)) c);
}.

Lemma split_lookup_old d i n ln rn j : i <> j -> (j < length d)%nat ->
  split_leaf d i n ln rn !! j = d !! j.
Proof.
  intros Hne Hj. unfold split_leaf. rewrite list_lookup_insert_ne by done.
  by rewrite lookup_app_l.
Qed.

Lemma split_lookup_self d i n ln rn : (i < length d)%nat ->
  split_leaf d i n ln rn !! i = Some (with_data n (LeftRight (length d) (S (length d)))).
Proof.
  intros Hi. unfold split_leaf. rewrite list_lookup_insert_eq; [done|]. rewrite length_app. simpl. lia.
Qed.

Lemma split_lookup_new d i n ln rn : (i < length d)%nat ->
  split_leaf d i n ln rn !! length d = Some ln /\
  split_leaf d i n ln rn !! S (length d) = Some rn.
Proof.
  intros Hi. unfold split_leaf. rewrite !list_lookup_insert_ne by lia.
  rewrite !lookup_app_r by lia. rewrite Nat.sub_diag.
  replace (S (length d) - length d)%nat with 1%nat by lia. done.
Qed.

Lemma split_lookup_inv d i n ln rn j m : (i < length d)%nat ->
  split_leaf d i n ln rn !! j = Some m ->
  (j = i /\ m = with_data n (LeftRight (length d) (S (length d)))) \/
  (j <> i /\ d !! j = Some m) \/ (j = length d /\ m = ln) \/ (j = S (length d) /\ m = rn).
Proof.
  intros Hi Hj. destruct (decide (j = i)) as [->|Hne].
  { rewrite split_lookup_self in Hj by done. injection Hj as <-. by left. }
  destruct (decide (j < length d)%nat).
  { rewrite split_lookup_old in Hj by done. right. by left. }
  pose proof (lookup_lt_Some _ _ _ Hj) as Hlt. unfold split_leaf in Hlt.
  rewrite length_insert, length_app in Hlt. simpl in Hlt.
  destruct (split_lookup_new d i n ln rn Hi) as [Hl Hr].
  destruct (decide (j = length d)) as [->|]; [|assert (j = S (length d)) as -> by lia];
    simplify_eq; auto.
Qed.

Lemma sorted_filter (f : RoutingTableNode Addr -> bool) l :
  StronglySorted (fun x y => key x < key y) l ->
  StronglySorted (fun x y => key x < key y) (List.filter f l).
Proof.
  induction 1 as [|x l Hl IH Hx]; [constructor|]. simpl. destruct (f x); [|done].
  constructor; [done|]. rewrite Forall_forall in *. intros y Hy. apply Hx.
  apply list_elem_of_In, filter_In in Hy as [Hy _]. by apply list_elem_of_In.
Qed.

(** A sorted bucket falls in two at any id. *)
Lemma sorted_partition s (l : list (RoutingTableNode Addr)) : wf_id 20 s ->
  Forall (fun x => wf_id 20 (rn_id x)) l -> StronglySorted (fun x y => key x < key y) l ->
  List.filter (fun x => id_ltb (rn_id x) s) l ++
  List.filter (fun x => negb (id_ltb (rn_id x) s)) l = l.
Proof.
  intros Hs. induction l as [|x l IH]; intros Hw Hsort; [done|].
  apply Forall_cons in Hw as [Hx Hw]. inversion Hsort as [|? ? Hsl Hlt]; subst. simpl.
  destruct (id_ltb (rn_id x) s) eqn:E; simpl; [by rewrite IH|].
  assert (Hnone : List.filter (fun x => id_ltb (rn_id x) s) l = []).
  { destruct (List.filter _ l) as [|y l'] eqn:Ef; [done|].
    assert (Hy : y ∈ List.filter (fun x => id_ltb (rn_id x) s) l) by (rewrite Ef; set_solver).
    apply list_elem_of_In, filter_In in Hy as [Hy Ey]. apply list_elem_of_In in Hy.
    rewrite Forall_forall in Hlt, Hw. specialize (Hlt y Hy). simpl in Hlt. unfold key in Hlt.
    rewrite (id_ltb_to_Z 20) in E, Ey by (done || by apply Hw).
    apply Z.ltb_ge in E. apply Z.ltb_lt in Ey. lia. }
  rewrite Hnone. simpl. f_equal. rewrite <- (IH Hw Hsl) at 2. by rewrite Hnone.
Qed.

Lemma split_bucket_ok n lb ln rn : geometry n -> bucket_ok n lb -> split_of n lb ln rn ->
  (exists lb', bn_data ln = Leaf lb' /\ bucket_ok ln lb') /\
  (exists lb', bn_data rn = Leaf lb' /\ bucket_ok rn lb').
Proof.
  intros Hg [Hs Hi Hz] [Hb Hl Hr Hlb Hrb Hls Hrs [c Hld] [c' Hrd]].
  assert (Hp : 2 ^ bn_bits n = 2 * 2 ^ (bn_bits n - 1)).
  { rewrite <- Z.pow_succ_r by lia. f_equal. lia. }
  pose proof (geo_start _ Hr) as Hw. rewrite Forall_forall in Hi.
  assert (Hlen : forall f, (length (List.filter f (lb_nodes lb)) <= 8)%nat).
  { intros f. pose proof (filter_length_le f (lb_nodes lb)). lia. }
  split; [exists (mkLeafBucket (List.filter (fun x => id_ltb (rn_id x) (bn_start rn)) (lb_nodes lb)) c)
         |exists (mkLeafBucket (List.filter (fun x => negb (id_ltb (rn_id x) (bn_start rn))) (lb_nodes lb)) c')];
    (split; [done|]); (constructor; [by apply sorted_filter| |apply Hlen]); cbn [lb_nodes];
    apply Forall_forall; intros x Hx; apply list_elem_of_In, filter_In in Hx as [Hx Ex];
    apply list_elem_of_In, Hi in Hx as [Hxw Hxc]; (split; [done|]);
    rewrite (id_ltb_to_Z 20) in Ex by done; unfold covers, key in *.
  - rewrite Hlb, Hls. apply Z.ltb_lt in Ex. lia.
  - rewrite Hrb, Hrs. apply negb_true_iff, Z.ltb_ge in Ex. lia.
Qed.

Lemma split_ok d i n lb ln rn : tree_ok d -> d !! i = Some n -> bn_data n = Leaf lb ->
  split_of n lb ln rn -> tree_ok (split_leaf d i n ln rn).
Proof.
  intros Hd Hi Eb Hsp. pose proof (lookup_lt_Some _ _ _ Hi) as Hlt.
  destruct (tree_ok_node d i n Hd Hi) as [Hg Hdata]. unfold data_ok in Hdata. rewrite Eb in Hdata.
  destruct (split_bucket_ok n lb ln rn Hg Hdata Hsp) as [(lbl & Hlbl & Hokl) (lbr & Hlbr & Hokr)].
  destruct (split_lookup_new d i n ln rn Hlt) as [Hl Hr].
  assert (Hold : forall j m, d !! j = Some m -> exists m', split_leaf d i n ln rn !! j = Some m' /\
    bn_bits m' = bn_bits m /\ bn_start m' = bn_start m).
  { intros j m Hj. destruct (decide (j = i)) as [->|].
    - eexists. rewrite split_lookup_self by done. simplify_eq. by split_and!.
    - exists m. rewrite split_lookup_old; [done..|by eapply lookup_lt_Some]. }
  constructor.
  - intros j m Hm. apply split_lookup_inv in Hm as [[-> ->]|[[Hne Hm]|[[-> ->]|[-> ->]]]]; [..|done].
    + split; [by destruct Hg|]. unfold data_ok. cbn [with_data bn_data].
      split; [apply Hsp|]. exists ln, rn. destruct Hsp. by split_and!.
    + destruct (tree_ok_node d j m Hd Hm) as [Hgm Hdm]. split; [done|]. unfold data_ok in *.
      destruct (bn_data m) as [|l r]; [done|].
      destruct Hdm as (Hb1 & lm & rm & Hlm & Hrm & ? & ? & ? & ?).
      destruct (Hold l lm Hlm) as (lm' & ? & Hx1 & Hx2). destruct (Hold r rm Hrm) as (rm' & ? & Hy1 & Hy2).
      split; [done|]. exists lm', rm'. rewrite Hx1, Hx2, Hy1, Hy2. by split_and!.
    + split; [apply Hsp|]. unfold data_ok. by rewrite Hlbl.
    + split; [apply Hsp|]. unfold data_ok. by rewrite Hlbr.
  - destruct (tree_root d Hd) as (m & Hm & Hb & Hs).
    destruct (Hold 0%nat m Hm) as (m' & ? & Hx1 & Hx2). exists m'. by rewrite Hx1, Hx2.
Qed.

(** A split does not change the nodes of any subtree. *)
Lemma split_nodes d i n lb ln rn : tree_ok d -> d !! i = Some n -> bn_data n = Leaf lb ->
  split_of n lb ln rn -> forall f idx m, d !! idx = Some m -> bn_bits m < Z.of_nat f ->
  nodes_from f (split_leaf d i n ln rn) idx = nodes_from f d idx.
Proof.
  intros Hd Hi Eb Hsp. pose proof (lookup_lt_Some _ _ _ Hi) as Hlt.
  destruct (split_lookup_new d i n ln rn Hlt) as [Hl Hr].
  apply (subtree_ind d (fun f idx m =>
    nodes_from f (split_leaf d i n ln rn) idx = nodes_from f d idx) Hd).
  - intros f idx m lbm Hm Ebm _ [Hs Hids _] Hf. rewrite !nodes_from_eq, Hm, Ebm.
    destruct (decide (idx = i)) as [->|Hne].
    2: { rewrite split_lookup_old by (done || by eapply lookup_lt_Some). by rewrite Hm, Ebm. }
    rewrite split_lookup_self by done. simplify_eq. assert (lbm = lb) as -> by congruence.
    cbn [with_data bn_data]. destruct Hsp as [Hb _ Hgr _ _ _ _ [c Hld] [c' Hrd]].
    destruct f as [|f]; [lia|]. rewrite !nodes_from_eq, Hl, Hr, Hld, Hrd. cbn [lb_nodes].
    apply sorted_partition; [by destruct Hgr| |done].
    eapply Forall_impl; [exact Hids|]. by intros x [? _].
  - intros f idx m l r lm rm Hm Ebm _ _ Hlm Hrm _ _ IHl IHr. rewrite !nodes_from_eq, Hm, Ebm.
    assert (Hne : i <> idx) by (intros ->; congruence).
    rewrite split_lookup_old by (done || by eapply lookup_lt_Some). by rewrite Hm, Ebm, IHl, IHr.
Qed.

(** A walk that ended in the split leaf ends in one of its halves. *)
Lemma split_walk d i n lb ln rn id : tree_ok d -> d !! i = Some n -> bn_data n = Leaf lb ->
  split_of n lb ln rn -> wf_id 20 id -> forall f idx m, d !! idx = Some m -> bn_bits m < Z.of_nat f ->
  get_leaf_loop f d id idx = Done i -> covers n (to_Z id) ->
  get_leaf_loop f (split_leaf d i n ln rn) id idx =
  Done (if id_ltb id (bn_start rn) then length d else S (length d)).
Proof.
  intros Hd Hi Eb Hsp Hid. pose proof (lookup_lt_Some _ _ _ Hi) as Hlt.
  destruct (split_lookup_new d i n ln rn Hlt) as [Hl Hr].
  apply (subtree_ind d (fun f idx m => get_leaf_loop f d id idx = Done i -> covers n (to_Z id) ->
    get_leaf_loop f (split_leaf d i n ln rn) id idx =
    Done (if id_ltb id (bn_start rn) then length d else S (length d))) Hd).
  - intros f idx m lbm Hm Ebm _ _ Hf Hw Hc. cbn [get_leaf_loop] in *. rewrite Hm in Hw.
    cbn [unwrap outcome_bind] in Hw. rewrite Ebm in Hw. injection Hw as ->. simplify_eq.
    rewrite split_lookup_self by done. rsimpl. cbn [with_data bn_data]. rewrite Hl. rsimpl.
    destruct Hsp as [Hb Hgl Hgr Hlb Hrb Hls Hrs [c Hld] [c' Hrd]].
    destruct f as [|f]; [lia|]. cbn [get_leaf_loop]. rewrite Hl, Hr. rsimpl. rewrite Hld, Hrd.
    rewrite (id_ltb_to_Z 20) by (done || apply Hgr). rewrite Hrs.
    destruct (Z.ltb_spec (to_Z id) (to_Z (bn_start n) + 2 ^ (bn_bits n - 1))).
    + rewrite (proj2 (in_left_iff ln id Hgl Hid)); [done|].
      unfold covers in *. rewrite Hlb, Hls. lia.
    + rewrite in_left_false; [done..|]. unfold covers. rewrite Hlb, Hls. lia.
  - intros f idx m l r lm rm Hm Ebm _ _ Hlm Hrm _ _ IHl IHr Hw Hc.
    assert (Hne : i <> idx) by (intros ->; congruence).
    cbn [get_leaf_loop] in *. rewrite Hm in Hw.
    rewrite split_lookup_old by (done || by eapply lookup_lt_Some). rewrite Hm. revert Hw. rsimpl.
    rewrite Ebm, Hlm. rsimpl.
    assert (Hlm' : exists lm', split_leaf d i n ln rn !! l = Some lm' /\ bn_start lm' = bn_start lm /\
      bn_end_inclusive lm' = bn_end_inclusive lm).
    { destruct (decide (i = l)) as [<-|].
      - rewrite split_lookup_self by done. eexists. simplify_eq. by split_and!.
      - rewrite split_lookup_old by (done || by eapply lookup_lt_Some). by exists lm. }
    destruct Hlm' as (lm' & -> & Hs & He). rsimpl. rewrite Hs, He.
    destruct (id_leb _ _ && _); auto.
Qed.

(** All the ids a leaf covers are walked to it. *)
Lemma walk_covers d i n id : tree_ok d -> d !! i = Some n -> wf_id 20 id ->
  forall f idx m, d !! idx = Some m -> bn_bits m < Z.of_nat f -> covers m (to_Z id) ->
  get_leaf_loop f d id idx = Done i ->
  (forall z, covers n z -> covers m z) /\
  (forall id', wf_id 20 id' -> covers n (to_Z id') -> get_leaf_loop f d id' idx = Done i).
Proof.
  intros Hd Hi Hid.
  apply (subtree_ind d (fun f idx m => covers m (to_Z id) -> get_leaf_loop f d id idx = Done i ->
    (forall z, covers n z -> covers m z) /\
    (forall id', wf_id 20 id' -> covers n (to_Z id') -> get_leaf_loop f d id' idx = Done i)) Hd).
  - intros f idx m lb Hm Ebm _ _ _ _ Hw. cbn [get_leaf_loop] in *. rewrite Hm in *.
    revert Hw. rsimpl. rewrite Ebm. intros [= ->]. simplify_eq. done.
  - intros f idx m l r lm rm Hm Ebm _ Hh Hl Hr _ _ IHl IHr Hc Hw.
    destruct (get_leaf_step d f idx m l r lm id Hd Hm Ebm Hl Hid) as [Hgl Hgr].
    pose proof (fun z => halves_covers d m l r lm rm z Hh Hl Hr) as Hcov.
    destruct (decide (to_Z (bn_start lm) <= to_Z id < to_Z (bn_start lm) + 2 ^ bn_bits lm)) as [Hin|Hin];
      fold (covers lm (to_Z id)) in Hin.
    + rewrite (Hgl Hin) in Hw. destruct (IHl Hin Hw) as [Hsub Hall]. split.
      * intros z Hz. apply Hcov. left. by apply Hsub.
      * intros id' Hid' Hc'. destruct (get_leaf_step d f idx m l r lm id' Hd Hm Ebm Hl Hid') as [Hgl' _].
        rewrite Hgl' by (by apply Hsub). by apply Hall.
    + rewrite (Hgr Hin) in Hw. assert (Hinr : covers rm (to_Z id)) by (apply Hcov in Hc; tauto).
      destruct (IHr Hinr Hw) as [Hsub Hall]. split.
      * intros z Hz. apply Hcov. right. by apply Hsub.
      * intros id' Hid' Hc'. destruct (get_leaf_step d f idx m l r lm id' Hd Hm Ebm Hl Hid') as [_ Hgr'].
        rewrite Hgr'; [by apply Hall|]. intros Hl'. apply (Hcov (to_Z id')).
        split; [done|by apply Hsub].
Qed.

Lemma leaf_walk t i n id id' : tree_ok (bt_data t) -> bt_data t !! i = Some n -> wf_id 20 id ->
  get_leaf t id = Done i -> wf_id 20 id' -> covers n (to_Z id') -> get_leaf t id' = Done i.
Proof.
  intros Hd Hi Hid Hw Hid' Hc. unfold get_leaf in *.
  destruct (root_covers _ (to_Z id) Hd (id_bound _ Hid)) as (m & Hm & Hb & Hcm).
  destruct (walk_covers (bt_data t) i n id Hd Hi Hid WALK_FUEL 0%nat m Hm (walk_fuel_root m Hb) Hcm Hw)
    as [_ Hall]. exact (Hall id' Hid' Hc).
Qed.

(** The nodes after a bucket that a walk reaches got new contents. *)
Lemma set_leaf_nodes t i n lb0 lb id x : tree_ok (bt_data t) -> bt_data t !! i = Some n ->
  bn_data n = Leaf lb0 -> bucket_ok n lb -> wf_id 20 id -> get_leaf t id = Done i ->
  x ∈ nodes (with_tree_data t (set_leaf (bt_data t) i n lb)) <->
  x ∈ lb_nodes lb \/ x ∈ nodes t /\ get_leaf t (rn_id x) <> Done i.
Proof.
  intros Hd Hi Eb Hlb Hid Hw.
  pose proof (set_leaf_ok _ i n lb0 lb Hd Hi Eb Hlb) as Hd'.
  set (t' := with_tree_data t (set_leaf (bt_data t) i n lb)).
  assert (Hlbw : forall y, y ∈ lb_nodes lb -> wf_id 20 (rn_id y) /\ get_leaf t (rn_id y) = Done i).
  { intros y Hy. destruct Hlb as [_ Hids _]. rewrite Forall_forall in Hids.
    destruct (Hids y Hy) as [Hyw Hyc]. split; [done|]. by eapply (leaf_walk t i n id). }
  assert (Hmain : forall y, wf_id 20 (rn_id y) -> y ∈ nodes t' <->
    y ∈ lb_nodes lb \/ y ∈ nodes t /\ get_leaf t (rn_id y) <> Done i).
  { intros y Hy. rewrite (elem_of_nodes t' y Hd' Hy), (elem_of_nodes t y Hd Hy).
    assert (Hwalk : get_leaf t' (rn_id y) = get_leaf t (rn_id y)).
    { unfold get_leaf. cbn [t' with_tree_data bt_data]. by eapply set_leaf_walk. }
    cbn [t' with_tree_data bt_data]. fold t'. rewrite Hwalk.
    destruct (get_leaf_spec t (rn_id y) Hd Hy) as (j & m & lbm & Hj & Hm & Ebm & Hc).
    rewrite Hj. split.
    - intros (k & [= <-] & Hk). rewrite (bucket_set_leaf _ i n lb j Hi) in Hk.
      destruct (decide (j = i)) as [->|Hne]; [by left|right].
      split; [by exists j|congruence].
    - intros [Hin|[(k & [= <-] & Hk) Hnot]].
      + destruct (Hlbw y Hin) as [_ Hyj]. assert (j = i) as -> by congruence.
        exists i. split; [done|]. rewrite (bucket_set_leaf _ i n lb i Hi). by case_decide.
      + exists j. split; [done|]. rewrite (bucket_set_leaf _ i n lb j Hi).
        destruct (decide (j = i)) as [->|]; done. }
  split.
  - intros Hx. apply Hmain; [|done]. by apply (nodes_sorted t' Hd').
  - intros Hx. apply Hmain; [|done]. destruct Hx as [Hx|[Hx _]]; [by apply Hlbw|].
    by apply (nodes_sorted t Hd).
Qed.

(** ** Inserting a node *)

Lemma sorted_length (l : list (RoutingTableNode Addr)) a b :
  StronglySorted (fun x y => key x < key y) l -> (forall x, x ∈ l -> a <= key x < b) -> a <= b ->
  Z.of_nat (length l) <= b - a.
Proof.
  intros Hs. revert a. induction Hs as [|x l Hl IH Hx]; intros a Hin Hab; [simpl; lia|].
  assert (Hxin : a <= key x < b) by (apply Hin; set_solver). rewrite Forall_forall in Hx.
  assert (Hrec : Z.of_nat (length l) <= b - (key x + 1)).
  { apply IH; [|lia]. intros y Hy. specialize (Hx y Hy). simpl in Hx.
    assert (a <= key y < b) by (apply Hin; set_solver). lia. }
  simpl length. lia.
Qed.

(** A full leaf has at least one bit to split on. *)
Lemma full_leaf_bits n lb : geometry n -> bucket_ok n lb -> (8 <= length (lb_nodes lb))%nat ->
  1 <= bn_bits n.
Proof.
  intros [Hb _ _ _ _] [Hs Hi _] Hlen. rewrite Forall_forall in Hi.
  assert (Hl : Z.of_nat (length (lb_nodes lb)) <=
               to_Z (bn_start n) + 2 ^ bn_bits n - to_Z (bn_start n)).
  { apply sorted_length; [done| |]; [intros x Hx; by apply Hi|].
    pose proof (Z.pow_pos_nonneg 2 (bn_bits n)). lia. }
  destruct (decide (bn_bits n = 0)) as [H0|]; [|lia]. rewrite H0 in Hl. simpl in Hl. lia.
Qed.

Lemma compute_split_spec n : geometry n -> 1 <= bn_bits n ->
  exists le rs, compute_split_start_end (bn_start n) (bn_end_inclusive n) (bn_bits n) =
    Done ((bn_start n, le), (rs, bn_end_inclusive n)) /\ wf_id 20 le /\ wf_id 20 rs /\
    to_Z le = to_Z (bn_start n) + 2 ^ (bn_bits n - 1) - 1 /\
    to_Z rs = to_Z (bn_start n) + 2 ^ (bn_bits n - 1).
Proof.
  intros [Hb Hs He Ha Hl] H1. unfold compute_split_start_end.
  rewrite (Z.mod_small (160 - bn_bits n)) by lia.
  assert (Hp : 2 ^ bn_bits n = 2 * 2 ^ (bn_bits n - 1)).
  { rewrite <- Z.pow_succ_r by lia. f_equal. lia. }
  pose proof (Z.pow_pos_nonneg 2 (bn_bits n - 1)).
  assert (Hq : to_Z (bn_start n) = to_Z (bn_start n) / 2 ^ bn_bits n * 2 ^ bn_bits n + 0).
  { pose proof (Z.div_mod (to_Z (bn_start n)) (2 ^ bn_bits n)). lia. }
  set (q := to_Z (bn_start n) / 2 ^ bn_bits n) in *.
  assert (Hbit : 8 * Z.of_nat 20 - 1 - (160 - bn_bits n) = bn_bits n - 1) by lia.
  destruct (set_bit_false 20 (bn_end_inclusive n) (160 - bn_bits n) He) as (le & -> & Hwl & Hle); [lia| |].
  { rewrite Hbit, Hl, Hq. replace (q * 2 ^ bn_bits n + 0 + 2 ^ bn_bits n - 1)
      with (q * 2 ^ bn_bits n + (2 ^ bn_bits n - 1)) by lia.
    rewrite testbit_split by lia. destruct (Z.ltb_spec (bn_bits n - 1) (bn_bits n)); [|lia].
    replace (2 ^ bn_bits n - 1) with (Z.ones (bn_bits n)) by (rewrite Z.ones_equiv; lia).
    apply Z.ones_spec_low. lia. }
  destruct (set_bit_true 20 (bn_start n) (160 - bn_bits n) Hs) as (rs & -> & Hwr & Hrs); [lia| |].
  { rewrite Hbit, Hq. rewrite testbit_split by lia.
    destruct (Z.ltb_spec (bn_bits n - 1) (bn_bits n)); [apply Z.bits_0|lia]. }
  rsimpl. exists le, rs. rewrite Hbit in *. split_and!; [done..|lia|lia].
Qed.

(** The invariant of a table: the shape, and the size in sync with the nodes. *)
Record tree_inv t : Prop := {
  inv_tree : tree_ok (bt_data t);
  inv_size : bt_size t = Z.of_nat (length (nodes t));
  inv_max : bt_size t <= bt_max_size t < U64;
}.

Definition new_node (id : Id) (addr : Addr) : RoutingTableNode Addr := mkNode id addr None None None 0.

(** What the result of an insertion says of the nodes. *)
Definition insert_effect (now : Z) t (id : Id) (addr : Addr) (r : InsertResult Addr) t' : Prop :=
  match r with
  | WasExisting => (exists x, x ∈ nodes t /\ rn_id x = id) /\ nodes t' = nodes t
  | Added => (forall x, x ∈ nodes t -> rn_id x <> id) /\ nodes t' ≡ₚ new_node id addr :: nodes t
  | ReplacedBad old => (forall x, x ∈ nodes t -> rn_id x <> id) /\
      old ∈ nodes t /\ status old now = Bad /\ old :: nodes t' ≡ₚ new_node id addr :: nodes t
  | Ignored => (forall x, x ∈ nodes t -> rn_id x <> id) /\ nodes t' = nodes t
  end.

Lemma replace_bad_spec now x l old l' : replace_bad now x l = Some (old, l') ->
  old ∈ l /\ status old now = Bad /\ old :: l' ≡ₚ x :: l.
Proof.
  revert old l'. induction l as [|y l IH]; intros old l' Hr; cbn [replace_bad] in Hr; [done|].
  assert (Hrec : forall r, replace_bad now x l = Some r -> (old, l') = (r.1, y :: r.2) ->
    old ∈ y :: l /\ status old now = Bad /\ old :: l' ≡ₚ x :: y :: l).
  { intros [o k] Hok [= -> ->]. destruct (IH o k Hok) as (? & ? & Hp). split_and!; [set_solver|done|].
    rewrite Permutation_swap, Hp. apply Permutation_swap. }
  destruct (status y now) eqn:Ey;
    try (apply bind_Some in Hr as (r & Hr & [= Heq]); by eapply Hrec; [exact Hr|congruence]).
  injection Hr as <- <-. split_and!; [set_solver|done|]. apply Permutation_swap.
Qed.

Lemma existsb_id l id : existsb (fun r => id_eqb (rn_id r) id) l = true <->
  exists x : RoutingTableNode Addr, x ∈ l /\ rn_id x = id.
Proof.
  rewrite existsb_exists. unfold id_eqb. split.
  - intros (x & Hx & Hid%bool_decide_eq_true). exists x. by rewrite list_elem_of_In.
  - intros (x & Hx & Hid). exists x. rewrite bool_decide_eq_true. by rewrite <- list_elem_of_In.
Qed.

(** Sorting a bucket of distinct ids by id gives a bucket. *)
Lemma sort_bucket n (l : list (RoutingTableNode Addr)) c :
  Forall (fun x => wf_id 20 (rn_id x) /\ covers n (key x)) l -> NoDup (key <$> l) ->
  (length l <= 8)%nat -> bucket_ok n (mkLeafBucket (sort_by_id l) c).
Proof.
  intros Hids Hnd Hlen. pose proof (sort_by_perm (fun a b => id_leb (rn_id a) (rn_id b)) l) as Hp.
  fold (sort_by_id l) in Hp. constructor; cbn [lb_nodes].
  - assert (Hle : StronglySorted (fun a b : RoutingTableNode Addr => id_leb (rn_id a) (rn_id b) = true)
                    (sort_by_id l)).
    { apply sort_by_sorted; [intros a b; apply id_leb_total|intros a b c'; apply id_leb_trans]. }
    rewrite <- Hp in Hids, Hnd. clear Hp Hlen. induction Hle as [|x l' Hl' IH Hx]; [constructor|].
    apply Forall_cons in Hids as [[Hxw _] Hids]. rewrite fmap_cons in Hnd.
    apply NoDup_cons in Hnd as [Hnot Hnd]. constructor; [by apply IH|].
    rewrite Forall_forall in *. intros y Hy. specialize (Hx y Hy). simpl in Hx.
    destruct (Hids y Hy) as [Hyw _]. rewrite (id_leb_to_Z 20) in Hx by done. apply Z.leb_le in Hx.
    fold (key x) (key y) in Hx.
    assert (key x <> key y); [|unfold key in *; lia]. intros Heq. apply Hnot. rewrite Heq.
    apply list_elem_of_fmap. by exists y.
  - by rewrite Hp.
  - by rewrite Hp.
Qed.

Lemma NoDup_key_iff (l : list (RoutingTableNode Addr)) :
  StronglySorted (fun x y => key x < key y) l -> NoDup (key <$> l).
Proof. apply (sorted_NoDup key). Qed.

Lemma not_present_key n lb id : bucket_ok n lb -> wf_id 20 id ->
  (forall x, x ∈ lb_nodes lb -> rn_id x <> id) -> to_Z id ∉ key <$> lb_nodes lb.
Proof.
  intros [_ Hids _] Hid Hne (x & Heq & Hx)%list_elem_of_fmap. rewrite Forall_forall in Hids.
  destruct (Hids x Hx) as [Hxw _]. apply (Hne x Hx). by apply (to_Z_inj 20).
Qed.

(** The id is in the table iff it is in the bucket it is walked to. *)
Lemma present_iff t i n lb id : tree_ok (bt_data t) -> wf_id 20 id -> get_leaf t id = Done i ->
  bt_data t !! i = Some n -> bn_data n = Leaf lb ->
  (exists x, x ∈ nodes t /\ rn_id x = id) <-> exists x, x ∈ lb_nodes lb /\ rn_id x = id.
Proof.
  intros Hd Hid Hw Hi Eb.
  assert (Hbk : bucket_of (bt_data t) i = lb_nodes lb) by (unfold bucket_of; by rewrite Hi, Eb).
  split; intros (x & Hx & <-); exists x; (split; [|done]).
  - apply elem_of_nodes in Hx as (j & Hj & Hx); [|done..]. rewrite Hw in Hj. injection Hj as <-.
    by rewrite <- Hbk.
  - apply elem_of_nodes; [done..|]. exists i. by rewrite Hbk.
Qed.

Lemma nodes_NoDup t : tree_ok (bt_data t) -> NoDup (nodes t).
Proof.
  intros Hd. destruct (nodes_sorted t Hd) as [Hs _]. by apply (NoDup_fmap_1 key), NoDup_key_iff.
Qed.

(** The nodes of the table that are walked to a leaf are those of its bucket. *)
Lemma bucket_members t i n lb id y : tree_ok (bt_data t) -> wf_id 20 id -> get_leaf t id = Done i ->
  bt_data t !! i = Some n -> bn_data n = Leaf lb ->
  y ∈ lb_nodes lb <-> y ∈ nodes t /\ get_leaf t (rn_id y) = Done i.
Proof.
  intros Hd Hid Hw Hi Eb.
  assert (Hbk : bucket_of (bt_data t) i = lb_nodes lb) by (unfold bucket_of; by rewrite Hi, Eb).
  split.
  - intros Hy. destruct (tree_ok_node _ i n Hd Hi) as [_ Hdata]. unfold data_ok in Hdata.
    rewrite Eb in Hdata. destruct Hdata as [_ Hids _]. rewrite Forall_forall in Hids.
    destruct (Hids y Hy) as [Hyw Hyc]. pose proof (leaf_walk t i n id _ Hd Hi Hid Hw Hyw Hyc) as Hwy.
    split; [|done]. apply elem_of_nodes; [done..|]. exists i. by rewrite Hbk.
  - intros [Hy Hwy]. apply elem_of_nodes in Hy as (j & Hj & Hy); [|done|by apply (nodes_sorted t Hd)].
    rewrite Hwy in Hj. injection Hj as <-. by rewrite <- Hbk.
Qed.

(** A bucket that gains [x] and loses [olds] does so for the table. *)
Lemma changed_nodes t i n lb lb' id x olds : tree_inv t -> wf_id 20 id -> get_leaf t id = Done i ->
  bt_data t !! i = Some n -> bn_data n = Leaf lb -> rn_id x = id ->
  (forall y, y ∈ nodes t -> rn_id y <> id) -> bucket_ok n lb' ->
  olds ++ lb_nodes lb' ≡ₚ x :: lb_nodes lb ->
  olds ++ nodes (with_tree_data t (set_leaf (bt_data t) i n lb')) ≡ₚ x :: nodes t.
Proof.
  intros [Hd _ _] Hid Hw Hi Eb Hx Hne Hlb' Hp.
  pose proof (set_leaf_ok _ i n lb lb' Hd Hi Eb Hlb') as Hd'.
  set (t' := with_tree_data t (set_leaf (bt_data t) i n lb')) in *.
  assert (Hmem : forall y, y ∈ nodes t' <->
    y ∈ lb_nodes lb' \/ y ∈ nodes t /\ get_leaf t (rn_id y) <> Done i).
  { intros y. by apply (set_leaf_nodes t i n lb lb' id). }
  assert (Hlb : forall y, y ∈ lb_nodes lb <-> y ∈ nodes t /\ get_leaf t (rn_id y) = Done i).
  { intros y. by apply (bucket_members t i n lb id). }
  assert (Hxl : x ∉ lb_nodes lb) by (intros [Hin _]%Hlb; by apply (Hne x Hin)).
  assert (Hndl : NoDup (olds ++ lb_nodes lb')).
  { rewrite Hp. constructor; [done|]. destruct (tree_ok_node _ i n Hd Hi) as [_ Hdata].
    unfold data_ok in Hdata. rewrite Eb in Hdata. destruct Hdata as [Hs _ _].
    by apply (NoDup_fmap_1 key), NoDup_key_iff. }
  apply NoDup_app in Hndl as (Hno & Hdis & _).
  assert (Hin : forall y, y ∈ olds \/ y ∈ lb_nodes lb' <-> y = x \/ y ∈ lb_nodes lb).
  { intros y. rewrite <- elem_of_app, Hp. apply elem_of_cons. }
  apply NoDup_Permutation.
  - apply NoDup_app. split_and!; [done| |by apply nodes_NoDup].
    intros y Hy [Hy'|[Hyn Hwy]]%Hmem; [by apply (Hdis y)|].
    destruct (proj1 (Hin y) (or_introl Hy)) as [->|[_ ?]%Hlb]; [|done].
    by apply (Hne x Hyn).
  - constructor; [|by apply nodes_NoDup]. intros Hxn. by apply (Hne x Hxn).
  - intros y. rewrite elem_of_app, elem_of_cons, Hmem. specialize (Hin y). specialize (Hlb y).
    generalize dependent (y ∈ nodes t). generalize dependent (y ∈ lb_nodes lb).
    destruct (decide (get_leaf t (rn_id y) = Done i)) as [Hg|Hg]; clear - Hg; tauto.
Qed.

(** The insertion, on the branches that do not split. *)
Lemma insert_stop now created t idx n lb self_id id addr f : tree_inv t -> wf_id 20 id ->
  get_leaf t id = Done idx -> bt_data t !! idx = Some n -> bn_data n = Leaf lb ->
  (exists r t', insert_into_leaf (S f) now created t idx self_id id addr = Done (r, t') /\
     tree_inv t' /\ insert_effect now t id addr r t') \/
  ((forall x, x ∈ nodes t -> rn_id x <> id) /\ length (lb_nodes lb) = 8%nat /\
   existsb (fun r => id_eqb (rn_id r) id) (lb_nodes lb) = false /\
   replace_bad now (new_node id addr) (lb_nodes lb) = None /\
   (bt_size t =? bt_max_size t) = false /\
   id_ltb self_id (bn_start n) || id_ltb (bn_end_inclusive n) self_id = false).
Proof.
  intros Hinv Hid Hw Hi Eb. pose proof Hinv as [Hd Hsz Hmax]. cbn [insert_into_leaf].
  rewrite Hi. rsimpl. rewrite Eb. fold (new_node id addr).
  pose proof (present_iff t idx n lb id Hd Hid Hw Hi Eb) as Hpres.
  destruct (tree_ok_node _ idx n Hd Hi) as [Hg Hdata]. unfold data_ok in Hdata. rewrite Eb in Hdata.
  destruct (existsb _ _) eqn:Eex.
  { left. exists WasExisting, t. split_and!; [done..|]. split; [|done]. by apply Hpres, existsb_id. }
  assert (Hne : forall x, x ∈ nodes t -> rn_id x <> id).
  { intros x Hx Heq. apply not_true_iff_false in Eex. apply Eex, existsb_id, Hpres. eauto. }
  assert (Hnl : forall x, x ∈ lb_nodes lb -> rn_id x <> id).
  { intros x Hx Heq. apply not_true_iff_false in Eex. apply Eex, existsb_id. eauto. }
  assert (Hcov : covers n (to_Z id)).
  { destruct (get_leaf_spec t id Hd Hid) as (j & m & lbm & Hj & Hm & _ & Hc).
    assert (j = idx) as -> by congruence. by simplify_eq. }
  assert (Hfresh : NoDup (key <$> new_node id addr :: lb_nodes lb)).
  { rewrite fmap_cons. constructor; [by eapply not_present_key|].
    destruct Hdata as [Hs _ _]. by apply NoDup_key_iff. }
  assert (Hall : Forall (fun x => wf_id 20 (rn_id x) /\ covers n (key x)) (new_node id addr :: lb_nodes lb)).
  { constructor; [done|apply Hdata]. }
  destruct (replace_bad _ _ _) as [[old l]|] eqn:Ebad.
  { left. apply replace_bad_spec in Ebad as (Hold & Hbad & Hp).
    assert (Hok : bucket_ok n (mkLeafBucket (sort_by_id l) now)).
    { apply sort_bucket.
      - rewrite <- Hp in Hall. by apply Forall_cons in Hall as [_ ?].
      - rewrite <- Hp in Hfresh. rewrite fmap_cons in Hfresh. by apply NoDup_cons in Hfresh as [_ ?].
      - apply Permutation_length in Hp. simpl in Hp. destruct Hdata as [_ _ Hlen]. lia. }
    assert (Hperm : [old] ++ nodes (with_tree_data t (set_leaf (bt_data t) idx n
                (mkLeafBucket (sort_by_id l) now))) ≡ₚ new_node id addr :: nodes t).
    { apply (changed_nodes t idx n lb _ id); try done. cbn [lb_nodes].
      unfold sort_by_id. rewrite sort_by_perm. exact Hp. }
    eexists _, _. split; [done|]. fold (set_leaf (bt_data t) idx n (mkLeafBucket (sort_by_id l) now)).
    split.
    - constructor; [by eapply set_leaf_ok| |done]. cbn [with_tree_data bt_size]. rewrite Hsz.
      apply Permutation_length in Hperm. simpl in Hperm. cbn [with_tree_data] in Hperm. lia.
    - split_and!; [done| |done|exact Hperm]. by apply (bucket_members t idx n lb id). }
  destruct (Z.eqb_spec (bt_size t) (bt_max_size t)) as [Hfull|Hroom].
  { left. exists Ignored, t. by split_and!. }
  destruct (Nat.ltb_spec (length (lb_nodes lb)) 8) as [Hlt|Hge].
  { left. set (l := sort_by_id _).
    assert (Hpl : lb_nodes lb ++ [new_node id addr] ≡ₚ new_node id addr :: lb_nodes lb).
    { by rewrite Permutation_app_comm. }
    assert (Hok : bucket_ok n (mkLeafBucket l now)).
    { apply sort_bucket; [by rewrite Hpl|by rewrite Hpl|]. rewrite length_app. simpl. lia. }
    assert (Hperm : [] ++ nodes (with_tree_data t (set_leaf (bt_data t) idx n
                (mkLeafBucket l now))) ≡ₚ new_node id addr :: nodes t).
    { apply (changed_nodes t idx n lb _ id); try done. cbn [lb_nodes app].
      unfold l, sort_by_id. rewrite sort_by_perm. exact Hpl. }
    rewrite app_nil_l in Hperm.
    eexists _, _. split; [done|]. fold (set_leaf (bt_data t) idx n (mkLeafBucket l now)).
    rewrite (wrap64_small (bt_size t + 1)) by lia.
    assert (Hn : nodes (mkBucketTree (set_leaf (bt_data t) idx n (mkLeafBucket l now))
              (bt_size t + 1) (bt_max_size t)) =
            nodes (with_tree_data t (set_leaf (bt_data t) idx n (mkLeafBucket l now)))) by done.
    split.
    - constructor; cbn [bt_data bt_size bt_max_size]; [by eapply set_leaf_ok| |lia].
      rewrite Hn. apply Permutation_length in Hperm. simpl in Hperm. lia.
    - cbn [insert_effect]. split; [exact Hne|]. rewrite Hn. exact Hperm. }
  destruct (id_ltb self_id (bn_start n) || id_ltb (bn_end_inclusive n) self_id) eqn:Eself.
  { left. exists Ignored, t. by split_and!. }
  right. split_and!; try done. destruct Hdata as [_ _ Hlen]. lia.
Qed.

(** The two halves the code makes of a full leaf. *)
Lemma insert_split n lb le rs created : geometry n -> bucket_ok n lb -> 1 <= bn_bits n ->
  compute_split_start_end (bn_start n) (bn_end_inclusive n) (bn_bits n) =
    Done ((bn_start n, le), (rs, bn_end_inclusive n)) ->
  split_of n lb
    (mkBucketTreeNode ((bn_bits n - 1) mod U8) (bn_start n) le
      (Leaf (mkLeafBucket (List.filter (fun x => id_ltb (rn_id x) rs) (lb_nodes lb)) created)))
    (mkBucketTreeNode ((bn_bits n - 1) mod U8) rs (bn_end_inclusive n)
      (Leaf (mkLeafBucket (List.filter (fun x => negb (id_ltb (rn_id x) rs)) (lb_nodes lb)) created))).
Proof.
  intros Hg Hb H1 Hc. destruct (compute_split_spec n Hg H1) as (le' & rs' & Hc' & Hwl & Hwr & Hle & Hrs).
  rewrite Hc in Hc'. injection Hc' as <- <-. pose proof Hg as [Hbits Hs He Ha Hl].
  rewrite Z.mod_small by lia.
  assert (Hp : 2 ^ bn_bits n = 2 * 2 ^ (bn_bits n - 1)).
  { rewrite <- Z.pow_succ_r by lia. f_equal. lia. }
  pose proof (Z.pow_pos_nonneg 2 (bn_bits n - 1) ltac:(lia) ltac:(lia)) as Hpos.
  assert (Hmod : to_Z (bn_start n) mod 2 ^ (bn_bits n - 1) = 0).
  { pose proof (Z.div_mod (to_Z (bn_start n)) (2 ^ bn_bits n) ltac:(lia)) as Hdm.
    rewrite Ha, Hp in Hdm. rewrite Hdm. rewrite Z.add_0_r.
    replace (2 * 2 ^ (bn_bits n - 1) * (to_Z (bn_start n) / (2 * 2 ^ (bn_bits n - 1))))
      with (2 * (to_Z (bn_start n) / (2 * 2 ^ (bn_bits n - 1))) * 2 ^ (bn_bits n - 1)) by ring.
    apply Z.mod_mul. lia. }
  constructor; cbn [bn_bits bn_start bn_end_inclusive bn_data]; try done; try lia; try by eexists.
  - constructor; cbn [bn_bits bn_start bn_end_inclusive]; try done; lia.
  - constructor; cbn [bn_bits bn_start bn_end_inclusive]; try done; try lia.
    rewrite Hrs. replace (2 ^ (bn_bits n - 1)) with (1 * 2 ^ (bn_bits n - 1)) at 1 by lia.
    rewrite Z.mod_add by lia. done.
Qed.

Lemma nodes_split t i n lb ln rn : tree_ok (bt_data t) -> bt_data t !! i = Some n ->
  bn_data n = Leaf lb -> split_of n lb ln rn ->
  nodes (with_tree_data t (split_leaf (bt_data t) i n ln rn)) = nodes t.
Proof.
  intros Hd Hi Eb Hsp. destruct (tree_root _ Hd) as (m & Hm & Hb & _).
  unfold nodes. cbn [with_tree_data bt_data].
  exact (split_nodes (bt_data t) i n lb ln rn Hd Hi Eb Hsp WALK_FUEL 0%nat m Hm (walk_fuel_root m Hb)).
Qed.

(** Every insertion ends: a split leaf has one bit less. *)
Lemma insert_spec now created self_id id addr : wf_id 20 id -> forall f t idx n lb, tree_inv t ->
  get_leaf t id = Done idx -> bt_data t !! idx = Some n -> bn_data n = Leaf lb ->
  bn_bits n < Z.of_nat f ->
  exists r t', insert_into_leaf f now created t idx self_id id addr = Done (r, t') /\
    tree_inv t' /\ insert_effect now t id addr r t'.
Proof.
  intros Hid. induction f as [|f IH]; intros t idx n lb Hinv Hw Hi Eb Hf.
  { destruct (tree_ok_node _ idx n (inv_tree _ Hinv) Hi) as [[? _ _ _ _] _]. lia. }
  destruct (insert_stop now created t idx n lb self_id id addr f Hinv Hid Hw Hi Eb)
    as [?|(Hne & Hlen & Eex & Ebad & Hroom & Eself)]; [done|].
  pose proof Hinv as [Hd Hsz Hmax].
  destruct (tree_ok_node _ idx n Hd Hi) as [Hg Hdata]. unfold data_ok in Hdata. rewrite Eb in Hdata.
  pose proof (full_leaf_bits n lb Hg Hdata ltac:(lia)) as Hb1.
  destruct (compute_split_spec n Hg Hb1) as (le & rs & Hc & _ & Hwr & _ & _).
  pose proof (insert_split n lb le rs created Hg Hdata Hb1 Hc) as Hsp.
  cbn [insert_into_leaf]. rewrite Hi. rsimpl. rewrite Eb, Eex. fold (new_node id addr).
  rewrite Ebad, Hroom, Hlen, Eself, Hc. rsimpl. cbn [Nat.ltb Nat.leb].
  match type of Hsp with split_of _ _ ?a ?b => set (ln := a) in *; set (rn := b) in * end.
  fold (split_leaf (bt_data t) idx n ln rn).
  set (t1 := with_tree_data t (split_leaf (bt_data t) idx n ln rn)).
  pose proof (split_ok _ idx n lb ln rn Hd Hi Eb Hsp) as Hd1.
  pose proof (nodes_split t idx n lb ln rn Hd Hi Eb Hsp) as Hn1. fold t1 in Hn1.
  assert (Hinv1 : tree_inv t1).
  { constructor; [exact Hd1| |exact Hmax]. rewrite Hn1. exact Hsz. }
  destruct (get_leaf_spec t id Hd Hid) as (j & m & lbm & Hj & Hm & _ & Hcov).
  assert (j = idx) as -> by congruence. assert (m = n) as -> by congruence.
  destruct (root_covers _ (to_Z id) Hd (id_bound _ Hid)) as (root & Hroot & Hrb & _).
  pose proof (split_walk (bt_data t) idx n lb ln rn id Hd Hi Eb Hsp Hid WALK_FUEL 0%nat root Hroot
    (walk_fuel_root root Hrb) Hw Hcov) as Hw1.
  destruct (split_lookup_new (bt_data t) idx n ln rn (lookup_lt_Some _ _ _ Hi)) as [Hl Hr].
  change (bn_start rn) with rs in Hw1.
  assert (Hbits : (bn_bits n - 1) mod U8 = bn_bits n - 1) by (apply Z.mod_small; destruct Hg; lia).
  assert (Hrec : exists r t', insert_into_leaf f now created t1
      (if id_ltb id rs then length (bt_data t) else S (length (bt_data t))) self_id id addr =
      Done (r, t') /\ tree_inv t' /\ insert_effect now t1 id addr r t').
  { destruct (id_ltb id rs).
    - eapply (IH t1 _ ln); [exact Hinv1|exact Hw1|exact Hl|reflexivity|]. cbn [ln bn_bits]. lia.
    - eapply (IH t1 _ rn); [exact Hinv1|exact Hw1|exact Hr|reflexivity|]. cbn [rn bn_bits]. lia. }
  destruct Hrec as (r & t' & Hrun & Hinv' & Heff). exists r, t'. split; [exact Hrun|].
  split; [exact Hinv'|]. unfold insert_effect in *. by rewrite Hn1 in Heff.
Qed.

(** ** Iterating over the table *)

Lemma preorder_stable d : tree_ok d -> forall f idx n, d !! idx = Some n -> bn_bits n < Z.of_nat f ->
  forall f', bn_bits n < Z.of_nat f' -> preorder f' d idx = preorder f d idx.
Proof.
  intros Hd. apply (subtree_ind d (fun f idx n =>
    forall f', bn_bits n < Z.of_nat f' -> preorder f' d idx = preorder f d idx) Hd).
  - intros f idx n lb Hn Eb [Hb _ _ _ _] _ _ [|f'] Hf'; [lia|]. cbn [preorder]. by rewrite Hn, Eb.
  - intros f idx n l r ln rn Hn Eb [Hb _ _ _ _] Hh Hl Hr Hfl Hfr IHl IHr [|f'] Hf'; [lia|].
    cbn [preorder]. rewrite Hn, Eb. destruct Hh as (_ & ln' & rn' & Hl' & Hr' & Hlb & Hrb & _).
    simplify_eq. rewrite IHl, IHr by lia. done.
Qed.

(** The walk visits every index of the subtree once. *)
Lemma preorder_NoDup d : tree_ok d -> forall f idx n, d !! idx = Some n -> bn_bits n < Z.of_nat f ->
  NoDup (preorder f d idx) /\
  forall j, j ∈ preorder f d idx -> exists m, d !! j = Some m /\ bn_bits m <= bn_bits n /\
    forall z, covers m z -> covers n z.
Proof.
  intros Hd. apply (subtree_ind d (fun f idx n => NoDup (preorder f d idx) /\
    forall j, j ∈ preorder f d idx -> exists m, d !! j = Some m /\ bn_bits m <= bn_bits n /\
    forall z, covers m z -> covers n z) Hd).
  - intros f idx n lb Hn Eb _ _ _. cbn [preorder]. rewrite Hn, Eb. split; [apply NoDup_singleton|].
    intros j ->%list_elem_of_singleton. by exists n.
  - intros f idx n l r ln rn Hn Eb _ Hh Hl Hr _ _ [Hndl Hinl] [Hndr Hinr].
    pose proof (fun z => halves_covers d n l r ln rn z Hh Hl Hr) as Hcov.
    destruct Hh as (_ & ln' & rn' & Hl' & Hr' & Hlb & Hrb & _). simplify_eq.
    cbn [preorder]. rewrite Hn, Eb. split.
    + constructor.
      * rewrite elem_of_app. intros [(m & Hm & Hbm & _)%Hinl|(m & Hm & Hbm & _)%Hinr];
          simplify_eq; lia.
      * apply NoDup_app. split_and!; [done| |done]. intros j Hj1 Hj2.
        destruct (Hinl j Hj1) as (m & Hm & _ & Hc1). destruct (Hinr j Hj2) as (m' & Hm' & _ & Hc2).
        simplify_eq. destruct (tree_ok_node d j m Hd Hm) as [[Hbm _ _ _ _] _].
        assert (Hst : covers m (to_Z (bn_start m))).
        { unfold covers. pose proof (Z.pow_pos_nonneg 2 (bn_bits m)). lia. }
        apply (Hcov (to_Z (bn_start m))). split; [by apply Hc1|by apply Hc2].
    + intros j. rewrite elem_of_cons, elem_of_app. intros [->|[Hj|Hj]].
      * exists n. split_and!; [done|lia|done].
      * destruct (Hinl j Hj) as (m & Hm & Hbm & Hc). exists m. split_and!; [done|lia|].
        intros z Hz. apply Hcov. left. by apply Hc.
      * destruct (Hinr j Hj) as (m & Hm & Hbm & Hc). exists m. split_and!; [done|lia|].
        intros z Hz. apply Hcov. right. by apply Hc.
Qed.

Definition leaf_item d (idx : nat) : option (BucketTreeNode Addr * LeafBucket Addr) :=
  n ← d !! idx; match bn_data n with Leaf lb => Some (n, lb) | LeftRight _ _ => None end.

Lemma iter_loop_spec d f : tree_ok d -> forall fuel queue,
  (forall idx, idx ∈ queue -> exists n, d !! idx = Some n /\ bn_bits n < Z.of_nat f) ->
  (length (queue ≫= preorder f d) <= fuel)%nat ->
  iter_leaves_loop fuel d queue = Done (omap (leaf_item d) (queue ≫= preorder f d)).
Proof.
  intros Hd. induction fuel as [|fuel IH]; intros [|idx queue] Hq Hlen; try done.
  - destruct (Hq idx) as (n & Hn & Hb); [set_solver|]. destruct f as [|f]; [destruct (tree_ok_node d idx n Hd Hn) as [[? _ _ _ _] _]; lia|].
    rewrite bind_cons, length_app in Hlen. cbn [preorder] in Hlen.
    rewrite Hn in Hlen. destruct (bn_data n); simpl in Hlen; lia.
  - destruct (Hq idx) as (n & Hn & Hb); [set_solver|].
    assert (Hq' : forall j, j ∈ queue -> exists n, d !! j = Some n /\ bn_bits n < Z.of_nat f)
      by (intros; apply Hq; set_solver).
    destruct (tree_ok_node d idx n Hd Hn) as [[Hbn _ _ _ _] Hdata].
    destruct f as [|f]; [lia|]. rewrite bind_cons in Hlen |- *. rewrite omap_app.
    unfold data_ok in Hdata.
    assert (Hpre : preorder (S f) d idx = match bn_data n with
      | Leaf _ => [idx] | LeftRight l r => idx :: preorder f d l ++ preorder f d r end)
      by (cbn [preorder]; by rewrite Hn).
    rewrite Hpre in Hlen |- *. cbn [iter_leaves_loop]. rewrite Hn.
    destruct (bn_data n) as [lb|l r] eqn:Eb.
    + cbn [app length] in Hlen. rewrite IH; [|done|lia]. rsimpl. cbn [omap list_omap app].
      unfold leaf_item at 2. rewrite Hn. cbn [mbind option_bind]. by rewrite Eb.
    + destruct Hdata as (_ & ln & rn & Hl & Hr & Hlb & Hrb & _).
      assert (Hsl : preorder (S f) d l = preorder f d l) by (eapply (preorder_stable d Hd f l ln Hl); lia).
      assert (Hsr : preorder (S f) d r = preorder f d r) by (eapply (preorder_stable d Hd f r rn Hr); lia).
      cbn [app] in Hlen. rewrite IH.
      * rewrite !bind_cons, Hsl, Hsr, !omap_app. cbn [omap list_omap app].
        unfold leaf_item at 4. rewrite Hn. cbn [mbind option_bind]. rewrite Eb.
        by rewrite omap_app, app_assoc.
      * intros j [->|[->|Hj]%elem_of_cons]%elem_of_cons; [exists ln; split; [done|lia]|exists rn; split; [done|lia]|auto].
      * rewrite !bind_cons, Hsl, Hsr. cbn [length] in Hlen. rewrite !length_app in *. lia.
Qed.

(** [iter] lists the nodes of the table. *)
Lemma iter_nodes t : tree_ok (bt_data t) -> iter t = Done (nodes t).
Proof.
  intros Hd. destruct (tree_root _ Hd) as (n & Hn & Hb & _). pose proof (walk_fuel_root n Hb) as Hf.
  destruct (preorder_NoDup _ Hd WALK_FUEL 0%nat n Hn Hf) as [Hnd Hin].
  unfold iter, iter_leaves. rewrite (iter_loop_spec (bt_data t) WALK_FUEL Hd).
  - rsimpl. f_equal. unfold nodes, nodes_from. rewrite bind_singleton.
    generalize (preorder WALK_FUEL (bt_data t) 0%nat). intros l. induction l as [|j l IH]; [done|].
    rewrite bind_cons. cbn [omap list_omap]. unfold leaf_item at 1, bucket_of at 1.
    destruct (bt_data t !! j) as [m|]; cbn [mbind option_bind]; [|exact IH].
    destruct (bn_data m); [|exact IH]. rewrite bind_cons. cbn [snd]. by rewrite <- IH.
  - intros idx ->%list_elem_of_singleton. by exists n.
  - rewrite bind_singleton. rewrite <- (length_seq (length (bt_data t)) 0).
    apply (submseteq_length _ _), NoDup_submseteq; [done|].
    intros j Hj. destruct (Hin j Hj) as (m & Hm & _). apply elem_of_seq.
    apply lookup_lt_Some in Hm. lia.
Qed.

(** ** Updating a node *)

Definition upd (f : RoutingTableNode Addr -> RoutingTableNode Addr) (id : Id) x :
  RoutingTableNode Addr := if id_eqb (rn_id x) id then f x else x.

Lemma upd_key f id x : (forall y, rn_id (f y) = rn_id y) -> key (upd f id x) = key x.
Proof. intros Hf. unfold upd, key. destruct (id_eqb _ _); [by rewrite Hf|done]. Qed.

Lemma update_first_spec f id (l : list (RoutingTableNode Addr)) : NoDup (key <$> l) ->
  match update_first f id l with
  | Some l' => (exists x, x ∈ l /\ rn_id x = id) /\ l' = upd f id <$> l
  | None => forall x, x ∈ l -> rn_id x <> id
  end.
Proof.
  induction l as [|x l IH]; intros Hnd; cbn [update_first]; [set_solver|].
  rewrite fmap_cons in Hnd. apply NoDup_cons in Hnd as [Hx Hnd]. specialize (IH Hnd).
  destruct (id_eqb (rn_id x) id) eqn:E.
  - split; [exists x; split; [set_solver|by apply bool_decide_eq_true in E]|].
    rewrite fmap_cons. unfold upd at 1. rewrite E. f_equal.
    rewrite <- (list_fmap_id l) at 1. apply list_fmap_ext. intros k y Hy. unfold upd.
    destruct (id_eqb (rn_id y) id) eqn:Ey; [|done]. exfalso. apply Hx.
    apply bool_decide_eq_true in E, Ey. apply list_elem_of_fmap. exists y. unfold key.
    split; [congruence|by eapply list_elem_of_lookup_2].
  - destruct (update_first f id l) as [l'|]; cbn [mbind option_bind].
    + destruct IH as [(y & Hy & Hid) ->]. split; [exists y; split; [set_solver|done]|].
      rewrite fmap_cons. unfold upd at 2. by rewrite E.
    + apply bool_decide_eq_false in E. intros y [->|Hy]%elem_of_cons; [done|by apply IH].
Qed.

Lemma sorted_fmap f id (l : list (RoutingTableNode Addr)) : (forall y, rn_id (f y) = rn_id y) ->
  StronglySorted (fun x y => key x < key y) l ->
  StronglySorted (fun x y => key x < key y) (upd f id <$> l).
Proof.
  intros Hf. induction 1 as [|x l Hl IH Hx]; [constructor|]. rewrite fmap_cons.
  constructor; [done|]. apply Forall_fmap. eapply Forall_impl; [exact Hx|]. intros y Hy. simpl in *.
  by rewrite !upd_key.
Qed.

(** The nodes after an update that keeps the ids. *)
Lemma updated_nodes t i n lb c f id : tree_inv t -> wf_id 20 id -> get_leaf t id = Done i ->
  bt_data t !! i = Some n -> bn_data n = Leaf lb -> (forall y, rn_id (f y) = rn_id y) ->
  let t' := with_tree_data t (set_leaf (bt_data t) i n (mkLeafBucket (upd f id <$> lb_nodes lb) c)) in
  tree_inv t' /\ nodes t' = upd f id <$> nodes t.
Proof.
  intros Hinv Hid Hw Hi Eb Hf t'. pose proof Hinv as [Hd Hsz Hmax].
  destruct (tree_ok_node _ i n Hd Hi) as [Hg Hdata]. unfold data_ok in Hdata. rewrite Eb in Hdata.
  assert (Hok : bucket_ok n (mkLeafBucket (upd f id <$> lb_nodes lb) c)).
  { destruct Hdata as [Hs Hids Hlen]. constructor; cbn [lb_nodes].
    - by apply sorted_fmap.
    - apply Forall_fmap. eapply Forall_impl; [exact Hids|]. intros x [Hx Hc]. simpl.
      rewrite upd_key by done. split; [|done]. unfold upd. destruct (id_eqb _ _); [by rewrite Hf|done].
    - by rewrite length_fmap. }
  pose proof (set_leaf_ok _ i n lb _ Hd Hi Eb Hok) as Hd'.
  pose proof (fun y => bucket_members t i n lb id y Hd Hid Hw Hi Eb) as Hmem.
  assert (Hn : nodes t' = upd f id <$> nodes t).
  { apply (sorted_unique key); [apply (nodes_sorted t' Hd')|apply sorted_fmap; [done|apply (nodes_sorted t Hd)]|].
    intros y. unfold t'. rewrite (set_leaf_nodes t i n lb _ id y Hd Hi Eb Hok Hid Hw). cbn [lb_nodes].
    rewrite !list_elem_of_fmap. split.
    - intros [(x & -> & Hx)|[Hy Hwy]].
      + exists x. split; [done|]. exact (proj1 (proj1 (Hmem x) Hx)).
      + exists y. split; [|exact Hy]. unfold upd. destruct (id_eqb (rn_id y) id) eqn:E; [|done].
        apply bool_decide_eq_true in E. rewrite E in Hwy. by destruct (Hwy Hw).
    - intros (x & -> & Hx). destruct (decide (get_leaf t (rn_id x) = Done i)) as [Hwx|Hwx].
      + left. exists x. split; [done|]. exact (proj2 (Hmem x) (conj Hx Hwx)).
      + right. assert (Hu : upd f id x = x).
        { unfold upd. destruct (id_eqb (rn_id x) id) eqn:E; [|done].
          apply bool_decide_eq_true in E. rewrite E in Hwx. by destruct (Hwx Hw). }
        rewrite Hu. exact (conj Hx Hwx). }
  split; [|exact Hn]. constructor; [exact Hd'| |exact Hmax]. rewrite Hn, length_fmap. exact Hsz.
Qed.

Lemma get_mut_spec t id refresh f : tree_inv t -> wf_id 20 id -> (forall y, rn_id (f y) = rn_id y) ->
  exists b t', get_mut t id refresh f = Done (b, t') /\ tree_inv t' /\
    nodes t' = upd f id <$> nodes t /\ (b = true <-> exists x, x ∈ nodes t /\ rn_id x = id).
Proof.
  intros Hinv Hid Hf. pose proof Hinv as [Hd Hsz Hmax].
  destruct (get_leaf_spec t id Hd Hid) as (i & n & lb & Hw & Hi & Eb & Hc).
  pose proof (present_iff t i n lb id Hd Hid Hw Hi Eb) as Hpres.
  unfold get_mut. rewrite Hw. rsimpl. rewrite Hi. rsimpl. rewrite Eb.
  destruct (tree_ok_node _ i n Hd Hi) as [_ Hdata]. unfold data_ok in Hdata. rewrite Eb in Hdata.
  pose proof (update_first_spec f id (lb_nodes lb) (NoDup_key_iff _ (bucket_sorted _ _ Hdata))) as Hup.
  destruct (update_first f id (lb_nodes lb)) as [l'|].
  - destruct Hup as [Hin ->].
    destruct (updated_nodes t i n lb (default (lb_last_refreshed lb) refresh) f id Hinv Hid Hw Hi Eb Hf)
      as [Hinv' Hn].
    eexists _, _. split; [done|]. split_and!; [exact Hinv'|exact Hn|]. rewrite Hpres. by split.
  - exists false, t. split_and!; [done|done| |].
    + rewrite <- (list_fmap_id (nodes t)) at 1. apply list_fmap_ext. intros k x Hx. unfold upd.
      destruct (id_eqb (rn_id x) id) eqn:E; [|done]. exfalso. apply bool_decide_eq_true in E.
      apply list_elem_of_lookup_2 in Hx. destruct (proj1 Hpres) as (y & Hy & Hyid); [by exists x|].
      by apply (Hup y).
    + split; [done|]. rewrite Hpres. intros (y & Hy & Hyid). exfalso. by apply (Hup y).
Qed.
End shape.

(** ** Properties *)
Section properties.
Context {Addr : Type}.
Implicit Types (t : BucketTree Addr) (rt : RoutingTable Addr) (x y : RoutingTableNode Addr).

Lemma to_Z_zero n : to_Z (replicate n 0) = 0.
Proof. induction n as [|n IH]; [done|]. cbn [replicate to_Z]. rewrite IH. lia. Qed.

Lemma wf_replicate n b : is_u8 b -> wf_id n (replicate n b).
Proof. intros Hb. split; [apply length_replicate|]. by apply Forall_replicate. Qed.

Lemma tree_new_inv now max_size : 0 <= max_size < U64 ->
  tree_inv (tree_new (Addr := Addr) now max_size).
Proof.
  intros Hm.
  assert (Hd : tree_ok (bt_data (tree_new (Addr := Addr) now max_size))).
  { constructor.
    - intros [|i] n; cbn [tree_new bt_data]; [|done]. intros [= <-]. split.
      + constructor; cbn [bn_bits bn_start bn_end_inclusive]; [lia|..].
        * by apply (wf_replicate 20 0).
        * by apply (wf_replicate 20 255).
        * vm_compute. reflexivity.
        * vm_compute. reflexivity.
      + unfold data_ok. cbn [bn_data]. constructor; cbn [lb_nodes]; [constructor|done|simpl; lia].
    - eexists. split; [done|]. split; [done|]. exact (to_Z_zero 20). }
  constructor; [exact Hd| |exact Hm]. reflexivity.
Qed.

(** The tables the operations build. *)
Inductive reachable (self_id : Id) (max_size : option Z) : RoutingTable Addr -> Prop :=
| reach_new now : reachable self_id max_size (table_new now self_id max_size)
| reach_add now created rt id addr r rt' : reachable self_id max_size rt -> wf_id 20 id ->
    table_add_node now created rt id addr = Done (r, rt') -> reachable self_id max_size rt'
| reach_mark rt id refresh f b rt' : reachable self_id max_size rt -> wf_id 20 id ->
    (forall n, rn_id (f n) = rn_id n) ->
    table_mark rt id refresh f = Done (b, rt') -> reachable self_id max_size rt'.

Lemma table_add_node_inv now created rt id addr : tree_inv (rt_buckets rt) -> wf_id 20 id ->
  exists r rt', table_add_node now created rt id addr = Done (r, rt') /\
    tree_inv (rt_buckets rt') /\
    insert_effect now (rt_buckets rt) id addr r (rt_buckets rt').
Proof.
  intros Hinv Hid. pose proof (inv_tree _ Hinv) as Hd.
  destruct (get_leaf_spec (rt_buckets rt) id Hd Hid) as (idx & n & lb & Hw & Hi & Eb & Hc).
  destruct (tree_ok_node _ idx n Hd Hi) as [[Hb _ _ _ _] _].
  destruct (insert_spec now created (rt_id rt) id addr Hid WALK_FUEL (rt_buckets rt) idx n lb
    Hinv Hw Hi Eb) as (r & t' & Hrun & Hinv' & Heff).
  { unfold WALK_FUEL. lia. }
  unfold table_add_node, tree_add_node. rewrite Hw. rsimpl. rewrite Hrun. rsimpl.
  eexists _, _. split; [done|]. cbn [rt_buckets fst snd]. exact (conj Hinv' Heff).
Qed.

Lemma table_mark_inv rt id refresh f : tree_inv (rt_buckets rt) -> wf_id 20 id ->
  (forall n, rn_id (f n) = rn_id n) ->
  exists b rt', table_mark rt id refresh f = Done (b, rt') /\ tree_inv (rt_buckets rt') /\
    nodes (rt_buckets rt') = upd f id <$> nodes (rt_buckets rt) /\
    (b = true <-> exists x, x ∈ nodes (rt_buckets rt) /\ rn_id x = id).
Proof.
  intros Hinv Hid Hf. unfold table_mark.
  destruct (get_mut_spec (rt_buckets rt) id refresh f Hinv Hid Hf) as (b & t' & -> & Hrest).
  rsimpl. eexists _, _. split; [done|]. exact Hrest.
Qed.

(** C35: in every table the operations build from an empty one, the iteration
    runs to its end and lists the nodes by ascending id (so without
    duplicates), their number is the size of the tree, which never exceeds its
    maximum, and an id is listed iff it is in the bucket the tree walks to for
    that id, a bucket of at most eight nodes that covers the id. *)
Theorem reachable_table_ok self_id max_size rt :
  reachable self_id max_size rt -> (forall m, max_size = Some m -> 0 <= m < U64) ->
  exists l, iter (rt_buckets rt) = Done l /\
    StronglySorted (fun x y => to_Z (rn_id x) < to_Z (rn_id y)) l /\
    bt_size (rt_buckets rt) = Z.of_nat (length l) /\
    bt_size (rt_buckets rt) <= bt_max_size (rt_buckets rt) /\
    forall id, wf_id 20 id -> exists j n lb, get_leaf (rt_buckets rt) id = Done j /\
      bt_data (rt_buckets rt) !! j = Some n /\ bn_data n = Leaf lb /\
      to_Z (bn_start n) <= to_Z id <= to_Z (bn_end_inclusive n) /\
      (length (lb_nodes lb) <= 8)%nat /\
      ((exists x, x ∈ l /\ rn_id x = id) <-> exists x, x ∈ lb_nodes lb /\ rn_id x = id).
Proof.
  intros Hr Hmax.
  assert (Hinv : tree_inv (rt_buckets rt)).
  { induction Hr as [now|now created rt id addr r rt' _ IH Hid Hadd|rt id refresh f b rt' _ IH Hid Hf Hmk].
    - apply tree_new_inv. destruct max_size as [m|]; [by apply Hmax|done].
    - destruct (table_add_node_inv now created rt id addr IH Hid) as (r' & rt2 & Heq & Hinv & _).
      rewrite Hadd in Heq. injection Heq as _ ->. exact Hinv.
    - destruct (table_mark_inv rt id refresh f IH Hid Hf) as (b' & rt2 & Heq & Hinv & _).
      rewrite Hmk in Heq. injection Heq as _ ->. exact Hinv. }
  destruct Hinv as [Hd Hsz Hm]. exists (nodes (rt_buckets rt)).
  split_and!; [by apply iter_nodes|apply (nodes_sorted _ Hd)|exact Hsz|lia|].
  intros id Hid. destruct (get_leaf_spec (rt_buckets rt) id Hd Hid) as (j & n & lb & Hw & Hi & Eb & Hc).
  destruct (tree_ok_node _ j n Hd Hi) as [[_ _ _ _ Hl] Hdata]. unfold data_ok in Hdata. rewrite Eb in Hdata.
  exists j, n, lb. split_and!; try done.
  - apply Hc.
  - unfold covers in Hc. lia.
  - apply Hdata.
  - exact (present_iff (rt_buckets rt) j n lb id Hd Hid Hw Hi Eb).
Qed.

(** Adding a node to a well-formed table never panics (a full bucket is
    split as often as needed, and always can be), keeps the table well-formed,
    and does what the result says: the node was there and nothing changes; it
    is added; it takes the place of one bad node; or nothing changes. *)
Theorem add_node_spec now created rt id addr : tree_inv (rt_buckets rt) -> wf_id 20 id ->
  exists r rt', table_add_node now created rt id addr = Done (r, rt') /\
    tree_inv (rt_buckets rt') /\
    insert_effect now (rt_buckets rt) id addr r (rt_buckets rt').
Proof. apply table_add_node_inv. Qed.

(** Recording a response updates exactly the node with that id, and
    answers whether there is one. *)
Theorem mark_response_spec rt id now : tree_inv (rt_buckets rt) -> wf_id 20 id ->
  exists b rt', table_mark_response rt id now = Done (b, rt') /\ tree_inv (rt_buckets rt') /\
    nodes (rt_buckets rt') =
      (fun x => if id_eqb (rn_id x) id then mark_response x now else x) <$> nodes (rt_buckets rt) /\
    (b = true <-> exists x, x ∈ nodes (rt_buckets rt) /\ rn_id x = id).
Proof. intros Hinv Hid. by apply (table_mark_inv rt id (Some now)). Qed.

Lemma closer_total id now x y : closer id now x y = false -> closer id now y x = true.
Proof.
  unfold closer. intros Hf. pose proof (id_leb_total (distance id (rn_id x)) (distance id (rn_id y))).
  bcases; simpl in *; try done; try lia; auto.
Qed.

Lemma closer_trans id now x y z :
  closer id now x y = true -> closer id now y z = true -> closer id now x z = true.
Proof.
  unfold closer.
  pose proof (id_leb_trans (distance id (rn_id x)) (distance id (rn_id y)) (distance id (rn_id z))).
  bcases; simpl in *; try done; try lia; auto.
Qed.

(** [sorted_by_distance_from] lists every node of the table once, ordered
    by status (good, questionable, unknown, bad) and then by xor distance. *)
Theorem sorted_by_distance_spec rt id now : tree_inv (rt_buckets rt) ->
  exists l, sorted_by_distance_from rt id now = Done l /\ l ≡ₚ nodes (rt_buckets rt) /\
    StronglySorted (fun x y => closer id now x y = true) l.
Proof.
  intros [Hd _ _]. unfold sorted_by_distance_from. rewrite (iter_nodes _ Hd). rsimpl.
  eexists. split; [done|]. split; [apply sort_by_perm|].
  apply sort_by_sorted; [intros x y; apply closer_total|intros x y z; apply closer_trans].
Qed.

Lemma random_loop n (a : Id) m : wf_id 20 a -> wf_id 20 (bn_start n) -> 0 <= m <= 160 ->
  exists a', for_each (fun data bit => b ←! get_bit (bn_start (Addr := Addr) n) bit; set_bit data bit b) a
      (seqZ 0 m) = Done a' /\ wf_id 20 a' /\
    forall j, 160 - m <= j < 160 -> Z.testbit (to_Z a') j = Z.testbit (to_Z (bn_start n)) j.
Proof.
  intros Ha Hs Hm.
  destruct (for_each_inv (fun l a' => wf_id 20 a' /\ forall j, 160 - Z.of_nat (length l) <= j < 160 ->
      Z.testbit (to_Z a') j = Z.testbit (to_Z (bn_start n)) j)
    (fun data bit => b ←! get_bit (bn_start n) bit; set_bit data bit b) a (seqZ 0 m))
    as (a' & Hf & Hw & Hbits).
  - split; [done|]. intros j. simpl. lia.
  - intros l b a1 [k Hk] [Ha1 Hb1].
    assert (Hb : b = Z.of_nat (length l) /\ 0 <= b < m).
    { assert (Hlook : seqZ 0 m !! length l = Some b).
      { rewrite Hk, lookup_app_l by (rewrite length_app; simpl; lia).
        by rewrite lookup_app_r, Nat.sub_diag by lia. }
      apply lookup_seqZ in Hlook. lia. }
    destruct Hb as [Hb Hbm]. rewrite (get_bit_testbit 20) by (done || lia). rsimpl.
    destruct (set_bit_spec 20 a1 b (Z.testbit (to_Z (bn_start n)) (8 * Z.of_nat 20 - 1 - b)) Ha1)
      as (a2 & -> & Ha2 & Ht); [lia|].
    exists a2. split; [done|]. split; [done|]. intros j Hj.
    rewrite length_app in Hj. simpl in Hj. rewrite Ht by lia.
    destruct (Z.eqb_spec j (8 * Z.of_nat 20 - 1 - b)) as [->|Hne]; [done|].
    apply Hb1. lia.
  - exists a'. split_and!; [done..|]. intros j Hj. apply Hbits. rewrite length_seqZ. lia.
Qed.

(** A random id generated for a bucket is one the bucket covers. *)
Theorem random_id_in_bucket (data : Id) (n : BucketTreeNode Addr) : geometry n -> wf_id 20 data ->
  exists id, generate_random_id data (bn_start n) (bn_bits n) = Done id /\ wf_id 20 id /\
    to_Z (bn_start n) <= to_Z id <= to_Z (bn_end_inclusive n).
Proof.
  intros [Hb Hs He Ha Hl] Hw. unfold generate_random_id. rewrite (Z.mod_small (160 - bn_bits n)) by lia.
  destruct (random_loop n data (160 - bn_bits n) Hw Hs) as (id & -> & Hid & Hbits); [lia|].
  assert (Hq : to_Z id / 2 ^ bn_bits n = to_Z (bn_start n) / 2 ^ bn_bits n).
  { apply Z.bits_inj'. intros j Hj. rewrite !Z.div_pow2_bits by lia.
    destruct (Z.ltb_spec (j + bn_bits n) 160); [apply Hbits; lia|].
    by rewrite !(to_Z_testbit_high 20) by (done || lia). }
  pose proof (Z.pow_pos_nonneg 2 (bn_bits n) ltac:(lia) ltac:(lia)) as Hp.
  assert (Hsum : to_Z id = to_Z (bn_start n) + to_Z id mod 2 ^ bn_bits n).
  { rewrite (Z.div_mod (to_Z id) (2 ^ bn_bits n)) at 1 by lia.
    rewrite (Z.div_mod (to_Z (bn_start n)) (2 ^ bn_bits n)) by lia. rewrite Hq, Ha. ring. }
  pose proof (Z.mod_pos_bound (to_Z id) (2 ^ bn_bits n) Hp) as Hmod.
  exists id. split_and!; [done..| |]; rewrite ?Hl; set (m := to_Z id mod _) in *; lia.
Qed.

End properties.

(** ** A concrete table *)

Definition ex_id (k : Z) : Id := replicate 19 0 ++ [k].

Lemma ex_id_wf k : is_u8 k -> wf_id 20 (ex_id k).
Proof.
  intros Hk. split; [reflexivity|]. apply Forall_app. split; [|by constructor].
  apply Forall_replicate. done.
Qed.

Definition ex_table : RoutingTable nat := table_new 0 (ex_id 0) None.

Fixpoint ex_add_all (rt : RoutingTable nat) (ks : list Z) : outcome (RoutingTable nat) :=
  match ks with
  | [] => Done rt
  | k :: ks => r ←! table_add_node 1 2 rt (ex_id k) 0%nat; ex_add_all r.2 ks
  end.

(** Nine ids that agree on their first 156 bits: the ninth splits the tree 157
    times, and all of them are in it. *)
Example ex_split_often :
  match ex_add_all ex_table [1; 9; 2; 8; 3; 7; 4; 6; 5] with
  | Done rt => (l ←! iter (rt_buckets rt); Done ((fun n => to_Z (rn_id n)) <$> l)) =
                 Done [1; 2; 3; 4; 5; 6; 7; 8; 9] /\
               length (bt_data (rt_buckets rt)) = 315%nat
  | Panic => False
  end.
Proof. vm_compute. done. Qed.

Lemma ex_table_inv : tree_inv (rt_buckets ex_table).
Proof. apply tree_new_inv. vm_compute. split; [discriminate|reflexivity]. Qed.

Lemma ex_id_7 : wf_id 20 (ex_id 7).
Proof. by apply ex_id_wf. Qed.

Definition ex_table_7 : RoutingTable nat :=
  match table_add_node 1 2 ex_table (ex_id 7) 0%nat with Done r => r.2 | Panic => ex_table end.

Lemma reachable_table_ok_witness :
  exists l, iter (rt_buckets ex_table_7) = Done l /\ length l = 1%nat.
Proof.
  destruct (reachable_table_ok (ex_id 0) None ex_table_7) as (l & Hl & _ & Hsz & _).
  - apply (reach_add _ _ 1 2 ex_table (ex_id 7) 0%nat Added); [constructor|exact ex_id_7|].
    vm_compute. reflexivity.
  - intros m Hm. discriminate Hm.
  - exists l. split; [exact Hl|].
    assert (H1 : bt_size (rt_buckets ex_table_7) = 1) by (vm_compute; reflexivity). lia.
Defined.

Lemma add_node_spec_witness : exists r rt',
  table_add_node 1 2 ex_table (ex_id 7) 0%nat = Done (r, rt') /\ r = Added /\
  tree_inv (rt_buckets rt').
Proof.
  destruct (add_node_spec 1 2 ex_table (ex_id 7) 0%nat ex_table_inv ex_id_7)
    as (r & rt' & Heq & Hinv & _).
  exists r, rt'. split; [exact Heq|]. split; [|exact Hinv].
  vm_compute in Heq. injection Heq as <- _. reflexivity.
Defined.

Lemma ex_table_7_inv : tree_inv (rt_buckets ex_table_7).
Proof.
  destruct (table_add_node_inv 1 2 ex_table (ex_id 7) 0%nat ex_table_inv ex_id_7)
    as (r & rt' & Heq & Hinv & _).
  unfold ex_table_7. rewrite Heq. exact Hinv.
Qed.

Lemma mark_response_spec_witness : exists rt',
  table_mark_response ex_table_7 (ex_id 7) 5 = Done (true, rt') /\ tree_inv (rt_buckets rt').
Proof.
  destruct (mark_response_spec ex_table_7 (ex_id 7) 5 ex_table_7_inv ex_id_7)
    as (b & rt' & Heq & Hinv & _).
  exists rt'. split; [|exact Hinv]. vm_compute in Heq |- *. injection Heq as <- <-. reflexivity.
Defined.

Lemma sorted_by_distance_spec_witness : exists l,
  sorted_by_distance_from ex_table_7 (ex_id 1) 5 = Done l /\ length l = 1%nat.
Proof.
  destruct (sorted_by_distance_spec ex_table_7 (ex_id 1) 5 ex_table_7_inv) as (l & Hl & Hp & _).
  exists l. split; [exact Hl|]. rewrite Hp. vm_compute. reflexivity.
Defined.

Lemma random_id_in_bucket_witness : exists id,
  generate_random_id (ex_id 77) (replicate 20 0) 160 = Done id /\ wf_id 20 id.
Proof.
  destruct (tree_nodes _ (inv_tree _ ex_table_inv) 0%nat
    (mkBucketTreeNode 160 (replicate 20 0) (replicate 20 255) (Leaf (mkLeafBucket [] 0)))
    eq_refl) as [Hg _].
  destruct (random_id_in_bucket (ex_id 77) _ Hg) as (id & Hgen & Hw & _).
  - apply ex_id_wf. split; [discriminate|reflexivity].
  - exists id. split; [exact Hgen|exact Hw].
Defined.

(** A node that was asked and failed twice is replaced. *)
Definition ex_replaced : outcome (RoutingTable nat) :=
  rt ←! table_mark_outgoing_request ex_table_7 (ex_id 7) 3;
  rt ←! table_mark_error rt.2 (ex_id 7);
  rt ←! table_mark_error rt.2 (ex_id 7);
  r ←! table_add_node 4 5 rt.2 (ex_id 8) 0%nat;
  Done r.2.

(** The size of the routing table counts a replacement as a new node:
    after one node replaced another, [len] is 2 and the table holds one. *)
Theorem table_len_counts_replacements : exists rt, ex_replaced = Done rt /\
  table_len rt = 2 /\ bt_size (rt_buckets rt) = 1 /\
  (l ←! iter (rt_buckets rt); Done (rn_id <$> l)) = Done [ex_id 8].
Proof.
  exists (match ex_replaced with Done rt => rt | Panic => ex_table end).
  split_and!; vm_compute; reflexivity.
Qed.
