(* ===== verification/DoubleBuf.v ===== *)
(** * DoubleBuf: big-endian integers and the two-part read buffer

    Models [crates/librtbit-peer-protocol/src/double_buf.rs] (the input of the
    message parser, split in two slices because the read buffer is a ring) and
    the big-endian conversions the protocols use ([to_be_bytes], [byteorder]'s
    [BE]).  The abstract value of a double buffer is the concatenation of its two
    parts. *)

From S2P Require Import Prelude HashId.

(** ** Big-endian integers *)

(** [to_be_bytes] of an [8n]-bit integer; [to_Z] reads it back. *)
Fixpoint be_bytes (n : nat) (z : Z) : list Z :=
  match n with
  | O => []
  | S n => (z / 2 ^ (8 * Z.of_nat n)) mod 256 :: be_bytes n z
  end.

Lemma length_be_bytes n z : length (be_bytes n z) = n.
Proof. induction n; simpl; congruence. Qed.

#[export] Hint Rewrite length_be_bytes : len.

Lemma be_bytes_wf n z : wf_id n (be_bytes n z).
Proof.
  split; [apply length_be_bytes|]. induction n; simpl; constructor; [|done].
  apply Z.mod_pos_bound. lia.
Qed.

Lemma to_Z_be_bytes n z : to_Z (be_bytes n z) = z mod 2 ^ (8 * Z.of_nat n).
Proof.
  induction n as [|n IH].
  { simpl. by rewrite Z.mod_1_r. }
  cbn [be_bytes to_Z]. rewrite length_be_bytes, IH.
  replace (8 * Z.of_nat (S n)) with (8 * Z.of_nat n + 8) by lia.
  rewrite Z.pow_add_r by lia. change (2 ^ 8) with 256.
  rewrite (Z.rem_mul_r z) by (pose proof (Z.pow_pos_nonneg 2 (8 * Z.of_nat n)); lia). lia.
Qed.

Lemma be_u32 z : is_u32 z -> to_Z (be_bytes 4 z) = z.
Proof. intros Hz. rewrite to_Z_be_bytes. apply Z.mod_small. exact Hz. Qed.

Lemma be_u16 z : is_u16 z -> to_Z (be_bytes 2 z) = z.
Proof. intros Hz. rewrite to_Z_be_bytes. apply Z.mod_small. exact Hz. Qed.

Lemma be_u64 z : is_u64 z -> to_Z (be_bytes 8 z) = z.
Proof. intros Hz. rewrite to_Z_be_bytes. apply Z.mod_small. exact Hz. Qed.

Lemma be_bytes_to_Z n l : wf_id n l -> be_bytes n (to_Z l) = l.
Proof.
  intros Hl. apply (to_Z_inj n); [apply be_bytes_wf|done|].
  rewrite to_Z_be_bytes. apply Z.mod_small. by apply to_Z_bound.
Qed.

(** ** The double buffer *)

Record DoubleBuf := mkDoubleBuf {
  buf_0 : list Z;
  buf_1 : list Z;
}.

Definition len (b : DoubleBuf) : nat := (length (buf_0 b) + length (buf_1 b))%nat.

Definition is_empty (b : DoubleBuf) : bool :=
  (length (buf_0 b) =? 0)%nat && (length (buf_1 b) =? 0)%nat.

(** [slice::split_at]: panics beyond the end, which the callers exclude. *)
Definition split_at (k : nat) (l : list Z) : list Z * list Z := (take k l, drop k l).

Definition consume_variable (b : DoubleBuf) (n : nat) :
    result nat ((list Z * list Z) * DoubleBuf) :=
  let available := (length (buf_0 b) + length (buf_1 b))%nat in
  if (available <? n)%nat then Err (n - available)%nat
  else
    let first_len := Nat.min (length (buf_0 b)) n in
    let '(first_consumed, first_remaining) := split_at first_len (buf_0 b) in
    let second_len := Nat.min (n - first_len) (length (buf_1 b)) in
    let '(second_consumed, second_remaining) := split_at second_len (buf_1 b) in
    Ok ((first_consumed, second_consumed), mkDoubleBuf first_remaining second_remaining).

(** [consume::<N>]. *)
Definition consume (b : DoubleBuf) (n : nat) : result nat (list Z * DoubleBuf) :=
  if (n <=? length (buf_0 b))%nat then
    let '(chunk, rem) := split_at n (buf_0 b) in Ok (chunk, mkDoubleBuf rem (buf_1 b))
  else if (length (buf_0 b) =? 0)%nat && (n <=? length (buf_1 b))%nat then
    let '(chunk, rem) := split_at n (buf_1 b) in Ok (chunk, mkDoubleBuf (buf_0 b) rem)
  else
    let first := Nat.min (length (buf_0 b)) n in
    let second := Nat.min (length (buf_1 b)) (n - first) in
    let missing := (n - first - second)%nat in
    if (0 <? missing)%nat then Err missing
    else Ok (take first (buf_0 b) ++ take second (buf_1 b),
             mkDoubleBuf (drop first (buf_0 b)) (drop second (buf_1 b))).

Definition read_u32_be (b : DoubleBuf) : result nat (Z * DoubleBuf) :=
  r ←? consume b 4; Ok (to_Z r.1, r.2).

Definition read_u8 (b : DoubleBuf) : option (Z * DoubleBuf) :=
  match buf_0 b, buf_1 b with
  | v :: rest, b1 => Some (v, mkDoubleBuf rest b1)
  | [], v :: rest => Some (v, mkDoubleBuf [] rest)
  | [], [] => None
  end.

Definition get_contiguous (b : DoubleBuf) (n : nat) : option (list Z) :=
  if (n <=? length (buf_0 b))%nat then Some (take n (buf_0 b))
  else if (length (buf_0 b) =? 0)%nat && (n <=? length (buf_1 b))%nat then Some (take n (buf_1 b))
  else None.

Definition advance (b : DoubleBuf) (offset : nat) : DoubleBuf :=
  let buf_0_adv := Nat.min (length (buf_0 b)) offset in
  let buf_1_adv := Nat.min (offset - buf_0_adv) (length (buf_1 b)) in
  mkDoubleBuf (drop buf_0_adv (buf_0 b)) (drop buf_1_adv (buf_1 b)).

Definition with_max_len (b : DoubleBuf) (max_len : nat) : DoubleBuf :=
  let buf_0_len := Nat.min (length (buf_0 b)) max_len in
  let buf_1_len := Nat.min (max_len - buf_0_len) (length (buf_1 b)) in
  mkDoubleBuf (take buf_0_len (buf_0 b)) (take buf_1_len (buf_1 b)).

Definition as_ioslices (b : DoubleBuf) (len_limit : nat) : list (list Z) :=
  let buf_0_len := Nat.min (length (buf_0 b)) len_limit in
  let buf_1_len := Nat.min (len_limit - buf_0_len) (length (buf_1 b)) in
  [take buf_0_len (buf_0 b); take buf_1_len (buf_1 b)].

(** ** The buffer is its concatenation *)

Definition content (b : DoubleBuf) : list Z := buf_0 b ++ buf_1 b.

Lemma length_content b : length (content b) = len b.
Proof. apply length_app. Qed.

(** [b'] is what is left of [b] after [n] bytes. *)
Definition rest (b : DoubleBuf) (n : nat) (b' : DoubleBuf) : Prop :=
  content b' = drop n (content b) /\ buf_0 b' = drop n (buf_0 b).

Lemma drop_min n (l : list Z) : drop (Nat.min (length l) n) l = drop n l.
Proof.
  destruct (Nat.min_spec (length l) n) as [[? ->]|[? ->]]; [|done]. by rewrite !drop_ge by lia.
Qed.

Lemma take_min_app n (l1 l2 : list Z) :
  take (Nat.min (length l1) n) l1 ++ take (Nat.min (n - Nat.min (length l1) n) (length l2)) l2 =
  take n (l1 ++ l2).
Proof.
  rewrite take_app. f_equal.
  - destruct (Nat.min_spec (length l1) n) as [[? ->]|[? ->]]; [|done].
    by rewrite !take_ge by lia.
  - destruct (Nat.min_spec (length l1) n) as [[? ->]|[? ->]].
    + destruct (Nat.min_spec (n - length l1) (length l2)) as [[? ->]|[? ->]]; [done|].
      by rewrite !take_ge by lia.
    + replace (n - n)%nat with 0%nat by lia. by replace (n - length l1)%nat with 0%nat by lia.
Qed.

Lemma drop_min_app n (l1 l2 : list Z) :
  drop (Nat.min (length l1) n) l1 ++ drop (Nat.min (n - Nat.min (length l1) n) (length l2)) l2 =
  drop n (l1 ++ l2).
Proof.
  rewrite drop_app. f_equal.
  - destruct (Nat.min_spec (length l1) n) as [[? ->]|[? ->]]; [|done].
    by rewrite !drop_ge by lia.
  - destruct (Nat.min_spec (length l1) n) as [[? ->]|[? ->]].
    + destruct (Nat.min_spec (n - length l1) (length l2)) as [[? ->]|[? ->]]; [done|].
      by rewrite !drop_ge by lia.
    + replace (n - n)%nat with 0%nat by lia. by replace (n - length l1)%nat with 0%nat by lia.
Qed.

Lemma consume_variable_spec b n :
  match consume_variable b n with
  | Ok ((a, c), b') => (n <= len b)%nat /\ a ++ c = take n (content b) /\ rest b n b' /\
      a = take n (buf_0 b)
  | Err m => (len b < n)%nat /\ m = (n - len b)%nat
  end.
Proof.
  unfold consume_variable, len, rest, content.
  destruct (Nat.ltb_spec (length (buf_0 b) + length (buf_1 b)) n); [done|]. cbn [split_at].
  split_and!; [lia|apply take_min_app|apply drop_min_app|apply drop_min|].
  destruct (Nat.min_spec (length (buf_0 b)) n) as [[? ->]|[? ->]]; [|done]. by rewrite !take_ge by lia.
Qed.

Lemma consume_spec b n :
  match consume b n with
  | Ok (a, b') => (n <= len b)%nat /\ a = take n (content b) /\ rest b n b'
  | Err m => (len b < n)%nat /\ m = (n - len b)%nat
  end.
Proof.
  unfold consume, len, rest, content. cbn [split_at].
  destruct (Nat.leb_spec n (length (buf_0 b))).
  { split_and!; [lia| | |].
    - by rewrite take_app_le by lia.
    - cbn [buf_0 buf_1]. by rewrite drop_app_le by lia.
    - done. }
  destruct (Nat.eqb_spec (length (buf_0 b)) 0) as [H0|H0]; cbn [andb].
  - apply length_zero_iff_nil in H0. rewrite H0 in *. cbn [length Nat.min app].
    destruct (Nat.leb_spec n (length (buf_1 b)));
      [split_and!; [lia|done|done|cbn [buf_0]; by rewrite drop_nil]|].
    destruct (Nat.ltb_spec 0 (n - 0 - Nat.min (length (buf_1 b)) (n - 0))); [|lia].
    split; [lia|]. lia.
  - destruct (Nat.ltb_spec 0 (n - Nat.min (length (buf_0 b)) n -
      Nat.min (length (buf_1 b)) (n - Nat.min (length (buf_0 b)) n))).
    + split; lia.
    + rewrite (Nat.min_comm (length (buf_1 b))). split_and!; [lia| | |].
      * apply take_min_app.
      * apply drop_min_app.
      * apply drop_min.
Qed.

Lemma read_u32_be_spec b :
  match read_u32_be b with
  | Ok (v, b') => (4 <= len b)%nat /\ v = to_Z (take 4 (content b)) /\ rest b 4 b'
  | Err m => (len b < 4)%nat /\ m = (4 - len b)%nat
  end.
Proof.
  unfold read_u32_be. pose proof (consume_spec b 4) as Hc.
  destruct (consume b 4) as [[a b']|m]; cbn [result_bind fst snd]; [|done].
  destruct Hc as (? & -> & ?). done.
Qed.

Lemma read_u8_spec b :
  match read_u8 b with
  | Some (v, b') => head (content b) = Some v /\ rest b 1 b'
  | None => content b = []
  end.
Proof. unfold read_u8, rest, content. destruct b as [[|x l] [|y l']]; done. Qed.

Lemma with_max_len_content b n : content (with_max_len b n) = take n (content b).
Proof. apply take_min_app. Qed.

Lemma get_contiguous_spec b n l : get_contiguous b n = Some l ->
  (n <= len b)%nat /\ l = take n (content b).
Proof.
  unfold get_contiguous, len, content. destruct (Nat.leb_spec n (length (buf_0 b))).
  - intros [= <-]. split; [lia|]. by rewrite take_app_le by lia.
  - destruct (Nat.eqb_spec (length (buf_0 b)) 0) as [H0|]; [|done]. cbn [andb].
    destruct (Nat.leb_spec n (length (buf_1 b))); [|done]. intros [= <-].
    apply length_zero_iff_nil in H0. rewrite H0. split; [simpl; lia|done].
Qed.

Lemma rest_len b n b' : rest b n b' -> len b' = (len b - n)%nat.
Proof. intros [Hr _]. rewrite <- !length_content, Hr. apply length_drop. Qed.

(** Every reader of the double buffer is the reader of the concatenation of
    its two parts: consuming, limiting, skipping and slicing for the kernel give the same
    bytes wherever the split is. *)
Theorem double_buf_is_flat b n :
  match consume b n with
  | Ok (a, b') => a = take n (content b) /\ content b' = drop n (content b) /\ length a = n
  | Err m => (length (content b) + m = n /\ 0 < m)%nat
  end /\
  match consume_variable b n with
  | Ok ((a, c), b') => a ++ c = take n (content b) /\ content b' = drop n (content b)
  | Err m => (length (content b) + m = n /\ 0 < m)%nat
  end /\
  content (with_max_len b n) = take n (content b) /\
  content (advance b n) = drop n (content b) /\
  concat (as_ioslices b n) = take n (content b).
Proof.
  pose proof (consume_spec b n) as Hc. pose proof (consume_variable_spec b n) as Hv.
  rewrite length_content. split_and!.
  - destruct (consume b n) as [[a b']|m]; [|lia]. destruct Hc as (? & -> & ? & _). split_and!; [done..|].
    rewrite length_take, length_content. lia.
  - destruct (consume_variable b n) as [[[a c] b']|m]; [|lia]. by destruct Hv as (? & ? & [? _] & _).
  - apply with_max_len_content.
  - apply drop_min_app.
  - cbn [as_ioslices concat]. rewrite app_nil_r. apply take_min_app.
Qed.
