(* ===== verification/Message.v ===== *)
(** * Message: the peer wire protocol

    Models [crates/librtbit-peer-protocol/src/lib.rs]: [Message], [Piece],
    [Request] and [Handshake] with their serializers, which write into a given
    slice, and parsers, which read a [DoubleBuf].  The codec of the payload of an
    [Extended] message (bencoded, module [extended]) is an argument. *)

From S2P Require Import Prelude Lengths HashId DoubleBuf.

Definition INTEGER_LEN : nat := 4.
Definition MSGID_LEN : nat := 1.
Definition PREAMBLE_LEN : nat := INTEGER_LEN + MSGID_LEN.
Definition PIECE_MESSAGE_PREAMBLE_LEN : nat := PREAMBLE_LEN + INTEGER_LEN * 2.

(** ["BitTorrent protocol"]. *)
Definition PSTR_BT1 : list Z :=
  [66; 105; 116; 84; 111; 114; 114; 101; 110; 116; 32; 112; 114; 111; 116; 111; 99; 111; 108].

Definition MSGID_CHOKE := 0.
Definition MSGID_UNCHOKE := 1.
Definition MSGID_INTERESTED := 2.
Definition MSGID_NOT_INTERESTED := 3.
Definition MSGID_HAVE := 4.
Definition MSGID_BITFIELD := 5.
Definition MSGID_REQUEST := 6.
Definition MSGID_PIECE := 7.
Definition MSGID_CANCEL := 8.
Definition MSGID_PORT := 9.
Definition MSGID_SUGGEST_PIECE := 13.
Definition MSGID_HAVE_ALL := 14.
Definition MSGID_HAVE_NONE := 15.
Definition MSGID_REJECT_REQUEST := 16.
Definition MSGID_ALLOWED_FAST := 17.
Definition MSGID_EXTENDED := 20.

Inductive MessageDeserializeError :=
| NotEnoughData (missing : nat) (msg_id : option Z)
| NeedContiguous
| UnsupportedMessageId (msg_id : Z)
| IncorrectMsgLen (received expected : Z) (msg_id : Z)
| HandshakePstrWrongContent
| HandshakePstrWrongLength (got : Z)
| ExtendedError.

Inductive SerializeError := NoSpaceInBuffer | ExtendedSerializeError.

Record Request := mkRequest {
  rq_index : Z;
  rq_begin : Z;
  rq_length : Z;
}.

Record Piece := mkPiece {
  p_index : Z;
  p_begin : Z;
  block_0 : list Z;
  block_1 : list Z;
}.

Record Handshake := mkHandshake {
  h_reserved : Z;
  h_info_hash : Id;
  h_peer_id : Id;
}.

(** [out[off..off + bytes.len()].copy_from_slice(bytes)]. *)
Definition write_slice (out : list Z) (off : nat) (bytes : list Z) : outcome (list Z) :=
  if (off + length bytes <=? length out)%nat
  then Done (take off out ++ bytes ++ drop (off + length bytes) out) else Panic.

(** ** Pieces and requests *)

Definition piece_len (p : Piece) : nat := (length (block_0 p) + length (block_1 p))%nat.

(** The slices are indexed from [off], where the source reborrows the rest of
    the buffer. *)
Definition serialize_piece_preamble (chunk : ChunkInfo) (out : list Z) :
    outcome (nat * list Z) :=
  let len_prefix := wrap32 (1 + 4 * 2 + ci_size chunk) in
  out ←! write_slice out 0 (be_bytes 4 len_prefix);
  out ←! write_slice out 4 [MSGID_PIECE];
  out ←! write_slice out 5 (be_bytes 4 (ci_piece_index chunk));
  out ←! write_slice out 9 (be_bytes 4 (ci_offset chunk));
  Done (PIECE_MESSAGE_PREAMBLE_LEN, out).

Definition piece_serialize_unchecked_len (p : Piece) (out : list Z) (off : nat) :
    outcome (nat * list Z) :=
  out ←! write_slice out off (be_bytes 4 (p_index p));
  out ←! write_slice out (off + 4) (be_bytes 4 (p_begin p));
  out ←! write_slice out (off + 8) (block_0 p);
  out ←! write_slice out (off + 8 + length (block_0 p)) (block_1 p);
  Done ((8 + length (block_0 p) + length (block_1 p))%nat, out).

Definition request_serialize_unchecked_len (r : Request) (out : list Z) (off : nat) :
    outcome (nat * list Z) :=
  out ←! write_slice out off (be_bytes 4 (rq_index r));
  out ←! write_slice out (off + 4) (be_bytes 4 (rq_begin r));
  out ←! write_slice out (off + 8) (be_bytes 4 (rq_length r));
  Done (12%nat, out).

Section message.
(** The extended messages and their codec: what it writes to a slice, and what
    it reads from a buffer. *)
Context {Ext : Type}.
Variable ext_serialize : Ext -> list Z -> outcome (result SerializeError (nat * list Z)).
Variable ext_deserialize : DoubleBuf -> result MessageDeserializeError Ext.

Inductive Message :=
| MRequest (r : Request)
| MCancel (r : Request)
| MBitfield (b : list Z)
| MKeepAlive
| MHave (v : Z)
| MChoke
| MUnchoke
| MInterested
| MNotInterested
| MPort (port : Z)
| MSuggestPiece (v : Z)
| MHaveAll
| MHaveNone
| MRejectRequest (r : Request)
| MAllowedFast (v : Z)
| MPiece (p : Piece)
| MExtended (e : Ext).

(** [write_preamble!]. *)
Definition write_preamble (out : list Z) (msg_len msg_id : Z) : outcome (list Z) :=
  out ←! write_slice out 0 (be_bytes 4 (wrap32 (msg_len + 1)));
  write_slice out 4 [msg_id].

(** The arms of [serialize] after [check_len!]: [total_len] bytes, of which
    [msg_len] follow the message id, written by [body]. *)
Definition serialize_arm (out : list Z) (total_len : nat) (msg_len msg_id : Z)
    (body : list Z -> outcome (list Z)) : outcome (result SerializeError (nat * list Z)) :=
  if (length out <? total_len)%nat then Done (Err NoSpaceInBuffer)
  else
    out ←! write_preamble out msg_len msg_id;
    out ←! body out;
    Done (Ok (total_len, out)).

Definition serialize (m : Message) (out : list Z) : outcome (result SerializeError (nat * list Z)) :=
  let request r msg_id :=
    serialize_arm out (PREAMBLE_LEN + INTEGER_LEN * 3) (4 * 3) msg_id
      (fun out => o ←! request_serialize_unchecked_len r out PREAMBLE_LEN; Done o.2) in
  let simple msg_id := serialize_arm out PREAMBLE_LEN 0 msg_id Done in
  let word v msg_id :=
    serialize_arm out (PREAMBLE_LEN + INTEGER_LEN) 4 msg_id
      (fun out => write_slice out 5 (be_bytes 4 v)) in
  match m with
  | MRequest r => request r MSGID_REQUEST
  | MCancel r => request r MSGID_CANCEL
  | MRejectRequest r => request r MSGID_REJECT_REQUEST
  | MBitfield b =>
      serialize_arm out (PREAMBLE_LEN + length b) (wrap32 (Z.of_nat (length b))) MSGID_BITFIELD
        (fun out => write_slice out PREAMBLE_LEN b)
  | MChoke => simple MSGID_CHOKE
  | MUnchoke => simple MSGID_UNCHOKE
  | MInterested => simple MSGID_INTERESTED
  | MNotInterested => simple MSGID_NOT_INTERESTED
  | MHaveAll => simple MSGID_HAVE_ALL
  | MHaveNone => simple MSGID_HAVE_NONE
  | MPiece p =>
      let payload_len := (INTEGER_LEN * 2 + piece_len p)%nat in
      serialize_arm out (PREAMBLE_LEN + payload_len) (wrap32 (Z.of_nat payload_len)) MSGID_PIECE
        (fun out => o ←! piece_serialize_unchecked_len p out PREAMBLE_LEN; Done o.2)
  | MKeepAlive =>
      if (length out <? 4)%nat then Done (Err NoSpaceInBuffer)
      else out ←! write_slice out 0 (be_bytes 4 0); Done (Ok (4%nat, out))
  | MHave v => word v MSGID_HAVE
  | MPort port =>
      serialize_arm out (PREAMBLE_LEN + 2) 2 MSGID_PORT
        (fun out => write_slice out 5 (be_bytes 2 port))
  | MSuggestPiece v => word v MSGID_SUGGEST_PIECE
  | MAllowedFast v => word v MSGID_ALLOWED_FAST
  | MExtended e =>
      if (length out <? PREAMBLE_LEN + 2)%nat then Done (Err NoSpaceInBuffer)
      else
        r ←?! ext_serialize e (drop PREAMBLE_LEN out);
        let out := take PREAMBLE_LEN out ++ r.2 in
        out ←! write_preamble out (wrap32 (Z.of_nat r.1)) MSGID_EXTENDED;
        Done (Ok ((PREAMBLE_LEN + r.1)%nat, out))
  end.

(** The [match msg_id] of [deserialize]: [b] starts after the message id and
    holds at least [msg_len] bytes.  The [unwrap]s are [Panic]s. *)
Definition deserialize_payload (len_prefix msg_id : Z) (msg_len total_len : nat) (b : DoubleBuf) :
    outcome (result MessageDeserializeError (Message * nat)) :=
  let check_msg_len (expected : nat)
      (k : outcome (result MessageDeserializeError (Message * nat))) :=
    if negb (msg_len =? expected)%nat
    then Done (Err (IncorrectMsgLen (len_prefix - 1) (Z.of_nat expected) msg_id))
    else k in
  let simple m := check_msg_len 0%nat (Done (Ok (m, total_len))) in
  let word (f : Z -> Message) := check_msg_len 4%nat
    match read_u32_be b with
    | Ok (v, _) => Done (Ok (f v, total_len))
    | Err _ => Panic
    end in
  let request (f : Request -> Message) := check_msg_len 12%nat
    match consume b 12 with
    | Ok (req, _) =>
        Done (Ok (f (mkRequest (to_Z (take 4 req)) (to_Z (take 4 (drop 4 req)))
                       (to_Z (take 4 (drop 8 req)))), total_len))
    | Err _ => Panic
    end in
  if msg_id =? MSGID_CHOKE then simple MChoke
  else if msg_id =? MSGID_UNCHOKE then simple MUnchoke
  else if msg_id =? MSGID_INTERESTED then simple MInterested
  else if msg_id =? MSGID_NOT_INTERESTED then simple MNotInterested
  else if msg_id =? MSGID_HAVE then word MHave
  else if msg_id =? MSGID_PORT then check_msg_len 2%nat
    match consume b 2 with
    | Ok (port, _) => Done (Ok (MPort (to_Z port), total_len))
    | Err _ => Panic
    end
  else if msg_id =? MSGID_SUGGEST_PIECE then word MSuggestPiece
  else if msg_id =? MSGID_ALLOWED_FAST then word MAllowedFast
  else if msg_id =? MSGID_HAVE_ALL then simple MHaveAll
  else if msg_id =? MSGID_HAVE_NONE then simple MHaveNone
  else if msg_id =? MSGID_BITFIELD then
    if (msg_len <? 1)%nat then Done (Err (IncorrectMsgLen (len_prefix - 1) 1 msg_id))
    else
      match get_contiguous b msg_len with
      | Some data => Done (Ok (MBitfield data, total_len))
      | None => Done (Err NeedContiguous)
      end
  else if msg_id =? MSGID_REQUEST then request MRequest
  else if msg_id =? MSGID_CANCEL then request MCancel
  else if msg_id =? MSGID_REJECT_REQUEST then request MRejectRequest
  else if msg_id =? MSGID_PIECE then
    if (msg_len <? 9)%nat then Done (Err (IncorrectMsgLen (Z.of_nat msg_len) 9 msg_id))
    else
      match read_u32_be b with
      | Err _ => Panic
      | Ok (index, b) =>
          match read_u32_be b with
          | Err _ => Panic
          | Ok (begin_, b) =>
              match consume_variable b (msg_len - INTEGER_LEN * 2) with
              | Err _ => Panic
              | Ok ((b0, b1), _) => Done (Ok (MPiece (mkPiece index begin_ b0 b1), total_len))
              end
          end
      end
  else if msg_id =? MSGID_EXTENDED then
    match ext_deserialize (with_max_len b msg_len) with
    | Ok e => Done (Ok (MExtended e, (PREAMBLE_LEN + msg_len)%nat))
    | Err err => Done (Err err)
    end
  else Done (Err (UnsupportedMessageId msg_id)).

(** [Message::deserialize]: the message and its length in bytes. *)
Definition deserialize (buf buf2 : list Z) :
    outcome (result MessageDeserializeError (Message * nat)) :=
  match read_u32_be (mkDoubleBuf buf buf2) with
  | Err rem => Done (Err (NotEnoughData rem None))
  | Ok (len_prefix, b) =>
      let total_len := (Z.to_nat len_prefix + 4)%nat in
      if len_prefix =? 0 then Done (Ok (MKeepAlive, total_len))
      else
        match read_u8 b with
        | None => Done (Err (NotEnoughData (Z.to_nat len_prefix) None))
        | Some (msg_id, b) =>
            let msg_len := (Z.to_nat len_prefix - 1)%nat in
            if (len b <? msg_len)%nat
            then Done (Err (NotEnoughData (msg_len - len b) (Some msg_id)))
            else deserialize_payload len_prefix msg_id msg_len total_len b
        end
  end.

End message.
Arguments Message : clear implicits.

(** ** Handshake *)

Definition handshake_new (info_hash peer_id : Id) : Handshake :=
  let reserved := 0 in
  let reserved := Z.lor reserved (Z.shiftl 1 20) in
  let reserved := Z.lor reserved 1 in
  let reserved := Z.lor reserved (Z.shiftl 1 2) in
  mkHandshake reserved info_hash peer_id.

Definition HANDSHAKE_LEN : nat := 68.

Definition handshake_deserialize (b : list Z) : result MessageDeserializeError (Handshake * nat) :=
  if (length b <? HANDSHAKE_LEN)%nat then Err (NotEnoughData (HANDSHAKE_LEN - length b) None)
  else
    let first := nth 0 b 0 in
    if negb (first =? Z.of_nat (length PSTR_BT1)) then Err (HandshakePstrWrongLength first)
    else if negb (bool_decide (take 19 (drop 1 b) = PSTR_BT1)) then Err HandshakePstrWrongContent
    else
      Ok (mkHandshake (to_Z (take 8 (drop 20 b))) (take 20 (drop 28 b)) (take 20 (drop 48 b)),
          HANDSHAKE_LEN).

Definition supports_extended (h : Handshake) : bool :=
  0 <? Z.land (nth 5 (be_bytes 8 (h_reserved h)) 0) 16.
Definition supports_dht (h : Handshake) : bool := negb (Z.land (h_reserved h) 1 =? 0).
Definition supports_fast (h : Handshake) : bool :=
  negb (Z.land (h_reserved h) (Z.shiftl 1 2) =? 0).

Definition handshake_serialize_unchecked_len (h : Handshake) (out : list Z) :
    outcome (nat * list Z) :=
  out ←! write_slice out 0 [19];
  out ←! write_slice out 1 PSTR_BT1;
  out ←! write_slice out 20 (be_bytes 8 (h_reserved h));
  out ←! write_slice out 28 (h_info_hash h);
  out ←! write_slice out 48 (h_peer_id h);
  Done (HANDSHAKE_LEN, out).

(** ** The wire format *)
Section wire.
Context {Ext : Type}.
Variable ext_serialize : Ext -> list Z -> outcome (result SerializeError (nat * list Z)).
Variable ext_deserialize : DoubleBuf -> result MessageDeserializeError Ext.
Implicit Types m : Message Ext.

Definition request_bytes (r : Request) : list Z :=
  be_bytes 4 (rq_index r) ++ be_bytes 4 (rq_begin r) ++ be_bytes 4 (rq_length r).

Definition piece_bytes (p : Piece) : list Z :=
  be_bytes 4 (p_index p) ++ be_bytes 4 (p_begin p) ++ block_0 p ++ block_1 p.

(** The id and the payload of a message that is not extended. *)
Definition frame m : option (Z * list Z) :=
  match m with
  | MRequest r => Some (MSGID_REQUEST, request_bytes r)
  | MCancel r => Some (MSGID_CANCEL, request_bytes r)
  | MRejectRequest r => Some (MSGID_REJECT_REQUEST, request_bytes r)
  | MBitfield b => Some (MSGID_BITFIELD, b)
  | MHave v => Some (MSGID_HAVE, be_bytes 4 v)
  | MChoke => Some (MSGID_CHOKE, [])
  | MUnchoke => Some (MSGID_UNCHOKE, [])
  | MInterested => Some (MSGID_INTERESTED, [])
  | MNotInterested => Some (MSGID_NOT_INTERESTED, [])
  | MPort p => Some (MSGID_PORT, be_bytes 2 p)
  | MSuggestPiece v => Some (MSGID_SUGGEST_PIECE, be_bytes 4 v)
  | MHaveAll => Some (MSGID_HAVE_ALL, [])
  | MHaveNone => Some (MSGID_HAVE_NONE, [])
  | MAllowedFast v => Some (MSGID_ALLOWED_FAST, be_bytes 4 v)
  | MPiece p => Some (MSGID_PIECE, piece_bytes p)
  | MKeepAlive => None
  | MExtended _ => None
  end.

(** The bytes of a message that is not extended: a big-endian length, the id,
    the payload; a keep-alive is a zero length. *)
Definition encode m : list Z :=
  match frame m with
  | Some (msg_id, payload) => be_bytes 4 (1 + Z.of_nat (length payload)) ++ msg_id :: payload
  | None => be_bytes 4 0
  end.

Definition not_extended m : Prop := match m with MExtended _ => False | _ => True end.

(** The fields are machine integers and the length fits its prefix. *)
Definition wf_request (r : Request) : Prop :=
  is_u32 (rq_index r) /\ is_u32 (rq_begin r) /\ is_u32 (rq_length r).

Definition wf_message m : Prop :=
  match m with
  | MRequest r | MCancel r | MRejectRequest r => wf_request r
  | MBitfield b => 0 < Z.of_nat (length b) < U32 - 1
  | MHave v | MSuggestPiece v | MAllowedFast v => is_u32 v
  | MPort p => is_u16 p
  | MPiece p => is_u32 (p_index p) /\ is_u32 (p_begin p) /\ 0 < Z.of_nat (piece_len p) < U32 - 9
  | _ => True
  end.

Lemma write_append (pre r bytes : list Z) (off : nat) : off = length pre ->
  (length bytes <= length r)%nat ->
  write_slice (pre ++ r) off bytes = Done ((pre ++ bytes) ++ drop (length bytes) r).
Proof.
  intros -> Hl. unfold write_slice. rewrite length_app.
  destruct (Nat.leb_spec (length pre + length bytes) (length pre + length r)); [|lia].
  rewrite take_app_length, drop_app_ge by lia.
  replace (length pre + length bytes - length pre)%nat with (length bytes) by lia.
  by rewrite app_assoc.
Qed.

(** An arm writes the preamble and what its body appends. *)
Lemma serialize_arm_spec out total msg_len msg_id payload body :
  total = (5 + length payload)%nat -> msg_len = Z.of_nat (length payload) ->
  1 + msg_len < U32 ->
  (forall pre r, length pre = 5%nat -> (length payload <= length r)%nat ->
     body (pre ++ r) = Done ((pre ++ payload) ++ drop (length payload) r)) ->
  serialize_arm out total msg_len msg_id body =
  if (length out <? total)%nat then Done (Err NoSpaceInBuffer)
  else Done (Ok (total, (be_bytes 4 (1 + msg_len) ++ msg_id :: payload) ++ drop total out)).
Proof.
  intros -> -> Hlt Hbody. unfold serialize_arm.
  destruct (Nat.ltb_spec (length out) (5 + length payload)); [done|].
  unfold write_preamble. rewrite wrap32_small by lia. rewrite (Z.add_comm _ 1).
  rewrite (write_append [] out) by (rewrite ?length_be_bytes; simpl; lia). rsimpl.
  rewrite length_be_bytes. rewrite app_nil_l.
  rewrite write_append by (rewrite ?length_be_bytes, ?length_drop; simpl; lia). rsimpl.
  rewrite Hbody.
  - rsimpl. do 3 f_equal. rewrite !drop_drop. rewrite <- !app_assoc. cbn [app length].
    by do 3 f_equal.
  - rewrite length_app, length_be_bytes. done.
  - rewrite !length_drop. simpl. lia.
Qed.

Lemma word_body v (pre r : list Z) : length pre = 5%nat -> (length (be_bytes 4 v) <= length r)%nat ->
  write_slice (pre ++ r) 5 (be_bytes 4 v) =
  Done ((pre ++ be_bytes 4 v) ++ drop (length (be_bytes 4 v)) r).
Proof. intros Hp Hl. by apply write_append. Qed.

Ltac write_step := rewrite write_append;
  [|rewrite ?length_app, ?length_be_bytes; simpl; lia
   |rewrite ?length_drop, ?length_be_bytes; simpl in *; lia]; rsimpl.

Lemma request_body r0 (pre r : list Z) : length pre = 5%nat ->
  (length (request_bytes r0) <= length r)%nat ->
  (o ←! request_serialize_unchecked_len r0 (pre ++ r) PREAMBLE_LEN; Done o.2) =
  Done ((pre ++ request_bytes r0) ++ drop (length (request_bytes r0)) r).
Proof.
  intros Hp Hl. unfold request_bytes in *. rewrite !length_app, !length_be_bytes in *.
  unfold request_serialize_unchecked_len, PREAMBLE_LEN, INTEGER_LEN, MSGID_LEN.
  do 3 write_step. cbn [snd]. rewrite !length_be_bytes, !drop_drop, <- !app_assoc. done.
Qed.

Lemma piece_body p (pre r : list Z) : length pre = 5%nat ->
  (length (piece_bytes p) <= length r)%nat ->
  (o ←! piece_serialize_unchecked_len p (pre ++ r) PREAMBLE_LEN; Done o.2) =
  Done ((pre ++ piece_bytes p) ++ drop (length (piece_bytes p)) r).
Proof.
  intros Hp Hl. unfold piece_bytes in *. rewrite !length_app, !length_be_bytes in *.
  unfold piece_serialize_unchecked_len, PREAMBLE_LEN, INTEGER_LEN, MSGID_LEN.
  do 4 write_step. cbn [snd]. rewrite !length_be_bytes, !drop_drop, <- !app_assoc.
  by do 5 f_equal; lia.
Qed.

(** [serialize] writes the wire format when it fits, and fails otherwise. *)
Lemma serialize_encode m out : not_extended m -> wf_message m ->
  serialize ext_serialize m out =
  if (length out <? length (encode m))%nat then Done (Err NoSpaceInBuffer)
  else Done (Ok (length (encode m), encode m ++ drop (length (encode m)) out)).
Proof.
  intros Hne Hwf. assert (Harm : forall total msg_len msg_id payload body,
    frame m = Some (msg_id, payload) -> total = (5 + length payload)%nat ->
    msg_len = Z.of_nat (length payload) -> 1 + msg_len < U32 ->
    (forall pre r, length pre = 5%nat -> (length payload <= length r)%nat ->
       body (pre ++ r) = Done ((pre ++ payload) ++ drop (length payload) r)) ->
    serialize_arm out total msg_len msg_id body =
    if (length out <? length (encode m))%nat then Done (Err NoSpaceInBuffer)
    else Done (Ok (length (encode m), encode m ++ drop (length (encode m)) out))).
  { intros total msg_len msg_id payload body Hf -> -> Hlt Hb.
    rewrite (serialize_arm_spec out (5 + length payload) _ msg_id payload body) by done.
    assert (Hel : length (encode m) = (5 + length payload)%nat).
    { unfold encode. rewrite Hf, length_app, length_be_bytes. simpl. lia. }
    rewrite Hel. unfold encode. by rewrite Hf. }
  destruct m; cbn [serialize] in *; try done;
    try (eapply Harm; [reflexivity|reflexivity|reflexivity|simpl; lia|intros; by apply word_body]);
    try (eapply Harm; [reflexivity|reflexivity|reflexivity|simpl; lia|intros; by apply request_body]);
    try (eapply Harm; [reflexivity|reflexivity|reflexivity|simpl; lia|
         intros pre r _ _; simpl; by rewrite app_nil_r]).
  - cbn [wf_message] in Hwf. rewrite wrap32_small by lia.
    eapply Harm; [reflexivity|reflexivity|reflexivity|lia|]. intros pre r Hp Hl. by apply write_append.
  - unfold encode. cbn [frame]. rewrite length_be_bytes.
    destruct (Nat.ltb_spec (length out) 4); [done|].
    rewrite (write_append [] out) by (rewrite ?length_be_bytes; simpl; lia). done.
  - eapply Harm; [reflexivity|reflexivity|reflexivity|simpl; lia|]. intros pre r Hp Hl. by apply write_append.
  - cbn [wf_message] in Hwf. destruct Hwf as (_ & _ & Hlen).
    assert (Hpl : length (piece_bytes p) = (8 + piece_len p)%nat).
    { unfold piece_bytes, piece_len. rewrite !length_app, !length_be_bytes. lia. }
    rewrite wrap32_small by (simpl; lia).
    eapply Harm; [reflexivity|rewrite Hpl; simpl; lia|rewrite Hpl; simpl; lia|simpl; lia|].
    intros pre r Hp Hl. by apply piece_body.
Qed.

(** ** Reading it back *)

Lemma take_app_exact (l1 l2 : list Z) n : n = length l1 -> take n (l1 ++ l2) = l1.
Proof. intros ->. apply take_app_length. Qed.

Lemma drop_app_exact (l1 l2 : list Z) n : n = length l1 -> drop n (l1 ++ l2) = l2.
Proof. intros ->. apply drop_app_length. Qed.

(** The length and the id are read, then the payload. *)
Lemma deserialize_frame buf buf2 msg_id payload r : 1 + Z.of_nat (length payload) < U32 ->
  buf ++ buf2 = (be_bytes 4 (1 + Z.of_nat (length payload)) ++ msg_id :: payload) ++ r ->
  exists b, deserialize ext_deserialize buf buf2 =
      deserialize_payload ext_deserialize (1 + Z.of_nat (length payload)) msg_id (length payload)
        (length payload + 5) b /\
    content b = payload ++ r /\ buf_0 b = drop 5 buf.
Proof.
  intros Hlt Hbuf. unfold deserialize.
  pose proof (read_u32_be_spec (mkDoubleBuf buf buf2)) as H4.
  assert (Hc : content (mkDoubleBuf buf buf2) =
    be_bytes 4 (1 + Z.of_nat (length payload)) ++ msg_id :: payload ++ r).
  { unfold content. cbn [buf_0 buf_1]. rewrite Hbuf, <- app_assoc. done. }
  assert (Hlen : (9 - 4 + length payload + length r = len (mkDoubleBuf buf buf2))%nat).
  { rewrite <- length_content, Hc, length_app, length_be_bytes. simpl. rewrite length_app. lia. }
  destruct (read_u32_be _) as [[v b1]|m]; [|lia]. destruct H4 as (_ & -> & Hr1 & Hb1).
  rewrite Hc in Hr1. rewrite drop_app_exact in Hr1 by (by rewrite length_be_bytes).
  rewrite Hc, take_app_exact by (by rewrite length_be_bytes). rewrite be_u32 by (unfold is_u32; lia).
  destruct (Z.eqb_spec (1 + Z.of_nat (length payload)) 0); [lia|].
  pose proof (read_u8_spec b1) as H1. destruct (read_u8 b1) as [[v b2]|].
  2: { by rewrite Hr1 in H1. }
  destruct H1 as (Hh & Hr2 & Hb2). rewrite Hr1 in Hh, Hr2. injection Hh as <-. simpl in Hr2.
  replace (Z.to_nat (1 + Z.of_nat (length payload)) - 1)%nat with (length payload) by lia.
  replace (Z.to_nat (1 + Z.of_nat (length payload)) + 4)%nat with (length payload + 5)%nat by lia.
  rewrite drop_0 in Hr2.
  destruct (Nat.ltb_spec (len b2) (length payload)).
  { rewrite <- length_content, Hr2, length_app in H. lia. }
  exists b2. split_and!; [done|done|]. rewrite Hb2, Hb1. cbn [buf_0]. by rewrite drop_drop.
Qed.

(** Messages that differ in where a block is split only. *)
Definition same_message m m' : Prop :=
  match m, m' with
  | MPiece p, MPiece q => p_index q = p_index p /\ p_begin q = p_begin p /\
      block_0 q ++ block_1 q = block_0 p ++ block_1 p
  | _, _ => m' = m
  end.

Lemma read_word v b r : is_u32 v -> content b = be_bytes 4 v ++ r ->
  exists b', read_u32_be b = Ok (v, b') /\ content b' = r.
Proof.
  intros Hv Hb. pose proof (read_u32_be_spec b) as Hr.
  assert (Hl : (4 <= len b)%nat) by (rewrite <- length_content, Hb, length_app, length_be_bytes; lia).
  destruct (read_u32_be b) as [[v' b']|m]; [|lia]. destruct Hr as (_ & -> & Hr & _).
  rewrite Hb, take_app_exact, be_u32 by (done || by rewrite length_be_bytes). exists b'. split; [done|].
  by rewrite Hr, Hb, drop_app_exact by (by rewrite length_be_bytes).
Qed.

Lemma read_request q b r : wf_request q -> content b = request_bytes q ++ r ->
  exists req b', consume b 12 = Ok (req, b') /\
    mkRequest (to_Z (take 4 req)) (to_Z (take 4 (drop 4 req))) (to_Z (take 4 (drop 8 req))) = q.
Proof.
  intros (H1 & H2 & H3) Hb. pose proof (consume_spec b 12) as Hc.
  assert (Hq : length (request_bytes q) = 12%nat).
  { unfold request_bytes. by rewrite !length_app, !length_be_bytes. }
  assert (Hl : (12 <= len b)%nat) by (rewrite <- length_content, Hb, length_app; lia).
  destruct (consume b 12) as [[req b']|m]; [|lia]. destruct Hc as (_ & -> & _).
  rewrite Hb, take_app_exact by done. eexists _, b'. split; [done|]. unfold request_bytes.
  rewrite take_app_exact by (by rewrite length_be_bytes).
  rewrite drop_app_exact, take_app_exact by (by rewrite length_be_bytes).
  rewrite app_assoc, drop_app_exact by (by rewrite length_app, !length_be_bytes).
  rewrite take_ge by (by rewrite length_be_bytes). rewrite !be_u32 by done. by destruct q.
Qed.

Lemma payload_roundtrip m fr r b lp total : wf_message m ->
  frame m = Some fr -> content b = fr.2 ++ r ->
  (exists m', deserialize_payload ext_deserialize lp fr.1 (length fr.2) total b =
      Done (Ok (m', total)) /\ same_message m m') \/
  (deserialize_payload ext_deserialize lp fr.1 (length fr.2) total b = Done (Err NeedContiguous) /\
   (0 < length (buf_0 b) < length fr.2)%nat /\ exists bs, m = MBitfield bs).
Proof.
  intros Hwf Hf Hb. unfold deserialize_payload.
  destruct m; cbn [frame] in Hf; try done; apply (inj Some) in Hf; subst fr; cbn [fst snd] in *;
    cbn [wf_message] in Hwf; rewrite ?length_be_bytes;
    cbn -[be_bytes read_u32_be consume consume_variable get_contiguous Nat.ltb Nat.sub Nat.mul to_Z
          piece_bytes content app];
    try (left; by eexists);
    try (left; destruct (read_word _ b r Hwf Hb) as (b' & -> & _); by eexists);
    try (left; destruct (read_request _ b r Hwf Hb) as (req & b' & -> & <-); by eexists).
  - destruct (Nat.ltb_spec (length b0) 1); [lia|].
    destruct (get_contiguous b (length b0)) as [l|] eqn:Hg.
    + left. apply get_contiguous_spec in Hg as [_ ->]. rewrite Hb, take_app_exact by done. by eexists.
    + right. split; [done|]. split; [|by eexists]. revert Hg. unfold get_contiguous.
      apply (f_equal length) in Hb. unfold content in Hb. rewrite !length_app in Hb.
      destruct (Nat.leb_spec (length b0) (length (buf_0 b))); [done|].
      destruct (Nat.eqb_spec (length (buf_0 b)) 0); cbn [andb]; [|lia].
      destruct (Nat.leb_spec (length b0) (length (buf_1 b))); [done|lia].
  - left. pose proof (consume_spec b 2) as Hc.
    assert (Hl : (2 <= len b)%nat) by (rewrite <- length_content, Hb, length_app, length_be_bytes; lia).
    destruct (consume b 2) as [[p b']|k]; [|lia]. destruct Hc as (_ & -> & _).
    rewrite Hb, take_app_exact, be_u16 by (done || by rewrite length_be_bytes). by eexists.
  - left. destruct Hwf as (Hi & Hbg & Hlen).
    assert (Hpl : length (piece_bytes p) = (8 + piece_len p)%nat).
    { unfold piece_bytes, piece_len. rewrite !length_app, !length_be_bytes. lia. }
    rewrite Hpl. destruct (Nat.ltb_spec (8 + piece_len p) 9); [lia|].
    unfold piece_bytes in Hb. rewrite <- !app_assoc in Hb.
    destruct (read_word _ b _ Hi Hb) as (b1 & -> & Hb1).
    destruct (read_word _ b1 _ Hbg Hb1) as (b2 & -> & Hb2).
    pose proof (consume_variable_spec b2 (8 + piece_len p - INTEGER_LEN * 2)) as Hc.
    replace (8 + piece_len p - INTEGER_LEN * 2)%nat with (piece_len p) in * by (unfold INTEGER_LEN; lia).
    assert (Hl : (piece_len p <= len b2)%nat).
    { rewrite <- length_content, Hb2, app_assoc, !length_app. unfold piece_len. lia. }
    destruct (consume_variable b2 (piece_len p)) as [[[x y] b3]|k]; [|lia].
    destruct Hc as (_ & Hxy & _). eexists. split; [done|]. cbn [same_message p_index p_begin block_0 block_1].
    split_and!; [done..|]. rewrite Hxy, Hb2, app_assoc, take_app_exact; [done|].
    unfold piece_len. by rewrite length_app.
Qed.

Lemma frame_length m msg_id payload : wf_message m -> frame m = Some (msg_id, payload) ->
  1 + Z.of_nat (length payload) < U32.
Proof.
  intros Hwf Hf. destruct m; cbn [frame wf_message] in *; try done; apply (inj Some), pair_eq in Hf as [_ <-];
    unfold request_bytes, piece_bytes, piece_len in *; rewrite ?length_app, ?length_be_bytes; simpl; lia.
Qed.

(** The parser returned, and a message is [total] bytes long. *)
Definition parsed (total : nat)
    (o : outcome (result MessageDeserializeError (Message Ext * nat))) : Prop :=
  exists r, o = Done r /\ forall m n, r = Ok (m, n) -> n = total.

Lemma parsed_err total e : parsed total (Done (Err e)).
Proof. eexists. split; [done|]. done. Qed.

Lemma parsed_ok total m : parsed total (Done (Ok (m, total))).
Proof. eexists. split; [done|]. by intros ? ? [= _ <-]. Qed.

Lemma parsed_if total (c : bool) o1 o2 : (c = true -> parsed total o1) ->
  (c = false -> parsed total o2) -> parsed total (if c then o1 else o2).
Proof. destruct c; auto. Qed.

Lemma parsed_consume total b n k : (n <= len b)%nat ->
  (forall x b', consume b n = Ok (x, b') -> parsed total (k x b')) ->
  parsed total match consume b n with Ok (x, b') => k x b' | Err _ => Panic end.
Proof.
  intros Hl Hk. pose proof (consume_spec b n) as Hc.
  destruct (consume b n) as [[x b']|e]; [by apply Hk|lia].
Qed.

Lemma parsed_word total b k : (4 <= len b)%nat ->
  (forall x b', len b' = (len b - 4)%nat -> parsed total (k x b')) ->
  parsed total match read_u32_be b with Ok (x, b') => k x b' | Err _ => Panic end.
Proof.
  intros Hl Hk. pose proof (read_u32_be_spec b) as Hc.
  destruct (read_u32_be b) as [[x b']|e]; [|lia]. apply Hk.
  destruct Hc as (_ & _ & Hr & _). by rewrite <- !length_content, Hr, length_drop.
Qed.

(** With the announced bytes there, no reader of a payload runs out of input. *)
Lemma payload_total lp msg_id msg_len b : (msg_len <= len b)%nat ->
  parsed (msg_len + 5) (deserialize_payload ext_deserialize lp msg_id msg_len (msg_len + 5) b).
Proof.
  intros Hl. unfold deserialize_payload.
  repeat (apply parsed_if; intros ?);
    repeat match goal with
    | H : negb _ = false |- _ => apply negb_false_iff, Nat.eqb_eq in H; subst
    | H : (_ <? _)%nat = false |- _ => apply Nat.ltb_ge in H
    end;
    try apply parsed_err; try apply parsed_ok;
    try (apply parsed_word; [lia|intros; apply parsed_ok]);
    try (apply parsed_consume; [lia|intros; apply parsed_ok]).
  - destruct (get_contiguous b msg_len); [apply parsed_ok|apply parsed_err].
  - apply parsed_word; [lia|]. intros i b1 Hb1.
    apply parsed_word; [clear - Hb1 Hl H14; lia|]. intros j b2 Hb2.
    pose proof (consume_variable_spec b2 (msg_len - INTEGER_LEN * 2)) as Hc.
    destruct (consume_variable b2 _) as [[[x y] b3]|e]; [apply parsed_ok|].
    clear - Hc Hb1 Hb2 Hl. unfold INTEGER_LEN in *. lia.
  - destruct (ext_deserialize _); [|apply parsed_err].
    replace (PREAMBLE_LEN + msg_len)%nat with (msg_len + 5)%nat by (unfold PREAMBLE_LEN; simpl; lia).
    apply parsed_ok.
Qed.

(** What [serialize] writes for any message but an extended one is exactly
    its wire format (a big-endian length, the id, the payload), the rest of the
    slice is left alone, and the only failure is a slice that is too short. *)
Theorem serialize_writes_wire_format m out : not_extended m -> wf_message m ->
  serialize ext_serialize m out =
  if (length out <? length (encode m))%nat then Done (Err NoSpaceInBuffer)
  else Done (Ok (length (encode m), encode m ++ drop (length (encode m)) out)).
Proof. apply serialize_encode. Qed.

(** Reading an encoded message, wherever the input is split: only a bitfield
    split in the middle has to be made contiguous first. *)
Lemma deserialize_encoded m buf buf2 r : not_extended m -> wf_message m ->
  buf ++ buf2 = encode m ++ r ->
  (exists m', deserialize ext_deserialize buf buf2 = Done (Ok (m', length (encode m))) /\ same_message m m') \/
  (deserialize ext_deserialize buf buf2 = Done (Err NeedContiguous) /\
   (5 < length buf < length (encode m))%nat /\ exists bs, m = MBitfield bs).
Proof.
  intros Hne Hwf Hbuf. destruct (frame m) as [[msg_id payload]|] eqn:Ef.
  - assert (Henc : encode m = be_bytes 4 (1 + Z.of_nat (length payload)) ++ msg_id :: payload).
    { unfold encode. by rewrite Ef. }
    assert (Hlen : length (encode m) = (length payload + 5)%nat).
    { rewrite Henc, length_app, length_be_bytes. simpl. lia. }
    assert (Hlt : 1 + Z.of_nat (length payload) < U32) by (by eapply frame_length).
    rewrite Henc in Hbuf.
    destruct (deserialize_frame buf buf2 msg_id payload r Hlt Hbuf) as (b & -> & Hb & Hb0).
    rewrite Hlen.
    destruct (payload_roundtrip m (msg_id, payload) r b (1 + Z.of_nat (length payload))
                (length payload + 5) Hwf Ef Hb) as [?|(Hn & Hl & Hbs)]; [by left|right].
    split; [done|]. split; [|done]. cbn [snd] in Hl. rewrite Hb0, length_drop in Hl. lia.
  - destruct m; try done. left. exists MKeepAlive. split; [|done].
    unfold encode in *. cbn [frame] in *. unfold deserialize.
    destruct (read_word 0 (mkDoubleBuf buf buf2) r) as (b' & -> & _); [done|exact Hbuf|].
    cbn [Z.eqb]. by rewrite length_be_bytes.
Qed.


(** What the parser does with too few bytes: it asks for the first word, or for
    exactly what is missing of the announced message. *)
Lemma deserialize_cases buf buf2 : Forall is_u8 (buf ++ buf2) ->
  let c := buf ++ buf2 in
  let announced := (4 + Z.to_nat (to_Z (take 4 c)))%nat in
  if (length c <? 4)%nat
  then deserialize ext_deserialize buf buf2 = Done (Err (NotEnoughData (4 - length c) None))
  else if (length c <? announced)%nat
  then exists o, deserialize ext_deserialize buf buf2 = Done (Err (NotEnoughData (announced - length c) o))
  else parsed announced (deserialize ext_deserialize buf buf2).
Proof.
  intros Hu c announced. unfold deserialize.
  pose proof (read_u32_be_spec (mkDoubleBuf buf buf2)) as H4.
  change (content (mkDoubleBuf buf buf2)) with c in H4.
  assert (Hc : len (mkDoubleBuf buf buf2) = length c) by (rewrite <- length_content; done).
  rewrite Hc in H4. destruct (Nat.ltb_spec (length c) 4) as [Hs|Hs].
  { destruct (read_u32_be _) as [[v b]|k]; [lia|]. by destruct H4 as [_ ->]. }
  destruct (read_u32_be _) as [[v b1]|k]; [|lia]. destruct H4 as (_ & -> & Hr1 & _).
  change (content (mkDoubleBuf buf buf2)) with c in Hr1.
  set (lp := to_Z (take 4 c)) in *.
  assert (Hlp : 0 <= lp).
  { apply (to_Z_bound 4). split; [len_lia|]. by apply Forall_take. }
  destruct (Z.eqb_spec lp 0) as [Hz|Hz].
  { destruct (Nat.ltb_spec (length c) announced); [unfold announced in *; lia|].
    replace announced with (Z.to_nat lp + 4)%nat by (unfold announced; lia). apply parsed_ok. }
  pose proof (read_u8_spec b1) as H1. destruct (read_u8 b1) as [[msg_id b2]|].
  2: { assert (Hl : length c = 4%nat).
       { apply (f_equal length) in Hr1. rewrite H1, length_drop in Hr1. simpl in Hr1. lia. }
       destruct (Nat.ltb_spec (length c) announced) as [|Hge]; [|unfold announced in *; lia].
       eexists. do 3 f_equal. unfold announced. lia. }
  destruct H1 as (Hhd & Hr2 & _).
  assert (Hl2 : len b2 = (length c - 5)%nat /\ (5 <= length c)%nat).
  { rewrite <- length_content, Hr2, Hr1, !length_drop. split; [lia|].
    assert (0 < length (content b1))%nat by (destruct (content b1); [done|simpl; lia]).
    rewrite Hr1, length_drop in *. lia. }
  destruct Hl2 as [Hl2 H5]. rewrite Hl2.
  destruct (Nat.ltb_spec (length c - 5) (Z.to_nat lp - 1)) as [Hshort|Hfull].
  - destruct (Nat.ltb_spec (length c) announced) as [|Hge]; [|unfold announced in *; lia].
    eexists. do 3 f_equal. unfold announced. lia.
  - destruct (Nat.ltb_spec (length c) announced) as [Hlt|Hge]; [unfold announced in *; lia|].
    replace announced with (Z.to_nat lp - 1 + 5)%nat by (unfold announced; lia).
    replace (Z.to_nat lp + 4)%nat with (Z.to_nat lp - 1 + 5)%nat by lia.
    apply payload_total. lia.
Qed.


End wire.

(** ** Handshakes *)

Lemma write_at (pre bytes r : list Z) (out : list Z) (off : nat) :
  out = pre ++ r -> off = length pre -> (length bytes <= length r)%nat ->
  write_slice out off bytes = Done ((pre ++ bytes) ++ drop (length bytes) r).
Proof. intros ->. apply write_append. Qed.

Definition wf_handshake (h : Handshake) : Prop :=
  is_u64 (h_reserved h) /\ wf_id 20 (h_info_hash h) /\ wf_id 20 (h_peer_id h).

(** The 68 bytes of a handshake. *)
Definition encode_handshake (h : Handshake) : list Z :=
  19 :: PSTR_BT1 ++ be_bytes 8 (h_reserved h) ++ h_info_hash h ++ h_peer_id h.

Lemma handshake_encoded h out : length (h_info_hash h) = 20%nat -> length (h_peer_id h) = 20%nat ->
  (68 <= length out)%nat ->
  handshake_serialize_unchecked_len h out = Done (HANDSHAKE_LEN, encode_handshake h ++ drop 68 out).
Proof.
  intros Hi Hp Hl. unfold handshake_serialize_unchecked_len.
  rewrite (write_at [] [19] out) by (done || simpl; lia). rsimpl.
  do 4 (rewrite write_append;
    [|rewrite ?length_app, ?length_be_bytes, ?Hi; reflexivity
     |rewrite ?length_drop, ?length_be_bytes, ?Hi, ?Hp; simpl; lia]; rsimpl).
  rewrite Hp, Hi, length_be_bytes, !drop_drop. unfold encode_handshake.
  by rewrite <- app_comm_cons, <- !app_assoc.
Qed.

Lemma length_encode_handshake h : wf_handshake h -> length (encode_handshake h) = 68%nat.
Proof.
  intros (_ & [Hi _] & [Hp _]). unfold encode_handshake. cbn [length].
  by rewrite !length_app, length_be_bytes, Hi, Hp.
Qed.

Lemma handshake_deserialize_encoded h r : wf_handshake h ->
  handshake_deserialize (encode_handshake h ++ r) = Ok (h, 68%nat).
Proof.
  intros Hwf. pose proof (length_encode_handshake h Hwf) as Hlen. destruct Hwf as (Hr & [Hi _] & [Hp _]).
  unfold handshake_deserialize.
  destruct (Nat.ltb_spec (length (encode_handshake h ++ r)) HANDSHAKE_LEN) as [Hs|_].
  { rewrite length_app, Hlen in Hs. unfold HANDSHAKE_LEN in Hs. lia. }
  set (x := be_bytes 8 (h_reserved h) ++ h_info_hash h ++ h_peer_id h).
  assert (He : encode_handshake h ++ r = 19 :: PSTR_BT1 ++ x ++ r).
  { unfold encode_handshake. fold x. by rewrite <- app_comm_cons, <- app_assoc. }
  rewrite He. cbn [nth]. change (19 =? Z.of_nat (length PSTR_BT1)) with true. cbn [negb].
  change (drop 1 (19 :: PSTR_BT1 ++ x ++ r)) with (PSTR_BT1 ++ x ++ r).
  rewrite (take_app_exact PSTR_BT1) by done. rewrite bool_decide_true by done. cbn [negb].
  change (drop 20 (19 :: PSTR_BT1 ++ x ++ r)) with (x ++ r).
  change (drop 28 (19 :: PSTR_BT1 ++ x ++ r)) with (drop 8 (x ++ r)).
  change (drop 48 (19 :: PSTR_BT1 ++ x ++ r)) with (drop 28 (x ++ r)).
  unfold x. rewrite <- !app_assoc. rewrite (take_app_exact (be_bytes _ _)) by (by rewrite length_be_bytes).
  rewrite (drop_app_exact (be_bytes _ _)) by (by rewrite length_be_bytes).
  rewrite take_app_exact by done. rewrite (app_assoc (be_bytes _ _)), drop_app_exact
    by (by rewrite length_app, length_be_bytes, Hi).
  rewrite take_app_exact, be_u64 by done. by destruct h.
Qed.

(** A handshake is written as the 68 bytes of BEP 3 into any slice that is
    long enough, and read back from any input that starts with them. *)
Theorem handshake_roundtrip h out r : wf_handshake h -> (68 <= length out)%nat ->
  handshake_serialize_unchecked_len h out = Done (68%nat, encode_handshake h ++ drop 68 out) /\
  length (encode_handshake h) = 68%nat /\
  handshake_deserialize (encode_handshake h ++ r) = Ok (h, 68%nat).
Proof.
  intros Hwf Hl. split; [|by split; [apply length_encode_handshake|apply handshake_deserialize_encoded]].
  destruct Hwf as (_ & [Hi _] & [Hp _]). by apply handshake_encoded.
Qed.

(** The handshake this client sends announces the three protocols it speaks. *)
Lemma handshake_new_supports info_hash peer_id :
  supports_extended (handshake_new info_hash peer_id) = true /\
  supports_dht (handshake_new info_hash peer_id) = true /\
  supports_fast (handshake_new info_hash peer_id) = true.
Proof. split_and!; reflexivity. Qed.

(** ** Witnesses *)

Definition no_ext_serialize (e : Empty_set) (_ : list Z) :
    outcome (result SerializeError (nat * list Z)) := match e with end.
Definition no_ext_deserialize (_ : DoubleBuf) : result MessageDeserializeError Empty_set :=
  Err ExtendedError.

Definition ex_piece : Message Empty_set := MPiece (mkPiece 3 16384 [1; 2] [3; 4; 5]).

Lemma serialize_writes_wire_format_witness :
  serialize no_ext_serialize ex_piece (replicate 20 9) =
  Done (Ok (18%nat, [0; 0; 0; 14; 7; 0; 0; 0; 3; 0; 0; 64; 0; 1; 2; 3; 4; 5; 9; 9])).
Proof.
  rewrite (serialize_writes_wire_format no_ext_serialize ex_piece (replicate 20 9));
    [reflexivity|exact I|]. vm_compute. split_and!; congruence.
Defined.



Lemma handshake_roundtrip_witness :
  let h := handshake_new (replicate 20 7) (replicate 20 8) in
  handshake_deserialize (encode_handshake h ++ [1; 2]) = Ok (h, 68%nat).
Proof.
  apply (handshake_roundtrip (handshake_new (replicate 20 7) (replicate 20 8)) (replicate 68 0)).
  - split; [split; reflexivity || discriminate|].
    split; (split; [reflexivity|]); repeat constructor; reflexivity || discriminate.
  - simpl. lia.
Defined.
