(* ===== verification/Metadata.v ===== *)
(** * Metadata: fetching the info dictionary from peers

    Models [send_metadata_piece] of [torrent_state/live/peer_handler.rs] (the
    side that has the torrent), [crates/librtbit/src/peer_info_reader/mod.rs]
    (the side that has a magnet link) and the data message of
    [librtbit-peer-protocol/src/extended/ut_metadata.rs] (BEP 9).  The hash
    function and the parser of the info dictionary are arguments.  Machine
    arithmetic wraps, as in a release build. *)

From S2P Require Import Prelude Lengths HashId DoubleBuf Message.

(** ** Data messages *)

Record UtMetadataData := mkUtMetadataData {
  ud_piece : Z;
  ud_total_size : Z;
  data_0 : list Z;
  data_1 : list Z;
}.

Inductive UtMetadata :=
| UtRequest (piece : Z)
| UtData (d : UtMetadataData)
| UtReject (piece : Z).

Definition data_from_bytes (piece total_size : Z) (data : list Z) : UtMetadataData :=
  mkUtMetadataData piece total_size data [].

Definition data_len (d : UtMetadataData) : nat := (length (data_0 d) + length (data_1 d))%nat.

(** [out] is the slice of the buffer at [off], of the length of the data. *)
Definition copy_to_slice (d : UtMetadataData) (buffer : list Z) (off : nat) : outcome (list Z) :=
  buffer ←! write_slice buffer off (data_0 d);
  write_slice buffer (off + length (data_0 d)) (data_1 d).

Inductive UtMetadataError := MissingTotalSize | TooLarge | PieceOutOfBounds | SizeMismatch.

Definition data_validate (d : UtMetadataData) : result UtMetadataError unit :=
  let len := Z.of_nat (data_len d) in
  if ud_total_size d =? 0 then Err MissingTotalSize
  else if CHUNK_SIZE <? len then Err TooLarge
  else if div_ceil (ud_total_size d) CHUNK_SIZE <=? ud_piece d then Err PieceOutOfBounds
  else
    let expected_size := Z.min (Z.max 0 (ud_total_size d - wrap32 (ud_piece d * CHUNK_SIZE))) CHUNK_SIZE in
    if negb (wrap32 len =? expected_size) then Err SizeMismatch else Ok tt.

(** ** The side that has the info dictionary *)

Inductive MetadataError := NoMetadata | OutOfBounds | DoesNotFit.

(** [Bytes::slice]. *)
Definition slice (data : list Z) (s e : Z) : outcome (list Z) :=
  if (s <=? e) && (e <=? Z.of_nat (length data)) then Done (take (Z.to_nat (e - s)) (drop (Z.to_nat s) data)) else Panic.

Definition send_metadata_piece (info_bytes : list Z) (piece_id : Z) : outcome (result MetadataError UtMetadataData) :=
  let metadata_size := Z.of_nat (length info_bytes) in
  if metadata_size =? 0 then Done (Err NoMetadata)
  else
    let total_pieces := div_ceil metadata_size CHUNK_SIZE in
    if total_pieces <? piece_id then Done (Err OutOfBounds)
    else
      let offset := wrap32 (piece_id * CHUNK_SIZE) in
      match try_into_u32 metadata_size with
      | None => Done (Err DoesNotFit)
      | Some total_size =>
          let end_ := Z.min (wrap32 (offset + CHUNK_SIZE)) total_size in
          data ←! slice info_bytes offset end_;
          Done (Ok (data_from_bytes piece_id total_size data))
      end.

(** ** The side that asks *)

Record HandlerLocked := mkHandlerLocked {
  hl_metadata_size : Z;
  hl_total_pieces : Z;
  hl_buffer : list Z;
  hl_received_pieces : list bool;
}.

Inductive ReaderError := MetadataTooBig | WrongIndex | WrongLength | AlreadyReceived | ChecksumInvalid
| NoMetadataSize | NoUtMetadata | OneshotConsumed.

Definition handler_new (metadata_size : Z) : result ReaderError HandlerLocked :=
  if 32 * 1024 * 1024 <? metadata_size then Err MetadataTooBig
  else
    let total_pieces := div_ceil metadata_size CHUNK_SIZE in
    Ok (mkHandlerLocked metadata_size total_pieces (replicate (Z.to_nat metadata_size) 0)
          (replicate (Z.to_nat total_pieces) false)).

Definition piece_size (h : HandlerLocked) (index : Z) : Z :=
  if index =? hl_total_pieces h - 1 then last_element_size (hl_metadata_size h) CHUNK_SIZE else CHUNK_SIZE.

Section reader.
Context (sha1 : list Z -> Id) {Info : Type} (from_bytes : list Z -> Info) (info_hash : Id).

(** The answer, and the state also when it is an error. *)
Definition record_piece (h : HandlerLocked) (d : UtMetadataData) : outcome (result ReaderError bool * HandlerLocked) :=
  let piece := ud_piece d in
  if hl_total_pieces h <=? piece then Done (Err WrongIndex, h)
  else
    let offset := wrap32 (piece * CHUNK_SIZE) in
    if negb (Z.of_nat (data_len d) =? piece_size h piece) then Done (Err WrongLength, h)
    else
      received ←! unwrap (hl_received_pieces h !! Z.to_nat piece);
      if received : bool then Done (Err AlreadyReceived, h)
      else
        buffer ←! copy_to_slice d (hl_buffer h) (Z.to_nat offset);
        let h := mkHandlerLocked (hl_metadata_size h) (hl_total_pieces h) buffer
                   (<[Z.to_nat piece := true]> (hl_received_pieces h)) in
        if forallb id (hl_received_pieces h) then
          if bool_decide (sha1 (hl_buffer h) = info_hash) then Done (Ok true, h) else Done (Err ChecksumInvalid, h)
        else Done (Ok false, h).

(** [Handler]: [rd_result] is [None] while [result_tx] is there, then what was
    sent on it. *)
Record Reader := mkReader {
  rd_locked : option HandlerLocked;
  rd_result : option (Info * list Z);
}.

Definition reader_new : Reader := mkReader None None.

(** [on_extended_handshake]: the requests that are sent. *)
Definition on_extended_handshake (metadata_size : option Z) (ut_metadata : option Z) (r : Reader) :
    result ReaderError (list Z * Reader) :=
  metadata_size ←? ok_or metadata_size NoMetadataSize;
  _ ←? ok_or ut_metadata NoUtMetadata;
  inner ←? handler_new metadata_size;
  Ok (seqZ 0 (hl_total_pieces inner), mkReader (Some inner) (rd_result r)).

(** [on_received_message]. *)
Definition on_metadata_message (m : UtMetadata) (r : Reader) : outcome (result ReaderError unit * Reader) :=
  match m with
  | UtData d =>
      h ←! unwrap (rd_locked r);
      x ←! record_piece h d;
      match x with
      | (Err e, h) => Done (Err e, mkReader (Some h) (rd_result r))
      | (Ok false, h) => Done (Ok tt, mkReader (Some h) (rd_result r))
      | (Ok true, h) =>
          match rd_result r with
          | Some _ => Done (Err OneshotConsumed, mkReader None (rd_result r))
          | None => Done (Ok tt, mkReader None (Some (from_bytes (hl_buffer h), hl_buffer h)))
          end
      end
  | _ => Done (Ok tt, r)
  end.

(** What the peer sends: an extended handshake (a second one starts over), or
    a message. *)
Inductive ReaderEvent :=
| RHandshake (metadata_size ut_metadata : option Z)
| RMessage (m : UtMetadata).

Definition reader_step (r : Reader) (ev : ReaderEvent) : outcome (result ReaderError unit * Reader) :=
  match ev with
  | RHandshake size ut =>
      Done (match on_extended_handshake size ut r with Ok (_, r) => (Ok tt, r) | Err e => (Err e, r) end)
  | RMessage m => on_metadata_message m r
  end.

(** The reader of the connection, until there is an error or the result is
    there ([read_metainfo_from_peer] returns it). *)
Fixpoint read_metadata (r : Reader) (evs : list ReaderEvent) : outcome Reader :=
  match evs, rd_result r with
  | [], _ | _, Some _ => Done r
  | ev :: evs, None =>
      x ←! reader_step r ev;
      match x with
      | (Ok _, r) => read_metadata r evs
      | (Err _, r) => Done r
      end
  end.
End reader.
Arguments Reader : clear implicits.

(** ** The pieces of the info dictionary *)

Definition metadata_pieces (info : list Z) : Z := div_ceil (Z.of_nat (length info)) CHUNK_SIZE.

Definition metadata_piece (info : list Z) (i : Z) : list Z :=
  take (Z.to_nat CHUNK_SIZE) (drop (Z.to_nat (i * CHUNK_SIZE)) info).

(** The sizes the reader accepts. *)
Definition metadata_ok (info : list Z) : Prop := 0 < Z.of_nat (length info) <= 32 * 1024 * 1024.

Lemma metadata_piece_len info i : metadata_ok info -> 0 <= i < metadata_pieces info ->
  Z.of_nat (length (metadata_piece info i)) = Z.min CHUNK_SIZE (Z.of_nat (length info) - i * CHUNK_SIZE).
Proof.
  unfold metadata_ok, metadata_pieces, metadata_piece. intros Hm Hi.
  pose proof (div_ceil_spec (Z.of_nat (length info)) CHUNK_SIZE). rewrite length_take, length_drop.
  unfold CHUNK_SIZE in *. lia.
Qed.

Lemma metadata_pieces_bound info : metadata_ok info -> 1 <= metadata_pieces info <= 2048.
Proof.
  unfold metadata_ok, metadata_pieces. intros Hm. pose proof (div_ceil_spec (Z.of_nat (length info)) CHUNK_SIZE).
  unfold CHUNK_SIZE in *. lia.
Qed.

(** What is sent for a piece that exists passes the checks of the receiver. *)
Lemma send_metadata_piece_eq info i : metadata_ok info -> 0 <= i < metadata_pieces info ->
  let d := data_from_bytes i (Z.of_nat (length info)) (metadata_piece info i) in
  send_metadata_piece info i = Done (Ok d) /\ data_validate d = Ok tt.
Proof.
  intros Hm Hi d. pose proof (metadata_pieces_bound info Hm) as Hn. pose proof (metadata_piece_len info i Hm Hi) as Hlen.
  unfold metadata_ok in Hm. pose proof (div_ceil_spec (Z.of_nat (length info)) CHUNK_SIZE) as Hd.
  fold (metadata_pieces info) in Hd. split.
  - unfold send_metadata_piece. fold (metadata_pieces info). bcases; [lia|lia|].
    assert (Hoff : wrap32 (i * CHUNK_SIZE) = i * CHUNK_SIZE) by (apply wrap32_small; unfold CHUNK_SIZE in *; lia).
    assert (Hu : try_into_u32 (Z.of_nat (length info)) = Some (Z.of_nat (length info))) by (unfold try_into_u32; bcases; [done|lia]).
    rewrite Hoff, Hu, wrap32_small by (unfold CHUNK_SIZE in *; lia). unfold slice. bcases; try (unfold CHUNK_SIZE in *; lia).
    cbn [andb outcome_bind]. unfold d, data_from_bytes, metadata_piece. do 3 f_equal.
    destruct (Z.le_gt_cases (i * CHUNK_SIZE + CHUNK_SIZE) (Z.of_nat (length info))).
    + f_equal. unfold CHUNK_SIZE in *. lia.
    + rewrite !take_ge by (rewrite length_drop; unfold CHUNK_SIZE in *; lia). done.
  - unfold data_validate, d, data_from_bytes, data_len. cbn [ud_total_size ud_piece data_0 data_1 length].
    fold (metadata_pieces info). rewrite Nat.add_0_r, !wrap32_small by (unfold CHUNK_SIZE in *; lia).
    bcases; cbn [negb]; try done; unfold CHUNK_SIZE in *; lia.
Qed.

Lemma write_slice_spec out off bytes : (off + length bytes <= length out)%nat ->
  exists out', write_slice out off bytes = Done out' /\ length out' = length out /\
    forall k, out' !! k = if decide (off <= k < off + length bytes)%nat then bytes !! (k - off)%nat else out !! k.
Proof.
  intros Hle. unfold write_slice. destruct (Nat.leb_spec (off + length bytes) (length out)); [|lia].
  eexists. split; [done|]. split; [rewrite !length_app, length_take, length_drop; lia|]. intros k.
  assert (Ht : length (take off out) = off) by (rewrite length_take; lia).
  destruct (decide (k < off)%nat) as [Hk|Hk].
  - rewrite lookup_app_l by lia. rewrite lookup_take. repeat case_decide; done || lia.
  - rewrite lookup_app_r, Ht by lia. case_decide.
    + by rewrite lookup_app_l by lia.
    + rewrite lookup_app_r, lookup_drop by lia. f_equal. lia.
Qed.

Section reader_properties.
Context (sha1 : list Z -> Id) {Info : Type} (from_bytes : list Z -> Info) (info_hash : Id).

(** The buffer is as long as announced, with a mark for every piece. *)
Record handler_ok (h : HandlerLocked) : Prop := {
  hl_size : 0 <= hl_metadata_size h <= 32 * 1024 * 1024;
  hl_total : hl_total_pieces h = div_ceil (hl_metadata_size h) CHUNK_SIZE;
  hl_buffer_len : Z.of_nat (length (hl_buffer h)) = hl_metadata_size h;
  hl_marks : length (hl_received_pieces h) = Z.to_nat (hl_total_pieces h);
}.

Lemma handler_new_ok size h : is_u32 size -> handler_new size = Ok h -> handler_ok h /\ hl_metadata_size h = size /\
  forallb negb (hl_received_pieces h) = true.
Proof.
  intros Hu. unfold handler_new. destruct (Z.ltb_spec (32 * 1024 * 1024) size); [done|]. intros [= <-].
  split; [split; simpl; rewrite ?length_replicate; unfold is_u32 in *; lia|]. split; [done|].
  apply forallb_forall. intros b Hb%list_elem_of_In%elem_of_replicate. by destruct Hb as [-> _].
Qed.

Lemma piece_size_eq h i : handler_ok h -> 0 <= i < hl_total_pieces h ->
  piece_size h i = Z.min CHUNK_SIZE (hl_metadata_size h - i * CHUNK_SIZE).
Proof.
  intros [Hs Ht _ _] Hi. pose proof (div_ceil_spec (hl_metadata_size h) CHUNK_SIZE) as Hd. rewrite <- Ht in Hd.
  unfold piece_size. bcases.
  - rewrite last_element_size_eq, <- Ht by (unfold CHUNK_SIZE in *; lia). unfold CHUNK_SIZE in *; lia.
  - unfold CHUNK_SIZE in *; lia.
Qed.

(** Recording a piece never goes out of bounds, and changes the buffer exactly
    where the piece lies. *)
Lemma copy_to_slice_spec d out off : (off + data_len d <= length out)%nat ->
  exists out', copy_to_slice d out off = Done out' /\ length out' = length out /\
    forall k, out' !! k = if decide (off <= k < off + data_len d)%nat then (data_0 d ++ data_1 d) !! (k - off)%nat else out !! k.
Proof.
  unfold copy_to_slice, data_len. intros Hle.
  destruct (write_slice_spec out off (data_0 d)) as (o1 & -> & Hl1 & Hk1); [lia|]. rsimpl.
  destruct (write_slice_spec o1 (off + length (data_0 d)) (data_1 d)) as (o2 & -> & Hl2 & Hk2); [lia|].
  exists o2. split; [done|]. split; [lia|]. intros k. rewrite Hk2, Hk1.
  destruct (decide (k < off + length (data_0 d))%nat).
  - rewrite decide_False by lia. repeat case_decide; try lia; [|done]. by rewrite lookup_app_l by lia.
  - repeat case_decide; try lia; [|done]. rewrite lookup_app_r by lia. f_equal. lia.
Qed.

(** A piece that fits is entered in the buffer exactly where it lies. *)
Definition recorded (h h' : HandlerLocked) (d : UtMetadataData) : Prop :=
  hl_metadata_size h' = hl_metadata_size h /\ hl_total_pieces h' = hl_total_pieces h /\
  hl_received_pieces h' = <[Z.to_nat (ud_piece d) := true]> (hl_received_pieces h) /\
  forall k, hl_buffer h' !! k =
    if decide (ud_piece d * CHUNK_SIZE <= Z.of_nat k < ud_piece d * CHUNK_SIZE + Z.of_nat (data_len d))
    then (data_0 d ++ data_1 d) !! (k - Z.to_nat (ud_piece d * CHUNK_SIZE))%nat else hl_buffer h !! k.

Lemma record_piece_ok h d : handler_ok h -> is_u32 (ud_piece d) ->
  exists r h', record_piece sha1 info_hash h d = Done (r, h') /\ handler_ok h' /\
    (r = Ok true -> sha1 (hl_buffer h') = info_hash) /\
    (0 <= ud_piece d < hl_total_pieces h -> Z.of_nat (data_len d) = piece_size h (ud_piece d) ->
     hl_received_pieces h !! Z.to_nat (ud_piece d) = Some false ->
       recorded h h' d /\
       r = if forallb id (hl_received_pieces h')
           then if bool_decide (sha1 (hl_buffer h') = info_hash) then Ok true else Err ChecksumInvalid
           else Ok false).
Proof.
  intros Hok Hu. unfold is_u32 in Hu. pose proof Hok as [Hsz Ht Hb Hm]. pose proof (div_ceil_spec (hl_metadata_size h) CHUNK_SIZE) as Hd.
  rewrite <- Ht in Hd. unfold record_piece. destruct (Z.leb_spec (hl_total_pieces h) (ud_piece d)) as [Hge|Hlt].
  { exists (Err WrongIndex), h. split_and!; try done. lia. }
  assert (Hi : 0 <= ud_piece d < hl_total_pieces h) by lia. pose proof (piece_size_eq h _ Hok Hi) as Hps.
  rewrite wrap32_small by (unfold CHUNK_SIZE in *; lia).
  destruct (Z.eqb_spec (Z.of_nat (data_len d)) (piece_size h (ud_piece d))) as [Hlen|Hlen]; cbn [negb].
  2:{ exists (Err WrongLength), h. split_and!; done. }
  destruct (lookup_lt_is_Some_2 (hl_received_pieces h) (Z.to_nat (ud_piece d))) as [b Hrec]; [lia|].
  rewrite Hrec. rsimpl. destruct b.
  { exists (Err AlreadyReceived), h. split_and!; done. }
  destruct (copy_to_slice_spec d (hl_buffer h) (Z.to_nat (ud_piece d * CHUNK_SIZE))) as (buf & -> & Hbl & Hbk);
    [unfold CHUNK_SIZE in *; lia|]. rsimpl. cbn [hl_received_pieces hl_buffer].
  set (h' := mkHandlerLocked _ _ buf _).
  assert (Hok' : handler_ok h') by (split; simpl; rewrite ?length_insert; lia || done).
  assert (Hr : recorded h h' d).
  { split_and!; [done..|]. intros k. simpl. rewrite Hbk. apply decide_ext. unfold CHUNK_SIZE in *. lia. }
  destruct (forallb id _) eqn:Hall; [destruct (bool_decide _) eqn:Hhash|].
  - exists (Ok true), h'. split_and!; [done|done| |].
    + intros _. by apply bool_decide_eq_true in Hhash.
    + intros _ _ _. split; [done|]. simpl. by rewrite Hall, Hhash.
  - exists (Err ChecksumInvalid), h'. split_and!; [done|done|done|]. intros _ _ _. split; [done|]. simpl. by rewrite Hall, Hhash.
  - exists (Ok false), h'. split_and!; [done|done|done|]. intros _ _ _. split; [done|]. simpl. by rewrite Hall.
Qed.

Definition reader_ok (r : Reader Info) : Prop :=
  (forall h, rd_locked r = Some h -> handler_ok h) /\ (rd_result r = None -> is_Some (rd_locked r)) /\
  forall i b, rd_result r = Some (i, b) -> sha1 b = info_hash /\ i = from_bytes b.

(** The numbers in a message are u32. *)
Definition event_ok (ev : ReaderEvent) : Prop :=
  match ev with
  | RHandshake (Some size) _ => is_u32 size
  | RMessage (UtData d) => is_u32 (ud_piece d)
  | _ => True
  end.

Abbreviation read := (read_metadata sha1 from_bytes info_hash).

Lemma handshake_ok size ut (r : Reader Info) : event_ok (RHandshake size ut) -> rd_result r = None ->
  match on_extended_handshake size ut r with
  | Ok (_, r') => reader_ok r' /\ rd_result r' = None
  | Err _ => True
  end.
Proof.
  intros Hev Hr. unfold on_extended_handshake. destruct size as [size|]; [|done]. destruct ut as [ut|]; [|done]. rsimpl.
  destruct (handler_new size) as [h|e] eqn:Hh; [|done]. rsimpl. apply handler_new_ok in Hh as (Hok & _); [|done].
  split; [|done]. split_and!; simpl; [by intros h' [= <-]|by eexists|congruence].
Qed.

Lemma reader_step_ok r ev : reader_ok r -> rd_result r = None -> event_ok ev ->
  exists x r', reader_step sha1 from_bytes info_hash r ev = Done (x, r') /\ reader_ok r'.
Proof.
  intros Hok Hr Hev. pose proof Hok as (Hh & Hl & Hres). destruct ev as [size ut|m]; simpl.
  - pose proof (handshake_ok size ut r Hev Hr) as Hhs. destruct (on_extended_handshake size ut r) as [[reqs r']|e].
    + exists (Ok tt), r'. by destruct Hhs.
    + by exists (Err e), r.
  - destruct m as [p|d|p]; try by exists (Ok tt), r. simpl. destruct (Hl Hr) as [h Hlk]. rewrite Hlk. rsimpl.
    destruct (record_piece_ok h d (Hh h Hlk) Hev) as (x & h' & -> & Hok' & Htrue & _). rsimpl. rewrite Hr.
    destruct x as [[]|e]; do 2 eexists; (split; [done|]); split_and!; simpl; try done; try by intros h0 [= <-].
    intros i b [= <- <-]. auto.
Qed.

(** C10: a magnet link is resolved only to the info dictionary it names: whatever
    a peer sends after its handshake, in whatever order, the reader never goes
    out of its buffer, and a result it returns has the hash of the link. *)
Theorem fetched_metadata_has_hash size ut evs : Forall event_ok (RHandshake size ut :: evs) ->
  exists r, read reader_new (RHandshake size ut :: evs) = Done r /\
    forall i b, rd_result r = Some (i, b) -> sha1 b = info_hash /\ i = from_bytes b.
Proof.
  intros [Hev Hevs]%Forall_cons.
  assert (Hrun : forall evs r, Forall event_ok evs -> reader_ok r -> exists r', read r evs = Done r' /\ reader_ok r').
  { clear. induction evs as [|ev evs IH]; intros r Hevs Hok; [by exists r|].
    apply Forall_cons in Hevs as [Hev Hevs]. cbn [read_metadata]. destruct (rd_result r) as [x|] eqn:Hr; [by exists r|].
    destruct (reader_step_ok r ev Hok Hr Hev) as (x & r' & -> & Hok'). rsimpl. destruct x as [[]|e]; [by apply IH|by exists r']. }
  cbn [read_metadata rd_result reader_new reader_step]. pose proof (handshake_ok size ut reader_new Hev eq_refl) as Hhs.
  destruct (on_extended_handshake size ut reader_new) as [[reqs r']|e]; rsimpl.
  - destruct Hhs as [Hok _]. destruct (Hrun evs r' Hevs Hok) as (r & -> & _ & _ & Hres). by exists r.
  - exists reader_new. by split.
Qed.

(** What the reader has of [info] after the pieces [got]. *)
Definition partial (info : list Z) (got : list Z) (h : HandlerLocked) : Prop :=
  handler_ok h /\ hl_metadata_size h = Z.of_nat (length info) /\
  (forall i, 0 <= i < metadata_pieces info -> hl_received_pieces h !! Z.to_nat i = Some (bool_decide (i ∈ got))) /\
  forall i k, i ∈ got -> i * CHUNK_SIZE <= Z.of_nat k < i * CHUNK_SIZE + CHUNK_SIZE -> hl_buffer h !! k = info !! k.

Lemma partial_complete info got h : partial info got h -> (forall i, 0 <= i < metadata_pieces info -> i ∈ got) ->
  hl_buffer h = info.
Proof.
  intros ([Hsz Ht Hb _] & Hlen & _ & Hbuf) Hall. rewrite Hlen in *. apply list_eq. intros k.
  destruct (decide (k < length info)%nat) as [Hk|Hk]; [|by rewrite !lookup_ge_None_2 by lia].
  pose proof (div_ceil_spec (Z.of_nat (length info)) CHUNK_SIZE) as Hd. fold (metadata_pieces info) in Hd.
  apply (Hbuf (Z.of_nat k / CHUNK_SIZE)); [apply Hall|]; unfold CHUNK_SIZE in *; zlia.
Qed.

Lemma partial_marks info got h : metadata_ok info -> partial info got h ->
  forallb id (hl_received_pieces h) = true <-> forall i, 0 <= i < metadata_pieces info -> i ∈ got.
Proof.
  intros Hm ([_ Ht _ Hl] & Hlen & Hrec & _). rewrite Hlen in Ht. fold (metadata_pieces info) in Ht.
  rewrite forallb_forall. split.
  - intros Hall i Hi. specialize (Hrec i Hi). apply list_elem_of_lookup_2, list_elem_of_In, Hall in Hrec.
    by apply bool_decide_eq_true in Hrec.
  - intros Hall b Hb%list_elem_of_In%list_elem_of_lookup. destruct Hb as [k Hk]. pose proof (lookup_lt_Some _ _ _ Hk).
    specialize (Hrec (Z.of_nat k)). rewrite Nat2Z.id, Hk in Hrec. injection Hrec as ->; [|lia].
    apply bool_decide_eq_true, Hall. lia.
Qed.

(** One piece more. *)
Lemma partial_record info got h i : metadata_ok info -> sha1 info = info_hash -> partial info got h ->
  0 <= i < metadata_pieces info -> i ∉ got ->
  exists h', record_piece sha1 info_hash h (data_from_bytes i (Z.of_nat (length info)) (metadata_piece info i)) =
    Done (Ok (forallb id (hl_received_pieces h')), h') /\ partial info (i :: got) h'.
Proof.
  intros Hm Hhash Hp Hi Hni. pose proof Hp as (Hok & Hlen & Hrec & Hbuf). set (d := data_from_bytes _ _ _).
  assert (Htot : hl_total_pieces h = metadata_pieces info) by (rewrite (hl_total h Hok), Hlen; done).
  pose proof (metadata_piece_len info i Hm Hi) as Hdl. pose proof (metadata_pieces_bound info Hm).
  assert (Hd : Z.of_nat (data_len d) = Z.min CHUNK_SIZE (Z.of_nat (length info) - i * CHUNK_SIZE)).
  { unfold data_len, d. simpl. by rewrite Nat.add_0_r, Hdl. }
  destruct (record_piece_ok h d Hok) as (r & h' & Hrun & Hok' & _ & Hfit); [unfold is_u32, d; simpl; lia|].
  destruct Hfit as [(Hsz & Htp & Hmk & Hbk) ->].
  { simpl. lia. }
  { rewrite piece_size_eq by (done || (simpl; lia)). simpl. by rewrite Hd, Hlen. }
  { simpl. by rewrite Hrec, bool_decide_false. }
  assert (Hp' : partial info (i :: got) h').
  { split_and!; [done|by rewrite Hsz| |].
    - intros j Hj. rewrite Hmk. simpl. destruct (decide (i = j)) as [<-|Hne].
      + rewrite list_lookup_insert_eq; [|rewrite (hl_marks h Hok); lia]. by rewrite bool_decide_true by (by left).
      + rewrite list_lookup_insert_ne, Hrec by lia. f_equal. apply bool_decide_ext. rewrite elem_of_cons. naive_solver.
    - intros j k Hj Hk. rewrite Hbk, Hd. simpl. rewrite app_nil_r. destruct (decide (i = j)) as [->|Hne].
      + destruct (decide (k < length info)%nat).
        * rewrite decide_True by lia. unfold metadata_piece. rewrite lookup_take, decide_True, lookup_drop by lia.
          f_equal. lia.
        * rewrite decide_False by lia. rewrite !lookup_ge_None_2; [done|lia|]. pose proof (hl_buffer_len h Hok). lia.
      + apply elem_of_cons in Hj as [->|Hj]; [done|]. rewrite decide_False by (unfold CHUNK_SIZE in *; lia). by apply (Hbuf j). }
  exists h'. split; [|done]. rewrite Hrun. destruct (forallb id (hl_received_pieces h')) eqn:Hall; [|done].
  rewrite (partial_complete info (i :: got) h') by (done || by apply (partial_marks info _ h')). by rewrite bool_decide_true.
Qed.

Lemma reader_finishes info rest : forall got h, metadata_ok info -> sha1 info = info_hash -> partial info got h ->
  NoDup rest -> rest <> [] -> (forall i, i ∈ rest -> i ∉ got) ->
  (forall i, 0 <= i < metadata_pieces info <-> i ∈ got \/ i ∈ rest) ->
  exists r, read (mkReader (Some h) None)
    ((fun i => RMessage (UtData (data_from_bytes i (Z.of_nat (length info)) (metadata_piece info i)))) <$> rest) = Done r /\
    rd_result r = Some (from_bytes info, info).
Proof.
  induction rest as [|i rest IH]; intros got h Hm Hh Hp Hnd Hne Hout Hall; [done|]. apply NoDup_cons in Hnd as [Hni Hnd].
  rewrite fmap_cons. cbn [read_metadata rd_result reader_step on_metadata_message rd_locked]. rsimpl.
  destruct (partial_record info got h i Hm Hh Hp) as (h' & -> & Hp'); [apply Hall; right; left|apply Hout; left|]. rsimpl.
  destruct (forallb id (hl_received_pieces h')) eqn:Hmk.
  - rewrite (partial_marks info _ h' Hm Hp') in Hmk. rsimpl. rewrite (partial_complete info (i :: got) h') by done.
    destruct rest; simpl; by eexists.
  - apply (IH (i :: got)); try done.
    + intros ->. apply not_true_iff_false in Hmk. apply Hmk, (partial_marks info _ h' Hm Hp'). intros j Hj.
      apply Hall in Hj as [Hj|Hj]; [by right|]. apply list_elem_of_singleton in Hj as ->. by left.
    + intros j Hj [->|Hg]%elem_of_cons; [done|]. apply (Hout j); [by right|done].
    + intros j. rewrite Hall, !elem_of_cons. tauto.
Qed.

(** Fetching the info dictionary works: the peer's answers to the requests
    pass the checks of the wire format, and received in any order they give
    exactly the info dictionary, whose hash is the one of the link. *)
Theorem metadata_fetched info ut order ms : metadata_ok info -> sha1 info = info_hash ->
  (exists reqs r, on_extended_handshake (Some (Z.of_nat (length info))) (Some ut) (reader_new (Info := Info)) = Ok (reqs, r) /\
     reqs ≡ₚ order) ->
  Forall2 (fun i m => send_metadata_piece info i = Done (Ok m)) order ms ->
  Forall (fun m => data_validate m = Ok tt) ms /\
  exists r, read reader_new (RHandshake (Some (Z.of_nat (length info))) (Some ut) :: ((fun m => RMessage (UtData m)) <$> ms)) = Done r /\
    rd_result r = Some (from_bytes info, info).
Proof.
  intros Hm Hhash (reqs & r0 & Hhs & Hperm) Hms. pose proof (metadata_pieces_bound info Hm) as Hn.
  cbn [read_metadata rd_result reader_new reader_step]. rewrite Hhs. rsimpl.
  unfold on_extended_handshake in Hhs. rewrite (eq_refl : ok_or (Some _) _ = Ok _) in Hhs. cbn [result_bind ok_or] in Hhs.
  destruct (handler_new (Z.of_nat (length info))) as [h|] eqn:Hh; [|done]. cbn [result_bind] in Hhs. injection Hhs as <- <-.
  apply handler_new_ok in Hh as (Hok & Hsz & Hno); [|unfold is_u32, metadata_ok in *; lia].
  assert (Htot : hl_total_pieces h = metadata_pieces info) by (rewrite (hl_total h Hok), Hsz; done). rewrite Htot in *.
  assert (Hin : forall i, i ∈ order <-> 0 <= i < metadata_pieces info).
  { intros i. rewrite <- Hperm, elem_of_seqZ. lia. }
  assert (Hmsg : ms = (fun i => data_from_bytes i (Z.of_nat (length info)) (metadata_piece info i)) <$> order).
  { clear -Hms Hm Hin. assert (Hin' : forall i, i ∈ order -> 0 <= i < metadata_pieces info) by (intros i; apply Hin). clear Hin.
    induction Hms as [|i m order ms Hi _ IH]; [done|]. rewrite fmap_cons. f_equal.
    - destruct (send_metadata_piece_eq info i Hm) as [Heq _]; [apply Hin'; by left|]. congruence.
    - apply IH. intros j Hj. apply Hin'. by right. }
  split.
  - subst ms. apply Forall_fmap, Forall_forall. intros i Hi. apply send_metadata_piece_eq; [done|by apply Hin].
  - subst ms. rewrite <- list_fmap_compose. apply (reader_finishes info order [] h); try done.
    + split_and!; [done|done| |by intros i k ?%not_elem_of_nil]. intros i Hi. rewrite bool_decide_false by apply not_elem_of_nil.
      destruct (lookup_lt_is_Some_2 (hl_received_pieces h) (Z.to_nat i)) as [b Hb]; [rewrite (hl_marks h Hok); lia|]. rewrite Hb.
      rewrite forallb_forall in Hno. apply list_elem_of_lookup_2, list_elem_of_In, Hno in Hb. by destruct b.
    + rewrite <- Hperm. apply NoDup_seqZ.
    + intros ->. specialize (Hin 0). rewrite elem_of_nil in Hin. lia.
    + intros i. by intros _ ?%not_elem_of_nil.
    + intros i. rewrite Hin, elem_of_nil. tauto.
Qed.
End reader_properties.

(** ** Concrete exchanges *)

Lemma fetched_metadata_has_hash_witness : exists r,
  read_metadata id (fun b : list Z => b) [1; 2] reader_new
    [RHandshake (Some 2) (Some 3); RMessage (UtData (mkUtMetadataData 0 2 [1] [2]))] = Done r /\
  forall i b, rd_result r = Some (i, b) -> b = [1; 2] /\ i = b.
Proof.
  apply (fetched_metadata_has_hash id (fun b => b) [1; 2] (Some 2) (Some 3) [RMessage (UtData (mkUtMetadataData 0 2 [1] [2]))]).
  repeat constructor; simpl; lia.
Defined.

Lemma metadata_fetched_witness : exists r,
  read_metadata id (fun b : list Z => b) [1; 2] reader_new
    [RHandshake (Some 2) (Some 3); RMessage (UtData (data_from_bytes 0 2 [1; 2]))] = Done r /\
  rd_result r = Some ([1; 2], [1; 2]).
Proof.
  apply (metadata_fetched id (fun b => b) [1; 2] [1; 2] 3 [0] [data_from_bytes 0 2 [1; 2]]).
  - unfold metadata_ok. simpl. lia.
  - reflexivity.
  - do 2 eexists. split; [reflexivity|]. reflexivity.
  - repeat constructor.
Defined.

(** [send_metadata_piece] lets through the piece after the last one.  Unless
    the dictionary ends at a piece boundary, its slice starts after its end;
    nothing else makes it panic. *)
Lemma send_metadata_piece_panics info k : Z.of_nat (length info) <= U32 - 2 * CHUNK_SIZE -> is_u32 k ->
  send_metadata_piece info k = Panic <-> k = metadata_pieces info /\ Z.of_nat (length info) mod CHUNK_SIZE <> 0.
Proof.
  unfold is_u32. intros Hl Hk. unfold send_metadata_piece. cbn zeta. fold (metadata_pieces info).
  pose proof (div_ceil_spec (Z.of_nat (length info)) CHUNK_SIZE) as Hd. fold (metadata_pieces info) in Hd.
  destruct (Z.eqb_spec (Z.of_nat (length info)) 0) as [->|Hne]; [split; [done|]; by intros [_ []]|].
  destruct (Z.ltb_spec (metadata_pieces info) k) as [|Hle]; [split; [done|lia]|].
  assert (Hu : try_into_u32 (Z.of_nat (length info)) = Some (Z.of_nat (length info))).
  { unfold try_into_u32. bcases; [done|unfold CHUNK_SIZE in *; lia]. }
  assert (Hmod : metadata_pieces info * CHUNK_SIZE <> Z.of_nat (length info) <-> Z.of_nat (length info) mod CHUNK_SIZE <> 0).
  { split; intros Hx Hy; apply Hx; [|rewrite <- Hy; by apply Z_mod_mult].
    apply Z_div_exact_full_2 in Hy; unfold CHUNK_SIZE in *; lia. }
  rewrite Hu, (wrap32_small (k * CHUNK_SIZE)), wrap32_small by (unfold CHUNK_SIZE in *; lia). rewrite <- Hmod. unfold slice.
  bcases; cbn [andb outcome_bind]; split; try done; unfold CHUNK_SIZE in *; try lia.
Qed.

(** A data message before the extended handshake, or after the last piece, finds
    no buffer to go to. *)
Lemma data_without_handshake_panics {Info} sha1 (from_bytes : list Z -> Info) hash d evs :
  read_metadata sha1 from_bytes hash reader_new (RMessage (UtData d) :: evs) = Panic.
Proof. done. Qed.
