(* ===== verification/Storage.v ===== *)
(** * Storage: where the bytes of a torrent are kept

    [TorrentStorage] is the part of the trait of
    [crates/librtbit/src/storage/mod.rs] the data path uses: positioned reads
    and vectored writes.  [StorageLaws] says what a back end promises about
    them, in terms of the bytes of its files; the data path ([FileOps]) is
    proved against the laws.  [FilesystemStorage]
    ([storage/filesystem/fs.rs] and [opened_file.rs]) is modelled over files
    that are lists of bytes, with the system call [pwritev] as an argument, and
    is shown to keep the laws. *)

From S2P Require Import Prelude.

Inductive StorageError :=
| NoSuchFile
| FsFileIsNone
| StorageReadOnly
| OffsetTooLarge
| UnexpectedEof
| WrongFileLength
| Io.

(** Writes report their result and leave a storage behind in every case. *)
Class TorrentStorage (S : Type) := {
  pread_exact : S -> nat -> Z -> nat -> result StorageError (list Z);
  pwrite_all_vectored : S -> nat -> Z -> list (list Z) -> result StorageError nat * S;
}.

(** The bytes of the slices of a vectored write. *)
Definition gathered (bufs : list (list Z)) : nat := length (concat bufs).

(** The default [pwrite_all_vectored] of the trait, over a [pwrite_all]. *)
Fixpoint pwrite_all_vectored_default {S} (pwrite_all : S -> nat -> Z -> list Z -> result StorageError unit * S)
    (s : S) (file_id : nat) (offset : Z) (size : nat) (bufs : list (list Z)) :
    result StorageError nat * S :=
  match bufs with
  | [] => (Ok size, s)
  | ioslice :: bufs =>
      match pwrite_all s file_id offset ioslice with
      | (Err e, s) => (Err e, s)
      | (Ok _, s) =>
          pwrite_all_vectored_default pwrite_all s file_id
            (wrap64 (offset + Z.of_nat (length ioslice))) (size + length ioslice) bufs
      end
  end.

(** What a back end promises.  [byte_at] is the content of its files, [opened]
    tells the files that are there. *)
Class StorageLaws (S : Type) `{TorrentStorage S} := {
  byte_at : S -> nat -> Z -> option Z;
  opened : S -> nat -> bool;
  (** A read succeeds on the bytes that are there, and returns them. *)
  pread_iff s f off n l : 0 <= off ->
    pread_exact s f off n = Ok l <->
    opened s f = true /\ length l = n /\
    forall i, (i < n)%nat -> byte_at s f (off + Z.of_nat i) = l !! i;
  (** A write that reports [n] bytes has written the first [n], and keeps what
      is stored elsewhere. *)
  pwrite_opened s f off bufs r s' : pwrite_all_vectored s f off bufs = (r, s') ->
    forall g, opened s' g = opened s g;
  pwrite_written s f off bufs n s' : 0 <= off -> pwrite_all_vectored s f off bufs = (Ok n, s') ->
    (n <= gathered bufs)%nat /\
    forall i, (i < n)%nat -> byte_at s' f (off + Z.of_nat i) = concat bufs !! i;
  pwrite_kept s f off bufs n s' : 0 <= off -> pwrite_all_vectored s f off bufs = (Ok n, s') ->
    forall g p b, ~ (g = f /\ off <= p < off + Z.of_nat n) -> byte_at s g p = Some b ->
      byte_at s' g p = Some b;
}.

(** ** Files as lists of bytes *)

(** [FileExt::read_exact_at]. *)
Definition read_exact_at (file : list Z) (offset : Z) (n : nat) : result StorageError (list Z) :=
  if (n =? 0)%nat then Ok []
  else if offset + Z.of_nat n <=? Z.of_nat (length file)
  then Ok (take n (drop (Z.to_nat offset) file)) else Err UnexpectedEof.

(** The file after [bytes] were written at [offset]: a gap is filled with zeros. *)
Definition splice (file : list Z) (offset : Z) (bytes : list Z) : list Z :=
  match bytes with
  | [] => file
  | _ =>
      take (Z.to_nat offset) (file ++ replicate (Z.to_nat offset - length file) 0) ++ bytes ++
      drop (Z.to_nat offset + length bytes) file
  end.

(** [File::set_len]. *)
Definition set_len (file : list Z) (n : Z) : list Z :=
  take (Z.to_nat n) file ++ replicate (Z.to_nat n - length file) 0.

(** ** The file system back end *)

(** A file that is not open ([OpenedFile::new_dummy]) has no content. *)
Record FilesystemStorage := mkFilesystemStorage {
  opened_files : list (option (list Z));
  read_only : bool;
}.

Section filesystem.
(** [pwritev]: how many bytes of a gathered write the kernel took. *)
Variable sys_pwritev : list Z -> Z -> list Z -> result StorageError nat.

Definition require_writable (s : FilesystemStorage) : result StorageError unit :=
  if read_only s then Err StorageReadOnly else Ok tt.

(** [lock_read] on the handle of a file. *)
Definition lock_read (s : FilesystemStorage) (file_id : nat) : result StorageError (list Z) :=
  handle ←? ok_or (opened_files s !! file_id) NoSuchFile;
  ok_or handle FsFileIsNone.

Definition fs_pread_exact (s : FilesystemStorage) (file_id : nat) (offset : Z) (n : nat) :
    result StorageError (list Z) :=
  file ←? lock_read s file_id;
  read_exact_at file offset n.

(** [OurFileExt::pwrite_all_vectored] on unix. *)
Definition file_pwrite_all_vectored (file : list Z) (offset : Z) (bufs : list (list Z)) :
    result StorageError (nat * list Z) :=
  if 9223372036854775808 <=? offset then Err OffsetTooLarge
  else
    n ←? sys_pwritev file offset (concat bufs);
    Ok (n, splice file offset (take n (concat bufs))).

Definition fs_pwrite_all_vectored (s : FilesystemStorage) (file_id : nat) (offset : Z)
    (bufs : list (list Z)) : result StorageError nat * FilesystemStorage :=
  match
    (_ ←? require_writable s;
     file ←? lock_read s file_id;
     file_pwrite_all_vectored file offset bufs)
  with
  | Err e => (Err e, s)
  | Ok (n, file) =>
      (Ok n, mkFilesystemStorage (<[file_id := Some file]> (opened_files s)) (read_only s))
  end.

(** [len] is the length the torrent wants. *)
Definition fs_ensure_file_length (s : FilesystemStorage) (file_id : nat) (len : Z) :
    result StorageError FilesystemStorage :=
  file ←? lock_read s file_id;
  if read_only s then
    if negb (Z.of_nat (length file) =? len) then Err WrongFileLength else Ok s
  else Ok (mkFilesystemStorage (<[file_id := Some (set_len file len)]> (opened_files s)) (read_only s)).

(** [take]: the new storage gets the handles, the old one is left with dummies. *)
Definition fs_take (s : FilesystemStorage) : FilesystemStorage * FilesystemStorage :=
  (s, mkFilesystemStorage ((fun _ => None) <$> opened_files s) (read_only s)).

#[local] Instance fs_storage : TorrentStorage FilesystemStorage := {
  pread_exact := fs_pread_exact;
  pwrite_all_vectored := fs_pwrite_all_vectored;
}.

Definition fs_byte_at (s : FilesystemStorage) (f : nat) (p : Z) : option Z :=
  if p <? 0 then None
  else match opened_files s !! f with Some (Some file) => file !! Z.to_nat p | _ => None end.

Definition fs_opened (s : FilesystemStorage) (f : nat) : bool :=
  match opened_files s !! f with Some (Some _) => true | _ => false end.

Lemma lock_read_Ok s f file : lock_read s f = Ok file <-> opened_files s !! f = Some (Some file).
Proof.
  unfold lock_read. destruct (opened_files s !! f) as [[x|]|]; simpl; split; congruence.
Qed.

Lemma read_exact_at_iff file off n l : 0 <= off ->
  read_exact_at file off n = Ok l <->
  length l = n /\ forall i, (i < n)%nat -> file !! Z.to_nat (off + Z.of_nat i) = l !! i.
Proof.
  intros Hoff. unfold read_exact_at. destruct (Nat.eqb_spec n 0) as [->|Hn].
  { split; [intros [= <-]; split; [done|lia]|]. intros [Hl _]. by destruct l. }
  destruct (Z.leb_spec (off + Z.of_nat n) (Z.of_nat (length file))) as [Hle|Hgt].
  - split.
    + intros [= <-]. rewrite length_take, length_drop. split; [lia|]. intros i Hi.
      rewrite lookup_take, lookup_drop. case_decide; [|lia]. f_equal. lia.
    + intros [Hl Hi]. f_equal. apply list_eq. intros i. rewrite lookup_take, lookup_drop.
      case_decide; [rewrite <- Hi by done; f_equal; lia|]. symmetry. apply lookup_ge_None. lia.
  - split; [done|]. intros [Hl Hi]. specialize (Hi (n - 1)%nat ltac:(lia)).
    rewrite lookup_ge_None_2 in Hi by lia.
    destruct (lookup_lt_is_Some_2 l (n - 1)) as [x Hx]; [lia|]. congruence.
Qed.

Lemma lookup_splice file off bytes p : 0 <= off -> 0 <= p ->
  off <= p < off + Z.of_nat (length bytes) ->
  splice file off bytes !! Z.to_nat p = bytes !! Z.to_nat (p - off).
Proof.
  intros Hoff Hp Hin. unfold splice. destruct bytes as [|b bytes]; [simpl in Hin; lia|].
  set (bs := b :: bytes) in *.
  rewrite lookup_app_r; rewrite length_take, length_app, length_replicate; [|lia].
  rewrite lookup_app_l by lia. f_equal. lia.
Qed.

Lemma lookup_splice_out file off bytes p b : 0 <= off -> 0 <= p ->
  ~ (off <= p < off + Z.of_nat (length bytes)) -> file !! Z.to_nat p = Some b ->
  splice file off bytes !! Z.to_nat p = Some b.
Proof.
  intros Hoff Hp Hout Hb. unfold splice. destruct bytes as [|c bytes]; [done|].
  set (bs := c :: bytes) in *. pose proof (lookup_lt_Some _ _ _ Hb) as Hlt.
  destruct (decide (p < off)) as [Hl|Hge].
  - rewrite lookup_app_l by (rewrite length_take, length_app, length_replicate; lia).
    rewrite lookup_take. case_decide; [|lia]. by rewrite lookup_app_l by lia.
  - rewrite lookup_app_r; rewrite length_take, length_app, length_replicate; [|lia].
    rewrite lookup_app_r by lia. rewrite lookup_drop. rewrite <- Hb. f_equal. lia.
Qed.

Lemma fs_pwrite_Ok s f off bufs n s' : fs_pwrite_all_vectored s f off bufs = (Ok n, s') ->
  read_only s = false /\ exists file, opened_files s !! f = Some (Some file) /\
    sys_pwritev file off (concat bufs) = Ok n /\
    s' = mkFilesystemStorage (<[f := Some (splice file off (take n (concat bufs)))]> (opened_files s))
           (read_only s).
Proof.
  unfold fs_pwrite_all_vectored, require_writable.
  destruct (read_only s); [done|]. rsimpl.
  destruct (lock_read s f) as [file|e] eqn:Hf; rsimpl; [|done]. apply lock_read_Ok in Hf.
  unfold file_pwrite_all_vectored. bcases; rsimpl; [done|].
  destruct (sys_pwritev file off (concat bufs)) as [k|e] eqn:Hk; rsimpl; [|done].
  intros [= <- <-]. split; [done|]. by exists file.
Qed.

(** The documented bound of [pwritev]. *)
Hypothesis pwritev_bound : forall file off bytes n,
  sys_pwritev file off bytes = Ok n -> (n <= length bytes)%nat.

#[local] Program Instance fs_laws : StorageLaws FilesystemStorage := {
  byte_at := fs_byte_at;
  opened := fs_opened;
}.
Next Obligation.
  intros s f off n l Hoff. simpl. unfold fs_pread_exact, fs_opened, fs_byte_at.
  destruct (opened_files s !! f) as [[file|]|] eqn:Hf; unfold lock_read; rewrite Hf; rsimpl.
  2,3: split; [done|intros [? _]; done].
  rewrite read_exact_at_iff by done. split; intros H.
  - destruct H as [Hl Hi]. split_and!; [done..|]. intros i Hlt. bcases; [lia|]. by apply Hi.
  - destruct H as (_ & Hl & Hi). split; [done|]. intros i Hlt. specialize (Hi i Hlt). bcases; [lia|done].
Qed.
Next Obligation.
  intros s f off bufs r s' Hw g. unfold fs_opened. destruct r as [n|e].
  - apply fs_pwrite_Ok in Hw as (_ & file & Hf & _ & ->). simpl.
    destruct (decide (g = f)) as [->|Hne]; [|by rewrite list_lookup_insert_ne].
    rewrite list_lookup_insert_eq by (by eapply lookup_lt_Some). by rewrite Hf.
  - simpl in Hw. unfold fs_pwrite_all_vectored in Hw.
    destruct (_ ←? require_writable s; _) as [[n file]|e']; [done|]. by injection Hw as _ <-.
Qed.
Next Obligation.
  intros s f off bufs n s' Hoff (_ & file & Hf & Hn & ->)%fs_pwrite_Ok.
  apply pwritev_bound in Hn. split; [exact Hn|]. intros i Hi. unfold fs_byte_at. simpl.
  bcases; [lia|]. rewrite list_lookup_insert_eq by (by eapply lookup_lt_Some).
  rewrite lookup_splice by (rewrite ?length_take; lia).
  rewrite lookup_take. case_decide; [f_equal; lia|lia].
Qed.
Next Obligation.
  intros s f off bufs n s' Hoff (_ & file & Hf & Hn & ->)%fs_pwrite_Ok g p b Hout.
  apply pwritev_bound in Hn. unfold fs_byte_at. simpl. bcases; [done|].
  destruct (decide (g = f)) as [->|Hne]; [|by rewrite list_lookup_insert_ne].
  rewrite Hf, list_lookup_insert_eq by (by eapply lookup_lt_Some). intros Hb.
  apply lookup_splice_out; [done|lia| |done]. rewrite length_take. intros ?. apply Hout.
  split; [done|]. lia.
Qed.

End filesystem.
