(* ===== verification/FileOps.v ===== *)
(** * FileOps: reading, writing and hashing the data of a torrent

    Models [crates/librtbit/src/file_ops.rs] over any storage and any hash
    function: a torrent is the concatenation of its files, and the operations
    walk the files from the one that holds an absolute offset.  [usize] has 64
    bits, so the conversions to it do not fail.  The messages of the errors are
    left out. *)

From stdpp Require Import strings.
From S2P Require Import Prelude Lengths BitBox FileInfo DoubleBuf Message Storage.

(** [sha1w::ISha1]. *)
Class ISha1 (Hs : Type) := {
  sha_new : Hs;
  sha_update : Hs -> list Z -> Hs;
  sha_finish : Hs -> list Z;
}.

(** The hash of data fed in parts is the digest of the whole. *)
Class Sha1Laws (Hs : Type) `{ISha1 Hs} := {
  digest : list Z -> list Z;
  sha_digest bufs : sha_finish (foldl sha_update sha_new bufs) = digest (concat bufs);
}.

Inductive FileOpsError :=
| StorageErr (e : StorageError)
| EmptyFileList
| BrokenMetadata
| InitialCheckCancelled
| HashNotFound
| NotEnoughCapacity.

(** [TorrentMetaV1Info::compare_hash] on the concatenated piece hashes. *)
Definition compare_hash (pieces : option (list Z)) (piece : Z) (hash : list Z) : option bool :=
  pieces ← pieces;
  let start := Z.to_nat (piece * 20) in
  let end_ := (start + 20)%nat in
  if (end_ <=? length pieces)%nat
  then Some (bool_decide (take 20 (drop start pieces) = hash)) else None.

Section file_ops.
Context {St : Type} {TS : TorrentStorage St}.
Context {Hs : Type} `{ISha1 Hs}.
Context {B : Type} `{BitBox B}.
Variable lengths : Lengths.
Variable pieces : option (list Z).
Variable file_infos : list FileInfo.

(** The loop reads at least a byte a turn, so [bytes_to_read] is fuel enough
    for a buffer that is not empty; with an empty one the source loops. *)
Fixpoint update_hash_loop (fuel : nat) (file_id : nat) (fi : FileInfo) (pos : Z) (files : St)
    (hash : Hs) (buf_len bytes_to_read : nat) : outcome (result FileOpsError Hs) :=
  if (bytes_to_read =? 0)%nat then Done (Ok hash)
  else
    match fuel with
    | O => Panic
    | S fuel =>
        let chunk := Nat.min buf_len bytes_to_read in
        let read :=
          if padding (fi_attrs fi) then Ok (replicate chunk 0)
          else pread_exact files file_id pos chunk in
        match read with
        | Err e => Done (Err (StorageErr e))
        | Ok buf =>
            update_hash_loop fuel file_id fi (pos + Z.of_nat chunk) files (sha_update hash buf)
              buf_len (bytes_to_read - chunk)
        end
    end.

Definition update_hash_from_file (file_id : nat) (fi : FileInfo) (pos : Z) (files : St) (hash : Hs)
    (buf_len bytes_to_read : nat) : outcome (result FileOpsError Hs) :=
  update_hash_loop bytes_to_read file_id fi pos files hash buf_len bytes_to_read.

(** ** Checking one piece *)

Fixpoint check_piece_loop (files : St) (buf_len file_idx : nat) (fis : list FileInfo)
    (absolute_offset : Z) (piece_remaining_bytes : nat) (h : Hs) : outcome (result FileOpsError Hs) :=
  match fis with
  | [] => Done (Ok h)
  | fi :: fis =>
      let file_len := fi_len fi in
      if file_len <? absolute_offset
      then check_piece_loop files buf_len (file_idx + 1) fis (absolute_offset - file_len)
             piece_remaining_bytes h
      else
        let file_remaining_len := file_len - absolute_offset in
        let to_read_in_file :=
          Z.to_nat (Z.min file_remaining_len (Z.of_nat piece_remaining_bytes)) in
        h ←?! update_hash_from_file file_idx fi absolute_offset files h buf_len to_read_in_file;
        let piece_remaining_bytes := (piece_remaining_bytes - to_read_in_file)%nat in
        if (piece_remaining_bytes =? 0)%nat then Done (Ok h)
        else check_piece_loop files buf_len (file_idx + 1) fis 0 piece_remaining_bytes h
  end.

Definition check_piece (files : St) (piece_index : Z) : outcome (result FileOpsError bool) :=
  let piece_length := piece_length lengths piece_index in
  let buf_len := Z.to_nat (Z.min 65536 piece_length) in
  h ←?! check_piece_loop files buf_len 0 file_infos (piece_offset lengths piece_index)
          (Z.to_nat piece_length) sha_new;
  match compare_hash pieces piece_index (sha_finish h) with
  | Some b => Done (Ok b)
  | None => Done (Err HashNotFound)
  end.

(** ** Chunks *)

(** [filled] is the part of the result buffer that is filled, [buf] the rest. *)
Fixpoint read_chunk_loop (files : St) (file_idx : nat) (fis : list FileInfo)
    (absolute_offset : Z) (filled buf : list Z) : result FileOpsError (list Z) :=
  match fis with
  | [] => Ok (filled ++ buf)
  | fi :: fis =>
      let file_len := fi_len fi in
      if file_len <? absolute_offset
      then read_chunk_loop files (file_idx + 1) fis (absolute_offset - file_len) filled buf
      else
        let file_remaining_len := file_len - absolute_offset in
        let to_read_in_file := Z.to_nat (Z.min file_remaining_len (Z.of_nat (length buf))) in
        let read :=
          if padding (fi_attrs fi) then Ok (replicate to_read_in_file 0)
          else pread_exact files file_idx absolute_offset to_read_in_file in
        match read with
        | Err e => Err (StorageErr e)
        | Ok data =>
            let filled := filled ++ data in
            let buf := drop to_read_in_file buf in
            if (length buf =? 0)%nat then Ok filled
            else read_chunk_loop files (file_idx + 1) fis 0 filled buf
        end
  end.

Definition read_chunk (files : St) (chunk_info : ChunkInfo) (result_buf : list Z) :
    result FileOpsError (list Z) :=
  if Z.of_nat (length result_buf) <? ci_size chunk_info then Err NotEnoughCapacity
  else read_chunk_loop files 0 file_infos (chunk_absolute_offset lengths chunk_info) [] result_buf.

Fixpoint write_chunk_loop (files : St) (file_idx : nat) (fis : list FileInfo)
    (absolute_offset : Z) (data : DoubleBuf) : result FileOpsError unit * St :=
  match fis with
  | [] => (Ok tt, files)
  | fi :: fis =>
      let file_len := fi_len fi in
      if file_len <? absolute_offset
      then write_chunk_loop files (file_idx + 1) fis (absolute_offset - file_len) data
      else
        let remaining_len := file_len - absolute_offset in
        let to_write := Z.to_nat (Z.min (Z.of_nat (len data)) remaining_len) in
        let slices := as_ioslices data to_write in
        let '(r, files) :=
          if negb (padding (fi_attrs fi))
          then pwrite_all_vectored files file_idx absolute_offset slices
          else (Ok to_write, files) in
        match r with
        | Err e => (Err (StorageErr e), files)
        | Ok _ =>
            let data := advance data to_write in
            if is_empty data then (Ok tt, files)
            else write_chunk_loop files (file_idx + 1) fis 0 data
        end
  end.

Definition write_chunk (files : St) (data : Piece) (chunk_info : ChunkInfo) :
    result FileOpsError unit * St :=
  write_chunk_loop files 0 file_infos (chunk_absolute_offset lengths chunk_info)
    (mkDoubleBuf (block_0 data) (block_1 data)).

(** ** Checking everything *)

Record CurrentFile := mkCurrentFile {
  cf_index : nat;
  cf_fi : FileInfo;
  cf_processed_bytes : Z;
  cf_is_broken : bool;
}.

Definition cf_remaining (cf : CurrentFile) : Z := fi_len (cf_fi cf) - cf_processed_bytes cf.

(** The current file, changed to the next one until there is something to read. *)
Fixpoint next_readable (cf : CurrentFile) (file_iterator : list FileInfo) (piece_remaining : nat) :
    result FileOpsError (nat * CurrentFile * list FileInfo) :=
  let to_read_in_file := Z.to_nat (Z.min (cf_remaining cf) (Z.of_nat piece_remaining)) in
  if (to_read_in_file =? 0)%nat then
    match file_iterator with
    | [] => Err BrokenMetadata
    | fi :: file_iterator =>
        next_readable (mkCurrentFile (cf_index cf + 1) fi 0 false) file_iterator piece_remaining
    end
  else Ok (to_read_in_file, cf, file_iterator).

(** The [while piece_remaining > 0] loop; every turn takes at least a byte.
    After a failed read the hash is not used any more. *)
Fixpoint piece_loop (fuel : nat) (files : St) (cf : CurrentFile) (file_iterator : list FileInfo)
    (piece_remaining : nat) (hash : Hs) (some_files_broken : bool) :
    outcome (result FileOpsError (CurrentFile * list FileInfo * Hs * bool)) :=
  if (piece_remaining =? 0)%nat then Done (Ok (cf, file_iterator, hash, some_files_broken))
  else
    match fuel with
    | O => Panic
    | S fuel =>
        match next_readable cf file_iterator piece_remaining with
        | Err e => Done (Err e)
        | Ok (to_read_in_file, cf, file_iterator) =>
            let pos := cf_processed_bytes cf in
            let piece_remaining := (piece_remaining - to_read_in_file)%nat in
            let cf := mkCurrentFile (cf_index cf) (cf_fi cf) (pos + Z.of_nat to_read_in_file)
                        (cf_is_broken cf) in
            if cf_is_broken cf
            then piece_loop fuel files cf file_iterator piece_remaining hash some_files_broken
            else
              match update_hash_from_file (cf_index cf) (cf_fi cf) pos files hash (Z.to_nat 65536)
                      to_read_in_file with
              | Panic => Panic
              | Done (Ok hash) =>
                  piece_loop fuel files cf file_iterator piece_remaining hash some_files_broken
              | Done (Err _) =>
                  piece_loop fuel files
                    (mkCurrentFile (cf_index cf) (cf_fi cf) (cf_processed_bytes cf) true)
                    file_iterator piece_remaining hash true
              end
        end
    end.

(** The body of the loop over the pieces; the state is the bit field, the
    current file and the files after it.  The progress counter is left out. *)
Definition check_step (files : St) (cancelled : Z -> bool)
    (st : B * CurrentFile * list FileInfo) (piece_info : PieceInfo) :
    outcome (result FileOpsError (B * CurrentFile * list FileInfo)) :=
  let '(have_pieces, cf, file_iterator) := st in
  let idx := pi_piece_index piece_info in
  if cancelled idx then Done (Err InitialCheckCancelled)
  else
    r ←?! piece_loop (Z.to_nat (pi_len piece_info)) files cf file_iterator
            (Z.to_nat (pi_len piece_info)) sha_new false;
    let '(cf, file_iterator, hash, some_files_broken) := r in
    if (some_files_broken : bool) then Done (Ok (have_pieces, cf, file_iterator))
    else
      match compare_hash pieces idx (sha_finish hash) with
      | None => Done (Err HashNotFound)
      | Some true =>
          have_pieces ←! bit_set_checked have_pieces idx true;
          Done (Ok (have_pieces, cf, file_iterator))
      | Some false => Done (Ok (have_pieces, cf, file_iterator))
      end.

Definition initial_check (files : St) (cancelled : Z -> bool) : outcome (result FileOpsError B) :=
  let have_pieces := zeroed_bytes (Z.to_nat (piece_bitfield_bytes lengths)) in
  match file_infos with
  | [] => Done (Err EmptyFileList)
  | fi :: file_iterator =>
      st ←?! try_for_each (check_step files cancelled)
               (have_pieces, mkCurrentFile 0 fi 0 false, file_iterator) (iter_piece_infos lengths);
      Done (Ok st.1.1)
  end.
End file_ops.

(** ** The bytes of a torrent *)
Section spec.
Context {St : Type} `{StorageLaws St}.
Context {Hs : Type} `{Sha1Laws Hs}.
Context {B : Type} `{BitBox B}.

(** The byte at an absolute position of the files from number [idx] on; a
    padding file reads as zeros. *)
Fixpoint torrent_byte (s : St) (idx : nat) (fis : list FileInfo) (p : Z) : option Z :=
  match fis with
  | [] => None
  | fi :: fis =>
      if p <? fi_len fi then if padding (fi_attrs fi) then Some 0 else byte_at s idx p
      else torrent_byte s (idx + 1) fis (p - fi_len fi)
  end.

(** The bytes [l] are what the torrent holds from position [off] on. *)
Definition stored (s : St) (idx : nat) (fis : list FileInfo) (off : Z) (l : list Z) : Prop :=
  forall i, (i < length l)%nat -> torrent_byte s idx fis (off + Z.of_nat i) = l !! i.

Definition total_len (fis : list FileInfo) : Z := sumZ (fi_len <$> fis).

Definition lens_ok (fis : list FileInfo) : Prop := Forall (fun fi => 0 <= fi_len fi) fis.

(** A file that is there with all its bytes; a padding file always is. *)
Definition intact (s : St) (idx : nat) (fi : FileInfo) : Prop := padding (fi_attrs fi) = false ->
  opened s idx = true /\ forall p, 0 <= p < fi_len fi -> is_Some (byte_at s idx p).

(** Every file is there with all its bytes. *)
Definition ready (s : St) (idx : nat) (fis : list FileInfo) : Prop :=
  forall k fi, fis !! k = Some fi -> intact s (idx + k) fi.

(** Every file that holds a byte of the [n] bytes from position [off] on is
    there with all its bytes. *)
Definition span_ready (s : St) (idx : nat) (fis : list FileInfo) (off : Z) (n : nat) : Prop :=
  forall k fi, fis !! k = Some fi -> 0 < fi_len fi ->
    off < total_len (take (Datatypes.S k) fis) -> total_len (take k fis) < off + Z.of_nat n -> intact s (idx + k) fi.

Lemma ready_span s idx fis off n : ready s idx fis -> span_ready s idx fis off n.
Proof. intros Hr k fi Hk _ _ _. by apply Hr. Qed.

Lemma total_len_cons fi fis : total_len (fi :: fis) = fi_len fi + total_len fis.
Proof. done. Qed.

Lemma total_len_nonneg fis : lens_ok fis -> 0 <= total_len fis.
Proof. intros Hok. by apply sumZ_nonneg, Forall_fmap. Qed.

Lemma span_mono s idx fis off n off' n' : off <= off' -> off' + Z.of_nat n' <= off + Z.of_nat n ->
  span_ready s idx fis off n -> span_ready s idx fis off' n'.
Proof. intros H1' H2' Hs' k fi Hk Hlen Ha Hb. apply (Hs' k); [done|done|lia|lia]. Qed.

Lemma span_skip s idx fi fis off n : span_ready s idx (fi :: fis) off n -> span_ready s (idx + 1) fis (off - fi_len fi) n.
Proof.
  intros Hs' k fj Hk Hlen Ha Hb. replace (idx + 1 + k)%nat with (idx + Datatypes.S k)%nat by lia.
  apply Hs'; [done|done|..]; cbn [take]; rewrite total_len_cons; [cbn [take] in Ha|]; lia.
Qed.

Lemma span_head s idx fi fis off n : (0 < n)%nat -> 0 <= off < fi_len fi -> span_ready s idx (fi :: fis) off n -> intact s idx fi.
Proof.
  intros Hn Ho Hs'. rewrite <- (Nat.add_0_r idx). apply Hs'; [done|lia|..]; cbn [take]; rewrite ?total_len_cons; unfold total_len; simpl; lia.
Qed.

(** Within one file only that file matters. *)
Lemma span_single s idx fi fis off n : lens_ok fis -> off + Z.of_nat n <= fi_len fi -> intact s idx fi ->
  span_ready s idx (fi :: fis) off n.
Proof.
  intros Hok Hle Hi [|k] fj Hk _ _ Hb; [injection Hk as <-; by rewrite Nat.add_0_r|]. exfalso.
  cbn [take] in Hb. rewrite total_len_cons in Hb. pose proof (total_len_nonneg (take k fis) (Forall_take _ _ _ Hok)). lia.
Qed.

Lemma stored_nil s idx fis off : stored s idx fis off [].
Proof. intros i Hi. simpl in Hi. lia. Qed.

Lemma stored_app s idx fis off l1 l2 : stored s idx fis off l1 ->
  stored s idx fis (off + Z.of_nat (length l1)) l2 -> stored s idx fis off (l1 ++ l2).
Proof.
  intros H1' H2' i Hi. rewrite length_app in Hi. destruct (decide (i < length l1)%nat).
  - rewrite lookup_app_l by done. by apply H1'.
  - rewrite lookup_app_r by lia. rewrite <- H2' by lia. f_equal. lia.
Qed.

Lemma stored_skip s idx fi fis off l : fi_len fi <= off ->
  stored s idx (fi :: fis) off l <-> stored s (idx + 1) fis (off - fi_len fi) l.
Proof.
  intros Hoff. unfold stored. simpl. split; intros Hs' i Hi; specialize (Hs' i Hi); revert Hs'; bcases; try lia;
    intros <-; f_equal; lia.
Qed.

(** A list with given elements. *)
Lemma list_of_fun {A} (f : nat -> option A) n : (forall i, (i < n)%nat -> is_Some (f i)) ->
  exists l, length l = n /\ forall i, (i < n)%nat -> f i = l !! i.
Proof.
  induction n as [|n IH]; intros Hf; [exists []; split; [done|lia]|].
  destruct IH as (l & Hl & Hi); [intros; apply Hf; lia|]. destruct (Hf n) as [x Hx]; [lia|].
  exists (l ++ [x]). rewrite length_app. split; [simpl; lia|]. intros i Hlt.
  destruct (decide (i = n)) as [->|].
  - rewrite lookup_app_r by lia. by rewrite Hl, Nat.sub_diag.
  - rewrite lookup_app_l by lia. apply Hi. lia.
Qed.

(** ** Reading within a file *)

Definition file_read (s : St) (idx : nat) (fi : FileInfo) (off : Z) (n : nat) :
    result StorageError (list Z) :=
  if padding (fi_attrs fi) then Ok (replicate n 0) else pread_exact s idx off n.

Lemma file_read_sound s idx fi fis off n l : 0 <= off -> off + Z.of_nat n <= fi_len fi ->
  file_read s idx fi off n = Ok l -> length l = n /\ stored s idx (fi :: fis) off l.
Proof.
  intros Hoff Hn. unfold file_read, stored. simpl. destruct (padding (fi_attrs fi)).
  - intros [= <-]. rewrite length_replicate. split; [done|]. intros i Hi.
    rewrite lookup_replicate_2 by done. bcases; [done|lia].
  - intros (_ & Hl & Hi)%pread_iff; [|done]. split; [done|]. rewrite Hl. intros i Hlt. bcases; [|lia].
    by apply Hi.
Qed.

Lemma file_read_here s idx fi off n : (padding (fi_attrs fi) = false -> opened s idx = true) ->
  (padding (fi_attrs fi) = false -> forall i, (i < n)%nat -> is_Some (byte_at s idx (off + Z.of_nat i))) -> 0 <= off ->
  exists l, file_read s idx fi off n = Ok l.
Proof.
  intros Ho Hb Hoff. unfold file_read. destruct (padding (fi_attrs fi)) eqn:Ep; [by eexists|].
  destruct (list_of_fun (fun i => byte_at s idx (off + Z.of_nat i)) n) as (l & Hl & Hi); [by apply Hb|].
  exists l. apply pread_iff; [done|]. split_and!; [by apply Ho|done|done].
Qed.

Lemma file_read_total s idx fi off n : intact s idx fi -> 0 <= off ->
  off + Z.of_nat n <= fi_len fi -> exists l, file_read s idx fi off n = Ok l.
Proof.
  intros Hr Hoff Hn. apply file_read_here; [|intros Hp i Hi; apply (Hr Hp); lia|done]. intros Hp. by apply Hr.
Qed.

(** The files are open, as those of a storage that is not read-only are. *)
Definition all_open (s : St) (idx : nat) (fis : list FileInfo) : Prop :=
  forall k fi, fis !! k = Some fi -> padding (fi_attrs fi) = false -> opened s (idx + k) = true.

Lemma open_tail s idx fi fis : all_open s idx (fi :: fis) -> all_open s (idx + 1) fis.
Proof.
  intros Hr k fj Hk Hp. replace (idx + 1 + k)%nat with (idx + Datatypes.S k)%nat by lia. by eapply Hr.
Qed.

(** ** [read_chunk] *)

Lemma read_chunk_loop_eq s idx fi fis off filled buf :
  read_chunk_loop s idx (fi :: fis) off filled buf =
  if fi_len fi <? off then read_chunk_loop s (idx + 1) fis (off - fi_len fi) filled buf
  else
    let n := Z.to_nat (Z.min (fi_len fi - off) (Z.of_nat (length buf))) in
    match file_read s idx fi off n with
    | Err e => Err (StorageErr e)
    | Ok data =>
        if (length (drop n buf) =? 0)%nat then Ok (filled ++ data)
        else read_chunk_loop s (idx + 1) fis 0 (filled ++ data) (drop n buf)
    end.
Proof. done. Qed.

Lemma read_loop_sound s fis : forall idx off filled buf l, lens_ok fis -> 0 <= off ->
  off + Z.of_nat (length buf) <= total_len fis ->
  read_chunk_loop s idx fis off filled buf = Ok l ->
  exists d, l = filled ++ d /\ length d = length buf /\ stored s idx fis off d.
Proof.
  induction fis as [|fi fis IH]; intros idx off filled buf l Hok Hoff Ht.
  { unfold total_len in Ht. simpl in *. intros [= <-]. destruct buf; [|simpl in Ht; lia].
    exists []. split_and!; [done..|]. apply stored_nil. }
  rewrite read_chunk_loop_eq. apply Forall_cons in Hok as [Hfi Hok].
  unfold total_len in Ht. rewrite sumZ_fmap_cons in Ht. fold (total_len fis) in Ht.
  destruct (Z.ltb_spec (fi_len fi) off) as [Hskip|Hin].
  { intros (d & -> & Hd & Hs')%IH; [|done|lia|lia]. exists d. split_and!; [done..|].
    apply stored_skip; [lia|done]. }
  cbv zeta. set (n := Z.to_nat _). destruct (file_read s idx fi off n) as [data|e] eqn:Hr; [|done].
  destruct (file_read_sound s idx fi fis off n data) as [Hl Hst]; [done|lia|done|].
  rewrite length_drop. destruct (Nat.eqb_spec (length buf - n) 0) as [Hz|Hz].
  - intros [= <-]. exists data. split_and!; [done|lia|done].
  - intros (d & -> & Hd & Hs')%IH; [|done|done|rewrite length_drop; lia].
    exists (data ++ d). rewrite length_app, Hd, length_drop. split_and!; [by rewrite app_assoc|lia|].
    apply stored_app; [done|]. apply stored_skip; [lia|]. by replace (off + _ - _) with 0 by lia.
Qed.

(** Bytes that are there can be read, when the files are open. *)
Lemma read_loop_total s fis : forall idx off filled buf, lens_ok fis -> all_open s idx fis -> 0 <= off ->
  (forall i, (i < length buf)%nat -> is_Some (torrent_byte s idx fis (off + Z.of_nat i))) ->
  exists l, read_chunk_loop s idx fis off filled buf = Ok l.
Proof.
  induction fis as [|fi fis IH]; intros idx off filled buf Hok Hr Hoff Ht; [by eexists|].
  rewrite read_chunk_loop_eq. apply Forall_cons in Hok as [Hfi Hok]. pose proof (open_tail _ _ _ _ Hr) as Hr'.
  cbn [torrent_byte] in Ht. destruct (Z.ltb_spec (fi_len fi) off) as [Hskip|Hin].
  { apply IH; [done|done|lia|]. intros i Hi. specialize (Ht i Hi). revert Ht. bcases; [lia|].
    by replace (off + Z.of_nat i - fi_len fi) with (off - fi_len fi + Z.of_nat i) by lia. }
  cbv zeta. set (n := Z.to_nat _).
  destruct (file_read_here s idx fi off n) as [data ->]; [..|done|].
  { intros Hp. rewrite <- (Nat.add_0_r idx). by apply (Hr 0%nat fi). }
  { intros Hp i Hi. specialize (Ht i ltac:(lia)). rewrite Hp in Ht. revert Ht. bcases; [done|lia]. }
  rewrite length_drop. destruct (Nat.eqb_spec (length buf - n) 0) as [Hz|Hz]; [by eexists|].
  apply IH; [done|done|lia|]. rewrite length_drop. intros i Hi. specialize (Ht (n + i)%nat ltac:(lia)). revert Ht.
  bcases; [lia|]. by replace (off + Z.of_nat (n + i) - fi_len fi) with (0 + Z.of_nat i) by lia.
Qed.

(** ** Hashing *)

(** [h'] is [h] after the bytes [l] were fed to it in some parts. *)
Definition fed (h : Hs) (l : list Z) (h' : Hs) : Prop :=
  exists bufs, concat bufs = l /\ h' = foldl sha_update h bufs.

Lemma fed_nil h : fed h [] h.
Proof. by exists []. Qed.

Lemma fed_one h l : fed h l (sha_update h l).
Proof. exists [l]. split; [apply app_nil_r|done]. Qed.

Lemma fed_app h l1 h1 l2 h2 : fed h l1 h1 -> fed h1 l2 h2 -> fed h (l1 ++ l2) h2.
Proof.
  intros (b1 & <- & ->) (b2 & <- & ->). exists (b1 ++ b2). by rewrite concat_app, foldl_app.
Qed.

Lemma fed_digest l h : fed sha_new l h -> sha_finish h = digest l.
Proof. intros (bufs & <- & ->). apply sha_digest. Qed.

(** What hashing a stretch of the torrent does: the hash is fed its bytes, or
    a read has failed, which it does not when the files that hold it are there. *)
Definition hashed (s : St) (idx : nat) (fis : list FileInfo) (off : Z) (n : nat) (h : Hs)
    (o : outcome (result FileOpsError Hs)) : Prop :=
  match o with
  | Panic => False
  | Done (Err _) => ~ span_ready s idx fis off n
  | Done (Ok h') => exists l, length l = n /\ stored s idx fis off l /\ fed h l h'
  end.

Lemma update_hash_loop_spec s idx fi fis buf_len : (0 < buf_len)%nat ->
  forall fuel pos h n, 0 <= pos -> pos + Z.of_nat n <= fi_len fi -> (n <= fuel)%nat ->
  hashed s idx (fi :: fis) pos n h (update_hash_loop fuel idx fi pos s h buf_len n).
Proof.
  intros Hb. induction fuel as [|fuel IH]; intros pos h n Hpos Hn Hf.
  - assert (n = 0%nat) as -> by lia. exists []. split_and!; [done|apply stored_nil|apply fed_nil].
  - cbn [update_hash_loop]. destruct (Nat.eqb_spec n 0) as [->|Hz].
    { exists []. split_and!; [done|apply stored_nil|apply fed_nil]. }
    fold (file_read s idx fi pos (Nat.min buf_len n)). set (c := Nat.min buf_len n).
    destruct (file_read s idx fi pos c) as [buf|e] eqn:Hr.
    + destruct (file_read_sound s idx fi fis pos c buf) as [Hl Hst]; [lia|lia|done|].
      specialize (IH (pos + Z.of_nat c) (sha_update h buf) (n - c)%nat ltac:(lia) ltac:(lia) ltac:(lia)).
      destruct (update_hash_loop _ _ _ _ _ _ _ _) as [[h'|e]|]; [| |exact IH].
      2: { intros Hsp. apply IH. eapply span_mono; [..|exact Hsp]; lia. }
      destruct IH as (l & Hl' & Hst' & Hfed). exists (buf ++ l). rewrite length_app.
      split_and!; [lia|apply stored_app; [done|by rewrite Hl]|].
      eapply fed_app; [apply fed_one|done].
    + intros Hrd. destruct (file_read_total s idx fi pos c) as [l Hl]; [|lia|lia|congruence].
      eapply span_head; [..|exact Hrd]; lia.
Qed.

Lemma hash_loop_spec s buf_len fis : (0 < buf_len)%nat ->
  forall idx off n h, lens_ok fis -> 0 <= off -> off + Z.of_nat n <= total_len fis ->
  hashed s idx fis off n h (check_piece_loop s buf_len idx fis off n h).
Proof.
  intros Hb. induction fis as [|fi fis IH]; intros idx off n h Hok Hoff Ht.
  { unfold total_len in Ht. simpl in *. exists []. split_and!; [simpl; lia|apply stored_nil|apply fed_nil]. }
  apply Forall_cons in Hok as [Hfi Hok].
  unfold total_len in Ht. rewrite sumZ_fmap_cons in Ht. fold (total_len fis) in Ht.
  cbn [check_piece_loop]. destruct (Z.ltb_spec (fi_len fi) off) as [Hskip|Hin].
  { specialize (IH (idx + 1)%nat (off - fi_len fi) n h Hok ltac:(lia) ltac:(lia)).
    destruct (check_piece_loop _ _ _ _ _ _ _) as [[h'|e]|]; [|exact (fun Hr => IH (span_skip _ _ _ _ _ _ Hr))|done].
    destruct IH as (l & Hl & Hst & Hfed). exists l. split_and!; [done| |done].
    apply stored_skip; [lia|done]. }
  set (k := Z.to_nat _). unfold update_hash_from_file.
  pose proof (update_hash_loop_spec s idx fi fis buf_len Hb k off h k Hoff ltac:(lia) ltac:(lia)) as Hu.
  destruct (update_hash_loop _ _ _ _ _ _ _ _) as [[h1|e]|]; rsimpl; [| |exact Hu].
  2: { intros Hsp. apply Hu. eapply span_mono; [..|exact Hsp]; lia. }
  destruct Hu as (l1 & Hl1 & Hst1 & Hfed1).
  destruct (Nat.eqb_spec (n - k) 0) as [Hz|Hz].
  { exists l1. split_and!; [lia|done|done]. }
  specialize (IH (idx + 1)%nat 0 (n - k)%nat h1 Hok ltac:(lia) ltac:(lia)).
  destruct (check_piece_loop _ _ _ _ _ _ _) as [[h'|e]|]; [| |done].
  2: { intros Hsp. apply IH. replace 0 with (fi_len fi - fi_len fi) by lia. apply span_skip.
       eapply span_mono; [..|exact Hsp]; lia. }
  destruct IH as (l & Hl & Hst & Hfed). exists (l1 ++ l). rewrite length_app.
  split_and!; [lia| |by eapply fed_app]. apply stored_app; [done|]. apply stored_skip; [lia|].
  by replace (off + _ - _) with 0 by lia.
Qed.

(** The stored bytes of a stretch are unique. *)
Lemma stored_inj s idx fis off l1 l2 : length l1 = length l2 -> stored s idx fis off l1 ->
  stored s idx fis off l2 -> l1 = l2.
Proof.
  intros Hl Hs1 Hs2. apply list_eq. intros i. destruct (decide (i < length l1)%nat) as [Hi|Hi].
  - rewrite <- Hs1, <- Hs2 by lia. done.
  - by rewrite !lookup_ge_None_2 by lia.
Qed.

(** ** [write_chunk] *)

(** Everything stored in [s] from file [idx] on is still there in [s']. *)
Definition keeps (P : nat -> Z -> Prop) (s s' : St) : Prop :=
  forall g p b, P g p -> byte_at s g p = Some b -> byte_at s' g p = Some b.

Lemma torrent_byte_keeps s s' fis : forall idx p b,
  keeps (fun g _ => (idx <= g)%nat) s s' ->
  torrent_byte s idx fis p = Some b -> torrent_byte s' idx fis p = Some b.
Proof.
  induction fis as [|fi fis IH]; intros idx p b Hk; [done|]. simpl. bcases.
  - destruct (padding (fi_attrs fi)); [done|]. by apply Hk.
  - apply IH. intros g q c Hg. apply Hk. lia.
Qed.

(** The file that holds a position is padding. *)
Fixpoint padding_at (fis : list FileInfo) (p : Z) : bool :=
  match fis with
  | [] => false
  | fi :: fis => if p <? fi_len fi then padding (fi_attrs fi) else padding_at fis (p - fi_len fi)
  end.

(** One file of a write. *)
Definition file_write (s : St) (idx : nat) (fi : FileInfo) (off : Z) (n : nat) (data : DoubleBuf) :
    result StorageError nat * St :=
  if negb (padding (fi_attrs fi)) then pwrite_all_vectored s idx off (as_ioslices data n)
  else (Ok n, s).

Lemma concat_ioslices data n : concat (as_ioslices data n) = take n (content data).
Proof. cbn [as_ioslices concat]. rewrite app_nil_r. apply take_min_app. Qed.

Lemma file_write_opened s idx fi off n data r s' : file_write s idx fi off n data = (r, s') ->
  forall g, opened s' g = opened s g.
Proof.
  unfold file_write. destruct (negb _); [|by intros [= <- <-]]. intros Hw. by eapply pwrite_opened.
Qed.

(** Every write of a [write_chunk] that was reported as done has written all it
    was given: the count it returned is that of the bytes to write. *)
Fixpoint complete_writes (s : St) (idx : nat) (fis : list FileInfo) (off : Z) (data : DoubleBuf) : bool :=
  match fis with
  | [] => true
  | fi :: fis =>
      if fi_len fi <? off then complete_writes s (idx + 1) fis (off - fi_len fi) data
      else
        let n := Z.to_nat (Z.min (Z.of_nat (len data)) (fi_len fi - off)) in
        match file_write s idx fi off n data with
        | (Err _, _) => true
        | (Ok k, s) =>
            (k =? n)%nat && (is_empty (advance data n) || complete_writes s (idx + 1) fis 0 (advance data n))
        end
  end.

Lemma file_write_spec s idx fi off n data s' : 0 <= off -> (n <= len data)%nat ->
  file_write s idx fi off n data = (Ok n, s') ->
  keeps (fun g p => ~ (g = idx /\ off <= p < off + Z.of_nat n)) s s' /\
  (padding (fi_attrs fi) = false -> forall i, (i < n)%nat ->
     byte_at s' idx (off + Z.of_nat i) = content data !! i).
Proof.
  intros Hoff Hn. unfold file_write. destruct (padding (fi_attrs fi)); simpl.
  - intros [= <-]. split; [by intros g p b _|done].
  - intros Hw. split; [intros g p b; by eapply pwrite_kept|].
    intros _ i Hi. destruct (pwrite_written _ _ _ _ _ _ Hoff Hw) as [_ ->]; [|done].
    rewrite concat_ioslices, lookup_take. by case_decide.
Qed.

Lemma write_chunk_loop_eq s idx fi fis off data :
  write_chunk_loop s idx (fi :: fis) off data =
  if fi_len fi <? off then write_chunk_loop s (idx + 1) fis (off - fi_len fi) data
  else
    let n := Z.to_nat (Z.min (Z.of_nat (len data)) (fi_len fi - off)) in
    let '(r, s) := file_write s idx fi off n data in
    match r with
    | Err e => (Err (StorageErr e), s)
    | Ok _ =>
        if is_empty (advance data n) then (Ok tt, s)
        else write_chunk_loop s (idx + 1) fis 0 (advance data n)
    end.
Proof. done. Qed.

Lemma is_empty_iff data : is_empty data = true <-> len data = 0%nat.
Proof.
  unfold is_empty, len. destruct (buf_0 data), (buf_1 data); simpl; split; intros; try done; lia.
Qed.

Lemma write_loop_opened fis : forall s idx off data r s',
  write_chunk_loop s idx fis off data = (r, s') -> forall g, opened s' g = opened s g.
Proof.
  induction fis as [|fi fis IH]; intros s idx off data r s'; [by intros [= <- <-]|].
  rewrite write_chunk_loop_eq. destruct (fi_len fi <? off); [apply IH|]. cbv zeta.
  destruct (file_write _ _ _ _ _ _) as [[k|e] s1] eqn:Hw.
  - pose proof (file_write_opened _ _ _ _ _ _ _ _ Hw) as Ho.
    destruct (is_empty _); [by intros [= <- <-]|]. intros Hl g. by rewrite (IH _ _ _ _ _ _ Hl), Ho.
  - intros [= <- <-]. by eapply file_write_opened.
Qed.

(** A write leaves the files before its own alone. *)
Lemma write_loop_frame fis : forall s idx off data s', 0 <= off -> complete_writes s idx fis off data = true ->
  write_chunk_loop s idx fis off data = (Ok tt, s') -> keeps (fun g _ => (g < idx)%nat) s s'.
Proof.
  induction fis as [|fi fis IH]; intros s idx off data s' Hoff; [by intros _ [= <-] g p b|].
  rewrite write_chunk_loop_eq. cbn [complete_writes]. destruct (Z.ltb_spec (fi_len fi) off).
  { intros Hc Hl g p b Hg. eapply IH; [|exact Hc|exact Hl|]; lia. }
  cbv zeta. set (n := Z.to_nat _). destruct (file_write _ _ _ _ _ _) as [[k|e] s1] eqn:Hw; [|done].
  intros [->%Nat.eqb_eq Hc]%andb_prop.
  destruct (file_write_spec s idx fi off n data s1 Hoff ltac:(lia) Hw) as [Hk _].
  assert (Hk' : keeps (fun g _ => (g < idx)%nat) s s1) by (intros g p b Hg; apply Hk; lia).
  destruct (is_empty _); [by intros [= <-]|]. intros Hl g p b Hg Hb.
  eapply IH; [|exact Hc|exact Hl| |by apply Hk']; lia.
Qed.

(** After a write the torrent holds the data where it was written (zeros in
    padding), and what it held elsewhere. *)
Lemma write_loop_spec fis : forall s idx off data s', lens_ok fis -> 0 <= off ->
  off + Z.of_nat (len data) <= total_len fis -> complete_writes s idx fis off data = true ->
  write_chunk_loop s idx fis off data = (Ok tt, s') ->
  (forall i, (i < len data)%nat -> torrent_byte s' idx fis (off + Z.of_nat i) =
     if padding_at fis (off + Z.of_nat i) then Some 0 else content data !! i) /\
  (forall p b, 0 <= p -> ~ (off <= p < off + Z.of_nat (len data)) ->
     torrent_byte s idx fis p = Some b -> torrent_byte s' idx fis p = Some b).
Proof.
  induction fis as [|fi fis IH]; intros s idx off data s' Hok Hoff Ht.
  { unfold total_len in Ht. simpl in *. intros _ [= <-]. split; [lia|done]. }
  apply Forall_cons in Hok as [Hfi Hok].
  unfold total_len in Ht. rewrite sumZ_fmap_cons in Ht. fold (total_len fis) in Ht.
  rewrite write_chunk_loop_eq. cbn [complete_writes]. destruct (Z.ltb_spec (fi_len fi) off) as [Hskip|Hin].
  { intros Hc Hl. destruct (IH s (idx + 1)%nat (off - fi_len fi) data s' Hok ltac:(lia) ltac:(lia) Hc Hl) as [Hnew Hold].
    pose proof (write_loop_frame fis s (idx + 1) (off - fi_len fi) data s' ltac:(lia) Hc Hl) as Hfr. cbn [torrent_byte padding_at]. split.
    - intros i Hi. destruct (Z.ltb_spec (off + Z.of_nat i) (fi_len fi)); [lia|].
      rewrite Z.add_sub_swap. by apply Hnew.
    - intros p b Hp Hout. destruct (Z.ltb_spec p (fi_len fi)); [|apply Hold; lia].
      destruct (padding (fi_attrs fi)); [done|]. apply Hfr. lia. }
  cbv zeta. set (n := Z.to_nat _). destruct (file_write _ _ _ _ _ _) as [[k|e] s1] eqn:Hw; [|done].
  intros [->%Nat.eqb_eq Hc]%andb_prop.
  destruct (file_write_spec s idx fi off n data s1 Hoff ltac:(lia) Hw) as [Hk Hwr].
  assert (Hadv : content (advance data n) = drop n (content data)) by apply drop_min_app.
  assert (Hladv : len (advance data n) = (len data - n)%nat)
    by (rewrite <- !length_content, Hadv; apply length_drop).
  assert (Htail : keeps (fun g _ => (idx + 1 <= g)%nat) s s1) by (intros g p b Hg; apply Hk; lia).
  assert (Hhead : keeps (fun g p => g = idx /\ ~ (off <= p < off + Z.of_nat n)) s s1)
    by (intros g p b [-> Hp]; apply Hk; tauto).
  destruct (is_empty _) eqn:He.
  - intros [= <-]. apply is_empty_iff in He. cbn [torrent_byte padding_at]. split.
    + intros i Hi. destruct (Z.ltb_spec (off + Z.of_nat i) (fi_len fi)); [|lia].
      destruct (padding (fi_attrs fi)); [done|]. apply Hwr; [done|lia].
    + intros p b Hp Hout. destruct (Z.ltb_spec p (fi_len fi)).
      * destruct (padding (fi_attrs fi)); [done|]. apply Hhead. split; [done|lia].
      * intros Hb. by eapply torrent_byte_keeps.
  - intros Hl. assert (Hn : Z.of_nat n = fi_len fi - off).
    { destruct (decide (len (advance data n) = 0%nat)) as [E|E]; [|lia]. apply is_empty_iff in E. congruence. }
    destruct (IH s1 (idx + 1)%nat 0 (advance data n) s' Hok ltac:(lia) ltac:(lia) Hc Hl) as [Hnew Hold].
    pose proof (write_loop_frame fis s1 (idx + 1) 0 (advance data n) s' ltac:(lia) Hc Hl) as Hfr. cbn [torrent_byte padding_at]. split.
    + intros i Hi. destruct (Z.ltb_spec (off + Z.of_nat i) (fi_len fi)).
      * destruct (padding (fi_attrs fi)); [done|].
        destruct (lookup_lt_is_Some_2 (content data) i) as [b Hb]; [by rewrite length_content|].
        rewrite Hb. apply Hfr; [lia|]. rewrite <- Hb. apply Hwr; [done|lia].
      * specialize (Hnew (i - n)%nat ltac:(lia)). rewrite Hadv, lookup_drop in Hnew.
        replace (0 + Z.of_nat (i - n)) with (off + Z.of_nat i - fi_len fi) in Hnew by lia.
        replace (n + (i - n))%nat with i in Hnew by lia. exact Hnew.
    + intros p b Hp Hout. destruct (Z.ltb_spec p (fi_len fi)).
      * destruct (padding (fi_attrs fi)); [done|]. intros Hb. apply Hfr; [lia|]. apply Hhead; [|done]. lia.
      * intros Hb. apply Hold; [lia|lia|]. by eapply torrent_byte_keeps.
Qed.

Lemma torrent_byte_file s fis : forall idx k fi p, lens_ok fis -> fis !! k = Some fi ->
  0 <= p < fi_len fi -> torrent_byte s idx fis (total_len (take k fis) + p) =
    if padding (fi_attrs fi) then Some 0 else byte_at s (idx + k) p.
Proof.
  induction fis as [|fj fis IH]; intros idx k fi p Hok Hk Hp; [done|].
  apply Forall_cons in Hok as [Hfj Hok]. destruct k as [|k].
  - injection Hk as ->. simpl. unfold total_len. simpl. rewrite Nat.add_0_r. bcases; [done|lia].
  - simpl in Hk. cbn [take torrent_byte]. unfold total_len. rewrite sumZ_fmap_cons.
    fold (total_len (take k fis)). assert (Htk : 0 <= total_len (take k fis)).
    { apply sumZ_nonneg, Forall_fmap. apply Forall_take. exact Hok. }
    destruct (Z.ltb_spec (fi_len fj + total_len (take k fis) + p) (fi_len fj)); [lia|].
    replace (fi_len fj + total_len (take k fis) + p - fi_len fj) with (total_len (take k fis) + p) by lia.
    rewrite (IH _ k fi) by done. by replace (idx + 1 + k)%nat with (idx + Datatypes.S k)%nat by lia.
Qed.

Lemma write_loop_ready fis s idx off data s' : lens_ok fis -> 0 <= off ->
  off + Z.of_nat (len data) <= total_len fis -> complete_writes s idx fis off data = true ->
  write_chunk_loop s idx fis off data = (Ok tt, s') -> ready s idx fis -> ready s' idx fis.
Proof.
  intros Hok Hoff Ht Hc Hw Hr k fi Hk Hpad. destruct (Hr k fi Hk Hpad) as [Ho Hb].
  split; [by rewrite (write_loop_opened _ _ _ _ _ _ _ Hw)|]. intros p Hp.
  destruct (write_loop_spec _ _ _ _ _ _ Hok Hoff Ht Hc Hw) as [Hnew Hold].
  pose proof (torrent_byte_file s' fis idx k fi p Hok Hk Hp) as Hf'. rewrite Hpad in Hf'. rewrite <- Hf'.
  pose proof (torrent_byte_file s fis idx k fi p Hok Hk Hp) as Hf. rewrite Hpad in Hf.
  set (q := total_len (take k fis) + p) in *.
  destruct (decide (off <= q < off + Z.of_nat (len data))) as [Hin|Hout].
  - specialize (Hnew (Z.to_nat (q - off)) ltac:(lia)).
    replace (off + Z.of_nat (Z.to_nat (q - off))) with q in Hnew by lia. rewrite Hnew.
    destruct (padding_at fis q); [done|]. apply lookup_lt_is_Some_2. rewrite length_content. lia.
  - destruct (Hb p Hp) as [b Hbp]. exists b. apply Hold; [|done|congruence].
    unfold q. assert (0 <= total_len (take k fis)); [|lia].
    apply sumZ_nonneg, Forall_fmap, Forall_take. exact Hok.
Qed.

(** ** [initial_check] *)

(** The files from the current one on. *)
Definition files_from (cf : CurrentFile) (it : list FileInfo) : list FileInfo := cf_fi cf :: it.

(** A place in the file. *)
Definition cf_ok (cf : CurrentFile) : Prop := 0 <= cf_processed_bytes cf <= fi_len (cf_fi cf).

(** A file is only called broken when it is. *)
Definition cf_fair (s : St) (cf : CurrentFile) : Prop := cf_is_broken cf = true -> ~ intact s (cf_index cf) (cf_fi cf).

(** From [cf] the position moves on by [n] bytes, to [cf']. *)
Definition moved (cf : CurrentFile) (it : list FileInfo) (n : Z) (cf' : CurrentFile)
    (it' : list FileInfo) : Prop :=
  exists k, (k <= length it)%nat /\ files_from cf' it' = drop k (files_from cf it) /\
    cf_index cf' = (cf_index cf + k)%nat /\
    total_len (take k (files_from cf it)) + cf_processed_bytes cf' = cf_processed_bytes cf + n.

Lemma moved_trans cf it n cf1 it1 m cf2 it2 :
  moved cf it n cf1 it1 -> moved cf1 it1 m cf2 it2 -> moved cf it (n + m) cf2 it2.
Proof.
  intros (k & Hk & Hf & Hi & Ht) (j & Hj & Hf' & Hi' & Ht').
  assert (Hl : length (files_from cf1 it1) = (length (files_from cf it) - k)%nat)
    by (by rewrite Hf, length_drop).
  unfold files_from in Hl at 1 2. simpl in Hl. exists (k + j)%nat.
  split_and!; [lia|by rewrite Hf', Hf, drop_drop|lia|].
  assert (Hsplit : take (k + j) (files_from cf it) =
    take k (files_from cf it) ++ take j (files_from cf1 it1)).
  { rewrite <- (take_drop k (files_from cf it)) at 1. rewrite take_app_add', Hf; [done|].
    rewrite length_take. unfold files_from. simpl. lia. }
  rewrite Hsplit. unfold total_len in *. rewrite fmap_app, sumZ_app. lia.
Qed.

Lemma next_readable_spec it : forall cf rem, cf_ok cf -> lens_ok (files_from cf it) ->
  (0 < rem)%nat -> cf_processed_bytes cf + Z.of_nat rem <= total_len (files_from cf it) ->
  exists cf' it', next_readable cf it rem =
      Ok (Z.to_nat (Z.min (cf_remaining cf') (Z.of_nat rem)), cf', it') /\
    0 < cf_remaining cf' /\ cf_ok cf' /\ moved cf it 0 cf' it' /\ (cf' = cf \/ cf_is_broken cf' = false).
Proof.
  induction it as [|fi it IH]; intros cf rem Hcf Hok Hrem Ht; pose proof Hcf as Hp; unfold cf_ok in Hp;
    unfold files_from in *; rewrite total_len_cons in Ht;
    cbn [next_readable]; destruct (Nat.eqb_spec (Z.to_nat (Z.min (cf_remaining cf) (Z.of_nat rem))) 0) as [Hz|Hz];
    unfold cf_remaining in *.
  - unfold total_len in Ht. simpl in Ht. lia.
  - exists cf, []. split_and!; [done|lia|done| |by left]. exists 0%nat. unfold files_from, total_len. simpl.
    split_and!; [lia|done|lia|lia].
  - apply Forall_cons in Hok as [Hfi Hok]. apply Forall_cons in Hok as [Hfj Hok].
    rewrite total_len_cons in Ht.
    destruct (IH (mkCurrentFile (cf_index cf + 1) fi 0 false) rem) as (cf' & it' & -> & Hr & Hok' & Hm & Hbr).
    { unfold cf_ok. simpl. lia. }
    { by apply Forall_cons. }
    { done. }
    { cbn [cf_processed_bytes cf_fi]. rewrite total_len_cons. lia. }
    exists cf', it'. split_and!; [done|done|done| |destruct Hbr as [->|]; by right].
    apply (moved_trans _ _ 0 (mkCurrentFile (cf_index cf + 1) fi 0 false) it 0); [|done].
    exists 1%nat. unfold files_from, total_len. simpl. split_and!; [lia|done|done|lia].
  - exists cf, (fi :: it). split_and!; [done|lia|done| |by left]. exists 0%nat. unfold files_from, total_len. simpl.
    split_and!; [lia|done|lia|lia].
Qed.

(** What is stored, seen from a later file. *)
Lemma stored_from s fis : forall k idx off l, lens_ok fis -> 0 <= off -> (k <= length fis)%nat ->
  stored s (idx + k) (drop k fis) off l -> stored s idx fis (total_len (take k fis) + off) l.
Proof.
  induction fis as [|fi fis IH]; intros k idx off l Hok Hoff Hk Hs'.
  { destruct k; [|simpl in Hk; lia]. by rewrite Nat.add_0_r in Hs'. }
  destruct k as [|k]; [by rewrite Nat.add_0_r in Hs'|]. apply Forall_cons in Hok as [Hfi Hok].
  simpl in Hk. cbn [take drop] in *. rewrite total_len_cons.
  assert (0 <= total_len (take k fis)) by (by apply sumZ_nonneg, Forall_fmap, Forall_take).
  apply stored_skip; [lia|].
  replace (fi_len fi + total_len (take k fis) + off - fi_len fi) with (total_len (take k fis) + off) by lia.
  apply IH; [done|done|lia|]. by replace (idx + 1 + k)%nat with (idx + Datatypes.S k)%nat by lia.
Qed.

Lemma moved_stored s cf it n cf' it' l : lens_ok (files_from cf it) -> cf_ok cf' ->
  moved cf it n cf' it' -> stored s (cf_index cf') (files_from cf' it') (cf_processed_bytes cf') l ->
  stored s (cf_index cf) (files_from cf it) (cf_processed_bytes cf + n) l.
Proof.
  intros Hok Hp (k & Hk & Hf & Hi & Ht). unfold cf_ok in Hp. rewrite Hf, Hi, <- Ht. apply stored_from; [done|lia|].
  unfold files_from. simpl. lia.
Qed.

Lemma take_drop_len k j fis : total_len (take (k + j) fis) = total_len (take k fis) + total_len (take j (drop k fis)).
Proof.
  rewrite <- (take_drop k (take (k + j) fis)), take_take, Nat.min_l by lia. rewrite <- take_drop_commute.
  unfold total_len. by rewrite fmap_app, sumZ_app.
Qed.

(** The files that hold what is left. *)
Lemma moved_span s cf it m cf' it' n : moved cf it m cf' it' ->
  span_ready s (cf_index cf) (files_from cf it) (cf_processed_bytes cf + m) n ->
  span_ready s (cf_index cf') (files_from cf' it') (cf_processed_bytes cf') n.
Proof.
  intros (k & _ & -> & -> & Ht) Hs' j fi Hj Hlen Ha Hb. rewrite lookup_drop in Hj.
  replace (cf_index cf + k + j)%nat with (cf_index cf + (k + j))%nat by lia.
  apply (Hs' (k + j)%nat); [done|done|..].
  - replace (Datatypes.S (k + j)) with (k + Datatypes.S j)%nat by lia. rewrite take_drop_len. lia.
  - rewrite take_drop_len. lia.
Qed.

Lemma moved_lens cf it n cf' it' : moved cf it n cf' it' -> lens_ok (files_from cf it) ->
  lens_ok (files_from cf' it') /\
  total_len (files_from cf' it') - cf_processed_bytes cf' =
  total_len (files_from cf it) - cf_processed_bytes cf - n.
Proof.
  intros (k & _ & -> & _ & Ht) Hok. split; [by apply Forall_drop|].
  rewrite <- (take_drop k (files_from cf it)) at 2. unfold total_len in *. rewrite fmap_app, sumZ_app. lia.
Qed.

Lemma moved_refl cf it : moved cf it 0 cf it.
Proof. exists 0%nat. unfold total_len. simpl. split_and!; [lia|done|lia|lia]. Qed.

(** The outcome of the loop over one piece: the position moves on by the piece;
    when the files that hold it are there its bytes are fed to the hash. *)
Definition piece_read (s : St) (cf : CurrentFile) (it : list FileInfo) (rem : nat) (h : Hs) (sfb : bool)
    (cf' : CurrentFile) (it' : list FileInfo) (h' : Hs) (sfb' : bool) : Prop :=
  cf_ok cf' /\ cf_fair s cf' /\ moved cf it (Z.of_nat rem) cf' it' /\
  (span_ready s (cf_index cf) (files_from cf it) (cf_processed_bytes cf) rem -> sfb' = sfb /\
     exists l, length l = rem /\ fed h l h' /\ stored s (cf_index cf) (files_from cf it) (cf_processed_bytes cf) l).

Lemma piece_read_nil s cf it h sfb : cf_ok cf -> cf_fair s cf -> piece_read s cf it 0 h sfb cf it h sfb.
Proof.
  intros Hcf Hfair. split_and!; [done|done|apply moved_refl|]. intros _. split; [done|]. exists [].
  split_and!; [done|apply fed_nil|apply stored_nil].
Qed.

(** A turn of the loop, and the rest of it: it fed [n1] bytes of the file, or
    the file is broken. *)
Lemma piece_read_turn s cf it rem h sfb cf1 it1 n1 cf2 h1 sfb1 cf' it' h' sfb' :
  lens_ok (files_from cf it) -> cf_ok cf1 -> cf_ok cf2 -> moved cf it 0 cf1 it1 -> moved cf it (Z.of_nat n1) cf2 it1 ->
  (0 < n1 <= rem)%nat -> cf_processed_bytes cf1 + Z.of_nat n1 <= fi_len (cf_fi cf1) ->
  (sfb1 = sfb /\ (exists l1, length l1 = n1 /\ fed h l1 h1 /\ stored s (cf_index cf1) (files_from cf1 it1) (cf_processed_bytes cf1) l1) \/
   ~ intact s (cf_index cf1) (cf_fi cf1)) ->
  piece_read s cf2 it1 (rem - n1) h1 sfb1 cf' it' h' sfb' -> piece_read s cf it rem h sfb cf' it' h' sfb'.
Proof.
  intros Hok Hcf1 Hcf2 Hm1 Hm2 Hn1 Hin Hcase (Hcf' & Hfair' & Hm' & Hl). split_and!; [done|done| |].
  { replace (Z.of_nat rem) with (Z.of_nat n1 + Z.of_nat (rem - n1)) by lia. by eapply moved_trans. }
  intros Hsp. unfold cf_ok in Hcf1. destruct Hcase as [[-> (l1 & Hl1 & Hfed1 & Hst1)]|Hbad].
  - destruct Hl as [-> (l & Hl & Hfed & Hst)]; [eapply moved_span; [exact Hm2|]; eapply span_mono; [..|exact Hsp]; lia|].
    split; [done|]. exists (l1 ++ l). rewrite length_app. split_and!; [lia|by eapply fed_app|]. apply stored_app.
    + rewrite <- (Z.add_0_r (cf_processed_bytes cf)). by eapply (moved_stored s cf it 0 cf1 it1).
    + rewrite Hl1. by eapply (moved_stored s cf it _ cf2 it1).
  - exfalso. apply Hbad. eapply (span_head s _ _ it1 (cf_processed_bytes cf1) n1); [lia|lia|].
    eapply moved_span; [exact Hm1|]. eapply span_mono; [..|exact Hsp]; lia.
Qed.

Lemma piece_loop_spec s : forall fuel cf it rem h sfb, cf_ok cf -> cf_fair s cf -> lens_ok (files_from cf it) ->
  (rem <= fuel)%nat -> cf_processed_bytes cf + Z.of_nat rem <= total_len (files_from cf it) ->
  exists cf' it' h' sfb', piece_loop fuel s cf it rem h sfb = Done (Ok (cf', it', h', sfb')) /\
    piece_read s cf it rem h sfb cf' it' h' sfb'.
Proof.
  induction fuel as [|fuel IH]; intros cf it rem h sfb Hcf Hfair Hok Hf Ht.
  { assert (rem = 0%nat) as -> by lia. exists cf, it, h, sfb. split; [done|by apply piece_read_nil]. }
  destruct (decide (rem = 0%nat)) as [->|Hrem]; [exists cf, it, h, sfb; split; [done|by apply piece_read_nil]|].
  cbn [piece_loop]. destruct (Nat.eqb_spec rem 0); [done|].
  destruct (next_readable_spec it cf rem) as (cf1 & it1 & -> & Hpos & Hcf1 & Hm1 & Hbr); [done|done|lia|done|].
  assert (Hfair1 : cf_fair s cf1) by (destruct Hbr as [->|Hbr]; [done|intros E; congruence]).
  cbn [cf_is_broken cf_index cf_fi cf_processed_bytes]. unfold cf_remaining, cf_ok in *.
  set (n1 := Z.to_nat (Z.min (fi_len (cf_fi cf1) - cf_processed_bytes cf1) (Z.of_nat rem))).
  destruct (moved_lens _ _ _ _ _ Hm1 Hok) as [Hok1 Htot1].
  assert (Hnext : forall b, let cf2 := mkCurrentFile (cf_index cf1) (cf_fi cf1) (cf_processed_bytes cf1 + Z.of_nat n1) b in
    cf_ok cf2 /\ moved cf it (Z.of_nat n1) cf2 it1).
  { intros b cf2. split; [unfold cf_ok; simpl; lia|]. apply (moved_trans _ _ 0 cf1 it1 (Z.of_nat n1)); [done|].
    exists 0%nat. unfold total_len. simpl. split_and!; [lia|done|lia|lia]. }
  assert (Hrest : forall b h1 sfb1, cf_fair s (mkCurrentFile (cf_index cf1) (cf_fi cf1) (cf_processed_bytes cf1 + Z.of_nat n1) b) ->
    (sfb1 = sfb /\ (exists l1, length l1 = n1 /\ fed h l1 h1 /\ stored s (cf_index cf1) (files_from cf1 it1) (cf_processed_bytes cf1) l1) \/
     ~ intact s (cf_index cf1) (cf_fi cf1)) ->
    exists cf' it' h' sfb', piece_loop fuel s (mkCurrentFile (cf_index cf1) (cf_fi cf1) (cf_processed_bytes cf1 + Z.of_nat n1) b) it1
      (rem - n1) h1 sfb1 = Done (Ok (cf', it', h', sfb')) /\ piece_read s cf it rem h sfb cf' it' h' sfb').
  { intros b h1 sfb1 Hfair2 Hcase. destruct (Hnext b) as [Hcf2 Hm2]. destruct (moved_lens _ _ _ _ _ Hm2 Hok) as [Hok2 Htot2].
    edestruct IH as (cf' & it' & h' & sfb' & -> & Hread); [exact Hcf2|exact Hfair2|exact Hok2|lia|lia|].
    exists cf', it', h', sfb'. split; [done|]. eapply piece_read_turn; [done|exact Hcf1|exact Hcf2|done|done|lia|lia|done|exact Hread]. }
  destruct (cf_is_broken cf1) eqn:Hb1; [apply (Hrest true); [by intros _; apply Hfair1|right; by apply Hfair1]|].
  unfold update_hash_from_file.
  pose proof (update_hash_loop_spec s (cf_index cf1) (cf_fi cf1) it1 (Z.to_nat 65536) ltac:(lia) n1
    (cf_processed_bytes cf1) h n1 ltac:(lia) ltac:(lia) ltac:(lia)) as Hu.
  destruct (update_hash_loop _ _ _ _ _ _ _ _) as [[h1|e]|]; [| |done].
  - destruct Hu as (l1 & Hl1 & Hst1 & Hfed1). apply (Hrest false); [done|left; split; [done|by exists l1]].
  - assert (Hbad : ~ intact s (cf_index cf1) (cf_fi cf1)).
    { intros Hi. apply Hu, span_single; [by apply Forall_cons in Hok1 as [_ ?]|lia|done]. }
    apply (Hrest true); [by intros _|by right].
Qed.

Section torrent.
Variable lengths : Lengths.
Variable pieces : option (list Z).
Variable fis : list FileInfo.
Hypothesis Hwf : wf lengths.
Hypothesis Hlens : lens_ok fis.
(** The files are as long as the torrent. *)
Hypothesis Htotal : total_len fis = l_total_length lengths.

Lemma piece_in_files i : valid_index lengths i ->
  0 <= piece_offset lengths i /\ piece_offset lengths i + piece_length lengths i <= total_len fis.
Proof.
  intros Hi. rewrite Htotal, piece_offset_eq, piece_length_cut by done.
  pose proof (wf_facts lengths Hwf) as (? & ? & ? & _). unfold valid_index in Hi. nia.
Qed.

(** The torrent has a hash for piece [i]. *)
Definition has_hash (i : Z) : Prop :=
  match pieces with Some p => i * 20 + 20 <= Z.of_nat (length p) | None => False end.

Lemma compare_hash_Some i hash : 0 <= i -> has_hash i ->
  exists b, compare_hash pieces i hash = Some b.
Proof.
  unfold has_hash, compare_hash. destruct pieces as [p|]; [|done]. simpl. intros Hi Hp.
  destruct (Nat.leb_spec (Z.to_nat (i * 20) + 20) (length p)); [by eexists|lia].
Qed.

(** The files that hold piece [i] are there with all their bytes. *)
Definition piece_ready (s : St) (i : Z) : Prop :=
  span_ready s 0 fis (piece_offset lengths i) (Z.to_nat (piece_length lengths i)).

(** The answer of [check_piece]: the comparison of the digest of the stored
    bytes with the hash of the torrent, or a read has failed. *)
Lemma check_piece_result s i : valid_index lengths i -> has_hash i ->
  match check_piece lengths pieces fis s i with
  | Panic => False
  | Done (Err _) => ~ piece_ready s i
  | Done (Ok b) => exists l, Z.of_nat (length l) = piece_length lengths i /\
      stored s 0 fis (piece_offset lengths i) l /\ compare_hash pieces i (digest l) = Some b
  end.
Proof.
  intros Hi Hh. unfold piece_ready. destruct (piece_in_files i Hi) as [Ho Hle].
  pose proof (piece_length_pos lengths i Hwf Hi) as Hpl. unfold check_piece.
  pose proof (hash_loop_spec s (Z.to_nat (Z.min 65536 (piece_length lengths i))) fis ltac:(lia)
    0 (piece_offset lengths i) (Z.to_nat (piece_length lengths i)) sha_new Hlens Ho ltac:(lia)) as Hl.
  destruct (check_piece_loop _ _ _ _ _ _ _) as [[h|e]|]; rsimpl; [|exact Hl|exact Hl].
  destruct Hl as (l & Hlen & Hst & Hfed). apply fed_digest in Hfed as ->.
  destruct (compare_hash_Some i (digest l)) as [b Hb]; [unfold valid_index in Hi; lia|done|].
  rewrite Hb. exists l. split_and!; [lia|done|done].
Qed.

(** The state of [initial_check] before piece [n]: the position is the offset
    of the piece, and the bits of the pieces before it are right where the files
    that hold them are there. *)
Definition check_inv (s : St) (n : Z) (st : B * CurrentFile * list FileInfo) : Prop :=
  let '(bf, cf, it) := st in
  bit_len bf = 8 * piece_bitfield_bytes lengths /\ cf_ok cf /\ cf_fair s cf /\
  (exists fi it0, fis = fi :: it0 /\
     moved (mkCurrentFile 0 fi 0 false) it0 (Z.min (l_total_length lengths) (n * l_piece_length lengths)) cf it) /\
  (forall i, n <= i -> bit_at bf i = false) /\
  forall i, 0 <= i < n -> piece_ready s i -> bit_at bf i = true <-> check_piece lengths pieces fis s i = Done (Ok true).

Lemma check_piece_ready s i : valid_index lengths i -> has_hash i -> piece_ready s i ->
  exists l, Z.of_nat (length l) = piece_length lengths i /\ stored s 0 fis (piece_offset lengths i) l /\
    exists b, compare_hash pieces i (digest l) = Some b /\
      check_piece lengths pieces fis s i = Done (Ok b).
Proof.
  intros Hi Hh Hr. pose proof (check_piece_result s i Hi Hh) as Hc.
  destruct (check_piece lengths pieces fis s i) as [[b|e]|]; [|by destruct Hc|done].
  destruct Hc as (l & Hl & Hst & Hb). exists l. split_and!; [done|done|]. by exists b.
Qed.

(** The end of a step, after the bytes of piece [n] were read. *)
Lemma check_step_end s n (bf : B) cf it h sfb : has_hash n -> 0 <= n < bit_len bf ->
  bit_len bf = 8 * piece_bitfield_bytes lengths -> cf_ok cf -> cf_fair s cf ->
  (exists fi it0, fis = fi :: it0 /\
     moved (mkCurrentFile 0 fi 0 false) it0 (Z.min (l_total_length lengths) ((n + 1) * l_piece_length lengths)) cf it) ->
  (forall i, n <= i -> bit_at bf i = false) ->
  (forall i, 0 <= i < n -> piece_ready s i -> bit_at bf i = true <-> check_piece lengths pieces fis s i = Done (Ok true)) ->
  (piece_ready s n -> sfb = false /\ exists b, compare_hash pieces n (sha_finish h) = Some b /\
    check_piece lengths pieces fis s n = Done (Ok b)) ->
  exists st', (if sfb : bool then Done (Ok (bf, cf, it))
      else match compare_hash pieces n (sha_finish h) with
           | Some true => outcome_bind (bit_set_checked bf n true) (fun bf => Done (Ok (bf, cf, it)))
           | Some false => Done (Ok (bf, cf, it))
           | None => Done (Err HashNotFound)
           end) = Done (Ok st') /\ check_inv s (n + 1) st'.
Proof.
  intros Hh Hn Hbl Hcf Hfair Hm Hzero Hbits Hgood. destruct (compare_hash_Some n (sha_finish h)) as [b Hb]; [lia|done|].
  assert (Hsame : (piece_ready s n -> check_piece lengths pieces fis s n <> Done (Ok true)) -> check_inv s (n + 1) (bf, cf, it)).
  { intros Hno. split_and!; try done; [intros i Hi; apply Hzero; lia|]. intros i Hi Hr.
    destruct (decide (i = n)) as [->|]; [|apply Hbits; [lia|done]]. rewrite Hzero by lia. split; [done|]. by intros ?%Hno. }
  destruct sfb; [eexists; split; [done|]; apply Hsame; intros Hr; by destruct (Hgood Hr)|]. rewrite Hb. destruct b.
  - rewrite bit_set_checked_in by lia. rsimpl. eexists. split; [done|]. split_and!; try done; [by rewrite bit_len_set by lia|..].
    + intros i Hi. rewrite bit_at_set by lia. destruct (Z.eqb_spec i n); [lia|]. apply Hzero. lia.
    + intros i Hi Hr. rewrite bit_at_set by lia. destruct (Z.eqb_spec i n) as [->|]; [|apply Hbits; [lia|done]].
      destruct (Hgood Hr) as [_ (b & Hb' & ->)]. split; [|done]. intros _. do 2 f_equal. congruence.
  - eexists. split; [done|]. apply Hsame. intros Hr. destruct (Hgood Hr) as [_ (b & Hb' & ->)]. intros [= ->]. congruence.
Qed.

Lemma check_step_spec s cancelled n st : valid_index lengths n -> has_hash n ->
  cancelled n = false -> check_inv s n st ->
  exists st', check_step pieces s cancelled st (mkPieceInfo n (piece_length lengths n)) = Done (Ok st') /\
    check_inv s (n + 1) st'.
Proof.
  intros Hn Hh Hc. destruct st as [[bf cf] it]. intros (Hbl & Hcf & Hfair & (fi & it0 & Hfis & Hm) & Hzero & Hbits).
  unfold check_step. cbn [pi_piece_index pi_len]. rewrite Hc.
  set (cf0 := mkCurrentFile 0 fi 0 false) in *.
  assert (Hf0 : files_from cf0 it0 = fis) by (unfold files_from; simpl; by rewrite Hfis).
  pose proof (piece_length_pos lengths n Hwf Hn) as Hpl.
  pose proof (piece_length_cut lengths n Hwf Hn) as Hcut.
  pose proof (piece_offset_eq lengths n Hwf Hn) as Hoff.
  pose proof (wf_facts lengths Hwf) as (Ht0 & Hp0 & Hlast & Hlpl & Htl & _ & _ & _ & Hp32).
  assert (Hmin : Z.min (l_total_length lengths) (n * l_piece_length lengths) = piece_offset lengths n).
  { rewrite Hoff. unfold valid_index in Hn. nia. }
  rewrite Hmin in Hm.
  destruct (moved_lens cf0 it0 _ cf it Hm) as [Hok1 Htot1]; [by rewrite Hf0|].
  rewrite Hf0 in Htot1. cbn [cf_processed_bytes cf0] in Htot1.
  destruct (piece_in_files n Hn) as [_ Hin].
  destruct (piece_loop_spec s (Z.to_nat (piece_length lengths n)) cf it (Z.to_nat (piece_length lengths n)) sha_new false)
    as (cf' & it' & h' & sfb & -> & Hcf' & Hfair' & Hm' & Hread); [done|done|done|lia|lia|].
  assert (Hgood : piece_ready s n -> sfb = false /\ exists b, compare_hash pieces n (sha_finish h') = Some b /\
    check_piece lengths pieces fis s n = Done (Ok b)).
  { intros Hr. destruct Hread as [-> (l & Hl & Hfed & Hst)].
    { unfold piece_ready in Hr. rewrite <- Hf0 in Hr. eapply moved_span; [exact Hm|exact Hr]. }
    split; [done|]. apply fed_digest in Hfed. rewrite Hfed.
    destruct (check_piece_ready s n Hn Hh Hr) as (l' & Hl' & Hst' & b & Hb & Hcheck). exists b. split; [|done].
    assert (l' = l) as <-; [|done]. eapply stored_inj; [|exact Hst'|]; [lia|].
    pose proof (moved_stored s cf0 it0 _ cf it l ltac:(by rewrite Hf0) Hcf Hm Hst) as Hms. by rewrite Hf0 in Hms. }
  assert (Hnext : exists fi it0, fis = fi :: it0 /\ moved (mkCurrentFile 0 fi 0 false) it0
    (Z.min (l_total_length lengths) ((n + 1) * l_piece_length lengths)) cf' it').
  { exists fi, it0. split; [done|]. fold cf0.
    replace (Z.min _ _) with (piece_offset lengths n + Z.of_nat (Z.to_nat (piece_length lengths n))) by lia.
    by eapply moved_trans. }
  assert (Hnbit : 0 <= n < bit_len bf).
  { rewrite Hbl. unfold piece_bitfield_bytes. rewrite total_pieces_eq by done.
    pose proof (div_ceil_spec (Lengths.pieces lengths) 8) as Hd. unfold Lengths.pieces, valid_index in *. lia. }
  rsimpl. by apply (check_step_end s n bf cf' it' h' sfb).
Qed.

(** The whole check: it is cut short by a cancellation, or finds the pieces. *)
Lemma initial_check_inv s cancelled : fis <> [] -> (forall i, valid_index lengths i -> has_hash i) ->
  if existsb cancelled (seqZ 0 (Lengths.pieces lengths))
  then initial_check (B := B) lengths pieces fis s cancelled = Done (Err InitialCheckCancelled)
  else exists bf : B, initial_check lengths pieces fis s cancelled = Done (Ok bf) /\
    bit_len bf = 8 * piece_bitfield_bytes lengths /\
    forall i, valid_index lengths i -> piece_ready s i ->
      bit_at bf i = true <-> check_piece lengths pieces fis s i = Done (Ok true).
Proof.
  intros Hne Hh.
  assert (exists fi it0, fis = fi :: it0) as (fi & it0 & Hfis).
  { clear -Hne. destruct fis as [|fi it0]; [done|by exists fi, it0]. }
  pose proof (wf_facts lengths Hwf) as (Ht0 & Hp0 & Hlast & _ & _ & _ & _ & _ & Hp32).
  unshelve epose proof (try_for_each_stop (E := FileOpsError)
    (fun done st => check_inv s (Z.of_nat (length done)) st)
    (fun x => cancelled (pi_piece_index x)) InitialCheckCancelled (check_step pieces s cancelled)
    (zeroed_bytes (Z.to_nat (piece_bitfield_bytes lengths)), mkCurrentFile 0 fi 0 false, it0)
    (iter_piece_infos lengths) _ _) as Hrun.
  - split_and!; [..|by intros i Hi; rewrite bit_at_zeroed|simpl; lia].
    + rewrite bit_len_zeroed. assert (0 <= piece_bitfield_bytes lengths); [|lia].
      apply div_ceil_nonneg; [|lia]. rewrite total_pieces_eq by done. unfold Lengths.pieces. lia.
    + unfold cf_ok. simpl. pose proof Hlens as Hl0. rewrite Hfis in Hl0. apply Forall_cons in Hl0. lia.
    + done.
    + exists fi, it0. split; [done|]. exists 0%nat. unfold total_len. simpl. split_and!; [lia|done|done|lia].
  - intros dn x st Hpre Hinv. cbn beta in Hinv |- *. rewrite length_app, Nat2Z.inj_add. apply prefix_lookup_Some with (i := length dn) (x := x) in Hpre.
    2: { by rewrite lookup_app_r, Nat.sub_diag by lia. }
    rewrite iter_piece_infos_eq, list_lookup_fmap in Hpre. apply fmap_Some in Hpre as (n & Hn & ->).
    apply lookup_seqZ in Hn as [-> Hn]. rewrite total_pieces_eq in Hn by done. rewrite Z.add_0_l. cbn [pi_piece_index].
    assert (Hv : valid_index lengths (Z.of_nat (length dn))) by (unfold valid_index, Lengths.pieces in *; lia).
    destruct (cancelled (Z.of_nat (length dn))) eqn:Hc; [|by apply check_step_spec; auto].
    destruct st as [[bf cf] it]. unfold check_step. cbn [pi_piece_index]. by rewrite Hc.
  - assert (Hex : existsb (fun x => cancelled (pi_piece_index x)) (iter_piece_infos lengths) = existsb cancelled (seqZ 0 (Lengths.pieces lengths))).
    { rewrite iter_piece_infos_eq, total_pieces_eq by done. generalize (seqZ 0 (Lengths.pieces lengths)). intros l.
      induction l as [|x l IH]; [done|]. cbn. by rewrite IH. }
    rewrite Hex in Hrun. unfold initial_check. rewrite Hfis.
    destruct (existsb _ _); [by rewrite Hrun|]. destruct Hrun as ([[bf cf] it] & -> & Hbl & _ & _ & _ & _ & Hb). rsimpl.
    exists bf. split_and!; [done|done|]. intros i Hi. rewrite <- Hfis. apply Hb.
    rewrite iter_piece_infos_eq, length_fmap, length_seqZ, total_pieces_eq by done. unfold valid_index, Lengths.pieces in *. lia.
Qed.

(** The bytes of a chunk lie in the files. *)
Lemma chunk_in_files i ci : valid_index lengths i -> ci ∈ iter_chunk_infos lengths i ->
  0 <= chunk_absolute_offset lengths ci /\ 0 <= ci_size ci /\
  chunk_absolute_offset lengths ci + ci_size ci <= total_len fis.
Proof.
  intros Hi (k & Hk & ->)%elem_of_iter_chunk_infos; [|done|done].
  destruct (piece_in_files i Hi) as [Ho Hle]. pose proof (piece_length_pos lengths i Hwf Hi) as Hpl.
  rewrite chunks_per_piece_eq in Hk by done.
  pose proof (proj1 (div_ceil_gt k (piece_length lengths i) CHUNK_SIZE ltac:(lia) ltac:(done)) ltac:(lia)) as Hlt.
  pose proof (wf_facts lengths Hwf) as (? & _). unfold chunk_absolute_offset, nth_chunk, CHUNK_SIZE in *. simpl.
  autorewrite with wrap. lia.
Qed.

(** The writes of a [write_chunk] are complete. *)
Definition chunk_writes_complete (s : St) (data : Piece) (ci : ChunkInfo) : bool :=
  complete_writes s 0 fis (chunk_absolute_offset lengths ci) (mkDoubleBuf (block_0 data) (block_1 data)).


(** [check_piece] compares the hash of the torrent with the digest of
    exactly the bytes stored for the piece, fed in buffers of at most 64 KiB
    across the files that hold it; it never panics or loops, and it fails only
    when one of these files is not whole. *)
Theorem check_piece_spec s i : valid_index lengths i -> has_hash i ->
  match check_piece lengths pieces fis s i with
  | Panic => False
  | Done (Err _) => ~ piece_ready s i
  | Done (Ok b) => exists l, Z.of_nat (length l) = piece_length lengths i /\
      stored s 0 fis (piece_offset lengths i) l /\ compare_hash pieces i (digest l) = Some b
  end.
Proof. apply check_piece_result. Qed.

End torrent.
End spec.

(** ** A concrete torrent

    Six bytes in pieces of four, over two files of three bytes; the hash is the
    first 20 bytes of the data, padded with zeros. *)
Section example.
Import FileInfo.

Definition full_pwritev (_ : list Z) (_ : Z) (bytes : list Z) : result StorageError nat :=
  Ok (length bytes).

(** A kernel that takes at most two bytes a call. *)
Definition short_pwritev (_ : list Z) (_ : Z) (bytes : list Z) : result StorageError nat :=
  Ok (Nat.min 2 (length bytes)).

Lemma full_pwritev_bound file off bytes n :
  full_pwritev file off bytes = Ok n -> (n <= length bytes)%nat.
Proof. intros [= <-]. lia. Qed.

#[local] Instance ex_storage : TorrentStorage FilesystemStorage := fs_storage full_pwritev.
#[local] Instance ex_laws : StorageLaws FilesystemStorage := fs_laws full_pwritev full_pwritev_bound.

#[local] Program Instance ex_sha : ISha1 (list Z) := {
  sha_new := [];
  sha_update h l := h ++ l;
  sha_finish h := take 20 (h ++ replicate 20 0);
}.

Lemma foldl_app_concat (bufs : list (list Z)) : forall h, foldl app h bufs = h ++ concat bufs.
Proof.
  induction bufs as [|b bufs IH]; intros h; simpl; [by rewrite app_nil_r|]. by rewrite IH, app_assoc.
Qed.

#[local] Program Instance ex_sha_laws : Sha1Laws (list Z) := {
  digest l := take 20 (l ++ replicate 20 0);
}.
Next Obligation.
  intros bufs. cbn [sha_new sha_update sha_finish ex_sha]. by rewrite foldl_app_concat.
Qed.

Definition six_lengths : Lengths := mkLengths 6 4 1 2 1.
Definition six_files : list FileInfo :=
  [mkFileInfo "a" 0 (0, 1) no_attrs 3; mkFileInfo "b" 3 (0, 2) no_attrs 3].
Definition six_storage : FilesystemStorage :=
  mkFilesystemStorage [Some [1; 2; 3]; Some [4; 5; 6]] false.
Definition six_hashes : option (list Z) :=
  Some (digest [1; 2; 3; 4] ++ digest [5; 6]).

Lemma six_wf : wf six_lengths.
Proof. split; try reflexivity. split_and!; vm_compute; congruence. Qed.

Lemma six_lens : lens_ok six_files.
Proof. repeat constructor; simpl; lia. Qed.

Lemma six_ready : ready six_storage 0 six_files.
Proof.
  intros k fi Hk _. destruct k as [|[|k]]; [| |done]; injection Hk as <-;
    (split; [reflexivity|]); intros p Hp; simpl in Hp;
    assert (p = 0 \/ p = 1 \/ p = 2) as [-> | [-> | -> ] ] by lia; by eexists.
Qed.

Lemma six_chunk : mkChunkInfo 0 0 0 4 0 ∈ iter_chunk_infos six_lengths 0.
Proof. by apply list_elem_of_In; left. Qed.


Lemma check_piece_spec_witness :
  exists l, Z.of_nat (length l) = 4 /\ stored six_storage 0 six_files 0 l /\
    compare_hash six_hashes 0 (digest l) = Some true.
Proof.
  assert (Hc : check_piece six_lengths six_hashes six_files six_storage 0 = Done (Ok true)) by reflexivity.
  pose proof (check_piece_spec six_lengths six_hashes six_files six_wf six_lens eq_refl six_storage 0) as Hs.
  rewrite Hc in Hs. apply Hs.
  - split; vm_compute; congruence.
  - vm_compute. congruence.
Defined.

(** The second file is missing: the first piece, which is in both, is not found,
    a piece of the first file alone is. *)
Definition four_files : list FileInfo :=
  [mkFileInfo "a" 0 (0, 1) no_attrs 4; mkFileInfo "b" 4 (1, 2) no_attrs 2].
Definition half_storage : FilesystemStorage := mkFilesystemStorage [Some [1; 2; 3; 4]; None] true.

Lemma half_ready : piece_ready six_lengths four_files half_storage 0.
Proof.
  intros k fi Hk Hlen _ Hb _. destruct k as [|[|k]]; [injection Hk as <-| |done].
  - split; [reflexivity|]. intros p Hp. cbn [fi_len] in Hp.
    assert (p = 0 \/ p = 1 \/ p = 2 \/ p = 3) as [-> | [-> | [-> | -> ] ] ] by lia; by eexists.
  - exfalso. vm_compute in Hb. discriminate.
Qed.


(** A chunk that starts at the start of a file is not readable when the file
    before it is missing from a read-only storage: [read_chunk] tries to read
    zero bytes at the end of the missing file and fails, although
    [check_piece] accepts the piece. *)
Theorem read_chunk_needs_previous_file :
  let files := [mkFileInfo "a" 0 (0, 1) no_attrs 4; mkFileInfo "b" 4 (1, 2) no_attrs 2] in
  let storage := mkFilesystemStorage [None; Some [5; 6]] true in
  check_piece six_lengths six_hashes files storage 1 = Done (Ok true) /\
  read_chunk six_lengths files storage (mkChunkInfo 1 0 1 2 0) [0; 0] = Err (StorageErr FsFileIsNone).
Proof. split; vm_compute; reflexivity. Qed.

(** A piece that lies in a file which has failed to read for an earlier piece
    is not read: [initial_check] compares the hash of no data, and accepts the
    piece when the torrent lists that hash, while [check_piece] fails. *)
Theorem initial_check_skips_broken_file :
  let files := [mkFileInfo "a" 0 (0, 2) no_attrs 6] in
  let storage := mkFilesystemStorage [None] true in
  let hashes := Some (digest [1; 2; 3; 4] ++ digest []) in
  exists bf : list bool, initial_check six_lengths hashes files storage (fun _ => false) = Done (Ok bf) /\
    bit_at bf 1 = true /\
    check_piece six_lengths hashes files storage 1 = Done (Err (StorageErr FsFileIsNone)).
Proof. eexists. split; [vm_compute; reflexivity|]. split; vm_compute; reflexivity. Qed.
End example.

(** [pwrite_all_vectored] of the file system storage makes one [pwritev]
    call and [write_chunk] ignores how much it wrote: when the kernel takes
    only a part, the write is reported as a success and the bytes are not there. *)
Theorem short_write_is_reported_ok :
  exists s', write_chunk (TS := fs_storage short_pwritev) six_lengths six_files six_storage
      (mkPiece 0 0 [9; 8; 7] [6]) (mkChunkInfo 0 0 0 4 0) = (Ok tt, s') /\
    opened_files s' = [Some [9; 8; 3]; Some [6; 5; 6]].
Proof. eexists. split; vm_compute; reflexivity. Qed.
