(* ===== verification/AtomicWrite.v ===== *)
(** * AtomicWrite: replacing a file by writing a temporary one and renaming it

    The bit fields and the session database are saved the same way
    ([DiskBackedBitV]'s flusher in [crates/librtbit/src/bitv.rs];
    [flush], [store_initial_check] and [store_categories] of
    [session_persistence/json.rs]): open a temporary file with [create] and
    [truncate], write everything, rename it over the target.  The flusher uses
    [std::fs] and [sync_all]; the others use [tokio::fs::File] and neither flush
    nor sync.  This file models the directory those files live in, names
    pointing to inodes, and the sequence of system calls as a machine with a
    step a call, so that several of them, and crashes, can be interleaved.

    What a crash of the machine keeps is part of the state: a write is in the
    cache of the system until the file is synced or written back ([fs_dirty]),
    the directory is never synced ([fs_past]), and a [write_all] of a
    [tokio::fs::File] may return while a thread of the runtime still has bytes
    to write ([fs_pending], documented for [File]: operations may not have
    completed when it goes out of scope unless [flush] is called). *)

From stdpp Require Import strings.
From S2P Require Import Prelude Storage.

(** Bytes a thread of the runtime has still to write. *)
Record Pending := mkPending {
  pw_inode : nat;
  pw_pos : nat;
  pw_bytes : list Z;
}.

(** A directory: what a name points to, and what an inode holds.  A
    descriptor stays on its inode when names change. *)
Record Fs := mkFs {
  fs_names : gmap string nat;
  fs_inodes : gmap nat (list Z);
  fs_dirty : gset nat;               (* written and not on the disk for certain *)
  fs_past : list (gmap string nat);  (* the directory before each change *)
  fs_pending : list Pending;
}.

(** The answer of a system call: success (a [write] took so many bytes), an
    error, or, from a [write_all] of [tokio], that it has returned with bytes
    left to a thread of the runtime. *)
Inductive Io := IoOk (n : nat) | IoErr | IoLater.

Definition inode_data (fs : Fs) (i : nat) : list Z := default [] (fs_inodes fs !! i).

Definition set_names (fs : Fs) (names : gmap string nat) : Fs :=
  mkFs names (fs_inodes fs) (fs_dirty fs) (fs_names fs :: fs_past fs) (fs_pending fs).

Definition set_inode (fs : Fs) (i : nat) (data : list Z) : Fs :=
  mkFs (fs_names fs) (<[i := data]> (fs_inodes fs)) ({[i]} ∪ fs_dirty fs) (fs_past fs) (fs_pending fs).

Definition set_pending (fs : Fs) (l : list Pending) : Fs :=
  mkFs (fs_names fs) (fs_inodes fs) (fs_dirty fs) (fs_past fs) l.

(** [fs::read]: [None] when there is no such file. *)
Definition fs_read (fs : Fs) (name : string) : option (list Z) := inode_data fs <$> fs_names fs !! name.

(** [OpenOptions::write(true).create(true).truncate(true).open]. *)
Definition fs_open_truncate (fs : Fs) (name : string) : nat * Fs :=
  match fs_names fs !! name with
  | Some i => (i, set_inode fs i [])
  | None =>
      let i := fresh (dom (fs_inodes fs) : gset nat) in
      (i, set_inode (set_names fs (<[name := i]> (fs_names fs))) i [])
  end.

(** [write] on a descriptor at its position. *)
Definition fs_write (fs : Fs) (i : nat) (pos : nat) (bytes : list Z) : Fs :=
  set_inode fs i (splice (inode_data fs i) (Z.of_nat pos) bytes).

(** [File::sync_all], or the system writing the file back on its own. *)
Definition fs_sync (fs : Fs) (i : nat) : Fs :=
  mkFs (fs_names fs) (fs_inodes fs) (fs_dirty fs ∖ {[i]}) (fs_past fs) (fs_pending fs).

(** [fs::rename]: [None] when there is nothing to rename. *)
Definition fs_rename (fs : Fs) (from to : string) : option Fs :=
  i ← fs_names fs !! from;
  Some (set_names fs (<[to := i]> (delete from (fs_names fs)))).

Definition fs_remove (fs : Fs) (name : string) : option Fs :=
  _ ← fs_names fs !! name;
  Some (set_names fs (delete name (fs_names fs))).

Definition fs_leave (fs : Fs) (i pos : nat) (bytes : list Z) : Fs :=
  set_pending fs (fs_pending fs ++ [mkPending i pos bytes]).

(** What remains of a pending write after [n] bytes. *)
Definition pending_rest (p : Pending) (n : nat) : list Pending :=
  match drop n (pw_bytes p) with [] => [] | rest => [mkPending (pw_inode p) (pw_pos p + n) rest] end.

(** A call of the thread that has the [k]-th pending write.  Nobody learns of an
    error. *)
Definition fs_land (k : nat) (io : Io) (fs : Fs) : Fs :=
  match fs_pending fs !! k with
  | None => fs
  | Some p =>
      let around l := take k (fs_pending fs) ++ l ++ drop (S k) (fs_pending fs) in
      match io with
      | IoOk (S n) =>
          let n := Nat.min (S n) (length (pw_bytes p)) in
          set_pending (fs_write fs (pw_inode p) (pw_pos p) (take n (pw_bytes p)))
            (around (pending_rest p n))
      | _ => set_pending fs (around [])
      end
  end.

(** What a crash may leave, of the process or of the machine: pending writes
    are lost, the directory is as it is now or was at some time, and files that
    are not on the disk for certain hold anything. *)
Definition crash (fs fs' : Fs) : Prop :=
  fs_names fs' ∈ (fs_names fs :: fs_past fs) /\
  (forall i, i ∉ fs_dirty fs -> fs_inodes fs' !! i = fs_inodes fs !! i).

(** ** One replacement, call by call *)

Inductive WPc :=
| WOpen
| WWrite (inode pos : nat)  (* [write_all], the next call writes from [pos] *)
| WRename
| WOk
| WFailed.

#[export] Instance WPc_eq_dec : EqDecision WPc.
Proof. solve_decision. Defined.

Record Writer := mkWriter {
  w_tmp : string;
  w_target : string;
  w_sync : bool;  (* [std::fs], with [sync_all] before the rename; or [tokio::fs] *)
  w_data : list Z;
  w_pc : WPc;
}.

Definition w_at (w : Writer) (pc : WPc) : Writer :=
  mkWriter (w_tmp w) (w_target w) (w_sync w) (w_data w) pc.

Definition writer_done (w : Writer) : bool := match w_pc w with WOk | WFailed => true | _ => false end.

(** The next system call, with the answer the system gives.  [write_all] calls
    [write] until everything is taken and fails when a call takes nothing; that
    of [tokio] may return with the rest pending. *)
Definition writer_step (io : Io) (fs : Fs) (w : Writer) : Fs * Writer :=
  match w_pc w with
  | WOpen =>
      match io with
      | IoOk _ => let '(i, fs) := fs_open_truncate fs (w_tmp w) in (fs, w_at w (WWrite i 0))
      | _ => (fs, w_at w WFailed)
      end
  | WWrite i pos =>
      let rest := drop pos (w_data w) in
      match rest with
      | [] =>
          if w_sync w then
            match io with IoOk _ => (fs_sync fs i, w_at w WRename) | _ => (fs, w_at w WFailed) end
          else (fs, w_at w WRename)
      | _ =>
          match io with
          | IoOk (S n) =>
              let n := Nat.min (S n) (length rest) in
              (fs_write fs i pos (take n rest), w_at w (WWrite i (pos + n)))
          | IoLater => if w_sync w then (fs, w_at w WFailed) else (fs_leave fs i pos rest, w_at w WRename)
          | _ => (fs, w_at w WFailed)
          end
      end
  | WRename =>
      match io, fs_rename fs (w_tmp w) (w_target w) with
      | IoOk _, Some fs => (fs, w_at w WOk)
      | _, _ => (fs, w_at w WFailed)
      end
  | WOk | WFailed => (fs, w)
  end.

(** The calls until the end, with the answers [io 0, io 1, ...]. *)
Fixpoint run_writer (fuel : nat) (io : nat -> Io) (fs : Fs) (w : Writer) : outcome (Fs * Writer) :=
  if writer_done w then Done (fs, w)
  else
    match fuel with
    | O => Panic
    | S fuel =>
        let '(fs, w) := writer_step (io 0%nat) fs w in run_writer fuel (fun k => io (S k)) fs w
    end.

(** A call to open, at most one a byte to write, one to find the end, one to
    rename. *)
Definition replace_file (io : nat -> Io) (fs : Fs) (tmp target : string) (sync : bool) (data : list Z) :
    outcome (Fs * bool) :=
  r ←! run_writer (length data + 3) io fs (mkWriter tmp target sync data WOpen);
  Done (r.1, match w_pc r.2 with WOk => true | _ => false end).

(** ** The directory *)

(** A name points, or has pointed, to an inode. *)
Definition ever (fs : Fs) (name : string) (i : nat) : Prop :=
  exists names, names ∈ (fs_names fs :: fs_past fs) /\ names !! name = Some i.

Definition pending_on (fs : Fs) (i : nat) : list Pending := filter (fun p => pw_inode p = i) (fs_pending fs).

(** No two names share an inode, and inodes in use are in the table. *)
Record fs_ok (fs : Fs) : Prop := {
  fs_inj a b i : fs_names fs !! a = Some i -> fs_names fs !! b = Some i -> a = b;
  fs_dom a i : ever fs a i -> is_Some (fs_inodes fs !! i);
  fs_pend i : fs_inodes fs !! i = None -> pending_on fs i = [];
}.

(** Everything the name points or has pointed to satisfies [P], is on the disk,
    and nobody will write to it. *)
Definition sealed (fs : Fs) (name : string) (P : list Z -> Prop) : Prop :=
  forall i, ever fs name i ->
    P (inode_data fs i) /\ (i ∉ fs_dirty fs) /\ pending_on fs i = [] /\
    (forall a, fs_names fs !! a = Some i -> a = name).

Definition same_inode (fs fs' : Fs) (i : nat) : Prop :=
  inode_data fs' i = inode_data fs i /\ pending_on fs' i = pending_on fs i /\ (i ∈ fs_dirty fs' <-> i ∈ fs_dirty fs).

(** The file of a name is untouched. *)
Definition kept (fs fs' : Fs) (name : string) : Prop :=
  fs_names fs' !! name = fs_names fs !! name /\ forall i, fs_names fs !! name = Some i -> same_inode fs fs' i.

Lemma kept_read fs fs' name : kept fs fs' name -> fs_read fs' name = fs_read fs name.
Proof.
  intros [Hn Hi]. unfold fs_read. rewrite Hn. destruct (fs_names fs !! name) as [i|]; [|done]. simpl.
  f_equal. by apply Hi.
Qed.

Lemma same_inode_refl fs i : same_inode fs fs i.
Proof. done. Qed.

Lemma kept_refl fs name : kept fs fs name.
Proof. done. Qed.

Lemma kept_trans fs1 fs2 fs3 name : kept fs1 fs2 name -> kept fs2 fs3 name -> kept fs1 fs3 name.
Proof.
  intros [H1 H2] [H3 H4]. split; [congruence|]. intros i Hi.
  destruct (H2 i Hi) as (? & ? & ?), (H4 i) as (? & ? & ?); [congruence|]. split_and!; [congruence|congruence|tauto].
Qed.

Lemma ever_now fs name i : fs_names fs !! name = Some i -> ever fs name i.
Proof. intros Hi. exists (fs_names fs). split; [left|done]. Qed.

Lemma ever_set_names fs names name i : ever (set_names fs names) name i <-> names !! name = Some i \/ ever fs name i.
Proof.
  unfold ever. cbn [set_names fs_names fs_past]. split.
  - intros (n & [->|Hn]%elem_of_cons & Hi); [by left|right; by exists n].
  - intros [Hi|(n & Hn & Hi)]; [exists names; split; [left|done]|exists n; split; [by right|done]].
Qed.

Lemma inode_data_set fs i data j : inode_data (set_inode fs i data) j = if decide (j = i) then data else inode_data fs j.
Proof. unfold inode_data. simpl. case_decide; subst; [by rewrite lookup_insert_eq|by rewrite lookup_insert_ne]. Qed.

Lemma same_inode_set fs i data j : j <> i -> same_inode fs (set_inode fs i data) j.
Proof. intros Hne. split_and!; [by rewrite inode_data_set, decide_False|done|simpl; set_solver]. Qed.

Lemma set_inode_ok fs i data : fs_ok fs -> is_Some (fs_inodes fs !! i) \/ pending_on fs i = [] -> fs_ok (set_inode fs i data).
Proof.
  intros [Hinj Hdom Hp] Hi. split; [done| |]; cbn [set_inode fs_inodes].
  - intros a j Ha. destruct (decide (j = i)) as [->|]; [rewrite lookup_insert_eq; by eexists|].
    rewrite lookup_insert_ne by done. by eapply Hdom.
  - intros j. destruct (decide (j = i)) as [->|]; [by rewrite lookup_insert_eq|].
    rewrite lookup_insert_ne by done. apply Hp.
Qed.

Lemma sealed_set_inode fs i data name P : ~ ever fs name i -> sealed fs name P -> sealed (set_inode fs i data) name P.
Proof.
  intros Hne Hs j Hj. destruct (Hs j Hj) as (H1 & H2 & H3 & H4). assert (j <> i) by (by intros ->).
  split_and!; [by rewrite inode_data_set, decide_False|simpl; set_solver|done|done].
Qed.

(** A file of another name is not the sealed one. *)
Lemma sealed_other fs name P other i : sealed fs name P -> fs_names fs !! other = Some i -> other <> name -> ~ ever fs name i.
Proof. intros Hs Ho Hne He. by destruct (Hs i He) as (_ & _ & _ & ?%(fun f => f other Ho)). Qed.

Lemma fs_read_set_other fs name i data other : fs_ok fs -> fs_names fs !! name = Some i -> other <> name ->
  kept fs (set_inode fs i data) other.
Proof.
  intros Hok Hn Hne. split; [done|]. intros j Hj. apply same_inode_set. intros ->. apply Hne. by eapply (fs_inj fs Hok).
Qed.

Lemma fs_open_truncate_spec fs name i fs' : fs_ok fs -> fs_open_truncate fs name = (i, fs') ->
  fs_ok fs' /\ fs_names fs' !! name = Some i /\ inode_data fs' i = [] /\
  (forall other, other <> name -> kept fs fs' other) /\ fs_pending fs' = fs_pending fs /\
  (fs_names fs !! name = Some i \/ pending_on fs i = []) /\
  (forall t P, t <> name -> sealed fs t P -> sealed fs' t P).
Proof.
  intros Hok. unfold fs_open_truncate. destruct (fs_names fs !! name) as [j|] eqn:Hn; intros [= <- <-].
  - split_and!; [|done|by rewrite inode_data_set, decide_True| |done|by left|].
    + apply set_inode_ok; [done|left]. by eapply (fs_dom fs Hok), ever_now.
    + intros other Hne. by eapply fs_read_set_other.
    + intros t P Hne Hs. apply sealed_set_inode; [|done]. by eapply sealed_other.
  - set (j := fresh _). assert (Hj : fs_inodes fs !! j = None) by (apply not_elem_of_dom; unfold j; apply is_fresh).
    assert (Hfree : forall a k, ever fs a k -> k <> j).
    { intros a k Ha ->. destruct (fs_dom fs Hok a j Ha). congruence. }
    pose proof (fs_pend fs Hok j Hj) as Hpj.
    split_and!; [split|apply lookup_insert_eq|by rewrite inode_data_set, decide_True| |done|by right|].
    + intros a b k. cbn [set_inode set_names fs_names].
      intros [[<- <-]|[Ha1 Ha]]%lookup_insert_Some [[<- Hb]|[Hb1 Hb]]%lookup_insert_Some; [done| | |by eapply (fs_inj fs Hok)].
      * by destruct (Hfree b j (ever_now _ _ _ Hb)).
      * subst k. by destruct (Hfree a j (ever_now _ _ _ Ha)).
    + intros a k Ha. cbn [set_inode fs_inodes set_names]. destruct (decide (k = j)) as [->|Hkj]; [rewrite lookup_insert_eq; by eexists|].
      rewrite lookup_insert_ne by done. change (ever (set_names fs (<[name := j]> (fs_names fs))) a k) in Ha.
      apply ever_set_names in Ha as [[[_ ?]|[_ Ha]]%lookup_insert_Some|Ha]; [done| |];
        (eapply (fs_dom fs Hok); first [by apply ever_now|done]).
    + intros k. cbn [set_inode fs_inodes set_names]. destruct (decide (k = j)) as [->|]; [by rewrite lookup_insert_eq|].
      rewrite lookup_insert_ne by done. apply (fs_pend fs Hok).
    + intros other Hne. split; [by apply lookup_insert_ne|]. intros k Hk. apply (same_inode_set (set_names fs _)).
      by eapply Hfree, ever_now.
    + intros t P Hne Hs. apply sealed_set_inode.
      * rewrite ever_set_names, lookup_insert_ne by done. intros [He%ever_now|He]; by destruct (Hfree t j).
      * intros k Hk. apply ever_set_names in Hk. rewrite lookup_insert_ne in Hk by done.
        assert (ever fs t k) as He by (destruct Hk; [by apply ever_now|done]). destruct (Hs k He) as (H1 & H2 & H3 & H4).
        split_and!; [done|done|done|]. cbn [set_inode set_names fs_names].
        intros a [[<- <-]|[_ Ha]]%lookup_insert_Some; [by destruct (Hfree t j He)|by apply H4].
Qed.

Lemma set_names_subset_ok fs names : fs_ok fs -> names ⊆ fs_names fs -> fs_ok (set_names fs names).
Proof.
  intros [H1 H2 H3] Hsub. split; [|intros a i [Ha|Ha]%ever_set_names|done].
  - intros a b i Ha Hb. apply (H1 a b i); by eapply lookup_weaken.
  - apply (H2 a), ever_now. by eapply lookup_weaken.
  - by apply (H2 a).
Qed.

Lemma sealed_subset fs names t P : names ⊆ fs_names fs -> sealed fs t P -> sealed (set_names fs names) t P.
Proof.
  intros Hsub Hs i Hi. destruct (Hs i) as (H1 & H2 & H3 & H4).
  - apply ever_set_names in Hi as [Hi|Hi]; [|done]. apply ever_now. by eapply lookup_weaken.
  - split_and!; [done|done|done|]. intros a Ha. apply H4. by eapply lookup_weaken.
Qed.

Lemma fs_remove_spec fs name fs' : fs_ok fs -> fs_remove fs name = Some fs' ->
  fs_ok fs' /\ fs_names fs' !! name = None /\ fs_pending fs' = fs_pending fs /\
  (forall other, other <> name -> kept fs fs' other) /\ (forall t P, sealed fs t P -> sealed fs' t P).
Proof.
  intros Hok. unfold fs_remove. destruct (fs_names fs !! name) as [i|] eqn:Hn; [|done]. intros [= <-].
  split_and!; [apply set_names_subset_ok; [done|apply delete_subseteq]|apply lookup_delete_eq|done| |].
  - intros other Hne. split; [by apply lookup_delete_ne|done].
  - intros t P. apply sealed_subset, delete_subseteq.
Qed.

(** Renaming the file [from], [i], over [to]. *)
Lemma fs_rename_spec fs from to i : fs_ok fs -> from <> to -> fs_names fs !! from = Some i ->
  let fs' := set_names fs (<[to := i]> (delete from (fs_names fs))) in
  fs_ok fs' /\ (forall other, other <> from -> other <> to -> kept fs fs' other) /\
  (forall P : list Z -> Prop, P (inode_data fs i) -> i ∉ fs_dirty fs -> pending_on fs i = [] ->
     sealed fs to P -> sealed fs' to P).
Proof.
  intros Hok Hne Hf fs'.
  assert (Hcase : forall a k, fs_names fs' !! a = Some k -> a = to /\ k = i \/ a <> to /\ k <> i /\ fs_names fs !! a = Some k).
  { intros a k. cbn [fs' set_names fs_names].
    intros [[<- <-]|[Ha [Hd Hk]%lookup_delete_Some]]%lookup_insert_Some; [by left|right]. split_and!; [done| |done].
    intros ->. apply Hd. by eapply (fs_inj fs Hok). }
  split_and!; [split| |].
  - intros a b k [[-> ->]|(? & ? & Ha)]%Hcase [[-> ?]|(? & ? & Hb)]%Hcase; [done|done|done|by eapply (fs_inj fs Hok)].
  - intros a k [[[_ ->]|(_ & _ & Ha)]%Hcase|Ha]%ever_set_names; (eapply (fs_dom fs Hok); first [by apply ever_now|done]).
  - apply (fs_pend fs Hok).
  - intros other H1 H2. split; [|done]. cbn [fs' set_names fs_names]. by rewrite lookup_insert_ne, lookup_delete_ne by done.
  - intros P HP Hc Hpi Hs k Hk. destruct (decide (k = i)) as [->|Hki].
    + split_and!; [done|done|done|]. intros a [[-> _]|(_ & ? & _)]%Hcase; done.
    + apply ever_set_names in Hk as [[[_ ?]|(? & _ & _)]%Hcase|Hk]; [done|done|].
      destruct (Hs k Hk) as (H1 & H2 & H3 & H4). split_and!; [done|done|done|].
      intros a [[_ ?]|(_ & _ & Ha)]%Hcase; [done|by apply H4].
Qed.

(** ** Pending writes *)

Lemma pending_on_app fs l1 l2 i :
  pending_on (set_pending fs (l1 ++ l2)) i = pending_on (set_pending fs l1) i ++ pending_on (set_pending fs l2) i.
Proof. apply filter_app. Qed.

Lemma pending_on_one fs p i : pending_on (set_pending fs [p]) i = if decide (pw_inode p = i) then [p] else [].
Proof. unfold pending_on. cbn [set_pending fs_pending]. by rewrite filter_cons, filter_nil. Qed.

Lemma pending_around fs k p l i : fs_pending fs !! k = Some p -> (forall q, q ∈ l -> pw_inode q = pw_inode p) ->
  i <> pw_inode p -> pending_on (set_pending fs (take k (fs_pending fs) ++ l ++ drop (S k) (fs_pending fs))) i = pending_on fs i.
Proof.
  intros Hk Hl Hne. unfold pending_on. cbn [set_pending fs_pending].
  rewrite <- (take_drop_middle _ _ _ Hk) at 3. rewrite !filter_app, filter_cons, decide_False by done. f_equal.
  assert (filter (fun q => pw_inode q = i) l = []) as ->; [|done].
  induction l as [|q l IH]; [done|]. rewrite filter_cons, decide_False by (rewrite Hl; [done|left]).
  apply IH. intros q' Hq'. apply Hl. by right.
Qed.

Lemma pending_rest_inode p n q : q ∈ pending_rest p n -> pw_inode q = pw_inode p.
Proof. unfold pending_rest. destruct (drop n _); [by intros ?%not_elem_of_nil|by intros ->%list_elem_of_singleton]. Qed.

Lemma fs_land_names k io fs : fs_names (fs_land k io fs) = fs_names fs /\ fs_past (fs_land k io fs) = fs_past fs.
Proof. unfold fs_land. destruct (fs_pending fs !! k) as [p|]; [|done]. by destruct io as [[|n]| |]. Qed.

Lemma fs_land_elsewhere k io fs p i : fs_pending fs !! k = Some p -> i <> pw_inode p -> same_inode fs (fs_land k io fs) i.
Proof.
  intros Hk Hne. unfold fs_land. rewrite Hk.
  assert (Hl : forall l, (forall q, q ∈ l -> pw_inode q = pw_inode p) ->
    pending_on (set_pending fs (take k (fs_pending fs) ++ l ++ drop (S k) (fs_pending fs))) i = pending_on fs i).
  { intros l Hq. by eapply pending_around. }
  assert (Hnil : forall q : Pending, q ∈ [] -> pw_inode q = pw_inode p) by (by intros q ?%not_elem_of_nil).
  destruct io as [[|n]| |]; [by split_and!; [|apply Hl|]| |by split_and!; [|apply Hl|]..].
  destruct (same_inode_set fs (pw_inode p) (splice (inode_data fs (pw_inode p)) (Z.of_nat (pw_pos p))
    (take (Nat.min (S n) (length (pw_bytes p))) (pw_bytes p))) i Hne) as (H1 & _ & H3).
  split_and!; [exact H1| |exact H3]. apply (Hl (pending_rest p _)), pending_rest_inode.
Qed.

Lemma fs_land_other k io fs i : pending_on fs i = [] -> same_inode fs (fs_land k io fs) i.
Proof.
  intros Hi. destruct (fs_pending fs !! k) as [p|] eqn:Hk; [|unfold fs_land; by rewrite Hk].
  eapply fs_land_elsewhere; [exact Hk|]. intros ->. apply list_elem_of_lookup_2 in Hk.
  assert (Hin : p ∈ pending_on fs (pw_inode p)) by (by apply list_elem_of_filter).
  rewrite Hi in Hin. by apply not_elem_of_nil in Hin.
Qed.

Lemma fs_land_ok k io fs : fs_ok fs -> fs_ok (fs_land k io fs).
Proof.
  intros [H1 H2 H3]. destruct (fs_land_names k io fs) as [Hn Hp].
  assert (Hi : forall i, is_Some (fs_inodes fs !! i) -> is_Some (fs_inodes (fs_land k io fs) !! i)).
  { intros i Hi. unfold fs_land. destruct (fs_pending fs !! k) as [p|]; [|done]. destruct io as [[|n]| |]; try done.
    cbn [set_pending fs_write set_inode fs_inodes]. destruct (decide (i = pw_inode p)) as [->|];
      [rewrite lookup_insert_eq; by eexists|by rewrite lookup_insert_ne]. }
  split; [by rewrite Hn| |].
  - intros a i Ha. apply Hi, (H2 a). unfold ever in *. by rewrite Hn, Hp in Ha.
  - intros i Hnone. assert (Hni : fs_inodes fs !! i = None).
    { apply eq_None_not_Some. intros Hs%Hi. rewrite Hnone in Hs. by destruct Hs. }
    destruct (fs_land_other k io fs i (H3 i Hni)) as (_ & -> & _). by apply H3.
Qed.

Lemma fs_land_sealed k io fs t P : sealed fs t P -> sealed (fs_land k io fs) t P.
Proof.
  intros Hs i Hi. destruct (fs_land_names k io fs) as [Hn Hp]. unfold ever in Hi. rewrite Hn, Hp in Hi.
  destruct (Hs i Hi) as (H1 & H2 & H3 & H4). destruct (fs_land_other k io fs i H3) as (E1 & E2 & E3).
  rewrite E1, E2, E3, Hn. done.
Qed.

(** Bytes [data] are in the file, or the rest of them is the one pending write. *)
Definition written (fs : Fs) (i : nat) (data : list Z) : Prop :=
  exists pos, (pos <= length data)%nat /\ inode_data fs i = take pos data /\
    pending_on fs i = match drop pos data with [] => [] | rest => [mkPending i pos rest] end.

Lemma written_same fs fs' i data : same_inode fs fs' i -> written fs i data -> written fs' i data.
Proof. intros (H1 & H2 & _) (pos & Hp). exists pos. by rewrite H1, H2. Qed.

Lemma written_landed fs i data : written fs i data -> pending_on fs i = [] -> inode_data fs i = data.
Proof.
  intros (pos & Hle & Hd & Hp) Hn. rewrite Hd. rewrite Hn in Hp. destruct (drop pos data) as [|b l] eqn:E; [|done].
  apply (f_equal length) in E. rewrite length_drop in E. simpl in E. apply take_ge. lia.
Qed.

Lemma splice_end (file bytes : list Z) : splice file (Z.of_nat (length file)) bytes = file ++ bytes.
Proof.
  unfold splice. destruct bytes as [|b bytes]; [by rewrite app_nil_r|].
  rewrite Nat2Z.id, Nat.sub_diag, app_nil_r, take_ge, drop_ge by lia. by rewrite app_nil_r.
Qed.

Lemma splice_next (data : list Z) pos m : (pos <= length data)%nat ->
  splice (take pos data) (Z.of_nat pos) (take m (drop pos data)) = take (pos + m) data.
Proof.
  intros Hp. pose proof (splice_end (take pos data) (take m (drop pos data))) as Hs.
  rewrite length_take, Nat.min_l in Hs by done. by rewrite Hs, take_take_drop.
Qed.

Lemma filter_split_one {A} (Q : A -> Prop) `{forall x, Decision (Q x)} (l : list A) k p : l !! k = Some p -> Q p ->
  filter Q l = [p] -> filter Q (take k l) = [] /\ filter Q (drop (S k) l) = [].
Proof.
  intros Hk HQ. rewrite <- (take_drop_middle _ _ _ Hk) at 1. rewrite filter_app, filter_cons, decide_True by done.
  destruct (filter Q (take k l)) as [|a l1]; [by intros [= ->]|]. intros Heq. injection Heq as _ Heq. by destruct l1.
Qed.

(** A call of a thread that succeeds keeps what will have been written. *)
Lemma fs_land_written k n fs i data : written fs i data -> written (fs_land k (IoOk (S n)) fs) i data.
Proof.
  intros Hw. destruct (fs_pending fs !! k) as [p|] eqn:Hk; [|unfold fs_land; by rewrite Hk].
  destruct (decide (pw_inode p = i)) as [<-|Hne].
  2: { eapply written_same; [|exact Hw]. by eapply fs_land_elsewhere. }
  destruct Hw as (pos & Hle & Hd & Hp).
  assert (Hin : p ∈ pending_on fs (pw_inode p)) by (apply list_elem_of_filter; split; [done|by eapply list_elem_of_lookup_2]).
  destruct (drop pos data) as [|b rest] eqn:Hrest; rewrite Hp in Hin; [by apply not_elem_of_nil in Hin|].
  apply list_elem_of_singleton in Hin. rewrite <- Hin in Hp.
  destruct (filter_split_one _ _ k p Hk eq_refl Hp) as [Hl1 Hl2].
  assert (Hpos : pw_pos p = pos) by (by rewrite Hin). assert (Hb : pw_bytes p = drop pos data) by (by rewrite Hin, Hrest).
  unfold fs_land, pending_rest. rewrite Hk, Hpos, Hb. set (m := Nat.min (S n) (length (drop pos data))).
  assert (Hm : (m <= length data - pos)%nat) by (unfold m; rewrite length_drop; lia).
  exists (pos + m)%nat. split; [lia|]. split.
  - unfold inode_data at 1. cbn [set_pending fs_write set_inode fs_inodes]. rewrite lookup_insert_eq. simpl.
    by rewrite Hd, splice_next.
  - unfold pending_on. cbn [set_pending fs_pending]. rewrite !filter_app, Hl1, Hl2, app_nil_l, app_nil_r, drop_drop.
    destruct (drop (pos + m) data); [done|]. by rewrite filter_cons, filter_nil, decide_True.
Qed.

(** ** What a writer guarantees *)

(** No write to the file of a name is pending. *)
Definition settled_name (fs : Fs) (name : string) : Prop :=
  forall i, fs_names fs !! name = Some i -> pending_on fs i = [].

(** The temporary file a writer has opened is the one of that name. *)
Definition writer_own (fs : Fs) (w : Writer) : Prop :=
  match w_pc w with WWrite i _ => fs_names fs !! w_tmp w = Some i | _ => True end.

(** It holds what was written so far; before the rename everything is written,
    or pending, and on the disk if the writer syncs. *)
Definition writer_ok (fs : Fs) (w : Writer) : Prop :=
  match w_pc w with
  | WOpen => settled_name fs (w_tmp w)
  | WWrite i pos => fs_names fs !! w_tmp w = Some i /\ (pos <= length (w_data w))%nat /\
      inode_data fs i = take pos (w_data w) /\ pending_on fs i = []
  | WRename => exists i, fs_names fs !! w_tmp w = Some i /\ written fs i (w_data w) /\
      (w_sync w = true -> pending_on fs i = [] /\ i ∉ fs_dirty fs)
  | WOk | WFailed => True
  end.

(** The steps of a writer. *)
Inductive wstep (io : Io) (fs : Fs) (w : Writer) : Fs -> Writer -> Prop :=
| ws_done : writer_done w = true -> wstep io fs w fs w
| ws_fail : writer_done w = false -> wstep io fs w fs (w_at w WFailed)
| ws_open i fs' : w_pc w = WOpen -> fs_open_truncate fs (w_tmp w) = (i, fs') ->
    wstep io fs w fs' (w_at w (WWrite i 0))
| ws_write i pos m : w_pc w = WWrite i pos -> (1 <= m <= length (w_data w) - pos)%nat ->
    wstep io fs w (fs_write fs i pos (take m (drop pos (w_data w)))) (w_at w (WWrite i (pos + m)))
| ws_end i pos : w_pc w = WWrite i pos -> drop pos (w_data w) = [] ->
    wstep io fs w (if w_sync w then fs_sync fs i else fs) (w_at w WRename)
| ws_later i pos : w_pc w = WWrite i pos -> drop pos (w_data w) <> [] -> w_sync w = false -> io = IoLater ->
    wstep io fs w (fs_leave fs i pos (drop pos (w_data w))) (w_at w WRename)
| ws_rename i : w_pc w = WRename -> fs_names fs !! w_tmp w = Some i ->
    wstep io fs w (set_names fs (<[w_target w := i]> (delete (w_tmp w) (fs_names fs)))) (w_at w WOk).

Lemma writer_step_wstep io fs w fs' w' : writer_step io fs w = (fs', w') -> wstep io fs w fs' w'.
Proof.
  unfold writer_step. assert (Hd : writer_done w = match w_pc w with WOk | WFailed => true | _ => false end) by done.
  destruct (w_pc w) as [|i pos| | |] eqn:Hpc.
  - destruct io as [n| |]; try (intros [= <- <-]; by constructor).
    destruct (fs_open_truncate fs (w_tmp w)) as [i fs1] eqn:Ho. intros [= <- <-]. by apply ws_open.
  - destruct (drop pos (w_data w)) as [|b rest] eqn:Hr.
    + pose proof (ws_end io fs w i pos Hpc Hr) as He. destruct (w_sync w); [|by intros [= <- <-]].
      destruct io; intros [= <- <-]; [done|by constructor..].
    + assert (Hl : S (length rest) = (length (w_data w) - pos)%nat) by (by rewrite <- length_drop, Hr).
      rewrite <- Hr in *. destruct io as [[|n]| |]; [intros [= <- <-]; by constructor| |intros [= <- <-]; by constructor|].
      * intros [= <- <-]. apply ws_write; [done|]. rewrite Hr. cbn [length]. lia.
      * pose proof (ws_later IoLater fs w i pos Hpc) as He. rewrite Hr in He.
        destruct (w_sync w) eqn:Es; intros [= <- <-]; [by constructor|]. rewrite Hr. by apply He.
  - unfold fs_rename. destruct io; try (intros [= <- <-]; by constructor).
    destruct (fs_names fs !! w_tmp w) as [i|] eqn:Hi; intros [= <- <-]; [by apply ws_rename|by constructor].
  - intros [= <- <-]. by constructor.
  - intros [= <- <-]. by constructor.
Qed.

Lemma fs_sync_spec fs i : fs_ok fs ->
  fs_ok (fs_sync fs i) /\ (forall other, fs_names fs !! other <> Some i -> kept fs (fs_sync fs i) other) /\
  (forall t P, sealed fs t P -> sealed (fs_sync fs i) t P).
Proof.
  intros [H1 H2 H3]. split; [by split|]. split.
  - intros other Hne. split; [done|]. intros j Hj. split_and!; [done|done|]. simpl.
    assert (j <> i) by congruence. set_solver.
  - intros t P Hs j Hj. destruct (Hs j Hj) as (E1 & E2 & E3 & E4). split_and!; [done|simpl; set_solver|done|done].
Qed.

Lemma pending_on_leave fs i pos bytes j :
  pending_on (fs_leave fs i pos bytes) j = pending_on fs j ++ if decide (j = i) then [mkPending i pos bytes] else [].
Proof.
  unfold pending_on, fs_leave. cbn [set_pending fs_pending]. rewrite filter_app, filter_cons, filter_nil. cbn [pw_inode].
  destruct (decide (i = j)), (decide (j = i)); done || congruence.
Qed.

Lemma fs_leave_spec fs name i pos bytes : fs_ok fs -> fs_names fs !! name = Some i ->
  fs_ok (fs_leave fs i pos bytes) /\ (forall other, other <> name -> kept fs (fs_leave fs i pos bytes) other) /\
  (forall t P, t <> name -> sealed fs t P -> sealed (fs_leave fs i pos bytes) t P).
Proof.
  intros Hok Hn. assert (Hp : forall j, j <> i -> pending_on (fs_leave fs i pos bytes) j = pending_on fs j).
  { intros j Hj. by rewrite pending_on_leave, decide_False, app_nil_r. }
  split_and!; [split; [apply Hok|apply Hok|]| |].
  - intros j Hj. rewrite Hp; [by apply (fs_pend fs Hok)|]. intros ->.
    destruct (fs_dom fs Hok name i (ever_now _ _ _ Hn)) as [x Hx]. change (fs_inodes fs !! i = None) in Hj. congruence.
  - intros other Hne. split; [done|]. intros j Hj. split_and!; [done| |done]. apply Hp. intros ->. apply Hne.
    by eapply (fs_inj fs Hok).
  - intros t P Hne Hs j Hj. destruct (Hs j Hj) as (E1 & E2 & E3 & E4). split_and!; [done|done| |done].
    rewrite Hp; [done|]. intros ->. by apply Hne, eq_sym, E4.
Qed.

(** What a step of a writer does to the directory and to the other files. *)
Lemma writer_step_frame io fs w fs' w' : fs_ok fs -> w_tmp w <> w_target w -> writer_own fs w ->
  writer_step io fs w = (fs', w') ->
  fs_ok fs' /\ writer_own fs' w' /\ (exists pc, w' = w_at w pc) /\
  (forall other, other <> w_tmp w -> other <> w_target w -> kept fs fs' other).
Proof.
  intros Hok Hne Hw Hs%writer_step_wstep. unfold writer_own in Hw.
  destruct Hs as [Hd|Hd|i fs' Hpc Ho|i pos m Hpc Hm|i pos Hpc Hr|i pos Hpc Hr Hsy _|i Hpc Hi]; rewrite ?Hpc in Hw.
  - split_and!; [done|done|exists (w_pc w); by destruct w|intros; apply kept_refl].
  - split_and!; [done|done|by eexists|intros; apply kept_refl].
  - apply fs_open_truncate_spec in Ho as (H1 & H2 & _ & H3 & _); [|done].
    split_and!; [done|done|by eexists|]. intros other Ht _. by apply H3.
  - split_and!; [|done|by eexists|].
    + apply set_inode_ok; [done|left]. by eapply (fs_dom fs Hok), ever_now.
    + intros other Ht _. by eapply fs_read_set_other.
  - destruct (fs_sync_spec fs i Hok) as (H1 & H2 & _). destruct (w_sync w);
      (split_and!; [done|done|by eexists|]); [|intros; apply kept_refl].
    intros other Ht _. apply H2. intros Ho. apply Ht. by eapply (fs_inj fs Hok).
  - destruct (fs_leave_spec fs (w_tmp w) i pos (drop pos (w_data w)) Hok Hw) as (H1 & H2 & _).
    split_and!; [done|done|by eexists|]. intros other Ht _. by apply H2.
  - destruct (fs_rename_spec fs (w_tmp w) (w_target w) i Hok Hne Hi) as (H1 & H2 & _).
    split_and!; [done|done|by eexists|exact H2].
Qed.

(** What it does to the temporary file. *)
Lemma writer_step_content io fs w fs' w' : fs_ok fs -> w_tmp w <> w_target w -> writer_ok fs w ->
  writer_step io fs w = (fs', w') -> writer_ok fs' w'.
Proof.
  intros Hok Hne Hw Hs%writer_step_wstep.
  destruct Hs as [Hd|Hd|i fs' Hpc Ho|i pos m Hpc Hm|i pos Hpc Hr|i pos Hpc Hr Hsy _|i Hpc Hi]; [done|done|..|done];
    unfold writer_ok in Hw; rewrite Hpc in Hw; unfold writer_ok; cbn [w_at w_pc w_tmp w_data w_sync].
  - apply fs_open_truncate_spec in Ho as (_ & H2 & H3 & _ & H4 & H5 & _); [|done].
    split_and!; [done|lia|by rewrite H3|]. unfold pending_on in *. rewrite H4.
    destruct H5 as [H5|H5]; [by apply Hw|done].
  - destruct Hw as (Hn & Hp & Hd & Hpe). split_and!; [done|lia| |done]. unfold fs_write.
    by rewrite inode_data_set, decide_True, Hd, splice_next.
  - destruct Hw as (Hn & Hp & Hd & Hpe). exists i. split; [by destruct (w_sync w)|]. split.
    + exists pos. rewrite Hr. by destruct (w_sync w).
    + intros ->. split; [done|]. simpl. set_solver.
  - destruct Hw as (Hn & Hp & Hd & Hpe). exists i. split; [done|]. split; [|congruence].
    exists pos. split_and!; [done|done|]. rewrite pending_on_leave, Hpe, decide_True by done. by destruct (drop pos _).
Qed.

(** What it does to the target: only the rename touches it. *)
Lemma writer_step_sealed io fs w fs' w' P : fs_ok fs -> w_tmp w <> w_target w -> writer_own fs w ->
  (w_pc w = WRename -> forall i, fs_names fs !! w_tmp w = Some i ->
     P (inode_data fs i) /\ pending_on fs i = [] /\ i ∉ fs_dirty fs) ->
  writer_step io fs w = (fs', w') -> sealed fs (w_target w) P -> sealed fs' (w_target w) P.
Proof.
  intros Hok Hne Hw Hre Hs%writer_step_wstep Hse. unfold writer_own in Hw.
  destruct Hs as [Hd|Hd|i fs' Hpc Ho|i pos m Hpc Hm|i pos Hpc Hr|i pos Hpc Hr Hsy _|i Hpc Hi]; rewrite ?Hpc in Hw;
    [done|done|..].
  - apply fs_open_truncate_spec in Ho as (_ & _ & _ & _ & _ & _ & H); [|done]. by apply H.
  - apply sealed_set_inode; [|done]. by eapply sealed_other.
  - destruct (w_sync w); [|done]. by apply fs_sync_spec.
  - by apply (fs_leave_spec fs (w_tmp w)).
  - destruct (Hre Hpc i Hi) as (H1 & H2 & H3).
    by apply (fs_rename_spec fs (w_tmp w) (w_target w) i).
Qed.

Lemma writer_step_target io fs w fs' w' : fs_ok fs -> w_tmp w <> w_target w -> writer_own fs w ->
  writer_step io fs w = (fs', w') -> writer_done w = false ->
  if decide (w_pc w' = WOk)
  then w_pc w = WRename /\ exists i, fs_names fs !! w_tmp w = Some i /\ fs_names fs' !! w_target w = Some i /\
    same_inode fs fs' i /\ fs_pending fs' = fs_pending fs
  else kept fs fs' (w_target w).
Proof.
  intros Hok Hne Hw Hs%writer_step_wstep Hnd. unfold writer_own in Hw.
  destruct Hs as [Hd|Hd|i fs' Hpc Ho|i pos m Hpc Hm|i pos Hpc Hr|i pos Hpc Hr Hsy _|i Hpc Hi]; rewrite ?Hpc in Hw;
    [congruence|apply kept_refl|..]; cbn [w_at w_pc decide].
  - apply fs_open_truncate_spec in Ho as (_ & _ & _ & H & _); [|done]. by apply H.
  - by eapply fs_read_set_other.
  - destruct (w_sync w); [|apply kept_refl]. apply fs_sync_spec; [done|]. intros Ho. apply Hne.
    by eapply (fs_inj fs Hok).
  - by eapply (fs_leave_spec fs (w_tmp w)).
  - split; [done|]. exists i. split_and!; [done|apply lookup_insert_eq|done|done].
Qed.

(** A writer that syncs, or is not told to wait, leaves nothing pending. *)
Lemma writer_step_pending io fs w fs' w' : fs_ok fs -> writer_step io fs w = (fs', w') ->
  w_sync w = true \/ io <> IoLater -> fs_pending fs' = fs_pending fs.
Proof.
  intros Hok Hs%writer_step_wstep Hp.
  destruct Hs as [Hd|Hd|i fs' Hpc Ho|i pos m Hpc Hm|i pos Hpc Hr|i pos Hpc Hr Hsy Hio|i Hpc Hi]; try done.
  - by apply fs_open_truncate_spec in Ho as (_ & _ & _ & _ & H & _).
  - by destruct (w_sync w).
  - destruct Hp; congruence.
Qed.

(** Writers with temporary files of their own do not disturb each other. *)
Lemma writer_ok_frame fs fs' v : kept fs fs' (w_tmp v) -> writer_ok fs v -> writer_ok fs' v.
Proof.
  intros [Hn Hi]. unfold writer_ok, settled_name. rewrite Hn. destruct (w_pc v) as [|i pos| | |]; [..|done|done].
  - intros Hs i Ht. destruct (Hi i Ht) as (_ & -> & _). by apply Hs.
  - intros (Ht & Hp & Hd & Hpe). destruct (Hi i Ht) as (-> & -> & _). done.
  - intros (i & Ht & Hw & Hc). destruct (Hi i Ht) as (E1 & E2 & E3). exists i.
    split_and!; [done|by eapply written_same|]. rewrite E2, E3. done.
Qed.

Lemma writer_own_frame fs fs' v : fs_names fs' !! w_tmp v = fs_names fs !! w_tmp v -> writer_own fs v -> writer_own fs' v.
Proof. unfold writer_own. by intros ->. Qed.

Lemma writer_ok_own fs w : writer_ok fs w -> writer_own fs w.
Proof. unfold writer_ok, writer_own. destruct (w_pc w); try done. by intros [? _]. Qed.

(** The calls a writer still makes, when each [write] takes at least a byte. *)
Definition writer_left (w : Writer) : nat :=
  match w_pc w with
  | WOpen => length (w_data w) + 3
  | WWrite _ pos => length (w_data w) - pos + 2
  | WRename => 1
  | WOk | WFailed => 0
  end.

Lemma writer_step_left io fs w : writer_done w = false ->
  (writer_left (writer_step io fs w).2 < writer_left w)%nat.
Proof.
  intros Hd. destruct (writer_step io fs w) as [fs' w'] eqn:Hs. apply writer_step_wstep in Hs. unfold writer_left.
  destruct Hs as [Hd'|_|i fs' Hpc Ho|i pos m Hpc Hm|i pos Hpc Hr|i pos Hpc Hr Hsy _|i Hpc Hi]; [congruence|..];
    rewrite ?Hpc; cbn [snd w_at w_pc w_data]; try lia.
  unfold writer_done in Hd. destruct (w_pc w); simpl; lia || done.
Qed.

(** A run ends; no other file is touched; the target has its old content, or
    the run was successful and it has the new one, perhaps with a pending
    rest. *)
Lemma run_writer_spec fuel : forall io fs w, fs_ok fs -> w_tmp w <> w_target w -> writer_own fs w ->
  (writer_left w <= fuel)%nat -> w_pc w <> WOk ->
  exists fs' w', run_writer fuel io fs w = Done (fs', w') /\ fs_ok fs' /\ writer_done w' = true /\
    (forall other, other <> w_tmp w -> other <> w_target w -> kept fs fs' other) /\
    (w_pc w' <> WOk -> kept fs fs' (w_target w)) /\
    (writer_ok fs w -> w_pc w' = WOk -> exists i, fs_names fs' !! w_target w = Some i /\ written fs' i (w_data w)) /\
    ((forall k, io k <> IoLater) -> fs_pending fs' = fs_pending fs).
Proof.
  induction fuel as [|fuel IH]; intros io fs w Hok Hne Hw Hleft Hpc; simpl.
  { unfold writer_left in Hleft. destruct (w_pc w) eqn:E; try lia; try done.
    unfold writer_done. rewrite E. exists fs, w. rewrite E. split_and!; try done; intros; apply kept_refl. }
  destruct (writer_done w) eqn:Hd.
  { exists fs, w. split_and!; try done; intros; apply kept_refl. }
  pose proof (writer_step_left (io 0%nat) fs w Hd) as Hl.
  destruct (writer_step (io 0%nat) fs w) as [fs1 w1] eqn:Hs. simpl in Hl.
  destruct (writer_step_frame _ _ _ _ _ Hok Hne Hw Hs) as (Hok1 & Hw1 & (pc & ->) & Hoth1).
  pose proof (writer_step_target _ _ _ _ _ Hok Hne Hw Hs Hd) as Ht.
  pose proof (fun H => writer_step_content _ _ _ _ _ Hok Hne H Hs) as Hc.
  pose proof (writer_step_pending _ _ _ _ _ Hok Hs) as Hp.
  destruct (decide (w_pc (w_at w pc) = WOk)) as [Hdone|Hgo].
  - destruct Ht as (Hre & i & Hi & Hi1 & Hsame & Hpe). cbn in Hdone. subst pc.
    exists fs1, (w_at w WOk). split_and!; [by destruct fuel|done|done|done|done| |by intros _].
    intros Hwok _. exists i. split; [done|]. unfold writer_ok in Hwok. rewrite Hre in Hwok.
    destruct Hwok as (i' & Hi' & Hwr & _). rewrite Hi in Hi'. injection Hi' as <-. by eapply written_same.
  - destruct (IH (fun k => io (S k)) fs1 (w_at w pc)) as (fs' & w' & -> & Hok' & Hd' & Hoth & Hk & Hwr & Hpe);
      [done|done|done|lia|done|]. cbn [w_at w_tmp w_target w_data] in *.
    exists fs', w'. split_and!; [done|done|done| | | |].
    + intros other H1 H2. eapply kept_trans; [by apply Hoth1|by apply Hoth].
    + intros Hno. eapply kept_trans; [exact Ht|by apply Hk].
    + intros Hwok. apply Hwr. by apply Hc.
    + intros Hio. rewrite Hpe by (intros k; apply Hio). apply Hp. right. apply Hio.
Qed.

(** When the system refuses nothing, a run is successful. *)
Lemma writer_step_granted n fs w fs' w' : (w_pc w = WRename -> is_Some (fs_names fs !! w_tmp w)) ->
  writer_step (IoOk (S n)) fs w = (fs', w') -> w_pc w <> WFailed -> w_pc w' <> WFailed.
Proof.
  intros Hre. unfold writer_step. destruct (w_pc w) as [|i pos| | |] eqn:Hpc; [| | |by intros [= <- <-]; rewrite Hpc|done].
  - destruct (fs_open_truncate fs (w_tmp w)). by intros [= <- <-].
  - destruct (drop pos (w_data w)); [|by intros [= <- <-]]. by destruct (w_sync w); intros [= <- <-].
  - unfold fs_rename. destruct (Hre eq_refl) as [i ->]. by intros [= <- <-].
Qed.

Lemma run_writer_ok fuel : forall io fs w fs' w', fs_ok fs -> w_tmp w <> w_target w -> writer_own fs w ->
  (w_pc w = WRename -> is_Some (fs_names fs !! w_tmp w)) -> (forall k, exists n, io k = IoOk (S n)) ->
  w_pc w <> WFailed -> run_writer fuel io fs w = Done (fs', w') -> w_pc w' = WOk.
Proof.
  assert (Hend : forall w, writer_done w = true -> w_pc w <> WFailed -> w_pc w = WOk).
  { intros w Hd Hn. unfold writer_done in Hd. by destruct (w_pc w). }
  induction fuel as [|fuel IH]; intros io fs w fs' w' Hok Hne Hw Hre Hio Hpc; simpl;
    (destruct (writer_done w) eqn:Hd; [intros [= <- <-]; by apply Hend|]); [done|].
  destruct (writer_step (io 0%nat) fs w) as [fs1 w1] eqn:Hs. destruct (Hio 0%nat) as [n Hn]. rewrite Hn in Hs.
  destruct (writer_step_frame _ _ _ _ _ Hok Hne Hw Hs) as (Hok1 & Hw1 & (pc & ->) & _).
  apply IH; [done|done|done| |intros k; apply Hio|by eapply writer_step_granted].
  intros Hr. cbn [w_at w_pc w_tmp] in *. subst pc. unfold writer_own in Hw.
  apply writer_step_wstep in Hs. inversion Hs as [| | | |i pos Hp|i pos Hp| ]; subst; try done; rewrite Hp in Hw.
  exists i. by destruct (w_sync w).
Qed.

(** [replace_file] returns and leaves other files alone.  When it reports an
    error the target is as before; when it reports success the target is the
    new content, up to what may be pending. *)
Lemma replace_file_spec io fs tmp target sync data : fs_ok fs -> tmp <> target ->
  exists fs' ok, replace_file io fs tmp target sync data = Done (fs', ok) /\ fs_ok fs' /\
    (forall other, other <> tmp -> other <> target -> kept fs fs' other) /\
    (ok = false -> kept fs fs' target) /\
    (settled_name fs tmp -> ok = true -> exists i, fs_names fs' !! target = Some i /\ written fs' i data) /\
    ((forall k, io k <> IoLater) -> fs_pending fs' = fs_pending fs) /\
    ((forall k, exists n, io k = IoOk (S n)) -> ok = true).
Proof.
  intros Hok Hne. unfold replace_file. set (w := mkWriter tmp target sync data WOpen).
  destruct (run_writer_spec (length data + 3) io fs w) as (fs' & w' & Hrun & Hok' & Hd & Hoth & Hno & Hend & Hp); try done.
  rewrite Hrun. rsimpl. eexists _, _. split; [done|]. cbn [fst snd]. split_and!; [done|done| | |done|].
  - intros Hf. apply Hno. by destruct (w_pc w').
  - intros Hst Ht. apply Hend; [done|]. by destruct (w_pc w').
  - intros Hio. by rewrite (run_writer_ok (length data + 3) io fs w fs' w').
Qed.

Lemma kept_settled fs fs' name : kept fs fs' name -> settled_name fs name -> settled_name fs' name.
Proof. intros [Hn Hk] Hs i Hi. rewrite Hn in Hi. destruct (Hk i Hi) as (_ & -> & _). by apply Hs. Qed.

(** The temporary file of a writer that syncs never has pending writes. *)
Lemma writer_step_settled io fs w fs' w' : fs_ok fs -> w_tmp w <> w_target w -> w_sync w = true ->
  writer_step io fs w = (fs', w') -> settled_name fs (w_tmp w) -> settled_name fs' (w_tmp w).
Proof.
  intros Hok Hne Hsy Hs%writer_step_wstep Hst.
  destruct Hs as [Hd|Hd|i fs' Hpc Ho|i pos m Hpc Hm|i pos Hpc Hr|i pos Hpc Hr Hno Hio|i Hpc Hi]; try done.
  - apply fs_open_truncate_spec in Ho as (_ & H2 & _ & _ & H4 & H5 & _); [|done]. intros j Hj.
    rewrite H2 in Hj. injection Hj as <-. unfold pending_on in *. rewrite H4. destruct H5 as [H5|H5]; [by apply Hst|done].
  - by destruct (w_sync w).
  - congruence.
  - intros j. cbn [set_names fs_names]. by rewrite lookup_insert_ne, lookup_delete_eq.
Qed.

Lemma fs_remove_settled fs name fs' other : fs_ok fs -> fs_remove fs name = Some fs' -> settled_name fs other -> settled_name fs' other.
Proof.
  intros Hok Hr Hs. apply fs_remove_spec in Hr as (_ & Hn & _ & Hk & _); [|done].
  destruct (decide (other = name)) as [->|Hne]; [|by eapply kept_settled; [apply Hk|]]. intros i Hi. congruence.
Qed.

Lemma fs_land_kept k io fs name : settled_name fs name -> kept fs (fs_land k io fs) name.
Proof. intros Hs. split; [by destruct (fs_land_names k io fs) as [-> _]|]. intros i Hi. by apply fs_land_other, Hs. Qed.

(** After a crash a sealed file is found as it was, at some time. *)
Lemma crash_sealed fs fs' name P : crash fs fs' -> sealed fs name P ->
  fs_read fs' name = None \/ exists data, P data /\ fs_read fs' name = Some data.
Proof.
  intros [Hn Hi] Hs. unfold fs_read. destruct (fs_names fs' !! name) as [i|] eqn:Hname; [right|by left].
  destruct (Hs i) as (HP & Hc & _); [by exists (fs_names fs')|]. exists (inode_data fs i). split; [done|]. simpl. f_equal.
  unfold inode_data. by rewrite Hi.
Qed.

Lemma crash_self fs : crash fs fs.
Proof. split; [left|done]. Qed.
