(* ===== verification/Bitv.v ===== *)
(** * Bitv: the file that remembers which pieces we have

    Models [crates/librtbit/src/bitv.rs] (the format with its checksum, and
    [DiskBackedBitV] with its flusher task), [bitv_factory.rs] and the
    implementation of [BitVFactory] in [session_persistence/json.rs].  A bit
    field is the bytes of its raw slice.  The tasks that touch the file of one
    torrent run concurrently: the flushers of the bit vectors that were opened
    on it and [store_initial_check]; each of their system calls is an event, and
    so is the work of the runtime's threads and of the system's cache, so a
    crash is a prefix of a run and a choice of what had reached the disk.
    CRC-32 comes from a crate and is an argument. *)

From stdpp Require Import strings.
From S2P Require Import Prelude HashId Storage AtomicWrite.

(** ** The format *)

Definition BITV_MAGIC : list Z := [82; 66; 86; 2].
Definition BITV_HEADER_LEN : nat := 8.

Definition to_le_bytes (x : Z) : list Z :=
  [x mod 256; x / 256 mod 256; x / 65536 mod 256; x / 16777216 mod 256].

Definition from_le_bytes (l : list Z) : Z := foldr (fun b acc => b + 256 * acc) 0 l.

Record BitvReadResult := mkBitvReadResult {
  br_payload : list Z;
  br_checksum_verified : bool;
  br_has_header : bool;
}.

Section bitv.
(** [crc32fast::hash]. *)
Variable crc32 : list Z -> Z.

Definition bitv_with_header (payload : list Z) : list Z :=
  BITV_MAGIC ++ to_le_bytes (crc32 payload) ++ payload.

Definition read_bitv_file (buf : list Z) : BitvReadResult :=
  if (BITV_HEADER_LEN <=? length buf)%nat && bool_decide (take 4 buf = BITV_MAGIC) then
    let stored_crc := from_le_bytes (take 4 (drop 4 buf)) in
    let payload := drop BITV_HEADER_LEN buf in
    mkBitvReadResult payload (stored_crc =? crc32 payload) true
  else mkBitvReadResult buf false false.

(** ** File names *)

Definition hex_digit (d : Z) : Ascii.ascii :=
  Ascii.ascii_of_N (Z.to_N (if d <? 10 then 48 + d else 87 + d)).

(** [format!("{id:?}")]. *)
Fixpoint debug_id (id : Id) : string :=
  match id with
  | [] => ""
  | b :: id => String.String (hex_digit (b / 16)) (String.String (hex_digit (b mod 16)) (debug_id id))
  end.

(** Names within the folder of the store. *)
Definition torrent_bytes_filename (h : Id) : string := String.app (debug_id h) ".torrent".
Definition bitv_filename (h : Id) : string := String.app (debug_id h) ".bitv".
(** [filename.with_extension("bitv.tmp")]. *)
Definition flush_tmp (h : Id) : string := String.app (debug_id h) ".bitv.tmp".
Definition init_tmp (h : Id) : string := String.app (bitv_filename h) ".init_tmp".

(** ** Opening *)

Inductive BitvError := BitvNotFound | BitvCrcMismatch | BitvIo | BitvNoTorrent.

(** [DiskBackedBitV::new], up to the flusher it spawns. *)
Definition disk_bitv_open (fs : Fs) (filename : string) : result BitvError (list Z) :=
  raw_buf ←? ok_or (fs_read fs filename) BitvNotFound;
  let r := read_bitv_file raw_buf in
  if br_has_header r && negb (br_checksum_verified r) then Err BitvCrcMismatch else Ok (br_payload r).

(** [BitVFactory::load] of the JSON store. *)
Definition json_load (fs : Fs) (h : Id) : result BitvError (option (list Z)) :=
  match disk_bitv_open fs (bitv_filename h) with
  | Ok bv => Ok (Some bv)
  | Err BitvNotFound => Ok None
  | Err BitvCrcMismatch => Ok None
  | Err e => Err e
  end.

Definition json_clear (fs : Fs) (h : Id) : result BitvError unit * Fs :=
  match fs_remove fs (bitv_filename h) with
  | Some fs => (Ok tt, fs)
  | None => (Err BitvIo, fs)
  end.

(** [store_initial_check] when no other task touches the file meanwhile. *)
Definition json_store_initial_check (io : nat -> Io) (fs : Fs) (h : Id) (b : list Z) :
    outcome (result BitvError (list Z) * Fs) :=
  r ←! replace_file io fs (init_tmp h) (bitv_filename h) false (bitv_with_header b);
  let '(fs, ok) := r in
  if (ok : bool) then Done (disk_bitv_open fs (bitv_filename h), fs) else Done (Err BitvIo, fs).

(** ** The flusher task *)

Inductive FlushPc :=
| FRecv               (* waiting for a request *)
| FWriting (w : Writer)
| FRemoveTmp          (* after an error: clean up, then end *)
| FRemove
| FDone.

Record Flusher := mkFlusher {
  fl_queue : list (list Z);  (* requests sent and not received *)
  fl_closed : bool;          (* the sender is gone *)
  fl_pc : FlushPc;
}.

Definition fl_at (fl : Flusher) (pc : FlushPc) : Flusher := mkFlusher (fl_queue fl) (fl_closed fl) pc.

Definition remove_ignore (fs : Fs) (name : string) : Fs := default fs (fs_remove fs name).

Definition flusher_step (h : Id) (io : Io) (fs : Fs) (fl : Flusher) : Fs * Flusher :=
  match fl_pc fl with
  | FRecv =>
      (* [recv], then [try_recv] until the channel is empty: the last wins *)
      match last (fl_queue fl) with
      | Some snapshot =>
          (fs, mkFlusher [] (fl_closed fl)
                 (FWriting (mkWriter (flush_tmp h) (bitv_filename h) true (bitv_with_header snapshot) WOpen)))
      | None => (fs, if fl_closed fl then fl_at fl FDone else fl)
      end
  | FWriting w =>
      let '(fs, w) := writer_step io fs w in
      match w_pc w with
      | WOk => (fs, fl_at fl FRecv)
      | WFailed => (fs, fl_at fl FRemoveTmp)
      | _ => (fs, fl_at fl (FWriting w))
      end
  | FRemoveTmp => (match io with IoOk _ => remove_ignore fs (flush_tmp h) | _ => fs end, fl_at fl FRemove)
  | FRemove => (match io with IoOk _ => remove_ignore fs (bitv_filename h) | _ => fs end, fl_at fl FDone)
  | FDone => (fs, fl)
  end.

(** ** The tasks of one torrent *)

Inductive StorePc := SWriting (w : Writer) | SOpen.

Record BitvWorld := mkBitvWorld {
  bw_fs : Fs;
  (** The bit vectors in memory, each with the flusher it spawned; [None] once
      dropped. *)
  bw_bitvs : list (option (list Z) * Flusher);
  bw_store : option StorePc;
}.

Inductive BitvEvent :=
| EvLoad
| EvModify (k : nat) (bits : list Z)  (* through [as_slice_mut] *)
| EvFlush (k : nat)
| EvDrop (k : nat)
| EvRun (k : nat) (io : Io)           (* a step of the flusher *)
| EvClear
| EvStore (b : list Z)                (* [store_initial_check] begins *)
| EvStoreRun (io : Io)
| EvLand (j : nat) (io : Io)          (* a thread of the runtime makes a call *)
| EvWriteback (i : nat).              (* the system writes a file back *)

Definition spawn_bitv (w : BitvWorld) (bits : list Z) : BitvWorld :=
  mkBitvWorld (bw_fs w) (bw_bitvs w ++ [(Some bits, mkFlusher [] false FRecv)]) (bw_store w).

Definition with_bitv (w : BitvWorld) (k : nat) (bv : option (list Z) * Flusher) : BitvWorld :=
  mkBitvWorld (bw_fs w) (<[k := bv]> (bw_bitvs w)) (bw_store w).

(** [flush_tx.send]: an error when the flusher has ended. *)
Definition send (fl : Flusher) (snapshot : list Z) : Flusher :=
  match fl_pc fl with
  | FDone => fl
  | _ => mkFlusher (fl_queue fl ++ [snapshot]) (fl_closed fl) (fl_pc fl)
  end.

Definition close (fl : Flusher) : Flusher := mkFlusher (fl_queue fl) true (fl_pc fl).

Definition with_fs (w : BitvWorld) (fs : Fs) : BitvWorld := mkBitvWorld fs (bw_bitvs w) (bw_store w).

Definition bitv_step (h : Id) (w : BitvWorld) (e : BitvEvent) : BitvWorld :=
  match e with
  | EvLoad => match json_load (bw_fs w) h with Ok (Some bits) => spawn_bitv w bits | _ => w end
  | EvModify k bits =>
      match bw_bitvs w !! k with Some (Some _, fl) => with_bitv w k (Some bits, fl) | _ => w end
  | EvFlush k =>
      match bw_bitvs w !! k with Some (Some bits, fl) => with_bitv w k (Some bits, send fl bits) | _ => w end
  | EvDrop k =>
      match bw_bitvs w !! k with Some (Some bits, fl) => with_bitv w k (None, close (send fl bits)) | _ => w end
  | EvRun k io =>
      match bw_bitvs w !! k with
      | Some (bv, fl) =>
          let '(fs, fl) := flusher_step h io (bw_fs w) fl in
          mkBitvWorld fs (<[k := (bv, fl)]> (bw_bitvs w)) (bw_store w)
      | None => w
      end
  | EvClear => with_fs w (json_clear (bw_fs w) h).2
  | EvLand j io => with_fs w (fs_land j io (bw_fs w))
  | EvWriteback i => with_fs w (fs_sync (bw_fs w) i)
  | EvStore b =>
      match bw_store w with
      | None =>
          mkBitvWorld (bw_fs w) (bw_bitvs w)
            (Some (SWriting (mkWriter (init_tmp h) (bitv_filename h) false (bitv_with_header b) WOpen)))
      | Some _ => w
      end
  | EvStoreRun io =>
      match bw_store w with
      | Some (SWriting wr) =>
          let '(fs, wr) := writer_step io (bw_fs w) wr in
          mkBitvWorld fs (bw_bitvs w)
            match w_pc wr with WOk => Some SOpen | WFailed => None | _ => Some (SWriting wr) end
      | Some SOpen =>
          match disk_bitv_open (bw_fs w) (bitv_filename h) with
          | Ok bits => spawn_bitv (mkBitvWorld (bw_fs w) (bw_bitvs w) None) bits
          | Err _ => mkBitvWorld (bw_fs w) (bw_bitvs w) None
          end
      | None => w
      end
  end.

Definition run_bitv (h : Id) (w : BitvWorld) (evs : list BitvEvent) : BitvWorld := foldl (bitv_step h) w evs.
End bitv.

(** ** Names do not clash *)

Lemma string_app_length (a b : string) : String.length (String.app a b) = (String.length a + String.length b)%nat.
Proof. induction a as [|c a IH]; [done|]. exact (f_equal S IH). Qed.

Lemma app_string_inj (a b c : string) : String.app a b = String.app a c -> b = c.
Proof. induction a as [|x a IH]; [done|]. intros Heq. apply IH. by injection Heq. Qed.

Lemma bitv_names_distinct h : flush_tmp h <> bitv_filename h /\ init_tmp h <> bitv_filename h /\
  init_tmp h <> flush_tmp h.
Proof.
  unfold flush_tmp, init_tmp, bitv_filename. split_and!; intros Heq.
  - by apply app_string_inj in Heq.
  - apply (f_equal String.length) in Heq. rewrite !string_app_length in Heq. simpl in Heq. lia.
  - apply (f_equal String.length) in Heq. rewrite !string_app_length in Heq. simpl in Heq. lia.
Qed.

Section spec.
Context (crc32 : list Z -> Z) (crc32_u32 : forall l, is_u32 (crc32 l)) (h : Id).

Lemma from_to_le_bytes x : is_u32 x -> from_le_bytes (to_le_bytes x) = x.
Proof. unfold is_u32, from_le_bytes, to_le_bytes. simpl. zlia. Qed.

Lemma read_bitv_with_header payload :
  read_bitv_file crc32 (bitv_with_header crc32 payload) = mkBitvReadResult payload true true.
Proof.
  unfold read_bitv_file, bitv_with_header.
  set (crc := to_le_bytes (crc32 payload)). assert (Hcrc : length crc = 4%nat) by done.
  rewrite bool_decide_true by done.
  assert (Hlen : (BITV_HEADER_LEN <=? length (BITV_MAGIC ++ crc ++ payload))%nat = true).
  { rewrite !length_app, Hcrc. by apply Nat.leb_le; unfold BITV_HEADER_LEN; simpl; lia. }
  rewrite Hlen. cbn [andb].
  assert (Hd : drop 4 (BITV_MAGIC ++ crc ++ payload) = crc ++ payload) by done.
  assert (Hp : drop BITV_HEADER_LEN (BITV_MAGIC ++ crc ++ payload) = payload) by done.
  rewrite Hd, Hp, take_app_length' by done. unfold crc. rewrite from_to_le_bytes by done. by rewrite Z.eqb_refl.
Qed.

Lemma disk_bitv_open_header fs name payload : fs_read fs name = Some (bitv_with_header crc32 payload) ->
  disk_bitv_open crc32 fs name = Ok payload.
Proof. intros Hr. unfold disk_bitv_open. rewrite Hr. rsimpl. by rewrite read_bitv_with_header. Qed.

(** ** The invariant of the tasks

    [known] is any property of bit fields. *)
Variable known : list Z -> Prop.

Definition good (data : list Z) : Prop := exists p, known p /\ data = bitv_with_header crc32 p.

(** What the name of the file points to, or has pointed to, is a whole bit field
    and on the disk. *)
Definition file_ok (fs : Fs) : Prop := sealed fs (bitv_filename h) good.

Record disk_ok (fs : Fs) : Prop := {
  dk_fs : fs_ok fs;
  dk_file : file_ok fs;
  dk_tmp : settled_name fs (flush_tmp h);
}.

(** A flusher that can no longer touch the file. *)
Definition quiet (fl : Flusher) : bool :=
  match fl_pc fl with
  | FDone => true
  | FRecv => fl_closed fl && bool_decide (fl_queue fl = [])
  | _ => false
  end.

Definition flushes (fs : Fs) (w : Writer) : Prop :=
  w_tmp w = flush_tmp h /\ w_target w = bitv_filename h /\ w_sync w = true /\ writer_ok fs w /\ good (w_data w).

Definition stores (fs : Fs) (w : Writer) : Prop :=
  w_tmp w = init_tmp h /\ w_target w = bitv_filename h /\ writer_own fs w /\ good (w_data w).

Definition flusher_ok (fs : Fs) (fl : Flusher) : Prop :=
  Forall known (fl_queue fl) /\ match fl_pc fl with FWriting w => flushes fs w | _ => True end.

Definition store_ok (fs : Fs) (st : option StorePc) : Prop :=
  match st with Some (SWriting wr) => stores fs wr | _ => True end.

Record bitv_inv (w : BitvWorld) : Prop := {
  bi_disk : disk_ok (bw_fs w);
  bi_known k bits fl : bw_bitvs w !! k = Some (Some bits, fl) -> known bits /\ fl_closed fl = false;
  bi_dropped k fl : bw_bitvs w !! k = Some (None, fl) -> fl_closed fl = true;
  bi_flushers k bv fl : bw_bitvs w !! k = Some (bv, fl) -> flusher_ok (bw_fs w) fl;
  bi_single j k a b fa fb : bw_bitvs w !! j = Some (a, fa) -> bw_bitvs w !! k = Some (b, fb) ->
    quiet fa = false -> quiet fb = false -> j = k;
  bi_store : store_ok (bw_fs w) (bw_store w);
}.

(** The runs the theorem is about: what is put into memory is [known]; a bit
    vector is opened only when the earlier ones are gone and flushed; and the
    file of an initial check, which the code neither flushes nor syncs, is whole
    and on the disk when it is renamed. *)
Definition all_quiet (w : BitvWorld) : Prop := forall k bv fl, bw_bitvs w !! k = Some (bv, fl) -> quiet fl = true.

Definition on_disk (fs : Fs) (wr : Writer) : Prop :=
  forall i, fs_names fs !! w_tmp wr = Some i ->
    inode_data fs i = w_data wr /\ pending_on fs i = [] /\ i ∉ fs_dirty fs.

Definition calm (w : BitvWorld) (e : BitvEvent) : Prop :=
  match e with
  | EvLoad => all_quiet w
  | EvModify _ bits => known bits
  | EvStore b => known b
  | EvStoreRun _ =>
      match bw_store w with
      | Some SOpen => all_quiet w
      | Some (SWriting wr) => w_pc wr = WRename -> on_disk (bw_fs w) wr
      | None => True
      end
  | _ => True
  end.

Fixpoint calm_run (w : BitvWorld) (evs : list BitvEvent) : Prop :=
  match evs with
  | [] => True
  | e :: evs => calm w e /\ calm_run (bitv_step crc32 h w e) evs
  end.

Lemma file_ok_read fs : file_ok fs -> fs_read fs (bitv_filename h) = None \/
  exists p, known p /\ fs_read fs (bitv_filename h) = Some (bitv_with_header crc32 p).
Proof.
  intros Hf. destruct (crash_sealed fs fs _ _ (crash_self fs) Hf) as [?|(d & (p & Hp & ->) & ?)]; [by left|right]. by exists p.
Qed.

Lemma file_ok_open fs p : file_ok fs -> disk_bitv_open crc32 fs (bitv_filename h) = Ok p -> known p.
Proof.
  intros [Hn|(q & Hq & Hr)]%file_ok_read; unfold disk_bitv_open.
  - by rewrite Hn.
  - rewrite Hr. rsimpl. rewrite read_bitv_with_header. by intros [= <-].
Qed.

(** A step of the flusher's writer. *)
Lemma flushes_step io fs wr fs' wr' : disk_ok fs -> flushes fs wr -> writer_step io fs wr = (fs', wr') ->
  disk_ok fs' /\ flushes fs' wr' /\ w_data wr' = w_data wr /\ kept fs fs' (init_tmp h).
Proof.
  intros [Hok Hf Hst] (Ht & Hg & Hsy & Hw & Hd) Hs. destruct (bitv_names_distinct h) as (Hn1 & Hn2 & Hn3).
  assert (Hne : w_tmp wr <> w_target wr) by congruence. pose proof (writer_ok_own _ _ Hw) as Hown.
  pose proof (writer_step_content _ _ _ _ _ Hok Hne Hw Hs) as Hc.
  destruct (writer_step_frame _ _ _ _ _ Hok Hne Hown Hs) as (Hok' & _ & (pc & ->) & Hk).
  split; [|split; [by unfold flushes|split; [done|apply Hk; congruence]]]. split; [done| |].
  - unfold file_ok in *. rewrite <- Hg in *. eapply writer_step_sealed; [exact Hok|done|done| |exact Hs|done].
    intros Hpc i Hi. unfold writer_ok in Hw. rewrite Hpc in Hw. destruct Hw as (i' & Hi' & Hwr & Hcl).
    rewrite Hi in Hi'. injection Hi' as <-. destruct (Hcl Hsy). by rewrite (written_landed _ _ _ Hwr).
  - pose proof (writer_step_settled _ _ _ _ _ Hok Hne Hsy Hs) as Hset. rewrite Ht in Hset. by apply Hset.
Qed.

(** A step of the writer of an initial check. *)
Lemma stores_step io fs wr fs' wr' : disk_ok fs -> stores fs wr -> (w_pc wr = WRename -> on_disk fs wr) ->
  writer_step io fs wr = (fs', wr') -> disk_ok fs' /\ stores fs' wr' /\ kept fs fs' (flush_tmp h).
Proof.
  intros [Hok Hf Hst] (Ht & Hg & Hw & Hd) Hon Hs. destruct (bitv_names_distinct h) as (Hn1 & Hn2 & Hn3).
  assert (Hne : w_tmp wr <> w_target wr) by congruence.
  destruct (writer_step_frame _ _ _ _ _ Hok Hne Hw Hs) as (Hok' & Hown & (pc & ->) & Hk).
  assert (Hkept : kept fs fs' (flush_tmp h)) by (apply Hk; congruence).
  split; [|split; [by unfold stores|done]]. split; [done| |by eapply kept_settled].
  unfold file_ok in *. rewrite <- Hg in *. eapply writer_step_sealed; [exact Hok|done|done| |exact Hs|done].
  intros Hpc i Hi. destruct (Hon Hpc i Hi) as (-> & ? & ?). done.
Qed.

Lemma flusher_ok_frame fs fs' fl : kept fs fs' (flush_tmp h) -> flusher_ok fs fl -> flusher_ok fs' fl.
Proof.
  intros Hk [Hq Hp]. split; [done|]. destruct (fl_pc fl) as [|v| | |]; try done.
  destruct Hp as (H1 & H2 & H3 & H4 & H5). split_and!; try done. eapply writer_ok_frame; [|done]. by rewrite H1.
Qed.

Lemma store_ok_frame fs fs' st : fs_names fs' !! init_tmp h = fs_names fs !! init_tmp h -> store_ok fs st -> store_ok fs' st.
Proof.
  intros Hn. destruct st as [[wr|]|]; try done. intros (H1 & H2 & H3 & H4). split_and!; try done.
  eapply writer_own_frame; [|done]. by rewrite H1.
Qed.

(** Removing a file. *)
Lemma remove_ignore_spec fs name : disk_ok fs -> disk_ok (remove_ignore fs name) /\
  forall other, other <> name -> kept fs (remove_ignore fs name) other.
Proof.
  intros [Hok Hf Hst]. unfold remove_ignore. destruct (fs_remove fs name) as [fs'|] eqn:Hr; [|split; [by split|intros; apply kept_refl]].
  simpl. pose proof (fs_remove_settled _ _ _ _ Hok Hr Hst). apply fs_remove_spec in Hr as (Hok' & _ & _ & Hk & Hse); [|done].
  split; [split; [done|by apply Hse|done]|done].
Qed.

(** Replacing bit vector [k]: what has to hold of the new pair, the file
    system staying in order. *)
Lemma bitv_inv_update w fs k bv fl bv' fl' : bitv_inv w -> bw_bitvs w !! k = Some (bv, fl) ->
  disk_ok fs ->
  (forall j b f, j <> k -> bw_bitvs w !! j = Some (b, f) -> flusher_ok fs f) ->
  store_ok fs (bw_store w) -> flusher_ok fs fl' -> (forall bits, bv' = Some bits -> known bits /\ fl_closed fl' = false) ->
  (bv' = None -> fl_closed fl' = true) -> (quiet fl = true -> quiet fl' = true) ->
  bitv_inv (mkBitvWorld fs (<[k := (bv', fl')]> (bw_bitvs w)) (bw_store w)).
Proof.
  intros Hinv Hk Hdisk Hothers Hst Hfl Hb Hn Hquiet.
  assert (Hlt : (k < length (bw_bitvs w))%nat) by (by eapply lookup_lt_Some).
  split; cbn [bw_fs bw_bitvs bw_store]; try done.
  - intros j bits f. destruct (decide (j = k)) as [->|].
    + rewrite list_lookup_insert_eq by done. intros [= -> <-]. by apply Hb.
    + rewrite list_lookup_insert_ne by done. apply Hinv.
  - intros j f. destruct (decide (j = k)) as [->|].
    + rewrite list_lookup_insert_eq by done. intros [= -> <-]. by apply Hn.
    + rewrite list_lookup_insert_ne by done. apply Hinv.
  - intros j b f. destruct (decide (j = k)) as [->|].
    + rewrite list_lookup_insert_eq by done. by intros [= <- <-].
    + rewrite list_lookup_insert_ne by done. by apply Hothers.
  - assert (Hactive : quiet fl' = false -> quiet fl = false).
    { intros Hf'. destruct (quiet fl); [|done]. by rewrite Hquiet in Hf'. }
    intros i j a b fa fb. destruct (decide (i = k)) as [->|], (decide (j = k)) as [->|];
      rewrite ?list_lookup_insert_eq, ?list_lookup_insert_ne by done; try done.
    + intros [= <- <-] Hj Hqa Hqb. eapply (bi_single w Hinv k j); eauto.
    + intros Hi [= <- <-] Hqa Hqb. eapply (bi_single w Hinv i k); eauto.
    + apply Hinv.
Qed.

(** Opening a bit vector when the others are quiet. *)
Lemma bitv_inv_spawn w bits : bitv_inv w -> all_quiet w -> known bits -> bitv_inv (spawn_bitv w bits).
Proof.
  intros Hinv Hq Hb.
  assert (Hnew : forall k bv fl, bw_bitvs (spawn_bitv w bits) !! k = Some (bv, fl) ->
    bw_bitvs w !! k = Some (bv, fl) \/ k = length (bw_bitvs w) /\ bv = Some bits /\ fl = mkFlusher [] false FRecv).
  { intros k bv fl. unfold spawn_bitv. simpl. intros [Hk|[Hlen Hk]]%lookup_app_Some; [by left|]. right.
    apply list_lookup_singleton_Some in Hk as [Hz [= <- <-]]. split; [lia|done]. }
  split; cbn [bw_fs bw_store spawn_bitv]; try apply Hinv.
  - intros k b fl [Hk|(_ & [= <-] & ->)]%Hnew; [by eapply (bi_known w Hinv)|done].
  - intros k fl [Hk|(_ & ? & _)]%Hnew; [by eapply (bi_dropped w Hinv)|done].
  - intros k bv fl [Hk|(_ & -> & ->)]%Hnew; [by eapply (bi_flushers w Hinv)|]. by split; [constructor|].
  - intros j k a b fa fb [Hj|(-> & _ & _)]%Hnew [Hk|(-> & _ & _)]%Hnew Ha Hb'; [|..|done].
    + by rewrite (Hq j a fa) in Ha.
    + by rewrite (Hq j a fa) in Ha.
    + by rewrite (Hq k b fb) in Hb'.
Qed.

Lemma bitv_inv_store w fs st : bitv_inv w -> disk_ok fs -> kept (bw_fs w) fs (flush_tmp h) -> store_ok fs st ->
  bitv_inv (mkBitvWorld fs (bw_bitvs w) st).
Proof.
  intros Hinv Hdisk Hk Hst.
  assert (Hfl : forall k bv fl, bw_bitvs w !! k = Some (bv, fl) -> flusher_ok fs fl).
  { intros k bv fl Hl. eapply flusher_ok_frame; [exact Hk|]. by eapply (bi_flushers w Hinv). }
  split; cbn [bw_fs bw_bitvs bw_store]; try done; apply Hinv. Qed.

(** Writing a file back disturbs nobody. *)
Lemma bitv_inv_writeback w i : bitv_inv w -> disk_ok (fs_sync (bw_fs w) i) -> bitv_inv (with_fs w (fs_sync (bw_fs w) i)).
Proof.
  intros Hinv Hdisk. split; cbn [bw_fs bw_bitvs bw_store with_fs]; try done; try apply Hinv.
  intros k bv fl Hk. destruct (bi_flushers w Hinv k bv fl Hk) as [Hq Hp]. split; [done|].
  destruct (fl_pc fl) as [|v| | |]; try done. destruct Hp as (H1 & H2 & H3 & H4 & H5). split_and!; try done.
  unfold writer_ok in *. destruct (w_pc v); try done. destruct H4 as (j & Hj & Hwr & Hc). exists j.
  split_and!; [done|done|]. intros Hsy. destruct (Hc Hsy). split; [done|]. simpl. set_solver.
Qed.

(** A flusher that is not quiet is the only one that writes. *)
Lemma others_not_writing w k bv fl j b f wr : bitv_inv w -> bw_bitvs w !! k = Some (bv, fl) -> quiet fl = false ->
  j <> k -> bw_bitvs w !! j = Some (b, f) -> fl_pc f <> FWriting wr.
Proof.
  intros Hinv Hk Hq Hne Hj Hpc. apply Hne. eapply (bi_single w Hinv); eauto.
  unfold quiet. by rewrite Hpc.
Qed.

(** A flusher that is at work does something: the other flushers are idle, and
    the store is not disturbed. *)
Lemma flusher_works_inv w k bv fl fs pc' : bitv_inv w -> bw_bitvs w !! k = Some (bv, fl) -> quiet fl = false ->
  disk_ok fs -> fs_names fs !! init_tmp h = fs_names (bw_fs w) !! init_tmp h ->
  match pc' with FWriting v => flushes fs v | _ => True end ->
  bitv_inv (mkBitvWorld fs (<[k := (bv, fl_at fl pc')]> (bw_bitvs w)) (bw_store w)).
Proof.
  intros Hinv Hk Hactive Hdisk Hn Hpc'. destruct (bi_flushers w Hinv k bv fl Hk) as [Hq _].
  eapply bitv_inv_update; [done|exact Hk|done| | |by split| | |by rewrite Hactive].
  - intros j b f Hne Hj. destruct (bi_flushers w Hinv j b f Hj) as [Hq' Hp']. split; [done|].
    destruct (fl_pc f) eqn:Hf; try done. exfalso. eapply (others_not_writing w k bv fl j b f); eauto.
  - eapply store_ok_frame; [exact Hn|apply Hinv].
  - intros bits ->. by apply (bi_known w Hinv k bits fl).
  - intros ->. by apply (bi_dropped w Hinv k fl).
Qed.

Lemma flusher_step_inv w k bv fl io fs fl' : bitv_inv w -> bw_bitvs w !! k = Some (bv, fl) ->
  flusher_step crc32 h io (bw_fs w) fl = (fs, fl') ->
  bitv_inv (mkBitvWorld fs (<[k := (bv, fl')]> (bw_bitvs w)) (bw_store w)).
Proof.
  intros Hinv Hk. destruct (bitv_names_distinct h) as (Hn1 & Hn2 & Hn3).
  destruct (bi_flushers w Hinv k bv fl Hk) as [Hq Hp].
  assert (Hframe : forall fl1, Forall known (fl_queue fl1) -> fl_closed fl1 = fl_closed fl ->
    match fl_pc fl1 with FWriting v => flushes (bw_fs w) v | _ => True end ->
    (quiet fl = true -> quiet fl1 = true) ->
    bitv_inv (mkBitvWorld (bw_fs w) (<[k := (bv, fl1)]> (bw_bitvs w)) (bw_store w))).
  { intros fl1 Hq1 Hc1 Hp1 Hqq. eapply bitv_inv_update; [done|exact Hk|apply Hinv| |apply Hinv|by split| | |done].
    - intros j b f _ Hj. by eapply (bi_flushers w Hinv).
    - intros bits ->. rewrite Hc1. by eapply (bi_known w Hinv).
    - intros ->. rewrite Hc1. by eapply (bi_dropped w Hinv). }
  unfold flusher_step. destruct (fl_pc fl) as [|wr| | |] eqn:Hpc.
  - destruct (last (fl_queue fl)) as [snap|] eqn:Hl; intros [= <- <-].
    + apply Hframe; [constructor|done| |]; simpl.
      * split_and!; try done; [apply (dk_tmp _ (bi_disk w Hinv))|]. exists snap. split; [|done]. apply last_Some in Hl as [l' Hl]. rewrite Hl in Hq.
        apply Forall_app in Hq as [_ Hq]. by apply Forall_cons in Hq as [? _].
      * unfold quiet. rewrite Hpc. rewrite bool_decide_false; [by rewrite andb_false_r|]. intros Hnil. by rewrite Hnil in Hl.
    + destruct (fl_closed fl) eqn:Hc; apply Hframe; try done. by rewrite Hpc.
  - assert (Hactive : quiet fl = false) by (unfold quiet; by rewrite Hpc).
    destruct (writer_step io (bw_fs w) wr) as [fs1 wr1] eqn:Hs.
    destruct (flushes_step _ _ _ _ _ (bi_disk w Hinv) Hp Hs) as (Hd1 & Hf1 & _ & Hk1 & _).
    destruct (w_pc wr1) eqn:Hw1; intros [= <- <-]; by eapply flusher_works_inv.
  - intros [= <- <-]. assert (Hactive : quiet fl = false) by (unfold quiet; by rewrite Hpc).
    destruct (remove_ignore_spec (bw_fs w) (flush_tmp h) (bi_disk w Hinv)) as [Hd1 Hk1].
    destruct io; apply flusher_works_inv; try done; [by apply Hk1|apply Hinv..].
  - intros [= <- <-]. assert (Hactive : quiet fl = false) by (unfold quiet; by rewrite Hpc).
    destruct (remove_ignore_spec (bw_fs w) (bitv_filename h) (bi_disk w Hinv)) as [Hd1 Hk1].
    destruct io; apply flusher_works_inv; try done; [by apply Hk1|apply Hinv..].
  - intros [= <- <-]. apply Hframe; try done. by rewrite Hpc.
Qed.

Lemma send_ok fs fl snap : known snap -> flusher_ok fs fl -> flusher_ok fs (send fl snap).
Proof.
  intros Hs [Hq Hp]. unfold send. destruct (fl_pc fl) eqn:Hpc;
    (split; [by simpl; try apply Forall_app_2; try constructor|]); cbn [fl_pc]; rewrite ?Hpc; done.
Qed.

Lemma send_closed fl snap : fl_closed (send fl snap) = fl_closed fl.
Proof. unfold send. by destruct (fl_pc fl). Qed.

(** The flusher of a bit vector in memory is quiet only once it has ended. *)
Lemma quiet_send fl snap : fl_closed fl = false -> quiet fl = true -> quiet (send fl snap) = true /\ quiet (close (send fl snap)) = true.
Proof.
  intros Hc. unfold quiet, send, close. destruct (fl_pc fl) eqn:Hpc; cbn [fl_pc fl_closed fl_queue]; rewrite ?Hpc, ?Hc; done.
Qed.

Lemma bitv_step_inv w e : bitv_inv w -> calm w e -> bitv_inv (bitv_step crc32 h w e).
Proof.
  intros Hinv Hcalm. destruct (bitv_names_distinct h) as (Hn1 & Hn2 & Hn3).
  destruct e as [|k bits|k|k|k io| |b|io|j io|i]; simpl in *.
  - unfold json_load. destruct (disk_bitv_open crc32 (bw_fs w) (bitv_filename h)) as [p|[]] eqn:Ho; try done.
    apply bitv_inv_spawn; [done|done|]. eapply file_ok_open; [|exact Ho]. apply Hinv.
  - destruct (bw_bitvs w !! k) as [[[old|] fl]|] eqn:Hk; try done.
    destruct (bi_known w Hinv k old fl Hk) as [_ Hc].
    eapply bitv_inv_update; eauto; try apply Hinv; try done.
    + intros j b f _ Hj. by eapply (bi_flushers w Hinv).
    + by eapply (bi_flushers w Hinv).
    + by intros ? [= <-].
  - destruct (bw_bitvs w !! k) as [[[bits|] fl]|] eqn:Hk; try done.
    destruct (bi_known w Hinv k bits fl Hk) as [Hb Hc].
    eapply bitv_inv_update; eauto; try apply Hinv; try done.
    + intros j b f _ Hj. by eapply (bi_flushers w Hinv).
    + apply send_ok; [done|]. by eapply (bi_flushers w Hinv).
    + intros ? [= <-]. by rewrite send_closed.
    + intros Hq. by apply quiet_send.
  - destruct (bw_bitvs w !! k) as [[[bits|] fl]|] eqn:Hk; try done.
    destruct (bi_known w Hinv k bits fl Hk) as [Hb Hc].
    eapply bitv_inv_update; eauto; try apply Hinv; try done.
    + intros j b f _ Hj. by eapply (bi_flushers w Hinv).
    + assert (Hs : flusher_ok (bw_fs w) (send fl bits)); [|exact Hs].
      apply send_ok; [done|]. by eapply (bi_flushers w Hinv).
    + intros Hq. by apply quiet_send.
  - destruct (bw_bitvs w !! k) as [[bv fl]|] eqn:Hk; [|done].
    destruct (flusher_step crc32 h io (bw_fs w) fl) as [fs fl'] eqn:Hs. by eapply flusher_step_inv.
  - assert (Hfs : (json_clear (bw_fs w) h).2 = remove_ignore (bw_fs w) (bitv_filename h)).
    { unfold json_clear, remove_ignore. by destruct (fs_remove (bw_fs w) (bitv_filename h)). }
    rewrite Hfs. destruct (remove_ignore_spec (bw_fs w) (bitv_filename h) (bi_disk w Hinv)) as [Hd1 Hk1].
    apply bitv_inv_store; [done|done|by apply Hk1|]. eapply store_ok_frame; [|apply Hinv]. by apply Hk1.
  - destruct (bw_store w) eqn:Hst; [done|]. apply bitv_inv_store; [done|apply Hinv|apply kept_refl|].
    split_and!; try done. by exists b.
  - pose proof (bi_store w Hinv) as Hst. destruct (bw_store w) as [[wr|]|] eqn:Est; [| |done].
    + destruct (writer_step io (bw_fs w) wr) as [fs wr'] eqn:Hs.
      destruct (stores_step _ _ _ _ _ (bi_disk w Hinv) Hst Hcalm Hs) as (Hd1 & Hs1 & Hk1).
      apply bitv_inv_store; [done|done|done|]. by destruct (w_pc wr').
    + assert (Hbase : bitv_inv (mkBitvWorld (bw_fs w) (bw_bitvs w) None)).
      { apply bitv_inv_store; [done|apply Hinv|apply kept_refl|done]. }
      destruct (disk_bitv_open crc32 (bw_fs w) (bitv_filename h)) as [p|] eqn:Ho; [|done].
      apply bitv_inv_spawn; [done|exact Hcalm|]. eapply file_ok_open; [|exact Ho]. apply Hinv.
  - destruct (bi_disk w Hinv) as [Hok Hf Hst].
    apply bitv_inv_store; [done| |by apply fs_land_kept|].
    + split; [by apply fs_land_ok|by apply fs_land_sealed|]. eapply kept_settled; [by apply fs_land_kept|done].
    + eapply store_ok_frame; [|apply Hinv]. by destruct (fs_land_names j io (bw_fs w)) as [-> _].
  - destruct (bi_disk w Hinv) as [Hok Hf Hst]. destruct (fs_sync_spec (bw_fs w) i Hok) as (Hok1 & _ & Hse).
    apply bitv_inv_writeback; [done|]. split; [done|by apply Hse|done].
Qed.

Lemma run_bitv_inv evs : forall w, bitv_inv w -> calm_run w evs -> bitv_inv (run_bitv crc32 h w evs).
Proof.
  induction evs as [|e evs IH]; intros w Hinv Hc; [done|]. destruct Hc as [Hc Hr].
  unfold run_bitv. simpl. apply IH; [by apply bitv_step_inv|done].
Qed.

Lemma bitv_start fs : disk_ok fs -> bitv_inv (mkBitvWorld fs [] None).
Proof. by intros Hd; split. Qed.

(** ** A flush reaches the disk *)

(** A flusher that writes: so many calls later it waits again, and the file
    holds its data. *)
Lemma flusher_writes_out w k bv fl wr n : bitv_inv w -> bw_bitvs w !! k = Some (bv, fl) ->
  fl_pc fl = FWriting wr -> (writer_left wr <= n)%nat -> w_pc wr <> WOk -> w_pc wr <> WFailed ->
  forall ios, length ios = n -> Forall (fun io => exists m, io = IoOk (S m)) ios ->
  exists m, (m <= n)%nat /\
    let w1 := run_bitv crc32 h w (EvRun k <$> take m ios) in
    bw_bitvs w1 !! k = Some (bv, fl_at fl FRecv) /\ fs_read (bw_fs w1) (bitv_filename h) = Some (w_data wr).
Proof.
  revert w fl wr. induction n as [|n IH]; intros w fl wr Hinv Hk Hpc Hleft Hn1 Hn2 ios Hlen Hios.
  { unfold writer_left in Hleft. destruct (w_pc wr); try lia; done. }
  destruct ios as [|io ios]; [done|]. apply Forall_cons in Hios as [[m0 ->] Hios].
  assert (Hdone : writer_done wr = false) by (unfold writer_done; by destruct (w_pc wr)).
  pose proof (writer_step_left (IoOk (S m0)) (bw_fs w) wr Hdone) as Hl.
  destruct (bi_flushers w Hinv k bv fl Hk) as [_ Hp]. rewrite Hpc in Hp.
  pose proof Hp as (Ht & Hg & Hsy & Hw & Hdat). destruct (bitv_names_distinct h) as (Hnm & _ & _).
  destruct (writer_step (IoOk (S m0)) (bw_fs w) wr) as [fs1 wr1] eqn:Hs. simpl in Hl.
  assert (Hne : w_tmp wr <> w_target wr) by congruence.
  pose proof (writer_step_target _ _ _ _ _ (dk_fs _ (bi_disk w Hinv)) Hne (writer_ok_own _ _ Hw) Hs Hdone) as Htg.
  destruct (flushes_step _ _ _ _ _ (bi_disk w Hinv) Hp Hs) as (_ & _ & Hd1 & _).
  assert (Hnf : w_pc wr1 <> WFailed).
  { eapply writer_step_granted; [|exact Hs|done]. intros Hr. unfold writer_ok in Hw. rewrite Hr in Hw.
    destruct Hw as (i & Hi & _). by exists i. }
  assert (Hstep : forall pc', (w_pc wr1 = WOk -> pc' = FRecv) -> (w_pc wr1 <> WOk -> pc' = FWriting wr1) ->
    bitv_step crc32 h w (EvRun k (IoOk (S m0))) =
      mkBitvWorld fs1 (<[k := (bv, fl_at fl pc')]> (bw_bitvs w)) (bw_store w)).
  { intros pc' H1 H2. simpl. rewrite Hk. unfold flusher_step. rewrite Hpc, Hs.
    destruct (w_pc wr1) eqn:E1; try done; rewrite ?H1 by done; rewrite ?H2 by done; done. }
  assert (Hlt : (k < length (bw_bitvs w))%nat) by (by eapply lookup_lt_Some).
  destruct (decide (w_pc wr1 = WOk)) as [Hok|Hgo].
  - exists 1%nat. split; [lia|]. cbn [take fmap list_fmap]. unfold run_bitv. cbn [foldl].
    rewrite take_0, (Hstep FRecv) by done. simpl. rewrite list_lookup_insert_eq by done. split; [done|].
    destruct Htg as (Hre & i & Hi & Hi1 & (Hsame & _) & _).
    unfold writer_ok in Hw. rewrite Hre in Hw. destruct Hw as (i' & Hi' & Hwr & Hcl). rewrite Hi in Hi'. injection Hi' as <-.
    unfold fs_read. rewrite <- Hg, Hi1. simpl. rewrite Hsame. f_equal. by apply written_landed; [|apply Hcl].
  - specialize (Hstep (FWriting wr1) ltac:(done) ltac:(done)).
    destruct (IH (bitv_step crc32 h w (EvRun k (IoOk (S m0)))) (fl_at fl (FWriting wr1)) wr1)
      with (ios := ios) as (m & Hm & Hend).
    + apply bitv_step_inv; [done|done].
    + rewrite Hstep. simpl. by rewrite list_lookup_insert_eq by done.
    + done.
    + lia.
    + done.
    + done.
    + by injection Hlen.
    + done.
    + exists (S m). split; [lia|]. cbn [take fmap list_fmap]. rewrite <- Hd1. exact Hend.
Qed.

(** A flusher that waits with nothing to do stays so. *)
Lemma flusher_waits w k bv fl ios : bw_bitvs w !! k = Some (bv, fl) -> fl_pc fl = FRecv -> fl_queue fl = [] ->
  fl_closed fl = false -> run_bitv crc32 h w (EvRun k <$> ios) = w.
Proof.
  intros Hk Hpc Hq Hc. induction ios as [|io ios IH]; [done|]. unfold run_bitv in *. cbn [fmap list_fmap foldl].
  simpl bitv_step. rewrite Hk. unfold flusher_step. rewrite Hpc, Hq. simpl. rewrite Hc.
  rewrite list_insert_id by done. destruct w. exact IH.
Qed.

Lemma flush_reaches_disk w k bits fl ios : bitv_inv w -> bw_bitvs w !! k = Some (Some bits, fl) -> fl_pc fl = FRecv ->
  Forall (fun io => exists m, io = IoOk (S m)) ios -> (length bits + 12 <= length ios)%nat ->
  fs_read (bw_fs (run_bitv crc32 h w (EvFlush k :: (EvRun k <$> ios)))) (bitv_filename h)
    = Some (bitv_with_header crc32 bits).
Proof.
  intros Hinv Hk Hpc Hios Hlen. destruct ios as [|io ios]; [simpl in Hlen; lia|].
  apply Forall_cons in Hios as [_ Hios]. simpl in Hlen.
  pose proof (lookup_lt_Some _ _ _ Hk) as Hlt.
  destruct (bi_known w Hinv k bits fl Hk) as [_ Hc].
  set (w1 := bitv_step crc32 h w (EvFlush k)).
  assert (Hi1 : bitv_inv w1) by (by apply bitv_step_inv).
  assert (Hk1 : bw_bitvs w1 !! k = Some (Some bits, mkFlusher (fl_queue fl ++ [bits]) (fl_closed fl) FRecv)).
  { unfold w1. simpl. rewrite Hk. simpl. rewrite list_lookup_insert_eq by done. unfold send. by rewrite Hpc. }
  set (wr := mkWriter (flush_tmp h) (bitv_filename h) true (bitv_with_header crc32 bits) WOpen).
  set (w2 := bitv_step crc32 h w1 (EvRun k io)).
  assert (Hi2 : bitv_inv w2) by (by apply bitv_step_inv).
  assert (Hk2 : bw_bitvs w2 !! k = Some (Some bits, mkFlusher [] (fl_closed fl) (FWriting wr))).
  { unfold w2. simpl. rewrite Hk1. unfold flusher_step. cbn [fl_pc fl_queue fl_closed]. rewrite last_snoc. simpl.
    rewrite list_lookup_insert_eq; [done|]. by eapply lookup_lt_Some. }
  change (run_bitv crc32 h w (EvFlush k :: (EvRun k <$> io :: ios))) with (run_bitv crc32 h w2 (EvRun k <$> ios)).
  destruct (flusher_writes_out w2 k (Some bits) _ wr (length ios) Hi2 Hk2 eq_refl) with (ios := ios)
    as (m & Hm & Hk3 & Hr); [|done|done|done|done|].
  { unfold writer_left. cbn [w_pc w_data wr]. unfold bitv_with_header. rewrite !length_app. simpl. lia. }
  rewrite <- (take_drop m ios), fmap_app. unfold run_bitv in *. rewrite foldl_app.
  assert (Hstay := flusher_waits (foldl (bitv_step crc32 h) w2 (EvRun k <$> take m ios)) k (Some bits) _ (drop m ios) Hk3 eq_refl eq_refl Hc).
  unfold run_bitv in Hstay. rewrite Hstay. exact Hr.
Qed.
End spec.

Section theorems.
Context (crc32 : list Z -> Z) (crc32_u32 : forall l, is_u32 (crc32 l)) (h : Id).


(** A flushed bit field is read back: once [flush] was called and the
    flusher has made the calls it needs without an error of the system, a
    restart loads exactly the bits that were in memory. *)
Theorem bitv_flush_read_back known w k bits fl ios : bitv_inv crc32 h known w ->
  bw_bitvs w !! k = Some (Some bits, fl) -> fl_pc fl = FRecv ->
  Forall (fun io => exists m, io = IoOk (S m)) ios -> (length bits + 12 <= length ios)%nat ->
  json_load crc32 (bw_fs (run_bitv crc32 h w (EvFlush k :: (EvRun k <$> ios)))) h = Ok (Some bits).
Proof.
  intros Hinv Hk Hpc Hios Hlen. unfold json_load.
  by rewrite (disk_bitv_open_header crc32 crc32_u32 _ _ bits) by (by eapply flush_reaches_disk).
Qed.
End theorems.

(** [store_initial_check] alone, when the runtime has made the write before the
    file is renamed: if it succeeds it returns the bits it was given, and the
    file holds them; if it fails the file is as before. *)
Lemma json_store_spec crc32 io fs h b : (forall l, is_u32 (crc32 l)) -> fs_ok fs -> fs_pending fs = [] ->
  (forall k, io k <> IoLater) ->
  exists r fs', json_store_initial_check crc32 io fs h b = Done (r, fs') /\ fs_ok fs' /\ fs_pending fs' = [] /\
    match r with
    | Ok b' => b' = b /\ json_load crc32 fs' h = Ok (Some b)
    | Err _ => fs_read fs' (bitv_filename h) = fs_read fs (bitv_filename h)
    end /\ ((forall k, exists n, io k = IoOk (S n)) -> r = Ok b).
Proof.
  intros Hcrc Hok Hpe Hio. unfold json_store_initial_check.
  destruct (replace_file_spec io fs (init_tmp h) (bitv_filename h) false (bitv_with_header crc32 b) Hok)
    as (fs' & ok & -> & Hok' & _ & Hno & Hwr & Hp & Hall); [apply bitv_names_distinct|].
  specialize (Hp Hio). rewrite Hpe in Hp. rsimpl. destruct ok.
  - assert (Hr : fs_read fs' (bitv_filename h) = Some (bitv_with_header crc32 b)).
    { destruct Hwr as (i & Hi & Hw); [by intros i _; unfold pending_on; rewrite Hpe|done|]. unfold fs_read. rewrite Hi.
      simpl. f_equal. apply written_landed; [done|]. unfold pending_on. by rewrite Hp. }
    rewrite (disk_bitv_open_header crc32 Hcrc fs' _ b Hr). exists (Ok b), fs'. split_and!; [done|done|done|done| |done].
    unfold json_load. by rewrite (disk_bitv_open_header crc32 Hcrc fs' _ b Hr).
  - exists (Err BitvIo), fs'. split_and!; [done|done|done|by apply kept_read, Hno|]. intros H. by specialize (Hall H).
Qed.

(** ** Concrete runs

    A torrent of eight pieces; the checksum is the sum of the bytes. *)
Section example.
Definition sum_crc (l : list Z) : Z := wrap32 (sumZ l).

Lemma sum_crc_u32 l : is_u32 (sum_crc l).
Proof. apply wrap32_range. Qed.

Definition one_hash : Id := [171].
Definition stored_fs (p : list Z) : Fs :=
  mkFs {[bitv_filename one_hash := 0%nat]} {[0%nat := bitv_with_header sum_crc p]} ∅ [] [].

Lemma stored_fs_ever p a i : ever (stored_fs p) a i -> a = bitv_filename one_hash /\ i = 0%nat.
Proof.
  intros (n & ->%list_elem_of_singleton & Hn). cbn [stored_fs fs_names] in Hn. by apply lookup_singleton_Some in Hn as [<- <-].
Qed.

Lemma stored_fs_ok (known : list Z -> Prop) p : known p -> disk_ok sum_crc one_hash known (stored_fs p).
Proof.
  intros Hp. split; [split|intros i [_ ->]%stored_fs_ever|done].
  - intros a b i [-> _]%ever_now%stored_fs_ever [-> _]%ever_now%stored_fs_ever. done.
  - intros a i [_ ->]%stored_fs_ever. by eexists.
  - done.
  - split_and!; [by exists p|by apply not_elem_of_empty|done|]. by intros a [-> _]%ever_now%stored_fs_ever.
Qed.

Definition all_written : list BitvEvent := EvRun 0 <$> replicate 13 (IoOk 100).

(** The bits are loaded, a piece is added and flushed; the crash comes after
    four calls of the flusher, in the middle of the write. *)
Definition crash_run : list BitvEvent :=
  [EvLoad; EvModify 0 [129]; EvFlush 0; EvRun 0 (IoOk 1); EvRun 0 (IoOk 1); EvRun 0 (IoOk 5)].

Definition crash_fs : Fs := bw_fs (run_bitv sum_crc one_hash (mkBitvWorld (stored_fs [128]) [] None) crash_run).


Lemma bitv_flush_read_back_witness :
  json_load sum_crc (bw_fs (run_bitv sum_crc one_hash
    (mkBitvWorld (stored_fs [128]) [(Some [129], mkFlusher [] false FRecv)] None)
    (EvFlush 0 :: (EvRun 0 <$> replicate 13 (IoOk 100))))) one_hash = Ok (Some [129]).
Proof.
  apply (bitv_flush_read_back sum_crc sum_crc_u32 one_hash (fun _ => True) _ 0 [129] (mkFlusher [] false FRecv)).
  - pose proof (bitv_inv_spawn sum_crc one_hash (fun _ => True) (mkBitvWorld (stored_fs [128]) [] None) [129]) as Hs.
    apply Hs; [|by intros k bv fl Hk|done]. apply bitv_start. by apply stored_fs_ok.
  - reflexivity.
  - reflexivity.
  - apply Forall_replicate. by exists 99%nat.
  - simpl. lia.
Defined.

(** [store_initial_check] renames a file whose content may still be with the
    runtime.  The bit vector it then opens is empty, and so is the file a crash
    leaves, which is read as a bit field of the old format, not as corrupt. *)
Lemma initial_check_reads_empty_file :
  let w := run_bitv sum_crc one_hash (mkBitvWorld (stored_fs [255]) [] None)
    [EvStore [128]; EvStoreRun (IoOk 1); EvStoreRun IoLater; EvStoreRun (IoOk 1); EvStoreRun (IoOk 1)] in
  bw_store w = None /\ fst <$> bw_bitvs w !! 0%nat = Some (Some []) /\
  json_load sum_crc (bw_fs w) one_hash = Ok (Some []) /\
  json_load sum_crc (fs_land 0 (IoOk 100) (bw_fs w)) one_hash = Ok (Some [128]).
Proof. vm_compute. done. Qed.

(** The bit field that failed its validation comes back: [validate_fastresume]
    removes the file and drops the bit vector, whose flusher then writes the
    rejected bits again.  When that happens between the rename and the read of
    [store_initial_check], the torrent gets the rejected bits ([255], all
    pieces) instead of those the full check has found ([0], none). *)
Lemma rejected_bitfield_comes_back :
  let w := run_bitv sum_crc one_hash (mkBitvWorld (stored_fs [255]) [] None)
    ([EvLoad; EvClear; EvDrop 0; EvStore [0]] ++ replicate 4 (EvStoreRun (IoOk 100)) ++
     all_written ++ [EvStoreRun (IoOk 1)]) in
  bw_store w = None /\ fst <$> bw_bitvs w !! 1%nat = Some (Some [255]) /\
  json_load sum_crc (bw_fs w) one_hash = Ok (Some [255]).
Proof. vm_compute. done. Qed.

(** Two flushers of one torrent share their temporary file: when the second
    truncates it before the first renames it, the second's rename finds
    nothing, and it removes the bit field, although no call of the system has
    failed for a reason of its own. *)
Lemma second_flusher_removes_bitfield :
  let w := run_bitv sum_crc one_hash (mkBitvWorld (stored_fs [255]) [] None)
    ([EvLoad; EvDrop 0; EvStore [0]] ++ replicate 5 (EvStoreRun (IoOk 100)) ++
     [EvModify 1 [1]; EvFlush 1] ++
     replicate 4 (EvRun 0 (IoOk 100)) ++ replicate 2 (EvRun 1 (IoOk 100)) ++ replicate 1 (EvRun 0 (IoOk 100)) ++
     replicate 6 (EvRun 1 (IoOk 100))) in
  fst <$> bw_bitvs w !! 1%nat = Some (Some [1]) /\
  fl_pc ∘ snd <$> bw_bitvs w !! 1%nat = Some FDone /\
  fs_read (bw_fs w) (bitv_filename one_hash) = None.
Proof. vm_compute. done. Qed.
End example.
