(* ===== verification/JsonStore.v ===== *)
(** * JsonStore: the session database

    Models [crates/librtbit/src/session_persistence/json.rs]: the torrents of
    the session in memory, saved as one JSON file after every change, with the
    metainfo of each torrent in a file of its own; and the bit field factories
    of [bitv_factory.rs].  JSON comes from a crate and is an argument with the
    law that what was written is read back ([torrent_bytes] is skipped).  The
    write lock of [flush] makes saves follow each other, so an operation is one
    function; what the system answers is an argument, and the writes of
    [tokio] may still be pending when an operation returns ([AtomicWrite]). *)

From stdpp Require Import strings.
From S2P Require Import Prelude HashId BitBox Storage AtomicWrite Bitv.

Record SerializedTorrent := mkSerializedTorrent {
  st_info_hash : Id;
  st_torrent_bytes : list Z;
  st_trackers : gset string;
  st_output_folder : string;
  st_output_folder_root : option string;
  st_only_files : option (list nat);
  st_is_paused : bool;
  st_category : option string;
  st_added_on : option Z;
  st_completion_on : option Z;
}.

Record SessionSettings := mkSessionSettings {
  ss_output_folder : option string;
  ss_completed_folder : option string;
}.

(** [SerializedSessionDatabase]. *)
Record Database := mkDatabase {
  db_torrents : gmap nat SerializedTorrent;
  db_settings : SessionSettings;
}.

Definition default_db : Database := mkDatabase ∅ (mkSessionSettings None None).

(** [#[serde(skip)] torrent_bytes]. *)
Definition skip_bytes (t : SerializedTorrent) : SerializedTorrent :=
  mkSerializedTorrent (st_info_hash t) [] (st_trackers t) (st_output_folder t) (st_output_folder_root t)
    (st_only_files t) (st_is_paused t) (st_category t) (st_added_on t) (st_completion_on t).

Definition with_bytes (t : SerializedTorrent) (b : list Z) : SerializedTorrent :=
  mkSerializedTorrent (st_info_hash t) b (st_trackers t) (st_output_folder t) (st_output_folder_root t)
    (st_only_files t) (st_is_paused t) (st_category t) (st_added_on t) (st_completion_on t).

(** [serde_json] on the database: writing fails on a path that is no text. *)
Class Json (D : Type) := {
  to_json : D -> option (list Z);
  from_json : list Z -> option D;
}.

Class JsonDbLaws `{Json Database} :=
  json_read_back db data : to_json db = Some data ->
    from_json data = Some (mkDatabase (skip_bytes <$> db_torrents db) (db_settings db)).

(** What a torrent in the session shows to the store. *)
Record TorrentHandle := mkTorrentHandle {
  th_filesystem : bool;  (* its storage factory is [FilesystemStorageFactory] *)
  th_trackers : gset string;
  th_info_hash : Id;
  th_only_files : option (list nat);
  th_is_paused : bool;
  th_output_folder : string;
  th_output_folder_root : option string;
  th_category : option string;
  th_added_on : Z;
  th_completion_on : Z;
  th_metadata : option (list Z);  (* the torrent bytes, once known *)
}.

Inductive TorrentIdOrHash := TId (id : nat) | THash (h : Id).

Inductive StoreError := SNotFound | SUnsupportedStorage | SSerialize | SDeserialize | SIo.

Record JsonStore := mkJsonStore {
  js_fs : Fs;
  js_db : Database;
}.

Section store.
Context `{Json Database}.

Definition db_filename : string := "session.json".
Definition db_tmp_filename : string := "session.json.tmp".

(** [JsonSessionPersistenceStore::new]; [io] is the answer to opening and
    reading a file that exists. *)
Definition json_new (io : Io) (fs : Fs) : result StoreError JsonStore :=
  match fs_read fs db_filename, io with
  | Some buf, IoOk _ => db ←? ok_or (from_json buf) SDeserialize; Ok (mkJsonStore fs db)
  | Some _, _ => Err SIo
  | None, _ => Ok (mkJsonStore fs default_db)
  end.

Definition to_hash (s : JsonStore) (id : TorrentIdOrHash) : result StoreError Id :=
  match id with
  | TId id => ok_or (st_info_hash <$> db_torrents (js_db s) !! id) SNotFound
  | THash h => Ok h
  end.

(** The temporary file is opened before the database is serialized. *)
Definition flush (io : nat -> Io) (s : JsonStore) : outcome (result StoreError unit * JsonStore) :=
  match to_json (js_db s) with
  | None =>
      match io 0%nat with
      | IoOk _ => Done (Err SSerialize, mkJsonStore (fs_open_truncate (js_fs s) db_tmp_filename).2 (js_db s))
      | _ => Done (Err SIo, s)
      end
  | Some data =>
      r ←! replace_file io (js_fs s) db_tmp_filename db_filename false data;
      let '(fs, ok) := r in
      Done (if (ok : bool) then Ok tt else Err SIo, mkJsonStore fs (js_db s))
  end.

(** Writing in place: [open] with [truncate], then [write_all], which may return
    with bytes pending; errors are only logged, and leave what was written. *)
Fixpoint write_all (fuel : nat) (io : nat -> Io) (fs : Fs) (i pos : nat) (data : list Z) : Fs :=
  match data, fuel, io 0%nat with
  | [], _, _ | _, O, _ | _, _, IoErr | _, _, IoOk O => fs
  | _, _, IoLater => fs_leave fs i pos data
  | _, S fuel, IoOk n =>
      let n := Nat.min n (length data) in
      write_all fuel (fun k => io (S k)) (fs_write fs i pos (take n data)) i (pos + n) (drop n data)
  end.

Definition write_in_place (io : nat -> Io) (fs : Fs) (name : string) (data : list Z) : Fs :=
  match io 0%nat with
  | IoOk _ =>
      let '(i, fs) := fs_open_truncate fs name in
      write_all (length data) (fun k => io (S k)) fs i 0 data
  | _ => fs
  end.

Definition serialize_handle (t : TorrentHandle) : SerializedTorrent := {|
  st_info_hash := th_info_hash t;
  st_torrent_bytes := [];
  st_trackers := th_trackers t;
  st_output_folder := th_output_folder t;
  st_output_folder_root := th_output_folder_root t;
  st_only_files := th_only_files t;
  st_is_paused := th_is_paused t;
  st_category := th_category t;
  st_added_on := Some (th_added_on t);
  st_completion_on := if th_completion_on t =? 0 then None else Some (th_completion_on t);
|}.

Definition update_db (io_bytes io : nat -> Io) (s : JsonStore) (id : nat) (t : TorrentHandle)
    (write_torrent_file : bool) : outcome (result StoreError unit * JsonStore) :=
  if negb (th_filesystem t) then Done (Err SUnsupportedStorage, s)
  else
    let torrent_bytes := default [] (th_metadata t) in
    let fs :=
      if write_torrent_file && negb (bool_decide (torrent_bytes = []))
      then write_in_place io_bytes (js_fs s) (torrent_bytes_filename (th_info_hash t)) torrent_bytes
      else js_fs s in
    flush io (mkJsonStore fs
      (mkDatabase (<[id := serialize_handle t]> (db_torrents (js_db s))) (db_settings (js_db s)))).

Definition store (io_bytes io : nat -> Io) (s : JsonStore) (id : nat) (t : TorrentHandle) := update_db io_bytes io s id t true.
Definition update_metadata (io_bytes io : nat -> Io) (s : JsonStore) (id : nat) (t : TorrentHandle) := update_db io_bytes io s id t false.

(** [keys().max().map(|max| max + 1).unwrap_or(0)]. *)
Definition next_id (s : JsonStore) : Z :=
  match (map_to_list (db_torrents (js_db s))).*1 with
  | [] => 0
  | k :: ks => wrap64 (Z.of_nat (foldl Nat.max k ks) + 1)
  end.

Definition delete_torrent (io_rm : string -> Io) (io : nat -> Io) (s : JsonStore) (id : nat) :
    outcome (result StoreError unit * JsonStore) :=
  match db_torrents (js_db s) !! id with
  | None => Done (Err SNotFound, s)
  | Some t =>
      r ←! flush io (mkJsonStore (js_fs s)
             (mkDatabase (delete id (db_torrents (js_db s))) (db_settings (js_db s))));
      let '(r, s) := r in
      match r with
      | Err e => Done (Err e, s)
      | Ok _ =>
          let fs := foldl (fun fs tf => match io_rm tf with IoOk _ => remove_ignore fs tf | _ => fs end)
            (js_fs s) [torrent_bytes_filename (st_info_hash t); bitv_filename (st_info_hash t)] in
          Done (Ok tt, mkJsonStore fs (js_db s))
      end
  end.

(** A torrent whose bytes cannot be read comes without them. *)
Definition get (io : Io) (s : JsonStore) (id : nat) : result StoreError SerializedTorrent :=
  st ←? ok_or (db_torrents (js_db s) !! id) SNotFound;
  match fs_read (js_fs s) (torrent_bytes_filename (st_info_hash st)), io with
  | Some buf, IoOk _ => Ok (with_bytes st buf)
  | _, _ => Ok st
  end.

(** The ids are those at the start; their order is that of the hash map. *)
Definition stream_all (order : list nat -> list nat) (io : Io) (s : JsonStore) :
    list (result StoreError (nat * SerializedTorrent)) :=
  (fun id => st ←? get io s id; Ok (id, st)) <$> order (map_to_list (db_torrents (js_db s))).*1.

Definition load_session_settings (s : JsonStore) : SessionSettings := db_settings (js_db s).

Definition store_session_settings (io : nat -> Io) (s : JsonStore) (settings : SessionSettings) :=
  flush io (mkJsonStore (js_fs s) (mkDatabase (db_torrents (js_db s)) settings)).
End store.

(** ** Categories *)
Section categories.
Context {Cats : Type} `{Json Cats} (no_cats : Cats).

Definition categories_filename : string := "categories.json".
Definition categories_tmp_filename : string := "categories.json.tmp".

Definition load_categories (io : Io) (fs : Fs) : result StoreError Cats :=
  match fs_read fs categories_filename, io with
  | Some buf, IoOk _ => ok_or (from_json buf) SDeserialize
  | Some _, _ => Err SIo
  | None, _ => Ok no_cats
  end.

Definition store_categories (io : nat -> Io) (fs : Fs) (categories : Cats) : outcome (result StoreError unit * Fs) :=
  match to_json categories with
  | None =>
      match io 0%nat with
      | IoOk _ => Done (Err SSerialize, (fs_open_truncate fs categories_tmp_filename).2)
      | _ => Done (Err SIo, fs)
      end
  | Some data =>
      r ←! replace_file io fs categories_tmp_filename categories_filename false data;
      let '(fs, ok) := r in
      Done (if (ok : bool) then Ok tt else Err SIo, fs)
  end.
End categories.

(** ** Bit field factories *)

(** The trait [BitVFactory], on bit fields as bytes. *)
Class BitVFactory (F : Type) := {
  bf_load : F -> TorrentIdOrHash -> result BitvError (option (list Z));
  bf_clear : F -> TorrentIdOrHash -> result BitvError unit * F;
  bf_store_initial_check : F -> TorrentIdOrHash -> list Z -> outcome (result BitvError (list Z) * F);
}.

(** What the initial check relies on: a bit field is stored as it is. *)
Class BitVFactoryLaws (F : Type) `{BitVFactory F} := {
  bf_ok : F -> Prop;
  bf_clear_ok f id : bf_ok f -> bf_ok (bf_clear f id).2;
  bf_stored f id b : bf_ok f -> exists r f', bf_store_initial_check f id b = Done (r, f') /\ bf_ok f' /\
    forall b', r = Ok b' -> b' = b;
}.

#[export] Instance NonPersistentBitVFactory : BitVFactory unit := {
  bf_load _ _ := Ok None;
  bf_clear _ _ := (Ok tt, tt);
  bf_store_initial_check _ _ b := Done (Ok b, tt);
}.

#[export] Program Instance NonPersistent_laws : BitVFactoryLaws unit := { bf_ok _ := True }.
Next Obligation. done. Qed.
Next Obligation. intros [] id b _. exists (Ok b), tt. simpl. split_and!; [done|done|]. by intros b' [= ->]. Qed.

Section json_factory.
Context `{Json Database} (crc32 : list Z -> Z) (crc32_u32 : forall l, is_u32 (crc32 l)) (io : nat -> Io).

Definition json_bf_load (s : JsonStore) (id : TorrentIdOrHash) : result BitvError (option (list Z)) :=
  match to_hash s id with Err _ => Err BitvNoTorrent | Ok h => json_load crc32 (js_fs s) h end.

Definition json_bf_clear (s : JsonStore) (id : TorrentIdOrHash) : result BitvError unit * JsonStore :=
  match to_hash s id with
  | Err _ => (Err BitvNoTorrent, s)
  | Ok h => let '(r, fs) := json_clear (js_fs s) h in (r, mkJsonStore fs (js_db s))
  end.

Definition json_bf_store (s : JsonStore) (id : TorrentIdOrHash) (b : list Z) :
    outcome (result BitvError (list Z) * JsonStore) :=
  match to_hash s id with
  | Err _ => Done (Err BitvNoTorrent, s)
  | Ok h =>
      r ←! json_store_initial_check crc32 io (js_fs s) h b;
      let '(r, fs) := r in Done (r, mkJsonStore fs (js_db s))
  end.

#[local] Instance JsonBitVFactory : BitVFactory JsonStore := {
  bf_load := json_bf_load;
  bf_clear := json_bf_clear;
  bf_store_initial_check := json_bf_store;
}.

(** The JSON store keeps the promise of the trait while no flusher of an
    earlier bit vector is at work and the runtime makes its writes before the
    file is renamed and read back. *)
Hypothesis prompt : forall k, io k <> IoLater.

#[local] Program Instance JsonBitVFactory_laws : BitVFactoryLaws JsonStore := {
  bf_ok s := fs_ok (js_fs s) /\ fs_pending (js_fs s) = []
}.
Next Obligation.
  intros s id [Hok Hp]. cbn [bf_clear JsonBitVFactory]. unfold json_bf_clear. destruct (to_hash s id) as [h|e]; [|done].
  unfold json_clear. destruct (fs_remove (js_fs s) (bitv_filename h)) eqn:Hr; [|done].
  apply fs_remove_spec in Hr as (? & _ & Hp' & _); [|done]. split; [done|]. cbn. congruence.
Qed.
Next Obligation.
  intros s id b [Hok Hp]. cbn [bf_store_initial_check JsonBitVFactory]. unfold json_bf_store.
  destruct (to_hash s id) as [h|e]; [|by exists (Err BitvNoTorrent), s; split_and!].
  destruct (json_store_spec crc32 io (js_fs s) h b crc32_u32 Hok Hp prompt) as (r & fs' & -> & Hok' & Hp' & Hr & _). rsimpl.
  exists r, (mkJsonStore fs' (js_db s)). split_and!; [done|done|done|]. intros b' ->. by destruct Hr.
Qed.
End json_factory.

(** ** What the database promises *)

Lemma debug_id_length h : String.length (debug_id h) = (2 * length h)%nat.
Proof. induction h as [|b h IH]; [done|]. simpl. rewrite IH. lia. Qed.

Lemma torrent_filename_other h name : length h = 20%nat -> (String.length name < 48)%nat -> torrent_bytes_filename h <> name.
Proof.
  intros Hh Hn <-. unfold torrent_bytes_filename in Hn. rewrite string_app_length, debug_id_length, Hh in Hn. simpl in Hn. lia.
Qed.

(** The calls of [write_all] on the file [i] of [name], with [done] written:
    when none fails everything is in the file or pending. *)
Lemma write_all_spec fuel : forall io fs i data rest name, fs_ok fs -> fs_names fs !! name = Some i ->
  pending_on fs i = [] -> data = inode_data fs i ++ rest -> (length rest <= fuel)%nat ->
  let fs' := write_all fuel io fs i (length (inode_data fs i)) rest in
  fs_ok fs' /\ fs_names fs' !! name = Some i /\ (forall other, other <> name -> kept fs fs' other) /\
  ((forall k, io k <> IoErr /\ io k <> IoOk 0) -> written fs' i data).
Proof.
  induction fuel as [|fuel IH]; intros io fs i data rest name Hok Hn Hpe Hdata Hlen.
  { destruct rest; [|simpl in Hlen; lia]. simpl. split_and!; [done|done|intros; apply kept_refl|]. intros _.
    exists (length data). rewrite Hdata, app_nil_r, drop_all, firstn_all. by split_and!. }
  destruct rest as [|b rest].
  { simpl. split_and!; [done|done|intros; apply kept_refl|]. intros _.
    exists (length data). rewrite Hdata, app_nil_r, drop_all, firstn_all. by split_and!. }
  cbn [write_all]. destruct (io 0%nat) as [[|n]| |] eqn:Hio;
    try (split_and!; [done|done|intros; apply kept_refl|]; intros Hall; by destruct (Hall 0%nat)).
  - set (m := Nat.min (S n) (length (b :: rest))). set (rest1 := b :: rest) in *.
    assert (Hm : (1 <= m <= length rest1)%nat) by (unfold m, rest1; cbn [length]; lia).
    set (fs1 := fs_write fs i (length (inode_data fs i)) (take m rest1)).
    assert (Hok1 : fs_ok fs1) by (apply set_inode_ok; [done|by right]).
    assert (Hd1 : inode_data fs1 i = inode_data fs i ++ take m rest1).
    { unfold fs1, fs_write. rewrite inode_data_set, decide_True by done. apply splice_end. }
    assert (Hl1 : (length (inode_data fs i) + m)%nat = length (inode_data fs1 i)).
    { rewrite Hd1, length_app, length_take. lia. }
    destruct (IH (fun k => io (S k)) fs1 i data (drop m rest1) name) as (Ha & Hb & Hc & Hw); [done|done|done| | |].
    + by rewrite Hd1, <- app_assoc, take_drop.
    + rewrite length_drop. lia.
    + rewrite Hl1. split_and!; [done|done| |].
      * intros other Hne. eapply kept_trans; [|by apply Hc]. by eapply fs_read_set_other.
      * intros Hall. apply Hw. intros k. apply Hall.
  - destruct (fs_leave_spec fs name i (length (inode_data fs i)) (b :: rest) Hok Hn) as (Ha & Hc & _).
    split_and!; [done|done|done|]. intros _. exists (length (inode_data fs i)). rewrite Hdata.
    rewrite drop_app_length, take_app_length, length_app, pending_on_leave, Hpe, decide_True by done.
    split_and!; [lia|done|done].
Qed.

Lemma write_in_place_spec io fs name data : fs_ok fs -> settled_name fs name ->
  let fs' := write_in_place io fs name data in
  fs_ok fs' /\ (forall other, other <> name -> kept fs fs' other) /\
  ((exists n, io 0%nat = IoOk n) -> (forall k, io (S k) <> IoErr /\ io (S k) <> IoOk 0) ->
   exists i, fs_names fs' !! name = Some i /\ written fs' i data).
Proof.
  intros Hok Hset. unfold write_in_place. cbn zeta.
  destruct (io 0%nat) as [n| |]; [|by split; [done|split; [intros; apply kept_refl|intros []]]..].
  destruct (fs_open_truncate fs name) as [i fs1] eqn:Ho.
  apply fs_open_truncate_spec in Ho as (Hok1 & Hn1 & Hd1 & Hoth & Hp1 & Hi & _); [|done].
  assert (Hpe : pending_on fs1 i = []).
  { unfold pending_on in *. rewrite Hp1. destruct Hi as [Hi|Hi]; [by apply Hset|done]. }
  pose proof (write_all_spec (length data) (fun k => io (S k)) fs1 i data data name Hok1 Hn1 Hpe) as Hw.
  rewrite Hd1 in Hw. destruct (Hw eq_refl ltac:(lia)) as (Ha & Hb & Hc & Hwr). split_and!; [done| |].
  - intros other Hne. eapply kept_trans; [by apply Hoth|by apply Hc].
  - intros _ Hall. exists i. split; [done|by apply Hwr].
Qed.

(** The threads of the runtime have made all pending writes, without an error,
    in some order. *)
Definition land_step (fs fs' : Fs) : Prop := exists k n, fs' = fs_land k (IoOk (S n)) fs.
Definition landed (fs fs' : Fs) : Prop := rtc land_step fs fs' /\ fs_pending fs' = [].

Lemma landed_read fs fs' name i data : landed fs fs' -> fs_names fs !! name = Some i -> written fs i data ->
  fs_read fs' name = Some data.
Proof.
  intros [Hs Hp] Hn Hw.
  assert (fs_names fs' !! name = Some i /\ written fs' i data) as [Hn' Hw'].
  { clear Hp. induction Hs as [fs|fs fs1 fs' (k & n & ->) _ IH]; [done|]. apply IH; [|by apply fs_land_written].
    by destruct (fs_land_names k (IoOk (S n)) fs) as [-> _]. }
  unfold fs_read. rewrite Hn'. simpl. f_equal. apply written_landed; [done|]. unfold pending_on. by rewrite Hp.
Qed.

Section database.
Context `{JsonDbLaws}.

(** A save that answers [Ok] has put the database in its file, or left the
    rest of it to the runtime. *)
Lemma flush_spec io s data : fs_ok (js_fs s) -> to_json (js_db s) = Some data ->
  exists r s', flush io s = Done (r, s') /\ fs_ok (js_fs s') /\ js_db s' = js_db s /\
    (forall other, other <> db_tmp_filename -> other <> db_filename -> kept (js_fs s) (js_fs s') other) /\
    (r = Ok tt -> settled_name (js_fs s) db_tmp_filename ->
     exists i, fs_names (js_fs s') !! db_filename = Some i /\ written (js_fs s') i data) /\
    (r <> Ok tt -> kept (js_fs s) (js_fs s') db_filename) /\
    ((forall k, exists n, io k = IoOk (S n)) -> r = Ok tt).
Proof.
  intros Hok Hj. unfold flush. rewrite Hj.
  destruct (replace_file_spec io (js_fs s) db_tmp_filename db_filename false data Hok)
    as (fs' & ok & -> & Hok' & Hoth & Hno & Hwr & _ & Hall); [done|].
  rsimpl. destruct ok.
  - exists (Ok tt), (mkJsonStore fs' (js_db s)). cbn [js_fs js_db]. split_and!; try done. intros _ Hset. by apply Hwr.
  - exists (Err SIo), (mkJsonStore fs' (js_db s)). cbn [js_fs js_db]. split_and!; try done; [by intros _; apply Hno|].
    intros Hio. by specialize (Hall Hio).
Qed.

Lemma json_new_after fs db data : to_json db = Some data -> fs_read fs db_filename = Some data ->
  json_new (IoOk 0) fs = Ok (mkJsonStore fs (mkDatabase (skip_bytes <$> db_torrents db) (db_settings db))).
Proof. intros Hj Hr. unfold json_new. rewrite Hr, (json_read_back db data Hj). done. Qed.

(** The database a restart finds after [id] was stored. *)
Definition after_store (s : JsonStore) (id : nat) (t : TorrentHandle) : Database :=
  mkDatabase (<[id := serialize_handle t]> (db_torrents (js_db s))) (db_settings (js_db s)).

(** [store] answers; when it answers [Ok], the database is in its file or
    pending, and so is the metainfo if no call for its file failed. *)
Lemma store_spec io_bytes io s id t bytes data : fs_ok (js_fs s) -> fs_pending (js_fs s) = [] ->
  th_filesystem t = true -> length (th_info_hash t) = 20%nat -> th_metadata t = Some bytes -> bytes <> [] ->
  to_json (after_store s id t) = Some data ->
  exists r s', store io_bytes io s id t = Done (r, s') /\
    ((forall k, exists n, io k = IoOk (S n)) -> r = Ok tt) /\
    (r = Ok tt ->
     (exists i, fs_names (js_fs s') !! db_filename = Some i /\ written (js_fs s') i data) /\
     ((exists n, io_bytes 0%nat = IoOk n) -> (forall k, io_bytes (S k) <> IoErr /\ io_bytes (S k) <> IoOk 0) ->
      exists i, fs_names (js_fs s') !! torrent_bytes_filename (th_info_hash t) = Some i /\ written (js_fs s') i bytes)).
Proof.
  intros Hok Hp Hfsy Hh Hmd Hne Hj. unfold store, update_db. rewrite Hfsy, Hmd. cbn [negb default].
  change (Datatypes.id bytes) with bytes. rewrite bool_decide_false by done. cbn [andb negb]. fold (after_store s id t).
  set (name := torrent_bytes_filename (th_info_hash t)).
  assert (Hset : forall fs n, fs_pending fs = [] -> settled_name fs n).
  { intros fs n Hnil i _. unfold pending_on. by rewrite Hnil. }
  assert (Hname : forall other, (String.length other < 48)%nat -> name <> other) by (intros; by apply torrent_filename_other).
  destruct (write_in_place_spec io_bytes (js_fs s) name bytes Hok (Hset _ _ Hp)) as (Hok1 & Hk1 & Hw1).
  set (fs1 := write_in_place io_bytes (js_fs s) name bytes) in *.
  destruct (flush_spec io (mkJsonStore fs1 (after_store s id t)) data Hok1 Hj) as (r & s' & -> & Hok' & _ & Hoth & Hwr & _ & Hall).
  exists r, s'. split_and!; [done|done|]. intros Hr. split.
  - apply Hwr; [done|]. eapply kept_settled; [apply Hk1, not_eq_sym, Hname; simpl; lia|by apply Hset].
  - intros Hopen Hcalls. destruct (Hw1 Hopen Hcalls) as (i & Hi & Hw). cbn [js_fs] in Hoth.
    destruct (Hoth name) as [Hn Hsame]; [apply Hname; simpl; lia..|]. exists i.
    split; [by rewrite Hn|]. eapply written_same; [by apply Hsame|done].
Qed.


(** The id for a new torrent is not in use (short of 2^64 ids). *)
Lemma next_id_fresh s id : (forall k, is_Some (db_torrents (js_db s) !! k) -> Z.of_nat k + 1 < U64) ->
  Z.of_nat id = next_id s -> db_torrents (js_db s) !! id = None.
Proof.
  intros Hb Hid. destruct (db_torrents (js_db s) !! id) as [t|] eqn:Ht; [|done]. exfalso.
  assert (Hin : id ∈ (map_to_list (db_torrents (js_db s))).*1).
  { apply list_elem_of_fmap. exists (id, t). split; [done|]. by apply elem_of_map_to_list. }
  unfold next_id in Hid.
  assert (Hkeys : forall k, k ∈ (map_to_list (db_torrents (js_db s))).*1 -> Z.of_nat k + 1 < U64).
  { intros k ((k' & t') & -> & Hk)%list_elem_of_fmap. apply Hb. apply elem_of_map_to_list in Hk. by eexists. }
  destruct ((map_to_list (db_torrents (js_db s))).*1) as [|k ks]; [by apply not_elem_of_nil in Hin|].
  assert (Hmax : forall l a, (a <= foldl Nat.max a l)%nat /\ (forall x, x ∈ l -> (x <= foldl Nat.max a l)%nat) /\
    (foldl Nat.max a l = a \/ foldl Nat.max a l ∈ l)).
  { induction l as [|x l IH]; intros a; simpl; [split_and!; [lia|by intros x ?%not_elem_of_nil|by left]|].
    destruct (IH (Nat.max a x)) as (H1 & H2 & H3). split_and!; [lia| |].
    - intros y [->|Hy]%elem_of_cons; [lia|auto].
    - destruct H3 as [H3|H3]; [|right; by right]. rewrite H3.
      destruct (Nat.max_spec a x) as [[_ ->]|[_ ->]]; [right; left|by left]. }
  destruct (Hmax ks k) as (H1 & H2 & H3).
  assert (Hbound : Z.of_nat (foldl Nat.max k ks) + 1 < U64).
  { destruct H3 as [-> |H3]; apply Hkeys; [by left|by right]. }
  rewrite wrap64_small in Hid by lia.
  apply elem_of_cons in Hin as [-> |Hin]; [lia|]. specialize (H2 id Hin). lia.
Qed.
End database.

(** ** A concrete store *)
Section example.
#[local] Instance SerializedTorrent_eq_dec : EqDecision SerializedTorrent.
Proof. solve_decision. Defined.
#[local] Instance SessionSettings_eq_dec : EqDecision SessionSettings.
Proof. solve_decision. Defined.
#[local] Instance Database_eq_dec : EqDecision Database.
Proof. solve_decision. Defined.

Definition twenty (b : Z) : Id := replicate 20 b.

Definition ex_handle : TorrentHandle :=
  mkTorrentHandle true {["udp://t"]} (twenty 7) (Some [0%nat]) true "/d" None None 5 0 (Some [100; 101]).

Definition ex_store : JsonStore := mkJsonStore (mkFs ∅ ∅ ∅ [] []) default_db.
Definition ex_db : Database := after_store ex_store 3 ex_handle.

(** Two databases are written, each as its number. *)
#[local] Instance table_json : Json Database := {
  to_json db := if decide (db = default_db) then Some [0] else if decide (db = ex_db) then Some [1] else None;
  from_json data := match data with [0] => Some default_db | [1] => Some ex_db | _ => None end;
}.

#[local] Instance table_json_laws : JsonDbLaws.
Proof.
  intros db data. cbn [to_json from_json table_json]. destruct (decide (db = default_db)) as [->|_].
  { intros [= <-]. vm_compute. reflexivity. }
  destruct (decide (db = ex_db)) as [->|_]; [|done]. intros [= <-]. vm_compute. reflexivity.
Qed.

Lemma empty_fs_ok : fs_ok (mkFs ∅ ∅ ∅ [] []).
Proof.
  split; [intros a b i; simpl; by rewrite lookup_empty| |done].
  intros a i (n & ->%list_elem_of_singleton & Hn). cbn in Hn. by rewrite lookup_empty in Hn.
Qed.

(** The write of the metainfo is pending when [store] returns, and is made in
    two calls. *)
Definition ex_io_bytes (k : nat) : Io := match k with O => IoOk 1 | _ => IoLater end.

Definition ex_stored : Fs :=
  match store ex_io_bytes (fun _ => IoOk 1) ex_store 3 ex_handle with Done (_, s) => js_fs s | Panic => js_fs ex_store end.


(** A write of the metainfo that fails is only logged: [store] answers [Ok], and
    the torrent comes back with an empty metainfo. *)
Lemma failed_metainfo_write_is_ok :
  let io_bytes k := match k with O => IoOk 1 | _ => IoErr end in
  match store io_bytes (fun _ => IoOk 1) ex_store 3 ex_handle with
  | Done (Ok _, s) => fs_pending (js_fs s) = [] /\ st_torrent_bytes <$> (match get (IoOk 0) s 3 with Ok st => Some st | Err _ => None end) = Some []
  | _ => False
  end.
Proof. vm_compute. done. Qed.

(** A save renames a file whose content may still be with the runtime: a process
    that dies then leaves an empty database, and the session cannot start. *)
Lemma unflushed_save_is_torn :
  let io k := match k with 1%nat => IoLater | _ => IoOk 1 end in
  match flush io ex_store with
  | Done (Ok _, s) => fs_read (js_fs s) db_filename = Some [] /\ json_new (IoOk 0) (js_fs s) = Err SDeserialize
  | _ => False
  end.
Proof. vm_compute. done. Qed.
End example.
