(* ===== verification/Initializing.v ===== *)
(** * Initializing: finding out which pieces are on disk

    Models [crates/librtbit/src/torrent_state/initializing.rs]: the bit field
    of an earlier session is taken when it passes [validate_fastresume],
    otherwise everything is hashed; the chunk tracker is built from the result
    and the selected files, the files get their lengths, and the torrent goes
    to the paused state with the storage.  Over any storage, hash, bit vector
    and bit field factory; the shuffle, the coins, the moments of cancellation
    are arguments.  [checked_bytes] (progress for display) is left out. *)

From stdpp Require Import strings.
From S2P Require Import Prelude Lengths BitBox FileInfo Storage FileOps Bitv HashId JsonStore.
From S2P Require ChunkTracker.
Import ChunkTracker (ChunkTracker).

(** The operations of a storage the end of the check uses. *)
Class StorageSetup (S : Type) := {
  ensure_file_length : S -> nat -> Z -> result StorageError unit * S;
  take_storage : S -> result StorageError S;
}.

Class StorageSetupLaws (S : Type) `{StorageLaws S} `{StorageSetup S} := {
  (** Setting a length keeps the bytes below it, and the other files. *)
  ensure_kept s f n r s' : ensure_file_length s f n = (r, s') ->
    (forall g, opened s' g = opened s g) /\
    forall g p b, (g = f -> p < n) -> byte_at s g p = Some b -> byte_at s' g p = Some b;
  (** The storage that is taken has the files. *)
  take_same s s' : take_storage s = Ok s' ->
    (forall g, opened s' g = opened s g) /\ forall g p, byte_at s' g p = byte_at s g p;
}.

Inductive InitError :=
| SessionDead
| LoadError (e : BitvError)
| ValidationCancelled
| CheckError (e : FileOpsError)
| StoreCheckError (e : BitvError)
| TrackerError (e : ChunkTracker.CtError)
| TakeError (e : StorageError).

Definition map_err {E E' A} (f : E -> E') (r : result E A) : result E' A :=
  match r with Ok a => Ok a | Err e => Err (f e) end.

Section initializing.
Context {St : Type} {TS : TorrentStorage St} {SS : StorageSetup St}.
Context {Hs : Type} `{ISha1 Hs}.
Context {B : Type} `{BitRaw B}.
Context {F : Type} `{BitVFactory F}.

(** [TorrentStateInitializing] with what it reads of the metadata and of the
    session. *)
Record TorrentStateInitializing := mkInitializing {
  in_files : St;
  in_lengths : Lengths;
  in_pieces : option (list Z);
  in_file_infos : list FileInfo;
  in_only_files : option (list nat);
  in_previously_errored : bool;
  in_id : nat;
  in_info_hash : Id;
  (** [session.fastresume_validation_denom], [None] for a dead session. *)
  in_session : option (option Z);
}.

Record TorrentStatePaused := mkPaused {
  p_files : St;
  p_chunk_tracker : ChunkTracker B;
}.

Variable self : TorrentStateInitializing.
(** The order of [shuffle], the coin for the [n]-th piece with its denominator,
    whether the token is cancelled when a piece is reached. *)
Variables (shuffle : list Z -> list Z) (random_ratio : nat -> Z -> bool) (cancelled : Z -> bool).

Abbreviation lengths := (in_lengths self).
Abbreviation check_piece := (check_piece lengths (in_pieces self) (in_file_infos self)).

(** The first piece of a file we claim to have. *)
Definition first_claimed (hp : B) (fi : FileInfo) : option Z :=
  let '(s, e) := piece_range_usize fi in
  r ← bit_get_range hp s e;
  Z.add s ∘ Z.of_nat ∘ fst <$> list_find (fun b => b = true) r.

(** One piece of each file goes from the queue to those to validate. *)
Definition pick_one_per_file (hp : B) (st : B * B) (fi : FileInfo) : outcome (B * B) :=
  let '(to_validate, queue) := st in
  match first_claimed hp fi with
  | None => Done (to_validate, queue)
  | Some piece_id =>
      to_validate ←! bit_set_checked to_validate piece_id true;
      queue ←! bit_set_checked queue piece_id false;
      Done (to_validate, queue)
  end.

(** The denominator cap: the session's, or 50. *)
Definition max_denom : Z := match in_session self with Some (Some cap) => cap | _ => 50 end.

Definition pick_random (to_validate : B) (q : nat * Z) : outcome B :=
  let '(tmp_id, piece_id) := q in
  let denom := Z.min (Z.of_nat tmp_id + 1) max_denom in
  if random_ratio tmp_id denom then bit_set_checked to_validate piece_id true else Done to_validate.

(** The pieces to validate, as [validate_fastresume] draws them. *)
Definition choose_pieces (hp : B) : outcome (list Z) :=
  let to_validate := zeroed_bytes (Z.to_nat (piece_bitfield_bytes lengths)) in
  st ←! for_each (pick_one_per_file hp) (to_validate, hp) (in_file_infos self);
  let '(to_validate, queue) := st in
  to_validate ←!
    (if 0 <? max_denom then
       let queue := shuffle (bit_iter_ones queue) in
       for_each pick_random to_validate (zip (seq 0 (length queue)) queue)
     else Done to_validate);
  Done (omap (fun id => id ← try_into_u32 id; validate_piece_index lengths id) (bit_iter_ones to_validate)).

(** [Ok(true)]: the data is corrupted. *)
Fixpoint check_chosen (ps : list Z) : outcome (result InitError bool) :=
  match ps with
  | [] => Done (Ok false)
  | piece_id :: ps =>
      if cancelled piece_id then Done (Err ValidationCancelled)
      else
        match check_piece (in_files self) piece_id with
        | Panic => Panic
        | Done (Err _) => Done (Ok true)
        | Done (Ok _) => check_chosen ps
        end
  end.

Definition validate_fastresume (f : F) (have_pieces : option B) : outcome (result InitError (option B) * F) :=
  match have_pieces with
  | None => Done (Ok None, f)
  | Some hp =>
      if negb (Z.of_nat (length (as_bytes hp)) =? piece_bitfield_bytes lengths) then Done (Ok None, f)
      else
        ps ←! choose_pieces hp;
        is_broken ←! check_chosen ps;
        match is_broken with
        | Err e => Done (Err e, f)
        | Ok true => Done (Ok None, (bf_clear f (TId (in_id self))).2)
        | Ok false => Done (Ok (Some hp), f)
        end
  end.

Definition selects (idx : Z) : bool :=
  match in_only_files self with None => true | Some o => existsb (fun k => Z.of_nat k =? idx) o end.

(** The errors of [ensure_file_length] are only logged. *)
Definition ensure_lengths (files : St) : St :=
  foldl (fun files '(idx, fi) =>
      if negb (selects idx) || padding (fi_attrs fi) then files
      else (ensure_file_length files (Z.to_nat idx) (fi_len fi)).2)
    files (ChunkTracker.enumerate (in_file_infos self)).

(** The bit field to go on with: a valid earlier one, or that of a full check. *)
Definition have_pieces_or_check (f : F) (have_pieces : option B) : outcome (result InitError B * F) :=
  match have_pieces with
  | Some h => Done (Ok h, f)
  | None =>
      r ←! initial_check (B := B) lengths (in_pieces self) (in_file_infos self) (in_files self) cancelled;
      match r with
      | Err e => Done (Err (CheckError e), f)
      | Ok have_pieces =>
          r ←! bf_store_initial_check f (THash (in_info_hash self)) (as_bytes have_pieces);
          let '(r, f) := r in Done (from_bytes ←? map_err StoreCheckError r; Ok (from_vec from_bytes), f)
      end
  end.

Definition finish_check (have_pieces : B) : outcome (result InitError TorrentStatePaused) :=
  let selected_pieces := ChunkTracker.compute_selected_pieces lengths selects (in_file_infos self) in
  ct ←! ChunkTracker.new have_pieces selected_pieces lengths (in_file_infos self);
  Done (chunk_tracker ←? map_err TrackerError ct;
        files ←? map_err TakeError (take_storage (ensure_lengths (in_files self)));
        Ok (mkPaused files chunk_tracker)).

Definition check (f : F) : outcome (result InitError TorrentStatePaused * F) :=
  match in_session self with
  | None => Done (Err SessionDead, f)
  | Some _ =>
      let '(have_pieces, f) :=
        if in_previously_errored self then (Ok None, (bf_clear f (THash (in_info_hash self))).2)
        else (map_err LoadError (bf_load f (THash (in_info_hash self))), f) in
      match have_pieces with
      | Err e => Done (Err e, f)
      | Ok have_pieces =>
          r ←! validate_fastresume f (from_vec <$> have_pieces);
          let '(have_pieces, f) := r in
          match have_pieces with
          | Err e => Done (Err e, f)
          | Ok have_pieces =>
              r ←! have_pieces_or_check f have_pieces;
              let '(have_pieces, f) := r in
              match have_pieces with
              | Err e => Done (Err e, f)
              | Ok have_pieces => r ←! finish_check have_pieces; Done (r, f)
              end
          end
      end
  end.
End initializing.

Arguments TorrentStateInitializing : clear implicits.
Arguments TorrentStatePaused : clear implicits.

(** ** What is validated *)
Section choice.
Context {St : Type} `{StorageLaws St}.
Context {Hs : Type} `{Sha1Laws Hs}.
Context {B : Type} `{BitRaw B}.
Variable self : TorrentStateInitializing St.
Variables (shuffle : list Z -> list Z) (random_ratio : nat -> Z -> bool) (cancelled : Z -> bool).
(** [shuffle] permutes. *)
Hypothesis shuffle_perm : forall l, shuffle l ≡ₚ l.

Abbreviation lengths := (in_lengths self).
Hypothesis Hwf : wf lengths.
Hypothesis Hfiles : Forall (ChunkTracker.file_of lengths) (in_file_infos self).

Lemma first_claimed_Some (hp : B) fi p : ChunkTracker.file_of lengths fi -> first_claimed hp fi = Some p ->
  (fi_piece_range fi).1 <= p < (fi_piece_range fi).2 /\ 0 <= p < bit_len hp /\ bit_at hp p = true.
Proof.
  intros Hf. pose proof (ChunkTracker.file_range_bounds lengths fi Hwf Hf) as Hr.
  unfold first_claimed, piece_range_usize. destruct (fi_piece_range fi) as [s e]. simpl in *.
  unfold bit_get_range. bcases; simpl; try done. rewrite fmap_Some. intros ([k b] & Hk & ->).
  apply list_find_Some in Hk as (Hk & -> & _). rewrite lookup_take, lookup_drop in Hk.
  case_decide; [|done]. simpl. pose proof (lookup_lt_Some _ _ _ Hk) as Hlt. unfold bit_at, bit_len in *.
  assert (Z.to_nat (s + Z.of_nat k) = (Z.to_nat s + k)%nat) as -> by lia. rewrite Hk. split_and!; [lia..|done].
Qed.

Lemma first_claimed_None (hp : B) fi : ChunkTracker.file_of lengths fi -> ChunkTracker.bitfield_len lengths <= bit_len hp ->
  first_claimed hp fi = None -> forall p, (fi_piece_range fi).1 <= p < (fi_piece_range fi).2 -> bit_at hp p = false.
Proof.
  intros Hf Hl. pose proof (ChunkTracker.file_range_bounds lengths fi Hwf Hf) as Hr.
  pose proof (ChunkTracker.pieces_le_bitfield lengths Hwf) as Hp.
  unfold first_claimed, piece_range_usize. destruct (fi_piece_range fi) as [s e]. simpl in *.
  unfold bit_get_range. bcases; simpl; [|lia..]. rewrite fmap_None, list_find_None, Forall_forall.
  intros Hall p Hrange. unfold bit_at, bit_len in *.
  destruct (bits hp !! Z.to_nat p) as [[]|] eqn:Hb; [|done..]. exfalso. eapply Hall; [|reflexivity].
  apply list_elem_of_lookup. exists (Z.to_nat (p - s)). rewrite lookup_take, lookup_drop.
  case_decide; [|lia]. rewrite <- Hb. f_equal. lia.
Qed.

(** The state of the first loop of [choose_pieces]. *)
Definition picked (hp : B) (done : list FileInfo) (st : B * B) : Prop :=
  bit_len st.1 = ChunkTracker.bitfield_len lengths /\ bit_len st.2 = ChunkTracker.bitfield_len lengths /\
  (forall p, 0 <= p -> bit_at st.1 p = true -> bit_at hp p = true) /\
  (forall p, 0 <= p -> bit_at st.2 p = true -> bit_at hp p = true) /\
  forall fi p, fi ∈ done -> ChunkTracker.file_of lengths fi -> first_claimed hp fi = Some p -> bit_at st.1 p = true.

Lemma pick_one_spec hp dn fi st : bit_len hp = ChunkTracker.bitfield_len lengths ->
  ChunkTracker.file_of lengths fi -> picked hp dn st ->
  exists st', pick_one_per_file hp st fi = Done st' /\ picked hp (dn ++ [fi]) st'.
Proof.
  intros Hhp Hf. destruct st as [tv q]. intros (T1 & T2 & T3 & T4 & T5). simpl in *.
  destruct (first_claimed hp fi) as [p|] eqn:Hc.
  - destruct (first_claimed_Some hp fi p Hf Hc) as (_ & Hp & Hbit).
    rewrite !bit_set_checked_in by lia. rsimpl. eexists. split; [done|].
    split_and!; simpl; [by rewrite bit_len_set by lia|by rewrite bit_len_set by lia| | |].
    + intros i Hi. rewrite bit_at_set by lia. destruct (Z.eqb_spec i p) as [->|]; [done|by apply T3].
    + intros i Hi. rewrite bit_at_set by lia. destruct (Z.eqb_spec i p); [done|by apply T4].
    + intros g i Hg Hgf Hgc. destruct (first_claimed_Some hp g i Hgf Hgc) as (_ & Hi & _).
      rewrite bit_at_set by lia. destruct (Z.eqb_spec i p) as [->|Hne]; [done|].
      apply elem_of_app in Hg as [Hg|Hg%list_elem_of_singleton]; [by eapply T5|congruence].
  - exists (tv, q). split; [done|]. split_and!; try done.
    intros g p [Hg|Hg%list_elem_of_singleton]%elem_of_app; [by apply T5|congruence].
Qed.

Lemma pick_random_spec hp tv q : bit_len tv = ChunkTracker.bitfield_len lengths ->
  0 <= q.2 < ChunkTracker.bitfield_len lengths -> bit_at hp q.2 = true ->
  (forall p, 0 <= p -> bit_at tv p = true -> bit_at hp p = true) ->
  exists tv', pick_random self random_ratio tv q = Done tv' /\ bit_len tv' = bit_len tv /\
    (forall p, 0 <= p -> bit_at tv' p = true -> bit_at hp p = true) /\
    forall p, 0 <= p -> bit_at tv p = true -> bit_at tv' p = true.
Proof.
  intros Hl Hq Hb Hsub. unfold pick_random. destruct q as [k p]. simpl in *.
  destruct (random_ratio _ _); [|by exists tv]. rewrite bit_set_checked_in by lia. eexists. split; [done|].
  split_and!; [by rewrite bit_len_set by lia| |]; intros i Hi; rewrite bit_at_set by lia;
    destruct (Z.eqb_spec i p) as [->|]; auto.
Qed.

(** Every piece that is validated is one we claim to have, and a file with a
    claimed piece has one validated. *)
Lemma choose_pieces_spec hp : bit_len hp = ChunkTracker.bitfield_len lengths ->
  exists ps, choose_pieces self shuffle random_ratio hp = Done ps /\
    Forall (fun p => valid_index lengths p /\ bit_at hp p = true) ps /\
    forall fi i, fi ∈ in_file_infos self -> (fi_piece_range fi).1 <= i < (fi_piece_range fi).2 -> bit_at hp i = true ->
      exists p, p ∈ ps /\ (fi_piece_range fi).1 <= p < (fi_piece_range fi).2.
Proof.
  intros Hhp. pose proof (ChunkTracker.pieces_le_bitfield lengths Hwf) as Hpb.
  pose proof (wf_facts lengths Hwf) as (_ & _ & Hlast & _ & _ & _ & _ & _ & Hp32).
  unfold choose_pieces.
  destruct (for_each_inv (picked hp) (pick_one_per_file hp)
    (zeroed_bytes (Z.to_nat (piece_bitfield_bytes lengths)), hp) (in_file_infos self)) as ([tv q] & -> & Hpick).
  - split_and!; simpl; [|done| |done|by intros ? ? ?%not_elem_of_nil].
    + rewrite bit_len_zeroed. unfold ChunkTracker.bitfield_len in *. lia.
    + intros p _. by rewrite bit_at_zeroed.
  - intros dn fi st Hpre Hst. apply pick_one_spec; [done| |done].
    eapply Forall_forall; [exact Hfiles|]. eapply elem_of_prefix; [|exact Hpre]. apply elem_of_app. right. by left.
  - rsimpl. destruct Hpick as (T1 & T2 & T3 & T4 & T5). simpl in *.
    assert (exists tv', (if 0 <? max_denom self then
         for_each (pick_random self random_ratio) tv (zip (seq 0 (length (shuffle (bit_iter_ones q)))) (shuffle (bit_iter_ones q)))
       else Done tv) = Done tv' /\ bit_len tv' = bit_len tv /\
       (forall p, 0 <= p -> bit_at tv' p = true -> bit_at hp p = true) /\
       (forall p, 0 <= p -> bit_at tv p = true -> bit_at tv' p = true)) as (tv' & -> & L1 & L2 & L3).
    { destruct (0 <? max_denom self); [|by exists tv].
      destruct (for_each_inv (fun _ tv' => bit_len tv' = bit_len tv /\
          (forall p, 0 <= p -> bit_at tv' p = true -> bit_at hp p = true) /\
          (forall p, 0 <= p -> bit_at tv p = true -> bit_at tv' p = true)) (pick_random self random_ratio) tv
          (zip (seq 0 (length (shuffle (bit_iter_ones q)))) (shuffle (bit_iter_ones q)))) as (tv' & Htv & ? & ? & ?).
      - done.
      - intros dn [k p] tv1 Hpre (A1 & A2 & A3).
        assert (Hin : p ∈ bit_iter_ones q).
        { rewrite <- (shuffle_perm (bit_iter_ones q)).
          assert (Hz : (k, p) ∈ zip (seq 0 (length (shuffle (bit_iter_ones q)))) (shuffle (bit_iter_ones q))).
          { eapply elem_of_prefix; [|exact Hpre]. apply elem_of_app. right. by left. }
          by apply elem_of_zip_r in Hz. }
        pose proof (bit_iter_ones_range q p Hin) as Hr. apply elem_of_bit_iter_ones in Hin; [|lia].
        destruct (pick_random_spec hp tv1 (k, p)) as (tv2 & -> & B1 & B2 & B3); simpl; [lia|lia| |done|].
        { apply T4; [lia|done]. }
        exists tv2. split_and!; [done|congruence|done|]. intros i Hi Ht. by apply B3, A3.
      - by exists tv'. }
    rsimpl. eexists. split; [done|].
    assert (Hmem : forall p, p ∈ omap (fun id => id ← try_into_u32 id; validate_piece_index lengths id) (bit_iter_ones tv') <->
      0 <= p /\ bit_at tv' p = true /\ p <= l_last_piece_id lengths).
    { intros p. rewrite list_elem_of_omap. split.
      - intros (id & Hid & Hm). pose proof (bit_iter_ones_range tv' id Hid) as Hr.
        destruct (try_into_u32 id) as [v|] eqn:Hv; [|done]. apply try_into_u32_Some in Hv as [-> _]. simpl in Hm.
        apply validate_piece_index_Some in Hm as [-> Hm]. apply elem_of_bit_iter_ones in Hid; [|lia]. split_and!; [lia|done|done].
      - intros (Hp0 & Hbit & Hle). exists p. split; [by apply elem_of_bit_iter_ones|].
        assert (Hu : try_into_u32 p = Some p).
        { apply try_into_u32_Some. split; [done|]. unfold Lengths.pieces in *. lia. }
        rewrite Hu. simpl. by apply validate_piece_index_Some. }
    split.
    + apply Forall_forall. intros p (Hp0 & Hbit & Hle)%Hmem. split; [done|by apply L2].
    + intros fi i Hfi Hi Hbit. rewrite Forall_forall in Hfiles. specialize (Hfiles fi Hfi) as Hf.
      destruct (first_claimed hp fi) as [p|] eqn:Hc.
      * destruct (first_claimed_Some hp fi p Hf Hc) as (Hr & Hp & _). exists p. split; [|done]. apply Hmem.
        split_and!; [lia|apply L3; [lia|by eapply T5]|].
        pose proof (ChunkTracker.file_range_bounds lengths fi Hwf Hf). unfold Lengths.pieces in *. lia.
      * rewrite (first_claimed_None hp fi Hf) in Hbit; [done|lia|done|done].
Qed.

(** ** Validation *)

Hypothesis Hlens : lens_ok (in_file_infos self).
Hypothesis Htotal : total_len (in_file_infos self) = l_total_length lengths.

Lemma check_chosen_readable ps : ready (in_files self) 0 (in_file_infos self) ->
  Forall (fun p => valid_index lengths p /\ has_hash (in_pieces self) p /\ cancelled p = false) ps ->
  check_chosen self cancelled ps = Done (Ok false).
Proof.
  intros Hr. induction 1 as [|p ps (Hp & Hh & Hc) _ IH]; [done|]. simpl. rewrite Hc.
  destruct (check_piece_ready lengths (in_pieces self) (in_file_infos self) Hwf Hlens Htotal (in_files self) p Hp Hh (ready_span _ _ _ _ _ Hr))
    as (l & _ & _ & b & _ & ->). exact IH.
Qed.

(** ** The end of the check *)

Context {SS : StorageSetup St} {SSL : StorageSetupLaws St}.

Definition keeps_files (s s' : St) : Prop :=
  (forall g, opened s' g = opened s g) /\
  forall k fi p b, in_file_infos self !! k = Some fi -> p < fi_len fi -> byte_at s k p = Some b -> byte_at s' k p = Some b.

Lemma ensure_lengths_keeps s : keeps_files s (ensure_lengths self s).
Proof.
  unfold ensure_lengths.
  assert (Hgen : forall l s, (forall idx fi, (idx, fi) ∈ l -> in_file_infos self !! Z.to_nat idx = Some fi) ->
    keeps_files s (foldl (fun files '(idx, fi) =>
      if negb (selects self idx) || padding (fi_attrs fi) then files
      else (ensure_file_length files (Z.to_nat idx) (fi_len fi)).2) s l)).
  { clear s. induction l as [|[idx fi] l IH]; intros s Hl; [by split|]. cbn [foldl].
    destruct (negb (selects self idx) || padding (fi_attrs fi)).
    - apply IH. intros. apply Hl. by right.
    - destruct (ensure_file_length s (Z.to_nat idx) (fi_len fi)) as [r s1] eqn:He.
      apply ensure_kept in He as [Ho Hk].
      destruct (IH s1) as [Ho' Hk']; [intros; apply Hl; by right|]. split.
      + intros g. by rewrite Ho', Ho.
      + intros k fk p b Hfk Hp Hb. eapply Hk'; [done|done|]. apply Hk; [|done]. intros ->.
        rewrite (Hl idx fi) in Hfk by (by left). injection Hfk as <-. done. }
  apply Hgen. intros idx fi Hin. by apply ChunkTracker.elem_of_enumerate in Hin as [_ Hin].
Qed.

Lemma torrent_byte_within s s' fis : forall idx p b, 0 <= p ->
  (forall k fi q c, fis !! k = Some fi -> q < fi_len fi -> byte_at s (idx + k) q = Some c -> byte_at s' (idx + k) q = Some c) ->
  torrent_byte s idx fis p = Some b -> torrent_byte s' idx fis p = Some b.
Proof.
  induction fis as [|fi fis IH]; intros idx p b Hp Hk; [done|]. simpl. bcases.
  - destruct (padding (fi_attrs fi)); [done|].
    pose proof (Hk 0%nat fi p b eq_refl ltac:(lia)) as Hb0. by rewrite Nat.add_0_r in Hb0.
  - apply IH; [lia|]. intros k fk q c Hfk Hq. pose proof (Hk (S k) fk q c Hfk Hq) as HS.
    by replace (idx + 1 + k)%nat with (idx + S k)%nat by lia.
Qed.

(** Pieces that were good on the old storage are good on the new one. *)
Lemma check_piece_kept s s' i : keeps_files s s' -> piece_ready lengths (in_file_infos self) s i -> valid_index lengths i ->
  has_hash (in_pieces self) i -> piece_ready lengths (in_file_infos self) s' i /\
  check_piece lengths (in_pieces self) (in_file_infos self) s' i =
  check_piece lengths (in_pieces self) (in_file_infos self) s i.
Proof.
  intros [Ho Hk] Hr Hi Hh.
  assert (Hr' : piece_ready lengths (in_file_infos self) s' i).
  { intros k fi Hfi Hlen Ha Hb Hpad. destruct (Hr k fi Hfi Hlen Ha Hb Hpad) as [Hop Hby]. split; [by rewrite Ho|].
    intros p Hp. destruct (Hby p Hp) as [b Hbp]. exists b. eapply (Hk k); [done|lia|done]. }
  split; [done|].
  destruct (check_piece_ready lengths (in_pieces self) (in_file_infos self) Hwf Hlens Htotal s i Hi Hh Hr)
    as (l & Hl & Hst & b & Hb & ->).
  destruct (check_piece_ready lengths (in_pieces self) (in_file_infos self) Hwf Hlens Htotal s' i Hi Hh Hr')
    as (l' & Hl' & Hst' & b' & Hb' & ->).
  assert (l' = l) as ->; [|congruence].
  eapply (stored_inj s' 0 (in_file_infos self)); [lia|exact Hst'|].
  intros j Hj. specialize (Hst j Hj). destruct (l !! j) as [c|] eqn:Hc; [|by apply lookup_ge_None in Hc; lia].
  eapply torrent_byte_within; [|exact Hk|exact Hst].
  pose proof (piece_in_files lengths (in_file_infos self) Hwf Htotal i Hi). lia.
Qed.

(** What the paused torrent is made of, given the bit field. *)
Lemma finish_check_spec (hp : B) : bit_len hp = ChunkTracker.bitfield_len lengths ->
  exists r, finish_check self hp = Done r /\
    match r with
    | Err e => exists e', e = TakeError e'
    | Ok paused => ChunkTracker.inv (p_chunk_tracker paused) /\ ChunkTracker.lengths (p_chunk_tracker paused) = lengths /\
        ChunkTracker.have (p_chunk_tracker paused) = hp /\
        (forall i, 0 <= i -> bit_at (ChunkTracker.selected (p_chunk_tracker paused)) i =
           ChunkTracker.piece_selected (selects self) (in_file_infos self) i) /\
        keeps_files (in_files self) (p_files paused)
    end.
Proof.
  intros Hhp. unfold finish_check.
  destruct (ChunkTracker.compute_selected_pieces_spec (BF := B) lengths (selects self) (in_file_infos self) Hwf Hfiles) as [Hsl Hsel].
  destruct (ChunkTracker.new_spec hp (ChunkTracker.compute_selected_pieces lengths (selects self) (in_file_infos self)) lengths
    (in_file_infos self) Hwf Hhp Hsl Hfiles) as (ct & -> & Hinv & Hl & Hh & Hsl' & _). rsimpl. cbn [map_err result_bind].
  destruct (take_storage (ensure_lengths self (in_files self))) as [files|e] eqn:Ht; cbn [map_err result_bind].
  - eexists. split; [done|]. cbn [p_chunk_tracker p_files]. split_and!; try done.
    + intros i Hi. by rewrite Hsl', Hsel.
    + apply take_same in Ht as [Ho Hb]. destruct (ensure_lengths_keeps (in_files self)) as [Ho' Hk'].
      split; [intros g; by rewrite Ho|]. intros k fi p b Hfi Hp Hbyte. rewrite Hb. by eapply Hk'.
  - eexists. split; [done|]. by eexists.
Qed.

Context {F : Type} `{BitVFactoryLaws F}.

(** The torrent has files, and a hash for every piece. *)
Definition checkable : Prop :=
  in_file_infos self <> [] /\ forall i, valid_index lengths i -> has_hash (in_pieces self) i.

(** Moreover its files are whole, and nothing is cancelled. *)
Definition readable : Prop :=
  ready (in_files self) 0 (in_file_infos self) /\ forall i, valid_index lengths i -> cancelled i = false.

(** The check was cancelled at a piece. *)
Definition check_cancelled (e : InitError) : Prop :=
  e = CheckError InitialCheckCancelled /\ exists i, valid_index lengths i /\ cancelled i = true.

Lemma full_check_spec (f : F) : checkable -> bf_ok f ->
  exists r f', have_pieces_or_check self cancelled f (None : option B) = Done (r, f') /\
    match r with
    | Err e => check_cancelled e \/ exists e', e = StoreCheckError e'
    | Ok hp => bit_len hp = ChunkTracker.bitfield_len lengths /\
        forall i, valid_index lengths i -> piece_ready lengths (in_file_infos self) (in_files self) i -> bit_at hp i = true <->
          check_piece lengths (in_pieces self) (in_file_infos self) (in_files self) i = Done (Ok true)
    end.
Proof.
  intros (Hne & Hh) Hf. unfold have_pieces_or_check.
  pose proof (initial_check_inv (B := B) lengths (in_pieces self) (in_file_infos self) Hwf Hlens Htotal (in_files self)
    cancelled Hne Hh) as Hc. destruct (existsb _ _) eqn:Hex.
  { rewrite Hc. rsimpl. eexists _, f. split; [done|]. left. split; [done|]. apply existsb_exists in Hex as (i & Hi & Hci).
    exists i. split; [|done]. apply list_elem_of_In, elem_of_seqZ in Hi. unfold valid_index, Lengths.pieces in *. lia. }
  destruct Hc as (bf & -> & Hlen & Hbits). rsimpl.
  destruct (bf_stored f (THash (in_info_hash self)) (as_bytes bf) Hf) as (r & f' & -> & _ & Hst). rsimpl.
  destruct r as [b'|e]; cbn [map_err result_bind].
  - rewrite (Hst b' eq_refl), (from_as_bytes bf (piece_bitfield_bytes lengths) Hlen). by eexists _, f'.
  - eexists _, f'. split; [done|]. right. by eexists.
Qed.

Lemma validate_readable (f : F) hp : checkable -> readable -> bit_len hp = ChunkTracker.bitfield_len lengths ->
  Z.of_nat (length (as_bytes hp)) = piece_bitfield_bytes lengths ->
  validate_fastresume self shuffle random_ratio cancelled f (Some hp) = Done (Ok (Some hp), f).
Proof.
  intros (_ & Hh) [Hr Hc] Hhp Hlen. unfold validate_fastresume. rewrite Hlen, Z.eqb_refl. cbn [negb].
  destruct (choose_pieces_spec hp Hhp) as (ps & -> & Hps & _). rsimpl.
  rewrite check_chosen_readable; [done|done|].
  eapply Forall_impl; [exact Hps|]. simpl. intros p [Hp _]. split_and!; auto.
Qed.
End choice.

Section theorems.
Context {St : Type} `{StorageLaws St} {SS : StorageSetup St} {SSL : StorageSetupLaws St}.
Context {Hs : Type} `{Sha1Laws Hs}.
Context {B : Type} `{BitRaw B}.
Context {F : Type} `{BitVFactoryLaws F}.
Variable self : TorrentStateInitializing St.
Variables (shuffle : list Z -> list Z) (random_ratio : nat -> Z -> bool) (cancelled : Z -> bool).
Hypothesis shuffle_perm : forall l, shuffle l ≡ₚ l.
Abbreviation lengths := (in_lengths self).
Hypothesis Hwf : wf lengths.
Hypothesis Hfiles : Forall (ChunkTracker.file_of lengths) (in_file_infos self).
Hypothesis Hlens : lens_ok (in_file_infos self).
Hypothesis Htotal : total_len (in_file_infos self) = l_total_length lengths.


(** A saved bit field of the right length is believed whatever the hashes
    say, as long as the files can be read: [validate_fastresume] reads and
    hashes pieces, but only an error of [check_piece] rejects the bit field,
    its answer that a hash is wrong does not. *)
Theorem fastresume_ignores_hashes (f : F) bytes : in_session self <> None -> checkable self -> readable self cancelled ->
  in_previously_errored self = false -> bf_load f (THash (in_info_hash self)) = Ok (Some bytes) ->
  Z.of_nat (length bytes) = piece_bitfield_bytes lengths -> as_bytes (from_vec bytes : B) = bytes ->
  exists r, check (B := B) self shuffle random_ratio cancelled f = Done (r, f) /\
    match r with
    | Err e => exists e', e = TakeError e'
    | Ok paused => ChunkTracker.inv (p_chunk_tracker paused) /\ ChunkTracker.have (p_chunk_tracker paused) = from_vec bytes
    end.
Proof.
  intros Hsess Hc Hrd Herr Hload Hlen Hraw. unfold check. destruct (in_session self) as [den|] eqn:Es; [|done].
  rewrite Herr, Hload. cbn [map_err fmap option_fmap option_map].
  assert (Hbl : bit_len (from_vec bytes : B) = ChunkTracker.bitfield_len lengths).
  { rewrite from_vec_len. unfold ChunkTracker.bitfield_len. lia. }
  rewrite (validate_readable self shuffle random_ratio cancelled shuffle_perm Hwf Hfiles Hlens Htotal f (from_vec bytes) Hc Hrd Hbl) by (by rewrite Hraw).
  rsimpl. cbn [have_pieces_or_check]. rsimpl.
  destruct (finish_check_spec self Hwf Hfiles (from_vec bytes) Hbl) as (r & -> & Hr). rsimpl.
  eexists. split; [done|]. destruct r as [paused|e]; [|done]. by destruct Hr as (? & _ & ? & _).
Qed.
End theorems.

(** ** A concrete torrent *)

(** The file system storage sets lengths and gives its files away. *)
Section fs_setup.
Variable sys_pwritev : list Z -> Z -> list Z -> result StorageError nat.
Hypothesis sys_bound : forall file off bytes n, sys_pwritev file off bytes = Ok n -> (n <= length bytes)%nat.
#[local] Instance fs_storage' : TorrentStorage FilesystemStorage := fs_storage sys_pwritev.
#[local] Instance fs_laws' : StorageLaws FilesystemStorage := fs_laws sys_pwritev sys_bound.

#[local] Instance fs_setup : StorageSetup FilesystemStorage := {
  ensure_file_length s f n :=
    match fs_ensure_file_length s f n with Ok s' => (Ok tt, s') | Err e => (Err e, s) end;
  take_storage s := Ok (fs_take s).1;
}.

Lemma lookup_set_len file n p b : p < n -> file !! Z.to_nat p = Some b -> 0 <= p -> set_len file n !! Z.to_nat p = Some b.
Proof.
  intros Hp Hb H0. unfold set_len. rewrite lookup_app_l.
  - rewrite lookup_take. case_decide; [done|lia].
  - rewrite length_take. apply lookup_lt_Some in Hb. lia.
Qed.

#[local] Instance fs_setup_laws : StorageSetupLaws FilesystemStorage.
Proof.
  split.
  - intros s f n r s'. cbn [ensure_file_length fs_setup]. unfold fs_ensure_file_length.
    destruct (lock_read s f) as [file|e] eqn:Hl; cbn [result_bind]; [|by intros [= <- <-]].
    apply lock_read_Ok in Hl. pose proof (lookup_lt_Some _ _ _ Hl) as Hlt.
    destruct (read_only s); [by destruct (negb _); intros [= <- <-]|]. intros [= <- <-].
    cbn [opened byte_at fs_laws' fs_laws]. unfold fs_opened, fs_byte_at. cbn [opened_files]. split.
    + intros g. destruct (decide (g = f)) as [->|]; [by rewrite list_lookup_insert_eq, Hl by done|].
      by rewrite list_lookup_insert_ne by done.
    + intros g p b Hp. bcases; [done|]. destruct (decide (g = f)) as [->|].
      * rewrite list_lookup_insert_eq, Hl by done. intros Hb. apply lookup_set_len; auto.
      * by rewrite list_lookup_insert_ne by done.
  - intros s s'. cbn [take_storage fs_setup]. by intros [= <-].
Qed.
End fs_setup.

Section example.
#[local] Existing Instance ex_storage.
#[local] Existing Instance ex_laws.
#[local] Existing Instance ex_sha.
#[local] Existing Instance ex_sha_laws.
#[local] Instance ex_setup : StorageSetup FilesystemStorage := fs_setup.
#[local] Instance ex_setup_laws : StorageSetupLaws FilesystemStorage := fs_setup_laws full_pwritev full_pwritev_bound.

(** A factory with a saved bit field that claims both pieces. *)
#[local] Instance saved_factory : BitVFactory (list Z) := {
  bf_load f _ := Ok (Some f);
  bf_clear f _ := (Ok tt, f);
  bf_store_initial_check f _ b := Done (Ok b, b);
}.
#[local] Instance saved_factory_laws : BitVFactoryLaws (list Z).
Proof.
  unshelve econstructor; [exact (fun _ => True)|done|].
  intros f id b _. exists (Ok b), b. split_and!; [done|done|]. by intros b' [= ->].
Defined.

Definition six_init (hashes : option (list Z)) : TorrentStateInitializing FilesystemStorage :=
  mkInitializing six_storage six_lengths hashes six_files (Some [1%nat]) false 0 [1] (Some None).

Lemma six_files_of : Forall (ChunkTracker.file_of six_lengths) six_files.
Proof. repeat constructor; try (simpl; lia); vm_compute; try done; by intros. Qed.

Lemma six_checkable h : length h = 40%nat -> checkable (six_init (Some h)).
Proof.
  intros Hh. split; [done|]. intros i Hi. unfold has_hash. simpl. unfold valid_index in Hi. simpl in Hi. lia.
Qed.

(** All hashes wrong: the saved bit field is believed. *)
Lemma fastresume_ignores_hashes_witness :
  exists r, check (B := list bool) (six_init (Some (replicate 40 9))) id (fun _ _ => true) (fun _ => false) [192] = Done (r, [192]) /\
    match r with
    | Err e => exists e', e = TakeError e'
    | Ok paused => ChunkTracker.inv (p_chunk_tracker paused) /\ ChunkTracker.have (p_chunk_tracker paused) = from_vec [192]
    end.
Proof.
  apply (fastresume_ignores_hashes (six_init (Some (replicate 40 9))) id (fun _ _ => true) (fun _ => false)).
  - done.
  - exact six_wf.
  - exact six_files_of.
  - exact six_lens.
  - reflexivity.
  - done.
  - by apply six_checkable.
  - split; [exact six_ready|done].
  - reflexivity.
  - reflexivity.
  - reflexivity.
  - reflexivity.
Defined.

(** The result of that run, computed: both pieces are there. *)
Example fastresume_ignores_hashes_run :
  match check (B := list bool) (six_init (Some (replicate 40 9))) id (fun _ _ => true) (fun _ => false) [192] with
  | Done (Ok paused, _) => ChunkTracker.is_piece_have (p_chunk_tracker paused) 1
  | _ => Panic
  end = Done true.
Proof. vm_compute. reflexivity. Qed.

End example.
