(* ===== verification/TorrentMeta.v ===== *)
(** * TorrentMeta: the metadata of a torrent

    Models [crates/librtbit-core/src/torrent_metainfo.rs] (the typed "info"
    dictionary, its files and their names, and [validate]),
    [Lengths::from_torrent], and [TorrentMetadata::new] with
    [with_renamed_files] of [crates/librtbit/src/torrent_state/mod.rs].  The
    detection of the encoding of names (the chardetng crate) and the decoders
    (encoding_rs) are arguments. *)

From Stdlib Require Import Ascii.
From stdpp Require Import strings.
From S2P Require Import Prelude Path Lengths FileInfo ChunkTracker FileOps.

Abbreviation Bytes := (list Z).
Abbreviation Encoding := (list Z -> string).

Record TorrentMetaV1File := mkMetaFile {
  tf_length : Z;
  tf_path : list Bytes;
  tf_attr : option Bytes;
  tf_sha1 : option Bytes;
  tf_symlink_path : option (list Bytes);
}.

Record TorrentMetaV1Info := mkMetaInfo {
  ti_name : option Bytes;
  ti_pieces : option Bytes;
  ti_piece_length : Z;
  ti_meta_version : option Z;
  ti_length : option Z;
  ti_attr : option Bytes;
  ti_sha1 : option Bytes;
  ti_symlink_path : option (list Bytes);
  ti_md5sum : option Bytes;
  ti_files : option (list TorrentMetaV1File);
  ti_private : bool;
}.

Inductive MetaError :=
| V2OnlyNotSupported
| BadLengths (e : Lengths.Error)
| BadTorrentPathTraversal
| BadTorrentSeparatorInName
| BadTorrentFileNoName
| BadTorrentNoFiles
| BadTorrentDuplicateFilenames
| BadTorrentMultiFileEmpty
| BadTorrentBothSingleAndMultiFile.

(** ** Files and their names *)

Inductive FileIteratorNameData := Single (name : option Bytes) | Tree (path : list Bytes).

Record FileDetails := mkFileDetails {
  fd_filename : FileIteratorNameData;
  fd_len : Z;
  fd_attr : option Bytes;
  fd_sha1 : option Bytes;
  fd_symlink_path : option (list Bytes);
}.

(** [b"torrent-content"]. *)
Definition torrent_content : Bytes :=
  [116; 111; 114; 114; 101; 110; 116; 45; 99; 111; 110; 116; 101; 110; 116].

Definition iter_components_bytes (d : FileIteratorNameData) : list Bytes :=
  match d with Single None => [torrent_content] | Single (Some name) => [name] | Tree t => t end.

Definition iter_components (encoding : Encoding) (d : FileIteratorNameData) : list string :=
  encoding <$> iter_components_bytes d.

Definition to_pathbuf (encoding : Encoding) (d : FileIteratorNameData) : string :=
  foldl push "" (iter_components encoding d).

(** [b'l'], [b'h'], [b'p'], [b'x']. *)
Definition set_attr (a : FileDetailsAttrs) (byte : Z) : FileDetailsAttrs :=
  if byte =? 108 then mkAttrs true (hidden a) (padding a) (executable a)
  else if byte =? 104 then mkAttrs (symlink a) true (padding a) (executable a)
  else if byte =? 112 then mkAttrs (symlink a) (hidden a) true (executable a)
  else if byte =? 120 then mkAttrs (symlink a) (hidden a) (padding a) true
  else a.

Definition attrs (d : FileDetails) : FileDetailsAttrs :=
  match fd_attr d with
  | None => no_attrs
  | Some bytes => foldl set_attr no_attrs bytes
  end.

Definition iter_file_details_raw (info : TorrentMetaV1Info) : result MetaError (list FileDetails) :=
  match ti_length info, ti_files info with
  | Some length, None =>
      Ok [mkFileDetails (Single (ti_name info)) length (ti_attr info) (ti_sha1 info) (ti_symlink_path info)]
  | None, Some files =>
      if (length files =? 0)%nat then Err BadTorrentMultiFileEmpty
      else
        Ok ((fun f => mkFileDetails (Tree (tf_path f)) (tf_length f) (tf_attr f) (tf_sha1 f) (tf_symlink_path f))
            <$> files)
  | _, _ => Err BadTorrentBothSingleAndMultiFile
  end.

(** [Lengths::from_torrent]; the sum of the lengths is a u64. *)
Definition from_torrent (info : TorrentMetaV1Info) : outcome (result MetaError Lengths) :=
  details ←?! Done (iter_file_details_raw info);
  let total_length := wrap64 (sumZ (fd_len <$> details)) in
  r ←! Lengths.new total_length (ti_piece_length info);
  Done (match r with Ok l => Ok l | Err e => Err (BadLengths e) end).

(** ** Validation *)

Definition has_v1_pieces (info : TorrentMetaV1Info) : bool :=
  match ti_pieces info with Some p => negb (length p =? 0)%nat | None => false end.

Definition is_v2 (info : TorrentMetaV1Info) : bool := bool_decide (ti_meta_version info = Some 2).

Definition is_hybrid (info : TorrentMetaV1Info) : bool := has_v1_pieces info && is_v2 info.

(** [memchr(c, bit).is_some()]. *)
Definition memchr (c : Z) (bit : Bytes) : bool := existsb (Z.eqb c) bit.

(** The components of one file; the answer is [seen_a_bit]. *)
Fixpoint check_bits (bits : list Bytes) (seen_a_bit : bool) : result MetaError bool :=
  match bits with
  | [] => Ok seen_a_bit
  | bit :: bits =>
      if bool_decide (bit = [46; 46]) then Err BadTorrentPathTraversal
      else if memchr 47 bit || memchr 92 bit then Err BadTorrentSeparatorInName
      else check_bits bits true
  end.

(** The loop over the files; the answer is [seen_files]. *)
Fixpoint check_files (files : list FileDetails) (seen_files : nat) : result MetaError nat :=
  match files with
  | [] => Ok seen_files
  | file :: files =>
      seen_a_bit ←? check_bits (iter_components_bytes (fd_filename file)) false;
      if seen_a_bit : bool then check_files files (S seen_files) else Err BadTorrentFileNoName
  end.

(** The distinct paths; equality of paths is that of their components. *)
Fixpoint unique_filenames (encoding : Encoding) (files : list FileDetails) (seen : list (list Component)) :
    result MetaError (list (list Component)) :=
  match files with
  | [] => Ok seen
  | fd :: files =>
      let pb := to_pathbuf encoding (fd_filename fd) in
      if bool_decide (pb = "") then Err BadTorrentFileNoName
      else
        unique_filenames encoding files
          (if decide (components pb ∈ seen) then seen else components pb :: seen)
  end.

Record ValidatedTorrentMetaV1Info := mkValidated {
  v_encoding : Encoding;
  v_lengths : Lengths;
  v_info : TorrentMetaV1Info;
}.

Section validate.
Variable detect_encoding : TorrentMetaV1Info -> Encoding.

Definition validate (info : TorrentMetaV1Info) : outcome (result MetaError ValidatedTorrentMetaV1Info) :=
  if negb (has_v1_pieces info) then Done (Err V2OnlyNotSupported)
  else
    l ←?! from_torrent info;
    let encoding := detect_encoding info in
    let validated := mkValidated encoding l info in
    details ←?! Done (iter_file_details_raw info);
    seen_files ←?! Done (check_files details 0);
    if (seen_files =? 0)%nat then Done (Err BadTorrentNoFiles)
    else
      unique ←?! Done (unique_filenames encoding details []);
      if negb (length unique =? seen_files)%nat then Done (Err BadTorrentDuplicateFilenames)
      else Done (Ok validated).
End validate.

(** [iter_file_details]: the [unwrap] panics on an info that was not validated. *)
Definition iter_file_details (v : ValidatedTorrentMetaV1Info) : outcome (list FileDetails) :=
  match iter_file_details_raw (v_info v) with Ok l => Done l | Err _ => Panic end.

(** ** The files of a torrent *)

Record FileDetailsExt := mkFileDetailsExt {
  fx_details : FileDetails;
  fx_offset : Z;
  fx_pieces : Z * Z;
}.

(** The [scan] of [iter_file_details_ext]. *)
Fixpoint scan_offsets (l : Lengths) (acc_offset : Z) (files : list FileDetails) : list FileDetailsExt :=
  match files with
  | [] => []
  | d :: files =>
      mkFileDetailsExt d acc_offset (iter_pieces_within_offset l acc_offset (fd_len d))
      :: scan_offsets l (wrap64 (acc_offset + fd_len d)) files
  end.

Definition iter_file_details_ext (v : ValidatedTorrentMetaV1Info) : outcome (list FileDetailsExt) :=
  details ←! iter_file_details v;
  Done (scan_offsets (v_lengths v) 0 details).

Record TorrentMetadata := mkTorrentMetadata {
  md_info : ValidatedTorrentMetaV1Info;
  md_file_infos : list FileInfo;
}.

Definition to_file_info (v : ValidatedTorrentMetaV1Info) (fd : FileDetailsExt) : FileInfo :=
  mkFileInfo (to_pathbuf (v_encoding v) (fd_filename (fx_details fd))) (fx_offset fd) (fx_pieces fd)
    (attrs (fx_details fd)) (fd_len (fx_details fd)).

Definition metadata_new (v : ValidatedTorrentMetaV1Info) : outcome TorrentMetadata :=
  files ←! iter_file_details_ext v;
  Done (mkTorrentMetadata v (to_file_info v <$> files)).

Definition with_filename (fi : FileInfo) (path : string) : FileInfo :=
  mkFileInfo path (fi_offset_in_torrent fi) (fi_piece_range fi) (fi_attrs fi) (fi_len fi).

Definition rename_step (fis : list FileInfo) (r : nat * string) : list FileInfo :=
  match fis !! r.1 with Some fi => <[r.1 := with_filename fi r.2]> fis | None => fis end.

Definition with_renamed_files (m : TorrentMetadata) (renames : list (nat * string)) : TorrentMetadata :=
  mkTorrentMetadata (md_info m) (foldl rename_step (md_file_infos m) renames).

(** [name]: the decoded name, unless it is empty. *)
Definition name (v : ValidatedTorrentMetaV1Info) : option string :=
  match v_encoding v <$> ti_name (v_info v) with
  | Some n => if bool_decide (n = "") then None else Some n
  | None => None
  end.

(** [get_hash]. *)
Definition get_hash (info : TorrentMetaV1Info) (piece : Z) : option Bytes :=
  pieces ← ti_pieces info;
  let start := Z.to_nat (piece * 20) in
  if (start + 20 <=? length pieces)%nat then Some (take 20 (drop start pieces)) else None.

(** ** What validation guarantees *)

(** A component that is accepted. *)
Definition good_bit (bit : Bytes) : Prop := bit <> [46; 46] /\ memchr 47 bit = false /\ memchr 92 bit = false.

Lemma check_bits_Ok bits seen s : check_bits bits seen = Ok s ->
  Forall good_bit bits /\ (s = true -> seen = true \/ bits <> []).
Proof.
  revert seen. induction bits as [|bit bits IH]; intros seen; cbn [check_bits].
  { intros [= ->]. split; [constructor|by left]. }
  destruct (bool_decide_reflect (bit = [46; 46])) as [|Hne]; [done|].
  destruct (memchr 47 bit) eqn:H1; [done|]. destruct (memchr 92 bit) eqn:H2; [done|]. cbn [orb].
  intros [Hb _]%IH. split; [by constructor|by right].
Qed.

Lemma check_files_Ok files n k : check_files files n = Ok k ->
  k = (n + length files)%nat /\
  Forall (fun fd => iter_components_bytes (fd_filename fd) <> [] /\
                    Forall good_bit (iter_components_bytes (fd_filename fd))) files.
Proof.
  revert n. induction files as [|fd files IH]; intros n; cbn [check_files].
  { intros [= ->]. split; [simpl; lia|constructor]. }
  destruct (check_bits _ false) as [[|]|] eqn:Hb; rsimpl; [|done|done].
  apply check_bits_Ok in Hb as [Hg Hs]. intros [-> Hf]%IH. split; [simpl; lia|].
  constructor; [|done]. split; [|done]. by destruct (Hs eq_refl).
Qed.

Lemma unique_filenames_Ok enc files seen u : unique_filenames enc files seen = Ok u -> NoDup seen ->
  (length u <= length seen + length files)%nat /\
  Forall (fun fd => to_pathbuf enc (fd_filename fd) <> "") files /\
  (length u = (length seen + length files)%nat ->
   NoDup ((fun fd => components (to_pathbuf enc (fd_filename fd))) <$> files) /\
   forall fd, fd ∈ files -> components (to_pathbuf enc (fd_filename fd)) ∉ seen).
Proof.
  revert seen. induction files as [|fd files IH]; intros seen; cbn [unique_filenames].
  { intros [= ->] _. split_and!; [simpl; lia|constructor|]. intros _. split; [constructor|set_solver]. }
  destruct (bool_decide_reflect (to_pathbuf enc (fd_filename fd) = "")) as [|Hne]; [done|].
  destruct (decide (components _ ∈ seen)) as [Hin|Hout]; intros Hu Hnd.
  - destruct (IH _ Hu Hnd) as (Hlen & Hf & _). cbn [length]. split_and!; [lia|by constructor|lia].
  - destruct (IH _ Hu) as (Hlen & Hf & Hall); [by constructor|]. cbn [length] in *.
    split_and!; [lia|by constructor|]. intros Heq. destruct Hall as [Hd Hn]; [lia|]. split.
    + rewrite fmap_cons. constructor; [|done]. intros (fd' & He & Hin')%list_elem_of_fmap.
      apply (Hn fd' Hin'). rewrite <- He. set_solver.
    + intros fd' [->|Hin']%elem_of_cons; [done|]. specialize (Hn fd' Hin'). set_solver.
Qed.

(** A successful validation, step by step. *)
Lemma validate_Ok de info v : validate de info = Done (Ok v) ->
  exists details, v = mkValidated (de info) (v_lengths v) info /\
    from_torrent info = Done (Ok (v_lengths v)) /\ iter_file_details_raw info = Ok details /\ details <> [] /\
    Forall (fun fd => iter_components_bytes (fd_filename fd) <> [] /\
                      Forall good_bit (iter_components_bytes (fd_filename fd))) details /\
    Forall (fun fd => to_pathbuf (de info) (fd_filename fd) <> "") details /\
    NoDup ((fun fd => components (to_pathbuf (de info) (fd_filename fd))) <$> details).
Proof.
  unfold validate. destruct (negb _); [done|].
  destruct (from_torrent info) as [[l|]|] eqn:Hl; rsimpl; [|done|done].
  destruct (iter_file_details_raw info) as [details|] eqn:Hd; rsimpl; [|done].
  destruct (check_files details 0) as [n|] eqn:Hc; rsimpl; [|done].
  apply check_files_Ok in Hc as [-> Hb]. destruct (Nat.eqb_spec (0 + length details) 0) as [|Hne]; [done|].
  destruct (unique_filenames _ _ _) as [u|] eqn:Hu; rsimpl; [|done].
  apply unique_filenames_Ok in Hu as (_ & Hp & Hnd); [|constructor].
  destruct (Nat.eqb_spec (length u) (0 + length details)) as [Heq|]; cbn [negb]; [|done].
  intros [= <-]. exists details. cbn [v_lengths]. split_and!; [done|done|done| |done|done|by apply Hnd].
  intros ->. by simpl in Hne.
Qed.

(** ** Paths *)

(** The byte order marks that [Encoding::decode] looks for and removes, to go on
    with the encoding they stand for. *)
Definition has_bom (b : Bytes) : bool :=
  match b with
  | 239 :: 187 :: 191 :: _ | 255 :: 254 :: _ | 254 :: 255 :: _ => true
  | _ => false
  end.

(** A part of the input that is decoded on its own: an ASCII byte as itself, or
    bytes that make characters that are not ASCII (or the replacement for what
    is malformed). *)
Definition decoded_part (x : Bytes * string) : Prop :=
  (exists z, 0 <= z < 128 /\ x = ([z], String.String (ascii_of_N (Z.to_N z)) "")) \/
  x.2 <> "" /\ Forall (fun c => (128 <= N_of_ascii c)%N) (String.list_ascii_of_string x.2).

(** What is documented of the encodings that extend ASCII, which are all that
    can be detected but ISO-2022-JP: without a byte order mark the input is cut
    into such parts. *)
Definition extends_ascii (enc : Encoding) : Prop := forall b, has_bom b = false ->
  exists xs, Forall decoded_part xs /\ concat (fst <$> xs) = b /\
    String.list_ascii_of_string (enc b) = concat ((fun x => String.list_ascii_of_string x.2) <$> xs).

(** No component of a name starts with a byte order mark. *)
Definition names_without_bom (info : TorrentMetaV1Info) : Prop := forall details d b,
  iter_file_details_raw info = Ok details -> d ∈ details -> b ∈ iter_components_bytes (fd_filename d) -> has_bom b = false.

Lemma ascii_of_small z c : 0 <= z < 128 -> ascii_of_N (Z.to_N z) = c -> z = Z.of_N (N_of_ascii c).
Proof. intros Hz <-. rewrite N_ascii_embedding by lia. lia. Qed.

Lemma has_sep_elem n : has_sep n = true -> SEP ∈ String.list_ascii_of_string n.
Proof.
  induction n as [|c n IH]; [done|]. cbn. intros [Hc%bool_decide_eq_true|Hn]%orb_true_iff; [subst c; left|right; auto].
Qed.

(** An ASCII character comes from the same byte. *)
Lemma ascii_part xs (c : ascii) : Forall decoded_part xs -> (N_of_ascii c < 128)%N ->
  c ∈ concat ((fun x => String.list_ascii_of_string x.2) <$> xs) -> Z.of_N (N_of_ascii c) ∈ concat (fst <$> xs).
Proof.
  intros Hxs Hc. induction Hxs as [|x xs Hx _ IH]; [by intros ?%elem_of_nil|]. cbn. rewrite !elem_of_app. intros [Hin|Hin]; [left|right; auto].
  destruct Hx as [(z & Hz & ->)|[_ Hall]].
  - cbn in *. apply list_elem_of_singleton in Hin. symmetry in Hin. apply ascii_of_small in Hin; [|done]. rewrite <- Hin. left.
  - rewrite Forall_forall in Hall. specialize (Hall c Hin). cbn in Hall. lia.
Qed.

(** Nothing but two dots is decoded to them. *)
Lemma dots_part xs : Forall decoded_part xs ->
  forall n, concat ((fun x => String.list_ascii_of_string x.2) <$> xs) = replicate n "."%char -> concat (fst <$> xs) = replicate n 46.
Proof.
  intros Hxs. induction Hxs as [|x xs Hx _ IH]; intros n; cbn; [by destruct n|].
  destruct Hx as [(z & Hz & ->)|[Hne Hall]].
  - cbn. destruct n as [|n]; [done|]. intros [= Hc Hr]. apply ascii_of_small in Hc; [|done]. cbn in Hc. subst z.
    cbn. f_equal. by apply IH.
  - destruct x as [b [|c t]]; [done|]. cbn in *. destruct n as [|n]; [done|]. intros [= -> _].
    apply Forall_cons in Hall as [Hc _]. cbn in Hc. lia.
Qed.

(** Bytes without a separator, which are not two dots, are a plain component. *)
Lemma decoded_plain enc b : extends_ascii enc -> has_bom b = false -> memchr 47 b = false -> b <> [46; 46] -> plain (enc b).
Proof.
  intros He Hb Hs Hd. destruct (He b Hb) as (xs & Hxs & Hcat & Henc). split.
  - apply not_true_is_false. intros Hsep%has_sep_elem. rewrite Henc in Hsep. apply ascii_part in Hsep; [|done|done].
    rewrite Hcat in Hsep. unfold memchr in Hs. apply not_true_iff_false in Hs. apply Hs, existsb_exists.
    eexists. split; [by apply list_elem_of_In|done].
  - intros Hdd. rewrite Hdd in Henc. apply Hd. rewrite <- Hcat. by apply (dots_part xs Hxs 2).
Qed.

Lemma to_pathbuf_plain (names : list string) : Forall plain names ->
  starts_with_sep (foldl push "" names) = false /\
  parts (foldl push "" names) = concat (parts <$> names).
Proof.
  induction names as [|n names IH] using rev_ind; intros Hn; [done|].
  apply Forall_app in Hn as [Hns [[Hsep _] _]%Forall_cons]. destruct (IH Hns) as [Hs Hp].
  rewrite foldl_app. cbn [foldl]. split.
  - apply not_true_is_false. intros Ht%push_relative; [congruence|done].
  - rewrite parts_push by done. rewrite Hp, fmap_app, concat_app. cbn. by rewrite app_nil_r.
Qed.

Lemma parts_of_plain n p : plain n -> p ∈ parts n -> p = n.
Proof.
  intros [Hs _]. unfold parts. rewrite split_sep_plain by done. simpl.
  destruct (negb _); set_solver.
Qed.

Lemma pathbuf_stays_below (names : list string) : Forall plain names -> stays_below (foldl push "" names).
Proof.
  intros Hn. destruct (to_pathbuf_plain names Hn) as [Hs Hp]. unfold stays_below, components. rewrite Hs, Hp.
  assert (Hok : Forall (fun c => match c with Normal _ | CurDir => True | _ => False end)
                  (to_component <$> concat (parts <$> names))).
  { apply Forall_fmap, Forall_forall. intros p Hin. apply list_elem_of_In, in_concat in Hin as (ps & Hps & Hpp).
    apply list_elem_of_In, list_elem_of_fmap in Hps as (n & -> & Hnn). apply list_elem_of_In in Hpp.
    rewrite Forall_forall in Hn. specialize (Hn n Hnn). apply parts_of_plain in Hpp as ->; [|done].
    cbn [compose]. unfold to_component. destruct (bool_decide _); [done|].
    destruct (bool_decide_reflect (n = "..")) as [Hc|]; [|done]. by destruct Hn. }
  destruct Hok as [|c cs Hc Hcs]; [constructor|]. constructor; [done|].
  unfold drop_cur. apply Forall_forall. intros x [Hx _]%list_elem_of_In%filter_In.
  rewrite Forall_forall in Hcs. by apply Hcs, list_elem_of_In.
Qed.

(** ** Offsets *)

(** Each file starts where the one before it ends. *)
Fixpoint adjacent (off : Z) (fis : list FileInfo) : Prop :=
  match fis with
  | [] => True
  | fi :: fis => fi_offset_in_torrent fi = off /\ adjacent (off + fi_len fi) fis
  end.

Lemma scan_offsets_spec v details off : wf (v_lengths v) -> 0 <= off ->
  Forall (fun d => 0 <= fd_len d) details ->
  off + sumZ (fd_len <$> details) <= l_total_length (v_lengths v) ->
  let fis := to_file_info v <$> scan_offsets (v_lengths v) off details in
  adjacent off fis /\ Forall (file_of (v_lengths v)) fis /\ fi_len <$> fis = fd_len <$> details.
Proof.
  intros Hwf. pose proof (wf_total_bound _ Hwf) as Hb.
  assert (0 < l_piece_length (v_lengths v)) by (destruct Hwf as [(_ & ? & _)]; lia). revert off.
  induction details as [|d details IH]; intros off Hoff Hd Hsum; [done|].
  apply Forall_cons in Hd as [Hd Hds]. rewrite fmap_cons in Hsum. change (sumZ (?a :: ?b)) with (a + sumZ b) in Hsum.
  assert (0 <= sumZ (fd_len <$> details)) by (apply sumZ_nonneg, Forall_fmap; done).
  cbn [scan_offsets]. rewrite !fmap_cons. rewrite wrap64_small by lia.
  destruct (IH (off + fd_len d)) as (Ha & Hf & Hl); [lia|done|lia|]. split_and!.
  - split; [done|]. exact Ha.
  - constructor; [|exact Hf]. split; cbn; [lia|done|lia|done].
  - by rewrite Hl.
Qed.

Lemma scan_offsets_details v details off :
  fx_details <$> scan_offsets (v_lengths v) off details = details.
Proof. revert off. induction details as [|d details IH]; intros off; [done|]. simpl. by rewrite IH. Qed.

Lemma metadata_new_validated de info v : validate de info = Done (Ok v) -> exists details,
  iter_file_details_raw info = Ok details /\ v_info v = info /\
  metadata_new v = Done (mkTorrentMetadata v (to_file_info v <$> scan_offsets (v_lengths v) 0 details)).
Proof.
  intros (details & -> & _ & Hd & _)%validate_Ok. exists details. split; [done|]. split; [done|].
  unfold metadata_new, iter_file_details_ext, iter_file_details. cbn [v_info]. by rewrite Hd.
Qed.


Lemma validated_lengths de info v details : validate de info = Done (Ok v) ->
  iter_file_details_raw info = Ok details -> valid_input (sumZ (fd_len <$> details)) (ti_piece_length info) ->
  wf (v_lengths v) /\ l_total_length (v_lengths v) = sumZ (fd_len <$> details) /\
  l_piece_length (v_lengths v) = ti_piece_length info.
Proof.
  intros Hv Hd Hin. destruct (validate_Ok de info v Hv) as (_ & _ & Hft & _).
  unfold from_torrent in Hft. rewrite Hd in Hft. rsimpl. cbn [try_bind] in Hft.
  rewrite wrap64_small in Hft by (destruct Hin; lia).
  destruct (new_wf _ _ Hin) as (l & Hl & Hwf & Ht & Hp & _). rewrite Hl in Hft. cbn in Hft. injection Hft as Hll. by rewrite <- Hll.
Qed.

(** C15: when the lengths of the files add up to a length the program can
    handle, the metadata of a validated torrent is well formed: its lengths
    are, its files lie one after the other from 0 to the end, with the piece
    ranges that hold them.  This is what the trackers and the data path rely
    on. *)
Theorem metadata_well_formed de info v details : validate de info = Done (Ok v) ->
  iter_file_details_raw info = Ok details -> Forall (fun d => 0 <= fd_len d) details ->
  valid_input (sumZ (fd_len <$> details)) (ti_piece_length info) ->
  exists m, metadata_new v = Done m /\ wf (v_lengths v) /\
    adjacent 0 (md_file_infos m) /\ Forall (file_of (v_lengths v)) (md_file_infos m) /\
    total_len (md_file_infos m) = l_total_length (v_lengths v) /\ length (md_file_infos m) = length details.
Proof.
  intros Hv Hd Hlens Hin. destruct (metadata_new_validated de info v Hv) as (details' & Hd' & _ & Hm).
  rewrite Hd in Hd'. injection Hd' as <-.
  destruct (validated_lengths de info v details Hv Hd Hin) as (Hwf & Ht & _).
  destruct (scan_offsets_spec v details 0 Hwf) as (Ha & Hf & Hfl); [lia|done|lia|].
  eexists. split; [exact Hm|]. cbn [md_file_infos]. split_and!; [done|done|done| |].
  - unfold total_len. by rewrite Hfl, Ht.
  - rewrite length_fmap. rewrite <- (length_fmap fx_details). by rewrite scan_offsets_details.
Qed.

(** ** Witnesses *)

(** A decoder that maps every byte to the character of its number. *)
Definition latin1 (b : Bytes) : string :=
  String.string_of_list_ascii ((fun z => ascii_of_N (Z.to_N z)) <$> b).

(** The ASCII part of ISO-2022-JP: the sequence [ESC ( B] selects ASCII and
    makes no character. *)
Fixpoint iso_2022_jp_ascii (b : Bytes) : string :=
  match b with
  | 27 :: 40 :: 66 :: b => iso_2022_jp_ascii b
  | z :: b => String.String (ascii_of_N (Z.to_N z)) (iso_2022_jp_ascii b)
  | [] => ""
  end.

(** Two files, [d/a] of 3 bytes and [b] of 4. *)
Definition ex_meta_info : TorrentMetaV1Info :=
  mkMetaInfo (Some [110]) (Some (replicate 40 7)) 4 None None None None None None
    (Some [mkMetaFile 3 [[100]; [97]] None None None; mkMetaFile 4 [[98]] (Some [112]) None None]) false.

Lemma latin1_cons z b : latin1 (z :: b) = String.String (ascii_of_N (Z.to_N z)) (latin1 b).
Proof. done. Qed.

Definition ex_decode (b : Bytes) : string :=
  if forallb (fun z => (0 <=? z) && (z <? 128)) b then latin1 b
  else String.String (ascii_of_N 239) (String.String (ascii_of_N 191) (String.String (ascii_of_N 189) "")).

Lemma ex_decode_extends : extends_ascii ex_decode.
Proof.
  intros b _. unfold ex_decode. destruct (forallb _ b) eqn:Hb; cycle 1.
  { exists [(b, String.String (ascii_of_N 239) (String.String (ascii_of_N 191) (String.String (ascii_of_N 189) "")))]. cbn.
    split_and!; [|by rewrite app_nil_r|done]. apply Forall_singleton. right. split; [done|]. cbn. repeat constructor; done. }
  exists ((fun z => ([z], String.String (ascii_of_N (Z.to_N z)) "")) <$> b). split_and!.
  - apply Forall_fmap, Forall_forall. intros z Hz%list_elem_of_In. rewrite forallb_forall in Hb. specialize (Hb z Hz).
    left. exists z. split; [lia|done].
  - clear. induction b as [|z b IH]; [done|]. cbn. by rewrite IH.
  - clear. induction b as [|z b IH]; [done|]. rewrite latin1_cons. cbn [String.list_ascii_of_string fmap list_fmap concat app snd]. by f_equal.
Qed.

Definition ex_validated : ValidatedTorrentMetaV1Info := mkValidated ex_decode (mkLengths 7 4 1 3 1) ex_meta_info.

Lemma ex_no_bom : names_without_bom ex_meta_info.
Proof.
  intros details d b [= <-] Hd Hb. apply elem_of_cons in Hd as [->|Hd].
  - cbn in Hb. repeat (apply elem_of_cons in Hb as [->|Hb]; [done|]). set_solver.
  - apply list_elem_of_singleton in Hd as ->. cbn in Hb. by apply list_elem_of_singleton in Hb as ->.
Qed.


Lemma metadata_well_formed_witness : exists m, metadata_new ex_validated = Done m /\
  total_len (md_file_infos m) = 7 /\ adjacent 0 (md_file_infos m).
Proof.
  destruct (metadata_well_formed (fun _ => ex_decode) ex_meta_info ex_validated
    [mkFileDetails (Tree [[100]; [97]]) 3 None None None; mkFileDetails (Tree [[98]]) 4 (Some [112]) None None])
    as (m & Hm & _ & Ha & _ & Ht & _).
  - vm_compute. reflexivity.
  - reflexivity.
  - repeat constructor; cbn; lia.
  - vm_compute. done.
  - exists m. split_and!; [exact Hm|exact Ht|exact Ha].
Defined.

(** The checks look at the bytes of a name, the path is made of its decoded
    form: with an encoding where an escape sequence decodes to nothing, the
    bytes [.], ESC, [(], B, [.] pass the checks and become a parent directory. *)
Lemma decoded_name_escapes :
  (v ←?! validate (fun _ => iso_2022_jp_ascii)
     (mkMetaInfo None (Some (replicate 20 7)) 4 None None None None None None
       (Some [mkMetaFile 3 [[46; 27; 40; 66; 46]; [97]] None None None]) false);
   m ←! metadata_new v;
   Done (Ok ((fun fi => components (fi_relative_filename fi)) <$> md_file_infos m))) =
  Done (Ok [[ParentDir; Normal "a"]]).
Proof. vm_compute. reflexivity. Qed.

(** [Encoding::decode] removes a byte order mark, the checks do not: the bytes EF
    BB BF before two dots pass them and become a parent directory, whatever the
    encoding. *)
Definition sniffing (enc : Encoding) (b : Bytes) : string :=
  match b with 239 :: 187 :: 191 :: b => ex_decode b | _ => enc b end.

Lemma bom_name_escapes :
  (v ←?! validate (fun _ => sniffing latin1)
     (mkMetaInfo None (Some (replicate 20 7)) 4 None None None None None None
       (Some [mkMetaFile 3 [[239; 187; 191; 46; 46]; [97]] None None None]) false);
   m ←! metadata_new v;
   Done (Ok ((fun fi => components (fi_relative_filename fi)) <$> md_file_infos m))) =
  Done (Ok [[ParentDir; Normal "a"]]).
Proof. vm_compute. reflexivity. Qed.
