(* ===== verification/CreateTorrent.v ===== *)
(** * CreateTorrent: making a torrent of files

    Models [crates/librtbit/src/create_torrent_file.rs] up to the "info"
    dictionary: the walk over the files, hashing their bytes piece by piece,
    and the metainfo that is made.  What is on the disk is an argument: a file,
    or the files that the walk of a directory (the walkdir crate) gives, in its
    order, with the components of their relative paths; a component that is not
    UTF-8 is [None].  How many bytes a read of a file brings is an argument of
    the model, too.  The hash is that of [FileOps].  Serializing the dictionary
    (serde) and the info hash of the result are not modelled. *)

From stdpp Require Import strings.
From S2P Require Import Prelude Lengths FileInfo Storage FileOps TorrentMeta.

(** What is at the path. *)
Record InputFile := mkInputFile {
  if_path : list (option Bytes);  (* after [strip_prefix] *)
  if_content : Bytes;
}.

Inductive Source :=
| SourceFile (content : Bytes)
| SourceDir (files : list InputFile).

Record CreateTorrentOptions := mkCreateOptions {
  co_name : option Bytes;
  co_piece_length : option Z;
}.

Inductive CreateError := NoBasename | ReadError.

Definition choose_piece_length : Z := 2 * 1024 * 1024.

Definition READ_SIZE : Z := 8192.

(** [osstr_to_bytes]: [to_str().unwrap()]. *)
Definition osstr_to_bytes (o : option Bytes) : outcome Bytes := unwrap o.

Fixpoint path_to_bytes (p : list (option Bytes)) : outcome (list Bytes) :=
  match p with
  | [] => Done []
  | c :: p => c ←! osstr_to_bytes c; p ←! path_to_bytes p; Done (c :: p)
  end.

Definition input_files (src : Source) : list InputFile :=
  match src with
  | SourceFile content => [mkInputFile [] content]
  | SourceDir files => files
  end.

Section create.
Context {Hs : Type} `{ISha1 Hs}.

(** The bytes that a read at a position of a file brings, when there are any
    and the buffer has room; [None] is an error. *)
Variable sys_read : nat -> nat -> nat -> option nat.

Definition fd_read (file pos : nat) (rest : Bytes) (max : nat) : option nat :=
  if (max =? 0)%nat || (length rest =? 0)%nat then Some 0%nat else sys_read file pos max.

(** [length] of the current file, the rest of the piece, its checksum, the
    hashes so far, the files so far. *)
Record CreateState := mkCreateState {
  cs_length : Z;
  cs_remaining : Z;
  cs_checksum : Hs;
  cs_hashes : Bytes;
  cs_files : list TorrentMetaV1File;
}.

Section pieces.
Variable piece_length : Z.

(** The bytes of one read go into the checksum. *)
Definition feed (st : CreateState) (buf : Bytes) : CreateState :=
  let size := Z.of_nat (length buf) in
  let checksum := sha_update (cs_checksum st) buf in
  let remaining := cs_remaining st - size in
  if remaining =? 0
  then mkCreateState (wrap64 (cs_length st + size)) piece_length sha_new (cs_hashes st ++ sha_finish checksum) (cs_files st)
  else mkCreateState (wrap64 (cs_length st + size)) remaining checksum (cs_hashes st) (cs_files st).

(** The loop over one file.  Every turn but the last reads a byte at least, so
    one more than its length is fuel enough. *)
Fixpoint hash_file (fuel : nat) (file pos : nat) (path : list (option Bytes)) (rest : Bytes) (st : CreateState) :
    outcome (result CreateError CreateState) :=
  match fuel with
  | O => Panic
  | S fuel =>
      let max_bytes_to_read := Z.to_nat (Z.min (cs_remaining st) READ_SIZE) in
      match fd_read file pos rest max_bytes_to_read with
      | None => Done (Err ReadError)
      | Some O =>
          path ←! path_to_bytes path;
          Done (Ok (mkCreateState (cs_length st) (cs_remaining st) (cs_checksum st) (cs_hashes st)
                      (cs_files st ++ [mkMetaFile (cs_length st) path None None None])))
      | Some size => hash_file fuel file (pos + size) path (drop size rest) (feed st (take size rest))
      end
  end.

Definition hash_one (st : nat * CreateState) (f : InputFile) : outcome (result CreateError (nat * CreateState)) :=
  let '(file, st) := st in
  let st := mkCreateState 0 (cs_remaining st) (cs_checksum st) (cs_hashes st) (cs_files st) in
  r ←?! hash_file (S (length (if_content f))) file 0 (if_path f) (if_content f) st;
  Done (Ok (S file, r)).
End pieces.

Definition create_torrent_raw (basename : option (option Bytes)) (src : Source) (options : CreateTorrentOptions) :
    outcome (result CreateError TorrentMetaV1Info) :=
  basename ←?! Done (ok_or basename NoBasename);
  name ←! match co_name options with Some name => Done name | None => osstr_to_bytes basename end;
  let piece_length := default choose_piece_length (co_piece_length options) in
  r ←?! try_for_each (hash_one piece_length) (0%nat, mkCreateState 0 piece_length sha_new [] []) (input_files src);
  let st := r.2 in
  let hashes := if (0 <? cs_remaining st) && (0 <? cs_length st)
                then cs_hashes st ++ sha_finish (cs_checksum st) else cs_hashes st in
  let single := match src with SourceFile _ => true | SourceDir _ => false end in
  Done (Ok (mkMetaInfo (Some name) (Some hashes) piece_length None
              (if single then Some (cs_length st) else None) None None None None
              (if single then None else Some (cs_files st)) false)).
End create.

(** ** What is hashed *)

(** The data of the torrent: its files one after the other. *)
Definition source_data (src : Source) : Bytes := concat (if_content <$> input_files src).

Definition source_total (src : Source) : Z := Z.of_nat (length (source_data src)).

(** Every component is UTF-8. *)
Definition utf8_paths (src : Source) : Prop :=
  Forall (fun f => Forall is_Some (if_path f)) (input_files src).

Section spec.
Context {Hs : Type} `{Sha1Laws Hs}.
Variable sys_read : nat -> nat -> nat -> option nat.
Variable src : Source.

(** A read brings at least a byte and at most what there is and fits. *)
Hypothesis read_some : forall file f pos max, input_files src !! file = Some f -> (pos < length (if_content f))%nat -> (0 < max)%nat ->
  exists n, sys_read file pos max = Some n /\ (0 < n <= Nat.min max (length (if_content f) - pos))%nat.

Variable pl : Z.
Hypothesis Hpl : 0 < pl.

(** [d] has been hashed: whole pieces, and the rest is in the checksum. *)
Definition hashed_all (d : Bytes) (remaining : Z) (checksum : Hs) (hashes : Bytes) : Prop :=
  exists ps r, d = concat ps ++ r /\ Forall (fun p => Z.of_nat (length p) = pl) ps /\ Z.of_nat (length r) < pl /\
    hashes = concat (digest <$> ps) /\ fed sha_new r checksum /\ remaining = pl - Z.of_nat (length r).

Lemma feed_hashed d buf (st : CreateState (Hs := Hs)) : hashed_all d (cs_remaining st) (cs_checksum st) (cs_hashes st) ->
  (0 < length buf)%nat -> Z.of_nat (length buf) <= cs_remaining st ->
  let st' := feed pl st buf in hashed_all (d ++ buf) (cs_remaining st') (cs_checksum st') (cs_hashes st').
Proof.
  intros (ps & r & -> & Hps & Hr & Hh & Hf & Hrem) Hpos Hle. unfold feed. cbv zeta.
  assert (Hf' : fed sha_new (r ++ buf) (sha_update (cs_checksum st) buf)) by (eapply fed_app; [exact Hf|apply fed_one]).
  destruct (Z.eqb_spec (cs_remaining st - Z.of_nat (length buf)) 0) as [Hz|Hz]; cbn.
  - exists (ps ++ [r ++ buf]), []. split_and!.
    + rewrite concat_app. simpl. by rewrite !app_nil_r, app_assoc.
    + apply Forall_app. split; [done|]. constructor; [|done]. rewrite length_app. lia.
    + simpl. lia.
    + rewrite fmap_app, concat_app. simpl. rewrite app_nil_r, Hh. f_equal. by apply fed_digest.
    + apply fed_nil.
    + simpl. lia.
  - exists ps, (r ++ buf). split_and!; [by rewrite app_assoc|done|rewrite length_app; lia|done|done|rewrite length_app; lia].
Qed.

Lemma path_to_bytes_some p : Forall is_Some p -> exists p', path_to_bytes p = Done p'.
Proof.
  intros Hp. induction Hp as [|c p [b ->] _ [p' IH]]; [by eexists|]. cbn. rewrite IH. by eexists.
Qed.

Lemma hash_file_spec file f path : input_files src !! file = Some f -> Forall is_Some path ->
  exists path', path_to_bytes path = Done path' /\
  forall fuel pos d (st : CreateState (Hs := Hs)), (pos <= length (if_content f))%nat -> (length (if_content f) - pos < fuel)%nat ->
  hashed_all d (cs_remaining st) (cs_checksum st) (cs_hashes st) -> 0 <= cs_length st ->
  cs_length st + Z.of_nat (length (if_content f) - pos) < U64 ->
  exists st', hash_file sys_read pl fuel file pos path (drop pos (if_content f)) st = Done (Ok st') /\
    hashed_all (d ++ drop pos (if_content f)) (cs_remaining st') (cs_checksum st') (cs_hashes st') /\
    cs_length st' = cs_length st + Z.of_nat (length (if_content f) - pos) /\
    cs_files st' = cs_files st ++ [mkMetaFile (cs_length st') path' None None None].
Proof.
  intros Hfile Hpath. destruct (path_to_bytes_some path Hpath) as [path' Hp']. exists path'. split; [done|].
  induction fuel as [|fuel IH]; intros pos d st Hpos Hfuel Hh Hl0 Hl; [lia|]. cbn [hash_file].
  set (mx := Z.to_nat _). assert (Hmx : (0 < mx)%nat).
  { destruct Hh as (ps & r & _ & _ & Hr & _ & _ & Hrem). unfold mx, READ_SIZE. lia. }
  unfold fd_read. rewrite length_drop. destruct (Nat.eqb_spec mx 0) as [|_]; [lia|]. cbn [orb].
  destruct (Nat.eqb_spec (length (if_content f) - pos) 0) as [Hz|Hz].
  - rewrite Hp'. cbn. eexists. split; [done|]. rewrite drop_ge, app_nil_r by lia. cbn. split_and!; [done|lia|].
    repeat f_equal; lia.
  - destruct (read_some file f pos mx Hfile ltac:(lia) Hmx) as (n & -> & Hn0 & Hn). destruct n as [|n]; [lia|].
    rewrite drop_drop. set (buf := take (S n) (drop pos (if_content f))).
    assert (Hb : length buf = S n) by (unfold buf; rewrite length_take, length_drop; lia).
    assert (Hle : Z.of_nat (length buf) <= cs_remaining st) by (unfold mx in Hn; lia).
    pose proof (feed_hashed d buf st Hh ltac:(lia) Hle) as Hfeed. cbv zeta in Hfeed.
    assert (Hfl : cs_length (feed pl st buf) = cs_length st + Z.of_nat (S n) /\ cs_files (feed pl st buf) = cs_files st).
    { unfold feed. destruct (_ =? 0); cbn; rewrite Hb; (split; [apply wrap64_small; lia|done]). }
    destruct Hfl as [Hfl Hff].
    destruct (IH (pos + S n)%nat (d ++ buf) (feed pl st buf)) as (st' & Hst' & Hh' & Hl' & Hf'); [lia|lia|done|lia|lia|].
    exists st'. split; [exact Hst'|]. split_and!.
    + assert (Hsplit : drop pos (if_content f) = buf ++ drop (pos + S n) (if_content f)).
      { unfold buf. by rewrite <- drop_drop, take_drop. }
      rewrite Hsplit, app_assoc. exact Hh'.
    + lia.
    + by rewrite Hf', Hff.
Qed.

(** The length of the last file, and what the loop over the files leaves. *)
Definition last_length (fs : list InputFile) : Z := default 0 ((fun f => Z.of_nat (length (if_content f))) <$> last fs).

Record files_hashed (fs : list InputFile) (st : nat * CreateState (Hs := Hs)) : Prop := {
  fh_count : st.1 = length fs;
  fh_hashed : hashed_all (concat (if_content <$> fs)) (cs_remaining st.2) (cs_checksum st.2) (cs_hashes st.2);
  fh_length : cs_length st.2 = last_length fs;
  fh_lengths : tf_length <$> cs_files st.2 = (fun f => Z.of_nat (length (if_content f))) <$> fs;
  fh_attrs : Forall (fun f => tf_attr f = None) (cs_files st.2);
}.

Lemma content_small f : f ∈ input_files src -> Z.of_nat (length (if_content f)) <= source_total src.
Proof.
  intros Hf. unfold source_total, source_data. apply list_elem_of_split in Hf as (l1 & l2 & ->).
  rewrite fmap_app, fmap_cons, concat_app. cbn. rewrite !length_app. lia.
Qed.

Lemma hash_files_spec : utf8_paths src -> source_total src < U64 -> exists st,
  try_for_each (hash_one sys_read pl) (0%nat, mkCreateState 0 pl sha_new [] []) (input_files src) = Done (Ok st) /\
  files_hashed (input_files src) st.
Proof.
  intros Hutf Htot. apply try_for_each_inv.
  - constructor; [done| |done|done|constructor]. exists [], []. split_and!; [done|constructor|simpl; lia|done|apply fed_nil|simpl; lia].
  - intros fs f [k st] [rest Hrest] [Hk Hh _ Hls Hat]. cbn in Hk, Hls, Hat. subst k. rewrite <- app_assoc in Hrest. cbn [app] in Hrest.
    assert (Hin : input_files src !! length fs = Some f) by (by rewrite Hrest, list_lookup_middle).
    assert (Hsm : Z.of_nat (length (if_content f)) < U64) by (pose proof (content_small f (list_elem_of_lookup_2 _ _ _ Hin)); lia).
    assert (Hp : Forall is_Some (if_path f)) by exact (Forall_lookup_1 _ _ _ _ Hutf Hin).
    destruct (hash_file_spec (length fs) f (if_path f) Hin Hp) as (path' & _ & Hspec).
    destruct (Hspec (S (length (if_content f))) 0%nat (concat (if_content <$> fs))
      (mkCreateState 0 (cs_remaining st) (cs_checksum st) (cs_hashes st) (cs_files st))) as (st' & Hst' & Hh' & Hl' & Hf');
      [lia|lia|exact Hh|cbn; lia|cbn [cs_length]; lia|].
    exists (S (length fs), st'). unfold hash_one. rewrite drop_0 in Hst'. rewrite Hst'. split; [done|].
    cbn [cs_length cs_files] in Hl', Hf'. rewrite Nat.sub_0_r in Hl'. constructor; cbn [fst snd].
    + rewrite length_app. simpl. lia.
    + rewrite fmap_app, concat_app. cbn. by rewrite app_nil_r.
    + unfold last_length. rewrite last_snoc. cbn. lia.
    + rewrite Hf', fmap_app, Hls, fmap_app. cbn. repeat f_equal. lia.
    + rewrite Hf'. apply Forall_app. split; [done|]. by constructor.
Qed.
End spec.

(** The details of the files of a created torrent are those of the source. *)
Lemma created_details src name pieces pl len (files : list TorrentMetaV1File) details :
  (if match src with SourceFile _ => true | SourceDir _ => false end then len = last_length (input_files src)
   else tf_length <$> files = (fun f => Z.of_nat (length (if_content f))) <$> input_files src /\
        Forall (fun f => tf_attr f = None) files) ->
  let single := match src with SourceFile _ => true | SourceDir _ => false end in
  iter_file_details_raw (mkMetaInfo name pieces pl None (if single then Some len else None) None None None None
    (if single then None else Some files) false) = Ok details ->
  fd_len <$> details = (fun f => Z.of_nat (length (if_content f))) <$> input_files src /\
  Forall (fun d => fd_attr d = None) details.
Proof.
  destruct src as [content|fs]; cbn.
  - intros ->. intros [= <-]. cbn. split; [done|by repeat constructor].
  - intros [Hl Ha]. unfold iter_file_details_raw. cbn. destruct (length files =? 0)%nat; [done|]. intros [= <-].
    rewrite <- list_fmap_compose. split; [exact Hl|]. apply Forall_fmap. exact Ha.
Qed.

(** ** What is stored *)

Section check.
Context {St : Type} `{StorageLaws St}.
Context {Hs : Type} `{Sha1Laws Hs}.

(** The storage has the files. *)
Definition holds (s : St) (contents : list Bytes) : Prop := forall k c, contents !! k = Some c ->
  opened s k = true /\ forall p, 0 <= p < Z.of_nat (length c) -> byte_at s k p = c !! Z.to_nat p.

Lemma holds_byte s contents : forall idx fis p, fi_len <$> fis = (fun c => Z.of_nat (length c)) <$> contents ->
  Forall (fun fi => padding (fi_attrs fi) = false) fis ->
  (forall k c, contents !! k = Some c -> opened s (idx + k) = true /\
     forall p, 0 <= p < Z.of_nat (length c) -> byte_at s (idx + k) p = c !! Z.to_nat p) -> 0 <= p ->
  torrent_byte s idx fis p = concat contents !! Z.to_nat p.
Proof.
  induction contents as [|c contents IH]; intros idx fis p Hlen Hpad Hh Hp.
  { apply fmap_nil_inv in Hlen as ->. reflexivity. }
  destruct fis as [|fi fis]; [done|]. injection Hlen as Hfi Hlen. apply Forall_cons in Hpad as [Hpd Hpad].
  cbn [torrent_byte concat]. rewrite Hfi, Hpd. destruct (Z.ltb_spec p (Z.of_nat (length c))).
  - rewrite lookup_app_l by lia. destruct (Hh 0%nat c eq_refl) as [_ Hb]. rewrite Nat.add_0_r in Hb. by apply Hb.
  - rewrite lookup_app_r by lia. rewrite (IH (idx + 1)%nat fis (p - Z.of_nat (length c)) Hlen Hpad); [f_equal; lia| |lia].
    intros k c' Hk. replace (idx + 1 + k)%nat with (idx + S k)%nat by lia. by apply (Hh (S k)).
Qed.

Lemma holds_ready s contents fis : fi_len <$> fis = (fun c => Z.of_nat (length c)) <$> contents -> holds s contents -> ready s 0 fis.
Proof.
  intros Hlen Hh k fi Hk _. assert (Hk' : (fi_len <$> fis) !! k = Some (fi_len fi)) by (by rewrite list_lookup_fmap, Hk).
  rewrite Hlen, list_lookup_fmap in Hk'. destruct (contents !! k) as [c|] eqn:Hc; [|done]. cbn in Hk'. injection Hk' as Hl.
  destruct (Hh k c Hc) as [Ho Hb]. split; [done|]. intros p Hp. cbn. rewrite Hb by lia. apply lookup_lt_is_Some. lia.
Qed.
End check.

(** ** Blocks of equal size *)

Lemma take_drop_concat {A} n (ps : list (list A)) r i : Forall (fun p => length p = n) ps -> (i <= length ps)%nat ->
  (length r <= n)%nat -> take n (drop (i * n) (concat ps ++ r)) = default r (ps !! i).
Proof.
  intros Hps. revert i. induction Hps as [|p ps Hp Hps IH]; intros i Hi Hr.
  - assert (i = 0)%nat as -> by (cbn in Hi; lia). cbn. by rewrite take_ge.
  - destruct i as [|i].
    + cbn. rewrite drop_0, <- app_assoc, take_app_le by lia. apply take_ge. lia.
    + cbn in *. rewrite <- app_assoc, drop_app_ge by lia. replace (n + i * n - length p)%nat with (i * n)%nat by lia. apply IH; lia.
Qed.

Lemma length_concat_eq {A} n (ps : list (list A)) : Forall (fun p => length p = n) ps -> length (concat ps) = (length ps * n)%nat.
Proof. intros Hps. induction Hps as [|p ps Hp _ IH]; [done|]. cbn. rewrite length_app, IH. lia. Qed.

Lemma lens_nonneg {A} (f : A -> Z) l : Forall (fun z => 0 <= z) (f <$> l) <-> Forall (fun x => 0 <= f x) l.
Proof. apply Forall_fmap. Qed.

Lemma sum_lengths (fs : list InputFile) :
  sumZ ((fun f => Z.of_nat (length (if_content f))) <$> fs) = Z.of_nat (length (concat (if_content <$> fs))).
Proof.
  induction fs as [|f fs IH]; [done|]. rewrite !fmap_cons. cbn [concat]. rewrite length_app.
  change (sumZ (?a :: ?b)) with (a + sumZ b). lia.
Qed.

(** ** The created torrent *)

Section created.
Context {St : Type} `{StorageLaws St}.
Context {Hs : Type} `{Sha1Laws Hs}.
Hypothesis digest_length : forall l, length (digest l) = 20%nat.
Variable sys_read : nat -> nat -> nat -> option nat.
Variable src : Source.
Hypothesis read_some : forall file f pos max, input_files src !! file = Some f -> (pos < length (if_content f))%nat -> (0 < max)%nat ->
  exists n, sys_read file pos max = Some n /\ (0 < n <= Nat.min max (length (if_content f) - pos))%nat.

(** What a created torrent is: the hashes of the whole pieces, and one more
    unless the last file is empty. *)
Definition created (pl : Z) (info : TorrentMetaV1Info) : Prop :=
  exists ps r, source_data src = concat ps ++ r /\ Forall (fun p => length p = Z.to_nat pl) ps /\ Z.of_nat (length r) < pl /\
    ti_pieces info = Some (concat (digest <$> ps) ++ if 0 <? last_length (input_files src) then digest r else []) /\
    ti_piece_length info = pl /\
    forall details, iter_file_details_raw info = Ok details ->
      fd_len <$> details = (fun f => Z.of_nat (length (if_content f))) <$> input_files src /\
      Forall (fun d => fd_attr d = None) details.

Lemma create_spec name basename options pl : default choose_piece_length (co_piece_length options) = pl -> 0 < pl ->
  co_name options = Some name \/ basename = Some name -> utf8_paths src -> source_total src < U64 ->
  exists info, create_torrent_raw sys_read (Some basename) src options = Done (Ok info) /\ created pl info.
Proof.
  intros Hpo Hpl Hname Hutf Htot. unfold create_torrent_raw. cbn [ok_or try_bind]. rewrite Hpo.
  assert (Hn : exists n, match co_name options with Some name => Done name | None => osstr_to_bytes basename end = Done n).
  { destruct (co_name options); [by eexists|]. destruct Hname as [[=]| ->]. by eexists. }
  destruct Hn as [n ->]. rsimpl. cbv zeta.
  destruct (hash_files_spec sys_read src read_some pl Hpl Hutf Htot) as ([k st] & -> & Hfh). rsimpl. cbn [snd].
  destruct Hfh as [_ (ps & r & Hd & Hps & Hr & Hh & Hf & Hrem) Hl Hls Hat]. cbn [fst snd] in *.
  eexists. split; [done|]. exists ps, r. cbn [ti_pieces ti_piece_length]. split_and!; [done| |done| |done|].
  - eapply Forall_impl; [exact Hps|]. cbn. lia.
  - rewrite (proj2 (Z.ltb_lt 0 (cs_remaining st)) ltac:(lia)), Hl, Hh. cbn [andb]. f_equal.
    destruct (0 <? _); [by rewrite (fed_digest r _ Hf)|by rewrite app_nil_r].
  - intros details. apply created_details. by destruct src.
Qed.

(** The hash of piece [i] is that of its bytes. *)
Lemma created_hash pl ps r i : 0 < pl -> Forall (fun p => length p = Z.to_nat pl) ps -> Z.of_nat (length r) < pl ->
  0 <= i <= Z.of_nat (length ps) -> compare_hash (Some (concat (digest <$> ps) ++ digest r)) i
    (digest (take (Z.to_nat pl) (drop (Z.to_nat (i * pl)) (concat ps ++ r)))) = Some true.
Proof.
  intros Hpl Hps Hr Hi. unfold compare_hash. cbn. replace (Z.to_nat (i * pl)) with (Z.to_nat i * Z.to_nat pl)%nat by lia.
  replace (Z.to_nat (i * 20)) with (Z.to_nat i * 20)%nat by lia.
  rewrite (take_drop_concat (Z.to_nat pl)) by (done || lia).
  assert (Hdp : Forall (fun p : Bytes => length p = 20%nat) (digest <$> ps)) by (apply Forall_fmap, Forall_true; intros; apply digest_length).
  assert (Hlen : length (concat (digest <$> ps) ++ digest r) = (20 * length ps + 20)%nat).
  { rewrite length_app, digest_length, (length_concat_eq 20), length_fmap by done. lia. }
  rewrite Hlen. destruct (Nat.leb_spec (Z.to_nat i * 20 + 20) (20 * length ps + 20)); [|lia].
  rewrite (take_drop_concat 20); [|done|rewrite length_fmap; lia|by rewrite digest_length].
  rewrite list_lookup_fmap. f_equal. apply bool_decide_eq_true. by destruct (ps !! Z.to_nat i).
Qed.

(** The files of a validated torrent that was created are those on disk. *)
Lemma created_layout pl de info v m : valid_input (source_total src) pl -> ti_piece_length info = pl ->
  (forall details, iter_file_details_raw info = Ok details ->
    fd_len <$> details = (fun f => Z.of_nat (length (if_content f))) <$> input_files src /\ Forall (fun d => fd_attr d = None) details) ->
  validate de info = Done (Ok v) -> metadata_new v = Done m ->
  wf (v_lengths v) /\ l_total_length (v_lengths v) = source_total src /\ l_piece_length (v_lengths v) = pl /\
  fi_len <$> md_file_infos m = (fun c : Bytes => Z.of_nat (length c)) <$> (if_content <$> input_files src) /\
  Forall (fun fi => padding (fi_attrs fi) = false) (md_file_infos m) /\ lens_ok (md_file_infos m) /\
  total_len (md_file_infos m) = l_total_length (v_lengths v).
Proof.
  intros Hin Hipl Hdet Hv Hm.
  destruct (metadata_new_validated de info v Hv) as (details & Hraw & _ & Hm'). rewrite Hm in Hm'. injection Hm' as ->.
  destruct (Hdet details Hraw) as [Hlens Hattr].
  assert (Hsum : sumZ (fd_len <$> details) = source_total src).
  { rewrite Hlens. apply sum_lengths. }
  destruct (validated_lengths de info v details Hv Hraw) as (Hwf & Htot & Hlpl); [by rewrite Hsum, Hipl|].
  rewrite Hsum in Htot. rewrite Hipl in Hlpl. cbn [md_file_infos]. set (fis := to_file_info v <$> _).
  assert (Hd0 : Forall (fun d => 0 <= fd_len d) details).
  { apply (lens_nonneg fd_len). rewrite Hlens. apply Forall_fmap, Forall_true. intros f. cbn. lia. }
  destruct (scan_offsets_spec v details 0 Hwf) as (_ & _ & Hfl); [lia|done|lia|]. fold fis in Hfl.
  do 3 (split; [done|]). split; [rewrite Hfl, Hlens; by rewrite <- list_fmap_compose|]. split; [|split].
  - apply Forall_fmap. apply Forall_forall. intros x Hx. cbn. unfold attrs.
    rewrite Forall_forall in Hattr. rewrite Hattr; [done|]. rewrite <- (scan_offsets_details v details 0). by apply list_elem_of_fmap_2.
  - apply (lens_nonneg fi_len). rewrite Hfl. by apply (lens_nonneg fd_len).
  - unfold total_len. by rewrite Hfl, Hsum.
Qed.

End created.

(** ** A directory of two files *)

Section example.
#[local] Existing Instance ex_storage.
#[local] Existing Instance ex_laws.
#[local] Existing Instance ex_sha.
#[local] Existing Instance ex_sha_laws.

Definition ex_source : Source :=
  SourceDir [mkInputFile [Some [97]] [1; 2; 3]; mkInputFile [Some [98]] [4; 5; 6]].

(** Every read brings one byte. *)
Definition byte_reads (_ _ _ : nat) : option nat := Some 1%nat.

Definition ex_options : CreateTorrentOptions := mkCreateOptions (Some [100]) (Some 4).

Lemma ex_digest_length (l : list Z) : length (digest l) = 20%nat.
Proof. cbn [digest ex_sha_laws]. rewrite length_take, length_app, length_replicate. lia. Qed.

Example ex_created : match create_torrent_raw byte_reads (Some None) ex_source ex_options with
  | Done (Ok info) => ti_pieces info = six_hashes
  | _ => False
  end.
Proof. vm_compute. done. Qed.


(** When the length is a multiple of the piece length there is a hash too
    many, of no bytes. *)
Lemma extra_hash_at_multiple :
  match create_torrent_raw byte_reads (Some None) (SourceDir [mkInputFile [Some [97]] [1; 2; 3; 4]]) ex_options with
  | Done (Ok info) => ti_pieces info = Some (digest [1; 2; 3; 4] ++ digest [])
  | _ => False
  end.
Proof. vm_compute. done. Qed.

(** When the last file is empty the hash of the last piece is missing. *)
Lemma empty_last_file_loses_hash :
  match create_torrent_raw byte_reads (Some None)
    (SourceDir [mkInputFile [Some [97]] [1; 2; 3; 4; 5]; mkInputFile [Some [98]] []]) ex_options with
  | Done (Ok info) => ti_pieces info = Some (digest [1; 2; 3; 4])
  | _ => False
  end.
Proof. vm_compute. done. Qed.

(** A name that is not UTF-8 panics. *)
Lemma non_utf8_name_panics :
  create_torrent_raw byte_reads (Some None) (SourceDir [mkInputFile [None] [1]]) ex_options = Panic.
Proof. vm_compute. done. Qed.
End example.
