(* ===== verification/Relocate.v ===== *)
(** * Relocate: renaming the files of a torrent and moving its root

    Models [rename_locked], [rename_to] and [rebase] of
    [crates/librtbit/src/storage/filesystem/opened_file.rs], [rename_file],
    [move_root] and [remove_directory_if_empty] of [filesystem/fs.rs], and
    [validate_renames], [rename_files] and [set_location] of
    [torrent_state/mod.rs].  The disk is the map from paths to inodes and the
    set of directories; what the system refuses for reasons of its own
    (permissions, devices) is given by oracles that do not change during an
    operation. *)

From stdpp Require Import strings.
From S2P Require Import Prelude Path FileInfo TorrentMeta.

Record Disk := mkDisk {
  d_files : gmap Path nat;
  d_dirs : gset Path;
}.

(** [OpenedFileLocked]: a dummy has no descriptor. *)
Record OpenedFile := mkOpenedFile {
  of_path : Path;
  of_fd : option nat;
}.

Definition new_dummy : OpenedFile := mkOpenedFile [] None.

(** [FilesystemStorage], as far as paths go. *)
Record FsStorage := mkFsStorage {
  fs_output_folder : Path;
  fs_opened_files : list OpenedFile;
  fs_read_only : bool;
}.

Inductive MoveError :=
| MReadOnly | MNoSuchFile | MExists | MMkdir | MRename | MReopen | MNotUnderRoot
| MNotStopped | MNothing | MNoSuchId | MEmptyPath | MAbsolute | MBadComponent | MCollision.

Section relocate.
(** Whether the system creates a directory, renames, reopens; [blocked]: it
    reports something at a path, or an error, where we know of nothing. *)
Variables (mkdir_ok : Path -> bool) (rename_ok : Path -> Path -> bool) (open_ok blocked : Path -> bool).

Definition on_disk (d : Disk) (p : Path) : bool :=
  bool_decide (is_Some (d_files d !! p)) || bool_decide (p ∈ d_dirs d).

(** The path and everything above it. *)
Definition ancestors (p : Path) : list Path := (fun n => take n p) <$> seq 1 (length p).

(** [std::fs::create_dir_all]; when it fails it has created nothing. *)
Definition create_dir_all (d : Disk) (p : Path) : result MoveError Disk :=
  if decide (p = [] \/ p ∈ d_dirs d) then Ok d
  else if existsb (fun a => bool_decide (is_Some (d_files d !! a))) (ancestors p) then Err MMkdir
  else if negb (mkdir_ok p) then Err MMkdir
  else Ok (mkDisk (d_files d) (list_to_set (ancestors p) ∪ d_dirs d)).

(** [std::fs::rename] of a file to a path where nothing is. *)
Definition fs_rename (d : Disk) (old new : Path) : result MoveError Disk :=
  match d_files d !! old with
  | Some i => if rename_ok old new then Ok (mkDisk (<[new := i]> (delete old (d_files d))) (d_dirs d)) else Err MRename
  | None => Err MRename
  end.

Definition rename_locked (d : Disk) (g : OpenedFile) (new_full : Path) :
    result MoveError unit * Disk * OpenedFile :=
  match of_fd g with
  | None => (Ok tt, d, mkOpenedFile new_full None)
  | Some _ =>
      if decide (new_full = of_path g) then (Ok tt, d, g)
      else if on_disk d new_full || blocked new_full then (Err MExists, d, g)
      else
        match
          match parent new_full with Some parent => create_dir_all d parent | None => Ok d end
        with
        | Err e => (Err e, d, g)
        | Ok d =>
            match fs_rename d (of_path g) new_full with
            | Err e => (Err e, d, g)
            | Ok d =>
                match d_files d !! new_full with
                | Some i => if open_ok new_full then (Ok tt, d, mkOpenedFile new_full (Some i)) else (Err MReopen, d, g)
                | None => (Err MReopen, d, g)
                end
            end
        end
  end.

(** [OpenedFile::rename_to] of file [k] of the storage. *)
Definition rename_to (d : Disk) (fs : list OpenedFile) (k : nat) (new_full : Path) :
    result MoveError unit * Disk * list OpenedFile :=
  match fs !! k with
  | None => (Err MNoSuchFile, d, fs)
  | Some g =>
      let '(r, d, g) := rename_locked d g new_full in (r, d, <[k := g]> fs)
  end.

Definition rename_file (d : Disk) (s : FsStorage) (file_id : nat) (new_relative : Path) :
    result MoveError unit * Disk * FsStorage :=
  if fs_read_only s then (Err MReadOnly, d, s)
  else
    let '(r, d, fs) := rename_to d (fs_opened_files s) file_id (path_join (fs_output_folder s) new_relative) in
    (r, d, mkFsStorage (fs_output_folder s) fs (fs_read_only s)).

(** [OpenedFile::rebase]. *)
Definition rebase (d : Disk) (fs : list OpenedFile) (k : nat) (old_root new_root : Path) :
    result MoveError unit * Disk * list OpenedFile :=
  match fs !! k with
  | None => (Err MNoSuchFile, d, fs)
  | Some g =>
      match strip_prefix (of_path g) old_root with
      | None => (Err MNotUnderRoot, d, fs)
      | Some relative =>
          let '(r, d, g) := rename_locked d g (path_join new_root relative) in (r, d, <[k := g]> fs)
      end
  end.

(** Undoing, whatever fails. *)
Fixpoint rollback_rebase (d : Disk) (fs : list OpenedFile) (ks : list nat) (from to : Path) :
    Disk * list OpenedFile :=
  match ks with
  | [] => (d, fs)
  | k :: ks => let '(_, d, fs) := rebase d fs k from to in rollback_rebase d fs ks from to
  end.

(** The loop of [move_root] over the files [ks], with [moved] already moved. *)
Fixpoint move_loop (d : Disk) (fs : list OpenedFile) (old_root new_root : Path) (moved ks : list nat) :
    result MoveError unit * Disk * list OpenedFile :=
  match ks with
  | [] => (Ok tt, d, fs)
  | k :: ks =>
      match rebase d fs k old_root new_root with
      | (Ok _, d, fs) => move_loop d fs old_root new_root (moved ++ [k]) ks
      | (Err e, d, fs) =>
          let '(d, fs) := rollback_rebase d fs (reverse moved) new_root old_root in (Err e, d, fs)
      end
  end.

Definition move_root (d : Disk) (s : FsStorage) (new_root : Path) : result MoveError unit * Disk * FsStorage :=
  if fs_read_only s then (Err MReadOnly, d, s)
  else
    let old_root := fs_output_folder s in
    if decide (old_root = new_root) then (Ok tt, d, s)
    else
      let '(r, d, fs) :=
        move_loop d (fs_opened_files s) old_root new_root [] (seq 0 (length (fs_opened_files s))) in
      match r with
      | Ok _ => (Ok tt, d, mkFsStorage new_root fs (fs_read_only s))
      | Err e => (Err e, d, mkFsStorage old_root fs (fs_read_only s))
      end.

(** [std::fs::remove_dir] refuses a directory that is not empty. *)
Definition dir_empty (d : Disk) (p : Path) : bool :=
  negb (existsb (fun q => bool_decide (parent q = Some p)) ((map_to_list (d_files d)).*1 ++ elements (d_dirs d))).

Definition remove_directory_if_empty (d : Disk) (s : FsStorage) (path : Path) : Disk :=
  if fs_read_only s then d
  else
    let path := path_join (fs_output_folder s) path in
    if decide (path ∈ d_dirs d) then
      if dir_empty d path then mkDisk (d_files d) (d_dirs d ∖ {[path]}) else d
    else d.

(** ** The operations on a paused torrent *)

Definition check_rename (n : nat) (paths : list Path) (r : nat * string) : result MoveError (list Path) :=
  let '(file_id, new_relative) := r in
  if (n <=? file_id)%nat then Err MNoSuchId
  else if bool_decide (new_relative = "") then Err MEmptyPath
  else if is_absolute new_relative then Err MAbsolute
  else if negb (forallb is_normal (components new_relative)) then Err MBadComponent
  else Ok (<[file_id := components new_relative]> paths).

Fixpoint check_renames (n : nat) (paths : list Path) (renames : list (nat * string)) : result MoveError (list Path) :=
  match renames with
  | [] => Ok paths
  | r :: renames => paths ←? check_rename n paths r; check_renames n paths renames
  end.

Definition validate_renames (file_infos : list FileInfo) (renames : list (nat * string)) : result MoveError unit :=
  if (length renames =? 0)%nat then Err MNothing
  else
    paths ←? check_renames (length file_infos) ((fun f => components (fi_relative_filename f)) <$> file_infos) renames;
    if decide (NoDup paths) then Ok tt else Err MCollision.

Fixpoint rollback_renames (d : Disk) (s : FsStorage) (old : list (nat * Path)) : Disk * FsStorage :=
  match old with
  | [] => (d, s)
  | (k, old_relative) :: old => let '(_, d, s) := rename_file d s k old_relative in rollback_renames d s old
  end.

(** The loop of [rename_files]; [old] are the old paths of the renames done. *)
Fixpoint rename_loop (d : Disk) (s : FsStorage) (file_infos : list FileInfo) (old : list (nat * Path))
    (renames : list (nat * string)) : result MoveError unit * Disk * FsStorage :=
  match renames with
  | [] => (Ok tt, d, s)
  | (file_id, new_relative) :: renames =>
      match rename_file d s file_id (components new_relative) with
      | (Ok _, d, s) =>
          rename_loop d s file_infos
            (old ++ [(file_id, default [] ((fun f => components (fi_relative_filename f)) <$> file_infos !! file_id))]) renames
      | (Err e, d, s) =>
          let '(d, s) := rollback_renames d s (reverse old) in (Err e, d, s)
      end
  end.

(** Removing the directories the files were in. *)
Definition prune (s : FsStorage) (file_infos : list FileInfo) (d : Disk) (r : nat * string) : Disk :=
  match file_infos !! r.1 with
  | None => d
  | Some f =>
      match parent (components (fi_relative_filename f)) with
      | None => d
      | Some [] => d
      | Some p => remove_directory_if_empty d s p
      end
  end.

(** [rename_files] of a paused torrent ([stopped] is false in other states). *)
Definition rename_files (stopped : bool) (d : Disk) (s : FsStorage) (m : TorrentMetadata) (renames : list (nat * string)) :
    result MoveError unit * Disk * FsStorage * TorrentMetadata :=
  if negb stopped then (Err MNotStopped, d, s, m)
  else
    match validate_renames (md_file_infos m) renames with
    | Err e => (Err e, d, s, m)
    | Ok _ =>
        match rename_loop d s (md_file_infos m) [] renames with
        | (Err e, d, s) => (Err e, d, s, m)
        | (Ok _, d, s) =>
            (Ok tt, foldl (prune s (md_file_infos m)) d renames, s, with_renamed_files m renames)
        end
    end.

(** [set_location]; the answer is the new value of [output_folder_override]. *)
Definition set_location (stopped : bool) (d : Disk) (s : FsStorage) (root new_root : Path) :
    result MoveError unit * Disk * FsStorage * Path :=
  if negb stopped then (Err MNotStopped, d, s, root)
  else
    match create_dir_all d new_root with
    | Err e => (Err e, d, s, root)
    | Ok d =>
        match move_root d s new_root with
        | (Err e, d, s) => (Err e, d, s, root)
        | (Ok _, d, s) => (Ok tt, d, s, new_root)
        end
    end.

(** ** Moving a file and moving it back *)

Record disk_ok (d : Disk) : Prop := {
  dk_disjoint : forall p, p ∈ d_dirs d -> d_files d !! p = None;
  dk_parent : forall p i q, d_files d !! p = Some i -> parent p = Some q -> q = [] \/ q ∈ d_dirs d;
}.

(** Every open file is where its handle says, and no two at the same place. *)
Record files_ok (d : Disk) (fs : list OpenedFile) : Prop := {
  fo_on_disk : forall k g i, fs !! k = Some g -> of_fd g = Some i -> d_files d !! of_path g = Some i;
  fo_distinct : forall k k' g g', fs !! k = Some g -> fs !! k' = Some g' -> is_Some (of_fd g) -> is_Some (of_fd g') ->
    of_path g = of_path g' -> k = k';
}.

(** Equal, up to the paths recorded for dummies. *)
Definition same_file (g g' : OpenedFile) : Prop := of_fd g = of_fd g' /\ (is_Some (of_fd g) -> g = g').
Abbreviation same_files := (Forall2 same_file).

Lemma same_files_refl fs : same_files fs fs.
Proof. apply Forall_Forall2_diag, Forall_forall. done. Qed.

Lemma same_file_trans a b c : same_file a b -> same_file b c -> same_file a c.
Proof. intros [H1 H2] [H3 H4]. split; [congruence|]. intros Hs. rewrite H2 by done. apply H4. by rewrite <- H1. Qed.

Lemma same_files_trans fs1 fs2 fs3 : same_files fs1 fs2 -> same_files fs2 fs3 -> same_files fs1 fs3.
Proof.
  intros H. revert fs3. induction H as [|a b fs1 fs2 Hab H IH]; intros fs3 H3; inversion H3; subst; constructor;
    [by eapply same_file_trans|by apply IH].
Qed.

Lemma same_files_lookup fs fs' k g : same_files fs fs' -> fs' !! k = Some g ->
  exists g', fs !! k = Some g' /\ same_file g' g.
Proof. intros Hs Hk. destruct (Forall2_lookup_r _ _ _ _ _ Hs Hk) as (g' & ? & ?). eauto. Qed.

Lemma create_dir_all_Ok d p d' : create_dir_all d p = Ok d' ->
  d_files d' = d_files d /\ d_dirs d ⊆ d_dirs d' /\ (p = [] \/ p ∈ d_dirs d') /\
  (forall q, q ∈ d_dirs d' -> q ∈ d_dirs d \/ q ∈ ancestors p) /\ (disk_ok d -> disk_ok d').
Proof.
  unfold create_dir_all. destruct (decide _) as [Hp|Hp].
  { intros [= <-]. split_and!; [done|done|tauto|tauto|done]. }
  destruct (existsb _ _) eqn:He; [done|]. destruct (negb _); [done|]. intros [= <-]. cbn [d_files d_dirs].
  assert (Hnone : forall a, a ∈ ancestors p -> d_files d !! a = None).
  { intros a Ha. apply eq_None_not_Some. intros Hs. apply not_true_iff_false in He. apply He. apply existsb_exists.
    exists a. split; [by apply list_elem_of_In|]. by apply bool_decide_eq_true. }
  split_and!; [done|set_solver| | |].
  - destruct p as [|c p]; [by left|right]. apply elem_of_union_l, elem_of_list_to_set, list_elem_of_fmap.
    exists (length (c :: p)). split; [by rewrite firstn_all|]. apply elem_of_seq. simpl. lia.
  - intros q [Hq%elem_of_list_to_set|Hq]%elem_of_union; [by right|by left].
  - intros [Hd Hpar]. split; cbn.
    + intros q [Hq%elem_of_list_to_set|Hq]%elem_of_union; [by apply Hnone|by apply Hd].
    + intros q i r Hq Hr. destruct (Hpar q i r Hq Hr); [by left|right; set_solver].
Qed.

(** ** What a rename does *)

(** The files after a rename of what is at [old] to [new]. *)
Definition renamed (F : gmap Path nat) (old new : Path) (F' : gmap Path nat) : Prop :=
  exists j, F !! old = Some j /\ F !! new = None /\ old <> new /\ F' = <[new := j]> (delete old F).

Inductive moved (d : Disk) (fs : list OpenedFile) (k : nat) (new : Path) (d' : Disk) : list OpenedFile -> Prop :=
| moved_dummy g : fs !! k = Some g -> of_fd g = None -> d' = d ->
    moved d fs k new d' (<[k := mkOpenedFile new None]> fs)
| moved_same g : fs !! k = Some g -> is_Some (of_fd g) -> of_path g = new -> d' = d -> moved d fs k new d' fs
| moved_file g i j : fs !! k = Some g -> of_fd g = Some i -> of_path g <> new ->
    d_files d !! of_path g = Some j -> d_files d !! new = None -> rename_ok (of_path g) new = true ->
    d_files d' = <[new := j]> (delete (of_path g) (d_files d)) -> d_dirs d ⊆ d_dirs d' -> new ∉ d_dirs d' ->
    (forall q, parent new = Some q -> q = [] \/ q ∈ d_dirs d') ->
    moved d fs k new d' (<[k := mkOpenedFile new (Some j)]> fs).

(** The directories a rename to [new] may create. *)
Definition made_for (new q : Path) : Prop := exists p, parent new = Some p /\ q ∈ ancestors p.

Lemma not_parent_of_itself (p q : Path) : parent p = Some q -> (length q < length p)%nat.
Proof.
  assert (Hr : forall l : Path, l <> [] -> (length (removelast l) < length l)%nat).
  { intros l Hl. destruct (exists_last Hl) as (l' & c & ->). rewrite removelast_last, length_app. simpl. lia. }
  destruct p as [|c [|c' p]]; [done|destruct c; cbn; intros [= <-] || done; simpl; lia|].
  specialize (Hr (c :: c' :: p) ltac:(done)). cbn [parent]. destruct c; intros Hp; injection Hp as <-; exact Hr.
Qed.

Lemma made_for_shorter new q : made_for new q -> q <> new.
Proof.
  intros (p & Hp & (n & -> & _)%list_elem_of_fmap) Heq. apply not_parent_of_itself in Hp.
  apply (f_equal length) in Heq. rewrite length_take in Heq. lia.
Qed.

Lemma rename_to_result d fs k new r d' fs' : rename_to d fs k new = (r, d', fs') ->
  d_dirs d ⊆ d_dirs d' /\ (forall q, q ∈ d_dirs d' -> q ∈ d_dirs d \/ made_for new q) /\ (disk_ok d -> disk_ok d') /\
  match r with
  | Ok _ => moved d fs k new d' fs'
  | Err _ => fs' = fs /\ (d_files d' = d_files d \/
      open_ok new = false /\ exists g, fs !! k = Some g /\ is_Some (of_fd g) /\ renamed (d_files d) (of_path g) new (d_files d'))
  end.
Proof.
  unfold rename_to. destruct (fs !! k) as [g|] eqn:Hg; [|intros [= <- <- <-]; by split_and!; [|tauto|..|left]].
  unfold rename_locked. destruct (of_fd g) as [i|] eqn:Hfd.
  2: { intros [= <- <- <-]. split_and!; [done|tauto|done|]. by apply (moved_dummy _ _ _ _ _ g). }
  destruct (decide (new = of_path g)) as [->|Hne].
  { intros [= <- <- <-]. rewrite list_insert_id by done. split_and!; [done|tauto|done|].
    apply (moved_same _ _ _ _ _ g); eauto. }
  destruct (on_disk d new || blocked new) eqn:Hon.
  { intros [= <- <- <-]. rewrite list_insert_id by done. split_and!; [done|tauto|done|done|by left]. }
  apply orb_false_iff in Hon as [Hon _]. unfold on_disk in Hon. apply orb_false_iff in Hon as [Hnf Hnd].
  apply bool_decide_eq_false in Hnf, Hnd. apply eq_None_not_Some in Hnf.
  assert (Hmk : match parent new with Some p => create_dir_all d p | None => Ok d end = Err MMkdir \/
    exists d1, match parent new with Some p => create_dir_all d p | None => Ok d end = Ok d1 /\
      d_files d1 = d_files d /\ d_dirs d ⊆ d_dirs d1 /\ (forall q, parent new = Some q -> q = [] \/ q ∈ d_dirs d1) /\
      (forall q, q ∈ d_dirs d1 -> q ∈ d_dirs d \/ made_for new q) /\ (disk_ok d -> disk_ok d1)).
  { destruct (parent new) as [p|] eqn:Hp; [|right; exists d; by split_and!; [..|tauto|]].
    destruct (create_dir_all d p) as [d1|e] eqn:Hc.
    - apply create_dir_all_Ok in Hc as (H1 & H2 & H3 & H4 & H5). right. exists d1. split_and!; [done|done|done| | |done].
      + by intros q [= <-].
      + intros q Hq. destruct (H4 q Hq); [by left|right]. by exists p.
    - left. f_equal. revert Hc. unfold create_dir_all. repeat case_match; naive_solver. }
  destruct Hmk as [->|(d1 & -> & Hf1 & Hsub & Hpar & Hmade & Hok)].
  { intros [= <- <- <-]. rewrite list_insert_id by done. split_and!; [done|tauto|done|done|by left]. }
  unfold fs_rename. rewrite Hf1. destruct (d_files d !! of_path g) as [j|] eqn:Hj.
  2: { intros [= <- <- <-]. rewrite list_insert_id by done. split_and!; [done..|by left]. }
  destruct (rename_ok (of_path g) new) eqn:Hro.
  2: { intros [= <- <- <-]. rewrite list_insert_id by done. split_and!; [done..|by left]. }
  cbn [d_files]. rewrite lookup_insert_eq.
  assert (Hnew : new ∉ d_dirs d1).
  { intros [?|Hm]%Hmade; [done|]. by apply (made_for_shorter new new). }
  set (d2 := mkDisk (<[new := j]> (delete (of_path g) (d_files d))) (d_dirs d1)).
  assert (Hok2 : disk_ok d -> disk_ok d2).
  { intros [Hd1 Hp1]%Hok. subst d2. split; cbn [d_files d_dirs].
    + intros p Hp. rewrite lookup_insert_ne by set_solver. rewrite lookup_delete_None. right. rewrite <- Hf1. by apply Hd1.
    + intros p x q Hp Hq. apply lookup_insert_Some in Hp as [[<- _]|[_ [_ Hp]%lookup_delete_Some]]; [by apply Hpar|].
      apply (Hp1 p x q); [by rewrite Hf1|done]. }
  destruct (open_ok new) eqn:Hop; intros [= <- <- <-]; (split; [done|]; split; [done|]; split; [done|]).
  - by apply (moved_file _ _ _ _ _ g i j).
  - rewrite list_insert_id by done. split; [done|right]. split; [done|]. exists g. split_and!; [done|by eexists|].
    exists j. by split_and!.
Qed.

Lemma moved_preserves d fs k new d' fs' : moved d fs k new d' fs' -> files_ok d fs ->
  files_ok d' fs' /\ of_fd <$> fs' = of_fd <$> fs /\
  (forall k', k' <> k -> fs' !! k' = fs !! k') /\ (forall g, fs' !! k = Some g -> of_path g = new) /\
  (forall p, p <> new -> (forall g, fs !! k = Some g -> of_path g <> p) -> d_files d' !! p = d_files d !! p).
Proof.
  intros Hm [Hon Hdis].
  destruct Hm as [g Hg Hfd ->|g Hg Hfd Hp ->|g i j Hg Hfd Hne Hj Hnew _ Hf _ _ _].
  - split_and!; [|by rewrite list_fmap_insert, list_insert_id by (by rewrite list_lookup_fmap, Hg; cbn; rewrite Hfd)| | |done].
    + split.
      * intros k' g' i Hk' Hi. destruct (decide (k' = k)) as [->|Hne].
        { rewrite list_lookup_insert_eq in Hk' by (by eapply lookup_lt_Some). by injection Hk' as <-. }
        rewrite list_lookup_insert_ne in Hk' by done. by eapply Hon.
      * intros k1 k2 g1 g2 H1 H2 Hs1 Hs2 Hpp.
        destruct (decide (k1 = k)) as [->|Hn1], (decide (k2 = k)) as [->|Hn2]; [done| | |].
        { rewrite list_lookup_insert_eq in H1 by (by eapply lookup_lt_Some). injection H1 as <-. by destruct Hs1. }
        { rewrite list_lookup_insert_eq in H2 by (by eapply lookup_lt_Some). injection H2 as <-. by destruct Hs2. }
        rewrite list_lookup_insert_ne in H1, H2 by done. by eapply Hdis.
    + intros k' Hk'. by rewrite list_lookup_insert_ne.
    + intros g'. rewrite list_lookup_insert_eq by (by eapply lookup_lt_Some). by intros [= <-].
  - split_and!; [done|done|done| |done]. intros g' Hg'. congruence.
  - assert (j = i) as -> by (specialize (Hon k g i Hg Hfd); congruence).
    assert (Hfree : forall k' g', k' <> k -> fs !! k' = Some g' -> is_Some (of_fd g') ->
      of_path g' <> new /\ of_path g' <> of_path g).
    { intros k' g' Hk Hg' [x Hx]. split; intros He.
      - specialize (Hon k' g' x Hg' Hx). congruence.
      - apply Hk. apply (Hdis k' k g' g); [done|done|by eexists|by eexists|done]. }
    split_and!.
    + split.
      * intros k' g' x Hk' Hx. rewrite Hf. destruct (decide (k' = k)) as [->|Hk].
        { rewrite list_lookup_insert_eq in Hk' by (by eapply lookup_lt_Some). injection Hk' as <-.
          cbn in *. injection Hx as <-. apply lookup_insert_eq. }
        rewrite list_lookup_insert_ne in Hk' by done. destruct (Hfree k' g' Hk Hk'); [by eexists|].
        rewrite lookup_insert_ne, lookup_delete_ne by done. by eapply Hon.
      * intros k1 k2 g1 g2 H1 H2 Hs1 Hs2 Hpp.
        destruct (decide (k1 = k)) as [->|Hn1], (decide (k2 = k)) as [->|Hn2]; [done| | |].
        { rewrite list_lookup_insert_eq in H1 by (by eapply lookup_lt_Some). injection H1 as <-.
          rewrite list_lookup_insert_ne in H2 by done. by destruct (Hfree k2 g2). }
        { rewrite list_lookup_insert_eq in H2 by (by eapply lookup_lt_Some). injection H2 as <-.
          rewrite list_lookup_insert_ne in H1 by done. by destruct (Hfree k1 g1). }
        rewrite list_lookup_insert_ne in H1, H2 by done. by eapply Hdis.
    + rewrite list_fmap_insert, list_insert_id; [done|]. by rewrite list_lookup_fmap, Hg; cbn; rewrite Hfd.
    + intros k' Hk'. by rewrite list_lookup_insert_ne.
    + intros g'. rewrite list_lookup_insert_eq by (by eapply lookup_lt_Some). by intros [= <-].
    + intros p Hp Hpg. rewrite Hf, lookup_insert_ne by done. apply lookup_delete_ne. by apply Hpg.
Qed.

(** The system lets a file it has renamed be renamed back and opened again. *)
Definition returns (old new : Path) : Prop :=
  blocked old = false /\ open_ok old = true /\ (rename_ok old new = true -> rename_ok new old = true).

(** Moving a file back to where it was. *)
Lemma moved_back d fs k new d1 fs1 g old d2 fs2 : moved d fs k new d1 fs1 -> disk_ok d -> files_ok d fs ->
  fs !! k = Some g -> (is_Some (of_fd g) -> of_path g = old /\ returns old new /\ old ∉ d_dirs d2) ->
  d_files d2 = d_files d1 -> d_dirs d1 ⊆ d_dirs d2 -> same_files fs2 fs1 ->
  exists d3 fs3, rename_to d2 fs2 k old = (Ok tt, d3, fs3) /\ d_files d3 = d_files d /\ d_dirs d3 = d_dirs d2 /\
    same_files fs3 fs.
Proof.
  intros Hm [_ Hpar] [Hon _] Hg Hold Hf2 Hd2 Hs2. unfold rename_to.
  assert (Hk : (k < length fs)%nat) by (by eapply lookup_lt_Some).
  destruct Hm as [g' Hg' Hfd ->|g' Hg' Hfd Hp ->|g' i j Hg' Hfd Hne Hj Hnew Hro Hf Hsub Hnd _];
    rewrite Hg in Hg'; injection Hg' as <-.
  - destruct (same_files_lookup _ _ k (mkOpenedFile new None) Hs2) as (g2 & Hg2 & [H1 _]).
    { by rewrite list_lookup_insert_eq. }
    rewrite Hg2. unfold rename_locked. rewrite H1. cbn [of_fd]. do 2 eexists. split; [done|]. split_and!; [done|done|].
    apply Forall2_same_length_lookup. pose proof (Forall2_length _ _ _ Hs2) as Hl. rewrite length_insert in Hl.
    split; [by rewrite length_insert|]. intros k' a b Ha Hb. destruct (decide (k' = k)) as [->|Hkk].
    + rewrite list_lookup_insert_eq in Ha by lia. injection Ha as <-. rewrite Hg in Hb. injection Hb as <-.
      split; [done|]. cbn. by intros [].
    + rewrite list_lookup_insert_ne in Ha by done.
      apply (Forall2_lookup_lr _ _ _ k' _ _ Hs2 Ha). by rewrite list_lookup_insert_ne.
  - destruct (same_files_lookup _ _ k g Hs2 Hg) as (g2 & Hg2 & [H1 H2]). rewrite Hg2. unfold rename_locked.
    destruct (of_fd g2) as [x|] eqn:Hx; [|rewrite <- H1 in Hfd; by destruct Hfd].
    rewrite H2 by (by eexists). destruct (Hold Hfd) as [Hp2 _]. rewrite decide_True by done.
    do 2 eexists. split; [done|]. split_and!; [done|done|]. rewrite list_insert_id; [done|].
    rewrite Hg2, H2; [done|by eexists].
  - assert (j = i) as -> by (specialize (Hon k g i Hg Hfd); congruence).
    destruct Hold as (Hpo & (Hbl & Hop & Hback) & Hod); [by eexists|]. subst old.
    destruct (same_files_lookup _ _ k (mkOpenedFile new (Some i)) Hs2) as (g2 & Hg2 & [H1 H2]).
    { by rewrite list_lookup_insert_eq. }
    rewrite Hg2. rewrite H2 by (by rewrite H1; eexists). unfold rename_locked. cbn [of_fd of_path].
    rewrite decide_False by done. unfold on_disk. rewrite Hf2, Hf.
    rewrite bool_decide_eq_false_2
      by (rewrite lookup_insert_ne, lookup_delete_eq by done; by intros []).
    rewrite bool_decide_eq_false_2 by done. rewrite Hbl. cbn [orb].
    assert (Hmk : match parent (of_path g) with Some p => create_dir_all d2 p | None => Ok d2 end = Ok d2).
    { destruct (parent (of_path g)) as [q|] eqn:Hq; [|done]. unfold create_dir_all. rewrite decide_True; [done|].
      destruct (Hpar _ _ _ Hj Hq); [by left|right; set_solver]. }
    rewrite Hmk. unfold fs_rename. rewrite Hf2, Hf, lookup_insert_eq, Hback by done. cbn [d_files].
    rewrite lookup_insert_eq, Hop. do 2 eexists. split; [done|]. cbn [d_files d_dirs].
    split_and!; [|done|].
    + rewrite delete_insert_id by (by rewrite lookup_delete_ne). by rewrite insert_delete_id.
    + apply Forall2_same_length_lookup. pose proof (Forall2_length _ _ _ Hs2) as Hl. rewrite length_insert in Hl.
      split; [by rewrite length_insert|]. intros k' a b Ha Hb. destruct (decide (k' = k)) as [->|Hkk].
      * rewrite list_lookup_insert_eq in Ha by lia. injection Ha as <-. rewrite Hg in Hb. injection Hb as <-.
        split; [done|]. intros _. destruct g as [gp gfd]. cbn in *. by subst.
      * rewrite list_lookup_insert_ne in Ha by done.
        apply (Forall2_lookup_lr _ _ _ k' _ _ Hs2 Ha). by rewrite list_lookup_insert_ne.
Qed.

(** ** Undoing a sequence of renames *)

Fixpoint undo (d : Disk) (fs : list OpenedFile) (old : list (nat * Path)) : Disk * list OpenedFile :=
  match old with
  | [] => (d, fs)
  | (k, p) :: old => let '(_, d, fs) := rename_to d fs k p in undo d fs old
  end.

(** From here, or from a disk with more directories that leave the old paths
    [OLD] free, undoing [old] leads back to the files [F0] and [fs0]. *)
Definition can_undo (OLD : Path -> Prop) (F0 : gmap Path nat) (fs0 : list OpenedFile)
    (d : Disk) (fs : list OpenedFile) (old : list (nat * Path)) : Prop :=
  forall d2 fs2, d_files d2 = d_files d -> d_dirs d ⊆ d_dirs d2 -> (forall p, OLD p -> p ∉ d_dirs d2) ->
    same_files fs2 fs ->
    exists d3 fs3, undo d2 fs2 (reverse old) = (d3, fs3) /\ d_files d3 = F0 /\ same_files fs3 fs0.

Lemma can_undo_nil OLD d fs : can_undo OLD (d_files d) fs d fs [].
Proof. intros d2 fs2 Hf _ _ Hs. by exists d2, fs2. Qed.

Lemma can_undo_step (OLD : Path -> Prop) F0 fs0 d fs old k new d1 fs1 p g : can_undo OLD F0 fs0 d fs old ->
  moved d fs k new d1 fs1 -> disk_ok d -> files_ok d fs -> d_dirs d ⊆ d_dirs d1 -> fs !! k = Some g ->
  (is_Some (of_fd g) -> of_path g = p /\ returns p new /\ OLD p) ->
  can_undo OLD F0 fs0 d1 fs1 (old ++ [(k, p)]).
Proof.
  intros Hc Hm Hd Hf Hsub Hg Hp d2 fs2 Hf2 Hd2 HO Hs2.
  destruct (moved_back d fs k new d1 fs1 g p d2 fs2 Hm Hd Hf Hg) as (d3 & fs3 & Hr & Hf3 & Hd3 & Hs3); [|done|done|done|].
  { intros (H1 & H2 & H3)%Hp. split_and!; [done|done|by apply HO]. }
  rewrite reverse_app. cbn [reverse app undo rev_append]. rewrite Hr.
  apply Hc; [done|set_solver|by rewrite Hd3|done].
Qed.

(** ** Renaming files *)

(** The open files are at the paths of the metadata. *)
Definition placed (root : Path) (fis : list FileInfo) (fs : list OpenedFile) : Prop :=
  forall k fi g, fis !! k = Some fi -> fs !! k = Some g -> is_Some (of_fd g) ->
    of_path g = path_join root (components (fi_relative_filename fi)).

Lemma rename_file_to d s k rel : fs_read_only s = false ->
  rename_file d s k rel =
  let '(r, d, fs) := rename_to d (fs_opened_files s) k (path_join (fs_output_folder s) rel) in
  (r, d, mkFsStorage (fs_output_folder s) fs false).
Proof. unfold rename_file. by intros ->. Qed.

Lemma rollback_renames_undo d s old : fs_read_only s = false ->
  rollback_renames d s old =
  let '(d, fs) := undo d (fs_opened_files s) ((fun e => (e.1, path_join (fs_output_folder s) e.2)) <$> old) in
  (d, mkFsStorage (fs_output_folder s) fs false).
Proof.
  revert d s. induction old as [|[k p] old IH]; intros d s Hro.
  { cbn. destruct s as [root fs ro]. cbn in *. by subst. }
  cbn [rollback_renames]. rewrite fmap_cons. cbn [undo fst snd]. rewrite rename_file_to by done.
  destruct (rename_to _ _ _ _) as [[r d'] fs']. by rewrite IH.
Qed.

Lemma placed_rename root fis fs k new fs' : placed root fis fs ->
  (forall k', k' <> k -> fs' !! k' = fs !! k') ->
  (forall g, fs' !! k = Some g -> of_path g = path_join root (components new)) ->
  placed root (rename_step fis (k, new)) fs'.
Proof.
  intros Hp Hother Hk k' fi g Hfi Hg Hs. unfold rename_step in Hfi. cbn [fst snd] in Hfi.
  destruct (decide (k' = k)) as [->|Hne].
  - rewrite (Hk g Hg). destruct (fis !! k) as [fi0|] eqn:E; [|congruence].
    rewrite list_lookup_insert_eq in Hfi by (by eapply lookup_lt_Some). by injection Hfi as <-.
  - rewrite Hother in Hg by done. apply (Hp k' fi g); [|done|done].
    destruct (fis !! k); [by rewrite list_lookup_insert_ne in Hfi|done].
Qed.

Lemma rename_step_other fis k new k' : k' <> k -> rename_step fis (k, new) !! k' = fis !! k'.
Proof. intros Hne. unfold rename_step. cbn. destruct (fis !! k); [by rewrite list_lookup_insert_ne|done]. Qed.

(** A path the batch starts from or goes to. *)
Definition touched (root : Path) (fs : list OpenedFile) (renames : list (nat * string)) (p : Path) : Prop :=
  exists k new, (k, new) ∈ renames /\
    (p = path_join root (components new) \/ exists g, fs !! k = Some g /\ of_path g = p).

Section batch.
Variables (root : Path) (fis0 : list FileInfo) (OLD : Path -> Prop).

(** What the loop needs of the renames still to do. *)
Record batch_ok (renames : list (nat * string)) (fs : list OpenedFile) : Prop := {
  bo_nodup : NoDup renames.*1;
  bo_known : forall k, k ∈ renames.*1 -> is_Some (fis0 !! k);
  bo_old : forall k new g, (k, new) ∈ renames -> fs !! k = Some g -> is_Some (of_fd g) ->
    OLD (of_path g) /\ returns (of_path g) (path_join root (components new)) /\
    open_ok (path_join root (components new)) = true;
  bo_apart : forall k new p, (k, new) ∈ renames -> OLD p -> ~ made_for (path_join root (components new)) p;
}.

Definition old_entry (e : nat * Path) : nat * Path := (e.1, path_join root e.2).

Lemma rename_loop_spec renames d fs old fis F0 fs0 :
  disk_ok d -> files_ok d fs -> placed root fis fs -> batch_ok renames fs ->
  (forall k, k ∈ renames.*1 -> fis !! k = fis0 !! k) -> (forall p, OLD p -> p ∉ d_dirs d) ->
  can_undo OLD F0 fs0 d fs (old_entry <$> old) ->
  match rename_loop d (mkFsStorage root fs false) fis0 old renames with
  | (Err _, d', s') => d_files d' = F0 /\ exists fs', s' = mkFsStorage root fs' false /\ same_files fs' fs0
  | (Ok _, d', s') => exists fs', s' = mkFsStorage root fs' false /\ disk_ok d' /\ files_ok d' fs' /\
      of_fd <$> fs' = of_fd <$> fs /\ placed root (foldl rename_step fis renames) fs' /\
      (forall p, ~ touched root fs renames p -> d_files d' !! p = d_files d !! p)
  end.
Proof.
  revert d fs old fis. induction renames as [|[k new] renames IH]; intros d fs old fis Hd Hf Hpl Hb Hfis HO Hc;
    cbn [rename_loop].
  { exists fs. by split_and!. }
  destruct Hb as [Hnd Hkn Hold Hap]. rewrite rename_file_to by done. cbn [fs_opened_files fs_output_folder].
  destruct (rename_to d fs k _) as [[r d1] fs1] eqn:Hr.
  destruct (rename_to_result _ _ _ _ _ _ _ Hr) as (Hsub & Hmade & Hd1 & Hres).
  assert (HO1 : forall p, OLD p -> p ∉ d_dirs d1).
  { intros p Hp [?|Hm]%Hmade; [by apply (HO p)|]. apply (Hap k new p); [set_solver|done|done]. }
  destruct r as [[]|e].
  2: { destruct Hres as [-> [Hff|(Hno & g & Hg & Hs & _)]].
       2: { destruct (Hold k new g ltac:(set_solver) Hg Hs) as (_ & _ & ?). congruence. }
       rewrite rollback_renames_undo by done. cbn [fs_opened_files fs_output_folder].
       rewrite fmap_reverse. destruct (Hc d1 fs) as (d3 & fs3 & Hu & HF & Hs); [done|done|done|apply same_files_refl|].
       fold old_entry. rewrite Hu. split; [done|]. by exists fs3. }
  destruct (moved_preserves _ _ _ _ _ _ Hres Hf) as (Hf1 & Hfd1 & Hoth & Hk1 & Htouch).
  rewrite fmap_cons in Hnd, Hkn, Hfis. cbn [fst] in *. apply NoDup_cons in Hnd as [Hk Hnd].
  destruct (Hkn k ltac:(set_solver)) as [fi Hfi].
  assert (exists g, fs !! k = Some g) as [g Hg] by (destruct Hres; eauto).
  specialize (IH d1 fs1 (old ++ [(k, components (fi_relative_filename fi))]) (rename_step fis (k, new))).
  rewrite Hfi. cbn [fmap option_fmap option_map default].
  assert (Hpre : forall k', k' ∈ renames.*1 -> k' <> k) by set_solver.
  ospecialize (IH _ _ _ _ _ _ _); [by apply Hd1|done|by eapply placed_rename| | |done| |].
  - split; [done|set_solver| |].
    + intros k' new' g' Hk' Hg'. rewrite Hoth in Hg'; [apply (Hold k' new' g'); [set_solver|done]|].
      apply Hpre, list_elem_of_fmap. by exists (k', new').
    + intros k' new' p Hin. apply (Hap k' new'). set_solver.
  - intros k' Hk'. rewrite rename_step_other by (by apply Hpre). apply Hfis. set_solver.
  - rewrite fmap_app. eapply can_undo_step; [exact Hc|exact Hres|done|done|done|exact Hg|].
    intros Hs. destruct (Hold k new g ltac:(set_solver) Hg Hs) as (H1 & H2 & _). cbn [old_entry fst snd].
    rewrite <- (Hpl k fi g); [done| |done|done]. rewrite Hfis; [done|set_solver].
  - destruct (rename_loop d1 _ _ _ renames) as [[[[]|e] d'] s']; [|done].
    destruct IH as (fs' & -> & Hdd & Hff & Hfd' & Hpl' & Ht). exists fs'. split_and!; [done|done|done|congruence|done|].
    intros p Hp. rewrite Ht, Htouch; [done| | |].
    + intros ->. apply Hp. exists k, new. split; [set_solver|by left].
    + intros g' Hg' He. apply Hp. exists k, new. split; [set_solver|]. right. eauto.
    + intros (k' & new' & Hin & Hcase). apply Hp. exists k', new'. split; [set_solver|].
      destruct Hcase as [?|(g' & Hg' & He)]; [by left|right]. exists g'. split; [|done].
      rewrite Hoth in Hg'; [done|]. apply Hpre. apply list_elem_of_fmap. by exists (k', new').
Qed.
End batch.

Lemma check_renames_Ok n paths renames ps : check_renames n paths renames = Ok ps ->
  forall k new, (k, new) ∈ renames -> (k < n)%nat /\ forallb is_normal (components new) = true.
Proof.
  revert paths. induction renames as [|[k0 new0] renames IH]; intros paths; cbn [check_renames].
  { intros _ k new Hin. by apply not_elem_of_nil in Hin. }
  destruct (check_rename n paths (k0, new0)) as [paths'|] eqn:Hc; rsimpl; [|done]. intros Hr k new.
  rewrite elem_of_cons. intros [[= -> ->]|Hin]; [|by eapply IH].
  unfold check_rename in Hc. destruct (Nat.leb_spec n k0); [done|].
  destruct (bool_decide _); [done|]. destruct (is_absolute _); [done|].
  destruct (forallb _ _); [split; [lia|done]|done].
Qed.

Lemma validate_renames_Ok fis renames : validate_renames fis renames = Ok tt ->
  renames <> [] /\ (forall k new, (k, new) ∈ renames -> is_Some (fis !! k) /\ Forall (fun c => is_normal c) (components new)).
Proof.
  unfold validate_renames. destruct (Nat.eqb_spec (length renames) 0) as [|Hne]; [done|].
  destruct (check_renames _ _ _) as [ps|] eqn:Hc; rsimpl; [|done]. intros _. split; [by intros ->|].
  intros k new Hin. destruct (check_renames_Ok _ _ _ _ Hc k new Hin) as [Hk Hn]. split.
  - by apply lookup_lt_is_Some.
  - apply Forall_forall. intros c Hin'%list_elem_of_In. rewrite forallb_forall in Hn. by rewrite Hn.
Qed.

Lemma prune_files s fis renames d : d_files (foldl (prune s fis) d renames) = d_files d.
Proof.
  revert d. induction renames as [|r renames IH]; intros d; [done|]. cbn [foldl]. rewrite IH. clear IH.
  unfold prune, remove_directory_if_empty. repeat case_match; done.
Qed.

(** Renaming files of a stopped torrent is all or nothing: if the answer is
    a success, every open file is where the new metadata says, with the same
    content, and nothing else on the disk has moved; if it is an error, all
    files, handles and the metadata are what they were.  The batch names every
    file at most once and puts no file below a path it vacates, and the system
    lets each file it has renamed be opened, renamed back and opened again. *)
Theorem rename_files_all_or_nothing d s m renames :
  let root := fs_output_folder s in
  let fs := fs_opened_files s in
  disk_ok d -> files_ok d fs -> placed root (md_file_infos m) fs -> NoDup renames.*1 ->
  (forall k new g, (k, new) ∈ renames -> fs !! k = Some g -> is_Some (of_fd g) ->
     returns (of_path g) (path_join root (components new)) /\ open_ok (path_join root (components new)) = true) ->
  (forall k new k' g, (k, new) ∈ renames -> k' ∈ renames.*1 -> fs !! k' = Some g -> is_Some (of_fd g) ->
     ~ made_for (path_join root (components new)) (of_path g)) ->
  match rename_files true d s m renames with
  | (Err _, d', s', m') => d_files d' = d_files d /\ fs_output_folder s' = root /\
      same_files (fs_opened_files s') fs /\ m' = m
  | (Ok _, d', s', m') => m' = with_renamed_files m renames /\ fs_output_folder s' = root /\
      files_ok d' (fs_opened_files s') /\ of_fd <$> fs_opened_files s' = of_fd <$> fs /\
      placed root (md_file_infos m') (fs_opened_files s') /\
      (forall p, ~ touched root fs renames p -> d_files d' !! p = d_files d !! p)
  end.
Proof.
  intros root fs Hd Hf Hp Hnd Hbl Hap. unfold rename_files. cbn [negb].
  destruct (validate_renames _ _) as [[]|e] eqn:Hv; [|split_and!; [done|done|apply same_files_refl|done]].
  apply validate_renames_Ok in Hv as [Hne Hv]. destruct s as [root' fs' ro]. cbn in root, fs. subst root fs.
  destruct ro.
  { destruct renames as [|[k new] renames]; [done|]. cbn. split_and!; [done|done|apply same_files_refl|done]. }
  pose proof (rename_loop_spec root' (md_file_infos m)
    (fun p => exists k g, k ∈ renames.*1 /\ fs' !! k = Some g /\ is_Some (of_fd g) /\ of_path g = p)
    renames d fs' [] (md_file_infos m) (d_files d) fs' Hd Hf Hp) as Hl.
  ospecialize (Hl _ _ _ _).
  - split; [done| | |].
    + intros k ([k' new] & -> & Hin)%list_elem_of_fmap. by apply (Hv k' new).
    + intros k new g Hk Hg Hs. split; [|by eapply Hbl]. exists k, g. split_and!; [|done..].
      apply list_elem_of_fmap. by exists (k, new).
    + intros k new p Hin (k' & g & Hk' & Hg & Hs & <-). by eapply Hap.
  - done.
  - intros p (k & g & _ & Hg & [i Hi] & <-) Hin. destruct Hd as [Hdj _]. specialize (Hdj _ Hin).
    destruct Hf as [Hon _]. specialize (Hon k g i Hg Hi). congruence.
  - apply can_undo_nil.
  - destruct (rename_loop _ _ _ _ _) as [[[[]|e] d'] s'].
    + destruct Hl as (fs1 & -> & Hd1 & Hf1 & Hfd & Hpl & Ht). cbn [fs_output_folder fs_opened_files].
      split_and!; [done|done| |done|done|].
      * destruct Hf1 as [H1 H2]. split; [|done]. intros k g i. rewrite prune_files. apply H1.
      * intros p Hp'. rewrite prune_files. by apply Ht.
    + destruct Hl as (HF & fs1 & -> & Hs). by split_and!.
Qed.

(** ** Moving the root *)

Lemma rename_to_other d fs k new r d' fs' k' : rename_to d fs k new = (r, d', fs') -> k' <> k -> fs' !! k' = fs !! k'.
Proof.
  unfold rename_to. destruct (fs !! k) as [g|]; [|by intros [= <- <- <-]].
  destruct (rename_locked _ _ _) as [[r0 d0] g0]. intros [= <- <- <-] Hne. by rewrite list_lookup_insert_ne.
Qed.

Lemma rebase_other d fs k from to r d' fs' k' : rebase d fs k from to = (r, d', fs') -> k' <> k -> fs' !! k' = fs !! k'.
Proof.
  unfold rebase. destruct (fs !! k) as [g|]; [|by intros [= <- <- <-]].
  destruct (strip_prefix _ _); [|by intros [= <- <- <-]].
  destruct (rename_locked _ _ _) as [[r0 d0] g0]. intros [= <- <- <-] Hne. by rewrite list_lookup_insert_ne.
Qed.

Section move.
Variables (old_root new_root : Path) (rel : nat -> Path).
Hypothesis rel_normal : forall k, Forall (fun c => is_normal c) (rel k).

(** File [k] is open, below [root]. *)
Definition under (root : Path) (fs : list OpenedFile) (k : nat) : Prop :=
  exists g, fs !! k = Some g /\ is_Some (of_fd g) /\ of_path g = path_join root (rel k).

Lemma rebase_under d fs k from to : under from fs k -> rebase d fs k from to = rename_to d fs k (path_join to (rel k)).
Proof.
  intros (g & Hg & _ & Hp). unfold rebase, rename_to. rewrite Hg, Hp. by rewrite strip_prefix_join.
Qed.

Definition old_of (k : nat) : nat * Path := (k, path_join old_root (rel k)).

Lemma rollback_rebase_undo d fs ks : NoDup ks -> (forall k, k ∈ ks -> under new_root fs k) ->
  rollback_rebase d fs ks new_root old_root = undo d fs (old_of <$> ks).
Proof.
  intros Hnd. revert d fs. induction Hnd as [|k ks Hk Hnd IH]; intros d fs Hu; [done|].
  cbn [rollback_rebase]. rewrite fmap_cons. cbn [undo old_of]. rewrite rebase_under by (apply Hu; set_solver).
  destruct (rename_to _ _ _ _) as [[r d'] fs'] eqn:Hr. apply IH. intros k' Hk'.
  destruct (Hu k' ltac:(set_solver)) as (g & Hg & Hx). exists g. split; [|done].
  rewrite (rename_to_other _ _ _ _ _ _ _ k' Hr); [done|]. by intros ->.
Qed.

(** *** Whatever the system refuses, no file is lost *)

Definition old_path (k : nat) : Path := path_join old_root (rel k).
Definition new_path (k : nat) : Path := path_join new_root (rel k).

(** The files [ids] of [F] are in [F'] where [loc] says, each at its old or its
    new path, and nothing else differs. *)
Record located (ids : list nat) (F : gmap Path nat) (loc : nat -> Path) (F' : gmap Path nat) : Prop := {
  lo_place : forall k, k ∈ ids -> loc k = old_path k \/ loc k = new_path k;
  lo_inj : forall k k', k ∈ ids -> k' ∈ ids -> loc k = loc k' -> k = k';
  lo_file : forall k, k ∈ ids -> is_Some (F !! old_path k) /\ F' !! loc k = F !! old_path k;
  lo_other : forall p, (forall k, k ∈ ids -> p <> old_path k /\ p <> new_path k) -> F' !! p = F !! p;
}.

(** The handle of file [k] knows where the file is. *)
Definition tracks (fs : list OpenedFile) (loc : nat -> Path) (k : nat) : Prop :=
  exists g, fs !! k = Some g /\ is_Some (of_fd g) /\ of_path g = loc k.

Definition moved_to (loc : nat -> Path) (k : nat) (p : Path) (k' : nat) : Path :=
  if decide (k' = k) then p else loc k'.

Lemma located_renamed ids F loc F1 k p F2 : k ∈ ids -> p = old_path k \/ p = new_path k ->
  located ids F loc F1 -> renamed F1 (loc k) p F2 -> located ids F (moved_to loc k p) F2.
Proof.
  intros Hk Hp [Hpl Hinj Hfile Hoth] (j & Hj & Hfree & Hne & ->).
  assert (Hfresh : forall k', k' ∈ ids -> loc k' <> p).
  { intros k' Hk' <-. destruct (Hfile k' Hk') as [[x Hx] He]. congruence. }
  split; unfold moved_to.
  - intros k' Hk'. destruct (decide (k' = k)) as [->|]; [done|by apply Hpl].
  - intros k1 k2 H1 H2. destruct (decide (k1 = k)) as [->|], (decide (k2 = k)) as [->|]; [done| | |by apply Hinj].
    + intros Heq. by destruct (Hfresh k2 H2).
    + intros Heq. by destruct (Hfresh k1 H1).
  - intros k' Hk'. destruct (Hfile k' Hk') as [Hs He]. split; [done|]. destruct (decide (k' = k)) as [->|Hkk].
    + rewrite lookup_insert_eq. congruence.
    + rewrite lookup_insert_ne by (by apply not_eq_sym, Hfresh). rewrite lookup_delete_ne; [done|].
      intros Heq. apply Hkk. by apply Hinj.
  - intros q Hq. destruct (Hq k Hk) as [H1 H2]. rewrite lookup_insert_ne by (destruct Hp; congruence).
    rewrite lookup_delete_ne; [by apply Hoth|]. destruct (Hpl k Hk); congruence.
Qed.

Lemma rename_to_located ids F loc d fs k p r d' fs' : k ∈ ids -> p = old_path k \/ p = new_path k ->
  located ids F loc (d_files d) -> tracks fs loc k -> rename_to d fs k p = (r, d', fs') ->
  exists loc', located ids F loc' (d_files d') /\ (forall k', k' <> k -> loc' k' = loc k' /\ fs' !! k' = fs !! k') /\
    (r = Ok tt -> loc' k = p /\ tracks fs' loc' k).
Proof.
  intros Hk Hp Hl (g & Hg & Hs & Hpg) Hr. pose proof (rename_to_result _ _ _ _ _ _ _ Hr) as (_ & _ & _ & Hres).
  assert (Hoth : forall k', k' <> k -> fs' !! k' = fs !! k') by (intros; by eapply rename_to_other).
  assert (Hmv : renamed (d_files d) (of_path g) p (d_files d') ->
    exists loc', located ids F loc' (d_files d') /\ (forall k', k' <> k -> loc' k' = loc k') /\ loc' k = p).
  { rewrite Hpg. intros Hren. exists (moved_to loc k p). split; [by eapply located_renamed|]. unfold moved_to.
    split; [intros k' Hk'; by rewrite decide_False|by rewrite decide_True]. }
  destruct r as [[]|e].
  - destruct Hres as [g' Hg' Hfd ->|g' Hg' Hfd Hp' ->|g' i j Hg' Hfd Hne Hj Hnew Hro HF _ _ _];
      rewrite Hg in Hg'; injection Hg' as <-.
    + rewrite Hfd in Hs. by destruct Hs.
    + exists loc. split_and!; [done|naive_solver|]. intros _. split; [congruence|]. by exists g.
    + destruct Hmv as (loc' & Hl' & Hsame & Hlk); [by exists j|]. exists loc'.
      split_and!; [done|intros k' Hk'; split; auto|]. intros _. split; [done|].
      eexists. split; [by apply list_lookup_insert_eq; eapply lookup_lt_Some|]. by rewrite Hlk.
  - destruct Hres as [-> [HF|(_ & g' & Hg' & _ & Hren)]].
    + exists loc. rewrite HF. naive_solver.
    + rewrite Hg in Hg'. injection Hg' as <-. destruct (Hmv Hren) as (loc' & Hl' & Hsame & _).
      exists loc'. split_and!; [done|intros k' Hk'; split; auto|done].
Qed.

Lemma tracks_under fs loc k root : tracks fs loc k -> loc k = path_join root (rel k) -> under root fs k.
Proof. intros (g & ? & ? & ?) Hl. exists g. split_and!; [done|done|congruence]. Qed.

Lemma tracks_other fs loc k fs' loc' : tracks fs loc k -> loc' k = loc k -> fs' !! k = fs !! k -> tracks fs' loc' k.
Proof. intros (g & ? & ? & ?) Hl Hf. exists g. split_and!; [congruence|done|congruence]. Qed.

Lemma rollback_rebase_located ids F ks loc d fs d' fs' : NoDup ks -> (forall k, k ∈ ks -> k ∈ ids) ->
  located ids F loc (d_files d) -> (forall k, k ∈ ks -> tracks fs loc k /\ loc k = new_path k) ->
  rollback_rebase d fs ks new_root old_root = (d', fs') -> exists loc', located ids F loc' (d_files d').
Proof.
  intros Hnd. revert loc d fs. induction Hnd as [|k ks Hk Hnd IH]; intros loc d fs Hids Hl Ht; cbn [rollback_rebase].
  { intros [= <- <-]. by exists loc. }
  destruct (Ht k ltac:(set_solver)) as [Htk Hlk]. rewrite rebase_under by (by eapply tracks_under).
  destruct (rename_to _ _ _ _) as [[r d1] fs1] eqn:Hr. fold (old_path k) in Hr.
  destruct (rename_to_located ids F loc d fs k (old_path k) r d1 fs1) as (loc1 & Hl1 & Hoth & _);
    [set_solver|by left|done|done|done|].
  apply (IH loc1); [set_solver|done|]. intros k' Hk'. destruct (Hoth k') as [H1 H2]; [by intros ->|].
  destruct (Ht k' ltac:(set_solver)) as [Ht' Hl']. split; [by eapply tracks_other|congruence].
Qed.

Lemma move_loop_located ids F ks mv loc d fs r d' fs' : NoDup (mv ++ ks) -> (forall k, k ∈ mv ++ ks -> k ∈ ids) ->
  located ids F loc (d_files d) -> (forall k, k ∈ mv -> tracks fs loc k /\ loc k = new_path k) ->
  (forall k, k ∈ ks -> tracks fs loc k /\ loc k = old_path k) ->
  move_loop d fs old_root new_root mv ks = (r, d', fs') ->
  exists loc', located ids F loc' (d_files d') /\
    (r = Ok tt -> forall k, k ∈ mv ++ ks -> loc' k = new_path k /\ tracks fs' loc' k).
Proof.
  revert mv loc d fs. induction ks as [|k ks IH]; intros mv loc d fs Hnd Hids Hl Hmv Hks; cbn [move_loop].
  { intros [= <- <- <-]. exists loc. split; [done|]. intros _ k. rewrite app_nil_r. intros Hk. by destruct (Hmv k Hk). }
  destruct (Hks k ltac:(set_solver)) as [Htk Hlk]. rewrite rebase_under by (by eapply tracks_under).
  destruct (rename_to _ _ _ _) as [[r1 d1] fs1] eqn:Hr. fold (new_path k) in Hr.
  destruct (rename_to_located ids F loc d fs k (new_path k) r1 d1 fs1) as (loc1 & Hl1 & Hoth & Hok);
    [set_solver|by right|done|done|done|].
  assert (Hne : forall k', k' ∈ mv \/ k' ∈ ks -> k' <> k).
  { apply NoDup_app in Hnd as (_ & Hd1' & [Hk _]%NoDup_cons). set_solver. }
  assert (Hkeep : forall k' p, k' ∈ mv \/ k' ∈ ks -> tracks fs loc k' /\ loc k' = p -> tracks fs1 loc1 k' /\ loc1 k' = p).
  { intros k' p Hk' [H1 H2]. destruct (Hoth k') as [H3 H4]; [by apply Hne|].
    split; [by eapply tracks_other|congruence]. }
  destruct r1 as [[]|e].
  - destruct (Hok eq_refl) as [Hk1 Ht1]. intros Hm.
    destruct (IH (mv ++ [k]) loc1 d1 fs1) as (loc2 & Hl2 & Hall).
    + by rewrite <- app_assoc.
    + intros k'. rewrite <- app_assoc. apply Hids.
    + done.
    + intros k' [Hk'|Hk'%list_elem_of_singleton]%elem_of_app; [apply Hkeep; [by left|by apply Hmv]|by subst].
    + intros k' Hk'. apply Hkeep; [by right|]. apply Hks. set_solver.
    + exact Hm.
    + exists loc2. split; [done|]. intros Hr2 k' Hk'. apply Hall; [done|]. by rewrite <- app_assoc.
  - destruct (rollback_rebase _ _ _ _ _) as [d2 fs2] eqn:Hrb. intros [= <- <- <-].
    destruct (rollback_rebase_located ids F (reverse mv) loc1 d1 fs1 d2 fs2) as [loc2 Hl2].
    + rewrite reverse_Permutation. by apply NoDup_app in Hnd as [? _].
    + intros k' Hk'. rewrite reverse_Permutation in Hk'. set_solver.
    + done.
    + intros k' Hk'. rewrite reverse_Permutation in Hk'. apply Hkeep; [by left|by apply Hmv].
    + exact Hrb.
    + exists loc2. by split.
Qed.

(** *** When every file has moved, and when the moves are undone *)

Lemma rename_to_under d fs k d1 fs1 : files_ok d fs -> under old_root fs k ->
  rename_to d fs k (new_path k) = (Ok tt, d1, fs1) ->
  files_ok d1 fs1 /\ of_fd <$> fs1 = of_fd <$> fs /\ under new_root fs1 k /\
  (forall root k', k' <> k -> under root fs k' -> under root fs1 k').
Proof.
  intros Hf (g & Hg & Hsome & Hpath) Hr. pose proof (rename_to_result _ _ _ _ _ _ _ Hr) as (_ & _ & _ & Hres).
  destruct (moved_preserves _ _ _ _ _ _ Hres Hf) as (Hf1 & Hfd1 & Hoth & Hk1 & _). split_and!; [done|done| |].
  - assert (Hl : (of_fd <$> fs1) !! k = Some (of_fd g)) by (by rewrite Hfd1, list_lookup_fmap, Hg).
    rewrite list_lookup_fmap in Hl. destruct (fs1 !! k) as [g1|] eqn:Hg1; [|done]. injection Hl as Hl.
    exists g1. split_and!; [done|by rewrite Hl|by apply Hk1].
  - intros root' k' Hk' (g' & Hg' & Hx). exists g'. split; [by rewrite Hoth|done].
Qed.

Lemma move_loop_moves ks d fs mv d' fs' : NoDup (mv ++ ks) -> files_ok d fs ->
  (forall k, k ∈ mv -> under new_root fs k) -> (forall k, k ∈ ks -> under old_root fs k) ->
  move_loop d fs old_root new_root mv ks = (Ok tt, d', fs') ->
  files_ok d' fs' /\ of_fd <$> fs' = of_fd <$> fs /\ (forall k, k ∈ mv ++ ks -> under new_root fs' k).
Proof.
  revert d fs mv. induction ks as [|k ks IH]; intros d fs mv Hnd Hf Hmv Hks; cbn [move_loop].
  { intros [= <- <-]. by rewrite app_nil_r. }
  rewrite rebase_under by (apply Hks; set_solver). fold (new_path k).
  destruct (rename_to d fs k _) as [[[[]|e] d1] fs1] eqn:Hr; [|by destruct (rollback_rebase _ _ _ _ _)]. intros Hm.
  destruct (rename_to_under _ _ _ _ _ Hf (Hks k ltac:(set_solver)) Hr) as (Hf1 & Hfd1 & Hnew & Hkeep).
  assert (Hne : forall k', k' ∈ mv \/ k' ∈ ks -> k' <> k).
  { apply NoDup_app in Hnd as (_ & Hd1' & [Hk _]%NoDup_cons). set_solver. }
  rewrite cons_middle, app_assoc in Hnd |- *. destruct (IH d1 fs1 (mv ++ [k])) as (H1 & H2 & H3); [done|done| | |done|].
  - intros k' [Hk'|Hk'%list_elem_of_singleton]%elem_of_app; [|by subst]. apply Hkeep; [by apply Hne; left|by apply Hmv].
  - intros k' Hk'. apply Hkeep; [by apply Hne; right|]. apply Hks. set_solver.
  - split_and!; [done|congruence|done].
Qed.

(** The paths to be left free. *)
Variable OLD : Path -> Prop.

(** What undoing the moves of [ks] needs: no new path lies below a path a file
    left, and the system lets every file it has renamed be opened, renamed back
    and opened again. *)
Record undoable (ks : list nat) : Prop := {
  un_old : forall k, k ∈ ks -> OLD (old_path k);
  un_returns : forall k, k ∈ ks -> returns (old_path k) (new_path k) /\ open_ok (new_path k) = true;
  un_apart : forall k p, k ∈ ks -> OLD p -> ~ made_for (new_path k) p;
}.

Lemma undoable_tail k ks : undoable (k :: ks) -> undoable ks.
Proof. intros [H1 H2 H3]. split; intros; [apply H1|apply H2|eapply H3]; try done; set_solver. Qed.

Lemma move_loop_undone ks d fs mv F0 fs0 e d' fs' : NoDup (mv ++ ks) -> disk_ok d -> files_ok d fs ->
  (forall k, k ∈ mv -> under new_root fs k) -> (forall k, k ∈ ks -> under old_root fs k) ->
  undoable ks -> (forall p, OLD p -> p ∉ d_dirs d) -> can_undo OLD F0 fs0 d fs (old_of <$> mv) ->
  move_loop d fs old_root new_root mv ks = (Err e, d', fs') -> d_files d' = F0 /\ same_files fs' fs0.
Proof.
  revert d fs mv. induction ks as [|k ks IH]; intros d fs mv Hnd Hd Hf Hmv Hks Hun HO Hc; cbn [move_loop]; [done|].
  pose proof (undoable_tail _ _ Hun) as Hun'. destruct Hun as [Hold Hret Hap].
  assert (Huk : under old_root fs k) by (apply Hks; set_solver).
  rewrite rebase_under by done. fold (new_path k). destruct (rename_to d fs k _) as [[r d1] fs1] eqn:Hr.
  destruct (rename_to_result _ _ _ _ _ _ _ Hr) as (Hsub & Hmade & Hd1 & Hres).
  assert (HO1 : forall p, OLD p -> p ∉ d_dirs d1).
  { intros p Hp [?|Hm]%Hmade; [by apply (HO p)|]. apply (Hap k p); [set_solver|done|done]. }
  destruct (Hret k ltac:(set_solver)) as [Hrk Hopk]. destruct r as [[]|e'].
  2: { destruct Hres as [-> [Hff|(? & _)]]; [|congruence]. rewrite rollback_rebase_undo.
       - rewrite fmap_reverse. destruct (Hc d1 fs) as (d3 & fs3 & Hu & HF & Hs); [done|done|done|apply same_files_refl|].
         rewrite Hu. by intros [= <- <- <-].
       - rewrite reverse_Permutation. by apply NoDup_app in Hnd as [? _].
       - intros k' Hk'. rewrite reverse_Permutation in Hk'. by apply Hmv. }
  destruct (rename_to_under _ _ _ _ _ Hf Huk Hr) as (Hf1 & Hfd1 & Hnew & Hkeep).
  assert (Hne : forall k', k' ∈ mv \/ k' ∈ ks -> k' <> k).
  { apply NoDup_app in Hnd as (_ & Hd1' & [Hk _]%NoDup_cons). set_solver. }
  rewrite cons_middle, app_assoc in Hnd. apply (IH d1 fs1 (mv ++ [k])); [done|by apply Hd1|done| | |done|done|].
  - intros k' [Hk'|Hk'%list_elem_of_singleton]%elem_of_app; [|by subst]. apply Hkeep; [by apply Hne; left|by apply Hmv].
  - intros k' Hk'. apply Hkeep; [by apply Hne; right|]. apply Hks. set_solver.
  - destruct Huk as (g & Hg & Hsome & Hpath).
    rewrite fmap_app. eapply can_undo_step; [exact Hc|exact Hres|done|done|done|exact Hg|].
    intros _. rewrite Hpath. split_and!; [done|done|by apply Hold; set_solver].
Qed.
End move.

(** The paths the files [ids] had below [root]. *)
Definition had_file (root : Path) (rel : nat -> Path) (ids : list nat) (p : Path) : Prop :=
  exists k, k ∈ ids /\ p = old_path root rel k.

Lemma located_start d fs root new_root rel : files_ok d fs ->
  (forall k, k ∈ seq 0 (length fs) -> under rel root fs k) ->
  located root new_root rel (seq 0 (length fs)) (d_files d) (old_path root rel) (d_files d) /\
  (forall k, k ∈ seq 0 (length fs) -> tracks fs (old_path root rel) k).
Proof.
  intros [Hon Hdis] Hu. split; [|intros k Hk; by apply Hu]. split; [by left| | |done].
  - intros k k' (g & Hg & Hs & Hp)%Hu (g' & Hg' & Hs' & Hp')%Hu Heq. unfold old_path in Heq.
    apply (Hdis k k' g g'); [done..|congruence].
  - intros k (g & Hg & [i Hi] & Hp)%Hu. split; [|done]. unfold old_path. rewrite <- Hp. exists i. by eapply Hon.
Qed.


(** A file the storage has not opened (a padding file) has no path, and is not
    under any root: with one, no torrent can be moved. *)
Lemma move_loop_needs_prefix d fs old_root new_root mv ks d' fs' : NoDup ks ->
  move_loop d fs old_root new_root mv ks = (Ok tt, d', fs') ->
  forall k, k ∈ ks -> exists g, fs !! k = Some g /\ is_Some (strip_prefix (of_path g) old_root).
Proof.
  intros Hnd. revert d fs mv. induction Hnd as [|k ks Hk Hnd IH]; intros d fs mv; cbn [move_loop]; [set_solver|].
  destruct (rebase d fs k old_root new_root) as [[[[]|e] d1] fs1] eqn:Hr; [|destruct (rollback_rebase _ _ _ _ _); done].
  intros Hl k' [->|Hk']%elem_of_cons.
  - unfold rebase in Hr. destruct (fs !! k) as [g|]; [|done]. exists g. split; [done|].
    by destruct (strip_prefix _ _).
  - destruct (IH _ _ _ Hl k' Hk') as (g & Hg & Hs). exists g. split; [|done].
    rewrite <- (rebase_other _ _ _ _ _ _ _ _ k' Hr); [done|]. by intros ->.
Qed.

Lemma padding_file_blocks_relocation d s new_root k : fs_opened_files s !! k = Some new_dummy ->
  fs_output_folder s <> [] -> fs_output_folder s <> new_root ->
  exists e, (move_root d s new_root).1.1 = Err e.
Proof.
  intros Hk Hroot Hne. unfold move_root. destruct (fs_read_only s); [by eexists|]. rewrite decide_False by done.
  destruct (move_loop _ _ _ _ _ _) as [[[[]|e] d'] fs'] eqn:Hl; [|by eexists]. exfalso.
  destruct (move_loop_needs_prefix _ _ _ _ _ _ _ _ (NoDup_seq _ _) Hl k) as (g & Hg & [x Hx]).
  - apply elem_of_seq. apply lookup_lt_Some in Hk. lia.
  - rewrite Hk in Hg. injection Hg as <-. by destruct (fs_output_folder s).
Qed.
End relocate.

(** ** Witnesses *)

Definition yes1 (_ : Path) : bool := true.
Definition yes2 (_ _ : Path) : bool := true.
Definition no1 (_ : Path) : bool := false.

(** A torrent with the files [a], [b] and [e] in the directory [t], beside a
    foreign file [u]. *)
Definition ex_root : Path := [RootDir; Normal "t"].
Definition ex_path (n : string) : Path := ex_root ++ [Normal n].
Definition ex_disk : Disk :=
  mkDisk (list_to_map [(ex_path "a", 1%nat); (ex_path "b", 2%nat); (ex_path "e", 3%nat); (ex_path "u", 9%nat)])
    {[ [RootDir]; ex_root ]}.
Definition ex_opened : list OpenedFile :=
  [mkOpenedFile (ex_path "a") (Some 1%nat); mkOpenedFile (ex_path "b") (Some 2%nat); mkOpenedFile (ex_path "e") (Some 3%nat)].
Definition ex_fs : FsStorage := mkFsStorage ex_root ex_opened false.
Definition ex_md : TorrentMetadata :=
  mkTorrentMetadata ex_validated
    [mkFileInfo "a" 0 (0, 1) no_attrs 3; mkFileInfo "b" 3 (0, 1) no_attrs 2; mkFileInfo "e" 5 (1, 2) no_attrs 2].

Lemma ex_disk_ok : disk_ok ex_disk.
Proof.
  split; cbn [d_files d_dirs ex_disk].
  - intros p [->%elem_of_singleton| ->%elem_of_singleton]%elem_of_union; vm_compute; done.
  - intros p i q Hp%elem_of_list_to_map_2 Hq. right. cbn in Hp.
    repeat (apply elem_of_cons in Hp as [[= -> ->]|Hp]; [injection Hq as <-; set_solver|]). by apply not_elem_of_nil in Hp.
Qed.

Lemma ex_opened_cases k g : ex_opened !! k = Some g ->
  (k = 0%nat /\ g = mkOpenedFile (ex_path "a") (Some 1%nat)) \/ (k = 1%nat /\ g = mkOpenedFile (ex_path "b") (Some 2%nat)) \/
  (k = 2%nat /\ g = mkOpenedFile (ex_path "e") (Some 3%nat)).
Proof. destruct k as [|[|[|k]]]; cbn; naive_solver. Qed.

Lemma ex_disk_files_ok : files_ok ex_disk ex_opened.
Proof.
  split.
  - intros k g i [[-> ->]|[[-> ->]|[-> ->]]]%ex_opened_cases [= <-]; vm_compute; reflexivity.
  - intros k k' g g' [[-> ->]|[[-> ->]|[-> ->]]]%ex_opened_cases [[-> ->]|[[-> ->]|[-> ->]]]%ex_opened_cases _ _; done.
Qed.

Lemma ex_not_below n : length n = 3%nat -> forall p, ~ made_for n (ex_path p).
Proof.
  intros Hn p (q & Hq%not_parent_of_itself & (m & Hm & _)%list_elem_of_fmap).
  apply (f_equal length) in Hm. rewrite length_take in Hm. cbn in Hm. lia.
Qed.

Lemma rename_files_all_or_nothing_witness : exists d' s',
  rename_files yes1 yes2 yes1 no1 true ex_disk ex_fs ex_md [(0%nat, "c")] =
    (Ok tt, d', s', with_renamed_files ex_md [(0%nat, "c")]) /\
  files_ok d' (fs_opened_files s').
Proof.
  pose proof (rename_files_all_or_nothing yes1 yes2 yes1 no1 ex_disk ex_fs ex_md
    [(0%nat, "c")] ex_disk_ok ex_disk_files_ok) as H.
  assert (Hr : (rename_files yes1 yes2 yes1 no1 true ex_disk ex_fs ex_md [(0%nat, "c")]).1.1.1 = Ok tt)
    by (vm_compute; reflexivity).
  destruct (rename_files yes1 yes2 yes1 no1 true ex_disk ex_fs ex_md [(0%nat, "c")]) as [[[r d'] s'] m'].
  cbn [fst] in Hr. subst r.
  exists d', s'. destruct H as (-> & _ & Hf & _); [| | | |by split].
  - intros k fi g Hfi Hg _. revert Hfi. apply ex_opened_cases in Hg as [[-> ->]|[[-> ->]|[-> ->]]]; by intros [= <-].
  - repeat constructor. set_solver.
  - done.
  - intros k new k' g Hin _ Hg _. apply list_elem_of_singleton in Hin as [= -> ->].
    apply ex_opened_cases in Hg as [[_ ->]|[[_ ->]|[_ ->]]]; apply ex_not_below; done.
Defined.

Definition ex_rel (k : nat) : Path := [Normal (match k with 0%nat => "a" | 1%nat => "b" | _ => "e" end)].

Definition ex_new : Path := [RootDir; Normal "n"].


(** When the second file is renamed but cannot be opened again, the first goes
    back and the second stays at its new path, while its handle names the old
    one: the storage is neither moved nor as it was. *)
Lemma failed_reopen_strands_file :
  let open_ok p := negb (bool_decide (p = ex_new ++ [Normal "b"])) in
  let '(r, d', s', root') := set_location yes1 yes2 open_ok no1 true ex_disk ex_fs ex_root ex_new in
  (r, root', of_path <$> fs_opened_files s', d_files d' !! ex_path "b", d_files d' !! (ex_new ++ [Normal "b"])) =
  (Err MReopen, ex_root, [ex_path "a"; ex_path "b"; ex_path "e"], None, Some 2%nat).
Proof. vm_compute. reflexivity. Qed.

(** A batch that puts a file below a path it vacates is not undone when a later
    rename fails: the directory made for it stays, and the first file cannot
    go back. *)
Lemma rollback_blocked_by_directory :
  let '(r, d', s', _) :=
    rename_files yes1 yes2 yes1 no1 true ex_disk ex_fs ex_md [(0%nat, "c"); (1%nat, "a/x"); (2%nat, "u")] in
  (r, of_path <$> fs_opened_files s', d_files d' !! ex_path "a") =
  (Err MExists, [ex_path "c"; ex_path "b"; ex_path "e"], None).
Proof. vm_compute. reflexivity. Qed.
