(* ===== verification/OutputFolder.v ===== *)
(** * OutputFolder: where the session puts the files of a torrent

    Models, of [crates/librtbit/src/session/mod.rs], [expand_folder_template],
    [get_default_subfolder_for_torrent], the choice of the output folder in
    [add_torrent_internal], and [move_completed_torrent]; and [compute_only_files],
    [compute_only_files_regex] and [remove_files_and_dirs] of
    [session/helpers.rs].  Texts are UTF-8 strings of bytes.  Regular expressions
    are an argument; the disk gives the contents of paths, and what the system
    refuses is an argument. *)

From Stdlib Require Import Ascii.
From stdpp Require Import strings.
From S2P Require Import Prelude Path Lengths FileInfo TorrentMeta.

(** ** Strings *)

(** [str::contains] and [str::replace] of a non-empty pattern. *)
Fixpoint str_contains (pat s : string) : bool :=
  String.prefix pat s || match s with String.EmptyString => false | String.String _ s => str_contains pat s end.

(** [skip] bytes of a replaced occurrence are still to pass. *)
Fixpoint str_replace (pat rep : string) (skip : nat) (s : string) : string :=
  match s with
  | String.EmptyString => ""
  | String.String c s' =>
      match skip with
      | S skip => str_replace pat rep skip s'
      | O => if String.prefix pat s then String.app rep (str_replace pat rep (String.length pat - 1) s')
             else String.String c (str_replace pat rep 0 s')
      end
  end.

Fixpoint str_rev (s acc : string) : string :=
  match s with String.EmptyString => acc | String.String c s => str_rev s (String.String c acc) end.

Definition chr (n : nat) : string := String.String (ascii_of_nat n) "".
Definition utf8 (l : list nat) : string := foldr (fun n s => String.String (ascii_of_nat n) s) "" l.

(** The characters with the property White_Space, in UTF-8. *)
Definition WHITESPACE : list string :=
  utf8 <$> ([[9]; [10]; [11]; [12]; [13]; [32]; [194; 133]; [194; 160]; [225; 154; 128]] ++
            ((fun b => [226; 128; b]) <$> seq 128 11) ++ [[226; 128; 168]; [226; 128; 169]; [226; 128; 175]; [226; 129; 159]; [227; 128; 128]])%nat.

Fixpoint str_drop (n : nat) (s : string) : string :=
  match n, s with S n, String.String _ s => str_drop n s | _, _ => s end.

(** [trim_start] with the characters [ws]; each round removes one. *)
Fixpoint trim_start (fuel : nat) (ws : list string) (s : string) : string :=
  match fuel with
  | O => s
  | S fuel =>
      match List.find (fun w => String.prefix w s) ws with
      | Some w => trim_start fuel ws (str_drop (String.length w) s)
      | None => s
      end
  end.

(** [str::trim]. *)
Definition trim (s : string) : string :=
  let s := trim_start (String.length s) WHITESPACE s in
  str_rev (trim_start (String.length s) ((fun w => str_rev w "") <$> WHITESPACE) (str_rev s "")) "".

Fixpoint str_map (f : Ascii.ascii -> Ascii.ascii) (s : string) : string :=
  match s with String.EmptyString => "" | String.String c s => String.String (f c) (str_map f s) end.

(** ** Folders *)

Definition CATEGORY : string := "{category}".

Definition sanitize_char (c : Ascii.ascii) : Ascii.ascii :=
  if bool_decide (c = "/"%char \/ c = "\"%char \/ c = ascii_of_nat 0) then "_"%char else c.

Definition expand_folder_template (folder : string) (category : option string) : string :=
  if negb (str_contains CATEGORY folder) then folder
  else
    let category :=
      match trim <$> category with
      | Some c => if bool_decide (c = "") then "uncategorized" else c
      | None => "uncategorized"
      end in
    str_replace CATEGORY (str_map sanitize_char category) 0 folder.

Example expand_test :
  expand_folder_template "/downloads/{category}" (Some " tv/anime ") = "/downloads/tv_anime" /\
  expand_folder_template "/downloads/{category}" None = "/downloads/uncategorized" /\
  expand_folder_template "{category}/x{category}" (Some "a") = "a/xa".
Proof. done. Qed.

(** [Path::file_name]: the last component, if it is a name. *)
Definition file_name (p : string) : option string :=
  match last (components p) with Some (Normal n) => Some n | _ => None end.

(** The parts before and after the last dot. *)
Fixpoint rsplit_dot (s : string) : option (string * string) :=
  match s with
  | String.EmptyString => None
  | String.String c s' =>
      match rsplit_dot s' with
      | Some (b, a) => Some (String.String c b, a)
      | None => if bool_decide (c = "."%char) then Some ("", s') else None
      end
  end.

(** [Path::file_stem]. *)
Definition file_stem (p : string) : option string :=
  n ← file_name p;
  if bool_decide (n = "..") then Some n
  else match rsplit_dot n with
       | Some (b, _) => Some (if bool_decide (b = "") then n else b)
       | None => Some n
       end.

Inductive FolderError :=
| PathTraversal
| NoLongestFilename
| FoldersExclusive
| OnlyFilesExclusive
| FileIdOutOfRange
| BadRegex
| NoneMatch
| MoveFailed.

Definition check_valid (pb : string) : result FolderError unit :=
  if existsb (fun c => negb (is_normal c)) (components pb) then Err PathTraversal else Ok tt.

(** [max_by_key]: the last of the greatest. *)
Fixpoint max_by_key {A} (key : A -> Z) (l : list A) : option A :=
  match l with
  | [] => None
  | x :: l => match max_by_key key l with
              | Some y => Some (if key x <=? key y then y else x)
              | None => Some x
              end
  end.

Definition get_default_subfolder_for_torrent (v : ValidatedTorrentMetaV1Info) (magnet_name : option string) :
    outcome (result FolderError (option string)) :=
  match ti_files (v_info v) with
  | None => Done (Ok None)
  | Some _ =>
      details ←! iter_file_details v;
      let files := (fun fd => (to_pathbuf (v_encoding v) (fd_filename fd), fd_len fd)) <$> details in
      match name v, magnet_name with
      | Some n, _ | None, Some n => _ ←?! Done (check_valid n); Done (Ok (Some n))
      | None, None =>
          longest ←! unwrap (max_by_key snd files);
          Done (match file_stem longest.1 with Some s => Ok (Some s) | None => Err NoLongestFilename end)
      end
  end.

Record FolderOpts := mkFolderOpts {
  fo_output_folder : option string;
  fo_sub_folder : option string;
  fo_output_folder_root : option string;
  fo_category : option string;
}.

(** The folder of a torrent that is added. *)
Definition choose_output_folder (session_folder : string) (o : FolderOpts) (v : ValidatedTorrentMetaV1Info)
    (magnet_name : option string) : outcome (result FolderError string) :=
  let category := fo_category o in
  let default_output_folder := expand_folder_template session_folder category in
  let root := (fun r => expand_folder_template r category) <$> fo_output_folder_root o in
  match fo_output_folder o, fo_sub_folder o, root with
  | None, None, None =>
      sub ←?! get_default_subfolder_for_torrent v magnet_name;
      Done (Ok (join default_output_folder (default "" sub)))
  | Some f, None, None => Done (Ok (expand_folder_template f category))
  | None, Some s, None => Done (Ok (join default_output_folder (expand_folder_template s category)))
  | None, None, Some root =>
      sub ←?! get_default_subfolder_for_torrent v magnet_name;
      Done (Ok (join root (default "" sub)))
  | _, _, _ => Done (Err FoldersExclusive)
  end.

(** ** Selecting files *)

Section only_files.
(** [regex::Regex::new] and [is_match]. *)
Variable regex : string -> option (string -> bool).

Fixpoint matching (is_match : string -> bool) (idx : nat) (names : list string) : list nat :=
  match names with
  | [] => []
  | n :: names => (if is_match n then [idx] else []) ++ matching is_match (S idx) names
  end.

Definition compute_only_files_regex (v : ValidatedTorrentMetaV1Info) (re : string) : outcome (result FolderError (list nat)) :=
  match regex re with
  | None => Done (Err BadRegex)
  | Some is_match =>
      details ←! iter_file_details v;
      let l := matching is_match 0 ((fun fd => to_pathbuf (v_encoding v) (fd_filename fd)) <$> details) in
      Done (if (length l =? 0)%nat then Err NoneMatch else Ok l)
  end.

Definition compute_only_files (v : ValidatedTorrentMetaV1Info) (only_files : option (list nat)) (re : option string) :
    outcome (result FolderError (option (list nat))) :=
  match only_files, re with
  | Some _, Some _ => Done (Err OnlyFilesExclusive)
  | Some l, None =>
      details ←! iter_file_details v;
      Done (if existsb (fun id => (length details <=? id)%nat) l then Err FileIdOutOfRange else Ok (Some l))
  | None, Some re => l ←?! compute_only_files_regex v re; Done (Ok (Some l))
  | None, None => Done (Ok None)
  end.
End only_files.

(** ** Moving a completed torrent *)

Record FileTree := mkFileTree {
  ft_files : gmap Path (list Z);
  ft_dirs : gset Path;
}.

Section move.
(** What the system does: creating directories, renaming, copying, removing. *)
Variables (mkdir_ok : Path -> bool) (rename_ok copy_ok : Path -> Path -> bool) (unlink_ok : Path -> bool).

Definition above (p : Path) : list Path := (fun n => take n p) <$> seq 1 (length p).

(** [tokio::fs::create_dir_all]. *)
Definition create_dirs (d : FileTree) (p : Path) : result FolderError FileTree :=
  if decide (p = [] \/ p ∈ ft_dirs d) then Ok d
  else if existsb (fun a => bool_decide (is_Some (ft_files d !! a))) (above p) || negb (mkdir_ok p) then Err MoveFailed
  else Ok (mkFileTree (ft_files d) (list_to_set (above p) ∪ ft_dirs d)).

(** [tokio::fs::rename]: a file at the destination is replaced. *)
Definition move_rename (d : FileTree) (from to : Path) : option FileTree :=
  match ft_files d !! from with
  | Some c => if bool_decide (to ∈ ft_dirs d) || negb (rename_ok from to) then None
              else Some (mkFileTree (<[to := c]> (delete from (ft_files d))) (ft_dirs d))
  | None => None
  end.

(** [tokio::fs::copy] and [remove_file]. *)
Definition move_copy (d : FileTree) (from to : Path) : result FolderError unit * FileTree :=
  match ft_files d !! from with
  | Some c =>
      if bool_decide (to ∈ ft_dirs d) || negb (copy_ok from to) then (Err MoveFailed, d)
      else
        let d := mkFileTree (<[to := c]> (ft_files d)) (ft_dirs d) in
        if unlink_ok from then (Ok tt, mkFileTree (delete from (ft_files d)) (ft_dirs d)) else (Err MoveFailed, d)
  | None => (Err MoveFailed, d)
  end.

Definition move_one (d : FileTree) (from to : Path) : result FolderError unit * FileTree :=
  match match parent to with Some p => create_dirs d p | None => Ok d end with
  | Err e => (Err e, d)
  | Ok d =>
      match move_rename d from to with
      | Some d => (Ok tt, d)
      | None => move_copy d from to
      end
  end.

Fixpoint move_files (d : FileTree) (current_output dest_base : Path) (fis : list FileInfo) :
    result FolderError unit * FileTree :=
  match fis with
  | [] => (Ok tt, d)
  | fi :: fis =>
      if padding (fi_attrs fi) then move_files d current_output dest_base fis
      else
        let rel := components (fi_relative_filename fi) in
        match move_one d (path_join current_output rel) (path_join dest_base rel) with
        | (Err e, d) => (Err e, d)
        | (Ok _, d) => move_files d current_output dest_base fis
        end
  end.

(** [tokio::fs::remove_dir] of a directory that is empty. *)
Definition remove_empty (d : FileTree) (p : Path) : FileTree :=
  if existsb (fun q => bool_decide (parent q = Some p)) ((map_to_list (ft_files d)).*1 ++ elements (ft_dirs d)) then d
  else mkFileTree (ft_files d) (ft_dirs d ∖ {[p]}).

(** Where the files go: below the target as they were below the folder of the
    session. *)
Definition dest_base (current_output session_output target : Path) : Path :=
  match default [] (strip_prefix current_output session_output) with
  | [] => target
  | rel => path_join target rel
  end.

Definition move_completed_torrent (session_folder : string) (category : option string) (current_output target : Path)
    (fis : list FileInfo) (d : FileTree) : result FolderError unit * FileTree :=
  if decide (current_output = target) then (Ok tt, d)
  else
    let session_output := components (expand_folder_template session_folder category) in
    let dest := dest_base current_output session_output target in
    match create_dirs d dest with
    | Err e => (Err e, d)
    | Ok d =>
        match move_files d current_output dest fis with
        | (Err e, d) => (Err e, d)
        | (Ok _, d) => (Ok tt, if decide (current_output = session_output) then d else remove_empty d current_output)
        end
    end.
End move.

(** The files that are moved or deleted. *)
Definition file_paths (fis : list FileInfo) : list Path :=
  (fun fi => components (fi_relative_filename fi)) <$> List.filter (fun fi => negb (padding (fi_attrs fi))) fis.

(** ** Deleting the files of a torrent *)

(** The length of a path as text. *)
Definition os_len (p : Path) : nat :=
  foldr (fun c n => (match c with Normal s => String.length s | RootDir => 0 | CurDir => 1 | ParentDir => 2 end + 1 + n)%nat) 0%nat p.

(** The folders a file is in, below the root. *)
Definition parents (rel : Path) : list Path := (fun n => take n rel) <$> seq 1 (length rel - 1).

Section delete.
(** Whether the system lets go of a file or folder; the order of the hash set. *)
Variables (unlink_ok rmdir_ok : Path -> bool) (ord : list Path -> list Path).

(** [remove_file] of the storage, whose errors are only logged. *)
Definition unlink (d : FileTree) (p : Path) : FileTree :=
  if unlink_ok p then mkFileTree (delete p (ft_files d)) (ft_dirs d) else d.

(** [remove_directory_if_empty] of the storage. *)
Definition remove_if_empty (d : FileTree) (p : Path) : FileTree :=
  if decide (p ∈ ft_dirs d) then if rmdir_ok p then remove_empty d p else d else d.

Definition all_dirs (fis : list FileInfo) : list Path :=
  sort_by (fun a b => (os_len b <=? os_len a)%nat) (ord (remove_dups (concat (parents <$> file_paths fis)))).

Definition remove_files_and_dirs (output_folder : Path) (fis : list FileInfo) (d : FileTree) : FileTree :=
  let d := foldl (fun d rel => unlink d (path_join output_folder rel)) d (file_paths fis) in
  foldl (fun d p => remove_if_empty d (path_join output_folder p)) d (all_dirs fis).
End delete.

(** ** Names and folders *)

Lemma app_cons c (a b : string) : String.app (String.String c a) b = String.String c (String.app a b).
Proof. reflexivity. Qed.

Lemma sanitize_no_sep s : has_sep (str_map sanitize_char s) = false.
Proof.
  induction s as [|c s IH]; [done|]. simpl. rewrite IH, orb_false_r. apply bool_decide_eq_false. unfold sanitize_char.
  case_bool_decide as Hc; [done|]. intros ->. apply Hc. by left.
Qed.

Lemma prefix_nil pat : String.prefix pat "" = true -> pat = "".
Proof. by destruct pat. Qed.

Lemma prefix_cons a pat c s : String.prefix (String.String a pat) (String.String c s) =
  (if ascii_dec a c then String.prefix pat s else false).
Proof. reflexivity. Qed.

(** A pattern without separators matches within one part. *)
Lemma prefix_part pat a b : has_sep pat = false ->
  String.prefix pat (String.app a (String.String SEP b)) = String.prefix pat a.
Proof.
  revert pat. induction a as [|c a IH]; intros [|p pat] Hp; try done.
  - change (String.app "" (String.String SEP b)) with (String.String SEP b). rewrite prefix_cons.
    destruct (ascii_dec p SEP) as [->|]; [|done]. by simpl in Hp.
  - rewrite app_cons, !prefix_cons. destruct (ascii_dec p c); [|done]. apply IH. simpl in Hp.
    by apply orb_false_iff in Hp as [_ ?].
Qed.

Lemma prefix_length pat s : String.prefix pat s = true -> (String.length pat <= String.length s)%nat.
Proof.
  revert s. induction pat as [|p pat IH]; intros [|c s]; [simpl; lia..|done|]. rewrite prefix_cons.
  destruct (ascii_dec p c); [|done]. intros Hp. apply IH in Hp. simpl. lia.
Qed.

(** Replacing works part by part. *)
Lemma str_replace_part pat rep a b : forall k, has_sep pat = false -> pat <> "" -> (k <= String.length a)%nat ->
  str_replace pat rep k (String.app a (String.String SEP b)) =
  String.app (str_replace pat rep k a) (String.String SEP (str_replace pat rep 0 b)).
Proof.
  induction a as [|c a IH]; intros k Hp Hne Hk.
  - simpl in Hk. assert (k = 0%nat) as -> by lia.
    change (String.app "" (String.String SEP b)) with (String.String SEP b). cbn [str_replace].
    change (String.String SEP b) with (String.app "" (String.String SEP b)) at 1. rewrite prefix_part by done.
    destruct pat; [done|]. reflexivity.
  - rewrite app_cons. cbn [str_replace]. destruct k as [|k]; [|simpl in Hk; apply IH; [done..|lia]].
    rewrite <- app_cons, prefix_part by done. destruct (String.prefix pat (String.String c a)) eqn:E.
    + rewrite IH; [by rewrite app_string_assoc|done..|]. apply prefix_length in E. simpl in E. lia.
    + rewrite IH; [reflexivity|done..|lia].
Qed.

Lemma str_replace_no_sep pat rep s : forall k, has_sep rep = false -> has_sep s = false -> has_sep (str_replace pat rep k s) = false.
Proof.
  assert (Happ : forall a b, has_sep a = false -> has_sep b = false -> has_sep (String.app a b) = false).
  { intros a b Ha Hb. induction a as [|c a IH]; [done|]. rewrite app_cons. simpl in *. apply orb_false_iff in Ha as [-> Ha].
    by apply IH. }
  induction s as [|c s IH]; intros k Hr Hs; [done|]. simpl in Hs. apply orb_false_iff in Hs as [Hc Hs]. cbn [str_replace].
  destruct k; [|by apply IH]. destruct (String.prefix pat _); [by apply Happ; [|apply IH]|].
  cbn [has_sep]. rewrite Hc. by apply IH.
Qed.

(** The first part of a string. *)
Lemma first_part s : has_sep s = true -> exists a b, has_sep a = false /\ s = String.app a (String.String SEP b) /\
  (String.length b < String.length s)%nat.
Proof.
  induction s as [|c s IH]; [done|]. cbn [has_sep]. destruct (bool_decide_reflect (c = SEP)) as [->|Hc]; cbn [orb].
  - intros _. exists "", s. split_and!; [done|done|simpl; lia].
  - intros Hs. destruct (IH Hs) as (a & b & Ha & -> & Hl). exists (String.String c a), b. split_and!; [|done|simpl in *; lia].
    simpl. by rewrite bool_decide_eq_false_2.
Qed.

Lemma split_replace pat rep s : has_sep pat = false -> pat <> "" -> has_sep rep = false ->
  split_sep (str_replace pat rep 0 s) = str_replace pat rep 0 <$> split_sep s.
Proof.
  intros Hp Hne Hr. remember (String.length s) as n eqn:Hn. revert s Hn.
  induction n as [n IH] using lt_wf_ind. intros s ->. destruct (has_sep s) eqn:Hs.
  - destruct (first_part s Hs) as (a & b & Ha & -> & Hl). rewrite str_replace_part by (done || lia).
    rewrite !split_sep_app, fmap_app. rewrite (IH _ Hl b eq_refl).
    rewrite (split_sep_plain a), (split_sep_plain (str_replace pat rep 0 a)); [done|by apply str_replace_no_sep|done].
  - rewrite (split_sep_plain s), (split_sep_plain (str_replace pat rep 0 s)); [done|by apply str_replace_no_sep|done].
Qed.

(** The text put in place of the category. *)
Definition category_text (category : option string) : string :=
  str_map sanitize_char
    match trim <$> category with
    | Some c => if bool_decide (c = "") then "uncategorized" else c
    | None => "uncategorized"
    end.

(** Expanding a template keeps the folder structure: the text for the
    category has no separator, so every part between separators becomes one
    part, and a template without the placeholder is left alone. *)
Theorem expand_keeps_folders folder category :
  has_sep (category_text category) = false /\
  (if str_contains CATEGORY folder
   then split_sep (expand_folder_template folder category) = str_replace CATEGORY (category_text category) 0 <$> split_sep folder
   else expand_folder_template folder category = folder).
Proof.
  split; [apply sanitize_no_sep|]. unfold expand_folder_template. destruct (str_contains CATEGORY folder); [|done].
  cbn [negb]. apply split_replace; [done|done|apply sanitize_no_sep].
Qed.

Lemma check_valid_normal n : check_valid n = Ok tt -> Forall (fun c => is_normal c) (components n).
Proof.
  unfold check_valid. destruct (existsb _ _) eqn:E; [done|]. intros _. apply Forall_forall. intros c Hc.
  destruct (is_normal c) eqn:En; [done|]. exfalso. apply not_true_iff_false in E. apply E. apply existsb_exists.
  exists c. split; [by apply list_elem_of_In|by rewrite En].
Qed.

Lemma subfolder_normal v magnet_name sub : is_Some (name v) \/ is_Some magnet_name \/ ti_files (v_info v) = None ->
  get_default_subfolder_for_torrent v magnet_name = Done (Ok sub) -> Forall (fun c => is_normal c) (components (default "" sub)).
Proof.
  intros Hcase. unfold get_default_subfolder_for_torrent. destruct (ti_files (v_info v)); [|intros [= <-]; constructor].
  destruct (iter_file_details v) as [details|]; [|done]. rsimpl.
  assert (Hn : forall n, (_ ←?! Done (check_valid n); Done (Ok (Some n))) = Done (Ok sub) ->
    Forall (fun c => is_normal c) (components (default "" sub))).
  { intros n. destruct (check_valid n) as [[]|] eqn:E; rsimpl; [|done]. intros [= <-]. by apply check_valid_normal. }
  destruct (name v) as [n|]; [by apply Hn|]. destruct magnet_name as [n|]; [by apply Hn|].
  destruct Hcase as [[? ?]|[[? ?]|?]]; done.
Qed.

(** A torrent added without a folder of its own goes into the session's
    folder, or a chain of plain subfolders below it: the torrent's name and the
    name in a magnet link cannot lead out of it, for they are refused when a
    component is not a name. *)
Theorem default_folder_below session_folder o v magnet_name out :
  fo_output_folder o = None -> fo_sub_folder o = None -> fo_output_folder_root o = None ->
  is_Some (name v) \/ is_Some magnet_name \/ ti_files (v_info v) = None ->
  choose_output_folder session_folder o v magnet_name = Done (Ok out) ->
  exists rel, Forall (fun c => is_normal c) rel /\
    components out = components (expand_folder_template session_folder (fo_category o)) ++ rel.
Proof.
  intros H1 H2 H3 Hcase. unfold choose_output_folder. rewrite H1, H2, H3. cbn [fmap option_fmap option_map].
  destruct (get_default_subfolder_for_torrent v magnet_name) as [[sub|]|] eqn:E; rsimpl; [|done|done].
  intros [= <-]. pose proof (subfolder_normal v magnet_name sub Hcase E) as Hn.
  exists (components (default "" sub)). split; [done|]. by apply components_join.
Qed.

(** ** Selected files *)

Lemma matching_spec is_match names : forall idx i,
  i ∈ matching is_match idx names <-> exists n, names !! (i - idx)%nat = Some n /\ (idx <= i)%nat /\ is_match n = true.
Proof.
  induction names as [|n names IH]; intros idx i; cbn [matching].
  - split; [by intros ?%not_elem_of_nil|by intros (? & ? & _)].
  - rewrite elem_of_app, IH. split.
    + intros [Hi|(m & Hm & Hle & Hmm)].
      * destruct (is_match n) eqn:E; [|by apply not_elem_of_nil in Hi]. apply list_elem_of_singleton in Hi as ->.
        exists n. by rewrite Nat.sub_diag.
      * exists m. split_and!; [|lia|done]. replace (i - idx)%nat with (S (i - S idx)) by lia. done.
    + intros (m & Hm & Hle & Hmm). destruct (decide (i = idx)) as [->|Hne].
      * rewrite Nat.sub_diag in Hm. injection Hm as ->. left. rewrite Hmm. by apply list_elem_of_singleton.
      * right. exists m. split_and!; [|lia|done]. by replace (i - idx)%nat with (S (i - S idx)) in Hm by lia.
Qed.

(** The selection of an added torrent names files of the torrent; one by a
    regular expression is not empty and names exactly the files whose path
    matches. *)
Theorem compute_only_files_spec regex v only_files re l details : iter_file_details v = Done details ->
  compute_only_files regex v only_files re = Done (Ok (Some l)) ->
  Forall (fun i => (i < length details)%nat) l /\
  forall r is_match, re = Some r -> regex r = Some is_match -> l <> [] /\
    forall i, i ∈ l <-> exists fd, details !! i = Some fd /\ is_match (to_pathbuf (v_encoding v) (fd_filename fd)) = true.
Proof.
  intros Hd. unfold compute_only_files. destruct only_files as [ids|], re as [r|]; [done| | |done].
  - rewrite Hd. rsimpl. destruct (existsb _ ids) eqn:E; [done|]. intros [= <-]. split; [|done].
    apply Forall_forall. intros i Hi. apply Nat.nle_gt. intros Hle. apply not_true_iff_false in E. apply E.
    apply existsb_exists. exists i. split; [by apply list_elem_of_In|by apply Nat.leb_le].
  - unfold compute_only_files_regex. destruct (regex r) as [im|] eqn:Hr; rsimpl; [|done]. rewrite Hd. rsimpl.
    set (m := matching im 0 _). destruct (Nat.eqb_spec (length m) 0) as [|Hne]; [done|]. intros [= <-].
    assert (Hm : forall i, i ∈ m <-> exists fd, details !! i = Some fd /\ im (to_pathbuf (v_encoding v) (fd_filename fd)) = true).
    { intros i. unfold m. rewrite matching_spec, Nat.sub_0_r. setoid_rewrite list_lookup_fmap. split.
      - intros (n & Hn & _ & Hi). destruct (details !! i) as [fd|]; [|done]. injection Hn as <-. by exists fd.
      - intros (fd & -> & Hi). eexists. split; [done|]. split; [lia|done]. }
    split.
    + apply Forall_forall. intros i (fd & Hfd & _)%Hm. by eapply lookup_lt_Some.
    + intros r' im' [= <-] [= <-]%(eq_trans (eq_sym Hr)). split; [|done]. by intros ->.
Qed.

(** ** The files of a moved torrent *)

Section move_proofs.
Variables (mkdir_ok : Path -> bool) (rename_ok copy_ok : Path -> Path -> bool) (unlink_ok : Path -> bool).

Lemma create_dirs_files d p d' : create_dirs mkdir_ok d p = Ok d' -> ft_files d' = ft_files d.
Proof. unfold create_dirs. case_decide; [by intros [= <-]|]. destruct (_ || _); [done|]. by intros [= <-]. Qed.

(** One file: it ends at its destination, or stays where it was. *)
Lemma move_one_spec d from to c r d' : ft_files d !! from = Some c -> ft_files d !! to = None ->
  move_one mkdir_ok rename_ok copy_ok unlink_ok d from to = (r, d') ->
  (forall p, p <> from -> p <> to -> ft_files d' !! p = ft_files d !! p) /\
  (ft_files d' !! to = Some c \/ ft_files d' !! from = Some c) /\
  (r = Ok tt -> ft_files d' !! to = Some c /\ ft_files d' !! from = None).
Proof.
  intros Hf Ht. assert (Hne : from <> to) by congruence. unfold move_one.
  destruct (match parent to with Some p => create_dirs mkdir_ok d p | None => Ok d end) as [d1|e] eqn:E;
    [|by intros [= <- <-]; split_and!; [|right|]].
  assert (Hfiles : ft_files d1 = ft_files d).
  { destruct (parent to); [by eapply create_dirs_files|by injection E as <-]. }
  rewrite <- Hfiles in Hf, Ht |- *. clear E Hfiles.
  assert (Hmoved : forall p, p <> from -> p <> to -> <[to := c]> (delete from (ft_files d1)) !! p = ft_files d1 !! p).
  { intros p H1 H2. by rewrite lookup_insert_ne, lookup_delete_ne. }
  unfold move_rename. rewrite Hf. destruct (_ || negb (rename_ok from to)).
  - unfold move_copy. rewrite Hf. destruct (_ || negb (copy_ok from to)); [by intros [= <- <-]; split_and!; [|right|]|].
    assert (Hsame : delete from (<[to := c]> (ft_files d1)) = <[to := c]> (delete from (ft_files d1)))
      by (by rewrite delete_insert_ne).
    destruct (unlink_ok from); intros [= <- <-]; cbn [ft_files].
    + rewrite Hsame. split; [exact Hmoved|]. rewrite lookup_insert_eq, lookup_insert_ne, lookup_delete_eq by done. by split; [left|].
    + rewrite lookup_insert_eq. split_and!; [|by left|done]. intros p _ Hp. by rewrite lookup_insert_ne.
  - intros [= <- <-]. cbn [ft_files]. split; [exact Hmoved|].
    rewrite lookup_insert_eq, lookup_insert_ne, lookup_delete_eq by done. by split; [left|].
Qed.

Definition at_source (cur : Path) (d : FileTree) (rel : Path) : option (list Z) := ft_files d !! path_join cur rel.

Lemma move_files_spec cur dest fis d r d' :
  NoDup (file_paths fis) -> Forall (Forall (fun c => is_normal c)) (file_paths fis) ->
  (forall rel, rel ∈ file_paths fis -> is_Some (ft_files d !! path_join cur rel) /\ ft_files d !! path_join dest rel = None) ->
  move_files mkdir_ok rename_ok copy_ok unlink_ok d cur dest fis = (r, d') ->
  (forall p, (forall rel, rel ∈ file_paths fis -> p <> path_join cur rel /\ p <> path_join dest rel) -> ft_files d' !! p = ft_files d !! p) /\
  (forall rel c, rel ∈ file_paths fis -> ft_files d !! path_join cur rel = Some c ->
     (ft_files d' !! path_join dest rel = Some c \/ ft_files d' !! path_join cur rel = Some c) /\
     (r = Ok tt -> ft_files d' !! path_join dest rel = Some c /\ ft_files d' !! path_join cur rel = None)).
Proof.
  revert d. induction fis as [|fi fis IH]; intros d Hnd Hn Hd; cbn [move_files].
  { intros [= <- <-]. split; [done|]. intros rel c Hr. by apply not_elem_of_nil in Hr. }
  unfold file_paths in *. cbn [List.filter] in *. destruct (padding (fi_attrs fi)); cbn [negb] in *; [by apply IH|].
  rewrite fmap_cons in *. apply NoDup_cons in Hnd as [Hout Hnd]. apply Forall_cons in Hn as [Hn1 Hn].
  set (rel := components (fi_relative_filename fi)) in *. set (rest := _ <$> _) in *.
  destruct (Hd rel) as [[c Hc] Hfree]; [by constructor|].
  destruct (move_one _ _ _ _ d (path_join cur rel) (path_join dest rel)) as [[[]|e] d1] eqn:E1;
    destruct (move_one_spec d _ _ c _ _ Hc Hfree E1) as (Hoth & Hor & Hok).
  - destruct (Hok eq_refl) as [Hto Hfrom]. intros Hrun.
    assert (Hapart : forall rel', rel' ∈ rest -> path_join cur rel' <> path_join cur rel /\ path_join cur rel' <> path_join dest rel /\
      path_join dest rel' <> path_join cur rel /\ path_join dest rel' <> path_join dest rel).
    { intros rel' Hr'. destruct (Hd rel') as [[c' Hc'] Hf']; [by constructor|].
      rewrite Forall_forall in Hn. pose proof (Hn _ Hr') as Hn'. rewrite !path_join_normal in * by done.
      assert (Hrr : rel' <> rel) by (intros ->; done).
      split_and!; [intros ?%app_inv_head; done|congruence|congruence|intros ?%app_inv_head; done]. }
    destruct (IH d1) as [Hp Hr]; [done|done| |exact Hrun|].
    { intros rel' Hr'. destruct (Hapart rel' Hr') as (A1 & A2 & A3 & A4). rewrite !Hoth by done.
      apply Hd. by constructor. }
    split.
    + intros p Hpp. rewrite Hp; [|by intros rel' Hr'; apply Hpp; constructor]. destruct (Hpp rel); [by constructor|]. by apply Hoth.
    + intros rel' c' Hr' Hc'. apply elem_of_cons in Hr' as [->|Hr'].
      * assert (c' = c) as -> by congruence.
        assert (Hkeep : ft_files d' !! path_join dest rel = Some c /\ ft_files d' !! path_join cur rel = None).
        { rewrite !Hp; [done|..]; intros rel' Hr'; destruct (Hapart rel' Hr') as (A1 & A2 & A3 & A4); split; congruence. }
        split; [left|intros _]; apply Hkeep.
      * apply Hr; [done|]. destruct (Hapart rel' Hr') as (A1 & A2 & A3 & A4). by rewrite Hoth.
  - intros [= <- <-]. split.
    + intros p Hpp. destruct (Hpp rel); [by constructor|]. by apply Hoth.
    + intros rel' c' Hr' Hc'. split; [|done]. apply elem_of_cons in Hr' as [->|Hr'].
      * by assert (c' = c) as -> by congruence.
      * right. rewrite Forall_forall in Hn. pose proof (Hn _ Hr') as Hn'.
        rewrite Hoth; [done| |].
        -- rewrite !path_join_normal by done. intros ->%app_inv_head. done.
        -- congruence.
Qed.
End move_proofs.

(** C24: moving a completed torrent loses none of its files, whatever the system
    refuses on the way, when nothing is in the way at the destination: each file
    ends at its destination or stays where it was, no other file is touched, and
    when the move succeeds every file is at its destination and gone from its
    old place. *)
Theorem move_completed_keeps_files mkdir_ok rename_ok copy_ok unlink_ok folder category cur target fis d r d' :
  let dest := dest_base cur (components (expand_folder_template folder category)) target in
  NoDup (file_paths fis) -> Forall (Forall (fun c => is_normal c)) (file_paths fis) ->
  (forall rel, rel ∈ file_paths fis -> is_Some (ft_files d !! path_join cur rel) /\ ft_files d !! path_join dest rel = None) ->
  move_completed_torrent mkdir_ok rename_ok copy_ok unlink_ok folder category cur target fis d = (r, d') ->
  (forall p, (forall rel, rel ∈ file_paths fis -> p <> path_join cur rel /\ p <> path_join dest rel) ->
     ft_files d' !! p = ft_files d !! p) /\
  (forall rel c, rel ∈ file_paths fis -> ft_files d !! path_join cur rel = Some c ->
     (ft_files d' !! path_join dest rel = Some c \/ ft_files d' !! path_join cur rel = Some c) /\
     (r = Ok tt -> cur <> target -> ft_files d' !! path_join dest rel = Some c /\ ft_files d' !! path_join cur rel = None)).
Proof.
  intros dest Hnd Hn Hd. unfold move_completed_torrent. case_decide as Heq.
  { intros [= <- <-]. split; [done|]. intros rel c Hr Hc. split; [by right|done]. }
  fold dest. destruct (create_dirs mkdir_ok d dest) as [d1|e] eqn:Ed.
  2: { intros [= <- <-]. split; [done|]. intros rel c Hr Hc. split; [by right|done]. }
  apply create_dirs_files in Ed. destruct (move_files _ _ _ _ d1 cur dest fis) as [r1 d2] eqn:Em.
  destruct (move_files_spec mkdir_ok rename_ok copy_ok unlink_ok cur dest fis d1 r1 d2) as [Hp Hr]; [done|done|by rewrite Ed|done|].
  rewrite Ed in Hp, Hr.
  assert (Hempty : forall q, ft_files (remove_empty d2 q) = ft_files d2) by (intros q; unfold remove_empty; by destruct (existsb _ _)).
  assert (Hlast : exists d3, ft_files d3 = ft_files d2 /\ match r1 with
      | Ok _ => (Ok tt, if decide (cur = components (expand_folder_template folder category)) then d2 else remove_empty d2 cur)
      | Err e => (Err e, d2) end = (r1, d3)).
  { destruct r1 as [[]|]; [|by exists d2]. eexists. split; [|done]. by case_decide. }
  destruct Hlast as (d3 & E3 & Hlast). intros Hrun.
  assert ((r, d') = (r1, d3)) as [= -> ->]. { rewrite <- Hrun, <- Hlast. by destruct r1 as [[]|]. }
  rewrite E3. split; [done|]. intros rel c Hin Hc. destruct (Hr rel c Hin Hc) as [Ha Hb]. split; [done|]. intros Hr1 _. by apply Hb.
Qed.

(** ** Deleted torrents *)

(** Something is in the folder. *)
Definition occupied (d : FileTree) (p : Path) : Prop :=
  exists q, parent q = Some p /\ (is_Some (ft_files d !! q) \/ q ∈ ft_dirs d).

Lemma remove_empty_spec d p : ft_files (remove_empty d p) = ft_files d /\ ft_dirs (remove_empty d p) ⊆ ft_dirs d /\
  (forall q, q <> p -> q ∈ ft_dirs d -> q ∈ ft_dirs (remove_empty d p)) /\
  (p ∈ ft_dirs (remove_empty d p) -> occupied (remove_empty d p) p).
Proof.
  unfold remove_empty. destruct (existsb _ _) eqn:E.
  - split_and!; [done|done|done|]. intros _. apply existsb_exists in E as (q & Hq & Hp%bool_decide_eq_true).
    exists q. split; [done|]. apply list_elem_of_In, elem_of_app in Hq as [Hq|Hq].
    + left. apply list_elem_of_fmap in Hq as ([q' c] & -> & Hq). apply elem_of_map_to_list in Hq. by exists c.
    + right. by apply elem_of_elements in Hq.
  - cbn. split_and!; [done|set_solver|set_solver|]. set_solver.
Qed.

Lemma remove_if_empty_spec rmdir_ok d p : (forall q, rmdir_ok q = true) -> ft_files (remove_if_empty rmdir_ok d p) = ft_files d /\
  ft_dirs (remove_if_empty rmdir_ok d p) ⊆ ft_dirs d /\
  (forall q, q <> p -> q ∈ ft_dirs d -> q ∈ ft_dirs (remove_if_empty rmdir_ok d p)) /\
  (p ∈ ft_dirs (remove_if_empty rmdir_ok d p) -> occupied (remove_if_empty rmdir_ok d p) p).
Proof.
  intros Hok. unfold remove_if_empty. rewrite Hok. case_decide; [apply remove_empty_spec|]. by split_and!.
Qed.

Lemma os_len_app p q : os_len (p ++ q) = (os_len p + os_len q)%nat.
Proof. unfold os_len. induction p as [|c p IH]; [done|]. simpl. rewrite IH. lia. Qed.

Lemma parent_snoc l x p : parent (l ++ [x]) = Some p -> p = l.
Proof.
  unfold parent. destruct l as [|c l]; [by destruct x; intros [= <-]|]. rewrite <- app_comm_cons.
  destruct (l ++ [x]) as [|c0 l0] eqn:E; [by destruct l|].
  assert (Hr : removelast (c :: c0 :: l0) = c :: l) by (rewrite <- E, app_comm_cons; apply removelast_last).
  destruct c; intros [= <-]; exact Hr.
Qed.

Lemma parent_longer q p : parent q = Some p -> (os_len p < os_len q)%nat.
Proof.
  destruct q as [|c q] using rev_ind; [done|]. intros ->%parent_snoc. rewrite os_len_app. unfold os_len at 3. simpl. lia.
Qed.

(** Longest first, every folder ends removed or with something in it. *)
Lemma remove_dirs_spec rmdir_ok out dirs : (forall q, rmdir_ok q = true) ->
  StronglySorted (fun a b => (os_len b <= os_len a)%nat) dirs -> forall d,
  let d' := foldl (remove_if_empty rmdir_ok) d ((fun p => out ++ p) <$> dirs) in
  ft_files d' = ft_files d /\ ft_dirs d' ⊆ ft_dirs d /\
  (forall q, q ∈ ft_dirs d -> q ∉ (fun p => out ++ p) <$> dirs -> q ∈ ft_dirs d') /\
  forall p, p ∈ dirs -> out ++ p ∈ ft_dirs d' -> occupied d' (out ++ p).
Proof.
  intros Hok. induction 1 as [|p dirs Hs IH Hp]; intros d; cbn [fmap list_fmap foldl]; [split_and!; set_solver|].
  destruct (remove_if_empty_spec rmdir_ok d (out ++ p) Hok) as (F1 & D1 & K1 & O1). set (d1 := remove_if_empty rmdir_ok d (out ++ p)) in *.
  destruct (IH d1) as (F2 & D2 & K2 & O2). set (d2 := foldl _ d1 _) in *. split_and!.
  - by rewrite F2.
  - set_solver.
  - intros q Hq Hnot. apply K2; [apply K1; set_solver|set_solver].
  - intros p' Hp' Hin. apply elem_of_cons in Hp' as [->|Hp']; [|by apply O2].
    destruct O1 as (q & Hq & Hqq); [by apply D2|]. exists q. split; [done|]. destruct Hqq as [Hf|Hd]; [left; by rewrite F2|right].
    apply K2; [done|]. intros (p' & -> & Hp')%list_elem_of_fmap. rewrite Forall_forall in Hp. specialize (Hp p' Hp').
    apply parent_longer in Hq. rewrite !os_len_app in Hq. lia.
Qed.

Lemma unlink_all_spec unlink_ok out rels d : (forall p, unlink_ok p = true) ->
  let d' := foldl (fun d rel => unlink unlink_ok d (path_join out rel)) d rels in
  ft_dirs d' = ft_dirs d /\ (forall rel, rel ∈ rels -> ft_files d' !! path_join out rel = None) /\
  (forall p, p ∉ path_join out <$> rels -> ft_files d' !! p = ft_files d !! p).
Proof.
  intros Hok. revert d. induction rels as [|rel rels IH]; intros d; [by split_and!; [|intros ? ?%not_elem_of_nil|]|].
  cbn [foldl fmap list_fmap]. destruct (IH (unlink unlink_ok d (path_join out rel))) as (D & G & O). set (d' := foldl _ _ rels) in *.
  assert (Hu : unlink unlink_ok d (path_join out rel) = mkFileTree (delete (path_join out rel) (ft_files d)) (ft_dirs d))
    by (unfold unlink; by rewrite Hok).
  rewrite Hu in D, O. split_and!; [done| |].
  - intros r [->|Hr]%elem_of_cons; [|by apply G]. destruct (decide (path_join out rel ∈ path_join out <$> rels)) as [Hin|Hout].
    + apply list_elem_of_fmap in Hin as (r & -> & Hr). by apply G.
    + rewrite O by done. apply lookup_delete_eq.
  - intros p Hp. apply not_elem_of_cons in Hp as [Hne Hp]. rewrite O by done. cbn. by rewrite lookup_delete_ne.
Qed.

(** Deleting a torrent with its files, when the system allows it, removes
    every file of the torrent and no other file, and leaves none of the folders
    of the torrent behind empty: folders are tried from the deepest up, so one
    that still exists holds something. *)
Theorem delete_removes_files out fis d unlink_ok rmdir_ok ord : (forall l, ord l ≡ₚ l) ->
  (forall p, unlink_ok p = true) -> (forall p, rmdir_ok p = true) ->
  Forall (Forall (fun c => is_normal c)) (file_paths fis) ->
  let d' := remove_files_and_dirs unlink_ok rmdir_ok ord out fis d in
  (forall rel, rel ∈ file_paths fis -> ft_files d' !! (out ++ rel) = None) /\
  (forall p, (forall rel, rel ∈ file_paths fis -> p <> out ++ rel) -> ft_files d' !! p = ft_files d !! p) /\
  (forall rel p, rel ∈ file_paths fis -> p ∈ parents rel -> out ++ p ∈ ft_dirs d' -> occupied d' (out ++ p)).
Proof.
  intros Hord Hu Hr Hn d'. rewrite Forall_forall in Hn. set (dirs := all_dirs ord fis).
  assert (Hdirs : forall p, p ∈ dirs <-> exists rel, rel ∈ file_paths fis /\ p ∈ parents rel).
  { intros p. unfold dirs, all_dirs. rewrite sort_by_perm, (Hord (remove_dups _)), elem_of_remove_dups.
    rewrite list_elem_of_In, in_concat. setoid_rewrite <- list_elem_of_In. split.
    - intros (l & (rel & -> & Hrel)%list_elem_of_fmap & Hp). by exists rel.
    - intros (rel & Hrel & Hp). exists (parents rel). split; [by apply list_elem_of_fmap_2|done]. }
  assert (Hsorted : StronglySorted (fun a b => (os_len b <= os_len a)%nat) dirs).
  { assert (Hs : StronglySorted (fun a b => (os_len b <=? os_len a)%nat = true) dirs).
    { apply sort_by_sorted; intros; rewrite ?Nat.leb_le, ?Nat.leb_gt in *; lia. }
    clear -Hs. induction Hs as [|a l Hs IH Ha]; constructor; [done|]. eapply Forall_impl; [exact Ha|]. intros b. apply Nat.leb_le. }
  destruct (unlink_all_spec unlink_ok out (file_paths fis) d Hu) as (D1 & G1 & O1). set (d1 := foldl _ d (file_paths fis)) in *.
  destruct (remove_dirs_spec rmdir_ok out dirs Hr Hsorted d1) as (F2 & _ & _ & O2).
  assert (Hd' : d' = foldl (remove_if_empty rmdir_ok) d1 ((fun p => out ++ p) <$> dirs)).
  { unfold d', remove_files_and_dirs. fold d1. fold dirs.
    assert (Hnd : forall p, p ∈ dirs -> path_join out p = out ++ p).
    { intros p (rel & Hrel & Hp)%Hdirs. apply path_join_normal. specialize (Hn rel Hrel).
      apply list_elem_of_fmap in Hp as (n & -> & _). by apply Forall_take. }
    clearbody d1 dirs. clear -Hnd. revert d1 Hnd. induction dirs as [|p dirs IH]; intros d1 Hnd; [done|]. cbn [foldl fmap list_fmap].
    rewrite (Hnd p) by (by constructor). apply IH. intros p' Hp'. apply Hnd. by constructor. }
  rewrite Hd', F2. split_and!.
  - intros rel Hrel. rewrite <- (path_join_normal out rel) by (by apply Hn). by apply G1.
  - intros p Hp. apply O1. intros (rel & -> & Hrel)%list_elem_of_fmap. apply (Hp rel Hrel). apply path_join_normal. by apply Hn.
  - intros rel p Hrel Hp. apply O2. apply Hdirs. by exists rel.
Qed.

(** ** Ways out *)

(** The text of the category may be a parent directory: it has no separator, but
    it is a part of its own. *)
Lemma category_goes_up : components (expand_folder_template "/downloads/{category}" (Some "..")) =
  [RootDir; Normal "downloads"; ParentDir].
Proof. reflexivity. Qed.

Definition ex_bytes (s : string) : list Z := (fun c => Z.of_nat (nat_of_ascii c)) <$> String.list_ascii_of_string s.

(** A torrent without a name whose longest file is called [...x]. *)
Definition ex_nameless : TorrentMetaV1Info :=
  mkMetaInfo None (Some (replicate 20 0)) 16384 None None None None None None
    (Some [mkMetaFile 7 [ex_bytes "...x"] None None None]) false.

(** It passes validation, and its folder is the parent of the session's: the
    stem of its longest file, [..], is not checked as names are. *)
Lemma stem_goes_up : exists v, validate (fun _ => ex_decode) ex_nameless = Done (Ok v) /\
  choose_output_folder "/downloads" (mkFolderOpts None None None None) v None = Done (Ok "/downloads/..").
Proof. eexists. split; [vm_compute; reflexivity|]. vm_compute. reflexivity. Qed.

(** A file that is already at the destination is replaced, whoever it belongs
    to. *)
Lemma move_replaces_files : exists d d' fi,
  ft_files d !! [RootDir; Normal "done"; Normal "a"] = Some [1] /\
  move_completed_torrent (fun _ => true) (fun _ _ => true) (fun _ _ => true) (fun _ => true) "/dl" None
    [RootDir; Normal "other"] [RootDir; Normal "done"] [fi] d = (Ok tt, d') /\
  ft_files d' !! [RootDir; Normal "done"; Normal "a"] = Some [2].
Proof.
  exists (mkFileTree (<[[RootDir; Normal "done"; Normal "a"] := [1]]> {[ [RootDir; Normal "other"; Normal "a"] := [2] ]})
    {[ [RootDir; Normal "done"]; [RootDir; Normal "other"] ]}).
  eexists _, (mkFileInfo "a" 0 (0, 1) no_attrs 1). split; [reflexivity|]. split; [vm_compute; reflexivity|reflexivity].
Qed.

(** ** Witnesses *)

Definition ex_named : ValidatedTorrentMetaV1Info :=
  mkValidated ex_decode (mkLengths 15 16384 0 15 1)
    (mkMetaInfo (Some (ex_bytes "show")) (Some (replicate 20 0)) 16384 None None None None None None
      (Some [mkMetaFile 7 [ex_bytes "e1"] None None None; mkMetaFile 8 [ex_bytes "e2"] None None None]) false).

Lemma default_folder_below_witness : exists rel, Forall (fun c => is_normal c) rel /\
  components "/dl/tv/show" = components (expand_folder_template "/dl/{category}" (Some "tv")) ++ rel.
Proof.
  apply (default_folder_below "/dl/{category}" (mkFolderOpts None None None (Some "tv")) ex_named None "/dl/tv/show");
    [reflexivity..|left; vm_compute; by eexists|vm_compute; reflexivity].
Defined.

Lemma compute_only_files_spec_witness : exists details, iter_file_details ex_named = Done details /\
  Forall (fun i => (i < length details)%nat) [1%nat].
Proof.
  eexists. split; [vm_compute; reflexivity|].
  apply (compute_only_files_spec (fun _ => Some (fun n => bool_decide (n = "e2"))) ex_named None (Some "e2") [1%nat]);
    vm_compute; reflexivity.
Defined.

Definition ex_file : FileInfo := mkFileInfo "a" 0 (0, 1) no_attrs 1.
Definition ex_tree : FileTree :=
  mkFileTree {[ [RootDir; Normal "dl"; Normal "a"] := [2] ]} {[ [RootDir; Normal "dl"] ]}.

Lemma move_completed_keeps_files_witness : exists d',
  move_completed_torrent (fun _ => true) (fun _ _ => true) (fun _ _ => true) (fun _ => true) "/dl" None
    [RootDir; Normal "dl"] [RootDir; Normal "done"] [ex_file] ex_tree = (Ok tt, d') /\
  ft_files d' !! [RootDir; Normal "done"; Normal "a"] = Some [2].
Proof.
  eexists. split; [vm_compute; reflexivity|].
  eapply (move_completed_keeps_files (fun _ => true) (fun _ _ => true) (fun _ _ => true) (fun _ => true) "/dl" None
    [RootDir; Normal "dl"] [RootDir; Normal "done"] [ex_file] ex_tree (Ok tt)) with (rel := [Normal "a"]).
  - vm_compute. apply NoDup_singleton.
  - vm_compute. by repeat constructor.
  - intros rel Hr. assert (rel = [Normal "a"]) as -> by (apply list_elem_of_singleton; exact Hr). split; [by eexists|reflexivity].
  - vm_compute. reflexivity.
  - by apply list_elem_of_singleton.
  - reflexivity.
  - reflexivity.
  - done.
Defined.

Lemma delete_removes_files_witness :
  ft_files (remove_files_and_dirs (fun _ => true) (fun _ => true) (fun l => l) [RootDir; Normal "dl"] [ex_file] ex_tree)
    !! ([RootDir; Normal "dl"] ++ [Normal "a"]) = None.
Proof.
  apply (delete_removes_files [RootDir; Normal "dl"] [ex_file] ex_tree (fun _ => true) (fun _ => true) (fun l => l));
    [done|done|done|vm_compute; by repeat constructor|by apply list_elem_of_singleton].
Defined.
