(* ===== verification/Session.v ===== *)
(** * Session: the torrents of a session

    Models [SessionDatabase] of [crates/librtbit/src/session/types.rs], and
    [add_torrent_internal], [get], [delete] and the updates of the persistent
    store of [session/mod.rs].  Adding and deleting a torrent are tasks with
    awaits in the middle, so they are cut there and their steps interleave with
    everything else.  The persistent store is an interface; [JsonStore]
    implements it.  The torrents themselves are in [ManagedTorrent]: here a
    handle is what the store saves of it, and what starting it answers is an
    argument. *)

From stdpp Require Import strings.
From S2P Require Import Prelude HashId Storage AtomicWrite Bitv JsonStore.

(** ** The persistent store *)

(** [SessionPersistenceStore], over what the system answers ([Env]). *)
Class SessionPersistenceStore (S Env : Type) := {
  p_next_id : S -> Z;
  p_store : Env -> S -> nat -> TorrentHandle -> outcome (result StoreError unit * S);
  p_update_metadata : Env -> S -> nat -> TorrentHandle -> outcome (result StoreError unit * S);
  p_delete : Env -> S -> nat -> outcome (result StoreError unit * S);
}.

(** What a session relies on: [p_view] is the torrents the store knows. *)
Class PersistenceLaws (S Env : Type) `{SessionPersistenceStore S Env} := {
  p_ok : S -> Prop;
  p_view : S -> gmap nat Id;
  store_law : forall e s id t, p_ok s -> exists r s', p_store e s id t = Done (r, s') /\ p_ok s' /\
    (p_view s' = <[id := th_info_hash t]> (p_view s) \/ (r <> Ok tt /\ p_view s' = p_view s));
  update_law : forall e s id t, p_ok s -> exists r s', p_update_metadata e s id t = Done (r, s') /\ p_ok s' /\
    (p_view s' = <[id := th_info_hash t]> (p_view s) \/ (r <> Ok tt /\ p_view s' = p_view s));
  delete_law : forall e s id, p_ok s -> exists r s', p_delete e s id = Done (r, s') /\ p_ok s' /\
    (p_view s' = delete id (p_view s) \/ (r <> Ok tt /\ p_view s' = p_view s));
  next_id_law : forall s, (forall k, is_Some (p_view s !! k) -> Z.of_nat k + 1 < U64) ->
    0 <= p_next_id s /\ p_view s !! Z.to_nat (p_next_id s) = None;
}.

(** ** The database of a session *)

(** A torrent is a handle: its index in the table of handles. *)
Record SessionDatabase := mkSessionDb {
  sd_torrents : gmap nat nat;
  sd_info_hash_to_id : gmap Id nat;
}.

Definition hash_of (hs : list TorrentHandle) (h : nat) : Id := default [] (th_info_hash <$> hs !! h).

Definition db_add_torrent (hs : list TorrentHandle) (h id : nat) (db : SessionDatabase) : SessionDatabase :=
  mkSessionDb (<[id := h]> (sd_torrents db)) (<[hash_of hs h := id]> (sd_info_hash_to_id db)).

Definition db_remove_torrent (hs : list TorrentHandle) (id : nat) (db : SessionDatabase) : option nat * SessionDatabase :=
  match sd_torrents db !! id with
  | Some h => (Some h, mkSessionDb (delete id (sd_torrents db)) (delete (hash_of hs h) (sd_info_hash_to_id db)))
  | None => (None, db)
  end.

Definition db_get_by_info_hash (hash : Id) (db : SessionDatabase) : option (nat * nat) :=
  id ← sd_info_hash_to_id db !! hash; h ← sd_torrents db !! id; Some (id, h).

(** ** Adding *)

Record AddRequest := mkAddRequest {
  aq_torrent : TorrentHandle;
  aq_preferred_id : option nat;
}.

Inductive AddError := AStorage | AStore | AStart.

Inductive AddTorrentResponse :=
| AlreadyManaged (id h : nat)
| Added (id h : nat)
| AddFailed (e : AddError).

(** A call of [add_torrent_internal]: it has its id; it is in the database and
    is being stored; it is to be started; it is over. *)
Inductive AddPc :=
| AWaiting (id : nat)
| AStoring (id h : nat)
| AStarting (id h : nat)
| AOver (r : AddTorrentResponse).

Section session.
Context {S Env : Type} `{SessionPersistenceStore S Env}.

Record Session := mkSession {
  se_db : SessionDatabase;
  se_handles : list TorrentHandle;
  se_store : option S;
  se_next_id : nat;
  se_adds : list (AddRequest * AddPc);
  se_deletes : list nat;  (* removed from the database, to be deleted from the store *)
}.

Definition set_db (s : Session) (db : SessionDatabase) : Session :=
  mkSession db (se_handles s) (se_store s) (se_next_id s) (se_adds s) (se_deletes s).
Definition set_handles (s : Session) (l : list TorrentHandle) : Session :=
  mkSession (se_db s) l (se_store s) (se_next_id s) (se_adds s) (se_deletes s).
Definition set_store (s : Session) (p : option S) : Session :=
  mkSession (se_db s) (se_handles s) p (se_next_id s) (se_adds s) (se_deletes s).
Definition set_next_id (s : Session) (n : nat) : Session :=
  mkSession (se_db s) (se_handles s) (se_store s) n (se_adds s) (se_deletes s).
Definition set_adds (s : Session) (l : list (AddRequest * AddPc)) : Session :=
  mkSession (se_db s) (se_handles s) (se_store s) (se_next_id s) l (se_deletes s).
Definition set_deletes (s : Session) (l : list nat) : Session :=
  mkSession (se_db s) (se_handles s) (se_store s) (se_next_id s) (se_adds s) l.

Definition add_at (s : Session) (k : nat) (pc : AddPc) : Session :=
  set_adds s (alter (fun '(q, _) => (q, pc)) k (se_adds s)).

(** The id: the preferred one, the store's next, or the counter's. *)
Definition add_begin (q : AddRequest) (s : Session) : Session :=
  let '(id, s) :=
    match aq_preferred_id q, se_store s with
    | Some id, _ => (id, s)
    | None, Some p => (Z.to_nat (p_next_id p), s)
    | None, None => (se_next_id s, set_next_id s (se_next_id s + 1))
    end in
  set_adds s (se_adds s ++ [(q, AWaiting id)]).

(** Under the lock of the database; [create_ok]: the storage was created. *)
Definition add_insert (create_ok : bool) (k : nat) (s : Session) : Session :=
  match se_adds s !! k with
  | Some (q, AWaiting id) =>
      let hash := th_info_hash (aq_torrent q) in
      let existing :=
        match sd_torrents (se_db s) !! id with
        | Some h => Some (id, h)
        | None => db_get_by_info_hash hash (se_db s)
        end in
      match existing with
      | Some (eid, h) => add_at s k (AOver (AlreadyManaged eid h))
      | None =>
          if negb create_ok then add_at s k (AOver (AddFailed AStorage))
          else
            let h := length (se_handles s) in
            let s := set_handles s (se_handles s ++ [aq_torrent q]) in
            let s := set_db s (db_add_torrent (se_handles s) h id (se_db s)) in
            add_at s k (AStoring id h)
      end
  | _ => s
  end.

Definition add_store (e : Env) (k : nat) (s : Session) : outcome Session :=
  match se_adds s !! k with
  | Some (q, AStoring id h) =>
      match se_store s, se_handles s !! h with
      | Some p, Some t =>
          r ←! p_store e p id t;
          let s := set_store s (Some r.2) in
          Done (match r.1 with
                | Ok _ => add_at s k (AStarting id h)
                | Err _ => add_at (set_db s (db_remove_torrent (se_handles s) id (se_db s)).2) k (AOver (AddFailed AStore))
                end)
      | _, _ => Done (add_at s k (AStarting id h))
      end
  | _ => Done s
  end.

Definition add_start (start_ok : bool) (k : nat) (s : Session) : Session :=
  match se_adds s !! k with
  | Some (q, AStarting id h) => add_at s k (AOver (if start_ok then Added id h else AddFailed AStart))
  | _ => s
  end.

(** ** The rest *)

(** [Session::get]. *)
Definition session_get (id : TorrentIdOrHash) (s : Session) : option nat :=
  match id with
  | TId id => sd_torrents (se_db s) !! id
  | THash h => snd <$> db_get_by_info_hash h (se_db s)
  end.

(** [Session::delete], up to the deletion from the store (the metadata of a
    torrent is there from [add_torrent_internal] on). *)
Definition delete_begin (id : TorrentIdOrHash) (s : Session) : bool * Session :=
  match match id with TId id => Some id | THash h => fst <$> db_get_by_info_hash h (se_db s) end with
  | None => (false, s)
  | Some id =>
      match db_remove_torrent (se_handles s) id (se_db s) with
      | (None, _) => (false, s)
      | (Some _, db) => (true, set_deletes (set_db s db) (se_deletes s ++ [id]))
      end
  end.

(** An error of the store is only logged: it is the first component. *)
Definition delete_store (e : Env) (k : nat) (s : Session) : outcome (result StoreError unit * Session) :=
  match se_deletes s !! k, se_store s with
  | Some id, Some p =>
      r ←! p_delete e p id;
      Done (r.1, set_deletes (set_store s (Some r.2)) (delete k (se_deletes s)))
  | _, _ => Done (Ok tt, set_deletes s (delete k (se_deletes s)))
  end.

(** What the store saves of a torrent changes (paused, trackers, selection,
    category); the info hash does not. *)
Definition handle_change (h : nat) (f : TorrentHandle -> TorrentHandle) (s : Session) : Session :=
  set_handles s (alter (fun t => let t' := f t in
    mkTorrentHandle (th_filesystem t) (th_trackers t') (th_info_hash t) (th_only_files t') (th_is_paused t')
      (th_output_folder t) (th_output_folder_root t) (th_category t') (th_added_on t) (th_completion_on t') (th_metadata t))
    h (se_handles s)).

(** [try_update_persistence_metadata] of a handle the caller holds; [id] is the
    handle's.  An error is logged. *)
Definition try_update_persistence_metadata (e : Env) (id h : nat) (s : Session) : outcome (result StoreError unit * Session) :=
  match se_store s, se_handles s !! h with
  | Some p, Some t => r ←! p_update_metadata e p id t; Done (r.1, set_store s (Some r.2))
  | _, _ => Done (Ok tt, s)
  end.

Inductive SessionEvent :=
| SAdd (q : AddRequest)
| SInsert (create_ok : bool) (k : nat)
| SStore (e : Env) (k : nat)
| SStart (start_ok : bool) (k : nat)
| SDelete (id : TorrentIdOrHash)
| SErase (e : Env) (k : nat)
| SChange (h : nat) (f : TorrentHandle -> TorrentHandle)
| SUpdate (e : Env) (id h : nat).

Definition session_step (s : Session) (ev : SessionEvent) : outcome Session :=
  match ev with
  | SAdd q => Done (add_begin q s)
  | SInsert create_ok k => Done (add_insert create_ok k s)
  | SStore e k => add_store e k s
  | SStart start_ok k => Done (add_start start_ok k s)
  | SDelete id => Done (delete_begin id s).2
  | SErase e k => r ←! delete_store e k s; Done r.2
  | SChange h f => Done (handle_change h f s)
  | SUpdate e id h => r ←! try_update_persistence_metadata e id h s; Done r.2
  end.

Definition run_session (s : Session) (evs : list SessionEvent) : outcome Session := for_each session_step s evs.

Definition session_new (p : option S) : Session := mkSession (mkSessionDb ∅ ∅) [] p 0 [] [].

(** ** Whole calls, with nothing in between *)

(** [add_torrent_internal]: the answer is that of its task. *)
Definition add_torrent (create_ok : bool) (e : Env) (start_ok : bool) (q : AddRequest) (s : Session) :
    outcome (option AddTorrentResponse * Session) :=
  let k := length (se_adds s) in
  s ←! add_store e k (add_insert create_ok k (add_begin q s));
  let s := add_start start_ok k s in
  Done (match se_adds s !! k with Some (_, AOver r) => Some r | _ => None end, s).

(** [Session::delete]: [None] when there is no such torrent, otherwise what the
    store answered. *)
Definition delete_torrent (e : Env) (id : TorrentIdOrHash) (s : Session) :
    outcome (option (result StoreError unit) * Session) :=
  match delete_begin id s with
  | (false, s) => Done (None, s)
  | (true, s) => r ←! delete_store e (length (se_deletes s) - 1) s; Done (Some r.1, r.2)
  end.

Inductive SessionCall :=
| CAdd (create_ok : bool) (e : Env) (start_ok : bool) (q : AddRequest)
| CDelete (e : Env) (id : TorrentIdOrHash)
| CUpdate (e : Env) (id : TorrentIdOrHash) (f : TorrentHandle -> TorrentHandle).

(** A change of a torrent of the session that is saved at once, such as
    [Session::pause] and [update_only_files]; [handle_id] is the id in the
    handle. *)
Definition update_torrent (e : Env) (id : TorrentIdOrHash) (f : TorrentHandle -> TorrentHandle) (s : Session) :
    outcome (result StoreError unit * Session) :=
  match id, session_get id s with
  | TId i, Some h => try_update_persistence_metadata e i h (handle_change h f s)
  | THash x, Some h =>
      match sd_info_hash_to_id (se_db s) !! x with
      | Some i => try_update_persistence_metadata e i h (handle_change h f s)
      | None => Done (Ok tt, s)
      end
  | _, None => Done (Ok tt, s)
  end.

Definition is_ok {E A} (r : result E A) : bool := match r with Ok _ => true | Err _ => false end.

(** A call, and whether the store reported no error. *)
Definition session_call (s : Session) (c : SessionCall) : outcome (bool * Session) :=
  match c with
  | CAdd create_ok e start_ok q =>
      r ←! add_torrent create_ok e start_ok q s;
      Done (match r.1 with Some (AddFailed AStore) => false | _ => true end, r.2)
  | CDelete e id => r ←! delete_torrent e id s; Done (match r.1 with Some x => is_ok x | None => true end, r.2)
  | CUpdate e id f => r ←! update_torrent e id f s; Done (is_ok r.1, r.2)
  end.

Definition run_calls (s : Session) (cs : list SessionCall) : outcome (bool * Session) :=
  for_each (fun '(ok, s) c => r ←! session_call s c; Done (ok && r.1, r.2)) (true, s) cs.
End session.
Arguments Session : clear implicits.
Arguments SessionEvent : clear implicits.

(** ** The index by info hash *)

(** The two tables are inverse to each other, through the hashes of the
    torrents. *)
Record db_ok (hs : list TorrentHandle) (db : SessionDatabase) : Prop := {
  torrent_indexed id h : sd_torrents db !! id = Some h ->
    (h < length hs)%nat /\ sd_info_hash_to_id db !! hash_of hs h = Some id;
  index_sound x id : sd_info_hash_to_id db !! x = Some id ->
    exists h, sd_torrents db !! id = Some h /\ hash_of hs h = x;
}.

Lemma db_ok_empty hs : db_ok hs (mkSessionDb ∅ ∅).
Proof. split; simpl; intros *; by rewrite lookup_empty. Qed.

(** Only the hashes of the torrents in the table matter. *)
Lemma db_ok_handles hs hs' db : db_ok hs db -> (length hs <= length hs')%nat ->
  (forall h, (h < length hs)%nat -> hash_of hs' h = hash_of hs h) -> db_ok hs' db.
Proof.
  intros [Hti His] Hlen Hh. split.
  - intros id h Ht. destruct (Hti id h Ht) as [Hlt Hx]. rewrite Hh by done. split; [lia|done].
  - intros x id Hx. destruct (His x id Hx) as (h & Ht & Hhx). exists h. split; [done|].
    rewrite Hh; [done|]. by apply Hti in Ht as [? _].
Qed.

Lemma hash_of_app hs l h : (h < length hs)%nat -> hash_of (hs ++ l) h = hash_of hs h.
Proof. intros Hlt. unfold hash_of. by rewrite lookup_app_l. Qed.

Lemma hash_of_last hs t : hash_of (hs ++ [t]) (length hs) = th_info_hash t.
Proof. unfold hash_of. rewrite lookup_app_r, Nat.sub_diag by done. done. Qed.

Lemma db_get_by_info_hash_spec hs db x : db_ok hs db ->
  match db_get_by_info_hash x db with
  | Some (id, h) => sd_info_hash_to_id db !! x = Some id /\ sd_torrents db !! id = Some h /\ hash_of hs h = x
  | None => sd_info_hash_to_id db !! x = None
  end.
Proof.
  intros [Hti His]. unfold db_get_by_info_hash. destruct (sd_info_hash_to_id db !! x) as [id|] eqn:Hx; [|done].
  destruct (His x id Hx) as (h & Hh & Hhx). simpl. rewrite Hh. done.
Qed.

(** Adding under an id and a hash that are free. *)
Lemma db_add_torrent_ok hs db h id : db_ok hs db -> (h < length hs)%nat -> sd_torrents db !! id = None ->
  sd_info_hash_to_id db !! hash_of hs h = None -> db_ok hs (db_add_torrent hs h id db).
Proof.
  intros [Hti His] Hlt Hid Hx. split; simpl.
  - intros id' h'. destruct (decide (id' = id)) as [->|Hne]; rewrite ?lookup_insert_eq, ?lookup_insert_ne by done.
    + intros [= <-]. by rewrite lookup_insert_eq.
    + intros Ht. destruct (Hti id' h' Ht) as [Hlt' Hx']. rewrite lookup_insert_ne; [done|]. intros Heq. congruence.
  - intros x id'. destruct (decide (x = hash_of hs h)) as [->|Hne]; rewrite ?lookup_insert_eq, ?lookup_insert_ne by done.
    + intros [= <-]. exists h. by rewrite lookup_insert_eq.
    + intros Hx'. destruct (His x id' Hx') as (h' & Ht & Hh). exists h'.
      rewrite lookup_insert_ne; [done|]. intros <-. congruence.
Qed.

Lemma db_remove_torrent_ok hs db id : db_ok hs db -> db_ok hs (db_remove_torrent hs id db).2.
Proof.
  intros Hok. pose proof Hok as [Hti His]. unfold db_remove_torrent. destruct (sd_torrents db !! id) as [h|] eqn:Hid; [|done].
  destruct (Hti id h Hid) as [_ Hx]. split; simpl.
  - intros id' h' [Hne Ht]%lookup_delete_Some. destruct (Hti id' h' Ht) as [Hlt Hx']. split; [done|].
    rewrite lookup_delete_ne; [done|]. intros Heq. congruence.
  - intros x id' [Hne Hx']%lookup_delete_Some. destruct (His x id' Hx') as (h' & Ht & Hh). exists h'.
    rewrite lookup_delete_ne; [done|]. intros <-. congruence.
Qed.

Section properties.
Context {S Env : Type} `{PersistenceLaws S Env}.
Implicit Types s : Session S.

Definition store_ok (p : option S) : Prop := match p with Some p => p_ok p | None => True end.

(** What is true between any two steps: the database is consistent, the store
    works, and the calls under way know handles that exist. *)
Record session_ok (s : Session S) : Prop := {
  ok_db : db_ok (se_handles s) (se_db s);
  ok_store : store_ok (se_store s);
}.

Lemma session_new_ok p : store_ok p -> session_ok (session_new p).
Proof. intros Hp. split; [apply db_ok_empty|done]. Qed.

Lemma add_begin_frame q s : se_db (add_begin q s) = se_db s /\ se_handles (add_begin q s) = se_handles s /\
  se_store (add_begin q s) = se_store s /\ se_deletes (add_begin q s) = se_deletes s.
Proof. unfold add_begin. destruct (aq_preferred_id q), (se_store s) eqn:Hp; simpl; auto. Qed.

Lemma add_insert_ok create_ok k s : session_ok s -> session_ok (add_insert create_ok k s).
Proof.
  intros [Hdb Hst]. unfold add_insert. destruct (se_adds s !! k) as [[q [id| | |]]|]; try done.
  destruct (sd_torrents (se_db s) !! id) as [h|] eqn:Hid; [done|].
  pose proof (db_get_by_info_hash_spec _ _ (th_info_hash (aq_torrent q)) Hdb) as Hget.
  destruct (db_get_by_info_hash _ _) as [[eid h]|]; [done|]. destruct create_ok; [|done]. simpl.
  split; [|done]. simpl. apply db_add_torrent_ok; [|rewrite length_app; simpl; lia|done|by rewrite hash_of_last].
  apply (db_ok_handles (se_handles s)); [done|rewrite length_app; lia|]. intros h. apply hash_of_app.
Qed.

Lemma add_store_ok e k s : session_ok s -> exists s', add_store e k s = Done s' /\ session_ok s'.
Proof.
  intros Hs. pose proof Hs as [Hdb Hst]. unfold add_store. destruct (se_adds s !! k) as [[q [|id h| |]]|]; try by exists s.
  destruct (se_store s) as [p|] eqn:Hp; [|by eexists; split; [done|]; split; [|simpl; rewrite Hp]].
  destruct (se_handles s !! h) as [t|]; [|by eexists; split; [done|]; split; [|simpl; rewrite Hp]].
  destruct (store_law e p id t Hst) as (r & p' & -> & Hp' & _). rsimpl. cbn [fst snd].
  destruct r; eexists; (split; [done|]); split; simpl; try done. by apply db_remove_torrent_ok.
Qed.

Lemma delete_begin_ok id s : session_ok s -> session_ok (delete_begin id s).2.
Proof.
  intros Hs. pose proof Hs as [Hdb Hst]. unfold delete_begin. destruct (match id with TId _ => _ | THash _ => _ end) as [i|]; [|done].
  pose proof (db_remove_torrent_ok _ _ i Hdb) as Hrm.
  destruct (db_remove_torrent (se_handles s) i (se_db s)) as [[h|] db]; [|done]. by split.
Qed.

Lemma delete_store_ok e k s : session_ok s -> exists r s', delete_store e k s = Done (r, s') /\ session_ok s'.
Proof.
  intros [Hdb Hst]. unfold delete_store.
  destruct (se_deletes s !! k) as [id|]; [|by do 2 eexists; split; [done|]; split].
  destruct (se_store s) as [p|] eqn:Hp; [|by do 2 eexists; split; [done|]; split; [|simpl; rewrite Hp]].
  destruct (delete_law e p id Hst) as (r & p' & -> & Hp' & _). do 2 eexists. split; [done|]. by split.
Qed.

Lemma hash_of_change h f s h' : hash_of (se_handles (handle_change h f s)) h' = hash_of (se_handles s) h'.
Proof.
  unfold hash_of, handle_change. simpl. destruct (decide (h = h')) as [->|].
  - rewrite list_lookup_alter_eq. by destruct (se_handles s !! h').
  - by rewrite list_lookup_alter_ne.
Qed.

Lemma handle_change_ok h f s : session_ok s -> session_ok (handle_change h f s).
Proof.
  intros [Hdb Hst]. split; [|done]. apply (db_ok_handles (se_handles s)); [done| |].
  - simpl. by rewrite length_alter.
  - intros h' _. apply hash_of_change.
Qed.

Lemma update_ok e id h s : session_ok s -> exists r s', try_update_persistence_metadata e id h s = Done (r, s') /\ session_ok s'.
Proof.
  intros Hs. pose proof Hs as [Hdb Hst]. unfold try_update_persistence_metadata.
  destruct (se_store s) as [p|] eqn:Hp; [|by exists (Ok tt), s]. destruct (se_handles s !! h) as [t|]; [|by exists (Ok tt), s].
  destruct (update_law e p id t Hst) as (r & p' & -> & Hp' & _). do 2 eexists. split; [done|]. by split.
Qed.

Lemma session_step_ok s ev : session_ok s -> exists s', session_step s ev = Done s' /\ session_ok s'.
Proof.
  intros Hs. destruct ev as [q|c k|e k|c k|id|e k|h f|e id h]; cbn [session_step].
  - eexists. split; [done|]. destruct (add_begin_frame q s) as (H1 & H2 & H3 & _). split; rewrite ?H1, ?H2, ?H3; apply Hs.
  - eexists. split; [done|]. by apply add_insert_ok.
  - by apply add_store_ok.
  - eexists. split; [done|]. unfold add_start. destruct Hs. by destruct (se_adds s !! k) as [[q []]|].
  - eexists. split; [done|]. by apply delete_begin_ok.
  - destruct (delete_store_ok e k s Hs) as (r & s' & -> & Hs'). by eexists.
  - eexists. split; [done|]. by apply handle_change_ok.
  - destruct (update_ok e id h s Hs) as (r & s' & -> & Hs'). by eexists.
Qed.

(** The lookups by hash and by id agree. *)
Lemma session_get_by_hash s x h : session_ok s -> session_get (THash x) s = Some h ->
  exists id, session_get (TId id) s = Some h /\ hash_of (se_handles s) h = x.
Proof.
  intros Hs. unfold session_get. pose proof (db_get_by_info_hash_spec _ _ x (ok_db s Hs)) as Hg.
  destruct (db_get_by_info_hash x (se_db s)) as [[id h']|]; [|done]. simpl. intros [= ->]. destruct Hg as (_ & ? & ?). eauto.
Qed.

Lemma session_get_hash s id h : session_ok s -> session_get (TId id) s = Some h ->
  session_get (THash (hash_of (se_handles s) h)) s = Some h.
Proof.
  intros Hs Hid. unfold session_get in *. destruct (torrent_indexed _ _ (ok_db s Hs) id h Hid) as [_ Hi].
  pose proof (db_get_by_info_hash_spec _ _ (hash_of (se_handles s) h) (ok_db s Hs)) as Hg.
  destruct (db_get_by_info_hash _ (se_db s)) as [[id' h']|]; [|congruence]. simpl. destruct Hg as (? & ? & _). congruence.
Qed.

(** C12: whatever adds, deletions and changes of torrents interleave and
    whatever the disk answers, the session never panics, each torrent is
    found under its own info hash and nothing else is: looking a torrent up by
    hash and by id agree, and two torrents never have the same hash. *)
Theorem session_index_consistent p evs : store_ok p ->
  exists s, run_session (session_new p) evs = Done s /\ store_ok (se_store s) /\
  (forall x h, session_get (THash x) s = Some h <->
    hash_of (se_handles s) h = x /\ exists id, session_get (TId id) s = Some h) /\
  (forall id1 id2 h1 h2, session_get (TId id1) s = Some h1 -> session_get (TId id2) s = Some h2 ->
    hash_of (se_handles s) h1 = hash_of (se_handles s) h2 -> id1 = id2).
Proof.
  intros Hp. destruct (for_each_inv (fun _ s => session_ok s) session_step (session_new p) evs) as (s & Hrun & Hs).
  - by apply session_new_ok.
  - intros pre ev s _ Hs. by apply session_step_ok.
  - exists s. split_and!; [done|apply Hs| |].
    + intros x h. split.
      * intros (id & Hid & Hx)%session_get_by_hash; eauto.
      * intros (<- & id & Hid). by apply (session_get_hash s id).
    + intros id1 id2 h1 h2 H1 H2 Heq. destruct (torrent_indexed _ _ (ok_db s Hs) id1 h1 H1) as [_ Hi1].
      destruct (torrent_indexed _ _ (ok_db s Hs) id2 h2 H2) as [_ Hi2]. congruence.
Qed.

(** ** The store follows the session *)

Definition session_view (s : Session S) : gmap nat Id := hash_of (se_handles s) <$> sd_torrents (se_db s).

Definition synced (s : Session S) : Prop := exists p, se_store s = Some p /\ p_view p = session_view s.

Lemma view_insert s k q id h : session_ok s -> h = length (se_handles s) ->
  let hs := se_handles s ++ [aq_torrent q] in
  session_view (add_at (set_db (set_handles s hs) (db_add_torrent hs h id (se_db s))) k (AStoring id h)) =
  <[id := th_info_hash (aq_torrent q)]> (session_view s).
Proof.
  intros [Hdb _] -> hs. unfold session_view. simpl. rewrite fmap_insert. unfold hs. rewrite hash_of_last. f_equal.
  apply map_fmap_ext. intros id' h' Ht. apply hash_of_app. by apply (torrent_indexed _ _ Hdb) in Ht as [? _].
Qed.

Lemma view_remove s id : (hash_of (se_handles s) <$> sd_torrents (db_remove_torrent (se_handles s) id (se_db s)).2) =
  delete id (session_view s).
Proof.
  unfold db_remove_torrent, session_view. destruct (sd_torrents (se_db s) !! id) as [h|] eqn:Hid; simpl.
  - by rewrite fmap_delete.
  - rewrite delete_id; [done|]. by rewrite lookup_fmap, Hid.
Qed.

Lemma view_change h f s : session_view (handle_change h f s) = session_view s.
Proof. unfold session_view. apply map_fmap_ext. intros id h' _. apply hash_of_change. Qed.

Lemma add_begin_adds q s : exists id n, add_begin q s = set_adds (set_next_id s n) (se_adds s ++ [(q, AWaiting id)]) /\
  (aq_preferred_id q = Some id \/ aq_preferred_id q = None /\ forall p, se_store s = Some p -> id = Z.to_nat (p_next_id p)).
Proof.
  unfold add_begin. destruct (aq_preferred_id q) as [id|].
  { exists id, (se_next_id s). destruct s. auto. }
  destruct (se_store s) as [p|] eqn:Hp.
  - exists (Z.to_nat (p_next_id p)), (se_next_id s). split; [by destruct s|]. right. split; [done|]. by intros p' [= ->].
  - exists (se_next_id s), (se_next_id s + 1)%nat. split; [done|]. by right.
Qed.

Lemma add_at_last (l : list (AddRequest * AddPc)) q pc pc' :
  alter (fun '(q, _) => (q, pc')) (length l) (l ++ [(q, pc)]) = l ++ [(q, pc')].
Proof. induction l as [|x l IH]; simpl; [done|]. by f_equal. Qed.

(** What [add_torrent_internal] answers and leaves, on every branch. *)
Definition add_effect (create_ok start_ok : bool) (q : AddRequest) (s : Session S) (id : nat)
    (r : AddTorrentResponse) (s' : Session S) : Prop :=
  match r with
  | AlreadyManaged eid h => session_view s' = session_view s /\ se_store s' = se_store s /\
      session_get (TId eid) s = Some h /\
      (eid = id \/ hash_of (se_handles s) h = th_info_hash (aq_torrent q))
  | AddFailed AStorage => create_ok = false /\ session_view s' = session_view s /\ se_store s' = se_store s
  | AddFailed AStore => session_view s' = session_view s /\ session_get (TId id) s = None
  | AddFailed AStart | Added _ _ =>
      r = (if start_ok then Added id (length (se_handles s)) else AddFailed AStart) /\
      session_get (TId id) s = None /\ session_get (THash (th_info_hash (aq_torrent q))) s = None /\
      se_handles s' = se_handles s ++ [aq_torrent q] /\
      sd_torrents (se_db s') = <[id := length (se_handles s)]> (sd_torrents (se_db s)) /\
      session_view s' = <[id := th_info_hash (aq_torrent q)]> (session_view s) /\
      match se_store s with
      | Some p => exists p', se_store s' = Some p' /\ p_view p' = <[id := th_info_hash (aq_torrent q)]> (p_view p)
      | None => se_store s' = None
      end
  end.

Lemma add_insert_last create_ok q s id : session_ok s ->
  exists pc, add_insert create_ok (length (se_adds s)) (set_adds s (se_adds s ++ [(q, AWaiting id)])) =
    match pc with
    | AStoring id h =>
        let hs := se_handles s ++ [aq_torrent q] in
        add_at (set_db (set_handles (set_adds s (se_adds s ++ [(q, AWaiting id)])) hs) (db_add_torrent hs h id (se_db s)))
          (length (se_adds s)) pc
    | _ => set_adds s (se_adds s ++ [(q, pc)])
    end /\
  match pc with
  | AOver (AlreadyManaged eid h) => session_get (TId eid) s = Some h /\
      (eid = id \/ hash_of (se_handles s) h = th_info_hash (aq_torrent q))
  | AOver (AddFailed AStorage) => create_ok = false
  | AStoring id' h => id' = id /\ h = length (se_handles s) /\ session_get (TId id) s = None /\
      session_get (THash (th_info_hash (aq_torrent q))) s = None
  | _ => False
  end.
Proof.
  intros [Hdb _]. unfold add_insert. cbn [set_adds se_adds]. rewrite list_lookup_middle by done. cbn [set_adds se_db].
  unfold session_get. pose proof (db_get_by_info_hash_spec _ _ (th_info_hash (aq_torrent q)) Hdb) as Hget.
  destruct (sd_torrents (se_db s) !! id) as [h|] eqn:Hid.
  { exists (AOver (AlreadyManaged id h)). unfold add_at, set_adds. simpl. rewrite add_at_last. auto. }
  destruct (db_get_by_info_hash _ _) as [[eid h]|].
  { exists (AOver (AlreadyManaged eid h)). unfold add_at, set_adds. simpl. rewrite add_at_last. destruct Hget as (? & ? & ?). auto. }
  destruct create_ok; simpl; [|exists (AOver (AddFailed AStorage)); unfold add_at, set_adds; simpl; by rewrite add_at_last].
  exists (AStoring id (length (se_handles s))). done.
Qed.

Lemma add_torrent_over create_ok e start_ok q s n id r :
  add_begin q s = set_adds (set_next_id s n) (se_adds s ++ [(q, AWaiting id)]) ->
  add_insert create_ok (length (se_adds s)) (set_adds (set_next_id s n) (se_adds s ++ [(q, AWaiting id)])) =
    set_adds (set_next_id s n) (se_adds s ++ [(q, AOver r)]) ->
  add_torrent create_ok e start_ok q s = Done (Some r, set_adds (set_next_id s n) (se_adds s ++ [(q, AOver r)])).
Proof.
  intros Hb Hi. unfold add_torrent. rewrite Hb, Hi. unfold add_store. cbn [se_adds set_adds].
  rewrite list_lookup_middle by done. rsimpl. unfold add_start. cbn [se_adds set_adds].
  rewrite list_lookup_middle by done. cbn [se_adds set_adds]. by rewrite list_lookup_middle.
Qed.

#[local] Ltac add_simpl Hl :=
  unfold add_at, add_start; simpl; rewrite Hl, add_at_last, list_lookup_middle by done; unfold add_at; simpl;
  rewrite ?add_at_last, list_lookup_middle by done.

(** The rest of a call that entered its torrent in the database. *)
Lemma add_finish e start_ok q s l id h t : session_ok s -> se_adds s = l ++ [(q, AStoring id h)] -> se_handles s !! h = Some t ->
  sd_torrents (se_db s) !! id = Some h ->
  exists r s', (s ←! add_store e (length l) s;
    let s := add_start start_ok (length l) s in
    Done (match se_adds s !! length l with Some (_, AOver r) => Some r | _ => None end, s)) = Done (Some r, s') /\
  se_handles s' = se_handles s /\ session_ok s' /\
  ((r = AddFailed AStore /\ session_view s' = delete id (session_view s)) \/
   (r = (if start_ok then Added id h else AddFailed AStart) /\ se_db s' = se_db s /\
    match se_store s with
    | Some p => exists p', se_store s' = Some p' /\ p_view p' = <[id := th_info_hash t]> (p_view p)
    | None => se_store s' = None
    end)).
Proof.
  intros Hs Hl Ht Hid. destruct (add_store_ok e (length l) s Hs) as (s2 & Hst & Hs2).
  revert Hst. unfold add_store. rewrite Hl, list_lookup_middle, Ht by done. destruct (se_store s) as [p|] eqn:Hp.
  - destruct (store_law e p id t) as (r & p' & -> & Hp' & Hv); [by destruct Hs as [_ Hst]; rewrite Hp in Hst|].
    rsimpl. cbn [fst snd]. destruct r as [[]|err]; cbn [outcome_bind]; intros [= <-]; add_simpl Hl;
      do 2 eexists; (split; [done|]); (split; [done|]); (split; [by destruct Hs2; split|]).
    + right. split; [done|]. split; [done|]. exists p'. destruct Hv as [Hv|[? _]]; done.
    + left. split; [done|]. exact (view_remove s id).
  - cbn [outcome_bind]. intros [= <-]. add_simpl Hl. do 2 eexists. split; [done|]. split; [done|].
    split; [by destruct Hs2; split|]. by right.
Qed.

Lemma add_torrent_spec create_ok e start_ok q s : session_ok s ->
  exists id r s', add_torrent create_ok e start_ok q s = Done (Some r, s') /\ session_ok s' /\
    (aq_preferred_id q = Some id \/ aq_preferred_id q = None /\ forall p, se_store s = Some p -> id = Z.to_nat (p_next_id p)) /\
    add_effect create_ok start_ok q s id r s'.
Proof.
  intros Hs. destruct (add_begin_adds q s) as (id & n & Hb & Hid).
  assert (Hs0 : session_ok (set_next_id s n)) by by destruct Hs.
  destruct (add_insert_last create_ok q (set_next_id s n) id Hs0) as (pc & Hi & Hpc).
  change (se_adds (set_next_id s n)) with (se_adds s) in Hi.
  exists id. destruct pc as [|id' h| |r]; try done.
  2:{ do 2 eexists. split; [by eapply add_torrent_over|]. split; [by destruct Hs|]. split; [done|].
      destruct r as [eid h| |[]]; try done. }
  destruct Hpc as (-> & -> & Hg1 & Hg2). pose proof (view_insert (set_next_id s n) (length (se_adds s)) q id _ Hs0 eq_refl) as Hview.
  assert (Hs1 : session_ok (add_insert create_ok (length (se_adds s)) (set_adds (set_next_id s n) (se_adds s ++ [(q, AWaiting id)]))))
    by (apply add_insert_ok; by destruct Hs).
  unfold add_torrent. rewrite Hb, Hi. rewrite Hi in Hs1. cbn zeta in *.
  destruct (add_finish e start_ok q _ (se_adds s) id (length (se_handles s)) (aq_torrent q) Hs1)
    as (r & s' & Hrun & Hh' & Hs' & Hr).
  - apply add_at_last.
  - simpl. by apply list_lookup_middle.
  - simpl. by rewrite lookup_insert_eq.
  - exists r, s'. split; [exact Hrun|]. split; [done|]. split; [done|]. destruct Hr as [[-> Hv]|(-> & Hdb & Hst)].
    + split; [|done]. rewrite Hv. etrans; [exact (f_equal (delete id) Hview)|].
      rewrite delete_insert_id; [done|]. unfold session_view. simpl in *. by rewrite lookup_fmap, Hg1.
    + assert (Hview' : session_view s' = <[id := th_info_hash (aq_torrent q)]> (session_view s)).
      { unfold session_view at 1. rewrite Hdb, Hh'. exact Hview. }
      assert (Htab : sd_torrents (se_db s') = <[id := length (se_handles s)]> (sd_torrents (se_db s))) by by rewrite Hdb.
      unfold add_effect. destruct start_ok; split_and!; done.
Qed.

Lemma delete_torrent_spec e id s : session_ok s ->
  exists r s', delete_torrent e id s = Done (r, s') /\ session_ok s' /\ se_handles s' = se_handles s /\
  match r with
  | None => session_get id s = None /\ s' = s
  | Some r => exists i h, session_get id s = Some h /\ session_get (TId i) s = Some h /\
      session_view s' = delete i (session_view s) /\
      match se_store s with
      | Some p => exists p', se_store s' = Some p' /\ (r = Ok tt -> p_view p' = delete i (p_view p))
      | None => se_store s' = None
      end
  end.
Proof.
  intros Hs. pose proof (delete_begin_ok id s Hs) as Hs1. revert Hs1. unfold delete_torrent, delete_begin.
  pose proof (fun x => db_get_by_info_hash_spec _ _ x (ok_db s Hs)) as Hget.
  destruct (match id with TId i => Some i | THash x => _ end) as [i|] eqn:Hi.
  2:{ intros _. exists None, s. split_and!; try done. destruct id as [i|x]; [done|]. simpl.
      by destruct (db_get_by_info_hash x (se_db s)). }
  assert (Hsame : session_get id s = session_get (TId i) s).
  { destruct id as [i'|x]; simplify_eq/=; [done|]. specialize (Hget x).
    destruct (db_get_by_info_hash x (se_db s)) as [[i' h]|]; simplify_eq/=. destruct Hget as (_ & -> & _). done. }
  pose proof (view_remove s i) as Hrm. rewrite Hsame. cbn [session_get]. unfold db_remove_torrent in *.
  destruct (sd_torrents (se_db s) !! i) as [h|] eqn:Hth; [|intros _; by exists None, s].
  cbn [snd] in *. intros Hs1. unfold delete_store. cbn [se_deletes set_deletes set_db se_store].
  rewrite length_app, Nat.add_sub, list_lookup_middle by done. destruct (se_store s) as [p|] eqn:Hp.
  - destruct (delete_law e p i) as (r & p' & -> & Hp' & Hv); [by destruct Hs as [_ Hst]; rewrite Hp in Hst|]. rsimpl.
    do 2 eexists. split; [done|]. split; [by destruct Hs1; split|]. split; [done|]. exists i, h. split_and!; [done|done|done|].
    exists p'. split; [done|]. cbn [fst]. intros Hr. by destruct Hv as [Hv|[? _]].
  - rsimpl. do 2 eexists. split; [done|]. split; [by destruct Hs1; split|]. split; [done|]. by exists i, h.
Qed.

(** A change of a torrent the session has leaves the stored hashes alone. *)
Definition update_effect (s : Session S) (o : outcome (result StoreError unit * Session S)) : Prop :=
  exists r s', o = Done (r, s') /\ session_ok s' /\ session_view s' = session_view s /\
  match se_store s with
  | Some p => exists p', se_store s' = Some p' /\ (r = Ok tt -> p_view p = session_view s -> p_view p' = session_view s)
  | None => se_store s' = None
  end.

Lemma update_effect_same s r : session_ok s -> update_effect s (Done (r, s)).
Proof. intros Hs. exists r, s. split_and!; [done..|]. destruct (se_store s) as [p|]; [|done]. by exists p. Qed.

Lemma update_effect_change e f s i h : session_ok s -> session_get (TId i) s = Some h ->
  update_effect s (try_update_persistence_metadata e i h (handle_change h f s)).
Proof.
  intros Hs Hi. destruct (update_ok e i h _ (handle_change_ok h f s Hs)) as (r & s' & Hu & Hs'). exists r, s'. split; [done|].
  split; [done|]. revert Hu. unfold try_update_persistence_metadata. change (se_store (handle_change h f s)) with (se_store s).
  destruct (se_store s) as [p|] eqn:Hp; [|intros [= _ <-]; by rewrite view_change].
  destruct (se_handles (handle_change h f s) !! h) as [t|] eqn:Ht.
  2:{ intros [= _ <-]. rewrite view_change. split; [done|]. by exists p. }
  destruct (update_law e p i t) as (r' & p' & -> & Hp' & Hv); [by destruct Hs as [_ Hst]; rewrite Hp in Hst|]. rsimpl.
  intros [= <- <-]. split; [apply view_change|]. exists p'. split; [done|]. cbn [fst]. intros Hr Hpv.
  destruct Hv as [Hv|[? _]]; [|done]. rewrite Hv, Hpv. apply insert_id. unfold session_view. rewrite lookup_fmap.
  cbn [session_get] in Hi. rewrite Hi. simpl. f_equal. rewrite <- (hash_of_change h f s h). unfold hash_of. by rewrite Ht.
Qed.

Lemma update_torrent_spec e id f s : session_ok s -> update_effect s (update_torrent e id f s).
Proof.
  intros Hs. unfold update_torrent. destruct id as [i|x].
  - destruct (session_get (TId i) s) as [h|] eqn:Hg; [by apply update_effect_change|by apply update_effect_same].
  - pose proof (db_get_by_info_hash_spec _ _ x (ok_db s Hs)) as Hget. cbn [session_get].
    destruct (db_get_by_info_hash x (se_db s)) as [[i h]|]; [|by apply update_effect_same].
    simpl. destruct Hget as (-> & Hi & _). by apply update_effect_change.
Qed.

Lemma session_call_synced s c : session_ok s ->
  exists ok s', session_call s c = Done (ok, s') /\ session_ok s' /\ (ok = true -> synced s -> synced s').
Proof.
  intros Hs. destruct c as [create_ok e start_ok q|e id|e id f]; cbn [session_call].
  - destruct (add_torrent_spec create_ok e start_ok q s Hs) as (id & r & s' & -> & Hs' & _ & He). rsimpl. cbn [fst snd].
    do 2 eexists. split; [done|]. split; [done|]. intros Hok (p & Hp & Hv). unfold synced, add_effect in *. rewrite Hp in He.
    destruct r as [eid h|id' h|[]]; try done.
    + destruct He as (-> & -> & _). eauto.
    + destruct He as (_ & _ & _ & _ & _ & -> & p' & -> & Hv'). exists p'. by rewrite Hv', Hv.
    + destruct He as (_ & -> & ->). eauto.
    + destruct He as (_ & _ & _ & _ & _ & -> & p' & -> & Hv'). exists p'. by rewrite Hv', Hv.
  - destruct (delete_torrent_spec e id s Hs) as (r & s' & -> & Hs' & _ & He). rsimpl. cbn [fst snd].
    do 2 eexists. split; [done|]. split; [done|]. intros Hok (p & Hp & Hv). rewrite Hp in He. destruct r as [r|].
    + destruct He as (i & h & _ & _ & Hv' & p' & Hp' & Hd). exists p'. split; [done|].
      destruct r as [[]|]; [|done]. by rewrite Hd, Hv', Hv.
    + destruct He as [_ ->]. by exists p.
  - destruct (update_torrent_spec e id f s Hs) as (r & s' & -> & Hs' & Hv' & He). rsimpl. cbn [fst snd].
    do 2 eexists. split; [done|]. split; [done|]. intros Hok (p & Hp & Hv). rewrite Hp in He.
    destruct He as (p' & Hp' & Hd). exists p'. split; [done|]. destruct r as [[]|]; [|done]. rewrite Hv'. by apply Hd.
Qed.

(** C13: the persistent store follows the session.  Over calls that do not
    overlap, none panics, and while the store reports no error, it knows
    exactly the torrents of the session, under the same ids and hashes, so a
    restart finds those. *)
Theorem store_follows_session p cs : p_ok p -> p_view p = ∅ ->
  exists ok s, run_calls (session_new (Some p)) cs = Done (ok, s) /\
  (ok = true -> exists p', se_store s = Some p' /\ p_ok p' /\
    p_view p' = hash_of (se_handles s) <$> sd_torrents (se_db s)).
Proof.
  intros Hp Hv. destruct (for_each_inv (fun _ '(ok, s) => session_ok s /\ (ok = true -> synced s))
    (fun '(ok, s) c => r ←! session_call s c; Done (ok && r.1, r.2)) (true, session_new (Some p)) cs) as ([ok s] & Hrun & Hs & Hsync).
  - split; [by apply session_new_ok|]. intros _. exists p. split; [done|]. rewrite Hv. unfold session_view. simpl. by rewrite fmap_empty.
  - intros pre c [ok s] _ [Hs Hsync]. destruct (session_call_synced s c Hs) as (ok' & s' & -> & Hs' & Hstep). rsimpl.
    eexists. split; [done|]. cbn [fst snd]. split; [done|]. intros [Hok Hok']%andb_prop. auto.
  - exists ok, s. split; [exact Hrun|]. intros Hok. destruct (Hsync Hok) as (p' & Hp' & Hv'). exists p'.
    split_and!; [done| |done]. destruct Hs as [_ Hst]. by rewrite Hp' in Hst.
Qed.

(** Adding a torrent the session does not have.  The id comes from the
    store and is new, so the call is answered with the new torrent (or the
    error of one of its steps), which is then found under the new id and
    under its hash, beside the torrents that were there. *)
Theorem add_new_torrent create_ok e start_ok q s p : session_ok s -> se_store s = Some p ->
  p_view p = hash_of (se_handles s) <$> sd_torrents (se_db s) ->
  (forall k, is_Some (p_view p !! k) -> Z.of_nat k + 1 < U64) ->
  aq_preferred_id q = None -> session_get (THash (th_info_hash (aq_torrent q))) s = None ->
  exists id r s', add_torrent create_ok e start_ok q s = Done (Some r, s') /\ session_get (TId id) s = None /\
  match r with
  | AlreadyManaged _ _ => False
  | Added id' h => id' = id /\ session_get (TId id) s' = Some h /\
      session_get (THash (th_info_hash (aq_torrent q))) s' = Some h /\
      forall x h', session_get (THash x) s = Some h' -> session_get (THash x) s' = Some h'
  | AddFailed AStart => start_ok = false
  | AddFailed AStorage => create_ok = false
  | AddFailed AStore => forall k, is_Some (session_get (TId k) s') <-> is_Some (session_get (TId k) s)
  end.
Proof.
  intros Hs Hp Hv Hb Hpref Hx. destruct (add_torrent_spec create_ok e start_ok q s Hs) as (id & r & s' & -> & Hs' & Hid & He).
  destruct Hid as [Hid|[_ Hid]]; [congruence|]. specialize (Hid p Hp). destruct (next_id_law p Hb) as [_ Hfree].
  rewrite <- Hid, Hv, lookup_fmap, fmap_None in Hfree. exists id, r, s'. split; [done|]. split; [done|].
  unfold add_effect in He. destruct r as [eid h|id' h|[]].
  - destruct He as (_ & _ & Hg & [-> |Hh]); [by cbn [session_get] in Hg; congruence|].
    apply session_get_hash in Hg; [|done]. congruence.
  - destruct He as (Hr & _ & _ & Hhs & Htab & _). destruct start_ok; [|done]. injection Hr as -> ->.
    assert (Hg : session_get (TId id) s' = Some (length (se_handles s))) by (cbn [session_get]; rewrite Htab; apply lookup_insert_eq).
    split_and!; [done|done| |].
    + apply session_get_hash in Hg; [|done]. by rewrite Hhs, hash_of_last in Hg.
    + intros x h (id' & Hid' & <-)%session_get_by_hash; [|done]. destruct (torrent_indexed _ _ (ok_db s Hs) id' h Hid') as [Hlt _].
      rewrite <- (hash_of_app (se_handles s) [aq_torrent q]), <- Hhs by done. apply (session_get_hash s' id'); [done|].
      cbn [session_get] in *. rewrite Htab, lookup_insert_ne; [done|]. intros <-. congruence.
  - by destruct He.
  - destruct He as [He _]. intros k. cbn [session_get]. rewrite <- (fmap_is_Some (hash_of (se_handles s'))), <- (fmap_is_Some (hash_of (se_handles s))).
    unfold session_view in He. apply (f_equal (lookup k)) in He. rewrite !lookup_fmap in He. by rewrite He.
  - destruct He as [He _]. by destruct start_ok.
Qed.
End properties.

(** ** The JSON store is such a store *)

Section json.
Context `{Json Database}.

(** What the system answers to writing the metainfo, to saving the database
    and to removing files. *)
Record JsonEnv := mkJsonEnv {
  je_bytes : nat -> Io;
  je_save : nat -> Io;
  je_remove : string -> Io;
}.

#[export] Instance JsonPersistence : SessionPersistenceStore JsonStore JsonEnv := {
  p_next_id := next_id;
  p_store e := store (je_bytes e) (je_save e);
  p_update_metadata e := update_metadata (je_bytes e) (je_save e);
  p_delete e := JsonStore.delete_torrent (je_remove e) (je_save e);
}.

Lemma flush_total io s : fs_ok (js_fs s) ->
  exists r s', flush io s = Done (r, s') /\ fs_ok (js_fs s') /\ js_db s' = js_db s.
Proof.
  intros Hok. unfold flush. destruct (to_json (js_db s)) as [data|].
  - destruct (replace_file_spec io (js_fs s) db_tmp_filename db_filename false data Hok) as (fs' & ok & -> & Hok' & _); [done|].
    rsimpl. do 2 eexists. by split.
  - destruct (io 0%nat); [|by exists (Err SIo), s..]. do 2 eexists. split; [done|]. split; [|done]. simpl.
    destruct (fs_open_truncate (js_fs s) db_tmp_filename) as [i fs'] eqn:Ho. by apply fs_open_truncate_spec in Ho as [? _].
Qed.

Lemma write_all_ok fuel : forall io fs i pos data name, fs_ok fs -> fs_names fs !! name = Some i ->
  fs_ok (write_all fuel io fs i pos data).
Proof.
  induction fuel as [|fuel IH]; intros io fs i pos data name Hok Hn; [by destruct data|].
  destruct data as [|b data]; [done|]. cbn [write_all].
  destruct (io 0%nat) as [[|n]| |]; [done| |done|by apply (fs_leave_spec fs name)].
  eapply IH; [|exact Hn]. apply set_inode_ok; [done|left]. by eapply (fs_dom fs Hok), ever_now.
Qed.

Lemma write_in_place_ok io fs name data : fs_ok fs -> fs_ok (write_in_place io fs name data).
Proof.
  intros Hok. unfold write_in_place. destruct (io 0%nat); [|done..].
  destruct (fs_open_truncate fs name) as [i fs1] eqn:Ho. apply fs_open_truncate_spec in Ho as (Hok1 & Hn1 & _); [|done].
  by apply (write_all_ok _ _ _ _ _ _ name).
Qed.

Lemma remove_ignore_fs_ok fs name : fs_ok fs -> fs_ok (remove_ignore fs name).
Proof.
  intros Hok. unfold remove_ignore. destruct (fs_remove fs name) eqn:Hr; [|done]. by apply fs_remove_spec in Hr as [? _].
Qed.

Definition json_view (s : JsonStore) : gmap nat Id := st_info_hash <$> db_torrents (js_db s).

Lemma update_db_law io_bytes io s id t b : fs_ok (js_fs s) ->
  exists r s', update_db io_bytes io s id t b = Done (r, s') /\ fs_ok (js_fs s') /\
    (json_view s' = <[id := th_info_hash t]> (json_view s) \/ (r <> Ok tt /\ json_view s' = json_view s)).
Proof.
  intros Hok. unfold update_db. destruct (th_filesystem t); cbn [negb]; [|by do 2 eexists; split_and!; [done|done|right]].
  match goal with |- context [flush io ?x] => destruct (flush_total io x) as (r & s' & -> & Hok' & Hdb) end.
  { cbn [js_fs]. by destruct (b && _); [apply write_in_place_ok|]. }
  exists r, s'. split_and!; [done|done|]. left. unfold json_view. rewrite Hdb. simpl. by rewrite fmap_insert.
Qed.

#[export] Program Instance JsonPersistence_laws : PersistenceLaws JsonStore JsonEnv := {
  p_ok s := fs_ok (js_fs s);
  p_view := json_view;
}.
Next Obligation. intros e s id t Hok. by apply update_db_law. Qed.
Next Obligation. intros e s id t Hok. by apply update_db_law. Qed.
Next Obligation.
  intros e s id Hok. cbn [p_delete JsonPersistence]. unfold JsonStore.delete_torrent.
  destruct (db_torrents (js_db s) !! id) as [t|] eqn:Hid; [|by do 2 eexists; split_and!; [done|done|right]].
  match goal with |- context [flush _ ?x] => destruct (flush_total (je_save e) x) as (r & s' & -> & Hok' & Hdb); [done|] end.
  assert (Hv : forall fs, json_view (mkJsonStore fs (js_db s')) = delete id (json_view s)).
  { intros fs. unfold json_view. simpl. rewrite Hdb. simpl. by rewrite fmap_delete. }
  rsimpl. destruct r as [[]|err].
  - do 2 eexists. split; [done|]. split; [|left; apply Hv]. cbn [js_fs foldl].
    destruct (je_remove e (bitv_filename _)), (je_remove e (torrent_bytes_filename _)); repeat apply remove_ignore_fs_ok; done.
  - do 2 eexists. split; [done|]. split; [done|]. left. destruct s'. apply Hv.
Qed.
Next Obligation.
  intros s Hb. cbn [p_next_id JsonPersistence].
  assert (Hb' : forall k, is_Some (db_torrents (js_db s) !! k) -> Z.of_nat k + 1 < U64).
  { intros k Hk. apply Hb. unfold json_view. by rewrite lookup_fmap, fmap_is_Some. }
  assert (Hpos : 0 <= next_id s).
  { unfold next_id. destruct (_.*1); [done|]. apply wrap64_range. }
  split; [done|]. unfold json_view. rewrite lookup_fmap, (next_id_fresh s) by (done || lia). done.
Qed.
End json.

(** ** Concrete runs, over the JSON store

    The text written to the disk plays no role in them. *)

Section example.
#[local] Instance blank_json : Json Database := { to_json _ := Some [123; 125]; from_json _ := None }.

Definition all_ok : JsonEnv := mkJsonEnv (fun _ => IoOk 1000) (fun _ => IoOk 1000) (fun _ => IoOk 0).
Definition no_disk : JsonEnv := mkJsonEnv (fun _ => IoErr) (fun _ => IoErr) (fun _ => IoErr).

Definition handle_of (b : Z) : TorrentHandle :=
  mkTorrentHandle true ∅ (twenty b) None false "/d" None None 5 0 (Some [b]).

Definition request (b : Z) : AddRequest := mkAddRequest (handle_of b) None.

Definition ids {S} (s : Session S) : list (nat * nat) := map_to_list (sd_torrents (se_db s)).

Definition stored (s : Session JsonStore) : list (nat * Id) :=
  match se_store s with Some p => map_to_list (json_view p) | None => [] end.

Lemma session_index_consistent_witness : exists s, 
  run_session (session_new (Some ex_store)) [SAdd (request 1); SInsert true 0; SStore all_ok 0; SStart true 0] = Done s /\
  (forall x h, session_get (THash x) s = Some h <-> hash_of (se_handles s) h = x /\ exists id, session_get (TId id) s = Some h).
Proof.
  destruct (session_index_consistent (Some ex_store) [SAdd (request 1); SInsert true 0; SStore all_ok 0; SStart true 0])
    as (s & Hrun & _ & Hget & _).
  - apply empty_fs_ok.
  - exists s. split; [exact Hrun|exact Hget].
Defined.

Definition ex_calls : list (SessionCall (Env := JsonEnv)) := [CAdd true all_ok true (request 1); CAdd true all_ok true (request 2);
  CAdd true all_ok true (request 1); CDelete all_ok (THash (twenty 1))].

Lemma store_follows_session_witness : exists s p',
  run_calls (session_new (Some ex_store)) ex_calls = Done (true, s) /\
  se_store s = Some p' /\ p_view p' = hash_of (se_handles s) <$> sd_torrents (se_db s).
Proof.
  destruct (store_follows_session ex_store ex_calls) as (ok & s & Hrun & Hs).
  - apply empty_fs_ok.
  - reflexivity.
  - assert (Hok : (match run_calls (session_new (Some ex_store)) ex_calls with Done r => fst r | Panic => false end) = true)
      by (vm_compute; reflexivity).
    rewrite Hrun in Hok. simpl in Hok. subst ok. destruct (Hs eq_refl) as (p' & Hp & _ & Hv). exists s, p'. auto.
Defined.

Lemma add_new_torrent_witness : exists id h s',
  add_torrent true all_ok true (request 1) (session_new (Some ex_store)) = Done (Some (Added id h), s') /\
  session_get (THash (twenty 1)) s' = Some h.
Proof.
  destruct (add_new_torrent true all_ok true (request 1) (session_new (Some ex_store)) ex_store) as (id & r & s' & Hrun & _ & Hr).
  - apply session_new_ok. apply empty_fs_ok.
  - reflexivity.
  - reflexivity.
  - intros k. change (p_view ex_store) with (∅ : gmap nat Id). rewrite lookup_empty. by intros [? ?].
  - reflexivity.
  - reflexivity.
  - assert (Hc : exists s0, add_torrent true all_ok true (request 1) (session_new (Some ex_store)) = Done (Some (Added 0 0), s0))
      by (eexists; vm_compute; reflexivity).
    destruct Hc as (s0 & Hc). rewrite Hc in Hrun. injection Hrun as <- <-. destruct Hr as (_ & _ & Hg & _).
    exists 0%nat, 0%nat, s0. split; [exact Hc|exact Hg].
Defined.

(** Two adds that overlap get the same id from the store: the second is told
    that its torrent, which nobody has, is managed already, and is given the
    other one. *)
Lemma overlapping_adds_share_id : exists s,
  run_session (session_new (Some ex_store)) [SAdd (request 1); SAdd (request 2); SInsert true 0; SInsert true 1] = Done s /\
  (snd <$> se_adds s !! 1%nat) = Some (AOver (AlreadyManaged 0 0)) /\
  (th_info_hash <$> se_handles s !! 0%nat) = Some (twenty 1) /\ session_get (THash (twenty 2)) s = None.
Proof. eexists. split; [vm_compute; reflexivity|]. vm_compute. auto. Qed.

(** A torrent deleted while its add is being stored is stored all the same and
    comes back after a restart: the deletion finds nothing to delete yet. *)
Lemma deleted_while_stored : exists s,
  run_session (session_new (Some ex_store))
    [SAdd (request 1); SInsert true 0; SDelete (TId 0); SErase all_ok 0; SStore all_ok 0; SStart true 0] = Done s /\
  ids s = [] /\ stored s = [(0%nat, twenty 1)].
Proof. eexists. split; [vm_compute; reflexivity|]. vm_compute. auto. Qed.

(** So does one whose metadata is saved by a task that still holds it after
    the deletion. *)
Lemma updated_after_deletion : exists s,
  run_session (session_new (Some ex_store))
    [SAdd (request 1); SInsert true 0; SStore all_ok 0; SStart true 0; SDelete (TId 0); SErase all_ok 0;
     SUpdate all_ok 0 0] = Done s /\
  ids s = [] /\ stored s = [(0%nat, twenty 1)].
Proof. eexists. split; [vm_compute; reflexivity|]. vm_compute. auto. Qed.

(** An add that failed because the database could not be saved is still in the
    store's memory, and is on the disk after the next successful save. *)
Lemma failed_add_is_saved_later : exists ok s,
  run_calls (session_new (Some ex_store)) [CAdd true no_disk true (request 1)] = Done (ok, s) /\
  ids s = [] /\ stored s = [(0%nat, twenty 1)] /\ session_get (THash (twenty 1)) s = None.
Proof. do 2 eexists. split; [vm_compute; reflexivity|]. vm_compute. auto. Qed.
End example.
