(* ===== verification/Peers.v ===== *)
(** * Peers: the states of the peers of a torrent and their counters

    Models [crates/librtbit/src/torrent_state/live/peer/mod.rs] (one peer),
    [live/peers/mod.rs] and [live/peers/stats/mod.rs] (the map of peers and the
    aggregated counters), and the parts of [live/mod.rs] and
    [live/peer_handler.rs] that move peers between states.  Every operation
    holds the map entry of its peer, so it is one step; a loop over the map
    takes the entries one by one, in an order that is an argument.

    Addresses are an argument; a channel to a peer is a number, and what is sent
    on it is returned.  The clock is an argument.  The exponential backoff (a
    third-party crate) decides when a dead peer is tried again and is left out. *)

From S2P Require Import Prelude Lengths BitBox HashId Message.

Inductive ConnectionKind := Tcp | Utp | Socks.

#[export] Instance ConnectionKind_eq_dec : EqDecision ConnectionKind.
Proof. solve_decision. Defined.

#[export] Instance ChunkInfo_countable : Countable ChunkInfo.
Proof.
  apply (inj_countable' (fun c => (ci_piece_index c, ci_chunk_index c, ci_absolute_index c, ci_size c, ci_offset c))
    (fun '(a, b, c, d, e) => mkChunkInfo a b c d e)). by intros [].
Defined.

(** ** The aggregated counters *)

(** [AggregatePeerStatsAtomic]: atomic u32 counters. *)
Record AggregatePeerStats := mkStats {
  queued : Z;
  connecting : Z;
  live : Z;
  live_tcp : Z;
  live_utp : Z;
  live_socks : Z;
  seen : Z;
  dead : Z;
  not_needed : Z;
  steals : Z;
}.

(** A reference to one of the counters. *)
Inductive Counter :=
| CQueued | CConnecting | CLive | CLiveTcp | CLiveUtp | CLiveSocks | CSeen | CDead | CNotNeeded | CSteals.

#[export] Instance Counter_eq_dec : EqDecision Counter.
Proof. solve_decision. Defined.

Definition load (c : Counter) (s : AggregatePeerStats) : Z :=
  match c with
  | CQueued => queued s | CConnecting => connecting s | CLive => live s | CLiveTcp => live_tcp s
  | CLiveUtp => live_utp s | CLiveSocks => live_socks s | CSeen => seen s | CDead => dead s
  | CNotNeeded => not_needed s | CSteals => steals s
  end.

(** [fetch_add] on a counter: it wraps. *)
Definition fetch_add (c : Counter) (d : Z) (s : AggregatePeerStats) : AggregatePeerStats :=
  let upd c' v := if decide (c = c') then wrap32 (v + d) else v in
  mkStats (upd CQueued (queued s)) (upd CConnecting (connecting s)) (upd CLive (live s))
    (upd CLiveTcp (live_tcp s)) (upd CLiveUtp (live_utp s)) (upd CLiveSocks (live_socks s))
    (upd CSeen (seen s)) (upd CDead (dead s)) (upd CNotNeeded (not_needed s)) (upd CSteals (steals s)).

Definition atomic_inc (c : Counter) := fetch_add c 1.
Definition atomic_dec (c : Counter) := fetch_add c (-1).

Definition stats_zero : AggregatePeerStats := mkStats 0 0 0 0 0 0 0 0 0 0.

Section peers.
Context {B : Type} `{BitBox B}.
Context {Addr : Type} `{Countable Addr}.

(** ** One peer *)

Record LivePeerState := mkLive {
  lp_peer_id : Id;
  lp_peer_interested : bool;
  lp_bitfield : B;
  lp_inflight_requests : gset ChunkInfo;
  lp_tx : nat;
  lp_connection_kind : ConnectionKind;
}.

Inductive PeerState :=
| Queued
| Connecting (tx : nat)
| Live (l : LivePeerState)
| Dead
| NotNeeded.

(** The counters of one peer the code below reads or writes. *)
Record PeerStats := mkPeerStats {
  incoming_connections : Z;
  outgoing_connections : Z;
  times_i_stole : Z;
  times_stolen_from_me : Z;
}.

Record Peer := mkPeer {
  pr_addr : Addr;
  pr_state : PeerState;
  pr_stats : PeerStats;
  pr_outgoing_address : option Addr;
  pr_last_state_change : Z;
}.

Record PeerStates := mkPeerStates {
  session_stats : AggregatePeerStats;
  live_outgoing_peers : gset Addr;
  stats : AggregatePeerStats;
  states : gmap Addr Peer;
}.

Definition live_new (empty : B) (peer_id : Id) (tx : nat) (initial_interested : bool)
    (kind : ConnectionKind) : LivePeerState :=
  mkLive peer_id initial_interested empty ∅ tx kind.

Definition has_full_torrent (l : LivePeerState) (total_pieces : Z) : bool :=
  match bit_get_range (lp_bitfield l) 0 total_pieces with
  | Some s => forallb id s
  | None => false
  end.

Definition counter (state : PeerState) : Counter :=
  match state with
  | Connecting _ => CConnecting
  | Live _ => CLive
  | Queued => CQueued
  | Dead => CDead
  | NotNeeded => CNotNeeded
  end.

Definition live_kind_counter (l : LivePeerState) : Counter :=
  match lp_connection_kind l with
  | Tcp => CLiveTcp
  | Utp => CLiveUtp
  | Socks => CLiveSocks
  end.

Definition stats_inc (state : PeerState) (s : AggregatePeerStats) : AggregatePeerStats :=
  let s := match state with Live l => atomic_inc (live_kind_counter l) s | _ => s end in
  atomic_inc (counter state) s.

Definition stats_dec (state : PeerState) (s : AggregatePeerStats) : AggregatePeerStats :=
  let s := match state with Live l => atomic_dec (live_kind_counter l) s | _ => s end in
  atomic_dec (counter state) s.

Definition incdec (old new : PeerState) (s : AggregatePeerStats) : AggregatePeerStats :=
  stats_inc new (stats_dec old s).

(** [for counter in [&session_stats, &stats]]. *)
Definition both (f : AggregatePeerStats -> AggregatePeerStats) (ps : PeerStates) : PeerStates :=
  mkPeerStates (f (session_stats ps)) (live_outgoing_peers ps) (f (stats ps)) (states ps).

Definition with_outgoing (f : gset Addr -> gset Addr) (ps : PeerStates) : PeerStates :=
  mkPeerStates (session_stats ps) (f (live_outgoing_peers ps)) (stats ps) (states ps).

Definition with_states (m : gmap Addr Peer) (ps : PeerStates) : PeerStates :=
  mkPeerStates (session_stats ps) (live_outgoing_peers ps) (stats ps) m.

Definition peer_stats_default : PeerStats := mkPeerStats 0 0 0 0.

Definition is_live (s : PeerState) : bool := match s with Live _ => true | _ => false end.

(** [Peer::new_live_for_incoming_connection]. *)
Definition new_live_for_incoming_connection (empty : B) (now : Z) (addr : Addr) (peer_id : Id) (tx : nat)
    (ps : PeerStates) (kind : ConnectionKind) : Peer * PeerStates :=
  let state := Live (live_new empty peer_id tx true kind) in
  (mkPeer addr state peer_stats_default None now, both (stats_inc state) ps).

Definition new_with_outgoing_address (now : Z) (addr : Addr) : Peer :=
  mkPeer addr Queued peer_stats_default (Some addr) now.

(** [set_state] returns the previous state; the peer is a copy taken from the
    map, which the operations below put back. *)
Definition set_state (now : Z) (peer : Peer) (new : PeerState) (ps : PeerStates) :
    PeerState * Peer * PeerStates :=
  let ps := both (incdec (pr_state peer) new) ps in
  let ps :=
    match pr_outgoing_address peer with
    | Some addr =>
        let ps := if is_live (pr_state peer)
                  then with_outgoing (fun s => s ∖ {[addr]}) ps else ps in
        if is_live new && (0 <? outgoing_connections (pr_stats peer))
        then with_outgoing (fun s => s ∪ {[addr]}) ps else ps
    | None => ps
    end in
  (pr_state peer, mkPeer (pr_addr peer) new (pr_stats peer) (pr_outgoing_address peer) now, ps).

Definition take_state (now : Z) (peer : Peer) (ps : PeerStates) : PeerState * Peer * PeerStates :=
  set_state now peer Queued ps.

Definition set_not_needed (now : Z) (peer : Peer) (ps : PeerStates) :
    PeerState * Peer * PeerStates :=
  set_state now peer NotNeeded ps.

Definition destroy (peer : Peer) (ps : PeerStates) : PeerStates :=
  let ps := both (stats_dec (pr_state peer)) ps in
  match pr_outgoing_address peer, pr_state peer with
  | Some addr, Live _ => with_outgoing (fun s => s ∖ {[addr]}) ps
  | _, _ => ps
  end.

Definition reconnect_not_needed_peer (now : Z) (peer : Peer) (ps : PeerStates) :
    option Addr * Peer * PeerStates :=
  match pr_state peer with
  | NotNeeded =>
      match pr_outgoing_address peer with
      | None => (None, peer, ps)
      | Some socket_addr =>
          if decide (pr_addr peer = socket_addr)
          then let '(_, peer, ps) := set_state now peer Queued ps in (Some socket_addr, peer, ps)
          else (Some socket_addr, peer, ps)
      end
  | _ => (None, peer, ps)
  end.

(** [tx] is the channel that is made. *)
Definition idle_to_connecting (now : Z) (tx : nat) (peer : Peer) (ps : PeerStates) :
    option nat * Peer * PeerStates :=
  match pr_state peer with
  | Queued | NotNeeded =>
      let '(_, peer, ps) := set_state now peer (Connecting tx) ps in (Some tx, peer, ps)
  | _ => (None, peer, ps)
  end.

Inductive IncomingConnectionResult := AlreadyActive.

(** [peer.incoming_connection]: the [unreachable!] arms are [Panic]. *)
Definition incoming_connection (empty : B) (now : Z) (peer_id : Id) (tx : nat) (kind : ConnectionKind)
    (peer : Peer) (ps : PeerStates) : outcome (result IncomingConnectionResult unit * Peer * PeerStates) :=
  match pr_state peer with
  | Connecting _ | Live _ => Done (Err AlreadyActive, peer, ps)
  | _ =>
      let '(prev, peer, ps) := take_state now peer ps in
      match prev with
      | Queued | Dead | NotNeeded =>
          let '(_, peer, ps) := set_state now peer (Live (live_new empty peer_id tx true kind)) ps in
          Done (Ok tt, peer, ps)
      | Connecting _ | Live _ => Panic
      end
  end.

Definition connecting_to_live (empty : B) (now : Z) (peer_id : Id) (kind : ConnectionKind)
    (peer : Peer) (ps : PeerStates) : outcome (Peer * PeerStates) :=
  match pr_state peer with
  | Connecting _ =>
      let '(prev, peer, ps) := take_state now peer ps in
      match prev with
      | Connecting tx =>
          let '(_, peer, ps) := set_state now peer (Live (live_new empty peer_id tx false kind)) ps in
          Done (peer, ps)
      | _ => Panic
      end
  | _ => Done (peer, ps)
  end.

(** ** The map of peers *)

(** Run [f] on the entry of [addr]; [None] when there is none. *)
Definition with_peer_mut {R} (addr : Addr) (f : Peer -> PeerStates -> R * Peer * PeerStates)
    (ps : PeerStates) : option R * PeerStates :=
  match states ps !! addr with
  | None => (None, ps)
  | Some peer =>
      let '(r, peer, ps) := f peer ps in
      (Some r, with_states (<[addr := peer]> (states ps)) ps)
  end.

Definition with_peer {R} (addr : Addr) (f : Peer -> R) (ps : PeerStates) : option R :=
  f <$> states ps !! addr.

Definition get_live (peer : Peer) : option LivePeerState :=
  match pr_state peer with Live l => Some l | _ => None end.

Definition with_live {R} (addr : Addr) (f : LivePeerState -> R) (ps : PeerStates) : option R :=
  peer ← states ps !! addr; f <$> get_live peer.

(** [with_live_mut]: [f] changes the live state in place, no counter moves. *)
Definition with_live_mut {R} (addr : Addr) (f : LivePeerState -> R * LivePeerState) (ps : PeerStates) :
    option R * PeerStates :=
  match states ps !! addr with
  | None => (None, ps)
  | Some peer =>
      match pr_state peer with
      | Live l =>
          let '(r, l) := f l in
          (Some r, with_states (<[addr := mkPeer (pr_addr peer) (Live l) (pr_stats peer)
                                   (pr_outgoing_address peer) (pr_last_state_change peer)]> (states ps)) ps)
      | _ => (None, ps)
      end
  end.

Definition seed_leecher_counts (total_pieces : Z) (ps : PeerStates) : Z * Z :=
  map_fold (fun _ peer '(seeders, leechers) =>
    match get_live peer with
    | Some l => if has_full_torrent l total_pieces then (wrap32 (seeders + 1), leechers)
                else (seeders, wrap32 (leechers + 1))
    | None => (seeders, leechers)
    end) (0, 0) (states ps).

Definition add_if_not_seen (now : Z) (addr : Addr) (ps : PeerStates) : option Addr * PeerStates :=
  match states ps !! addr with
  | Some _ => (None, ps)
  | None =>
      let ps := with_states (<[addr := new_with_outgoing_address now addr]> (states ps)) ps in
      let ps := both (atomic_inc CQueued) ps in
      let ps := both (atomic_inc CSeen) ps in
      (Some addr, ps)
  end.

Definition drop_peer (handle : Addr) (ps : PeerStates) : option Peer * PeerStates :=
  match states ps !! handle with
  | None => (None, ps)
  | Some p =>
      (Some p, both (stats_dec (pr_state p)) (with_states (delete handle (states ps)) ps))
  end.

Definition is_peer_not_interested_and_has_full_torrent (handle : Addr) (total_pieces : Z)
    (ps : PeerStates) : bool :=
  default false (with_live handle
    (fun l => negb (lp_peer_interested l) && has_full_torrent l total_pieces) ps).

Definition mark_peer_interested (handle : Addr) (is_interested : bool) (ps : PeerStates) :
    option bool * PeerStates :=
  with_live_mut handle (fun l => (lp_peer_interested l,
    mkLive (lp_peer_id l) is_interested (lp_bitfield l) (lp_inflight_requests l) (lp_tx l)
      (lp_connection_kind l))) ps.

Definition update_bitfield (handle : Addr) (bitfield : B) (ps : PeerStates) : option unit * PeerStates :=
  with_live_mut handle (fun l => (tt,
    mkLive (lp_peer_id l) (lp_peer_interested l) bitfield (lp_inflight_requests l) (lp_tx l)
      (lp_connection_kind l))) ps.

Inductive PeerError := BugInvalidPeerState | BugPeerNotFound.

Definition mark_peer_connecting (now : Z) (tx : nat) (h : Addr) (ps : PeerStates) :
    result PeerError nat * PeerStates :=
  let '(r, ps) := with_peer_mut h (idle_to_connecting now tx) ps in
  match r with
  | None => (Err BugPeerNotFound, ps)
  | Some None => (Err BugInvalidPeerState, ps)
  | Some (Some tx) => (Ok tx, ps)
  end.

Definition mark_peer_not_needed (now : Z) (handle : Addr) (ps : PeerStates) :
    option PeerState * PeerStates :=
  with_peer_mut handle (set_not_needed now) ps.

(** [fetch_add] on a counter of one peer. *)
Definition bump_peer (addr : Addr) (f : PeerStats -> PeerStats) (ps : PeerStates) : PeerStates :=
  match states ps !! addr with
  | None => ps
  | Some p => with_states (<[addr := mkPeer (pr_addr p) (pr_state p) (f (pr_stats p))
                               (pr_outgoing_address p) (pr_last_state_change p)]> (states ps)) ps
  end.

Definition inc_i_stole (s : PeerStats) : PeerStats :=
  mkPeerStats (incoming_connections s) (outgoing_connections s) (wrap32 (times_i_stole s + 1))
    (times_stolen_from_me s).
Definition inc_stolen (s : PeerStats) : PeerStats :=
  mkPeerStats (incoming_connections s) (outgoing_connections s) (times_i_stole s)
    (wrap32 (times_stolen_from_me s + 1)).
Definition inc_incoming (s : PeerStats) : PeerStats :=
  mkPeerStats (wrap32 (incoming_connections s + 1)) (outgoing_connections s) (times_i_stole s)
    (times_stolen_from_me s).
Definition inc_outgoing (s : PeerStats) : PeerStats :=
  mkPeerStats (incoming_connections s) (wrap32 (outgoing_connections s + 1)) (times_i_stole s)
    (times_stolen_from_me s).

(** The [Cancel]s sent to the peer that lost the piece, in the order of the set. *)
Definition on_steal (from_peer to_peer : Addr) (stolen_idx : Z) (ps : PeerStates) :
    list (nat * Request) * PeerStates :=
  let ps := bump_peer to_peer inc_i_stole ps in
  let ps := bump_peer from_peer inc_stolen ps in
  let ps := both (atomic_inc CSteals) ps in
  let '(r, ps) := with_live_mut from_peer (fun l =>
    let gone := filter (fun req => ci_piece_index req = stolen_idx) (lp_inflight_requests l) in
    ((fun req => (lp_tx l, mkRequest stolen_idx (ci_offset req) (ci_size req))) <$> elements gone,
     mkLive (lp_peer_id l) (lp_peer_interested l) (lp_bitfield l) (lp_inflight_requests l ∖ gone)
       (lp_tx l) (lp_connection_kind l))) ps in
  (default [] r, ps).

(** One entry of the [retain] of [prune_dead_peers]. *)
Definition prune_entry (now retention : Z) (addr : Addr) (acc : Z * PeerStates) : Z * PeerStates :=
  let '(pruned, ps) := acc in
  match states ps !! addr with
  | None => (pruned, ps)
  | Some peer =>
      let dominated := match pr_state peer with Dead | NotNeeded => true | _ => false end in
      if dominated && (retention <? saturating_sub now (pr_last_state_change peer))
      then (pruned + 1, with_states (delete addr (states ps)) (both (stats_dec (pr_state peer)) ps))
      else (pruned, ps)
  end.

Definition prune_dead_peers (now retention : Z) (ps : PeerStates) : Z * PeerStates :=
  foldr (prune_entry now retention) (0, ps) (elements (dom (states ps))).

(** [Drop for PeerStates]. *)
Definition drop_peer_states (ps : PeerStates) : PeerStates :=
  foldr (fun kp ps => destroy kp.2 ps) (with_states ∅ ps) (map_to_list (states ps)).

(** ** The live torrent *)

Definition set_peer_live (empty : B) (now : Z) (handle : Addr) (peer_id : Id) (kind : ConnectionKind)
    (ps : PeerStates) : outcome PeerStates :=
  match states ps !! handle with
  | None => Done ps
  | Some peer =>
      r ←! connecting_to_live empty now peer_id kind peer ps;
      let '(peer, ps) := r in
      Done (with_states (<[handle := peer]> (states ps)) ps)
  end.

Inductive AddIncomingPeerResult := Added | IncomingAlreadyActive | ConcurrencyLimitReached.

(** [permit] tells whether the semaphore had one. *)
Definition add_incoming_peer (empty : B) (now : Z) (permit : bool) (addr : Addr) (peer_id : Id) (tx : nat)
    (kind : ConnectionKind) (ps : PeerStates) : outcome (AddIncomingPeerResult * PeerStates) :=
  if negb permit then Done (ConcurrencyLimitReached, bump_peer addr inc_incoming ps)
  else
    match states ps !! addr with
    | Some peer =>
        r ←! incoming_connection empty now peer_id tx kind peer ps;
        let '(res, peer, ps) := r in
        match res with
        | Err AlreadyActive =>
            Done (IncomingAlreadyActive, with_states (<[addr := peer]> (states ps)) ps)
        | Ok _ =>
            let ps := with_states (<[addr := peer]> (states ps)) ps in
            Done (Added, bump_peer addr inc_incoming ps)
        end
    | None =>
        let ps := mkPeerStates (session_stats ps) (live_outgoing_peers ps)
                    (atomic_inc CSeen (stats ps)) (states ps) in
        let '(peer, ps) := new_live_for_incoming_connection empty now addr peer_id tx ps kind in
        let ps := with_states (<[addr := peer]> (states ps)) ps in
        Done (Added, bump_peer addr inc_incoming ps)
    end.

(** The peer part of [PeerHandler::on_peer_died]; the pieces of a live peer are
    released in [LiveDownload].  [finished] is
    [is_finished_and_no_active_streams].  The answer tells whether [drop_peer]
    follows, after the entry was released. *)
Definition on_peer_died (now : Z) (handle : Addr) (error finished : bool) (ps : PeerStates) :
    bool * PeerStates :=
  match states ps !! handle with
  | None => (false, ps)
  | Some peer =>
      let '(prev, peer, ps) := take_state now peer ps in
      let put := fun '(_, peer, ps) => with_states (<[handle := peer]> (states ps)) ps in
      match prev with
      | NotNeeded => (false, put (set_state now peer NotNeeded ps))
      | Queued | Dead => (true, with_states (<[handle := peer]> (states ps)) ps)
      | Connecting _ | Live _ =>
          if negb error then (false, put (set_state now peer NotNeeded ps))
          else if finished then (false, put (set_state now peer NotNeeded ps))
          else (false, put (set_state now peer Dead ps))
      end
  end.

(** After the backoff: [Dead] peers are queued again. *)
Definition dead_to_queued (now : Z) (handle : Addr) (ps : PeerStates) : bool * PeerStates :=
  let '(r, ps) := with_peer_mut handle (fun peer ps =>
    match pr_state peer with
    | Dead => let '(_, peer, ps) := set_state now peer Queued ps in (true, peer, ps)
    | _ => (false, peer, ps)
    end) ps in
  (default false r, ps).

(** [disconnect_all_peers_that_have_full_torrent], over the addresses of the map. *)
Fixpoint disconnect_all_peers_that_have_full_torrent (now total_pieces : Z) (addrs : list Addr)
    (ps : PeerStates) : PeerStates :=
  match addrs with
  | [] => ps
  | addr :: addrs =>
      let full := default false (with_live addr (fun l => has_full_torrent l total_pieces) ps) in
      let ps := if full then (with_peer_mut addr (set_not_needed now) ps).2 else ps in
      disconnect_all_peers_that_have_full_torrent now total_pieces addrs ps
  end.

(** The iterator chain is lazy: it stops at the first address the queue of
    peers to connect ([try_send]) does not take. *)
Fixpoint reconnect_all_not_needed_peers (now : Z) (try_send : Addr -> bool) (addrs : list Addr)
    (ps : PeerStates) : PeerStates :=
  match addrs with
  | [] => ps
  | addr :: addrs =>
      let '(r, ps) := with_peer_mut addr (reconnect_not_needed_peer now) ps in
      match r with
      | Some (Some socket_addr) =>
          if try_send socket_addr then reconnect_all_not_needed_peers now try_send addrs ps else ps
      | _ => reconnect_all_not_needed_peers now try_send addrs ps
      end
  end.

Fixpoint requeue_dead_peers (now : Z) (try_send : Addr -> bool) (addrs : list Addr)
    (ps : PeerStates) : PeerStates :=
  match addrs with
  | [] => ps
  | addr :: addrs =>
      let '(r, ps) := with_peer_mut addr (fun peer ps =>
        match pr_state peer with
        | Dead => let '(_, peer, ps) := set_state now peer Queued ps in (Some (pr_addr peer), peer, ps)
        | _ => (None, peer, ps)
        end) ps in
      match r with
      | Some (Some a) => if try_send a then requeue_dead_peers now try_send addrs ps else ps
      | _ => requeue_dead_peers now try_send addrs ps
      end
  end.

(** The update of the outgoing address in [on_extended_handshake]. *)
Definition update_outgoing_addr (addr outgoing_addr : Addr) (ps : PeerStates) : PeerStates :=
  (with_peer_mut addr (fun peer ps =>
    (tt, mkPeer (pr_addr peer) (pr_state peer) (pr_stats peer) (Some outgoing_addr)
           (pr_last_state_change peer), ps)) ps).2.

(** ** The counters count

    [weight] is what a peer in a given state adds to a counter. *)

Definition weight (c : Counter) (st : PeerState) : Z :=
  (if decide (counter st = c) then 1 else 0) +
  match st with Live l => if decide (live_kind_counter l = c) then 1 else 0 | _ => 0 end.

(** The number of peers of the map in a state that a counter counts. *)
Definition count (c : Counter) (m : gmap Addr Peer) : Z :=
  sumZ ((fun kp => weight c (pr_state kp.2)) <$> map_to_list m).

(** Equality of u32 counters. *)
Definition eqm (a b : Z) : Prop := a mod U32 = b mod U32.

#[local] Instance eqm_equiv : Equivalence eqm.
Proof. unfold eqm. split; [by intros x|by intros x y|intros x y z; congruence]. Qed.

#[local] Instance eqm_add : Proper (eqm ==> eqm ==> eqm) Z.add.
Proof. intros a b Hab c d Hcd. unfold eqm in *. by rewrite Zplus_mod, Hab, Hcd, <- Zplus_mod. Qed.

#[local] Instance eqm_sub : Proper (eqm ==> eqm ==> eqm) Z.sub.
Proof. intros a b Hab c d Hcd. unfold eqm in *. by rewrite Zminus_mod, Hab, Hcd, <- Zminus_mod. Qed.

Lemma eqm_wrap z : eqm (wrap32 z) z.
Proof. unfold eqm, wrap32. apply Zmod_mod. Qed.

Lemma load_fetch_add c c' d s :
  load c (fetch_add c' d s) = if decide (c' = c) then wrap32 (load c s + d) else load c s.
Proof. destruct c, c'; reflexivity. Qed.

(** The counters of states, as opposed to those of events. *)
Definition state_counter (c : Counter) : Prop := c <> CSeen /\ c <> CSteals.

Lemma load_inc c st s : eqm (load c (stats_inc st s)) (load c s + weight c st).
Proof.
  unfold stats_inc, weight, atomic_inc. rewrite load_fetch_add.
  destruct st as [|tx|l| |]; rewrite ?load_fetch_add; cbn [counter]; repeat case_decide;
    rewrite ?eqm_wrap, ?Z.add_0_r; try reflexivity; unfold live_kind_counter in *;
    destruct (lp_connection_kind l); congruence.
Qed.

Lemma load_dec c st s : eqm (load c (stats_dec st s)) (load c s - weight c st).
Proof.
  unfold stats_dec, weight, atomic_dec. rewrite load_fetch_add.
  destruct st as [|tx|l| |]; rewrite ?load_fetch_add; cbn [counter]; repeat case_decide;
    rewrite ?eqm_wrap, ?Z.add_0_r, ?Z.sub_0_r; try reflexivity; unfold live_kind_counter in *;
    destruct (lp_connection_kind l); congruence.
Qed.

Definition in_range (s : AggregatePeerStats) : Prop := forall c, is_u32 (load c s).

Lemma in_range_fetch_add c d s : in_range s -> in_range (fetch_add c d s).
Proof. intros Hs c'. rewrite load_fetch_add. case_decide; [apply wrap32_range|apply Hs]. Qed.

Lemma in_range_inc st s : in_range s -> in_range (stats_inc st s).
Proof. intros Hs. unfold stats_inc. apply in_range_fetch_add. destruct st; [done..| |done|done]. by apply in_range_fetch_add. Qed.

Lemma in_range_dec st s : in_range s -> in_range (stats_dec st s).
Proof. intros Hs. unfold stats_dec. apply in_range_fetch_add. destruct st; [done..| |done|done]. by apply in_range_fetch_add. Qed.

(** The map is the same and every state counter has moved by [w]. *)
Definition shift (w : Counter -> Z) (ps ps' : PeerStates) : Prop :=
  states ps' = states ps /\
  (in_range (stats ps) -> in_range (stats ps')) /\
  (in_range (session_stats ps) -> in_range (session_stats ps')) /\
  forall c, state_counter c ->
    eqm (load c (stats ps')) (load c (stats ps) + w c) /\
    eqm (load c (session_stats ps')) (load c (session_stats ps) + w c).

Lemma shift_trans w1 w2 w ps1 ps2 ps3 : (forall c, w c = w1 c + w2 c) ->
  shift w1 ps1 ps2 -> shift w2 ps2 ps3 -> shift w ps1 ps3.
Proof.
  intros Hw (Hs1 & Hr1 & Hq1 & Hc1) (Hs2 & Hr2 & Hq2 & Hc2). split_and!; [congruence|auto|auto|].
  intros c Hc. destruct (Hc1 c Hc) as [Ha Hb]. destruct (Hc2 c Hc) as [Ha' Hb'].
  rewrite Ha', Hb', Ha, Hb, Hw. split; by rewrite Z.add_assoc.
Qed.

Lemma shift_zero w ps : (forall c, w c = 0) -> shift w ps ps.
Proof. intros Hw. split_and!; [done..|]. intros c _. rewrite Hw, !Z.add_0_r. done. Qed.

Lemma shift_both f w ps : (forall s, in_range s -> in_range (f s)) ->
  (forall c s, state_counter c -> eqm (load c (f s)) (load c s + w c)) ->
  shift w ps (both f ps).
Proof. intros Hr Hf. split_and!; [done|apply Hr|apply Hr|]. intros c Hc. by split; apply Hf. Qed.

Lemma shift_outgoing f ps : shift (fun _ => 0) ps (with_outgoing f ps).
Proof. split_and!; [done..|]. intros c _. simpl. by rewrite !Z.add_0_r. Qed.

Lemma set_state_shift now peer new ps : forall prev peer' ps',
  set_state now peer new ps = (prev, peer', ps') ->
  prev = pr_state peer /\ pr_state peer' = new /\
  shift (fun c => weight c new - weight c (pr_state peer)) ps ps'.
Proof.
  intros prev peer' ps' [= <- <- <-]. split; [done|]. split; [done|].
  assert (Hsh : shift (fun c => weight c new - weight c (pr_state peer)) ps
    (both (incdec (pr_state peer) new) ps)).
  { apply shift_both; [intros s Hs; by apply in_range_inc, in_range_dec|]. intros c s _. unfold incdec. rewrite load_inc, load_dec.
    by replace (load c s - weight c (pr_state peer) + weight c new)
      with (load c s + (weight c new - weight c (pr_state peer))) by lia. }
  destruct (pr_outgoing_address peer) as [a|]; [|exact Hsh].
  assert (Hstep : forall w ps1 (b : bool) f, shift w ps ps1 ->
    shift w ps (if b then with_outgoing f ps1 else ps1)).
  { intros w ps1 [] f Hs; [|done]. eapply shift_trans; [|exact Hs|apply shift_outgoing].
    intros c. simpl. lia. }
  apply Hstep. by apply Hstep.
Qed.

Lemma count_insert_new c m addr peer : m !! addr = None ->
  count c (<[addr := peer]> m) = weight c (pr_state peer) + count c m.
Proof.
  intros Hm. unfold count. rewrite (sumZ_perm _ ((fun kp => weight c (pr_state kp.2)) <$> (addr, peer) :: map_to_list m)).
  - done.
  - by rewrite map_to_list_insert.
Qed.

Lemma count_delete c m addr peer : m !! addr = Some peer ->
  count c m = weight c (pr_state peer) + count c (delete addr m).
Proof.
  intros Hm. rewrite <- (insert_delete_id m addr peer Hm) at 1. apply count_insert_new, lookup_delete_eq.
Qed.

Lemma count_insert c m addr peer peer' : m !! addr = Some peer ->
  count c (<[addr := peer']> m) = count c m + (weight c (pr_state peer') - weight c (pr_state peer)).
Proof.
  intros Hm. rewrite <- insert_delete_eq, count_insert_new by apply lookup_delete_eq.
  rewrite (count_delete c m addr peer Hm). lia.
Qed.

(** The state counters move with the map. *)
Definition moves (ps ps' : PeerStates) : Prop :=
  (in_range (stats ps) -> in_range (stats ps')) /\
  (in_range (session_stats ps) -> in_range (session_stats ps')) /\
  forall c, state_counter c ->
    let d := count c (states ps') - count c (states ps) in
    eqm (load c (stats ps')) (load c (stats ps) + d) /\
    eqm (load c (session_stats ps')) (load c (session_stats ps) + d).

Lemma moves_refl ps : moves ps ps.
Proof. split_and!; [done..|]. intros c _ d. unfold d. by rewrite Z.sub_diag, !Z.add_0_r. Qed.

Lemma moves_trans ps1 ps2 ps3 : moves ps1 ps2 -> moves ps2 ps3 -> moves ps1 ps3.
Proof.
  intros (Hr1 & Hq1 & Hc1) (Hr2 & Hq2 & Hc2). split_and!; [auto|auto|]. intros c Hc.
  destruct (Hc1 c Hc) as [Ha Hb]. destruct (Hc2 c Hc) as [Ha' Hb']. cbv zeta in *.
  rewrite Ha', Hb', Ha, Hb. rewrite <- !Z.add_assoc. split; repeat f_equiv; unfold eqm; f_equal; lia.
Qed.

(** An operation that changes the map, given how far it shifts the counters. *)
Lemma shift_moves w ps ps' m : shift w ps ps' ->
  (forall c, count c m - count c (states ps) = w c) -> moves ps (with_states m ps').
Proof.
  intros (Hs & Hr & Hq & Hc) Hw. split_and!; [done..|]. intros c Hsc. cbv zeta. simpl. rewrite Hw. by apply Hc.
Qed.

Lemma entry_moves addr peer peer' ps ps' : states ps !! addr = Some peer ->
  shift (fun c => weight c (pr_state peer') - weight c (pr_state peer)) ps ps' ->
  moves ps (with_states (<[addr := peer']> (states ps')) ps').
Proof.
  intros Hp Hs. eapply shift_moves; [exact Hs|]. intros c. destruct Hs as (-> & _).
  rewrite (count_insert c _ addr peer) by done. lia.
Qed.

(** An operation on one peer that keeps the counters right. *)
Definition counted {R} (f : Peer -> PeerStates -> R * Peer * PeerStates) : Prop :=
  forall peer ps, let '(_, peer', ps') := f peer ps in
    shift (fun c => weight c (pr_state peer') - weight c (pr_state peer)) ps ps'.

Lemma with_peer_mut_moves {R} addr (f : Peer -> PeerStates -> R * Peer * PeerStates) ps :
  counted f -> moves ps (with_peer_mut addr f ps).2.
Proof.
  intros Hf. unfold with_peer_mut. destruct (states ps !! addr) as [peer|] eqn:Hp; [|apply moves_refl].
  specialize (Hf peer ps). destruct (f peer ps) as [[r peer'] ps']. by eapply entry_moves.
Qed.

Lemma counted_same peer ps : shift (fun c => weight c (pr_state peer) - weight c (pr_state peer)) ps ps.
Proof. apply shift_zero. intros c. lia. Qed.

Lemma counted_set_state now new : counted (fun peer ps => set_state now peer new ps).
Proof.
  intros peer ps. destruct (set_state now peer new ps) as [[prev peer'] ps'] eqn:E.
  destruct (set_state_shift _ _ _ _ _ _ _ E) as (_ & -> & Hs). exact Hs.
Qed.

(** [take_state] and then [set_state] is [set_state]. *)
Lemma take_set_shift now peer new ps prev peer1 ps1 prev2 peer2 ps2 :
  take_state now peer ps = (prev, peer1, ps1) -> set_state now peer1 new ps1 = (prev2, peer2, ps2) ->
  prev = pr_state peer /\ shift (fun c => weight c (pr_state peer2) - weight c (pr_state peer)) ps ps2.
Proof.
  intros (-> & Hp1 & Hs1)%set_state_shift (_ & -> & Hs2)%set_state_shift. split; [done|].
  eapply shift_trans; [|exact Hs1|exact Hs2]. intros c. rewrite Hp1. lia.
Qed.

Lemma counted_reconnect now : counted (reconnect_not_needed_peer now).
Proof.
  intros peer ps. unfold reconnect_not_needed_peer.
  destruct (pr_state peer) eqn:Est; rewrite <- ?Est; try apply counted_same.
  destruct (pr_outgoing_address peer) as [a|]; [|apply counted_same].
  case_decide; [|apply counted_same]. apply (counted_set_state now Queued).
Qed.

Lemma counted_idle_to_connecting now tx : counted (idle_to_connecting now tx).
Proof.
  intros peer ps. unfold idle_to_connecting.
  destruct (pr_state peer) eqn:Est; rewrite <- ?Est; try apply counted_same;
    apply (counted_set_state now (Connecting tx)).
Qed.

Lemma counted_dead_to_queued {R} now (r1 r2 : Peer -> R) : counted (fun peer ps =>
  match pr_state peer with
  | Dead => let '(_, peer, ps) := set_state now peer Queued ps in (r1 peer, peer, ps)
  | _ => (r2 peer, peer, ps)
  end).
Proof.
  intros peer ps. destruct (pr_state peer) eqn:Est; rewrite <- ?Est; try apply counted_same.
  apply (counted_set_state now Queued).
Qed.

Lemma with_live_mut_moves {R} addr (f : LivePeerState -> R * LivePeerState) ps :
  (forall l, lp_connection_kind (f l).2 = lp_connection_kind l) -> moves ps (with_live_mut addr f ps).2.
Proof.
  intros Hf. unfold with_live_mut. destruct (states ps !! addr) as [peer|] eqn:Hp; [|apply moves_refl].
  destruct (pr_state peer) as [|tx|l| |] eqn:Est; try apply moves_refl. specialize (Hf l).
  destruct (f l) as [r l']. simpl in *. eapply (entry_moves addr peer); [done|]. simpl. rewrite Est.
  apply shift_zero. intros c. unfold weight. simpl. unfold live_kind_counter. rewrite Hf. lia.
Qed.

Lemma bump_peer_moves addr f ps : moves ps (bump_peer addr f ps).
Proof.
  unfold bump_peer. destruct (states ps !! addr) as [p|] eqn:Hp; [|apply moves_refl].
  eapply (entry_moves addr p); [done|]. apply shift_zero. intros c. simpl. lia.
Qed.

Lemma add_if_not_seen_moves now addr ps : moves ps (add_if_not_seen now addr ps).2.
Proof.
  unfold add_if_not_seen. destruct (states ps !! addr) eqn:Hm; [apply moves_refl|]. cbn [snd].
  set (m := <[addr := _]> _).
  replace (both _ (both _ (with_states m ps)))
    with (with_states m (both (fun s => atomic_inc CSeen (atomic_inc CQueued s)) ps)) by done.
  eapply (shift_moves (fun c => weight c Queued)).
  - apply shift_both; [intros s Hs; by apply in_range_fetch_add, in_range_fetch_add|].
    intros c s [Hc1 Hc2]. unfold atomic_inc, weight. rewrite !load_fetch_add. cbn [counter].
    repeat case_decide; try congruence; rewrite ?eqm_wrap, ?Z.add_0_r; done.
  - intros c. unfold m. rewrite count_insert_new by done. simpl. lia.
Qed.

Lemma delete_moves addr peer ps : states ps !! addr = Some peer ->
  moves ps (both (stats_dec (pr_state peer)) (with_states (delete addr (states ps)) ps)).
Proof.
  intros Hp. replace (both _ _) with (with_states (delete addr (states ps)) (both (stats_dec (pr_state peer)) ps)) by done.
  eapply (shift_moves (fun c => - weight c (pr_state peer))).
  - apply shift_both; [intros s; apply in_range_dec|]. intros c s _. rewrite load_dec.
    by rewrite Z.add_opp_r.
  - intros c. rewrite (count_delete c (states ps) addr peer) by done. lia.
Qed.

Lemma drop_peer_moves addr ps : moves ps (drop_peer addr ps).2.
Proof.
  unfold drop_peer. destruct (states ps !! addr) as [p|] eqn:Hp; [|apply moves_refl]. by apply delete_moves.
Qed.

Lemma prune_moves now retention addrs ps n : moves ps (foldr (prune_entry now retention) (n, ps) addrs).2.
Proof.
  induction addrs as [|a addrs IH]; [apply moves_refl|]. cbn [foldr].
  destruct (foldr _ _ addrs) as [k ps1]. cbn [snd] in IH. eapply moves_trans; [exact IH|]. unfold prune_entry.
  destruct (states ps1 !! a) as [p|] eqn:Hp; [|apply moves_refl].
  destruct (_ && _); [|apply moves_refl]. by apply delete_moves.
Qed.

Lemma on_steal_moves from to idx ps : moves ps (on_steal from to idx ps).2.
Proof.
  unfold on_steal. set (ps1 := bump_peer to inc_i_stole ps). set (ps2 := bump_peer from inc_stolen ps1).
  assert (H12 : moves ps ps2) by (eapply moves_trans; apply bump_peer_moves).
  assert (H23 : moves ps2 (both (atomic_inc CSteals) ps2)).
  { apply (shift_moves (fun _ => 0) ps2 (both (atomic_inc CSteals) ps2) (states ps2)); [|intros; lia].
    apply shift_both; [intros s; apply in_range_fetch_add|]. intros c s [_ Hc]. unfold atomic_inc.
    rewrite load_fetch_add, Z.add_0_r. by case_decide. }
  match goal with |- context [with_live_mut from ?f ?p] =>
    pose proof (with_live_mut_moves from f p ltac:(done)) as H34;
    destruct (with_live_mut from f p) as [r ps4] end.
  cbn [snd] in *. eapply moves_trans; [exact H12|]. by eapply moves_trans.
Qed.

Lemma set_peer_live_moves empty now addr peer_id kind ps :
  exists ps', set_peer_live empty now addr peer_id kind ps = Done ps' /\ moves ps ps'.
Proof.
  unfold set_peer_live, connecting_to_live.
  destruct (states ps !! addr) as [peer|] eqn:Hp; [|eexists; split; [done|apply moves_refl]].
  destruct (pr_state peer) as [|tx|l| |] eqn:Est; rsimpl;
    try (eexists; split; [done|]; eapply entry_moves; [exact Hp|apply counted_same]).
  destruct (take_state now peer ps) as [[prev peer1] ps1] eqn:E1.
  destruct (set_state_shift _ _ _ _ _ _ _ E1) as (-> & _). rewrite Est.
  destruct (set_state now peer1 _ ps1) as [[prev2 peer2] ps2] eqn:E2. rsimpl.
  eexists. split; [done|]. eapply entry_moves; [exact Hp|]. by eapply take_set_shift.
Qed.

Lemma incoming_active_moves addr peer ps : states ps !! addr = Some peer ->
  moves ps (with_states (<[addr := peer]> (states ps)) ps).
Proof. intros Hp. eapply entry_moves; [exact Hp|apply counted_same]. Qed.

Lemma incoming_accept empty now peer_id tx kind peer ps :
  (forall k, pr_state peer <> Connecting k) -> (forall l, pr_state peer <> Live l) ->
  exists peer' ps', incoming_connection empty now peer_id tx kind peer ps = Done (Ok tt, peer', ps') /\
    shift (fun c => weight c (pr_state peer') - weight c (pr_state peer)) ps ps'.
Proof.
  intros Hc Hl. unfold incoming_connection.
  destruct (take_state now peer ps) as [[prev peer1] ps1] eqn:E1.
  destruct (set_state now peer1 (Live (live_new empty peer_id tx true kind)) ps1) as [[prev2 peer2] ps2] eqn:E2.
  destruct (take_set_shift _ _ _ _ _ _ _ _ _ _ E1 E2) as [-> Hs]. exists peer2, ps2. split; [|done].
  destruct (pr_state peer) as [|k|l| |]; [done|by destruct (Hc k)|by destruct (Hl l)|done|done].
Qed.

Lemma add_incoming_peer_moves empty now permit addr peer_id tx kind ps :
  exists r ps', add_incoming_peer empty now permit addr peer_id tx kind ps = Done (r, ps') /\ moves ps ps'.
Proof.
  unfold add_incoming_peer. destruct permit; cbn [negb].
  2: { eexists _, _. split; [done|apply bump_peer_moves]. }
  destruct (states ps !! addr) as [peer|] eqn:Hp.
  - destruct (decide (is_live (pr_state peer) = true \/ counter (pr_state peer) = CConnecting)) as [Ha|Ha].
    + assert (Hr : incoming_connection empty now peer_id tx kind peer ps = Done (Err AlreadyActive, peer, ps)).
      { unfold incoming_connection. destruct (pr_state peer); simpl in Ha; try done; by destruct Ha. }
      rewrite Hr. rsimpl. eexists _, _. split; [done|]. by apply incoming_active_moves.
    + destruct (incoming_accept empty now peer_id tx kind peer ps) as (peer' & ps' & -> & Hs).
      { intros k Hk. apply Ha. right. by rewrite Hk. }
      { intros l Hl. apply Ha. left. by rewrite Hl. }
      rsimpl. eexists _, _. split; [done|]. eapply moves_trans; [by eapply entry_moves|apply bump_peer_moves].
  - eexists _, _. split; [done|]. eapply moves_trans; [|apply bump_peer_moves].
    cbn [new_live_for_incoming_connection]. set (st := Live _). set (ps1 := mkPeerStates _ _ _ _).
    eapply moves_trans; [|apply (shift_moves (fun c => weight c st) ps1)].
    + split_and!; [apply in_range_fetch_add|done|]. intros c [Hc _] d. unfold d, ps1. cbn [stats session_stats states].
      unfold atomic_inc. rewrite load_fetch_add, Z.sub_diag, !Z.add_0_r. case_decide; [congruence|done].
    + apply shift_both; [intros s; apply in_range_inc|]. intros c s _. apply load_inc.
    + intros c. cbn [states ps1 both]. rewrite count_insert_new by done. cbn [pr_state]. unfold ps1. cbn [states]. lia.
Qed.

Lemma on_peer_died_moves now addr error finished ps : moves ps (on_peer_died now addr error finished ps).2.
Proof.
  unfold on_peer_died. destruct (states ps !! addr) as [peer|] eqn:Hp; [|apply moves_refl].
  destruct (take_state now peer ps) as [[prev peer1] ps1] eqn:E1.
  destruct (set_state_shift _ _ _ _ _ _ _ E1) as (-> & Hp1 & Hs1).
  assert (Hput : forall new, moves ps
    ((fun '(_, peer, ps) => with_states (<[addr := peer]> (states ps)) ps) (set_state now peer1 new ps1))).
  { intros new. destruct (set_state now peer1 new ps1) as [[prev2 peer2] ps2] eqn:E2.
    eapply entry_moves; [exact Hp|]. by eapply take_set_shift. }
  assert (Hq : moves ps (with_states (<[addr := peer1]> (states ps1)) ps1)).
  { eapply entry_moves; [exact Hp|]. rewrite Hp1. exact Hs1. }
  destruct (pr_state peer); [exact Hq| | |exact Hq|apply Hput];
    (destruct error; cbn [negb]; [destruct finished|]; apply Hput).
Qed.

Lemma disconnect_all_moves now n addrs : forall ps,
  moves ps (disconnect_all_peers_that_have_full_torrent now n addrs ps).
Proof.
  induction addrs as [|a addrs IH]; intros ps; [apply moves_refl|]. cbn [disconnect_all_peers_that_have_full_torrent].
  eapply moves_trans; [|apply IH]. destruct (default _ _); [|apply moves_refl].
  apply with_peer_mut_moves, counted_set_state.
Qed.

Lemma reconnect_all_moves now try_send addrs : forall ps,
  moves ps (reconnect_all_not_needed_peers now try_send addrs ps).
Proof.
  induction addrs as [|a addrs IH]; intros ps; [apply moves_refl|]. cbn [reconnect_all_not_needed_peers].
  pose proof (with_peer_mut_moves a _ ps (counted_reconnect now)) as Hm.
  destruct (with_peer_mut a _ ps) as [r ps1]. cbn [snd] in Hm. eapply moves_trans; [exact Hm|].
  destruct r as [[a'|]|]; [destruct (try_send a'); [apply IH|apply moves_refl]|apply IH|apply IH].
Qed.

Lemma requeue_dead_moves now try_send addrs : forall ps,
  moves ps (requeue_dead_peers now try_send addrs ps).
Proof.
  induction addrs as [|a addrs IH]; intros ps; [apply moves_refl|]. cbn [requeue_dead_peers].
  pose proof (with_peer_mut_moves a _ ps
    (counted_dead_to_queued now (fun p => Some (pr_addr p)) (fun _ => None))) as Hm.
  destruct (with_peer_mut a _ ps) as [r ps1]. cbn [snd] in Hm. eapply moves_trans; [exact Hm|].
  destruct r as [[a'|]|]; [destruct (try_send a'); [apply IH|apply moves_refl]|apply IH|apply IH].
Qed.

(** ** Runs *)

Inductive event :=
| EAdd (now : Z) (addr : Addr)
| EConnecting (now : Z) (tx : nat) (addr : Addr)
| EConnected (addr : Addr)
| ESetLive (empty : B) (now : Z) (addr : Addr) (peer_id : Id) (kind : ConnectionKind)
| EIncoming (empty : B) (now : Z) (permit : bool) (addr : Addr) (peer_id : Id) (tx : nat) (kind : ConnectionKind)
| EOutgoingAddr (addr outgoing : Addr)
| EInterested (addr : Addr) (v : bool)
| EBitfield (addr : Addr) (b : B)
| EDied (now : Z) (addr : Addr) (error finished : bool)
| EDrop (addr : Addr)
| EDeadToQueued (now : Z) (addr : Addr)
| ENotNeeded (now : Z) (addr : Addr)
| EDisconnectAll (now total_pieces : Z) (addrs : list Addr)
| EReconnectAll (now : Z) (try_send : Addr -> bool) (addrs : list Addr)
| ERequeueDead (now : Z) (try_send : Addr -> bool) (addrs : list Addr)
| ESteal (from to : Addr) (idx : Z)
| EPrune (now retention : Z).

Definition exec (e : event) (ps : PeerStates) : outcome PeerStates :=
  match e with
  | EAdd now addr => Done (add_if_not_seen now addr ps).2
  | EConnecting now tx addr => Done (mark_peer_connecting now tx addr ps).2
  | EConnected addr => Done (bump_peer addr inc_outgoing ps)
  | ESetLive empty now addr peer_id kind => set_peer_live empty now addr peer_id kind ps
  | EIncoming empty now permit addr peer_id tx kind =>
      r ←! add_incoming_peer empty now permit addr peer_id tx kind ps; Done r.2
  | EOutgoingAddr addr outgoing => Done (update_outgoing_addr addr outgoing ps)
  | EInterested addr v => Done (mark_peer_interested addr v ps).2
  | EBitfield addr b => Done (update_bitfield addr b ps).2
  | EDied now addr error finished => Done (on_peer_died now addr error finished ps).2
  | EDrop addr => Done (drop_peer addr ps).2
  | EDeadToQueued now addr => Done (dead_to_queued now addr ps).2
  | ENotNeeded now addr => Done (mark_peer_not_needed now addr ps).2
  | EDisconnectAll now n addrs => Done (disconnect_all_peers_that_have_full_torrent now n addrs ps)
  | EReconnectAll now try_send addrs => Done (reconnect_all_not_needed_peers now try_send addrs ps)
  | ERequeueDead now try_send addrs => Done (requeue_dead_peers now try_send addrs ps)
  | ESteal from to idx => Done (on_steal from to idx ps).2
  | EPrune now retention => Done (prune_dead_peers now retention ps).2
  end.

Definition run (es : list event) (ps : PeerStates) : outcome PeerStates := for_each (fun ps e => exec e ps) ps es.

Lemma exec_moves e ps : exists ps', exec e ps = Done ps' /\ moves ps ps'.
Proof.
  destruct e; cbn [exec]; try (eexists; split; [reflexivity|]).
  - apply add_if_not_seen_moves.
  - unfold mark_peer_connecting. pose proof (with_peer_mut_moves addr _ ps (counted_idle_to_connecting now tx)) as Hm.
    destruct (with_peer_mut addr _ ps) as [[[tx'|]|] ps1]; exact Hm.
  - apply bump_peer_moves.
  - apply set_peer_live_moves.
  - destruct (add_incoming_peer_moves empty now permit addr peer_id tx kind ps) as (r & ps' & -> & Hm).
    rsimpl. by eexists.
  - apply with_peer_mut_moves. intros p q. apply shift_zero. intros c. simpl. lia.
  - by apply with_live_mut_moves.
  - by apply with_live_mut_moves.
  - apply on_peer_died_moves.
  - apply drop_peer_moves.
  - unfold dead_to_queued.
    pose proof (with_peer_mut_moves addr _ ps (counted_dead_to_queued now (fun _ => true) (fun _ => false))) as Hm.
    destruct (with_peer_mut addr _ ps) as [r ps1]. exact Hm.
  - apply with_peer_mut_moves, counted_set_state.
  - apply disconnect_all_moves.
  - apply reconnect_all_moves.
  - apply requeue_dead_moves.
  - apply on_steal_moves.
  - apply prune_moves.
Qed.

Lemma run_moves es : forall ps, exists ps', run es ps = Done ps' /\ moves ps ps'.
Proof.
  unfold run. induction es as [|e es IH]; intros ps; [eexists; split; [done|apply moves_refl]|].
  cbn [for_each]. destruct (exec_moves e ps) as (ps1 & -> & Hm1). rsimpl.
  destruct (IH ps1) as (ps2 & -> & Hm2). eexists. split; [done|]. by eapply moves_trans.
Qed.

(** No peer is known; other torrents of the session have their own. *)
Definition initial (session : AggregatePeerStats) : PeerStates := mkPeerStates session ∅ stats_zero ∅.

Lemma destroy_shift peer ps : shift (fun c => - weight c (pr_state peer)) ps (destroy peer ps).
Proof.
  assert (Hd : shift (fun c => - weight c (pr_state peer)) ps (both (stats_dec (pr_state peer)) ps)).
  { apply shift_both; [intros s; apply in_range_dec|]. intros c s _. rewrite load_dec. by rewrite Z.add_opp_r. }
  unfold destroy. destruct (pr_outgoing_address peer) as [a|]; [|exact Hd].
  destruct (pr_state peer); exact Hd.
Qed.

Lemma drop_states_shift l ps :
  shift (fun c => - sumZ ((fun kp => weight c (pr_state kp.2)) <$> l)) ps
    (foldr (fun (kp : Addr * Peer) ps => destroy kp.2 ps) ps l).
Proof.
  induction l as [|kp l IH]; [apply shift_zero; done|]. cbn [foldr].
  eapply shift_trans; [|exact IH|apply destroy_shift]. intros c. rewrite sumZ_fmap_cons. lia.
Qed.

Lemma eqm_u32 a b : is_u32 a -> eqm a b -> a = wrap32 b.
Proof. unfold eqm, wrap32. intros Ha <-. symmetry. by apply Z.mod_small. Qed.

(** C26: in every run the operations on peers never panic, the counters of the
    torrent are the numbers of its peers in each state (and of its live peers
    per kind of connection), the counters of the session are those of the other
    torrents plus these, and dropping the torrent gives the session its counters
    back; all in u32. *)
Theorem peer_counters_exact session es : in_range session ->
  exists ps, run es (initial session) = Done ps /\
    forall c, state_counter c ->
      load c (stats ps) = wrap32 (count c (states ps)) /\
      load c (session_stats ps) = wrap32 (load c session + count c (states ps)) /\
      load c (session_stats (drop_peer_states ps)) = load c session.
Proof.
  intros Hr. destruct (run_moves es (initial session)) as (ps & Hrun & Hr1 & Hr2 & Hm).
  exists ps. split; [done|]. intros c Hc. destruct (Hm c Hc) as [Ha Hb]. cbv zeta in Ha, Hb.
  assert (H0' : count c (states (initial session)) = 0) by done.
  rewrite H0', Z.sub_0_r in Ha, Hb.
  assert (Hz : load c (stats (initial session)) = 0) by (by destruct c).
  rewrite Hz, Z.add_0_l in Ha. simpl in Hb.
  assert (Hs1 : in_range (stats ps)) by (apply Hr1; intros []; done).
  specialize (Hr2 Hr). split_and!; [by apply eqm_u32|by apply eqm_u32|].
  destruct (drop_states_shift (map_to_list (states ps)) (with_states ∅ ps)) as (_ & _ & Hr3 & Hd).
  destruct (Hd c Hc) as [_ Hd']. cbn [session_stats with_states] in Hd', Hr3.
  fold (count c (states ps)) in Hd'. rewrite Hb in Hd'.
  unfold drop_peer_states. rewrite (eqm_u32 _ _ (Hr3 Hr2 c) Hd'). replace (load c session + count c (states ps) + - count c (states ps))
    with (load c session) by lia. apply wrap32_small, Hr.
Qed.

(** When a piece is stolen, exactly the requests for it are taken from the
    peer that lost it, a [Cancel] for each of them is sent to that peer, and its
    other requests stay. *)
Theorem on_steal_cancels from to idx ps l : with_live from id ps = Some l ->
  let '(cancels, ps') := on_steal from to idx ps in
  (exists l', with_live from id ps' = Some l' /\
     lp_tx l' = lp_tx l /\
     forall req, req ∈ lp_inflight_requests l' <->
       req ∈ lp_inflight_requests l /\ ci_piece_index req <> idx) /\
  (forall tx r, (tx, r) ∈ cancels <-> tx = lp_tx l /\ exists req, req ∈ lp_inflight_requests l /\
     ci_piece_index req = idx /\ r = mkRequest idx (ci_offset req) (ci_size req)).
Proof.
  intros Hl. unfold on_steal.
  assert (Hb : forall ps addr f, with_live from id (bump_peer addr f ps) = with_live from id ps).
  { intros ps0 addr f. unfold with_live, bump_peer. destruct (states ps0 !! addr) as [p|] eqn:Hp; [|done].
    simpl. destruct (decide (from = addr)) as [->|Hne]; [by rewrite lookup_insert_eq, Hp|by rewrite lookup_insert_ne]. }
  set (ps1 := both _ _). assert (Hl1 : with_live from id ps1 = Some l).
  { unfold ps1. change (with_live from id (bump_peer from inc_stolen (bump_peer to inc_i_stole ps)) = Some l).
    by rewrite !Hb. }
  unfold with_live in Hl1. unfold with_live_mut. destruct (states ps1 !! from) as [p|] eqn:Hp; [|done].
  simpl in Hl1. unfold get_live in Hl1. destruct (pr_state p) as [|tx|l0| |]; try done. injection Hl1 as ->.
  cbn [default]. split.
  - eexists. unfold with_live. cbn [states with_states]. rewrite lookup_insert_eq. split; [done|].
    split; [done|]. intros req. unfold id. cbn [lp_inflight_requests].
    rewrite elem_of_difference, elem_of_filter. split; [intros [? Hn]; split; [done|tauto]|tauto].
  - intros tx r. unfold id. simpl. rewrite list_elem_of_fmap. split.
    + intros (req & [= -> ->] & Hreq). apply elem_of_elements, elem_of_filter in Hreq as [? ?]. split; [done|].
      by exists req.
    + intros (-> & req & Hin & Hidx & ->). exists req. split; [done|]. by apply elem_of_elements, elem_of_filter.
Qed.
End peers.
Arguments LivePeerState : clear implicits.
Arguments PeerState : clear implicits.
Arguments Peer : clear implicits.
Arguments PeerStates B Addr {_ _}.

(** ** Witnesses *)

Definition ex_id20 : Id := replicate 20 7.

Definition ex_session : AggregatePeerStats := mkStats 3 1 2 1 1 0 9 0 4 0.

(** Two peers are found, one is connected to, one connects by itself. *)
Definition ex_events : list (@event (list bool) Z) :=
  [EAdd 0 10; EAdd 0 20; EConnecting 1 0 10; EConnected 10; ESetLive [] 2 10 ex_id20 Tcp;
   EIncoming [] 3 true 30 ex_id20 1 Utp; EDied 4 10 true false].

Lemma peer_counters_exact_witness :
  exists ps, run ex_events (initial ex_session) = Done ps /\
    load CDead (session_stats ps) = wrap32 (0 + count CDead (states ps)) /\
    load CLiveUtp (session_stats (drop_peer_states ps)) = 1.
Proof.
  destruct (peer_counters_exact ex_session ex_events) as (ps & Hrun & Hc); [intros []; split; done|].
  exists ps. split; [exact Hrun|]. split.
  - apply (Hc CDead). split; done.
  - apply (Hc CLiveUtp). split; done.
Defined.

Definition ex_stolen : PeerStates (list bool) Z :=
  mkPeerStates stats_zero ∅ stats_zero
    {[ 10 := mkPeer 10 (Live (mkLive ex_id20 true []
         {[ mkChunkInfo 5 0 10 16384 0; mkChunkInfo 6 0 12 16384 0 ]} 3 Tcp)) peer_stats_default None 0 ]}.

Lemma on_steal_cancels_witness :
  (3%nat, mkRequest 5 0 16384) ∈ (on_steal 10 20 5 ex_stolen).1.
Proof.
  pose proof (on_steal_cancels 10 20 5 ex_stolen
    (mkLive ex_id20 true [] {[ mkChunkInfo 5 0 10 16384 0; mkChunkInfo 6 0 12 16384 0 ]} 3 Tcp) eq_refl) as Hs.
  destruct (on_steal 10 20 5 ex_stolen) as [cancels ps']. destruct Hs as [_ Hs]. apply Hs.
  split; [reflexivity|]. exists (mkChunkInfo 5 0 10 16384 0). split; [simpl; set_solver|]. split; reflexivity.
Defined.

(** A peer found through the swarm is counted as seen by the torrent and the
    session, a peer that connects to us by the torrent only. *)
Theorem incoming_peer_not_seen_by_session :
  exists ps ps', run [EAdd 0 10] (initial (B := list bool) (Addr := Z) stats_zero) = Done ps /\
    run [EIncoming [] 0 true 30 ex_id20 1 Tcp] (initial (B := list bool) (Addr := Z) stats_zero) = Done ps' /\
    (seen (stats ps), seen (session_stats ps)) = (1, 1) /\
    (seen (stats ps'), seen (session_stats ps')) = (1, 0).
Proof. eexists _, _. split_and!; vm_compute; reflexivity. Qed.

(** An address stays in the set of live outgoing peers after its peer has
    died, when the peer connected to us from an address we had connected to and
    announced another port: the set is updated with the new address. *)
Theorem stale_live_outgoing_peer :
  exists ps, run [EAdd 0 10; EConnecting 1 0 10; EConnected 10; EDied 2 10 true false;
                  EIncoming [] 3 true 10 ex_id20 1 Utp; EOutgoingAddr 10 11; EDied 4 10 true false]
      (initial (B := list bool) (Addr := Z) stats_zero) = Done ps /\
    10 ∈ live_outgoing_peers ps /\ live (stats ps) = 0.
Proof. eexists. split; [vm_compute; reflexivity|]. split; [|reflexivity]. vm_compute. constructor. Qed.
