(* ===== verification/Bencode.v ===== *)
(** * Bencode: the encoding of metadata, extended messages and DHT packets

    Models [crates/librtbit-bencode]: the parser of [deserialize.rs] as the
    dynamic type of [bencode_value.rs] drives it, and the writer of
    [serialize.rs] for it.  Numbers are read with the third-party crate [atoi],
    which is an argument; they are written in decimal.  A [HashMap] is an
    association list in insertion order, a [BTreeMap] one in the order of its
    keys.

    Out of fuel is [Panic]: [parse_total] shows that twice the length of the
    input is fuel enough for any input. *)

From S2P Require Import Prelude.

(** ASCII codes. *)
Abbreviation ch_minus := 45.
Abbreviation ch_zero := 48.
Abbreviation ch_colon := 58.
Abbreviation ch_d := 100.
Abbreviation ch_e := 101.
Abbreviation ch_i := 105.
Abbreviation ch_l := 108.

#[warnings="-register-all"]
Inductive BencodeValue :=
| Bytes (b : list Z)
| Integer (i : Z)
| List (l : list BencodeValue)
| Dict (d : list (list Z * BencodeValue)).

(** The errors of [deserialize.rs] that this type can meet. *)
Inductive BencodeError :=
| InvalidValue
| Eof
| BytesRemaining (n : nat).

Record BencodeDeserializer := mkDe {
  de_buf : list Z;
  de_field_context : list (list Z);
  de_field_context_did_not_fit : Z;
  de_parsing_key : bool;
}.

Definition with_buf (de : BencodeDeserializer) (b : list Z) : BencodeDeserializer :=
  mkDe b (de_field_context de) (de_field_context_did_not_fit de) (de_parsing_key de).

Definition with_key (de : BencodeDeserializer) (k : bool) : BencodeDeserializer :=
  mkDe (de_buf de) (de_field_context de) (de_field_context_did_not_fit de) k.

Definition new_from_buf (buf : list Z) : BencodeDeserializer := mkDe buf [] 0 false.

(** A parser moves the deserializer; an error leaves it where it was, for the
    context of the message. *)
Abbreviation parsed A := (result (BencodeError * BencodeDeserializer) (A * BencodeDeserializer)).

(** [HashMap::insert]. *)
Fixpoint hm_insert {V} (k : list Z) (v : V) (m : list (list Z * V)) : list (list Z * V) :=
  match m with
  | [] => [(k, v)]
  | (k', v') :: m => if decide (k = k') then (k, v) :: m else (k', v') :: hm_insert k v m
  end.

(** The order of byte strings. *)
Fixpoint bytes_ltb (a b : list Z) : bool :=
  match a, b with
  | _, [] => false
  | [], _ :: _ => true
  | x :: a, y :: b => if x <? y then true else if y <? x then false else bytes_ltb a b
  end.

(** [BTreeMap::insert]. *)
Fixpoint bt_insert {V} (k : list Z) (v : V) (m : list (list Z * V)) : list (list Z * V) :=
  match m with
  | [] => [(k, v)]
  | (k', v') :: m' =>
      if bytes_ltb k k' then (k, v) :: m
      else if bytes_ltb k' k then (k', v') :: bt_insert k v m'
      else (k, v) :: m'
  end.

Definition bt_of {V} (l : list (list Z * V)) : list (list Z * V) :=
  foldl (fun m kv => bt_insert kv.1 kv.2 m) [] l.

(** ** Numbers in decimal *)

(** The digits of [n], most significant first, before [acc]; [fuel] bounds them. *)
Fixpoint digits (fuel : nat) (n : Z) (acc : list Z) : list Z :=
  match fuel with
  | O => acc
  | S fuel =>
      let acc := (ch_zero + n mod 10) :: acc in
      if n <? 10 then acc else digits fuel (n / 10) acc
  end.

(** [Display] of an integer of at most 64 bits. *)
Definition decimal (n : Z) : list Z :=
  if n <? 0 then ch_minus :: digits 20 (- n) [] else digits 20 n [].

Section parser.
(** [i64::from_radix_10_signed] and [usize::from_radix_10]: the number at the
    start of a slice and how many bytes it takes. *)
Variable atoi_i64 : list Z -> Z * nat.
Variable atoi_usize : list Z -> Z * nat.

Definition parse_first_byte (de : BencodeDeserializer) (c : Z) (err : BencodeError) : parsed unit :=
  match de_buf de with
  | start :: rest => if start =? c then Ok (tt, with_buf de rest) else Err (err, de)
  | [] => Err (Eof, de)
  end.

Definition parse_integer (de : BencodeDeserializer) : parsed Z :=
  r ←? parse_first_byte de ch_i InvalidValue;
  let de := r.2 in
  let '(v, len) := atoi_i64 (de_buf de) in
  if (0 <? len)%nat && bool_decide (de_buf de !! len = Some ch_e)
  then Ok (v, with_buf de (drop (len + 1) (de_buf de)))
  else Err (InvalidValue, de).

(** [field_context] is an [ArrayVec] of capacity 4. *)
Definition parse_bytes (de : BencodeDeserializer) : parsed (list Z) :=
  let '(v, len) := atoi_usize (de_buf de) in
  if (0 <? len)%nat && bool_decide (de_buf de !! len = Some ch_colon)
  then
    let de := with_buf de (drop (len + 1) (de_buf de)) in
    if Z.of_nat (length (de_buf de)) <? v then Err (Eof, de)
    else
      let b := take (Z.to_nat v) (de_buf de) in
      let de := with_buf de (drop (Z.to_nat v) (de_buf de)) in
      let de :=
        if de_parsing_key de then
          if (length (de_field_context de) <? 4)%nat
          then mkDe (de_buf de) (de_field_context de ++ [b]) (de_field_context_did_not_fit de) true
          else mkDe (de_buf de) (de_field_context de)
                 (Z.min 255 (de_field_context_did_not_fit de + 1)) true
        else de in
      Ok (b, de)
  else Err (InvalidValue, de).

(** [MapAccess::next_key_seed] when the map goes on: the keys are bytes. *)
Definition next_key (de : BencodeDeserializer) : parsed (list Z) :=
  r ←? parse_bytes (with_key de true);
  Ok (r.1, with_key r.2 false).

(** The end of [MapAccess::next_value_seed]. *)
Definition pop_context (de : BencodeDeserializer) : BencodeDeserializer :=
  if 0 <? de_field_context_did_not_fit de
  then mkDe (de_buf de) (de_field_context de) (de_field_context_did_not_fit de - 1) (de_parsing_key de)
  else mkDe (de_buf de) (removelast (de_field_context de)) (de_field_context_did_not_fit de)
         (de_parsing_key de).

Definition starts_with_e (de : BencodeDeserializer) : bool :=
  match de_buf de with c :: _ => c =? ch_e | [] => false end.

(** [deserialize_any] with the visitor of [BencodeValue]. *)
Fixpoint parse_value (fuel : nat) (de : BencodeDeserializer) : outcome (parsed BencodeValue) :=
  match fuel with
  | O => Panic
  | S fuel =>
      match head (de_buf de) with
      | None => Done (Err (Eof, de))
      | Some c =>
          if c =? ch_d then
            r ←?! Done (parse_first_byte de ch_d InvalidValue);
            visit_map fuel r.2 []
          else if c =? ch_i then
            r ←?! Done (parse_integer de);
            Done (Ok (Integer r.1, r.2))
          else if c =? ch_l then
            r ←?! Done (parse_first_byte de ch_l InvalidValue);
            visit_seq fuel r.2 []
          else
            r ←?! Done (parse_bytes de);
            Done (Ok (Bytes r.1, r.2))
      end
  end
with visit_seq (fuel : nat) (de : BencodeDeserializer) (v : list BencodeValue) :
    outcome (parsed BencodeValue) :=
  match fuel with
  | O => Panic
  | S fuel =>
      if starts_with_e de then Done (Ok (List v, with_buf de (drop 1 (de_buf de))))
      else
        r ←?! parse_value fuel de;
        visit_seq fuel r.2 (v ++ [r.1])
  end
with visit_map (fuel : nat) (de : BencodeDeserializer) (hmap : list (list Z * BencodeValue)) :
    outcome (parsed BencodeValue) :=
  match fuel with
  | O => Panic
  | S fuel =>
      if starts_with_e de then Done (Ok (Dict hmap, with_buf de (drop 1 (de_buf de))))
      else
        key ←?! Done (next_key de);
        value ←?! parse_value fuel key.2;
        visit_map fuel (pop_context value.2) (hm_insert key.1 value.1 hmap)
  end.

Definition parse_fuel (buf : list Z) : nat := (2 * length buf + 1)%nat.

(** An error comes with the keys that lead to it. *)
Definition from_bytes_with_rest (buf : list Z) :
    outcome (result (BencodeError * list (list Z)) (BencodeValue * list Z)) :=
  r ←! parse_value (parse_fuel buf) (new_from_buf buf);
  match r with
  | Ok (v, de) => Done (Ok (v, de_buf de))
  | Err (kind, de) => Done (Err (kind, de_field_context de))
  end.

Definition from_bytes (buf : list Z) : outcome (result (BencodeError * list (list Z)) BencodeValue) :=
  r ←?! from_bytes_with_rest buf;
  if (0 <? length r.2)%nat then Done (Err (BytesRemaining (length r.2), []))
  else Done (Ok r.1).
End parser.

(** ** Writing *)

Definition write_number (n : Z) : list Z := ch_i :: decimal n ++ [ch_e].

(** With and without [hack_no_bytestring_prefix]. *)
Definition write_bytes (hack_no_bytestring_prefix : bool) (bytes : list Z) : list Z :=
  (if hack_no_bytestring_prefix then [] else decimal (Z.of_nat (length bytes)) ++ [ch_colon]) ++ bytes.

(** [SerializeMap::end]: the entries in the order of their keys. *)
Definition map_end (tmp : list (list Z * list Z)) : list Z :=
  concat (map (fun kv => write_bytes false kv.1 ++ kv.2) tmp) ++ [ch_e].

(** What [bencode_serialize_to_writer] writes; a key is written without a
    prefix first. *)
Fixpoint serialize (v : BencodeValue) : list Z :=
  match v with
  | Bytes b => write_bytes false b
  | Integer i => write_number i
  | List l => ch_l :: concat (map serialize l) ++ [ch_e]
  | Dict d =>
      ch_d :: map_end (bt_of (map (fun kv => (write_bytes true kv.1, serialize kv.2)) d))
  end.

(** ** The loops, one turn *)
Section unfold.
Variable atoi_i64 : list Z -> Z * nat.
Variable atoi_usize : list Z -> Z * nat.

Lemma visit_seq_S fuel de v : visit_seq atoi_i64 atoi_usize (S fuel) de v =
  if starts_with_e de then Done (Ok (List v, with_buf de (drop 1 (de_buf de))))
  else
    r ←?! parse_value atoi_i64 atoi_usize fuel de;
    visit_seq atoi_i64 atoi_usize fuel r.2 (v ++ [r.1]).
Proof. done. Qed.

Lemma visit_map_S fuel de hmap : visit_map atoi_i64 atoi_usize (S fuel) de hmap =
  if starts_with_e de then Done (Ok (Dict hmap, with_buf de (drop 1 (de_buf de))))
  else
    key ←?! Done (next_key atoi_usize de);
    value ←?! parse_value atoi_i64 atoi_usize fuel key.2;
    visit_map atoi_i64 atoi_usize fuel (pop_context value.2) (hm_insert key.1 value.1 hmap).
Proof. done. Qed.

Lemma parse_value_S fuel de c b : de_buf de = c :: b -> parse_value atoi_i64 atoi_usize (S fuel) de =
  if c =? ch_d then
    r ←?! Done (parse_first_byte de ch_d InvalidValue); visit_map atoi_i64 atoi_usize fuel r.2 []
  else if c =? ch_i then
    r ←?! Done (parse_integer atoi_i64 de); Done (Ok (Integer r.1, r.2))
  else if c =? ch_l then
    r ←?! Done (parse_first_byte de ch_l InvalidValue); visit_seq atoi_i64 atoi_usize fuel r.2 []
  else
    r ←?! Done (parse_bytes atoi_usize de); Done (Ok (Bytes r.1, r.2)).
Proof. intros Hb. cbn [parse_value]. by rewrite Hb. Qed.
End unfold.

(** ** Every input is parsed *)
Section total.
Variable atoi_i64 : list Z -> Z * nat.
Variable atoi_usize : list Z -> Z * nat.
Implicit Types de : BencodeDeserializer.

Abbreviation parse_value := (parse_value atoi_i64 atoi_usize).
Abbreviation visit_seq := (visit_seq atoi_i64 atoi_usize).
Abbreviation visit_map := (visit_map atoi_i64 atoi_usize).

(** A step of the parser that leaves at most [n] bytes. *)
Definition leaves {A} (n : nat) (r : parsed A) : Prop :=
  match r with Ok (_, de') => (length (de_buf de') <= n)%nat | Err _ => True end.

Lemma parse_first_byte_leaves de c err : leaves (length (de_buf de) - 1) (parse_first_byte de c err) /\
  (de_buf de = [] -> parse_first_byte de c err = Err (Eof, de)).
Proof.
  unfold parse_first_byte. destruct (de_buf de) as [|x b]; [done|]. split; [|done].
  destruct (x =? c); simpl; [lia|done].
Qed.

Lemma parse_integer_leaves de : leaves (length (de_buf de) - 1) (parse_integer atoi_i64 de).
Proof.
  unfold parse_integer. destruct (parse_first_byte_leaves de ch_i InvalidValue) as [Hl _].
  destruct (parse_first_byte de ch_i InvalidValue) as [[u d]|e]; rsimpl; [|done]. simpl in *.
  destruct (atoi_i64 (de_buf d)) as [v n]. destruct (_ && _); [|done]. simpl. rewrite length_drop. lia.
Qed.

Lemma parse_bytes_leaves de : leaves (length (de_buf de) - 1) (parse_bytes atoi_usize de).
Proof.
  unfold parse_bytes. destruct (atoi_usize (de_buf de)) as [v n]. destruct (_ && _); [|done].
  destruct (_ <? v); [done|]. cbn [leaves]. destruct (de_parsing_key _); [destruct (_ <? 4)%nat|];
    simpl; rewrite !length_drop; lia.
Qed.

Lemma next_key_leaves de : leaves (length (de_buf de) - 1) (next_key atoi_usize de).
Proof.
  unfold next_key. pose proof (parse_bytes_leaves (with_key de true)) as Hl.
  destruct (parse_bytes atoi_usize (with_key de true)) as [[k d]|e]; rsimpl; done.
Qed.

Lemma pop_context_buf de : de_buf (pop_context de) = de_buf de.
Proof. unfold pop_context. by destruct (0 <? _). Qed.

(** Returned, with at most [n] bytes left. *)
Definition returns {A} (n : nat) (o : outcome (parsed A)) : Prop := exists r, o = Done r /\ leaves n r.

Lemma returns_bind {A B} n m (o : outcome (parsed A)) (k : A * BencodeDeserializer -> outcome (parsed B)) :
  returns m o -> (forall a de', (length (de_buf de') <= m)%nat -> returns n (k (a, de'))) ->
  returns n (x ←?! o; k x).
Proof.
  intros (r & -> & Hr) Hk. destruct r as [[a de']|e]; rsimpl; [by apply Hk|]. by eexists.
Qed.

Lemma returns_done {A} n (r : parsed A) : leaves n r -> returns n (Done r).
Proof. intros Hr. by exists r. Qed.

Lemma returns_weaken {A} n m (o : outcome (parsed A)) : (n <= m)%nat -> returns n o -> returns m o.
Proof. intros Hnm (r & -> & Hr). exists r. split; [done|]. destruct r as [[a d]|]; simpl in *; lia || done. Qed.

Lemma parse_value_empty fuel de : (0 < fuel)%nat -> de_buf de = [] -> parse_value fuel de = Done (Err (Eof, de)).
Proof. intros Hf Hb. destruct fuel; [lia|]. cbn [Bencode.parse_value]. by rewrite Hb. Qed.

Lemma next_key_empty de : de_buf de = [] -> exists e, next_key atoi_usize de = Err e.
Proof.
  intros Hb. unfold next_key, parse_bytes. cbn [de_buf with_key]. rewrite Hb.
  destruct (atoi_usize []) as [v n]. rewrite lookup_nil, andb_false_r. by eexists.
Qed.

Lemma parse_total_aux fuel : forall de,
  ((2 * length (de_buf de) + 1 <= fuel)%nat -> returns (length (de_buf de) - 1) (parse_value fuel de)) /\
  (forall v, (2 * length (de_buf de) + 2 <= fuel)%nat -> returns (length (de_buf de)) (visit_seq fuel de v)) /\
  (forall m, (2 * length (de_buf de) + 2 <= fuel)%nat -> returns (length (de_buf de)) (visit_map fuel de m)).
Proof.
  induction fuel as [|fuel IH]; intros de; [split_and!; intros; lia|]. split_and!.
  - intros Hf. destruct (de_buf de) as [|c b] eqn:Hb.
    { rewrite parse_value_empty by (done || lia). by apply returns_done. }
    rewrite (parse_value_S _ _ _ _ c b Hb). cbn [length] in *.
    pose proof (fun c' => proj1 (parse_first_byte_leaves de c' InvalidValue)) as Hone.
    pose proof (parse_integer_leaves de) as Hi. pose proof (parse_bytes_leaves de) as Hy.
    rewrite Hb in Hi, Hy, Hone. cbn [length] in Hi, Hy, Hone.
    destruct (c =? ch_d); [|destruct (c =? ch_i); [|destruct (c =? ch_l)]].
    + eapply returns_bind; [by eapply returns_done|]. intros u d Hd. cbn [snd].
      eapply returns_weaken; [exact Hd|]. apply IH. lia.
    + eapply returns_bind; [by apply returns_done|]. intros v d Hd. by apply returns_done.
    + eapply returns_bind; [by eapply returns_done|]. intros u d Hd. cbn [snd].
      eapply returns_weaken; [exact Hd|]. apply IH. lia.
    + eapply returns_bind; [by apply returns_done|]. intros v d Hd. by apply returns_done.
  - intros v Hf. rewrite visit_seq_S. destruct (starts_with_e de).
    { apply returns_done. simpl. rewrite length_drop. lia. }
    destruct (decide (de_buf de = [])) as [Hb|Hb].
    { rewrite parse_value_empty by (done || lia). by apply returns_done. }
    assert (0 < length (de_buf de))%nat by (destruct (de_buf de); [done|simpl; lia]).
    eapply returns_bind; [apply IH; lia|]. intros x d Hd. cbn [fst snd].
    eapply returns_weaken; [|apply IH; lia]. lia.
  - intros m Hf. rewrite visit_map_S. destruct (starts_with_e de).
    { apply returns_done. simpl. rewrite length_drop. lia. }
    destruct (decide (de_buf de = [])) as [Hb|Hb].
    { destruct (next_key_empty de Hb) as [e ->]. by apply returns_done. }
    assert (0 < length (de_buf de))%nat by (destruct (de_buf de); [done|simpl; lia]).
    eapply returns_bind; [apply returns_done, next_key_leaves|]. intros k d Hd. cbn [fst snd].
    eapply returns_bind; [apply IH; lia|]. intros x d' Hd'. cbn [fst snd].
    eapply returns_weaken; [|apply IH; rewrite pop_context_buf; lia]. rewrite pop_context_buf. lia.
Qed.

(** The parser returns on every input, a value or an error: twice the length
    of the input bounds its recursion, and what it leaves is shorter than the
    input. *)
Theorem from_bytes_terminates buf :
  exists r, from_bytes_with_rest atoi_i64 atoi_usize buf = Done r /\
    forall v rest, r = Ok (v, rest) -> (length rest < length buf)%nat.
Proof.
  unfold from_bytes_with_rest, parse_fuel.
  destruct (parse_total_aux (2 * length buf + 1) (new_from_buf buf)) as (Hv & _ & _).
  destruct Hv as (r & Hr & Hl); [simpl; lia|]. rewrite Hr. rsimpl.
  destruct r as [[v de]|[e de]]; eexists; (split; [done|]); [|done]. intros v' rest [= <- <-].
  cbn [leaves de_buf new_from_buf] in Hl. destruct buf as [|c b]; [|simpl in *; lia].
  by rewrite parse_value_empty in Hr by (done || simpl; lia).
Qed.
End total.

(** ** Maps in order *)

Lemma bytes_ltb_irrefl a : bytes_ltb a a = false.
Proof. induction a as [|x a IH]; [done|]. simpl. by rewrite Z.ltb_irrefl. Qed.

Lemma bytes_ltb_trans a : forall b c, bytes_ltb a b = true -> bytes_ltb b c = true -> bytes_ltb a c = true.
Proof.
  induction a as [|x a IH]; intros [|y b] [|z c]; simpl; try done. bcases; try done; try lia. apply IH.
Qed.

Lemma bytes_ltb_total a : forall b, bytes_ltb a b = false -> bytes_ltb b a = false -> a = b.
Proof.
  induction a as [|x a IH]; intros [|y b]; simpl; try done. bcases; try done; try lia.
  intros Hab Hba. f_equal; [lia|]. by apply IH.
Qed.

(** The keys of a [BTreeMap] increase. *)
Definition bt_sorted {V} (m : list (list Z * V)) : Prop :=
  StronglySorted (fun a b => bytes_ltb a.1 b.1 = true) m.

Lemma bt_insert_keys {V} k (v : V) m kv : kv ∈ bt_insert k v m -> kv = (k, v) \/ kv ∈ m.
Proof.
  induction m as [|[k' v'] m IH]; simpl; [set_solver|].
  destruct (bytes_ltb k k'); [set_solver|]. destruct (bytes_ltb k' k); set_solver.
Qed.

Lemma bt_insert_sorted {V} k (v : V) m : bt_sorted m -> bt_sorted (bt_insert k v m).
Proof.
  unfold bt_sorted. induction 1 as [|[k' v'] m Hm IH Hk]; [by repeat constructor|]. simpl.
  destruct (bytes_ltb k k') eqn:E1; [|destruct (bytes_ltb k' k) eqn:E2].
  - constructor; [by constructor|]. constructor; [done|]. eapply Forall_impl; [exact Hk|].
    intros x Hx. by eapply bytes_ltb_trans.
  - constructor; [done|]. apply Forall_forall. intros x [->|Hx]%bt_insert_keys; [done|].
    rewrite Forall_forall in Hk. by apply Hk.
  - constructor; [done|]. rewrite (bytes_ltb_total k k') by done. exact Hk.
Qed.

Lemma bt_of_sorted_aux {V} (l : list (list Z * V)) : forall m, bt_sorted m ->
  bt_sorted (foldl (fun m kv => bt_insert kv.1 kv.2 m) m l).
Proof. induction l as [|kv l IH]; intros m Hm; [done|]. apply IH. by apply bt_insert_sorted. Qed.

Lemma bt_of_sorted {V} (l : list (list Z * V)) : bt_sorted (bt_of l).
Proof. apply bt_of_sorted_aux. constructor. Qed.

Lemma bt_insert_map {V W} (f : V -> W) k v m :
  bt_insert k (f v) (map (fun kv => (kv.1, f kv.2)) m) = map (fun kv => (kv.1, f kv.2)) (bt_insert k v m).
Proof.
  induction m as [|[k' v'] m IH]; [done|]. simpl.
  destruct (bytes_ltb k k'); [done|]. destruct (bytes_ltb k' k); [|done]. simpl. by rewrite IH.
Qed.

Lemma bt_of_map {V W} (f : V -> W) (l : list (list Z * V)) :
  bt_of (map (fun kv => (kv.1, f kv.2)) l) = map (fun kv => (kv.1, f kv.2)) (bt_of l).
Proof.
  unfold bt_of. change (@nil (list Z * W)) with (map (fun kv : list Z * V => (kv.1, f kv.2)) []) at 1.
  generalize (@nil (list Z * V)). induction l as [|kv l IH]; intros m; [done|]. simpl.
  by rewrite bt_insert_map, IH.
Qed.

(** A sorted map is rebuilt as it is. *)
Lemma bt_insert_last {V} k (v : V) m : (forall kv, kv ∈ m -> bytes_ltb kv.1 k = true) ->
  bt_insert k v m = m ++ [(k, v)].
Proof.
  induction m as [|[k' v'] m IH]; intros Hm; [done|]. simpl.
  assert (Hk : bytes_ltb k' k = true) by (apply (Hm (k', v')); set_solver).
  destruct (bytes_ltb k k') eqn:E.
  { pose proof (bytes_ltb_trans _ _ _ E Hk) as Hf. by rewrite bytes_ltb_irrefl in Hf. }
  rewrite Hk. f_equal. apply IH. intros kv Hin. apply Hm. set_solver.
Qed.

Lemma sorted_app_snoc {V} (m : list (list Z * V)) kv l : bt_sorted (m ++ kv :: l) ->
  forall x, x ∈ m -> bytes_ltb x.1 kv.1 = true.
Proof.
  induction m as [|y m IH]; intros Hs x Hx; [set_solver|]. apply StronglySorted_inv in Hs as [Hs Hy].
  apply elem_of_cons in Hx as [->|Hx]; [|by apply IH]. rewrite Forall_forall in Hy. apply Hy. set_solver.
Qed.

Lemma bt_of_id {V} (l : list (list Z * V)) : bt_sorted l -> bt_of l = l.
Proof.
  intros Hs. unfold bt_of. cut (forall l' m, m ++ l' = l -> foldl (fun m kv => bt_insert kv.1 kv.2 m) m l' = l).
  { intros Hc. by apply (Hc l []). }
  induction l' as [|kv l' IH]; intros m Hl; [by rewrite app_nil_r in Hl|]. simpl.
  rewrite bt_insert_last by (apply (sorted_app_snoc m kv l'); by rewrite Hl). destruct kv as [k v].
  apply IH. by rewrite <- app_assoc.
Qed.

(** A key that is not in a [HashMap] is added to it. *)
Lemma hm_insert_new {V} k (v : V) m : (forall kv, kv ∈ m -> kv.1 <> k) -> hm_insert k v m = m ++ [(k, v)].
Proof.
  induction m as [|[k' v'] m IH]; intros Hm; [done|]. simpl.
  destruct (decide (k = k')) as [->|Hne]; [by destruct (Hm (k', v')); [set_solver|]|].
  f_equal. apply IH. intros kv Hin. apply Hm. set_solver.
Qed.

(** ** Values *)

Section value_ind.
Variable P : BencodeValue -> Prop.
Hypothesis Hbytes : forall b, P (Bytes b).
Hypothesis Hint : forall i, P (Integer i).
Hypothesis Hlist : forall l, Forall P l -> P (List l).
Hypothesis Hdict : forall d, Forall (fun kv => P kv.2) d -> P (Dict d).

Fixpoint value_ind (v : BencodeValue) : P v :=
  match v with
  | Bytes b => Hbytes b
  | Integer i => Hint i
  | List l => Hlist l ((fix go l := match l return Forall P l with
      | [] => Forall_nil_2 P
      | x :: l => Forall_cons_2 P x l (value_ind x) (go l)
      end) l)
  | Dict d => Hdict d ((fix go d := match d return Forall (fun kv => P kv.2) d with
      | [] => Forall_nil_2 _
      | (k, x) :: d => Forall_cons_2 (fun kv => P kv.2) (k, x) d (value_ind x) (go d)
      end) d)
  end.
End value_ind.

(** The value with the entries of its dictionaries in order, which is the same
    for two lists of entries of one map. *)
Fixpoint canon (v : BencodeValue) : BencodeValue :=
  match v with
  | Bytes b => Bytes b
  | Integer i => Integer i
  | List l => List (map canon l)
  | Dict d => Dict (bt_of (map (fun kv => (kv.1, canon kv.2)) d))
  end.

(** Integers are i64 and lengths usize. *)
Fixpoint wf_value (v : BencodeValue) : Prop :=
  match v with
  | Bytes b => Z.of_nat (length b) < U64
  | Integer i => - 9223372036854775808 <= i < 9223372036854775808
  | List l => foldr (fun x p => wf_value x /\ p) True l
  | Dict d => foldr (fun kv p => (Z.of_nat (length kv.1) < U64 /\ wf_value kv.2) /\ p) True d
  end.

(** How deep dictionaries are nested. *)
Fixpoint depth (v : BencodeValue) : nat :=
  match v with
  | Bytes _ | Integer _ => 0%nat
  | List l => foldr (fun x n => Nat.max (depth x) n) 0%nat l
  | Dict d => S (foldr (fun kv n => Nat.max (depth kv.2) n) 0%nat d)
  end.

(** ** Reading back what was written *)

Definition is_digit (c : Z) : bool := (ch_zero <=? c) && (c <=? ch_zero + 9).

(** What [atoi] documents: the longest numeral at the start of the slice, for the
    numbers of a type. *)
Definition atoi_spec (lo hi : Z) (atoi : list Z -> Z * nat) : Prop :=
  forall v rest, lo <= v < hi -> (forall c, head rest = Some c -> is_digit c = false) ->
    atoi (decimal v ++ rest) = (v, length (decimal v)).

Lemma digits_head fuel : forall n acc, (0 < fuel)%nat -> 0 <= n ->
  exists c l, digits fuel n acc = c :: l /\ is_digit c = true /\ (length acc <= length l)%nat.
Proof.
  induction fuel as [|fuel IH]; intros n acc Hf Hn; [lia|]. cbn [digits].
  assert (Hd : is_digit (ch_zero + n mod 10) = true).
  { unfold is_digit. pose proof (Z.mod_pos_bound n 10). bcases; simpl; lia. }
  destruct (n <? 10) eqn:E; [by eexists _, _|]. destruct fuel as [|fuel]; [by eexists _, _|].
  destruct (IH (n / 10) ((ch_zero + n mod 10) :: acc)) as (c & l & -> & Hc & Hl); [lia|apply Z.div_pos; lia|].
  exists c, l. simpl in Hl. split_and!; [done|done|lia].
Qed.

Lemma decimal_head n : 0 <= n -> exists c l, decimal n = c :: l /\ is_digit c = true.
Proof.
  intros Hn. unfold decimal. destruct (Z.ltb_spec n 0); [lia|].
  destruct (digits_head 20 n []) as (c & l & -> & Hc & _); [lia|lia|]. by eexists _, _.
Qed.

Lemma decimal_nonempty n : (0 < length (decimal n))%nat.
Proof.
  unfold decimal. destruct (Z.ltb_spec n 0); [cbn [length]; lia|].
  destruct (digits_head 20 n []) as (c & l & -> & _); [lia|lia|]. simpl. lia.
Qed.

Lemma write_bytes_head b : exists c l, write_bytes false b = c :: l /\ is_digit c = true.
Proof.
  unfold write_bytes. destruct (decimal_head (Z.of_nat (length b))) as (c & l & -> & Hc); [lia|].
  by eexists _, _.
Qed.

(** No value starts with the end mark. *)
Lemma serialize_head v : exists c l, serialize v = c :: l /\ c <> ch_e.
Proof.
  destruct v; simpl; try (by eexists _, _).
  destruct (write_bytes_head b) as (c & l & -> & Hc). eexists _, _. split; [done|].
  intros ->. done.
Qed.

Section roundtrip.
Variable atoi_i64 : list Z -> Z * nat.
Variable atoi_usize : list Z -> Z * nat.
Hypothesis Hi64 : atoi_spec (- 9223372036854775808) 9223372036854775808 atoi_i64.
Hypothesis Husize : atoi_spec 0 U64 atoi_usize.

Abbreviation parse_value := (parse_value atoi_i64 atoi_usize).
Abbreviation visit_seq := (visit_seq atoi_i64 atoi_usize).
Abbreviation visit_map := (visit_map atoi_i64 atoi_usize).

(** The context of keys has room for [n] more: four in the vector, 255 counted. *)
Definition ctx_room (ctx : list (list Z)) (dnf : Z) (n : nat) : Prop :=
  (length ctx <= 4)%nat /\ 0 <= dnf /\ (0 < dnf -> length ctx = 4%nat) /\
  Z.of_nat (length ctx) + dnf + Z.of_nat n <= 259.

(** The context after a key. *)
Definition push (ctx : list (list Z)) (dnf : Z) (k : list Z) : list (list Z) * Z :=
  if (length ctx <? 4)%nat then (ctx ++ [k], dnf) else (ctx, dnf + 1).

Lemma drop_app_cons (l : list Z) c rest : drop (length l + 1) (l ++ c :: rest) = rest.
Proof.
  rewrite drop_app_ge by lia. by replace (length l + 1 - length l)%nat with 1%nat by lia.
Qed.

Lemma lookup_app_cons (l : list Z) c rest : (l ++ c :: rest) !! length l = Some c.
Proof. rewrite lookup_app_r by lia. by rewrite Nat.sub_diag. Qed.

Lemma parse_bytes_written b rest ctx dnf pk : Z.of_nat (length b) < U64 ->
  parse_bytes atoi_usize (mkDe (write_bytes false b ++ rest) ctx dnf pk) =
  Ok (b, if pk then
           if (length ctx <? 4)%nat then mkDe rest (ctx ++ [b]) dnf true
           else mkDe rest ctx (Z.min 255 (dnf + 1)) true
         else mkDe rest ctx dnf false).
Proof.
  intros Hb. unfold parse_bytes. cbn [de_buf]. unfold write_bytes. rewrite <- !app_assoc. cbn [app].
  rewrite Husize; [|lia|by intros c [= <-]]. rewrite lookup_app_cons. rewrite bool_decide_true by done.
  destruct (Nat.ltb_spec 0 (length (decimal (Z.of_nat (length b))))); cbn [andb];
    [|pose proof (decimal_nonempty (Z.of_nat (length b))); lia].
  cbn [with_buf de_buf de_field_context de_field_context_did_not_fit de_parsing_key].
  rewrite drop_app_cons. destruct (Z.ltb_spec (Z.of_nat (length (b ++ rest))) (Z.of_nat (length b))).
  { rewrite length_app in *. lia. }
  rewrite Nat2Z.id, take_app_length, drop_app_length. by destruct pk; [destruct (_ <? 4)%nat|].
Qed.

Lemma next_key_written k rest ctx dnf n : Z.of_nat (length k) < U64 -> ctx_room ctx dnf (S n) ->
  next_key atoi_usize (mkDe (write_bytes false k ++ rest) ctx dnf false) =
  Ok (k, mkDe rest (push ctx dnf k).1 (push ctx dnf k).2 false) /\
  ctx_room (push ctx dnf k).1 (push ctx dnf k).2 n /\
  forall rest', pop_context (mkDe rest' (push ctx dnf k).1 (push ctx dnf k).2 false) =
    mkDe rest' ctx dnf false.
Proof.
  intros Hk (Hl & Hd & Hd4 & Hn). unfold next_key, with_key. cbn [de_buf de_field_context de_field_context_did_not_fit].
  rewrite parse_bytes_written by done. rsimpl. unfold push, ctx_room, pop_context.
  destruct (Nat.ltb_spec (length ctx) 4); cbn [fst snd de_buf de_field_context de_field_context_did_not_fit de_parsing_key].
  - rewrite length_app. simpl length. split_and!; [done|lia|lia|lia|lia|]. intros rest'.
    destruct (Z.ltb_spec 0 dnf); [lia|]. by rewrite removelast_last.
  - split_and!; [by rewrite Z.min_r by lia|lia|lia|lia|lia|]. intros rest'.
    destruct (Z.ltb_spec 0 (dnf + 1)); [|lia]. by rewrite Z.add_simpl_r.
Qed.

(** A value is read back. *)
Definition readable (v : BencodeValue) : Prop := forall fuel rest ctx dnf,
  wf_value v -> ctx_room ctx dnf (depth v) -> (2 * length (serialize v) + 1 <= fuel)%nat ->
  parse_value fuel (mkDe (serialize v ++ rest) ctx dnf false) = Done (Ok (canon v, mkDe rest ctx dnf false)).

Lemma ctx_room_le ctx dnf n m : (n <= m)%nat -> ctx_room ctx dnf m -> ctx_room ctx dnf n.
Proof. unfold ctx_room. intros ? (? & ? & ? & ?). split_and!; [done..|]. lia. Qed.

Lemma serialize_not_end v rest ctx dnf : starts_with_e (mkDe (serialize v ++ rest) ctx dnf false) = false.
Proof.
  unfold starts_with_e. cbn [de_buf]. destruct (serialize_head v) as (c & l & -> & Hc). simpl. by apply Z.eqb_neq.
Qed.

Lemma visit_seq_written l : Forall readable l -> forall fuel rest ctx dnf acc,
  foldr (fun x p => wf_value x /\ p) True l ->
  ctx_room ctx dnf (foldr (fun x n => Nat.max (depth x) n) 0%nat l) ->
  (2 * length (concat (map serialize l)) + 2 <= fuel)%nat ->
  visit_seq fuel (mkDe (concat (map serialize l) ++ ch_e :: rest) ctx dnf false) acc =
  Done (Ok (List (acc ++ map canon l), mkDe rest ctx dnf false)).
Proof.
  induction 1 as [|v l Hv Hl IH]; intros fuel rest ctx dnf acc Hwf Hc Hf; destruct fuel as [|fuel]; [lia| |lia|].
  - cbn. by rewrite app_nil_r.
  - cbn [map concat] in *. rewrite length_app in Hf. cbn [foldr] in Hwf, Hc. destruct Hwf as [Hwv Hwl].
    rewrite visit_seq_S, <- app_assoc, serialize_not_end.
    rewrite Hv; [|done|eapply ctx_room_le; [|exact Hc]; lia|lia]. rsimpl. cbn [fst snd].
    destruct (serialize_head v) as (c & l' & Hsv & _). rewrite Hsv in Hf. cbn [length] in Hf.
    rewrite IH; [by rewrite <- app_assoc|done|eapply ctx_room_le; [|exact Hc]; lia|lia].
Qed.

Definition entry_bytes (kv : list Z * BencodeValue) : list Z := write_bytes false kv.1 ++ serialize kv.2.

Lemma visit_map_written es : Forall (fun kv => readable kv.2) es -> forall fuel rest ctx dnf acc n,
  Forall (fun kv => Z.of_nat (length kv.1) < U64 /\ wf_value kv.2 /\ (depth kv.2 <= n)%nat) es ->
  ctx_room ctx dnf (S n) -> NoDup (map fst acc ++ map fst es) ->
  (2 * length (concat (map entry_bytes es)) + 2 <= fuel)%nat ->
  visit_map fuel (mkDe (concat (map entry_bytes es) ++ ch_e :: rest) ctx dnf false) acc =
  Done (Ok (Dict (acc ++ map (fun kv => (kv.1, canon kv.2)) es), mkDe rest ctx dnf false)).
Proof.
  induction 1 as [|[k v] es Hv Hes IH]; intros fuel rest ctx dnf acc n Hwf Hc Hnd Hf;
    destruct fuel as [|fuel]; [lia| |lia|].
  { cbn. by rewrite app_nil_r. }
  apply Forall_cons in Hwf as [(Hk & Hwv & Hdv) Hwf]. cbn [fst snd] in *.
  cbn [map concat] in *. assert (He : entry_bytes (k, v) = write_bytes false k ++ serialize v) by done.
  rewrite He, !length_app in Hf. rewrite visit_map_S, He, <- !app_assoc.
  destruct (next_key_written k (serialize v ++ concat (map entry_bytes es) ++ ch_e :: rest) ctx dnf n Hk Hc)
    as (Hkey & Hroom & Hpop).
  destruct (write_bytes_head k) as (c & l & Hwb & Hdc).
  assert (Hse : starts_with_e (mkDe (write_bytes false k ++ serialize v ++ concat (map entry_bytes es) ++ ch_e :: rest)
    ctx dnf false) = false).
  { unfold starts_with_e. cbn [de_buf]. rewrite Hwb. simpl. apply Z.eqb_neq. intros ->. done. }
  rewrite Hse, Hkey. rsimpl. cbn [fst snd]. rewrite Hwb in Hf. cbn [length] in Hf.
  rewrite Hv; [|done|eapply ctx_room_le; [exact Hdv|exact Hroom]|lia]. rsimpl. cbn [fst snd]. rewrite Hpop.
  assert (Hfresh : forall kv, kv ∈ acc -> kv.1 <> k).
  { intros kv Hin Heq. apply NoDup_app in Hnd as (_ & Hd & _). apply (Hd kv.1); [|rewrite Heq; cbn; set_solver].
    apply list_elem_of_fmap. by exists kv. }
  rewrite hm_insert_new by done. rewrite (IH fuel rest ctx dnf _ n); [by rewrite <- app_assoc|done|done| |lia].
  rewrite map_app. cbn [map fst]. rewrite <- app_assoc. exact Hnd.
Qed.

Lemma bt_of_elem {V} (d : list (list Z * V)) kv : kv ∈ bt_of d -> kv ∈ d.
Proof.
  unfold bt_of. cut (forall m, kv ∈ foldl (fun m kv => bt_insert kv.1 kv.2 m) m d -> kv ∈ m \/ kv ∈ d).
  { intros Hc Hin. by destruct (Hc [] Hin) as [Hn|]; [apply not_elem_of_nil in Hn|]. }
  induction d as [|[k v] d IH]; intros m Hin; [by left|]. simpl in Hin.
  destruct (IH _ Hin) as [[->|?]%bt_insert_keys|?]; set_solver.
Qed.

Lemma bt_sorted_NoDup {V} (m : list (list Z * V)) : bt_sorted m -> NoDup (map fst m).
Proof.
  induction 1 as [|[k v] m Hm IH Hk]; [constructor|]. simpl. constructor; [|done].
  intros (kv & Heq & Hin)%list_elem_of_fmap. rewrite Forall_forall in Hk. specialize (Hk kv Hin). simpl in *.
  by rewrite Heq, bytes_ltb_irrefl in Hk.
Qed.

Lemma serialize_dict d : serialize (Dict d) = ch_d :: concat (map entry_bytes (bt_of d)) ++ [ch_e].
Proof.
  cbn [serialize]. change (fun kv : list Z * BencodeValue => (write_bytes true kv.1, serialize kv.2))
    with (fun kv : list Z * BencodeValue => (kv.1, serialize kv.2)).
  rewrite bt_of_map. unfold map_end. rewrite map_map. done.
Qed.

Lemma canon_dict d : canon (Dict d) = Dict (map (fun kv => (kv.1, canon kv.2)) (bt_of d)).
Proof. cbn [canon]. by rewrite bt_of_map. Qed.

Lemma wf_dict_entries d : wf_value (Dict d) ->
  Forall (fun kv => Z.of_nat (length kv.1) < U64 /\ wf_value kv.2 /\
    (depth kv.2 <= foldr (fun kv n => Nat.max (depth kv.2) n) 0%nat d)%nat) d.
Proof.
  cbn [wf_value]. induction d as [|kv d IH]; [constructor|]. cbn [foldr]. intros [[Hk Hv] Hd].
  constructor; [split_and!; [done|done|lia]|]. eapply Forall_impl; [by apply IH|].
  intros x (? & ? & ?). split_and!; [done|done|lia].
Qed.

Lemma all_readable v : readable v.
Proof.
  induction v as [b|i|l IH|d IH] using value_ind; intros fuel rest ctx dnf Hwf Hc Hf; destruct fuel as [|fuel]; try lia.
  - cbn [serialize canon] in *. destruct (write_bytes_head b) as (c & l & Hw & Hd).
    rewrite (parse_value_S _ _ _ _ c (l ++ rest)) by (cbn [de_buf]; by rewrite Hw).
    unfold is_digit in Hd. destruct (Z.eqb_spec c ch_d) as [->|]; [done|]. destruct (Z.eqb_spec c ch_i) as [->|]; [done|].
    destruct (Z.eqb_spec c ch_l) as [->|]; [done|]. rewrite parse_bytes_written by done. done.
  - cbn [serialize canon] in *. unfold write_number in *.
    rewrite (parse_value_S _ _ _ _ ch_i ((decimal i ++ [ch_e]) ++ rest)) by done.
    change (ch_i =? ch_d) with false. change (ch_i =? ch_i) with true. cbn [andb].
    unfold parse_integer, parse_first_byte. cbn [de_buf app]. rewrite Z.eqb_refl. rsimpl.
    cbn [snd with_buf de_buf]. rewrite <- app_assoc. cbn [app].
    rewrite Hi64; [|exact Hwf|by intros c [= <-]]. rewrite lookup_app_cons, bool_decide_true by done.
    destruct (Nat.ltb_spec 0 (length (decimal i))); [|pose proof (decimal_nonempty i); lia].
    cbn [andb]. rewrite drop_app_cons. done.
  - cbn [serialize] in *. rewrite (parse_value_S _ _ _ _ ch_l ((concat (map serialize l) ++ [ch_e]) ++ rest)) by done.
    change (ch_l =? ch_d) with false. change (ch_l =? ch_i) with false. change (ch_l =? ch_l) with true. cbv iota.
    unfold parse_first_byte. cbn [de_buf app]. rewrite Z.eqb_refl. rsimpl. cbn [snd with_buf de_buf].
    rewrite <- app_assoc. cbn [app].
    change (with_buf (mkDe (ch_l :: concat (map serialize l) ++ ch_e :: rest) ctx dnf false) ?b) with (mkDe b ctx dnf false).
    cbn [length] in Hf. rewrite length_app in Hf. cbn [length] in Hf.
    rewrite visit_seq_written; [done|done|exact Hwf|exact Hc|lia].
  - rewrite serialize_dict in *. rewrite (parse_value_S _ _ _ _ ch_d ((concat (map entry_bytes (bt_of d)) ++ [ch_e]) ++ rest)) by done.
    change (ch_d =? ch_d) with true. cbv iota.
    unfold parse_first_byte. cbn [de_buf app]. rewrite Z.eqb_refl. rsimpl. cbn [snd with_buf de_buf].
    rewrite <- app_assoc. cbn [app].
    cbn [length] in Hf. rewrite length_app in Hf. cbn [length] in Hf.
    assert (Hsub : forall P : list Z * BencodeValue -> Prop, Forall P d -> Forall P (bt_of d)).
    { intros P Hp. rewrite Forall_forall in *. intros kv Hin. by apply Hp, bt_of_elem. }
    rewrite canon_dict.
    change (with_buf (mkDe ?a ctx dnf false) ?b) with (mkDe b ctx dnf false).
    erewrite visit_map_written; [done|by apply Hsub|apply Hsub, wf_dict_entries; exact Hwf|exact Hc| |lia].
    cbn [map app]. apply bt_sorted_NoDup, bt_of_sorted.
Qed.

(** Ordering the entries does not change what is written. *)
Lemma serialize_canon v : serialize (canon v) = serialize v.
Proof.
  induction v as [b|i|l IH|d IH] using value_ind; [done|done| |].
  - cbn [canon serialize]. do 2 f_equal. f_equal. induction IH as [|x l Hx _ IHl]; [done|]. simpl. by rewrite Hx, IHl.
  - rewrite canon_dict, !serialize_dict. rewrite bt_of_id.
    + do 2 f_equal. f_equal. rewrite map_map.
      assert (Hsub : Forall (fun kv => serialize (canon kv.2) = serialize kv.2) (bt_of d)).
      { rewrite Forall_forall in *. intros kv Hin. by apply IH, bt_of_elem. }
      induction Hsub as [|x es Hx _ IHe]; [done|]. cbn [map]. rewrite IHe. f_equal. unfold entry_bytes. cbn [fst snd].
      by rewrite Hx.
    + pose proof (bt_of_sorted d) as Hs. unfold bt_sorted in *.
      induction Hs as [|x m Hm IHm Hx]; [constructor|]. cbn [map]. constructor; [done|].
      apply List.Forall_map. exact Hx.
Qed.

End roundtrip.

(** ** A reader of numbers *)

Fixpoint read_digits (l : list Z) (acc : Z) (n : nat) : Z * nat :=
  match l with
  | c :: r => if is_digit c then read_digits r (acc * 10 + (c - ch_zero)) (S n) else (acc, n)
  | [] => (acc, n)
  end.

Definition read_signed (l : list Z) : Z * nat :=
  match l with
  | c :: r =>
      if c =? ch_minus
      then let '(v, n) := read_digits r 0 0 in if (n =? 0)%nat then (0, 0%nat) else (- v, S n)
      else read_digits l 0 0
  | [] => (0, 0%nat)
  end.

Definition read_unsigned (l : list Z) : Z * nat := read_digits l 0 0.

Definition digit_step (a c : Z) : Z := a * 10 + (c - ch_zero).

Lemma digits_value fuel : forall n acc, 0 <= n < 10 ^ Z.of_nat fuel ->
  foldl digit_step 0 (digits fuel n acc) = foldl digit_step n acc.
Proof.
  induction fuel as [|fuel IH]; intros n acc Hn; [simpl in *; by replace n with 0 by lia|]. cbn [digits].
  pose proof (Z.div_mod n 10). destruct (Z.ltb_spec n 10).
  - simpl. f_equal. unfold digit_step. rewrite Z.mod_small by lia. lia.
  - rewrite IH.
    + simpl. f_equal. unfold digit_step. lia.
    + rewrite Nat2Z.inj_succ, Z.pow_succ_r in Hn by lia. split; [apply Z.div_pos; lia|].
      apply Z.div_lt_upper_bound; lia.
Qed.

Lemma digits_all fuel : forall n acc, 0 <= n -> Forall (fun c => is_digit c = true) acc ->
  Forall (fun c => is_digit c = true) (digits fuel n acc).
Proof.
  induction fuel as [|fuel IH]; intros n acc Hn Ha; [done|]. cbn [digits].
  assert (Hd : is_digit (ch_zero + n mod 10) = true).
  { unfold is_digit. pose proof (Z.mod_pos_bound n 10). bcases; simpl; lia. }
  destruct (n <? 10); [by constructor|]. apply IH; [apply Z.div_pos; lia|by constructor].
Qed.

Lemma read_digits_app l1 : forall l2 acc n, Forall (fun c => is_digit c = true) l1 ->
  (forall c, head l2 = Some c -> is_digit c = false) ->
  read_digits (l1 ++ l2) acc n = (foldl digit_step acc l1, (n + length l1)%nat).
Proof.
  induction l1 as [|c l1 IH]; intros l2 acc n Hd Hl2.
  - destruct l2 as [|c l2]; simpl; [by rewrite Nat.add_0_r|]. rewrite (Hl2 c eq_refl). by rewrite Nat.add_0_r.
  - apply Forall_cons in Hd as [Hc Hd]. simpl. rewrite Hc, IH by done. unfold digit_step at 2. f_equal. lia.
Qed.

Lemma read_unsigned_spec : atoi_spec 0 U64 read_unsigned.
Proof.
  intros v rest Hv Hr. unfold read_unsigned, decimal. destruct (Z.ltb_spec v 0); [lia|].
  rewrite read_digits_app; [|by apply digits_all; [lia|]|done]. rewrite digits_value; [done|].
  change (10 ^ Z.of_nat 20) with 100000000000000000000. lia.
Qed.

Lemma read_signed_spec : atoi_spec (- 9223372036854775808) 9223372036854775808 read_signed.
Proof.
  intros v rest Hv Hr. unfold decimal.
  assert (Hread : forall n, 0 <= n <= 9223372036854775808 ->
    read_digits (digits 20 n [] ++ rest) 0 0 = (n, length (digits 20 n []))).
  { intros n Hn. rewrite read_digits_app; [|by apply digits_all; [lia|]|done]. rewrite digits_value; [done|].
    change (10 ^ Z.of_nat 20) with 100000000000000000000. lia. }
  destruct (Z.ltb_spec v 0).
  - cbn [app read_signed]. rewrite Z.eqb_refl, Hread by lia.
    destruct (digits_head 20 (- v) []) as (c & l & Hd & _); [lia|lia|]. rewrite Hd. cbn [length Nat.eqb].
    f_equal. lia.
  - specialize (Hread v ltac:(lia)). destruct (digits_head 20 v []) as (c & l & Hd & Hc & _); [lia|lia|].
    rewrite Hd in *. cbn [app read_signed] in *. destruct (Z.eqb_spec c ch_minus) as [->|]; [done|]. exact Hread.
Qed.

(** [d1:ai-7e1:bl2:xyi0eee] with its entries the other way round. *)
Definition ex_value : BencodeValue :=
  Dict [([98], List [Bytes [120; 121]; Integer 0]); ([97], Integer (-7))].

