(* ===== verification/Serde.v ===== *)
(** * Serde: reading and writing structures in bencode

    The structures of the protocols are read by code that serde derives, over
    the deserializer of [crates/librtbit-bencode/src/deserialize.rs]: a
    structure is a dictionary, of which known keys are decoded with the type of
    their field, each at most once, and others are skipped ([IgnoredAny]).  A
    decoder is a function of the deserializer; the fields read so far are an
    association list.  A structure is written like the dictionary of its
    fields ([SerializeStruct] of [serialize.rs] keeps a [BTreeMap] as
    [SerializeMap] does), so its encoding is that of a [BencodeValue].

    The context of error messages is kept in the deserializer, but an error is
    returned without it. *)

From Stdlib Require Import Ascii.
From stdpp Require Import strings.
From S2P Require Import Prelude Bencode.

(** A name as bytes. *)
Definition key (s : string) : list Z := (fun c => Z.of_nat (nat_of_ascii c)) <$> String.list_ascii_of_string s.

Inductive DeError :=
| DeSyntax (e : BencodeError)
| InvalidType
| InvalidLength
| InvalidContent
| MissingField (k : list Z)
| DuplicateField (k : list Z).

Abbreviation decoded A := (outcome (result DeError (A * BencodeDeserializer))).
Abbreviation Decoder A := (nat -> BencodeDeserializer -> decoded A).

Definition lift {A} (p : parsed A) : result DeError (A * BencodeDeserializer) :=
  match p with Ok x => Ok x | Err (e, _) => Err (DeSyntax e) end.

(** A decoder and a check of what it gave. *)
Definition de_check {A B} (f : A -> result DeError B) (d : Decoder A) : Decoder B := fun fuel de =>
  r ←?! d fuel de;
  Done (match f r.1 with Ok b => Ok (b, r.2) | Err e => Err e end).

Definition de_fmap {A B} (f : A -> B) : Decoder A -> Decoder B := de_check (fun a => Ok (f a)).

(** [next_element] and [next_key] when the sequence or the map is over. *)
Definition skip_end (de : BencodeDeserializer) : BencodeDeserializer := with_buf de (drop 1 (de_buf de)).

Section decoders.
Variable atoi_i64 : list Z -> Z * nat.
Variable atoi_usize : list Z -> Z * nat.

(** [deserialize_bytes], and [deserialize_i64], [deserialize_u16] and the like,
    which differ in their [atoi]. *)
Definition de_bytes : Decoder (list Z) := fun _ de => Done (lift (parse_bytes atoi_usize de)).
Definition de_int (atoi : list Z -> Z * nat) : Decoder Z := fun _ de => Done (lift (parse_integer atoi de)).

(** [deserialize_ignored_any], which is [deserialize_any], with the visitor
    [IgnoredAny]: also the keys of a map may be anything. *)
Fixpoint skip_value (fuel : nat) (de : BencodeDeserializer) : decoded unit :=
  match fuel with
  | O => Panic
  | S fuel =>
      match head (de_buf de) with
      | None => Done (Err (DeSyntax Eof))
      | Some c =>
          if c =? ch_d then
            r ←?! Done (lift (parse_first_byte de ch_d InvalidValue));
            skip_map fuel r.2
          else if c =? ch_i then
            r ←?! Done (lift (parse_integer atoi_i64 de));
            Done (Ok (tt, r.2))
          else if c =? ch_l then
            r ←?! Done (lift (parse_first_byte de ch_l InvalidValue));
            skip_seq fuel r.2
          else
            r ←?! Done (lift (parse_bytes atoi_usize de));
            Done (Ok (tt, r.2))
      end
  end
with skip_seq (fuel : nat) (de : BencodeDeserializer) : decoded unit :=
  match fuel with
  | O => Panic
  | S fuel =>
      if starts_with_e de then Done (Ok (tt, skip_end de))
      else
        r ←?! skip_value fuel de;
        skip_seq fuel r.2
  end
with skip_map (fuel : nat) (de : BencodeDeserializer) : decoded unit :=
  match fuel with
  | O => Panic
  | S fuel =>
      if starts_with_e de then Done (Ok (tt, skip_end de))
      else
        k ←?! skip_value fuel (with_key de true);
        r ←?! skip_value fuel (with_key k.2 false);
        skip_map fuel (pop_context r.2)
  end.

(** [deserialize_seq] of a [Vec]. *)
Fixpoint seq_loop {A} (d : Decoder A) (fuel : nat) (de : BencodeDeserializer) (acc : list A) : decoded (list A) :=
  match fuel with
  | O => Panic
  | S fuel =>
      if starts_with_e de then Done (Ok (acc, skip_end de))
      else
        r ←?! d fuel de;
        seq_loop d fuel r.2 (acc ++ [r.1])
  end.

Definition de_seq {A} (d : Decoder A) : Decoder (list A) := fun fuel de =>
  r ←?! Done (lift (parse_first_byte de ch_l InvalidValue));
  seq_loop d fuel r.2 [].

(** ** Structures *)

Definition find {V} (k : list Z) (l : list (list Z * V)) : option V :=
  snd <$> List.find (fun e => bool_decide (e.1 = k)) l.

(** The loop of a derived [visit_map]. *)
Fixpoint struct_loop {V} (fields : list (list Z * Decoder V)) (fuel : nat) (de : BencodeDeserializer) (acc : list (list Z * V)) :
    decoded (list (list Z * V)) :=
  match fuel with
  | O => Panic
  | S fuel =>
      if starts_with_e de then Done (Ok (acc, skip_end de))
      else
        k ←?! Done (lift (next_key atoi_usize de));
        match find k.1 fields with
        | Some d =>
            match find k.1 acc with
            | Some _ => Done (Err (DuplicateField k.1))
            | None =>
                v ←?! d fuel k.2;
                struct_loop fields fuel (pop_context v.2) (acc ++ [(k.1, v.1)])
            end
        | None =>
            v ←?! skip_value fuel k.2;
            struct_loop fields fuel (pop_context v.2) acc
        end
  end.

Definition de_struct {V} (fields : list (list Z * Decoder V)) : Decoder (list (list Z * V)) := fun fuel de =>
  r ←?! Done (lift (parse_first_byte de ch_d InvalidValue));
  struct_loop fields fuel r.2 [].

(** The entries of a structure, without those that [skip_serializing_if] skips. *)
Definition present {V} (l : list (list Z * option V)) : list (list Z * V) := omap (fun e => pair e.1 <$> e.2) l.

(** [SerializeStruct]: the dictionary of the fields. *)
Definition dict (l : list (list Z * option BencodeValue)) : BencodeValue := Dict (present l).

(** A field of a type that is not an [Option]. *)
Definition required {V A} (get : V -> option A) (k : list Z) (st : list (list Z * V)) : result DeError A :=
  match find k st ≫= get with Some a => Ok a | None => Err (MissingField k) end.

Definition optional {V A} (get : V -> option A) (k : list Z) (st : list (list Z * V)) : option A := find k st ≫= get.

(** [from_bytes_with_rest] and [from_bytes]. *)
Definition decode_with_rest {A} (d : Decoder A) (buf : list Z) : outcome (result DeError (A * list Z)) :=
  r ←?! d (parse_fuel buf) (new_from_buf buf);
  Done (Ok (r.1, de_buf r.2)).

Definition decode {A} (d : Decoder A) (buf : list Z) : outcome (result DeError A) :=
  r ←?! decode_with_rest d buf;
  if (0 <? length r.2)%nat then Done (Err (DeSyntax (BytesRemaining (length r.2))))
  else Done (Ok r.1).
End decoders.

Lemma find_elem {V} k (l : list (list Z * V)) v : find k l = Some v -> (k, v) ∈ l.
Proof.
  unfold find. destruct (List.find _ l) as [[k' v']|] eqn:E; [|done]. intros [= <-].
  apply find_some in E as [Hin Hk]. apply bool_decide_eq_true in Hk. cbn in Hk. subst. by apply list_elem_of_In.
Qed.

Lemma present_keys {V} (l : list (list Z * option V)) : (present l).*1 `sublist_of` l.*1.
Proof. induction l as [|[k [v|]] l IH]; cbn; by constructor. Qed.

Lemma present_NoDup {V} (l : list (list Z * option V)) : NoDup l.*1 -> NoDup (present l).*1.
Proof. intros Hl. by eapply sublist_NoDup; [exact Hl|apply present_keys]. Qed.

Lemma find_present {V} k (l : list (list Z * option V)) : NoDup l.*1 -> find k (present l) = find k l ≫= id.
Proof.
  induction l as [|[k' o] l IH]; [done|]. intros Hn. cbn in Hn. apply NoDup_cons in Hn as [Hk Hl]. specialize (IH Hl).
  change (present ((k', o) :: l)) with (match pair k' <$> o with Some e => e :: present l | None => present l end).
  assert (Hc : forall {W} (v : W) m, find k ((k', v) :: m) = if bool_decide (k' = k) then Some v else find k m).
  { intros W v m. unfold find. cbn [List.find fst]. by case_bool_decide. }
  rewrite Hc. destruct o as [v|]; cbn [fmap option_fmap option_map]; [rewrite Hc; by case_bool_decide|].
  case_bool_decide as E; [|done]. subst k'. cbn. destruct (find k (present l)) as [x|] eqn:Ex; [|done]. destruct Hk.
  apply find_elem in Ex. apply (list_elem_of_fmap_2 fst) in Ex. by eapply elem_of_sublist; [exact Ex|apply present_keys].
Qed.

(** ** Every input is decoded *)

Definition leaves_d {A} (n : nat) (r : result DeError (A * BencodeDeserializer)) : Prop :=
  match r with Ok (_, de) => (length (de_buf de) <= n)%nat | Err _ => True end.

Definition returns_d {A} (n : nat) (o : decoded A) : Prop := exists r, o = Done r /\ leaves_d n r.

Definition fails {A} (o : decoded A) : Prop := exists e, o = Done (Err e).

(** Twice the bytes left is fuel enough, and one of them is read. *)
Definition total_de {A} (d : Decoder A) : Prop := forall fuel de, (2 * length (de_buf de) + 1 <= fuel)%nat ->
  returns_d (length (de_buf de) - 1) (d fuel de) /\ (de_buf de = [] -> fails (d fuel de)).

Lemma lift_leaves {A} n (p : parsed A) : leaves n p -> returns_d n (Done (lift p)).
Proof. intros Hp. exists (lift p). split; [done|]. by destruct p as [[a de]|[e de]]. Qed.

Lemma returns_d_bind {A B} n m (o : decoded A) (k : A * BencodeDeserializer -> decoded B) :
  returns_d m o -> (forall a de, (length (de_buf de) <= m)%nat -> returns_d n (k (a, de))) -> returns_d n (x ←?! o; k x).
Proof. intros (r & -> & Hr) Hk. destruct r as [[a de]|e]; cbn [try_bind]; [by apply Hk|]. by eexists. Qed.

Lemma returns_d_weaken {A} n m (o : decoded A) : (n <= m)%nat -> returns_d n o -> returns_d m o.
Proof. intros Hnm (r & -> & Hr). exists r. split; [done|]. destruct r as [[a de]|]; cbn in *; lia || done. Qed.

Lemma returns_d_err {A} n e : returns_d n (Done (Err e : result DeError (A * BencodeDeserializer))).
Proof. by eexists. Qed.

Lemma returns_d_ok {A} n (a : A) de : (length (de_buf de) <= n)%nat -> returns_d n (Done (Ok (a, de))).
Proof. intros ?. by eexists. Qed.

Lemma skip_end_leaves {A} n (a : A) de : (length (de_buf de) <= n)%nat -> returns_d n (Done (Ok (a, skip_end de))).
Proof. intros ?. apply returns_d_ok. cbn. rewrite length_drop. lia. Qed.

Section totals.
Variable atoi_i64 : list Z -> Z * nat.
Variable atoi_usize : list Z -> Z * nat.

Lemma parse_bytes_empty de : de_buf de = [] -> exists e, parse_bytes atoi_usize de = Err e.
Proof. intros Hb. unfold parse_bytes. rewrite Hb. destruct (atoi_usize []). rewrite lookup_nil, andb_false_r. by eexists. Qed.

Lemma fails_lift {A} (p : parsed A) : (exists e, p = Err e) -> fails (Done (lift p)).
Proof. intros [[e de] ->]. by eexists. Qed.

Lemma total_bytes : total_de (de_bytes atoi_usize).
Proof. intros fuel de _. split; [apply lift_leaves, parse_bytes_leaves|]. intros Hb. by apply fails_lift, parse_bytes_empty. Qed.

Lemma parse_first_empty de c err : de_buf de = [] -> exists e, parse_first_byte de c err = Err e.
Proof. intros Hb. rewrite (proj2 (parse_first_byte_leaves de c err) Hb). by eexists. Qed.

Lemma total_int atoi : total_de (de_int atoi).
Proof.
  intros fuel de _. split; [apply lift_leaves, parse_integer_leaves|]. intros Hb. apply fails_lift. unfold parse_integer.
  destruct (parse_first_empty de ch_i InvalidValue Hb) as [e ->]. by eexists.
Qed.

Lemma total_check {A B} (f : A -> result DeError B) d : total_de d -> total_de (de_check f d).
Proof.
  intros Hd fuel de Hf. destruct (Hd fuel de Hf) as [Hr He]. unfold de_check. split.
  - eapply returns_d_bind; [exact Hr|]. intros a de' Hl. cbn [fst snd]. destruct (f a); [by apply returns_d_ok|apply returns_d_err].
  - intros Hb. destruct (He Hb) as [e ->]. by eexists.
Qed.

Lemma total_first c de {A} n (k : unit * BencodeDeserializer -> decoded A) :
  (forall de', (length (de_buf de') <= length (de_buf de) - 1)%nat -> returns_d n (k (tt, de'))) ->
  returns_d n (r ←?! Done (lift (parse_first_byte de c InvalidValue)); k r).
Proof.
  intros Hk. eapply returns_d_bind; [apply lift_leaves, parse_first_byte_leaves|]. intros [] de' Hl. by apply Hk.
Qed.

Lemma skip_seq_S fuel de : skip_seq atoi_i64 atoi_usize (S fuel) de =
  if starts_with_e de then Done (Ok (tt, skip_end de))
  else r ←?! skip_value atoi_i64 atoi_usize fuel de; skip_seq atoi_i64 atoi_usize fuel r.2.
Proof. done. Qed.

Lemma skip_map_S fuel de : skip_map atoi_i64 atoi_usize (S fuel) de =
  if starts_with_e de then Done (Ok (tt, skip_end de))
  else
    k ←?! skip_value atoi_i64 atoi_usize fuel (with_key de true);
    r ←?! skip_value atoi_i64 atoi_usize fuel (with_key k.2 false);
    skip_map atoi_i64 atoi_usize fuel (pop_context r.2).
Proof. done. Qed.

Lemma skip_value_empty fuel de : (0 < fuel)%nat -> de_buf de = [] -> skip_value atoi_i64 atoi_usize fuel de = Done (Err (DeSyntax Eof)).
Proof. intros Hf Hb. destruct fuel; [lia|]. cbn [skip_value]. by rewrite Hb. Qed.

Lemma skip_total_aux fuel : forall de,
  ((2 * length (de_buf de) + 1 <= fuel)%nat -> returns_d (length (de_buf de) - 1) (skip_value atoi_i64 atoi_usize fuel de)) /\
  ((2 * length (de_buf de) + 2 <= fuel)%nat -> returns_d (length (de_buf de)) (skip_seq atoi_i64 atoi_usize fuel de)) /\
  ((2 * length (de_buf de) + 2 <= fuel)%nat -> returns_d (length (de_buf de)) (skip_map atoi_i64 atoi_usize fuel de)).
Proof.
  induction fuel as [|fuel IH]; intros de; [split_and!; intros; lia|]. split_and!; intros Hf.
  - cbn [skip_value]. destruct (de_buf de) as [|c b] eqn:Hb; cbn [head]; [apply returns_d_err|]. rewrite <- Hb in *.
    assert (0 < length (de_buf de))%nat by (rewrite Hb; cbn; lia).
    destruct (c =? ch_d); [|destruct (c =? ch_i); [|destruct (c =? ch_l)]].
    + apply total_first. intros de' Hl. cbn [snd]. eapply returns_d_weaken; [exact Hl|]. apply IH. lia.
    + eapply returns_d_bind; [apply lift_leaves, parse_integer_leaves|]. intros a de' Hl. by apply returns_d_ok.
    + apply total_first. intros de' Hl. cbn [snd]. eapply returns_d_weaken; [exact Hl|]. apply IH. lia.
    + eapply returns_d_bind; [apply lift_leaves, parse_bytes_leaves|]. intros a de' Hl. by apply returns_d_ok.
  - rewrite skip_seq_S. destruct (starts_with_e de); [by apply skip_end_leaves|].
    destruct (decide (de_buf de = [])) as [Hb|Hb]; [rewrite skip_value_empty by (done || lia); apply returns_d_err|].
    assert (0 < length (de_buf de))%nat by (destruct (de_buf de); [done|cbn; lia]).
    eapply returns_d_bind; [apply IH; lia|]. intros a de' Hl. cbn [snd]. eapply returns_d_weaken; [|apply IH; lia]. lia.
  - rewrite skip_map_S. destruct (starts_with_e de); [by apply skip_end_leaves|].
    destruct (decide (de_buf de = [])) as [Hb|Hb]; [rewrite skip_value_empty by (done || lia); apply returns_d_err|].
    assert (0 < length (de_buf de))%nat by (destruct (de_buf de); [done|cbn; lia]).
    eapply returns_d_bind; [apply (IH (with_key de true)); cbn; lia|]. intros a de' Hl. cbn [snd de_buf with_key] in *.
    eapply returns_d_bind; [apply (IH (with_key de' false)); cbn; lia|]. intros a' de'' Hl'. cbn [snd de_buf with_key] in *.
    eapply returns_d_weaken; [|apply IH; rewrite pop_context_buf; lia]. rewrite pop_context_buf. lia.
Qed.

Lemma total_skip : total_de (skip_value atoi_i64 atoi_usize).
Proof.
  intros fuel de Hf. split; [by apply skip_total_aux|]. intros Hb. eexists. by apply skip_value_empty; [lia|].
Qed.

Lemma seq_loop_total {A} (d : Decoder A) : total_de d -> forall fuel de acc, (2 * length (de_buf de) + 2 <= fuel)%nat ->
  returns_d (length (de_buf de)) (seq_loop d fuel de acc).
Proof.
  intros Hd. induction fuel as [|fuel IH]; intros de acc Hf; [lia|]. cbn [seq_loop].
  destruct (starts_with_e de); [by apply skip_end_leaves|]. destruct (Hd fuel de) as [Hr He]; [lia|].
  destruct (decide (de_buf de = [])) as [Hb|Hb]; [destruct (He Hb) as [e ->]; apply returns_d_err|].
  assert (0 < length (de_buf de))%nat by (destruct (de_buf de); [done|cbn; lia]).
  eapply returns_d_bind; [exact Hr|]. intros a de' Hl. cbn [fst snd]. eapply returns_d_weaken; [|apply IH; lia]. lia.
Qed.

Lemma total_seq {A} (d : Decoder A) : total_de d -> total_de (de_seq d).
Proof.
  intros Hd fuel de Hf. unfold de_seq. split.
  - destruct (decide (de_buf de = [])) as [Hb|Hb].
    { destruct (parse_first_empty de ch_l InvalidValue Hb) as [[e de'] ->]. apply returns_d_err. }
    assert (0 < length (de_buf de))%nat by (destruct (de_buf de); [done|cbn; lia]).
    apply total_first. intros de' Hl. cbn [snd]. eapply returns_d_weaken; [exact Hl|]. apply seq_loop_total; [done|lia].
  - intros Hb. destruct (parse_first_empty de ch_l InvalidValue Hb) as [[e de'] ->]. by eexists.
Qed.

Lemma struct_loop_total {V} (fields : list (list Z * Decoder V)) : Forall (fun f => total_de f.2) fields ->
  forall fuel de acc, (2 * length (de_buf de) + 2 <= fuel)%nat ->
  returns_d (length (de_buf de)) (struct_loop atoi_i64 atoi_usize fields fuel de acc).
Proof.
  intros Hfs. induction fuel as [|fuel IH]; intros de acc Hf; [lia|]. cbn [struct_loop].
  destruct (starts_with_e de); [by apply skip_end_leaves|].
  destruct (decide (de_buf de = [])) as [Hb|Hb].
  { destruct (next_key_empty atoi_usize de Hb) as [[e de'] ->]. apply returns_d_err. }
  assert (0 < length (de_buf de))%nat by (destruct (de_buf de); [done|cbn; lia]).
  eapply returns_d_bind; [apply lift_leaves, next_key_leaves|]. intros k de' Hl. cbn [fst snd].
  assert (Hgo : forall {A} (d : Decoder A) (g : A -> list (list Z * V)), total_de d ->
    returns_d (length (de_buf de)) (v ←?! d fuel de'; struct_loop atoi_i64 atoi_usize fields fuel (pop_context v.2) (g v.1))).
  { intros A d g Hd. eapply returns_d_bind; [apply Hd; lia|]. intros v de'' Hl'. cbn [fst snd].
    eapply returns_d_weaken; [|apply IH; rewrite pop_context_buf; lia]. rewrite pop_context_buf. lia. }
  destruct (find k fields) as [d|] eqn:Ef.
  - destruct (find k acc); [apply returns_d_err|]. apply (Hgo V d (fun v => acc ++ [(k, v)])).
    rewrite Forall_forall in Hfs. by apply (Hfs (k, d)), find_elem.
  - apply (Hgo unit _ (fun _ => acc) total_skip).
Qed.

Lemma total_struct {V} (fields : list (list Z * Decoder V)) : Forall (fun f => total_de f.2) fields ->
  total_de (de_struct atoi_i64 atoi_usize fields).
Proof.
  intros Hfs fuel de Hf. unfold de_struct. split.
  - destruct (decide (de_buf de = [])) as [Hb|Hb].
    { destruct (parse_first_empty de ch_d InvalidValue Hb) as [[e de'] ->]. apply returns_d_err. }
    assert (0 < length (de_buf de))%nat by (destruct (de_buf de); [done|cbn; lia]).
    apply total_first. intros de' Hl. cbn [snd]. eapply returns_d_weaken; [exact Hl|]. apply struct_loop_total; [done|lia].
  - intros Hb. destruct (parse_first_empty de ch_d InvalidValue Hb) as [[e de'] ->]. by eexists.
Qed.

Lemma decode_rest_total {A} (d : Decoder A) buf : total_de d -> exists r, decode_with_rest d buf = Done r.
Proof.
  intros Hd. unfold decode_with_rest, parse_fuel. destruct (Hd (2 * length buf + 1)%nat (new_from_buf buf)) as [(r & -> & _) _]; [cbn; lia|].
  destruct r as [[a de]|e]; by eexists.
Qed.

Lemma decode_total {A} (d : Decoder A) buf : total_de d -> exists r, decode d buf = Done r.
Proof.
  intros Hd. unfold decode. destruct (decode_rest_total d buf Hd) as [[[a rest]|e] ->]; cbn [try_bind]; [|by eexists].
  destruct (_ <? _)%nat; by eexists.
Qed.
End totals.

(** ** Reading back what was written *)
Section reads.
Variable atoi_i64 : list Z -> Z * nat.
Variable atoi_usize : list Z -> Z * nat.
Hypothesis Hi64 : atoi_spec (- 9223372036854775808) 9223372036854775808 atoi_i64.
Hypothesis Husize : atoi_spec 0 U64 atoi_usize.
Local Abbreviation skip := (skip_value atoi_i64 atoi_usize).

(** [d] reads [a] off the encoding of [v]. *)
Definition reads {A} (d : Decoder A) (v : BencodeValue) (a : A) : Prop := forall fuel rest ctx dnf,
  ctx_room ctx dnf (depth v) -> (2 * length (serialize v) + 1 <= fuel)%nat ->
  d fuel (mkDe (serialize v ++ rest) ctx dnf false) = Done (Ok (a, mkDe rest ctx dnf false)).

Lemma reads_bytes b : Z.of_nat (length b) < U64 -> reads (de_bytes atoi_usize) (Bytes b) b.
Proof. intros Hb fuel rest ctx dnf _ _. unfold de_bytes. cbn [serialize]. by rewrite parse_bytes_written. Qed.

Lemma parse_integer_written lo hi atoi i rest ctx dnf : atoi_spec lo hi atoi -> lo <= i < hi ->
  parse_integer atoi (mkDe (write_number i ++ rest) ctx dnf false) = Ok (i, mkDe rest ctx dnf false).
Proof.
  intros Ha Hi. unfold parse_integer, parse_first_byte, write_number. cbn [de_buf app]. rewrite Z.eqb_refl. rsimpl.
  cbn [snd with_buf de_buf]. rewrite <- app_assoc. cbn [app]. rewrite Ha; [|done|by intros c [= <-]].
  rewrite lookup_app_cons, bool_decide_true by done.
  destruct (Nat.ltb_spec 0 (length (decimal i))); [|pose proof (decimal_nonempty i); lia]. cbn [andb]. by rewrite drop_app_cons.
Qed.

Lemma reads_int lo hi atoi i : atoi_spec lo hi atoi -> lo <= i < hi -> reads (de_int atoi) (Integer i) i.
Proof. intros Ha Hi fuel rest ctx dnf _ _. unfold de_int. cbn [serialize]. by rewrite (parse_integer_written lo hi). Qed.

Lemma reads_check {A B} (f : A -> result DeError B) d v a b : reads d v a -> f a = Ok b -> reads (de_check f d) v b.
Proof. intros Hd Hf fuel rest ctx dnf Hc Hl. unfold de_check. rewrite Hd by done. cbn [try_bind fst snd]. by rewrite Hf. Qed.

(** A first byte that is expected. *)
Lemma first_byte_read c rest ctx dnf : parse_first_byte (mkDe (c :: rest) ctx dnf false) c InvalidValue = Ok (tt, mkDe rest ctx dnf false).
Proof. unfold parse_first_byte. cbn [de_buf]. by rewrite Z.eqb_refl. Qed.

Lemma end_read rest ctx dnf : starts_with_e (mkDe (ch_e :: rest) ctx dnf false) = true /\
  skip_end (mkDe (ch_e :: rest) ctx dnf false) = mkDe rest ctx dnf false.
Proof. done. Qed.

Lemma bytes_not_end b rest ctx dnf : starts_with_e (mkDe (write_bytes false b ++ rest) ctx dnf false) = false.
Proof. apply (serialize_not_end (Bytes b)). Qed.

Lemma seq_loop_written {A} (d : Decoder A) vs l : Forall2 (reads d) vs l -> forall fuel rest ctx dnf acc,
  ctx_room ctx dnf (foldr (fun x n => Nat.max (depth x) n) 0%nat vs) -> (2 * length (concat (map serialize vs)) + 2 <= fuel)%nat ->
  seq_loop d fuel (mkDe (concat (map serialize vs) ++ ch_e :: rest) ctx dnf false) acc = Done (Ok (acc ++ l, mkDe rest ctx dnf false)).
Proof.
  induction 1 as [|v a vs l Hv _ IH]; intros fuel rest ctx dnf acc Hc Hf; (destruct fuel as [|fuel]; [lia|]); cbn [seq_loop].
  - cbn. by rewrite app_nil_r.
  - cbn [map concat foldr] in *. rewrite length_app in Hf. destruct (serialize_head v) as (c & b & Hsv & _).
    rewrite <- app_assoc, serialize_not_end. rewrite Hv; [|eapply ctx_room_le; [|exact Hc]; lia|lia].
    cbn [try_bind fst snd]. rewrite Hsv in Hf. cbn [length] in Hf.
    rewrite IH; [by rewrite <- app_assoc|eapply ctx_room_le; [|exact Hc]; lia|lia].
Qed.

Lemma reads_seq {A} (d : Decoder A) vs l : Forall2 (reads d) vs l -> reads (de_seq d) (List vs) l.
Proof.
  intros Hl fuel rest ctx dnf Hc Hf. unfold de_seq. cbn [serialize app] in *. rewrite <- app_assoc. cbn [app].
  rewrite first_byte_read. cbn [lift try_bind snd]. cbn [length] in Hf. rewrite length_app in Hf.
  by rewrite (seq_loop_written d vs l) by (done || lia).
Qed.

Lemma Ok_pair {E A B} (a a' : A) (b b' : B) : (Ok (a, b) : result E (A * B)) = Ok (a', b') -> a = a' /\ b = b'.
Proof. by intros [= -> ->]. Qed.

(** The value of a key is skipped with the key. *)
Lemma skip_key_written k rest ctx dnf n fuel : Z.of_nat (length k) < U64 -> ctx_room ctx dnf (S n) -> (0 < fuel)%nat ->
  exists de, skip fuel (with_key (mkDe (write_bytes false k ++ rest) ctx dnf false) true) = Done (Ok (tt, de)) /\
    with_key de false = mkDe rest (push ctx dnf k).1 (push ctx dnf k).2 false.
Proof.
  intros Hk Hc Hf. destruct (next_key_written atoi_usize Husize k rest ctx dnf n Hk Hc) as (E & _ & _).
  unfold next_key in E. destruct (parse_bytes atoi_usize (with_key (mkDe (write_bytes false k ++ rest) ctx dnf false) true)) as [[b de]|] eqn:Ep;
    [|done]. cbn [result_bind fst snd] in E. apply Ok_pair in E as [-> E]. exists de. split; [|done].
  destruct fuel as [|fuel]; [lia|]. cbn [skip_value]. destruct (write_bytes_head k) as (c & l & Hw & Hd).
  cbn [with_key de_buf] in *. rewrite Hw in *. cbn [app head] in *. unfold is_digit in Hd.
  destruct (Z.eqb_spec c ch_d) as [->|]; [done|]. destruct (Z.eqb_spec c ch_i) as [->|]; [done|].
  destruct (Z.eqb_spec c ch_l) as [->|]; [done|]. by rewrite Ep.
Qed.

Lemma skip_seq_written l : Forall (fun v => wf_value v -> reads skip v tt) l -> forall fuel rest ctx dnf,
  foldr (fun x p => wf_value x /\ p) True l -> ctx_room ctx dnf (foldr (fun x n => Nat.max (depth x) n) 0%nat l) ->
  (2 * length (concat (map serialize l)) + 2 <= fuel)%nat ->
  skip_seq atoi_i64 atoi_usize fuel (mkDe (concat (map serialize l) ++ ch_e :: rest) ctx dnf false) = Done (Ok (tt, mkDe rest ctx dnf false)).
Proof.
  induction 1 as [|v l Hv _ IH]; intros fuel rest ctx dnf Hwf Hc Hf; (destruct fuel as [|fuel]; [lia|]); rewrite skip_seq_S; [done|].
  cbn [map concat foldr] in *. rewrite length_app in Hf. destruct Hwf as [Hwv Hwl]. destruct (serialize_head v) as (c & b & Hsv & _).
  rewrite <- app_assoc, serialize_not_end. rewrite (Hv Hwv); [|eapply ctx_room_le; [|exact Hc]; lia|lia].
  cbn [try_bind fst snd]. rewrite Hsv in Hf. cbn [length] in Hf. apply IH; [done|eapply ctx_room_le; [|exact Hc]; lia|lia].
Qed.

Lemma skip_map_written es : Forall (fun kv => wf_value kv.2 -> reads skip kv.2 tt) es -> forall fuel rest ctx dnf n,
  Forall (fun kv => Z.of_nat (length kv.1) < U64 /\ wf_value kv.2 /\ (depth kv.2 <= n)%nat) es -> ctx_room ctx dnf (S n) ->
  (2 * length (concat (map entry_bytes es)) + 2 <= fuel)%nat ->
  skip_map atoi_i64 atoi_usize fuel (mkDe (concat (map entry_bytes es) ++ ch_e :: rest) ctx dnf false) = Done (Ok (tt, mkDe rest ctx dnf false)).
Proof.
  induction 1 as [|[k v] es Hv _ IH]; intros fuel rest ctx dnf n Hwf Hc Hf; (destruct fuel as [|fuel]; [lia|]); rewrite skip_map_S; [done|].
  apply Forall_cons in Hwf as [(Hk & Hwv & Hdv) Hwf]. cbn [map concat fst snd] in *.
  change (entry_bytes (k, v)) with (write_bytes false k ++ serialize v) in *. rewrite !length_app in Hf. rewrite <- !app_assoc, bytes_not_end.
  destruct (skip_key_written k (serialize v ++ concat (map entry_bytes es) ++ ch_e :: rest) ctx dnf n fuel Hk Hc) as (de & Es & Ed); [lia|].
  rewrite Es. cbn [try_bind fst snd]. rewrite Ed.
  destruct (next_key_written atoi_usize Husize k [] ctx dnf n Hk Hc) as (_ & Hroom & Hpop).
  destruct (write_bytes_head k) as (c & l & Hwb & _). rewrite Hwb in Hf. cbn [length] in Hf.
  rewrite (Hv Hwv); [|by eapply ctx_room_le|lia]. cbn [try_bind fst snd]. rewrite Hpop. apply (IH _ _ _ _ n); [done|done|lia].
Qed.

Lemma reads_skip v : wf_value v -> reads skip v tt.
Proof.
  induction v as [b|i|l IH|d IH] using value_ind; intros Hwf fuel rest ctx dnf Hc Hf; (destruct fuel as [|fuel]; [lia|]); cbn [skip_value].
  - cbn [serialize] in *. destruct (write_bytes_head b) as (c & l & Hw & Hd). cbn [de_buf].
    pose proof (parse_bytes_written atoi_usize Husize b rest ctx dnf false Hwf) as Hp. rewrite Hw in *. cbn [app head] in *.
    unfold is_digit in Hd. destruct (Z.eqb_spec c ch_d) as [->|]; [done|]. destruct (Z.eqb_spec c ch_i) as [->|]; [done|].
    destruct (Z.eqb_spec c ch_l) as [->|]; [done|]. by rewrite Hp.
  - cbn [serialize] in *. change (head (de_buf (mkDe (write_number i ++ rest) ctx dnf false))) with (Some ch_i). cbv iota.
    change (ch_i =? ch_d) with false. change (ch_i =? ch_i) with true. cbv iota.
    rewrite (parse_integer_written _ _ _ _ _ _ _ Hi64) by exact Hwf. done.
  - cbn [serialize] in *. cbn [length] in Hf. rewrite length_app in Hf. cbn [length] in Hf. cbn [app de_buf head].
    change (ch_l =? ch_d) with false. change (ch_l =? ch_i) with false. change (ch_l =? ch_l) with true. cbv iota.
    rewrite first_byte_read. cbn [lift try_bind snd]. rewrite <- app_assoc. cbn [app]. apply skip_seq_written; [done|exact Hwf|exact Hc|lia].
  - rewrite serialize_dict in *. cbn [length] in Hf. rewrite length_app in Hf. cbn [length] in Hf. cbn [app de_buf head].
    change (ch_d =? ch_d) with true. cbv iota. rewrite first_byte_read. cbn [lift try_bind snd]. rewrite <- app_assoc. cbn [app].
    cbn [depth] in Hc. pose proof (wf_dict_entries d Hwf) as He. eapply skip_map_written; [| |exact Hc|lia].
    + apply Forall_forall. intros kv Hkv. rewrite Forall_forall in IH. by apply IH, (bt_of_elem _ _ Hi64 Husize).
    + apply Forall_forall. intros kv Hkv. rewrite Forall_forall in He. by apply He, (bt_of_elem _ _ Hi64 Husize).
Qed.

(** ** Structures *)

Lemma bt_insert_perm {V} k (v : V) m : (forall e, e ∈ m -> e.1 <> k) -> bt_insert k v m ≡ₚ (k, v) :: m.
Proof.
  induction m as [|[k' v'] m IH]; intros Hm; [done|]. cbn [bt_insert]. destruct (bytes_ltb k k') eqn:E1; [done|].
  destruct (bytes_ltb k' k) eqn:E2.
  - rewrite IH by (intros e He; apply Hm; set_solver). constructor.
  - destruct (Hm (k', v')); [set_solver|]. by apply bytes_ltb_total.
Qed.

Lemma bt_of_perm {V} (l : list (list Z * V)) : NoDup l.*1 -> bt_of l ≡ₚ l.
Proof.
  intros Hnd. unfold bt_of. cut (forall l' m : list (list Z * V), NoDup (m ++ l').*1 -> foldl (fun m kv => bt_insert kv.1 kv.2 m) m l' ≡ₚ m ++ l').
  { intros Hc. by apply (Hc l []). }
  induction l' as [|[k v] l' IH]; intros m Hm; cbn [foldl fst snd]; [by rewrite app_nil_r|].
  assert (Hp : bt_insert k v m ≡ₚ (k, v) :: m).
  { apply bt_insert_perm. intros e He <-. rewrite fmap_app in Hm. apply NoDup_app in Hm as (_ & Hd & _).
    apply (Hd e.1); [by apply list_elem_of_fmap_2|]. cbn. left. }
  rewrite IH.
  - rewrite Hp. by rewrite <- Permutation_middle.
  - rewrite fmap_app, (fmap_Permutation fst _ _ Hp), <- fmap_app. rewrite fmap_app. cbn. rewrite fmap_app in Hm. cbn in Hm.
    by rewrite Permutation_middle.
Qed.

Lemma find_perm {V} k (l l' : list (list Z * V)) : NoDup l.*1 -> l ≡ₚ l' -> find k l = find k l'.
Proof.
  intros Hn Hp. assert (Hn' : NoDup l'.*1) by (by rewrite <- (fmap_Permutation fst _ _ Hp)).
  assert (Huniq : forall (m : list (list Z * V)) v, NoDup m.*1 -> (k, v) ∈ m -> find k m = Some v).
  { induction m as [|[k1 v1] m IH]; intros v Hm Hin; [set_solver|]. cbn in Hm. apply NoDup_cons in Hm as [Hk Hm].
    unfold find. cbn [List.find fst]. case_bool_decide as E; cbn.
    - subst. apply elem_of_cons in Hin as [[= ->]|Hin]; [done|]. destruct Hk. by apply (list_elem_of_fmap_2 fst _ (k, v)).
    - apply IH; [done|]. apply elem_of_cons in Hin as [[= -> ->]|Hin]; done. }
  destruct (find k l) as [v|] eqn:E.
  - symmetry. apply Huniq; [done|]. rewrite <- Hp. by apply find_elem.
  - destruct (find k l') as [v|] eqn:E'; [|done]. apply find_elem in E'. rewrite <- Hp in E'. by rewrite (Huniq l v) in E.
Qed.

(** The entries of a structure and what its fields read of them. *)
Definition field_read {V} (fields : list (list Z * Decoder V)) (e : list Z * BencodeValue) (f : list Z * option V) : Prop :=
  e.1 = f.1 /\ Z.of_nat (length e.1) < U64 /\
  match f.2 with
  | Some a => exists d, find e.1 fields = Some d /\ reads d e.2 a
  | None => find e.1 fields = None /\ wf_value e.2
  end.

Lemma struct_loop_written {V} (fields : list (list Z * Decoder V)) es vs : Forall2 (field_read fields) es vs ->
  forall fuel rest ctx dnf acc n, Forall (fun e => (depth e.2 <= n)%nat) es -> ctx_room ctx dnf (S n) -> NoDup (acc.*1 ++ vs.*1) ->
  (2 * length (concat (map entry_bytes es)) + 2 <= fuel)%nat ->
  struct_loop atoi_i64 atoi_usize fields fuel (mkDe (concat (map entry_bytes es) ++ ch_e :: rest) ctx dnf false) acc =
    Done (Ok (acc ++ present vs, mkDe rest ctx dnf false)).
Proof.
  induction 1 as [|[k v] [k' o] es vs (Hkk & Hk & Hr) _ IH]; intros fuel rest ctx dnf acc n Hn Hc Hnd Hf;
    (destruct fuel as [|fuel]; [lia|]); cbn [struct_loop].
  { cbn. by rewrite app_nil_r. }
  cbn [fst snd] in *. subst k'. apply Forall_cons in Hn as [Hdv Hn]. cbn [map concat fst snd fmap list_fmap] in *.
  change (entry_bytes (k, v)) with (write_bytes false k ++ serialize v) in *. rewrite !length_app in Hf. rewrite <- !app_assoc, bytes_not_end.
  destruct (next_key_written atoi_usize Husize k (serialize v ++ concat (map entry_bytes es) ++ ch_e :: rest) ctx dnf n Hk Hc)
    as (-> & Hroom & Hpop). cbn [lift try_bind fst snd].
  destruct (write_bytes_head k) as (c & l & Hwb & _). rewrite Hwb in Hf. cbn [length] in Hf. destruct o as [a|].
  - destruct Hr as (d & -> & Hr). assert (find k acc = None) as ->.
    { destruct (find k acc) as [x|] eqn:E; [|done]. apply find_elem in E. apply NoDup_app in Hnd as (_ & Hx & _).
      exfalso. apply (Hx k); [by apply (list_elem_of_fmap_2 fst _ (k, x))|left]. }
    rewrite Hr; [|by eapply ctx_room_le|lia]. cbn [try_bind fst snd]. rewrite Hpop. rewrite (IH _ _ _ _ _ n); [|done|done| |lia].
    + by rewrite <- app_assoc.
    + rewrite fmap_app. cbn. by rewrite <- app_assoc.
  - destruct Hr as [-> Hwf]. rewrite (reads_skip v Hwf); [|by eapply ctx_room_le|lia]. cbn [try_bind fst snd]. rewrite Hpop.
    rewrite (IH _ _ _ _ _ n); [done|done|done| |lia]. apply NoDup_app in Hnd as (Ha & Hx & Hb). apply NoDup_cons in Hb as [_ Hb].
    apply NoDup_app. split_and!; [done| |done]. intros y Hy Hin. apply (Hx y Hy). by right.
Qed.

(** A structure is read from the dictionary of its fields, whatever their order
    and whatever else is there. *)
Lemma struct_written {V} (fields : list (list Z * Decoder V)) es vs : Forall2 (field_read fields) es vs -> NoDup vs.*1 ->
  forall fuel rest ctx dnf, ctx_room ctx dnf (depth (Dict es)) -> (2 * length (serialize (Dict es)) + 1 <= fuel)%nat ->
  exists st, (forall k, find k st = find k vs ≫= id) /\
    de_struct atoi_i64 atoi_usize fields fuel (mkDe (serialize (Dict es) ++ rest) ctx dnf false) = Done (Ok (st, mkDe rest ctx dnf false)).
Proof.
  intros Hr Hnd fuel rest ctx dnf Hc Hl. assert (Hk : es.*1 = vs.*1).
  { clear -Hr. induction Hr as [|e v es vs [Hk _] _ IH]; [done|]. cbn. by rewrite Hk, IH. }
  assert (Hp : es ≡ₚ bt_of es) by (symmetry; apply bt_of_perm; by rewrite Hk).
  destruct (Permutation_Forall2 Hp Hr) as (vs' & Hpv & Hr').
  exists (present vs'). split; [intros k; rewrite find_present by (by rewrite <- Hpv); by rewrite (find_perm k vs vs')|].
  unfold de_struct. rewrite serialize_dict in *. cbn [app length] in *. rewrite length_app in Hl.
  rewrite <- app_assoc. cbn [app]. rewrite first_byte_read. cbn [lift try_bind fst snd]. cbn [depth] in Hc.
  erewrite (struct_loop_written fields (bt_of es) vs' Hr'); [done| |exact Hc|cbn; by rewrite <- Hpv|lia].
  rewrite <- Hp. clear. induction es as [|e es IH]; constructor; cbn [foldr]; [lia|]. eapply Forall_impl; [exact IH|]. cbn. lia.
Qed.

Lemma reads_struct {V} (fields : list (list Z * Decoder V)) es vs : Forall2 (field_read fields) es vs -> NoDup vs.*1 ->
  forall {B} (f : list (list Z * V) -> result DeError B) b,
  (forall st, (forall k, find k st = find k vs ≫= id) -> f st = Ok b) ->
  reads (de_check f (de_struct atoi_i64 atoi_usize fields)) (Dict es) b.
Proof.
  intros Hr Hnd B f b Hf fuel rest ctx dnf Hc Hl. destruct (struct_written fields es vs Hr Hnd fuel rest ctx dnf Hc Hl) as (st & Hst & Es).
  unfold de_check. rewrite Es. cbn [try_bind fst snd]. by rewrite (Hf st Hst).
Qed.

(** With the fields that are there. *)
Lemma reads_fields {V} (fields : list (list Z * Decoder V)) es vs {B} (f : list (list Z * V) -> result DeError B) b :
  Forall2 (fun e v => e.1 = v.1 /\ Z.of_nat (length e.1) < U64 /\ option_Forall2 (fun x a => exists d, find e.1 fields = Some d /\ reads d x a) e.2 v.2)
    es vs -> NoDup vs.*1 ->
  (forall st, (forall k, find k st = find k vs ≫= id) -> f st = Ok b) ->
  reads (de_check f (de_struct atoi_i64 atoi_usize fields)) (Dict (present es)) b.
Proof.
  intros Hr Hnd Hf. set (some := omap (fun v : list Z * option V => pair v.1 ∘ Some <$> v.2) vs).
  assert (Hsome : present some = present vs) by (subst some; clear; induction vs as [|[k [a|]] vs IH]; cbn; [done|by f_equal|done]).
  assert (Hsub : some.*1 `sublist_of` vs.*1) by (subst some; clear; induction vs as [|[k [a|]] vs IH]; cbn; by constructor).
  apply (reads_struct fields (present es) some).
  - subst some. clear -Hr. induction Hr as [|[k o] [k' o'] es vs (Hk & Hl & Ho) _ IH]; [constructor|]. cbn in *. subst k'.
    destruct Ho as [x a (d & Hd & Hrd)|]; cbn; [|done]. constructor; [|done]. split_and!; [done|done|by exists d].
  - by eapply sublist_NoDup.
  - intros st Hst. apply Hf. intros k. rewrite Hst, <- !find_present; [by rewrite Hsome|done|by eapply sublist_NoDup].
Qed.

Lemma reads_fmap {A B} (f : A -> B) d v a : reads d v a -> reads (de_fmap f d) v (f a).
Proof. intros Hd. by apply (reads_check _ _ _ a). Qed.

Lemma decode_rest_written {A} (d : Decoder A) v a rest : reads d v a -> (depth v <= 4)%nat ->
  decode_with_rest d (serialize v ++ rest) = Done (Ok (a, rest)).
Proof.
  intros Hd Hdep. unfold decode_with_rest, new_from_buf, parse_fuel. rewrite Hd; [done|unfold ctx_room; cbn; lia|rewrite length_app; lia].
Qed.

Lemma decode_written {A} (d : Decoder A) v a : reads d v a -> (depth v <= 4)%nat -> decode d (serialize v) = Done (Ok a).
Proof. intros Hd Hdep. unfold decode. by rewrite <- (app_nil_r (serialize v)), (decode_rest_written d v a []). Qed.
End reads.

(** ** Decoders read whole values *)
Section agree.
Variable atoi_i64 : list Z -> Z * nat.
Variable atoi_usize : list Z -> Z * nat.

(** What [atoi] documents: a number starts with a digit, and where a narrower
    type reads one up to the end mark, so does [i64]. *)
Hypothesis usize_digit : forall b v n, atoi_usize b = (v, n) -> (0 < n)%nat -> exists c, head b = Some c /\ is_digit c = true.
Definition narrower (atoi : list Z -> Z * nat) : Prop :=
  forall b v n, atoi b = (v, n) -> (0 < n)%nat -> b !! n = Some ch_e -> exists v', atoi_i64 b = (v', n).

Local Abbreviation skip := (skip_value atoi_i64 atoi_usize).
Local Abbreviation sseq := (skip_seq atoi_i64 atoi_usize).
Local Abbreviation smap := (skip_map atoi_i64 atoi_usize).

Lemma bind_mono {A B} (o o' : decoded A) (k k' : A * BencodeDeserializer -> decoded B) r :
  (x ←?! o; k x) = Done r -> (forall q, o = Done q -> o' = Done q) -> (forall x q, k x = Done q -> k' x = Done q) -> (x ←?! o'; k' x) = Done r.
Proof.
  intros E Ho Hk. destruct o as [q|]; [|done]. rewrite (Ho q eq_refl). destruct q as [x|e]; cbn [try_bind] in *; [by apply Hk|done].
Qed.

Lemma skip_mono fuel : forall de r,
  (skip fuel de = Done r -> skip (S fuel) de = Done r) /\ (sseq fuel de = Done r -> sseq (S fuel) de = Done r) /\
  (smap fuel de = Done r -> smap (S fuel) de = Done r).
Proof.
  induction fuel as [|fuel IH]; intros de r; [done|]. split_and!.
  - intros E. change (skip (S (S fuel)) de) with
      (match head (de_buf de) with
       | None => Done (Err (DeSyntax Eof))
       | Some c =>
           if c =? ch_d then r ←?! Done (lift (parse_first_byte de ch_d InvalidValue)); smap (S fuel) r.2
           else if c =? ch_i then r ←?! Done (lift (parse_integer atoi_i64 de)); Done (Ok (tt, r.2))
           else if c =? ch_l then r ←?! Done (lift (parse_first_byte de ch_l InvalidValue)); sseq (S fuel) r.2
           else r ←?! Done (lift (parse_bytes atoi_usize de)); Done (Ok (tt, r.2))
       end : decoded unit).
    revert E. cbn [skip_value]. destruct (head (de_buf de)) as [c|]; [|done].
    destruct (c =? ch_d); [|destruct (c =? ch_i); [done|destruct (c =? ch_l); [|done]]];
      intros E; (eapply bind_mono; [exact E|done|]); intros x q Hq; by apply IH.
  - rewrite !skip_seq_S. destruct (starts_with_e de); [done|]. intros E. eapply bind_mono; [exact E|intros q Hq; by apply IH|].
    intros x q Hq. by apply IH.
  - rewrite !skip_map_S. destruct (starts_with_e de); [done|]. intros E. eapply bind_mono; [exact E|intros q Hq; by apply IH|].
    intros x q Hq. eapply bind_mono; [exact Hq|intros q' Hq'; by apply IH|]. intros y q' Hq'. by apply IH.
Qed.

Lemma skip_mono_le f f' de r : (f <= f')%nat ->
  (skip f de = Done r -> skip f' de = Done r) /\ (sseq f de = Done r -> sseq f' de = Done r) /\ (smap f de = Done r -> smap f' de = Done r).
Proof.
  induction 1 as [|f' _ (IH1 & IH2 & IH3)]; [done|]. split_and!; intros E.
  - by apply skip_mono, IH1.
  - by apply skip_mono, IH2.
  - by apply skip_mono, IH3.
Qed.

(** Where a decoder ends, skipping ends. *)
Definition as_skip {A} (d : Decoder A) : Prop := forall fuel de a de', d fuel de = Done (Ok (a, de')) ->
  exists f, skip f de = Done (Ok (tt, de')).

Lemma parse_bytes_skip de b de' : parse_bytes atoi_usize de = Ok (b, de') -> skip 1 de = Done (Ok (tt, de')).
Proof.
  intros E. cbn [skip_value]. assert (exists c, head (de_buf de) = Some c /\ is_digit c = true) as (c & -> & Hd).
  { revert E. unfold parse_bytes. destruct (atoi_usize (de_buf de)) as [v n] eqn:Ea.
    destruct (Nat.ltb_spec 0 n); [|done]. intros _. by eapply usize_digit. }
  unfold is_digit in Hd. destruct (Z.eqb_spec c ch_d) as [->|]; [done|]. destruct (Z.eqb_spec c ch_i) as [->|]; [done|].
  destruct (Z.eqb_spec c ch_l) as [->|]; [done|]. by rewrite E.
Qed.

Lemma lift_Ok {A} (p : parsed A) a de : lift p = Ok (a, de) -> p = Ok (a, de).
Proof. destruct p as [x|[e d]]; [by intros [= ->]|done]. Qed.

Lemma as_skip_bytes : as_skip (de_bytes atoi_usize).
Proof. intros fuel de a de' E. exists 1%nat. eapply parse_bytes_skip, lift_Ok. unfold de_bytes in E. by injection E. Qed.

Lemma as_skip_int atoi : narrower atoi -> as_skip (de_int atoi).
Proof.
  intros Hn fuel de a de' E. exists 1%nat. unfold de_int in E. injection E as E. apply lift_Ok in E.
  revert E. unfold parse_integer, parse_first_byte. destruct (de_buf de) as [|c b] eqn:Eb; [done|].
  destruct (Z.eqb_spec c ch_i) as [->|]; [|done]. cbn [result_bind snd with_buf de_buf].
  destruct (atoi b) as [v n] eqn:Ea. destruct (Nat.ltb_spec 0 n) as [Hn0|]; [|done]. case_bool_decide as Hl; [|done]. cbn [andb].
  destruct (Hn b v n Ea Hn0 Hl) as [v' Ev]. intros [= <- <-]. cbn [skip_value]. rewrite Eb. cbn [head].
  change (ch_i =? ch_d) with false. change (ch_i =? ch_i) with true. cbv iota. unfold parse_integer, parse_first_byte. rewrite Eb.
  rewrite Z.eqb_refl. cbn [result_bind snd with_buf de_buf]. rewrite Ev. destruct (Nat.ltb_spec 0 n); [|lia].
  rewrite bool_decide_true by done. done.
Qed.

Lemma as_skip_check {A B} (f : A -> result DeError B) d : as_skip d -> as_skip (de_check f d).
Proof.
  intros Hd fuel de b de'. unfold de_check. destruct (d fuel de) as [[[a d']|e]|] eqn:E; cbn [try_bind fst snd]; [|done|done].
  destruct (f a); [|done]. intros [= <- <-]. by eapply Hd.
Qed.

Lemma seq_loop_skip {A} (d : Decoder A) : as_skip d -> forall fuel de acc l de',
  seq_loop d fuel de acc = Done (Ok (l, de')) -> exists f, sseq f de = Done (Ok (tt, de')).
Proof.
  intros Hd. induction fuel as [|fuel IH]; intros de acc l de' E; [done|]. cbn [seq_loop] in E.
  destruct (starts_with_e de) eqn:Ee; [injection E as <- <-; exists 1%nat; by rewrite skip_seq_S, Ee|].
  destruct (d fuel de) as [[[a d1]|e]|] eqn:Ed; cbn [try_bind fst snd] in E; [|done|done].
  destruct (Hd _ _ _ _ Ed) as [f1 Hf1]. destruct (IH _ _ _ _ E) as [f2 Hf2]. exists (S (f1 + f2))%nat. rewrite skip_seq_S, Ee.
  rewrite (proj1 (skip_mono_le f1 (f1 + f2) de _ ltac:(lia)) Hf1). cbn [try_bind snd].
  by apply (skip_mono_le f2 (f1 + f2) d1 _ ltac:(lia)).
Qed.

(** After its first byte. *)
Lemma first_skip c de de1 : parse_first_byte de c InvalidValue = Ok (tt, de1) -> head (de_buf de) = Some c.
Proof.
  unfold parse_first_byte. destruct (de_buf de) as [|x b]; [done|]. destruct (Z.eqb_spec x c) as [->|]; [done|done].
Qed.

Lemma as_skip_seq {A} (d : Decoder A) : as_skip d -> as_skip (de_seq d).
Proof.
  intros Hd fuel de l de'. unfold de_seq. destruct (parse_first_byte de ch_l InvalidValue) as [[[] d1]|[e x]] eqn:Ef; cbn [lift try_bind snd]; [|done].
  intros E. destruct (seq_loop_skip d Hd _ _ _ _ _ E) as [f Hf]. exists (S f). cbn [skip_value]. rewrite (first_skip _ _ _ Ef).
  change (ch_l =? ch_d) with false. change (ch_l =? ch_i) with false. change (ch_l =? ch_l) with true. cbv iota. by rewrite Ef.
Qed.

Lemma next_key_skip de k d1 : next_key atoi_usize de = Ok (k, d1) ->
  exists d0, skip 1 (with_key de true) = Done (Ok (tt, d0)) /\ with_key d0 false = d1.
Proof.
  unfold next_key. destruct (parse_bytes atoi_usize (with_key de true)) as [[b d0]|] eqn:Ep; cbn [result_bind fst snd]; [|done].
  intros E. apply Ok_pair in E as [-> <-]. exists d0. split; [by eapply parse_bytes_skip|done].
Qed.

Lemma struct_loop_skip {V} (fields : list (list Z * Decoder V)) : Forall (fun f => as_skip f.2) fields -> forall fuel de acc st de',
  struct_loop atoi_i64 atoi_usize fields fuel de acc = Done (Ok (st, de')) -> exists f, smap f de = Done (Ok (tt, de')).
Proof.
  intros Hfs. induction fuel as [|fuel IH]; intros de acc st de' E; [done|]. cbn [struct_loop] in E.
  destruct (starts_with_e de) eqn:Ee; [injection E as <- <-; exists 1%nat; by rewrite skip_map_S, Ee|].
  destruct (next_key atoi_usize de) as [[k d1]|[e x]] eqn:Ek; cbn [lift try_bind fst snd] in E; [|done].
  destruct (next_key_skip _ _ _ Ek) as (d0 & Hs0 & Hd0).
  assert (Hgo : forall f1 d2 acc', skip f1 d1 = Done (Ok (tt, d2)) -> struct_loop atoi_i64 atoi_usize fields fuel (pop_context d2) acc' = Done (Ok (st, de')) ->
    exists f, smap f de = Done (Ok (tt, de'))).
  { intros f1 d2 acc' Hf1 E2. destruct (IH _ _ _ _ E2) as [f2 Hf2]. exists (S (S (f1 + f2)))%nat. rewrite skip_map_S, Ee.
    rewrite (proj1 (skip_mono_le 1 (S (f1 + f2)) _ _ ltac:(lia)) Hs0). cbn [try_bind snd]. rewrite Hd0.
    rewrite (proj1 (skip_mono_le f1 (S (f1 + f2)) _ _ ltac:(lia)) Hf1). cbn [try_bind snd].
    by apply (skip_mono_le f2 (S (f1 + f2)) _ _ ltac:(lia)). }
  destruct (find k fields) as [d|] eqn:Efd.
  - destruct (find k acc); [done|]. destruct (d fuel d1) as [[[v d2]|e]|] eqn:Ed; cbn [try_bind fst snd] in E; [|done|done].
    rewrite Forall_forall in Hfs. destruct (Hfs (k, d) (find_elem _ _ _ Efd) _ _ _ _ Ed) as [f1 Hf1]. by eapply Hgo.
  - destruct (skip fuel d1) as [[[[] d2]|e]|] eqn:Ed; cbn [try_bind fst snd] in E; [|done|done]. by eapply Hgo.
Qed.

Lemma as_skip_struct {V} (fields : list (list Z * Decoder V)) : Forall (fun f => as_skip f.2) fields -> as_skip (de_struct atoi_i64 atoi_usize fields).
Proof.
  intros Hfs fuel de st de'. unfold de_struct.
  destruct (parse_first_byte de ch_d InvalidValue) as [[[] d1]|[e x]] eqn:Ef; cbn [lift try_bind snd]; [|done].
  intros E. destruct (struct_loop_skip fields Hfs _ _ _ _ _ E) as [f Hf]. exists (S f). cbn [skip_value]. rewrite (first_skip _ _ _ Ef).
  change (ch_d =? ch_d) with true. cbv iota. by rewrite Ef.
Qed.

(** Two decoders that end at the same place. *)
Definition same_end {A B} (d1 : Decoder A) (d2 : Decoder B) : Prop := forall fuel de a de1 b de2,
  d1 fuel de = Done (Ok (a, de1)) -> d2 fuel de = Done (Ok (b, de2)) -> de1 = de2.

Lemma narrower_refl : narrower atoi_i64.
Proof. intros b v n E _ _. by exists v. Qed.

Lemma ends_skip : as_skip skip.
Proof. intros fuel de [] de' E. by exists fuel. Qed.

Lemma same_end_refl {A} (d : Decoder A) : same_end d d.
Proof. intros fuel de a de1 b de2 E1 E2. congruence. Qed.

Lemma as_skip_same {A B} (d1 : Decoder A) (d2 : Decoder B) : as_skip d1 -> as_skip d2 -> same_end d1 d2.
Proof.
  intros H1 H2 fuel de a de1 b de2 E1 E2. destruct (H1 _ _ _ _ E1) as [f1 F1]. destruct (H2 _ _ _ _ E2) as [f2 F2].
  apply (skip_mono_le f1 (f1 + f2) _ _ ltac:(lia)) in F1. apply (skip_mono_le f2 (f1 + f2) _ _ ltac:(lia)) in F2. congruence.
Qed.

(** Two readings of one structure find the same fields. *)
Lemma loops_agree {V W} (fs1 : list (list Z * Decoder V)) (fs2 : list (list Z * Decoder W)) :
  Forall2 (fun f1 f2 => f1.1 = f2.1 /\ same_end f1.2 f2.2) fs1 fs2 -> forall fuel de acc1 acc2 st1 st2 de1 de2,
  struct_loop atoi_i64 atoi_usize fs1 fuel de acc1 = Done (Ok (st1, de1)) ->
  struct_loop atoi_i64 atoi_usize fs2 fuel de acc2 = Done (Ok (st2, de2)) -> acc1.*1 = acc2.*1 -> st1.*1 = st2.*1.
Proof.
  intros Hfs. assert (Hfind : forall k, option_Forall2 same_end (find k fs1) (find k fs2)).
  { intros k. induction Hfs as [|[k1 d1] [k2 d2] fs1 fs2 [Hk Hd] _ IH]; [constructor|]. cbn in Hk. subst k2.
    unfold find. cbn [List.find fst]. case_bool_decide; [by constructor|exact IH]. }
  induction fuel as [|fuel IH]; intros de acc1 acc2 st1 st2 de1 de2 E1 E2 Hacc; [done|]. cbn [struct_loop] in E1, E2.
  destruct (starts_with_e de); [injection E1 as <- <-; by injection E2 as <- <-|].
  destruct (next_key atoi_usize de) as [[k d]|[e x]]; cbn [lift try_bind fst snd] in E1, E2; [|done].
  destruct (Hfind k) as [d1 d2 Hd|].
  - destruct (find k acc1); [done|]. destruct (find k acc2); [done|].
    destruct (d1 fuel d) as [[[v1 e1]|]|] eqn:D1; cbn [try_bind fst snd] in E1; [|done|done].
    destruct (d2 fuel d) as [[[v2 e2]|]|] eqn:D2; cbn [try_bind fst snd] in E2; [|done|done].
    rewrite (Hd _ _ _ _ _ _ D1 D2) in E1. eapply IH; [exact E1|exact E2|]. rewrite !fmap_app. by rewrite Hacc.
  - destruct (skip fuel d) as [[[u e1]|]|]; cbn [try_bind fst snd] in E1, E2; [|done|done]. by eapply IH.
Qed.

(** A field that was read is what its decoder gave. *)
Lemma struct_loop_values {V} (fields : list (list Z * Decoder V)) (P : list Z -> V -> Prop) :
  (forall k d fuel de v de', find k fields = Some d -> d fuel de = Done (Ok (v, de')) -> P k v) -> forall fuel de acc st de',
  struct_loop atoi_i64 atoi_usize fields fuel de acc = Done (Ok (st, de')) -> Forall (fun e => P e.1 e.2) acc -> Forall (fun e => P e.1 e.2) st.
Proof.
  intros HP. induction fuel as [|fuel IH]; intros de acc st de' E Hacc; [done|]. cbn [struct_loop] in E.
  destruct (starts_with_e de); [by injection E as <- <-|].
  destruct (next_key atoi_usize de) as [[k d]|[e x]]; cbn [lift try_bind fst snd] in E; [|done].
  destruct (find k fields) as [d0|] eqn:Ef.
  - destruct (find k acc); [done|]. destruct (d0 fuel d) as [[[v1 e1]|]|] eqn:D; cbn [try_bind fst snd] in E; [|done|done].
    eapply IH; [exact E|]. apply Forall_app; split; [done|]. constructor; [|done]. by eapply HP.
  - destruct (skip fuel d) as [[[u e1]|]|]; cbn [try_bind fst snd] in E; [|done|done]. by eapply IH.
Qed.
End agree.

(** ** For the files of structures *)

Create HintDb de_total.
Create HintDb de_ends.
#[export] Hint Resolve total_bytes total_int total_skip : de_total.

(** A decoder made of those above, and of others that are hints. *)
Ltac total_tac := repeat (apply total_check || apply total_struct || apply total_seq || apply Forall_cons_2 || apply Forall_nil_2);
  auto with de_total.
Ltac ends_tac := repeat (apply as_skip_check || apply as_skip_struct || apply as_skip_seq || apply Forall_cons_2 || apply Forall_nil_2);
  auto with de_ends.

(** The decision of two names. *)
Ltac key_simpl :=
  repeat match goal with
    | |- context [bool_decide (key ?a = key ?b)] =>
        let r := eval vm_compute in (bool_decide (key a = key b)) in change (bool_decide (key a = key b)) with r
    end.

Ltac find_simpl := unfold find; cbn [List.find fst snd fmap option_fmap option_map]; key_simpl; cbn [snd fmap option_fmap option_map].

(** The fields of one structure, each read with its decoder. *)
Ltac field_names := apply (bool_decide_unpack _); vm_compute; exact I.

Ltac read_fields Hi Hu vs :=
  apply (reads_fields _ _ Hi Hu _ _ vs); [
    repeat (apply Forall2_cons; split; [split; [reflexivity|split; [cbn; lia|cbn [fst snd]]]|]); [..|apply Forall2_nil; done]
  | field_names
  | let st := fresh "st" in let Hst := fresh "Hst" in intros st Hst; unfold required, optional; rewrite !Hst; find_simpl ].

Ltac one_field := constructor; eexists; split; [find_simpl; reflexivity|].

Ltac opt_field o := destruct o; cbn [fmap option_fmap option_map]; [one_field|constructor].

(** What fits the fields of the structures. *)
Definition fits (b : list Z) : Prop := Z.of_nat (length b) < U64.
Definition is_i64 (z : Z) : Prop := - 9223372036854775808 <= z < 9223372036854775808.
Definition is_i32 (z : Z) : Prop := - 2147483648 <= z < 2147483648.
Definition all_opt {A} (P : A -> Prop) (o : option A) : Prop := match o with Some a => P a | None => True end.

(** The values are well formed, so they can be skipped. *)
Lemma wf_dict l : Forall (fun e => fits e.1 /\ all_opt wf_value e.2) l -> wf_value (dict l).
Proof.
  induction 1 as [|[k o] l [Hk Ho] _ IH]; [done|]. unfold dict in *. cbn in *. by destruct o.
Qed.

Lemma depth_dict n l : Forall (fun e => all_opt (fun v => (depth v <= n)%nat) e.2) l -> (depth (dict l) <= S n)%nat.
Proof.
  intros Hl. unfold dict. cbn [depth]. apply le_n_S. induction Hl as [|[k o] l Ho _ IH]; [cbn; lia|]. unfold present in IH. destruct o; cbn in *; lia.
Qed.

Lemma present_Forall {V} (P : list Z -> Prop) (Q : V -> Prop) l :
  Forall (fun e => P e.1 /\ all_opt Q e.2) l -> Forall (fun e => P e.1 /\ Q e.2) (present l).
Proof. induction 1 as [|[k [v|]] l [Hk Hv] _ IH]; [constructor|by constructor|exact IH]. Qed.
