(* ===== verification/Compact.v ===== *)
(** * Compact: addresses in compact form, peer exchange and hole punching

    Models [crates/librtbit-core/src/compact_ip.rs] (addresses as byte strings
    and lists of them in one buffer), and the two extended messages that carry
    addresses, [ut_pex.rs] and [ut_holepunch.rs] of
    [crates/librtbit-peer-protocol/src/extended].  The trait
    [CompactSerialize] is a class; the lists are proved against it. *)

From S2P Require Import Prelude HashId DoubleBuf Message.

Definition is_bits (size : nat) (z : Z) : Prop := 0 <= z < 2 ^ (8 * Z.of_nat size).

(** An address is its number; flow info and scope of IPv6 are zero here. *)
Record SocketAddr := mkSocketAddr {
  sa_ipv6 : bool;
  sa_ip : Z;
  sa_port : Z;
}.

#[export] Instance SocketAddr_eq_dec : EqDecision SocketAddr.
Proof. solve_decision. Defined.
#[export] Instance SocketAddr_countable : Countable SocketAddr.
Proof.
  refine (inj_countable' (fun a => (sa_ipv6 a, sa_ip a, sa_port a))
    (fun p => mkSocketAddr p.1.1 p.1.2 p.2) _). by intros [? ? ?].
Defined.

Record SocketAddrV4 := mkV4 { v4_ip : Z; v4_port : Z }.
Record SocketAddrV6 := mkV6 { v6_ip : Z; v6_port : Z }.

Definition from_v4 (a : SocketAddrV4) : SocketAddr := mkSocketAddr false (v4_ip a) (v4_port a).
Definition from_v6 (a : SocketAddrV6) : SocketAddr := mkSocketAddr true (v6_ip a) (v6_port a).

(** ** The trait *)

(** [CompactSerialize] with [CompactSerializeFixedLen]. *)
Class CompactSerialize (T : Type) := {
  as_slice : T -> list Z;
  from_slice_unchecked_len : list Z -> T;
  fixed_len : nat;
}.

(** What the lists rely on: the length is fixed, and reading gives back what
    was written. *)
Class CompactLaws (T : Type) `{CompactSerialize T} (wf : T -> Prop) := {
  fixed_len_pos : (0 < fixed_len)%nat;
  as_slice_length : forall a, length (as_slice a) = fixed_len;
  as_slice_read : forall a, wf a -> from_slice_unchecked_len (as_slice a) = a;
}.

#[export] Instance compact_v4 : CompactSerialize SocketAddrV4 := {
  as_slice a := be_bytes 4 (v4_ip a) ++ be_bytes 2 (v4_port a);
  from_slice_unchecked_len buf := mkV4 (to_Z (take 4 buf)) (to_Z (take 2 (drop 4 buf)));
  fixed_len := 6;
}.

#[export] Instance compact_v6 : CompactSerialize SocketAddrV6 := {
  as_slice a := be_bytes 16 (v6_ip a) ++ be_bytes 2 (v6_port a);
  from_slice_unchecked_len buf := mkV6 (to_Z (take 16 buf)) (to_Z (take 2 (drop 16 buf)));
  fixed_len := 18;
}.

Record Flags := mkFlags { flag_bits : Z }.

(** [from_slice_unchecked_len] is [from_slice(buf).unwrap()]: the buffer is not
    empty. *)
#[export] Instance compact_flags : CompactSerialize Flags := {
  as_slice f := [flag_bits f];
  from_slice_unchecked_len buf := mkFlags (nth 0 buf 0);
  fixed_len := 1;
}.

(** [from_slice] of the two address types and of [SocketAddr]. *)
Definition from_slice_v4 (buf : list Z) : option SocketAddrV4 :=
  if negb (length buf =? 6)%nat then None else Some (from_slice_unchecked_len buf).

Definition from_slice_v6 (buf : list Z) : option SocketAddrV6 :=
  if negb (length buf =? 18)%nat then None else Some (from_slice_unchecked_len buf).

Definition from_slice (buf : list Z) : option SocketAddr :=
  if (length buf =? 6)%nat then Some (from_v4 (from_slice_unchecked_len buf))
  else if (length buf =? 18)%nat then Some (from_v6 (from_slice_unchecked_len buf))
  else None.

Definition addr_as_slice (a : SocketAddr) : list Z :=
  be_bytes (if sa_ipv6 a then 16 else 4) (sa_ip a) ++ be_bytes 2 (sa_port a).

(** ** Lists in a buffer *)
Section list.
Context {T : Type} `{CompactSerialize T}.

(** [CompactListInBuffer] is its buffer. *)
Definition CompactListInBuffer := list Z.

Definition new_from_iter (it : list T) : CompactListInBuffer := concat (as_slice <$> it).

Definition list_is_empty (b : CompactListInBuffer) : bool := (length b =? 0)%nat.

(** [chunks_exact]: a rest that is too short is left out. *)
Fixpoint chunks_exact (fuel n : nat) (b : list Z) : list (list Z) :=
  match fuel with
  | O => []
  | S fuel => if (length b <? n)%nat then [] else take n b :: chunks_exact fuel n (drop n b)
  end.

Definition list_iter (b : CompactListInBuffer) : list T :=
  from_slice_unchecked_len <$> chunks_exact (length b) (fixed_len (T := T)) b.

Definition list_get (b : CompactListInBuffer) (idx : nat) : option T :=
  let offset := (idx * fixed_len (T := T))%nat in
  let end_ := (offset + fixed_len (T := T))%nat in
  if (length b <? end_)%nat then None
  else Some (from_slice_unchecked_len (take (end_ - offset) (drop offset b))).

(** [Deserialize]: the length is an exact multiple; the answer is the length of
    the error. *)
Definition list_deserialize (buf : list Z) : result nat CompactListInBuffer :=
  if negb (length buf mod fixed_len (T := T) =? 0)%nat then Err (length buf) else Ok buf.
End list.
Arguments CompactListInBuffer : clear implicits.

(** ** Peer exchange *)

Record PexPeerInfo := mkPexPeerInfo {
  px_flags : Z;
  px_addr : SocketAddr;
}.

Record UtPex := mkUtPex {
  added : option CompactListInBuffer;
  added_f : option CompactListInBuffer;
  added6 : option CompactListInBuffer;
  added6_f : option CompactListInBuffer;
  dropped : option CompactListInBuffer;
  dropped6 : option CompactListInBuffer;
}.

Definition enumerate_nat {A} (l : list A) : list (nat * A) := zip (seq 0 (length l)) l.

Definition added_peers_inner {T} `{CompactSerialize T} (into : T -> SocketAddr)
    (buf flags : option CompactListInBuffer) : list PexPeerInfo :=
  (fun '(idx, ip) =>
     mkPexPeerInfo (default 0 (f ← flags; flag_bits <$> list_get (T := Flags) f idx)) (into ip))
  <$> enumerate_nat (match buf with Some b => list_iter (T := T) b | None => [] end).

Definition added_peers (p : UtPex) : list PexPeerInfo :=
  added_peers_inner from_v4 (added p) (added_f p) ++ added_peers_inner from_v6 (added6 p) (added6_f p).

Definition dropped_peers (p : UtPex) : list PexPeerInfo :=
  added_peers_inner from_v4 (dropped p) None ++ added_peers_inner from_v6 (dropped6 p) None.

Definition only_v4 (a : SocketAddr) : option SocketAddrV4 :=
  if sa_ipv6 a then None else Some (mkV4 (sa_ip a) (sa_port a)).
Definition only_v6 (a : SocketAddr) : option SocketAddrV6 :=
  if sa_ipv6 a then Some (mkV6 (sa_ip a) (sa_port a)) else None.

Definition pex_split (addrs : list SocketAddr) : option CompactListInBuffer * option CompactListInBuffer :=
  let v4 := new_from_iter (omap only_v4 addrs) in
  let v6 := new_from_iter (omap only_v6 addrs) in
  (if list_is_empty v4 then None else Some v4, if list_is_empty v6 then None else Some v6).

Definition from_addrs (addrs_live addrs_closed : list SocketAddr) : UtPex :=
  let '(added, added6) := pex_split addrs_live in
  let '(dropped, dropped6) := pex_split addrs_closed in
  mkUtPex added None added6 None dropped dropped6.

(** ** Hole punching *)

Inductive HolepunchMsgType := Rendezvous | HConnect | HError.

Definition msg_type_u8 (t : HolepunchMsgType) : Z :=
  match t with Rendezvous => 0 | HConnect => 1 | HError => 2 end.

Definition msg_type_from_u8 (v : Z) : option HolepunchMsgType :=
  if v =? 0 then Some Rendezvous else if v =? 1 then Some HConnect else if v =? 2 then Some HError else None.

Inductive HolepunchErrorCode := NoSuchPeer | NotConnected | NoSupport | NoSelf.

Definition error_code_u32 (e : HolepunchErrorCode) : Z :=
  match e with NoSuchPeer => 1 | NotConnected => 2 | NoSupport => 3 | NoSelf => 4 end.

Definition error_code_from_u32 (v : Z) : option HolepunchErrorCode :=
  if v =? 1 then Some NoSuchPeer else if v =? 2 then Some NotConnected
  else if v =? 3 then Some NoSupport else if v =? 4 then Some NoSelf else None.

Record HolepunchMessage := mkHolepunch {
  hp_msg_type : HolepunchMsgType;
  hp_addr : SocketAddr;
  hp_error_code : option HolepunchErrorCode;
}.

Inductive HolepunchError :=
| HpTooShort
| HpUnknownMsgType
| HpIpv4TooShort
| HpIpv6TooShort
| HpUnknownAddrType (addr_type : Z)
| HpMissingPort
| HpMissingErrorCode
| HpUnknownErrorCode (code : Z).

Definition holepunch_serialize (m : HolepunchMessage) : list Z :=
  let buf := [msg_type_u8 (hp_msg_type m)] in
  let a := hp_addr m in
  let buf :=
    if sa_ipv6 a then buf ++ [1] ++ be_bytes 16 (sa_ip a) else buf ++ [0] ++ be_bytes 4 (sa_ip a) in
  let buf := buf ++ be_bytes 2 (sa_port a) in
  match hp_error_code m with
  | Some err => buf ++ be_bytes 4 (error_code_u32 err)
  | None => buf
  end.

(** [&data[a..b]] panics beyond the end. *)
Definition index_range (data : list Z) (a b : nat) : outcome (list Z) :=
  if (length data <? b)%nat then Panic else Done (take (b - a) (drop a data)).

(** The [match addr_type]: the family, the address and what follows it. *)
Definition holepunch_ip (data : list Z) (addr_type : Z) :
    outcome (result HolepunchError (bool * Z * list Z)) :=
  let read (is_ipv6 : bool) (end_ : nat) (short : HolepunchError) :=
    if (length data <? end_ + 2)%nat then Done (Err short)
    else
      octets ←! index_range data 2 end_;
      rest ←! index_range data end_ (length data);
      Done (Ok (is_ipv6, to_Z octets, rest)) in
  if addr_type =? 0 then read false (2 + 4)%nat HpIpv4TooShort
  else if addr_type =? 1 then read true (2 + 16)%nat HpIpv6TooShort
  else Done (Err (HpUnknownAddrType addr_type)).

(** The error code, of error messages only. *)
Definition holepunch_error_code (msg_type : HolepunchMsgType) (rest : list Z) :
    outcome (result HolepunchError (option HolepunchErrorCode)) :=
  match msg_type with
  | HError =>
      if (length rest <? 4)%nat then Done (Err HpMissingErrorCode)
      else
        code ←! index_range rest 0 4;
        Done (c ←? ok_or (error_code_from_u32 (to_Z code)) (HpUnknownErrorCode (to_Z code)); Ok (Some c))
  | _ => Done (Ok None)
  end.

Definition holepunch_deserialize (data : list Z) : outcome (result HolepunchError HolepunchMessage) :=
  if (length data <? 2)%nat then Done (Err HpTooShort)
  else
    msg_type ←?! Done (ok_or (msg_type_from_u8 (nth 0 data 0)) HpUnknownMsgType);
    ip_rest ←?! holepunch_ip data (nth 1 data 0);
    let '(is_ipv6, ip, rest) := ip_rest in
    if (length rest <? 2)%nat then Done (Err HpMissingPort)
    else
      port ←! index_range rest 0 2;
      rest ←! index_range rest 2 (length rest);
      error_code ←?! holepunch_error_code msg_type rest;
      Done (Ok (mkHolepunch msg_type (mkSocketAddr is_ipv6 ip (to_Z port)) error_code)).

(** ** Addresses *)

Definition wf_v4 (a : SocketAddrV4) : Prop := is_bits 4 (v4_ip a) /\ is_bits 2 (v4_port a).
Definition wf_v6 (a : SocketAddrV6) : Prop := is_bits 16 (v6_ip a) /\ is_bits 2 (v6_port a).
Definition wf_addr (a : SocketAddr) : Prop :=
  is_bits (if sa_ipv6 a then 16 else 4) (sa_ip a) /\ is_bits 2 (sa_port a).

Lemma be_bits n z : is_bits n z -> to_Z (be_bytes n z) = z.
Proof. intros Hz. rewrite to_Z_be_bytes. by apply Z.mod_small. Qed.

(** Two big-endian numbers one after the other. *)
Lemma read_pair n k x y r : is_bits n x -> is_bits k y ->
  to_Z (take n (be_bytes n x ++ be_bytes k y ++ r)) = x /\
  to_Z (take k (drop n (be_bytes n x ++ be_bytes k y ++ r))) = y.
Proof.
  intros Hx Hy. rewrite take_app_exact, drop_app_exact, take_app_exact by (by rewrite length_be_bytes).
  by rewrite !be_bits.
Qed.

#[export] Instance compact_v4_laws : CompactLaws SocketAddrV4 wf_v4.
Proof.
  split; cbn [fixed_len as_slice from_slice_unchecked_len compact_v4]; [lia|intros; by autorewrite with len|].
  intros [ip port] [Hi Hp]. cbn [v4_ip v4_port] in *.
  destruct (read_pair 4 2 ip port [] Hi Hp) as [H1 H2]. rewrite app_nil_r in H1, H2. by rewrite H1, H2.
Qed.

#[export] Instance compact_v6_laws : CompactLaws SocketAddrV6 wf_v6.
Proof.
  split; cbn [fixed_len as_slice from_slice_unchecked_len compact_v6]; [lia|intros; by autorewrite with len|].
  intros [ip port] [Hi Hp]. cbn [v6_ip v6_port] in *.
  destruct (read_pair 16 2 ip port [] Hi Hp) as [H1 H2]. rewrite app_nil_r in H1, H2. by rewrite H1, H2.
Qed.

#[export] Instance compact_flags_laws : CompactLaws Flags (fun _ => True).
Proof. split; [simpl; lia|done|]. by intros [f] _. Qed.

(** An address of either family is read back, and only from its own length. *)
Lemma addr_roundtrip a : wf_addr a -> from_slice (addr_as_slice a) = Some a.
Proof.
  destruct a as [v6 ip port]. unfold wf_addr, addr_as_slice, from_slice. cbn [sa_ipv6 sa_ip sa_port].
  intros [Hi Hp]. rewrite length_app, !length_be_bytes.
  destruct v6; cbn [Nat.add Nat.eqb from_slice_unchecked_len compact_v4 compact_v6].
  - destruct (read_pair 16 2 ip port [] Hi Hp) as [H1 H2]. rewrite app_nil_r in H1, H2.
    unfold from_v6. cbn [v6_ip v6_port]. by rewrite H1, H2.
  - destruct (read_pair 4 2 ip port [] Hi Hp) as [H1 H2]. rewrite app_nil_r in H1, H2.
    unfold from_v4. cbn [v4_ip v4_port]. by rewrite H1, H2.
Qed.

(** ** Lists *)
Section lists.
Context {T : Type} {wf : T -> Prop} `{CompactLaws T wf}.
Implicit Types l : list T.

Lemma length_new_from_iter l : length (new_from_iter l) = (length l * fixed_len (T := T))%nat.
Proof.
  unfold new_from_iter. induction l as [|a l IH]; [done|]. cbn [fmap list_fmap concat length] in *.
  rewrite length_app, as_slice_length. simpl. f_equal. exact IH.
Qed.

Lemma new_from_iter_cons a l : new_from_iter (a :: l) = as_slice a ++ new_from_iter l.
Proof. done. Qed.

Lemma chunks_new_from_iter l fuel : (length l <= fuel)%nat ->
  chunks_exact fuel (fixed_len (T := T)) (new_from_iter l) = as_slice <$> l.
Proof.
  revert fuel. induction l as [|a l IH]; intros fuel Hf.
  - destruct fuel; [done|]. cbn [chunks_exact]. pose proof (fixed_len_pos (T := T)).
    by destruct (Nat.ltb_spec (length (new_from_iter (T := T) [])) (fixed_len (T := T))); [|simpl in *; lia].
  - destruct fuel as [|fuel]; [simpl in Hf; lia|]. cbn [chunks_exact].
    rewrite new_from_iter_cons, length_app, as_slice_length.
    destruct (Nat.ltb_spec (fixed_len (T := T) + length (new_from_iter l)) (fixed_len (T := T))); [lia|].
    rewrite take_app_exact, drop_app_exact by (by rewrite as_slice_length).
    rewrite IH by (simpl in Hf; lia). done.
Qed.

Lemma list_iter_new l : Forall wf l -> list_iter (new_from_iter l) = l.
Proof.
  intros Hl. unfold list_iter. rewrite chunks_new_from_iter.
  - rewrite <- list_fmap_compose. induction Hl as [|a l Ha Hl IH]; [done|].
    cbn [fmap list_fmap compose]. f_equal; [by apply as_slice_read|exact IH].
  - rewrite length_new_from_iter. pose proof (fixed_len_pos (T := T)). nia.
Qed.

Lemma new_from_iter_app l1 l2 : new_from_iter (l1 ++ l2) = new_from_iter l1 ++ new_from_iter l2.
Proof. unfold new_from_iter. by rewrite fmap_app, concat_app. Qed.

Lemma list_get_new l idx : Forall wf l -> list_get (new_from_iter l) idx = l !! idx.
Proof.
  intros Hl. unfold list_get. rewrite length_new_from_iter. pose proof (fixed_len_pos (T := T)) as Hpos.
  set (n := fixed_len (T := T)) in *.
  destruct (Nat.ltb_spec (length l * n) (idx * n + n)) as [Hout|Hin].
  - rewrite lookup_ge_None_2; [done|]. nia.
  - assert (Hidx : (idx < length l)%nat) by nia.
    apply lookup_lt_is_Some in Hidx as [a Ha]. rewrite Ha.
    pose proof (take_drop_middle l idx a Ha) as Hmid. rewrite <- Hmid, new_from_iter_app, new_from_iter_cons.
    assert (Hlen : length (new_from_iter (take idx l)) = (idx * n)%nat).
    { rewrite length_new_from_iter, length_take, Nat.min_l by (apply lookup_lt_Some in Ha; lia). done. }
    rewrite drop_app_exact by done. rewrite Nat.add_comm, Nat.add_sub.
    rewrite take_app_exact by (by rewrite as_slice_length). f_equal. apply as_slice_read.
    rewrite Forall_forall in Hl. apply Hl. by eapply list_elem_of_lookup_2.
Qed.

(** A list of addresses (or of any fixed-length values) put in one buffer
    is accepted by the deserializer, iterated and indexed as that list. *)
Theorem compact_list_roundtrip l : Forall wf l ->
  let b := new_from_iter l in
  list_deserialize (T := T) b = Ok b /\ list_iter b = l /\ (forall idx, list_get b idx = l !! idx) /\
  (list_is_empty b = true <-> l = []).
Proof.
  intros Hl b. unfold list_deserialize, list_is_empty, b. rewrite length_new_from_iter.
  rewrite Nat.Div0.mod_mul. cbn [Nat.eqb negb]. split_and!; [done|by apply list_iter_new|intros; by apply list_get_new|].
  rewrite Nat.eqb_eq. pose proof (fixed_len_pos (T := T)). destruct l; [done|]. simpl. split; [lia|done].
Qed.
End lists.

(** ** Peer exchange *)

Lemma added_inner_none {T} `{CompactSerialize T} (into : T -> SocketAddr) (l : list T) :
  ((fun '(idx, ip) => mkPexPeerInfo 0 (into ip)) <$> enumerate_nat l) = (fun ip => mkPexPeerInfo 0 (into ip)) <$> l.
Proof.
  unfold enumerate_nat. generalize 0%nat. induction l as [|a l IH]; intros n; [done|].
  cbn [length seq zip zip_with fmap list_fmap]. f_equal. apply IH.
Qed.

Lemma inner_of_list {T} {wf : T -> Prop} `{CompactLaws T wf} (into : T -> SocketAddr) (l : list T) : Forall wf l ->
  let b := new_from_iter l in
  added_peers_inner into (if list_is_empty b then None else Some b) None = (fun ip => mkPexPeerInfo 0 (into ip)) <$> l.
Proof.
  intros Hl b. unfold added_peers_inner. cbn [option_bind mbind default].
  change (default 0 (f ← @None CompactListInBuffer; flag_bits <$> list_get (T := Flags) f 0)) with 0.
  assert (Hm : match (if list_is_empty b then None else Some b) with Some b => list_iter b | None => [] end = l).
  { unfold list_is_empty, b. rewrite length_new_from_iter. pose proof (fixed_len_pos (T := T)).
    destruct (Nat.eqb_spec (length l * fixed_len (T := T)) 0); [|by apply list_iter_new].
    destruct l; [done|]. simpl in *. lia. }
  rewrite Hm. apply added_inner_none.
Qed.

Lemma only_v4_wf l : Forall wf_addr l -> Forall wf_v4 (omap only_v4 l).
Proof.
  induction 1 as [|[v6 ip port] l Ha Hl IH]; [done|]. cbn [omap list_omap]. unfold only_v4 at 1. cbn [sa_ipv6]. destruct v6; [done|].
  by constructor.
Qed.

Lemma only_v6_wf l : Forall wf_addr l -> Forall wf_v6 (omap only_v6 l).
Proof.
  induction 1 as [|[v6 ip port] l Ha Hl IH]; [done|]. cbn [omap list_omap]. unfold only_v6 at 1. cbn [sa_ipv6]. destruct v6; [|done].
  by constructor.
Qed.

Lemma split_families l : (from_v4 <$> omap only_v4 l) ++ (from_v6 <$> omap only_v6 l) ≡ₚ l.
Proof.
  induction l as [|[v6 ip port] l IH]; [done|]. cbn [omap list_omap]. unfold only_v4 at 1, only_v6 at 1.
  cbn [sa_ipv6 sa_ip sa_port]. destruct v6; cbn [fmap list_fmap].
  - change (from_v6 (mkV6 ip port)) with (mkSocketAddr true ip port). rewrite <- Permutation_middle. by constructor.
  - change (from_v4 (mkV4 ip port)) with (mkSocketAddr false ip port). cbn [app]. by constructor.
Qed.

Lemma pex_split_peers l : Forall wf_addr l ->
  added_peers_inner from_v4 (pex_split l).1 None ++ added_peers_inner from_v6 (pex_split l).2 None ≡ₚ
  mkPexPeerInfo 0 <$> l.
Proof.
  intros Hl. unfold pex_split. cbn [fst snd].
  rewrite (inner_of_list from_v4) by (by apply only_v4_wf). rewrite (inner_of_list from_v6) by (by apply only_v6_wf).
  rewrite <- (split_families l) at 3. rewrite fmap_app, <- !list_fmap_compose. done.
Qed.

(** A peer exchange message built from the addresses that went live and the
    addresses that closed lists exactly these, each with no flags. *)
Theorem pex_lists_addresses live closed : Forall wf_addr live -> Forall wf_addr closed ->
  added_peers (from_addrs live closed) ≡ₚ mkPexPeerInfo 0 <$> live /\
  dropped_peers (from_addrs live closed) ≡ₚ mkPexPeerInfo 0 <$> closed.
Proof.
  intros Hl Hc. pose proof (pex_split_peers live Hl) as Pl. pose proof (pex_split_peers closed Hc) as Pc.
  unfold from_addrs, added_peers, dropped_peers.
  destruct (pex_split live) as [a a6], (pex_split closed) as [d d6]. by split.
Qed.

(** ** Hole punching *)

(** An error code is there exactly in error messages. *)
Definition wf_holepunch (m : HolepunchMessage) : Prop :=
  wf_addr (hp_addr m) /\ (hp_msg_type m = HError <-> is_Some (hp_error_code m)).

Lemma index_range_in data a b : (b <= length data)%nat -> index_range data a b = Done (take (b - a) (drop a data)).
Proof. intros Hb. unfold index_range. by destruct (Nat.ltb_spec (length data) b); [lia|]. Qed.

Lemma msg_type_roundtrip t : msg_type_from_u8 (msg_type_u8 t) = Some t.
Proof. by destruct t. Qed.

Lemma error_code_roundtrip e : error_code_from_u32 (to_Z (be_bytes 4 (error_code_u32 e))) = Some e.
Proof. by destruct e. Qed.

(** The message after its two type bytes: address, port, and the error code. *)
Lemma holepunch_layout m :
  holepunch_serialize m = msg_type_u8 (hp_msg_type m) :: (if sa_ipv6 (hp_addr m) then 1 else 0) ::
    be_bytes (if sa_ipv6 (hp_addr m) then 16 else 4) (sa_ip (hp_addr m)) ++ be_bytes 2 (sa_port (hp_addr m)) ++
    match hp_error_code m with Some e => be_bytes 4 (error_code_u32 e) | None => [] end.
Proof.
  unfold holepunch_serialize. destruct (sa_ipv6 (hp_addr m)), (hp_error_code m);
    cbn [app]; rewrite <- ?app_assoc, ?app_nil_r; done.
Qed.

Lemma index_range_prefix (l r : list Z) n : n = length l -> index_range (l ++ r) 0 n = Done l.
Proof.
  intros ->. rewrite index_range_in by (rewrite length_app; lia). by rewrite drop_0, Nat.sub_0_r, take_app_exact.
Qed.

Lemma index_range_suffix (l r : list Z) n : n = length l -> index_range (l ++ r) n (length (l ++ r)) = Done r.
Proof.
  intros ->. rewrite index_range_in by lia. rewrite drop_app_exact by done. by rewrite take_ge by len_lia.
Qed.

Lemma holepunch_ip_written (a b : Z) (v6 : bool) ip r : is_bits (if v6 then 16 else 4) ip -> (2 <= length r)%nat ->
  holepunch_ip (a :: b :: be_bytes (if v6 then 16 else 4) ip ++ r) (if v6 then 1 else 0) = Done (Ok (v6, ip, r)).
Proof.
  intros Hi Hr. set (n := if v6 then 16%nat else 4%nat) in *.
  set (data := a :: b :: be_bytes n ip ++ r).
  assert (Hdata : data = ([a; b] ++ be_bytes n ip) ++ r) by done.
  assert (Hl : length data = (2 + n + length r)%nat) by (unfold data; cbn [length]; len_lia).
  assert (Hip : index_range data 2 (2 + n) = Done (be_bytes n ip)).
  { rewrite index_range_in by lia. change (drop 2 data) with (be_bytes n ip ++ r).
    rewrite take_app_exact; [done|]. rewrite length_be_bytes. lia. }
  assert (Hrest : index_range data (2 + n) (length data) = Done r).
  { rewrite Hdata. apply index_range_suffix. rewrite length_app, length_be_bytes. done. }
  unfold holepunch_ip. destruct v6; cbn [Z.eqb]; subst n;
    (destruct (length data <? _)%nat eqn:E; [apply Nat.ltb_lt in E; lia|]); rewrite Hip, Hrest; rsimpl; by rewrite be_bits.
Qed.

Lemma holepunch_error_code_written t err r : (t = HError <-> is_Some err) ->
  holepunch_error_code t (match err with Some e => be_bytes 4 (error_code_u32 e) | None => [] end ++ r) =
  Done (Ok err).
Proof.
  intros Herr. destruct err as [e|].
  - destruct Herr as [_ Ht]. rewrite Ht by eauto. unfold holepunch_error_code.
    rewrite length_app, length_be_bytes. destruct (Nat.ltb_spec (4 + length r) 4); [lia|].
    rewrite index_range_prefix by (by rewrite length_be_bytes). rsimpl. by rewrite error_code_roundtrip.
  - destruct t; [done|done|]. destruct Herr as [Ht _]. by destruct (Ht eq_refl).
Qed.

(** A hole punching message is read back as it was written, whatever
    follows it. *)
Theorem holepunch_roundtrip m r : wf_holepunch m ->
  holepunch_deserialize (holepunch_serialize m ++ r) = Done (Ok m).
Proof.
  destruct m as [t [v6 ip port] err]. intros [[Hi Hp] Herr]. rewrite holepunch_layout.
  cbn [hp_msg_type hp_addr hp_error_code sa_ipv6 sa_ip sa_port app] in *. rewrite <- !app_assoc.
  unfold holepunch_deserialize. cbn [length Nat.ltb Nat.leb nth]. rewrite msg_type_roundtrip. rsimpl.
  rewrite holepunch_ip_written by (done || len_lia). rsimpl.
  destruct (Nat.ltb_spec (length (be_bytes 2 port ++ match err with Some e => be_bytes 4 (error_code_u32 e) | None => [] end ++ r)) 2);
    [len_lia|].
  rewrite index_range_prefix by (by rewrite length_be_bytes). rsimpl.
  rewrite index_range_suffix by (by rewrite length_be_bytes). rsimpl.
  rewrite holepunch_error_code_written by done. rsimpl. by rewrite be_bits.
Qed.

(** The parser of untrusted bytes never indexes out of range. *)
Lemma holepunch_total data : exists r, holepunch_deserialize data = Done r.
Proof.
  unfold holepunch_deserialize. destruct (Nat.ltb_spec (length data) 2); [by eexists|].
  destruct (msg_type_from_u8 _) as [t|]; rsimpl; [|by eexists].
  assert (Hip : exists r, holepunch_ip data (nth 1 data 0) = Done r).
  { unfold holepunch_ip. destruct (_ =? 0); [|destruct (_ =? 1); [|by eexists]].
    - destruct (Nat.ltb_spec (length data) (2 + 4 + 2)); [by eexists|]. rewrite !index_range_in by lia. by eexists.
    - destruct (Nat.ltb_spec (length data) (2 + 16 + 2)); [by eexists|]. rewrite !index_range_in by lia. by eexists. }
  destruct Hip as [[[[v6 ip] rest]|e] ->]; rsimpl; [|by eexists].
  destruct (Nat.ltb_spec (length rest) 2); [by eexists|]. rewrite !index_range_in by lia. rsimpl.
  assert (Hec : forall l, exists r, holepunch_error_code t l = Done r).
  { intros l. destruct t; [by eexists..|]. unfold holepunch_error_code.
    destruct (Nat.ltb_spec (length l) 4); [by eexists|]. rewrite index_range_in by lia. by eexists. }
  destruct (Hec (take (length rest - 2) (drop 2 rest))) as [[ec|e] ->]; by eexists.
Qed.

(** ** Witnesses *)

Definition ex_v4 : SocketAddr := mkSocketAddr false 167772161 6881.
Definition ex_v6 : SocketAddr := mkSocketAddr true 1 51413.

Lemma compact_list_roundtrip_witness :
  list_iter (T := SocketAddrV4) (new_from_iter [mkV4 167772161 6881; mkV4 1 80]) = [mkV4 167772161 6881; mkV4 1 80].
Proof.
  apply (compact_list_roundtrip (wf := wf_v4) [mkV4 167772161 6881; mkV4 1 80]). by repeat constructor.
Defined.

Lemma pex_lists_addresses_witness :
  added_peers (from_addrs [ex_v6; ex_v4] []) ≡ₚ [mkPexPeerInfo 0 ex_v6; mkPexPeerInfo 0 ex_v4].
Proof. apply (pex_lists_addresses [ex_v6; ex_v4] []); by repeat constructor. Defined.

Lemma holepunch_roundtrip_witness :
  holepunch_deserialize (holepunch_serialize (mkHolepunch HError ex_v6 (Some NoSupport)) ++ [7]) =
  Done (Ok (mkHolepunch HError ex_v6 (Some NoSupport))).
Proof.
  apply (holepunch_roundtrip (mkHolepunch HError ex_v6 (Some NoSupport)) [7]).
  split; [by repeat constructor|]. split; [by eexists|done].
Defined.
