(* ===== verification/PeerTasks.v ===== *)
(** * PeerTasks: telling peers about peers, connecting to them, finding more

    Models [torrent_state/live/tasks.rs]: the task that tells a peer which
    peers we know (PEX), the one that connects to queued peers, and the one
    that looks for more when there are few.  A turn of a loop is one step.  The
    order in which a [HashSet] is seen is an argument, as are the clock and
    the lists of blocked and allowed addresses (the interval trees of
    [ip_ranges.rs] are a crate). *)

From S2P Require Import Prelude BitBox HashId Compact Peers.

(** ** Kinds of addresses (the standard library) *)

(** [n] in [net/len], of an address of [w] bits. *)
Definition in_net (w : Z) (n net len : Z) : bool := Z.shiftr n (w - len) =? Z.shiftr net (w - len).

Definition v4 (a b c d : Z) : Z := ((a * 256 + b) * 256 + c) * 256 + d.

Definition is_loopback (a : SocketAddr) : bool :=
  if sa_ipv6 a then sa_ip a =? 1 else in_net 32 (sa_ip a) (v4 127 0 0 0) 8.
Definition is_private_v4 (a : SocketAddr) : bool :=
  in_net 32 (sa_ip a) (v4 10 0 0 0) 8 || in_net 32 (sa_ip a) (v4 172 16 0 0) 12 || in_net 32 (sa_ip a) (v4 192 168 0 0) 16.
Definition is_unique_local (a : SocketAddr) : bool := in_net 128 (sa_ip a) (Z.shiftl 0xfc 120) 7.
Definition is_unicast_link_local (a : SocketAddr) : bool := in_net 128 (sa_ip a) (Z.shiftl 0xfe8 116) 10.

(** ** PEX *)

Definition MAX_SENT_PEERS : nat := 50.

Definition peer_ip_non_local (this : SocketAddr) : bool :=
  if sa_ipv6 this then negb (is_loopback this) && negb (is_unique_local this)
  else negb (is_loopback this) && negb (is_private_v4 this).

Definition other_ip_is_local (a : SocketAddr) : bool :=
  if sa_ipv6 a then is_loopback a || is_unicast_link_local a || is_unique_local a
  else is_loopback a || is_private_v4 a.

Definition pex_filter (this a : SocketAddr) : bool := negb (peer_ip_non_local this && other_ip_is_local a).

(** What one turn takes out of the two differences. *)
Record PexTurn := mkPexTurn {
  px_connected : list SocketAddr;
  px_dropped : list SocketAddr;
}.

Section pex.
Variable this : SocketAddr.

(** The order of a [HashSet]. *)
Variable ord : gset SocketAddr -> list SocketAddr.

Definition pex_turn (live view : gset SocketAddr) : PexTurn :=
  mkPexTurn (take MAX_SENT_PEERS (ord (live ∖ view))) (take MAX_SENT_PEERS (ord (view ∖ live))).

(** The message that is sent, if any, and the new view. *)
Definition task_send_pex (live view : gset SocketAddr) : option UtPex * gset SocketAddr :=
  let t := pex_turn live view in
  if negb (length (px_connected t) =? 0)%nat || negb (length (px_dropped t) =? 0)%nat then
    (Some (from_addrs (px_connected t) (px_dropped t)),
     (view ∖ list_to_set (px_dropped t)) ∪ list_to_set (List.filter (pex_filter this) (px_connected t)))
  else (None, view).

(** A sequence of turns, for the sets of live peers they find. *)
Fixpoint pex_run (lives : list (gset SocketAddr)) (view : gset SocketAddr) : list (option UtPex) * gset SocketAddr :=
  match lives with
  | [] => ([], view)
  | live :: lives =>
      let '(m, view) := task_send_pex live view in
      let '(ms, view) := pex_run lives view in (m :: ms, view)
  end.
End pex.

(** What a peer knows after a message. *)
Definition pex_learn (known : gset SocketAddr) (m : option UtPex) : gset SocketAddr :=
  match m with
  | Some p => (known ∪ list_to_set (px_addr <$> added_peers p)) ∖ list_to_set (px_addr <$> dropped_peers p)
  | None => known
  end.

(** ** Connecting to queued peers *)

Section adder.
Context {B : Type} `{BitBox B}.

Record AdderConfig := mkAdder {
  ad_disable_upload : bool;
  ad_ipv4_only : bool;
  ad_blocked : SocketAddr -> bool;
  ad_allowed : option (SocketAddr -> bool);
}.

Inductive AdderAction := AdNotNeeded | AdSkipped | AdBlocked | AdConnect.

(** One turn of [task_peer_adder] up to the semaphore. *)
Definition task_peer_adder (cfg : AdderConfig) (now : Z) (finished : bool) (addr : SocketAddr) (ps : PeerStates B SocketAddr) :
    AdderAction * PeerStates B SocketAddr :=
  if ad_disable_upload cfg && finished then (AdNotNeeded, (mark_peer_not_needed now addr ps).2)
  else if ad_ipv4_only cfg && sa_ipv6 addr then (AdSkipped, ps)
  else if sa_port addr =? 0 then (AdSkipped, ps)
  else if ad_blocked cfg addr then (AdBlocked, ps)
  else if match ad_allowed cfg with Some l => negb (l addr) | None => false end then (AdBlocked, ps)
  else (AdConnect, ps).

(** ** Finding more peers *)

Definition MIN_PEERS_THRESHOLD : Z := 5.
Definition REDISCOVERY_COOLDOWN : Z := 30.

Definition get_active_peer_count (ps : PeerStates B SocketAddr) : Z := wrap32 (live (stats ps) + connecting (stats ps)).

(** One turn of [task_peer_health_monitor]: whether it asks for peers. *)
Definition task_peer_health_monitor (now : Z) (finished : bool) (try_send : SocketAddr -> bool) (addrs : list SocketAddr)
    (last_rediscovery : option Z) (ps : PeerStates B SocketAddr) : bool * option Z * PeerStates B SocketAddr :=
  if finished then (false, last_rediscovery, ps)
  else if MIN_PEERS_THRESHOLD <=? get_active_peer_count ps then (false, last_rediscovery, ps)
  else if match last_rediscovery with Some last => now - last <? REDISCOVERY_COOLDOWN | None => false end
  then (false, last_rediscovery, ps)
  else (true, Some now, requeue_dead_peers now try_send addrs ps).
End adder.

(** ** Properties of PEX *)

Section pex_properties.
Variable this : SocketAddr.
Variable ord : gset SocketAddr -> list SocketAddr.
Hypothesis Hord : forall s, ord s ≡ₚ elements s.

Lemma elem_of_ord s a : a ∈ ord s <-> a ∈ s.
Proof. by rewrite Hord, elem_of_elements. Qed.

Lemma take_ord n s a : a ∈ take n (ord s) -> a ∈ s.
Proof. intros Ha. apply elem_of_ord. eapply elem_of_sublist; [exact Ha|apply sublist_take]. Qed.

(** A message has at most 50 new and 50 gone peers; the new ones are live and
    new to the peer, the gone ones are not live and known to it. *)
Lemma turn_facts live view : let t := pex_turn ord live view in
  (length (px_connected t) <= 50)%nat /\ (length (px_dropped t) <= 50)%nat /\
  (forall a, a ∈ px_connected t -> a ∈ live /\ a ∉ view) /\ (forall a, a ∈ px_dropped t -> a ∈ view /\ a ∉ live).
Proof.
  cbn. rewrite !length_take. unfold MAX_SENT_PEERS. split_and!; [lia|lia| |];
    intros a [? ?]%take_ord%elem_of_difference; done.
Qed.

Lemma elem_of_filter_list (f : SocketAddr -> bool) l a : a ∈ List.filter f l <-> a ∈ l /\ f a = true.
Proof. rewrite !list_elem_of_In. apply filter_In. Qed.

(** The new view, element by element. *)
Lemma view_after live view a : a ∈ (task_send_pex this ord live view).2 <->
  (a ∈ view /\ a ∉ px_dropped (pex_turn ord live view)) \/ (a ∈ px_connected (pex_turn ord live view) /\ pex_filter this a = true).
Proof.
  unfold task_send_pex. set (t := pex_turn ord live view).
  destruct (px_connected t) as [|c cs] eqn:Hc, (px_dropped t) as [|d ds] eqn:Hd; cbn [length Nat.eqb negb orb snd].
  { set_solver. }
  all: rewrite elem_of_union, elem_of_difference, !elem_of_list_to_set, elem_of_filter_list; tauto.
Qed.

(** What the peer knows after the message of a turn. *)
Lemma learn_after live view known a : (forall a, a ∈ live -> wf_addr a) -> (forall a, a ∈ view -> wf_addr a) ->
  a ∈ pex_learn known (task_send_pex this ord live view).1 <->
  (a ∈ known \/ a ∈ px_connected (pex_turn ord live view)) /\ a ∉ px_dropped (pex_turn ord live view).
Proof.
  intros Hl Hv. destruct (turn_facts live view) as (_ & _ & Hc & Hd). unfold task_send_pex. set (t := pex_turn ord live view) in *.
  destruct (negb (length (px_connected t) =? 0)%nat || negb (length (px_dropped t) =? 0)%nat) eqn:He; cbn [fst pex_learn].
  2: { destruct (px_connected t) as [|], (px_dropped t) as [|]; try done. set_solver. }
  destruct (pex_lists_addresses (px_connected t) (px_dropped t)) as [Pa Pd].
  { apply Forall_forall. intros x Hx. by apply Hl, Hc. }
  { apply Forall_forall. intros x Hx. by apply Hv, Hd. }
  assert (Hin : forall l : list SocketAddr, a ∈ px_addr <$> (mkPexPeerInfo 0 <$> l) <-> a ∈ l).
  { intros l. rewrite <- list_fmap_compose. rewrite list_elem_of_fmap. split; [intros (x & -> & Hx); exact Hx|intros Hx; by exists a]. }
  rewrite elem_of_difference, elem_of_union, !elem_of_list_to_set. rewrite Pa, Pd, !Hin. tauto.
Qed.

(** The view is what the peer knows, as far as it may be told. *)
Definition view_ok (known view : gset SocketAddr) : Prop :=
  forall a, (a ∈ view -> wf_addr a /\ pex_filter this a = true) /\ (pex_filter this a = true -> a ∈ known <-> a ∈ view).

Lemma turn_view_ok live view known : (forall a, a ∈ live -> wf_addr a) -> view_ok known view ->
  view_ok (pex_learn known (task_send_pex this ord live view).1) (task_send_pex this ord live view).2.
Proof.
  intros Hl Hv a. destruct (turn_facts live view) as (_ & _ & Hc & Hd).
  assert (Hvw : forall a, a ∈ view -> wf_addr a) by (intros b Hb; by apply Hv). split.
  - rewrite view_after. intros [[Ha _]|[Ha Hf]]; [by apply Hv|]. split; [by apply Hl, Hc|done].
  - intros Hf. rewrite view_after, learn_after by done. destruct (Hv a) as [_ Hk]. rewrite (Hk Hf).
    split; [|intros [[Ha Hn]|[Ha _]]; [tauto|]].
    + intros [[Ha|Ha] Hn]; [by left|by right].
    + split; [by right|]. intros Hx. apply Hc in Ha as [Ha _]. by apply Hd in Hx as [_ Hx].
Qed.

Lemma run_view_ok lives : Forall (fun live : gset SocketAddr => forall a, a ∈ live -> wf_addr a) lives ->
  forall view known, view_ok known view ->
  view_ok (foldl pex_learn known (pex_run this ord lives view).1) (pex_run this ord lives view).2.
Proof.
  intros Hl. induction Hl as [|live lives Hlive _ IH]; intros view known Hv; [exact Hv|]. cbn [pex_run].
  pose proof (turn_view_ok live view known Hlive Hv) as Ht. destruct (task_send_pex this ord live view) as [m view'].
  specialize (IH view' _ Ht). destruct (pex_run this ord lives view') as [ms view'']. exact IH.
Qed.

Lemma pex_run_app l1 l2 view : pex_run this ord (l1 ++ l2) view =
  let '(ms1, v1) := pex_run this ord l1 view in let '(ms2, v2) := pex_run this ord l2 v1 in (ms1 ++ ms2, v2).
Proof.
  revert view. induction l1 as [|live l1 IH]; intros view; cbn [app pex_run]; [by destruct (pex_run this ord l2 view)|].
  destruct (task_send_pex this ord live view) as [m v]. rewrite IH. destruct (pex_run this ord l1 v) as [ms1 v1].
  by destruct (pex_run this ord l2 v1).
Qed.

(** A turn takes 50 addresses out of each difference. *)
Lemma take_ord_size n (s : gset SocketAddr) : size (s ∖ list_to_set (take n (ord s))) = (size s - n)%nat.
Proof.
  assert (Hnd : NoDup (ord s)) by (rewrite Hord; apply NoDup_elements).
  assert (Hlen : length (ord s) = size s) by (by rewrite Hord).
  rewrite size_difference by (intros a Ha%elem_of_list_to_set; by apply take_ord in Ha).
  rewrite size_list_to_set by (eapply sublist_NoDup; [exact Hnd|apply sublist_take]). rewrite length_take. lia.
Qed.

Lemma turn_shrinks live view : (forall a, a ∈ live -> pex_filter this a = true) ->
  let view' := (task_send_pex this ord live view).2 in
  size (live ∖ view') = (size (live ∖ view) - 50)%nat /\ size (view' ∖ live) = (size (view ∖ live) - 50)%nat.
Proof.
  intros Hf. destruct (turn_facts live view) as (_ & _ & Hc & Hd). cbv zeta. rewrite <- !(take_ord_size 50).
  split; f_equal; apply set_eq; intros a; rewrite !elem_of_difference, view_after, elem_of_list_to_set;
    cbn [pex_turn px_connected px_dropped] in *; fold MAX_SENT_PEERS; specialize (Hc a); specialize (Hd a); specialize (Hf a).
  - destruct (decide (a ∈ take MAX_SENT_PEERS (ord (live ∖ view)))), (decide (a ∈ take MAX_SENT_PEERS (ord (view ∖ live)))); tauto.
  - destruct (decide (a ∈ take MAX_SENT_PEERS (ord (live ∖ view)))), (decide (a ∈ take MAX_SENT_PEERS (ord (view ∖ live)))); tauto.
Qed.

Lemma turns_converge live : (forall a, a ∈ live -> pex_filter this a = true) -> forall n view,
  (size (live ∖ view) <= 50 * n)%nat -> (size (view ∖ live) <= 50 * n)%nat -> (pex_run this ord (replicate n live) view).2 = live.
Proof.
  intros Hf. induction n as [|n IH]; intros view H1 H2.
  - cbn. apply set_eq. intros a. assert (Hz : size (live ∖ view) = 0%nat /\ size (view ∖ live) = 0%nat) by lia.
    destruct Hz as [Hz1%size_empty_inv Hz2%size_empty_inv]. specialize (Hz1 a). specialize (Hz2 a).
    rewrite elem_of_difference, elem_of_empty in Hz1, Hz2. destruct (decide (a ∈ live)), (decide (a ∈ view)); tauto.
  - cbn [replicate pex_run]. destruct (turn_shrinks live view Hf) as [Hs1 Hs2].
    destruct (task_send_pex this ord live view) as [m v]. cbn [snd] in *.
    specialize (IH v ltac:(lia) ltac:(lia)). by destruct (pex_run this ord (replicate n live) v).
Qed.

(** C32: peer exchange converges: whatever peers came and went before, once
    the live outgoing peers stay the same and may all be told to the peer,
    after one message for every 50 of those it does not know, and of those it
    knows and should not, the peer knows exactly the live ones of the addresses
    that may be told. *)
Theorem pex_converges lives live n : Forall (fun live : gset SocketAddr => forall a, a ∈ live -> wf_addr a) (live :: lives) ->
  (forall a, a ∈ live -> pex_filter this a = true) ->
  (size live <= 50 * n)%nat -> (size (pex_run this ord lives ∅).2 <= 50 * n)%nat ->
  forall a, pex_filter this a = true ->
    a ∈ foldl pex_learn ∅ (pex_run this ord (lives ++ replicate n live) ∅).1 <-> a ∈ live.
Proof.
  intros Hwf Hf Hn Hv a Ha. apply Forall_cons in Hwf as [Hlive Hlives].
  assert (Hall : Forall (fun live : gset SocketAddr => forall a, a ∈ live -> wf_addr a) (lives ++ replicate n live)).
  { apply Forall_app. split; [done|]. by apply Forall_replicate. }
  assert (H0 : view_ok ∅ ∅) by (intros b; set_solver).
  destruct (run_view_ok _ Hall ∅ ∅ H0 a) as [_ Hk]. rewrite (Hk Ha). rewrite pex_run_app.
  destruct (pex_run this ord lives ∅) as [ms1 v1]. cbn [snd] in Hv.
  pose proof (turns_converge live Hf n v1) as Hc.
  destruct (pex_run this ord (replicate n live) v1) as [ms2 v2]. cbn [snd] in *. rewrite Hc; [done| |].
  - etrans; [apply subseteq_size|exact Hn]. set_solver.
  - etrans; [apply subseteq_size|exact Hv]. set_solver.
Qed.
End pex_properties.

(** ** Two addresses *)

(** 93.184.216.34 and 192.168.1.5. *)
Definition ex_public : SocketAddr := mkSocketAddr false (v4 93 184 216 34) 6881.
Definition ex_local : SocketAddr := mkSocketAddr false (v4 192 168 1 5) 6881.

Lemma ex_public_wf : wf_addr ex_public.
Proof. repeat split; vm_compute; congruence. Qed.

Lemma pex_converges_witness :
  ex_public ∈ foldl pex_learn ∅ (pex_run ex_public elements (replicate 1 {[ex_public]}) ∅).1.
Proof.
  apply (pex_converges ex_public elements (fun s => reflexivity (elements s)) [] {[ex_public]} 1).
  - apply Forall_cons. split; [|apply Forall_nil; exact I]. intros a Ha. apply elem_of_singleton in Ha as ->. exact ex_public_wf.
  - intros a Ha. apply elem_of_singleton in Ha as ->. vm_compute. reflexivity.
  - rewrite size_singleton. lia.
  - cbn [pex_run snd]. rewrite size_empty. lia.
  - vm_compute. reflexivity.
  - apply elem_of_singleton. reflexivity.
Defined.

(** The filter guards the view and not the messages: a local address is told
    to a public peer, and told again with every message. *)
Lemma local_address_is_sent : let live := {[ex_local]} in
  pex_filter ex_public ex_local = false /\
  pex_run ex_public elements [live; live] ∅ = ([Some (from_addrs [ex_local] []); Some (from_addrs [ex_local] [])], ∅).
Proof. split; vm_compute; reflexivity. Qed.
