(* ===== verification/PeerHandler.v ===== *)
(** * PeerHandler: what we say to a peer and do with what it says

    Models [torrent_state/live/peer_handler.rs] beyond the parts that are in
    [LiveDownload] and [Peers]: the handler of the messages of a peer and the
    task that requests chunks from it, over the piece tracker and the map of
    peers that all peers of the torrent share.  The code between two awaits is
    one step, so the interleavings of the peers are the sequences of events.

    A channel to the writer of a connection is the list of what was sent on it
    ([ph_out]); it is read by the same task that runs the handler and the
    requester, so it is open as long as these run.  [ph_in] is the list of the
    messages received, for the statements.  Rate limits only delay.  The
    torrent is not paused; one connection per address. *)

From stdpp Require Import strings.
From S2P Require Import Prelude Lengths BitBox FileInfo ChunkTracker Duration PieceTracker HashId Message Metadata Compact Peers PeerTasks.
From S2P Require LiveDownload.

(** ** Extended messages *)

Record PeerExtendedMessageIds := mkExtIds {
  ut_metadata : option Z;
  ut_pex : option Z;
  ut_holepunch : option Z;
}.

Record ExtendedHandshake := mkExtHandshake {
  eh_m : PeerExtendedMessageIds;
  eh_p : option Z;
  eh_v : option (list Z);
  eh_yourip : option (bool * Z);
  eh_ipv6 : option Z;
  eh_ipv4 : option Z;
  eh_reqq : option Z;
  eh_metadata_size : option Z;
  eh_complete_ago : option Z;
  eh_upload_only : option Z;
}.

Definition MY_EXTENDED_UT_METADATA : Z := 3.
Definition MY_EXTENDED_UT_PEX : Z := 1.
Definition MY_EXTENDED_UT_HOLEPUNCH : Z := 4.

(** [ExtendedHandshake::new]. *)
Definition ext_handshake_new : ExtendedHandshake :=
  mkExtHandshake (mkExtIds (Some MY_EXTENDED_UT_METADATA) (Some MY_EXTENDED_UT_PEX) (Some MY_EXTENDED_UT_HOLEPUNCH))
    None None None None None None None None None.

(** [ip_addr] and [port]. *)
Definition hs_ip_addr (h : ExtendedHandshake) : option (bool * Z) :=
  match eh_ipv4 h, eh_ipv6 h with
  | Some ip, _ => Some (false, ip)
  | None, Some ip => Some (true, ip)
  | None, None => None
  end.

Definition hs_port (h : ExtendedHandshake) : option Z := p ← eh_p h; if p <? U16 then Some p else None.

Definition apply_extended_handshake_privacy (h : ExtendedHandshake) (private : bool) (info_bytes_len : Z) : ExtendedHandshake :=
  if private then
    mkExtHandshake (mkExtIds None None None) (eh_p h) (eh_v h) (eh_yourip h) (eh_ipv6 h) (eh_ipv4 h) (eh_reqq h)
      (eh_metadata_size h) (eh_complete_ago h) (eh_upload_only h)
  else
    match (if negb (info_bytes_len =? 0) then try_into_u32 info_bytes_len else None) with
    | Some len => mkExtHandshake (eh_m h) (eh_p h) (eh_v h) (eh_yourip h) (eh_ipv6 h) (eh_ipv4 h) (eh_reqq h)
                    (Some len) (eh_complete_ago h) (eh_upload_only h)
    | None => h
    end.

Inductive ExtendedMessage :=
| EHandshake (h : ExtendedHandshake)
| EUtMetadata (m : UtMetadata)
| EUtPex (p : UtPex)
| EUtHolepunch (m : HolepunchMessage)
| EDyn (id : Z).

Abbreviation PeerMessage := (@Message.Message ExtendedMessage).

(** What is sent to the writer of a connection. *)
Inductive WriterRequest :=
| WMessage (m : PeerMessage)
| WUtMetadata (m : UtMetadata)
| WUtPex (p : UtPex)
| WUtHolepunch (m : HolepunchMessage)
| WReadChunk (c : ChunkInfo)
| WDisconnect.

(** ** State *)

(** Where [task_peer_chunk_requester] is. *)
Inductive Requester :=
| RStart
| RWaitBitfield
| RTop
| RSleeping
| RDisconnecting
| RWaitUnchoke
| RAcquire
| RStolen (piece : ValidPieceIndex) (from : SocketAddr)  (* to be told to the peer that lost it *)
| RWaitPieces
| RChunk (rest : list ChunkInfo)
| RPermit (chunk : ChunkInfo) (rest : list ChunkInfo)
| ROver.

Record Handler := mkHandler {
  ph_incoming : bool;
  ph_choked : bool;
  ph_permits : Z;
  ph_first : bool;
  ph_interest : bool;
  ph_requester : Requester;
  ph_pending : option PieceMsg;  (* a chunk on its way to the disk *)
  ph_out : list WriterRequest;
  ph_in : list PeerMessage;
  ph_pex : list (gset SocketAddr);  (* what the running PEX tasks take the peer to know *)
}.

Definition handler_start (incoming : bool) : Handler := mkHandler incoming true 0 false false RStart None [] [] [].

Definition with_choked (h : Handler) (b : bool) : Handler :=
  mkHandler (ph_incoming h) b (ph_permits h) (ph_first h) (ph_interest h) (ph_requester h) (ph_pending h) (ph_out h) (ph_in h) (ph_pex h).
Definition add_permits (h : Handler) (n : Z) : Handler :=
  mkHandler (ph_incoming h) (ph_choked h) (ph_permits h + n) (ph_first h) (ph_interest h) (ph_requester h) (ph_pending h) (ph_out h) (ph_in h) (ph_pex h).
Definition with_first (h : Handler) : Handler :=
  mkHandler (ph_incoming h) (ph_choked h) (ph_permits h) true (ph_interest h) (ph_requester h) (ph_pending h) (ph_out h) (ph_in h) (ph_pex h).
Definition with_requester (h : Handler) (r : Requester) : Handler :=
  mkHandler (ph_incoming h) (ph_choked h) (ph_permits h) (ph_first h) (ph_interest h) r (ph_pending h) (ph_out h) (ph_in h) (ph_pex h).
Definition with_pending (h : Handler) (p : option PieceMsg) : Handler :=
  mkHandler (ph_incoming h) (ph_choked h) (ph_permits h) (ph_first h) (ph_interest h) (ph_requester h) p (ph_out h) (ph_in h) (ph_pex h).
Definition send (h : Handler) (w : WriterRequest) : Handler :=
  mkHandler (ph_incoming h) (ph_choked h) (ph_permits h) (ph_first h) (ph_interest h) (ph_requester h) (ph_pending h) (ph_out h ++ [w]) (ph_in h) (ph_pex h).
Definition receive (h : Handler) (m : PeerMessage) : Handler :=
  mkHandler (ph_incoming h) (ph_choked h) (ph_permits h) (ph_first h) (ph_interest h) (ph_requester h) (ph_pending h) (ph_out h) (ph_in h ++ [m]) (ph_pex h).
Definition with_interest (h : Handler) (b : bool) : Handler :=
  mkHandler (ph_incoming h) (ph_choked h) (ph_permits h) (ph_first h) b (ph_requester h) (ph_pending h) (ph_out h) (ph_in h) (ph_pex h).
Definition with_pex (h : Handler) (l : list (gset SocketAddr)) : Handler :=
  mkHandler (ph_incoming h) (ph_choked h) (ph_permits h) (ph_first h) (ph_interest h) (ph_requester h) (ph_pending h) (ph_out h) (ph_in h) l.

(** [notify_waiters] wakes a task that waits; one that does not is not told. *)
Definition notify_bitfield (h : Handler) : Handler :=
  match ph_requester h with RWaitBitfield => with_requester h RTop | _ => h end.
Definition notify_unchoke (h : Handler) : Handler :=
  match ph_requester h with RWaitUnchoke => with_requester h RAcquire | _ => h end.
Definition notify_pieces (h : Handler) : Handler :=
  match ph_requester h with RWaitPieces => with_requester h RTop | _ => h end.

(** [update_interest]. *)
Definition update_interest (h : Handler) (new_value : bool) : Handler :=
  if negb (Bool.eqb new_value (ph_interest h))
  then with_interest (send h (WMessage (if new_value then MInterested else MNotInterested))) new_value
  else h.

Inductive HandlerError :=
| UploadDisabled | InvalidPieceIndex | InvalidChunk | NotReady | BitfieldSize | InvalidPiece | NotRequested
| PeerNotFound | MetadataFailed (e : MetadataError).

Section swarm.
Context {B : Type} `{BitRaw B}.

(** What does not change while a torrent is live. *)
Record Torrent := mkTorrent {
  t_private : bool;
  t_info_bytes : list Z;
  t_disable_upload : bool;
  t_file_infos : list FileInfo;
}.

Record Swarm := mkSwarm {
  sw_live : LiveDownload.Live B SocketAddr;
  sw_peers : PeerStates B SocketAddr;
  sw_handlers : gmap SocketAddr Handler;
  sw_uploads : list (SocketAddr * ChunkInfo);  (* [ratelimit_upload_tx] *)
}.

Definition sw_chunks (s : Swarm) : ChunkTracker B := pt_chunks (LiveDownload.lv_pieces (sw_live s)).
Definition sw_lengths (s : Swarm) : Lengths.Lengths := lengths (sw_chunks s).

Definition set_live (s : Swarm) (l : LiveDownload.Live B SocketAddr) : Swarm := mkSwarm l (sw_peers s) (sw_handlers s) (sw_uploads s).
Definition set_peers (s : Swarm) (p : PeerStates B SocketAddr) : Swarm := mkSwarm (sw_live s) p (sw_handlers s) (sw_uploads s).
Definition set_handlers (s : Swarm) (m : gmap SocketAddr Handler) : Swarm := mkSwarm (sw_live s) (sw_peers s) m (sw_uploads s).
Definition set_uploads (s : Swarm) (l : list (SocketAddr * ChunkInfo)) : Swarm := mkSwarm (sw_live s) (sw_peers s) (sw_handlers s) l.

Definition on_handler (addr : SocketAddr) (f : Handler -> Handler) (s : Swarm) : Swarm :=
  set_handlers s (alter f addr (sw_handlers s)).

(** [new_pieces_notify.notify_waiters()]. *)
Definition new_pieces_notify (s : Swarm) : Swarm := set_handlers s (notify_pieces <$> sw_handlers s).

(** [make_piece_bitfield]. *)
Definition make_piece_bitfield (l : Lengths.Lengths) : B := zeroed_bytes (Z.to_nat (Lengths.piece_bitfield_bytes l)).

Section torrent.
Variable t : Torrent.

(** ** The messages of a peer *)

Definition on_download_request (addr : SocketAddr) (r : Request) (s : Swarm) : result HandlerError Swarm :=
  if t_disable_upload t then Err UploadDisabled
  else
    piece_index ←? ok_or (Lengths.validate_piece_index (sw_lengths s) (Message.rq_index r)) InvalidPieceIndex;
    chunk_info ←? ok_or (Lengths.chunk_info_from_received_data (sw_lengths s) piece_index (rq_begin r) (rq_length r)) InvalidChunk;
    if negb (is_chunk_ready_to_upload (sw_chunks s) chunk_info) then Err NotReady
    else Ok (set_uploads s (sw_uploads s ++ [(addr, chunk_info)])).

Definition on_have (addr : SocketAddr) (have : Z) (s : Swarm) : Swarm :=
  let '(_, ps) := with_live_mut addr (fun l =>
    let bf := if (bit_len (lp_bitfield l) =? 0) then make_piece_bitfield (sw_lengths s) else lp_bitfield l in
    let bf := if have <? bit_len bf then bit_set (Z.to_nat have) true bf else bf in
    (tt, mkLive (lp_peer_id l) (lp_peer_interested l) bf (lp_inflight_requests l) (lp_tx l) (lp_connection_kind l))) (sw_peers s) in
  on_handler addr notify_bitfield (set_peers s ps).

Definition on_bitfield (addr : SocketAddr) (bytes : list Z) (s : Swarm) : result HandlerError Swarm :=
  if negb (Z.of_nat (length bytes) =? Lengths.piece_bitfield_bytes (sw_lengths s)) then Err BitfieldSize
  else Ok (on_handler addr notify_bitfield (set_peers s (update_bitfield addr (from_vec bytes) (sw_peers s)).2)).

Definition on_i_am_choked (h : Handler) : Handler := with_choked h true.

Definition on_i_am_unchoked (h : Handler) : Handler := add_permits (notify_unchoke (with_choked h false)) 128.

Definition on_peer_interested (addr : SocketAddr) (s : Swarm) : Swarm :=
  set_peers s (mark_peer_interested addr true (sw_peers s)).2.

(** [on_received_piece] up to the wait for the disk. *)
Definition on_received_piece (addr : SocketAddr) (p : Piece) (s : Swarm) : result HandlerError Swarm :=
  let msg := mkPieceMsg (p_index p) (p_begin p) (Z.of_nat (piece_len p)) in
  chunk_info ←? ok_or (LiveDownload.on_received_piece (sw_lengths s) msg) InvalidPiece;
  let s := on_handler addr (fun h => add_permits h 1) s in
  let '(r, ps) := with_live_mut addr (fun l =>
    (bool_decide (chunk_info ∈ lp_inflight_requests l),
     mkLive (lp_peer_id l) (lp_peer_interested l) (lp_bitfield l) (lp_inflight_requests l ∖ {[chunk_info]}) (lp_tx l)
       (lp_connection_kind l))) (sw_peers s) in
  match r with
  | None => Err PeerNotFound
  | Some false => Err NotRequested
  | Some true => Ok (on_handler addr (fun h => with_pending h (Some msg)) (set_peers s ps))
  end.

Definition on_pex_message (now : Z) (p : UtPex) (s : Swarm) : Swarm :=
  set_peers s (foldl (fun ps peer => (add_if_not_seen now (px_addr peer) ps).2) (sw_peers s) (dropped_peers p ++ added_peers p)).

Definition on_holepunch_message (now : Z) (addr : SocketAddr) (m : HolepunchMessage) (s : Swarm) : Swarm :=
  if t_private t then s
  else
    match hp_msg_type m with
    | Rendezvous =>
        match with_live (hp_addr m) id (sw_peers s) with
        | Some _ =>
            let s := on_handler (hp_addr m) (fun h => send h (WUtHolepunch (mkHolepunch HConnect addr None))) s in
            on_handler addr (fun h => send h (WUtHolepunch (mkHolepunch HConnect (hp_addr m) None))) s
        | None => on_handler addr (fun h => send h (WUtHolepunch (mkHolepunch HError (hp_addr m) (Some NotConnected)))) s
        end
    | HConnect => set_peers s (add_if_not_seen now (hp_addr m) (sw_peers s)).2
    | HError => s
    end.

Definition on_received_message (now : Z) (addr : SocketAddr) (m : PeerMessage) (s : Swarm) : outcome (result HandlerError Swarm) :=
  let first := match m with MBitfield _ => id | _ => fun h => if ph_first h then h else notify_bitfield (with_first h) end in
  let s := on_handler addr first s in
  match m with
  | MRequest r => Done (on_download_request addr r s)
  | MBitfield b => Done (on_bitfield addr b s)
  | MChoke => Done (Ok (on_handler addr on_i_am_choked s))
  | MUnchoke => Done (Ok (on_handler addr on_i_am_unchoked s))
  | MInterested => Done (Ok (on_peer_interested addr s))
  | MPiece p => Done (on_received_piece addr p s)
  | MHave h => Done (Ok (on_have addr h s))
  | MHaveAll | MHaveNone => Done (on_bitfield addr (replicate (Z.to_nat (Lengths.piece_bitfield_bytes (sw_lengths s))) 0) s)
  | MExtended (EUtMetadata (UtRequest piece)) =>
      if t_private t then Done (Ok s)
      else
        r ←! send_metadata_piece (t_info_bytes t) piece;
        Done (match r with
              | Err e => Err (MetadataFailed e)
              | Ok d => Ok (on_handler addr (fun h => send h (WUtMetadata (UtData d))) s)
              end)
  | MExtended (EUtPex p) => Done (Ok (if t_private t then s else on_pex_message now p s))
  | MExtended (EUtHolepunch m) => Done (Ok (on_holepunch_message now addr m s))
  | _ => Done (Ok s)
  end.

(** The task that sends PEX messages to a peer is started, with nothing in its
    view of what the peer knows. *)
Definition spawn_pex (addr : SocketAddr) (s : Swarm) : Swarm := on_handler addr (fun h => with_pex h (ph_pex h ++ [∅])) s.

(** Every extended handshake of a peer starts a task. *)
Definition on_extended_handshake (addr : SocketAddr) (h : ExtendedHandshake) (s : Swarm) : Swarm :=
  let s := if negb (t_private t) && bool_decide (is_Some (ut_pex (eh_m h))) then spawn_pex addr s else s in
  match sw_handlers s !! addr, hs_port h with
  | Some hd, Some port =>
      if ph_incoming hd then
        let '(v6, ip) := default (sa_ipv6 addr, sa_ip addr) (hs_ip_addr h) in
        set_peers s (update_outgoing_addr addr (mkSocketAddr v6 ip port) (sw_peers s))
      else s
  | _, _ => s
  end.

(** A turn of the [n]th PEX task of a peer ([task_send_pex_to_peer]): it reads
    the live peers, sends what changed and keeps its new view. *)
Definition pex_step (ord : gset SocketAddr -> list SocketAddr) (addr : SocketAddr) (n : nat) (s : Swarm) : Swarm :=
  match sw_handlers s !! addr with
  | None => s
  | Some h =>
      match ph_pex h !! n with
      | None => s
      | Some view =>
          let '(m, view) := task_send_pex addr ord (live_outgoing_peers (sw_peers s)) view in
          let h := match m with Some p => send h (WUtPex p) | None => h end in
          on_handler addr (fun _ => with_pex h (<[n := view]> (ph_pex h))) s
      end
  end.

Definition should_transmit_have (addr : SocketAddr) (id_ : Z) (s : Swarm) : bool :=
  if t_disable_upload t then false
  else negb (default true (with_live addr (fun l => default true (bits (lp_bitfield l) !! Z.to_nat id_)) (sw_peers s))).

(** ** The end of a connection *)

(** [on_peer_died]; [streams]: a stream reads an unfinished file. *)
Definition is_finished_and_no_active_streams (streams : bool) (s : Swarm) : bool :=
  is_finished (sw_chunks s) && negb streams.

(** The channel of the peer is closed: what waits to be uploaded on it is
    dropped. *)
Definition peer_died (now : Z) (ord : order SocketAddr) (streams : bool) (addr : SocketAddr) (error : bool) (s : Swarm) : outcome Swarm :=
  let finished := is_finished_and_no_active_streams streams s in
  let '(dropped, ps) := on_peer_died now addr error finished (sw_peers s) in
  let ps := if dropped then (drop_peer addr ps).2 else ps in
  let s' := set_handlers (set_peers s ps) (delete addr (sw_handlers s)) in
  let s' := set_uploads s' (List.filter (fun u => negb (bool_decide (u.1 = addr))) (sw_uploads s)) in
  match with_live addr id (sw_peers s) with
  | Some l =>
      r ←! release_pieces_owned_by ord (LiveDownload.lv_pieces (sw_live s)) addr;
      let s' := set_live s' (LiveDownload.mkLive r.2 (LiveDownload.lv_tasks (sw_live s))) in
      Done (if (0 <? r.1) || negb (bool_decide (lp_inflight_requests l = ∅)) then new_pieces_notify s' else s')
  | None => Done s'
  end.

(** ** The requester *)

(** [can_steal]: nobody holds the lock of the piece to write to it. *)
Definition can_steal (live : LiveDownload.Live B SocketAddr) (i : ValidPieceIndex) : bool :=
  forallb (fun '(_, task) =>
    match task with LiveDownload.Writing _ ci => negb (ci_piece_index ci =? i) | _ => true end)
    (map_to_list (LiveDownload.lv_tasks live)).

(** What the requester reads besides the state: the clock, the order of the
    pieces in flight, the average piece time of the peer, the pieces the
    streams want, the priorities of the files, and whether a stream reads an
    unfinished file. *)
Record ReqInput := mkReqInput {
  ri_now : Z;
  ri_ord : order SocketAddr;
  ri_avg : option Z;
  ri_priority : list ValidPieceIndex;
  ri_file_priorities : list Z;
  ri_streams : bool;
}.

Definition acquire_request (i : ReqInput) (addr : SocketAddr) (bf : B) (s : Swarm) : AcquireRequest SocketAddr :=
  mkAcquireRequest addr (ri_avg i) (ri_priority i) (ri_file_priorities i) (t_file_infos t)
    (fun p => bool_decide (bits bf !! Z.to_nat p = Some true)) (can_steal (sw_live s)).

(** [acquire_next_piece], up to the message to the peer a piece was stolen
    from. *)
Definition acquire_next_piece (i : ReqInput) (addr : SocketAddr) (h : Handler) (s : Swarm) :
    outcome (AcquireResult SocketAddr * Swarm) :=
  match with_live addr id (sw_peers s) with
  | None => Done (NoneAvailable, s)
  | Some l =>
      if ph_choked h then Done (NoneAvailable, s)
      else
        r ←! acquire_piece (ri_now i) (ri_ord i) (LiveDownload.lv_pieces (sw_live s)) (acquire_request i addr (lp_bitfield l) s);
        Done (r.1, set_live s (LiveDownload.mkLive r.2 (LiveDownload.lv_tasks (sw_live s))))
  end.

(** [peers.on_steal]: the peer that lost the piece is told to cancel its
    requests. *)
Definition notify_steal (from to : SocketAddr) (piece : ValidPieceIndex) (s : Swarm) : Swarm :=
  let '(cancels, ps) := on_steal from to piece (sw_peers s) in
  foldl (fun s c => on_handler from (fun h => send h (WMessage (MCancel c.2))) s) (set_peers s ps) cancels.

(** One step of [task_peer_chunk_requester], to the next await. *)
Definition requester_step (i : ReqInput) (addr : SocketAddr) (s : Swarm) : outcome Swarm :=
  match sw_handlers s !! addr with
  | None => Done s
  | Some h =>
      let goto r s := on_handler addr (fun h => with_requester h r) s in
      match ph_requester h with
      | RStart =>
          Done (goto (if default false (with_live addr (fun l => negb (bit_len (lp_bitfield l) =? 0)) (sw_peers s))
                      then RTop else RWaitBitfield) s)
      | RTop =>
          if is_finished_and_no_active_streams (ri_streams i) s then
            let s := on_handler addr (fun h => update_interest h false) s in
            if is_peer_not_interested_and_has_full_torrent addr (Lengths.total_pieces (sw_lengths s)) (sw_peers s)
            then Done (goto RDisconnecting (on_handler addr (fun h => send h WDisconnect) s))
            else Done (goto RSleeping s)
          else
            let s := on_handler addr (fun h => update_interest h true) s in
            Done (goto (if ph_choked h then RWaitUnchoke else RAcquire) s)
      | RSleeping | RWaitPieces => Done (goto RTop s)
      | RDisconnecting => Done (goto ROver s)
      | RAcquire =>
          r ←! acquire_next_piece i addr h s;
          match r with
          | (Reserved p, s) => Done (goto (RChunk (Lengths.iter_chunk_infos (sw_lengths s) p)) s)
          | (Stolen p from, s) => Done (goto (RStolen p from) s)
          | (NoneAvailable, s) => Done (goto RWaitPieces s)
          end
      | RStolen p from => Done (goto (RChunk (Lengths.iter_chunk_infos (sw_lengths s) p)) (notify_steal from addr p s))
      | RChunk [] => Done (goto RTop s)
      | RChunk (c :: rest) =>
          let '(r, ps) := with_live_mut addr (fun l =>
            (negb (bool_decide (c ∈ lp_inflight_requests l)),
             mkLive (lp_peer_id l) (lp_peer_interested l) (lp_bitfield l) ({[c]} ∪ lp_inflight_requests l) (lp_tx l)
               (lp_connection_kind l))) (sw_peers s) in
          let s := set_peers s ps in
          match r with
          | None => Done (goto ROver s)
          | Some false => Done (goto (RChunk rest) s)
          | Some true => Done (goto (if ci_size c =? 0 then RChunk rest else RPermit c rest) s)
          end
      | RPermit c rest =>
          if 0 <? ph_permits h then
            let s := on_handler addr (fun h => send (add_permits h (-1)) (WMessage (MRequest (mkRequest (ci_piece_index c) (ci_offset c) (ci_size c))))) s in
            Done (goto (RChunk rest) s)
          else Done s
      | RWaitBitfield | RWaitUnchoke | ROver => Done s
      end
  end.

(** ** Events *)

Inductive SwarmEvent :=
| EvPeers (e : Peers.event (B := B) (Addr := SocketAddr))
| EvStart (addr : SocketAddr) (incoming : bool)
| EvMessage (i : ReqInput) (addr : SocketAddr) (m : PeerMessage)
| EvExtHandshake (addr : SocketAddr) (h : ExtendedHandshake)
| EvPex (ord : gset SocketAddr -> list SocketAddr) (addr : SocketAddr) (n : nat)
| EvRequester (i : ReqInput) (addr : SocketAddr)
| EvDiskStart (addr : SocketAddr)
| EvDiskWritten (i : ReqInput) (addr : SocketAddr)
| EvDiskChecked (i : ReqInput) (addr : SocketAddr) (check_piece : option bool)
| EvDiskCompleted (addr : SocketAddr)
| EvDied (i : ReqInput) (addr : SocketAddr) (error : bool)
| EvUpload
| EvSelect (only : gset Z).

Definition die (i : ReqInput) (addr : SocketAddr) (error : bool) (s : Swarm) : outcome Swarm :=
  peer_died (ri_now i) (ri_ord i) (ri_streams i) addr error s.

Definition live_event (s : Swarm) (e : LiveDownload.event SocketAddr) : outcome Swarm :=
  live ←! LiveDownload.exec (sw_live s) e; Done (set_live s live).

(** An event whose turn it is not changes nothing. *)
Definition swarm_step (s : Swarm) (ev : SwarmEvent) : outcome Swarm :=
  match ev with
  | EvPeers e => ps ←! Peers.exec e (sw_peers s); Done (set_peers s ps)
  | EvStart addr incoming =>
      match sw_handlers s !! addr with
      | Some _ => Done s
      | None => Done (set_handlers s (<[addr := handler_start incoming]> (sw_handlers s)))
      end
  | EvMessage i addr m =>
      match sw_handlers s !! addr, LiveDownload.lv_tasks (sw_live s) !! addr with
      | Some h, None =>
          match ph_pending h with
          | Some _ => Done s
          | None =>
              let s := on_handler addr (fun h => receive h m) s in
              r ←! on_received_message (ri_now i) addr m s;
              match r with Ok s => Done s | Err _ => die i addr true s end
          end
      | _, _ => Done s
      end
  | EvExtHandshake addr h => Done (on_extended_handshake addr h s)
  | EvPex ord addr n => Done (pex_step ord addr n s)
  | EvRequester i addr => requester_step i addr s
  | EvDiskStart addr =>
      match sw_handlers s !! addr, LiveDownload.lv_tasks (sw_live s) !! addr with
      | Some h, None =>
          match ph_pending h with
          | Some msg => live_event (on_handler addr (fun h => with_pending h None) s) (LiveDownload.Receive addr msg)
          | None => Done s
          end
      | _, _ => Done s
      end
  | EvDiskWritten i addr =>
      match LiveDownload.lv_tasks (sw_live s) !! addr with
      | Some (LiveDownload.Writing msg ci) =>
          r ←! LiveDownload.chunk_written (ri_now i) (LiveDownload.lv_pieces (sw_live s)) msg ci;
          s ←! live_event s (LiveDownload.Written (ri_now i) addr);
          match r with Ok _ => Done s | Err _ => die i addr true s end
      | _ => Done s
      end
  | EvDiskChecked i addr check_piece =>
      match LiveDownload.lv_tasks (sw_live s) !! addr with
      | Some (LiveDownload.Checking _) =>
          s ←! live_event s (LiveDownload.Checked addr check_piece);
          match check_piece with
          | Some true => Done s
          | Some false => die i addr true (new_pieces_notify s)
          | None => die i addr true s
          end
      | _ => Done s
      end
  | EvDiskCompleted addr =>
      match LiveDownload.lv_tasks (sw_live s) !! addr with
      | Some (LiveDownload.Completing _) => live_event s (LiveDownload.PieceCompleted addr (t_file_infos t))
      | _ => Done s
      end
  | EvDied i addr error =>
      match sw_handlers s !! addr, LiveDownload.lv_tasks (sw_live s) !! addr with
      | Some _, None => die i addr error s
      | _, _ => Done s
      end
  | EvUpload =>
      match sw_uploads s with
      | [] => Done s
      | (addr, c) :: l =>
          if ci_size c =? 0 then Panic
          else Done (on_handler addr (fun h => send h (WReadChunk c)) (set_uploads s l))
      end
  | EvSelect only => live_event s (LiveDownload.SelectFiles (t_file_infos t) only)
  end.

Definition run_swarm (s : Swarm) (evs : list SwarmEvent) : outcome Swarm := for_each swarm_step s evs.
End torrent.
End swarm.

(** ** The number of files stays *)

Section slots.
Context {B : Type} `{BitBox B} {P : Type} `{Countable P}.

Definition slots (ct : ChunkTracker B) : nat := length (per_file_bytes ct).
Definition pt_slots (pt : PieceTracker B P) : nat := slots (pt_chunks pt).

Lemma for_each_keeps {A S N} (g : S -> N) (f : S -> A -> outcome S) l : (forall s a s', f s a = Done s' -> g s' = g s) ->
  forall s s', for_each f s l = Done s' -> g s' = g s.
Proof.
  intros Hf. induction l as [|a l IH]; intros s s'; simpl; [by intros [= ->]|].
  destruct (f s a) as [s1|] eqn:Hs; [|done]. rsimpl. intros Hl. rewrite (IH s1 s' Hl). by apply (Hf s a).
Qed.

(** Case analysis along the binds of a computation that ended. *)
Ltac run_cases :=
  repeat (rsimpl; match goal with
  | |- context [outcome_bind ?m _] =>
      lazymatch m with outcome_bind _ _ => fail | _ => let E := fresh "E" in destruct m eqn:E; [|done] end
  | |- context [match ?x with _ => _ end] => let E := fresh "E" in destruct x eqn:E
  end); rsimpl; try done; try by intros [= <-].

Lemma broken_slots (ct ct' : ChunkTracker B) i : mark_piece_broken_if_not_have ct i = Done ct' -> slots ct' = slots ct.
Proof. unfold mark_piece_broken_if_not_have. run_cases. Qed.

Lemma downloaded_slots (ct ct' : ChunkTracker B) i : mark_piece_downloaded ct i = Done ct' -> slots ct' = slots ct.
Proof. unfold mark_piece_downloaded. run_cases. Qed.

Lemma marked_slots (ct : ChunkTracker B) msg r : mark_chunk_downloaded ct msg = Done r -> slots r.2 = slots ct.
Proof. unfold mark_chunk_downloaded. run_cases. Qed.

Lemma select_slots (ct : ChunkTracker B) fis only r : update_only_files ct fis only = Done r -> slots r.2 = slots ct.
Proof.
  unfold update_only_files. destruct (filter_outcome _ _) as [idxs|]; [|done]. rsimpl.
  destruct (for_each _ _ idxs) as [b|]; [|done]. rsimpl. destruct (for_each _ _ (bit_iter_ones b)) as [ct1|] eqn:Hl; [|done].
  rsimpl. destruct (calc_hns _); [|done]. rsimpl. intros [= <-]. apply (for_each_keeps slots) in Hl; [done|].
  intros ct0 i ct'. destruct (_ ← try_into_u32 i; _); [apply broken_slots|by intros [= ->]].
Qed.

Lemma completed_slots (pt : PieceTracker B P) fis i pt' : LiveDownload.on_piece_completed pt fis i = Done pt' -> pt_slots pt' = pt_slots pt.
Proof.
  apply (for_each_keeps pt_slots). intros pt0 [idx fi] pt1. unfold pt_update_file_have_on_piece_completed, update_file_have_on_piece_completed.
  destruct (unwrap _); [|done]. rsimpl. intros [= <-]. unfold pt_slots, slots. simpl. by rewrite length_insert.
Qed.

Lemma reserve_slots now (pt : PieceTracker B P) i p r : reserve_piece now pt i p = Done r -> pt_slots r.2 = pt_slots pt.
Proof. unfold reserve_piece, reserve_needed_piece. run_cases. Qed.

Lemma steal_slots now ord (pt : PieceTracker B P) req n r : try_steal now ord pt req n = Done (Some r) -> pt_slots r.2 = pt_slots pt.
Proof. unfold try_steal. run_cases. Qed.

Lemma acquire_slots now ord (pt : PieceTracker B P) req r : acquire_piece now ord pt req = Done r -> pt_slots r.2 = pt_slots pt.
Proof.
  unfold acquire_piece. destruct (try_steal now ord pt req 10) as [[x|]|] eqn:H1; [|rsimpl|done].
  { intros [= <-]. by apply steal_slots in H1. }
  destruct (find_priority _ _ _) as [[i|]|]; [rsimpl; apply reserve_slots|rsimpl|done].
  destruct (iter_queued_pieces _ _ _) as [l|]; [rsimpl|done]. destruct (List.find _ l); [apply reserve_slots|].
  destruct (try_steal now ord pt req 3) as [[x|]|] eqn:H3; rsimpl; [|by intros [= <-]|done].
  intros [= <-]. by apply steal_slots in H3.
Qed.

Lemma release_slots ord (pt : PieceTracker B P) p r : release_pieces_owned_by ord pt p = Done r -> pt_slots r.2 = pt_slots pt.
Proof.
  unfold release_pieces_owned_by. destruct (for_each _ _ _) as [pt'|] eqn:Hl; [|done]. rsimpl. intros [= <-].
  apply (for_each_keeps pt_slots) in Hl; [done|]. intros pt0 i pt1. cbn zeta.
  destruct (mark_piece_broken_if_not_have _ _) as [ct|] eqn:Hb; [|done]. rsimpl. intros [= <-]. by apply broken_slots in Hb.
Qed.

Definition live_slots (l : LiveDownload.Live B P) : nat := pt_slots (LiveDownload.lv_pieces l).

Lemma exec_slots (l l' : LiveDownload.Live B P) e : LiveDownload.exec l e = Done l' -> live_slots l' = live_slots l.
Proof.
  destruct e as [now ord req|p msg|now p|p|p c|p fis|ord p|fis only]; cbn [LiveDownload.exec].
  - destruct (acquire_piece _ _ _ _) as [r|] eqn:Hr; [|done]. rsimpl. intros [= <-]. by apply acquire_slots in Hr.
  - run_cases.
  - destruct (LiveDownload.lv_tasks l !! p) as [[msg ci| |]|]; try by intros [= <-].
    unfold LiveDownload.chunk_written, pt_mark_chunk_downloaded, take_inflight.
    destruct (mark_chunk_downloaded _ _) as [[m ct]|] eqn:Hr; [|done]. apply marked_slots in Hr. rsimpl. cbn [fst snd].
    destruct m as [[]|]; rsimpl; try by intros [= <-]. destruct (_ !! _); by intros [= <-].
  - by intros [= <-].
  - destruct (LiveDownload.lv_tasks l !! p) as [[|i|]|]; try by intros [= <-].
    unfold LiveDownload.piece_checked, mark_piece_hash_ok, mark_piece_hash_failed. destruct c as [[]|]; rsimpl.
    + destruct (mark_piece_downloaded _ _) as [ct|] eqn:Hc; [|done]. rsimpl. intros [= <-]. by apply downloaded_slots in Hc.
    + destruct (mark_piece_broken_if_not_have _ _) as [ct|] eqn:Hc; [|done]. rsimpl. intros [= <-]. by apply broken_slots in Hc.
    + by intros [= <-].
  - destruct (LiveDownload.lv_tasks l !! p) as [[| |i]|]; try by intros [= <-].
    destruct (LiveDownload.on_piece_completed _ _ _) as [pt|] eqn:Hc; [|done]. rsimpl. intros [= <-]. by apply completed_slots in Hc.
  - destruct (release_pieces_owned_by _ _ _) as [r|] eqn:Hr; [|done]. rsimpl. intros [= <-]. by apply release_slots in Hr.
  - unfold pt_update_only_files. destruct (update_only_files _ _ _) as [r|] eqn:Hr; [|done]. rsimpl. intros [= <-]. by apply select_slots in Hr.
Qed.
End slots.

(** ** What a step does to the handlers *)

Definition is_request (w : WriterRequest) : bool := match w with WMessage (MRequest _) => true | _ => false end.

Definition is_piece (m : PeerMessage) : bool := match m with MPiece _ => true | _ => false end.
Definition is_unchoke (m : PeerMessage) : bool := match m with MUnchoke => true | _ => false end.

(** The permits a message gives. *)
Definition gain (m : PeerMessage) : Z := match m with MUnchoke => 128 | MPiece _ => 1 | _ => 0 end.

Definition piece_msg (p : Piece) : PieceMsg := mkPieceMsg (p_index p) (p_begin p) (Z.of_nat (piece_len p)).

(** What may be sent, what is received, and whether a PEX task may start. *)
Record Allowed := mkAllowed {
  al_send : WriterRequest -> Prop;
  al_receive : PeerMessage -> Prop;
  al_pex : Prop;
}.

Section handler_steps.
Context (ok : Allowed).

(** The steps of a handler: it moves, sends what is allowed, receives a
    message with its permits, sends a request for a permit, hands a chunk it
    received to the disk, starts a PEX task, which sends from then on. *)
Inductive hstep : Handler -> Handler -> Prop :=
| h_move h h' : ph_out h' = ph_out h -> ph_in h' = ph_in h -> ph_permits h' = ph_permits h -> ph_pex h' = ph_pex h ->
    ph_pending h' = ph_pending h \/ ph_pending h' = None -> hstep h h'
| h_send h w : al_send ok w -> is_request w = false -> hstep h (send h w)
| h_receive h m : al_receive ok m -> hstep h (add_permits (receive h m) (gain m))
| h_request h r : 0 < ph_permits h -> hstep h (send (add_permits h (-1)) (WMessage (MRequest r)))
| h_pending h p : MPiece p ∈ ph_in h -> hstep h (with_pending h (Some (piece_msg p)))
| h_spawn h : al_pex ok -> hstep h (with_pex h (ph_pex h ++ [∅]))
| h_pex h n p view : (n < length (ph_pex h))%nat -> hstep h (with_pex (send h (WUtPex p)) (<[n := view]> (ph_pex h))).

Abbreviation hsteps := (rtc hstep).

Lemma hsteps_move h h' : ph_out h' = ph_out h -> ph_in h' = ph_in h -> ph_permits h' = ph_permits h -> ph_pex h' = ph_pex h ->
  ph_pending h' = ph_pending h \/ ph_pending h' = None -> hsteps h h'.
Proof. intros. by apply rtc_once, h_move. Qed.

Lemma hsteps_notify h : hsteps h (notify_bitfield h) /\ hsteps h (notify_unchoke h) /\ hsteps h (notify_pieces h).
Proof.
  unfold notify_bitfield, notify_unchoke, notify_pieces.
  split_and!; destruct (ph_requester h); try apply rtc_refl; apply hsteps_move; auto.
Qed.

Lemma hsteps_interest h b : al_send ok (WMessage MInterested) -> al_send ok (WMessage MNotInterested) -> hsteps h (update_interest h b).
Proof.
  intros Ho1 Ho2. unfold update_interest. destruct (negb _); [|apply rtc_refl].
  eapply rtc_l; [apply (h_send h (WMessage (if b then MInterested else MNotInterested))); by destruct b|].
  apply hsteps_move; auto.
Qed.
End handler_steps.

Section evolution.
Context {B : Type} `{BitRaw B}.
Context (ok : Allowed).
Abbreviation hsteps := (rtc (hstep ok)).

(** Every handler after comes from the handler before. *)
Definition evolves (s s' : Swarm (B := B)) : Prop := forall addr h', sw_handlers s' !! addr = Some h' ->
  exists h, sw_handlers s !! addr = Some h /\ hsteps h h'.

#[export] Instance evolves_preorder : PreOrder evolves.
Proof.
  split; [intros s addr h' Hh; by exists h'|].
  intros s1 s2 s3 H12 H23 addr h3 (h2 & Hh2 & H3)%H23. destruct (H12 _ _ Hh2) as (h1 & Hh1 & H2).
  exists h1. split; [done|by etrans].
Qed.

Lemma evolves_same s s' : sw_handlers s' = sw_handlers s -> evolves s s'.
Proof. intros Hs addr h'. rewrite Hs. eauto using rtc_refl. Qed.

Lemma evolves_handler addr f s : (forall h, sw_handlers s !! addr = Some h -> hsteps h (f h)) -> evolves s (on_handler addr f s).
Proof.
  intros Hf a h'. unfold on_handler. cbn [set_handlers sw_handlers]. destruct (decide (a = addr)) as [->|Hne].
  - rewrite lookup_alter_eq. destruct (sw_handlers s !! addr) as [h|]; [|done]. intros [= <-]. eauto.
  - rewrite lookup_alter_ne by done. intros Hh. by exists h'.
Qed.

Lemma evolves_delete addr s s' : sw_handlers s' = delete addr (sw_handlers s) -> evolves s s'.
Proof. intros Hs a h'. rewrite Hs. intros [_ Hh]%lookup_delete_Some. by exists h'. Qed.

Lemma evolves_notify s : evolves s (new_pieces_notify s).
Proof.
  intros a h'. cbn [new_pieces_notify set_handlers sw_handlers]. rewrite lookup_fmap_Some.
  intros (h & <- & Hh). exists h. split; [done|]. by apply hsteps_notify.
Qed.

Lemma evolves_requester addr r s : evolves s (on_handler addr (fun h => with_requester h r) s).
Proof. apply evolves_handler. intros h _. apply hsteps_move; auto. Qed.

Lemma evolves_send addr w s : al_send ok w -> is_request w = false -> evolves s (on_handler addr (fun h => send h w) s).
Proof. intros. apply evolves_handler. intros h _. by apply rtc_once, h_send. Qed.
End evolution.

(** What a handler of the torrent may send, requests and the messages of PEX
    tasks apart, when the message [mo] arrives. *)
Definition sendable {B} `{BitRaw B} (t : Torrent) (s : Swarm (B := B)) (mo : option PeerMessage) : Allowed :=
  mkAllowed (fun w =>
    match w with
    | WUtMetadata _ | WUtHolepunch _ => t_private t = false
    | WUtPex _ => False
    | WReadChunk c => exists addr, (addr, c) ∈ sw_uploads s
    | WMessage _ | WDisconnect => True
    end) (fun m => mo = Some m) (t_private t = false).

Section steps_evolve.
Context {B : Type} `{BitRaw B} (t : Torrent) (mo : option PeerMessage).
Implicit Types (s : Swarm (B := B)) (i : ReqInput).

Lemma on_handler_compose addr f g s : on_handler addr f (on_handler addr g s) = on_handler addr (fun h => f (g h)) s.
Proof. unfold on_handler, set_handlers. cbn. f_equal. by rewrite alter_alter_eq. Qed.

Lemma evolves_after ok addr f g a s : (forall h, f h = g (a h)) -> (forall h, rtc (hstep ok) h (g h)) ->
  evolves ok (on_handler addr a s) (on_handler addr f s).
Proof.
  intros Hf Hg. assert (Hfs : on_handler addr f s = on_handler addr g (on_handler addr a s)).
  { rewrite on_handler_compose. unfold on_handler, set_handlers. f_equal. apply alter_ext. auto. }
  rewrite Hfs.
  apply evolves_handler. auto.
Qed.

Lemma on_handler_id addr f s : (forall h, f h = h) -> on_handler addr f s = s.
Proof.
  intros Hf. destruct s as [live peers hs ups]. unfold on_handler, set_handlers. cbn. f_equal.
  apply map_eq. intros a. destruct (decide (a = addr)) as [->|]; [|by rewrite lookup_alter_ne].
  rewrite lookup_alter_eq. destruct (hs !! addr); [simpl; by rewrite Hf|done].
Qed.

Lemma add_no_permits h : add_permits h 0 = h.
Proof. unfold add_permits. rewrite Z.add_0_r. by destruct h. Qed.

Lemma pex_handlers now p s : sw_handlers (on_pex_message now p s) = sw_handlers s.
Proof. done. Qed.

Lemma holepunch_evolves now addr m s0 s : evolves (sendable t s0 mo) s (on_holepunch_message t now addr m s).
Proof.
  unfold on_holepunch_message. destruct (t_private t) eqn:Hp; [done|].
  destruct (hp_msg_type m); [|by apply evolves_same|done].
  destruct (with_live _ _ _); [etrans|]; by apply evolves_send.
Qed.

Lemma on_have_evolves ok addr v s : evolves ok s (on_have addr v s).
Proof.
  unfold on_have. destruct (with_live_mut _ _ _) as [r ps].
  etrans; [apply (evolves_same ok s (set_peers s ps)); done|]. apply evolves_handler. intros h _. apply hsteps_notify.
Qed.

Lemma on_bitfield_evolves ok addr b s s' : on_bitfield addr b s = Ok s' -> evolves ok s s'.
Proof.
  unfold on_bitfield. destruct (negb _); [done|]. intros [= <-].
  etrans; [apply (evolves_same ok s (set_peers s (update_bitfield addr (from_vec b) (sw_peers s)).2)); done|].
  apply evolves_handler. intros h _. apply hsteps_notify.
Qed.

Lemma on_download_request_evolves ok addr r s s' : on_download_request t addr r s = Ok s' -> evolves ok s s'.
Proof.
  unfold on_download_request. destruct (t_disable_upload t); [done|].
  destruct (Lengths.validate_piece_index _ _); [rsimpl|done].
  destruct (Lengths.chunk_info_from_received_data _ _ _ _); [rsimpl|done].
  destruct (negb _); [done|]. intros [= <-]. by apply evolves_same.
Qed.

Lemma on_received_piece_evolves ok addr p s s' :
  (forall h, sw_handlers s !! addr = Some h -> MPiece p ∈ ph_in h) ->
  on_received_piece addr p s = Ok s' -> evolves ok (on_handler addr (fun h => add_permits h 1) s) s'.
Proof.
  intros Hin. unfold on_received_piece. destruct (LiveDownload.on_received_piece _ _) as [ci|]; [|done].
  cbn [ok_or result_bind]. destruct (with_live_mut _ _ _) as [[[]|] ps]; try done. intros [= <-].
  etrans; [eapply (evolves_same ok _ (set_peers _ ps)); done|]. apply evolves_handler.
  intros h. cbn [set_peers sw_handlers]. unfold on_handler. cbn [set_handlers sw_handlers]. rewrite lookup_alter_eq.
  destruct (sw_handlers s !! addr) as [h0|] eqn:Hh; [|done]. intros [= <-].
  apply rtc_once, h_pending. cbn. by apply Hin.
Qed.

Definition first_message (h : Handler) : Handler := if ph_first h then h else notify_bitfield (with_first h).

Definition unchoked_after_first (h : Handler) : Handler := notify_unchoke (with_choked (first_message h) false).

Lemma first_steps ok h : rtc (hstep ok) h (first_message h).
Proof.
  unfold first_message. destruct (ph_first h); [apply rtc_refl|].
  etrans; [|apply hsteps_notify]. apply hsteps_move; auto.
Qed.

Lemma unchoked_steps ok h : rtc (hstep ok) h (unchoked_after_first h).
Proof.
  unfold unchoked_after_first. etrans; [apply first_steps|]. etrans; [|apply hsteps_notify]. apply hsteps_move; auto.
Qed.

Lemma first_evolves ok addr s : evolves ok s (on_handler addr first_message s).
Proof. apply evolves_handler. intros h _. apply first_steps. Qed.

(** A message changes the handlers of the swarm by their steps, after the
    permits it gives. *)
Lemma message_evolves now addr m s s' :
  (forall h, sw_handlers s !! addr = Some h -> m ∈ ph_in h) ->
  on_received_message t now addr m s = Done (Ok s') ->
  evolves (sendable t s mo) (on_handler addr (fun h => add_permits h (gain m)) s) s'.
Proof.
  intros Hin. set (s1 := on_handler addr first_message s).
  assert (Hf : evolves (sendable t s mo) s s1) by apply first_evolves.
  assert (Hid : on_handler addr (fun h => add_permits h 0) s = s) by (apply on_handler_id, add_no_permits).
  unfold on_received_message. fold first_message. fold s1.
  destruct m as [r|r|b| |v| | | | |port|v| | |r|v|p|e]; cbn [gain]; rewrite ?Hid.
  all: try (by intros [= <-]).
  - intros [= Hr]. etrans; [exact Hf|by eapply on_download_request_evolves].
  - intros [= Hr]. rewrite on_handler_id in Hr by done. by eapply on_bitfield_evolves.
  - intros [= <-]. etrans; [exact Hf|]. apply on_have_evolves.
  - intros [= <-]. etrans; [exact Hf|]. apply evolves_handler. intros h _. apply hsteps_move; auto.
  - intros [= <-]. unfold s1. rewrite on_handler_compose.
    apply (evolves_after _ addr _ unchoked_after_first); [|apply unchoked_steps].
    intros [? ? ? [] ? [] ? ? ? ?]; reflexivity.
  - intros [= Hr]. etrans; [exact Hf|by eapply on_bitfield_evolves].
  - intros [= Hr]. etrans; [exact Hf|by eapply on_bitfield_evolves].
  - intros [= Hr]. apply on_received_piece_evolves with (ok := sendable t s mo) in Hr.
    + etrans; [|exact Hr]. unfold s1. rewrite on_handler_compose.
      apply (evolves_after _ addr _ first_message); [|apply first_steps].
      intros [? ? ? [] ? [] ? ? ? ?]; reflexivity.
    + intros h. unfold s1, on_handler. cbn [set_handlers sw_handlers]. rewrite lookup_alter_eq.
      destruct (sw_handlers s !! addr) as [h0|] eqn:Hh; [|done]. intros [= <-].
      specialize (Hin h0 eq_refl). by destruct h0 as [? ? ? [] ? [] ? ? ? ?].
  - destruct e as [hs|[piece|d|piece]|p|hm|id_]; try by intros [= <-].
    + destruct (t_private t) eqn:Hp; [by intros [= <-]|].
      destruct (send_metadata_piece _ _) as [[d|]|]; rsimpl; try done. intros [= <-].
      etrans; [exact Hf|by apply evolves_send].
    + intros [= <-]. etrans; [exact Hf|]. destruct (t_private t); [done|by apply evolves_same].
    + intros [= <-]. etrans; [exact Hf|apply holepunch_evolves].
Qed.

(** The handler of a peer that died is gone, so what it did before does not matter. *)
Lemma peer_died_evolves ok now ord streams addr error f s s' :
  peer_died now ord streams addr error (on_handler addr f s) = Done s' -> evolves ok s s'.
Proof.
  set (s1 := on_handler addr f s). unfold peer_died. destruct (on_peer_died _ _ _ _ _) as [dropped ps]. cbn zeta.
  set (s0 := set_uploads _ _).
  assert (H0' : evolves ok s s0).
  { intros a h'. cbn [s0 set_uploads set_handlers sw_handlers]. intros [Hne Ha]%lookup_delete_Some.
    unfold s1, on_handler in Ha. cbn [set_handlers sw_handlers] in Ha. rewrite lookup_alter_ne in Ha by done.
    eauto using rtc_refl. }
  destruct (with_live _ _ _); [|by intros [= <-]].
  destruct (release_pieces_owned_by _ _ _) as [r|]; [|done]. rsimpl. intros [= <-].
  destruct (_ || _); [etrans; [|apply evolves_notify]|]; (etrans; [exact H0'|by apply evolves_same]).
Qed.

Lemma die_evolves ok i addr error s s' : die i addr error s = Done s' -> evolves ok s s'.
Proof. intros Hd. apply (peer_died_evolves ok (ri_now i) (ri_ord i) (ri_streams i) addr error id). by rewrite on_handler_id. Qed.

Lemma acquire_handlers i addr h s r : acquire_next_piece t i addr h s = Done r -> sw_handlers r.2 = sw_handlers s.
Proof.
  unfold acquire_next_piece. destruct (with_live _ _ _); [|by intros [= <-]].
  destruct (ph_choked h); [by intros [= <-]|]. destruct (acquire_piece _ _ _ _); [|done]. rsimpl. by intros [= <-].
Qed.

Lemma notify_steal_evolves s0 from to p s : evolves (sendable t s0 mo) s (notify_steal from to p s).
Proof.
  unfold notify_steal. destruct (on_steal _ _ _ _) as [cancels ps].
  etrans; [apply (evolves_same _ s (set_peers s ps)); done|]. generalize (set_peers s ps). clear s.
  induction cancels as [|c l IH]; intros s; [done|]. cbn [foldl]. etrans; [|apply IH]. by apply evolves_send.
Qed.

Lemma requester_evolves i addr s s' : requester_step t i addr s = Done s' -> evolves (sendable t s mo) s s'.
Proof.
  unfold requester_step. destruct (sw_handlers s !! addr) as [h|] eqn:Hh; [|by intros [= <-]].
  assert (Hgo : forall s1 r, evolves (sendable t s mo) s s1 ->
    evolves (sendable t s mo) s (on_handler addr (fun h => with_requester h r) s1)).
  { intros s1 r H1. etrans; [exact H1|apply evolves_requester]. }
  destruct (ph_requester h) as [| | | | | | |p from| |[|c rest]|c rest|]; try by intros [= <-]; first [done|by apply Hgo].
  - assert (Hint : forall b, evolves (sendable t s mo) s (on_handler addr (fun h => update_interest h b) s)).
    { intros b. apply evolves_handler. intros h0 _. by apply hsteps_interest. }
    destruct (is_finished_and_no_active_streams _ _).
    + destruct (is_peer_not_interested_and_has_full_torrent _ _ _); intros [= <-]; apply Hgo; [|done].
      etrans; [apply Hint|by apply evolves_send].
    + intros [= <-]. by apply Hgo.
  - destruct (acquire_next_piece _ _ _ _ _) as [[[p|p from|] s1]|] eqn:Hr; rsimpl; try done;
      apply acquire_handlers in Hr; intros [= <-]; apply Hgo; by apply evolves_same.
  - intros [= <-]. apply Hgo, notify_steal_evolves.
  - destruct (with_live_mut _ _ _) as [[[]|] ps]; intros [= <-]; apply Hgo; by apply evolves_same.
  - destruct (Z.ltb_spec 0 (ph_permits h)) as [Hp|]; [|by intros [= <-]]. intros [= <-]. apply Hgo.
    apply evolves_handler. intros h0 Hh0. simplify_eq. by apply rtc_once, h_request.
Qed.

Lemma live_event_handlers s e s' : live_event s e = Done s' -> sw_handlers s' = sw_handlers s.
Proof. unfold live_event. destruct (LiveDownload.exec _ _); [|done]. rsimpl. by intros [= <-]. Qed.

End steps_evolve.

Section all_steps_evolve.
Context {B : Type} `{BitRaw B} (t : Torrent).
Implicit Types (s : Swarm (B := B)) (i : ReqInput).

Lemma received_evolves now addr m s s' : on_received_message t now addr m (on_handler addr (fun h => receive h m) s) = Done (Ok s') ->
  evolves (sendable t s (Some m)) s s'.
Proof.
  intros Hr. apply (message_evolves t (Some m)) in Hr.
  - etrans; [|exact Hr]. rewrite on_handler_compose. apply evolves_handler. intros h _. by apply rtc_once, h_receive.
  - intros h. unfold on_handler. cbn [set_handlers sw_handlers]. rewrite lookup_alter_eq.
    destruct (sw_handlers s !! addr); [|done]. intros [= <-]. cbn. set_solver.
Qed.

Lemma ext_handshake_same addr hs s : sw_live (on_extended_handshake t addr hs s) = sw_live s /\
  sw_uploads (on_extended_handshake t addr hs s) = sw_uploads s.
Proof.
  unfold on_extended_handshake. cbn zeta. set (s1 := if _ && _ then spawn_pex addr s else s).
  assert (H1 : sw_live s1 = sw_live s /\ sw_uploads s1 = sw_uploads s) by (unfold s1; by destruct (_ && _)). clearbody s1.
  destruct (sw_handlers s1 !! addr) as [hd|]; [|done]. destruct (hs_port hs); [|done]. destruct (ph_incoming hd); [|done].
  by destruct (default _ _).
Qed.

(** A PEX task starts only for a torrent that is not private. *)
Lemma ext_handshake_evolves addr hs mo s : evolves (sendable t s mo) s (on_extended_handshake t addr hs s).
Proof.
  unfold on_extended_handshake. cbn zeta. set (s1 := if _ && _ then spawn_pex addr s else s).
  assert (H1 : evolves (sendable t s mo) s s1).
  { unfold s1. destruct (t_private t) eqn:Hp; [done|]. cbn [negb andb]. destruct (bool_decide _); [|done].
    apply evolves_handler. intros h _. by apply rtc_once, h_spawn. }
  clearbody s1. destruct (sw_handlers s1 !! addr) as [hd|]; [|done]. destruct (hs_port hs); [|done].
  destruct (ph_incoming hd); [|done]. destruct (default _ _). etrans; [exact H1|by apply evolves_same].
Qed.

Lemma pex_step_same ord addr n s : sw_live (pex_step ord addr n s) = sw_live s /\ sw_uploads (pex_step ord addr n s) = sw_uploads s.
Proof.
  unfold pex_step. destruct (sw_handlers s !! addr) as [h|]; [|done]. destruct (ph_pex h !! n); [|done].
  by destruct (task_send_pex _ _ _ _).
Qed.

(** Only a task that was started sends a PEX message. *)
Lemma pex_step_evolves ord addr n mo s : evolves (sendable t s mo) s (pex_step ord addr n s).
Proof.
  unfold pex_step. destruct (sw_handlers s !! addr) as [h|] eqn:Hh; [|done]. destruct (ph_pex h !! n) as [view|] eqn:Hn; [|done].
  unfold task_send_pex. cbn zeta. destruct (_ || _); (apply evolves_handler; intros h0 Hh0; simplify_eq; cbn [send ph_pex]).
  - apply rtc_once, h_pex. by eapply lookup_lt_Some.
  - rewrite list_insert_id by done. apply hsteps_move; auto.
Qed.

(** The message an event brings. *)
Definition received (ev : SwarmEvent (B := B)) : option PeerMessage :=
  match ev with EvMessage _ _ m => Some m | _ => None end.

(** Every handler after an event of the swarm is new, or comes from the
    handler before by its steps. *)
Lemma step_handlers s ev s' : swarm_step t s ev = Done s' ->
  forall addr h', sw_handlers s' !! addr = Some h' -> (exists incoming, h' = handler_start incoming) \/
    exists h, sw_handlers s !! addr = Some h /\ rtc (hstep (sendable t s (received ev))) h h'.
Proof.
  intros Hs. destruct (match ev with EvStart _ _ => true | _ => false end) eqn:Hev.
  { destruct ev as [|a inc| | | | | | | | | | |]; try done. cbn in Hs. intros addr h' Hh'.
    destruct (sw_handlers s !! a); injection Hs as <-; [right; by exists h'|].
    cbn in Hh'. apply lookup_insert_Some in Hh' as [[<- <-]|[_ Hh']]; [left; by exists inc|right; by exists h']. }
  cut (evolves (sendable t s (received ev)) s s'); [intros He addr h' Hh'; right; by apply He|].
  revert Hs. destruct ev as [e|a inc|i a m|a h|o a n|i a|a|i a|i a c|a|i a e| |only]; cbn [swarm_step received]; try done.
  - destruct (exec _ _); [|done]. rsimpl. intros [= <-]. by apply evolves_same.
  - destruct (sw_handlers s !! a) as [h|] eqn:Hh; [|by intros [= <-]].
    destruct (LiveDownload.lv_tasks _ !! a); [by intros [= <-]|]. destruct (ph_pending h); [by intros [= <-]|].
    destruct (on_received_message _ _ _ _ _) as [[s1|e]|] eqn:Hr; rsimpl; [| |done].
    + intros [= <-]. by eapply received_evolves.
    + apply peer_died_evolves.
  - intros [= <-]. apply ext_handshake_evolves.
  - intros [= <-]. apply pex_step_evolves.
  - apply requester_evolves.
  - destruct (sw_handlers s !! a) as [h|] eqn:Hh; [|by intros [= <-]].
    destruct (LiveDownload.lv_tasks _ !! a); [by intros [= <-]|]. destruct (ph_pending h); [|by intros [= <-]].
    intros Hl%live_event_handlers. etrans; [|apply (evolves_same _ _ _ Hl)].
    apply evolves_handler. intros h0 _. apply hsteps_move; auto.
  - destruct (LiveDownload.lv_tasks _ !! a) as [[msg ci| |]|]; try by intros [= <-].
    destruct (LiveDownload.chunk_written _ _ _ _) as [r|]; [|done]. rsimpl.
    destruct (live_event s _) as [s1|] eqn:Hl; [|done]. rsimpl. apply live_event_handlers in Hl.
    destruct r; [intros [= <-]; by apply evolves_same|intros Hd%(die_evolves (sendable t s None))].
    etrans; [apply (evolves_same _ _ _ Hl)|exact Hd].
  - destruct (LiveDownload.lv_tasks _ !! a) as [[|j|]|]; try by intros [= <-].
    destruct (live_event s _) as [s1|] eqn:Hl; [|done]. rsimpl. apply live_event_handlers in Hl.
    destruct c as [[]|]; [intros [= <-]; by apply evolves_same| |]; intros Hd%(die_evolves (sendable t s None));
      (etrans; [apply (evolves_same _ _ _ Hl)|]); [etrans; [apply evolves_notify|]|]; exact Hd.
  - destruct (LiveDownload.lv_tasks _ !! a) as [[| |j]|]; try by intros [= <-].
    intros Hl%live_event_handlers. by apply evolves_same.
  - destruct (sw_handlers s !! a); [|by intros [= <-]]. destruct (LiveDownload.lv_tasks _ !! a); [by intros [= <-]|].
    apply die_evolves.
  - destruct (sw_uploads s) as [|[a c] l] eqn:Hu; [by intros [= <-]|]. destruct (_ =? _); [done|]. intros [= <-].
    etrans; [apply (evolves_same _ s (set_uploads s l)); done|]. apply evolves_send; [|done].
    exists a. rewrite Hu. set_solver.
  - intros Hl%live_event_handlers. by apply evolves_same.
Qed.
End all_steps_evolve.

(** ** What is sent to a peer *)

Definition tally {A} (f : A -> bool) (l : list A) : Z := Z.of_nat (length (List.filter f l)).

Lemma tally_snoc {A} (f : A -> bool) l x : tally f (l ++ [x]) = tally f l + (if f x then 1 else 0).
Proof. unfold tally. rewrite List.filter_app, length_app. cbn [List.filter]. destruct (f x); simpl; lia. Qed.

Section sent.
Context {B : Type} `{BitRaw B} (t : Torrent).
Implicit Types (s : Swarm (B := B)).

(** All handlers of a swarm satisfy [P]. *)
Definition all_handlers (P : Handler -> Prop) s : Prop := forall addr h, sw_handlers s !! addr = Some h -> P h.

Lemma step_all_handlers (P : Handler -> Prop) s ev s' : (forall incoming, P (handler_start incoming)) ->
  (forall h h', P h -> hstep (sendable t s (received ev)) h h' -> P h') ->
  swarm_step t s ev = Done s' -> all_handlers P s -> all_handlers P s'.
Proof.
  intros H0' Hstep Hs Hall addr h' Hh'.
  destruct (step_handlers t s ev s' Hs addr h' Hh') as [[inc ->]|(h & Hh & Hsteps)]; [done|].
  apply (rtc_ind_r (fun h' => P h') h) with (2 := fun y z _ Hyz Hy => Hstep y z Hy Hyz) (3 := Hsteps). by apply (Hall addr).
Qed.

Lemma run_all_handlers (P : Handler -> Prop) evs : (forall incoming, P (handler_start incoming)) ->
  (forall s mo h h', P h -> hstep (sendable t s mo) h h' -> P h') ->
  forall s s', run_swarm t s evs = Done s' -> all_handlers P s -> all_handlers P s'.
Proof.
  intros H0' Hstep. induction evs as [|ev evs IH]; intros s s'; [by intros [= <-]|]. unfold run_swarm. rsimpl.
  destruct (swarm_step t s ev) as [s1|] eqn:Hs; [|done]. rsimpl. intros Hr Hall. apply (IH s1); [done|].
  by apply (step_all_handlers P s ev s1 H0' (Hstep s (received ev))).
Qed.

Definition requests_sent (h : Handler) : Z := tally is_request (ph_out h).
Definition pieces_received (h : Handler) : Z := tally is_piece (ph_in h).
Definition unchokes_received (h : Handler) : Z := tally is_unchoke (ph_in h).

(** The permits are what the messages gave and the requests did not take. *)
Definition window_ok (h : Handler) : Prop := 0 <= ph_permits h /\
  ph_permits h + requests_sent h = 128 * unchokes_received h + pieces_received h.

Lemma hstep_window ok h h' : window_ok h -> hstep ok h h' -> window_ok h'.
Proof.
  unfold window_ok, requests_sent, pieces_received, unchokes_received. intros [Hp Hw] Hs.
  destruct Hs as [h h' Ho Hi Hpm _ _|h w _ Hr|h m _|h r Hpos|h p _|h _|h n p view _].
  - by rewrite Ho, Hi, Hpm.
  - cbn. rewrite tally_snoc, Hr. lia.
  - cbn. rewrite !tally_snoc. destruct m; cbn; lia.
  - cbn. rewrite tally_snoc. cbn. lia.
  - done.
  - done.
  - cbn. rewrite tally_snoc. cbn. lia.
Qed.

(** C5: the window of requests: however the messages of the peers, their
    tasks, the disk and the deaths of peers interleave, at any time the
    requests sent to a peer are at most the chunks it sent and 128 for each of
    its unchokes; the difference is exactly the permits the requester has
    left. *)
Theorem request_window (s0 s : Swarm (B := B)) evs addr h : sw_handlers s0 = ∅ -> run_swarm t s0 evs = Done s ->
  sw_handlers s !! addr = Some h ->
  requests_sent h <= pieces_received h + 128 * unchokes_received h /\
  ph_permits h = pieces_received h + 128 * unchokes_received h - requests_sent h.
Proof.
  intros H0' Hr Hh. assert (Hall : all_handlers window_ok s).
  { apply (run_all_handlers window_ok evs) with (s := s0); [by intros|by intros ? ? ? ?; apply hstep_window|done|].
    intros a h'. by rewrite H0', lookup_empty. }
  destruct (Hall addr h Hh). lia.
Qed.

Definition extension (w : WriterRequest) : bool :=
  match w with WUtMetadata _ | WUtPex _ | WUtHolepunch _ => true | _ => false end.

Lemma private_message_ignored now addr e s : t_private t = true ->
  match e with EUtMetadata _ | EUtPex _ | EUtHolepunch _ => True | _ => False end ->
  exists s', on_received_message t now addr (MExtended e) s = Done (Ok s') /\
    sw_peers s' = sw_peers s /\ sw_uploads s' = sw_uploads s /\ sw_live s' = sw_live s.
Proof.
  intros Hp He. unfold on_received_message, on_holepunch_message. rewrite Hp.
  destruct e as [|[]| | |]; try done; by eexists.
Qed.

(** No PEX task runs, and nothing of an extension was sent. *)
Definition silent (h : Handler) : Prop := ph_pex h = [] /\ forall w, w ∈ ph_out h -> extension w = false.

Lemma hstep_silent s mo h h' : t_private t = true -> silent h -> hstep (sendable t s mo) h h' -> silent h'.
Proof.
  intros Hp [Hx Hh] Hs. destruct Hs as [h h' Ho _ _ Hx' _|h w' Hok _|h m _|h r _|h p _|h Hok|h n p view Hn]; cbn.
  - split; [congruence|by rewrite Ho].
  - split; [done|]. cbn. intros w [Hw|Hw]%elem_of_app; [auto|]. apply list_elem_of_singleton in Hw as ->.
    destruct w'; cbn in *; done || congruence.
  - done.
  - split; [done|]. cbn. intros w [Hw|Hw]%elem_of_app; [auto|]. by apply list_elem_of_singleton in Hw as ->.
  - done.
  - cbn in Hok. congruence.
  - rewrite Hx in Hn. cbn in Hn. lia.
Qed.

(** C7: a private torrent stays private: whatever happens in the swarm,
    extended handshakes that offer peer exchange included, no task that sends
    peer exchange messages runs and no metadata, peer exchange or hole punching
    message is ever sent to a peer; such a message from a peer is ignored without adding a peer; and our
    extended handshake offers none of the three extensions and no metadata
    size. *)
Theorem private_torrent_silent (s0 s : Swarm (B := B)) evs : t_private t = true -> sw_handlers s0 = ∅ ->
  run_swarm t s0 evs = Done s ->
  (forall addr h, sw_handlers s !! addr = Some h -> ph_pex h = [] /\ forall w, w ∈ ph_out h -> extension w = false) /\
  (forall now addr e, match e with EUtMetadata _ | EUtPex _ | EUtHolepunch _ => True | _ => False end ->
     exists s', on_received_message t now addr (MExtended e) s = Done (Ok s') /\ sw_peers s' = sw_peers s) /\
  forall len, let hs := apply_extended_handshake_privacy ext_handshake_new (t_private t) len in
    eh_m hs = mkExtIds None None None /\ eh_metadata_size hs = None.
Proof.
  intros Hp H0' Hr. split_and!.
  - intros addr h Hh. apply (run_all_handlers silent evs) with (s := s0) (s' := s) (addr := addr); [|by intros s1 mo h1 h2; apply hstep_silent|done|..|done].
    + intros inc. split; [done|by intros ? ?%elem_of_nil].
    + intros a h'. by rewrite H0', lookup_empty.
  - intros now addr e He. destruct (private_message_ignored now addr e s Hp He) as (s' & ? & ? & _). by exists s'.
  - intros len. by rewrite Hp.
Qed.
End sent.

(** ** The swarm drives the piece tracker as [LiveDownload] says *)

Section events_ok.
Context {B : Type} `{BitRaw B} (t : Torrent).
Implicit Types (s : Swarm (B := B)) (i : ReqInput).

(** A chunk as it comes off the wire. *)
Definition piece_ok (p : Piece) : Prop :=
  is_u32 (p_index p) /\ is_u32 (p_begin p) /\ is_u32 (Z.of_nat (piece_len p)).

(** What comes off the wire is of 32 bits.  A request for the piece of the
    metadata just after the last one is excluded, unless the info dictionary
    ends at a piece boundary: it panics, and no other request does
    ([send_metadata_piece_panics]).  The dictionary leaves room for two more
    pieces below 4 GiB. *)
Definition message_ok (m : PeerMessage) : Prop :=
  match m with
  | MPiece p => piece_ok p
  | MRequest r => is_u32 (Message.rq_index r) /\ is_u32 (rq_begin r)
  | MExtended (EUtMetadata (UtRequest k)) => t_private t = false ->
      is_u32 k /\ Z.of_nat (length (t_info_bytes t)) <= U32 - 2 * CHUNK_SIZE /\
      ~ (k = metadata_pieces (t_info_bytes t) /\ Z.of_nat (length (t_info_bytes t)) mod CHUNK_SIZE <> 0)
  | _ => True
  end.

(** The order is one of the map, the streams want pieces of the torrent, and
    the average piece time of a peer can be multiplied. *)
Record input_ok s i : Prop := {
  ri_ord_ok : iter_order (ri_ord i);
  ri_priority_ok : forall p, p ∈ ri_priority i -> valid_index (sw_lengths s) p;
  ri_avg_ok : forall avg, ri_avg i = Some avg -> (exists m, scale avg 10 = Done m) /\ (exists m, scale avg 3 = Done m);
}.

Definition event_ok s (ev : SwarmEvent (B := B)) : Prop :=
  match ev with
  | EvMessage i _ m => input_ok s i /\ message_ok m
  | EvRequester i _ | EvDiskWritten i _ | EvDiskChecked i _ _ | EvDied i _ _ => input_ok s i
  | _ => True
  end.

End events_ok.

(** ** Uploads *)

Section uploads.
Context {B : Type} `{BitRaw B} (t : Torrent).
Implicit Types (s : Swarm (B := B)) (i : ReqInput).

(** The chunk may be uploaded: uploads are on, it is not empty and we have its piece. *)
Definition uploadable s (c : ChunkInfo) : Prop :=
  t_disable_upload t = false /\ 0 < ci_size c /\ 0 <= ci_piece_index c /\
  is_have (LiveDownload.lv_pieces (sw_live s)) (ci_piece_index c) = true.

Lemma die_uploads i addr error s s' : die i addr error s = Done s' -> forall u, u ∈ sw_uploads s' -> u ∈ sw_uploads s.
Proof.
  assert (Hf : forall f u, u ∈ List.filter f (sw_uploads s) -> u ∈ sw_uploads s).
  { intros f u. rewrite !list_elem_of_In. by intros [? _]%filter_In. }
  unfold die, peer_died. destruct (on_peer_died _ _ _ _ _) as [dropped ps]. cbn zeta.
  destruct (with_live _ _ _); [|intros [= <-]; apply Hf]. destruct (release_pieces_owned_by _ _ _) as [r|]; [|done]. rsimpl.
  intros [= <-]. destruct (_ || _); apply Hf.
Qed.

Lemma live_event_uploads s e s' : live_event s e = Done s' -> sw_uploads s' = sw_uploads s.
Proof. unfold live_event. destruct (LiveDownload.exec _ _); [|done]. rsimpl. by intros [= <-]. Qed.

Lemma notify_steal_uploads from to p s : sw_uploads (notify_steal from to p s) = sw_uploads s.
Proof.
  unfold notify_steal. destruct (on_steal _ _ _ _) as [cancels ps]. change (sw_uploads s) with (sw_uploads (set_peers s ps)).
  generalize (set_peers s ps). clear. induction cancels as [|c l IH]; intros s; [done|]. cbn [foldl]. by rewrite IH.
Qed.

Lemma requester_uploads i addr s s' : requester_step t i addr s = Done s' -> sw_uploads s' = sw_uploads s.
Proof.
  unfold requester_step. destruct (sw_handlers s !! addr) as [h|]; [|by intros [= <-]].
  destruct (ph_requester h) as [| | | | | | |p from| |[|c rest]|c rest|]; try by intros [= <-].
  - destruct (is_finished_and_no_active_streams _ _); [|by intros [= <-]].
    destruct (is_peer_not_interested_and_has_full_torrent _ _ _); by intros [= <-].
  - unfold acquire_next_piece. destruct (with_live _ _ _); [|by intros [= <-]]. destruct (ph_choked h); [by intros [= <-]|].
    destruct (acquire_piece _ _ _ _) as [[[]]|]; rsimpl; try done; by intros [= <-].
  - intros [= <-]. apply notify_steal_uploads.
  - destruct (with_live_mut _ _ _) as [[[]|] ps]; by intros [= <-].
  - destruct (_ <? _); by intros [= <-].
Qed.

(** A request is queued for upload only when the chunk can be uploaded. *)
Lemma message_uploads now addr m s s' : wf (sw_lengths s) -> message_ok t m -> on_received_message t now addr m s = Done (Ok s') ->
  forall a c, (a, c) ∈ sw_uploads s' -> (a, c) ∈ sw_uploads s \/ uploadable s c.
Proof.
  intros Hwf Hm. unfold on_received_message. set (s1 := on_handler addr _ s).
  assert (H1 : sw_uploads s1 = sw_uploads s /\ sw_live s1 = sw_live s) by done. clearbody s1. destruct H1 as [H1 H1l].
  assert (Hsame : forall s2, sw_uploads s2 = sw_uploads s1 -> forall a c, (a, c) ∈ sw_uploads s2 -> (a, c) ∈ sw_uploads s \/ uploadable s c).
  { intros s2 Hs2 a c. rewrite Hs2, H1. by left. }
  assert (Hbf : forall b s2, on_bitfield addr b s1 = Ok s2 -> sw_uploads s2 = sw_uploads s1).
  { intros b s2. unfold on_bitfield. destruct (negb _); [done|]. by intros [= <-]. }
  destruct m as [r|r|b| |v| | | | |port|v| | |r|v|p|e]; try (intros [= <-]; by apply Hsame); try (intros [= Hr]; by eapply Hsame, Hbf).
  - unfold on_download_request. destruct (t_disable_upload t) eqn:Hd; [done|].
    destruct (Lengths.validate_piece_index _ _) as [j|] eqn:Hj; [rsimpl|done].
    destruct (Lengths.chunk_info_from_received_data _ _ _ _) as [ci|] eqn:Hci; [rsimpl|done].
    destruct (is_chunk_ready_to_upload _ _) eqn:Hready; [|done]. intros [= <-] a c. cbn. rewrite H1.
    intros [Hc|Hc]%elem_of_app; [by left|]. apply list_elem_of_singleton in Hc as [= -> ->]. right.
    apply validate_piece_index_Some in Hj as [-> Hj]. destruct Hm as [[Hi0 _] [Hb _]].
    unfold sw_lengths, sw_chunks in *. rewrite H1l in *.
    rewrite chunk_info_from_received_data_eq in Hci by done. cbv zeta in Hci.
    destruct (_ && _) eqn:Hk in Hci; [|done]. injection Hci as <-.
    apply andb_prop in Hk as [[Hk%Z.ltb_lt _]%andb_prop _].
    split_and!; [done|by apply nth_chunk_size_pos|done|exact Hready].
  - intros [= <-]. apply Hsame. unfold on_have. by destruct (with_live_mut _ _ _).
  - intros [= Hr]. apply Hsame. revert Hr. unfold on_received_piece. destruct (LiveDownload.on_received_piece _ _); [|done].
    rsimpl. destruct (with_live_mut _ _ _) as [[[]|] ps]; try done. by intros [= <-].
  - destruct e as [|[k|d|k]|p|hm|k]; try (intros [= <-]; by apply Hsame).
    + destruct (t_private t); [intros [= <-]; by apply Hsame|]. destruct (send_metadata_piece _ _) as [[d|e]|]; try done.
      rsimpl. intros [= <-]. by apply Hsame.
    + intros [= <-]. apply Hsame. by destruct (t_private t).
    + intros [= <-]. apply Hsame. unfold on_holepunch_message. destruct (t_private t); [done|].
      destruct (hp_msg_type hm); [|done|done]. by destruct (with_live _ _ _).
Qed.

Lemma step_uploads s ev s' : wf (sw_lengths s) -> event_ok t s ev -> swarm_step t s ev = Done s' ->
  forall a c, (a, c) ∈ sw_uploads s' -> (a, c) ∈ sw_uploads s \/ uploadable s c.
Proof.
  assert (Hsame : forall s2, sw_uploads s2 = sw_uploads s -> forall a c, (a, c) ∈ sw_uploads s2 -> (a, c) ∈ sw_uploads s \/ uploadable s c).
  { intros s2 -> a c. by left. }
  assert (Hdie : forall i a e s1 s2, die i a e s1 = Done s2 -> sw_uploads s1 = sw_uploads s ->
    forall a c, (a, c) ∈ sw_uploads s2 -> (a, c) ∈ sw_uploads s \/ uploadable s c).
  { intros i a e s1 s2 Hd Hs1 b c Hc. left. rewrite <- Hs1. by eapply die_uploads. }
  destruct ev as [e|a inc|i a m|a h|o a n|i a|a|i a|i a c|a|i a e| |only]; cbn [swarm_step event_ok]; intros Hwf Hev.
  - destruct (exec _ _); [|done]. rsimpl. intros [= <-]. by apply Hsame.
  - destruct (sw_handlers s !! a); intros [= <-]; by apply Hsame.
  - destruct (sw_handlers s !! a) as [h|]; [|intros [= <-]; by apply Hsame].
    destruct (LiveDownload.lv_tasks _ !! a); [intros [= <-]; by apply Hsame|].
    destruct (ph_pending h); [intros [= <-]; by apply Hsame|].
    destruct (on_received_message _ _ _ _ _) as [[s1|e]|] eqn:Hr; rsimpl; [| |done].
    + intros [= <-] b d Hbd. exact (message_uploads _ _ _ (on_handler a (fun h => receive h m) s) _ Hwf (proj2 Hev) Hr b d Hbd).
    + intros Hd. by eapply Hdie.
  - intros [= <-]. apply Hsame, ext_handshake_same.
  - intros [= <-]. apply Hsame, pex_step_same.
  - intros Hr%requester_uploads. by apply Hsame.
  - destruct (sw_handlers s !! a) as [h|]; [|intros [= <-]; by apply Hsame].
    destruct (LiveDownload.lv_tasks _ !! a); [intros [= <-]; by apply Hsame|].
    destruct (ph_pending h); [|intros [= <-]; by apply Hsame]. intros Hl%live_event_uploads. by apply Hsame.
  - destruct (LiveDownload.lv_tasks _ !! a) as [[msg ci| |]|]; try (intros [= <-]; by apply Hsame).
    destruct (LiveDownload.chunk_written _ _ _ _) as [r|]; [|done]. rsimpl.
    destruct (live_event s _) as [s1|] eqn:Hl; [|done]. rsimpl. apply live_event_uploads in Hl.
    destruct r; [intros [= <-]; by apply Hsame|intros Hd; by eapply Hdie].
  - destruct (LiveDownload.lv_tasks _ !! a) as [[|j|]|]; try (intros [= <-]; by apply Hsame).
    destruct (live_event s _) as [s1|] eqn:Hl; [|done]. rsimpl. apply live_event_uploads in Hl.
    destruct c as [[]|]; [intros [= <-]; by apply Hsame| |]; intros Hd; by eapply Hdie.
  - destruct (LiveDownload.lv_tasks _ !! a) as [[| |j]|]; try (intros [= <-]; by apply Hsame).
    intros Hl%live_event_uploads. by apply Hsame.
  - destruct (sw_handlers s !! a); [|intros [= <-]; by apply Hsame].
    destruct (LiveDownload.lv_tasks _ !! a); [intros [= <-]; by apply Hsame|]. intros Hd. by eapply Hdie.
  - destruct (sw_uploads s) as [|[a c] l] eqn:Hu; [|destruct (_ =? _); [done|]]; intros [= <-]; [intros a c; rewrite Hu; by left|]. cbn. intros a' c' Hc. left. set_solver.
  - intros Hl%live_event_uploads. by apply Hsame.
Qed.
End uploads.

Section refinement.
Context {B : Type} `{BitRaw B} (t : Torrent).
Implicit Types (s : Swarm (B := B)) (i : ReqInput).

(** A chunk on its way to the disk was received. *)
Definition pending_ok (h : Handler) : Prop :=
  (forall msg, ph_pending h = Some msg -> exists p, MPiece p ∈ ph_in h /\ msg = piece_msg p) /\
  forall p, MPiece p ∈ ph_in h -> piece_ok p.

Record swarm_inv s : Prop := {
  sw_live_inv : LiveDownload.live_inv (sw_live s);
  sw_files_ok : Forall (file_of (sw_lengths s)) (t_file_infos t);
  sw_slots : live_slots (sw_live s) = length (t_file_infos t);
  sw_pending : all_handlers pending_ok s;
  sw_sizes : forall a c, (a, c) ∈ sw_uploads s -> 0 < ci_size c;
}.

(** The events of the piece tracker behind an event of the swarm. *)
Definition check_error (ev : SwarmEvent (B := B)) : bool := match ev with EvDiskChecked _ _ None => true | _ => false end.

Definition live_ok (bad : bool) (l : LiveDownload.Live B SocketAddr) (e : LiveDownload.event SocketAddr) : Prop :=
  LiveDownload.no_check_error l e \/ bad = true.

(** The piece tracker went from [l] to [l'] by its events. *)
Record advances (bad : bool) (l l' : LiveDownload.Live B SocketAddr) : Prop := {
  adv_run : LiveDownload.run (live_ok bad) l l';
  adv_inv : LiveDownload.live_inv l';
  adv_lengths : LiveDownload.live_lengths l' = LiveDownload.live_lengths l;
  adv_slots : live_slots l' = live_slots l;
}.

Lemma advances_refl bad l : LiveDownload.live_inv l -> advances bad l l.
Proof. intros Hl. constructor; [constructor|done..]. Qed.

Lemma advances_trans bad l1 l2 l3 : advances bad l1 l2 -> advances bad l2 l3 -> advances bad l1 l3.
Proof.
  intros [] []. constructor; [by eapply LiveDownload.run_trans|done|congruence|congruence].
Qed.

Lemma advances_exec bad l e : LiveDownload.live_inv l -> LiveDownload.enabled l e -> live_ok bad l e ->
  exists l', LiveDownload.exec l e = Done l' /\ advances bad l l'.
Proof.
  intros Hinv Hen Hok. destruct (LiveDownload.exec_simulated l e Hinv Hen) as (l' & Hex & Hinv' & Hl & _).
  exists l'. split; [done|]. constructor; [|done..|by eapply exec_slots].
  eapply LiveDownload.run_step; [constructor|done|by constructor].
Qed.

Lemma live_event_advances bad s e : LiveDownload.live_inv (sw_live s) -> LiveDownload.enabled (sw_live s) e ->
  live_ok bad (sw_live s) e ->
  exists s', live_event s e = Done s' /\ advances bad (sw_live s) (sw_live s') /\
    LiveDownload.exec (sw_live s) e = Done (sw_live s').
Proof.
  intros Hinv Hen Hok. destruct (advances_exec bad _ e Hinv Hen Hok) as (l' & Hex & Hadv).
  exists (set_live s l'). unfold live_event. by rewrite Hex.
Qed.

Lemma can_steal_lock (l : LiveDownload.Live B SocketAddr) j : can_steal l j = true -> forall p msg ci,
  LiveDownload.lv_tasks l !! p = Some (LiveDownload.Writing msg ci) -> ci_piece_index ci <> j.
Proof.
  unfold can_steal. rewrite forallb_forall. intros Hall p msg ci Hp%elem_of_map_to_list Hj.
  apply list_elem_of_In in Hp. apply Hall in Hp. subst j. by rewrite Z.eqb_refl in Hp.
Qed.

Lemma die_advances bad i addr error s : LiveDownload.live_inv (sw_live s) -> iter_order (ri_ord i) ->
  LiveDownload.lv_tasks (sw_live s) !! addr = None ->
  exists s', die i addr error s = Done s' /\ advances bad (sw_live s) (sw_live s').
Proof.
  intros Hinv Hord Htask. unfold die, peer_died. destruct (on_peer_died _ _ _ _ _) as [dropped ps]. cbn zeta.
  destruct (with_live _ _ _) as [l|]; [|eexists; split; [done|by apply advances_refl]].
  destruct (advances_exec bad (sw_live s) (LiveDownload.PeerDied (ri_ord i) addr) Hinv) as (l' & Hex & Hadv); [done|by left|].
  cbn [LiveDownload.exec] in Hex. destruct (release_pieces_owned_by _ _ _) as [r|]; [|done].
  cbn [outcome_bind] in *. injection Hex as <-. eexists. split; [done|]. by destruct (_ || _).
Qed.

Lemma message_live now addr m s : message_ok t m ->
  exists r, on_received_message t now addr m s = Done r /\ forall s', r = Ok s' -> sw_live s' = sw_live s.
Proof.
  intros Hm. unfold on_received_message. set (s1 := on_handler addr _ s).
  assert (H1 : sw_live s1 = sw_live s) by done. clearbody s1.
  assert (Hbf : forall b s', on_bitfield addr b s1 = Ok s' -> sw_live s' = sw_live s).
  { intros b s'. unfold on_bitfield. destruct (negb _); [done|]. by intros [= <-]. }
  destruct m as [r|r|b| |v| | | | |port|v| | |r|v|p|e]; try (eexists; split; [done|]; first [apply Hbf|by intros s' [= <-]]).
  - eexists. split; [done|]. intros s'. unfold on_download_request. destruct (t_disable_upload t); [done|].
    destruct (Lengths.validate_piece_index _ _); [rsimpl|done].
    destruct (Lengths.chunk_info_from_received_data _ _ _ _); [rsimpl|done]. destruct (negb _); [done|]. by intros [= <-].
  - eexists. split; [done|]. intros s' [= <-]. unfold on_have. by destruct (with_live_mut _ _ _).
  - eexists. split; [done|]. intros s'. unfold on_received_piece. destruct (LiveDownload.on_received_piece _ _); [|done].
    rsimpl. destruct (with_live_mut _ _ _) as [[[]|] ps]; try done. by intros [= <-].
  - destruct e as [|[k|d|k]|p|hm|k]; try (eexists; split; [done|]; intros s' [= <-]; done).
    + cbn [message_ok] in Hm. destruct (t_private t); [eexists; split; [done|]; by intros s' [= <-]|].
      destruct (Hm eq_refl) as (Hk & Hl & Hne). rewrite <- (send_metadata_piece_panics _ _ Hl Hk) in Hne.
      destruct (send_metadata_piece _ _) as [[d|e]|]; [..|done]; rsimpl; (eexists; split; [done|]); [|done].
      by intros s' [= <-].
    + eexists. split; [done|]. intros s' [= <-]. by destruct (t_private t).
    + eexists. split; [done|]. intros s' [= <-]. unfold on_holepunch_message. destruct (t_private t); [done|].
      destruct (hp_msg_type hm); [|done|done]. by destruct (with_live _ _ _).
Qed.

Lemma notify_steal_live from to p s : sw_live (notify_steal from to p s) = sw_live s.
Proof.
  unfold notify_steal. destruct (on_steal _ _ _ _) as [cancels ps]. change (sw_live s) with (sw_live (set_peers s ps)).
  generalize (set_peers s ps). clear. induction cancels as [|c l IH]; intros s; [done|]. cbn [foldl]. by rewrite IH.
Qed.

Lemma requester_advances bad i addr s : swarm_inv s -> input_ok s i ->
  exists s', requester_step t i addr s = Done s' /\ advances bad (sw_live s) (sw_live s').
Proof.
  intros [Hinv Hf Hsl _ _] [Ho Hp Ha]. pose proof (advances_refl bad _ Hinv) as Hrefl.
  unfold requester_step. destruct (sw_handlers s !! addr) as [h|]; [|by eexists].
  destruct (ph_requester h) as [| | | | | | |p from| |[|c rest]|c rest|]; try by eexists.
  - destruct (is_finished_and_no_active_streams _ _); [|by eexists].
    destruct (is_peer_not_interested_and_has_full_torrent _ _ _); by eexists.
  - unfold acquire_next_piece. destruct (with_live _ _ _) as [l|]; [|by eexists]. destruct (ph_choked h); [by eexists|].
    destruct (advances_exec bad (sw_live s) (LiveDownload.Acquire (ri_now i) (ri_ord i) (acquire_request t i addr (lp_bitfield l) s)) Hinv)
      as (l' & Hex & Hadv); [|by left|].
    { split_and!; [done| |intros j p msg ci Hc; by eapply can_steal_lock]. by constructor. }
    cbn [LiveDownload.exec] in Hex. destruct (acquire_piece _ _ _ _) as [[a pt]|]; [|done].
    cbn [outcome_bind fst snd] in *. injection Hex as <-. destruct a; by eexists.
  - eexists. split; [done|]. change (advances bad (sw_live s) (sw_live (notify_steal from addr p s))). by rewrite notify_steal_live.
  - destruct (with_live_mut _ _ _) as [[[]|] ps]; by eexists.
  - destruct (_ <? _); by eexists.
Qed.

Lemma step_advances s ev : swarm_inv s -> event_ok t s ev ->
  exists s', swarm_step t s ev = Done s' /\ advances (check_error ev) (sw_live s) (sw_live s').
Proof.
  intros Hs Hev. pose proof Hs as [Hinv Hf Hsl Hpend Hsz]. pose proof (fun bad => advances_refl bad _ Hinv) as Hrefl.
  destruct ev as [e|a inc|i a m|a h|o a n|i a|a|i a|i a c|a|i a e| |only]; cbn [swarm_step event_ok check_error] in *.
  - destruct (exec_moves e (sw_peers s)) as (ps & -> & _). by eexists.
  - destruct (sw_handlers s !! a); by eexists.
  - destruct (sw_handlers s !! a) as [h|]; [|by eexists].
    destruct (LiveDownload.lv_tasks _ !! a) eqn:Ht; [by eexists|]. destruct (ph_pending h); [by eexists|].
    destruct Hev as [[Ho _ _] Hm]. destruct (message_live (ri_now i) a m (on_handler a (fun h => receive h m) s) Hm) as (r & -> & Hr).
    rsimpl. destruct r as [s1|e]; [by exists s1; rewrite (Hr s1)|].
    by apply (die_advances false i a true (on_handler a (fun h => receive h m) s)).
  - eexists. split; [done|]. by rewrite (proj1 (ext_handshake_same t a h s)).
  - eexists. split; [done|]. by rewrite (proj1 (pex_step_same o a n s)).
  - by apply requester_advances.
  - destruct (sw_handlers s !! a) as [h|] eqn:Hh; [|by eexists].
    destruct (LiveDownload.lv_tasks _ !! a) eqn:Ht; [by eexists|]. destruct (ph_pending h) as [msg|] eqn:Hm; [|by eexists].
    destruct (Hpend a h Hh) as [Hp1 Hp2]. destruct (Hp1 msg Hm) as (p & Hp%Hp2 & ->).
    edestruct live_event_advances as (s' & Hex & Hadv & _); [..|by exists s']; [done| |by left]. by split.
  - destruct (LiveDownload.lv_tasks _ !! a) as [[msg ci| |]|] eqn:Ht; try by eexists.
    destruct (live_event_advances false s (LiveDownload.Written (ri_now i) a) Hinv) as (s' & Hle & Hadv & Hex); [by eexists _, _|by left|].
    rewrite Hle. cbn [LiveDownload.exec] in Hex. rewrite Ht in Hex.
    destruct (LiveDownload.chunk_written _ _ _ _) as [[r|pt]|]; [..|done]; rsimpl; [by eexists|].
    destruct (die_advances false i a true s') as (s2 & -> & Hd); [apply Hadv|apply Hev| |].
    + cbn [outcome_bind] in Hex. injection Hex as <-. cbn. apply lookup_delete_eq.
    + exists s2. split; [done|]. by eapply advances_trans.
  - destruct (LiveDownload.lv_tasks _ !! a) as [[|j|]|] eqn:Ht; try by eexists.
    destruct (live_event_advances (check_error (EvDiskChecked i a c)) s (LiveDownload.Checked a c) Hinv) as (s' & Hle & Hadv & Hex).
    { by eexists. } { destruct c; [by left|by right]. }
    rewrite Hle. rsimpl. cbn [LiveDownload.exec] in Hex. rewrite Ht in Hex.
    destruct (LiveDownload.piece_checked _ _ _) as [pt|]; [|done]. cbn [outcome_bind] in Hex. injection Hex as Hex.
    assert (Hdie : c <> Some true -> forall s1, sw_live s1 = sw_live s' -> exists s2, die i a true s1 = Done s2 /\
      advances (check_error (EvDiskChecked i a c)) (sw_live s) (sw_live s2)).
    { intros Hc s1 Hs1. edestruct (die_advances (check_error (EvDiskChecked i a c)) i a true s1) as (s2 & Hd & Hadv2).
      - rewrite Hs1. apply Hadv.
      - apply Hev.
      - rewrite Hs1, <- Hex. cbn. rewrite bool_decide_false by done. apply lookup_delete_eq.
      - exists s2. split; [done|]. rewrite Hs1 in Hadv2. by eapply advances_trans. }
    destruct c as [[]|]; [by eexists|by apply Hdie..].
  - destruct (LiveDownload.lv_tasks _ !! a) as [[| |j]|] eqn:Ht; try by eexists.
    edestruct live_event_advances as (s' & Hex & Hadv & _); [..|by exists s']; [done| |by left]. split; [by eexists|by split].
  - destruct (sw_handlers s !! a); [|by eexists]. destruct (LiveDownload.lv_tasks _ !! a) eqn:Ht; [by eexists|].
    by apply die_advances; [|apply Hev|].
  - destruct (sw_uploads s) as [|[a c] l] eqn:Hu; [by eexists|].
    destruct (Z.eqb_spec (ci_size c) 0) as [Hc|]; [|by eexists]. specialize (Hsz a c ltac:(left)). lia.
  - edestruct live_event_advances as (s' & Hex & Hadv & _); [..|by exists s']; [done|done|by left].
Qed.

Lemma hstep_pending s ev h h' : event_ok t s ev -> pending_ok h -> hstep (sendable t s (received ev)) h h' -> pending_ok h'.
Proof.
  intros Hev [Hp Hin] Hs. destruct Hs as [h h' Ho Hi _ _ Hpe|h w _ _|h m Hm|h r _|h p Hr|h _|h n p view _]; cbn; try done.
  - split; rewrite Hi; [|done]. destruct Hpe as [->| ->]; [done|done].
  - assert (Hpm : forall p, m = MPiece p -> piece_ok p).
    { intros p ->. destruct ev as [| |i a m| | | | | | | | | |]; try done. cbn in Hm. injection Hm as ->. by destruct Hev. }
    split; cbn.
    + intros msg (p & Hpi & ->)%Hp. exists p. split; [|done]. set_solver.
    + intros p [Hpi|Hpi]%elem_of_app; [auto|]. apply list_elem_of_singleton in Hpi. auto.
  - split; [|done]. cbn. intros msg [= <-]. by exists p.
Qed.

Lemma live_inv_wf s : LiveDownload.live_inv (sw_live s) -> wf (sw_lengths s).
Proof. intros [Hpt _]. exact (inv_wf _ (inv_shape _ (pt_chunks_inv _ Hpt))). Qed.

Lemma step_swarm_inv s ev s' : swarm_inv s -> event_ok t s ev -> swarm_step t s ev = Done s' ->
  swarm_inv s' /\ advances (check_error ev) (sw_live s) (sw_live s').
Proof.
  intros Hs Hev Hstep. destruct (step_advances s ev Hs Hev) as (s2 & Hs2 & Hadv). rewrite Hstep in Hs2. injection Hs2 as <-.
  split; [|done]. destruct Hs as [Hinv Hf Hsl Hpend Hsz], Hadv as [_ Hinv' Hl Hsl'].
  constructor; [done| |by rewrite Hsl'| |].
  - change (sw_lengths s') with (LiveDownload.live_lengths (sw_live s')). by rewrite Hl.
  - apply (step_all_handlers t pending_ok s ev s'); [|by intros ? ? ?; eapply hstep_pending|done|done].
    intros inc. split; [done|]. by intros p ?%elem_of_nil.
  - intros a c Hc. apply (step_uploads t s ev s') in Hc as [Hc|(_ & Hc & _)]; [by eapply Hsz|done| |done|done].
    by apply live_inv_wf.
Qed.

(** The states a swarm reaches by events that can happen. *)
Inductive reaches (P : SwarmEvent (B := B) -> Prop) s0 : Swarm (B := B) -> Prop :=
| reach_start : reaches P s0 s0
| reach_step s ev s' : reaches P s0 s -> event_ok t s ev -> P ev -> swarm_step t s ev = Done s' -> reaches P s0 s'.

Lemma reaches_inv P s0 s bad : (forall ev, P ev -> check_error ev = true -> bad = true) -> swarm_inv s0 -> reaches P s0 s ->
  swarm_inv s /\ advances bad (sw_live s0) (sw_live s).
Proof.
  intros HP Hinv Hr. induction Hr as [|s ev s' Hr [IH Hadv] Hev Hp Hs]; [split; [done|apply advances_refl, Hinv]|].
  destruct (step_swarm_inv s ev s' IH Hev Hs) as [Hinv' Hadv']. split; [done|].
  eapply advances_trans; [done|]. destruct Hadv' as [Hrun ? ? ?]. constructor; [|done..].
  eapply LiveDownload.run_mono; [|done]. intros l e [|Hc]; [by left|right]. by eapply HP.
Qed.
End refinement.

(** ** Properties of a swarm *)

Section swarm_properties.
Context {B : Type} `{BitRaw B} (t : Torrent).
Implicit Types (s : Swarm (B := B)).

(** A torrent that just started. *)
Definition swarm_start (ct : ChunkTracker B) (peers : PeerStates B SocketAddr) : Swarm (B := B) :=
  mkSwarm (LiveDownload.start ct) peers ∅ [].

Lemma swarm_start_inv have_ sel l ct peers : wf l ->
  bit_len have_ = bitfield_len l -> bit_len sel = bitfield_len l -> Forall (file_of l) (t_file_infos t) ->
  new have_ sel l (t_file_infos t) = Done (Ok ct) -> swarm_inv t (swarm_start ct peers) /\ LiveDownload.fresh ct /\ lengths ct = l.
Proof.
  intros Hwf Hh Hs Hf Hnew. destruct (LiveDownload.new_fresh have_ sel l (t_file_infos t) ct) as [Hfresh Hl]; try done.
  split; [|done]. constructor; [by apply LiveDownload.start_inv| | |intros a h; cbn; by rewrite lookup_empty|by intros a c ?%elem_of_nil].
  - unfold sw_lengths, sw_chunks. cbn. by rewrite Hl.
  - destruct (new_spec have_ sel l (t_file_infos t)) as (ct' & Hnew' & _ & _ & _ & _ & Hpf & _); try done.
    rewrite Hnew in Hnew'. injection Hnew' as <-. unfold live_slots, pt_slots, slots. cbn. by rewrite Hpf, length_fmap.
Qed.


(** Every chunk that is read for a peer, or waits to be, can be uploaded. *)
Definition uploads_ok s : Prop := (forall a c, (a, c) ∈ sw_uploads s -> uploadable t s c) /\
  all_handlers (fun h => forall c, WReadChunk c ∈ ph_out h -> uploadable t s c) s.

Lemma step_uploads_ok s ev s' : swarm_inv t s -> event_ok t s ev -> swarm_step t s ev = Done s' -> uploads_ok s -> uploads_ok s'.
Proof.
  intros Hinv Hev Hstep [Hup Hh]. destruct (step_swarm_inv t s ev s' Hinv Hev Hstep) as [_ [Hrun _ _ _]].
  assert (Hmono : forall c, uploadable t s c -> uploadable t s' c).
  { intros c (Hd & Hsz & Hc & Hhave). split_and!; [done..|]. by eapply (LiveDownload.run_have _ (sw_live s)); [apply Hinv|exact Hrun| |]. }
  split.
  - intros a c Hc. apply Hmono. destruct (step_uploads t s ev s' (live_inv_wf s (sw_live_inv _ _ Hinv)) Hev Hstep a c Hc); [by eapply Hup|done].
  - assert (Hall : all_handlers (fun h => forall c, WReadChunk c ∈ ph_out h -> uploadable t s c) s').
    { apply (step_all_handlers t _ s ev s'); [by intros ? ? ?%elem_of_nil| |done|done].
      intros h h' Hc Hs. destruct Hs as [h h' Ho|h w Hok|h m|h r|h p|h|h n p view]; cbn; rewrite ?Ho; try done;
        intros c [Hw|Hw]%elem_of_app; auto; apply list_elem_of_singleton in Hw; [|done..].
      subst w. destruct Hok as [a Ha]. by eapply Hup. }
    intros addr h Hh' c Hc. by eapply Hmono, Hall.
Qed.

(** C6: we upload only what we have: in every state a swarm reaches, a chunk
    that a connection was told to read from the disk for its peer, or that
    waits for the upload rate, is of a piece whose hash was accepted, and
    uploads are not disabled. *)
Theorem uploads_only_have have_ sel l ct peers s : wf l ->
  bit_len have_ = bitfield_len l -> bit_len sel = bitfield_len l -> Forall (file_of l) (t_file_infos t) ->
  new have_ sel l (t_file_infos t) = Done (Ok ct) ->
  reaches t (fun _ => True) (swarm_start ct peers) s ->
  (forall addr h c, sw_handlers s !! addr = Some h -> WReadChunk c ∈ ph_out h ->
     t_disable_upload t = false /\ is_have (LiveDownload.lv_pieces (sw_live s)) (ci_piece_index c) = true) /\
  forall addr c, (addr, c) ∈ sw_uploads s ->
     t_disable_upload t = false /\ is_have (LiveDownload.lv_pieces (sw_live s)) (ci_piece_index c) = true.
Proof.
  intros Hwf Hh Hs Hf Hnew Hr. destruct (swarm_start_inv have_ sel l ct peers) as (Hinv & _); try done.
  assert (Hok : swarm_inv t s /\ uploads_ok s).
  { induction Hr as [|s ev s' Hr [Hi Hu] Hev _ Hstep].
    - split; [done|]. split; [by intros a c ?%elem_of_nil|]. intros a h. cbn. by rewrite lookup_empty.
    - split; [by eapply step_swarm_inv|by eapply step_uploads_ok]. }
  destruct Hok as [_ [Hup Hall]]. split.
  - intros addr h c Hh' Hc. by destruct (Hall addr h Hh' c Hc) as (? & _ & _ & ?).
  - intros addr c Hc. by destruct (Hup addr c Hc) as (? & _ & _ & ?).
Qed.
End swarm_properties.

(** A block that arrives after its piece was given to another peer ends the
    connection: the requests of the piece were forgotten when it was stolen,
    although the peer may have sent the block before it could see a cancel. *)
Lemma late_block_drops_peer {B} `{BitRaw B} from to p ci l (s : Swarm (B := B)) :
  with_live from id (sw_peers s) = Some l ->
  LiveDownload.on_received_piece (sw_lengths s) (piece_msg p) = Some ci ->
  on_received_piece from p (notify_steal from to (ci_piece_index ci) s) = Err NotRequested.
Proof.
  intros Hl Hci.
  assert (Hps : forall s1, sw_peers s1 = (on_steal from to (ci_piece_index ci) (sw_peers s)).2 -> sw_live s1 = sw_live s ->
    on_received_piece from p s1 = Err NotRequested).
  { intros s1 H1 H2. unfold on_received_piece, sw_lengths, sw_chunks. rewrite H2. fold (sw_chunks s). fold (sw_lengths s).
    unfold piece_msg in Hci. rewrite Hci. rsimpl. unfold on_handler, with_live_mut. cbn [sw_peers set_handlers]. rewrite H1.
    unfold with_live in Hl. destruct (states (sw_peers s) !! from) as [peer|] eqn:Hp; [|done]. cbn in Hl.
    destruct peer as [pa [|tx|l0| |] pst po pl]; try done. cbn in Hl. injection Hl as ->.
    unfold on_steal, bump_peer, with_live_mut, both, with_states. cbn.
    assert (Hst : exists st, states (match states (sw_peers s) !! to with None => sw_peers s | Some q => mkPeerStates (session_stats (sw_peers s))
       (live_outgoing_peers (sw_peers s)) (stats (sw_peers s)) (<[to := mkPeer (pr_addr q) (pr_state q) (inc_i_stole (pr_stats q))
         (pr_outgoing_address q) (pr_last_state_change q)]> (states (sw_peers s))) end) !! from = Some (mkPeer pa (Live l) st po pl)).
    { destruct (states (sw_peers s) !! to) as [q|] eqn:Hq; [|by exists pst]. cbn. destruct (decide (to = from)) as [->|].
      - rewrite Hp in Hq. injection Hq as <-. rewrite lookup_insert_eq. by eexists.
      - rewrite lookup_insert_ne by done. by exists pst. }
    destruct Hst as [st Hst]. rewrite Hst. cbn. rewrite lookup_insert_eq. cbn. rewrite lookup_insert_eq. cbn.
    rewrite bool_decide_false; [done|]. intros [Hin Hn]%elem_of_difference. apply Hn, elem_of_filter. by split. }
  apply Hps; [|apply notify_steal_live]. unfold notify_steal. destruct (on_steal _ _ _ _) as [cancels ps]. cbn [snd].
  change ps with (sw_peers (set_peers s ps)) at 2. generalize (set_peers s ps). clear.
  induction cancels as [|c l IH]; intros s; [done|]. cbn [foldl]. by rewrite IH.
Qed.

(** ** A swarm of two peers *)

Definition ex_torrent : Torrent := mkTorrent false [1; 2; 3] false ex_files.
Definition ex_private : Torrent := mkTorrent true [1; 2; 3] false ex_files.
Definition ex_addr (n : Z) : SocketAddr := mkSocketAddr false n 6881.
Definition ex_peers : PeerStates (list bool) SocketAddr := mkPeerStates stats_zero ∅ stats_zero ∅.
Definition ex_input (now : Z) : ReqInput := mkReqInput now map_to_list None [] [0; 1] false.
Definition ex_swarm : Swarm (B := list bool) := swarm_start ex_ct ex_peers.

(** Peer [n] connects, tells what it has, and unchokes us. *)
Definition ex_connect (n : Z) (has : list Z) : list (SwarmEvent (B := list bool)) :=
  [EvPeers (EIncoming [] 0 true (ex_addr n) ex_id20 0%nat Tcp); EvStart (ex_addr n) true;
   EvMessage (ex_input 0) (ex_addr n) (MBitfield has); EvRequester (ex_input 0) (ex_addr n);
   EvRequester (ex_input 0) (ex_addr n); EvMessage (ex_input 0) (ex_addr n) MUnchoke;
   EvRequester (ex_input 0) (ex_addr n); EvRequester (ex_input 0) (ex_addr n); EvRequester (ex_input 0) (ex_addr n)].

(** Peer 1 sends the chunk of piece 1. *)
Definition ex_fetch : list (SwarmEvent (B := list bool)) :=
  [EvMessage (ex_input 5) (ex_addr 1) (MPiece (mkPiece 1 0 (replicate (Z.to_nat 15000) 0) [])); EvDiskStart (ex_addr 1);
   EvDiskWritten (ex_input 6) (ex_addr 1); EvDiskChecked (ex_input 7) (ex_addr 1) (Some true); EvDiskCompleted (ex_addr 1)].

(** Peer 2 asks for a chunk of piece 0 and for the metadata. *)
Definition ex_serve : list (SwarmEvent (B := list bool)) :=
  [EvMessage (ex_input 8) (ex_addr 2) (MRequest (mkRequest 0 0 16384));
   EvMessage (ex_input 8) (ex_addr 2) (MExtended (EUtMetadata (UtRequest 0))); EvUpload].

Definition ex_all : list (SwarmEvent (B := list bool)) := ex_connect 1 [192] ++ ex_connect 2 [0] ++ ex_fetch ++ ex_serve.

Definition ex_end (t : Torrent) : Swarm (B := list bool) :=
  match run_swarm t ex_swarm ex_all with Done s => s | Panic => ex_swarm end.

Example ex_all_runs : match run_swarm ex_torrent ex_swarm ex_all with
  | Done s => is_finished (sw_chunks s) = true /\
      (ph_out <$> sw_handlers s !! ex_addr 2) = Some [WMessage MInterested; WUtMetadata (UtData (mkUtMetadataData 0 3 [1; 2; 3] []));
        WReadChunk (mkChunkInfo 0 0 0 16384 0)]
  | Panic => False
  end.
Proof. vm_compute. done. Qed.

Lemma ex_input_ok (s : Swarm (B := list bool)) now : input_ok s (ex_input now).
Proof. constructor; [by intros m|by intros p ?%elem_of_nil|done]. Qed.

(** Events that can happen in any state, one after the other. *)
Lemma reaches_all (t : Torrent) P (s0 : Swarm (B := list bool)) evs : Forall (fun ev => (forall s, event_ok t s ev) /\ P ev) evs ->
  forall s s', reaches t P s0 s -> run_swarm t s evs = Done s' -> reaches t P s0 s'.
Proof.
  intros Hall. induction Hall as [|ev evs [Hev HP] _ IH]; intros s s' Hr; unfold run_swarm; rsimpl; [by intros [= <-]|].
  destruct (swarm_step t s ev) as [s1|] eqn:Hs; [|done]. rsimpl. apply IH. by eapply reach_step.
Qed.

Lemma ex_messages_ok : message_ok ex_torrent (MPiece (mkPiece 1 0 (replicate (Z.to_nat 15000) 0) [])) /\
  message_ok ex_torrent (MRequest (mkRequest 0 0 16384)) /\ message_ok ex_torrent (MExtended (EUtMetadata (UtRequest 0))).
Proof.
  split_and!.
  - unfold message_ok, piece_ok, piece_len. cbn [p_index p_begin block_0 block_1]. rewrite length_replicate. cbn [length].
    rewrite Nat.add_0_r, Z2Nat.id by lia. unfold is_u32. lia.
  - unfold message_ok, is_u32. cbn [Message.rq_index rq_begin]. lia.
  - intros _. split_and!; [unfold is_u32; lia|done|]. intros [[=] _].
Qed.

Lemma ex_all_ok : Forall (fun ev => (forall s, event_ok ex_torrent s ev) /\ check_error ev = false) ex_all.
Proof.
  destruct ex_messages_ok as (H1 & H2 & H3). unfold ex_all, ex_connect, ex_fetch, ex_serve. cbn [app].
  repeat (apply Forall_cons; split; [split; [intros s; cbn [event_ok];
    first [exact I|apply ex_input_ok|split; [apply ex_input_ok|first [exact I|exact H1|exact H2|exact H3]]]|reflexivity]|]).
  apply Forall_nil. exact I.
Qed.

Lemma ex_end_eq : run_swarm ex_torrent ex_swarm ex_all = Done (ex_end ex_torrent).
Proof. vm_compute. reflexivity. Qed.

Lemma ex_peer1_counts : (fun h => (requests_sent h, pieces_received h, unchokes_received h)) <$> sw_handlers (ex_end ex_torrent) !! ex_addr 1
  = Some (1, 1, 1).
Proof. vm_compute. reflexivity. Qed.

Lemma request_window_witness : exists h, sw_handlers (ex_end ex_torrent) !! ex_addr 1 = Some h /\
  requests_sent h = 1 /\ pieces_received h = 1 /\ unchokes_received h = 1 /\ ph_permits h = 128.
Proof.
  pose proof ex_peer1_counts as Hc. destruct (sw_handlers (ex_end ex_torrent) !! ex_addr 1) as [h|] eqn:Hh; [|discriminate].
  cbn [fmap option_fmap option_map] in Hc. injection Hc as Hr Hp Hu. exists h. split; [reflexivity|].
  destruct (request_window ex_torrent ex_swarm (ex_end ex_torrent) ex_all (ex_addr 1) h) as [_ Hw]; [reflexivity|exact ex_end_eq|exact Hh|].
  rewrite Hw, Hr, Hp, Hu. split_and!; reflexivity.
Defined.

(** Peer 2 offers peer exchange while another peer is known, and the task has
    its first turn. *)
Definition ex_known : Swarm (B := list bool) := swarm_start ex_ct (mkPeerStates stats_zero {[ex_addr 9]} stats_zero ∅).
Definition ex_pex : list (SwarmEvent (B := list bool)) :=
  ex_connect 2 [0] ++ [EvExtHandshake (ex_addr 2) ext_handshake_new; EvPex elements (ex_addr 2) 0] ++ ex_serve.
Definition ex_pex_end (t : Torrent) : Swarm (B := list bool) :=
  match run_swarm t ex_known ex_pex with Done s => s | Panic => ex_known end.

Example ex_pex_sends : (fun h => List.existsb (fun w => match w with WUtPex _ => true | _ => false end) (ph_out h))
  <$> sw_handlers (ex_pex_end ex_torrent) !! ex_addr 2 = Some true.
Proof. vm_compute. reflexivity. Qed.

Lemma private_torrent_silent_witness : exists h, sw_handlers (ex_pex_end ex_private) !! ex_addr 2 = Some h /\
  ph_pex h = [] /\ forall w, w ∈ ph_out h -> extension w = false.
Proof.
  destruct (private_torrent_silent ex_private ex_known (ex_pex_end ex_private) ex_pex) as [Hw _]; [reflexivity|reflexivity|vm_compute; reflexivity|].
  destruct (sw_handlers (ex_pex_end ex_private) !! ex_addr 2) as [h|] eqn:Hh; [|vm_compute in Hh; discriminate].
  exists h. split; [reflexivity|]. exact (Hw (ex_addr 2) h Hh).
Defined.


Lemma ex_peer2_out : ph_out <$> sw_handlers (ex_end ex_torrent) !! ex_addr 2 = Some [WMessage MInterested;
  WUtMetadata (UtData (mkUtMetadataData 0 3 [1; 2; 3] [])); WReadChunk (mkChunkInfo 0 0 0 16384 0)].
Proof. vm_compute. reflexivity. Qed.

Lemma uploads_only_have_witness : exists h, sw_handlers (ex_end ex_torrent) !! ex_addr 2 = Some h /\
  WReadChunk (mkChunkInfo 0 0 0 16384 0) ∈ ph_out h /\ is_have (LiveDownload.lv_pieces (sw_live (ex_end ex_torrent))) 0 = true.
Proof.
  destruct (sw_handlers (ex_end ex_torrent) !! ex_addr 2) as [h|] eqn:Hh.
  2: { pose proof ex_peer2_out as Ho. rewrite Hh in Ho. discriminate. }
  assert (Hin : WReadChunk (mkChunkInfo 0 0 0 16384 0) ∈ ph_out h).
  { pose proof ex_peer2_out as Ho. rewrite Hh in Ho. injection Ho as ->. do 2 right. left. }
  exists h. split; [reflexivity|]. split; [exact Hin|].
  destruct (uploads_only_have ex_torrent ex_have ex_selected ex_lengths ex_ct ex_peers (ex_end ex_torrent) ex_lengths_wf) as [Hup _];
    [reflexivity|reflexivity|exact ex_files_ok|vm_compute; reflexivity| |].
  - refine (reaches_all ex_torrent _ _ ex_all _ ex_swarm _ (reach_start _ _ _) ex_end_eq).
    eapply Forall_impl; [exact ex_all_ok|]. intros ev [Hev _]. split; [exact Hev|exact I].
  - exact (proj2 (Hup (ex_addr 2) h (mkChunkInfo 0 0 0 16384 0) Hh Hin)).
Defined.

(** [HaveAll] is taken as [HaveNone]: the bit field that is made for it is
    all zeroes. *)
Lemma have_all_is_have_none {B} `{BitRaw B} t now addr (s : Swarm (B := B)) :
  on_received_message t now addr MHaveAll s = on_received_message t now addr MHaveNone s.
Proof. done. Qed.
