(* ===== verification/PeerConnection.v ===== *)
(** * PeerConnection: the connection of a peer, its writer and its reader

    Models [peer_connection.rs]: the checks of the handshake and [manage_peer],
    whose writer first says what we have, waits for one of the upload slots
    that the connections of the torrent share, and then serves its channel,
    the broadcast of new pieces and the keep-alive timer.  A connection is
    where its writer stands ([c_pos]), so the code between two awaits is one
    step and the runs of the connections are the sequences of their events.

    The handler is a trait: what it answers, what the select picks and whether
    a write or a read succeeds are inputs of a step.  The log [c_written] holds
    what was written in full; its bytes are in [Message].  The semaphore is
    tokio's: an argument, of which its documented laws are assumed
    ([SemaphoreLaws]); [slots_semaphore] is one that keeps them. *)

From S2P Require Import Prelude Lengths HashId Message Metadata Compact PeerHandler.

(** ** Errors and sizes *)

Inductive ConnError :=
| WrongInfoHash | ConnectingToOurselves | TorrentIsNotLive | Disconnected | WriteFailed | ReadFailed | HandlerFailed
| ReadChunkFailed | NoSpace | NeedUtMetadata | NeedPex | NeedHolepunch.

#[export] Instance conn_error_eq_dec : EqDecision ConnError.
Proof. solve_decision. Defined.

Definition MAX_MSG_LEN : nat := PREAMBLE_LEN + 1 + 46 + Z.to_nat CHUNK_SIZE + 64.

(** ** What is written *)

(** A message, and where the writer got it from. *)
Inductive Sent :=
| SentHandshake (h : Handshake)
| SentFirst (m : PeerMessage)
| SentHave (id : Z)
| SentKeepAlive
| SentRequest (w : WriterRequest).

(** ** The state of a connection *)

Inductive WriterPos :=
| PExtended
| PDhtPort
| PBitfield
| PChoke
| PSlot
| PQueued
| PUnchoke
| PSelect
| PSend (s : Sent).

Record Conn := mkConn {
  c_extended : bool;
  c_dht : bool;
  c_limited : bool;  (* its handler has an upload slot semaphore *)
  c_pos : WriterPos;
  c_ids : option PeerExtendedMessageIds;
  c_put : list WriterRequest;  (* all that was sent to the channel *)
  c_queue : list WriterRequest;
  c_broadcast_closed : bool;
  c_deadline : Z;
  c_written : list Sent;
  c_uploaded : Z;
  c_end : option ConnError;
}.

Definition at_pos (c : Conn) (p : WriterPos) : Conn :=
  mkConn (c_extended c) (c_dht c) (c_limited c) p (c_ids c) (c_put c) (c_queue c) (c_broadcast_closed c) (c_deadline c)
    (c_written c) (c_uploaded c) (c_end c).
Definition with_ids (c : Conn) (ids : PeerExtendedMessageIds) : Conn :=
  mkConn (c_extended c) (c_dht c) (c_limited c) (c_pos c) (Some ids) (c_put c) (c_queue c) (c_broadcast_closed c) (c_deadline c)
    (c_written c) (c_uploaded c) (c_end c).
Definition put (c : Conn) (w : WriterRequest) : Conn :=
  mkConn (c_extended c) (c_dht c) (c_limited c) (c_pos c) (c_ids c) (c_put c ++ [w]) (c_queue c ++ [w]) (c_broadcast_closed c)
    (c_deadline c) (c_written c) (c_uploaded c) (c_end c).
Definition with_queue (c : Conn) (q : list WriterRequest) : Conn :=
  mkConn (c_extended c) (c_dht c) (c_limited c) (c_pos c) (c_ids c) (c_put c) q (c_broadcast_closed c) (c_deadline c)
    (c_written c) (c_uploaded c) (c_end c).
Definition close_broadcast (c : Conn) : Conn :=
  mkConn (c_extended c) (c_dht c) (c_limited c) (c_pos c) (c_ids c) (c_put c) (c_queue c) true (c_deadline c)
    (c_written c) (c_uploaded c) (c_end c).
Definition with_deadline (c : Conn) (t : Z) : Conn :=
  mkConn (c_extended c) (c_dht c) (c_limited c) (c_pos c) (c_ids c) (c_put c) (c_queue c) (c_broadcast_closed c) t
    (c_written c) (c_uploaded c) (c_end c).
Definition wrote (c : Conn) (s : Sent) : Conn :=
  mkConn (c_extended c) (c_dht c) (c_limited c) (c_pos c) (c_ids c) (c_put c) (c_queue c) (c_broadcast_closed c) (c_deadline c)
    (c_written c ++ [s]) (c_uploaded c) (c_end c).
Definition on_uploaded_bytes (c : Conn) (n : Z) : Conn :=
  mkConn (c_extended c) (c_dht c) (c_limited c) (c_pos c) (c_ids c) (c_put c) (c_queue c) (c_broadcast_closed c) (c_deadline c)
    (c_written c) (c_uploaded c + n) (c_end c).
Definition ended (c : Conn) (e : ConnError) : Conn :=
  mkConn (c_extended c) (c_dht c) (c_limited c) (c_pos c) (c_ids c) (c_put c) (c_queue c) (c_broadcast_closed c) (c_deadline c)
    (c_written c) (c_uploaded c) (Some e).

(** ** Serialising *)

(** The extended id a message is sent under, of [ExtendedMessage::serialize]. *)
Definition ext_msg_id (ids : PeerExtendedMessageIds) (e : ExtendedMessage) : result ConnError Z :=
  match e with
  | EDyn id => Ok id
  | EHandshake _ => Ok 0
  | EUtMetadata _ => ok_or (ut_metadata ids) NeedUtMetadata
  | EUtPex _ => ok_or (ut_pex ids) NeedPex
  | EUtHolepunch _ => ok_or (ut_holepunch ids) NeedHolepunch
  end.

(** Whether [serialize] to a buffer of [MAX_MSG_LEN] bytes succeeds; [ext_fits]
    is whether the bencoded payload of an extended message fits. *)
Definition serialize_check (ids : PeerExtendedMessageIds) (ext_fits : bool) (m : PeerMessage) : result ConnError unit :=
  match m with
  | MExtended e => _ ←? ext_msg_id ids e; if ext_fits then Ok tt else Err NoSpace
  | _ =>
      match frame m with
      | Some (_, payload) => if (MAX_MSG_LEN <? PREAMBLE_LEN + length payload)%nat then Err NoSpace else Ok tt
      | None => Ok tt
      end
  end.

(** ** The writer *)

(** The branch the select takes. *)
Inductive Select :=
| SHave (id : Z)
| SLagged
| SBroadcastClosed
| SChannel
| STimeout.

Record WriterInput := mkWriterInput {
  wi_now : Z;
  wi_update_my_extended_handshake : ExtendedHandshake -> option ExtendedHandshake;
  wi_dht_port : option Z;
  wi_bitfield : option (option (list Z));  (* [None]: [should_send_bitfield] is false; [Some None]: no chunk tracker *)
  wi_select : Select;
  wi_should_transmit_have : bool;
  wi_channel_closed : bool;
  wi_read_chunk : bool;
  wi_ext_fits : bool;
  wi_write : bool;
}.

(** ** The semaphore of upload slots *)

(** tokio's semaphore.  The task [k] asks for a permit ([acquire_owned]) and has
    one when it is among the holders; when its future is dropped, its permit, or
    its place among those that wait, is dropped with it. *)
Class Semaphore (S : Type) := {
  sem_new : nat -> S;
  acquire_owned : nat -> S -> S;
  drop_permit : nat -> S -> S;
  sem_holders : S -> list nat;
  sem_waiters : S -> list nat;
  sem_valid : nat -> S -> Prop;  (* the states of a semaphore of that many permits *)
}.

(** There are no more permits than the semaphore was made with, and nobody
    waits while one is free. *)
Record sem_inv {S} `{Semaphore S} (n : nat) (s : S) : Prop := {
  so_count : (length (sem_holders s) <= n)%nat;
  so_idle : sem_waiters s <> [] -> length (sem_holders s) = n;
  so_nodup : NoDup (sem_holders s ++ sem_waiters s);
}.

(** What is documented of it: who asks holds a permit or waits, keeps a permit
    until it drops it, and a dropped permit can be given to another. *)
Class SemaphoreLaws (S : Type) `{Semaphore S} : Prop := {
  sem_valid_inv n s : sem_valid n s -> sem_inv n s;
  sem_new_valid n : sem_valid n (sem_new n) /\ sem_holders (sem_new n) = [] /\ sem_waiters (sem_new n) = [];
  acquire_valid n k s : sem_valid n s -> k ∉ sem_holders s -> k ∉ sem_waiters s -> sem_valid n (acquire_owned k s);
  acquire_elem n k s j : sem_valid n s ->
    (j ∈ sem_holders (acquire_owned k s) -> j = k \/ j ∈ sem_holders s) /\
    (j ∈ sem_waiters (acquire_owned k s) -> j = k \/ j ∈ sem_waiters s) /\
    (j ∈ sem_holders s -> j ∈ sem_holders (acquire_owned k s)) /\
    (j = k \/ j ∈ sem_waiters s -> j ∈ sem_holders (acquire_owned k s) \/ j ∈ sem_waiters (acquire_owned k s));
  drop_valid n k s : sem_valid n s -> sem_valid n (drop_permit k s);
  drop_elem n k s j : sem_valid n s ->
    (j ∈ sem_holders (drop_permit k s) -> j <> k /\ (j ∈ sem_holders s \/ j ∈ sem_waiters s)) /\
    (j ∈ sem_waiters (drop_permit k s) -> j <> k /\ j ∈ sem_waiters s) /\
    (j <> k -> j ∈ sem_holders s -> j ∈ sem_holders (drop_permit k s)) /\
    (j <> k -> j ∈ sem_waiters s -> j ∈ sem_holders (drop_permit k s) \/ j ∈ sem_waiters (drop_permit k s));
}.

Section connection.
(** The client's name, the address of the peer and the options. *)
Context (client_name : list Z) (ip : bool * Z) (keep_alive_interval : Z).

Definition my_extended : ExtendedHandshake :=
  let h := ext_handshake_new in
  mkExtHandshake (eh_m h) (eh_p h) (Some client_name) (Some ip) (eh_ipv6 h) (eh_ipv4 h) (eh_reqq h) (eh_metadata_size h)
    (eh_complete_ago h) (eh_upload_only h).

(** [with_timeout("writing", ..., write.write_all(..)).await?]. *)
Definition write_all (i : WriterInput) (s : Sent) (c : Conn) : result ConnError Conn :=
  if wi_write i then Ok (wrote c s) else Err WriteFailed.

Definition default_ids : PeerExtendedMessageIds := mkExtIds None None None.

Definition write_first (i : WriterInput) (m : PeerMessage) (next : WriterPos) (c : Conn) : result ConnError Conn :=
  _ ←? serialize_check default_ids (wi_ext_fits i) m;
  c ←? write_all i (SentFirst m) c;
  Ok (at_pos c next).

(** The select is entered, with a new timer. *)
Definition enter_select (i : WriterInput) (c : Conn) : Conn := with_deadline (at_pos c PSelect) (wi_now i + keep_alive_interval).

Definition select_step (i : WriterInput) (c : Conn) : result ConnError Conn :=
  match wi_select i with
  | SHave id =>
      if c_broadcast_closed c then Ok c
      else if wi_should_transmit_have i then Ok (at_pos c (PSend (SentHave id))) else Ok (enter_select i c)
  | SLagged => if c_broadcast_closed c then Ok c else Ok (enter_select i c)
  | SBroadcastClosed => if c_broadcast_closed c then Ok c else Ok (enter_select i (close_broadcast c))
  | SChannel =>
      match c_queue c with
      | w :: q => Ok (at_pos (with_queue c q) (PSend (SentRequest w)))
      | [] => if wi_channel_closed i then Err TorrentIsNotLive else Ok c
      end
  | STimeout =>
      match c_queue c with
      | [] => if c_deadline c <=? wi_now i then Ok (at_pos c (PSend SentKeepAlive)) else Ok c
      | _ => Ok c
      end
  end.

Definition send_step (i : WriterInput) (s : Sent) (c : Conn) : outcome (result ConnError Conn) :=
  let ids := default default_ids (c_ids c) in
  let message m := Done (_ ←? serialize_check ids (wi_ext_fits i) m; c ←? write_all i s c; Ok (enter_select i c)) in
  match s with
  | SentHave id => message (MHave id)
  | SentKeepAlive => message MKeepAlive
  | SentRequest (WMessage m) => message m
  | SentRequest (WUtMetadata u) => message (MExtended (EUtMetadata u))
  | SentRequest (WUtPex p) => message (MExtended (EUtPex p))
  | SentRequest (WUtHolepunch h) => message (MExtended (EUtHolepunch h))
  | SentRequest (WReadChunk chunk) =>
      if negb (wi_read_chunk i) then Done (Err ReadChunkFailed)
      else if (MAX_MSG_LEN <? PIECE_MESSAGE_PREAMBLE_LEN + Z.to_nat (ci_size chunk))%nat then Panic
      else Done (c ←? write_all i s c; Ok (enter_select i (on_uploaded_bytes c (ci_size chunk))))
  | SentRequest WDisconnect => Done (Err Disconnected)
  | SentHandshake _ | SentFirst _ => Done (Ok c)  (* never in hand *)
  end.

(** The writer, but for the wait for a slot. *)
Definition writer_step (i : WriterInput) (c : Conn) : outcome (result ConnError Conn) :=
  match c_pos c with
  | PExtended =>
      Done (if c_extended c then
              match wi_update_my_extended_handshake i my_extended with
              | None => Err HandlerFailed
              | Some h => write_first i (MExtended (EHandshake h)) PDhtPort c
              end
            else Ok (at_pos c PDhtPort))
  | PDhtPort =>
      Done (match (if c_dht c then wi_dht_port i else None) with
            | Some port => write_first i (MPort port) PBitfield c
            | None => Ok (at_pos c PBitfield)
            end)
  | PBitfield =>
      Done (match wi_bitfield i with
            | Some (Some b) =>
                match serialize_check default_ids (wi_ext_fits i) (MBitfield b) with
                | Ok _ => write_first i (MBitfield b) PChoke c
                | Err _ => Err HandlerFailed
                end
            | Some None => Err HandlerFailed
            | None => Ok (at_pos c PChoke)
            end)
  | PChoke => Done (write_first i MChoke PSlot c)
  | PSlot | PQueued => Done (Ok c)
  | PUnchoke => Done (c ←? write_first i MUnchoke PSelect c; Ok (enter_select i c))
  | PSelect => Done (select_step i c)
  | PSend s => send_step i s c
  end.

(** The reader runs once the DHT port is written. *)
Definition reader_on (c : Conn) : bool := match c_pos c with PExtended | PDhtPort => false | _ => true end.

(** One message read, or [None] for an error; [handler_ok] is what the handler
    returned. *)
Definition reader_step (m : option PeerMessage) (handler_ok : bool) (c : Conn) : result ConnError Conn :=
  match m with
  | None => Err ReadFailed
  | Some (MExtended (EHandshake h)) => if handler_ok then Ok (with_ids c (eh_m h)) else Err HandlerFailed
  | Some _ => if handler_ok then Ok c else Err HandlerFailed
  end.

(** ** The connections of a torrent *)

Context {Sem : Type} `{Semaphore Sem}.

Record Conns := mkConns {
  cs_slots : Sem;  (* [upload_slot_semaphore] *)
  cs_conns : gmap nat Conn;
}.

Context (info_hash peer_id : Id).

(** [manage_peer_incoming] and [manage_peer_outgoing], up to [manage_peer].
    The handshake of the peer is checked before ours is written to an incoming
    connection and after it is to an outgoing one; [h] is [None] when it cannot
    be read. *)
Definition check_handshake (h : Handshake) : option ConnError :=
  if negb (bool_decide (h_info_hash h = info_hash)) then Some WrongInfoHash
  else if bool_decide (h_peer_id h = peer_id) then Some ConnectingToOurselves
  else None.

Definition new_conn (limited : bool) (h : Handshake) : Conn :=
  mkConn (supports_extended h) (supports_dht h) limited PExtended None [] [] false 0
    [SentHandshake (handshake_new info_hash peer_id)] 0 None.

Definition open (incoming limited : bool) (h : option Handshake) (write handler_ok : bool) : result ConnError Conn :=
  match (if incoming then h ≫= check_handshake else None) with
  | Some e => Err e
  | None =>
      if negb write then Err WriteFailed
      else match h with
           | None => Err ReadFailed
           | Some h =>
               match check_handshake h with
               | Some e => Err e
               | None => if handler_ok then Ok (new_conn limited h) else Err HandlerFailed
               end
           end
  end.

Inductive ConnEvent :=
| CvOpen (k : nat) (incoming limited : bool) (h : option Handshake) (write handler_ok : bool)
| CvPut (k : nat) (w : WriterRequest)
| CvWriter (k : nat) (i : WriterInput)
| CvReader (k : nat) (m : option PeerMessage) (handler_ok : bool)
| CvCancel (k : nat).  (* the task of the peer is dropped *)

Definition set_conn (k : nat) (c : Conn) (w : Conns) : Conns := mkConns (cs_slots w) (<[k := c]> (cs_conns w)).

Definition finish (k : nat) (c : Conn) (r : result ConnError Conn) (w : Conns) : Conns :=
  match r with
  | Ok c' => set_conn k c' w
  | Err e => mkConns (drop_permit k (cs_slots w)) (<[k := ended c e]> (cs_conns w))
  end.

(** The wait for the slot is a step of all connections. *)
Definition run_writer (k : nat) (i : WriterInput) (c : Conn) (w : Conns) : outcome Conns :=
  match c_pos c with
  | PSlot =>
      Done (if c_limited c
            then mkConns (acquire_owned k (cs_slots w)) (<[k := at_pos c PQueued]> (cs_conns w))
            else set_conn k (at_pos c PUnchoke) w)
  | PQueued => Done (if bool_decide (k ∈ sem_holders (cs_slots w)) then set_conn k (at_pos c PUnchoke) w else w)
  | _ => r ←! writer_step i c; Done (finish k c r w)
  end.

(** An event of a connection that has ended, or whose turn it is not, changes
    nothing. *)
Definition on_conn (k : nat) (w : Conns) (f : Conn -> outcome Conns) : outcome Conns :=
  match cs_conns w !! k with
  | Some c => match c_end c with None => f c | Some _ => Done w end
  | None => Done w
  end.

Definition conn_step (w : Conns) (ev : ConnEvent) : outcome Conns :=
  match ev with
  | CvOpen k incoming limited h write handler_ok =>
      match cs_conns w !! k with
      | Some _ => Done w
      | None =>
          match open incoming limited h write handler_ok with
          | Ok c => Done (set_conn k c w)
          | Err _ => Done w
          end
      end
  | CvPut k r => on_conn k w (fun c => Done (set_conn k (put c r) w))
  | CvWriter k i => on_conn k w (fun c => run_writer k i c w)
  | CvReader k m handler_ok =>
      on_conn k w (fun c => if reader_on c then Done (finish k c (reader_step m handler_ok c) w) else Done w)
  | CvCancel k => on_conn k w (fun c => Done (finish k c (Err TorrentIsNotLive) w))
  end.

Definition run_conns (w : Conns) (evs : list ConnEvent) : outcome Conns := for_each conn_step w evs.
End connection.

(** [TorrentStateLive::new] makes the semaphore. *)
Definition no_conns {Sem} `{Semaphore Sem} : Conns := mkConns (sem_new 4) ∅.

(** ** What a connection has written *)

Definition request_of (s : Sent) : option WriterRequest := match s with SentRequest w => Some w | _ => None end.
Definition requests (l : list Sent) : list WriterRequest := omap request_of l.

(** What the writer has taken from the select and not yet written. *)
Definition in_hand (p : WriterPos) : list WriterRequest :=
  match p with PSend (SentRequest w) => [w] | _ => [] end.

Definition uploaded_by (w : WriterRequest) : Z := match w with WReadChunk c => ci_size c | _ => 0 end.

Definition from_loop (s : Sent) : bool := match s with SentHave _ | SentKeepAlive | SentRequest _ => true | _ => false end.

(** The place of a message in the life of a connection. *)
Definition rank (s : Sent) : nat :=
  match s with
  | SentHandshake _ => 0
  | SentFirst (MExtended _) => 1
  | SentFirst (MPort _) => 2
  | SentFirst (MBitfield _) => 3
  | SentFirst MChoke => 4
  | SentFirst MUnchoke => 5
  | _ => 6
  end.

Definition before (a b : Sent) : Prop := (rank a < rank b)%nat \/ from_loop a = true /\ from_loop b = true.

(** The last rank that may have been written, by where the writer is. *)
Definition level (p : WriterPos) : nat :=
  match p with
  | PExtended => 0 | PDhtPort => 1 | PBitfield => 2 | PChoke => 3 | PSlot | PQueued | PUnchoke => 4 | PSelect | PSend _ => 6
  end.

Record conn_ok (c : Conn) : Prop := {
  ok_history : requests (c_written c) ++ in_hand (c_pos c) ++ c_queue c = c_put c;
  ok_order : StronglySorted before (c_written c);
  ok_level : Forall (fun s => (rank s <= level (c_pos c))%nat /\ (rank s = 6%nat -> from_loop s = true)) (c_written c);
  ok_hand : forall s, c_pos c = PSend s -> from_loop s = true;
  ok_uploaded : c_uploaded c = sumZ (uploaded_by <$> requests (c_written c));
}.

Section writer.
Context (client_name : list Z) (ip : bool * Z) (keep_alive_interval : Z).
Implicit Types (c : Conn) (i : WriterInput).

Lemma conn_ok_move c c' : conn_ok c -> c_written c' = c_written c -> c_uploaded c' = c_uploaded c -> c_put c' = c_put c ->
  in_hand (c_pos c') ++ c_queue c' = in_hand (c_pos c) ++ c_queue c -> (level (c_pos c) <= level (c_pos c'))%nat ->
  (forall s, c_pos c' = PSend s -> from_loop s = true) -> conn_ok c'.
Proof.
  intros [Hh Ho Hl Hs Hu] Ew Eu Ep Eq Hle Hs'. constructor.
  - by rewrite Ew, Eq, Ep.
  - by rewrite Ew.
  - rewrite Ew. eapply Forall_impl; [exact Hl|]. intros a [? ?]; split; [lia|done].
  - done.
  - by rewrite Ew, Eu.
Qed.

Lemma conn_ok_wrote c c' s : conn_ok c -> c_written c' = c_written c ++ [s] -> c_put c' = c_put c ->
  c_uploaded c' = c_uploaded c + from_option uploaded_by 0 (request_of s) ->
  option_list (request_of s) ++ in_hand (c_pos c') ++ c_queue c' = in_hand (c_pos c) ++ c_queue c ->
  (level (c_pos c) < rank s)%nat \/ level (c_pos c) = 6%nat -> (rank s = 6%nat -> from_loop s = true) ->
  (level (c_pos c) = 6%nat -> from_loop s = true) -> (rank s <= level (c_pos c'))%nat ->
  (level (c_pos c) <= level (c_pos c'))%nat -> (forall s, c_pos c' = PSend s -> from_loop s = true) -> conn_ok c'.
Proof.
  intros [Hh Ho Hl Hs Hu] Ew Ep Eu Eq Hr Hf Hf' Hle Hle' Hs'.
  assert (requests (c_written c') = requests (c_written c) ++ option_list (request_of s)) as Er.
  { unfold requests. rewrite Ew, omap_app. cbn. by destruct (request_of s). }
  constructor.
  - by rewrite Er, <- (assoc_L (++)), Eq, Ep.
  - rewrite Ew. apply StronglySorted_app_2; [|done|repeat constructor]. intros a b Ha Hb. apply list_elem_of_singleton in Hb as ->.
    rewrite Forall_forall in Hl. destruct (Hl a Ha) as [? Hla]. unfold before. destruct (decide (rank a = 6%nat)).
    + right. split; [auto|]. apply Hf'. assert (level (c_pos c) <= 6)%nat by (destruct (c_pos c); cbn; lia). lia.
    + destruct Hr as [?|E]; [left; lia|]. destruct (decide (rank s = 6%nat)); [left; lia|].
      specialize (Hf' E). destruct s; cbn in *; try done.
  - rewrite Ew. apply Forall_app; split; [|repeat constructor; auto].
    eapply Forall_impl; [exact Hl|]. intros a [? ?]; split; [lia|done].
  - done.
  - rewrite Er, fmap_app, Eu, Hu. destruct (request_of s); cbn; rewrite ?sumZ_app; cbn; lia.
Qed.

(** The groups of positions the upload slots know of. *)
Definition gate (p : WriterPos) : nat := match p with PQueued => 1 | PUnchoke | PSelect | PSend _ => 2 | _ => 0 end.

(** What a step of one connection keeps. *)
Record same_conn c c' : Prop := {
  same_put : c_put c' = c_put c;
  same_limited : c_limited c' = c_limited c;
  same_end : c_end c' = c_end c;
  same_gate : gate (c_pos c') = gate (c_pos c);
}.

Lemma write_first_ok i m next c c' : conn_ok c -> write_first i m next c = Ok c' -> in_hand (c_pos c) = [] -> in_hand next = [] ->
  (level (c_pos c) < rank (SentFirst m) < 6)%nat -> (rank (SentFirst m) <= level next)%nat -> (forall s, next <> PSend s) ->
  gate next = gate (c_pos c) -> conn_ok c' /\ same_conn c c'.
Proof.
  intros Hc Hw Eh En Hr Hn Hs Hg. revert Hw. unfold write_first, write_all.
  destruct (serialize_check _ _ _); cbn; [|done]. destruct (wi_write i); cbn; [|done]. intros [= <-]. split; [|by constructor].
  apply (conn_ok_wrote c _ (SentFirst m)); cbn [at_pos wrote c_written c_put c_uploaded c_pos c_queue request_of option_list from_option app];
    try done; try lia.
  - by rewrite En, Eh.
  - intros s E. destruct (Hs s E).
Qed.

Lemma select_step_ok i c c' : conn_ok c -> c_pos c = PSelect -> select_step keep_alive_interval i c = Ok c' -> conn_ok c' /\ same_conn c c'.
Proof.
  intros Hc Ep. unfold select_step, enter_select.
  destruct (wi_select i); repeat case_match; intros [= <-];
    (split; [first [done | apply (conn_ok_move c); cbn; rewrite ?Ep; try done; cbn; try congruence; try lia; try (intros ? [= <-]; done)]
            | constructor; cbn; rewrite ?Ep; done]).
Qed.

Definition chunk_fits (w : WriterRequest) : Prop := match w with WReadChunk c => ci_size c <= CHUNK_SIZE | _ => True end.

Lemma in_hand_put c s : conn_ok c -> c_pos c = PSend (SentRequest s) -> s ∈ c_put c.
Proof. intros Hc E. rewrite <- (ok_history c Hc), E. cbn. set_solver. Qed.

Lemma send_step_ok i s c : conn_ok c -> c_pos c = PSend s -> Forall chunk_fits (c_put c) ->
  exists r, send_step keep_alive_interval i s c = Done r /\ forall c', r = Ok c' -> conn_ok c' /\ same_conn c c'.
Proof.
  intros Hc Ep Hf. pose proof (ok_hand c Hc s Ep) as Hs.
  assert (forall c', c_written c' = c_written c ++ [s] -> c_put c' = c_put c -> c_queue c' = c_queue c -> c_pos c' = PSelect ->
    c_uploaded c' = c_uploaded c + from_option uploaded_by 0 (request_of s) -> conn_ok c') as Hw.
  { intros c' Ew E1 E2 E3 Eu. apply (conn_ok_wrote c c' s); rewrite ?E3, ?Ep; cbn; try done; try (by right); try lia.
    - rewrite E2. by destruct s.
    - by destruct s as [|[]| | |]. }
  unfold send_step, write_all, enter_select. destruct s as [h|m|id| |w]; try done.
  3: destruct w as [m|u|pe|hp|ch|].
  1-6: eexists; (split; [reflexivity|]); intros c'; destruct (serialize_check _ _ _), (wi_write i); intros [= <-];
    (split; [apply Hw; cbn; try done; lia|constructor; cbn; rewrite ?Ep; done]).
  2: by eexists.
  destruct (negb (wi_read_chunk i)); [by eexists|]. destruct (Nat.ltb_spec MAX_MSG_LEN (PIECE_MESSAGE_PREAMBLE_LEN + Z.to_nat (ci_size ch))) as [Hlt|_].
  - pose proof (in_hand_put c _ Hc Ep) as Hin. rewrite Forall_forall in Hf. specialize (Hf _ Hin). cbn in Hf.
    unfold MAX_MSG_LEN, PIECE_MESSAGE_PREAMBLE_LEN, PREAMBLE_LEN, INTEGER_LEN, MSGID_LEN in Hlt. lia.
  - eexists. split; [reflexivity|]. intros c'. destruct (wi_write i); intros [= <-].
    split; [apply Hw; cbn; done|constructor; cbn; rewrite ?Ep; done].
Qed.

Lemma writer_step_ok i c : conn_ok c -> Forall chunk_fits (c_put c) ->
  exists r, writer_step client_name ip keep_alive_interval i c = Done r /\ forall c', r = Ok c' -> conn_ok c' /\ same_conn c c'.
Proof.
  intros Hc Hf. unfold writer_step. destruct (c_pos c) as [| | | | | | | |s] eqn:Ep; try (eexists; split; [reflexivity|]; intros c').
  7: { destruct (write_first i MUnchoke PSelect c) as [c1|] eqn:Hw; cbn; [|done]. intros [= <-].
       assert (c_pos c1 = PSelect) as E1.
       { revert Hw. unfold write_first, write_all. destruct (serialize_check _ _ _), (wi_write i); cbn; by intros [= <-]. }
       eapply (write_first_ok i) in Hw as [Hc1 [? ? ? Hg]]; rewrite ?Ep; cbn; try done; try lia.
       split; [apply (conn_ok_move c1); cbn; rewrite ?E1; done|constructor; cbn; rewrite ?Ep; done]. }
  1-4: repeat case_match; intros Hw; try (eapply (write_first_ok i) in Hw; rewrite ?Ep; cbn; done || lia); revert Hw.
  all: try by apply select_step_ok.
  all: try by apply send_step_ok.
  all: intros [= <-]; (split; [first [done|apply (conn_ok_move c); cbn; rewrite ?Ep; cbn; done || lia]|constructor; cbn; rewrite ?Ep; done]).
Qed.

Lemma conn_reader_ok m b c c' : conn_ok c -> reader_step m b c = Ok c' -> conn_ok c' /\ same_conn c c'.
Proof.
  intros Hc. unfold reader_step. destruct m as [[]|]; repeat case_match; intros [= <-];
    (split; [first [done|by apply (conn_ok_move c); cbn; try done; apply Hc]|by constructor]).
Qed.

Lemma put_ok c r : conn_ok c -> conn_ok (put c r).
Proof.
  intros [Hh Ho Hl Hs Hu]. constructor; try done. cbn. by rewrite <- Hh, <- !(assoc_L (++)).
Qed.

Lemma ended_ok c e : conn_ok c -> conn_ok (ended c e).
Proof. intros []. by constructor. Qed.
End writer.

(** ** The connections together *)
Section conns.
Context (client_name : list Z) (ip : bool * Z) (keep_alive_interval : Z) (info_hash peer_id : Id).
Context {Sem : Type} `{SemaphoreLaws Sem}.
Implicit Types (w : Conns (Sem := Sem)) (c : Conn).
Local Abbreviation step := (conn_step client_name ip keep_alive_interval info_hash peer_id).
Local Abbreviation run := (run_conns client_name ip keep_alive_interval info_hash peer_id).

(** A connection of a torrent that has not ended. *)
Definition counted c : Prop := c_limited c = true /\ c_end c = None.

Record conns_inv w : Prop := {
  ci_slots : sem_valid 4 (cs_slots w);
  ci_conns : forall k c, cs_conns w !! k = Some c -> conn_ok c /\ Forall chunk_fits (c_put c);
  ci_holder : forall k, k ∈ sem_holders (cs_slots w) -> exists c, cs_conns w !! k = Some c /\ counted c /\ gate (c_pos c) <> 0%nat;
  ci_waiter : forall k, k ∈ sem_waiters (cs_slots w) -> exists c, cs_conns w !! k = Some c /\ counted c /\ gate (c_pos c) = 1%nat;
  ci_queued : forall k c, cs_conns w !! k = Some c -> counted c -> gate (c_pos c) = 1%nat ->
    k ∈ sem_holders (cs_slots w) \/ k ∈ sem_waiters (cs_slots w);
  ci_past : forall k c, cs_conns w !! k = Some c -> counted c -> gate (c_pos c) = 2%nat -> k ∈ sem_holders (cs_slots w);
}.

Lemma no_conns_inv : conns_inv no_conns.
Proof. destruct (sem_new_valid 4) as (Hi & Eh & Ew). constructor; cbn; rewrite ?Eh, ?Ew; try done; set_solver. Qed.

(** One connection moves and the slots stay. *)
Lemma conns_inv_set k c' w : conns_inv w -> conn_ok c' -> Forall chunk_fits (c_put c') ->
  (k ∈ sem_holders (cs_slots w) -> counted c' /\ gate (c_pos c') <> 0%nat) ->
  (k ∈ sem_waiters (cs_slots w) -> counted c' /\ gate (c_pos c') = 1%nat) ->
  (counted c' -> gate (c_pos c') = 1%nat -> k ∈ sem_holders (cs_slots w) \/ k ∈ sem_waiters (cs_slots w)) ->
  (counted c' -> gate (c_pos c') = 2%nat -> k ∈ sem_holders (cs_slots w)) -> conns_inv (set_conn k c' w).
Proof.
  intros [Hs Hc Hh Hw Hq Hp] Hok Hf Ih Iw Iq Ip. constructor; cbn; [done| | | | |].
  - intros j c. rewrite lookup_insert_Some. intros [[<- <-]|[_ Hj]]; [done|by apply (Hc j)].
  - intros j Hj. destruct (decide (j = k)) as [->|?]; [rewrite lookup_insert_eq; eauto|rewrite lookup_insert_ne by done; by apply Hh].
  - intros j Hj. destruct (decide (j = k)) as [->|?]; [rewrite lookup_insert_eq; eauto|rewrite lookup_insert_ne by done; by apply Hw].
  - intros j c. rewrite lookup_insert_Some. intros [[<- <-]|[_ Hj]]; [done|by apply Hq].
  - intros j c. rewrite lookup_insert_Some. intros [[<- <-]|[_ Hj]]; [done|by apply Hp].
Qed.

Lemma conns_inv_same k c c' w : conns_inv w -> cs_conns w !! k = Some c -> conn_ok c' -> Forall chunk_fits (c_put c') ->
  c_limited c' = c_limited c -> c_end c' = c_end c -> gate (c_pos c') = gate (c_pos c) -> conns_inv (set_conn k c' w).
Proof.
  intros Hi Hk Hok Hf El Ee Eg. apply conns_inv_set; try done; unfold counted; rewrite El, Ee, Eg.
  - intros Hin. destruct (ci_holder w Hi k Hin) as (c1 & E & ? & ?). by simplify_eq.
  - intros Hin. destruct (ci_waiter w Hi k Hin) as (c1 & E & ? & ?). by simplify_eq.
  - by apply (ci_queued w Hi).
  - by apply (ci_past w Hi).
Qed.

Lemma conns_inv_end k c e w : conns_inv w -> cs_conns w !! k = Some c ->
  conns_inv (mkConns (drop_permit k (cs_slots w)) (<[k := ended c e]> (cs_conns w))).
Proof.
  intros [Hs Hc Hh Hw Hq Hp] Hk. pose proof (fun j => drop_elem 4 k _ j Hs) as He. constructor; cbn.
  - by apply drop_valid.
  - intros j c'. rewrite lookup_insert_Some. intros [[<- <-]|[_ Hj]]; [|by apply (Hc j)].
    destruct (Hc k c Hk). split; [by apply ended_ok|done].
  - intros j Hj. destruct (proj1 (He j) Hj) as [Hne [Hin|Hin]]; rewrite lookup_insert_ne by done; [by apply Hh|].
    destruct (Hw j Hin) as (c1 & ? & ? & Hg). exists c1. by rewrite Hg.
  - intros j Hj. destruct (He j) as (_ & Hwj & _). destruct (Hwj Hj) as [Hne Hin]. rewrite lookup_insert_ne by done. by apply Hw.
  - intros j c'. rewrite lookup_insert_Some. intros [[<- <-]|[Hne Hj]]; [by intros [_ [=]]|].
    intros Hcn Hg. destruct (He j) as (_ & _ & Hk1 & Hk2). destruct (Hq j c' Hj Hcn Hg); [left; by apply Hk1|by apply Hk2].
  - intros j c'. rewrite lookup_insert_Some. intros [[<- <-]|[Hne Hj]]; [by intros [_ [=]]|].
    intros Hcn Hg. destruct (He j) as (_ & _ & Hk1 & _). apply Hk1; [done|]. by apply (Hp j c').
Qed.

Lemma conns_inv_acquire k c w : conns_inv w -> cs_conns w !! k = Some c -> counted c -> conn_ok (at_pos c PQueued) ->
  k ∉ sem_holders (cs_slots w) -> k ∉ sem_waiters (cs_slots w) ->
  conns_inv (mkConns (acquire_owned k (cs_slots w)) (<[k := at_pos c PQueued]> (cs_conns w))).
Proof.
  intros [Hs Hc Hh Hw Hq Hp] Hk Hcn Hok Nh Nw. pose proof (fun j => acquire_elem 4 k _ j Hs) as He. constructor; cbn.
  - by apply acquire_valid.
  - intros j c'. rewrite lookup_insert_Some. intros [[<- <-]|[_ Hj]]; [|by apply (Hc j)]. split; [done|]. by apply (Hc k c Hk).
  - intros j Hj. destruct (decide (j = k)) as [->|?]; [rewrite lookup_insert_eq; eexists; split; [done|]; by split|].
    rewrite lookup_insert_ne by done. apply Hh. by destruct (proj1 (He j) Hj).
  - intros j Hj. destruct (decide (j = k)) as [->|?]; [rewrite lookup_insert_eq; eexists; split; [done|]; by split|].
    rewrite lookup_insert_ne by done. apply Hw. destruct (He j) as (_ & Hwj & _). by destruct (Hwj Hj).
  - intros j c'. destruct (He j) as (_ & _ & Hk1 & Hk2).
    rewrite lookup_insert_Some. intros [[<- <-]|[Hne Hj]]; [intros _ _; apply Hk2; by left|].
    intros Hcn' Hg. destruct (Hq j c' Hj Hcn' Hg); [left; by apply Hk1|apply Hk2; by right].
  - intros j c'. rewrite lookup_insert_Some. intros [[<- <-]|[Hne Hj]]; [done|]. intros ? ?. apply (He j). by apply (Hp j c').
Qed.

Lemma finish_inv k c r w : conns_inv w -> cs_conns w !! k = Some c -> (forall c', r = Ok c' -> conn_ok c' /\ same_conn c c') ->
  conns_inv (finish k c r w).
Proof.
  intros Hi Hk Hr. destruct r as [c'|e]; cbn; [|by apply conns_inv_end].
  destruct (Hr c' eq_refl) as [Hok [Ep El Ee Eg]]. eapply conns_inv_same; try done. rewrite Ep. by eapply ci_conns.
Qed.

Lemma run_writer_inv k i c w : conns_inv w -> cs_conns w !! k = Some c -> c_end c = None ->
  exists w', run_writer client_name ip keep_alive_interval k i c w = Done w' /\ conns_inv w'.
Proof.
  intros Hi Hk He. destruct (ci_conns w Hi k c Hk) as [Hok Hf]. unfold run_writer.
  destruct (writer_step_ok client_name ip keep_alive_interval i c Hok Hf) as (r & Er & Hr).
  assert (Hgen : exists w', outcome_bind (writer_step client_name ip keep_alive_interval i c) (fun r => Done (finish k c r w)) = Done w' /\
    conns_inv w').
  { rewrite Er. cbn. eexists. split; [done|by apply finish_inv]. }
  assert (Hmove : forall p, in_hand (c_pos c) = [] -> in_hand p = [] -> (level (c_pos c) <= level p)%nat -> (forall s, p <> PSend s) ->
    conn_ok (at_pos c p)).
  { intros p E1 E2 Hl Hs. apply (conn_ok_move c); cbn; rewrite ?E1, ?E2; try done. intros s E. destruct (Hs s E). }
  assert (Hno : gate (c_pos c) = 0%nat -> (k ∉ sem_holders (cs_slots w)) /\ (k ∉ sem_waiters (cs_slots w))).
  { intros Eg. split; intros Hin.
    - destruct (ci_holder w Hi k Hin) as (c1 & E & ? & ?). by simplify_eq.
    - destruct (ci_waiter w Hi k Hin) as (c1 & E & ? & ?). simplify_eq. lia. }
  destruct (c_pos c) eqn:Ep; try exact Hgen; clear Hgen; (eexists; split; [reflexivity|]).
  - destruct (Hno eq_refl) as [Hh Hw]. destruct (c_limited c) eqn:El.
    + apply conns_inv_acquire; try done. by apply Hmove.
    + apply conns_inv_set; try done; [by apply Hmove|]. intros [E _]. cbn in E. congruence.
  - case_bool_decide as Hin; [|done]. apply conns_inv_set; try done; [by apply Hmove| |].
    + intros _. destruct (ci_holder w Hi k Hin) as (c1 & E & Hcn & _). by simplify_eq.
    + intros Hw. pose proof (so_nodup _ _ (sem_valid_inv _ _ (ci_slots w Hi))) as Hn. apply NoDup_app in Hn as (_ & Hd & _). by destruct (Hd k Hin).
Qed.

Lemma new_conn_ok limited h : conn_ok (new_conn info_hash peer_id limited h).
Proof. constructor; cbn; try done; [repeat constructor|]. constructor; [|done]. split; [cbn; lia|done]. Qed.

Lemma open_ok incoming limited h b1 b2 c : open info_hash peer_id incoming limited h b1 b2 = Ok c ->
  exists h', c = new_conn info_hash peer_id limited h' /\ h = Some h' /\ h_info_hash h' = info_hash /\ h_peer_id h' <> peer_id.
Proof.
  unfold open. destruct (if incoming then _ else _); [done|]. destruct b1; [|done]. destruct h as [h'|]; [|done].
  destruct (check_handshake _ _ h') eqn:Ec; [done|]. destruct b2; [|done]. intros [= <-]. exists h'. do 2 (split; [done|]).
  revert Ec. unfold check_handshake. repeat case_bool_decide; done.
Qed.

(** The chunks to upload are no larger than chunks are. *)
Definition event_fits (ev : ConnEvent) : Prop := match ev with CvPut _ r => chunk_fits r | _ => True end.

Lemma conns_step_inv ev w : conns_inv w -> event_fits ev -> exists w', step w ev = Done w' /\ conns_inv w'.
Proof.
  intros Hi He.
  assert (forall k f, (forall c, cs_conns w !! k = Some c -> c_end c = None -> exists w', f c = Done w' /\ conns_inv w') ->
    exists w', on_conn k w f = Done w' /\ conns_inv w') as Hon.
  { intros k f Hf. unfold on_conn. destruct (cs_conns w !! k) as [c|]; [|by eauto]. destruct (c_end c) eqn:E; by eauto. }
  destruct ev as [k incoming limited h b1 b2|k r|k i|k m b|k]; cbn [conn_step]; [|apply Hon; intros c Hk Hend..].
  - destruct (cs_conns w !! k) eqn:Ek; [by eauto|]. destruct (open _ _ _ _ _ _ _) as [c|] eqn:Eo; [|by eauto].
    apply open_ok in Eo as (h' & -> & _). eexists; split; [done|].
    apply conns_inv_set; try done; [apply new_conn_ok| |]; intros Hin; exfalso.
    + destruct (ci_holder w Hi k Hin) as (c & ? & _). congruence.
    + destruct (ci_waiter w Hi k Hin) as (c & ? & _). congruence.
  - destruct (ci_conns w Hi k c Hk) as [Hok Hf]. eexists; split; [done|]. apply (conns_inv_same k c); try done; [by apply put_ok|].
    apply Forall_app; split; [done|by constructor].
  - by apply run_writer_inv.
  - destruct (reader_on c); [|by eauto]. eexists; split; [done|]. apply finish_inv; try done.
    intros c' Hr. eapply conn_reader_ok; [|done]. by apply (ci_conns w Hi k).
  - eexists; split; [done|]. by apply finish_inv.
Qed.

Lemma conns_run_inv evs w : conns_inv w -> Forall event_fits evs -> exists w', run w evs = Done w' /\ conns_inv w'.
Proof.
  intros Hi Hf. revert w Hi. induction Hf as [|ev evs He _ IH]; intros w Hi; [by eauto|].
  destruct (conns_step_inv ev w Hi He) as (w1 & E1 & Hi1). unfold run_conns. cbn [for_each]. rewrite E1. cbn. by apply IH.
Qed.

(** C8: For every run of the connections of a torrent (opened, written, read
    and dropped in any order, with any answers of the handler and any failures)
    in which no chunk to upload is larger than a chunk: no writer panics, and of
    every connection, also one that has ended, what the writer has taken from
    its channel, the request in its hand and the rest of the channel are all
    that was sent to it, in that order and each once; it has written the
    handshake, the extended handshake, the DHT port, the bitfield, choke and
    unchoke at most once and in this order, and all else after them; and it has
    counted exactly the bytes of the chunks it has written. *)
Theorem writer_in_order evs : Forall event_fits evs ->
  exists w, run no_conns evs = Done w /\ forall k c, cs_conns w !! k = Some c ->
    requests (c_written c) ++ in_hand (c_pos c) ++ c_queue c = c_put c /\ StronglySorted before (c_written c) /\
    c_uploaded c = sumZ (uploaded_by <$> requests (c_written c)).
Proof.
  intros Hf. destruct (conns_run_inv evs no_conns no_conns_inv Hf) as (w & E & Hi). exists w. split; [done|].
  intros k c Hk. destruct (ci_conns w Hi k c Hk) as [[] _]. done.
Qed.

(** It has written more than what it starts with, up to choke. *)
Definition spoken c : Prop := exists s, s ∈ c_written c /\ (4 < rank s)%nat.

Lemma spoken_holder w k c : conns_inv w -> cs_conns w !! k = Some c -> counted c -> spoken c -> k ∈ sem_holders (cs_slots w).
Proof.
  intros Hi Hk Hcn (s & Hs & Hr). apply (ci_past w Hi k c); try done.
  destruct (ci_conns w Hi k c Hk) as [Hok _]. pose proof (ok_level c Hok) as Hl. rewrite Forall_forall in Hl.
  specialize (Hl s Hs) as [Hl _]. destruct (c_pos c); cbn in *; lia.
Qed.

(** A connection that was given a slot and lives: its writer is past the wait
    for it, or goes on with its next turn. *)
Definition served (w : Conns (Sem := Sem)) (k : nat) : Prop := exists c, cs_conns w !! k = Some c /\ counted c /\
  (gate (c_pos c) = 2%nat \/
   c_pos c = PQueued /\ forall i, run_writer client_name ip keep_alive_interval k i c w = Done (set_conn k (at_pos c PUnchoke) w)).

Lemma holder_served w k : conns_inv w -> k ∈ sem_holders (cs_slots w) -> served w k.
Proof.
  intros Hi Hk. destruct (ci_holder w Hi k Hk) as (c & Ec & Hcn & Hg). exists c. do 2 (split; [done|]).
  destruct (c_pos c) eqn:Ep; cbn in Hg; try done; try (by left). right. split; [done|].
  intros i. unfold run_writer. by rewrite Ep, bool_decide_true.
Qed.

(** C9: In every such run at most four connections of the torrent that have not
    ended have written anything after choke, and so are unchoked or were sent
    any request, have or keep-alive; and a connection that waits for a slot and
    does not get one in its next turn waits for four others, which were given a
    slot and have not ended: the slot of a connection that has ended is never
    kept.  The semaphore is any that keeps the documented laws of tokio's. *)
Theorem four_upload_slots evs w : Forall event_fits evs -> run no_conns evs = Done w ->
  (forall ks, NoDup ks -> (forall k, k ∈ ks -> exists c, cs_conns w !! k = Some c /\ counted c /\ spoken c) -> (length ks <= 4)%nat) /\
  (forall k c, cs_conns w !! k = Some c -> counted c -> c_pos c = PQueued ->
     served w k \/ ~ spoken c /\ exists ks, NoDup ks /\ length ks = 4%nat /\ (k ∉ ks) /\ forall j, j ∈ ks -> served w j).
Proof.
  intros Hf E. destruct (conns_run_inv evs no_conns no_conns_inv Hf) as (w' & E' & Hi). assert (w' = w) as -> by congruence.
  destruct (sem_valid_inv _ _ (ci_slots w Hi)) as [Hc Hid Hn]. apply NoDup_app in Hn as (Hnd & Hd & _). split.
  - intros ks Hks Hall. apply Nat.le_trans with (length (sem_holders (cs_slots w))); [|lia].
    apply submseteq_length, NoDup_submseteq; [done|]. intros k Hk. destruct (Hall k Hk) as (c & ? & ? & ?). by apply (spoken_holder w k c).
  - intros k c Hk Hcn Hp. destruct (ci_queued w Hi k c Hk Hcn) as [Hh|Hw]; [by rewrite Hp|left; by apply holder_served|].
    right. assert (Hno : k ∉ sem_holders (cs_slots w)) by (intros Hh; by apply (Hd k)).
    split; [intros Hsp; by apply Hno, (spoken_holder w k c)|]. exists (sem_holders (cs_slots w)). split_and!; try done.
    + apply Hid. intros En. rewrite En in Hw. set_solver.
    + intros j. by apply holder_served.
Qed.
End conns.

(** ** What the writer does that it does not mean to *)

(** A connect relayed to a peer that has not said that it knows hole punching
    ends the connection of that peer. *)
Lemma relayed_connect_drops_target client_name ip interval i h c : c_pos c = PSend (SentRequest (WUtHolepunch h)) ->
  (forall ids, c_ids c = Some ids -> ut_holepunch ids = None) -> writer_step client_name ip interval i c = Done (Err NeedHolepunch).
Proof.
  intros Ep Hn. unfold writer_step, send_step. rewrite Ep. cbn. destruct (c_ids c) as [ids|]; cbn; [|done].
  by rewrite (Hn ids eq_refl).
Qed.

(** The bitfield of a torrent of more than 131960 pieces does not fit the
    buffer of the writer, and ends the connection. *)
Lemma large_bitfield_ends client_name ip interval i c b : c_pos c = PBitfield -> wi_bitfield i = Some (Some b) ->
  (16495 < Z.of_nat (length b))%Z -> writer_step client_name ip interval i c = Done (Err HandlerFailed).
Proof.
  intros Ep Eb Hl. unfold writer_step. rewrite Ep, Eb. cbn [serialize_check frame].
  destruct (Nat.ltb_spec MAX_MSG_LEN (PREAMBLE_LEN + length b)) as [_|Hle]; [done|].
  unfold MAX_MSG_LEN, PREAMBLE_LEN, INTEGER_LEN, MSGID_LEN, CHUNK_SIZE in Hle. lia.
Qed.

(** A piece that the peer has already is not told to it. *)
Definition unsent_have (now : Z) : WriterInput := mkWriterInput now Some None None (SHave 0) false false true true true.
Definition timer (now : Z) : WriterInput := mkWriterInput now Some None None STimeout false false true true true.

Fixpoint polls (client_name : list Z) (ip : bool * Z) (interval : Z) (l : list WriterInput) (c : Conn) : outcome (result ConnError Conn) :=
  match l with
  | [] => Done (Ok c)
  | i :: l => c ←?! writer_step client_name ip interval i c; polls client_name ip interval l c
  end.

Lemma timer_early client_name ip interval t c : c_pos c = PSelect -> c_queue c = [] -> t < c_deadline c ->
  writer_step client_name ip interval (timer t) c = Done (Ok c).
Proof. intros Ep Eq Hd. unfold writer_step. rewrite Ep. cbn. rewrite Eq. destruct (Z.leb_spec (c_deadline c) t); [lia|done]. Qed.

Lemma have_unsent client_name ip interval t c : c_pos c = PSelect -> c_broadcast_closed c = false ->
  writer_step client_name ip interval (unsent_have t) c = Done (Ok (enter_select interval (unsent_have t) c)).
Proof. intros Ep Eb. unfold writer_step. rewrite Ep. cbn. by rewrite Eb. Qed.

(** The timer starts anew when a piece is not told, so a connection to which
    nothing is written gets no keep-alive as long as such pieces arrive more
    often than the interval. *)
Lemma keep_alive_postponed client_name ip interval gap start n c : 0 <= gap < interval -> c_pos c = PSelect -> c_queue c = [] ->
  c_broadcast_closed c = false -> start < c_deadline c ->
  exists c', polls client_name ip interval
      (flat_map (fun j => [timer (start + Z.of_nat j * gap); unsent_have (start + Z.of_nat j * gap)]) (seq 0 n)) c = Done (Ok c') /\
    c_written c' = c_written c.
Proof.
  intros Hg. revert start c. induction n as [|n IH]; intros start c Ep Eq Eb Hd; [by exists c|].
  cbn [seq flat_map app polls]. rewrite Z.add_0_r, timer_early by done. cbn [try_bind]. rewrite have_unsent by done. cbn [try_bind].
  destruct (IH (start + gap) (enter_select interval (unsent_have start) c)) as (c' & E' & Ew); cbn; try done; [lia|].
  exists c'. split; [|by rewrite Ew]. rewrite <- E'. f_equal. rewrite <- seq_shift, flat_map_concat_map, List.map_map, <- flat_map_concat_map.
  apply flat_map_ext. intros j. by replace (start + Z.of_nat (S j) * gap) with (start + gap + Z.of_nat j * gap) by lia.
Qed.

(** ** An example: five peers, of which the first leaves *)

(** ** A semaphore

    Permits are given in the order they were asked for. *)

Record Slots := mkSlots {
  sl_free : nat;
  sl_waiters : list nat;
  sl_holders : list nat;
}.

Definition acquire (k : nat) (s : Slots) : Slots :=
  match sl_free s with
  | S f => mkSlots f (sl_waiters s) (k :: sl_holders s)
  | O => mkSlots 0 (sl_waiters s ++ [k]) (sl_holders s)
  end.

(** A permit is dropped: it goes to the first that waits. *)
Definition release (s : Slots) : Slots :=
  match sl_waiters s with
  | k :: ws => mkSlots (sl_free s) ws (k :: sl_holders s)
  | [] => mkSlots (S (sl_free s)) [] (sl_holders s)
  end.

Definition others (k : nat) (l : list nat) : list nat := List.filter (fun j => negb (j =? k)%nat) l.

(** The future of connection [k] is dropped, with its permit or its place. *)
Definition drop_slot (k : nat) (s : Slots) : Slots :=
  if bool_decide (k ∈ sl_holders s) then release (mkSlots (sl_free s) (sl_waiters s) (others k (sl_holders s)))
  else mkSlots (sl_free s) (others k (sl_waiters s)) (sl_holders s).

Section slots.
Context (n : nat).
Implicit Types (s : Slots) (k : nat).

Record slots_ok s : Prop := {
  sk_count : (sl_free s + length (sl_holders s) = n)%nat;
  sk_idle : sl_waiters s <> [] -> sl_free s = 0%nat;
  sk_nodup : NoDup (sl_holders s ++ sl_waiters s);
}.

Lemma elem_others k j l : j ∈ others k l <-> j <> k /\ j ∈ l.
Proof.
  unfold others. rewrite !list_elem_of_In, filter_In. rewrite negb_true_iff, Nat.eqb_neq. tauto.
Qed.

Lemma NoDup_others k l : NoDup l -> NoDup (others k l).
Proof. rewrite !NoDup_ListNoDup. apply List.NoDup_filter. Qed.

Lemma others_fresh k l : k ∉ l -> others k l = l.
Proof.
  induction l as [|j l IH]; [done|]. intros Hk. cbn. destruct (Nat.eqb_spec j k) as [->|]; [set_solver|]. cbn. f_equal. apply IH. set_solver.
Qed.

Lemma length_others k l : NoDup l -> k ∈ l -> length l = S (length (others k l)).
Proof.
  induction l as [|j l IH]; [set_solver|]. intros [Hj Hl]%NoDup_cons Hk. cbn. destruct (Nat.eqb_spec j k) as [->|].
  - cbn. f_equal. by apply (f_equal length), eq_sym, others_fresh.
  - cbn. f_equal. apply IH; set_solver.
Qed.

Lemma acquire_ok k s : slots_ok s -> k ∉ sl_holders s -> k ∉ sl_waiters s -> slots_ok (acquire k s).
Proof.
  intros [Hc Hi Hn] Hh Hw. unfold acquire. destruct (sl_free s) as [|f] eqn:Ef; constructor; cbn; try done; try lia.
  - rewrite (assoc_L (++)). apply NoDup_app. split; [done|]. split; [set_solver|by apply NoDup_singleton].
  - destruct (sl_waiters s); [done|]. intros _. by specialize (Hi ltac:(done)).
  - apply NoDup_cons. split; [set_solver|done].
Qed.

Lemma drop_slot_ok k s : slots_ok s -> slots_ok (drop_slot k s).
Proof.
  intros [Hc Hi Hn]. apply NoDup_app in Hn as (Hh & Hd & Hw). unfold drop_slot. case_bool_decide as Hk.
  - pose proof (length_others k (sl_holders s) Hh Hk) as Hl. unfold release. cbn. destruct (sl_waiters s) as [|v ws] eqn:Ew.
    + constructor; cbn; [lia|done|]. rewrite app_nil_r. by apply NoDup_others.
    + apply NoDup_cons in Hw as [Hv Hws]. constructor; cbn; [lia|intros _; by apply Hi|].
      apply NoDup_cons. split.
      * rewrite elem_of_app, elem_others. intros [[_ Hx]|?]; [|done]. apply (Hd v); [done|set_solver].
      * apply NoDup_app. split; [by apply NoDup_others|]. split; [|done]. intros j [_ Hj]%elem_others. specialize (Hd j Hj). set_solver.
  - constructor; cbn; [lia| |].
    + intros Hne. apply Hi. intros E. by rewrite E in Hne.
    + apply NoDup_app. split; [done|]. split; [|by apply NoDup_others]. intros j Hj [_ ?]%elem_others. by apply (Hd j).
Qed.

Lemma drop_slot_elem k s j : slots_ok s ->
  (j ∈ sl_holders (drop_slot k s) -> j <> k /\ (j ∈ sl_holders s \/ j ∈ sl_waiters s)) /\
  (j ∈ sl_waiters (drop_slot k s) -> j <> k /\ j ∈ sl_waiters s) /\ (j <> k -> j ∈ sl_holders s -> j ∈ sl_holders (drop_slot k s)) /\
  (j <> k -> j ∈ sl_waiters s -> j ∈ sl_holders (drop_slot k s) \/ j ∈ sl_waiters (drop_slot k s)).
Proof.
  intros [_ _ Hn]. apply NoDup_app in Hn as (Hh & Hd & Hw). unfold drop_slot. case_bool_decide as Hk.
  - unfold release. cbn. destruct (sl_waiters s) as [|v ws] eqn:Ew; cbn; rewrite ?elem_of_cons, ?elem_others.
    + set_solver.
    + specialize (Hd k Hk). apply not_elem_of_cons in Hd as [? ?]. split; [|split; [|split]].
      * intros [->|[? ?]]; [by split; [intros ->|right; left]|split; [done|by left]].
      * intros Hj. split; [by intros ->|by right].
      * intros ? ?. by right.
      * intros ? [->|?]; [left; by left|by right].
  - cbn. rewrite elem_others. naive_solver.
Qed.
End slots.

#[export] Instance slots_semaphore : Semaphore Slots := {
  sem_new n := mkSlots n [] [];
  acquire_owned := acquire;
  drop_permit := drop_slot;
  sem_holders := sl_holders;
  sem_waiters := sl_waiters;
  sem_valid := slots_ok;
}.

#[export] Instance slots_laws : SemaphoreLaws Slots.
Proof.
  split; cbn.
  - intros n s [Hc Hi Hn]. split; cbn; [lia| |done]. intros Hw. specialize (Hi Hw). lia.
  - intros n. split_and!; [|done..]. by split; [|done|apply NoDup_nil_2].
  - intros n k s. apply acquire_ok.
  - intros n k s j _. unfold acquire. destruct (sl_free s); cbn; set_solver.
  - intros n k s. apply drop_slot_ok.
  - intros n k s j. apply drop_slot_elem.
Qed.

Definition ex_ours : Id := replicate 20 1.
Definition ex_id (k : nat) : Id := replicate 20 (Z.of_nat (2 + k)).
Definition ex_writer (sel : Select) : WriterInput := mkWriterInput 0 Some (Some 6881) (Some (Some [128])) sel true false true true true.

Definition ex_up (k : nat) : list ConnEvent :=
  CvOpen k false true (Some (handshake_new ex_ours (ex_id k))) true true :: replicate 7 (CvWriter k (ex_writer SChannel)).

Definition ex_chunk : ChunkInfo := mkChunkInfo 0 0 0 16384 0.

(** All get ready; requests are sent to the second and to the last; the last
    sends nothing until the first has left. *)
Definition ex_ask : list ConnEvent :=
  [CvPut 1 (WMessage MInterested); CvPut 1 (WReadChunk ex_chunk); CvPut 4 (WMessage MInterested)] ++
  replicate 4 (CvWriter 1 (ex_writer SChannel)) ++ replicate 4 (CvWriter 4 (ex_writer SChannel)).
Definition ex_leave : list ConnEvent := CvReader 0 None true :: replicate 4 (CvWriter 4 (ex_writer SChannel)).

Definition ex_run (evs : list ConnEvent) : outcome (Conns (Sem := Slots)) := run_conns [] (false, 0) 120 ex_ours (replicate 20 0) no_conns evs.
Definition ex_conns (evs : list ConnEvent) : Conns (Sem := Slots) := match ex_run evs with Done w => w | Panic => no_conns end.

Definition ex_before : list ConnEvent := flat_map ex_up (seq 0 5) ++ ex_ask.

Definition view (evs : list ConnEvent) (k : nat) : option (list WriterRequest * nat * Z * bool) :=
  (fun c => (requests (c_written c), length (c_written c), c_uploaded c, bool_decide (c_end c = None))) <$> cs_conns (ex_conns evs) !! k.

Lemma ex_views : view ex_before 1 = Some ([WMessage MInterested; WReadChunk ex_chunk], 8%nat, 16384, true) /\
  view ex_before 4 = Some ([], 5%nat, 0, true) /\
  view (ex_before ++ ex_leave) 4 = Some ([WMessage MInterested], 7%nat, 0, true).
Proof. vm_compute. done. Qed.

Lemma ex_before_fits : Forall event_fits ex_before.
Proof. apply Forall_app. split; cbn; repeat constructor; done. Qed.

Lemma writer_in_order_witness : exists w, ex_run ex_before = Done w /\ forall c, cs_conns w !! 1%nat = Some c ->
  requests (c_written c) ++ in_hand (c_pos c) ++ c_queue c = c_put c.
Proof.
  destruct (writer_in_order [] (false, 0) 120 ex_ours (replicate 20 0) ex_before ex_before_fits) as (w & E & Hw).
  exists w. split; [exact E|]. intros c Hc. exact (proj1 (Hw 1%nat c Hc)).
Defined.

Definition ex_waiting : Conn := default (new_conn ex_ours ex_ours true (handshake_new ex_ours ex_ours)) (cs_conns (ex_conns ex_before) !! 4%nat).

(** The fifth waits: its turn changes nothing. *)
Lemma ex_waits : cs_conns (ex_conns ex_before) !! 4%nat = Some ex_waiting /\
  c_pos ex_waiting = PQueued /\ c_limited ex_waiting = true /\ c_end ex_waiting = None /\
  sem_holders (cs_slots (ex_conns ex_before)) = [3; 2; 1; 0]%nat.
Proof. vm_compute. done. Qed.

Lemma ex_waiting_stays : Done (ex_conns ex_before) <> Done (set_conn 4 (at_pos ex_waiting PUnchoke) (ex_conns ex_before)).
Proof.
  intros Hr. destruct ex_waits as (Hk & Hp & _).
  apply (f_equal (fun o => match o with Done w => c_pos <$> cs_conns w !! 4%nat | Panic => None end)) in Hr.
  unfold set_conn in Hr. cbn [cs_conns] in Hr. rewrite lookup_insert_eq, Hk in Hr. cbn [fmap option_fmap option_map at_pos c_pos] in Hr.
  rewrite Hp in Hr. discriminate Hr.
Qed.

Lemma ex_not_served : ~ served [] (false, 0) 120 (ex_conns ex_before) 4.
Proof.
  assert (Hno : (4%nat ∉ [3; 2; 1; 0]%nat)) by set_solver.
  destruct ex_waits as (Hk & Hp & _ & _ & Hh). intros (c & Ec & _ & Hs). rewrite Hk in Ec. apply Some_inj in Ec. subst c.
  destruct Hs as [Hg|[_ Hr]]; [rewrite Hp in Hg; discriminate Hg|]. specialize (Hr (ex_writer SChannel)). unfold run_writer in Hr.
  rewrite Hp, Hh, (bool_decide_false _ Hno) in Hr. exact (ex_waiting_stays Hr).
Qed.

Lemma four_upload_slots_witness : ~ spoken ex_waiting /\
  exists ks, NoDup ks /\ length ks = 4%nat /\ (4%nat ∉ ks) /\
    forall j, j ∈ ks -> served [] (false, 0) 120 (ex_conns ex_before) j.
Proof.
  destruct ex_waits as (Hk & Hp & Hl & He & _).
  destruct (four_upload_slots (Sem := Slots) [] (false, 0) 120 ex_ours (replicate 20 0) ex_before (ex_conns ex_before)) as [_ Hw].
  - exact ex_before_fits.
  - vm_compute. reflexivity.
  - destruct (Hw 4%nat ex_waiting Hk (conj Hl He) Hp) as [Hs|Hok]; [destruct (ex_not_served Hs)|exact Hok].
Defined.
