(* ===== verification/UdpTracker.v ===== *)
(** * UdpTracker: the UDP tracker protocol (BEP 15)

    Models [crates/librtbit-tracker-comms/src/tracker_comms_udp.rs]: the
    requests and how they are written, the responses and how they are parsed,
    and the tables of connections and outstanding transactions of the client.
    The socket, the timeouts and the random numbers are arguments. *)

From S2P Require Import Prelude HashId DoubleBuf Message Compact.

Definition ACTION_CONNECT := 0.
Definition ACTION_ANNOUNCE := 1.
Definition ACTION_SCRAPE := 2.
Definition ACTION_ERROR := 3.

Definition CONNECTION_ID_MAGIC := 0x41727101980.

Record AnnounceFields := mkAnnounceFields {
  af_info_hash : Id;
  af_peer_id : Id;
  af_downloaded : Z;
  af_left : Z;
  af_uploaded : Z;
  af_event : Z;
  af_key : Z;
  af_port : Z;
}.

Inductive UdpRequest :=
| UConnect
| UAnnounce (connection_id : Z) (fields : AnnounceFields)
| UScrape (connection_id : Z) (info_hashes : list Id).

Inductive UdpError :=
| NotEnoughSpace
| BadScrapeCount
| Expected (bytes : nat)
| BadScrapeLength
| UnsupportedAction (action : Z)
| RemainingBytes (n : nat)
| NoTransactionId
| RemoteErrored
| RemoteUnknown
| UnexpectedResponse.

(** ** Writing requests *)

(** [W::extend_from_slice]: [w] is the buffer and the offset. *)
Definition extend_from_slice (w : list Z * nat) (s : list Z) : result UdpError (list Z * nat) :=
  let '(buf, offset) := w in
  if (length buf <? offset + length s)%nat then Err NotEnoughSpace
  else Ok (take offset buf ++ s ++ drop (offset + length s) buf, (offset + length s)%nat).

(** A sequence of [extend_from_slice(..)?]. *)
Fixpoint extend_all (w : list Z * nat) (parts : list (list Z)) : result UdpError (list Z * nat) :=
  match parts with
  | [] => Ok w
  | s :: parts => w ←? extend_from_slice w s; extend_all w parts
  end.

Definition udp_serialize (r : UdpRequest) (transaction_id : Z) (buf : list Z) :
    result UdpError (nat * list Z) :=
  let w := (buf, 0%nat) in
  w ←?
    match r with
    | UConnect =>
        extend_all w [be_bytes 8 CONNECTION_ID_MAGIC; be_bytes 4 ACTION_CONNECT; be_bytes 4 transaction_id]
    | UAnnounce connection_id fields =>
        extend_all w
          [be_bytes 8 connection_id; be_bytes 4 ACTION_ANNOUNCE; be_bytes 4 transaction_id;
           af_info_hash fields; af_peer_id fields; be_bytes 8 (af_downloaded fields);
           be_bytes 8 (af_left fields); be_bytes 8 (af_uploaded fields); be_bytes 4 (af_event fields);
           be_bytes 4 0; be_bytes 4 (af_key fields); be_bytes 4 (-1); be_bytes 2 (af_port fields)]
    | UScrape connection_id info_hashes =>
        if (length info_hashes =? 0)%nat || (74 <? length info_hashes)%nat then Err BadScrapeCount
        else
          extend_all w
            ([be_bytes 8 connection_id; be_bytes 4 ACTION_SCRAPE; be_bytes 4 transaction_id] ++ info_hashes)
    end;
  Ok (w.2, w.1).

(** ** Parsing responses *)

Record AnnounceResponse := mkAnnounceResponse {
  ar_interval : Z;
  ar_leechers : Z;
  ar_seeders : Z;
  ar_addrs : list SocketAddr;
}.

Record ScrapeStats := mkScrapeStats {
  ss_seeders : Z;
  ss_completed : Z;
  ss_leechers : Z;
}.

Inductive Response :=
| RConnect (connection_id : Z)
| RAnnounce (r : AnnounceResponse)
| RScrape (stats : list ScrapeStats)
| RError (msg : list Z)
| RUnknown.

Definition split_slice (s : list Z) (first_len : nat) : option (list Z * list Z) :=
  if (length s <? first_len)%nat then None else Some (take first_len s, drop first_len s).

(** [parse_num] of an unsigned type of [size] bytes. *)
Definition parse_num (size : nat) (buf : list Z) : result UdpError (Z * list Z) :=
  r ←? ok_or (split_slice buf size) (Expected size);
  Ok (to_Z r.1, r.2).

(** The loop over the addresses; every turn takes at least 6 bytes. *)
Fixpoint parse_addrs (fuel : nat) (is_ipv6 : bool) (b : list Z) (addrs : list SocketAddr) :
    outcome (result UdpError (list SocketAddr)) :=
  match b with
  | [] => Done (Ok addrs)
  | _ =>
      match fuel with
      | O => Panic
      | S fuel =>
          ip ←?! Done (parse_num (if is_ipv6 then 16 else 4) b);
          port ←?! Done (parse_num 2 ip.2);
          parse_addrs fuel is_ipv6 port.2 (addrs ++ [mkSocketAddr is_ipv6 ip.1 port.1])
      end
  end.

Fixpoint parse_scrape (fuel : nat) (buf : list Z) (stats : list ScrapeStats) :
    outcome (result UdpError (list ScrapeStats)) :=
  match buf with
  | [] => Done (Ok stats)
  | _ =>
      match fuel with
      | O => Panic
      | S fuel =>
          seeders ←?! Done (parse_num 4 buf);
          completed ←?! Done (parse_num 4 seeders.2);
          leechers ←?! Done (parse_num 4 completed.2);
          parse_scrape fuel leechers.2 (stats ++ [mkScrapeStats seeders.1 completed.1 leechers.1])
      end
  end.

(** [str::from_utf8]: the well-formed byte sequences of the Unicode standard. *)
Fixpoint utf8_valid (l : list Z) : bool :=
  let cont c := (128 <=? c) && (c <=? 191) in
  let within lo hi c := (lo <=? c) && (c <=? hi) in
  match l with
  | [] => true
  | a :: l1 =>
      if a <? 128 then utf8_valid l1
      else if within 194 223 a then
        match l1 with b :: l2 => cont b && utf8_valid l2 | _ => false end
      else if within 224 239 a then
        match l1 with
        | b :: c :: l3 =>
            (if a =? 224 then within 160 191 b else if a =? 237 then within 128 159 b else cont b) &&
            cont c && utf8_valid l3
        | _ => false
        end
      else if within 240 244 a then
        match l1 with
        | b :: c :: d :: l4 =>
            (if a =? 240 then within 144 191 b else if a =? 244 then within 128 143 b else cont b) &&
            cont c && cont d && utf8_valid l4
        | _ => false
        end
      else false
  end.

(** [CStr::from_bytes_with_nul]: the only nul is the last byte. *)
Definition cstr_from_bytes_with_nul (l : list Z) : option (list Z) :=
  match last l with
  | Some 0 => if forallb (fun c => negb (c =? 0)) (removelast l) then Some (removelast l) else None
  | _ => None
  end.

(** ["<invalid UTF-8>"]. *)
Definition invalid_utf8 : list Z := [60; 105; 110; 118; 97; 108; 105; 100; 32; 85; 84; 70; 45; 56; 62].

Definition error_message (buf : list Z) : list Z :=
  match cstr_from_bytes_with_nul buf with
  | Some s => if utf8_valid s then s else if utf8_valid buf then buf else invalid_utf8
  | None => if utf8_valid buf then buf else invalid_utf8
  end.

Definition parse_response (action : Z) (is_ipv6 : bool) (buf : list Z) :
    outcome (result UdpError Response) :=
  if action =? ACTION_CONNECT then
    id ←?! Done (parse_num 8 buf);
    if negb (length id.2 =? 0)%nat then Done (Err (RemainingBytes (length id.2)))
    else Done (Ok (RConnect id.1))
  else if action =? ACTION_ANNOUNCE then
    interval ←?! Done (parse_num 4 buf);
    leechers ←?! Done (parse_num 4 interval.2);
    seeders ←?! Done (parse_num 4 leechers.2);
    addrs ←?! parse_addrs (length seeders.2) is_ipv6 seeders.2 [];
    Done (Ok (RAnnounce (mkAnnounceResponse interval.1 leechers.1 seeders.1 addrs)))
  else if action =? ACTION_SCRAPE then
    if (length buf =? 0)%nat || negb (length buf mod 12 =? 0)%nat then Done (Err BadScrapeLength)
    else
      stats ←?! parse_scrape (length buf) buf [];
      Done (Ok (RScrape stats))
  else if action =? ACTION_ERROR then Done (Ok (RError (error_message buf)))
  else Done (Err (UnsupportedAction action)).

Definition parse (buf : list Z) (is_ipv6 : bool) : outcome (result UdpError (Z * Response)) :=
  action ←?! Done (parse_num 4 buf);
  tid ←?! Done (parse_num 4 action.2);
  r ←! parse_response action.1 is_ipv6 tid.2;
  Done (Ok (tid.1, match r with Ok r => r | Err _ => RUnknown end)).

(** ** The client *)
Section client.
Context {Addr : Type} `{Countable Addr}.

Record ConnectionIdMeta := mkConnectionIdMeta {
  cm_id : Z;
  cm_created : Z;
}.

(** A waiting request is known by the number of its channel. *)
Record ClientLocked := mkClientLocked {
  connections : gmap Addr ConnectionIdMeta;
  transactions : gmap Z nat;
}.

(** [TransactionIdGuard::drop]. *)
Definition release_transaction_id (tid : Z) (g : ClientLocked) : ClientLocked :=
  mkClientLocked (connections g) (delete tid (transactions g)).

(** [random] are the ids [new_transaction_id] draws; at most ten are tried. *)
Fixpoint reserve_loop (n : nat) (random : list Z) (tx : nat) (g : ClientLocked) :
    result UdpError (Z * ClientLocked) :=
  match n, random with
  | S n, t :: random =>
      match transactions g !! t with
      | Some _ => reserve_loop n random tx g
      | None => Ok (t, mkClientLocked (connections g) (<[t := tx]> (transactions g)))
      end
  | _, _ => Err NoTransactionId
  end.

Definition reserve_transaction_id (random : list Z) (tx : nat) (g : ClientLocked) :
    result UdpError (Z * ClientLocked) := reserve_loop 10 random tx g.

(** What [request] sends from its buffer of 1024 bytes. *)
Definition request_datagram (tid : Z) (r : UdpRequest) : result UdpError (list Z) :=
  w ←? udp_serialize r tid (replicate 1024 0);
  Ok (take w.1 w.2).

(** The start of [request], up to the send; on an error the guard is dropped. *)
Definition request_start (random : list Z) (tx : nat) (r : UdpRequest) (g : ClientLocked) :
    result UdpError (Z * list Z) * ClientLocked :=
  match reserve_transaction_id random tx g with
  | Err e => (Err e, g)
  | Ok (tid, g) =>
      match request_datagram tid r with
      | Err e => (Err e, release_transaction_id tid g)
      | Ok datagram => (Ok (tid, datagram), g)
      end
  end.

(** One datagram of the receive loop [run]: who gets which response. *)
Definition on_datagram (buf : list Z) (is_ipv6 : bool) (g : ClientLocked) :
    outcome (option (nat * Response) * ClientLocked) :=
  r ←! parse buf is_ipv6;
  match r with
  | Err _ => Done (None, g)
  | Ok (tid, response) =>
      let t := transactions g !! tid in
      let g := mkClientLocked (connections g) (delete tid (transactions g)) in
      Done ((fun tx => (tx, response)) <$> t, g)
  end.

(** The end of [request]. *)
Definition request_result (response : Response) : result UdpError Response :=
  match response with
  | RError _ => Err RemoteErrored
  | RUnknown => Err RemoteUnknown
  | r => Ok r
  end.

(** The start of [get_connection_id]: an id is used for a minute. *)
Definition cached_connection_id (now : Z) (addr : Addr) (g : ClientLocked) : option Z :=
  m ← connections g !! addr;
  if saturating_sub now (cm_created m) <? 60 * 1000000000 then Some (cm_id m) else None.

(** The end of [get_connection_id]. *)
Definition store_connection_id (now : Z) (addr : Addr) (response : Response) (g : ClientLocked) :
    result UdpError (Z * ClientLocked) :=
  match response with
  | RConnect connection_id =>
      Ok (connection_id,
          mkClientLocked (<[addr := mkConnectionIdMeta connection_id now]> (connections g)) (transactions g))
  | _ => Err UnexpectedResponse
  end.

Definition announce_result (response : Response) : result UdpError AnnounceResponse :=
  match response with RAnnounce r => Ok r | _ => Err UnexpectedResponse end.

Definition scrape_result (response : Response) : result UdpError (list ScrapeStats) :=
  match response with RScrape s => Ok s | _ => Err UnexpectedResponse end.

(** ** The client at work

    Requests run concurrently with the receive loop.  A request is known by
    its number; [guards] are the [TransactionIdGuard]s of the requests that
    still run, [sent] the ids of all requests ever sent, [delivered] the
    responses handed to requests, with the id of their datagrams. *)
Record Client := mkClient {
  locked : ClientLocked;
  next_tx : nat;
  guards : gmap nat Z;
  sent : gmap nat Z;
  delivered : list (nat * (Z * Response));
}.

Inductive Event :=
| EvRequest (random : list Z) (r : UdpRequest)
| EvDatagram (buf : list Z) (is_ipv6 : bool)
| EvFinish (tx : nat).

Definition client_step (c : Client) (e : Event) : outcome Client :=
  match e with
  | EvRequest random r =>
      let tx := next_tx c in
      match request_start random tx r (locked c) with
      | (Ok (tid, _), g) =>
          Done (mkClient g (S tx) (<[tx := tid]> (guards c)) (<[tx := tid]> (sent c)) (delivered c))
      | (Err _, g) => Done (mkClient g (S tx) (guards c) (sent c) (delivered c))
      end
  | EvDatagram buf is_ipv6 =>
      o ←! on_datagram buf is_ipv6 (locked c);
      Done (mkClient o.2 (next_tx c) (guards c) (sent c)
              (match o.1 with
               | Some (tx, response) => (tx, (to_Z (take 4 (drop 4 buf)), response)) :: delivered c
               | None => delivered c
               end))
  | EvFinish tx =>
      (** the guard is dropped: a response was received, or the timeout, or the send failed *)
      Done match guards c !! tx with
           | Some tid => mkClient (release_transaction_id tid (locked c)) (next_tx c)
                           (delete tx (guards c)) (sent c) (delivered c)
           | None => c
           end
  end.

Definition client_new : Client := mkClient (mkClientLocked ∅ ∅) 0 ∅ ∅ [].
End client.
Arguments ClientLocked Addr {_ _}.

(** ** The wire format of responses *)

Definition encode_stats (s : ScrapeStats) : list Z :=
  be_bytes 4 (ss_seeders s) ++ be_bytes 4 (ss_completed s) ++ be_bytes 4 (ss_leechers s).

(** The action and the body of a response; an error message may end in a nul. *)
Definition encode_body (nul : bool) (r : Response) : Z * list Z :=
  match r with
  | RConnect id => (ACTION_CONNECT, be_bytes 8 id)
  | RAnnounce a =>
      (ACTION_ANNOUNCE,
       be_bytes 4 (ar_interval a) ++ be_bytes 4 (ar_leechers a) ++ be_bytes 4 (ar_seeders a) ++
       concat (addr_as_slice <$> ar_addrs a))
  | RScrape stats => (ACTION_SCRAPE, concat (encode_stats <$> stats))
  | RError msg => (ACTION_ERROR, msg ++ if nul then [0] else [])
  | RUnknown => (4, [])
  end.

Definition encode_response (nul : bool) (tid : Z) (r : Response) : list Z :=
  be_bytes 4 (encode_body nul r).1 ++ be_bytes 4 tid ++ (encode_body nul r).2.

Definition wf_peer_addr (is_ipv6 : bool) (a : SocketAddr) : Prop := sa_ipv6 a = is_ipv6 /\ Compact.wf_addr a.

Definition wf_stats (s : ScrapeStats) : Prop :=
  is_bits 4 (ss_seeders s) /\ is_bits 4 (ss_completed s) /\ is_bits 4 (ss_leechers s).

Definition wf_response (is_ipv6 : bool) (r : Response) : Prop :=
  match r with
  | RConnect id => is_bits 8 id
  | RAnnounce a =>
      is_bits 4 (ar_interval a) /\ is_bits 4 (ar_leechers a) /\ is_bits 4 (ar_seeders a) /\
      Forall (wf_peer_addr is_ipv6) (ar_addrs a)
  | RScrape stats => stats <> [] /\ Forall wf_stats stats
  | RError msg => utf8_valid msg = true /\ Forall (fun c => c <> 0) msg
  | RUnknown => False
  end.

(** ** The wire format of requests *)

Definition encode_request (r : UdpRequest) (tid : Z) : list Z :=
  match r with
  | UConnect => be_bytes 8 CONNECTION_ID_MAGIC ++ be_bytes 4 0 ++ be_bytes 4 tid
  | UAnnounce id f =>
      be_bytes 8 id ++ be_bytes 4 1 ++ be_bytes 4 tid ++ af_info_hash f ++ af_peer_id f ++
      be_bytes 8 (af_downloaded f) ++ be_bytes 8 (af_left f) ++ be_bytes 8 (af_uploaded f) ++
      be_bytes 4 (af_event f) ++ [0; 0; 0; 0] ++ be_bytes 4 (af_key f) ++
      [255; 255; 255; 255] ++ be_bytes 2 (af_port f)
  | UScrape id hashes => be_bytes 8 id ++ be_bytes 4 2 ++ be_bytes 4 tid ++ concat hashes
  end.

Definition wf_udp_request (r : UdpRequest) : Prop :=
  match r with
  | UConnect => True
  | UAnnounce _ f => length (af_info_hash f) = 20%nat /\ length (af_peer_id f) = 20%nat
  | UScrape _ hashes => Forall (fun h : Id => length h = 20%nat) hashes
  end.

(** The requests [request] can send. *)
Definition sendable (r : UdpRequest) : bool :=
  match r with
  | UScrape _ hashes => (1 <=? length hashes)%nat && (length hashes <=? 50)%nat
  | _ => true
  end.

(** ** Parsing *)

Lemma parse_num_be size v r : is_bits size v -> parse_num size (be_bytes size v ++ r) = Ok (v, r).
Proof.
  intros Hv. unfold parse_num, split_slice. rewrite length_app, length_be_bytes.
  destruct (Nat.ltb_spec (size + length r) size); [lia|]. rsimpl. cbn [fst snd].
  rewrite take_app_exact, drop_app_exact by (by rewrite length_be_bytes).
  by rewrite to_Z_be_bytes, Z.mod_small by exact Hv.
Qed.

Lemma parse_num_be_all size v : is_bits size v -> parse_num size (be_bytes size v) = Ok (v, []).
Proof. intros Hv. rewrite <- (app_nil_r (be_bytes size v)). by apply parse_num_be. Qed.

Lemma parse_num_long size buf : (size <= length buf)%nat ->
  parse_num size buf = Ok (to_Z (take size buf), drop size buf).
Proof.
  intros Hl. unfold parse_num, split_slice. by destruct (Nat.ltb_spec (length buf) size); [lia|].
Qed.

Lemma parse_num_short size buf : (length buf < size)%nat -> parse_num size buf = Err (Expected size).
Proof. intros Hl. unfold parse_num, split_slice. by destruct (Nat.ltb_spec (length buf) size); [|lia]. Qed.

(** The parsed bytes are gone. *)
Lemma parse_num_cases size buf :
  (exists e, parse_num size buf = Err e) \/
  (exists v r, parse_num size buf = Ok (v, r) /\ length buf = (size + length r)%nat).
Proof.
  destruct (decide (size <= length buf)%nat).
  - right. exists (to_Z (take size buf)), (drop size buf). rewrite length_drop.
    split; [by apply parse_num_long|lia].
  - left. exists (Expected size). apply parse_num_short. lia.
Qed.

(** Split a [parse_num] of the goal into its two outcomes. *)
Ltac parse_cases :=
  match goal with
  | |- context [parse_num ?n ?b] =>
      let e := fresh "e" in let v := fresh "v" in let r := fresh "r" in
      let E := fresh "E" in let L := fresh "L" in
      destruct (parse_num_cases n b) as [(e & E)|(v & r & E & L)]; rewrite E; cbn [try_bind fst snd]
  end.

Lemma parse_addrs_total fuel is_ipv6 b addrs : (length b <= fuel)%nat ->
  exists r, parse_addrs fuel is_ipv6 b addrs = Done r.
Proof.
  revert b addrs. induction fuel as [|fuel IH]; intros b addrs Hb.
  - destruct b; [|simpl in Hb; lia]. by eexists.
  - destruct b as [|x b]; [by eexists|]. cbn [parse_addrs].
    parse_cases; [by eexists|]. parse_cases; [by eexists|]. apply IH.
    destruct is_ipv6; lia.
Qed.

Lemma parse_scrape_total fuel b stats : (length b <= fuel)%nat ->
  exists r, parse_scrape fuel b stats = Done r.
Proof.
  revert b stats. induction fuel as [|fuel IH]; intros b stats Hb.
  - destruct b; [|simpl in Hb; lia]. by eexists.
  - destruct b as [|x b]; [by eexists|]. cbn [parse_scrape].
    do 3 (parse_cases; [by eexists|]). apply IH. lia.
Qed.

Lemma parse_response_total action is_ipv6 buf : exists r, parse_response action is_ipv6 buf = Done r.
Proof.
  unfold parse_response. destruct (action =? ACTION_CONNECT).
  { parse_cases; [by eexists|]. destruct (negb _); by eexists. }
  destruct (action =? ACTION_ANNOUNCE).
  { do 3 (parse_cases; [by eexists|]).
    destruct (parse_addrs_total (length r1) is_ipv6 r1 [] ltac:(lia)) as [[a|e] ->]; by eexists. }
  destruct (action =? ACTION_SCRAPE).
  { destruct (_ || _); [by eexists|].
    destruct (parse_scrape_total (length buf) buf [] ltac:(lia)) as [[a|e] ->]; by eexists. }
  destruct (action =? ACTION_ERROR); by eexists.
Qed.

(** A header is read if it is there. *)
Lemma parse_header buf is_ipv6 : (8 <= length buf)%nat ->
  exists r, parse_response (to_Z (take 4 buf)) is_ipv6 (drop 8 buf) = Done r /\
    parse buf is_ipv6 = Done (Ok (to_Z (take 4 (drop 4 buf)), match r with Ok r => r | Err _ => RUnknown end)).
Proof.
  intros Hl. destruct (parse_response_total (to_Z (take 4 buf)) is_ipv6 (drop 8 buf)) as [r Hr].
  exists r. split; [done|]. unfold parse.
  rewrite parse_num_long by lia. cbn [try_bind fst snd].
  rewrite parse_num_long by (len_lia). cbn [try_bind fst snd].
  rewrite drop_drop. change (4 + 4)%nat with 8%nat. by rewrite Hr.
Qed.

(** ** Round trip of responses *)

Lemma parse_addrs_encoded is_ipv6 l fuel acc : Forall (wf_peer_addr is_ipv6) l ->
  (length (concat (addr_as_slice <$> l)) <= fuel)%nat ->
  parse_addrs fuel is_ipv6 (concat (addr_as_slice <$> l)) acc = Done (Ok (acc ++ l)).
Proof.
  intros Hl. revert fuel acc. induction Hl as [|a l (Hv & [Hip Hport]) Hl IH]; intros fuel acc Hf.
  { destruct fuel; cbn [fmap list_fmap concat parse_addrs]; by rewrite app_nil_r. }
  cbn [fmap list_fmap concat] in *. change (list_fmap _ _ addr_as_slice l) with (addr_as_slice <$> l) in *.
  unfold addr_as_slice at 1. unfold addr_as_slice at 1 in Hf. rewrite Hv in *.
  rewrite !length_app, !length_be_bytes in Hf.
  destruct fuel as [|fuel]; [destruct is_ipv6; lia|].
  rewrite <- app_assoc. remember (be_bytes _ (sa_ip a) ++ _) as b eqn:Hb.
  destruct b as [|x b].
  { apply (f_equal length) in Hb. rewrite length_app, length_be_bytes in Hb. destruct is_ipv6; simpl in Hb; lia. }
  cbn [parse_addrs]. rewrite Hb, parse_num_be by done. cbn [try_bind fst snd].
  rewrite parse_num_be by done. cbn [try_bind fst snd]. rewrite IH by (destruct is_ipv6; lia).
  rewrite <- app_assoc. simpl. subst is_ipv6. by destruct a.
Qed.

Lemma parse_scrape_encoded l fuel acc : Forall wf_stats l ->
  (length (concat (encode_stats <$> l)) <= fuel)%nat ->
  parse_scrape fuel (concat (encode_stats <$> l)) acc = Done (Ok (acc ++ l)).
Proof.
  intros Hl. revert fuel acc. induction Hl as [|s l (Hs & Hc & Hle) Hl IH]; intros fuel acc Hf.
  { destruct fuel; cbn [fmap list_fmap concat parse_scrape]; by rewrite app_nil_r. }
  cbn [fmap list_fmap concat] in *. change (list_fmap _ _ encode_stats l) with (encode_stats <$> l) in *.
  unfold encode_stats at 1. unfold encode_stats at 1 in Hf. rewrite !length_app, !length_be_bytes in Hf.
  destruct fuel as [|fuel]; [lia|].
  rewrite <- !app_assoc. remember (be_bytes 4 (ss_seeders s) ++ _) as b eqn:Hb.
  destruct b as [|x b].
  { apply (f_equal length) in Hb. rewrite length_app, length_be_bytes in Hb. simpl in Hb. lia. }
  cbn [parse_scrape]. rewrite Hb. do 3 (rewrite parse_num_be by done; cbn [try_bind fst snd]).
  rewrite IH by lia. rewrite <- app_assoc. by destruct s.
Qed.

Lemma length_encoded_stats l : length (concat (encode_stats <$> l)) = (12 * length l)%nat.
Proof.
  induction l as [|s l IH]; [done|]. cbn [fmap list_fmap concat].
  change (list_fmap _ _ encode_stats l) with (encode_stats <$> l).
  rewrite length_app, IH. unfold encode_stats. rewrite !length_app, !length_be_bytes. simpl. lia.
Qed.

Lemma cstr_of_terminated msg : Forall (fun c => c <> 0) msg ->
  cstr_from_bytes_with_nul (msg ++ [0]) = Some msg.
Proof.
  intros Hm. unfold cstr_from_bytes_with_nul. rewrite last_snoc.
  rewrite removelast_last. rewrite (proj2 (forallb_forall _ msg)); [done|].
  intros c Hc. apply list_elem_of_In in Hc. rewrite Forall_forall in Hm.
  specialize (Hm c Hc). simpl in Hm. by apply negb_true_iff, Z.eqb_neq.
Qed.

Lemma cstr_of_unterminated msg : Forall (fun c => c <> 0) msg -> cstr_from_bytes_with_nul msg = None.
Proof.
  intros Hm. unfold cstr_from_bytes_with_nul. destruct (last msg) as [c|] eqn:E; [|done].
  rewrite Forall_forall in Hm. pose proof (Hm c (last_Some_elem_of _ _ E)) as Hc. simpl in Hc.
  by destruct c.
Qed.

Lemma parse_response_encoded is_ipv6 nul r : wf_response is_ipv6 r ->
  parse_response (encode_body nul r).1 is_ipv6 (encode_body nul r).2 = Done (Ok r).
Proof.
  destruct r as [id|a|stats|msg|]; cbn [wf_response encode_body fst snd]; [| | | |done].
  - intros Hid. unfold parse_response. cbn [Z.eqb ACTION_CONNECT].
    rewrite parse_num_be_all by done. done.
  - intros (Hi & Hle & Hs & Ha). unfold parse_response. cbn [Z.eqb ACTION_CONNECT ACTION_ANNOUNCE Pos.eqb].
    do 3 (rewrite parse_num_be by done; cbn [try_bind fst snd]).
    rewrite parse_addrs_encoded by done. by destruct a.
  - intros [Hne Hst]. unfold parse_response.
    cbn [Z.eqb ACTION_CONNECT ACTION_ANNOUNCE ACTION_SCRAPE Pos.eqb].
    rewrite length_encoded_stats. replace ((12 * length stats) mod 12)%nat with 0%nat
      by (rewrite Nat.mul_comm, Nat.Div0.mod_mul; done).
    destruct (Nat.eqb_spec (12 * length stats) 0) as [E|E].
    { destruct stats; [done|simpl in E; lia]. }
    cbn [negb orb Nat.eqb]. by rewrite parse_scrape_encoded by (done || rewrite length_encoded_stats; done).
  - intros [Hu Hm]. unfold parse_response.
    cbn [Z.eqb ACTION_CONNECT ACTION_ANNOUNCE ACTION_SCRAPE ACTION_ERROR Pos.eqb].
    unfold error_message. destruct nul.
    + rewrite cstr_of_terminated by done. by rewrite Hu.
    + rewrite app_nil_r, cstr_of_unterminated by done. by rewrite Hu.
Qed.

Lemma encode_action nul is_ipv6 r : wf_response is_ipv6 r -> is_bits 4 (encode_body nul r).1.
Proof. by destruct r. Qed.

(** Every response a tracker can send (a connection id, an announce with
    its peers of the address family of the tracker, the scraped counters, an
    error message with or without its nul) is read back exactly, with its
    transaction id. *)
Theorem udp_response_roundtrip is_ipv6 nul tid r : is_bits 4 tid -> wf_response is_ipv6 r ->
  parse (encode_response nul tid r) is_ipv6 = Done (Ok (tid, r)).
Proof.
  intros Ht Hr. unfold parse, encode_response.
  rewrite parse_num_be by (by eapply encode_action). cbn [try_bind fst snd].
  rewrite parse_num_be by done. cbn [try_bind fst snd].
  by rewrite parse_response_encoded by done.
Qed.

(** [parse] never panics, whatever the datagram: it fails exactly when
    the 8-byte header is not complete, and otherwise reports the transaction
    id of the header, with [Unknown] for a body that is not understood. *)
Theorem udp_parse_total buf is_ipv6 :
  if (length buf <? 8)%nat then exists e, parse buf is_ipv6 = Done (Err e)
  else exists r, parse buf is_ipv6 = Done (Ok (to_Z (take 4 (drop 4 buf)), r)).
Proof.
  destruct (Nat.ltb_spec (length buf) 8).
  - unfold parse. parse_cases; [by eexists|]. rewrite parse_num_short by lia. by eexists.
  - destruct (parse_header buf is_ipv6) as (r & _ & ->); [lia|]. by eexists.
Qed.

(** ** Writing *)

(** Consecutive writes append to what is written, or fail when it does not fit. *)
Lemma extend_all_spec parts pre rest :
  extend_all (pre ++ rest, length pre) parts =
  if (length (concat parts) <=? length rest)%nat
  then Ok (pre ++ concat parts ++ drop (length (concat parts)) rest, (length pre + length (concat parts))%nat)
  else Err NotEnoughSpace.
Proof.
  revert pre rest. induction parts as [|p parts IH]; intros pre rest.
  { simpl. by rewrite drop_0, Nat.add_0_r. }
  cbn [extend_all extend_from_slice concat]. rewrite !length_app.
  destruct (Nat.ltb_spec (length pre + length rest) (length pre + length p)) as [Hlt|Hge]; rsimpl.
  { destruct (Nat.leb_spec (length p + length (concat parts)) (length rest)); [lia|done]. }
  rewrite take_app_exact by done. rewrite <- drop_drop, drop_app_exact by done.
  replace (length pre + length p)%nat with (length (pre ++ p)) by apply length_app.
  rewrite app_assoc, IH, length_drop, drop_drop, length_app.
  destruct (Nat.leb_spec (length (concat parts)) (length rest - length p)),
    (Nat.leb_spec (length p + length (concat parts)) (length rest)); try lia; [|done].
  rewrite <- !app_assoc. by rewrite Nat.add_assoc.
Qed.

Lemma length_concat_ids (hashes : list Id) : Forall (fun h : Id => length h = 20%nat) hashes ->
  length (concat hashes) = (20 * length hashes)%nat.
Proof. induction 1 as [|h l Hh Hl IH]; [done|]. cbn [concat]. rewrite length_app, IH, Hh. simpl. lia. Qed.

Lemma udp_serialize_spec r tid buf : sendable r = true \/ (exists id h, r = UScrape id h /\ (1 <= length h <= 74)%nat) ->
  udp_serialize r tid buf =
  if (length (encode_request r tid) <=? length buf)%nat
  then Ok (length (encode_request r tid), encode_request r tid ++ drop (length (encode_request r tid)) buf)
  else Err NotEnoughSpace.
Proof.
  intros Hs. unfold udp_serialize. change (buf, 0%nat) with ([] ++ buf, length (@nil Z)).
  destruct r as [|id f|id hashes].
  - rewrite extend_all_spec. cbn [concat]. rewrite app_nil_r.
    change (be_bytes 4 ACTION_CONNECT) with (be_bytes 4 0). fold (encode_request UConnect tid).
    by destruct (_ <=? _)%nat.
  - rewrite extend_all_spec. cbn [concat]. rewrite app_nil_r.
    change (be_bytes 4 0) with [0; 0; 0; 0]. change (be_bytes 4 (-1)) with [255; 255; 255; 255].
    fold (encode_request (UAnnounce id f) tid). by destruct (_ <=? _)%nat.
  - assert (Hn : (1 <= length hashes <= 74)%nat).
    { destruct Hs as [Hs|(? & ? & [= <- <-] & ?)]; [|done]. cbn [sendable] in Hs.
      apply andb_true_iff in Hs as [?%Nat.leb_le ?%Nat.leb_le]. lia. }
    destruct (Nat.eqb_spec (length hashes) 0); [lia|]. destruct (Nat.ltb_spec 74 (length hashes)); [lia|].
    cbn [orb]. rewrite extend_all_spec. cbn [app concat]. fold (encode_request (UScrape id hashes) tid).
    by destruct (_ <=? _)%nat.
Qed.

Lemma encode_request_length r tid : wf_udp_request r ->
  length (encode_request r tid) =
  match r with UConnect => 16 | UAnnounce _ _ => 98 | UScrape _ h => 16 + 20 * length h end%nat.
Proof.
  destruct r as [|id f|id h]; cbn [wf_udp_request encode_request]; intros Hw;
    rewrite !length_app, !length_be_bytes; [done| |].
  - destruct Hw as [-> ->]. done.
  - rewrite length_concat_ids by done. lia.
Qed.

(** [request] sends exactly the datagram of BEP 15 for a connect, an
    announce, and a scrape of 1 to 50 info hashes, and fails before sending
    anything for other scrapes.  [Request::serialize] accepts up to 74 info
    hashes, but they do not fit the 1024 bytes of [request]'s buffer. *)
Theorem request_datagram_spec r tid : wf_udp_request r ->
  if sendable r then request_datagram tid r = Ok (encode_request r tid)
  else exists e, request_datagram tid r = Err e.
Proof.
  intros Hw. pose proof (encode_request_length r tid Hw) as Hl. unfold request_datagram.
  destruct (sendable r) eqn:Hs.
  - rewrite udp_serialize_spec by (by left). rewrite length_replicate.
    destruct (Nat.leb_spec (length (encode_request r tid)) 1024) as [_|Hlong]; rsimpl; cbn [fst snd].
    { by rewrite take_app_exact by done. }
    destruct r as [| |id h]; [lia|lia|]. cbn [sendable] in Hs.
    apply andb_true_iff in Hs as [_ ?%Nat.leb_le]. lia.
  - destruct r as [| |id h]; [done|done|]. cbn [sendable] in Hs.
    destruct (decide (1 <= length h <= 74)%nat) as [Hn|Hn].
    + rewrite udp_serialize_spec by (right; eauto). rewrite length_replicate.
      destruct (Nat.leb_spec (length (encode_request (UScrape id h) tid)) 1024); [|by eexists].
      apply andb_false_iff in Hs as [?%Nat.leb_gt|?%Nat.leb_gt]; lia.
    + unfold udp_serialize. destruct (Nat.eqb_spec (length h) 0); [by eexists|].
      destruct (Nat.ltb_spec 74 (length h)); [by eexists|lia].
Qed.

(** 51 info hashes pass the check of [Request::serialize] and still fail. *)
Lemma scrape_51_hashes_fail tid :
  request_datagram tid (UScrape 0 (replicate 51 (replicate 20 0))) = Err NotEnoughSpace.
Proof.
  unfold request_datagram. rewrite udp_serialize_spec.
  2: { right. do 2 eexists. split; [done|]. rewrite length_replicate. lia. }
  rewrite encode_request_length by (by repeat constructor). done.
Qed.

(** ** Transactions *)
Section transactions.
Context {Addr : Type} `{Countable Addr}.
Implicit Types (g : ClientLocked Addr) (c : Client (Addr := Addr)).

Lemma reserve_spec n random tx g tid g' : reserve_loop n random tx g = Ok (tid, g') ->
  transactions g !! tid = None /\ transactions g' = <[tid := tx]> (transactions g) /\
  connections g' = connections g.
Proof.
  revert random. induction n as [|n IH]; intros random Hr; [done|].
  destruct random as [|t random]; [done|]. cbn [reserve_loop] in Hr.
  destruct (transactions g !! t) eqn:E; [by apply (IH random)|]. by injection Hr as <- <-.
Qed.

(** What a started request leaves in the table. *)
Lemma request_start_spec random tx r g :
  match request_start random tx r g with
  | (Ok (tid, _), g') => transactions g !! tid = None /\ transactions g' = <[tid := tx]> (transactions g)
  | (Err _, g') => transactions g' = transactions g
  end.
Proof.
  unfold request_start. destruct (reserve_transaction_id random tx g) as [[tid g']|e] eqn:E; [|done].
  apply reserve_spec in E as (Hf & Ht & _). destruct (request_datagram tid r); [done|].
  cbn [release_transaction_id transactions]. rewrite Ht, delete_insert_id by done. done.
Qed.

(** Every entry of the table belongs to a running request that has no response
    yet; a guard has the id its request was sent with. *)
Record client_inv c : Prop := {
  ci_table : forall tid tx, transactions (locked c) !! tid = Some tx ->
    guards c !! tx = Some tid /\ tx ∉ (delivered c).*1;
  ci_guards : forall tx tid, guards c !! tx = Some tid -> sent c !! tx = Some tid;
  ci_sent : forall tx tid, sent c !! tx = Some tid -> (tx < next_tx c)%nat;
  ci_delivered : forall tx tid r, (tx, (tid, r)) ∈ delivered c -> sent c !! tx = Some tid;
  ci_once : NoDup (delivered c).*1;
}.

Lemma client_new_inv : client_inv client_new.
Proof.
  split; simpl; [intros ? ? Hl; by rewrite lookup_empty in Hl..| |constructor].
  intros ? ? ? Hl. by apply not_elem_of_nil in Hl.
Qed.

Lemma on_datagram_spec buf is_ipv6 g : exists o,
  on_datagram buf is_ipv6 g = Done o /\
  if (length buf <? 8)%nat then o = (None, g)
  else exists r, o.1 = (fun tx => (tx, r)) <$> transactions g !! to_Z (take 4 (drop 4 buf)) /\
    transactions o.2 = delete (to_Z (take 4 (drop 4 buf))) (transactions g) /\
    connections o.2 = connections g /\ parse buf is_ipv6 = Done (Ok (to_Z (take 4 (drop 4 buf)), r)).
Proof.
  unfold on_datagram. destruct (Nat.ltb_spec (length buf) 8).
  - assert (exists e, parse buf is_ipv6 = Done (Err e)) as [e ->].
    { unfold parse. parse_cases; [by eexists|]. rewrite parse_num_short by lia. by eexists. }
    by eexists.
  - destruct (parse_header buf is_ipv6) as (r & _ & ->); [lia|]. rsimpl. eexists. split; [done|].
    by eexists.
Qed.

Lemma request_step_inv random r c : client_inv c ->
  exists c', client_step c (EvRequest random r) = Done c' /\ client_inv c'.
Proof.
  intros [Ht Hg Hs Hd Ho]. cbn [client_step].
  pose proof (request_start_spec random (next_tx c) r (locked c)) as Hr.
  assert (Hnew : sent c !! next_tx c = None).
  { apply eq_None_not_Some. intros [tid Htid%Hs]. lia. }
  destruct (request_start random (next_tx c) r (locked c)) as [[[tid d]|e] g].
  - destruct Hr as [Hfree Hr]. eexists. split; [done|]. split; simpl.
    + intros tid' tx. rewrite Hr, lookup_insert_Some. intros [[<- <-]|[Hne Htx]].
      * rewrite lookup_insert_eq. split; [done|]. intros ([? [tid' ?]] & Heq & Hin)%list_elem_of_fmap.
        apply Hd in Hin. cbn [fst] in Heq. congruence.
      * destruct (Ht _ _ Htx) as [Hgu ?]. split; [|done]. rewrite lookup_insert_ne; [done|].
        intros <-. apply Hg in Hgu. congruence.
    + intros tx tid'. rewrite !lookup_insert_Some. intros [[<- <-]|[Hne Htx]]; [by left|right].
      split; [done|by apply Hg].
    + intros tx tid'. rewrite lookup_insert_Some. intros [[<- <-]|[_ ?%Hs]]; lia.
    + intros tx tid' r' Hin%Hd. rewrite lookup_insert_ne; [done|]. congruence.
    + done.
  - eexists. split; [done|]. split; simpl; [|done| |done|done].
    + intros tid tx. rewrite Hr. apply Ht.
    + intros tx tid ?%Hs. lia.
Qed.

Lemma datagram_step_inv buf is_ipv6 c : client_inv c ->
  exists c', client_step c (EvDatagram buf is_ipv6) = Done c' /\ client_inv c'.
Proof.
  intros Hi. cbn [client_step]. destruct (on_datagram_spec buf is_ipv6 (locked c)) as (o & -> & Hr). rsimpl.
  eexists. split; [done|]. destruct (length buf <? 8)%nat.
  { subst o. by destruct c, Hi. }
  destruct Hi as [Ht Hg Hs Hd Ho]. destruct Hr as (r & Ho1 & Ho2 & _ & _).
  set (tid := to_Z (take 4 (drop 4 buf))) in *.
  destruct (transactions (locked c) !! tid) as [tx|] eqn:Etx; simpl in Ho1; rewrite Ho1.
  - destruct (Ht _ _ Etx) as [Hgt Hnd]. split; simpl; [|done|done| |].
    + intros tid' tx'. rewrite Ho2, lookup_delete_Some. intros [Hne Htx'].
      destruct (Ht _ _ Htx') as [Hg' Hn']. split; [done|]. rewrite not_elem_of_cons.
      split; [|done]. intros ->. congruence.
    + intros tx' tid' r' [[= -> -> ->]|Hin]%elem_of_cons; [by apply Hg|by eapply Hd].
    + by constructor.
  - split; simpl; [|done..]. intros tid' tx'. rewrite Ho2, lookup_delete_Some. intros [_ Htx']. by apply Ht.
Qed.

Lemma client_step_inv e c : client_inv c -> exists c', client_step c e = Done c' /\ client_inv c'.
Proof.
  destruct e as [random r|buf v6|tx]; [apply request_step_inv|apply datagram_step_inv|].
  intros Hi. cbn [client_step]. destruct (guards c !! tx) as [tid|] eqn:Eg; [|by eexists].
  destruct Hi as [Ht Hg Hs Hd Ho]. eexists. split; [done|]. split; simpl; [| |done|done|done].
  - intros tid' tx'. rewrite lookup_delete_Some. intros [Hne Htx'].
    destruct (Ht _ _ Htx') as [Hg' ?]. split; [|done]. rewrite lookup_delete_ne; [done|]. congruence.
  - intros tx' tid'. rewrite lookup_delete_Some. intros [_ ?]. by apply Hg.
Qed.

Lemma client_runs events c : client_inv c -> exists c', for_each client_step c events = Done c' /\ client_inv c'.
Proof.
  intros Hc. apply (for_each_inv (fun _ => client_inv)); [done|].
  intros _ e c0 _ Hc0. by apply client_step_inv.
Qed.

(** Whatever datagrams arrive and however requests and timeouts
    interleave, the client does not panic; a request gets at most one
    response; the response comes from a datagram with the transaction id the
    request was sent with; and when no request runs any more, no transaction
    is left in the table. *)
Theorem udp_delivery events : exists c : Client (Addr := Addr),
  for_each client_step client_new events = Done c /\
  NoDup (delivered c).*1 /\
  (forall tx tid r, (tx, (tid, r)) ∈ delivered c -> sent c !! tx = Some tid) /\
  (guards c = ∅ -> transactions (locked c) = ∅).
Proof.
  destruct (client_runs events client_new client_new_inv) as (c & Hc & [Ht Hg Hs Hd Ho]).
  exists c. split; [done|]. split; [done|]. split; [done|]. intros He.
  apply map_empty. intros tid. apply eq_None_not_Some. intros [tx [Htx _]%Ht].
  by rewrite He, lookup_empty in Htx.
Qed.

(** A datagram for a waiting request reaches that request, and frees its id. *)
Lemma datagram_reaches_owner buf is_ipv6 g tx : (8 <= length buf)%nat ->
  transactions g !! to_Z (take 4 (drop 4 buf)) = Some tx ->
  exists r g', on_datagram buf is_ipv6 g = Done (Some (tx, r), g') /\
    parse buf is_ipv6 = Done (Ok (to_Z (take 4 (drop 4 buf)), r)) /\
    transactions g' !! to_Z (take 4 (drop 4 buf)) = None.
Proof.
  intros Hl Htx. destruct (on_datagram_spec buf is_ipv6 g) as ([o g'] & -> & Hr).
  destruct (Nat.ltb_spec (length buf) 8); [lia|]. destruct Hr as (r & Ho1 & Ho2 & _ & Hp). simpl in *.
  rewrite Htx in Ho1. simpl in Ho1. subst o. exists r, g'. rewrite Ho2, lookup_delete_eq. done.
Qed.
End transactions.

(** A request that has its response still owns its id until its guard is
    dropped; when another request draws the same id in between, the drop
    removes the other request's entry, and the response to it is thrown away. *)
Lemma guard_drop_cancels_other_request :
  exists c, for_each (client_step (Addr := nat)) client_new
      [EvRequest [7] UConnect; EvDatagram (encode_response false 7 (RConnect 1)) false;
       EvRequest [7] UConnect; EvFinish 0; EvDatagram (encode_response false 7 (RConnect 2)) false] = Done c /\
    guards c !! 1%nat = Some 7 /\ (delivered c).*1 = [0%nat] /\ transactions (locked c) = ∅.
Proof. eexists. split; [vm_compute; reflexivity|]. by vm_compute. Qed.

(** ** Witnesses *)

Definition ex_announce : Response :=
  RAnnounce (mkAnnounceResponse 1800 3 5 [mkSocketAddr false 3232235777 6881; mkSocketAddr false 167772161 51413]).

Lemma udp_response_roundtrip_witness :
  parse (encode_response false 42 ex_announce) false = Done (Ok (42, ex_announce)).
Proof.
  apply (udp_response_roundtrip false false 42 ex_announce); [done|]. repeat (split || constructor); done.
Defined.

Lemma request_datagram_spec_witness :
  request_datagram 9 (UScrape 5 [replicate 20 1; replicate 20 2]) =
  Ok (encode_request (UScrape 5 [replicate 20 1; replicate 20 2]) 9).
Proof.
  apply (request_datagram_spec (UScrape 5 [replicate 20 1; replicate 20 2]) 9). by repeat constructor.
Defined.
