(* ===== verification/TrackerHttp.v ===== *)
(** * TrackerHttp: announces to HTTP trackers

    Models [crates/librtbit-tracker-comms/src/tracker_comms_http.rs] and
    [tracker_one_request_http] of [tracker_comms.rs]: the query of an announce
    and the response, read with [Serde].  Peers come as a compact string or as
    a list of dictionaries.  Percent encoding (the crate [urlencoding]), the
    text of an address and reading one are arguments; the HTTP client is the
    reply it gives. *)

From stdpp Require Import strings.
From S2P Require Import Prelude HashId DoubleBuf Bencode Serde Compact.

(** ** The request *)

Inductive TrackerRequestEvent := Started | Stopped | Completed.

Record TrackerRequest := mkTrackerRequest {
  tr_info_hash : Id;
  tr_peer_id : Id;
  tr_event : option TrackerRequestEvent;
  tr_port : Z;
  tr_uploaded : Z;
  tr_downloaded : Z;
  tr_left : Z;
  tr_compact : bool;
  tr_no_peer_id : bool;
  tr_ip : option (bool * Z);
  tr_numwant : option Z;
  tr_key : option Z;
  tr_trackerid : option (list Z);
}.

Definition event_name (e : TrackerRequestEvent) : list Z :=
  match e with Started => key "started" | Stopped => key "stopped" | Completed => key "completed" end.

Section query.
Context (encode_binary : list Z -> list Z) (show_ip : bool * Z -> list Z).

Definition as_querystring (r : TrackerRequest) : list Z :=
  let s := key "info_hash=" ++ encode_binary (tr_info_hash r) in
  let s := s ++ key "&peer_id=" ++ encode_binary (tr_peer_id r) in
  let s := match tr_event r with Some e => s ++ key "&event=" ++ event_name e | None => s end in
  let s := s ++ key "&port=" ++ decimal (tr_port r) in
  let s := s ++ key "&uploaded=" ++ decimal (tr_uploaded r) in
  let s := s ++ key "&downloaded=" ++ decimal (tr_downloaded r) in
  let s := s ++ key "&left=" ++ decimal (tr_left r) in
  let s := s ++ key "&compact=" ++ decimal (if tr_compact r then 1 else 0) in
  let s := s ++ key "&no_peer_id=" ++ decimal (if tr_no_peer_id r then 1 else 0) in
  let s := match tr_ip r with Some ip => s ++ key "&ip=" ++ show_ip ip | None => s end in
  let s := match tr_numwant r with Some n => s ++ key "&numwant=" ++ decimal n | None => s end in
  let s := match tr_key r with Some k => s ++ key "&key=" ++ decimal k | None => s end in
  match tr_trackerid r with Some t => s ++ key "&trackerid=" ++ t | None => s end.

(** [url.set_query]: the parameters of the URL follow. *)
Definition announce_query (url_query : option (list Z)) (r : TrackerRequest) : list Z :=
  let queries := as_querystring r in
  match url_query with Some q => queries ++ key "&" ++ q | None => queries end.
End query.

(** ** The response *)

Inductive Peers :=
| DictPeers (l : list SocketAddr)
| CompactPeers (buf : list Z).

Definition peers_iter {T} `{CompactSerialize T} (into : T -> SocketAddr) (p : Peers) : list SocketAddr :=
  match p with
  | DictPeers a => a
  | CompactPeers l => into <$> list_iter (T := T) l
  end.

Record TrackerResponse := mkTrackerResponse {
  rp_warning_message : option (list Z);
  rp_complete : Z;
  rp_interval : Z;
  rp_min_interval : option Z;
  rp_tracker_id : option (list Z);
  rp_incomplete : Z;
  rp_peers : Peers;
  rp_peers6 : Peers;
}.

Definition iter_peers (r : TrackerResponse) : list SocketAddr :=
  peers_iter from_v4 (rp_peers r) ++ peers_iter from_v6 (rp_peers6 r).

Inductive RField :=
| RBytes (b : list Z)
| RInt (i : Z)
| RIp (ip : bool * Z)
| RPeers (p : Peers).

Definition r_bytes (f : RField) : option (list Z) := match f with RBytes b => Some b | _ => None end.
Definition r_int (f : RField) : option Z := match f with RInt i => Some i | _ => None end.
Definition r_ip (f : RField) : option (bool * Z) := match f with RIp i => Some i | _ => None end.
Definition r_peers (f : RField) : option Peers := match f with RPeers p => Some p | _ => None end.

Inductive HttpError := HttpStatus | Failure (reason : list Z) | BadResponse (e : DeError).

Definition MAX_DICT_PEERS : nat := Z.to_nat 10000.

Section reader.
Variable atoi_i64 atoi_u64 atoi_u16 atoi_usize : list Z -> Z * nat.
Variable parse_ip : list Z -> option (bool * Z).
Local Abbreviation struct := (de_struct atoi_i64 atoi_usize).
Local Abbreviation f_bytes := (de_fmap RBytes (de_bytes atoi_usize)).
Local Abbreviation f_int atoi := (de_fmap RInt (de_int atoi)).

(** [DisplayFromStr]: the bytes are UTF-8 and an address. *)
Definition de_ip : Decoder RField := de_check (fun b => ok_or (RIp <$> parse_ip b) InvalidContent) (de_bytes atoi_usize).

Definition de_dict_peer : Decoder SocketAddr := de_check (fun st =>
  ip ←? required r_ip (key "ip") st; port ←? required r_int (key "port") st;
  Ok (mkSocketAddr ip.1 ip.2 port)) (struct [(key "ip", de_ip); (key "port", f_int atoi_u16)]).

(** [visit_seq]: it stops at ten thousand peers, wherever the list is then. *)
Fixpoint dict_peers_loop (fuel : nat) (de : BencodeDeserializer) (addrs : list SocketAddr) : decoded (list SocketAddr) :=
  match fuel with
  | O => Panic
  | S fuel =>
      if starts_with_e de then Done (Ok (addrs, skip_end de))
      else
        peer ←?! de_dict_peer fuel de;
        let addrs := addrs ++ [peer.1] in
        if (MAX_DICT_PEERS <=? length addrs)%nat then Done (Ok (addrs, peer.2))
        else dict_peers_loop fuel peer.2 addrs
  end.

(** [deserialize_any] with a visitor of lists and byte strings. *)
Definition de_peers : Decoder RField := fun fuel de =>
  match head (de_buf de) with
  | None => Done (Err (DeSyntax Eof))
  | Some c =>
      if c =? ch_d then Done (Err InvalidType)
      else if c =? ch_i then
        _ ←?! de_int atoi_i64 fuel de;
        Done (Err InvalidType)
      else if c =? ch_l then
        r ←?! Done (lift (parse_first_byte de ch_l InvalidValue));
        l ←?! dict_peers_loop fuel r.2 [];
        Done (Ok (RPeers (DictPeers l.1), l.2))
      else de_fmap (fun b => RPeers (CompactPeers b)) (de_bytes atoi_usize) fuel de
  end.

Definition de_tracker_error : Decoder (list Z) := de_check (required r_bytes (key "failure reason")) (struct [(key "failure reason", f_bytes)]).

Definition de_tracker_response : Decoder TrackerResponse := de_check (fun st =>
  interval ←? required r_int (key "interval") st; peers ←? required r_peers (key "peers") st;
  Ok (mkTrackerResponse (optional r_bytes (key "warning message") st) (default 0 (optional r_int (key "complete") st)) interval
        (optional r_int (key "min interval") st) (optional r_bytes (key "tracker_id") st) (default 0 (optional r_int (key "incomplete") st))
        peers (default (DictPeers []) (optional r_peers (key "peers6") st))))
  (struct [(key "warning message", f_bytes); (key "complete", f_int atoi_u64); (key "interval", f_int atoi_u64);
           (key "min interval", f_int atoi_u64); (key "tracker_id", f_bytes); (key "incomplete", f_int atoi_u64);
           (key "peers", de_peers); (key "peers6", de_peers)]).

(** The body of a reply: a failure first, then a response. *)
Definition http_response (success : bool) (bytes : list Z) : outcome (result HttpError TrackerResponse) :=
  if negb success then Done (Err HttpStatus)
  else
    e ←! decode_with_rest de_tracker_error bytes;
    match e with
    | Ok reason => Done (Err (Failure reason.1))
    | Err _ =>
        r ←! decode_with_rest de_tracker_response bytes;
        Done (match r with Ok r => Ok r.1 | Err e => Err (BadResponse e) end)
    end.
End reader.

(** ** Every reply is read *)
Section total.
Variable atoi_i64 atoi_u64 atoi_u16 atoi_usize : list Z -> Z * nat.
Variable parse_ip : list Z -> option (bool * Z).
Local Abbreviation dict_peer := (de_dict_peer atoi_i64 atoi_u16 atoi_usize parse_ip).
Local Abbreviation loop := (dict_peers_loop atoi_i64 atoi_u16 atoi_usize parse_ip).
Local Abbreviation peers := (de_peers atoi_i64 atoi_u16 atoi_usize parse_ip).

Lemma total_dict_peer : total_de dict_peer.
Proof. unfold de_dict_peer, de_ip, de_fmap. total_tac. Qed.

Lemma dict_peers_loop_total fuel : forall de acc, (2 * length (de_buf de) + 2 <= fuel)%nat ->
  returns_d (length (de_buf de)) (loop fuel de acc).
Proof.
  induction fuel as [|fuel IH]; intros de acc Hf; [lia|]. cbn [dict_peers_loop]. destruct (starts_with_e de); [by apply skip_end_leaves|].
  destruct (total_dict_peer fuel de) as [Hr He]; [lia|]. destruct (decide (de_buf de = [])) as [Hb|Hb].
  { destruct (He Hb) as [e ->]. apply returns_d_err. }
  assert (0 < length (de_buf de))%nat by (destruct (de_buf de); [done|cbn; lia]).
  eapply returns_d_bind; [exact Hr|]. intros a de' Hl. cbn [fst snd]. destruct (_ <=? _)%nat; [apply returns_d_ok; lia|].
  eapply returns_d_weaken; [|apply IH; lia]. lia.
Qed.

Lemma total_peers : total_de peers.
Proof.
  intros fuel de Hf. unfold de_peers. destruct (de_buf de) as [|c b] eqn:Eb; cbn [head]; [split; [apply returns_d_err|by eexists]|].
  split; [|done]. rewrite <- Eb in Hf |- *. assert (0 < length (de_buf de))%nat by (rewrite Eb; cbn; lia).
  destruct (c =? ch_d); [apply returns_d_err|]. destruct (c =? ch_i).
  - eapply returns_d_bind; [by apply total_int|]. intros a de' _. apply returns_d_err.
  - destruct (c =? ch_l); [|by apply total_check; [apply total_bytes|]].
    apply total_first. intros d1 H1. cbn [snd]. eapply returns_d_bind; [apply dict_peers_loop_total; lia|].
    intros l d2 H2. apply returns_d_ok. cbn [snd]. lia.
Qed.

(** Whatever a tracker replies, reading it ends with a response or an error. *)
Theorem http_response_returns success bytes :
  exists r, http_response atoi_i64 atoi_u64 atoi_u16 atoi_usize parse_ip success bytes = Done r.
Proof.
  pose proof total_peers as Hp. unfold http_response. destruct success; cbn [negb]; [|by eexists].
  destruct (decode_rest_total (de_tracker_error atoi_i64 atoi_usize) bytes) as [[x|e] ->]; [unfold de_tracker_error, de_fmap; total_tac|by eexists|].
  cbn [outcome_bind].
  destruct (decode_rest_total (de_tracker_response atoi_i64 atoi_u64 atoi_u16 atoi_usize parse_ip) bytes) as [r ->];
    [unfold de_tracker_response, de_fmap; total_tac|by eexists].
Qed.
End total.

(** ** What a tracker writes is read *)

Section written.
Variable atoi_i64 atoi_u64 atoi_u16 atoi_usize : list Z -> Z * nat.
Variable parse_ip : list Z -> option (bool * Z).
Variable show_ip : bool * Z -> list Z.
Hypothesis Hi64 : atoi_spec (- 9223372036854775808) 9223372036854775808 atoi_i64.
Hypothesis Hu64 : atoi_spec 0 U64 atoi_u64.
Hypothesis Hu16 : atoi_spec 0 U16 atoi_u16.
Hypothesis Husize : atoi_spec 0 U64 atoi_usize.

(** A peer in a list: its address as text, whatever else is said of it. *)
Definition dict_peer_value (a : SocketAddr) : BencodeValue :=
  Dict [(key "ip", Bytes (show_ip (sa_ipv6 a, sa_ip a))); (key "port", Integer (sa_port a))].

Definition peers_value (p : Peers) : BencodeValue :=
  match p with DictPeers l => List (dict_peer_value <$> l) | CompactPeers b => Bytes b end.

Definition non_zero (z : Z) : option BencodeValue := if z =? 0 then None else Some (Integer z).

(** A response; a count of zero and no IPv6 peers are left out. *)
Definition response_value (r : TrackerResponse) : BencodeValue :=
  dict [(key "warning message", Bytes <$> rp_warning_message r); (key "complete", non_zero (rp_complete r));
        (key "interval", Some (Integer (rp_interval r))); (key "min interval", Integer <$> rp_min_interval r);
        (key "tracker_id", Bytes <$> rp_tracker_id r); (key "incomplete", non_zero (rp_incomplete r));
        (key "peers", Some (peers_value (rp_peers r)));
        (key "peers6", match rp_peers6 r with DictPeers [] => None | p => Some (peers_value p) end)].

Definition is_count (z : Z) : Prop := 0 <= z < 9223372036854775808.

Definition wf_dict_peer (a : SocketAddr) : Prop :=
  is_u16 (sa_port a) /\ fits (show_ip (sa_ipv6 a, sa_ip a)) /\ parse_ip (show_ip (sa_ipv6 a, sa_ip a)) = Some (sa_ipv6 a, sa_ip a).

Definition wf_peers (p : Peers) : Prop :=
  match p with
  | DictPeers l => Forall wf_dict_peer l /\ (length l < MAX_DICT_PEERS)%nat
  | CompactPeers b => fits b
  end.

Record wf_response (r : TrackerResponse) : Prop := {
  wr_warning_message : all_opt fits (rp_warning_message r);
  wr_complete : is_count (rp_complete r);
  wr_interval : is_count (rp_interval r);
  wr_min_interval : all_opt is_count (rp_min_interval r);
  wr_tracker_id : all_opt fits (rp_tracker_id r);
  wr_incomplete : is_count (rp_incomplete r);
  wr_peers : wf_peers (rp_peers r);
  wr_peers6 : wf_peers (rp_peers6 r);
}.

Local Abbreviation dict_peer := (de_dict_peer atoi_i64 atoi_u16 atoi_usize parse_ip).
Local Abbreviation loop := (dict_peers_loop atoi_i64 atoi_u16 atoi_usize parse_ip).
Local Abbreviation peers := (de_peers atoi_i64 atoi_u16 atoi_usize parse_ip).

Lemma reads_dict_peer a : wf_dict_peer a -> reads dict_peer (dict_peer_value a) a.
Proof.
  intros (Hp & Hf & Hi). unfold de_dict_peer.
  change (dict_peer_value a) with (dict [(key "ip", Some (Bytes (show_ip (sa_ipv6 a, sa_ip a)))); (key "port", Some (Integer (sa_port a)))]).
  unfold dict. read_fields Hi64 Husize [(key "ip", Some (RIp (sa_ipv6 a, sa_ip a))); (key "port", Some (RInt (sa_port a)))].
  - one_field. eapply reads_check; [by apply reads_bytes|]. by rewrite Hi.
  - one_field. by eapply reads_fmap, reads_int.
  - by destruct a.
Qed.

(** The loop stops at the end of the list, or at the ten thousandth peer. *)
Lemma dict_peers_written l : Forall wf_dict_peer l -> forall fuel rest ctx dnf acc, ctx_room ctx dnf 1 ->
  (2 * length (concat (map serialize (dict_peer_value <$> l))) + 2 <= fuel)%nat -> (length acc + length l < MAX_DICT_PEERS)%nat ->
  loop fuel (mkDe (concat (map serialize (dict_peer_value <$> l)) ++ ch_e :: rest) ctx dnf false) acc =
    Done (Ok (acc ++ l, mkDe rest ctx dnf false)).
Proof.
  induction 1 as [|a l Ha Hl IH]; intros fuel rest ctx dnf acc Hc Hf Hn; (destruct fuel as [|fuel]; [lia|]); cbn [dict_peers_loop].
  { cbn. by rewrite app_nil_r. }
  cbn [fmap list_fmap map concat] in *. rewrite length_app in Hf. rewrite <- app_assoc, serialize_not_end.
  destruct (serialize_head (dict_peer_value a)) as (c & b & Hs & _).
  rewrite (reads_dict_peer a Ha); [|exact Hc|lia]. cbn [try_bind fst snd]. rewrite Hs in Hf. cbn [length] in Hf, Hn.
  destruct (Nat.leb_spec MAX_DICT_PEERS (length (acc ++ [a]))) as [Hm|_]; [rewrite length_app in Hm; cbn [length] in Hm; lia|].
  rewrite IH; [by rewrite <- app_assoc|done|lia|rewrite length_app; cbn [length]; lia].
Qed.

Lemma reads_peers p : wf_peers p -> reads peers (peers_value p) (RPeers p).
Proof.
  intros Hp fuel rest ctx dnf Hc Hf. unfold de_peers. destruct p as [l|b]; cbn [peers_value wf_peers] in *.
  - destruct Hp as [Hl Hn]. cbn [serialize app de_buf head] in *. change (ch_l =? ch_d) with false. change (ch_l =? ch_i) with false.
    rewrite Z.eqb_refl, first_byte_read. cbn [lift try_bind snd]. rewrite <- app_assoc. cbn [app length] in *. rewrite length_app in Hf.
    destruct l as [|a l]; [destruct fuel; [lia|done]|].
    rewrite (dict_peers_written (a :: l)); [done|done| |lia|done]. eapply ctx_room_le; [|exact Hc]. cbn. lia.
  - cbn [serialize] in *. pose proof (reads_fmap (fun b => RPeers (CompactPeers b)) _ _ _ (reads_bytes atoi_usize Husize b Hp)) as Hr.
    specialize (Hr fuel rest ctx dnf Hc Hf). cbn [serialize] in Hr. destruct (write_bytes_head b) as (c & l & Hw & Hd). rewrite Hw in *.
    cbn [app de_buf head] in *. unfold is_digit in Hd.
    destruct (Z.eqb_spec c ch_d) as [->|]; [done|]. destruct (Z.eqb_spec c ch_i) as [->|]; [done|]. by destruct (Z.eqb_spec c ch_l) as [->|].
Qed.

Lemma reads_count atoi i : atoi_spec 0 U64 atoi -> is_count i -> reads (de_fmap RInt (de_int atoi)) (Integer i) (RInt i).
Proof. intros Ha Hi. eapply reads_fmap, reads_int; [exact Ha|]. unfold is_count in Hi. lia. Qed.

Definition found_count (z : Z) : option RField := if z =? 0 then None else Some (RInt z).

Lemma found_count_default z : default 0 (found_count z ≫= r_int) = z.
Proof. unfold found_count. by destruct (Z.eqb_spec z 0) as [->|]. Qed.

Local Abbreviation response := (de_tracker_response atoi_i64 atoi_u64 atoi_u16 atoi_usize parse_ip).

Lemma reads_tracker_response r : wf_response r -> reads response (response_value r) r.
Proof.
  intros [Hw Hc Hi Hm Ht Hn Hp H6]. unfold de_tracker_response, response_value, dict.
  read_fields Hi64 Husize [(key "warning message", RBytes <$> rp_warning_message r); (key "complete", found_count (rp_complete r));
    (key "interval", Some (RInt (rp_interval r))); (key "min interval", RInt <$> rp_min_interval r);
    (key "tracker_id", RBytes <$> rp_tracker_id r); (key "incomplete", found_count (rp_incomplete r));
    (key "peers", Some (RPeers (rp_peers r)));
    (key "peers6", match rp_peers6 r with DictPeers [] => None | p => Some (RPeers p) end)].
  - opt_field (rp_warning_message r). by apply reads_fmap, reads_bytes.
  - unfold non_zero, found_count. destruct (rp_complete r =? 0); [constructor|]. one_field. by apply reads_count.
  - one_field. by apply reads_count.
  - opt_field (rp_min_interval r). by apply reads_count.
  - opt_field (rp_tracker_id r). by apply reads_fmap, reads_bytes.
  - unfold non_zero, found_count. destruct (rp_incomplete r =? 0); [constructor|]. one_field. by apply reads_count.
  - one_field. by apply reads_peers.
  - pose proof (reads_peers _ H6) as Hr. destruct (rp_peers6 r) as [[|a l]|b]; [constructor|..]; one_field; exact Hr.
  - cbn [mbind option_bind id].
    assert (default (DictPeers []) (match rp_peers6 r with DictPeers [] => None | p => Some (RPeers p) end ≫= r_peers) = rp_peers6 r) as Hp6
      by (by destruct (rp_peers6 r) as [[|? ?]|]).
    pose proof (found_count_default (rp_complete r)) as Hcd. pose proof (found_count_default (rp_incomplete r)) as Hid.
    destruct r as [w c i m t n p p6]; cbn in *. rewrite Hp6, Hcd, Hid. by destruct w, m, t.
Qed.

(** The fields are no failure, so they are skipped. *)
Lemma wf_dict_peer_value a : wf_dict_peer a -> wf_value (dict_peer_value a).
Proof.
  intros (Hp & Hf & _). apply (wf_dict [(key "ip", Some (Bytes (show_ip (sa_ipv6 a, sa_ip a)))); (key "port", Some (Integer (sa_port a)))]).
  repeat (apply Forall_cons; split); [..|apply Forall_nil; done]; (split; [unfold fits; cbn; lia|]); [exact Hf|]. cbn. unfold is_u16 in Hp. lia.
Qed.

Lemma wf_peers_value p : wf_peers p -> wf_value (peers_value p).
Proof.
  destruct p as [l|b]; [|done]. intros [Hl _]. cbn [peers_value wf_value]. induction Hl as [|a l Ha _ IH]; [done|].
  split; [by apply wf_dict_peer_value|exact IH].
Qed.

Definition response_entry (k : list Z) : Prop := fits k /\ find k [(key "failure reason", de_fmap RBytes (de_bytes atoi_usize))] = None.

Lemma entries_no_failure es rest : NoDup es.*1 -> Forall (fun e => response_entry e.1 /\ wf_value e.2) es -> (depth (Dict es) <= 4)%nat ->
  decode_with_rest (de_tracker_error atoi_i64 atoi_usize) (serialize (Dict es) ++ rest) = Done (Err (MissingField (key "failure reason"))).
Proof.
  intros Hnd Hes Hd. unfold decode_with_rest, de_tracker_error, de_check, new_from_buf, parse_fuel.
  destruct (struct_written atoi_i64 atoi_usize Hi64 Husize [(key "failure reason", de_fmap RBytes (de_bytes atoi_usize))] es
    ((fun e => (e.1, None)) <$> es)) with (fuel := (2 * length (serialize (Dict es) ++ rest) + 1)%nat) (rest := rest) (ctx := @nil (list Z)) (dnf := 0)
    as (st & Hst & ->).
  - clear -Hes. induction Hes as [|e es [[Hf Hk] Hwf] _ IH]; [constructor|]. constructor; [|exact IH]. by split_and!.
  - by rewrite <- list_fmap_compose.
  - unfold ctx_room. cbn [length]. lia.
  - rewrite length_app. lia.
  - cbn [try_bind fst snd]. unfold required. rewrite Hst.
    assert (find (key "failure reason") ((fun e : list Z * BencodeValue => (e.1, @None RField)) <$> es) ≫= id = None) as ->; [|done].
    destruct (find _ _) as [o|] eqn:E; [|done]. apply find_elem, list_elem_of_fmap in E as (e & [= _ ->] & _). done.
Qed.

Lemma depth_peers p : (depth (peers_value p) <= 2)%nat.
Proof.
  destruct p as [l|b]; cbn [peers_value depth]; [|lia]. induction l as [|a l IH]; [cbn; lia|]. cbn in *. lia.
Qed.

Lemma depth_tracker_response r : (depth (response_value r) <= 3)%nat.
Proof.
  apply depth_dict. unfold non_zero. repeat (apply Forall_cons; split); try (apply Forall_nil; done); cbn [snd all_opt]; try apply depth_peers.
  all: try (cbn; lia).
  all: match goal with
       | |- all_opt _ (_ <$> ?o) => destruct o; [cbn; lia|done]
       | |- all_opt _ (if ?b then _ else _) => destruct b; [done|cbn; lia]
       | |- _ => pose proof (depth_peers (rp_peers6 r)) as H6; destruct (rp_peers6 r) as [[|? ?]|]; [done|exact H6|exact H6]
       end.
Qed.

(** What a tracker says in its response is what is read: the interval, the
    counts, and the peers it names, whether compact or listed (fewer than ten
    thousand); anything after the response is left out. *)
Theorem http_response_read r rest : wf_response r ->
  http_response atoi_i64 atoi_u64 atoi_u16 atoi_usize parse_ip true (serialize (response_value r) ++ rest) = Done (Ok r).
Proof.
  intros Hr. unfold http_response. cbn [negb]. pose proof (depth_tracker_response r) as Hd. unfold response_value, dict in *.
  rewrite entries_no_failure; [|apply present_NoDup; field_names| |lia].
  - cbn [outcome_bind]. pose proof (decode_rest_written _ _ r rest (reads_tracker_response r Hr)) as E. unfold response_value, dict in E. by rewrite E by lia.
  - destruct Hr as [Hw Hc Hi Hm Ht Hn Hp H6]. pose proof (wf_peers_value _ Hp) as Wp. pose proof (wf_peers_value _ H6) as W6.
    unfold is_count in *. apply (present_Forall response_entry wf_value).
    repeat (apply Forall_cons; split); try (apply Forall_nil; done); (split; [split; [unfold fits; cbn; lia|find_simpl; done]|cbn [snd all_opt]]).
    + by destruct (rp_warning_message r).
    + unfold non_zero. destruct (rp_complete r =? 0); cbn; [done|lia].
    + cbn. lia.
    + destruct (rp_min_interval r); cbn in *; [lia|done].
    + by destruct (rp_tracker_id r).
    + unfold non_zero. destruct (rp_incomplete r =? 0); cbn; [done|lia].
    + exact Wp.
    + by destruct (rp_peers6 r) as [[|? ?]|].
Qed.

(** The addresses of compact peers. *)
Lemma compact_peers r l4 l6 : Forall wf_v4 l4 -> Forall wf_v6 l6 -> rp_peers r = CompactPeers (new_from_iter l4) ->
  rp_peers6 r = CompactPeers (new_from_iter l6) -> iter_peers r = (from_v4 <$> l4) ++ (from_v6 <$> l6).
Proof.
  intros H4 H6 E4 E6. unfold iter_peers. rewrite E4, E6. cbn [peers_iter].
  by rewrite (list_iter_new (wf := wf_v4)), (list_iter_new (wf := wf_v6)).
Qed.

(** ** Ten thousand peers and more *)

(** The loop leaves the rest of the list, with its end, to the structure. *)
Lemma dict_peers_cut l : Forall wf_dict_peer l -> forall fuel rest ctx dnf acc, ctx_room ctx dnf 1 ->
  (2 * length (concat (map serialize (dict_peer_value <$> l))) + 2 <= fuel)%nat ->
  (length acc < MAX_DICT_PEERS)%nat -> (MAX_DICT_PEERS <= length acc + length l)%nat ->
  let n := (MAX_DICT_PEERS - length acc)%nat in
  loop fuel (mkDe (concat (map serialize (dict_peer_value <$> l)) ++ ch_e :: rest) ctx dnf false) acc =
    Done (Ok (acc ++ take n l, mkDe (concat (map serialize (dict_peer_value <$> drop n l)) ++ ch_e :: rest) ctx dnf false)).
Proof.
  induction 1 as [|a l Ha Hl IH]; intros fuel rest ctx dnf acc Hc Hf Hacc Hn n; [cbn in Hn; lia|].
  destruct fuel as [|fuel]; [lia|]. cbn [dict_peers_loop].
  cbn [fmap list_fmap map concat] in *. rewrite length_app in Hf. rewrite <- app_assoc, serialize_not_end.
  destruct (serialize_head (dict_peer_value a)) as (c & b & Hs & _).
  rewrite (reads_dict_peer a Ha); [|exact Hc|lia]. cbn [try_bind fst snd]. rewrite Hs in Hf. cbn [length] in Hf, Hn.
  assert (Hla : length (acc ++ [a]) = S (length acc)) by (rewrite length_app; cbn; lia).
  replace n with (S (MAX_DICT_PEERS - S (length acc))) by (subst n; lia). cbn [take drop].
  destruct (Nat.leb_spec MAX_DICT_PEERS (length (acc ++ [a]))) as [Hm|Hm].
  - replace (MAX_DICT_PEERS - S (length acc))%nat with 0%nat by lia. done.
  - rewrite IH; [|done|lia|done|lia]. rewrite Hla, <- app_assoc. done.
Qed.

Hypothesis usize_digit : forall b v n, atoi_usize b = (v, n) -> (0 < n)%nat -> exists c, head b = Some c /\ is_digit c = true.

Definition listed_response (interval : Z) (l : list SocketAddr) : BencodeValue :=
  Dict [(key "interval", Integer interval); (key "peers", List (dict_peer_value <$> l))].

Lemma dict_is_no_key a rest ctx dnf : exists e, next_key atoi_usize (mkDe (serialize (dict_peer_value a) ++ rest) ctx dnf false) = Err e.
Proof.
  unfold next_key, parse_bytes, dict_peer_value. rewrite serialize_dict. cbn [with_key de_buf app].
  destruct (atoi_usize _) as [v n] eqn:E. destruct (Nat.ltb_spec 0 n) as [Hn|]; [|by eexists].
  destruct (usize_digit _ _ _ E Hn) as (c & [= <-] & Hd). done.
Qed.

(** One known entry of a structure. *)
Lemma struct_step {V} (fields : list (list Z * Decoder V)) k d a rest rest' ctx dnf n fuel acc : fits k -> ctx_room ctx dnf (S n) ->
  find k fields = Some d -> find k acc = None ->
  (forall ctx' dnf', ctx_room ctx' dnf' n -> d fuel (mkDe rest ctx' dnf' false) = Done (Ok (a, mkDe rest' ctx' dnf' false))) ->
  struct_loop atoi_i64 atoi_usize fields (S fuel) (mkDe (write_bytes false k ++ rest) ctx dnf false) acc =
    struct_loop atoi_i64 atoi_usize fields fuel (mkDe rest' ctx dnf false) (acc ++ [(k, a)]).
Proof.
  intros Hk Hc Hd Hacc Hr. cbn [struct_loop]. rewrite bytes_not_end.
  destruct (next_key_written atoi_usize Husize k rest ctx dnf n Hk Hc) as (-> & Hroom & Hpop). cbn [lift try_bind fst snd].
  rewrite Hd, Hacc, (Hr _ _ Hroom). cbn [try_bind fst snd]. by rewrite Hpop.
Qed.

Local Abbreviation response_fields :=
  [(key "warning message", de_fmap RBytes (de_bytes atoi_usize)); (key "complete", de_fmap RInt (de_int atoi_u64));
   (key "interval", de_fmap RInt (de_int atoi_u64)); (key "min interval", de_fmap RInt (de_int atoi_u64));
   (key "tracker_id", de_fmap RBytes (de_bytes atoi_usize)); (key "incomplete", de_fmap RInt (de_int atoi_u64));
   (key "peers", peers); (key "peers6", peers)].

(** The rest of the list is taken for a key. *)
Lemma cut_list_fails interval l rest fuel : is_count interval -> Forall wf_dict_peer l -> (MAX_DICT_PEERS < length l)%nat ->
  (2 * (length (write_number interval) + length (concat (map serialize (dict_peer_value <$> l)))) + 8 <= fuel)%nat ->
  exists e, struct_loop atoi_i64 atoi_usize response_fields fuel
    (mkDe (write_bytes false (key "interval") ++ write_number interval ++ write_bytes false (key "peers") ++
           serialize (List (dict_peer_value <$> l)) ++ rest) [] 0 false) [] = Done (Err e).
Proof.
  intros Hi Hl Hn Hf. assert (Hpos : (0 < MAX_DICT_PEERS)%nat) by (unfold MAX_DICT_PEERS; lia).
  assert (Hroom : ctx_room [] 0 2) by (unfold ctx_room; cbn; lia). destruct fuel as [|[|[|fuel]]]; [lia..|].
  erewrite (struct_step _ (key "interval") _ (RInt interval) _ _ _ _ 1); [|unfold fits; cbn; lia|done|find_simpl; reflexivity|done|].
  2: { intros ctx dnf Hc. apply (reads_count atoi_u64 interval Hu64 Hi); [by eapply ctx_room_le; [|exact Hc]; cbn; lia|].
       change (serialize (Integer interval)) with (write_number interval). lia. }
  set (n := (MAX_DICT_PEERS - length (@nil SocketAddr))%nat).
  erewrite (struct_step _ (key "peers") _ (RPeers (DictPeers (take n l))) _
    (concat (map serialize (dict_peer_value <$> drop n l)) ++ ch_e :: rest) _ _ 1); [|unfold fits; cbn; lia|done|find_simpl; reflexivity|done|].
  2: { intros ctx dnf Hc. unfold de_peers. cbn [serialize app de_buf head]. change (ch_l =? ch_d) with false. change (ch_l =? ch_i) with false.
       rewrite Z.eqb_refl, first_byte_read. cbn [lift try_bind snd]. rewrite <- app_assoc. cbn [app].
       rewrite (dict_peers_cut l Hl); [done|done|lia|done|cbn [length]; lia]. }
  cbn [struct_loop]. assert (exists a l', drop n l = a :: l') as (a & l' & ->).
  { destruct (drop n l) as [|a l'] eqn:E; [|by eexists _, _]. pose proof (length_drop l n) as Hd. rewrite E in Hd. subst n. cbn in Hd. lia. }
  cbn [fmap list_fmap map concat]. rewrite <- app_assoc, serialize_not_end.
  destruct (dict_is_no_key a (concat (map serialize (dict_peer_value <$> l')) ++ ch_e :: rest) [] 0) as [[e de] ->]. by exists (DeSyntax e).
Qed.

(** More than ten thousand listed peers make a response unreadable. *)
Lemma too_many_listed_peers interval l : is_count interval -> Forall wf_dict_peer l -> (MAX_DICT_PEERS < length l)%nat ->
  exists e, http_response atoi_i64 atoi_u64 atoi_u16 atoi_usize parse_ip true (serialize (listed_response interval l)) = Done (Err (BadResponse e)).
Proof.
  intros Hi Hl Hn. unfold http_response. cbn [negb]. assert (Hpos : (0 < MAX_DICT_PEERS)%nat) by (unfold MAX_DICT_PEERS; lia).
  rewrite <- (app_nil_r (serialize _)). unfold listed_response. rewrite entries_no_failure; cycle 1.
  { field_names. }
  { repeat (apply Forall_cons; split); [..|apply Forall_nil; done]; (split; [split; [unfold fits; cbn; lia|find_simpl; done]|cbn [snd]]).
    - unfold is_count in Hi. cbn. lia.
    - cbn [wf_value]. clear -Hl. induction Hl as [|a l Ha _ IH]; [done|]. split; [by apply wf_dict_peer_value|exact IH]. }
  { pose proof (depth_peers (DictPeers l)) as Hd. cbn [peers_value depth] in Hd. cbn [depth foldr snd]. lia. }
  cbn [outcome_bind]. unfold decode_with_rest, de_tracker_response, de_check, de_struct, new_from_buf, parse_fuel. rewrite serialize_dict.
  change (bt_of [(key "interval", Integer interval); (key "peers", List (dict_peer_value <$> l))])
    with [(key "interval", Integer interval); (key "peers", List (dict_peer_value <$> l))].
  cbn [map concat]. unfold entry_bytes. cbn [fst snd]. rewrite app_nil_r. cbn [app]. rewrite first_byte_read. cbn [lift try_bind snd].
  set (fuel := (2 * length _ + 1)%nat). rewrite <- !app_assoc. cbn [app].
  destruct (cut_list_fails interval l [ch_e] fuel Hi Hl Hn) as [e E].
  { subst fuel. cbn [length serialize]. rewrite !length_app. cbn [length]. rewrite !length_app. cbn [length]. lia. }
  change (serialize (Integer interval)) with (write_number interval). rewrite E. by exists e.
Qed.
End written.

(** ** The parameters of the query *)
Section parameters.
Context (encode_binary : list Z -> list Z) (show_ip : bool * Z -> list Z).

Abbreviation ch_amp := 38.

Definition no_amp (l : list Z) : Prop := ch_amp ∉ l.

(** The parameters in order, each a name and a value. *)
Definition parameters (r : TrackerRequest) : list (list Z) :=
  [key "info_hash=" ++ encode_binary (tr_info_hash r); key "peer_id=" ++ encode_binary (tr_peer_id r)] ++
  (match tr_event r with Some e => [key "event=" ++ event_name e] | None => [] end) ++
  [key "port=" ++ decimal (tr_port r); key "uploaded=" ++ decimal (tr_uploaded r); key "downloaded=" ++ decimal (tr_downloaded r);
   key "left=" ++ decimal (tr_left r); key "compact=" ++ decimal (if tr_compact r then 1 else 0);
   key "no_peer_id=" ++ decimal (if tr_no_peer_id r then 1 else 0)] ++
  (match tr_ip r with Some ip => [key "ip=" ++ show_ip ip] | None => [] end) ++
  (match tr_numwant r with Some n => [key "numwant=" ++ decimal n] | None => [] end) ++
  (match tr_key r with Some k => [key "key=" ++ decimal k] | None => [] end) ++
  (match tr_trackerid r with Some t => [key "trackerid=" ++ t] | None => [] end).

(** Percent encoding leaves letters, digits, some punctuation and percent signs;
    an address is written with digits, letters, dots and colons. *)
Hypothesis encode_no_amp : forall b, no_amp (encode_binary b).
Hypothesis ip_no_amp : forall ip, no_amp (show_ip ip).

Lemma split_amp p l : no_amp p -> split_on ch_amp (p ++ ch_amp :: l) = p :: split_on ch_amp l.
Proof.
  unfold no_amp. induction p as [|x p IH]; intros Hp; [done|]. apply not_elem_of_cons in Hp as [Hx Hp]. cbn [app split_on].
  destruct (Z.eqb_spec x ch_amp) as [->|]; [done|]. by rewrite IH.
Qed.

Lemma split_last p : no_amp p -> split_on ch_amp p = [p].
Proof.
  unfold no_amp. induction p as [|x p IH]; intros Hp; [done|]. apply not_elem_of_cons in Hp as [Hx Hp]. cbn [split_on].
  destruct (Z.eqb_spec x ch_amp) as [->|]; [done|]. by rewrite IH.
Qed.

Definition amp_all (ps : list (list Z)) : list Z := concat (cons ch_amp <$> ps).

Lemma split_all p ps : Forall no_amp (p :: ps) -> split_on ch_amp (p ++ amp_all ps) = p :: ps.
Proof.
  revert p. induction ps as [|q ps IH]; intros p Hp; apply Forall_cons in Hp as [Hp Hps].
  - unfold amp_all. cbn. by rewrite app_nil_r, split_last.
  - unfold amp_all in *. cbn [fmap list_fmap concat app]. by rewrite split_amp, IH.
Qed.

Lemma decimal_no_amp n : no_amp (decimal n).
Proof.
  unfold no_amp, decimal. assert (Hd : forall fuel m acc, 0 <= m -> ch_amp ∉ acc -> ch_amp ∉ digits fuel m acc).
  { induction fuel as [|fuel IH]; intros m acc Hm Ha; [done|]. cbn [digits]. pose proof (Z.mod_pos_bound m 10 ltac:(lia)).
    assert (ch_amp ∉ (ch_zero + m mod 10) :: acc) by (apply not_elem_of_cons; split; [lia|done]).
    destruct (m <? 10); [done|]. apply IH; [apply Z.div_pos; lia|done]. }
  destruct (Z.ltb_spec n 0); [apply not_elem_of_cons; split; [done|]|]; apply Hd; lia || apply not_elem_of_nil.
Qed.

Lemma named_no_amp name v : Forall (fun c => c <> ch_amp) name -> no_amp v -> no_amp (name ++ v).
Proof.
  unfold no_amp. intros Hn Hv Hin. apply elem_of_app in Hin as [Hin|]; [|done]. rewrite Forall_forall in Hn. by apply (Hn _ Hin).
Qed.

Lemma parameters_no_amp r : (forall t, tr_trackerid r = Some t -> no_amp t) -> Forall no_amp (parameters r).
Proof.
  intros Ht. pose proof decimal_no_amp as Hd. unfold parameters.
  assert (Hev : forall e, no_amp (event_name e)) by (intros e; apply (bool_decide_unpack _); destruct e; vm_compute; exact I).
  repeat (apply Forall_app; split); repeat (apply Forall_cons; split); try (apply Forall_nil; done);
    try (apply named_no_amp; [apply (bool_decide_unpack _); vm_compute; exact I|by auto]).
  all: match goal with |- Forall _ (match ?o with _ => _ end) => destruct o eqn:?; [|done] end;
    (apply Forall_cons; split; [|done]); (apply named_no_amp; [apply (bool_decide_unpack _); vm_compute; exact I|by auto]).
Qed.

Lemma querystring_parameters r : exists p ps, parameters r = p :: ps /\ as_querystring encode_binary show_ip r = p ++ amp_all ps.
Proof.
  eexists _, _. split; [reflexivity|]. unfold as_querystring, amp_all. cbn zeta.
  destruct (tr_event r), (tr_ip r), (tr_numwant r), (tr_key r), (tr_trackerid r); cbn [fmap list_fmap concat app];
    rewrite ?app_nil_r, <- ?app_assoc; reflexivity.
Qed.

(** The query of an announce has the parameters of the request in order, then
    those of the URL. *)
Theorem announce_query_parameters url_query r : (forall t, tr_trackerid r = Some t -> no_amp t) ->
  split_on ch_amp (announce_query encode_binary show_ip url_query r) =
    parameters r ++ match url_query with Some q => split_on ch_amp q | None => [] end.
Proof.
  intros Ht. pose proof (parameters_no_amp r Ht) as Hp. destruct (querystring_parameters r) as (p & ps & Eq & Es).
  unfold announce_query. rewrite Es, Eq in *. destruct url_query as [q|]; [|by rewrite split_all, app_nil_r].
  rewrite <- app_assoc. clear Eq Es. revert p Hp. induction ps as [|p' ps IH]; intros p Hp; apply Forall_cons in Hp as [Hp Hps].
  - unfold amp_all. cbn. by rewrite split_amp.
  - unfold amp_all in *. cbn [fmap list_fmap concat app]. rewrite <- ?app_assoc, split_amp, IH by done. done.
Qed.
End parameters.

(** A response with three compact peers and one listed. *)
Definition ex_show (p : bool * Z) : list Z := (if p.1 then [ch_colon] else []) ++ decimal p.2.
Definition ex_parse (b : list Z) : option (bool * Z) :=
  match b with
  | c :: r => if c =? ch_colon then Some (true, fst (read_unsigned r)) else Some (false, fst (read_unsigned b))
  | [] => None
  end.
Definition ex_response : TrackerResponse :=
  mkTrackerResponse None 5 1800 (Some 900) None 0 (CompactPeers (new_from_iter [mkV4 167772161 6881; mkV4 1 80; mkV4 2 2]))
    (DictPeers [mkSocketAddr true 7 51413]).

Lemma read_u16_spec : atoi_spec 0 U16 read_unsigned.
Proof. intros v rest Hv. apply read_unsigned_spec. lia. Qed.

Lemma http_response_read_witness :
  http_response read_signed read_unsigned read_unsigned read_unsigned ex_parse true (serialize (response_value ex_show ex_response) ++ [10]) =
    Done (Ok ex_response) /\
  iter_peers ex_response = [mkSocketAddr false 167772161 6881; mkSocketAddr false 1 80; mkSocketAddr false 2 2; mkSocketAddr true 7 51413].
Proof.
  split; [|reflexivity].
  apply (http_response_read read_signed read_unsigned read_unsigned read_unsigned ex_parse ex_show read_signed_spec read_unsigned_spec
           read_u16_spec read_unsigned_spec ex_response [10]).
  split; unfold is_count; cbn [ex_response all_opt rp_warning_message rp_complete rp_interval rp_min_interval rp_tracker_id rp_incomplete rp_peers rp_peers6]; try (done || lia).
  split; [|unfold MAX_DICT_PEERS; cbn [length]; lia]. by repeat constructor.
Defined.
