(* ===== verification/TrackerComms.v ===== *)
(** * TrackerComms: announcing a torrent to its trackers

    Models [crates/librtbit-tracker-comms/src/tracker_comms.rs] with
    [tracker_status.rs]: one task for each tracker, which announces, sends the
    peers it learns of into a channel, and sleeps, and the stream that takes them
    out.  The tasks are cut at their awaits; the replies of trackers, the answers
    of the resolver, the statistics of the torrent at each announce and the clock
    are arguments of the events.  Sleeps are in seconds; the delays between
    retries are not kept. *)

From stdpp Require Import strings.
From S2P Require Import Prelude HashId DoubleBuf Bencode Serde Compact UdpTracker TrackerHttp.

(** ** Statistics *)

Inductive TrackerCommsStatsState := SNone | SInitializing | SPaused | SLive.

Record TrackerCommsStats := mkStats {
  st_uploaded_bytes : Z;
  st_downloaded_bytes : Z;
  st_total_bytes : Z;
  st_torrent_state : TrackerCommsStatsState;
}.

Definition get_left_to_download_bytes (s : TrackerCommsStats) : Z :=
  let total := st_total_bytes s in
  let down := st_downloaded_bytes s in
  if down <=? total then total - down else 0.

Definition is_completed (s : TrackerCommsStats) : bool := st_total_bytes s <=? st_downloaded_bytes s.

(** ** Status of the trackers *)

Inductive TrackerAnnounceState := NotContacted | Updating | Working | AnnounceError | Disabled.
#[export] Instance announce_state_eq_dec : EqDecision TrackerAnnounceState.
Proof. solve_decision. Defined.

Abbreviation Url := (list Z).

Record TrackerStatus := mkStatus {
  ts_url : Url;
  ts_state : TrackerAnnounceState;
  ts_seeders : option Z;
  ts_leechers : option Z;
  ts_peers_returned : option Z;
  ts_last_announce_unix : option Z;
  ts_interval_secs : option Z;
  ts_last_error : option (list Z);
}.

Abbreviation TrackerStatusRegistry := (gmap (list Z) TrackerStatus).

Definition status_new (url : Url) : TrackerStatus := mkStatus url NotContacted None None None None None None.

Definition with_entry (url : Url) (f : TrackerStatus -> TrackerStatus) (r : TrackerStatusRegistry) : TrackerStatusRegistry :=
  <[url := f (default (status_new url) (r !! url))]> r.

Definition ensure (url : Url) : TrackerStatusRegistry -> TrackerStatusRegistry := with_entry url (fun e => e).

Definition set_announce_state (e : TrackerStatus) (s : TrackerAnnounceState) (err : option (list Z)) : TrackerStatus :=
  mkStatus (ts_url e) s (ts_seeders e) (ts_leechers e) (ts_peers_returned e) (ts_last_announce_unix e) (ts_interval_secs e) err.

Definition record_updating (url : Url) : TrackerStatusRegistry -> TrackerStatusRegistry :=
  with_entry url (fun e => if bool_decide (ts_state e = NotContacted) then set_announce_state e Updating (ts_last_error e) else e).

Definition option_or {A} (a b : option A) : option A := match a with Some _ => a | None => b end.

Definition record_success (now : Z) (url : Url) (seeders leechers : option Z) (peers_returned interval_secs : Z) :
    TrackerStatusRegistry -> TrackerStatusRegistry :=
  with_entry url (fun e =>
    mkStatus (ts_url e) Working (option_or seeders (ts_seeders e)) (option_or leechers (ts_leechers e)) (Some peers_returned)
      (Some now) (Some interval_secs) None).

Definition record_error (url : Url) (error : list Z) : TrackerStatusRegistry -> TrackerStatusRegistry :=
  with_entry url (fun e => set_announce_state e AnnounceError (Some error)).

Definition record_disabled (url : Url) (reason : list Z) : TrackerStatusRegistry -> TrackerStatusRegistry :=
  with_entry url (fun e => set_announce_state e Disabled (Some reason)).

Definition url_leb (a b : TrackerStatus) : bool := negb (bytes_ltb (ts_url b) (ts_url a)).

Definition snapshot (r : TrackerStatusRegistry) : list TrackerStatus := sort_by url_leb (snd <$> map_to_list r).

(** ** Addresses of UDP trackers *)

Inductive UdpTrackerResolveResult :=
| ROne (a : SocketAddr)
| RTwo (v4 v6 : SocketAddr).

(** A host is a name, for which the resolver gives addresses or fails, or an
    address. *)
Inductive Host := Domain | HostAddr (a : SocketAddr).

Definition pick_addr (p : option SocketAddr * option SocketAddr) (addr : SocketAddr) : option SocketAddr * option SocketAddr :=
  match p, sa_ipv6 addr with
  | (None, v6), false => (Some addr, v6)
  | (v4, None), true => (v4, Some addr)
  | _, _ => p
  end.

Definition udp_tracker_to_socket_addrs (host : Host) (lookup : option (list SocketAddr)) : option UdpTrackerResolveResult :=
  match host with
  | Domain =>
      addrs ← lookup;
      match foldl pick_addr (None, None) addrs with
      | (Some v4, Some v6) => Some (RTwo v4 v6)
      | (Some v4, None) => Some (ROne v4)
      | (None, Some v6) => Some (ROne v6)
      | (None, None) => None
      end
  | HostAddr a => Some (ROne a)
  end.

(** ** Starting *)

Inductive SupportedTracker := Udp (url : Url) | Http (url : Url).

Section start.
Context (scheme : Url -> list Z).

Definition reason_proxy : list Z := key "UDP trackers disabled (proxy mode)".
Definition reason_scheme : list Z := key "unsupported tracker URL scheme".

(** The [filter_map], which records what it leaves out. *)
Definition supported (udp_client : bool) (acc : list SupportedTracker * TrackerStatusRegistry) (t : Url) :
    list SupportedTracker * TrackerStatusRegistry :=
  let '(l, s) := acc in
  if bool_decide (scheme t = key "http") || bool_decide (scheme t = key "https") then (l ++ [Http t], s)
  else if bool_decide (scheme t = key "udp") then
    if udp_client then (l ++ [Udp t], s) else (l, record_disabled t reason_proxy s)
  else (l, record_disabled t reason_scheme s).

Definition tracker_url (t : SupportedTracker) : Url := match t with Udp u => u | Http u => u end.

Definition start (udp_client : bool) (trackers : list Url) (status : TrackerStatusRegistry) :
    option (list SupportedTracker) * TrackerStatusRegistry :=
  let '(l, s) := foldl (supported udp_client) ([], status) trackers in
  match l with
  | [] => (None, s)
  | _ => (Some l, foldl (fun s t => ensure (tracker_url t) s) s l)
  end.
End start.

(** ** The requests of an announce *)

Record Announcer := mkAnnouncer {
  an_info_hash : Id;
  an_peer_id : Id;
  an_force_tracker_interval : option Z;
  an_announce_port : option Z;
  an_key : Z;
}.

Definition port_or_default (a : Announcer) : Z := default 4240 (an_announce_port a).

(** The event of a round of the HTTP monitor, and what it remembers. *)
Definition http_event (first was_completed : bool) (stats : TrackerCommsStats) : option TrackerRequestEvent :=
  if first then Some Started
  else match st_torrent_state stats with
       | SPaused => Some Stopped
       | _ => if is_completed stats && negb was_completed then Some Completed else None
       end.

Definition http_request (a : Announcer) (event : option TrackerRequestEvent) (stats : TrackerCommsStats) : TrackerRequest :=
  mkTrackerRequest (an_info_hash a) (an_peer_id a) event (port_or_default a) (st_uploaded_bytes stats) (st_downloaded_bytes stats)
    (get_left_to_download_bytes stats) true false None None (Some (an_key a)) None.

Definition EVENT_NONE := 0.
Definition EVENT_COMPLETED := 1.
Definition EVENT_STARTED := 2.
Definition EVENT_STOPPED := 3.

Definition udp_event (stats : TrackerCommsStats) : Z :=
  match st_torrent_state stats with
  | SNone => EVENT_NONE
  | SInitializing => EVENT_STARTED
  | SPaused => EVENT_STOPPED
  | SLive => if is_completed stats then EVENT_COMPLETED else EVENT_STARTED
  end.

Definition udp_request (a : Announcer) (stats : TrackerCommsStats) : AnnounceFields :=
  mkAnnounceFields (an_info_hash a) (an_peer_id a) (st_downloaded_bytes stats) (get_left_to_download_bytes stats)
    (st_uploaded_bytes stats) (udp_event stats) (an_key a) (port_or_default a).

(** ** The tasks *)

(** One request: waiting for the reply, sending peers (with what is recorded at
    the end), or over with the seconds to sleep. *)
Inductive Call :=
| Waiting
| Sending (pending : list SocketAddr) (seeders leechers : option Z) (peers_returned secs : Z)
| Finished (sleep : option Z).

Inductive TrackerTask :=
| HttpSleep (first was_completed : bool) (secs : Z)
| HttpCall (was_completed : bool) (event : option TrackerRequestEvent) (c : Call)
| UdpSleep (sleep_interval : option Z) (prev_addrs : option UdpTrackerResolveResult)
| UdpCall (sleep_interval : option Z) (addrs : UdpTrackerResolveResult) (r4 r6 : Call).

Definition add_tracker (t : SupportedTracker) : TrackerTask :=
  match t with
  | Http _ => HttpSleep true false 0
  | Udp _ => UdpSleep None None
  end.

Record Comms := mkComms {
  cm_tasks : gmap (list Z) TrackerTask;
  cm_status : TrackerStatusRegistry;
  cm_channel : list SocketAddr;
  cm_yielded : list SocketAddr;
}.

Definition CHANNEL : nat := 16.

Definition set_task (url : Url) (t : TrackerTask) (c : Comms) : Comms :=
  mkComms (<[url := t]> (cm_tasks c)) (cm_status c) (cm_channel c) (cm_yielded c).
Definition set_status (s : TrackerStatusRegistry) (c : Comms) : Comms :=
  mkComms (cm_tasks c) s (cm_channel c) (cm_yielded c).

Definition comms_new (trackers : list SupportedTracker) (status : TrackerStatusRegistry) : Comms :=
  mkComms (list_to_map ((fun t => (tracker_url t, add_tracker t)) <$> trackers)) status [] [].

Definition to_u32 (v : Z) : option Z := if v <? U32 then Some v else None.

(** What a reply starts: the peers to send, the counts and the sleep. *)
Definition http_reply (r : TrackerResponse) : Call :=
  let peers := iter_peers r in
  Sending peers (to_u32 (rp_complete r)) (to_u32 (rp_incomplete r)) (Z.of_nat (length peers)) (default (rp_interval r) (rp_min_interval r)).

Definition udp_reply (r : AnnounceResponse) : Call :=
  Sending (ar_addrs r) (Some (ar_seeders r)) (Some (ar_leechers r)) (Z.of_nat (length (ar_addrs r))) (Z.max (ar_interval r) 5).

(** The seconds to sleep after the requests of a round. *)
Definition udp_sleep (addrs : UdpTrackerResolveResult) (r4 r6 prev : option Z) : Z :=
  match addrs with
  | ROne _ => match r4 with Some sleep => sleep | None => default 60 prev end
  | RTwo _ _ => default 60 (option_or (option_or r4 r6) prev)
  end.

(** The second request is made for two addresses only. *)
Definition calls_of (addrs : UdpTrackerResolveResult) : Call * Call :=
  match addrs with ROne _ => (Waiting, Finished None) | RTwo _ _ => (Waiting, Waiting) end.

(** The next element of a request: a peer into the channel, or its end. *)
Definition call_send (c : Call) (channel : list SocketAddr) : option (Call * list SocketAddr) :=
  match c with
  | Sending (p :: pending) s l n secs => if (length channel <? CHANNEL)%nat then Some (Sending pending s l n secs, channel ++ [p]) else None
  | _ => None
  end.

Definition call_end (now : Z) (url : Url) (c : Call) (status : TrackerStatusRegistry) : option (Z * TrackerStatusRegistry) :=
  match c with
  | Sending [] s l n secs => Some (secs, record_success now url s l n secs status)
  | _ => None
  end.

(** ** Events *)

Inductive Which := V4 | V6.

Inductive CommsEvent :=
| ERound (url : Url) (stats : TrackerCommsStats)  (* an HTTP monitor wakes up *)
| EHttpReply (url : Url) (stats : TrackerCommsStats) (reply : result (list Z) TrackerResponse)
| EResolve (url : Url) (host : Host) (lookup : option (list SocketAddr))  (* a UDP monitor wakes up *)
| EUdpReply (url : Url) (w : Which) (stats : TrackerCommsStats) (reply : result (list Z) AnnounceResponse)
| ESend (url : Url) (w : Which)
| EDone (url : Url) (w : Which) (now : Z)
| ERoundDone (url : Url)  (* both requests of a UDP monitor are over *)
| EYield.

Definition get_call (w : Which) (r4 r6 : Call) : Call := match w with V4 => r4 | V6 => r6 end.
Definition udp_call (s : option Z) (a : UdpTrackerResolveResult) (r4 r6 : Call) (w : Which) (c : Call) : TrackerTask :=
  match w with V4 => UdpCall s a c r6 | V6 => UdpCall s a r4 c end.

Section steps.
Context (a : Announcer).

(** The task, the status and the channel after an event of the HTTP monitor;
    an error is retried. *)
Definition http_task_step (t : TrackerTask) (status : TrackerStatusRegistry) (channel : list SocketAddr) (e : CommsEvent) :
    option (TrackerTask * TrackerStatusRegistry * list SocketAddr) :=
  match e, t with
  | ERound url stats, HttpSleep first was_completed _ =>
      Some (HttpCall (is_completed stats) (http_event first was_completed stats) Waiting, record_updating url status, channel)
  | EHttpReply url _ reply, HttpCall was_completed event Waiting =>
      match reply with
      | Ok r => Some (HttpCall was_completed event (http_reply r), status, channel)
      | Err error => Some (t, record_error url error status, channel)
      end
  | ESend url w, HttpCall was_completed event c =>
      '(c, channel) ← call_send c channel; Some (HttpCall was_completed event c, status, channel)
  | EDone url w now, HttpCall was_completed event c =>
      '(secs, status) ← call_end now url c status;
      Some (HttpSleep false was_completed (default secs (an_force_tracker_interval a)), status, channel)
  | _, _ => None
  end.

(** And of the UDP monitor; resolving is retried until there are addresses, which
    records nothing more. *)
Definition udp_task_step (t : TrackerTask) (status : TrackerStatusRegistry) (channel : list SocketAddr) (e : CommsEvent) :
    option (TrackerTask * TrackerStatusRegistry * list SocketAddr) :=
  match e, t with
  | EResolve url host lookup, UdpSleep sleep_interval prev_addrs =>
      let status := record_updating url status in
      match option_or (udp_tracker_to_socket_addrs host lookup) prev_addrs with
      | Some addrs => Some (UdpCall sleep_interval addrs (calls_of addrs).1 (calls_of addrs).2, status, channel)
      | None => Some (t, status, channel)
      end
  | EUdpReply url w _ reply, UdpCall s addrs r4 r6 =>
      match get_call w r4 r6, reply with
      | Waiting, Ok r => Some (udp_call s addrs r4 r6 w (udp_reply r), status, channel)
      | Waiting, Err error => Some (udp_call s addrs r4 r6 w (Finished None), record_error url error status, channel)
      | _, _ => None
      end
  | ESend url w, UdpCall s addrs r4 r6 =>
      '(c, channel) ← call_send (get_call w r4 r6) channel; Some (udp_call s addrs r4 r6 w c, status, channel)
  | EDone url w now, UdpCall s addrs r4 r6 =>
      '(secs, status) ← call_end now url (get_call w r4 r6) status; Some (udp_call s addrs r4 r6 w (Finished (Some secs)), status, channel)
  | ERoundDone url, UdpCall s addrs (Finished s4) (Finished s6) => Some (UdpSleep (Some (udp_sleep addrs s4 s6 s)) (Some addrs), status, channel)
  | _, _ => None
  end.

Definition task_step (t : TrackerTask) : TrackerStatusRegistry -> list SocketAddr -> CommsEvent ->
    option (TrackerTask * TrackerStatusRegistry * list SocketAddr) :=
  match t with
  | HttpSleep _ _ _ | HttpCall _ _ _ => http_task_step t
  | UdpSleep _ _ | UdpCall _ _ _ _ => udp_task_step t
  end.

(** The request that the reply is to, made with the statistics of that moment. *)
Definition http_announced (t : TrackerTask) (e : CommsEvent) : option TrackerRequest :=
  match e, t with
  | EHttpReply _ stats _, HttpCall _ event Waiting => Some (http_request a event stats)
  | _, _ => None
  end.

Definition udp_announced (t : TrackerTask) (e : CommsEvent) : option AnnounceFields :=
  match e, t with
  | EUdpReply _ w stats _, UdpCall _ _ r4 r6 =>
      match get_call w r4 r6 with Waiting => Some (udp_request a stats) | _ => None end
  | _, _ => None
  end.

Definition event_url (e : CommsEvent) : option Url :=
  match e with
  | ERound url _ | EHttpReply url _ _ | EResolve url _ _ | EUdpReply url _ _ _ | ESend url _ | EDone url _ _ | ERoundDone url => Some url
  | EYield => None
  end.

Definition comms_step (c : Comms) (e : CommsEvent) : option Comms :=
  match event_url e with
  | Some url =>
      t ← cm_tasks c !! url;
      '(t, status, channel) ← task_step t (cm_status c) (cm_channel c) e;
      Some (mkComms (<[url := t]> (cm_tasks c)) status channel (cm_yielded c))
  | None =>
      match cm_channel c with
      | addr :: channel => Some (mkComms (cm_tasks c) (cm_status c) channel (cm_yielded c ++ [addr]))
      | [] => None
      end
  end.
End steps.

Fixpoint comms_run (a : Announcer) (c : Comms) (es : list CommsEvent) : option Comms :=
  match es with
  | [] => Some c
  | e :: es => c ← comms_step a c e; comms_run a c es
  end.

(** ** What a run keeps *)

Definition call_pending (c : Call) : list SocketAddr := match c with Sending pending _ _ _ _ => pending | _ => [] end.
Definition task_pending (t : TrackerTask) : list SocketAddr :=
  match t with
  | HttpCall _ _ c => call_pending c
  | UdpCall _ _ r4 r6 => call_pending r4 ++ call_pending r6
  | _ => []
  end.

Definition pending (m : gmap (list Z) TrackerTask) : list SocketAddr := concat (task_pending <$> (map_to_list m).*2).

(** The peers that replies named. *)
Definition learned_by (e : CommsEvent) : list SocketAddr :=
  match e with
  | EHttpReply _ _ (Ok r) => iter_peers r
  | EUdpReply _ _ _ (Ok r) => ar_addrs r
  | _ => []
  end.

Definition learned (es : list CommsEvent) : list SocketAddr := concat (learned_by <$> es).

(** The sleeps of a UDP monitor are at least five seconds. *)
Definition call_polite (c : Call) : Prop :=
  match c with
  | Sending _ _ _ _ secs => 5 <= secs
  | Finished (Some secs) => 5 <= secs
  | _ => True
  end.

Definition task_polite (t : TrackerTask) : Prop :=
  match t with
  | UdpSleep s _ => all_opt (fun secs => 5 <= secs) s
  | UdpCall s _ r4 r6 => all_opt (fun secs => 5 <= secs) s /\ call_polite r4 /\ call_polite r6
  | _ => True
  end.

(** What a status says is consistent. *)
Definition status_ok (url : Url) (e : TrackerStatus) : Prop :=
  ts_url e = url /\
  match ts_state e with
  | Working => ts_last_error e = None /\ is_Some (ts_last_announce_unix e) /\ is_Some (ts_interval_secs e) /\ is_Some (ts_peers_returned e)
  | AnnounceError | Disabled => is_Some (ts_last_error e)
  | NotContacted | Updating => ts_last_announce_unix e = None
  end.

Record comms_ok (es : list CommsEvent) (c : Comms) : Prop := {
  ck_peers : learned es ≡ₚ cm_yielded c ++ cm_channel c ++ pending (cm_tasks c);
  ck_channel : (length (cm_channel c) <= CHANNEL)%nat;
  ck_polite : map_Forall (fun _ => task_polite) (cm_tasks c);
  ck_status : map_Forall status_ok (cm_status c);
  ck_known : forall url, is_Some (cm_tasks c !! url) -> is_Some (cm_status c !! url);
}.

(** Recording keeps the statuses consistent and knows no fewer trackers. *)
Definition status_step (s s' : TrackerStatusRegistry) : Prop :=
  (map_Forall status_ok s -> map_Forall status_ok s') /\ forall url, is_Some (s !! url) -> is_Some (s' !! url).

Lemma status_step_refl s : status_step s s.
Proof. by split. Qed.

Lemma with_entry_step url f s : (forall e, status_ok url e -> status_ok url (f e)) -> status_step s (with_entry url f s).
Proof.
  intros Hf. unfold with_entry. split; [|intros u Hu; destruct (decide (u = url)) as [->|]; [by rewrite lookup_insert_eq|by rewrite lookup_insert_ne]].
  intros Hs. apply map_Forall_insert_2; [|done]. apply Hf. destruct (s !! url) as [e|] eqn:E; [by apply (Hs _ _ E)|done].
Qed.

Lemma updating_step url s : status_step s (record_updating url s).
Proof.
  apply with_entry_step. intros e [Hu He]. case_bool_decide as E; [|done]. rewrite E in He. by split.
Qed.

Lemma error_step url err s : status_step s (record_error url err s).
Proof. apply with_entry_step. intros e [Hu He]. by split; [|eexists]. Qed.

Lemma success_step now url se le n secs s : status_step s (record_success now url se le n secs s).
Proof. apply with_entry_step. intros e [Hu He]. split; [done|]. by split_and!; [done|eexists..]. Qed.

Record step_keeps (s : TrackerStatusRegistry) (ch : list SocketAddr) (t : TrackerTask) (l : list SocketAddr)
    (s' : TrackerStatusRegistry) (ch' : list SocketAddr) (t' : TrackerTask) : Prop := {
  sk_status : status_step s s';
  sk_channel : (length ch <= CHANNEL)%nat -> (length ch' <= CHANNEL)%nat;
  sk_polite : task_polite t -> task_polite t';
  sk_peers : l ++ ch ++ task_pending t ≡ₚ ch' ++ task_pending t';
}.

Lemma call_send_spec c ch c' ch' : call_send c ch = Some (c', ch') ->
  ((length ch <= CHANNEL)%nat -> (length ch' <= CHANNEL)%nat) /\ (call_polite c -> call_polite c') /\ ch ++ call_pending c = ch' ++ call_pending c'.
Proof.
  unfold call_send. destruct c as [|[|p pending] s l n secs|]; [done|done| |done]. destruct (Nat.ltb_spec (length ch) CHANNEL); [|done].
  intros [= <- <-]. split_and!; [intros _; rewrite length_app; cbn; lia|done|]. cbn [call_pending]. by rewrite <- app_assoc.
Qed.

Lemma call_end_spec now url c s secs s' : call_end now url c s = Some (secs, s') ->
  status_step s s' /\ call_pending c = [] /\ (call_polite c -> 5 <= secs).
Proof.
  unfold call_end. destruct c as [|[|p pending] se le n x|]; [done| |done|done]. intros [= -> <-].
  split_and!; [apply success_step|done|done].
Qed.

Lemma udp_call_spec s addrs r4 r6 w c :
  task_pending (udp_call s addrs r4 r6 w c) ++ call_pending (get_call w r4 r6) ≡ₚ task_pending (UdpCall s addrs r4 r6) ++ call_pending c /\
  (task_polite (UdpCall s addrs r4 r6) -> call_polite (get_call w r4 r6) /\ (call_polite c -> task_polite (udp_call s addrs r4 r6 w c))).
Proof.
  destruct w; cbn [udp_call get_call task_pending task_polite]; (split; [|tauto]).
  - rewrite (Permutation_app_comm (_ ++ _) (call_pending r4)), <- app_assoc. f_equiv. apply Permutation_app_comm.
  - rewrite <- !app_assoc. f_equiv. apply Permutation_app_comm.
Qed.

Lemma http_step_keeps a wc ev c s ch e t' s' ch' : task_step a (HttpCall wc ev c) s ch e = Some (t', s', ch') ->
  step_keeps s ch (HttpCall wc ev c) (learned_by e) s' ch' t'.
Proof.
  destruct e as [url st|url st reply|url h lk|url w st reply|url w|url w now|url|]; cbn [task_step http_task_step udp_task_step]; try done.
  - destruct c; [|done|done]. destruct reply as [r|err]; intros [= <- <- <-]; constructor; try done; cbn [learned_by task_pending].
    + cbn [call_pending http_reply]. rewrite app_nil_r. apply Permutation_app_comm.
    + apply error_step.
  - destruct (call_send c ch) as [[c' ch1]|] eqn:E; [|done]. intros [= <- <- <-]. destruct (call_send_spec _ _ _ _ E) as (H1 & H2 & H3).
    constructor; [apply status_step_refl|done|done|]. cbn [learned_by task_pending app]. by rewrite H3.
  - destruct (call_end now url c s) as [[secs s1]|] eqn:E; [|done]. intros [= <- <- <-]. destruct (call_end_spec _ _ _ _ _ _ E) as (H1 & H2 & H3).
    constructor; [done|done|done|]. cbn [learned_by task_pending app]. by rewrite H2.
Qed.

Lemma udp_sleep_polite addrs s4 s6 s : call_polite (Finished s4) -> call_polite (Finished s6) -> all_opt (fun secs => 5 <= secs) s ->
  5 <= udp_sleep addrs s4 s6 s.
Proof. destruct addrs, s4, s6, s; cbn; intros; lia. Qed.

Lemma udp_step_keeps a sl addrs r4 r6 s ch e t' s' ch' : task_step a (UdpCall sl addrs r4 r6) s ch e = Some (t', s', ch') ->
  step_keeps s ch (UdpCall sl addrs r4 r6) (learned_by e) s' ch' t'.
Proof.
  destruct e as [url st|url st reply|url h lk|url w st reply|url w|url w now|url|]; cbn [task_step http_task_step udp_task_step]; try done.
  - pose proof (fun c => udp_call_spec sl addrs r4 r6 w c) as Hu. destruct (get_call w r4 r6) eqn:Ec; [|by destruct reply..].
    destruct reply as [r|err]; intros [= <- <- <-].
    + destruct (Hu (udp_reply r)) as [Hp Hpol]. constructor; [apply status_step_refl|done| |].
      * intros Ht. apply Hpol; [done|]. cbn. lia.
      * cbn [learned_by]. cbn [call_pending] in Hp. rewrite app_nil_r in Hp. rewrite Hp. cbn [call_pending udp_reply].
        rewrite (Permutation_app_comm (ar_addrs r)), <- app_assoc. done.
    + destruct (Hu (Finished None)) as [Hp Hpol]. constructor; [apply error_step|done|by intros Ht; apply Hpol|].
      cbn [learned_by app]. cbn [call_pending] in Hp. rewrite !app_nil_r in Hp. by rewrite Hp.
  - destruct (call_send (get_call w r4 r6) ch) as [[c' ch1]|] eqn:E; [|done]. intros [= <- <- <-].
    destruct (call_send_spec _ _ _ _ E) as (H1 & H2 & H3). destruct (udp_call_spec sl addrs r4 r6 w c') as [Hp Hpol].
    constructor; [apply status_step_refl|done|intros Ht; apply Hpol; [done|]; by apply H2, Hpol|]. cbn [learned_by app].
    apply (Permutation_app_inv_r (call_pending c')). rewrite <- app_assoc, <- Hp, Permutation_app_comm, <- app_assoc.
    rewrite (Permutation_app_comm _ ch), H3.
    rewrite Permutation_app_comm, <- !app_assoc. f_equiv. apply Permutation_app_comm.
  - destruct (call_end now url (get_call w r4 r6) s) as [[secs s1]|] eqn:E; [|done]. intros [= <- <- <-].
    destruct (call_end_spec _ _ _ _ _ _ E) as (H1 & H2 & H3). destruct (udp_call_spec sl addrs r4 r6 w (Finished (Some secs))) as [Hp Hpol].
    constructor; [done|done|intros Ht; apply Hpol; [done|]; by apply H3, Hpol|]. cbn [learned_by app].
    rewrite H2 in Hp. cbn [call_pending] in Hp. rewrite !app_nil_r in Hp. by rewrite Hp.
  - destruct r4 as [| |s4]; [done|done|]. destruct r6 as [| |s6]; [done|done|]. intros [= <- <- <-].
    constructor; [apply status_step_refl|done| |done]. intros (Hs & H4 & H6). by apply udp_sleep_polite.
Qed.

Lemma task_step_keeps a t s ch e t' s' ch' : task_step a t s ch e = Some (t', s', ch') -> step_keeps s ch t (learned_by e) s' ch' t'.
Proof.
  destruct t as [first wc secs|wc ev c|sl prev|sl addrs r4 r6]; [|apply http_step_keeps| |apply udp_step_keeps].
  - destruct e; cbn [task_step http_task_step udp_task_step]; try done. intros [= <- <- <-]. by constructor; [apply updating_step|..].
  - destruct e as [| |url h lk| | | | |]; cbn [task_step http_task_step udp_task_step]; try done. destruct (option_or _ prev) as [addrs|]; intros [= <- <- <-];
      (constructor; [apply updating_step|done| |]); try done; by destruct addrs.
Qed.

Lemma pending_insert m url t t' : m !! url = Some t ->
  pending m ≡ₚ task_pending t ++ pending (delete url m) /\ pending (<[url := t']> m) ≡ₚ task_pending t' ++ pending (delete url m).
Proof.
  intros Hm. unfold pending. split.
  - by rewrite <- (map_to_list_delete m url t Hm).
  - rewrite <- insert_delete_eq. rewrite map_to_list_insert by apply lookup_delete_eq. done.
Qed.

Lemma comms_step_ok a es c e c' : comms_ok es c -> comms_step a c e = Some c' -> comms_ok (es ++ [e]) c'.
Proof.
  intros [Hp Hc Hpol Hst Hk]. unfold comms_step. assert (Hl : learned (es ++ [e]) ≡ₚ learned_by e ++ learned es).
  { unfold learned. rewrite fmap_app, concat_app. cbn. rewrite app_nil_r. apply Permutation_app_comm. }
  destruct (event_url e) as [url|] eqn:Eu.
  - destruct (cm_tasks c !! url) as [t|] eqn:Et; [|done]. cbn [mbind option_bind].
    destruct (task_step a t (cm_status c) (cm_channel c) e) as [[[t' s'] ch']|] eqn:Es; [|done]. intros [= <-].
    destruct (task_step_keeps _ _ _ _ _ _ _ _ Es) as [[K1 K1'] K2 K3 K4]. destruct (pending_insert (cm_tasks c) url t t' Et) as [P1 P2].
    constructor; cbn [cm_tasks cm_status cm_channel cm_yielded].
    + rewrite Hl, Hp, P2, P1, (app_assoc ch'), <- K4, <- !app_assoc.
      rewrite (app_assoc _ (cm_yielded c)), (Permutation_app_comm (learned_by e)), <- !app_assoc. done.
    + by apply K2.
    + apply map_Forall_insert_2; [|done]. apply K3. by apply (Hpol _ _ Et).
    + by apply K1.
    + intros u Hu. apply K1'. destruct (decide (u = url)) as [->|Hne]; [apply Hk; by rewrite Et|].
      rewrite lookup_insert_ne in Hu by done. by apply Hk.
  - destruct (cm_channel c) as [|addr ch] eqn:Ech; [done|]. intros [= <-].
    constructor; cbn [cm_tasks cm_status cm_channel cm_yielded]; [|cbn in Hc; lia|done|done|done].
    assert (learned_by e = []) as El by (by destruct e). rewrite Hl, El, Hp. cbn [app]. by rewrite <- app_assoc.
Qed.

Lemma comms_run_ok a es : forall done c c', comms_ok done c -> comms_run a c es = Some c' -> comms_ok (done ++ es) c'.
Proof.
  induction es as [|e es IH]; intros d c c' Hc; cbn [comms_run]; [intros [= <-]; by rewrite app_nil_r|].
  destruct (comms_step a c e) as [c1|] eqn:E; [|by intros]. cbn [mbind option_bind]. intros Hr.
  replace (d ++ e :: es) with ((d ++ [e]) ++ es) by (by rewrite <- app_assoc). eapply IH; [|exact Hr]. by eapply comms_step_ok.
Qed.

Lemma disabled_step url r s : status_step s (record_disabled url r s).
Proof. apply with_entry_step. intros e [Hu He]. by split; [|eexists]. Qed.

Lemma ensure_step url s : status_step s (ensure url s).
Proof. by apply with_entry_step. Qed.

Lemma ensure_all l : forall s, status_step s (foldl (fun s t => ensure (tracker_url t) s) s l) /\
  forall t, t ∈ l -> is_Some (foldl (fun s t => ensure (tracker_url t) s) s l !! tracker_url t).
Proof.
  induction l as [|t l IH]; intros s; cbn [foldl]; [by split; [apply status_step_refl|intros t Ht; apply not_elem_of_nil in Ht]|].
  destruct (IH (ensure (tracker_url t) s)) as [[H1 H2] H3]. destruct (ensure_step (tracker_url t) s) as [E1 E2].
  split; [split; [by auto|by auto]|]. intros t' Ht. apply elem_of_cons in Ht as [->|Ht]; [|by apply H3].
  apply H2. unfold ensure, with_entry. by rewrite lookup_insert_eq.
Qed.

Lemma supported_status scheme udp trackers : forall l s l' s', foldl (supported scheme udp) (l, s) trackers = (l', s') ->
  map_Forall status_ok s -> map_Forall status_ok s'.
Proof.
  induction trackers as [|t ts IH]; intros l s l' s'; cbn [foldl]; [by intros [= <- <-]|]. unfold supported at 2.
  destruct (_ || _); [by apply IH|]. destruct (bool_decide _); [destruct udp; [by apply IH|]|];
    intros E Hs; (eapply IH; [exact E|]); by apply disabled_step.
Qed.

Lemma comms_new_ok scheme udp trackers status l s : map_Forall status_ok status -> start scheme udp trackers status = (Some l, s) ->
  comms_ok [] (comms_new l s).
Proof.
  intros Hst. unfold start. destruct (foldl _ _ trackers) as [l0 s0] eqn:E. apply supported_status in E; [|done].
  destruct l0 as [|t l0]; [done|]. intros [= <- <-]. set (ts := t :: l0) in *.
  destruct (ensure_all ts s0) as [[H1 _] H3].
  assert (Hnew : map_Forall (fun _ x => exists t, x = add_tracker t) (list_to_map (M := gmap (list Z) TrackerTask) ((fun t => (tracker_url t, add_tracker t)) <$> ts))).
  { intros u x Hx. apply elem_of_list_to_map_2, list_elem_of_fmap in Hx as (t' & [= _ ->] & _). by eexists. }
  constructor; cbn [comms_new cm_tasks cm_status cm_channel cm_yielded app].
  - unfold learned, pending. cbn [fmap list_fmap concat]. rewrite map_Forall_to_list in Hnew. clear -Hnew.
    induction Hnew as [|[u x] m [[] ->] _ IH]; done.
  - cbn. unfold CHANNEL. lia.
  - intros u x Hx. destruct (Hnew _ _ Hx) as [[] ->]; done.
  - by apply H1.
  - intros u [x Hx]. apply elem_of_list_to_map_2, list_elem_of_fmap in Hx as (t' & [= -> _] & Ht). by apply H3.
Qed.

(** ** The status and the history *)

(** How an announce ended: with an error, or at some time with a reply that named
    so many peers and asked for an interval. *)
Inductive Announced :=
| Failed (error : list Z)
| Succeeded (now peers_returned secs : Z).

(** What a reply to the tracker at [url] named and asked for; a UDP tracker may be
    asked at two addresses. *)
Definition reply_of (url : Url) (w : Which) (e : CommsEvent) : option (Z * Z) :=
  match e with
  | EHttpReply u _ (Ok r) =>
      if bool_decide (u = url) then Some (Z.of_nat (length (iter_peers r)), default (rp_interval r) (rp_min_interval r)) else None
  | EUdpReply u w' _ (Ok r) =>
      match w, w' with
      | V4, V4 | V6, V6 => if bool_decide (u = url) then Some (Z.of_nat (length (ar_addrs r)), Z.max (ar_interval r) 5) else None
      | _, _ => None
      end
  | _ => None
  end.

Definition last_reply (url : Url) (w : Which) (es : list CommsEvent) : option (Z * Z) := last (omap (reply_of url w) es).

(** The announce that an event ends: a failure when the error comes back, a
    success when the peers of the last reply are all sent. *)
Definition verdict (url : Url) (before : list CommsEvent) (e : CommsEvent) : option Announced :=
  if bool_decide (event_url e = Some url) then
    match e with
    | EHttpReply _ _ (Err error) | EUdpReply _ _ _ (Err error) => Some (Failed error)
    | EDone _ w now => '(n, secs) ← last_reply url w before; Some (Succeeded now n secs)
    | _ => None
    end
  else None.

Fixpoint announced_after (url : Url) (before es : list CommsEvent) : option Announced :=
  match es with
  | [] => None
  | e :: es => option_or (announced_after url (before ++ [e]) es) (verdict url before e)
  end.

(** The last announce to a tracker that ended. *)
Definition last_announce (url : Url) (es : list CommsEvent) : option Announced := announced_after url [] es.

Definition wakes (url : Url) (e : CommsEvent) : bool :=
  match e with ERound u _ | EResolve u _ _ => bool_decide (u = url) | _ => false end.

(** The status of a tracker, which was [st0] when its task started. *)
Definition status_agrees (st0 : TrackerStatus) (url : Url) (es : list CommsEvent) (st : TrackerStatus) : Prop :=
  match last_announce url es with
  | Some (Failed error) => ts_state st = AnnounceError /\ ts_last_error st = Some error
  | Some (Succeeded now n secs) => ts_state st = Working /\ ts_last_error st = None /\ ts_last_announce_unix st = Some now /\
      ts_peers_returned st = Some n /\ ts_interval_secs st = Some secs
  | None => ts_last_error st = ts_last_error st0 /\
      ts_state st = if bool_decide (ts_state st0 = NotContacted) && existsb (wakes url) es then Updating else ts_state st0
  end.

(** A request whose peers are being sent has the last reply. *)
Definition call_told (url : Url) (w : Which) (es : list CommsEvent) (c : Call) : Prop :=
  match c with Sending _ _ _ n secs => last_reply url w es = Some (n, secs) | _ => True end.
Definition task_told (url : Url) (es : list CommsEvent) (t : TrackerTask) : Prop :=
  match t with
  | HttpCall _ _ c => call_told url V4 es c /\ call_told url V6 es c
  | UdpCall _ _ r4 r6 => call_told url V4 es r4 /\ call_told url V6 es r6
  | _ => True
  end.

Record told_ok (s : TrackerStatusRegistry) (es : list CommsEvent) (c : Comms) : Prop := {
  tk_task : map_Forall (fun url => task_told url es) (cm_tasks c);
  tk_status : forall url, is_Some (cm_tasks c !! url) ->
    exists st0 st, s !! url = Some st0 /\ cm_status c !! url = Some st /\ status_agrees st0 url es st;
  tk_other : forall url, cm_tasks c !! url = None -> cm_status c !! url = s !! url;
}.

Lemma option_or_assoc {A} (a b c : option A) : option_or (option_or a b) c = option_or a (option_or b c).
Proof. by destruct a. Qed.

Lemma announced_snoc url e es : forall before, announced_after url before (es ++ [e]) =
  option_or (verdict url (before ++ es) e) (announced_after url before es).
Proof.
  induction es as [|x es IH]; intros before; cbn [app announced_after].
  - rewrite app_nil_r. by destruct (verdict url before e).
  - by rewrite IH, option_or_assoc, <- app_assoc.
Qed.

Lemma last_announce_snoc url es e : last_announce url (es ++ [e]) = option_or (verdict url es e) (last_announce url es).
Proof. apply announced_snoc. Qed.

Lemma last_reply_snoc url w es e : last_reply url w (es ++ [e]) = option_or (reply_of url w e) (last_reply url w es).
Proof.
  unfold last_reply. rewrite omap_app, last_app. cbn. by destruct (reply_of url w e).
Qed.

Lemma agrees_quiet st0 url es e st : verdict url es e = None -> wakes url e = false ->
  status_agrees st0 url es st -> status_agrees st0 url (es ++ [e]) st.
Proof.
  intros Hv Hw. unfold status_agrees. rewrite last_announce_snoc, Hv. cbn [option_or].
  rewrite existsb_app. cbn. by rewrite Hw, !orb_false_r.
Qed.

Lemma agrees_woken st0 url es e st : verdict url es e = None -> wakes url e = true -> status_agrees st0 url es st ->
  status_agrees st0 url (es ++ [e]) (if bool_decide (ts_state st = NotContacted) then set_announce_state st Updating (ts_last_error st) else st).
Proof.
  intros Hv Hw. unfold status_agrees. rewrite last_announce_snoc, Hv. cbn [option_or].
  destruct (last_announce url es) as [[err|now n secs]|].
  - intros [Es El]. by rewrite bool_decide_false by congruence.
  - intros [Es El]. by rewrite bool_decide_false by congruence.
  - rewrite existsb_app. cbn. rewrite Hw, orb_true_r, andb_true_r. intros [El Es].
    destruct (bool_decide (ts_state st0 = NotContacted)) eqn:E0; cbn [andb] in Es.
    + destruct (existsb _ es); rewrite Es; [by rewrite bool_decide_false|]. by rewrite E0.
    + by rewrite Es, E0.
Qed.

Lemma with_entry_self url f s st : s !! url = Some st -> with_entry url f s !! url = Some (f st).
Proof. intros E. unfold with_entry. by rewrite lookup_insert_eq, E. Qed.
Lemma with_entry_other url f s u : u <> url -> with_entry url f s !! u = s !! u.
Proof. intros Hne. unfold with_entry. by rewrite lookup_insert_ne. Qed.

(** What an event tells the registry about the tracker. *)
Record step_tells (url : Url) (es : list CommsEvent) (e : CommsEvent) (s s' : TrackerStatusRegistry) (t' : TrackerTask) : Prop := {
  st_self : forall st0 st, s !! url = Some st -> status_agrees st0 url es st ->
    exists st', s' !! url = Some st' /\ status_agrees st0 url (es ++ [e]) st';
  st_told : task_told url (es ++ [e]) t';
  st_other : forall u, u <> url -> s' !! u = s !! u;
}.

Lemma tells_quiet url es e s t' : verdict url es e = None -> wakes url e = false -> task_told url (es ++ [e]) t' ->
  step_tells url es e s s t'.
Proof. intros Hv Hw Ht. split; [|done|done]. intros st0 st E Ha. exists st. split; [done|]. by apply agrees_quiet. Qed.

Lemma tells_woken url es e s t' : verdict url es e = None -> wakes url e = true -> task_told url (es ++ [e]) t' ->
  step_tells url es e s (record_updating url s) t'.
Proof.
  intros Hv Hw Ht. split; [|done|intros u; apply with_entry_other]. intros st0 st E Ha. eexists.
  split; [by apply with_entry_self|]. by apply agrees_woken.
Qed.

Lemma tells_error url es e s err t' : verdict url es e = Some (Failed err) -> task_told url (es ++ [e]) t' ->
  step_tells url es e s (record_error url err s) t'.
Proof.
  intros Hv Ht. split; [|done|intros u; apply with_entry_other]. intros st0 st E Ha. eexists.
  split; [by apply with_entry_self|]. unfold status_agrees. by rewrite last_announce_snoc, Hv.
Qed.

Lemma tells_success url w es now c s secs s' t' : call_told url w es c -> call_end now url c s = Some (secs, s') ->
  task_told url (es ++ [EDone url w now]) t' -> step_tells url es (EDone url w now) s s' t'.
Proof.
  intros Hc. unfold call_end. destruct c as [|[|p ps] se le n x|]; [done| |done|done]. intros [= -> <-] Ht.
  split; [|done|intros u; apply with_entry_other]. intros st0 st E Ha. eexists. split; [by apply with_entry_self|].
  unfold status_agrees. rewrite last_announce_snoc. unfold verdict. cbn [event_url]. rewrite bool_decide_true by done.
  cbn [call_told] in Hc. by rewrite Hc.
Qed.

Lemma call_told_keep url w es e c : reply_of url w e = None -> call_told url w es c -> call_told url w (es ++ [e]) c.
Proof. intros Hr. destruct c; cbn; try done. by rewrite last_reply_snoc, Hr. Qed.

Lemma task_told_keep url es e t : (forall w, reply_of url w e = None) -> task_told url es t -> task_told url (es ++ [e]) t.
Proof. intros Hr. destruct t; cbn; try done; intros [H1 H2]; split; by apply call_told_keep. Qed.

Lemma call_send_told url w es c ch c' ch' : call_send c ch = Some (c', ch') -> call_told url w es c -> call_told url w es c'.
Proof. unfold call_send. destruct c as [|[|p ps] se le n x|]; [done|done| |done]. destruct (_ <? _)%nat; [|done]. by intros [= <- <-]. Qed.

Lemma http_tells a url es wc ev c s ch e t' s' ch' : event_url e = Some url -> task_told url es (HttpCall wc ev c) ->
  task_step a (HttpCall wc ev c) s ch e = Some (t', s', ch') -> step_tells url es e s s' t'.
Proof.
  intros Hu [T4 T6]. destruct e as [u st|u st reply|u h lk|u w st reply|u w|u w now|u|]; cbn [task_step http_task_step]; try done; injection Hu as ->.
  - destruct c; [|done|done]. destruct reply as [r|err]; intros [= <- <- <-].
    + apply tells_quiet; [by unfold verdict; case_bool_decide|done|]. cbn. rewrite !last_reply_snoc. cbn. by rewrite !bool_decide_true.
    + apply tells_error; [|done]. unfold verdict. by rewrite bool_decide_true.
  - destruct (call_send c ch) as [[c' ch1]|] eqn:E; [|done]. intros [= <- <- <-].
    apply tells_quiet; [by unfold verdict; case_bool_decide|done|]. apply task_told_keep; [done|]. split; by eapply call_send_told.
  - destruct (call_end now url c s) as [[secs s1]|] eqn:E; [|done]. intros [= <- <- <-]. eapply (tells_success url w _ now c); [by destruct w|done|done].
Qed.

Lemma told_set url es sl addrs r4 r6 w c : task_told url es (UdpCall sl addrs r4 r6) -> call_told url w es c ->
  task_told url es (udp_call sl addrs r4 r6 w c).
Proof. intros [T4 T6] Hc. by destruct w. Qed.

Lemma udp_tells a url es sl addrs r4 r6 s ch e t' s' ch' : event_url e = Some url -> task_told url es (UdpCall sl addrs r4 r6) ->
  task_step a (UdpCall sl addrs r4 r6) s ch e = Some (t', s', ch') -> step_tells url es e s s' t'.
Proof.
  intros Hu HT. assert (Hw : forall w, call_told url w es (get_call w r4 r6)) by (destruct HT; by intros []).
  destruct e as [u st|u st reply|u h lk|u w st reply|u w|u w now|u|]; cbn [task_step udp_task_step]; try done; injection Hu as ->.
  - destruct (get_call w r4 r6) eqn:Ec; [|by destruct reply..]. destruct reply as [r|err]; intros [= <- <- <-].
    + apply tells_quiet; [by unfold verdict; case_bool_decide|done|].
      destruct HT as [T4 T6]. destruct w; cbn [udp_call task_told]; (split; [try by apply call_told_keep|try by apply call_told_keep]);
        cbn [call_told udp_reply]; rewrite last_reply_snoc; cbn; by rewrite bool_decide_true.
    + apply tells_error; [unfold verdict; by rewrite bool_decide_true|]. apply task_told_keep; [done|]. by apply told_set.
  - destruct (call_send (get_call w r4 r6) ch) as [[c' ch1]|] eqn:E; [|done]. intros [= <- <- <-].
    apply tells_quiet; [by unfold verdict; case_bool_decide|done|]. apply task_told_keep; [done|]. apply told_set; [done|].
    eapply call_send_told; [done|]. apply Hw.
  - destruct (call_end now url (get_call w r4 r6) s) as [[secs s1]|] eqn:E; [|done]. intros [= <- <- <-].
    eapply (tells_success url w); [apply Hw|done|]. apply task_told_keep; [done|]. by apply told_set.
  - destruct r4, r6; try done. intros [= <- <- <-]. apply tells_quiet; [by unfold verdict; case_bool_decide|done|done].
Qed.

Lemma task_step_tells a url es t s ch e t' s' ch' : event_url e = Some url -> task_told url es t ->
  task_step a t s ch e = Some (t', s', ch') -> step_tells url es e s s' t'.
Proof.
  intros Hu HT. destruct t as [first wc secs|wc ev c|sl prev|sl addrs r4 r6]; [|by apply http_tells| |by apply udp_tells].
  - destruct e as [u st| | | | | | |]; cbn [task_step http_task_step]; try done. injection Hu as ->. intros [= <- <- <-].
    apply tells_woken; [by unfold verdict; case_bool_decide|by cbn; case_bool_decide|done].
  - destruct e as [| |u h lk| | | | |]; cbn [task_step udp_task_step]; try done. injection Hu as ->.
    destruct (option_or _ prev) as [addrs|]; intros [= <- <- <-];
      (apply tells_woken; [by unfold verdict; case_bool_decide|by cbn; case_bool_decide|by try destruct addrs]).
Qed.

Lemma agrees_elsewhere st0 url es e st : event_url e <> Some url -> status_agrees st0 url es st -> status_agrees st0 url (es ++ [e]) st.
Proof.
  intros Hu. apply agrees_quiet; [unfold verdict; by rewrite bool_decide_false|].
  destruct e; cbn in *; try done; apply bool_decide_false; congruence.
Qed.

Lemma told_elsewhere url es e t : event_url e <> Some url -> task_told url es t -> task_told url (es ++ [e]) t.
Proof.
  intros Hu. apply task_told_keep. intros w. destruct e as [|u st []| |u w' st []| | | |]; cbn in *; try done;
    [|destruct w, w'; try done]; rewrite bool_decide_false; congruence.
Qed.

Lemma comms_step_told a s es c e c' : told_ok s es c -> comms_step a c e = Some c' -> told_ok s (es ++ [e]) c'.
Proof.
  intros [Hk Hs Ho]. unfold comms_step. destruct (event_url e) as [url|] eqn:Eu.
  - destruct (cm_tasks c !! url) as [t|] eqn:Et; [|done]. cbn [mbind option_bind].
    destruct (task_step a t (cm_status c) (cm_channel c) e) as [[[t' s'] ch']|] eqn:Es; [|done]. intros [= <-].
    destruct (task_step_tells a url es t _ _ e t' s' ch' Eu (Hk _ _ Et) Es) as [T1 T2 T3].
    assert (Hne : forall u, u <> url -> event_url e <> Some u) by (intros u Hu; rewrite Eu; congruence).
    split; cbn [cm_tasks cm_status].
    + intros u t1. destruct (decide (u = url)) as [->|Hu]; [rewrite lookup_insert_eq; by intros [= <-]|].
      rewrite lookup_insert_ne by done. intros E. apply told_elsewhere; [by apply Hne|by apply Hk].
    + intros u Hu. destruct (decide (u = url)) as [->|Hd].
      * destruct (Hs url) as (st0 & st & E0 & E1 & Ha); [by rewrite Et|]. destruct (T1 st0 st E1 Ha) as (st' & E' & Ha'). by exists st0, st'.
      * rewrite lookup_insert_ne in Hu by done. destruct (Hs u Hu) as (st0 & st & E0 & E1 & Ha). exists st0, st.
        rewrite T3 by done. split_and!; [done..|]. apply agrees_elsewhere; [by apply Hne|done].
    + intros u Hu. apply lookup_insert_None in Hu as [Hu Hd]. rewrite T3 by done. by apply Ho.
  - destruct (cm_channel c) as [|addr ch] eqn:Ech; [done|]. intros [= <-]. split; cbn [cm_tasks cm_status].
    + intros u t1 E. apply told_elsewhere; [by rewrite Eu|by apply Hk].
    + intros u Hu. destruct (Hs u Hu) as (st0 & st & E0 & E1 & Ha). exists st0, st. split_and!; [done..|].
      apply agrees_elsewhere; [by rewrite Eu|done].
    + apply Ho.
Qed.

Lemma comms_run_told a s es : forall done c c', told_ok s done c -> comms_run a c es = Some c' -> told_ok s (done ++ es) c'.
Proof.
  induction es as [|e es IH]; intros d c c' Hc; cbn [comms_run]; [intros [= <-]; by rewrite app_nil_r|].
  destruct (comms_step a c e) as [c1|] eqn:E; [|by intros]. cbn [mbind option_bind]. intros Hr.
  replace (d ++ e :: es) with ((d ++ [e]) ++ es) by (by rewrite <- app_assoc). eapply IH; [|exact Hr]. by eapply comms_step_told.
Qed.


(** ** The events of an HTTP tracker *)

(** The statistics at the rounds of a monitor. *)
Definition round_of (url : Url) (e : CommsEvent) : option TrackerCommsStats :=
  match e with ERound u st => if bool_decide (u = url) then Some st else None | _ => None end.
Definition rounds (url : Url) (es : list CommsEvent) : list TrackerCommsStats := omap (round_of url) es.

(** What is announced in a round, from the rounds before it. *)
Definition event_after (before : list TrackerCommsStats) (s : TrackerCommsStats) : option TrackerRequestEvent :=
  match last before with
  | None => Some Started
  | Some p =>
      match st_torrent_state s with
      | SPaused => Some Stopped
      | _ => if is_completed s && negb (is_completed p) then Some Completed else None
      end
  end.

Definition task_rounds (ss : list TrackerCommsStats) (t : TrackerTask) : Prop :=
  match t with
  | HttpSleep first was_completed _ => first = match last ss with None => true | Some _ => false end /\ was_completed = from_option is_completed false (last ss)
  | HttpCall was_completed event _ => exists before s, ss = before ++ [s] /\ was_completed = is_completed s /\ event = event_after before s
  | _ => True
  end.

Lemma http_event_after ss first wc s : first = match last ss with None => true | Some _ => false end -> wc = from_option is_completed false (last ss) ->
  http_event first wc s = event_after ss s.
Proof. intros -> ->. unfold http_event, event_after. destruct (last ss) as [p|]; cbn; done. Qed.

Lemma http_task_rounds a t s ch e t' s' ch' ss url : event_url e = Some url -> task_step a t s ch e = Some (t', s', ch') ->
  task_rounds ss t -> task_rounds (ss ++ option_list (round_of url e)) t'.
Proof.
  intros Hu. destruct t as [first wc secs|wc ev c|sl prev|sl addrs r4 r6].
  - destruct e as [u st| | | | | | |]; cbn [task_step http_task_step udp_task_step]; try done. intros [= <- <- <-] [Hf Hw]. injection Hu as ->.
    cbn [round_of]. rewrite bool_decide_true by done. exists ss, st. split_and!; [done|done|by apply http_event_after].
  - assert (Hr : forall c', task_rounds ss (HttpCall wc ev c) -> task_rounds ss (HttpCall wc ev c')) by done.
    destruct e as [u st|u st reply|u h lk|u w st reply|u w|u w now|u|]; cbn [task_step http_task_step udp_task_step]; try done; cbn [round_of option_list]; rewrite app_nil_r.
    + destruct c; [|done|done]. destruct reply; by intros [= <- <- <-].
    + destruct (call_send c ch) as [[c' ch1]|]; [|done]. by intros [= <- <- <-].
    + destruct (call_end now u c s) as [[secs s1]|]; [|done]. intros [= <- <- <-] (before & st & -> & -> & _).
      cbn [task_rounds]. by rewrite last_snoc.
  - destruct e; cbn [task_step http_task_step udp_task_step]; try done. by destruct (option_or _ prev); intros [= <- <- <-].
  - destruct e as [u st|u st reply|u h lk|u w st reply|u w|u w now|u|]; cbn [task_step http_task_step udp_task_step]; try done.
    + destruct (get_call w r4 r6); destruct reply; try done; intros [= <- <- <-]; by destruct w.
    + destruct (call_send _ ch) as [[c' ch1]|]; [|done]. intros [= <- <- <-]; by destruct w.
    + destruct (call_end _ _ _ s) as [[secs s1]|]; [|done]. intros [= <- <- <-]; by destruct w.
    + destruct r4, r6; try done; by intros [= <- <- <-].
Qed.

Lemma comms_step_rounds a url es c e c' : comms_step a c e = Some c' ->
  (forall t, cm_tasks c !! url = Some t -> task_rounds (rounds url es) t) ->
  forall t, cm_tasks c' !! url = Some t -> task_rounds (rounds url (es ++ [e])) t.
Proof.
  unfold comms_step. intros E Hc t. unfold rounds. rewrite omap_app. cbn [omap list_omap].
  destruct (event_url e) as [u|] eqn:Eu.
  - destruct (cm_tasks c !! u) as [t0|] eqn:Et; [|done]. cbn [mbind option_bind] in E.
    destruct (task_step a t0 _ _ e) as [[[t1 s1] ch1]|] eqn:Es; [|done]. injection E as <-. cbn [cm_tasks].
    destruct (decide (u = url)) as [->|Hne].
    + rewrite lookup_insert_eq. intros [= <-]. pose proof (http_task_rounds _ _ _ _ _ _ _ _ _ _ Eu Es (Hc _ Et)) as Hr.
      by destruct (round_of url e).
    + rewrite lookup_insert_ne by done. intros Ht. assert (round_of url e = None) as ->; [|rewrite app_nil_r; by apply Hc].
      destruct e as [v st| | | | | | |]; try done. injection Eu as ->. cbn. by rewrite bool_decide_false.
  - destruct (cm_channel c); [done|]. injection E as <-. destruct e; try done. cbn. rewrite app_nil_r. apply Hc.
Qed.

(** What an HTTP tracker is told: started in the first round, stopped whenever
    the torrent is paused, completed in a round that finds it complete right after
    one that did not, and nothing else. *)
Theorem http_event_sequence a trackers status es c url wc ev call : comms_run a (comms_new trackers status) es = Some c ->
  cm_tasks c !! url = Some (HttpCall wc ev call) -> exists before s, rounds url es = before ++ [s] /\ ev = event_after before s.
Proof.
  assert (Hrun : forall es done c0 c, (forall t, cm_tasks c0 !! url = Some t -> task_rounds (rounds url done) t) ->
    comms_run a c0 es = Some c -> forall t, cm_tasks c !! url = Some t -> task_rounds (rounds url (done ++ es)) t).
  { clear. induction es as [|e es IH]; intros d c0 c H0; cbn [comms_run]; [intros [= <-]; by rewrite app_nil_r|].
    destruct (comms_step a c0 e) as [c1|] eqn:E; [|by intros]. cbn [mbind option_bind]. intros Hr.
    replace (d ++ e :: es) with ((d ++ [e]) ++ es) by (by rewrite <- app_assoc). eapply IH; [|exact Hr]. by eapply comms_step_rounds. }
  intros Hr Ht. destruct (Hrun es [] (comms_new trackers status) c) with (t := HttpCall wc ev call) as (before & s & E & _ & Ev); [|done|done|by exists before, s].
  intros t Hx. apply elem_of_list_to_map_2, list_elem_of_fmap in Hx as (t' & [= _ ->] & _). by destruct t'.
Qed.

(** ** Runs *)

Definition ex_announcer : Announcer := mkAnnouncer [] [] None None 7.
Definition ex_scheme (u : Url) : list Z := if bool_decide (u = [1]) then key "http" else key "wss".
Definition ex_url : Url := [1].
Definition ex_status : TrackerStatusRegistry := (start ex_scheme true [[1]; [2]] ∅).2.
Definition ex_stats (down : Z) (st : TrackerCommsStatsState) : TrackerCommsStats := mkStats 0 down 100 st.

Definition ex_events : list CommsEvent :=
  [ERound ex_url (ex_stats 0 SLive); EHttpReply ex_url (ex_stats 0 SLive) (Err [5]);
   EHttpReply ex_url (ex_stats 1 SLive) (Ok ex_response); ESend ex_url V4; ESend ex_url V4; EYield].


(** A tracker that asks for no interval is asked again at once, forever. *)
Lemma http_interval_zero : exists c,
  comms_run ex_announcer (comms_new [Http ex_url] ex_status)
    [ERound ex_url (ex_stats 0 SLive); EHttpReply ex_url (ex_stats 0 SLive) (Ok (mkTrackerResponse None 0 0 None None 0 (CompactPeers []) (DictPeers [])));
     EDone ex_url V4 100] = Some c /\ cm_tasks c !! ex_url = Some (HttpSleep false false 0).
Proof. eexists. split; vm_compute; reflexivity. Qed.

(** A torrent that is complete in the first round that sees it paused is never
    announced as completed, and one that is resumed not as started. *)
Lemma completed_while_paused (before : list TrackerCommsStats) p s :
  is_completed p = true -> st_torrent_state p = SPaused -> st_torrent_state s = SLive -> before <> [] ->
  event_after before p = Some Stopped /\ event_after (before ++ [p]) s = None.
Proof.
  intros Hp Hs Hl Hb. unfold event_after. rewrite last_snoc, Hs, Hl, Hp, andb_false_r. split; [|done].
  destruct (last before) eqn:E; [done|]. by apply last_None in E.
Qed.

(** The snapshot has every tracker once, in the order of their URLs. *)
Lemma snapshot_sorted r : StronglySorted (fun a b => url_leb a b = true) (snapshot r) /\ snapshot r ≡ₚ snd <$> map_to_list r.
Proof.
  assert (Hanti : forall a b, bytes_ltb a b = true -> bytes_ltb b a = false).
  { intros a b Hab. destruct (bytes_ltb b a) eqn:E; [|done]. pose proof (bytes_ltb_trans _ _ _ Hab E) as H. by rewrite bytes_ltb_irrefl in H. }
  split; [|apply sort_by_perm]. apply sort_by_sorted; unfold url_leb.
  - intros a b H%negb_false_iff. by rewrite (Hanti _ _ H).
  - intros a b c H1%negb_true_iff H2%negb_true_iff. apply negb_true_iff. destruct (bytes_ltb (ts_url c) (ts_url a)) eqn:E; [|done].
    destruct (bytes_ltb (ts_url a) (ts_url b)) eqn:E2.
    + by rewrite (bytes_ltb_trans _ _ _ E E2) in H2.
    + rewrite (bytes_ltb_total _ _ E2 H1) in E. by rewrite H2 in E.
Qed.
