(* ===== verification/PeerStore.v ===== *)
(** * PeerStore: the peers the DHT node remembers for others

    Models [crates/librtbit-dht/src/peer_store.rs]: tokens, announced peers and
    their garbage collection.  Random tokens and the clock are arguments; times
    are in nanoseconds.  The iteration order of the concurrent map is the
    argument [ord]. *)

From S2P Require Import Prelude HashId Compact.

Record StoredToken := mkStoredToken {
  tk_token : list Z;
  tk_node_id : Id;
  tk_addr : SocketAddr;
  tk_time : Z;
}.

Record StoredPeer := mkStoredPeer {
  sp_addr : SocketAddr;
  sp_time : Z;
}.

Record PeerStore := mkPeerStore {
  self_id : Id;
  max_remembered_tokens : Z;
  max_remembered_peers : Z;
  max_distance : Id;
  tokens : list StoredToken;
  peers : gmap Id (list StoredPeer);
  peers_len : Z;
}.

(** The fields of [AnnouncePeer] that are used. *)
Record AnnouncePeer := mkAnnouncePeer {
  an_id : Id;
  an_implied_port : Z;
  an_info_hash : Id;
  an_port : Z;
  an_token : list Z;
}.

Inductive Want := WantV4 | WantV6 | WantBoth | WantNone.

Definition with_tokens (s : PeerStore) (t : list StoredToken) : PeerStore :=
  mkPeerStore (self_id s) (max_remembered_tokens s) (max_remembered_peers s) (max_distance s) t (peers s)
    (peers_len s).

Definition with_peers (s : PeerStore) (p : gmap Id (list StoredPeer)) (n : Z) : PeerStore :=
  mkPeerStore (self_id s) (max_remembered_tokens s) (max_remembered_peers s) (max_distance s) (tokens s) p n.

(** [00000fff...]: 20 bits of zeros. *)
Definition default_max_distance : Id := [0; 0; 15] ++ replicate 17 255.

Definition store_new (self_id : Id) : PeerStore := mkPeerStore self_id 1000 1000 default_max_distance [] ∅ 0.

Definition gen_token_for (now : Z) (random : list Z) (node_id : Id) (addr : SocketAddr) (s : PeerStore) :
    list Z * PeerStore :=
  let ts := tokens s ++ [mkStoredToken random node_id addr now] in
  let ts := if max_remembered_tokens s <? Z.of_nat (length ts) then drop 1 ts else ts in
  (random, with_tokens s ts).

Definition token_matches (announce : AnnouncePeer) (addr : SocketAddr) (t : StoredToken) : bool :=
  bool_decide (tk_token t = an_token announce) && bool_decide (tk_addr t = addr) &&
  bool_decide (tk_node_id t = an_id announce).

Definition set_port (a : SocketAddr) (port : Z) : SocketAddr := mkSocketAddr (sa_ipv6 a) (sa_ip a) port.

(** [iter_mut().find(|s| s.addr == addr)] with the update of its time. *)
Fixpoint refresh (now : Z) (addr : SocketAddr) (l : list StoredPeer) : option (list StoredPeer) :=
  match l with
  | [] => None
  | p :: l =>
      if bool_decide (sp_addr p = addr) then Some (mkStoredPeer (sp_addr p) now :: l)
      else (cons p) <$> refresh now addr l
  end.

Definition store_peer (now : Z) (announce : AnnouncePeer) (addr : SocketAddr) (s : PeerStore) :
    bool * PeerStore :=
  if id_ltb (max_distance s) (distance (an_info_hash announce) (self_id s)) then (false, s)
  else if negb (existsb (token_matches announce addr) (tokens s)) then (false, s)
  else
    let addr := if an_implied_port announce =? 0 then set_port addr (an_port announce) else addr in
    let full := max_remembered_peers s <=? peers_len s in
    let hash := an_info_hash announce in
    match peers s !! hash with
    | Some l =>
        match refresh now addr l with
        | Some l => (true, with_peers s (<[hash := l]> (peers s)) (peers_len s))
        | None =>
            if full then (false, s)
            else (true, with_peers s (<[hash := l ++ [mkStoredPeer addr now]]> (peers s)) (wrap32 (peers_len s + 1)))
        end
    | None =>
        if full then (false, s)
        else (true, with_peers s (<[hash := [mkStoredPeer addr now]]> (peers s)) (wrap32 (peers_len s + 1)))
    end.

Definition wanted (want : Want) (a : SocketAddr) : bool :=
  match want, sa_ipv6 a with
  | WantV6, true | WantBoth, true | WantV4, false | WantBoth, false => true
  | _, _ => false
  end.

Definition get_for_info_hash (info_hash : Id) (want : Want) (s : PeerStore) : list SocketAddr :=
  match peers s !! info_hash with
  | Some l => List.filter (wanted want) (sp_addr <$> l)
  | None => []
  end.

(** ** Garbage collection *)

Definition MAX_PEERS_PER_INFO_HASH : nat := 100.
Definition PEER_TTL : Z := 15 * 60 * 1000000000.
Definition TOKEN_TTL : Z := 10 * 60 * 1000000000.

(** One entry: stale peers are removed, then the oldest beyond the cap. *)
Definition trim_entry (cutoff : Z) (l : list StoredPeer) : list StoredPeer :=
  let l := List.filter (fun p => cutoff <? sp_time p) l in
  if (MAX_PEERS_PER_INFO_HASH <? length l)%nat
  then take MAX_PEERS_PER_INFO_HASH (sort_by (fun a b => sp_time b <=? sp_time a) l)
  else l.

(** [self.peers.iter().map(|e| e.value().len() as u32).sum()]. *)
Definition count_peers (m : gmap Id (list StoredPeer)) : Z :=
  wrap32 (sumZ ((fun e => wrap32 (Z.of_nat (length e.2))) <$> map_to_list m)).

(** [iter().map(|p| p.time).min()]. *)
Definition oldest (l : list StoredPeer) : option Z :=
  match l with [] => None | p :: l => Some (foldl (fun t p => Z.min t (sp_time p)) (sp_time p) l) end.

(** [while !peers.is_empty() && evicted < to_evict { peers.remove(0) .. }]. *)
Fixpoint evict_front (l : list StoredPeer) (evicted to_evict : Z) : list StoredPeer * Z :=
  match l with
  | [] => ([], evicted)
  | p :: l' => if evicted <? to_evict then evict_front l' (evicted + 1) to_evict else (l, evicted)
  end.

Fixpoint evict_loop (entries : list (Id * Z)) (evicted to_evict : Z) (m : gmap Id (list StoredPeer)) :
    gmap Id (list StoredPeer) :=
  match entries with
  | [] => m
  | (hash, _) :: entries =>
      if to_evict <=? evicted then m
      else
        match m !! hash with
        | Some l =>
            let '(l, evicted) := evict_front (sort_by (fun a b => sp_time a <=? sp_time b) l) evicted to_evict in
            evict_loop entries evicted to_evict
              (if (length l =? 0)%nat then delete hash m else <[hash := l]> m)
        | None => evict_loop entries evicted to_evict m
        end
  end.

Section gc.
Variable ord : gmap Id (list StoredPeer) -> list (Id * list StoredPeer).

Definition entries_by_oldest (m : gmap Id (list StoredPeer)) : list (Id * Z) :=
  sort_by (fun a b => a.2 <=? b.2) (omap (fun e => pair e.1 <$> oldest e.2) (ord m)).

Definition garbage_collect_peers (now : Z) (s : PeerStore) : PeerStore :=
  let token_cutoff := now - TOKEN_TTL in
  let s := with_tokens s (List.filter (fun t => token_cutoff <? tk_time t) (tokens s)) in
  let m := trim_entry (now - PEER_TTL) <$> peers s in
  let m := filter (fun e => e.2 <> []) m in
  let actual_count := count_peers m in
  let max := max_remembered_peers s in
  let m :=
    if max <? actual_count then evict_loop (entries_by_oldest m) 0 (actual_count - max) m else m in
  with_peers s m (count_peers m).
End gc.

(** ** Counting *)

(** The number of stored peers. *)
Definition total (m : gmap Id (list StoredPeer)) : Z := sumZ ((fun e => Z.of_nat (length e.2)) <$> map_to_list m).

Lemma total_empty : total ∅ = 0.
Proof. unfold total. by rewrite map_to_list_empty. Qed.

Lemma total_insert_new m hash l : m !! hash = None -> total (<[hash := l]> m) = Z.of_nat (length l) + total m.
Proof.
  intros Hn. unfold total. rewrite (sumZ_perm _ _ (fmap_Permutation _ _ _ (map_to_list_insert m hash l Hn))). done.
Qed.

Lemma total_delete m hash l : m !! hash = Some l -> total m = Z.of_nat (length l) + total (delete hash m).
Proof.
  intros Hl. rewrite <- (insert_delete_id m hash l Hl) at 1. apply total_insert_new. apply lookup_delete_eq.
Qed.

Lemma total_insert m hash l l' : m !! hash = Some l ->
  total (<[hash := l']> m) = total m - Z.of_nat (length l) + Z.of_nat (length l').
Proof.
  intros Hl. rewrite <- insert_delete_eq. rewrite total_insert_new by apply lookup_delete_eq.
  rewrite (total_delete m hash l Hl). lia.
Qed.

Lemma total_nonneg m : 0 <= total m.
Proof. apply sumZ_nonneg, Forall_fmap, Forall_forall. intros e _. simpl. lia. Qed.

Lemma length_le_total m hash l : m !! hash = Some l -> Z.of_nat (length l) <= total m.
Proof. intros Hl. rewrite (total_delete m hash l Hl). pose proof (total_nonneg (delete hash m)). lia. Qed.

Lemma count_peers_total m : total m < U32 -> count_peers m = total m.
Proof.
  intros Ht. unfold count_peers. pose proof (total_nonneg m).
  rewrite (sumZ_fmap_ext _ (fun e => Z.of_nat (length e.2))).
  - apply wrap32_small. fold (total m). lia.
  - intros [hash l] Hin%elem_of_map_to_list. pose proof (length_le_total _ _ _ Hin). simpl. apply wrap32_small. lia.
Qed.

(** ** The newest peers of a list *)

(** [kept] are peers of [l], and none of the others is newer. *)
Definition newest (l kept : list StoredPeer) : Prop :=
  exists dropped, l ≡ₚ kept ++ dropped /\
    forall p q, p ∈ kept -> q ∈ dropped -> sp_time q <= sp_time p.

Lemma newest_refl l : newest l l.
Proof. exists []. rewrite app_nil_r. split; [done|]. intros ? ? _ Hq. by apply not_elem_of_nil in Hq. Qed.

Lemma newest_trans l1 l2 l3 : newest l1 l2 -> newest l2 l3 -> newest l1 l3.
Proof.
  intros (d1 & P1 & H1) (d2 & P2 & H2). exists (d2 ++ d1). split; [by rewrite P1, P2, app_assoc|].
  intros p q Hp [Hq|Hq]%elem_of_app; [by apply H2|]. apply H1; [|done]. rewrite P2. set_solver.
Qed.

Lemma sorted_cut {A} (R : A -> A -> Prop) n l : StronglySorted R l ->
  forall p q, p ∈ take n l -> q ∈ drop n l -> R p q.
Proof.
  intros Hs. revert n. induction Hs as [|x l Hs IH Hx]; intros n p q Hp Hq.
  { rewrite take_nil in Hp. by apply not_elem_of_nil in Hp. }
  destruct n as [|n]; [by apply not_elem_of_nil in Hp|]. simpl in Hp, Hq.
  apply elem_of_cons in Hp as [->|Hp]; [|by apply (IH n)].
  rewrite Forall_forall in Hx. apply Hx. by eapply (elem_of_submseteq _ _ _ Hq), submseteq_drop.
Qed.

Lemma trim_newest cutoff l : let fresh := List.filter (fun p => cutoff <? sp_time p) l in
  newest fresh (trim_entry cutoff l) /\ (length (trim_entry cutoff l) <= 100)%nat /\
  ((length fresh <= 100)%nat -> trim_entry cutoff l = fresh).
Proof.
  intros fresh. unfold trim_entry. fold fresh. unfold MAX_PEERS_PER_INFO_HASH.
  destruct (Nat.ltb_spec 100 (length fresh)) as [Hlong|Hshort].
  2: { split_and!; [apply newest_refl|lia|done]. }
  set (leb := fun a b => sp_time b <=? sp_time a). split_and!; [|rewrite length_take; lia|lia].
  exists (drop 100 (sort_by leb fresh)). split; [by rewrite take_drop, sort_by_perm|].
  assert (Hs : StronglySorted (fun a b => leb a b = true) (sort_by leb fresh)).
  { apply sort_by_sorted; unfold leb; intros; rewrite ?Z.leb_le, ?Z.leb_gt in *; lia. }
  intros p q Hp Hq. pose proof (sorted_cut _ 100 _ Hs p q Hp Hq) as Hle. by apply Z.leb_le in Hle.
Qed.

Lemma evict_front_spec l evicted to_evict l' evicted' : evicted <= to_evict ->
  evict_front l evicted to_evict = (l', evicted') ->
  exists n, l' = drop n l /\ evicted' = evicted + Z.of_nat n /\ (n <= length l)%nat /\ evicted' <= to_evict /\
    (evicted' < to_evict -> l' = []).
Proof.
  revert evicted. induction l as [|p l IH]; intros evicted Hle He; cbn [evict_front] in He.
  { injection He as <- <-. exists 0%nat. simpl. split_and!; [done|lia|lia|lia|done]. }
  destruct (Z.ltb_spec evicted to_evict).
  - destruct (IH (evicted + 1) ltac:(lia) He) as (n & -> & -> & Hn & Hle' & Hend). exists (S n).
    simpl. split_and!; [done|lia|lia|lia|done].
  - injection He as <- <-. exists 0%nat. simpl. split_and!; [done|lia|lia|lia|lia].
Qed.

Lemma evict_newest l n : let leb := fun a b => sp_time a <=? sp_time b in
  newest l (drop n (sort_by leb l)).
Proof.
  intros leb. exists (take n (sort_by leb l)).
  split; [by rewrite (Permutation_app_comm (drop n _)), take_drop, sort_by_perm|].
  assert (Hs : StronglySorted (fun a b => leb a b = true) (sort_by leb l)).
  { apply sort_by_sorted; unfold leb; intros; rewrite ?Z.leb_le, ?Z.leb_gt in *; lia. }
  intros p q Hp Hq. pose proof (sorted_cut _ n _ Hs q p Hq Hp) as Hle. by apply Z.leb_le in Hle.
Qed.

(** ** Eviction *)

Lemma total_mono (m' m : gmap Id (list StoredPeer)) :
  (forall hash l', m' !! hash = Some l' -> exists l, m !! hash = Some l /\ (length l' <= length l)%nat) ->
  total m' <= total m.
Proof.
  revert m. induction m' as [|hash l' m' Hn IH] using map_ind; intros m Hle.
  { rewrite total_empty. apply total_nonneg. }
  destruct (Hle hash l' (lookup_insert_eq _ _ _)) as (l & Hl & Hlen).
  rewrite total_insert_new, (total_delete m hash l) by done.
  cut (total m' <= total (delete hash m)); [lia|]. apply IH. intros h l2 Hl2.
  assert (h <> hash) by congruence. rewrite lookup_delete_ne by done. apply Hle. by rewrite lookup_insert_ne.
Qed.

(** The entries left are the newest peers of their entries before. *)
Definition shrunk (m m' : gmap Id (list StoredPeer)) : Prop :=
  forall hash l', m' !! hash = Some l' -> l' <> [] /\ exists l, m !! hash = Some l /\ newest l l'.

Lemma shrunk_trans m1 m2 m3 : shrunk m1 m2 -> shrunk m2 m3 -> shrunk m1 m3.
Proof.
  intros H1 H2 hash l3 Hl3. destruct (H2 _ _ Hl3) as (Hne & l2 & Hl2 & Hn2).
  destruct (H1 _ _ Hl2) as (_ & l1 & Hl1 & Hn1). split; [done|]. exists l1. split; [done|]. by eapply newest_trans.
Qed.

Lemma evict_loop_spec entries evicted to_evict m : evicted <= to_evict -> to_evict - evicted <= total m ->
  (forall hash l, m !! hash = Some l -> l <> []) ->
  (evicted < to_evict -> forall hash, is_Some (m !! hash) -> hash ∈ entries.*1) ->
  let m' := evict_loop entries evicted to_evict m in
  total m' = total m - (to_evict - evicted) /\ shrunk m m'.
Proof.
  revert evicted m. induction entries as [|[hash t] entries IH]; intros evicted m Hle Htot Hne Hcov; cbn [evict_loop].
  { destruct (decide (evicted < to_evict)) as [Hlt|?].
    - assert (m = ∅) as ->.
      { apply map_empty. intros h. apply eq_None_not_Some. intros Hs. apply (Hcov Hlt) in Hs. by apply not_elem_of_nil in Hs. }
      rewrite total_empty in *. lia.
    - split; [lia|]. intros h l Hl. split; [by eapply Hne|]. exists l. split; [done|apply newest_refl]. }
  destruct (Z.leb_spec to_evict evicted) as [Hge|Hlt].
  { split; [lia|]. intros h l Hl. split; [by eapply Hne|]. exists l. split; [done|apply newest_refl]. }
  destruct (m !! hash) as [l|] eqn:Hl.
  2: { apply IH; [done|done|done|]. intros _ h Hs. specialize (Hcov Hlt h Hs). cbn in Hcov.
       apply elem_of_cons in Hcov as [->|?]; [|done]. rewrite Hl in Hs. by destruct Hs. }
  destruct (evict_front _ evicted to_evict) as [l1 evicted1] eqn:He.
  apply evict_front_spec in He as (n & Hl1 & Hev & Hn & Hle1 & Hend); [|lia].
  rewrite (Permutation_length (sort_by_perm _ l)) in Hn.
  assert (Hlen : length l1 = (length l - n)%nat).
  { rewrite Hl1, length_drop. by rewrite (Permutation_length (sort_by_perm _ l)). }
  set (m1 := if (length l1 =? 0)%nat then delete hash m else <[hash := l1]> m).
  assert (Hm1 : total m1 = total m - Z.of_nat n).
  { unfold m1. destruct (Nat.eqb_spec (length l1) 0).
    - rewrite (total_delete m hash l Hl). lia.
    - rewrite (total_insert m hash l l1 Hl). lia. }
  assert (Hsh : shrunk m m1).
  { intros h l2 Hl2. unfold m1 in Hl2. destruct (Nat.eqb_spec (length l1) 0) as [H0|H0].
    - apply lookup_delete_Some in Hl2 as [_ Hl2]. split; [by eapply Hne|]. exists l2. split; [done|apply newest_refl].
    - apply lookup_insert_Some in Hl2 as [[<- <-]|[_ Hl2]].
      + split; [by destruct l1|]. exists l. split; [done|]. rewrite Hl1. apply evict_newest.
      + split; [by eapply Hne|]. exists l2. split; [done|apply newest_refl]. }
  destruct (IH evicted1 m1) as [Ht' Hsh']; [done|lia|by intros h l2 Hl2; apply (Hsh h l2 Hl2)| |].
  { intros Hlt1 h Hs. unfold m1 in Hs. rewrite (Hend Hlt1) in Hs. simpl in Hs.
    apply lookup_delete_is_Some in Hs as [Hhh Hs]. specialize (Hcov Hlt h Hs). cbn in Hcov.
    apply elem_of_cons in Hcov as [->|?]; done. }
  split; [lia|]. by eapply shrunk_trans.
Qed.

(** ** Garbage collection *)

(** The peers of an entry that are not stale. *)
Definition fresh (now : Z) (l : list StoredPeer) : list StoredPeer :=
  List.filter (fun p => now - PEER_TTL <? sp_time p) l.

Definition without_empty (m : gmap Id (list StoredPeer)) : gmap Id (list StoredPeer) :=
  filter (fun e => e.2 <> []) m.

Lemma without_empty_fmap (f : list StoredPeer -> list StoredPeer) (m : gmap Id (list StoredPeer)) hash l' :
  without_empty (f <$> m) !! hash = Some l' <->
  l' <> [] /\ exists l, m !! hash = Some l /\ l' = f l.
Proof.
  unfold without_empty. rewrite map_lookup_filter_Some, lookup_fmap, fmap_Some. simpl. naive_solver.
Qed.

(** The peers that are fresh and within the cap of their info hash. *)
Definition capped_total (now : Z) (m : gmap Id (list StoredPeer)) : Z :=
  sumZ ((fun e => Z.min 100 (Z.of_nat (length (fresh now e.2)))) <$> map_to_list m).

Lemma total_without_empty m : total (without_empty m) = total m.
Proof.
  induction m as [|h l m Hm IH] using map_ind; [done|]. unfold without_empty in *. destruct l as [|p l].
  - rewrite map_filter_insert_False by naive_solver. rewrite delete_id, IH, total_insert_new by done. done.
  - rewrite map_filter_insert_True by done. rewrite !total_insert_new; [by rewrite IH|done|].
    apply map_lookup_filter_None. by left.
Qed.

Lemma total_trimmed now m : total (without_empty (trim_entry (now - PEER_TTL) <$> m)) = capped_total now m.
Proof.
  rewrite total_without_empty. unfold total, capped_total. rewrite map_to_list_fmap, <- list_fmap_compose. f_equal.
  apply list_fmap_ext. intros i [h l] _. cbn [compose snd fst prod_map]. unfold trim_entry. fold (fresh now l).
  unfold MAX_PEERS_PER_INFO_HASH. destruct (Nat.ltb_spec 100 (length (fresh now l))); [|lia].
  rewrite length_take, (Permutation_length (sort_by_perm _ _)). lia.
Qed.

Section gc_spec.
Variable ord : gmap Id (list StoredPeer) -> list (Id * list StoredPeer).
Hypothesis ord_perm : forall m, ord m ≡ₚ map_to_list m.

Lemma entries_cover (m : gmap Id (list StoredPeer)) (hash : Id) : (forall h l, m !! h = Some l -> l <> []) -> is_Some (m !! hash) ->
  hash ∈ (entries_by_oldest ord m).*1.
Proof.
  intros Hne [l Hl]. assert (exists t, oldest l = Some t) as [t Ht].
  { destruct l; [by destruct (Hne _ _ Hl)|by eexists]. }
  apply list_elem_of_fmap. exists (hash, t). split; [done|]. unfold entries_by_oldest.
  rewrite sort_by_perm. apply list_elem_of_omap. exists (hash, l). split.
  - rewrite ord_perm. by apply elem_of_map_to_list.
  - simpl. by rewrite Ht.
Qed.

(** What the collection leaves, for any store whose counters are in range. *)
Lemma gc_cases now s : total (peers s) < U32 -> 0 <= max_remembered_peers s ->
  let s' := garbage_collect_peers ord now s in
  let trimmed := without_empty (trim_entry (now - PEER_TTL) <$> peers s) in
  shrunk trimmed (peers s') /\ total (peers s') <= max_remembered_peers s /\
  peers_len s' = total (peers s') /\ total (peers s') = Z.min (max_remembered_peers s) (total trimmed) /\ total trimmed <= total (peers s) /\
  (total trimmed <= max_remembered_peers s -> peers s' = trimmed).
Proof.
  intros Ht Hmax s' trimmed.
  assert (Hne : forall h l, trimmed !! h = Some l -> l <> []).
  { intros h l Hl. by apply without_empty_fmap in Hl as [? _]. }
  assert (Htr : total trimmed <= total (peers s)).
  { apply total_mono. intros h l' (_ & l & Hl & ->)%without_empty_fmap. exists l. split; [done|].
    unfold trim_entry. destruct (_ <? _)%nat; rewrite ?length_take, ?(Permutation_length (sort_by_perm _ _));
      (etransitivity; [|apply (filter_length_le (fun p => now - PEER_TTL <? sp_time p) l)]); lia. }
  assert (Hcnt : count_peers trimmed = total trimmed) by (apply count_peers_total; lia).
  unfold s', garbage_collect_peers. cbn [peers with_peers with_tokens max_remembered_peers peers_len].
  fold (without_empty (trim_entry (now - PEER_TTL) <$> peers s)). fold trimmed. rewrite Hcnt.
  destruct (Z.ltb_spec (max_remembered_peers s) (total trimmed)) as [Hover|Hfit].
  - destruct (evict_loop_spec (entries_by_oldest ord trimmed) 0 (total trimmed - max_remembered_peers s) trimmed)
      as [He Hsh]; [lia|lia|done|by intros _ h; apply entries_cover|].
    split_and!; [done|lia| |lia|done|lia]. apply count_peers_total. lia.
  - split_and!; [|done|done|lia|done|done]. intros h l Hl. split; [by eapply Hne|]. exists l. split; [done|apply newest_refl].
Qed.

(** The garbage collection keeps exactly the tokens of the last ten
    minutes; of every info hash it keeps only peers of the last fifteen
    minutes, at most 100 and none older than one it drops; all those peers stay
    up to [max_remembered_peers], and the counter is their number; and when no limit is exceeded exactly the fresh peers stay. *)
Theorem garbage_collection_spec now s : total (peers s) < U32 -> 0 <= max_remembered_peers s ->
  let s' := garbage_collect_peers ord now s in
  tokens s' = List.filter (fun t => now - TOKEN_TTL <? tk_time t) (tokens s) /\
  (forall hash l', peers s' !! hash = Some l' ->
     (0 < length l' <= 100)%nat /\ exists l, peers s !! hash = Some l /\ newest (fresh now l) l') /\
  total (peers s') = Z.min (max_remembered_peers s) (capped_total now (peers s)) /\
  peers_len s' = total (peers s') /\
  ((forall hash l, peers s !! hash = Some l -> (length (fresh now l) <= 100)%nat) ->
   total (without_empty (fresh now <$> peers s)) <= max_remembered_peers s ->
   peers s' = without_empty (fresh now <$> peers s)).
Proof.
  intros Ht Hmax s'. destruct (gc_cases now s Ht Hmax) as (Hsh & _ & Hlen & Hcap & _ & Hall).
  rewrite total_trimmed in Hcap. fold s' in Hsh, Hcap, Hlen, Hall. split_and!; [done| |done|done|].
  - intros hash l' Hl'. destruct (Hsh _ _ Hl') as (Hne & l1 & (_ & l & Hl & ->)%without_empty_fmap & Hn).
    destruct (trim_newest (now - PEER_TTL) l) as (Hnt & H100 & _).
    split; [|exists l; split; [done|by eapply newest_trans]]. destruct Hn as (d & Hp & _).
    apply Permutation_length in Hp. rewrite length_app in Hp. destruct l'; [done|]. cbn [length] in *. lia.
  - intros Hshort Hfit. assert (Heq : trim_entry (now - PEER_TTL) <$> peers s = fresh now <$> peers s).
    { apply map_fmap_ext. intros h l Hl. by apply trim_newest, (Hshort h). }
    rewrite <- Heq in *. by apply Hall.
Qed.
End gc_spec.

(** ** Announcements *)

Definition announced_addr (announce : AnnouncePeer) (addr : SocketAddr) : SocketAddr :=
  if an_implied_port announce =? 0 then set_port addr (an_port announce) else addr.

Definition entry (s : PeerStore) (hash : Id) : list StoredPeer := default [] (peers s !! hash).

Lemma entry_insert s hash l n : entry (with_peers s (<[hash := l]> (peers s)) n) hash = l.
Proof. unfold entry. cbn [peers with_peers]. by rewrite lookup_insert_eq. Qed.

Lemma refresh_spec now addr l :
  match refresh now addr l with
  | Some l' => (exists p, p ∈ l /\ sp_addr p = addr) /\ mkStoredPeer addr now ∈ l' /\ length l' = length l /\
      (forall p, p ∈ l' -> p = mkStoredPeer addr now \/ p ∈ l) /\
      (forall p, p ∈ l -> sp_addr p <> addr -> p ∈ l') /\ sp_addr <$> l' = sp_addr <$> l
  | None => forall p, p ∈ l -> sp_addr p <> addr
  end.
Proof.
  induction l as [|p l IH]; cbn [refresh]; [intros ? Hp; by apply not_elem_of_nil in Hp|].
  destruct (bool_decide_reflect (sp_addr p = addr)) as [<-|Hne].
  - split_and!; [exists p; split; [by constructor|done]|by constructor|done| | |done].
    + intros q [->|Hq]%elem_of_cons; [by left|right; by constructor].
    + intros q [->|Hq]%elem_of_cons Hq'; [done|by constructor].
  - destruct (refresh now addr l) as [l'|]; cbn [fmap option_fmap option_map].
    + destruct IH as ((q & Hq & Ha) & Hin & Hlen & Hsub & Hkeep & Haddr). split_and!.
      * exists q. split; [by constructor|done].
      * by constructor.
      * simpl. by rewrite Hlen.
      * intros r [->|Hr]%elem_of_cons; [right; by constructor|]. destruct (Hsub r Hr); [by left|right; by constructor].
      * intros r [->|Hr]%elem_of_cons Hr'; [by constructor|]. constructor. by apply Hkeep.
      * cbn [fmap list_fmap]. by f_equal.
    + intros q [->|Hq]%elem_of_cons; [done|by apply IH].
Qed.

(** The three ways an announcement ends. *)
Lemma store_peer_cases now announce addr s :
  let hash := an_info_hash announce in
  let new := mkStoredPeer (announced_addr announce addr) now in
  let allowed := id_ltb (max_distance s) (distance hash (self_id s)) = false /\
                 existsb (token_matches announce addr) (tokens s) = true in
  let known := exists p, p ∈ entry s hash /\ sp_addr p = sp_addr new in
  (store_peer now announce addr s = (false, s) /\
     (~ allowed \/ (~ known /\ max_remembered_peers s <= peers_len s))) \/
  (exists l', refresh now (sp_addr new) (entry s hash) = Some l' /\ is_Some (peers s !! hash) /\ allowed /\ known /\
     store_peer now announce addr s = (true, with_peers s (<[hash := l']> (peers s)) (peers_len s))) \/
  (allowed /\ ~ known /\ peers_len s < max_remembered_peers s /\
     store_peer now announce addr s =
       (true, with_peers s (<[hash := entry s hash ++ [new]]> (peers s)) (wrap32 (peers_len s + 1)))).
Proof.
  intros hash new allowed known. unfold store_peer. fold hash.
  destruct (id_ltb (max_distance s) (distance hash (self_id s))) eqn:Hd.
  { left. split; [done|]. left. unfold allowed. intros [? _]. congruence. }
  destruct (existsb (token_matches announce addr) (tokens s)) eqn:Ht; cbn [negb].
  2: { left. split; [done|]. left. unfold allowed. intros [_ ?]. congruence. }
  fold (announced_addr announce addr). fold new. change (announced_addr announce addr) with (sp_addr new).
  unfold known, entry. destruct (peers s !! hash) as [l|] eqn:Hl; cbn [default].
  - pose proof (refresh_spec now (sp_addr new) l) as Hr. destruct (refresh now (sp_addr new) l) as [l'|] eqn:Er.
    + right; left. exists l'. split_and!; [done|by eexists|by split|apply Hr|done].
    + assert (Hnk : ~ exists p, p ∈ l /\ sp_addr p = sp_addr new) by (intros (p & Hp & Ha); by apply (Hr p)).
      destruct (Z.leb_spec (max_remembered_peers s) (peers_len s)); [left|right; right].
      * split; [done|]. right. done.
      * split_and!; done.
  - assert (Hnk : ~ exists p, p ∈ @nil StoredPeer /\ sp_addr p = sp_addr new)
      by (intros (p & Hp & _); by apply not_elem_of_nil in Hp).
    destruct (Z.leb_spec (max_remembered_peers s) (peers_len s)); [left|right; right].
    + split; [done|]. right. done.
    + split_and!; done.
Qed.

(** An announcement is accepted exactly when the info hash is close
    enough to our id, the token was given to this node at this address, and
    the peer is known for the hash or there is room; a refused one changes
    nothing, and an accepted one stores the peer with the current time and
    touches no other peer. *)
Theorem store_peer_spec now announce addr s :
  let hash := an_info_hash announce in
  let new := mkStoredPeer (announced_addr announce addr) now in
  let allowed := id_ltb (max_distance s) (distance hash (self_id s)) = false /\
                 existsb (token_matches announce addr) (tokens s) = true in
  let known := exists p, p ∈ entry s hash /\ sp_addr p = sp_addr new in
  let '(ok, s') := store_peer now announce addr s in
  (ok = true <-> allowed /\ (known \/ peers_len s < max_remembered_peers s)) /\
  (ok = false -> s' = s) /\
  (ok = true -> tokens s' = tokens s /\ new ∈ entry s' hash /\
     (forall h, h <> hash -> peers s' !! h = peers s !! h) /\
     (forall p, sp_addr p <> sp_addr new -> p ∈ entry s' hash <-> p ∈ entry s hash)).
Proof.
  intros hash new allowed known.
  pose proof (store_peer_cases now announce addr s) as Hcases. cbn zeta in Hcases. fold hash in Hcases.
  fold new in Hcases. destruct Hcases as [(-> & Hno)|[(l' & Hr & _ & Hal & Hk & ->)|(Hal & Hk & Hroom & ->)]].
  - split_and!; [|done|done]. split; [done|]. intros [Hal Hor].
    destruct Hno as [Hnal|[Hnk Hfull]]; [by destruct (Hnal Hal)|]. destruct Hor as [Hk|?]; [by destruct (Hnk Hk)|lia].
  - pose proof (refresh_spec now (sp_addr new) (entry s hash)) as Hs. rewrite Hr in Hs.
    destruct Hs as (_ & Hin & _ & Hsub & Hkeep & _). split_and!; [|done|].
    { split; [|done]. intros _. split; [done|by left]. }
    intros _. rewrite !entry_insert. cbn [peers with_peers tokens].
    split_and!; [done|done|intros h Hh; by rewrite lookup_insert_ne|].
    intros p Hp. split; [|intros; by apply Hkeep]. intros Hpl. destruct (Hsub p Hpl) as [->|?]; done.
  - split_and!; [|done|].
    { split; [|done]. intros _. split; [done|by right]. }
    intros _. rewrite !entry_insert. cbn [peers with_peers tokens].
    split_and!; [done|set_solver|intros h Hh; by rewrite lookup_insert_ne|].
    intros p Hp. rewrite elem_of_app, list_elem_of_singleton. split; [|by left]. intros [?| ->]; done.
Qed.

(** ** Every history *)

Inductive StoreOp :=
| OToken (now : Z) (random : list Z) (node_id : Id) (addr : SocketAddr)
| OAnnounce (now : Z) (announce : AnnouncePeer) (addr : SocketAddr)
| OCollect (now : Z) (ord : gmap Id (list StoredPeer) -> list (Id * list StoredPeer)).

Definition exec_op (s : PeerStore) (o : StoreOp) : PeerStore :=
  match o with
  | OToken now random node_id addr => (gen_token_for now random node_id addr s).2
  | OAnnounce now announce addr => (store_peer now announce addr s).2
  | OCollect now ord => garbage_collect_peers ord now s
  end.

(** The iteration order of a collection lists the entries of the map. *)
Definition op_ok (o : StoreOp) : Prop :=
  match o with OCollect _ ord => forall m, ord m ≡ₚ map_to_list m | _ => True end.

(** The addresses tokens were given to. *)
Definition issued (ops : list StoreOp) : list SocketAddr :=
  omap (fun o => match o with OToken _ _ _ a => Some a | _ => None end) ops.

Definition same_ip (a b : SocketAddr) : Prop := sa_ipv6 a = sa_ipv6 b /\ sa_ip a = sa_ip b.

Record store_inv (given : list SocketAddr) (s : PeerStore) : Prop := {
  si_limits : max_remembered_tokens s = 1000 /\ max_remembered_peers s = 1000;
  si_tokens : (length (tokens s) <= 1000)%nat;
  si_count : peers_len s = total (peers s);
  si_total : total (peers s) <= 1000;
  si_given : forall t, t ∈ tokens s -> tk_addr t ∈ given;
  si_owned : forall hash p, p ∈ entry s hash -> exists a, a ∈ given /\ same_ip a (sp_addr p);
  si_close : forall hash, is_Some (peers s !! hash) -> id_ltb (max_distance s) (distance hash (self_id s)) = false;
}.

Lemma store_inv_more given given' s : given ⊆ given' -> store_inv given s -> store_inv given' s.
Proof.
  intros Hsub [? ? ? ? Hg Ho ?]. split; [done..|by intros t Ht; apply Hsub, Hg| |done].
  intros h p Hp. destruct (Ho h p Hp) as (a & Ha & ?). exists a. split; [by apply Hsub|done].
Qed.

Lemma gen_token_inv given now random node addr s : store_inv given s ->
  store_inv (given ++ [addr]) (gen_token_for now random node addr s).2.
Proof.
  intros Hi. apply (store_inv_more _ (given ++ [addr])) in Hi; [|set_solver].
  destruct Hi as [[Hmt Hmp] Ht Hc Htot Hg Ho Hcl]. unfold gen_token_for. rewrite Hmt. cbn [snd].
  set (ts := tokens s ++ [mkStoredToken random node addr now]).
  assert (Hts : forall t, t ∈ ts -> tk_addr t ∈ given ++ [addr]).
  { intros t [Hin| ->%list_elem_of_singleton]%elem_of_app; [by apply Hg|set_solver]. }
  assert (Hl : length ts = S (length (tokens s))) by (unfold ts; rewrite length_app; simpl; lia).
  split; cbn [with_tokens tokens peers peers_len max_remembered_tokens max_remembered_peers max_distance self_id];
    [done| |done|done| |done|done].
  - destruct (Z.ltb_spec 1000 (Z.of_nat (length ts))); [rewrite length_drop|]; lia.
  - intros t Hin. apply Hts. destruct (1000 <? _); [|done]. by eapply (elem_of_submseteq _ _ _ Hin), submseteq_drop.
Qed.

Lemma token_given given announce addr s : store_inv given s ->
  existsb (token_matches announce addr) (tokens s) = true -> addr ∈ given.
Proof.
  intros Hi Hex. apply existsb_exists in Hex as (t & Hin%list_elem_of_In & Hm).
  unfold token_matches in Hm. rewrite !andb_true_iff, !bool_decide_eq_true in Hm.
  destruct Hm as [[_ <-] _]. by apply (si_given _ _ Hi).
Qed.

Lemma entry_other s hash l n h : h <> hash -> entry (with_peers s (<[hash := l]> (peers s)) n) h = entry s h.
Proof. intros Hh. unfold entry. cbn [peers with_peers]. by rewrite lookup_insert_ne. Qed.

(** Replacing one entry by peers at addresses that asked for a token. *)
Lemma with_entry_inv given s hash l n : store_inv given s ->
  id_ltb (max_distance s) (distance hash (self_id s)) = false ->
  n = total (<[hash := l]> (peers s)) -> n <= 1000 ->
  (forall p, p ∈ l -> p ∈ entry s hash \/ exists a, a ∈ given /\ same_ip a (sp_addr p)) ->
  store_inv given (with_peers s (<[hash := l]> (peers s)) n).
Proof.
  intros [Hm Ht Hc Htot Hg Ho Hcl] Hd -> Hn Hl. split; try done.
  - intros h p Hp. destruct (decide (h = hash)) as [->|Hh].
    + rewrite entry_insert in Hp. destruct (Hl p Hp) as [?|?]; [by eapply Ho|done].
    + rewrite entry_other in Hp by done. by eapply Ho.
  - intros h Hs. cbn [with_peers peers max_distance self_id] in *. destruct (decide (h = hash)) as [->|Hh]; [done|].
    rewrite lookup_insert_ne in Hs by done. by apply Hcl.
Qed.

Lemma announced_same_ip announce addr : same_ip addr (announced_addr announce addr).
Proof. unfold announced_addr. by destruct (_ =? 0). Qed.

Lemma store_peer_inv given now announce addr s : store_inv given s ->
  store_inv given (store_peer now announce addr s).2.
Proof.
  intros Hi. pose proof (store_peer_cases now announce addr s) as Hcases. cbn zeta in Hcases.
  destruct Hcases as [(-> & _)|[(l' & Hr & [l Hl] & [Hd Htk] & _ & ->)|([Hd Htk] & _ & Hroom & ->)]]; [done| |];
    cbn [snd]; pose proof (token_given _ _ _ _ Hi Htk) as Hgiven; destruct (si_limits _ _ Hi) as [_ Hmax].
  - pose proof (refresh_spec now (announced_addr announce addr) (entry s (an_info_hash announce))) as Hs.
    cbn [sp_addr] in Hr. rewrite Hr in Hs. destruct Hs as (_ & _ & Hlen & Hsub & _).
    unfold entry in Hlen. rewrite Hl in Hlen. simpl in Hlen.
    assert (Htot : total (<[an_info_hash announce := l']> (peers s)) = total (peers s))
      by (rewrite (total_insert _ _ _ _ Hl); lia).
    apply with_entry_inv; [done|done|rewrite Htot; apply Hi|rewrite (si_count _ _ Hi); apply Hi|].
    intros p Hp. destruct (Hsub p Hp) as [->|?]; [right|by left]. exists addr. split; [done|apply announced_same_ip].
  - assert (Htot : total (<[an_info_hash announce := entry s (an_info_hash announce) ++
        [mkStoredPeer (announced_addr announce addr) now]]> (peers s)) = total (peers s) + 1).
    { unfold entry. destruct (peers s !! an_info_hash announce) as [l|] eqn:Hl; cbn [default].
      - rewrite (total_insert _ _ _ _ Hl), length_app. simpl. lia.
      - rewrite (total_insert_new _ _ _ Hl). simpl. lia. }
    pose proof (si_count _ _ Hi). pose proof (total_nonneg (peers s)). rewrite wrap32_small by lia.
    apply with_entry_inv; [done|done|lia|lia|].
    intros p [?| ->%list_elem_of_singleton]%elem_of_app; [by left|right].
    exists addr. split; [done|apply announced_same_ip].
Qed.

Lemma collect_inv given now ord s : (forall m, ord m ≡ₚ map_to_list m) -> store_inv given s ->
  store_inv given (garbage_collect_peers ord now s).
Proof.
  intros Hord Hi. destruct (si_limits _ _ Hi) as [_ Hmax]. pose proof (si_total _ _ Hi) as Htot.
  destruct (gc_cases ord Hord now s) as (Hsh & Hcap & Hlen & _); [lia|lia|].
  destruct Hi as [Hm Ht Hc _ Hg Ho Hcl].
  assert (Hold : forall hash p, p ∈ entry (garbage_collect_peers ord now s) hash -> p ∈ entry s hash).
  { intros hash p. unfold entry. destruct (peers (garbage_collect_peers ord now s) !! hash) as [l'|] eqn:El; [|intros Hp; by apply not_elem_of_nil in Hp].
    destruct (Hsh _ _ El) as (_ & l1 & (_ & l & Hl & ->)%without_empty_fmap & d & Hp & _). rewrite Hl. cbn [default].
    destruct (trim_newest (now - PEER_TTL) l) as ((d1 & Hp1 & _) & _). intros Hin.
    assert (Hf : p ∈ List.filter (fun p => now - PEER_TTL <? sp_time p) l) by (rewrite Hp1, Hp; set_solver).
    apply list_elem_of_In, filter_In in Hf as [Hf _]. by apply list_elem_of_In. }
  split; [done| |done|by rewrite <- Hmax| | |].
  - etransitivity; [|exact Ht]. apply filter_length_le.
  - intros t Hin%list_elem_of_In. apply filter_In in Hin as [Hin _]. apply Hg. by apply list_elem_of_In.
  - intros hash p Hp. by apply (Ho hash), Hold.
  - intros hash [l' Hl']. destruct (Hsh _ _ Hl') as (_ & l1 & (_ & l & Hl & _)%without_empty_fmap & _). apply Hcl. by eexists.
Qed.

Lemma run_inv self ops : Forall op_ok ops -> store_inv (issued ops) (foldl exec_op (store_new self) ops).
Proof.
  induction ops as [|o ops IH] using rev_ind; intros Hok.
  - split; simpl; [done|lia|by rewrite total_empty|rewrite total_empty; lia| | |].
    + intros t Hin. by apply not_elem_of_nil in Hin.
    + intros h p Hin. unfold entry in Hin. cbn [peers store_new] in Hin. rewrite lookup_empty in Hin.
      by apply not_elem_of_nil in Hin.
    + intros h [l Hl]. by rewrite lookup_empty in Hl.
  - apply Forall_app in Hok as [Hok Ho]. apply Forall_cons in Ho as [Ho _]. specialize (IH Hok).
    rewrite foldl_app. cbn [foldl]. unfold issued in *. rewrite omap_app.
    destruct o as [now random node addr|now announce addr|now ord]; cbn [exec_op omap list_omap].
    + by apply gen_token_inv.
    + rewrite app_nil_r. by apply store_peer_inv.
    + rewrite app_nil_r. apply collect_inv; [exact Ho|done].
Qed.

(** In every history of token requests, announcements and collections the
    store holds at most 1000 tokens and 1000 peers, its counter is the number
    of peers, every info hash is close to our id, and every peer is stored
    under an IP address that had asked for a token. *)
Theorem peer_store_bounded self ops : Forall op_ok ops ->
  let s := foldl exec_op (store_new self) ops in
  (length (tokens s) <= 1000)%nat /\ total (peers s) <= 1000 /\ peers_len s = total (peers s) /\
  (forall hash p, p ∈ entry s hash ->
     id_ltb default_max_distance (distance hash self) = false /\ exists a, a ∈ issued ops /\ same_ip a (sp_addr p)).
Proof.
  intros Hok s. pose proof (run_inv self ops Hok) as [Hm Ht Hc Htot Hg Ho Hcl].
  assert (Hconst : max_distance s = default_max_distance /\ self_id s = self).
  { unfold s. clear. induction ops as [|o ops IH] using rev_ind; [done|]. rewrite foldl_app. cbn [foldl].
    destruct IH as [IH1 IH2]. destruct o as [now random node addr|now announce addr|now ord]; cbn [exec_op]; [done| |done].
    destruct (store_peer_cases now announce addr (foldl exec_op (store_new self) ops))
      as [(-> & _)|[(l' & _ & _ & _ & _ & ->)|(_ & _ & _ & ->)]]; done. }
  fold s in Ht, Hc, Htot, Ho, Hcl. split_and!; [done..|]. intros hash p Hp. split; [|by eapply Ho].
  destruct Hconst as [Hd Hs]. specialize (Hcl hash). rewrite Hd, Hs in Hcl. apply Hcl.
  unfold entry in Hp. destruct (peers s !! hash); [by eexists|]. by apply not_elem_of_nil in Hp.
Qed.

(** ** Witnesses *)

Definition ex_id (b : Z) : Id := replicate 19 0 ++ [b].
Definition ex_addr (port : Z) : SocketAddr := mkSocketAddr false 2130706433 port.
Definition ex_announce : AnnouncePeer := mkAnnouncePeer (ex_id 1) 0 (ex_id 2) 6882 [1; 2; 3; 4].

Lemma peer_store_bounded_witness :
  let s := foldl exec_op (store_new (ex_id 0))
    [OToken 5 [1; 2; 3; 4] (ex_id 1) (ex_addr 6881); OAnnounce 6 ex_announce (ex_addr 6881); OCollect 7 map_to_list] in
  entry s (ex_id 2) = [mkStoredPeer (ex_addr 6882) 6] /\ total (peers s) <= 1000.
Proof.
  split; [vm_compute; reflexivity|].
  apply (peer_store_bounded (ex_id 0)
    [OToken 5 [1; 2; 3; 4] (ex_id 1) (ex_addr 6881); OAnnounce 6 ex_announce (ex_addr 6881); OCollect 7 map_to_list]).
  constructor; [exact I|]. constructor; [exact I|]. constructor; [|constructor]. intros m. reflexivity.
Defined.

(** Four peers under two hashes, room for two. *)
Definition ex_crowded : PeerStore :=
  mkPeerStore (ex_id 0) 1000 2 default_max_distance []
    (<[ex_id 1 := [mkStoredPeer (ex_addr 1) 1; mkStoredPeer (ex_addr 2) 100]]>
     {[ex_id 2 := [mkStoredPeer (ex_addr 3) 2; mkStoredPeer (ex_addr 4) 3]]}) 4.

Lemma garbage_collection_spec_witness :
  total (peers (garbage_collect_peers map_to_list 200 ex_crowded)) = 2.
Proof.
  destruct (garbage_collection_spec map_to_list (fun m => Permutation_refl (map_to_list m)) 200 ex_crowded)
    as (_ & _ & Ht & _); [vm_compute; reflexivity|vm_compute; discriminate|]. rewrite Ht. vm_compute. reflexivity.
Defined.

(** The collection empties the entry with the oldest peer before it looks at
    the next one: the newest peer of all is evicted and older ones stay. *)
Lemma collection_evicts_newest_peer :
  peers (garbage_collect_peers map_to_list 200 ex_crowded) =
  {[ex_id 2 := [mkStoredPeer (ex_addr 3) 2; mkStoredPeer (ex_addr 4) 3]]}.
Proof. vm_compute. reflexivity. Qed.
