(* ===== verification/Krpc.v ===== *)
(** * Krpc: the messages of DHT nodes

    Models the data of [crates/librtbit-dht/src/bprotocol.rs]: the compact form
    of a node, requests, responses and messages, and the transaction id. *)

From S2P Require Import Prelude HashId Compact PeerStore.

(** ** Nodes *)

Record Node (A : Type) := mkKNode {
  nd_id : Id;
  nd_addr : A;
}.
Arguments mkKNode {A} _ _.
Arguments nd_id {A} _.
Arguments nd_addr {A} _.

(** [as_slice] copies the twenty bytes of the id and the address into a zeroed
    array of fixed size. *)
#[export] Instance compact_node {A} `{CompactSerialize A} : CompactSerialize (Node A) := {
  as_slice n := resize 20 0 (nd_id n) ++ as_slice (nd_addr n);
  from_slice_unchecked_len buf :=
    mkKNode (take 20 buf) (from_slice_unchecked_len (take (fixed_len (T := A)) (drop 20 buf)));
  fixed_len := 20 + fixed_len (T := A);
}.

Definition wf_node {A} (wf : A -> Prop) (n : Node A) : Prop := wf_id 20 (nd_id n) /\ wf (nd_addr n).

#[export] Instance compact_node_laws {A} (wf : A -> Prop) `{CompactLaws A wf} :
  CompactLaws (Node A) (wf_node wf).
Proof.
  split; cbn [fixed_len as_slice from_slice_unchecked_len compact_node].
  - lia.
  - intros n. by rewrite length_app, length_resize, as_slice_length.
  - intros [id addr] [[Hl Hb] Ha]. cbn [nd_id nd_addr] in *.
    rewrite resize_all_alt, take_app_length', drop_app_length' by done.
    by rewrite take_ge, as_slice_read by (rewrite ?as_slice_length; done).
Qed.

(** [Node::as_socketaddr], for the two families. *)
Definition node_from_v4 (n : Node SocketAddrV4) : Node SocketAddr := mkKNode (nd_id n) (from_v4 (nd_addr n)).
Definition node_from_v6 (n : Node SocketAddrV6) : Node SocketAddr := mkKNode (nd_id n) (from_v6 (nd_addr n)).

(** [CompactNodeInfo<Buf, A>]: nodes in one buffer. *)
Definition CompactNodeInfo := CompactListInBuffer.

(** ** Requests and responses *)

Record FindNodeRequest := mkFindNode { fn_id : Id; fn_target : Id; fn_want : option Want }.

Record GetPeersRequest := mkGetPeers { gp_id : Id; gp_info_hash : Id; gp_want : option Want }.

Record PingRequest := mkPing { pg_id : Id }.

Record Bep44GetRequest := mkBep44Get { bg_id : Id; bg_target : Id; bg_seq : option Z }.

Record Bep44PutRequest := mkBep44Put {
  bp_id : Id;
  bp_token : list Z;
  bp_k : list Z;
  bp_sig : list Z;
  bp_seq : Z;
  bp_v : list Z;
  bp_salt : option (list Z);
  bp_cas : option Z;
}.

Record Response := mkResponse {
  rs_values : option (list SocketAddr);
  rs_id : Id;
  rs_nodes : option CompactNodeInfo;
  rs_nodes6 : option CompactNodeInfo;
  rs_token : option (list Z);
  rs_v : option (list Z);
  rs_k : option (list Z);
  rs_sig : option (list Z);
  rs_seq : option Z;
}.

(** [Response { id, ..Default::default() }]. *)
Definition response_of (id : Id) : Response := mkResponse None id None None None None None None None.

Record ErrorDescription := mkErrorDescription { ed_code : Z; ed_description : list Z }.

Inductive MessageKind :=
| KError (e : ErrorDescription)
| KGetPeersRequest (r : GetPeersRequest)
| KFindNodeRequest (r : FindNodeRequest)
| KResponse (r : Response)
| KPingRequest (r : PingRequest)
| KAnnouncePeer (a : AnnouncePeer)
| KBep44GetRequest (r : Bep44GetRequest)
| KBep44PutRequest (r : Bep44PutRequest).

Record Message := mkMessage {
  m_kind : MessageKind;
  m_transaction_id : list Z;
  m_version : option (list Z);
  m_ip : option SocketAddr;
}.

(** [((tid[0] as u16) << 8) + (tid[1] as u16)]: the two bytes do not overlap,
    so the sum stays below 2^16. *)
Definition get_our_transaction_id (m : Message) : option Z :=
  match m_transaction_id m with
  | [a; b] => Some (Z.shiftl a 8 + b)
  | _ => None
  end.

(** [[(transaction_id >> 8) as u8, (transaction_id & 0xff) as u8]]. *)
Definition transaction_id_buf (tid : Z) : list Z := [Z.shiftr tid 8 mod U8; Z.land tid 255 mod U8].

(** The id of the node that asks. *)
Definition requester (k : MessageKind) : option Id :=
  match k with
  | KError _ | KResponse _ => None
  | KGetPeersRequest r => Some (gp_id r)
  | KFindNodeRequest r => Some (fn_id r)
  | KPingRequest r => Some (pg_id r)
  | KAnnouncePeer a => Some (an_id a)
  | KBep44GetRequest r => Some (bg_id r)
  | KBep44PutRequest r => Some (bp_id r)
  end.

(** ** Transaction ids *)

Lemma transaction_id_roundtrip tid kind version ip : is_u16 tid ->
  get_our_transaction_id (mkMessage kind (transaction_id_buf tid) version ip) = Some tid.
Proof.
  intros Ht. unfold get_our_transaction_id, transaction_id_buf, is_u16 in *. cbn [m_transaction_id].
  change 255 with (Z.ones 8). rewrite Z.land_ones, Z.shiftr_div_pow2, Z.shiftl_mul_pow2 by lia.
  change (2 ^ 8) with 256. rewrite Z.mod_mod by lia.
  rewrite (Z.mod_small (tid / 256)) by zlia. f_equal. zlia.
Qed.
