(* ===== verification/KrpcCodec.v ===== *)
(** * KrpcCodec: the packets of the DHT

    Models [serialize_message] and [deserialize_message] of
    [crates/librtbit-dht/src/bprotocol.rs], with the structures they write and
    read, over [Serde].  A packet is read twice: once for its type, skipping the
    arguments and the response, and once more with their types.  The numbers
    are read by the crate [atoi], an argument for each width. *)

From stdpp Require Import strings.
From S2P Require Import Prelude HashId DoubleBuf Bencode Serde Compact PeerStore Krpc.

Inductive MessageType := TRequest | TResponse | TError.

(** What a field of one of the structures was read as. *)
Inductive Field :=
| VBytes (b : list Z)
| VInt (i : Z)
| VWant (w : Want)
| VAddrs (l : list SocketAddr)
| VAddr (a : SocketAddr)
| VError (e : ErrorDescription)
| VType (t : MessageType)
| VKind (k : MessageKind)
| VSkipped.

Definition as_bytes (f : Field) : option (list Z) := match f with VBytes b => Some b | _ => None end.
Definition as_int (f : Field) : option Z := match f with VInt i => Some i | _ => None end.
Definition as_want (f : Field) : option Want := match f with VWant w => Some w | _ => None end.
Definition as_addrs (f : Field) : option (list SocketAddr) := match f with VAddrs l => Some l | _ => None end.
Definition as_addr (f : Field) : option SocketAddr := match f with VAddr a => Some a | _ => None end.
Definition as_error (f : Field) : option ErrorDescription := match f with VError e => Some e | _ => None end.
Definition as_type (f : Field) : option MessageType := match f with VType t => Some t | _ => None end.

(** ** Writing *)

Definition type_name (t : MessageType) : list Z :=
  match t with TRequest => key "q" | TResponse => key "r" | TError => key "e" end.

Definition want_value (w : Want) : BencodeValue :=
  match w with
  | WantV4 => List [Bytes (key "n4")]
  | WantV6 => List [Bytes (key "n6")]
  | WantBoth => List [Bytes (key "n4"); Bytes (key "n6")]
  | WantNone => List []
  end.

Definition addr_value (a : SocketAddr) : BencodeValue := Bytes (addr_as_slice a).

Definition error_value (e : ErrorDescription) : BencodeValue := List [Integer (ed_code e); Bytes (ed_description e)].

(** The fields in the order of their declaration; a field that is not an
    [Option] is always there. *)
Definition find_node_fields (r : FindNodeRequest) : list (list Z * option BencodeValue) :=
  [(key "id", Some (Bytes (fn_id r))); (key "target", Some (Bytes (fn_target r))); (key "want", want_value <$> fn_want r)].

Definition get_peers_fields (r : GetPeersRequest) : list (list Z * option BencodeValue) :=
  [(key "id", Some (Bytes (gp_id r))); (key "info_hash", Some (Bytes (gp_info_hash r))); (key "want", want_value <$> gp_want r)].

Definition ping_fields (r : PingRequest) : list (list Z * option BencodeValue) := [(key "id", Some (Bytes (pg_id r)))].

Definition announce_fields (a : AnnouncePeer) : list (list Z * option BencodeValue) :=
  [(key "id", Some (Bytes (an_id a))); (key "implied_port", Some (Integer (an_implied_port a)));
   (key "info_hash", Some (Bytes (an_info_hash a))); (key "port", Some (Integer (an_port a))); (key "token", Some (Bytes (an_token a)))].

Definition get_fields (r : Bep44GetRequest) : list (list Z * option BencodeValue) :=
  [(key "id", Some (Bytes (bg_id r))); (key "target", Some (Bytes (bg_target r))); (key "seq", Integer <$> bg_seq r)].

Definition put_fields (r : Bep44PutRequest) : list (list Z * option BencodeValue) :=
  [(key "id", Some (Bytes (bp_id r))); (key "token", Some (Bytes (bp_token r))); (key "k", Some (Bytes (bp_k r)));
   (key "sig", Some (Bytes (bp_sig r))); (key "seq", Some (Integer (bp_seq r))); (key "v", Some (Bytes (bp_v r)));
   (key "salt", Bytes <$> bp_salt r); (key "cas", Integer <$> bp_cas r)].

Definition response_fields (r : Response) : list (list Z * option BencodeValue) :=
  [(key "values", (fun l => List (addr_value <$> l)) <$> rs_values r); (key "id", Some (Bytes (rs_id r)));
   (key "nodes", Bytes <$> rs_nodes r); (key "nodes6", Bytes <$> rs_nodes6 r); (key "token", Bytes <$> rs_token r);
   (key "v", Bytes <$> rs_v r); (key "k", Bytes <$> rs_k r); (key "sig", Bytes <$> rs_sig r); (key "seq", Integer <$> rs_seq r)].

Definition raw_fields (y : MessageType) (t : list Z) (e r : option BencodeValue) (q : option (list Z)) (a : option BencodeValue)
    (v : option (list Z)) (ip : option SocketAddr) : list (list Z * option BencodeValue) :=
  [(key "y", Some (Bytes (type_name y))); (key "t", Some (Bytes t)); (key "e", e); (key "r", r); (key "q", Bytes <$> q); (key "a", a);
   (key "v", Bytes <$> v); (key "ip", addr_value <$> ip)].

Definition request_parts (k : MessageKind) : option (list Z * list (list Z * option BencodeValue)) :=
  match k with
  | KGetPeersRequest r => Some (key "get_peers", get_peers_fields r)
  | KFindNodeRequest r => Some (key "find_node", find_node_fields r)
  | KPingRequest r => Some (key "ping", ping_fields r)
  | KAnnouncePeer a => Some (key "announce_peer", announce_fields a)
  | KBep44GetRequest r => Some (key "get", get_fields r)
  | KBep44PutRequest r => Some (key "put", put_fields r)
  | KError _ | KResponse _ => None
  end.

Definition message_value (m : Message) : BencodeValue :=
  dict (match m_kind m with
        | KError e => raw_fields TError (m_transaction_id m) (Some (error_value e)) None None None (m_version m) (m_ip m)
        | KResponse r => raw_fields TResponse (m_transaction_id m) None (Some (dict (response_fields r))) None None (m_version m) (m_ip m)
        | k =>
            match request_parts k with
            | Some (name, args) =>
                raw_fields TRequest (m_transaction_id m) None None (Some name) (Some (dict args)) (m_version m) (m_ip m)
            | None => []  (* no such kind *)
            end
        end).

Definition serialize_message (m : Message) : list Z := serialize (message_value m).

(** ** Reading *)

Inductive MessageError := Malformed (e : DeError) | UnsupportedMethod | WrongParts.

Section reader.
Variable atoi_i64 atoi_i32 atoi_u16 atoi_u8 atoi_usize : list Z -> Z * nat.
Local Abbreviation bytes := (de_bytes atoi_usize).
Local Abbreviation skip := (skip_value atoi_i64 atoi_usize).
Local Abbreviation struct := (de_struct atoi_i64 atoi_usize).

Definition de_type : Decoder Field := de_check (fun b =>
  if bool_decide (b = key "q") then Ok (VType TRequest)
  else if bool_decide (b = key "r") then Ok (VType TResponse)
  else if bool_decide (b = key "e") then Ok (VType TError)
  else Err InvalidContent) bytes.

(** [Id::deserialize] takes anything and accepts bytes. *)
Definition de_id : Decoder Field := fun fuel de =>
  match head (de_buf de) with
  | None => Done (Err (DeSyntax Eof))
  | Some c =>
      if (c =? ch_d) || (c =? ch_l) then Done (Err InvalidType)
      else if c =? ch_i then
        r ←?! de_int atoi_i64 fuel de;
        Done (Err InvalidType)
      else de_check (fun b => if (length b =? 20)%nat then Ok (VBytes b) else Err InvalidLength) bytes fuel de
  end.

Definition want_step (w : bool * bool) (item : list Z) : bool * bool :=
  if bool_decide (item = key "n4") then (true, w.2)
  else if bool_decide (item = key "n6") then (w.1, true)
  else w.

Definition de_want : Decoder Field := de_fmap (fun items =>
  VWant (match foldl want_step (false, false) items with
         | (true, true) => WantBoth
         | (true, false) => WantV4
         | (false, true) => WantV6
         | (false, false) => WantNone
         end)) (de_seq bytes).

Definition de_socket_addr : Decoder SocketAddr := de_check (fun b => ok_or (from_slice b) InvalidContent) bytes.

Definition de_nodes (fixed_len : nat) : Decoder Field := de_check (fun b =>
  if negb (length b mod fixed_len =? 0)%nat then Err InvalidLength else Ok (VBytes b)) bytes.

Definition de_error : Decoder Field := fun fuel de =>
  r ←?! Done (lift (parse_first_byte de ch_l InvalidValue));
  if starts_with_e r.2 then Done (Err InvalidLength)
  else
    code ←?! de_int atoi_i32 fuel r.2;
    if starts_with_e code.2 then Done (Err InvalidLength)
    else
      description ←?! bytes fuel code.2;
      if starts_with_e description.2
      then Done (Ok (VError (mkErrorDescription code.1 description.1), skip_end description.2))
      else
        _ ←?! skip fuel description.2;
        Done (Err InvalidLength).

Local Abbreviation f_bytes := (de_fmap VBytes bytes).
Local Abbreviation f_int atoi := (de_fmap VInt (de_int atoi)).

Definition de_find_node : Decoder Field := de_check (fun st =>
  id ←? required as_bytes (key "id") st; target ←? required as_bytes (key "target") st;
  Ok (VKind (KFindNodeRequest (mkFindNode id target (optional as_want (key "want") st)))))
  (struct [(key "id", de_id); (key "target", de_id); (key "want", de_want)]).

Definition de_get_peers : Decoder Field := de_check (fun st =>
  id ←? required as_bytes (key "id") st; info_hash ←? required as_bytes (key "info_hash") st;
  Ok (VKind (KGetPeersRequest (mkGetPeers id info_hash (optional as_want (key "want") st)))))
  (struct [(key "id", de_id); (key "info_hash", de_id); (key "want", de_want)]).

Definition de_ping : Decoder Field := de_check (fun st =>
  id ←? required as_bytes (key "id") st; Ok (VKind (KPingRequest (mkPing id)))) (struct [(key "id", de_id)]).

Definition de_announce_peer : Decoder Field := de_check (fun st =>
  id ←? required as_bytes (key "id") st; implied_port ←? required as_int (key "implied_port") st;
  info_hash ←? required as_bytes (key "info_hash") st; port ←? required as_int (key "port") st;
  token ←? required as_bytes (key "token") st;
  Ok (VKind (KAnnouncePeer (mkAnnouncePeer id implied_port info_hash port token))))
  (struct [(key "id", de_id); (key "implied_port", f_int atoi_u8); (key "info_hash", de_id); (key "port", f_int atoi_u16);
           (key "token", f_bytes)]).

Definition de_bep44_get : Decoder Field := de_check (fun st =>
  id ←? required as_bytes (key "id") st; target ←? required as_bytes (key "target") st;
  Ok (VKind (KBep44GetRequest (mkBep44Get id target (optional as_int (key "seq") st)))))
  (struct [(key "id", de_id); (key "target", de_id); (key "seq", f_int atoi_i64)]).

Definition de_bep44_put : Decoder Field := de_check (fun st =>
  id ←? required as_bytes (key "id") st; token ←? required as_bytes (key "token") st; k ←? required as_bytes (key "k") st;
  sig ←? required as_bytes (key "sig") st; seq ←? required as_int (key "seq") st; v ←? required as_bytes (key "v") st;
  Ok (VKind (KBep44PutRequest (mkBep44Put id token k sig seq v (optional as_bytes (key "salt") st) (optional as_int (key "cas") st)))))
  (struct [(key "id", de_id); (key "token", f_bytes); (key "k", f_bytes); (key "sig", f_bytes); (key "seq", f_int atoi_i64);
           (key "v", f_bytes); (key "salt", f_bytes); (key "cas", f_int atoi_i64)]).

Definition de_response : Decoder Field := de_check (fun st =>
  id ←? required as_bytes (key "id") st;
  Ok (VKind (KResponse (mkResponse (optional as_addrs (key "values") st) id (optional as_bytes (key "nodes") st)
    (optional as_bytes (key "nodes6") st) (optional as_bytes (key "token") st) (optional as_bytes (key "v") st)
    (optional as_bytes (key "k") st) (optional as_bytes (key "sig") st) (optional as_int (key "seq") st)))))
  (struct [(key "values", de_fmap VAddrs (de_seq de_socket_addr)); (key "id", de_id);
           (key "nodes", de_nodes (fixed_len (T := Node SocketAddrV4))); (key "nodes6", de_nodes (fixed_len (T := Node SocketAddrV6)));
           (key "token", f_bytes); (key "v", f_bytes); (key "k", f_bytes); (key "sig", f_bytes); (key "seq", f_int atoi_i64)]).

Definition de_skipped : Decoder Field := de_fmap (fun _ => VSkipped) skip.

Record RawMessage := mkRaw {
  rm_type : MessageType;
  rm_transaction_id : list Z;
  rm_error : option ErrorDescription;
  rm_response : option Field;
  rm_method_name : option (list Z);
  rm_arguments : option Field;
  rm_version : option (list Z);
  rm_ip : option SocketAddr;
}.

Definition raw_decoders (args resp : Decoder Field) : list (list Z * Decoder Field) :=
  [(key "y", de_type); (key "t", f_bytes); (key "e", de_error); (key "r", resp); (key "q", f_bytes); (key "a", args);
   (key "v", f_bytes); (key "ip", de_fmap VAddr de_socket_addr)].

Definition de_raw (args resp : Decoder Field) : Decoder RawMessage := de_check (fun st =>
  y ←? required as_type (key "y") st; t ←? required as_bytes (key "t") st;
  Ok (mkRaw y t (optional as_error (key "e") st) (find (key "r") st) (optional as_bytes (key "q") st) (find (key "a") st)
        (optional as_bytes (key "v") st) (optional as_addr (key "ip") st)))
  (struct (raw_decoders args resp)).

Definition read_raw (args resp : Decoder Field) (buf : list Z) : outcome (result MessageError RawMessage) :=
  r ←! decode (de_raw args resp) buf;
  Done (match r with Ok raw => Ok raw | Err e => Err (Malformed e) end).

(** [de.arguments.unwrap()] and the like: the part is there, as in the first
    reading. *)
Definition unwrap_kind (f : option Field) : outcome MessageKind :=
  match f with Some (VKind k) => Done k | _ => Panic end.

Definition message_of (de : RawMessage) (kind : MessageKind) : Message :=
  mkMessage kind (rm_transaction_id de) (rm_version de) (rm_ip de).

Definition read_request (args : Decoder Field) (buf : list Z) : outcome (result MessageError Message) :=
  de ←?! read_raw args de_skipped buf;
  kind ←! unwrap_kind (rm_arguments de);
  Done (Ok (message_of de kind)).

Definition request_decoder (method_name : list Z) : option (Decoder Field) :=
  if bool_decide (method_name = key "find_node") then Some de_find_node
  else if bool_decide (method_name = key "get_peers") then Some de_get_peers
  else if bool_decide (method_name = key "ping") then Some de_ping
  else if bool_decide (method_name = key "announce_peer") then Some de_announce_peer
  else if bool_decide (method_name = key "get") then Some de_bep44_get
  else if bool_decide (method_name = key "put") then Some de_bep44_put
  else None.

Definition deserialize_message (buf : list Z) : outcome (result MessageError Message) :=
  de ←?! read_raw de_skipped de_skipped buf;
  match rm_type de with
  | TRequest =>
      match rm_arguments de, rm_method_name de, rm_response de, rm_error de with
      | Some _, Some method_name, None, None =>
          match request_decoder method_name with
          | Some args => read_request args buf
          | None => Done (Err UnsupportedMethod)
          end
      | _, _, _, _ => Done (Err WrongParts)
      end
  | TResponse =>
      match rm_arguments de, rm_response de, rm_error de with
      | None, Some _, None =>
          de ←?! read_raw de_skipped de_response buf;
          kind ←! unwrap_kind (rm_response de);
          Done (Ok (message_of de kind))
      | _, _, _ => Done (Err WrongParts)
      end
  | TError =>
      match rm_arguments de, rm_response de, rm_error de with
      | None, None, Some _ =>
          de ←?! read_raw de_skipped de_response buf;
          match rm_error de with
          | Some e => Done (Ok (message_of de (KError e)))
          | None => Panic
          end
      | _, _, _ => Done (Err WrongParts)
      end
  end.
End reader.

(** ** Reading back what was written *)

(** What the structures hold: ids of twenty bytes, numbers of their width. *)
Definition wf_kind (k : MessageKind) : Prop :=
  match k with
  | KError e => is_i32 (ed_code e) /\ fits (ed_description e)
  | KGetPeersRequest r => length (gp_id r) = 20%nat /\ length (gp_info_hash r) = 20%nat
  | KFindNodeRequest r => length (fn_id r) = 20%nat /\ length (fn_target r) = 20%nat
  | KPingRequest r => length (pg_id r) = 20%nat
  | KAnnouncePeer a => length (an_id a) = 20%nat /\ is_u8 (an_implied_port a) /\ length (an_info_hash a) = 20%nat /\
      is_u16 (an_port a) /\ fits (an_token a)
  | KBep44GetRequest r => length (bg_id r) = 20%nat /\ length (bg_target r) = 20%nat /\ all_opt is_i64 (bg_seq r)
  | KBep44PutRequest r => length (bp_id r) = 20%nat /\ fits (bp_token r) /\ fits (bp_k r) /\ fits (bp_sig r) /\ is_i64 (bp_seq r) /\
      fits (bp_v r) /\ all_opt fits (bp_salt r) /\ all_opt is_i64 (bp_cas r)
  | KResponse r => all_opt (Forall wf_addr) (rs_values r) /\ length (rs_id r) = 20%nat /\
      all_opt (fun b => fits b /\ length b mod 26 = 0)%nat (rs_nodes r) /\ all_opt (fun b => fits b /\ length b mod 38 = 0)%nat (rs_nodes6 r) /\
      all_opt fits (rs_token r) /\ all_opt fits (rs_v r) /\ all_opt fits (rs_k r) /\ all_opt fits (rs_sig r) /\ all_opt is_i64 (rs_seq r)
  end.

Record wf_message (m : Message) : Prop := {
  wm_kind : wf_kind (m_kind m);
  wm_transaction_id : fits (m_transaction_id m);
  wm_version : all_opt fits (m_version m);
  wm_ip : all_opt wf_addr (m_ip m);
}.

Section codec.
Variable atoi_i64 atoi_i32 atoi_u16 atoi_u8 atoi_usize : list Z -> Z * nat.
Hypothesis Hi64 : atoi_spec (- 9223372036854775808) 9223372036854775808 atoi_i64.
Hypothesis Hi32 : atoi_spec (- 2147483648) 2147483648 atoi_i32.
Hypothesis Hu16 : atoi_spec 0 U16 atoi_u16.
Hypothesis Hu8 : atoi_spec 0 U8 atoi_u8.
Hypothesis Husize : atoi_spec 0 U64 atoi_usize.

Lemma reads_f_bytes b : fits b -> reads (de_fmap VBytes (de_bytes atoi_usize)) (Bytes b) (VBytes b).
Proof. intros Hb. by apply reads_fmap, reads_bytes. Qed.

Lemma reads_f_i64 i : is_i64 i -> reads (de_fmap VInt (de_int atoi_i64)) (Integer i) (VInt i).
Proof. intros Hi. by eapply reads_fmap, reads_int. Qed.

Lemma reads_id b : length b = 20%nat -> reads (de_id atoi_i64 atoi_usize) (Bytes b) (VBytes b).
Proof.
  intros Hb. assert (Hf : fits b) by (unfold fits; lia).
  assert (Hr : reads (de_check (fun b => if (length b =? 20)%nat then Ok (VBytes b) else Err InvalidLength) (de_bytes atoi_usize)) (Bytes b) (VBytes b)).
  { eapply reads_check; [by apply reads_bytes|]. cbn beta. by rewrite Hb. }
  intros fuel rest ctx dnf Hc Hl. specialize (Hr fuel rest ctx dnf Hc Hl). unfold de_id. cbn [serialize de_buf] in *.
  destruct (write_bytes_head b) as (c & l & Hw & Hd). rewrite Hw in *. cbn [app head] in *. unfold is_digit in Hd.
  destruct (Z.eqb_spec c ch_d) as [->|]; [done|]. destruct (Z.eqb_spec c ch_l) as [->|]; [done|].
  destruct (Z.eqb_spec c ch_i) as [->|]; [done|]. done.
Qed.

Lemma reads_want w : reads (de_want atoi_usize) (want_value w) (VWant w).
Proof.
  assert (Hb : forall s, (length (key s) < 10)%nat -> reads (de_bytes atoi_usize) (Bytes (key s)) (key s)).
  { intros s Hs. apply reads_bytes; [done|]. lia. }
  destruct w; cbn [want_value]; (eapply reads_check; [apply reads_seq; repeat constructor; apply Hb; cbn; lia|]); done.
Qed.

Lemma addr_fits a : wf_addr a -> fits (addr_as_slice a).
Proof.
  intros _. unfold fits, addr_as_slice. rewrite length_app, !length_be_bytes. destruct (sa_ipv6 a); cbn; lia.
Qed.

Lemma reads_socket_addr a : wf_addr a -> reads (de_socket_addr atoi_usize) (addr_value a) a.
Proof.
  intros Ha. eapply reads_check; [by apply reads_bytes, addr_fits|]. by rewrite addr_roundtrip.
Qed.

Lemma reads_addrs l : Forall wf_addr l -> reads (de_fmap VAddrs (de_seq (de_socket_addr atoi_usize))) (List (addr_value <$> l)) (VAddrs l).
Proof.
  intros Hl. apply reads_fmap, reads_seq. induction Hl as [|a l Ha _ IH]; constructor; [by apply reads_socket_addr|done].
Qed.

Lemma reads_nodes n b : fits b -> (length b mod n = 0)%nat -> reads (de_nodes atoi_usize n) (Bytes b) (VBytes b).
Proof. intros Hb Hn. eapply reads_check; [by apply reads_bytes|]. by rewrite Hn. Qed.

Lemma reads_error e : is_i32 (ed_code e) -> fits (ed_description e) ->
  reads (de_error atoi_i64 atoi_i32 atoi_usize) (error_value e) (VError e).
Proof.
  intros Hc Hd fuel rest ctx dnf Hr Hl. unfold de_error, error_value. cbn [serialize map concat]. rewrite app_nil_r.
  cbn [app]. rewrite first_byte_read. cbn [lift try_bind snd]. rewrite <- !app_assoc. cbn [app].
  rewrite (serialize_not_end (Integer (ed_code e))). unfold de_int.
  rewrite (parse_integer_written _ _ _ _ _ _ _ Hi32) by done. cbn [lift try_bind fst snd].
  rewrite bytes_not_end. unfold de_bytes. rewrite parse_bytes_written by done. cbn [lift try_bind fst snd].
  destruct (end_read rest ctx dnf) as [-> ->]. by destruct e.
Qed.

Lemma reads_ping r : wf_kind (KPingRequest r) -> reads (de_ping atoi_i64 atoi_usize) (dict (ping_fields r)) (VKind (KPingRequest r)).
Proof.
  intros Hi. unfold de_ping, dict. read_fields Hi64 Husize [(key "id", Some (VBytes (pg_id r)))].
  - one_field. by apply reads_id.
  - by destruct r.
Qed.

Lemma reads_find_node r : wf_kind (KFindNodeRequest r) ->
  reads (de_find_node atoi_i64 atoi_usize) (dict (find_node_fields r)) (VKind (KFindNodeRequest r)).
Proof.
  intros (Hi & Ht). unfold de_find_node, dict.
  read_fields Hi64 Husize [(key "id", Some (VBytes (fn_id r))); (key "target", Some (VBytes (fn_target r))); (key "want", VWant <$> fn_want r)].
  - one_field. by apply reads_id.
  - one_field. by apply reads_id.
  - opt_field (fn_want r). apply reads_want.
  - by destruct r as [? ? []].
Qed.

Lemma reads_get_peers r : wf_kind (KGetPeersRequest r) ->
  reads (de_get_peers atoi_i64 atoi_usize) (dict (get_peers_fields r)) (VKind (KGetPeersRequest r)).
Proof.
  intros (Hi & Ht). unfold de_get_peers, dict.
  read_fields Hi64 Husize [(key "id", Some (VBytes (gp_id r))); (key "info_hash", Some (VBytes (gp_info_hash r))); (key "want", VWant <$> gp_want r)].
  - one_field. by apply reads_id.
  - one_field. by apply reads_id.
  - opt_field (gp_want r). apply reads_want.
  - by destruct r as [? ? []].
Qed.

Lemma reads_announce a : wf_kind (KAnnouncePeer a) ->
  reads (de_announce_peer atoi_i64 atoi_u16 atoi_u8 atoi_usize) (dict (announce_fields a)) (VKind (KAnnouncePeer a)).
Proof.
  intros (Hi & Hp & Hh & Hq & Ht). unfold de_announce_peer, dict.
  read_fields Hi64 Husize [(key "id", Some (VBytes (an_id a))); (key "implied_port", Some (VInt (an_implied_port a)));
    (key "info_hash", Some (VBytes (an_info_hash a))); (key "port", Some (VInt (an_port a))); (key "token", Some (VBytes (an_token a)))].
  - one_field. by apply reads_id.
  - one_field. by eapply reads_fmap, reads_int.
  - one_field. by apply reads_id.
  - one_field. by eapply reads_fmap, reads_int.
  - one_field. by apply reads_f_bytes.
  - by destruct a.
Qed.

Lemma reads_bep44_get r : wf_kind (KBep44GetRequest r) ->
  reads (de_bep44_get atoi_i64 atoi_usize) (dict (get_fields r)) (VKind (KBep44GetRequest r)).
Proof.
  intros (Hi & Ht & Hs). unfold de_bep44_get, dict.
  read_fields Hi64 Husize [(key "id", Some (VBytes (bg_id r))); (key "target", Some (VBytes (bg_target r))); (key "seq", VInt <$> bg_seq r)].
  - one_field. by apply reads_id.
  - one_field. by apply reads_id.
  - opt_field (bg_seq r). by apply reads_f_i64.
  - by destruct r as [? ? []].
Qed.

Lemma reads_bep44_put r : wf_kind (KBep44PutRequest r) ->
  reads (de_bep44_put atoi_i64 atoi_usize) (dict (put_fields r)) (VKind (KBep44PutRequest r)).
Proof.
  intros (Hi & Ht & Hk & Hg & Hs & Hv & Hsalt & Hcas). unfold de_bep44_put, dict.
  read_fields Hi64 Husize [(key "id", Some (VBytes (bp_id r))); (key "token", Some (VBytes (bp_token r))); (key "k", Some (VBytes (bp_k r)));
    (key "sig", Some (VBytes (bp_sig r))); (key "seq", Some (VInt (bp_seq r))); (key "v", Some (VBytes (bp_v r)));
    (key "salt", VBytes <$> bp_salt r); (key "cas", VInt <$> bp_cas r)].
  - one_field. by apply reads_id.
  - one_field. by apply reads_f_bytes.
  - one_field. by apply reads_f_bytes.
  - one_field. by apply reads_f_bytes.
  - one_field. by apply reads_f_i64.
  - one_field. by apply reads_f_bytes.
  - opt_field (bp_salt r). by apply reads_f_bytes.
  - opt_field (bp_cas r). by apply reads_f_i64.
  - by destruct r as [? ? ? ? ? ? [] []].
Qed.

Lemma reads_response r : wf_kind (KResponse r) ->
  reads (de_response atoi_i64 atoi_usize) (dict (response_fields r)) (VKind (KResponse r)).
Proof.
  intros (Hvs & Hi & Hn & Hn6 & Ht & Hv & Hk & Hg & Hs). unfold de_response, dict.
  read_fields Hi64 Husize [(key "values", VAddrs <$> rs_values r); (key "id", Some (VBytes (rs_id r))); (key "nodes", VBytes <$> rs_nodes r);
    (key "nodes6", VBytes <$> rs_nodes6 r); (key "token", VBytes <$> rs_token r); (key "v", VBytes <$> rs_v r);
    (key "k", VBytes <$> rs_k r); (key "sig", VBytes <$> rs_sig r); (key "seq", VInt <$> rs_seq r)].
  - opt_field (rs_values r). by apply reads_addrs.
  - one_field. by apply reads_id.
  - opt_field (rs_nodes r). by apply reads_nodes; apply Hn.
  - opt_field (rs_nodes6 r). by apply reads_nodes; apply Hn6.
  - opt_field (rs_token r). by apply reads_f_bytes.
  - opt_field (rs_v r). by apply reads_f_bytes.
  - opt_field (rs_k r). by apply reads_f_bytes.
  - opt_field (rs_sig r). by apply reads_f_bytes.
  - opt_field (rs_seq r). by apply reads_f_i64.
  - assert (Ho : forall {A B} (f : A -> B) (g : B -> option A) (o : option A), (forall a, g (f a) = Some a) -> (f <$> o) ≫= g = o).
    { intros A B f g [x|] Hg'; cbn; [by rewrite Hg'|done]. }
    cbn [mbind option_bind id]. destruct r; cbn. repeat f_equal; by apply Ho.
Qed.

Lemma wf_want w : wf_value (want_value w).
Proof. destruct w; cbn; lia. Qed.

Lemma wf_addrs l : Forall wf_addr l -> wf_value (List (addr_value <$> l)).
Proof. induction 1 as [|a l Ha _ IH]; [done|]. split; [by apply addr_fits|exact IH]. Qed.

Ltac fields_wf := repeat (apply Forall_cons; split); [..|apply Forall_nil; done]; (split; [unfold fits; cbn; lia|cbn [fst snd all_opt]]).
Ltac wf_one :=
  match goal with
  | |- wf_value (Integer _) => cbn; unfold is_u8, is_u16, is_i64 in *; lia
  | |- all_opt wf_value (_ <$> ?o) => destruct o; cbn [fmap option_fmap option_map all_opt] in *;
      [first [apply wf_want | by apply wf_addrs | match goal with H : _ /\ _ |- _ => apply H end | assumption] | done]
  | |- _ => assumption || auto
  end.

Lemma wf_request k name args : wf_kind k -> request_parts k = Some (name, args) -> wf_value (dict args).
Proof.
  assert (H20 : forall b, length b = 20%nat -> wf_value (Bytes b)) by (intros b Hb; change (fits b); unfold fits; lia).
  intros Hk. destruct k; cbn [request_parts]; intros [= <- <-]; apply wf_dict; cbn [wf_kind] in Hk; destruct_and? Hk; fields_wf; wf_one.
Qed.

Lemma wf_response r : wf_kind (KResponse r) -> wf_value (dict (response_fields r)).
Proof.
  assert (H20 : forall b, length b = 20%nat -> wf_value (Bytes b)) by (intros b Hb; change (fits b); unfold fits; lia).
  intros Hk. apply wf_dict. cbn [wf_kind] in Hk. destruct_and? Hk. fields_wf; wf_one.
Qed.

Lemma depth_request k name args : request_parts k = Some (name, args) -> (depth (dict args) <= 1)%nat.
Proof.
  destruct k; cbn [request_parts]; intros [= <- <-]; apply depth_dict; repeat (apply Forall_cons; split); try (apply Forall_nil; done);
    cbn [snd all_opt]; try (cbn; lia).
  all: match goal with |- all_opt _ (_ <$> ?o) => destruct o as [w|]; [try destruct w; cbn; lia|done] end.
Qed.

Lemma depth_response r : (depth (dict (response_fields r)) <= 1)%nat.
Proof.
  apply depth_dict; repeat (apply Forall_cons; split); try (apply Forall_nil; done); cbn [snd all_opt]; try (cbn; lia).
  all: match goal with |- all_opt _ (_ <$> ?o) => destruct o as [w|]; [|done] end; cbn [fmap option_fmap option_map all_opt]; try (cbn; lia).
  induction w; cbn in *; lia.
Qed.

(** A raw message is read, its arguments and its response as their decoders do. *)
Lemma reads_raw args resp y t (e : option ErrorDescription) (r : option (BencodeValue * Field)) q (a : option (BencodeValue * Field)) v ip :
  fits t -> all_opt (fun e => is_i32 (ed_code e) /\ fits (ed_description e)) e -> all_opt (fun p => reads resp p.1 p.2) r ->
  all_opt fits q -> all_opt (fun p => reads args p.1 p.2) a -> all_opt fits v -> all_opt wf_addr ip ->
  reads (de_raw atoi_i64 atoi_i32 atoi_usize args resp) (dict (raw_fields y t (error_value <$> e) (fst <$> r) q (fst <$> a) v ip))
    (mkRaw y t e (snd <$> r) q (snd <$> a) v ip).
Proof.
  intros Ht He Hr Hq Ha Hv Hip. unfold de_raw, raw_decoders, dict.
  read_fields Hi64 Husize [(key "y", Some (VType y)); (key "t", Some (VBytes t)); (key "e", VError <$> e); (key "r", snd <$> r); (key "q", VBytes <$> q);
    (key "a", snd <$> a); (key "v", VBytes <$> v); (key "ip", VAddr <$> ip)].
  - one_field. destruct y; (eapply reads_check; [apply reads_bytes; [done|cbn; lia]|]); done.
  - one_field. by apply reads_f_bytes.
  - opt_field e. by apply reads_error; apply He.
  - opt_field r. exact Hr.
  - opt_field q. by apply reads_f_bytes.
  - opt_field a. exact Ha.
  - opt_field v. by apply reads_f_bytes.
  - opt_field ip. by apply reads_fmap, reads_socket_addr.
  - by destruct e, r, q, a, v, ip.
Qed.
Lemma read_raw_written args resp y t (e : option ErrorDescription) (r : option (BencodeValue * Field)) q (a : option (BencodeValue * Field)) v ip :
  fits t -> all_opt (fun e => is_i32 (ed_code e) /\ fits (ed_description e)) e ->
  all_opt (fun p => reads resp p.1 p.2 /\ (depth p.1 <= 1)%nat) r ->
  all_opt fits q -> all_opt (fun p => reads args p.1 p.2 /\ (depth p.1 <= 1)%nat) a -> all_opt fits v -> all_opt wf_addr ip ->
  read_raw atoi_i64 atoi_i32 atoi_usize args resp
    (serialize (dict (raw_fields y t (error_value <$> e) (fst <$> r) q (fst <$> a) v ip))) = Done (Ok (mkRaw y t e (snd <$> r) q (snd <$> a) v ip)).
Proof.
  intros Ht He Hr Hq Ha Hv Hip. unfold read_raw. erewrite decode_written; [done| |].
  - apply reads_raw; try done; [by destruct r; [apply Hr|]|by destruct a; [apply Ha|]].
  - etrans; [apply (depth_dict 1)|lia]. repeat (apply Forall_cons; split); try (apply Forall_nil; done); cbn [snd all_opt]; try (cbn; lia).
    + by destruct e; cbn; [lia|].
    + by destruct r; [apply Hr|].
    + by destruct q; cbn; [lia|].
    + by destruct a; [apply Ha|].
    + by destruct v; cbn; [lia|].
    + by destruct ip; cbn; [lia|].
Qed.

Lemma reads_skipped v : wf_value v -> reads (de_skipped atoi_i64 atoi_usize) v VSkipped.
Proof. intros Hv. unfold de_skipped. by apply (reads_fmap (fun _ => VSkipped) _ _ tt), reads_skip. Qed.

Lemma request_reads k name args : wf_kind k -> request_parts k = Some (name, args) ->
  exists d, request_decoder atoi_i64 atoi_u16 atoi_u8 atoi_usize name = Some d /\ reads d (dict args) (VKind k) /\ fits name.
Proof.
  intros Hk. unfold request_decoder. destruct k; cbn [request_parts]; intros [= <- <-]; key_simpl; (eexists; split; [reflexivity|]);
    (split; [|unfold fits; cbn; lia]).
  - by apply reads_get_peers.
  - by apply reads_find_node.
  - by apply reads_ping.
  - by apply reads_announce.
  - by apply reads_bep44_get.
  - by apply reads_bep44_put.
Qed.

Local Abbreviation deserialize := (deserialize_message atoi_i64 atoi_i32 atoi_u16 atoi_u8 atoi_usize).

Lemma request_roundtrip k name args t v ip : wf_kind k -> fits t -> all_opt fits v -> all_opt wf_addr ip -> request_parts k = Some (name, args) ->
  deserialize (serialize (dict (raw_fields TRequest t None None (Some name) (Some (dict args)) v ip))) = Done (Ok (mkMessage k t v ip)).
Proof.
  intros Hk Ht Hv Hip Hp. destruct (request_reads k name args Hk Hp) as (d & Hd & Hr & Hn).
  pose proof (wf_request k name args Hk Hp) as Hwf. pose proof (depth_request k name args Hp) as Hdep.
  pose proof (fun a f => read_raw_written a (de_skipped atoi_i64 atoi_usize) TRequest t None None (Some name) (Some (dict args, f)) v ip) as Hread.
  cbn [all_opt fmap option_fmap option_map fst snd] in Hread. unfold deserialize_message.
  rewrite (Hread _ VSkipped) by (done || by split; [apply reads_skipped|]).
  cbn [try_bind rm_type rm_arguments rm_method_name rm_response rm_error]. rewrite Hd. unfold read_request.
  by rewrite (Hread d (VKind k)) by done.
Qed.

Lemma error_roundtrip e t v ip : wf_kind (KError e) -> fits t -> all_opt fits v -> all_opt wf_addr ip ->
  deserialize (serialize (dict (raw_fields TError t (Some (error_value e)) None None None v ip))) = Done (Ok (mkMessage (KError e) t v ip)).
Proof.
  intros He Ht Hv Hip. pose proof (fun a r => read_raw_written a r TError t (Some e) None None None v ip) as Hread.
  cbn [all_opt fmap option_fmap option_map fst snd] in Hread. unfold deserialize_message. rewrite Hread by done.
  cbn [try_bind rm_type rm_arguments rm_method_name rm_response rm_error]. by rewrite Hread by done.
Qed.

Lemma response_roundtrip r t v ip : wf_kind (KResponse r) -> fits t -> all_opt fits v -> all_opt wf_addr ip ->
  deserialize (serialize (dict (raw_fields TResponse t None (Some (dict (response_fields r))) None None v ip))) =
    Done (Ok (mkMessage (KResponse r) t v ip)).
Proof.
  intros Hr Ht Hv Hip. pose proof (wf_response r Hr) as Hwf. pose proof (depth_response r) as Hdep.
  pose proof (fun d f => read_raw_written (de_skipped atoi_i64 atoi_usize) d TResponse t None (Some (dict (response_fields r), f)) None None v ip) as Hread.
  cbn [all_opt fmap option_fmap option_map fst snd] in Hread. unfold deserialize_message.
  rewrite (Hread _ VSkipped) by (done || by split; [apply reads_skipped|]).
  cbn [try_bind rm_type rm_arguments rm_method_name rm_response rm_error].
  by rewrite (Hread (de_response atoi_i64 atoi_usize) (VKind (KResponse r))) by (done || by split; [apply reads_response|]).
Qed.

(** C36: every packet that is sent is read back as it was by a node of this
    code: the kind with all its fields, the transaction id, the version and the
    address; the number scanner reads what is printed for numbers of its width. *)
Theorem krpc_roundtrip m : wf_message m -> deserialize (serialize_message m) = Done (Ok m).
Proof.
  intros [Hk Ht Hv Hip]. destruct m as [k t v ip]. cbn [m_kind m_transaction_id m_version m_ip] in *. unfold serialize_message.
  destruct k as [e|r|r|r|r|a|r|r].
  - by apply error_roundtrip.
  - by apply (request_roundtrip (KGetPeersRequest r) (key "get_peers") (get_peers_fields r)).
  - by apply (request_roundtrip (KFindNodeRequest r) (key "find_node") (find_node_fields r)).
  - by apply response_roundtrip.
  - by apply (request_roundtrip (KPingRequest r) (key "ping") (ping_fields r)).
  - by apply (request_roundtrip (KAnnouncePeer a) (key "announce_peer") (announce_fields a)).
  - by apply (request_roundtrip (KBep44GetRequest r) (key "get") (get_fields r)).
  - by apply (request_roundtrip (KBep44PutRequest r) (key "put") (put_fields r)).
Qed.
End codec.

(** A request, an error and a response with all kinds of fields. *)
Definition ex_id : list Z := seqZ 1 20.
Definition ex_put : Message :=
  mkMessage (KBep44PutRequest (mkBep44Put ex_id [1; 2] [3] [4; 5] 7 [105; 49; 101] (Some [6]) (Some (-1)))) [97; 97] (Some [82; 84])
    (Some (mkSocketAddr false 2130706433 6881)).

Lemma read_spec lo hi : - 9223372036854775808 <= lo -> hi <= 9223372036854775808 -> atoi_spec lo hi read_signed.
Proof. intros Hlo Hhi v rest Hv. apply read_signed_spec. lia. Qed.

Lemma krpc_roundtrip_witness :
  take 12 (serialize_message ex_put) = [100; 49; 58; 97; 100; 51; 58; 99; 97; 115; 105; 45] /\
  deserialize_message read_signed read_signed read_signed read_signed read_unsigned (serialize_message ex_put) = Done (Ok ex_put).
Proof.
  split; [reflexivity|].
  apply (krpc_roundtrip read_signed read_signed read_signed read_signed read_unsigned read_signed_spec
           (read_spec (- 2147483648) 2147483648 ltac:(lia) ltac:(lia)) (read_spec 0 U16 ltac:(lia) ltac:(lia))
           (read_spec 0 U8 ltac:(lia) ltac:(lia)) read_unsigned_spec ex_put).
  split; vm_compute; repeat split; congruence || lia.
Defined.

(** ** Every packet is answered with a message or an error *)
Section returns.
Variable atoi_i64 atoi_i32 atoi_u16 atoi_u8 atoi_usize : list Z -> Z * nat.
Hypothesis usize_digit : forall b v n, atoi_usize b = (v, n) -> (0 < n)%nat -> exists c, head b = Some c /\ is_digit c = true.
Hypothesis Nu16 : narrower atoi_i64 atoi_u16.
Hypothesis Nu8 : narrower atoi_i64 atoi_u8.

Local Abbreviation raw_ds := (raw_decoders atoi_i64 atoi_i32 atoi_usize).
Local Abbreviation raw := (read_raw atoi_i64 atoi_i32 atoi_usize).
Local Abbreviation skipped := (de_skipped atoi_i64 atoi_usize).
Local Abbreviation request := (request_decoder atoi_i64 atoi_u16 atoi_u8 atoi_usize).
Local Abbreviation response := (de_response atoi_i64 atoi_usize).
Local Abbreviation ends := (as_skip atoi_i64 atoi_usize).

Lemma total_id : total_de (de_id atoi_i64 atoi_usize).
Proof.
  intros fuel de Hf. unfold de_id. destruct (de_buf de) as [|c b] eqn:Eb; cbn [head]; [split; [apply returns_d_err|by eexists]|].
  split; [|done]. rewrite <- Eb in Hf |- *. destruct ((c =? ch_d) || (c =? ch_l)); [apply returns_d_err|]. destruct (c =? ch_i).
  - eapply returns_d_bind; [by apply total_int|]. intros a de' _. apply returns_d_err.
  - by apply total_check; [apply total_bytes|].
Qed.

Lemma total_error : total_de (de_error atoi_i64 atoi_i32 atoi_usize).
Proof.
  intros fuel de Hf. unfold de_error. split.
  - destruct (decide (de_buf de = [])) as [Hb|Hb].
    { destruct (parse_first_empty de ch_l InvalidValue Hb) as [[e de'] ->]. apply returns_d_err. }
    apply total_first. intros d1 H1. cbn [snd]. destruct (starts_with_e d1); [apply returns_d_err|].
    eapply returns_d_bind; [apply total_int; lia|]. intros code d2 H2. cbn [snd]. destruct (starts_with_e d2); [apply returns_d_err|].
    eapply returns_d_bind; [apply total_bytes; lia|]. intros description d3 H3. cbn [snd].
    destruct (starts_with_e d3); [apply skip_end_leaves; lia|].
    eapply returns_d_bind; [apply total_skip; lia|]. intros u d4 _. apply returns_d_err.
  - intros Hb. destruct (parse_first_empty de ch_l InvalidValue Hb) as [[e de'] ->]. by eexists.
Qed.

Lemma ends_id : ends (de_id atoi_i64 atoi_usize).
Proof.
  intros fuel de a de'. unfold de_id. destruct (head (de_buf de)) as [c|]; [|done].
  destruct ((c =? ch_d) || (c =? ch_l)); [done|]. destruct (c =? ch_i).
  - by destruct (de_int atoi_i64 fuel de) as [[|]|].
  - by apply (as_skip_check _ _ _ _ (as_skip_bytes _ _ usize_digit)).
Qed.

Hint Resolve total_id total_error : de_total.
Hint Resolve ends_id ends_skip as_skip_bytes as_skip_int narrower_refl : de_ends.

Lemma total_skipped : total_de skipped.
Proof. unfold de_skipped, de_fmap. total_tac. Qed.

Lemma ends_skipped : ends skipped.
Proof. unfold de_skipped, de_fmap. ends_tac. Qed.

Lemma total_response : total_de response.
Proof. unfold de_response, de_nodes, de_socket_addr, de_fmap. total_tac. Qed.

Lemma ends_response : ends response.
Proof. unfold de_response, de_nodes, de_socket_addr, de_fmap. ends_tac. Qed.

(** What a decoder gives is a kind of message. *)
Definition gives_kind (d : Decoder Field) : Prop := forall fuel de f de', d fuel de = Done (Ok (f, de')) -> exists k, f = VKind k.

Lemma check_kind {A} (f : A -> result DeError Field) d : (forall a x, f a = Ok x -> exists k, x = VKind k) -> gives_kind (de_check f d).
Proof.
  intros Hf fuel de x de'. unfold de_check. destruct (d fuel de) as [[[a d']|e]|]; cbn [try_bind fst snd]; [|done|done].
  destruct (f a) as [y|e] eqn:E; [|done]. intros [= -> _]. by eapply Hf.
Qed.

Ltac kind_tac := apply check_kind; intros st x;
  repeat match goal with |- context [result_bind ?r _] => destruct r; cbn [result_bind]; [|done] end; intros [= <-]; by eexists.

Lemma response_kind : gives_kind response.
Proof. kind_tac. Qed.

Lemma request_ok name d : request name = Some d -> total_de d /\ ends d /\ gives_kind d.
Proof.
  unfold request_decoder. repeat case_bool_decide; [..|done]; intros [= <-]; (split; [|split; [|kind_tac]]);
    unfold de_find_node, de_get_peers, de_ping, de_announce_peer, de_bep44_get, de_bep44_put, de_want, de_fmap; total_tac; ends_tac.
Qed.

Lemma total_raw args resp buf : total_de args -> total_de resp -> exists r, raw args resp buf = Done r.
Proof.
  intros Ha Hr. unfold read_raw. destruct (decode_total (de_raw atoi_i64 atoi_i32 atoi_usize args resp) buf) as [r ->].
  - unfold de_raw, raw_decoders, de_type, de_socket_addr, de_fmap. total_tac.
  - by eexists.
Qed.

(** The loop that read a raw message, which starts where that of another one does. *)
Lemma raw_loop args resp buf m : raw args resp buf = Done (Ok m) -> exists de0 st de,
  parse_first_byte (new_from_buf buf) ch_d InvalidValue = Ok (tt, de0) /\
  struct_loop atoi_i64 atoi_usize (raw_ds args resp) (parse_fuel buf) de0 [] = Done (Ok (st, de)) /\
  rm_arguments m = find (key "a") st /\ rm_response m = find (key "r") st /\ rm_error m = optional as_error (key "e") st.
Proof.
  unfold read_raw, decode, decode_with_rest, de_raw, de_check, de_struct.
  destruct (parse_first_byte _ _ _) as [[[] de0]|[e x]]; cbn [lift try_bind snd]; [|done].
  destruct (struct_loop _ _ _ _ _ _) as [[[st de]|e]|] eqn:El; cbn [try_bind fst snd]; [|done|done].
  destruct (required as_type _ st); cbn [result_bind]; [|done]. destruct (required as_bytes _ st); cbn [result_bind try_bind snd]; [|done].
  destruct (_ <? _)%nat; [done|]. intros [= <-]. by exists de0, st, de.
Qed.

Lemma find_keys {V W} k (l1 : list (list Z * V)) (l2 : list (list Z * W)) : l1.*1 = l2.*1 -> is_Some (find k l1) -> is_Some (find k l2).
Proof.
  revert l2. induction l1 as [|[k1 v] l1 IH]; intros [|[k2 w] l2]; [by intros _ [? [=]]|done|done|]. cbn. intros [= -> E].
  unfold find in *. cbn [List.find fst]. case_bool_decide; [by eexists|by apply IH].
Qed.

(** Two readings of a packet find the same parts. *)
Lemma raw_agree a1 r1 a2 r2 buf m1 m2 : ends a1 -> ends a2 -> ends r1 -> ends r2 ->
  raw a1 r1 buf = Done (Ok m1) -> raw a2 r2 buf = Done (Ok m2) -> exists st1 st2 de0 de2,
  (forall k, is_Some (find k st1) -> is_Some (find k st2)) /\
  rm_arguments m1 = find (key "a") st1 /\ rm_response m1 = find (key "r") st1 /\ rm_error m1 = optional as_error (key "e") st1 /\
  rm_arguments m2 = find (key "a") st2 /\ rm_response m2 = find (key "r") st2 /\ rm_error m2 = optional as_error (key "e") st2 /\
  struct_loop atoi_i64 atoi_usize (raw_ds a2 r2) (parse_fuel buf) de0 [] = Done (Ok (st2, de2)).
Proof.
  intros A1 A2 R1 R2 E1 E2. apply raw_loop in E1 as (d1 & s1 & e1 & P1 & L1 & -> & -> & ->).
  apply raw_loop in E2 as (d2 & s2 & e2 & P2 & L2 & -> & -> & ->). rewrite P1 in P2. injection P2 as <-.
  exists s1, s2, d1, e2. split_and!; try done. intros k. apply find_keys.
  eapply (loops_agree atoi_i64 atoi_usize (raw_ds a1 r1) (raw_ds a2 r2)); [|exact L1|exact L2|done].
  repeat (apply Forall2_cons; split; [split; [done|]|]); try apply Forall2_nil; try apply same_end_refl; try done;
    cbn [snd]; by eapply as_skip_same.
Qed.

(** The part of a raw message that is read under a name is what its decoder gives. *)
Lemma raw_part args resp fuel de0 st de k d (P : Field -> Prop) v :
  struct_loop atoi_i64 atoi_usize (raw_ds args resp) fuel de0 [] = Done (Ok (st, de)) -> find k (raw_ds args resp) = Some d ->
  (forall fuel de v de', d fuel de = Done (Ok (v, de')) -> P v) -> find k st = Some v -> P v.
Proof.
  intros L Hd HP Hv. apply find_elem in Hv.
  apply (struct_loop_values _ _ _ (fun k' v => k' = k -> P v)) in L; [|intros k' d' f d1 x d2 Hf Ed ->|done].
  - rewrite Forall_forall in L. by apply (L _ Hv).
  - rewrite Hd in Hf. injection Hf as <-. by eapply HP.
Qed.

Lemma request_returns args buf m : total_de args -> ends args -> gives_kind args ->
  raw skipped skipped buf = Done (Ok m) -> is_Some (rm_arguments m) ->
  exists r, read_request atoi_i64 atoi_i32 atoi_usize args buf = Done r.
Proof.
  intros Ht He Hk E1 Ha. unfold read_request. destruct (total_raw args skipped buf Ht total_skipped) as [[m2|e] E2];
    rewrite E2; cbn [try_bind]; [|by eexists].
  destruct (raw_agree _ _ _ _ _ _ _ ends_skipped He ends_skipped ends_skipped E1 E2)
    as (s1 & s2 & d0 & d2 & Hin & Ha1 & _ & _ & Ha2 & _ & _ & L).
  rewrite Ha1 in Ha. destruct (Hin _ Ha) as [v Hv]. rewrite Ha2, Hv.
  destruct (raw_part _ _ _ _ _ _ (key "a") args (fun v => exists k, v = VKind k) _ L eq_refl Hk Hv) as [k ->]. by eexists.
Qed.

Lemma error_gives fuel de f de' : de_error atoi_i64 atoi_i32 atoi_usize fuel de = Done (Ok (f, de')) -> exists e, f = VError e.
Proof.
  unfold de_error. destruct (lift _) as [[[] d1]|]; cbn [try_bind snd]; [|done]. destruct (starts_with_e d1); [done|].
  destruct (de_int _ _ _) as [[[c d2]|]|]; cbn [try_bind snd]; [|done|done]. destruct (starts_with_e d2); [done|].
  destruct (de_bytes _ _ _) as [[[b d3]|]|]; cbn [try_bind fst snd]; [|done|done]. destruct (starts_with_e d3).
  - intros [= <- _]. by eexists.
  - by destruct (skip_value _ _ _ _) as [[|]|].
Qed.

(** C37: whatever a packet holds, reading it ends with a message or an error.  The
    part that the first reading found is there in the second one, whatever its
    types, so no [unwrap] of it panics. *)
Theorem deserialize_message_returns buf :
  exists r, deserialize_message atoi_i64 atoi_i32 atoi_u16 atoi_u8 atoi_usize buf = Done r.
Proof.
  unfold deserialize_message. destruct (total_raw skipped skipped buf total_skipped total_skipped) as [[m|e] E]; rewrite E; cbn [try_bind]; [|by eexists].
  destruct (rm_type m).
  - destruct (rm_arguments m) as [a|] eqn:Ea, (rm_method_name m) as [name|], (rm_response m), (rm_error m); try by eexists.
    destruct (request name) as [d|] eqn:Ed; [|by eexists]. destruct (request_ok name d Ed) as (Ht & He & Hk).
    eapply request_returns; [done|done|done|exact E|]. by rewrite Ea.
  - destruct (rm_arguments m), (rm_response m) as [x|] eqn:Er, (rm_error m); try by eexists.
    destruct (total_raw skipped response buf total_skipped total_response) as [[m2|e] E2]; rewrite E2; cbn [try_bind]; [|by eexists].
    destruct (raw_agree _ _ _ _ _ _ _ ends_skipped ends_skipped ends_skipped ends_response E E2)
      as (s1 & s2 & d0 & d2 & Hin & _ & Hr1 & _ & _ & Hr2 & _ & L).
    destruct (Hin (key "r")) as [v Hv]; [by rewrite <- Hr1, Er|]. rewrite Hr2, Hv.
    destruct (raw_part _ _ _ _ _ _ (key "r") response (fun v => exists k, v = VKind k) _ L eq_refl response_kind Hv) as [k ->]. by eexists.
  - destruct (rm_arguments m), (rm_response m), (rm_error m) as [x|] eqn:Er; try by eexists.
    destruct (total_raw skipped response buf total_skipped total_response) as [[m2|e] E2]; rewrite E2; cbn [try_bind]; [|by eexists].
    destruct (raw_agree _ _ _ _ _ _ _ ends_skipped ends_skipped ends_skipped ends_response E E2)
      as (s1 & s2 & d0 & d2 & Hin & _ & _ & He1 & _ & _ & He2 & L).
    rewrite Er in He1. unfold optional in *. destruct (find (key "e") s1) as [y|] eqn:Ey; [|done].
    destruct (Hin (key "e")) as [v Hv]; [by rewrite Ey|]. rewrite He2, Hv.
    destruct (raw_part _ _ _ _ _ _ (key "e") (de_error atoi_i64 atoi_i32 atoi_usize) (fun v => exists e, v = VError e) _ L eq_refl error_gives Hv) as [er ->]. by eexists.
Qed.
End returns.

(** The readers of [Bencode] are such functions. *)
Lemma read_digits_count b : forall acc n v m, read_digits b acc n = (v, m) -> (n < m)%nat -> exists c, head b = Some c /\ is_digit c = true.
Proof.
  destruct b as [|c b]; cbn [read_digits]; intros acc n v m; [intros [= <- <-]; lia|].
  destruct (is_digit c) eqn:E; [by exists c|]. intros [= <- <-]. lia.
Qed.

Lemma read_unsigned_narrower : narrower read_signed read_unsigned.
Proof.
  intros b v n E Hn _. destruct (read_digits_count b 0 0 v n E Hn) as (c & Hc & Hd). destruct b as [|x b]; [done|]. injection Hc as ->.
  unfold read_signed. destruct (Z.eqb_spec c ch_minus) as [->|]; [done|]. by exists v.
Qed.

(** A response without an id, and a packet that is cut short. *)
Lemma deserialize_message_returns_witness :
  (exists r, deserialize_message read_signed read_signed read_unsigned read_unsigned read_unsigned (take 40 (serialize_message ex_put)) = Done r) /\
  deserialize_message read_signed read_signed read_unsigned read_unsigned read_unsigned (key "d1:rde1:t1:a1:y1:re") =
    Done (Err (Malformed (MissingField (key "id")))).
Proof.
  split; [|reflexivity].
  apply (deserialize_message_returns read_signed read_signed read_unsigned read_unsigned read_unsigned
           (fun b v n E => read_digits_count b 0 0 v n E) read_unsigned_narrower read_unsigned_narrower (take 40 (serialize_message ex_put))).
Defined.

(** The value of a mutable item is written as a byte string that holds its
    bencode, and read as the content of a byte string: a response of another
    implementation, whose value is a number, is not read at all. *)
Lemma bep44_value_is_a_string :
  serialize_message (mkMessage (KResponse (mkResponse None ex_id None None None (Some (key "5:hello")) None None None)) (key "a") None None) =
    key "d1:rd2:id20:" ++ ex_id ++ key "1:v7:5:helloe1:t1:a1:y1:re" /\
  exists e, deserialize_message read_signed read_signed read_unsigned read_unsigned read_unsigned
    (key "d1:rd2:id20:" ++ ex_id ++ key "1:vi5ee1:t1:a1:y1:re") = Done (Err (Malformed e)).
Proof. split; [reflexivity|]. eexists. vm_compute. reflexivity. Qed.
