(* ===== verification/Bep44Crypto.v ===== *)
(** * Bep44Crypto: what a mutable item of the DHT is signed for

    Models [crates/librtbit-dht/src/bep44_crypto.rs].  SHA-1 and Ed25519 are
    arguments; what is shown is which items share a signature or a place. *)

From stdpp Require Import strings.
From S2P Require Import Prelude HashId Bencode Serde.

Definition signable_data (salt : option (list Z)) (seq : Z) (v : list Z) : list Z :=
  (match salt with
   | Some s => key "4:salt" ++ decimal (Z.of_nat (length s)) ++ key ":" ++ s
   | None => []
   end) ++ key "3:seqi" ++ decimal seq ++ key "e" ++ key "1:v" ++ v.

Section crypto.
Context (sha1 : list Z -> Id).
Context (ed25519_public : list Z -> list Z) (ed25519_sign : list Z -> list Z -> list Z).
Context (ed25519_verify : list Z -> list Z -> list Z -> bool).

(** Two updates of a hasher digest the concatenation. *)
Definition mutable_item_target (public_key : list Z) (salt : option (list Z)) : Id := sha1 (public_key ++ default [] salt).

Definition verify_mutable_item (public_key signature : list Z) (salt : option (list Z)) (seq : Z) (v : list Z) : bool :=
  ed25519_verify public_key (signable_data salt seq v) signature.

Definition sign_mutable_item (private_key_seed : list Z) (salt : option (list Z)) (seq : Z) (v : list Z) : list Z :=
  ed25519_sign private_key_seed (signable_data salt seq v).

Definition public_key_from_seed (seed : list Z) : list Z := ed25519_public seed.
End crypto.

(** A number is over where its digits are. *)
Lemma decimal_delimited lo hi atoi n1 n2 c r1 r2 : atoi_spec lo hi atoi -> lo <= n1 < hi -> lo <= n2 < hi -> is_digit c = false ->
  decimal n1 ++ c :: r1 = decimal n2 ++ c :: r2 -> n1 = n2 /\ r1 = r2.
Proof.
  intros Hs H1 H2 Hc E. assert (Hr : forall r x, head (c :: r) = Some x -> is_digit x = false) by (intros r x [= <-]; done).
  pose proof (Hs n1 (c :: r1) H1 (Hr r1)) as E1. pose proof (Hs n2 (c :: r2) H2 (Hr r2)) as E2. rewrite E, E2 in E1.
  assert (n1 = n2) as -> by (by injection E1). split; [done|]. apply app_inv_head in E. by injection E.
Qed.

Lemma signed_tail seq1 v1 seq2 v2 : - 9223372036854775808 <= seq1 < 9223372036854775808 -> - 9223372036854775808 <= seq2 < 9223372036854775808 ->
  signable_data None seq1 v1 = signable_data None seq2 v2 -> seq1 = seq2 /\ v1 = v2.
Proof.
  intros H1 H2 E. unfold signable_data in E. cbn [app] in E. apply app_inv_head in E.
  destruct (decimal_delimited _ _ _ _ _ ch_e _ _ read_signed_spec H1 H2 eq_refl E) as [-> Ev]. split; [done|]. by injection Ev.
Qed.

Lemma salted s seq v : signable_data (Some s) seq v = key "4:salt" ++ decimal (Z.of_nat (length s)) ++ ch_colon :: s ++ signable_data None seq v.
Proof. unfold signable_data. by rewrite <- !app_assoc. Qed.

(** The bytes that are signed determine the item: the salt and whether there
    is one, the sequence number and the value.  So a signature of one item is one
    of no other. *)
Theorem signable_data_injective salt1 seq1 v1 salt2 seq2 v2 :
  - 9223372036854775808 <= seq1 < 9223372036854775808 -> - 9223372036854775808 <= seq2 < 9223372036854775808 ->
  Z.of_nat (length (default [] salt1)) < U64 -> Z.of_nat (length (default [] salt2)) < U64 ->
  signable_data salt1 seq1 v1 = signable_data salt2 seq2 v2 -> salt1 = salt2 /\ seq1 = seq2 /\ v1 = v2.
Proof.
  intros H1 H2 L1 L2 E. destruct salt1 as [s1|], salt2 as [s2|]; [|done|done|by destruct (signed_tail _ _ _ _ H1 H2 E) as [-> ->]].
  rewrite !salted in E. apply app_inv_head in E. unfold default, from_option, id in L1, L2.
  destruct (decimal_delimited _ _ _ (Z.of_nat (length s1)) (Z.of_nat (length s2)) ch_colon _ _ read_unsigned_spec ltac:(lia) ltac:(lia) eq_refl E) as [Hl Hs].
  apply app_inj_1 in Hs as [-> Hs]; [|lia]. by destruct (signed_tail _ _ _ _ H1 H2 Hs) as [-> ->].
Qed.

Lemma signable_data_injective_witness :
  signable_data (Some (key "foobar")) 4 (key "12:Hello World!") = key "4:salt6:foobar3:seqi4e1:v12:Hello World!" /\
  (Some (key "foobar") = Some (key "foobar") /\ 4 = 4 /\ key "i1e" = key "i1e").
Proof.
  split; [reflexivity|]. apply (signable_data_injective (Some (key "foobar")) 4 (key "i1e") (Some (key "foobar")) 4 (key "i1e")); reflexivity || (cbn; lia).
Defined.

(** No salt and an empty one have one place in the DHT, but not one signature. *)
Lemma empty_salt sha1 k seq v : mutable_item_target sha1 k None = mutable_item_target sha1 k (Some []) /\
  signable_data None seq v <> signable_data (Some []) seq v.
Proof. by split. Qed.

Section sign.
Context (ed25519_public : list Z -> list Z) (ed25519_sign : list Z -> list Z -> list Z).
Context (ed25519_verify : list Z -> list Z -> list Z -> bool).
Hypothesis verifies : forall seed msg, ed25519_verify (ed25519_public seed) msg (ed25519_sign seed msg) = true.

Lemma signed_item_verifies seed salt seq v :
  verify_mutable_item ed25519_verify (public_key_from_seed ed25519_public seed) (sign_mutable_item ed25519_sign seed salt seq v) salt seq v = true.
Proof. apply verifies. Qed.
End sign.
