(* ===== verification/Dht.v ===== *)
(** * Dht: the DHT node

    Models [DhtState] of [crates/librtbit-dht/src/dht.rs]: the requests in
    flight, the answers to queries, the two routing tables and the peer store.

    A call of [DhtState::request] is an entry of [ds_requests]: the key under
    which it waits, its one-shot channel, and what its future has become.  Its
    await points are events: the channel is read, the timeout fires, or the
    future is dropped.  The worker's channel is the list of messages sent, and a
    flag that says whether the worker still reads it.  The clock and random
    bytes are arguments. *)

From S2P Require Import Prelude HashId RoutingTable Compact PeerStore Krpc.

Inductive DhtError :=
| DhtDead
| ReceiverDead
| ErrorResponse
| ResponseTimeout
| BadTransactionId
| RequestNotFound
| SendFailed
| NoSuccessfulLookups (errors : Z).

Inductive Request :=
| RGetPeers (info_hash : Id)
| RFindNode (target : Id)
| RAnnounce (info_hash : Id) (token : list Z) (port : Z)
| RPing.

Inductive ResponseOrError :=
| RResponse (r : Response)
| RError (e : ErrorDescription).

Record WorkerSendRequest := mkSend {
  ws_our_tid : option Z;
  ws_message : Message;
  ws_addr : SocketAddr;
}.

(** ** Requests *)

Abbreviation Key := (Z * SocketAddr)%type.

(** The one-shot channel of [OutstandingRequest]. *)
Inductive Oneshot :=
| Pending
| Sent (r : result DhtError ResponseOrError)
| Closed.

Inductive Future :=
| Awaiting
| Returned (r : result DhtError ResponseOrError)
| Cancelled.

Record OutstandingRequest := mkOutstanding {
  or_key : Key;
  or_chan : Oneshot;
  or_future : Future;
}.

Definition with_chan (o : OutstandingRequest) (c : Oneshot) : OutstandingRequest :=
  mkOutstanding (or_key o) c (or_future o).
Definition with_future (o : OutstandingRequest) (f : Future) : OutstandingRequest :=
  mkOutstanding (or_key o) (or_chan o) f.

Record DhtState := mkDht {
  ds_id : Id;
  ds_next_tid : Z;
  ds_inflight : gmap Key nat;
  ds_v4 : RoutingTable SocketAddr;
  ds_v6 : RoutingTable SocketAddr;
  ds_store : PeerStore;
  ds_alive : bool;
  ds_sent : list WorkerSendRequest;
  ds_requests : list OutstandingRequest;
}.

Definition set_tid (s : DhtState) (t : Z) : DhtState :=
  mkDht (ds_id s) t (ds_inflight s) (ds_v4 s) (ds_v6 s) (ds_store s) (ds_alive s) (ds_sent s) (ds_requests s).
Definition set_flight (s : DhtState) (m : gmap Key nat) (r : list OutstandingRequest) : DhtState :=
  mkDht (ds_id s) (ds_next_tid s) m (ds_v4 s) (ds_v6 s) (ds_store s) (ds_alive s) (ds_sent s) r.
Definition set_table (s : DhtState) (v6 : bool) (t : RoutingTable SocketAddr) : DhtState :=
  mkDht (ds_id s) (ds_next_tid s) (ds_inflight s) (if v6 then ds_v4 s else t) (if v6 then t else ds_v6 s)
    (ds_store s) (ds_alive s) (ds_sent s) (ds_requests s).
Definition set_store (s : DhtState) (p : PeerStore) : DhtState :=
  mkDht (ds_id s) (ds_next_tid s) (ds_inflight s) (ds_v4 s) (ds_v6 s) p (ds_alive s) (ds_sent s) (ds_requests s).
Definition set_worker (s : DhtState) (alive : bool) (l : list WorkerSendRequest) : DhtState :=
  mkDht (ds_id s) (ds_next_tid s) (ds_inflight s) (ds_v4 s) (ds_v6 s) (ds_store s) alive l (ds_requests s).

(** [DhtState::new_internal]; a table that is not given is empty. *)
Definition new_internal (now : Z) (id : Id) (v4 v6 : option (RoutingTable SocketAddr)) (store : PeerStore) : DhtState :=
  mkDht id 0 ∅ (default (table_new now id None) v4) (default (table_new now id None) v6) store true [] [].

(** The end of a channel at handle [h] changes. *)
Definition set_chan (h : nat) (c : Oneshot) (l : list OutstandingRequest) : list OutstandingRequest :=
  alter (fun o => with_chan o c) h l.
Definition set_future (h : nat) (f : Future) (l : list OutstandingRequest) : list OutstandingRequest :=
  alter (fun o => with_future o f) h l.

(** [inflight_by_transaction_id.remove(&key)]: the sender, if any, with the
    entry taken out. *)
Definition remove_inflight (key : Key) (s : DhtState) : option nat * DhtState :=
  (ds_inflight s !! key, set_flight s (delete key (ds_inflight s)) (ds_requests s)).

(** A removal whose result is dropped closes the channel. *)
Definition drop_inflight (key : Key) (s : DhtState) : DhtState :=
  match remove_inflight key s with
  | (Some h, s) => set_flight s (ds_inflight s) (set_chan h Closed (ds_requests s))
  | (None, s) => s
  end.

(** A channel is made and [inflight_by_transaction_id.insert(key, ..)] puts its
    sender under the key: a sender already there is dropped. *)
Definition insert_inflight (key : Key) (s : DhtState) : nat * DhtState :=
  let s := drop_inflight key s in
  let h := length (ds_requests s) in
  (h, set_flight s (<[key := h]> (ds_inflight s)) (ds_requests s ++ [mkOutstanding key Pending Awaiting])).

(** [worker_sender.send]. *)
Definition worker_send (w : WorkerSendRequest) (s : DhtState) : bool * DhtState :=
  if ds_alive s then (true, set_worker s true (ds_sent s ++ [w])) else (false, s).

Definition create_request (request : Request) (addr : SocketAddr) (s : DhtState) : (Z * Message) * DhtState :=
  let transaction_id := ds_next_tid s in
  let s := set_tid s ((transaction_id + 1) mod U16) in
  let buf := transaction_id_buf transaction_id in
  let want := Some (if sa_ipv6 addr then WantV6 else WantV4) in
  let kind :=
    match request with
    | RGetPeers info_hash => KGetPeersRequest (mkGetPeers (ds_id s) info_hash want)
    | RFindNode target => KFindNodeRequest (mkFindNode (ds_id s) target want)
    | RPing => KPingRequest (mkPing (ds_id s))
    | RAnnounce info_hash token port => KAnnouncePeer (mkAnnouncePeer (ds_id s) 0 info_hash port token)
    end in
  ((transaction_id, mkMessage kind buf None None), s).

(** [DhtState::request] up to its await: the handle of the request and the
    state. *)
Definition request_start (request : Request) (addr : SocketAddr) (s : DhtState) : nat * DhtState :=
  let '((tid, message), s) := create_request request addr s in
  let key := (tid, addr) in
  let '(h, s) := insert_inflight key s in
  match worker_send (mkSend (Some tid) message addr) s with
  | (true, s) => (h, s)
  | (false, s) =>
      let s := drop_inflight key s in
      (h, set_flight s (ds_inflight s) (set_future h (Returned (Err DhtDead)) (ds_requests s)))
  end.

(** The await of [DhtState::request]: the channel has a value or is closed. *)
Definition request_poll (h : nat) (s : DhtState) : DhtState :=
  match ds_requests s !! h with
  | Some (mkOutstanding key (Sent r) Awaiting) =>
      set_flight s (ds_inflight s) (set_future h (Returned r) (ds_requests s))
  | Some (mkOutstanding key Closed Awaiting) =>
      let s := drop_inflight key s in
      set_flight s (ds_inflight s) (set_future h (Returned (Err DhtDead)) (ds_requests s))
  | _ => s
  end.

(** [RESPONSE_TIMEOUT] has passed and the channel has nothing. *)
Definition request_timeout (h : nat) (s : DhtState) : DhtState :=
  match ds_requests s !! h with
  | Some (mkOutstanding key Pending Awaiting) =>
      let s := drop_inflight key s in
      set_flight s (ds_inflight s) (set_future h (Returned (Err ResponseTimeout)) (ds_requests s))
  | _ => s
  end.

(** The future is dropped: the receiver goes, and nothing else happens. *)
Definition request_cancel (h : nat) (s : DhtState) : DhtState :=
  match ds_requests s !! h with
  | Some (mkOutstanding key c Awaiting) => set_flight s (ds_inflight s) (set_future h Cancelled (ds_requests s))
  | _ => s
  end.

(** [DhtWorker::on_send_error]. *)
Definition on_send_error (tid : Z) (addr : SocketAddr) (err : DhtError) (s : DhtState) : DhtState :=
  match remove_inflight (tid, addr) s with
  | (Some h, s) => set_flight s (ds_inflight s) (set_chan h (Sent (Err err)) (ds_requests s))
  | (None, s) => s
  end.

(** ** Closest nodes *)

Class FromSocketAddr (A : Type) := from_socket_addr : SocketAddr -> option A.
#[export] Instance from_socket_addr_v4 : FromSocketAddr SocketAddrV4 := only_v4.
#[export] Instance from_socket_addr_v6 : FromSocketAddr SocketAddrV6 := only_v6.

Definition generate_compact_nodes (A : Type) `{CompactSerialize A, FromSocketAddr A} (target : Id)
    (table : RoutingTable SocketAddr) (now : Z) : outcome CompactNodeInfo :=
  l ←! sorted_by_distance_from table target now;
  let it := take 8 (omap (fun r => mkKNode (rn_id r) <$> from_socket_addr (rn_addr r)) l) in
  Done (new_from_iter (T := Node A) it).

Definition generate_compact_nodes_both (target : Id) (want : Want) (now : Z) (s : DhtState) :
    outcome (option CompactNodeInfo * option CompactNodeInfo) :=
  match want with
  | WantV4 => n ←! generate_compact_nodes SocketAddrV4 target (ds_v4 s) now; Done (Some n, None)
  | WantV6 => n ←! generate_compact_nodes SocketAddrV6 target (ds_v6 s) now; Done (None, Some n)
  | WantBoth =>
      n4 ←! generate_compact_nodes SocketAddrV4 target (ds_v4 s) now;
      n6 ←! generate_compact_nodes SocketAddrV6 target (ds_v6 s) now;
      Done (Some n4, Some n6)
  | WantNone => Done (None, None)
  end.

(** [get_table_for_addr]. *)
Definition table_for (v6 : bool) (s : DhtState) : RoutingTable SocketAddr := if v6 then ds_v6 s else ds_v4 s.

(** [get_table_for_addr(addr).write().mark_last_query(&id, now())]. *)
Definition mark_query (id : Id) (addr : SocketAddr) (now : Z) (s : DhtState) : outcome DhtState :=
  r ←! table_mark_last_query (table_for (sa_ipv6 addr) s) id now;
  Done (set_table s (sa_ipv6 addr) r.2).

(** ** Messages *)

(** What a handler reads of the clock and the random generator: [Instant::now]
    for the nodes and for the mark, [Utc::now], and a token. *)
Record Reads := mkReads {
  rd_nodes : Z;
  rd_query : Z;
  rd_utc : Z;
  rd_random : list Z;
}.

(** The answer to a query from [addr]. *)
Definition reply (tid : list Z) (addr : SocketAddr) (r : Response) (s : DhtState) : result DhtError unit * DhtState :=
  match worker_send (mkSend None (mkMessage (KResponse r) tid None (Some addr)) addr) s with
  | (true, s) => (Ok tt, s)
  | (false, s) => (Err DhtDead, s)
  end.

(** A response or an error: the request waiting under this transaction id and
    address gets it. *)
Definition on_response (msg : Message) (addr : SocketAddr) (r : ResponseOrError) (s : DhtState) :
    result DhtError unit * DhtState :=
  match get_our_transaction_id msg with
  | None => (Err BadTransactionId, s)
  | Some tid =>
      match remove_inflight (tid, addr) s with
      | (None, s) => (Err RequestNotFound, s)
      | (Some h, s) => (Ok tt, set_flight s (ds_inflight s) (set_chan h (Sent (Ok r)) (ds_requests s)))
      end
  end.

Definition default_want (want : option Want) (addr : SocketAddr) : Want :=
  default (if sa_ipv6 addr then WantV6 else WantV4) want.

Definition on_received_message (rd : Reads) (msg : Message) (addr : SocketAddr) (s : DhtState) :
    outcome (result DhtError unit * DhtState) :=
  let tid := m_transaction_id msg in
  match m_kind msg with
  | KError e => Done (on_response msg addr (RError e) s)
  | KResponse r => Done (on_response msg addr (RResponse r) s)
  | KPingRequest req =>
      s ←! mark_query (pg_id req) addr (rd_query rd) s;
      Done (reply tid addr (response_of (ds_id s)) s)
  | KAnnouncePeer ann =>
      s ←! mark_query (an_id ann) addr (rd_query rd) s;
      let s := set_store s (store_peer (rd_utc rd) ann addr (ds_store s)).2 in
      Done (reply tid addr (response_of (ds_id s)) s)
  | KGetPeersRequest req =>
      let want := default_want (gp_want req) addr in
      n ←! generate_compact_nodes_both (gp_info_hash req) want (rd_nodes rd) s;
      let compact_peer_info := get_for_info_hash (gp_info_hash req) want (ds_store s) in
      s ←! mark_query (gp_id req) addr (rd_query rd) s;
      let '(token, store) := gen_token_for (rd_utc rd) (rd_random rd) (gp_id req) addr (ds_store s) in
      let s := set_store s store in
      Done (reply tid addr
        (mkResponse (Some compact_peer_info) (ds_id s) n.1 n.2 (Some token) None None None None) s)
  | KFindNodeRequest req =>
      let want := default_want (fn_want req) addr in
      n ←! generate_compact_nodes_both (fn_target req) want (rd_nodes rd) s;
      s ←! mark_query (fn_id req) addr (rd_query rd) s;
      Done (reply tid addr (mkResponse None (ds_id s) n.1 n.2 None None None None None) s)
  | KBep44GetRequest req =>
      n ←! generate_compact_nodes_both (bg_target req) WantBoth (rd_nodes rd) s;
      s ←! mark_query (bg_id req) addr (rd_query rd) s;
      let '(token, store) := gen_token_for (rd_utc rd) (rd_random rd) (bg_id req) addr (ds_store s) in
      let s := set_store s store in
      Done (reply tid addr (mkResponse None (ds_id s) n.1 n.2 (Some token) None None None None) s)
  | KBep44PutRequest req =>
      s ←! mark_query (bp_id req) addr (rd_query rd) s;
      Done (reply tid addr (response_of (ds_id s)) s)
  end.

(** ** Tables *)

(** [on_request_start] of a lookup that fills the routing table: the node is
    added, and the request noted unless it was ignored.  [created] is the time
    a split bucket gets. *)
Definition find_nodes_start (now created : Z) (id : Id) (addr : SocketAddr) (s : DhtState) : outcome DhtState :=
  r ←! table_add_node now created (table_for (sa_ipv6 addr) s) id addr;
  match r.1 with
  | WasExisting | ReplacedBad _ | Added =>
      m ←! table_mark_outgoing_request r.2 id now;
      Done (set_table s (sa_ipv6 addr) m.2)
  | Ignored => Done (set_table s (sa_ipv6 addr) r.2)
  end.

(** [on_request_end] of that lookup. *)
Definition find_nodes_end (now : Z) (id : Id) (addr : SocketAddr) (ok : bool) (s : DhtState) : outcome DhtState :=
  r ←! (if ok then table_mark_response (table_for (sa_ipv6 addr) s) id now
        else table_mark_error (table_for (sa_ipv6 addr) s) id);
  Done (set_table s (sa_ipv6 addr) r.2).

(** The pinger of one table: the nodes it pings in a round, the start of a
    ping and its end. *)
Definition pinger_round (v6 : bool) (now : Z) (s : DhtState) : outcome (list (Id * SocketAddr)) :=
  l ←! iter (rt_buckets (table_for v6 s));
  Done (omap (fun n => match status n now with
                       | Questionable | Unknown => Some (rn_id n, rn_addr n)
                       | _ => None
                       end) l).

Definition ping_start (v6 : bool) (now : Z) (id : Id) (addr : SocketAddr) (s : DhtState) : outcome (nat * DhtState) :=
  r ←! table_mark_outgoing_request (table_for v6 s) id now;
  Done (request_start RPing addr (set_table s v6 r.2)).

Definition ping_end (v6 : bool) (now : Z) (id : Id) (ok : bool) (s : DhtState) : outcome DhtState :=
  r ←! (if ok then table_mark_response (table_for v6 s) id now else table_mark_error (table_for v6 s) id);
  Done (set_table s v6 r.2).

(** The announcement after a lookup of peers: a request whose answer nobody
    waits for. *)
Definition send_announce (info_hash : Id) (token : list Z) (port : Z) (addr : SocketAddr) (s : DhtState) : DhtState :=
  let '((tid, message), s) := create_request (RAnnounce info_hash token port) addr s in
  (worker_send (mkSend (Some tid) message addr) s).2.

Record DhtStats := mkStats {
  st_id : Id;
  outstanding_requests : Z;
  routing_table_size : Z;
  routing_table_size_v6 : Z;
}.

Definition get_stats (s : DhtState) : DhtStats :=
  mkStats (ds_id s) (Z.of_nat (size (ds_inflight s))) (table_len (ds_v4 s)) (table_len (ds_v6 s)).

(** ** Histories *)

Inductive DhtEvent :=
| EStart (request : Request) (addr : SocketAddr)
| EPoll (h : nat)
| ETimeout (h : nat)
| ECancel (h : nat)
| ESendError (tid : Z) (addr : SocketAddr)
| EReceived (rd : Reads) (msg : Message) (addr : SocketAddr)
| EFindStart (now created : Z) (id : Id) (addr : SocketAddr)
| EFindEnd (now : Z) (id : Id) (addr : SocketAddr) (ok : bool)
| EPingStart (v6 : bool) (now : Z) (id : Id) (addr : SocketAddr)
| EPingEnd (v6 : bool) (now : Z) (id : Id) (ok : bool)
| EAnnounce (info_hash : Id) (token : list Z) (port : Z) (addr : SocketAddr)
| ECollect (now : Z) (ord : gmap Id (list StoredPeer) -> list (Id * list StoredPeer))
| EWorkerGone.

Definition dht_step (s : DhtState) (e : DhtEvent) : outcome DhtState :=
  match e with
  | EStart request addr => Done (request_start request addr s).2
  | EPoll h => Done (request_poll h s)
  | ETimeout h => Done (request_timeout h s)
  | ECancel h => Done (request_cancel h s)
  | ESendError tid addr => Done (on_send_error tid addr SendFailed s)
  | EReceived rd msg addr => r ←! on_received_message rd msg addr s; Done r.2
  | EFindStart now created id addr => find_nodes_start now created id addr s
  | EFindEnd now id addr ok => find_nodes_end now id addr ok s
  | EPingStart v6 now id addr => r ←! ping_start v6 now id addr s; Done r.2
  | EPingEnd v6 now id ok => ping_end v6 now id ok s
  | EAnnounce info_hash token port addr => Done (send_announce info_hash token port addr s)
  | ECollect now ord => Done (set_store s (garbage_collect_peers ord now (ds_store s)))
  | EWorkerGone => Done (set_worker s false (ds_sent s))
  end.

(** Conversion unfolds the step before what it calls. *)
Strategy expand [outcome_bind dht_step].

Definition run_dht (s : DhtState) (es : list DhtEvent) : outcome DhtState := for_each dht_step s es.

(** ** Requests in flight *)

Lemma lookup_alter_case {A} (f : A -> A) (i j : nat) (l : list A) :
  alter f i l !! j = (if decide (i = j) then f <$> l !! j else l !! j).
Proof. destruct (decide (i = j)) as [->|Hne]; [apply list_lookup_alter_eq|by apply list_lookup_alter_ne]. Qed.

(** The map holds exactly the requests whose channel is open. *)
Definition flight_ok (m : gmap Key nat) (l : list OutstandingRequest) : Prop :=
  forall key h, m !! key = Some h <-> exists o, l !! h = Some o /\ or_key o = key /\ or_chan o = Pending.

(** Every answer a request has, in its channel or returned, satisfies [P]. *)
Definition origin (P : nat -> Key -> ResponseOrError -> Prop) (l : list OutstandingRequest) : Prop :=
  forall h o r, l !! h = Some o -> or_chan o = Sent (Ok r) \/ or_future o = Returned (Ok r) -> P h (or_key o) r.

Section flight.
Context (P : nat -> Key -> ResponseOrError -> Prop).

Record reqs_ok (m : gmap Key nat) (l : list OutstandingRequest) : Prop := {
  ro_flight : flight_ok m l;
  ro_origin : origin P l;
}.

Lemma origin_alter f h l : origin P l ->
  (forall o, l !! h = Some o -> or_key (f o) = or_key o /\
     forall r, or_chan (f o) = Sent (Ok r) \/ or_future (f o) = Returned (Ok r) ->
       (or_chan o = Sent (Ok r) \/ or_future o = Returned (Ok r)) \/ P h (or_key o) r) ->
  origin P (alter f h l).
Proof.
  intros Ho Hf j o r. rewrite lookup_alter_case. case_decide as Hj; [subst j|by apply Ho].
  destruct (l !! h) as [o0|] eqn:E; [|done]. intros [= <-] Hr. destruct (Hf o0 eq_refl) as [-> Hp].
  destruct (Hp r Hr) as [?|?]; [by eapply Ho|done].
Qed.

(** The future of a request changes: the map does not notice. *)
Lemma reqs_future m l h f : reqs_ok m l ->
  (forall o r, l !! h = Some o -> f = Returned (Ok r) -> or_chan o = Sent (Ok r)) ->
  reqs_ok m (set_future h f l).
Proof.
  intros [Hm Ho] Hf. split.
  - intros key j. rewrite (Hm key j). unfold set_future. rewrite lookup_alter_case.
    case_decide as Hj; [subst j|done]. split.
    + intros (o & E & Hk & Hc). exists (with_future o f). by rewrite E.
    + intros (o' & E & Hk & Hc). destruct (l !! h) as [o|]; [|done]. injection E as <-. by exists o.
  - apply origin_alter; [done|]. intros o E. split; [done|]. cbn [with_future or_chan or_future].
    intros r [?| ->]; [by left; left|]. left; left. by eapply Hf.
Qed.

(** A sender is taken out of the map and used or dropped. *)
Lemma reqs_take m l key h c : reqs_ok m l -> m !! key = Some h -> c <> Pending ->
  (forall r, c = Sent (Ok r) -> P h key r) -> reqs_ok (delete key m) (set_chan h c l).
Proof.
  intros [Hm Ho] Hh Hc HP. destruct (proj1 (Hm key h) Hh) as (o & Eo & Hk & Hp). split.
  - intros key' j. unfold set_chan. rewrite lookup_alter_case. destruct (decide (h = j)) as [<-|Hj].
    + split.
      * intros [Hne Hk']%lookup_delete_Some. destruct (proj1 (Hm key' h) Hk') as (o' & E' & ? & _). congruence.
      * rewrite Eo. intros (o' & [= <-] & _ & ?). done.
    + rewrite lookup_delete_Some, (Hm key' j). split; [by intros [_ ?]|]. intros (o' & E' & Hk' & Hp').
      split; [|by exists o']. intros ->. assert (Hj' : m !! key' = Some j) by (apply Hm; by exists o').
      congruence.
  - apply origin_alter; [done|]. intros o' E'. split; [done|]. assert (o' = o) as -> by congruence.
    cbn [with_chan or_chan or_future]. intros r [->|?]; [right|by left; right]. rewrite Hk. by apply HP.
Qed.

(** A new request takes its place in the map. *)
Lemma reqs_push m l key : reqs_ok m l -> m !! key = None ->
  reqs_ok (<[key := length l]> m) (l ++ [mkOutstanding key Pending Awaiting]).
Proof.
  intros [Hm Ho] Hn. split.
  - intros key' j. rewrite lookup_insert_Some, (Hm key' j). setoid_rewrite lookup_app_Some. split.
    + intros [[<- <-]|[Hne (o & Eo & Hr)]].
      * exists (mkOutstanding key Pending Awaiting). split; [right; split; [lia|]|by split]. by rewrite Nat.sub_diag.
      * exists o. by split; [left|].
    + intros (o & [Eo|[Hlen Eo]] & Hk & Hp).
      * right. split; [|by exists o]. intros ->. assert (m !! key' = Some j) by (apply Hm; by exists o). congruence.
      * left. apply list_lookup_singleton_Some in Eo as [Hj <-]. cbn [or_key] in Hk. split; [done|]. lia.
  - intros j o r. rewrite lookup_app_Some. intros [Eo|[_ Eo]] Hr; [by eapply Ho|].
    apply list_lookup_singleton_Some in Eo as [_ <-]. cbn in Hr. by destruct Hr.
Qed.

Definition flying (s : DhtState) : Prop := reqs_ok (ds_inflight s) (ds_requests s).

Lemma drop_flying key s : flying s -> flying (drop_inflight key s) /\ ds_inflight (drop_inflight key s) !! key = None.
Proof.
  intros Hs. unfold drop_inflight, remove_inflight. destruct (ds_inflight s !! key) as [h|] eqn:E.
  - split; [|apply lookup_delete_eq]. unfold flying. cbn. by apply reqs_take.
  - unfold flying. cbn. rewrite delete_id by done. done.
Qed.

Lemma drop_inflight_requests key s : length (ds_requests (drop_inflight key s)) = length (ds_requests s).
Proof. unfold drop_inflight, remove_inflight. destruct (_ !! key); [apply length_alter|done]. Qed.

(** What the operations of requests leave alone. *)
Definition other_parts (s s' : DhtState) : Prop :=
  ds_id s' = ds_id s /\ ds_v4 s' = ds_v4 s /\ ds_v6 s' = ds_v6 s /\ ds_store s' = ds_store s /\ ds_alive s' = ds_alive s.

Lemma drop_inflight_parts key s : other_parts s (drop_inflight key s).
Proof. unfold drop_inflight, remove_inflight. by destruct (_ !! key). Qed.

Lemma other_parts_trans s1 s2 s3 : other_parts s1 s2 -> other_parts s2 s3 -> other_parts s1 s3.
Proof. unfold other_parts. intros (?&?&?&?&?) (?&?&?&?&?). split_and!; congruence. Qed.

Lemma request_start_flying request addr s : flying s ->
  flying (request_start request addr s).2 /\ other_parts s (request_start request addr s).2.
Proof.
  intros Hs. unfold request_start, create_request. cbn zeta.
  set (tid := ds_next_tid s). set (key := (tid, addr)). set (s1 := set_tid s _).
  assert (H1 : flying s1 /\ other_parts s s1) by done. clearbody s1. destruct H1 as [H1 Hp1].
  unfold insert_inflight. destruct (drop_flying key s1 H1) as [H2 Hnone].
  pose proof (other_parts_trans _ _ _ Hp1 (drop_inflight_parts key s1)) as Hp2.
  pose proof (reqs_push _ _ key H2 Hnone) as H3.
  match goal with |- context [mkSend ?a ?b ?c] => generalize (mkSend a b c) end. intros w.
  set (s3 := set_flight (drop_inflight key s1) _ _).
  assert (H4 : flying s3 /\ other_parts s s3) by done. clearbody s3. destruct H4 as [H4 Hp4].
  unfold worker_send. destruct (ds_alive s3) eqn:Ea; cbn [snd].
  - split; [done|]. unfold other_parts in *. cbn. by rewrite <- Ea.
  - destruct (drop_flying key s3 H4) as [H5 _]. split.
    + unfold flying. cbn [set_flight ds_inflight ds_requests]. by apply reqs_future.
    + exact (other_parts_trans _ _ _ Hp4 (drop_inflight_parts key s3)).
Qed.

Lemma request_poll_flying h s : flying s -> flying (request_poll h s) /\ other_parts s (request_poll h s).
Proof.
  intros Hs. unfold request_poll. destruct (ds_requests s !! h) as [[key [|r|] []]|] eqn:E; try done.
  - split; [|done]. unfold flying. cbn. apply reqs_future; [done|]. rewrite E. by intros o r' [= <-] [= ->].
  - destruct (drop_flying key s Hs) as [H1 _]. split; [by apply reqs_future|]. apply drop_inflight_parts.
Qed.

Lemma request_timeout_flying h s : flying s -> flying (request_timeout h s) /\ other_parts s (request_timeout h s).
Proof.
  intros Hs. unfold request_timeout. destruct (ds_requests s !! h) as [[key [|r|] []]|] eqn:E; try done.
  destruct (drop_flying key s Hs) as [H1 _]. split; [by apply reqs_future|]. apply drop_inflight_parts.
Qed.

Lemma request_cancel_flying h s : flying s -> flying (request_cancel h s) /\ other_parts s (request_cancel h s).
Proof.
  intros Hs. unfold request_cancel. destruct (ds_requests s !! h) as [[key c []]|] eqn:E; try done.
  split; [by apply reqs_future|done].
Qed.

Lemma on_send_error_flying tid addr err s : flying s ->
  flying (on_send_error tid addr err s) /\ other_parts s (on_send_error tid addr err s).
Proof.
  intros Hs. unfold on_send_error, remove_inflight. destruct (ds_inflight s !! (tid, addr)) as [h|] eqn:E.
  - split; [|done]. by apply reqs_take.
  - split; [|done]. unfold flying. cbn. by rewrite delete_id.
Qed.

Lemma on_response_flying msg addr r s : flying s ->
  (forall tid h, get_our_transaction_id msg = Some tid -> ds_inflight s !! (tid, addr) = Some h -> P h (tid, addr) r) ->
  flying (on_response msg addr r s).2 /\ other_parts s (on_response msg addr r s).2.
Proof.
  intros Hs HP. unfold on_response. destruct (get_our_transaction_id msg) as [tid|]; [|done].
  unfold remove_inflight. destruct (ds_inflight s !! (tid, addr)) as [h|] eqn:E; cbn [snd].
  - split; [|done]. apply reqs_take; [done|done|done|]. intros r' [= ->]. by apply (HP tid).
  - split; [|done]. unfold flying. cbn. by rewrite delete_id.
Qed.
End flight.

Lemma flying_impl (P Q : nat -> Key -> ResponseOrError -> Prop) s :
  (forall h k r, P h k r -> Q h k r) -> flying P s -> flying Q s.
Proof. intros HPQ [Hf Ho]. split; [done|]. intros h o r E Hr. apply HPQ. by eapply Ho. Qed.

(** ** Tables *)

Record table_ok (v6 : bool) (rt : RoutingTable SocketAddr) : Prop := {
  to_tree : tree_inv (rt_buckets rt);
  to_family : forall x, x ∈ nodes (rt_buckets rt) -> sa_ipv6 (rn_addr x) = v6 /\ wf_addr (rn_addr x);
}.

Definition tables_ok (s : DhtState) : Prop := table_ok false (ds_v4 s) /\ table_ok true (ds_v6 s).

Lemma table_ok_new v6 now id : table_ok v6 (table_new now id None).
Proof.
  assert (Hi : tree_inv (Addr := SocketAddr) (tree_new now DEFAULT_MAX_SIZE)) by (by apply tree_new_inv).
  split; [exact Hi|]. intros x Hx.
  assert (Hn : nodes (Addr := SocketAddr) (rt_buckets (table_new now id None)) = []) by reflexivity.
  rewrite Hn in Hx. by apply not_elem_of_nil in Hx.
Qed.

Lemma table_ok_mark v6 rt id refresh f : table_ok v6 rt -> wf_id 20 id ->
  (forall n, rn_id (f n) = rn_id n /\ rn_addr (f n) = rn_addr n) ->
  exists b rt', table_mark rt id refresh f = Done (b, rt') /\ table_ok v6 rt'.
Proof.
  intros [Ht Hf] Hid Hk. destruct (table_mark_inv rt id refresh f Ht Hid) as (b & rt' & Hrun & Ht' & Hn & _);
    [by intros n; apply Hk|]. exists b, rt'. split; [done|]. split; [done|]. rewrite Hn.
  intros x (y & -> & Hy)%list_elem_of_fmap. unfold upd. destruct (id_eqb _ _); [|by apply Hf].
  destruct (Hk y) as [_ ->]. by apply Hf.
Qed.

Lemma table_ok_add v6 rt now created id addr : table_ok v6 rt -> wf_id 20 id -> sa_ipv6 addr = v6 -> wf_addr addr ->
  exists r rt', table_add_node now created rt id addr = Done (r, rt') /\ table_ok v6 rt'.
Proof.
  intros [Ht Hf] Hid Hv Ha. destruct (table_add_node_inv now created rt id addr Ht Hid) as (r & rt' & Hrun & Ht' & He).
  exists r, rt'. split; [done|]. split; [done|]. intros x Hx. unfold insert_effect in He. destruct r.
  - destruct He as (_ & E). rewrite E in Hx. by apply Hf.
  - destruct He as (_ & _ & _ & Hp). assert (Hin : x ∈ new_node id addr :: nodes (rt_buckets rt)).
    { rewrite <- Hp. by constructor. }
    apply elem_of_cons in Hin as [->|Hin]; [done|by apply Hf].
  - destruct He as (_ & Hp). rewrite Hp in Hx. apply elem_of_cons in Hx as [->|Hx]; [done|by apply Hf].
  - destruct He as (_ & E). rewrite E in Hx. by apply Hf.
Qed.

Lemma table_for_ok v6 s : tables_ok s -> table_ok v6 (table_for v6 s).
Proof. intros [H4 H6]. by destruct v6. Qed.

Lemma set_table_ok v6 t s : tables_ok s -> table_ok v6 t -> tables_ok (set_table s v6 t).
Proof. intros [H4 H6] Ht. by destruct v6; split. Qed.

(** The operations on the tables finish and keep them, and leave the rest. *)
Definition same_but_tables (s s' : DhtState) : Prop :=
  exists t4 t6, s' = mkDht (ds_id s) (ds_next_tid s) (ds_inflight s) t4 t6 (ds_store s) (ds_alive s) (ds_sent s) (ds_requests s).

Definition table_step (s : DhtState) (m : outcome DhtState) : Prop :=
  exists s', m = Done s' /\ tables_ok s' /\ same_but_tables s s'.

Lemma same_set_table s v6 t : same_but_tables s (set_table s v6 t).
Proof. by eexists _, _. Qed.

Lemma mark_query_ok id addr now s : tables_ok s -> wf_id 20 id -> table_step s (mark_query id addr now s).
Proof.
  intros Hs Hid. unfold mark_query, table_mark_last_query.
  destruct (table_ok_mark (sa_ipv6 addr) (table_for (sa_ipv6 addr) s) id None
    (fun n => mark_last_query n now)) as (b & rt' & -> & Ht); [by apply table_for_ok|done|done|].
  rsimpl. eexists. split; [done|]. split; [by apply set_table_ok|apply same_set_table].
Qed.

Lemma mark_result_ok v6 id now ok s : tables_ok s -> wf_id 20 id ->
  table_step s (r ←! (if (ok : bool) then table_mark_response (table_for v6 s) id now
                      else table_mark_error (table_for v6 s) id); Done (set_table s v6 r.2)).
Proof.
  intros Hs Hid. unfold table_mark_response, table_mark_error.
  destruct (table_ok_mark v6 (table_for v6 s) id (Some now) (fun n => mark_response n now))
    as (b1 & rt1 & E1 & Ht1); [by apply table_for_ok|done|done|].
  destruct (table_ok_mark v6 (table_for v6 s) id None mark_error) as (b2 & rt2 & E2 & Ht2); [by apply table_for_ok|done|done|].
  destruct ok; [rewrite E1|rewrite E2]; rsimpl; eexists; (split; [done|]);
    (split; [by apply set_table_ok|apply same_set_table]).
Qed.

Lemma find_nodes_start_ok now created id addr s : tables_ok s -> wf_id 20 id -> wf_addr addr ->
  table_step s (find_nodes_start now created id addr s).
Proof.
  intros Hs Hid Ha. unfold find_nodes_start, table_mark_outgoing_request.
  destruct (table_ok_add (sa_ipv6 addr) (table_for (sa_ipv6 addr) s) now created id addr) as (r & rt' & -> & Ht);
    [by apply table_for_ok|done..|]. rsimpl. cbn [fst snd].
  destruct (table_ok_mark (sa_ipv6 addr) rt' id None (fun n => mark_outgoing_request n now))
    as (b & rt2 & E2 & Ht2); [done..|].
  destruct r; rewrite ?E2; rsimpl; eexists; (split; [done|]); (split; [by apply set_table_ok|apply same_set_table]).
Qed.

Lemma ping_start_tables v6 now id addr s : tables_ok s -> wf_id 20 id ->
  exists s', ping_start v6 now id addr s = Done (request_start RPing addr s') /\ tables_ok s' /\ same_but_tables s s'.
Proof.
  intros Hs Hid. unfold ping_start, table_mark_outgoing_request.
  destruct (table_ok_mark v6 (table_for v6 s) id None (fun n => mark_outgoing_request n now))
    as (b & rt' & -> & Ht); [by apply table_for_ok|done|done|].
  rsimpl. eexists. split; [done|]. split; [by apply set_table_ok|apply same_set_table].
Qed.

(** ** The closest nodes *)

Definition listed (x : RoutingTableNode SocketAddr) : Node SocketAddr := mkKNode (rn_id x) (rn_addr x).

(** [l] lists the best eight nodes of the table, best first. *)
Definition closest (rt : RoutingTable SocketAddr) (target : Id) (now : Z) (l : list (Node SocketAddr)) : Prop :=
  exists sel rest, l = listed <$> sel /\ sel ++ rest ≡ₚ nodes (rt_buckets rt) /\
    length sel = Nat.min 8 (length (nodes (rt_buckets rt))) /\
    StronglySorted (fun x y => closer target now x y = true) sel /\
    forall x y, x ∈ sel -> y ∈ rest -> closer target now x y = true.

Lemma sorted_table rt id now : tree_inv (rt_buckets rt) ->
  exists l, sorted_by_distance_from rt id now = Done l /\ l ≡ₚ nodes (rt_buckets (Addr := SocketAddr) rt) /\
    StronglySorted (fun x y => closer id now x y = true) l.
Proof.
  intros [Hd _ _]. unfold sorted_by_distance_from. rewrite (iter_nodes _ Hd). rsimpl.
  eexists. split; [done|]. split; [apply sort_by_perm|].
  apply sort_by_sorted; [intros x y; apply closer_total|intros x y z; apply closer_trans].
Qed.

(** The first eight of a sorted table. *)
Lemma closest_take rt target now l : l ≡ₚ nodes (rt_buckets rt) ->
  StronglySorted (fun x y => closer target now x y = true) l -> closest rt target now (listed <$> take 8 l).
Proof.
  intros Hp Hs. exists (take 8 l), (drop 8 l). rewrite take_drop, length_take.
  split_and!; [done|done|by rewrite <- (Permutation_length Hp)| |exact (sorted_cut _ 8 l Hs)].
  rewrite <- (take_drop 8 l) in Hs. by apply StronglySorted_app_1_l in Hs.
Qed.

Section compact_nodes.
Context {A : Type} {wf : A -> Prop} `{CompactLaws A wf} `{FromSocketAddr A} (v6 : bool) (into : A -> SocketAddr).
Hypothesis family : forall a, sa_ipv6 a = v6 -> wf_addr a -> exists x, from_socket_addr a = Some x /\ into x = a /\ wf x.

Lemma family_nodes (l : list (RoutingTableNode SocketAddr)) :
  (forall x, x ∈ l -> wf_id 20 (rn_id x) /\ sa_ipv6 (rn_addr x) = v6 /\ wf_addr (rn_addr x)) ->
  let ns := omap (fun r => mkKNode (rn_id r) <$> from_socket_addr (rn_addr r)) l in
  (fun n => mkKNode (nd_id n) (into (nd_addr n))) <$> ns = listed <$> l /\ Forall (wf_node wf) ns.
Proof.
  induction l as [|x l IH]; intros Hl; [done|]. destruct IH as [IH1 IH2]; [intros y Hy; apply Hl; by constructor|].
  destruct (Hl x) as (Hid & Hv & Ha); [by constructor|]. destruct (family _ Hv Ha) as (a & Ea & Hi & Hw).
  cbn [omap list_omap fmap list_fmap]. rewrite Ea. cbn. rewrite Hi. split; [by f_equal|by constructor].
Qed.

Lemma generate_compact_nodes_spec target rt now : table_ok v6 rt ->
  exists b, generate_compact_nodes A target rt now = Done b /\
    closest rt target now ((fun n => mkKNode (nd_id n) (into (nd_addr n))) <$> list_iter (T := Node A) b).
Proof.
  intros [Ht Hf]. destruct (sorted_table rt target now Ht) as (l & El & Hp & Hs).
  unfold generate_compact_nodes. rewrite El. rsimpl. eexists. split; [done|].
  destruct (family_nodes l) as [Hl Hw].
  { intros x Hx. rewrite Hp in Hx. split; [|by apply Hf]. by apply (nodes_sorted _ (inv_tree _ Ht)). }
  rewrite (list_iter_new (wf := wf_node wf)); [|by apply Forall_take]. rewrite fmap_take, Hl, <- fmap_take.
  by apply closest_take.
Qed.
End compact_nodes.

Lemma family_v4 a : sa_ipv6 a = false -> wf_addr a -> exists x, from_socket_addr a = Some x /\ from_v4 x = a /\ wf_v4 x.
Proof. destruct a as [[] ip port]; [done|]. intros _ [Hi Hp]. by exists (mkV4 ip port). Qed.

Lemma family_v6 a : sa_ipv6 a = true -> wf_addr a -> exists x, from_socket_addr a = Some x /\ from_v6 x = a /\ wf_v6 x.
Proof. destruct a as [[] ip port]; [|done]. intros _ [Hi Hp]. by exists (mkV6 ip port). Qed.

Definition nodes_v4 (b : option CompactNodeInfo) : list (Node SocketAddr) :=
  match b with Some b => node_from_v4 <$> list_iter b | None => [] end.
Definition nodes_v6 (b : option CompactNodeInfo) : list (Node SocketAddr) :=
  match b with Some b => node_from_v6 <$> list_iter b | None => [] end.

(** What an answer must list of the nodes: the closest of each family asked
    for. *)
Definition lists_closest (s : DhtState) (target : Id) (want : Want) (now : Z) (r : Response) : Prop :=
  match want with
  | WantV4 => closest (ds_v4 s) target now (nodes_v4 (rs_nodes r)) /\ rs_nodes6 r = None
  | WantV6 => rs_nodes r = None /\ closest (ds_v6 s) target now (nodes_v6 (rs_nodes6 r))
  | WantBoth => closest (ds_v4 s) target now (nodes_v4 (rs_nodes r)) /\ closest (ds_v6 s) target now (nodes_v6 (rs_nodes6 r))
  | WantNone => rs_nodes r = None /\ rs_nodes6 r = None
  end.

Lemma compact_nodes_both target want now s : tables_ok s ->
  exists n, generate_compact_nodes_both target want now s = Done n /\
    forall r, rs_nodes r = n.1 -> rs_nodes6 r = n.2 -> lists_closest s target want now r.
Proof.
  intros [H4 H6]. destruct (generate_compact_nodes_spec false from_v4 family_v4 target (ds_v4 s) now H4) as (b4 & E4 & C4).
  destruct (generate_compact_nodes_spec true from_v6 family_v6 target (ds_v6 s) now H6) as (b6 & E6 & C6).
  destruct want; cbn [generate_compact_nodes_both]; rewrite ?E4, ?E6; rsimpl;
    eexists; (split; [done|]); intros r E1 E2; cbn [lists_closest]; rewrite ?E1, ?E2; split; done.
Qed.

(** ** Invariant *)

Record dht_ok (P : nat -> Key -> ResponseOrError -> Prop) (s : DhtState) : Prop := {
  ok_tables : tables_ok s;
  ok_flying : flying P s;
  ok_store : exists given, store_inv given (ds_store s);
}.

(** Ids and addresses have their size; a collection iterates over the map. *)
Definition event_ok (e : DhtEvent) : Prop :=
  match e with
  | EReceived _ msg _ => forall id, requester (m_kind msg) = Some id -> wf_id 20 id
  | EFindStart _ _ id addr => wf_id 20 id /\ wf_addr addr
  | EFindEnd _ id _ _ | EPingStart _ _ id _ | EPingEnd _ _ id _ => wf_id 20 id
  | ECollect _ ord => forall m, ord m ≡ₚ map_to_list m
  | _ => True
  end.

Definition answer_of (k : MessageKind) : option ResponseOrError :=
  match k with KResponse r => Some (RResponse r) | KError e => Some (RError e) | _ => None end.

Section step.
Context (P : nat -> Key -> ResponseOrError -> Prop).

Lemma parts_ok s s' : dht_ok P s -> flying P s' -> other_parts s s' -> dht_ok P s'.
Proof.
  intros [[H4 H6] _ Hst] Hf (_ & E4 & E6 & Es & _). split; [by split; rewrite ?E4, ?E6|done|by rewrite Es].
Qed.

Lemma tables_step_ok s m : dht_ok P s -> table_step s m -> exists s', m = Done s' /\ dht_ok P s'.
Proof.
  intros [_ Hf Hst] (s' & -> & Ht & t4 & t6 & ->). eexists. split; [done|]. by split.
Qed.

Lemma reply_ok tid addr r s : dht_ok P s -> dht_ok P (reply tid addr r s).2.
Proof. intros [Ht Hf Hst]. unfold reply, worker_send. by destruct (ds_alive s). Qed.

Lemma mark_query_dht id addr now s : dht_ok P s -> wf_id 20 id ->
  exists s', mark_query id addr now s = Done s' /\ dht_ok P s'.
Proof. intros Hs Hid. apply (tables_step_ok s); [done|]. by apply mark_query_ok; [apply Hs|]. Qed.

Lemma set_store_ok s p : dht_ok P s -> (exists given, store_inv given p) -> dht_ok P (set_store s p).
Proof. intros [Ht Hf _] Hp. by split. Qed.

Lemma received_ok rd msg addr s : dht_ok P s -> (forall id, requester (m_kind msg) = Some id -> wf_id 20 id) ->
  (forall tid h r, get_our_transaction_id msg = Some tid -> ds_inflight s !! (tid, addr) = Some h ->
     answer_of (m_kind msg) = Some r -> P h (tid, addr) r) ->
  exists res s', on_received_message rd msg addr s = Done (res, s') /\ dht_ok P s'.
Proof.
  intros Hs Hid HP. unfold on_received_message.
  assert (Hrep : forall tid r s, dht_ok P s -> exists res s', Done (reply tid addr r s) = Done (res, s') /\ dht_ok P s').
  { intros tid r s1 H1. pose proof (reply_ok tid addr r s1 H1) as H2. destruct (reply tid addr r s1) as [res s2].
    by exists res, s2. }
  assert (Hresp : forall r, answer_of (m_kind msg) = Some r ->
    exists res s', Done (on_response msg addr r s) = Done (res, s') /\ dht_ok P s').
  { intros r Hr. destruct (on_response_flying P msg addr r s (ok_flying _ _ Hs)) as [H1 H2]; [by intros; eapply HP|].
    destruct (on_response msg addr r s) as [res s2]. exists res, s2. split; [done|]. by apply (parts_ok s). }
  assert (Htok : forall s1 id, dht_ok P s1 ->
    dht_ok P (set_store s1 (gen_token_for (rd_utc rd) (rd_random rd) id addr (ds_store s1)).2)).
  { intros s1 id H1. destruct (ok_store _ _ H1) as [given Hg]. apply set_store_ok; [done|].
    eexists. by apply gen_token_inv. }
  destruct (m_kind msg) as [e|q|q|r|q|q|q|q] eqn:Ek; cbn [requester] in Hid; try (by apply Hresp).
  all: try (destruct (compact_nodes_both (gp_info_hash q) (default_want (gp_want q) addr) (rd_nodes rd) s) as (n & -> & _); [apply Hs|]).
  all: try (destruct (compact_nodes_both (fn_target q) (default_want (fn_want q) addr) (rd_nodes rd) s) as (n & -> & _); [apply Hs|]).
  all: try (destruct (compact_nodes_both (bg_target q) WantBoth (rd_nodes rd) s) as (n & -> & _); [apply Hs|]).
  all: rsimpl; match goal with |- context [mark_query ?id _ _ _] =>
    destruct (mark_query_dht id addr (rd_query rd) s Hs (Hid id eq_refl)) as (s1 & -> & H1) end; rsimpl.
  - specialize (Htok s1 (gp_id q) H1). destruct (gen_token_for _ _ _ _ _) as [token store]. by apply Hrep.
  - by apply Hrep.
  - by apply Hrep.
  - apply Hrep. apply set_store_ok; [done|]. destruct (ok_store _ _ H1) as [given Hg]. eexists. by apply store_peer_inv.
  - specialize (Htok s1 (bg_id q) H1). destruct (gen_token_for _ _ _ _ _) as [token store]. by apply Hrep.
  - by apply Hrep.
Qed.

Lemma dht_step_ok s e : dht_ok P s -> event_ok e ->
  (forall rd msg addr tid h r, e = EReceived rd msg addr -> get_our_transaction_id msg = Some tid ->
     ds_inflight s !! (tid, addr) = Some h -> answer_of (m_kind msg) = Some r -> P h (tid, addr) r) ->
  exists s', dht_step s e = Done s' /\ dht_ok P s'.
Proof.
  intros Hs He HP. pose proof (ok_flying _ _ Hs) as Hf. pose proof (ok_tables _ _ Hs) as Ht.
  destruct e as [request addr|h|h|h|tid addr|rd msg addr|now created id addr|now id addr ok|v6 now id addr|v6 now id ok|hash token port addr|now ord|];
    cbn [dht_step event_ok] in *.
  - eexists. split; [done|]. destruct (request_start_flying P request addr s Hf). by eapply parts_ok.
  - eexists. split; [done|]. destruct (request_poll_flying P h s Hf). by eapply parts_ok.
  - eexists. split; [done|]. destruct (request_timeout_flying P h s Hf). by eapply parts_ok.
  - eexists. split; [done|]. destruct (request_cancel_flying P h s Hf). by eapply parts_ok.
  - eexists. split; [done|]. destruct (on_send_error_flying P tid addr SendFailed s Hf). by eapply parts_ok.
  - destruct (received_ok rd msg addr s Hs He) as (res & s' & -> & H'); [by intros; eapply HP|]. by exists s'.
  - apply (tables_step_ok s); [done|]. apply find_nodes_start_ok; tauto.
  - apply (tables_step_ok s); [done|]. by apply mark_result_ok.
  - destruct (ping_start_tables v6 now id addr s Ht He) as (s1 & -> & H1 & t4 & t6 & ->). rsimpl. eexists. split; [done|].
    match goal with |- context [request_start _ _ ?s1] => destruct (request_start_flying P RPing addr s1 Hf);
      apply (parts_ok s1); [|done..] end. split; [done|done|apply Hs].
  - apply (tables_step_ok s); [done|]. by apply mark_result_ok.
  - eexists. split; [done|]. unfold send_announce, create_request, worker_send.
    destruct Hs. cbn [set_tid ds_alive]. by destruct (ds_alive s).
  - eexists. split; [done|]. apply set_store_ok; [done|]. destruct (ok_store _ _ Hs) as [given Hg].
    eexists. by apply collect_inv.
  - eexists. split; [done|]. by destruct Hs.
Qed.
End step.

(** ** Properties *)

Definition dht_start (now : Z) (id : Id) : DhtState := new_internal now id None None (store_new id).

Lemma dht_start_ok P now id : dht_ok P (dht_start now id).
Proof.
  split; [split; apply table_ok_new| |exists []; apply (run_inv id []); constructor].
  split; [|by intros h o r E]. intros key h. split; [done|]. by intros (o & E & _).
Qed.

(** Request [h], waiting under [key], was answered with [r] in the history. *)
Definition answered_in (s0 : DhtState) (es : list DhtEvent) (h : nat) (key : Key) (r : ResponseOrError) : Prop :=
  exists es1 rd msg es2 s1 o, es = es1 ++ EReceived rd msg key.2 :: es2 /\ run_dht s0 es1 = Done s1 /\
    ds_requests s1 !! h = Some o /\ or_key o = key /\ or_chan o = Pending /\
    get_our_transaction_id msg = Some key.1 /\ answer_of (m_kind msg) = Some r.

Lemma run_dht_snoc s es e : run_dht s (es ++ [e]) = outcome_bind (run_dht s es) (fun s => dht_step s e).
Proof.
  unfold run_dht. revert s. induction es as [|e' es IH]; intros s; cbn [app for_each outcome_bind].
  - by destruct (dht_step s e).
  - destruct (dht_step s e'); [apply IH|done].
Qed.

Lemma run_dht_ok now id es : Forall event_ok es ->
  exists s, run_dht (dht_start now id) es = Done s /\ dht_ok (answered_in (dht_start now id) es) s.
Proof.
  set (s0 := dht_start now id). induction es as [|e es IH] using rev_ind; intros Hok.
  - exists s0. split; [done|]. apply dht_start_ok.
  - apply Forall_app in Hok as [Hok He]. apply Forall_cons in He as [He _].
    destruct (IH Hok) as (s & Hrun & [Ht Hf Hst]). rewrite run_dht_snoc, Hrun. rsimpl.
    apply dht_step_ok; [split; [done| |done]|done|].
    + eapply flying_impl; [|exact Hf]. intros h k r (es1 & rd & msg & es2 & s1 & o & -> & Hrest).
      exists es1, rd, msg, (es2 ++ [e]), s1, o. split; [by rewrite <- app_assoc|done].
    + intros rd msg addr tid h r -> Htid Hh Hr. destruct (proj1 (ro_flight _ _ _ Hf _ _) Hh) as (o & Eo & Hk & Hp).
      by exists es, rd, msg, [], s, o.
Qed.

(** ** The map and the history *)

(** The requests that a history starts, in order: request [h] is the one that
    [h] others were started before; a transaction id is the number of the
    requests and announcements before it, in sixteen bits. *)
Definition start_addr (e : DhtEvent) : option SocketAddr :=
  match e with EStart _ addr | EPingStart _ _ _ addr => Some addr | _ => None end.
Definition tid_used (e : DhtEvent) : bool :=
  match e with EStart _ _ | EPingStart _ _ _ _ | EAnnounce _ _ _ _ => true | _ => false end.
Definition handles (es : list DhtEvent) : nat := length (omap start_addr es).
Definition next_tid (es : list DhtEvent) : Z := Z.of_nat (length (List.filter tid_used es)) mod U16.

(** After [es], the event starts request [h] under [key]. *)
Definition starts (es : list DhtEvent) (e : DhtEvent) (h : nat) (key : Key) : Prop :=
  (h = handles es) /\ (key.1 = next_tid es) /\ start_addr e = Some key.2.

Definition started (es : list DhtEvent) (h : nat) (key : Key) : Prop :=
  exists es1 e es2, es = es1 ++ e :: es2 /\ starts es1 e h key.

(** The future of request [h] was dropped. *)
Definition dropped (es : list DhtEvent) (h : nat) : Prop :=
  exists es1 es2, es = es1 ++ ECancel h :: es2 /\ (h < handles es1)%nat.

(** What ends the wait of request [h] under [key]: its timeout, while its future
    still runs; an answer with its transaction id from its address; an error of
    the socket; another request under the same key. *)
Definition ends (es : list DhtEvent) (e : DhtEvent) (h : nat) (key : Key) : Prop :=
  match e with
  | ETimeout h' => h' = h /\ ~ dropped es h
  | EReceived _ msg addr => answer_of (m_kind msg) <> None /\ get_our_transaction_id msg = Some key.1 /\ addr = key.2
  | ESendError tid addr => (tid, addr) = key
  | EStart _ addr | EPingStart _ _ _ addr => (next_tid es, addr) = key
  | _ => False
  end.

(** The future of an earlier request under the same key is polled. *)
Definition disturbs (es : list DhtEvent) (e : DhtEvent) (h : nat) (key : Key) : Prop :=
  exists h', e = EPoll h' /\ (h' < h)%nat /\ started es h' key.

(** Request [h] was started under [key] while the worker ran, and nothing of [C]
    happened since. *)
Definition waits (C : list DhtEvent -> DhtEvent -> nat -> Key -> Prop) (es : list DhtEvent) (h : nat) (key : Key) : Prop :=
  exists es1 e es2, es = es1 ++ e :: es2 /\ starts es1 e h key /\ (EWorkerGone ∉ es1) /\
    forall p x q, es2 = p ++ x :: q -> ~ C (es1 ++ e :: p) x h key.

Definition undisturbed (es : list DhtEvent) (e : DhtEvent) (h : nat) (key : Key) : Prop :=
  ends es e h key \/ disturbs es e h key.

Lemma snoc_split {A} (es : list A) x es1 y es2 : es ++ [x] = es1 ++ y :: es2 ->
  (es2 = [] /\ es1 = es /\ y = x) \/ exists q, es2 = q ++ [x] /\ es = es1 ++ y :: q.
Proof.
  destruct es2 as [|z q _] using rev_ind; intros E.
  - left. apply app_inj_tail in E as [-> ->]. done.
  - right. exists q. rewrite app_comm_cons, app_assoc in E. apply app_inj_tail in E as [-> ->]. done.
Qed.

Lemma waits_snoc C es x h key : waits C (es ++ [x]) h key <->
  (waits C es h key /\ ~ C es x h key) \/ (starts es x h key /\ EWorkerGone ∉ es).
Proof.
  split.
  - intros (es1 & e & es2 & E & Hs & Ha & Hn). destruct (snoc_split _ _ _ _ _ E) as [(-> & -> & ->)|(q & -> & ->)]; [by right|].
    left. split; [|exact (Hn q x [] eq_refl)]. exists es1, e, q. split_and!; [done..|].
    intros p y r ->. apply (Hn p y (r ++ [x])). by rewrite <- app_assoc.
  - intros [[(es1 & e & es2 & -> & Hs & Ha & Hn) Hx]|[Hs Ha]].
    + exists es1, e, (es2 ++ [x]). split_and!; [by rewrite <- app_assoc|done|done|]. intros p y q E.
      destruct (snoc_split _ _ _ _ _ E) as [(-> & -> & ->)|(r & -> & ->)]; [done|]. by eapply Hn.
    + exists es, x, []. split_and!; [done..|]. intros p y q E. by destruct p.
Qed.

Lemma started_snoc es x h key : started (es ++ [x]) h key <-> started es h key \/ starts es x h key.
Proof.
  split.
  - intros (es1 & e & es2 & E & Hs). destruct (snoc_split _ _ _ _ _ E) as [(-> & -> & ->)|(q & -> & ->)]; [by right|].
    left. by exists es1, e, q.
  - intros [(es1 & e & es2 & -> & Hs)|Hs]; [exists es1, e, (es2 ++ [x])|by exists es, x, []]. by rewrite <- app_assoc.
Qed.

Lemma dropped_snoc es x h : dropped (es ++ [x]) h <-> dropped es h \/ (x = ECancel h /\ (h < handles es)%nat).
Proof.
  split.
  - intros (es1 & es2 & E & Hh). destruct (snoc_split _ _ _ _ _ E) as [(-> & -> & Ex)|(q & -> & ->)]; [by right|].
    left. by exists es1, q.
  - intros [(es1 & es2 & -> & Hh)|[-> Hh]]; [exists es1, (es2 ++ [x])|by exists es, []]. by rewrite <- app_assoc.
Qed.

Lemma handles_snoc es x : handles (es ++ [x]) = (handles es + (if start_addr x is Some _ then 1 else 0))%nat.
Proof. unfold handles. rewrite omap_app, length_app. cbn. by destruct (start_addr x). Qed.

Lemma next_tid_snoc es x : next_tid (es ++ [x]) = (if tid_used x then (next_tid es + 1) mod U16 else next_tid es).
Proof.
  unfold next_tid. rewrite List.filter_app, length_app. cbn [List.filter]. destruct (tid_used x); cbn [length].
  - rewrite Nat2Z.inj_add, Zplus_mod_idemp_l. done.
  - by rewrite Nat.add_0_r.
Qed.

Lemma dropped_handles es h : dropped es h -> (h < handles es)%nat.
Proof. intros (es1 & es2 & -> & Hh). unfold handles in *. rewrite omap_app, length_app. lia. Qed.

Record hist_ok (es : list DhtEvent) (s : DhtState) : Prop := {
  hk_len : length (ds_requests s) = handles es;
  hk_tid : ds_next_tid s = next_tid es;
  hk_alive : ds_alive s = true <-> EWorkerGone ∉ es;
  hk_keys : forall h o, ds_requests s !! h = Some o -> started es h (or_key o);
  hk_future : forall h o, ds_requests s !! h = Some o -> or_chan o = Pending -> (or_future o = Awaiting <-> ~ dropped es h);
  hk_in : forall key h, ds_inflight s !! key = Some h -> waits ends es h key;
  hk_out : forall key h, waits undisturbed es h key -> ds_inflight s !! key = Some h;
}.

(** What an event does to the requests: one more may start, channels are closed
    or filled, futures return or are dropped. *)
Definition req_change (es : list DhtEvent) (x : DhtEvent) (l l' : list OutstandingRequest) : Prop :=
  forall h o', l' !! h = Some o' ->
    (exists o, l !! h = Some o /\ or_key o' = or_key o /\ (or_chan o' = Pending -> or_chan o = Pending /\
       (or_future o' = Awaiting <-> or_future o = Awaiting /\ x <> ECancel h))) \/
    (starts es x h (or_key o') /\ (or_chan o' = Pending -> or_future o' = Awaiting)).

(** And to the map. *)
Record moved (es : list DhtEvent) (x : DhtEvent) (s s' : DhtState) : Prop := {
  mv_len : length (ds_requests s') = (length (ds_requests s) + (if start_addr x is Some _ then 1 else 0))%nat;
  mv_tid : ds_next_tid s' = (if tid_used x then (ds_next_tid s + 1) mod U16 else ds_next_tid s);
  mv_alive : ds_alive s' = true <-> ds_alive s = true /\ x <> EWorkerGone;
  mv_req : req_change es x (ds_requests s) (ds_requests s');
  mv_in : forall key h, ds_inflight s' !! key = Some h ->
    (ds_inflight s !! key = Some h /\ ~ ends es x h key) \/ (starts es x h key /\ ds_alive s = true);
  mv_out : forall key h, ds_inflight s !! key = Some h -> ~ ends es x h key -> ~ disturbs es x h key -> ds_inflight s' !! key = Some h;
  mv_new : forall key h, starts es x h key -> ds_alive s = true -> ds_inflight s' !! key = Some h;
}.

Lemma moved_hist es x s s' : hist_ok es s -> moved es x s s' -> hist_ok (es ++ [x]) s'.
Proof.
  intros [Hl Ht Ha Hk Hf Hi Ho] [Ml Mt Ma Mr Mi Mo Mn]. split.
  - by rewrite Ml, Hl, handles_snoc.
  - by rewrite Mt, Ht, next_tid_snoc.
  - rewrite Ma, Ha, not_elem_of_app, list_elem_of_singleton. naive_solver.
  - intros h o' E. apply started_snoc. destruct (Mr h o' E) as [(o & Eo & -> & _)|[Hs _]]; [left; by apply Hk|by right].
  - intros h o' E Hp. rewrite dropped_snoc. destruct (Mr h o' E) as [(o & Eo & _ & Hc)|[Hs Hc]].
    + destruct (Hc Hp) as [Hp0 ->]. rewrite (Hf h o Eo Hp0). apply lookup_lt_Some in Eo. rewrite Hl in Eo. naive_solver.
    + destruct Hs as (-> & _ & Hs). split; [intros _|by intros _; apply Hc].
      intros [Hd|[-> _]]; [apply dropped_handles in Hd; lia|done].
  - intros key h E. apply waits_snoc. destruct (Mi key h E) as [[E0 Hn]|[Hs Hal]]; [left|right].
    + split; [by apply Hi|done].
    + split; [done|by apply Ha].
  - intros key h [[Hw Hn]|[Hs Hal]]%waits_snoc; [|apply Mn; [done|by apply Ha]].
    apply Mo; [by apply Ho|..]; intros Hx; apply Hn; [by left|by right].
Qed.

(** Channels are closed or filled and futures return; nothing opens again. *)
Definition req_moved (l l' : list OutstandingRequest) : Prop := length l' = length l /\
  forall h o', l' !! h = Some o' -> exists o, l !! h = Some o /\ or_key o' = or_key o /\
    (or_chan o' = Pending -> or_chan o = Pending /\ or_future o' = or_future o).

Lemma req_moved_refl l : req_moved l l.
Proof. split; [done|]. intros h o E. by exists o. Qed.

Lemma req_moved_trans l1 l2 l3 : req_moved l1 l2 -> req_moved l2 l3 -> req_moved l1 l3.
Proof.
  intros [L1 H1] [L2 H2]. split; [congruence|]. intros h o3 E3. destruct (H2 h o3 E3) as (o2 & E2 & -> & Hp2).
  destruct (H1 h o2 E2) as (o1 & E1 & -> & Hp1). exists o1. split_and!; [done..|]. intros Hp.
  destruct (Hp2 Hp) as [Hp' ->]. by apply Hp1.
Qed.

Lemma req_moved_alter f h l : (forall o, l !! h = Some o -> or_key (f o) = or_key o /\ or_chan (f o) <> Pending) -> req_moved l (alter f h l).
Proof.
  intros Hf. split; [apply length_alter|]. intros j o'. rewrite lookup_alter_case. case_decide as Hj; [subst j|intros E; by exists o'].
  destruct (l !! h) as [o|]; [|done]. intros [= <-]. exists o. destruct (Hf o eq_refl) as [-> Hn]. by split_and!.
Qed.

Lemma drop_inflight_map key s : ds_inflight (drop_inflight key s) = delete key (ds_inflight s) /\
  req_moved (ds_requests s) (ds_requests (drop_inflight key s)) /\ ds_next_tid (drop_inflight key s) = ds_next_tid s.
Proof.
  unfold drop_inflight, remove_inflight. destruct (ds_inflight s !! key) as [h|]; cbn; split_and!; try done;
    [by apply req_moved_alter|apply req_moved_refl].
Qed.

Lemma req_moved_change es x l l' : (forall h, x <> ECancel h) -> req_moved l l' -> req_change es x l l'.
Proof.
  intros Hc [_ Hr] h o' E. left. destruct (Hr h o' E) as (o & Eo & Ek & Hp). exists o. split_and!; [done..|]. intros Hp'.
  destruct (Hp Hp') as [? ->]. split; [done|]. specialize (Hc h). tauto.
Qed.

Lemma req_change_moved es x l1 l2 l3 : req_change es x l1 l2 -> req_moved l2 l3 -> req_change es x l1 l3.
Proof.
  intros H1 [_ H2] h o3 E3. destruct (H2 h o3 E3) as (o2 & E2 & -> & Hp2).
  destruct (H1 h o2 E2) as [(o1 & E1 & Ek & Hp1)|[Hs Hp1]]; [left; exists o1; split_and!; [done..|]|right; split; [done|]];
    intros Hp; destruct (Hp2 Hp) as [Hp' ->]; by apply Hp1.
Qed.

Lemma req_change_push es x l l2 key : (forall h, x <> ECancel h) -> starts es x (length l) key -> req_moved l l2 ->
  req_change es x l (l2 ++ [mkOutstanding key Pending Awaiting]).
Proof.
  intros Hc Hs Hr h o'. pose proof Hr as [Hl _]. rewrite lookup_app_Some. intros [E|[Hh E]]; [by eapply req_moved_change|].
  right. apply list_lookup_singleton_Some in E as [Hz <-]. split; [|done]. by replace h with (length l) by lia.
Qed.

Lemma drop_closes key s h o : ds_inflight s !! key = Some h -> ds_requests (drop_inflight key s) !! h = Some o -> or_chan o = Closed.
Proof.
  intros Em. unfold drop_inflight, remove_inflight. rewrite Em. cbn. unfold set_chan. rewrite lookup_alter_case, decide_True by done.
  destruct (ds_requests s !! h) as [o0|]; [|done]. by intros [= <-].
Qed.

(** An event that only removes entries. *)
Lemma removal_moved es x s s' : start_addr x = None -> tid_used x = false -> x <> EWorkerGone -> (forall h, x <> ECancel h) ->
  ds_next_tid s' = ds_next_tid s -> ds_alive s' = ds_alive s -> req_moved (ds_requests s) (ds_requests s') ->
  (forall key h, ds_inflight s' !! key = Some h -> ds_inflight s !! key = Some h /\ ~ ends es x h key) ->
  (forall key h, ds_inflight s !! key = Some h -> ~ ends es x h key -> ~ disturbs es x h key -> ds_inflight s' !! key = Some h) ->
  moved es x s s'.
Proof.
  intros Hs Ht Hg Hc Et Ea Hr Hi Ho.
  assert (Hns : forall h key, ~ starts es x h key) by (intros h key (_ & _ & E); congruence).
  split; [rewrite Hs, (proj1 Hr); lia|by rewrite Ht|by rewrite Ea; tauto|by apply req_moved_change|by left; apply Hi|done|by intros key h []%Hns].
Qed.

Lemma quiet_moved es x s s' : start_addr x = None -> tid_used x = false -> x <> EWorkerGone -> (forall h, x <> ECancel h) ->
  (forall key h, ds_inflight s !! key = Some h -> ~ ends es x h key) ->
  ds_next_tid s' = ds_next_tid s -> ds_alive s' = ds_alive s -> ds_requests s' = ds_requests s -> ds_inflight s' = ds_inflight s ->
  moved es x s s'.
Proof.
  intros Hs Ht Hg Hc Hn Et Ea Er Em. apply removal_moved; try done; [rewrite Er; apply req_moved_refl|rewrite Em..].
  - intros key h E. split; [done|]. by apply Hn.
  - done.
Qed.

(** An announcement uses an id, and the worker may go: no request notices. *)
Lemma still_moved es x s s' : start_addr x = None -> (forall h, x <> ECancel h) ->
  (forall key h, ~ ends es x h key) -> ds_next_tid s' = (if tid_used x then (ds_next_tid s + 1) mod U16 else ds_next_tid s) ->
  (ds_alive s' = true <-> ds_alive s = true /\ x <> EWorkerGone) -> ds_requests s' = ds_requests s -> ds_inflight s' = ds_inflight s ->
  moved es x s s'.
Proof.
  intros Hs Hc He Ht Ha Er Em. assert (Hns : forall h key, ~ starts es x h key) by (intros h key (_ & _ & E); congruence).
  split; rewrite ?Er, ?Em; [rewrite Hs; lia|done|done|apply req_moved_change; [done|apply req_moved_refl]|by left|done|by intros key h []%Hns].
Qed.

(** A query leaves the requests alone. *)
Lemma received_quiet rd msg addr s res s' : answer_of (m_kind msg) = None -> on_received_message rd msg addr s = Done (res, s') ->
  ds_next_tid s' = ds_next_tid s /\ ds_alive s' = ds_alive s /\ ds_requests s' = ds_requests s /\ ds_inflight s' = ds_inflight s.
Proof.
  assert (Hrep : forall tid r s1, (reply tid addr r s1).2 = set_worker s1 (ds_alive s1) (ds_sent (reply tid addr r s1).2)).
  { intros tid r s1. unfold reply, worker_send. destruct s1 as [? ? ? ? ? ? [] ? ?]; done. }
  assert (Hm : forall id now (k : DhtState -> outcome (result DhtError unit * DhtState)),
    outcome_bind (mark_query id addr now s) k = Done (res, s') -> exists t, k (set_table s (sa_ipv6 addr) t) = Done (res, s')).
  { intros id now k. unfold mark_query. destruct (table_mark_last_query _ id now) as [[b t]|]; [|done]. rsimpl. intros E. by exists t. }
  intros Ha. unfold on_received_message.
  destruct (m_kind msg) as [e|q|q|r|q|q|q|q]; try done; rsimpl;
    try (destruct (generate_compact_nodes_both _ _ _ s) as [n|]; [|done]; rsimpl);
    intros (t & Hk)%Hm; unfold gen_token_for in Hk; cbn zeta in Hk; apply (f_equal (fun o => match o with Done p => p.2 | _ => s' end)) in Hk;
    cbn [snd] in Hk; rewrite Hrep in Hk; rewrite <- Hk; by destruct (sa_ipv6 addr).
Qed.

(** Another request under the key of a waiting one is an earlier one. *)
Lemma started_before es h j key : waits ends es j key -> started es h key -> h <> j -> (h < j)%nat.
Proof.
  induction es as [|x es IH] using rev_ind; [by intros (es1 & e & es2 & E & _); destruct es1|].
  intros [[Hw Hn]|[Hs _]]%waits_snoc [Hst|Hst]%started_snoc Hne.
  - by apply IH.
  - destruct Hn, Hst as (_ & Ht & Ha). destruct x; try done; injection Ha as ->; cbn; rewrite <- Ht; by destruct key.
  - destruct Hs as [-> _], Hst as (es1 & e & es2 & -> & -> & _ & Ha). unfold handles. rewrite omap_app, length_app. cbn.
    rewrite Ha. cbn. lia.
  - destruct Hs as [-> _], Hst as [-> _]. done.
Qed.

Section moves.
Context (es : list DhtEvent) (s : DhtState).
Hypothesis flight : flight_ok (ds_inflight s) (ds_requests s).
Hypothesis hist : hist_ok es s.

(** A request in the map is not ended by its timeout unless its future runs. *)
Lemma flight_awaiting key h : ds_inflight s !! key = Some h -> exists f, ds_requests s !! h = Some (mkOutstanding key Pending f) /\
  (f = Awaiting <-> ~ dropped es h).
Proof.
  intros Em. destruct (proj1 (flight key h) Em) as (o & Eo & Hk & Hp). pose proof (hk_future _ _ hist h o Eo Hp) as Hf.
  destruct o as [k c f]. cbn in *. subst. by exists f.
Qed.

(** The entry that [insert_inflight] makes. *)
Lemma insert_inflight_hist x key tid : (forall h, x <> ECancel h) -> starts es x (handles es) key ->
  exists s', insert_inflight key (set_tid s tid) = (handles es, s') /\ ds_next_tid s' = tid /\ ds_alive s' = ds_alive s /\
    ds_inflight s' = <[key := handles es]> (delete key (ds_inflight s)) /\ length (ds_requests s') = (length (ds_requests s) + 1)%nat /\
    req_change es x (ds_requests s) (ds_requests s').
Proof.
  intros Hc Hs. unfold insert_inflight. set (s1 := set_tid s tid). destruct (drop_inflight_map key s1) as (M1 & R1 & T1).
  rewrite (proj1 R1), <- (hk_len _ _ hist). eexists. split; [done|]. cbn [set_flight ds_next_tid ds_alive ds_inflight ds_requests].
  split_and!; [exact T1|by apply (drop_inflight_parts key s1)|by rewrite M1|by rewrite length_app, (proj1 R1)|].
  apply req_change_push; [done|by rewrite (hk_len _ _ hist)|done].
Qed.

Lemma start_moved x request addr : start_addr x = Some addr -> tid_used x = true -> x <> EWorkerGone -> (forall h, x <> ECancel h) ->
  (forall h key, ends es x h key <-> (next_tid es, addr) = key) -> moved es x s (request_start request addr s).2.
Proof.
  intros Hs Ht Hg Hc He. pose proof (hk_tid _ _ hist) as Htid.
  unfold request_start, create_request. cbn zeta. rewrite Htid. set (key := (next_tid es, addr)).
  assert (Hst : forall h k, starts es x h k <-> h = handles es /\ k = key).
  { intros h [t a]. unfold starts. rewrite Hs. cbn. naive_solver. }
  destruct (insert_inflight_hist x key ((next_tid es + 1) mod U16) Hc) as (s3 & -> & T3 & Ha3 & M3 & L3 & Hch); [by apply Hst|].
  unfold worker_send. rewrite Ha3. destruct (ds_alive s) eqn:Ea; cbn [snd].
  - split; cbn [set_worker ds_requests ds_next_tid ds_alive ds_inflight]; [by rewrite Hs|by rewrite Ht, Htid|by tauto|exact Hch|..]; rewrite M3.
    + intros k h. rewrite lookup_insert_Some, lookup_delete_Some, Hst. intros [[<- <-]|[Hne [_ E]]]; [by right|left].
      split; [done|]. by rewrite He.
    + intros k h E Hn _. rewrite He in Hn. by rewrite lookup_insert_ne, lookup_delete_ne.
    + intros k h [-> ->]%Hst _. by rewrite lookup_insert_eq.
  - destruct (drop_inflight_map key s3) as (M4 & R4 & T4). rewrite M3, delete_insert_eq, delete_delete_eq in M4.
    split; cbn [set_flight ds_requests ds_next_tid ds_alive ds_inflight]; try (rewrite M4).
    + unfold set_future. by rewrite length_alter, (proj1 R4), Hs.
    + by rewrite T4, Ht, Htid.
    + assert (E : ds_alive (drop_inflight key s3) = false) by (rewrite <- Ha3; apply (drop_inflight_parts key s3)). rewrite E, Ea.
      split; [done|by intros []].
    + eapply req_change_moved; [exact Hch|]. eapply req_moved_trans; [exact R4|]. apply req_moved_alter. intros o Eo. split; [done|].
      cbn [with_future or_chan]. rewrite (drop_closes key s3 (handles es) o); [done|by rewrite M3, lookup_insert_eq|done].
    + intros k h [Hne E]%lookup_delete_Some. left. split; [done|]. by rewrite He.
    + intros k h E Hn _. rewrite He in Hn. by rewrite lookup_delete_ne.
    + congruence.
Qed.

Lemma timeout_moved h : moved es (ETimeout h) s (request_timeout h s).
Proof.
  unfold request_timeout. destruct (ds_requests s !! h) as [[key [| |] []]|] eqn:E.
  1: { assert (Em : ds_inflight s !! key = Some h) by (apply flight; by eexists).
    destruct (drop_inflight_map key s) as (M1 & R1 & T1).
    assert (Hd : ~ dropped es h) by (by apply (hk_future _ _ hist h _ E)).
    apply removal_moved; try done; [by apply (drop_inflight_parts key s)| |cbn [set_flight ds_inflight]; rewrite M1..].
    - eapply req_moved_trans; [exact R1|]. apply req_moved_alter. intros o Eo. split; [done|]. cbn. by rewrite (drop_closes key s h o).
    - intros k j [Hne Ek]%lookup_delete_Some. split; [done|]. intros [-> _]. destruct (flight_awaiting _ _ Ek) as (f & Ef & _). congruence.
    - intros k j Ek Hn _. rewrite lookup_delete_ne; [done|]. intros <-. apply Hn. assert (j = h) as -> by congruence. done. }
  all: apply quiet_moved; try done; intros k j Ek [-> Hd]; destruct (flight_awaiting _ _ Ek) as (f & Ef & Hf); apply Hf in Hd; congruence.
Qed.

Lemma cancel_moved h : moved es (ECancel h) s (request_cancel h s).
Proof.
  assert (Hs : forall k j, ~ starts es (ECancel h) k j) by (by intros k j (_ & _ & ?)).
  unfold request_cancel. destruct (ds_requests s !! h) as [[key c []]|] eqn:E.
  1: { split; [cbn; unfold set_future; rewrite length_alter; lia|done|by split; [intros ?|intros []]|cbn [set_flight ds_requests]|by intros k j Ek; left; split; [done|intros []]|done|by intros k j []%Hs].
    intros j o'. unfold set_future. rewrite lookup_alter_case. case_decide as Hj; [subst j|].
    - rewrite E. intros [= <-]. left. eexists. split; [done|]. split; [done|]. cbn. intros ->. split; [done|]. split; [done|by intros []].
    - intros Ej. left. exists o'. split_and!; [done..|]. intros Hp. split; [done|]. split; [|by intros []]. intros Hf. split; [done|congruence]. }
  all: split; [cbn; lia|done|by split; [intros ?|intros []]| |by intros k j Ek; left; split; [done|intros []]|done|by intros k j []%Hs]; intros j o' Ej; left; exists o'; (split_and!; [done..|]); intros Hp; (split; [done|]);
    (split; [|by intros []]); intros Hf; (split; [done|]); intros [= ->]; rewrite E in Ej; try done; by injection Ej as <-.
Qed.

Lemma poll_moved h : moved es (EPoll h) s (request_poll h s).
Proof.
  unfold request_poll. destruct (ds_requests s !! h) as [[key [|r|] []]|] eqn:E.
  4: { apply removal_moved; try done; [|by intros k j Ek; split; [|intros []]]. apply req_moved_alter. rewrite E. by intros o [= <-]. }
  6: { destruct (drop_inflight_map key s) as (M1 & R1 & T1).
    apply removal_moved; try done; [by apply (drop_inflight_parts key s)| |cbn [set_flight ds_inflight]; rewrite M1..].
    - eapply req_moved_trans; [exact R1|]. apply req_moved_alter. intros o Eo. split; [done|]. intros Hp.
      destruct (proj2 R1 h o Eo) as (o1 & Eo1 & _ & Hp1). destruct (Hp1 Hp) as [Hp2 _]. by simplify_eq.
    - intros k j [_ Ek]%lookup_delete_Some. split; [done|intros []].
    - intros k j Ek _ Hn. rewrite lookup_delete_ne; [done|]. intros <-. apply Hn. exists h. split; [done|].
      pose proof (hk_keys _ _ hist h _ E) as Hk. split; [|done]. apply (started_before es h j key); [by apply (hk_in _ _ hist)|done|].
      intros <-. destruct (flight_awaiting _ _ Ek) as (f & Ef & _). congruence. }
  all: apply quiet_moved; try done; intros k j _ [].
Qed.

(** A message or an error that takes the entry of one key. *)
Lemma take_moved x key c : start_addr x = None -> tid_used x = false -> x <> EWorkerGone -> (forall h, x <> ECancel h) -> c <> Pending ->
  (forall h k, ends es x h k <-> k = key) ->
  moved es x s (match remove_inflight key s with (Some h, s) => set_flight s (ds_inflight s) (set_chan h c (ds_requests s)) | (None, s) => s end).
Proof.
  intros Hs Ht Hg Hc Hp He. unfold remove_inflight. destruct (ds_inflight s !! key) as [h|] eqn:E.
  - apply removal_moved; try done; cbn [set_flight ds_inflight]; [by apply req_moved_alter|..]; setoid_rewrite He.
    + intros k j [Hne Ek]%lookup_delete_Some. done.
    + intros k j Ek Hn _. by rewrite lookup_delete_ne.
  - apply quiet_moved; try done; cbn [set_flight ds_inflight]; [|by apply delete_id]. intros k j Ek ->%He. congruence.
Qed.

Lemma received_moved rd msg addr res s' : on_received_message rd msg addr s = Done (res, s') ->
  moved es (EReceived rd msg addr) s s'.
Proof.
  intros Hrun. destruct (answer_of (m_kind msg)) as [r|] eqn:Er.
  - assert (Hres : on_response msg addr r s = (res, s')).
    { unfold on_received_message in Hrun. destruct (m_kind msg); cbn in Er; simplify_eq; congruence. }
    clear Hrun. unfold on_response in Hres. destruct (get_our_transaction_id msg) as [tid|] eqn:Et.
    + pose proof (take_moved (EReceived rd msg addr) (tid, addr) (Sent (Ok r))) as Hm.
      destruct (remove_inflight (tid, addr) s) as [[h|] s1]; injection Hres as <- <-; apply Hm; try done;
        intros h' [t a]; cbn [ends fst snd]; rewrite Er, Et; naive_solver.
    + injection Hres as <- <-. apply quiet_moved; try done. intros k j _ (_ & E & _). congruence.
  - destruct (received_quiet rd msg addr s res s' Er Hrun) as (E1 & E2 & E3 & E4).
    apply quiet_moved; try done. intros k j _ (E & _). congruence.
Qed.
End moves.

Lemma step_moved es s e s' : flight_ok (ds_inflight s) (ds_requests s) -> hist_ok es s -> tables_ok s -> event_ok e ->
  dht_step s e = Done s' -> moved es e s s'.
Proof.
  intros Hf Hh Ht He.
  assert (Hq : forall x m, start_addr x = None -> tid_used x = false -> x <> EWorkerGone -> (forall h, x <> ECancel h) ->
    (forall h key, ~ ends es x h key) -> table_step s m -> m = Done s' -> moved es x s s').
  { intros x m H1 H2 H3 H4 H5 (s1 & -> & _ & t4 & t6 & ->) [= <-]. by apply quiet_moved. }
  destruct e as [request addr|h|h|h|tid addr|rd msg addr|now created id addr|now id addr ok|v6 now id addr|v6 now id ok|hash token port addr|now ord|];
    cbn [dht_step event_ok] in *.
  - intros [= <-]. by apply start_moved.
  - intros [= <-]. by apply poll_moved.
  - intros [= <-]. by apply timeout_moved.
  - intros [= <-]. by apply cancel_moved.
  - intros [= <-]. by apply take_moved.
  - destruct (on_received_message rd msg addr s) as [[res s1]|] eqn:E; [|done]. intros [= <-]. by eapply received_moved.
  - apply Hq; try done; [by intros h k []|]. apply find_nodes_start_ok; tauto.
  - apply Hq; try done; [by intros h k []|]. by apply mark_result_ok.
  - destruct (ping_start_tables v6 now id addr s Ht He) as (s1 & -> & H1 & t4 & t6 & ->). rsimpl. intros [= <-].
    match goal with |- context [request_start _ _ ?s1] => set (s2 := s1); assert (H2 : hist_ok es s2) by (by destruct Hh) end.
    by destruct (start_moved es s2 H2 (EPingStart v6 now id addr) RPing addr).
  - apply Hq; try done; [by intros h k []|]. by apply mark_result_ok.
  - intros [= <-]. unfold send_announce, create_request, worker_send. cbn [set_tid ds_alive].
    destruct (ds_alive s) eqn:Ea; (apply still_moved; [done|done|by intros k h []|done| |done|done]); cbn; rewrite ?Ea; by split; [|intros []].
  - intros [= <-]. apply quiet_moved; try done. by intros k h _ [].
  - intros [= <-]. apply still_moved; [done|done|by intros k h []|done| |done|done]. by split; [|intros []].
Qed.

Lemma dht_start_hist now id : hist_ok [] (dht_start now id).
Proof.
  split; try done; [split; [by intros _ ?%not_elem_of_nil|done]|]. intros key h (es1 & e & es2 & E & _). by destruct es1.
Qed.

Lemma run_dht_hist now id es : Forall event_ok es -> exists s, run_dht (dht_start now id) es = Done s /\ hist_ok es s.
Proof.
  induction es as [|e es IH] using rev_ind; intros Hok; [eexists; split; [done|apply dht_start_hist]|].
  apply Forall_app in Hok as [Hok He]. destruct (IH Hok) as (s & Hrun & Hh).
  destruct (run_dht_ok now id es Hok) as (s1 & Hrun1 & [Ht [Hf _] _]). assert (s1 = s) as -> by congruence.
  apply Forall_cons in He as [He _].
  destruct (run_dht_ok now id (es ++ [e])) as (s2 & Hrun2 & _); [apply Forall_app; split; [done|by constructor]|].
  exists s2. split; [done|]. rewrite run_dht_snoc, Hrun in Hrun2. cbn [outcome_bind] in Hrun2. apply (moved_hist es e s); [done|].
  by apply step_moved.
Qed.

(** C28: whatever requests are started, answered, timed out or dropped, whatever
    arrives and in whatever order, the node never panics.  The map of requests in
    flight is what the history says: an entry is a request that was started under
    that transaction id and address while the worker ran, and since then neither
    its timeout fired (a future that was dropped has none, so its entry stays), nor
    an answer to it came, nor its packet failed to be sent, nor another request
    took its key; and every such request is in the map, unless the future of an
    earlier one under the same key, 65536 ids before, was polled since.  Both
    routing tables stay well-formed, with addresses of their own family; and the
    peer store stays within its limits. *)
Theorem dht_invariant now id es : Forall event_ok es ->
  exists s, run_dht (dht_start now id) es = Done s /\
    (forall key h, ds_inflight s !! key = Some h -> waits ends es h key) /\
    (forall key h, waits undisturbed es h key -> ds_inflight s !! key = Some h) /\
    flight_ok (ds_inflight s) (ds_requests s) /\
    tables_ok s /\ (length (tokens (ds_store s)) <= 1000)%nat /\ total (peers (ds_store s)) <= 1000.
Proof.
  intros Hok. destruct (run_dht_ok now id es Hok) as (s & Hrun & [Ht [Hf _] [given Hst]]).
  destruct (run_dht_hist now id es Hok) as (s1 & Hrun1 & Hh). assert (s1 = s) as -> by congruence.
  exists s. do 4 (split; [done || apply Hh|]). split; [done|]. split; apply Hst.
Qed.

(** C29: a request only ever returns an answer that came from the address it was
    sent to, carried its transaction id, and arrived while the request was
    waiting: an answer from elsewhere, a late one or a second one reaches
    nobody. *)
Theorem answer_from_asked_node now id es s h o r : Forall event_ok es ->
  run_dht (dht_start now id) es = Done s -> ds_requests s !! h = Some o -> or_future o = Returned (Ok r) ->
  answered_in (dht_start now id) es h (or_key o) r.
Proof.
  intros Hok Hrun Eo Hr. destruct (run_dht_ok now id es Hok) as (s' & Hrun' & [_ [_ Ho] _]).
  assert (s' = s) as -> by congruence. eapply Ho; [done|]. by right.
Qed.

(** ** Queries *)

Abbreviation dht_wf := (dht_ok (fun _ _ _ => True)).

(** One message more was sent: the response [r] to the query [tid] of [addr]. *)
Definition replied (s s' : DhtState) (tid : list Z) (addr : SocketAddr) (r : Response) : Prop :=
  ds_sent s' = ds_sent s ++ [mkSend None (mkMessage (KResponse r) tid None (Some addr)) addr].

(** What a query asks of the tables. *)
Definition asked (k : MessageKind) (addr : SocketAddr) : option (Id * Want) :=
  match k with
  | KGetPeersRequest q => Some (gp_info_hash q, default_want (gp_want q) addr)
  | KFindNodeRequest q => Some (fn_target q, default_want (fn_want q) addr)
  | KBep44GetRequest q => Some (bg_target q, WantBoth)
  | _ => None
  end.

(** What it does to the peer store. *)
Definition store_after (rd : Reads) (k : MessageKind) (addr : SocketAddr) (p : PeerStore) : PeerStore :=
  match k with
  | KAnnouncePeer a => (store_peer (rd_utc rd) a addr p).2
  | KGetPeersRequest q => (gen_token_for (rd_utc rd) (rd_random rd) (gp_id q) addr p).2
  | KBep44GetRequest q => (gen_token_for (rd_utc rd) (rd_random rd) (bg_id q) addr p).2
  | _ => p
  end.

Definition answers (rd : Reads) (k : MessageKind) (addr : SocketAddr) (s : DhtState) (r : Response) : Prop :=
  rs_id r = ds_id s /\
  match asked k addr with
  | Some (target, want) => lists_closest s target want (rd_nodes rd) r
  | None => rs_nodes r = None /\ rs_nodes6 r = None
  end /\
  match k with
  | KGetPeersRequest q =>
      rs_values r = Some (get_for_info_hash (gp_info_hash q) (default_want (gp_want q) addr) (ds_store s)) /\
      rs_token r = Some (rd_random rd)
  | KBep44GetRequest _ => rs_values r = None /\ rs_token r = Some (rd_random rd)
  | _ => rs_values r = None /\ rs_token r = None
  end.

Lemma reply_alive tid addr r s : ds_alive s = true ->
  reply tid addr r s = (Ok tt, set_worker s true (ds_sent s ++ [mkSend None (mkMessage (KResponse r) tid None (Some addr)) addr])).
Proof. intros Ha. unfold reply, worker_send. by rewrite Ha. Qed.

Lemma query_spec rd msg addr s id : tables_ok s -> ds_alive s = true -> requester (m_kind msg) = Some id -> wf_id 20 id ->
  exists s' r, on_received_message rd msg addr s = Done (Ok tt, s') /\
    replied s s' (m_transaction_id msg) addr r /\ answers rd (m_kind msg) addr s r /\
    ds_store s' = store_after rd (m_kind msg) addr (ds_store s) /\ tables_ok s' /\ ds_alive s' = true /\
    ds_id s' = ds_id s /\ ds_requests s' = ds_requests s /\ ds_inflight s' = ds_inflight s.
Proof.
  intros Ht Ha Hk Hid. unfold on_received_message, answers.
  destruct (mark_query_ok id addr (rd_query rd) s Ht Hid) as (s1 & Hm & Ht1 & t4 & t6 & ->).
  destruct (m_kind msg) as [e|q|q|r|q|q|q|q]; cbn [requester asked store_after] in *; simplify_eq.
  all: try (destruct (compact_nodes_both (gp_info_hash q) (default_want (gp_want q) addr) (rd_nodes rd) s Ht) as (n & -> & Hn)).
  all: try (destruct (compact_nodes_both (fn_target q) (default_want (fn_want q) addr) (rd_nodes rd) s Ht) as (n & -> & Hn)).
  all: try (destruct (compact_nodes_both (bg_target q) WantBoth (rd_nodes rd) s Ht) as (n & -> & Hn)).
  all: rsimpl; rewrite Hm; rsimpl; unfold gen_token_for; cbn zeta; rewrite reply_alive by done.
  all: eexists _, _; split; [done|]; split_and!; try done; by apply Hn.
Qed.

(** While the worker runs, every query is answered with exactly one message:
    to the sender, under the query's transaction id, with our id; the answer to
    [find_node], [get_peers] and [get] lists the eight best nodes of each
    routing table asked for (all, when there are fewer), in the compact form
    that reads back as those nodes, and the one to [get_peers] also the peers
    stored for the hash and a fresh token.  No request of ours is touched. *)
Theorem query_answered rd msg addr s id : tables_ok s -> ds_alive s = true ->
  requester (m_kind msg) = Some id -> wf_id 20 id ->
  exists s' r, on_received_message rd msg addr s = Done (Ok tt, s') /\
    replied s s' (m_transaction_id msg) addr r /\ answers rd (m_kind msg) addr s r /\
    ds_store s' = store_after rd (m_kind msg) addr (ds_store s) /\ tables_ok s' /\ ds_alive s' = true /\
    ds_id s' = ds_id s /\ ds_requests s' = ds_requests s /\ ds_inflight s' = ds_inflight s.
Proof. apply query_spec. Qed.

(** A token just given is found, whatever had to be forgotten. *)
Lemma gen_token_found now random nid implied hash port addr s : 0 < max_remembered_tokens s ->
  existsb (token_matches (mkAnnouncePeer nid implied hash port random) addr)
    (tokens (gen_token_for now random nid addr s).2) = true.
Proof.
  intros Hm. apply existsb_exists. exists (mkStoredToken random nid addr now). split.
  - apply list_elem_of_In. unfold gen_token_for. cbn [snd with_tokens tokens].
    destruct (Z.ltb_spec (max_remembered_tokens s)
      (Z.of_nat (length (tokens s ++ [mkStoredToken random nid addr now])))) as [Hl|_]; [|set_solver].
    rewrite length_app in Hl. destruct (tokens s) as [|t ts]; [simpl in Hl; lia|].
    cbn [app drop]. rewrite ?drop_0. apply elem_of_app. right. by apply list_elem_of_singleton.
  - unfold token_matches. cbn. by rewrite !bool_decide_eq_true_2.
Qed.

(** A peer that is accepted is listed for its hash. *)
Lemma stored_is_returned now a addr want p : id_ltb (max_distance p) (distance (an_info_hash a) (self_id p)) = false ->
  existsb (token_matches a addr) (tokens p) = true -> peers_len p < max_remembered_peers p ->
  wanted want (announced_addr a addr) = true ->
  announced_addr a addr ∈ get_for_info_hash (an_info_hash a) want (store_peer now a addr p).2.
Proof.
  intros Hd Ht Hroom Hw.
  assert (Hin : forall l n, mkStoredPeer (announced_addr a addr) now ∈ l ->
    announced_addr a addr ∈ get_for_info_hash (an_info_hash a) want (with_peers p (<[an_info_hash a := l]> (peers p)) n)).
  { intros l n Hl. unfold get_for_info_hash. cbn [with_peers peers]. rewrite lookup_insert_eq.
    apply list_elem_of_In, filter_In. split; [|done]. apply list_elem_of_In, list_elem_of_fmap.
    by exists (mkStoredPeer (announced_addr a addr) now). }
  destruct (store_peer_cases now a addr p) as [(_ & Hno)|[(l' & Hr & _ & _ & _ & ->)|(_ & _ & _ & ->)]]; cbn [snd].
  - exfalso. destruct Hno as [Hno|[_ Hno]]; [by apply Hno|lia].
  - apply Hin. pose proof (refresh_spec now (announced_addr a addr) (entry p (an_info_hash a))) as Hs.
    cbn [sp_addr] in Hr. rewrite Hr in Hs. exact (proj1 (proj2 Hs)).
  - apply Hin. set_solver.
Qed.

(** Announcing works end to end: a node that asks for the peers of a hash
    close to us gets a token; when it announces itself with that token from the
    same address, and there is room, it is among the peers that the next node
    asking for the hash is told. *)
Theorem announced_peer_is_returned rd1 rd2 rd3 m1 m2 m3 nid w implied port addr q addr3 s :
  tables_ok s -> (exists given, store_inv given (ds_store s)) -> ds_alive s = true ->
  let hash := gp_info_hash q in
  m_kind m1 = KGetPeersRequest (mkGetPeers nid hash w) -> wf_id 20 nid ->
  id_ltb (max_distance (ds_store s)) (distance hash (self_id (ds_store s))) = false ->
  peers_len (ds_store s) < 1000 ->
  exists s1 r1 token, on_received_message rd1 m1 addr s = Done (Ok tt, s1) /\
    replied s s1 (m_transaction_id m1) addr r1 /\ rs_token r1 = Some token /\
    let a := mkAnnouncePeer nid implied hash port token in
    (m_kind m2 = KAnnouncePeer a -> m_kind m3 = KGetPeersRequest q -> wf_id 20 (gp_id q) ->
     wanted (default_want (gp_want q) addr3) (announced_addr a addr) = true ->
     exists s2 s3 r3 l, on_received_message rd2 m2 addr s1 = Done (Ok tt, s2) /\
       on_received_message rd3 m3 addr3 s2 = Done (Ok tt, s3) /\
       replied s2 s3 (m_transaction_id m3) addr3 r3 /\ rs_values r3 = Some l /\ announced_addr a addr ∈ l).
Proof.
  intros Ht [given Hst] Ha hash E1 Hnid Hclose Hroom. destruct (si_limits _ _ Hst) as [Hmt Hmp].
  destruct (query_spec rd1 m1 addr s nid Ht Ha) as (s1 & r1 & Hrun1 & Hrep1 & Hans1 & Hst1 & Ht1 & Ha1 & _);
    [by rewrite E1|done|].
  exists s1, r1, (rd_random rd1). split; [done|]. split; [done|]. unfold answers in Hans1. rewrite E1 in Hans1, Hst1.
  split; [apply Hans1|]. intros a E2 E3 Hq Hw. cbn [store_after gp_id] in Hst1.
  destruct (query_spec rd2 m2 addr s1 nid Ht1 Ha1) as (s2 & r2 & Hrun2 & _ & _ & Hst2 & Ht2 & Ha2 & _);
    [by rewrite E2|done|].
  destruct (query_spec rd3 m3 addr3 s2 (gp_id q) Ht2 Ha2) as (s3 & r3 & Hrun3 & Hrep3 & Hans3 & _);
    [by rewrite E3|done|].
  exists s2, s3, r3. unfold answers in Hans3. rewrite E3 in Hans3. destruct Hans3 as (_ & _ & Hv & _).
  eexists. split_and!; [done|done|done|exact Hv|]. rewrite Hst2, E2. cbn [store_after].
  apply (stored_is_returned _ a); [by rewrite Hst1| |by rewrite Hst1; cbn; rewrite Hmp|done].
  rewrite Hst1. apply gen_token_found. lia.
Qed.

(** ** Requests that nobody waits for *)

(** A lookup that is dropped while it waits leaves its request in the map: no
    timeout removes it any more, so it counts as outstanding until the node
    answers or the transaction id comes round again. *)
Lemma cancelled_request_stays now id addr h :
  let s1 := (request_start RPing addr (dht_start now id)).2 in
  let s2 := request_cancel 0 s1 in
  outstanding_requests (get_stats s1) = 1 /\ request_timeout h s2 = s2 /\ request_poll h s2 = s2 /\
  outstanding_requests (get_stats s2) = 1.
Proof.
  intros s1 s2. assert (E : ds_inflight s2 = {[(0, addr) := 0%nat]}) by reflexivity.
  assert (Es : ds_inflight s1 = ds_inflight s2) by reflexivity.
  unfold get_stats. cbn [outstanding_requests]. rewrite Es, E, map_size_singleton.
  split_and!; [done|by destruct h|by destruct h|done].
Qed.

(** The announcement carries a transaction id that is not entered in the map:
    its answer is reported as not requested. *)
Lemma announce_answer_not_found now id hash token port addr rd r version ip :
  let s := send_announce hash token port addr (dht_start now id) in
  exists w tid, ds_sent s = [w] /\ ws_our_tid w = Some tid /\
    exists s', on_received_message rd (mkMessage (KResponse r) (m_transaction_id (ws_message w)) version ip) addr s =
      Done (Err RequestNotFound, s').
Proof. eexists _, _. split_and!; [reflexivity..|]. eexists. reflexivity. Qed.

(** ** Witnesses *)

Definition ex_node (b : Z) : Id := replicate 19 0 ++ [b].
Definition ex_peer : SocketAddr := mkSocketAddr false 167772161 6881.
Definition ex_reads : Reads := mkReads 5 6 7 [1; 2; 3; 4].
Definition ex_pong : Message := mkMessage (KResponse (response_of (ex_node 9))) [0; 0] None None.
Definition ex_pong1 : Message := mkMessage (KResponse (response_of (ex_node 9))) [0; 1] None None.
Definition ex_history : list DhtEvent :=
  [EFindStart 1 1 (ex_node 9) ex_peer; EStart RPing ex_peer; EReceived ex_reads ex_pong ex_peer; EPoll 0].
Definition ex_dht : DhtState := dht_start 0 (ex_node 1).

Lemma ex_node_wf b : is_u8 b -> wf_id 20 (ex_node b).
Proof.
  intros Hb. split; [done|]. unfold ex_node. apply Forall_app. split; [|by constructor].
  apply Forall_replicate. unfold is_u8. lia.
Qed.

Lemma ex_history_ok : Forall event_ok ex_history.
Proof.
  unfold ex_history. constructor.
  { split; [apply ex_node_wf; unfold is_u8; lia|]. split; vm_compute; split; congruence. }
  constructor; [exact I|]. constructor; [by intros ? [=]|]. constructor; [exact I|constructor].
Qed.

(** A request that is dropped, one that is answered and one that times out. *)
Definition ex_waiting : list DhtEvent :=
  [EStart RPing ex_peer; ECancel 0; EStart RPing ex_peer; EReceived ex_reads ex_pong1 ex_peer; EStart RPing ex_peer; ETimeout 2; ETimeout 0].

Lemma dht_invariant_witness : exists s, run_dht (dht_start 0 (ex_node 1)) ex_waiting = Done s /\
  ds_inflight s = {[(0, ex_peer) := 0%nat]} /\ waits ends ex_waiting 0 (0, ex_peer).
Proof.
  destruct (dht_invariant 0 (ex_node 1) ex_waiting) as (s & Hrun & Hin & _).
  - repeat (apply Forall_cons; split; [done|]). by apply Forall_nil.
  - assert (E : ds_inflight s = {[(0, ex_peer) := 0%nat]}) by (vm_compute in Hrun; injection Hrun as <-; vm_compute; reflexivity).
    exists s. split; [exact Hrun|]. split; [exact E|]. apply Hin. by rewrite E.
Defined.

Lemma answer_from_asked_node_witness : exists s o, run_dht ex_dht ex_history = Done s /\
  ds_requests s !! 0%nat = Some o /\ answered_in ex_dht ex_history 0 (or_key o) (RResponse (response_of (ex_node 9))).
Proof.
  eexists _, _. split; [vm_compute; reflexivity|]. split; [reflexivity|].
  eapply (answer_from_asked_node 0 (ex_node 1) ex_history _ 0); [exact ex_history_ok|vm_compute; reflexivity|reflexivity..].
Defined.

Definition ex_query : Message := mkMessage (KFindNodeRequest (mkFindNode (ex_node 9) (ex_node 8) None)) [7; 7; 7] None None.

Lemma ex_tables : tables_ok ex_dht.
Proof. split; apply table_ok_new. Qed.

Lemma ex_store : exists given, store_inv given (ds_store ex_dht).
Proof. exists []. apply (run_inv (ex_node 1) []). constructor. Qed.

Lemma query_answered_witness : exists s' r, on_received_message ex_reads ex_query ex_peer ex_dht = Done (Ok tt, s') /\
  replied ex_dht s' [7; 7; 7] ex_peer r.
Proof.
  destruct (query_answered ex_reads ex_query ex_peer ex_dht (ex_node 9) ex_tables eq_refl eq_refl)
    as (s' & r & Hrun & Hrep & _); [apply ex_node_wf; unfold is_u8; lia|]. by exists s', r.
Defined.

Definition ex_get (b : Z) : Message := mkMessage (KGetPeersRequest (mkGetPeers (ex_node b) (ex_node 3) None)) [b] None None.
Definition ex_announce : Message :=
  mkMessage (KAnnouncePeer (mkAnnouncePeer (ex_node 9) 0 (ex_node 3) 6882 [1; 2; 3; 4])) [5] None None.

Lemma announced_peer_is_returned_witness : exists s1 s2 s3 r3 l,
  on_received_message ex_reads (ex_get 9) ex_peer ex_dht = Done (Ok tt, s1) /\
  on_received_message ex_reads ex_announce ex_peer s1 = Done (Ok tt, s2) /\
  on_received_message ex_reads (ex_get 8) (mkSocketAddr false 1 1) s2 = Done (Ok tt, s3) /\
  rs_values r3 = Some l /\ mkSocketAddr false 167772161 6882 ∈ l.
Proof.
  destruct (announced_peer_is_returned ex_reads ex_reads ex_reads (ex_get 9) ex_announce (ex_get 8) (ex_node 9) None 0 6882
    ex_peer (mkGetPeers (ex_node 8) (ex_node 3) None) (mkSocketAddr false 1 1) ex_dht ex_tables ex_store eq_refl eq_refl)
    as (s1 & r1 & token & Hrun & Hrep & Htok & Hnext); [apply ex_node_wf; unfold is_u8; lia|reflexivity|reflexivity|].
  assert (token = [1; 2; 3; 4]) as ->.
  { vm_compute in Hrun. injection Hrun as <-. unfold replied in Hrep. vm_compute in Hrep.
    injection Hrep as <-. cbn in Htok. by injection Htok as <-. }
  destruct Hnext as (s2 & s3 & r3 & l & H2 & H3 & _ & Hv & Hin); [reflexivity|reflexivity|apply ex_node_wf; unfold is_u8; lia|reflexivity|].
  by exists s1, s2, s3, r3, l.
Defined.
