(* ===== verification/DhtLookup.v ===== *)
(** * DhtLookup: recursive lookups of nodes and peers

    Models [RecursiveRequest] of [crates/librtbit-dht/src/dht.rs] and its two
    sets of callbacks: which nodes a lookup asks, what it does with their
    answers, and the loop of [find_node_for_routing_table].

    A call of [request_one] is cut at its two awaits; a lookup has a queue (the
    channel of nodes to ask, which the lookup itself reads, so that it never
    closes while a request runs) and the requests that run.  The steps of a
    lookup interleave with any events of the node. *)

From S2P Require Import Prelude HashId RoutingTable Compact PeerStore Krpc Dht.

(** ** Useful nodes *)

Record MaybeUsefulNode := mkUseful {
  mu_id : Id;
  mu_addr : SocketAddr;
  mu_last_request : Z;
  mu_last_response : option Z;
  mu_errors_in_a_row : Z;
  mu_returned_peers : bool;
}.

(** [Duration::MAX] in nanoseconds. *)
Definition DURATION_MAX : Z := U64 * 1000000000 - 1.

Definition useful_key (info_hash : Id) (now : Z) (n : MaybeUsefulNode) : Z * Z * Id * Z :=
  (if mu_returned_peers n then 0 else 1, match mu_last_response n with Some _ => 0 | None => 1 end,
   distance (mu_id n) info_hash,
   match mu_last_response n with Some r => since now r | None => DURATION_MAX end).

(** [Ord] of a pair: the first fields, then the rest. *)
Definition lex (lt gt rest : bool) : bool := lt || negb gt && rest.

(** The order of the keys, by their fields from the first. *)
Definition useful_leb (info_hash : Id) (now : Z) (a b : MaybeUsefulNode) : bool :=
  let '(p1, r1, d1, t1) := useful_key info_hash now a in
  let '(p2, r2, d2, t2) := useful_key info_hash now b in
  lex (p1 <? p2) (p2 <? p1) (lex (r1 <? r2) (r2 <? r1) (lex (id_ltb d1 d2) (id_ltb d2 d1) (t1 <=? t2))).

(** [iter_mut().find(..)] with an update of what it finds. *)
Fixpoint update_found {A} (p : A -> bool) (f : A -> A) (l : list A) : option (list A) :=
  match l with
  | [] => None
  | x :: l => if p x then Some (f x :: l) else cons x <$> update_found p f l
  end.

Definition has_addr (addr : SocketAddr) (n : MaybeUsefulNode) : bool := bool_decide (mu_addr n = addr).

Definition mark_node_error (addr : SocketAddr) (l : list MaybeUsefulNode) : bool * list MaybeUsefulNode :=
  let f n := mkUseful (mu_id n) (mu_addr n) (mu_last_request n) (mu_last_response n) (mu_errors_in_a_row n + 1)
               (mu_returned_peers n) in
  match update_found (has_addr addr) f l with Some l => (true, l) | None => (false, l) end.

Definition mark_node_responded (now : Z) (addr : SocketAddr) (response : ResponseOrError)
    (l : list MaybeUsefulNode) : bool * list MaybeUsefulNode :=
  let returned :=
    match response with
    | RResponse r => match rs_values r with Some c => negb (length c =? 0)%nat | None => false end
    | RError _ => false
    end in
  let f n := mkUseful (mu_id n) (mu_addr n) (mu_last_request n) (Some now) 0 returned in
  match update_found (has_addr addr) f l with Some l => (true, l) | None => (false, l) end.

Definition REQUEST_AGAIN : Z := 60 * 1000000000.

Definition should_request_node (max_depth limit : nat) (info_hash node_id : Id) (addr : SocketAddr) (depth : nat)
    (now : Z) (l : list MaybeUsefulNode) : bool * list MaybeUsefulNode :=
  if (max_depth <=? depth)%nat then (false, l)
  else
    match List.find (fun n => id_eqb (mu_id n) node_id) l with
    | Some existing =>
        if REQUEST_AGAIN <? since now (mu_last_request existing)
        then (true, default l (update_found (fun n => id_eqb (mu_id n) node_id)
               (fun n => mkUseful (mu_id n) (mu_addr n) now (mu_last_response n) (mu_errors_in_a_row n) (mu_returned_peers n)) l))
        else (false, l)
    | None =>
        let l := sort_by (useful_leb info_hash now) (l ++ [mkUseful node_id addr now None 0 false]) in
        if (limit <? length l)%nat then
          match last l with
          | Some popped => (negb (id_eqb (mu_id popped) node_id), removelast l)
          | None => (true, l)
          end
        else (true, l)
    end.

(** ** Callbacks *)

(** [RecursiveRequestCallbacks]: what happens around the first request to a
    node with a known id. *)
Class RecursiveRequestCallbacks (C : Type) := {
  on_request_start : C -> Z -> Z -> Id -> SocketAddr -> DhtState -> outcome DhtState;
  on_request_end : C -> Z -> Id -> Id -> SocketAddr -> result DhtError ResponseOrError -> DhtState -> outcome DhtState;
}.

(** [announce_port] is what the shared port holds at the moment. *)
Record CallbacksGetPeers := mkGetPeersCallbacks {
  min_distance_to_announce : Id;
  announce_port : option Z;
}.

Definition get_peers_on_request_end (c : CallbacksGetPeers) (info_hash target_node : Id) (addr : SocketAddr)
    (resp : result DhtError ResponseOrError) (s : DhtState) : DhtState :=
  match announce_port c with
  | None => s
  | Some port =>
      match resp with
      | Ok (RResponse r) =>
          match rs_token r with
          | Some token =>
              if id_ltb (min_distance_to_announce c) (distance info_hash target_node) then s
              else send_announce info_hash token port addr s
          | None => s
          end
      | _ => s
      end
  end.

#[export] Instance callbacks_get_peers : RecursiveRequestCallbacks CallbacksGetPeers := {
  on_request_start _ _ _ _ _ s := Done s;
  on_request_end c _ info_hash target_node addr resp s := Done (get_peers_on_request_end c info_hash target_node addr resp s);
}.

Record CallbacksFindNodes := mkFindNodesCallbacks {}.

Definition is_ok {E A} (r : result E A) : bool := match r with Ok _ => true | Err _ => false end.

#[export] Instance callbacks_find_nodes : RecursiveRequestCallbacks CallbacksFindNodes := {
  on_request_start _ now created target_node addr s := find_nodes_start now created target_node addr s;
  on_request_end _ now _ target_node addr resp s := find_nodes_end now target_node addr (is_ok resp) s;
}.

(** ** A lookup *)

(** Where a call of [request_one] waits: the handle of its first or of its
    second request. *)
Inductive Phase :=
| First (h : nat)
| Second (h : nat).

Record Running := mkRunning {
  ru_id : option Id;
  ru_addr : SocketAddr;
  ru_depth : nat;
  ru_phase : Phase;
}.

Record Lookup (C : Type) := mkLookup {
  lk_max_depth : nat;
  lk_limit : nat;
  lk_info_hash : Id;
  lk_request : Request;
  lk_callbacks : C;
  lk_peer_rx : bool;
  lk_useful : list MaybeUsefulNode;
  lk_peers : list SocketAddr;
  lk_queue : list (option Id * SocketAddr * nat);
  lk_running : list Running;
  lk_successes : Z;
  lk_errors : Z;
}.
Arguments mkLookup {C}.
Arguments lk_max_depth {C}.
Arguments lk_limit {C}.
Arguments lk_info_hash {C}.
Arguments lk_request {C}.
Arguments lk_callbacks {C}.
Arguments lk_peer_rx {C}.
Arguments lk_useful {C}.
Arguments lk_peers {C}.
Arguments lk_queue {C}.
Arguments lk_running {C}.
Arguments lk_successes {C}.
Arguments lk_errors {C}.

(** The nodes of a response, IPv4 first. *)
Definition response_nodes (r : Response) : list (Node SocketAddr) := nodes_v4 (rs_nodes r) ++ nodes_v6 (rs_nodes6 r).

Section lookup.
Context {C : Type} `{RecursiveRequestCallbacks C}.

Definition set_useful (k : Lookup C) (u : list MaybeUsefulNode) : Lookup C :=
  mkLookup (lk_max_depth k) (lk_limit k) (lk_info_hash k) (lk_request k) (lk_callbacks k) (lk_peer_rx k) u
    (lk_peers k) (lk_queue k) (lk_running k) (lk_successes k) (lk_errors k).
Definition set_peers (k : Lookup C) (p : list SocketAddr) : Lookup C :=
  mkLookup (lk_max_depth k) (lk_limit k) (lk_info_hash k) (lk_request k) (lk_callbacks k) (lk_peer_rx k) (lk_useful k)
    p (lk_queue k) (lk_running k) (lk_successes k) (lk_errors k).
Definition set_queue (k : Lookup C) (q : list (option Id * SocketAddr * nat)) : Lookup C :=
  mkLookup (lk_max_depth k) (lk_limit k) (lk_info_hash k) (lk_request k) (lk_callbacks k) (lk_peer_rx k) (lk_useful k)
    (lk_peers k) q (lk_running k) (lk_successes k) (lk_errors k).
Definition set_running (k : Lookup C) (r : list Running) : Lookup C :=
  mkLookup (lk_max_depth k) (lk_limit k) (lk_info_hash k) (lk_request k) (lk_callbacks k) (lk_peer_rx k) (lk_useful k)
    (lk_peers k) (lk_queue k) r (lk_successes k) (lk_errors k).
Definition count_end (k : Lookup C) (ok : bool) : Lookup C :=
  mkLookup (lk_max_depth k) (lk_limit k) (lk_info_hash k) (lk_request k) (lk_callbacks k) (lk_peer_rx k) (lk_useful k)
    (lk_peers k) (lk_queue k) (lk_running k) (lk_successes k + if ok then 1 else 0) (lk_errors k + if ok then 0 else 1).

(** [peer_tx.send] for each peer; with the receiver gone the first one fails. *)
Definition send_peers (l : list SocketAddr) (k : Lookup C) : bool * Lookup C :=
  match l with
  | [] => (true, k)
  | _ => if lk_peer_rx k then (true, set_peers k (lk_peers k ++ l)) else (false, k)
  end.

(** One node of an answer. *)
Definition offer_node (depth : nat) (now : Z) (k : Lookup C) (n : Node SocketAddr) : Lookup C :=
  let '(should_request, u) :=
    should_request_node (lk_max_depth k) (lk_limit k) (lk_info_hash k) (nd_id n) (nd_addr n) depth now (lk_useful k) in
  let k := set_useful k u in
  if should_request then set_queue k (lk_queue k ++ [(Some (nd_id n), nd_addr n, S depth)]) else k.

(** [request_one] up to its first await. *)
Definition request_one_start (now created : Z) (id : option Id) (addr : SocketAddr) (k : Lookup C) (s : DhtState) :
    outcome (nat * DhtState) :=
  s ←! match id with
       | Some id => on_request_start (lk_callbacks k) now created id addr s
       | None => Done s
       end;
  Done (request_start (lk_request k) addr s).

(** Between the two awaits. *)
Definition request_one_first (now : Z) (id : option Id) (addr : SocketAddr) (response : result DhtError ResponseOrError)
    (k : Lookup C) (s : DhtState) : outcome (Lookup C * (nat * DhtState)) :=
  let k := match response with
           | Ok r => set_useful k (mark_node_responded now addr r (lk_useful k)).2
           | Err _ => k
           end in
  s ←! match id with
       | Some id => on_request_end (lk_callbacks k) now (lk_info_hash k) id addr response s
       | None => Done s
       end;
  Done (k, request_start (lk_request k) addr s).

(** After the second await. *)
Definition request_one_second (now : Z) (addr : SocketAddr) (depth : nat) (response : result DhtError ResponseOrError)
    (k : Lookup C) : result DhtError unit * Lookup C :=
  match response with
  | Ok (RError _) => (Err ErrorResponse, k)
  | Err e => (Err e, set_useful k (mark_node_error addr (lk_useful k)).2)
  | Ok (RResponse r) =>
      match send_peers (default [] (rs_values r)) k with
      | (false, k) => (Err ReceiverDead, k)
      | (true, k) =>
          let node_it := List.filter (fun n => Bool.eqb (sa_ipv6 addr) (sa_ipv6 (nd_addr n))) (response_nodes r) in
          (Ok tt, foldl (offer_node depth now) k node_it)
      end
  end.

(** [get_peers_root]: the eight best nodes of the table are queued. *)
Definition get_peers_root (v6 : bool) (now : Z) (k : Lookup C) (s : DhtState) : outcome (nat * Lookup C) :=
  l ←! sorted_by_distance_from (table_for v6 s) (lk_info_hash k) now;
  let roots := take 8 ((fun n => (Some (rn_id n), rn_addr n, 0%nat)) <$> l) in
  Done (length roots, set_queue k (lk_queue k ++ roots)).

(** ** The loop *)

Inductive LookupEvent :=
| LDht (e : DhtEvent)
| LTake (now created : Z)
| LFirst (i : nat) (now : Z)
| LSecond (i : nat) (now : Z).

(** What request [h] returned. *)
Definition returned (h : nat) (s : DhtState) : option (result DhtError ResponseOrError) :=
  match ds_requests s !! h with
  | Some (mkOutstanding _ _ (Returned r)) => Some r
  | _ => None
  end.

(** Nobody but the lookup drops the requests it waits for. *)
Definition drops_ours (e : DhtEvent) (k : Lookup C) : bool :=
  match e with
  | ECancel h => existsb (fun u => match ru_phase u with First h' | Second h' => (h' =? h)%nat end) (lk_running k)
  | _ => false
  end.

(** One step; [None] when the event cannot happen. *)
Definition lookup_step (w : Lookup C * DhtState) (ev : LookupEvent) : outcome (option (Lookup C * DhtState)) :=
  let '(k, s) := w in
  match ev with
  | LDht e => if drops_ours e k then Done None else s ←! dht_step s e; Done (Some (k, s))
  | LTake now created =>
      match lk_queue k with
      | [] => Done None
      | (id, addr, depth) :: q =>
          r ←! request_one_start now created id addr k s;
          Done (Some (set_running (set_queue k q) (lk_running k ++ [mkRunning id addr depth (First r.1)]), r.2))
      end
  | LFirst i now =>
      match lk_running k !! i with
      | Some (mkRunning id addr depth (First h)) =>
          match returned h s with
          | None => Done None
          | Some response =>
              r ←! request_one_first now id addr response k s;
              Done (Some (set_running r.1 (<[i := mkRunning id addr depth (Second r.2.1)]> (lk_running r.1)), r.2.2))
          end
      | _ => Done None
      end
  | LSecond i now =>
      match lk_running k !! i with
      | Some (mkRunning id addr depth (Second h)) =>
          match returned h s with
          | None => Done None
          | Some response =>
              let '(res, k) := request_one_second now addr depth response k in
              let k := count_end k (is_ok res) in
              Done (Some (set_running k (delete i (lk_running k)), s))
          end
      | _ => Done None
      end
  end.

Fixpoint run_lookup (w : Lookup C * DhtState) (evs : list LookupEvent) : outcome (option (Lookup C * DhtState)) :=
  match evs with
  | [] => Done (Some w)
  | ev :: evs =>
      r ←! lookup_step w ev;
      match r with Some w => run_lookup w evs | None => Done None end
  end.

(** The loop ends when nothing is queued and nothing runs. *)
Definition lookup_over (k : Lookup C) : bool := (length (lk_queue k) =? 0)%nat && (length (lk_running k) =? 0)%nat.

(** The result of [find_node_for_routing_table] when its loop ends. *)
Definition lookup_result (k : Lookup C) : result DhtError unit :=
  if lk_successes k =? 0 then Err (NoSuccessfulLookups (lk_errors k)) else Ok tt.
End lookup.
Arguments lookup_step {C H}.
Arguments run_lookup {C H}.

(** [find_node_for_routing_table]: the receiver of the peers is dropped at
    once, and every address is asked, with no id known. *)
Definition find_node_for_routing_table (target : Id) (addrs : list SocketAddr) : Lookup CallbacksFindNodes :=
  mkLookup 4 32 target (RFindNode target) (mkFindNodesCallbacks) false [] []
    ((fun a => (None, a, 0%nat)) <$> addrs) [] 0 0.

(** [0000ffff...]: 16 bits of zeros. *)
Definition default_min_distance : Id := [0; 0] ++ replicate 18 255.

(** A lookup of [RequestPeersStream::new], for one family. *)
Definition get_peers_lookup (info_hash : Id) (announce_port : option Z) : Lookup CallbacksGetPeers :=
  mkLookup 4 256 info_hash (RGetPeers info_hash) (mkGetPeersCallbacks default_min_distance announce_port) true [] [] [] [] 0 0.

(** ** The maintenance of the tables *)

Definition REQUERY_INTERVAL : Z := 60 * 1000000000.

(** How long the looper of [request_peers_forever] sleeps after a round that
    found [n] nodes. *)
Definition requery_sleep (n : Z) : Z :=
  if n =? 0 then 1000000000 else if n <? 8 then REQUERY_INTERVAL / 8 * n else REQUERY_INTERVAL.

(** A round of [bucket_refresher]: the buckets not refreshed for fifteen
    minutes, as their start and size, for which a random id is looked up. *)
Definition refresh_round (v6 : bool) (now : Z) (s : DhtState) : outcome (list (Id * Z)) :=
  l ←! iter_leaves (rt_buckets (table_for v6 s));
  Done ((fun b => (bn_start b.1, bn_bits b.1)) <$>
    List.filter (fun b => negb (since now (lb_last_refreshed b.2) <? INACTIVITY_TIMEOUT)) l).

(** The addresses asked for one of them. *)
Definition refresh_addrs (v6 : bool) (now : Z) (random_id : Id) (s : DhtState) : outcome (list SocketAddr) :=
  l ←! sorted_by_distance_from (table_for v6 s) random_id now;
  Done (take 8 (rn_addr <$> l)).

(** ** Requests are not forgotten *)

(** A request that is there and not dropped. *)
Definition held (h : nat) (s : DhtState) : Prop :=
  exists o, ds_requests s !! h = Some o /\ or_future o <> Cancelled.

Definition holds_on (s s' : DhtState) : Prop := forall h, held h s -> held h s'.

Lemma alter_held f i h s s' : held h s -> ds_requests s' = alter f i (ds_requests s) ->
  (forall o, i = h -> or_future o <> Cancelled -> or_future (f o) <> Cancelled) -> held h s'.
Proof.
  intros (o & Eo & Ho) E Hf. unfold held. rewrite E, lookup_alter_case, Eo. case_decide; [|by exists o].
  exists (f o). split; [done|]. by apply Hf.
Qed.

Lemma same_held s s' : ds_requests s' = ds_requests s -> holds_on s s'.
Proof. intros E h Hh. unfold held. by rewrite E. Qed.

Lemma drop_held key s : holds_on s (drop_inflight key s).
Proof.
  intros h Hh. unfold drop_inflight, remove_inflight. destruct (_ !! key); [|done].
  by eapply alter_held; [exact Hh|reflexivity|].
Qed.

Lemma future_held h0 f s : f <> Cancelled ->
  holds_on s (set_flight s (ds_inflight s) (set_future h0 f (ds_requests s))).
Proof. intros Hf h Hh. by eapply alter_held; [exact Hh|reflexivity|]. Qed.

Lemma insert_held key s : holds_on s (insert_inflight key s).2 /\ held (insert_inflight key s).1 (insert_inflight key s).2.
Proof.
  unfold insert_inflight. cbn [fst snd]. split.
  - intros h Hh. destruct (drop_held key s h Hh) as (o & Eo & Ho). exists o. split; [|done].
    cbn. by apply lookup_app_l_Some.
  - exists (mkOutstanding key Pending Awaiting). split; [|done]. cbn.
    by rewrite lookup_app_r, Nat.sub_diag by done.
Qed.

Lemma request_start_held request addr s :
  holds_on s (request_start request addr s).2 /\ held (request_start request addr s).1 (request_start request addr s).2.
Proof.
  unfold request_start, create_request. cbn zeta. set (s1 := set_tid s _). set (key := (ds_next_tid s, addr)).
  match goal with |- context [mkSend ?a ?b ?c] => generalize (mkSend a b c) end. intros w.
  destruct (insert_held key s1) as [H1 H2]. destruct (insert_inflight key s1) as [h s2] eqn:E. cbn [fst snd] in *.
  unfold worker_send. destruct (ds_alive s2); cbn [fst snd]; [by split|].
  assert (Hall : holds_on s2 (set_flight (drop_inflight key s2) (ds_inflight (drop_inflight key s2))
    (set_future h (Returned (Err DhtDead)) (ds_requests (drop_inflight key s2))))).
  { intros h' Hh. apply future_held; [done|]. by apply drop_held. }
  split; [|by apply Hall]. intros h' Hh. apply Hall. by apply H1.
Qed.

Lemma mark_query_requests id addr now s s' : mark_query id addr now s = Done s' -> ds_requests s' = ds_requests s.
Proof. unfold mark_query. destruct (table_mark_last_query _ _ _) as [[b t]|]; [|done]. by intros [= <-]. Qed.

Lemma reply_requests tid addr r s : ds_requests (reply tid addr r s).2 = ds_requests s.
Proof. unfold reply, worker_send. by destruct (ds_alive s). Qed.

Lemma on_response_held msg addr r s : holds_on s (on_response msg addr r s).2.
Proof.
  intros h Hh. unfold on_response, remove_inflight. destruct (get_our_transaction_id msg); [|done].
  destruct (_ !! _); [|done]. by eapply alter_held; [exact Hh|reflexivity|].
Qed.

Lemma received_held rd msg addr s res s' : on_received_message rd msg addr s = Done (res, s') -> holds_on s s'.
Proof.
  unfold on_received_message.
  assert (Hq : forall s1 r s2, ds_requests s1 = ds_requests s -> ds_requests s2 = ds_requests s1 ->
    Done (reply (m_transaction_id msg) addr r s2) = Done (res, s') -> holds_on s s').
  { intros s1 r s2 E1 E2 Hr. assert (Hr' : reply (m_transaction_id msg) addr r s2 = (res, s')) by congruence.
    apply same_held. rewrite <- E1, <- E2. by rewrite <- (reply_requests (m_transaction_id msg) addr r s2), Hr'. }
  destruct (m_kind msg) as [e|q|q|r|q|q|q|q].
  1, 4: match goal with |- Done (on_response _ _ ?r _) = _ -> _ => pose proof (on_response_held msg addr r s) as Hh end;
    intros [= Hrun]; by rewrite Hrun in Hh.
  all: try (destruct (generate_compact_nodes_both _ _ _ s) as [n|]; [|done]; cbn [outcome_bind]).
  all: destruct (mark_query _ _ _ s) as [s1|] eqn:Hm; [|done]; cbn [outcome_bind]; apply mark_query_requests in Hm.
  all: try (destruct (gen_token_for _ _ _ _ _) as [token store]).
  all: match goal with |- Done (reply _ _ ?r ?s2) = _ -> _ => exact (Hq s1 r s2 Hm eq_refl) end.
Qed.

Lemma table_step_held s m f s' h : held h s -> (forall x, ds_requests (f x) = ds_requests s) ->
  outcome_bind m (fun x : bool * RoutingTable SocketAddr => Done (f x)) = Done s' -> held h s'.
Proof. intros Hh Hf. destruct m as [x|]; [|done]. cbn [outcome_bind]. intros [= <-]. by apply (same_held s). Qed.

Lemma find_start_held now created id addr s s' h : held h s -> find_nodes_start now created id addr s = Done s' -> held h s'.
Proof.
  intros Hh. unfold find_nodes_start. destruct (table_add_node _ _ _ _ _) as [[r t]|]; [|done]. cbn [outcome_bind fst snd].
  destruct r; try (by apply (table_step_held s)). intros [= <-]. by apply (same_held s).
Qed.

Lemma ping_start_held v6 now id addr s h r : held h s -> ping_start v6 now id addr s = Done r -> held h r.2.
Proof.
  intros Hh. unfold ping_start. destruct (table_mark_outgoing_request _ _ _) as [x|]; [|done]. cbn [outcome_bind].
  intros [= <-]. by apply request_start_held.
Qed.

Lemma dht_step_held e s s' h : e <> ECancel h -> held h s -> dht_step s e = Done s' -> held h s'.
Proof.
  intros He Hh.
  destruct e as [request addr|h0|h0|h0|tid addr|rd msg addr|now created id addr|now id addr ok|v6 now id addr|v6 now id ok|hash token port addr|now ord|];
    cbn [dht_step].
  - intros [= <-]. by apply request_start_held.
  - intros [= <-]. unfold request_poll. destruct (ds_requests s !! h0) as [[key [|r|] []]|]; try done.
    + by apply future_held.
    + apply future_held; [done|]. by apply drop_held.
  - intros [= <-]. unfold request_timeout. destruct (ds_requests s !! h0) as [[key [|r|] []]|]; try done.
    apply future_held; [done|]. by apply drop_held.
  - intros [= <-]. unfold request_cancel. destruct (ds_requests s !! h0) as [[key c []]|]; try done.
    eapply alter_held; [exact Hh|reflexivity|]. intros o ->. done.
  - intros [= <-]. unfold on_send_error, remove_inflight. destruct (_ !! (tid, addr)); [|done].
    by eapply alter_held; [exact Hh|reflexivity|].
  - destruct (on_received_message rd msg addr s) as [[res s1]|] eqn:E; [|done]. cbn [outcome_bind snd]. intros [= <-].
    by eapply received_held.
  - by apply find_start_held.
  - by apply (table_step_held s).
  - destruct (ping_start v6 now id addr s) as [r|] eqn:E; [|done]. cbn [outcome_bind]. intros [= <-]. by eapply ping_start_held.
  - by apply (table_step_held s).
  - intros [= <-]. unfold send_announce, create_request, worker_send. cbn [set_tid ds_alive].
    destruct (ds_alive s); by apply (same_held s).
  - intros [= <-]. by apply (same_held s).
  - intros [= <-]. by apply (same_held s).
Qed.

(** ** What a lookup relies on *)

(** Callbacks finish, keep the node's state and drop no request. *)
Class CallbacksOk (C : Type) `{RecursiveRequestCallbacks C} := {
  start_ok : forall P c now created id addr s, dht_ok P s -> wf_id 20 id -> wf_addr addr ->
    exists s', on_request_start c now created id addr s = Done s' /\ dht_ok P s' /\ holds_on s s';
  end_ok : forall P c now hash id addr resp s, dht_ok P s -> wf_id 20 id ->
    exists s', on_request_end c now hash id addr resp s = Done s' /\ dht_ok P s' /\ holds_on s s';
}.

(** An event of the node as a step that keeps everything. *)
Lemma event_step P s e : dht_ok P s -> event_ok e -> (forall h, e <> ECancel h) -> (forall rd m a, e <> EReceived rd m a) ->
  exists s', dht_step s e = Done s' /\ dht_ok P s' /\ holds_on s s'.
Proof.
  intros Hs He Hc Hr. destruct (dht_step_ok P s e Hs He) as (s' & Hrun & Hs'); [by intros ? ? ? ? ? ? ?; exfalso; eapply Hr|].
  exists s'. split_and!; [done..|]. intros h Hh. by eapply dht_step_held.
Qed.

#[export] Instance callbacks_find_nodes_ok : CallbacksOk CallbacksFindNodes.
Proof.
  split.
  - intros P c now created id addr s Hs Hid Ha. cbn [on_request_start callbacks_find_nodes].
    pose proof (event_step P s (EFindStart now created id addr) Hs (conj Hid Ha)) as He. cbn [dht_step] in He. by apply He.
  - intros P c now hash id addr resp s Hs Hid. cbn [on_request_end callbacks_find_nodes].
    pose proof (event_step P s (EFindEnd now id addr (is_ok resp)) Hs Hid) as He. cbn [dht_step] in He. by apply He.
Qed.

#[export] Instance callbacks_get_peers_ok : CallbacksOk CallbacksGetPeers.
Proof.
  split; [intros P c now created id addr s Hs _ _; exists s; split_and!; [done|done|by intros h]|]. intros P c now hash id addr resp s Hs Hid. eexists. split; [reflexivity|].
  assert (Hsame : dht_ok P s /\ holds_on s s) by (split; [done|by intros h]).
  unfold get_peers_on_request_end. destruct (announce_port c) as [port|]; [|done].
  destruct resp as [[r|e]|e]; [|done..]. destruct (rs_token r) as [token|]; [|done]. destruct (id_ltb _ _); [done|].
  destruct (event_step P s (EAnnounce hash token port addr) Hs I) as (s' & E & Hok); [done..|].
  cbn [dht_step] in E. assert (s' = send_announce hash token port addr s) as -> by congruence. exact Hok.
Qed.

(** An answer lists at most [K] nodes, with ids and addresses of their size. *)
Definition answer_ok (K : nat) (r : ResponseOrError) : Prop :=
  match r with
  | RResponse r => (length (response_nodes r) <= K)%nat /\
      Forall (fun n => wf_id 20 (nd_id n) /\ wf_addr (nd_addr n)) (response_nodes r)
  | RError _ => True
  end.

Definition levent_ok (K : nat) (ev : LookupEvent) : Prop :=
  match ev with
  | LDht e => event_ok e /\
      match e with EReceived _ msg _ => forall r, answer_of (m_kind msg) = Some r -> answer_ok K r | _ => True end
  | _ => True
  end.

Section lookup_proofs.
Context {C : Type} `{CallbacksOk C} (K : nat).

(** Something to ask: a well-formed id, if known, and address, not too deep. *)
Definition target_ok (max_depth : nat) (id : option Id) (addr : SocketAddr) (depth : nat) : Prop :=
  (forall i, id = Some i -> wf_id 20 i) /\ wf_addr addr /\ (depth <= max_depth)%nat.

Definition handle (p : Phase) : nat := match p with First h | Second h => h end.

Abbreviation small := (fun (_ : nat) (_ : Key) (r : ResponseOrError) => answer_ok K r).

Record lookup_ok (k : Lookup C) (s : DhtState) : Prop := {
  lo_dht : dht_ok small s;
  lo_queue : Forall (fun e => target_ok (lk_max_depth k) e.1.1 e.1.2 e.2) (lk_queue k);
  lo_running : Forall (fun u => target_ok (lk_max_depth k) (ru_id u) (ru_addr u) (ru_depth u) /\
    held (handle (ru_phase u)) s) (lk_running k);
}.

(** The steps a target and all it can lead to may take. *)
Fixpoint weight (n : nat) : nat := match n with O => 3 | S n => 3 + K * weight n end%nat.

Definition queue_weight (max_depth : nat) (q : list (option Id * SocketAddr * nat)) : nat :=
  sum_list ((fun e => weight (max_depth - e.2)) <$> q).

Definition running_weight (max_depth : nat) (l : list Running) : nat :=
  sum_list ((fun u => weight (max_depth - ru_depth u) - match ru_phase u with First _ => 1 | Second _ => 2 end)%nat <$> l).

Definition steps_left (k : Lookup C) : nat :=
  (queue_weight (lk_max_depth k) (lk_queue k) + running_weight (lk_max_depth k) (lk_running k))%nat.

Lemma weight_pos n : (3 <= weight n)%nat.
Proof. destruct n; simpl; lia. Qed.

Lemma offer_node_spec depth now (k : Lookup C) n : exists u children,
  offer_node depth now k n = set_queue (set_useful k u) (lk_queue k ++ children) /\
  (length children <= 1)%nat /\
  Forall (fun e => e = (Some (nd_id n), nd_addr n, S depth) /\ (depth < lk_max_depth k)%nat) children.
Proof.
  unfold offer_node, should_request_node. destruct (Nat.leb_spec (lk_max_depth k) depth) as [Hd|Hd].
  { exists (lk_useful k), []. rewrite app_nil_r. cbn. split; [by destruct k|]. split; [lia|constructor]. }
  match goal with |- context [let '(_, _) := ?x in _] => destruct x as [[] u] end.
  - exists u, [(Some (nd_id n), nd_addr n, S depth)]. split_and!; [done|done|by repeat constructor].
  - exists u, []. rewrite app_nil_r. split; [by destruct k|]. split; [simpl; lia|constructor].
Qed.

(** What the nodes of an answer add to the queue. *)
Lemma offer_nodes_spec depth now (ns : list (Node SocketAddr)) (k : Lookup C) : exists u children,
  foldl (offer_node depth now) k ns = set_queue (set_useful k u) (lk_queue k ++ children) /\
  (length children <= length ns)%nat /\
  Forall (fun e => exists n, n ∈ ns /\ e = (Some (nd_id n), nd_addr n, S depth) /\ (depth < lk_max_depth k)%nat) children.
Proof.
  revert k. induction ns as [|n ns IH]; intros k.
  - exists (lk_useful k), []. rewrite app_nil_r. split; [by destruct k|]. split; [done|constructor].
  - cbn [foldl]. destruct (offer_node_spec depth now k n) as (u & c1 & -> & Hl & Hc).
    destruct (IH (set_queue (set_useful k u) (lk_queue k ++ c1))) as (u2 & c2 & -> & Hl2 & Hc2).
    exists u2, (c1 ++ c2). split; [by cbn; rewrite <- app_assoc|]. rewrite length_app. split; [simpl; lia|].
    apply Forall_app. split; (eapply Forall_impl; [eassumption|]); cbn.
    + intros e [-> Hd]. exists n. split; [by constructor|done].
    + intros e (m & Hm & He). exists m. split; [by constructor|done].
Qed.

Lemma request_start_dht P request addr s : dht_ok P s ->
  dht_ok P (request_start request addr s).2 /\ holds_on s (request_start request addr s).2 /\
  held (request_start request addr s).1 (request_start request addr s).2.
Proof.
  intros Hs. destruct (request_start_flying P request addr s (ok_flying _ _ Hs)) as [Hf Hp].
  split; [by eapply parts_ok|apply request_start_held].
Qed.

Lemma running_held max_depth l s s' : holds_on s s' ->
  Forall (fun u => target_ok max_depth (ru_id u) (ru_addr u) (ru_depth u) /\ held (handle (ru_phase u)) s) l ->
  Forall (fun u => target_ok max_depth (ru_id u) (ru_addr u) (ru_depth u) /\ held (handle (ru_phase u)) s') l.
Proof. intros Hh Hl. eapply Forall_impl; [exact Hl|]. cbn. intros u [Ht Hu]. split; [done|by apply Hh]. Qed.

Lemma queue_weight_app d q1 q2 : queue_weight d (q1 ++ q2) = (queue_weight d q1 + queue_weight d q2)%nat.
Proof. unfold queue_weight. by rewrite fmap_app, sum_list_with_app. Qed.

Lemma start_step now created k s id addr depth q : lookup_ok k s -> lk_queue k = (id, addr, depth) :: q ->
  exists r, request_one_start now created id addr k s = Done r /\
    lookup_ok (set_running (set_queue k q) (lk_running k ++ [mkRunning id addr depth (First r.1)])) r.2.
Proof.
  intros [Hs Hq Hr] Eq. rewrite Eq in Hq. apply Forall_cons in Hq as [(Hid & Ha & Hd) Hq]. cbn [fst snd] in *.
  unfold request_one_start.
  assert (exists s1, match id with Some id => on_request_start (lk_callbacks k) now created id addr s | None => Done s end = Done s1 /\
    dht_ok small s1 /\ holds_on s s1) as (s1 & -> & Hs1 & Hh1).
  { destruct id as [id|]; [by apply start_ok; [|apply Hid|]|]. exists s. by split_and!; [| |intros h]. }
  rsimpl. eexists. split; [done|]. destruct (request_start_dht small (lk_request k) addr s1 Hs1) as (Hs2 & Hh2 & Hnew).
  split; [done|done|]. cbn [set_running set_queue lk_running lk_max_depth]. apply Forall_app. split.
  - eapply running_held; [|exact Hr]. intros h Hh. by apply Hh2, Hh1.
  - constructor; [|constructor]. cbn. by split.
Qed.

Lemma first_step now k s i id addr depth h response : lookup_ok k s ->
  lk_running k !! i = Some (mkRunning id addr depth (First h)) ->
  exists r, request_one_first now id addr response k s = Done r /\
    lookup_ok (set_running r.1 (<[i := mkRunning id addr depth (Second r.2.1)]> (lk_running r.1))) r.2.2 /\
    exists u, r.1 = set_useful k u.
Proof.
  intros [Hs Hq Hr] Ei. pose proof (Forall_lookup_1 _ _ _ _ Hr Ei) as [(Hid & Ha & Hd) _]. cbn in Hid, Ha, Hd.
  unfold request_one_first.
  set (k1 := match response with Ok r => _ | Err _ => k end).
  assert (exists u, k1 = set_useful k u) as [u Hk1].
  { destruct response; [by eexists|]. exists (lk_useful k). by destruct k. }
  assert (exists s1, match id with
      | Some id => on_request_end (lk_callbacks k1) now (lk_info_hash k1) id addr response s | None => Done s end = Done s1 /\
    dht_ok small s1 /\ holds_on s s1) as (s1 & -> & Hs1 & Hh1).
  { destruct id as [id|]; [by apply end_ok; [|apply Hid]|]. exists s. by split_and!; [| |intros h']. }
  rsimpl. eexists. split; [done|]. cbn [fst snd].
  destruct (request_start_dht small (lk_request k1) addr s1 Hs1) as (Hs2 & Hh2 & Hnew). rewrite Hk1 in *.
  split; [|by exists u]. split; [done|done|]. cbn [set_running set_useful lk_running lk_max_depth].
  apply Forall_insert; [|by split].
  eapply running_held; [|exact Hr]. intros h' Hh. by apply Hh2, Hh1.
Qed.

Lemma second_shape now addr depth response (k : Lookup C) : (forall r, response = Ok r -> answer_ok K r) ->
  exists u p children, (request_one_second now addr depth response k).2 =
      set_queue (set_peers (set_useful k u) p) (lk_queue k ++ children) /\
    (length children <= K)%nat /\
    Forall (fun e => target_ok (lk_max_depth k) e.1.1 e.1.2 e.2 /\ e.2 = S depth /\ (depth < lk_max_depth k)%nat) children.
Proof.
  intros Hresp. unfold request_one_second.
  assert (Hnone : forall u p, exists u' p' children, set_peers (set_useful k u) p =
      set_queue (set_peers (set_useful k u') p') (lk_queue k ++ children) /\ (length children <= K)%nat /\
    Forall (fun e => target_ok (lk_max_depth k) e.1.1 e.1.2 e.2 /\ e.2 = S depth /\ (depth < lk_max_depth k)%nat) children).
  { intros u p. exists u, p, []. rewrite app_nil_r. split; [by destruct k|]. split; [simpl; lia|constructor]. }
  assert (Hk : k = set_peers (set_useful k (lk_useful k)) (lk_peers k)) by (by destruct k).
  destruct response as [[r|e]|e]; cbn [snd]; [|rewrite Hk; apply Hnone|apply (Hnone _ (lk_peers k))].
  destruct (Hresp _ eq_refl) as [Hlen Hwf]. set (ns := List.filter _ (response_nodes r)).
  assert (Hsp : exists b p, send_peers (default [] (rs_values r)) k = (b, set_peers k p)).
  { unfold send_peers. destruct (default [] (rs_values r)); [by exists true, (lk_peers k); destruct k|].
    destruct (lk_peer_rx k); [by eexists true, _|]. by exists false, (lk_peers k); destruct k. }
  destruct Hsp as (b & p & ->). destruct b; cbn [snd]; [|apply (Hnone (lk_useful k) p)].
  destruct (offer_nodes_spec depth now ns (set_peers k p)) as (u & children & -> & Hl & Hc).
  exists u, p, children. split; [done|].
  assert (Hns : (length ns <= length (response_nodes r))%nat) by apply filter_length_le. split; [lia|].
  eapply Forall_impl; [exact Hc|]. intros e (n & Hn%list_elem_of_In & -> & Hd). apply filter_In in Hn as [Hn%list_elem_of_In _].
  rewrite Forall_forall in Hwf. destruct (Hwf n Hn). cbn in *. split; [|done]. split; [by intros i [= <-]|]. split; [done|lia].
Qed.

Lemma children_weight depth max_depth (children : list (option Id * SocketAddr * nat)) : (length children <= K)%nat ->
  Forall (fun e => e.2 = S depth /\ (depth < max_depth)%nat) children ->
  (queue_weight max_depth children + 3 <= weight (max_depth - depth))%nat.
Proof.
  intros Hl Hc. destruct (decide (depth < max_depth)%nat) as [Hd|Hd].
  - replace (max_depth - depth)%nat with (S (max_depth - S depth)) by lia. cbn [weight].
    assert (Hw : queue_weight max_depth children = (length children * weight (max_depth - S depth))%nat).
    { clear Hl. induction Hc as [|e l [He _] _ IH]; [done|]. unfold queue_weight in *. rewrite fmap_cons. simpl.
      by rewrite He, IH. }
    rewrite Hw. nia.
  - destruct Hc as [|e l [_ He] _]; [|done]. pose proof (weight_pos (max_depth - depth)). unfold queue_weight. simpl. lia.
Qed.

Lemma returned_ok h r k s : lookup_ok k s -> returned h s = Some (Ok r) -> answer_ok K r.
Proof.
  intros [Hs _ _] Hr. unfold returned in Hr. destruct (ds_requests s !! h) as [[key c [|x|]]|] eqn:E; try done.
  injection Hr as ->. apply (ro_origin _ _ _ (ok_flying _ _ Hs) h _ r E). by right.
Qed.

Lemma running_weight_insert d l i u v : l !! i = Some u -> ru_depth v = ru_depth u ->
  (exists h, ru_phase u = First h) -> (exists h, ru_phase v = Second h) ->
  S (running_weight d (<[i := v]> l)) = running_weight d l.
Proof.
  intros Hi Hd [h1 H1] [h2 H2]. rewrite <- (take_drop_middle l i u Hi) at 2.
  rewrite insert_take_drop by (by eapply lookup_lt_Some). unfold running_weight.
  rewrite !fmap_app, !fmap_cons, !sum_list_with_app. simpl. rewrite Hd, H1, H2.
  pose proof (weight_pos (d - ru_depth u)). lia.
Qed.

Lemma running_weight_delete d l i u h : l !! i = Some u -> ru_phase u = Second h ->
  (running_weight d (delete i l) + (weight (d - ru_depth u) - 2) = running_weight d l)%nat.
Proof.
  intros Hi H1. rewrite <- (take_drop_middle l i u Hi) at 2. rewrite delete_take_drop. unfold running_weight.
  rewrite !fmap_app, !fmap_cons, !sum_list_with_app. simpl. rewrite H1. lia.
Qed.

Lemma drops_ours_held e (k : Lookup C) s s' : drops_ours e k = false -> dht_step s e = Done s' ->
  Forall (fun u => target_ok (lk_max_depth k) (ru_id u) (ru_addr u) (ru_depth u) /\ held (handle (ru_phase u)) s) (lk_running k) ->
  Forall (fun u => target_ok (lk_max_depth k) (ru_id u) (ru_addr u) (ru_depth u) /\ held (handle (ru_phase u)) s') (lk_running k).
Proof.
  intros Hd Hrun. rewrite !Forall_forall. intros Hr u Hu. destruct (Hr u Hu) as [Ht Hh]. split; [done|].
  eapply dht_step_held; [|exact Hh|exact Hrun]. intros ->. cbn [drops_ours] in Hd.
  assert (Hex : existsb (fun u' => match ru_phase u' with First h' | Second h' => (h' =? handle (ru_phase u))%nat end)
    (lk_running k) = true); [|congruence].
  apply existsb_exists. exists u. split; [by apply list_elem_of_In|]. destruct (ru_phase u); simpl; apply Nat.eqb_refl.
Qed.

Lemma lookup_step_ok k s ev : lookup_ok k s -> levent_ok K ev ->
  exists o, lookup_step (k, s) ev = Done o /\
    forall k' s', o = Some (k', s') -> lookup_ok k' s' /\
      match ev with LDht _ => steps_left k' = steps_left k | _ => (steps_left k' < steps_left k)%nat end.
Proof.
  intros Hok He. destruct ev as [e|now created|i now|i now]; cbn [lookup_step].
  - destruct (drops_ours e k) eqn:Hd; [by exists None|]. destruct He as [He Hm]. destruct Hok as [Hs Hq Hr].
    destruct (dht_step_ok small s e Hs He) as (s' & Hrun & Hs').
    { intros rd msg addr tid h r -> _ _ Ha. by apply Hm. }
    rewrite Hrun. rsimpl. eexists. split; [done|]. intros k' s2 [= <- <-]. split; [|done].
    split; [done|done|by eapply drops_ours_held].
  - destruct (lk_queue k) as [|[[id addr] depth] q] eqn:Eq; [by exists None|].
    destruct (start_step now created k s id addr depth q Hok Eq) as (r & -> & Hok'). rsimpl. eexists. split; [done|].
    intros k' s' [= <- <-]. split; [done|]. unfold steps_left. cbn [set_running set_queue lk_queue lk_running lk_max_depth].
    rewrite Eq. unfold queue_weight, running_weight. rewrite fmap_app, sum_list_with_app, !fmap_cons. simpl.
    pose proof (weight_pos (lk_max_depth k - depth)). lia.
  - destruct (lk_running k !! i) as [[id addr depth [h|h]]|] eqn:Ei; [|by exists None..].
    destruct (returned h s) as [response|]; [|by exists None].
    destruct (first_step now k s i id addr depth h response Hok Ei) as (r & -> & Hok' & u & Hu). rsimpl.
    eexists. split; [done|]. intros k' s' [= <- <-]. split; [done|]. rewrite Hu. unfold steps_left.
    cbn [set_running set_useful lk_queue lk_running lk_max_depth].
    pose proof (running_weight_insert (lk_max_depth k) _ _ _ (mkRunning id addr depth (Second r.2.1)) Ei eq_refl) as Hw.
    specialize (Hw (ex_intro _ h eq_refl) (ex_intro _ _ eq_refl)). lia.
  - destruct (lk_running k !! i) as [[id addr depth [h|h]]|] eqn:Ei; [by exists None| |by exists None].
    destruct (returned h s) as [response|] eqn:Hret; [|by exists None].
    destruct (second_shape now addr depth response k) as (u & p & children & E2 & Hlen & Hc).
    { intros r ->. by eapply returned_ok. }
    destruct (request_one_second now addr depth response k) as [res k2]. cbn [snd] in E2. subst k2.
    eexists. split; [done|]. intros k' s' [= <- <-]. destruct Hok as [Hs Hq Hr]. split.
    + split; [done| |by apply Forall_delete]. cbn. apply Forall_app. split; [done|].
      eapply Forall_impl; [exact Hc|]. by intros e [? _].
    + unfold steps_left. cbn [set_running set_queue set_peers set_useful count_end lk_queue lk_running lk_max_depth].
      rewrite queue_weight_app.
      pose proof (running_weight_delete (lk_max_depth k) _ _ _ h Ei eq_refl) as Hw. cbn [ru_depth] in Hw.
      pose proof (children_weight depth (lk_max_depth k) children Hlen) as Hcw.
      assert (Hcw' : (queue_weight (lk_max_depth k) children + 3 <= weight (lk_max_depth k - depth))%nat).
      { apply Hcw. eapply Forall_impl; [exact Hc|]. by intros e [_ ?]. }
      lia.
Qed.

(** How many steps of the lookup itself a history has. *)
Definition own_steps (evs : list LookupEvent) : nat :=
  length (List.filter (fun ev => match ev with LDht _ => false | _ => true end) evs).

Lemma run_lookup_ok evs k s : lookup_ok k s -> Forall (levent_ok K) evs ->
  exists o, run_lookup (k, s) evs = Done o /\
    forall k' s', o = Some (k', s') -> lookup_ok k' s' /\ (own_steps evs + steps_left k' <= steps_left k)%nat.
Proof.
  revert k s. induction evs as [|ev evs IH]; intros k s Hok Hevs.
  - eexists. split; [done|]. intros k' s' [= <- <-]. split; [done|]. unfold own_steps. simpl. lia.
  - apply Forall_cons in Hevs as [Hev Hevs]. cbn [run_lookup].
    destruct (lookup_step_ok k s ev Hok Hev) as (o & -> & Ho). rsimpl. destruct o as [[k1 s1]|]; [|by exists None].
    destruct (Ho k1 s1 eq_refl) as [Hok1 Hw]. destruct (IH k1 s1 Hok1 Hevs) as (o & -> & Ho'). exists o. split; [done|].
    intros k' s' E. destruct (Ho' k' s' E) as [? Hw']. split; [done|].
    unfold own_steps in *. cbn [List.filter]. destruct ev; simpl; lia.
Qed.

(** Whoever waits can go on: its request has returned, or returns after at
    most one event of the node. *)
Lemma held_returns h s : held h s -> exists es, Forall event_ok es /\ (length es <= 1)%nat /\
  (forall h', ECancel h' ∉ es) /\ (forall rd m a, EReceived rd m a ∉ es) /\
  exists s' r, run_dht s es = Done s' /\ returned h s' = Some r.
Proof.
  intros ([key c f] & Eo & Hf). cbn [or_future] in Hf.
  assert (Hset : forall s1 r, held h s1 ->
    returned h (set_flight s1 (ds_inflight s1) (set_future h (Returned r) (ds_requests s1))) = Some r).
  { intros s1 r (o & E & _). unfold returned. cbn. unfold set_future. rewrite lookup_alter_case, E.
    by rewrite decide_True by done. }
  assert (Hheld : held h s) by (by eexists).
  destruct f as [|r|]; [|exists []; split_and!; [constructor|simpl; lia|set_solver|set_solver|]|done].
  - destruct c as [|r|].
    + exists [ETimeout h]. split_and!; [by repeat constructor|done|set_solver|set_solver|]. cbn. unfold request_timeout.
      rewrite Eo. eexists _, _. split; [done|]. by apply Hset, drop_held.
    + exists [EPoll h]. split_and!; [by repeat constructor|done|set_solver|set_solver|]. cbn. unfold request_poll.
      rewrite Eo. eexists _, _. split; [done|]. by apply Hset.
    + exists [EPoll h]. split_and!; [by repeat constructor|done|set_solver|set_solver|]. cbn. unfold request_poll.
      rewrite Eo. eexists _, _. split; [done|]. by apply Hset, drop_held.
  - eexists s, r. split; [done|]. unfold returned. by rewrite Eo.
Qed.

Lemma run_dht_events es k s s' evs : (forall h, ECancel h ∉ es) -> run_dht s es = Done s' ->
  run_lookup (k, s) ((LDht <$> es) ++ evs) = run_lookup (C := C) (k, s') evs.
Proof.
  revert s. unfold run_dht. induction es as [|e es IH]; intros s Hc.
  - by intros [= <-].
  - cbn [for_each fmap list_fmap app run_lookup lookup_step].
    assert (Hd : drops_ours e k = false).
    { destruct e; try done. exfalso. apply (Hc h). by constructor. }
    rewrite Hd. destruct (dht_step s e) as [s1|]; [|done]. cbn [outcome_bind]. apply IH. intros h Hh. apply (Hc h). by constructor.
Qed.

Lemma own_steps_events es evs : own_steps ((LDht <$> es) ++ evs) = own_steps evs.
Proof. unfold own_steps. induction es as [|e es IH]; [done|]. cbn. exact IH. Qed.

(** A lookup that is not over can make a step. *)
Lemma lookup_progress k s : lookup_ok k s -> lookup_over k = false ->
  exists evs w, Forall (levent_ok K) evs /\ own_steps evs = 1%nat /\ run_lookup (k, s) evs = Done (Some w).
Proof.
  intros Hok Hover. destruct (lk_queue k) as [|[[id addr] depth] q] eqn:Eq.
  - destruct (lk_running k) as [|u l] eqn:Er; [unfold lookup_over in Hover; by rewrite Eq, Er in Hover|].
    pose proof (lo_running _ _ Hok) as Hr. rewrite Er in Hr. apply Forall_cons in Hr as [[_ Hh] _].
    destruct (held_returns _ _ Hh) as (es & Hes & _ & Hnc & Hnr & s' & r & Hrun & Hret).
    assert (Hev : Forall (levent_ok K) (LDht <$> es)).
    { apply Forall_fmap, Forall_forall. intros e He. rewrite Forall_forall in Hes. split; [by apply Hes|].
      destruct e; try done. by destruct (Hnr _ _ _ He). }
    assert (Hok' : lookup_ok k s').
    { destruct (run_lookup_ok (LDht <$> es) k s Hok Hev) as (o & Ho & Hnext).
      pose proof (run_dht_events es k s s' [] Hnc Hrun) as E. rewrite app_nil_r, Ho in E. injection E as ->. by apply Hnext. }
    destruct u as [id addr depth [h|h]]; cbn [ru_phase handle] in Hret.
    + destruct (first_step 0 k s' 0 id addr depth h r Hok') as (x & Hx & _ & _); [by rewrite Er|].
      eexists ((LDht <$> es) ++ [LFirst 0 0]), _. split_and!; [apply Forall_app; split; [done|by repeat constructor]|by rewrite own_steps_events|].
      rewrite (run_dht_events es k s s') by done. cbn [run_lookup lookup_step]. rewrite Er. cbn [lookup list_lookup].
      rewrite Hret, Hx. rsimpl. done.
    + destruct (request_one_second 0 addr depth r k) as [res k2] eqn:E2.
      eexists ((LDht <$> es) ++ [LSecond 0 0]), _. split_and!; [apply Forall_app; split; [done|by repeat constructor]|by rewrite own_steps_events|].
      rewrite (run_dht_events es k s s') by done. cbn [run_lookup lookup_step]. rewrite Er. cbn [lookup list_lookup].
      rewrite Hret, E2. rsimpl. done.
  - destruct (start_step 0 0 k s id addr depth q Hok Eq) as (r & Hrun & _).
    eexists [LTake 0 0], _. split; [by repeat constructor|]. split; [done|]. cbn [run_lookup lookup_step]. rewrite Eq, Hrun.
    rsimpl. done.
Qed.
End lookup_proofs.

(** C34: a lookup that fills the routing table always ends.  Starting with [n]
    addresses, when no answer lists more than [K] nodes, it takes at most
    [n * weight K 4] steps (three per node asked, with nodes up to depth four),
    whatever the other nodes answer, in whatever order, and whatever else the
    node does meanwhile; it never panics; and as long as it is not over it can
    make a step, at the latest when a request times out. *)
Theorem lookup_terminates K target addrs s evs : dht_ok (fun _ _ r => answer_ok K r) s -> Forall wf_addr addrs ->
  Forall (levent_ok K) evs ->
  exists o, run_lookup (find_node_for_routing_table target addrs, s) evs = Done o /\
    forall k' s', o = Some (k', s') -> (own_steps evs <= length addrs * weight K 4)%nat /\
      (lookup_over k' = false -> exists evs' w, Forall (levent_ok K) evs' /\ own_steps evs' = 1%nat /\
         run_lookup (k', s') evs' = Done (Some w)).
Proof.
  intros Hs Ha Hevs. set (k := find_node_for_routing_table target addrs).
  assert (Hok : lookup_ok K k s).
  { split; [done| |constructor]. cbn. apply Forall_fmap. eapply Forall_impl; [exact Ha|]. intros a Hwf. cbn. split; [done|].
    split; [done|lia]. }
  destruct (run_lookup_ok K evs k s Hok Hevs) as (o & -> & Ho). exists o. split; [done|]. intros k' s' ->.
  destruct (Ho k' s' eq_refl) as [Hok' Hw]. split; [|by apply lookup_progress].
  assert (Hleft : steps_left K k = (length addrs * weight K 4)%nat); [|lia].
  unfold steps_left, k, queue_weight. cbn [find_node_for_routing_table lk_queue lk_running lk_max_depth].
  change (running_weight K 4 []) with 0%nat. rewrite Nat.add_0_r.
  clear. induction addrs as [|a l IH]; [done|]. rewrite !fmap_cons. cbn [sum_list_with length snd]. rewrite IH.
  change (id (weight K (4 - 0))) with (weight K 4). lia.
Qed.

(** ** Which nodes are asked *)

Section lex.
Context {X : Type} (ltb : X -> X -> bool).
Hypothesis total : forall a b, negb (ltb b a) = false -> negb (ltb a b) = true.
Hypothesis trans : forall a b c, negb (ltb b a) = true -> negb (ltb c b) = true -> negb (ltb c a) = true.

Lemma lex_total a b r r' : (r = false -> r' = true) ->
  lex (ltb a b) (ltb b a) r = false -> lex (ltb b a) (ltb a b) r' = true.
Proof.
  unfold lex. pose proof (total b a). destruct (ltb a b), (ltb b a); simpl; intuition.
Qed.

Lemma lex_trans a b c r1 r2 r3 : (r1 = true -> r2 = true -> r3 = true) ->
  lex (ltb a b) (ltb b a) r1 = true -> lex (ltb b c) (ltb c b) r2 = true -> lex (ltb a c) (ltb c a) r3 = true.
Proof.
  unfold lex. intros Hr. pose proof (total a b). pose proof (total b a). pose proof (total b c). pose proof (total c b).
  pose proof (trans a b c). pose proof (trans b c a). pose proof (trans c a b).
  destruct (ltb a b), (ltb b a), (ltb b c), (ltb c b), (ltb a c), (ltb c a); simpl in *; intuition congruence.
Qed.
End lex.

Lemma ltb_total (a b : Z) : negb (b <? a) = false -> negb (a <? b) = true.
Proof. bcases; simpl; try done; lia. Qed.

Lemma ltb_trans (a b c : Z) : negb (b <? a) = true -> negb (c <? b) = true -> negb (c <? a) = true.
Proof. bcases; simpl; try done; lia. Qed.

Lemma useful_leb_total hash now a b : useful_leb hash now a b = false -> useful_leb hash now b a = true.
Proof.
  unfold useful_leb, useful_key. apply (lex_total Z.ltb ltb_total), (lex_total Z.ltb ltb_total), (lex_total id_ltb id_leb_total).
  bcases; try done; lia.
Qed.

Lemma useful_leb_trans hash now a b c :
  useful_leb hash now a b = true -> useful_leb hash now b c = true -> useful_leb hash now a c = true.
Proof.
  unfold useful_leb, useful_key. apply (lex_trans Z.ltb ltb_total ltb_trans), (lex_trans Z.ltb ltb_total ltb_trans),
    (lex_trans id_ltb id_leb_total id_leb_trans). bcases; try done; lia.
Qed.

Lemma update_found_spec {A} (p : A -> bool) (f : A -> A) l x : List.find p l = Some x ->
  exists l1 l2, l = l1 ++ x :: l2 /\ p x = true /\ update_found p f l = Some (l1 ++ f x :: l2).
Proof.
  induction l as [|y l IH]; [done|]. simpl. destruct (p y) eqn:E.
  - intros [= ->]. by exists [], l.
  - intros Hf. destruct (IH Hf) as (l1 & l2 & -> & Hx & ->). by exists (y :: l1), l2.
Qed.

(** Sorting with a new node and dropping the last. *)
Lemma sort_and_pop hash now l limit x : let l1 := sort_by (useful_leb hash now) (l ++ [x]) in
  (length l <= limit)%nat -> (limit < length l1)%nat ->
  exists popped, last l1 = Some popped /\ removelast l1 ++ [popped] ≡ₚ l ++ [x] /\
    length (removelast l1) = limit /\ forall n, n ∈ removelast l1 -> useful_leb hash now n popped = true.
Proof.
  intros l1 Hl Hlim. assert (Hp : l1 ≡ₚ l ++ [x]) by apply sort_by_perm.
  assert (Hlen : length l1 = S (length l)) by (rewrite Hp, length_app; simpl; lia).
  destruct (last l1) as [popped|] eqn:El; [|apply last_None in El; by rewrite El in Hlen].
  apply last_Some in El as [l' E]. exists popped. split; [done|]. rewrite E, removelast_last. rewrite E in Hp.
  split_and!; [done| |].
  - rewrite Hlen in Hlim. rewrite E, length_app in Hlen. simpl in Hlen. lia.
  - assert (Hs : StronglySorted (fun a b => useful_leb hash now a b = true) l1).
    { apply sort_by_sorted; [apply useful_leb_total|apply useful_leb_trans]. }
    rewrite E in Hs. intros n Hn. eapply (StronglySorted_app_1_elem_of _ _ _ _ _ Hs); [done|set_solver].
Qed.

(** Deciding whether to ask a node keeps at most [limit] nodes, each id once.
    The answer is yes only below the depth limit, for a node that was not asked
    in the last minute as far as is remembered, and which is then remembered as
    asked now; a node is only forgotten for a better one, by: returned peers,
    responded, distance to the target, freshness. *)
Theorem should_request_spec max_depth limit hash id addr depth now l :
  NoDup (mu_id <$> l) -> (length l <= limit)%nat ->
  let '(b, l') := should_request_node max_depth limit hash id addr depth now l in
  NoDup (mu_id <$> l') /\ (length l' <= limit)%nat /\
  (b = true -> (depth < max_depth)%nat /\ (exists n, n ∈ l' /\ mu_id n = id /\ mu_last_request n = now) /\
     forall n, n ∈ l -> mu_id n = id -> REQUEST_AGAIN < since now (mu_last_request n)) /\
  (forall n, n ∈ l -> n ∈ l' \/ mu_id n = id \/ forall m, m ∈ l' -> useful_leb hash now m n = true).
Proof.
  intros Hnd Hlen. unfold should_request_node. destruct (Nat.leb_spec max_depth depth) as [Hd|Hd]; [by split_and!; [..|intros n Hn; left]|].
  destruct (List.find _ l) as [x|] eqn:Ef.
  - destruct (Z.ltb_spec REQUEST_AGAIN (since now (mu_last_request x))) as [Hago|_]; [|by split_and!; [..|intros n Hn; left]].
    match goal with |- context [update_found _ ?f l] => destruct (update_found_spec _ f l x Ef) as (l1 & l2 & -> & Hx & ->) end.
    cbn [default from_option Datatypes.id]. unfold id_eqb in Hx. rewrite bool_decide_eq_true in Hx. rewrite fmap_app, fmap_cons in Hnd.
    assert (Hsame : forall n, n ∈ l1 ++ x :: l2 -> mu_id n = id -> n = x).
    { intros n Hn Hid. apply elem_of_app in Hn. rewrite elem_of_cons in Hn. apply NoDup_app in Hnd as (H1 & H2 & H3).
      apply NoDup_cons in H3 as [H3 _]. assert (Hi : mu_id n = mu_id x) by congruence. destruct Hn as [Hn|[Hn|Hn]]; [|done|].
      - destruct (H2 (mu_id x)); [rewrite <- Hi; by apply list_elem_of_fmap_2|by constructor].
      - destruct H3. rewrite <- Hi. by apply list_elem_of_fmap_2. }
    split_and!.
    + by rewrite fmap_app, fmap_cons.
    + rewrite length_app in *. simpl in *. lia.
    + intros _. split; [done|]. split.
      * eexists. split; [apply elem_of_app; right; by apply elem_of_cons; left|done].
      * intros n Hn Hid. by rewrite (Hsame n Hn Hid).
    + intros n Hn. destruct (decide (mu_id n = id)) as [|Hne]; [by right; left|]. left.
      rewrite elem_of_app, elem_of_cons in *. destruct Hn as [?|[->|?]]; [by left|done|by right; right].
  - assert (Hnew : forall n, n ∈ l -> mu_id n <> id).
    { intros n Hn Hid. pose proof (List.find_none _ _ Ef n (proj1 (list_elem_of_In _ _) Hn)) as Hf. cbn beta in Hf.
      unfold id_eqb in Hf. by rewrite bool_decide_eq_true_2 in Hf. }
    set (x := mkUseful id addr now None 0 false). set (l1 := sort_by (useful_leb hash now) (l ++ [x])).
    assert (Hp : l1 ≡ₚ l ++ [x]) by apply sort_by_perm.
    assert (Hnd1 : NoDup (mu_id <$> l1)).
    { rewrite Hp, fmap_app. apply NoDup_app. split; [done|]. split; [|apply NoDup_singleton].
      intros i (n & -> & Hn)%list_elem_of_fmap Hi. apply list_elem_of_singleton in Hi. by apply (Hnew n Hn). }
    assert (Hx : x ∈ l1) by (rewrite Hp; set_solver).
    destruct (Nat.ltb_spec limit (length l1)) as [Hlim|Hlim].
    + destruct (sort_and_pop hash now l limit x Hlen Hlim) as (popped & Elast & Hpp & Hl' & Hbest). fold l1 in Elast, Hpp, Hl', Hbest.
      rewrite Elast. assert (Hnd2 : NoDup (mu_id <$> removelast l1 ++ [popped])) by (by rewrite Hpp, <- Hp).
      rewrite fmap_app in Hnd2. apply NoDup_app in Hnd2 as (H1 & H2 & _). split_and!; [done|lia| |].
      * intros Hb. split; [done|]. split; [|by intros n Hn Hid; destruct (Hnew n Hn)].
        exists x. split; [|done]. rewrite Hp, <- Hpp in Hx. apply elem_of_app in Hx as [|E%list_elem_of_singleton]; [done|].
        exfalso. rewrite <- E in Hb. unfold id_eqb in Hb. by rewrite bool_decide_eq_true_2 in Hb.
      * intros n Hn. assert (Hin : n ∈ removelast l1 ++ [popped]) by (rewrite Hpp; set_solver).
        apply elem_of_app in Hin as [|Hin%list_elem_of_singleton]; [by left|]. subst. by right; right.
    + split_and!; [done|done| |].
      * intros _. split; [done|]. split; [by exists x|]. by intros n Hn Hid; destruct (Hnew n Hn).
      * intros n Hn. left. rewrite Hp. set_solver.
Qed.

(** ** Behaviours worth knowing *)

Definition ex_lookup : Lookup CallbacksFindNodes := find_node_for_routing_table (ex_node 3) [ex_peer].

Definition ex_events : list LookupEvent :=
  [LTake 1 1; LDht (EReceived ex_reads ex_pong ex_peer); LDht (EPoll 0); LFirst 0 2].

(** [request_one] makes its request twice: once for the marks and the
    announcement, and again for the nodes and peers.  A node that answered is
    asked the same question a second time. *)
Lemma every_node_asked_twice : exists k s m1 m2,
  run_lookup (ex_lookup, ex_dht) ex_events = Done (Some (k, s)) /\ ds_sent s = [m1; m2] /\
  m_kind (ws_message m1) = m_kind (ws_message m2) /\ ws_addr m1 = ws_addr m2.
Proof. vm_compute. by eexists _, _, _, _. Qed.

(** The receiver of the peers of such a lookup is dropped before it starts, so
    an answer that carries peers besides its nodes counts as an error, and its
    nodes are not asked. *)
Lemma peers_hide_nodes now addr depth r p l : rs_values r = Some (p :: l) ->
  request_one_second now addr depth (Ok (RResponse r)) ex_lookup = (Err ReceiverDead, ex_lookup).
Proof. intros Hr. unfold request_one_second. by rewrite Hr. Qed.

(** ** Witnesses *)

Lemma ex_events_ok : Forall (levent_ok 0) ex_events.
Proof.
  unfold ex_events. repeat (constructor; [exact I|]). constructor; [|by repeat constructor].
  split; [by intros ? [=]|]. intros r [= <-]. split; [done|constructor].
Qed.

Lemma lookup_terminates_witness : exists o, run_lookup (ex_lookup, ex_dht) ex_events = Done o /\
  (own_steps ex_events <= 1 * weight 0 4)%nat.
Proof.
  destruct (lookup_terminates 0 (ex_node 3) [ex_peer] ex_dht ex_events) as (o & Hrun & Ho).
  - apply dht_start_ok.
  - constructor; [|constructor]. split; vm_compute; split; congruence.
  - exact ex_events_ok.
  - exists o. split; [exact Hrun|]. destruct o as [[k s]|]; [exact (proj1 (Ho k s eq_refl))|].
    exfalso. destruct every_node_asked_twice as (k & s & _ & _ & E & _). pose proof (eq_trans (eq_sym Hrun) E). done.
Defined.

Lemma should_request_spec_witness :
  let '(b, l') := should_request_node 4 1 (ex_node 3) (ex_node 9) ex_peer 0 5 [] in b = true /\ (length l' <= 1)%nat.
Proof.
  pose proof (should_request_spec 4 1 (ex_node 3) (ex_node 9) ex_peer 0 5 []) as Hs.
  destruct (should_request_node 4 1 (ex_node 3) (ex_node 9) ex_peer 0 5 []) as [b l'] eqn:E.
  destruct Hs as (_ & Hl & _); [constructor|simpl; lia|]. split; [|exact Hl]. vm_compute in E. congruence.
Defined.
