(* ===== verification/MutableItemStore.v ===== *)
(** * MutableItemStore: the mutable items of BEP 44

    Models [crates/librtbit-dht/src/mutable_item_store.rs].  The iteration order
    of the concurrent map is the argument [ord]; the clock is in nanoseconds. *)

From S2P Require Import Prelude HashId.

Record StoredMutableItem := mkItem {
  it_k : list Z;
  it_sig : list Z;
  it_seq : Z;
  it_v : list Z;
  it_salt : option (list Z);
  it_last_updated : Z;
}.

Record MutableItemStore := mkItemStore {
  ms_items : gmap Id StoredMutableItem;
  ms_max_items : nat;
}.

Definition item_store_new (max_items : nat) : MutableItemStore := mkItemStore ∅ max_items.

Definition with_items (s : MutableItemStore) (m : gmap Id StoredMutableItem) : MutableItemStore :=
  mkItemStore m (ms_max_items s).

(** [Iterator::min_by_key]: the first of the least. *)
Fixpoint min_by_key {A} (key : A -> Z) (l : list A) : option A :=
  match l with
  | [] => None
  | x :: l => match min_by_key key l with
              | Some y => Some (if key x <=? key y then x else y)
              | None => Some x
              end
  end.

Section store.
Variable ord : gmap Id StoredMutableItem -> list (Id * StoredMutableItem).

Definition evict_oldest (s : MutableItemStore) : MutableItemStore :=
  match min_by_key (fun e => it_last_updated e.2) (ord (ms_items s)) with
  | Some (key, _) => with_items s (delete key (ms_items s))
  | None => s
  end.

Definition item_store (target : Id) (item : StoredMutableItem) (s : MutableItemStore) : bool * MutableItemStore :=
  let insert s := (true, with_items s (<[target := item]> (ms_items s))) in
  match ms_items s !! target with
  | Some existing => if it_seq item <=? it_seq existing then (false, s) else insert s
  | None => if (ms_max_items s <=? size (ms_items s))%nat then insert (evict_oldest s) else insert s
  end.

Definition item_get (target : Id) (s : MutableItemStore) : option StoredMutableItem := ms_items s !! target.

(** [while len > max_items { evict_oldest }]: every round removes an item. *)
Fixpoint collect_items (fuel : nat) (s : MutableItemStore) : MutableItemStore :=
  match fuel with
  | O => s
  | S fuel => if (ms_max_items s <? size (ms_items s))%nat then collect_items fuel (evict_oldest s) else s
  end.

Definition item_garbage_collect (s : MutableItemStore) : MutableItemStore := collect_items (size (ms_items s)) s.

(** ** Eviction *)

Hypothesis ord_perm : forall m, ord m ≡ₚ map_to_list m.

Lemma min_by_key_spec {A} (key : A -> Z) l :
  match min_by_key key l with
  | Some x => x ∈ l /\ forall y, y ∈ l -> key x <= key y
  | None => l = []
  end.
Proof.
  induction l as [|x l IH]; [done|]. simpl. destruct (min_by_key key l) as [y|].
  - destruct IH as [Hy IH]. destruct (Z.leb_spec (key x) (key y)); split.
    + by constructor.
    + intros z [->|Hz]%elem_of_cons; [lia|]. specialize (IH z Hz). lia.
    + by constructor.
    + intros z [->|Hz]%elem_of_cons; [lia|by apply IH].
  - subst. split; [by constructor|]. intros y [->|Hy]%elem_of_cons; [lia|by apply not_elem_of_nil in Hy].
Qed.

(** The oldest item goes, unless there is none. *)
Lemma evict_oldest_spec s : ms_items s <> ∅ ->
  exists key it, ms_items s !! key = Some it /\ (forall k i, ms_items s !! k = Some i -> it_last_updated it <= it_last_updated i) /\
    evict_oldest s = with_items s (delete key (ms_items s)).
Proof.
  intros Hne. unfold evict_oldest.
  pose proof (min_by_key_spec (fun e : Id * StoredMutableItem => it_last_updated e.2) (ord (ms_items s))) as Hm.
  destruct (min_by_key _ _) as [[key it]|].
  - destruct Hm as [Hin Hmin]. rewrite (ord_perm (ms_items s)), elem_of_map_to_list in Hin. exists key, it. split_and!; [done| |done].
    intros k i Hi. apply (Hmin (k, i)). rewrite (ord_perm (ms_items s)). by apply elem_of_map_to_list.
  - exfalso. apply Hne. apply map_to_list_empty_iff. pose proof (ord_perm (ms_items s)) as Hp. rewrite Hm in Hp.
    symmetry in Hp. by apply Permutation_nil_r in Hp.
Qed.

Lemma evict_size s : ms_items s <> ∅ -> S (size (ms_items (evict_oldest s))) = size (ms_items s).
Proof.
  intros Hne. destruct (evict_oldest_spec s Hne) as (key & it & Hk & _ & ->). cbn.
  rewrite map_size_delete_Some by (by eexists). pose proof (map_size_ne_0_lookup_2 (ms_items s) key) as H.
  specialize (H (ex_intro _ it Hk)). lia.
Qed.

Lemma size_insert (m : gmap Id StoredMutableItem) k i : (size (<[k := i]> m) <= S (size m))%nat.
Proof.
  destruct (m !! k) as [j|] eqn:E; [rewrite map_size_insert_Some by (by eexists); lia|].
  rewrite map_size_insert_None by done. lia.
Qed.

(** An item is refused exactly when one with the same or a higher sequence
    number is stored, and then nothing changes; an accepted item is what is
    read back; the store never holds more than its maximum (or one item, when
    that is zero); and another item only disappears when a new one arrives at a
    full store, and is then the oldest. *)
Theorem item_store_spec target item s : (size (ms_items s) <= Nat.max 1 (ms_max_items s))%nat ->
  let '(b, s') := item_store target item s in
  (size (ms_items s') <= Nat.max 1 (ms_max_items s'))%nat /\
  (b = false <-> exists e, item_get target s = Some e /\ it_seq item <= it_seq e) /\
  (b = false -> s' = s) /\ (b = true -> item_get target s' = Some item) /\
  forall k it, k <> target -> item_get k s = Some it ->
    item_get k s' = Some it \/
    item_get target s = None /\ (ms_max_items s <= size (ms_items s))%nat /\
      forall k' i', item_get k' s = Some i' -> it_last_updated it <= it_last_updated i'.
Proof.
  intros Hsize. unfold item_store, item_get. destruct (ms_items s !! target) as [e|] eqn:E.
  - destruct (Z.leb_spec (it_seq item) (it_seq e)).
    + split_and!; [done|split; [by exists e|done]|done|done|by left].
    + cbn. rewrite map_size_insert_Some by (by eexists). split_and!; [done| |done| |].
      * split; [done|]. intros (e' & [= <-] & ?). lia.
      * by rewrite lookup_insert_eq.
      * intros k it Hk Hi. left. by rewrite lookup_insert_ne.
  - assert (Hno : true = false <-> exists e, None = Some e /\ it_seq item <= it_seq e) by (split; [done|by intros (? & ? & _)]).
    destruct (Nat.leb_spec (ms_max_items s) (size (ms_items s))) as [Hfull|Hroom].
    + destruct (decide (ms_items s = ∅)) as [E0|Hne].
      * unfold evict_oldest. assert (Hord : ord (ms_items s) = []).
        { apply Permutation_nil_r. rewrite (ord_perm (ms_items s)), E0. by rewrite map_to_list_empty. }
        rewrite Hord. cbn. split_and!; [|done|done|by rewrite lookup_insert_eq|].
        -- rewrite E0, map_size_insert_None, map_size_empty by done. lia.
        -- intros k it _. by rewrite E0.
      * pose proof (evict_size s Hne) as Hev. destruct (evict_oldest_spec s Hne) as (key & old & Hold & Hmin & Ee).
        rewrite Ee in *. cbn in *. split_and!; [|done|done|by rewrite lookup_insert_eq|].
        -- pose proof (size_insert (delete key (ms_items s)) target item). lia.
        -- intros k it Hk Hi. rewrite lookup_insert_ne by done. destruct (decide (k = key)) as [->|Hkk].
           ++ right. split; [done|]. split; [done|]. intros k' i'. assert (it = old) as -> by congruence. apply Hmin.
           ++ left. by rewrite lookup_delete_ne.
    + cbn. split_and!; [|done|done|by rewrite lookup_insert_eq|].
      * rewrite map_size_insert_None by done. lia.
      * intros k it Hk Hi. left. by rewrite lookup_insert_ne.
Qed.

(** A collection ends within its limit. *)
Lemma item_garbage_collect_spec s : (size (ms_items (item_garbage_collect s)) <= ms_max_items s)%nat.
Proof.
  unfold item_garbage_collect. remember (size (ms_items s)) as n eqn:Hn. revert s Hn.
  induction n as [|n IH]; intros s Hn; cbn [collect_items]; [lia|].
  destruct (Nat.ltb_spec (ms_max_items s) (size (ms_items s))) as [Hlt|]; [|lia].
  assert (Hne : ms_items s <> ∅) by (intros E; rewrite E, map_size_empty in Hn; done).
  pose proof (evict_size s Hne). etransitivity; [apply IH; lia|].
  destruct (evict_oldest_spec s Hne) as (key & old & _ & _ & ->). done.
Qed.
End store.

Definition ex_item (seq time : Z) : StoredMutableItem := mkItem [] [] seq [] None time.

Lemma item_store_spec_witness :
  let s := mkItemStore {[ [1] := ex_item 5 10 ]} 1 in
  let '(b, s') := item_store map_to_list [2] (ex_item 1 20) s in b = true /\ item_get [2] s' = Some (ex_item 1 20).
Proof.
  intros s. pose proof (item_store_spec map_to_list (fun m => reflexivity _) [2] (ex_item 1 20) s) as Hs.
  destruct (item_store map_to_list [2] (ex_item 1 20) s) as [b s'] eqn:E.
  destruct Hs as (_ & _ & _ & Hget & _); [vm_compute; lia|]. assert (Hb : b = true) by (vm_compute in E; congruence).
  split; [exact Hb|exact (Hget Hb)].
Defined.
