(* ===== verification/ReadBuf.v ===== *)
(** * ReadBuf: the ring buffer messages are read from

    Models [crates/librtbit/src/read_buf.rs]: the ring of 32 KiB, its slices,
    [read_handshake] and the loop of [read_message] over a connection.  A
    connection is the sequence of what its reads give: bytes (of which a read
    takes as many as fit), or an error (a timeout, or an error of the socket);
    its end is the end of the stream. *)

From S2P Require Import Prelude HashId DoubleBuf Message.

Definition BUFLEN : nat := Z.to_nat 0x8000.
Arguments BUFLEN : simpl never.

Record ReadBuf := mkReadBuf {
  rb_buf : list Z;
  rb_start : nat;
  rb_len : nat;
}.

Inductive ReadError (E : Type) :=
| IoErr (e : E)
| PeerDisconnectedReadingHandshake
| DeserializeHandshake (e : MessageDeserializeError)
| BugReadBufMakeContiguous (start len : Z)
| ReadBufFull (need_additional_bytes : Z)
| PeerDisconnected
| Deserialize (e : MessageDeserializeError).
Arguments IoErr {E} _.
Arguments PeerDisconnectedReadingHandshake {E}.
Arguments DeserializeHandshake {E} _.
Arguments BugReadBufMakeContiguous {E} _ _.
Arguments ReadBufFull {E} _.
Arguments PeerDisconnected {E}.
Arguments Deserialize {E} _.

(** [u16::try_from(n).unwrap_or(u16::MAX)]. *)
Definition saturate_u16 (n : nat) : Z := if Z.of_nat n <? U16 then Z.of_nat n else U16 - 1.

(** [&buf[a..b]]. *)
Definition slice (buf : list Z) (r : nat * nat) : list Z := take (r.2 - r.1) (drop r.1 buf).

(** Writing bytes into a buffer from [off] on. *)
Definition overwrite (buf : list Z) (off : nat) (bytes : list Z) : list Z :=
  take off buf ++ bytes ++ drop (off + length bytes) buf.

Definition readbuf_new : ReadBuf := mkReadBuf (replicate BUFLEN 0) 0 0.

Definition rb_advance (self : ReadBuf) (n : nat) : ReadBuf :=
  mkReadBuf (rb_buf self) ((rb_start self + n) mod BUFLEN) (rb_len self - n).

Definition as_slice_ranges (self : ReadBuf) : (nat * nat) * (nat * nat) :=
  let len := Nat.min (rb_len self) BUFLEN in
  let start := Nat.min (rb_start self) BUFLEN in
  let first_len := Nat.min len (BUFLEN - start) in
  ((start, start + first_len), (0, len - first_len))%nat.

Definition as_slices (self : ReadBuf) : list Z * list Z :=
  let r := as_slice_ranges self in (slice (rb_buf self) r.1, slice (rb_buf self) r.2).

Definition is_contiguous (self : ReadBuf) : bool :=
  (rb_start self + rb_len self =? (rb_start self + rb_len self) mod BUFLEN)%nat.

Definition is_full (self : ReadBuf) : bool := (rb_len self =? BUFLEN)%nat.

(** The two parts reads go to: where the first begins, and their lengths; the
    second begins at 0. *)
Definition unfilled_ioslices (self : ReadBuf) : nat * nat * nat :=
  let write_start := ((rb_start self + rb_len self) mod BUFLEN)%nat in
  let available_len := (BUFLEN - rb_len self)%nat in
  let first_len := Nat.min (BUFLEN - write_start) available_len in
  let second_len := (available_len - first_len)%nat in
  let first_len := Nat.min first_len (length (rb_buf self) - write_start) in
  let second_len := Nat.min second_len write_start in
  (write_start, first_len, second_len).

Section reading.
Context {E Ext : Type}.
Context (ext_deserialize : DoubleBuf -> result MessageDeserializeError Ext).

Definition make_contiguous (self : ReadBuf) : result (ReadError E) ReadBuf :=
  if is_contiguous self
  then Err (BugReadBufMakeContiguous (saturate_u16 (rb_start self)) (saturate_u16 (rb_len self)))
  else
    let s := as_slices self in
    let new := replicate BUFLEN 0 in
    let new := overwrite new 0 s.1 in
    let new := overwrite new (length s.1) s.2 in
    Ok (mkReadBuf new 0 (rb_len self)).

Definition Conn := list (result E (list Z)).

(** One read into [cap] bytes of space. *)
Definition conn_read (cap : nat) (c : Conn) : result E (list Z) * Conn :=
  match c with
  | [] => (Ok [], [])
  | Err e :: c => (Err e, c)
  | Ok s :: c =>
      (Ok (take cap s), if (length s <=? cap)%nat then c else Ok (drop cap s) :: c)
  end.

Definition read_handshake (self : ReadBuf) (c : Conn) :
    result (ReadError E) Handshake * ReadBuf * Conn :=
  match conn_read BUFLEN c with
  | (Err e, c) => (Err (IoErr e), self, c)
  | (Ok bytes, c) =>
      let self := mkReadBuf (overwrite (rb_buf self) 0 bytes) (rb_start self) (length bytes) in
      if (rb_len self =? 0)%nat then (Err PeerDisconnectedReadingHandshake, self, c)
      else
        match handshake_deserialize (slice (rb_buf self) (0, rb_len self)%nat) with
        | Err e => (Err (DeserializeHandshake e), self, c)
        | Ok (h, size) => (Ok h, rb_advance self size, c)
        end
  end.

(** A vectored read into the unfilled part. *)
Definition read_vectored (self : ReadBuf) (c : Conn) : result E (list Z) * ReadBuf * Conn :=
  let '(write_start, first_len, second_len) := unfilled_ioslices self in
  match conn_read (first_len + second_len) c with
  | (Err e, c) => (Err e, self, c)
  | (Ok bytes, c) =>
      let buf := overwrite (rb_buf self) write_start (take first_len bytes) in
      let buf := overwrite buf 0 (drop first_len bytes) in
      (Ok bytes, mkReadBuf buf (rb_start self) (rb_len self), c)
  end.

(** [while need_additional_bytes > 0]: every turn reads at least one byte. *)
Fixpoint read_more (fuel need_additional_bytes : nat) (self : ReadBuf) (c : Conn) :
    outcome (result (ReadError E) unit * ReadBuf * Conn) :=
  if (need_additional_bytes =? 0)%nat then Done (Ok tt, self, c)
  else
    match fuel with
    | O => Panic
    | S fuel =>
        if is_full self then Done (Err (ReadBufFull (saturate_u16 need_additional_bytes)), self, c)
        else
          match read_vectored self c with
          | (Err e, self, c) => Done (Err (IoErr e), self, c)
          | (Ok bytes, self, c) =>
              let size := length bytes in
              if (size =? 0)%nat then Done (Err PeerDisconnected, self, c)
              else
                let self := mkReadBuf (rb_buf self) (rb_start self) (rb_len self + size) in
                read_more fuel (need_additional_bytes - size) self c
          end
    end.

Fixpoint read_loop (fuel : nat) (self : ReadBuf) (c : Conn) :
    outcome (result (ReadError E) (Message Ext) * ReadBuf * Conn) :=
  match fuel with
  | O => Panic
  | S fuel =>
      let s := as_slices self in
      r ←! deserialize ext_deserialize s.1 s.2;
      match r with
      | Ok (msg, size) => Done (Ok msg, rb_advance self size, c)
      | Err (NotEnoughData need_additional_bytes _) =>
          m ←! read_more need_additional_bytes need_additional_bytes self c;
          match m with
          | (Ok _, self, c) => read_loop fuel self c
          | (Err e, self, c) => Done (Err e, self, c)
          end
      | Err NeedContiguous =>
          match make_contiguous self with
          | Ok self => read_loop fuel self c
          | Err e => Done (Err e, self, c)
          end
      | Err e => Done (Err (Deserialize e), self, c)
      end
  end.

(** Every turn of the loop but the last reads a byte, or makes the ring
    contiguous, after which it stays so. *)
Definition read_message (self : ReadBuf) (c : Conn) :
    outcome (result (ReadError E) (Message Ext) * ReadBuf * Conn) :=
  read_loop (BUFLEN + 3) self c.

(** Reading [n] messages, as the loop of the peer connection does. *)
Fixpoint read_messages (n : nat) (self : ReadBuf) (c : Conn) :
    outcome (result (ReadError E) (list (Message Ext)) * ReadBuf * Conn) :=
  match n with
  | O => Done (Ok [], self, c)
  | S n =>
      r ←! read_message self c;
      match r with
      | (Ok m, self, c) =>
          r ←! read_messages n self c;
          let '(l, self, c) := r in Done (l ←? l; Ok (m :: l), self, c)
      | (Err e, self, c) => Done (Err e, self, c)
      end
  end.
End reading.
Arguments Conn : clear implicits.

(** ** The contents of the ring *)

Record wf_readbuf (rb : ReadBuf) : Prop := {
  rb_size : length (rb_buf rb) = BUFLEN;
  rb_start_lt : (rb_start rb < BUFLEN)%nat;
  rb_len_le : (rb_len rb <= BUFLEN)%nat;
  rb_bytes : Forall is_u8 (rb_buf rb);
}.

(** The bytes read and not yet consumed. *)
Definition rb_content (rb : ReadBuf) : list Z := (as_slices rb).1 ++ (as_slices rb).2.

(** The bytes a connection gives before it fails or ends. *)
Fixpoint conn_data {E} (c : Conn E) : list Z :=
  match c with
  | Ok s :: c => match s with [] => [] | _ => s ++ conn_data c end
  | _ => []
  end.

Lemma BUFLEN_pos : (0 < BUFLEN)%nat.
Proof. unfold BUFLEN. lia. Qed.

Lemma BUFLEN_handshake : (68 <= BUFLEN)%nat.
Proof. unfold BUFLEN. lia. Qed.

Lemma BUFLEN_Z : Z.of_nat BUFLEN = 32768.
Proof. unfold BUFLEN. lia. Qed.
#[local] Opaque BUFLEN.

(** The whole ring from [start] on. *)
Definition ring (rb : ReadBuf) : list Z := drop (rb_start rb) (rb_buf rb) ++ take (rb_start rb) (rb_buf rb).

Lemma length_ring rb : length (ring rb) = length (rb_buf rb).
Proof. unfold ring. rewrite length_app, length_drop, length_take. lia. Qed.

Lemma as_slices_eq rb : wf_readbuf rb ->
  as_slices rb = (take (rb_len rb) (drop (rb_start rb) (rb_buf rb)),
                  take (rb_len rb - (BUFLEN - rb_start rb)) (rb_buf rb)).
Proof.
  intros [Hs Hst Hl _]. unfold as_slices, as_slice_ranges, slice. cbn [fst snd].
  rewrite (Nat.min_l (rb_len rb)), (Nat.min_l (rb_start rb)) by lia. rewrite drop_0. f_equal.
  - rewrite Nat.add_comm, Nat.add_sub. destruct (Nat.min_spec (rb_len rb) (BUFLEN - rb_start rb)) as [[_ ->]|[Hge ->]]; [done|].
    rewrite !take_ge; rewrite ?length_drop; [done|lia..].
  - f_equal. lia.
Qed.

Lemma rb_content_ring rb : wf_readbuf rb -> rb_content rb = take (rb_len rb) (ring rb).
Proof.
  intros Hwf. unfold rb_content. rewrite as_slices_eq by done. destruct Hwf as [Hs Hst Hl _]. cbn [fst snd].
  unfold ring. rewrite take_app, length_drop, Hs, take_take. do 2 f_equal. lia.
Qed.

Lemma length_rb_content rb : wf_readbuf rb -> length (rb_content rb) = rb_len rb.
Proof.
  intros Hwf. rewrite rb_content_ring, length_take, length_ring by done. destruct Hwf. lia.
Qed.

Lemma rb_content_bytes rb : wf_readbuf rb -> Forall is_u8 (rb_content rb).
Proof.
  intros Hwf. rewrite rb_content_ring by done. apply Forall_take. destruct Hwf as [_ _ _ Hb].
  unfold ring. apply Forall_app. split; [by apply Forall_drop|by apply Forall_take].
Qed.

(** ** Advancing *)

Lemma mod_step B s n : (s < B)%nat -> (n <= B)%nat ->
  ((s + n) mod B = if s + n <? B then s + n else s + n - B)%nat.
Proof.
  intros Hs Hn. destruct (Nat.ltb_spec (s + n) B); [by apply Nat.mod_small|].
  replace (s + n)%nat with (s + n - B + 1 * B)%nat at 1 by lia.
  rewrite Nat.Div0.mod_add. apply Nat.mod_small. lia.
Qed.

(** Advancing turns the ring. *)
Lemma ring_advance rb n : wf_readbuf rb -> (n <= BUFLEN)%nat ->
  ring (rb_advance rb n) = drop n (ring rb) ++ take n (ring rb).
Proof.
  intros [Hs Hst Hl _] Hn. unfold ring, rb_advance. cbn [rb_buf rb_start]. rewrite mod_step by lia.
  destruct (Nat.ltb_spec (rb_start rb + n) BUFLEN) as [Hlt|Hge].
  - rewrite drop_app_le, take_app_le by (len_lia). rewrite drop_drop, <- app_assoc. f_equal.
    rewrite <- (take_drop (rb_start rb) (take (rb_start rb + n) (rb_buf rb))).
    rewrite take_take, Nat.min_l by lia. f_equal. by rewrite take_drop_commute.
  - rewrite drop_app_ge, take_app_ge by (len_lia). rewrite length_drop, Hs.
    replace (n - (BUFLEN - rb_start rb))%nat with (rb_start rb + n - BUFLEN)%nat by lia.
    set (k := (rb_start rb + n - BUFLEN)%nat). rewrite app_assoc. rewrite take_take, Nat.min_l by lia. f_equal.
    rewrite <- (take_drop (rb_start rb - k) (drop k (rb_buf rb))). rewrite drop_drop. f_equal; [|f_equal; lia].
    rewrite take_drop_commute. do 2 f_equal. lia.
Qed.

Lemma rb_advance_spec rb n : wf_readbuf rb -> (n <= rb_len rb)%nat ->
  wf_readbuf (rb_advance rb n) /\ rb_content (rb_advance rb n) = drop n (rb_content rb).
Proof.
  intros Hwf Hn. assert (Hwf' : wf_readbuf (rb_advance rb n)).
  { destruct Hwf. split; simpl; [done| |lia|done]. apply Nat.mod_upper_bound. lia. }
  split; [done|]. rewrite !rb_content_ring, ring_advance by (done || destruct Hwf; lia).
  cbn [rb_advance rb_len]. pose proof (length_ring rb) as Hlr. destruct Hwf as [Hs Hst Hl _].
  rewrite take_app_le by (len_lia). rewrite take_drop_commute. do 2 f_equal. lia.
Qed.

(** ** Filling *)

Lemma length_overwrite buf off bytes : (off + length bytes <= length buf)%nat ->
  length (overwrite buf off bytes) = length buf.
Proof. intros. unfold overwrite. rewrite !length_app, length_take, length_drop. lia. Qed.

Lemma overwrite_bytes buf off bytes : Forall is_u8 buf -> Forall is_u8 bytes -> Forall is_u8 (overwrite buf off bytes).
Proof.
  intros Hb Hy. unfold overwrite. rewrite !Forall_app. split_and!; [by apply Forall_take|done|by apply Forall_drop].
Qed.

Lemma unfilled_eq rb : wf_readbuf rb ->
  exists w f s, unfilled_ioslices rb = (w, f, s) /\ (f + s = BUFLEN - rb_len rb)%nat /\
    if (rb_start rb + rb_len rb <? BUFLEN)%nat
    then (w = rb_start rb + rb_len rb /\ f = BUFLEN - w /\ s = rb_start rb)%nat
    else (w = rb_start rb + rb_len rb - BUFLEN /\ f = BUFLEN - rb_len rb /\ s = 0)%nat.
Proof.
  intros [Hs Hst Hl _]. unfold unfilled_ioslices. rewrite mod_step, Hs by lia.
  do 3 eexists. split; [reflexivity|].
  destruct (Nat.ltb_spec (rb_start rb + rb_len rb) BUFLEN); lia.
Qed.

(** The buffer after a vectored read. *)
Definition rb_fill (rb : ReadBuf) (bytes : list Z) : ReadBuf :=
  let '(w, f, _) := unfilled_ioslices rb in
  mkReadBuf (overwrite (overwrite (rb_buf rb) w (take f bytes)) 0 (drop f bytes)) (rb_start rb)
    (rb_len rb + length bytes).

Lemma take_app3 (a b c : list Z) n : n = (length a + length b)%nat -> take n (a ++ b ++ c) = a ++ b.
Proof. intros ->. rewrite app_assoc. apply take_app_exact. by rewrite length_app. Qed.

(** The unfilled part does not wrap around the content. *)
Lemma fill_upper (A C F bytes : list Z) : (length bytes <= length F + length A)%nat ->
  let b1 := take (length F) bytes in
  let buf := overwrite (overwrite (A ++ C ++ F) (length A + length C) b1) 0 (drop (length F) bytes) in
  exists r, drop (length A) buf ++ take (length A) buf = C ++ bytes ++ r.
Proof.
  intros Hn b1 buf. set (b2 := drop (length F) bytes).
  assert (H2 : (length b2 <= length A)%nat) by (unfold b2; len_lia).
  assert (Hbuf : buf = (b2 ++ drop (length b2) A) ++ C ++ b1 ++ drop (length b1) F).
  { unfold buf, overwrite. fold b2. rewrite take_0. cbn [app Nat.add]. rewrite <- (app_assoc b2). f_equal.
    rewrite (app_assoc A C F), take_app_exact by (by rewrite length_app).
    rewrite <- drop_drop, (drop_app_exact (A ++ C) F) by (by rewrite length_app).
    rewrite <- !app_assoc. by rewrite drop_app_le by done. }
  assert (Ha : length A = length (b2 ++ drop (length b2) A)) by (len_lia).
  rewrite Hbuf, drop_app_exact, take_app_exact by done.
  rewrite <- !app_assoc. destruct (decide (length bytes <= length F)%nat) as [Hle|Hgt].
  - assert (b2 = []) as -> by (by apply drop_ge). assert (b1 = bytes) as -> by (by apply take_ge).
    by eexists.
  - assert (Hb1 : length b1 = length F) by (unfold b1; len_lia).
    rewrite (drop_ge F) by lia. exists (drop (length b2) A). simpl.
    rewrite (app_assoc b1). f_equal. unfold b1, b2. by rewrite take_drop.
Qed.

(** The content wraps around the unfilled part. *)
Lemma fill_lower (C2 F C1 bytes : list Z) : (length bytes <= length F)%nat ->
  let buf := overwrite (overwrite (C2 ++ F ++ C1) (length C2) bytes) 0 [] in
  exists r, drop (length C2 + length F) buf ++ take (length C2 + length F) buf = (C1 ++ C2) ++ bytes ++ r.
Proof.
  intros Hn buf.
  assert (Hbuf : buf = (C2 ++ bytes ++ drop (length bytes) F) ++ C1).
  { unfold buf, overwrite. rewrite take_0. cbn [app Nat.add length]. rewrite drop_0, take_app_exact by done.
    rewrite <- drop_drop, drop_app_exact by done. rewrite drop_app_le by done. by rewrite <- !app_assoc. }
  assert (Hl : (length C2 + length F)%nat = length (C2 ++ bytes ++ drop (length bytes) F)).
  { len_lia. }
  rewrite Hbuf, drop_app_exact, take_app_exact by done. eexists. by rewrite <- !app_assoc.
Qed.

Lemma cut3 (l : list Z) i j : (i <= j)%nat -> l = take i l ++ take (j - i) (drop i l) ++ drop j l.
Proof.
  intros Hij. rewrite <- (take_drop i l) at 1. f_equal.
  rewrite <- (take_drop (j - i) (drop i l)) at 1. rewrite drop_drop. do 2 f_equal. lia.
Qed.

Lemma rb_fill_ring rb bytes : wf_readbuf rb -> (length bytes <= BUFLEN - rb_len rb)%nat ->
  exists r, ring (rb_fill rb bytes) = take (rb_len rb) (ring rb) ++ bytes ++ r.
Proof.
  intros Hwf Hn. unfold rb_fill. destruct (unfilled_eq rb Hwf) as (w & f & s & -> & _ & Hcase).
  unfold ring. cbn [rb_buf rb_start]. destruct Hwf as [Hs Hst Hl _].
  destruct (Nat.ltb_spec (rb_start rb + rb_len rb) BUFLEN) as [Hlt|Hge]; destruct Hcase as (Hw & Hf & _).
  - pose proof (cut3 (rb_buf rb) (rb_start rb) (rb_start rb + rb_len rb) ltac:(lia)) as Hcut.
    rewrite Nat.add_comm, Nat.add_sub, Nat.add_comm in Hcut.
    set (A := take (rb_start rb) (rb_buf rb)) in *. set (C := take (rb_len rb) (drop (rb_start rb) (rb_buf rb))) in *.
    set (F := drop (rb_start rb + rb_len rb) (rb_buf rb)) in *.
    assert (HA : length A = rb_start rb) by (unfold A; len_lia).
    assert (HC : length C = rb_len rb) by (unfold C; len_lia).
    assert (HF : length F = f) by (unfold F; len_lia).
    rewrite take_app_le by (len_lia). fold C.
    pose proof (fill_upper A C F bytes ltac:(lia)) as Hfill. cbn zeta in Hfill.
    by rewrite <- Hcut, HA, HC, HF, <- Hw in Hfill.
  - pose proof (cut3 (rb_buf rb) w (rb_start rb) ltac:(lia)) as Hcut.
    set (C2 := take w (rb_buf rb)) in *. set (F := take (rb_start rb - w) (drop w (rb_buf rb))) in *.
    set (C1 := drop (rb_start rb) (rb_buf rb)) in *.
    assert (H2 : length C2 = w) by (unfold C2; len_lia).
    assert (HF : length F = (rb_start rb - w)%nat) by (unfold F; len_lia).
    assert (H1 : length C1 = (BUFLEN - rb_start rb)%nat) by (unfold C1; len_lia).
    rewrite take_app_ge by lia. rewrite take_take.
    replace (Nat.min (rb_len rb - length C1) (rb_start rb)) with w by lia. fold C2.
    pose proof (fill_lower C2 F C1 bytes ltac:(lia)) as Hfill. cbn zeta in Hfill.
    rewrite <- Hcut, H2, HF in Hfill. replace (w + (rb_start rb - w))%nat with (rb_start rb) in Hfill by lia.
    by rewrite (take_ge bytes), (drop_ge bytes) by lia.
Qed.

Lemma rb_fill_spec rb bytes : wf_readbuf rb -> (length bytes <= BUFLEN - rb_len rb)%nat -> Forall is_u8 bytes ->
  wf_readbuf (rb_fill rb bytes) /\ rb_content (rb_fill rb bytes) = rb_content rb ++ bytes /\
  rb_len (rb_fill rb bytes) = (rb_len rb + length bytes)%nat.
Proof.
  intros Hwf Hn Hu. assert (Hlen : rb_len (rb_fill rb bytes) = (rb_len rb + length bytes)%nat).
  { unfold rb_fill. by destruct (unfilled_ioslices rb) as [[w f] s]. }
  assert (Hwf' : wf_readbuf (rb_fill rb bytes)).
  { pose proof (unfilled_eq rb Hwf) as (w & f & s & Hu' & Hfs & Hcase). unfold rb_fill in *. rewrite Hu' in *.
    pose proof (rb_size rb Hwf) as Hs. pose proof (rb_start_lt rb Hwf). pose proof (rb_len_le rb Hwf).
    assert (H1 : length (overwrite (rb_buf rb) w (take f bytes)) = BUFLEN).
    { rewrite length_overwrite; [done|]. rewrite length_take.
      destruct (_ <? _)%nat; lia. }
    split; cbn [rb_buf rb_start rb_len]; [|done|lia|].
    - rewrite length_overwrite; [done|]. rewrite H1, length_drop. destruct (_ <? _)%nat; lia.
    - apply overwrite_bytes; [|by apply Forall_drop]. apply overwrite_bytes; [apply Hwf|by apply Forall_take]. }
  split; [done|]. split; [|done]. rewrite !rb_content_ring by done.
  destruct (rb_fill_ring rb bytes Hwf Hn) as [r ->]. rewrite Hlen.
  rewrite take_app3; [done|]. rewrite length_take, length_ring. destruct Hwf. lia.
Qed.

(** ** Reading from the connection *)

Definition wf_conn {E} (c : Conn E) : Prop :=
  Forall (fun r => match r with Ok s => Forall is_u8 s | Err _ => True end) c.

Section reads.
Context {E Ext : Type}.
Context (ext_deserialize : DoubleBuf -> result MessageDeserializeError Ext).
Implicit Types (c : Conn E) (rb : ReadBuf) (m : Message Ext).

(** A read gives the next bytes of the stream; none, or an error, at its end. *)
Lemma conn_read_spec cap c : (0 < cap)%nat -> wf_conn c ->
  match conn_read cap c with
  | (Ok bytes, c') => wf_conn c' /\ Forall is_u8 bytes /\ (length bytes <= cap)%nat /\
      if (length bytes =? 0)%nat then conn_data c = [] else conn_data c = bytes ++ conn_data c'
  | (Err e, c') => wf_conn c' /\ conn_data c = []
  end.
Proof.
  intros Hcap Hwf. destruct c as [|[s|e] c]; cbn [conn_read].
  - by split_and!; [constructor|constructor|simpl; lia|].
  - inversion Hwf as [|? ? Hs Hc]; subst. destruct s as [|x s].
    { rewrite take_nil. cbn [length]. destruct (Nat.leb_spec 0 cap); [|lia].
      by split_and!; [|constructor|lia|]. }
    set (l := x :: s) in *. destruct (Nat.leb_spec (length l) cap).
    + rewrite take_ge by done. split_and!; [done..|]. done.
    + split_and!; [|by apply Forall_take|len_lia|].
      { constructor; [|done]. by apply Forall_drop. }
      rewrite length_take, Nat.min_l by lia. destruct (Nat.eqb_spec cap 0); [lia|].
      cbn [conn_data]. destruct (drop cap l) eqn:Ed.
      { apply (f_equal length) in Ed. rewrite length_drop in Ed. simpl in Ed. subst l. simpl in *. lia. }
      rewrite app_assoc, <- Ed, take_drop. done.
  - inversion Hwf; subst. done.
Qed.

(** A vectored read fills the ring with what [conn_read] gives. *)
Lemma read_vectored_spec rb c : wf_readbuf rb ->
  match read_vectored rb c with
  | (Ok bytes, rb', c') => conn_read (BUFLEN - rb_len rb) c = (Ok bytes, c') /\
      mkReadBuf (rb_buf rb') (rb_start rb') (rb_len rb' + length bytes) = rb_fill rb bytes
  | (Err e, rb', c') => conn_read (BUFLEN - rb_len rb) c = (Err e, c') /\ rb' = rb
  end.
Proof.
  intros Hwf. unfold read_vectored, rb_fill. destruct (unfilled_eq rb Hwf) as (w & f & s & -> & <- & _).
  by destruct (conn_read (f + s) c) as [[bytes|e] c'].
Qed.

(** [rb'] is [rb] after reading [bytes]. *)
Definition got rb bytes rb' : Prop :=
  wf_readbuf rb' /\ rb_content rb' = rb_content rb ++ bytes /\ rb_start rb' = rb_start rb.

Lemma got_len rb bytes rb' : wf_readbuf rb -> got rb bytes rb' -> rb_len rb' = (rb_len rb + length bytes)%nat.
Proof.
  intros Hwf (Hwf' & Hc & _). apply (f_equal length) in Hc. by rewrite length_app, !length_rb_content in Hc.
Qed.

Lemma got_trans rb b1 rb1 b2 rb2 : got rb b1 rb1 -> got rb1 b2 rb2 -> got rb (b1 ++ b2) rb2.
Proof. intros (? & H1 & ?) (? & H2 & ?). split; [done|]. rewrite H2, H1, app_assoc. split; [done|congruence]. Qed.

Lemma rb_fill_got rb bytes : wf_readbuf rb -> (length bytes <= BUFLEN - rb_len rb)%nat -> Forall is_u8 bytes ->
  got rb bytes (rb_fill rb bytes).
Proof.
  intros Hwf Hn Hu. destruct (rb_fill_spec rb bytes Hwf Hn Hu) as (? & ? & _). split; [done|]. split; [done|].
  unfold rb_fill. by destruct (unfilled_ioslices rb) as [[w f] s].
Qed.

(** [read_more] reads at least what is needed, or stops because the buffer is
    full, the connection fails, or it ends. *)
Definition read_more_post (need : nat) rb c (o : result (ReadError E) unit * ReadBuf * Conn E) : Prop :=
  let '(r, rb', c') := o in
  wf_conn c' /\ exists bytes, got rb bytes rb' /\
  match r with
  | Ok _ => conn_data c = bytes ++ conn_data c' /\ (need <= length bytes)%nat
  | Err (ReadBufFull _) =>
      conn_data c = bytes ++ conn_data c' /\ (length bytes < need)%nat /\ rb_len rb' = BUFLEN
  | Err (IoErr _) | Err PeerDisconnected =>
      conn_data c = bytes /\ (length bytes < need)%nat /\ (rb_len rb' < BUFLEN)%nat
  | Err _ => False
  end.

Lemma got_nil rb : wf_readbuf rb -> got rb [] rb.
Proof. intros Hwf. split; [done|]. by rewrite app_nil_r. Qed.

Lemma read_more_spec fuel need rb c : (need <= fuel)%nat -> wf_readbuf rb -> wf_conn c ->
  exists o, read_more fuel need rb c = Done o /\ read_more_post need rb c o.
Proof.
  revert need rb c. induction fuel as [|fuel IH]; intros need rb c Hf Hwf Hwc.
  { assert (need = 0%nat) as -> by lia. eexists. split; [done|]. split; [done|]. exists [].
    split; [by apply got_nil|]. simpl. split; [done|lia]. }
  cbn [read_more]. destruct (Nat.eqb_spec need 0) as [->|Hneed].
  { eexists. split; [done|]. split; [done|]. exists []. split; [by apply got_nil|]. simpl. split; [done|lia]. }
  unfold is_full. destruct (Nat.eqb_spec (rb_len rb) BUFLEN) as [Hfull|Hroom].
  { eexists. split; [done|]. split; [done|]. exists []. split; [by apply got_nil|]. simpl. split_and!; [done|lia|done]. }
  pose proof (rb_len_le rb Hwf) as Hle. pose proof (read_vectored_spec rb c Hwf) as Hrv.
  pose proof (conn_read_spec (BUFLEN - rb_len rb) c ltac:(lia) Hwc) as Hcr.
  destruct (read_vectored rb c) as [[[bytes|e] rb1] c1]; destruct Hrv as [Hrd Hfill]; rewrite Hrd in Hcr.
  2: { subst rb1. destruct Hcr as [Hwc1 Hd]. eexists. split; [done|]. split; [done|]. exists [].
       split; [by apply got_nil|]. simpl. split; [done|]. lia. }
  destruct Hcr as (Hwc1 & Hu & Hlb & Hd). pose proof (rb_fill_got rb bytes Hwf Hlb Hu) as Hgot.
  destruct (Nat.eqb_spec (length bytes) 0) as [H0|H0].
  - apply length_zero_iff_nil in H0 as ->. rewrite <- Hfill in Hgot. simpl in Hgot. rewrite Nat.add_0_r in Hgot.
    destruct rb1 as [buf1 start1 len1]. cbn [rb_buf rb_start rb_len] in Hgot.
    pose proof (got_len _ _ _ Hwf Hgot) as Hl1. cbn [rb_len length] in Hl1.
    eexists. split; [done|]. split; [done|]. exists []. split; [done|]. simpl. split; [done|]. lia.
  - rewrite Hfill. destruct (IH (need - length bytes)%nat (rb_fill rb bytes) c1) as (o & Ho & Hpost);
      [lia|apply Hgot|done|]. exists o. split; [done|]. clear Ho.
    destruct o as [[r rb'] c']. destruct Hpost as (Hwc' & bytes' & Hgot' & Hr). split; [done|].
    exists (bytes ++ bytes'). split; [by eapply got_trans|]. rewrite Hd, length_app.
    destruct r as [[]|[]]; try done; destruct Hr as [Hr Hr']; rewrite Hr, <- ?app_assoc.
    + split; [done|lia].
    + destruct Hr' as [? ?]. split_and!; [done|lia|done].
    + destruct Hr' as [? ?]. split_and!; [done|lia|done].
    + destruct Hr' as [? ?]. split_and!; [done|lia|done].
Qed.

(** ** Parsing from the ring *)

Lemma make_contiguous_spec rb : wf_readbuf rb -> is_contiguous rb = false ->
  exists rb', make_contiguous (E := E) rb = Ok rb' /\ wf_readbuf rb' /\ rb_content rb' = rb_content rb /\
    rb_start rb' = 0%nat /\ rb_len rb' = rb_len rb.
Proof.
  intros Hwf Hc. unfold make_contiguous. rewrite Hc. eexists. split; [done|].
  pose proof (length_rb_content rb Hwf) as Hlen. pose proof (rb_content_bytes rb Hwf) as Hu.
  unfold rb_content in Hlen, Hu |- *. destruct (as_slices rb) as [s1 s2]. cbn [fst snd] in *.
  rewrite length_app in Hlen. pose proof (rb_len_le rb Hwf) as Hle.
  assert (Hz : length (replicate BUFLEN 0) = BUFLEN) by apply length_replicate.
  assert (Hb : overwrite (overwrite (replicate BUFLEN 0) 0 s1) (length s1) s2 =
    (s1 ++ s2) ++ drop (length s1 + length s2) (replicate BUFLEN 0)).
  { unfold overwrite. rewrite take_0. cbn [app Nat.add]. rewrite take_app_exact by done.
    rewrite <- drop_drop, drop_app_exact, drop_drop by done. by rewrite app_assoc. }
  rewrite Hb. clear Hb.
  assert (Hwf' : wf_readbuf (mkReadBuf ((s1 ++ s2) ++ drop (length s1 + length s2) (replicate BUFLEN 0)) 0 (rb_len rb))).
  { split; cbn [rb_buf rb_start rb_len]; [|pose proof BUFLEN_pos; lia|done|].
    - len_lia.
    - apply Forall_app. split; [done|]. apply Forall_drop, Forall_replicate. unfold is_u8. lia. }
  clear Hz. split; [exact Hwf'|]. split; [|split; reflexivity]. rewrite as_slices_eq by exact Hwf'.
  cbn [fst snd rb_buf rb_start rb_len].
  rewrite drop_0, Nat.sub_0_r. replace (rb_len rb - BUFLEN)%nat with 0%nat by lia.
  rewrite take_0, app_nil_r. apply take_app_exact. rewrite length_app. lia.
Qed.

Lemma slices_contiguous rb : wf_readbuf rb -> (as_slices rb).2 <> [] -> is_contiguous rb = false.
Proof.
  intros Hwf. rewrite as_slices_eq by done. destruct Hwf as [Hs Hst Hl _]. cbn [snd]. intros Hne.
  unfold is_contiguous. rewrite mod_step by done.
  destruct (Nat.ltb_spec (rb_start rb + rb_len rb) BUFLEN) as [Hlt|Hge].
  - replace (rb_len rb - (BUFLEN - rb_start rb))%nat with 0%nat in Hne by lia. by rewrite take_0 in Hne.
  - apply Nat.eqb_neq. lia.
Qed.

Lemma slices_at_zero rb : wf_readbuf rb -> rb_start rb = 0%nat -> as_slices rb = (rb_content rb, []).
Proof.
  intros Hwf H0. unfold rb_content. rewrite as_slices_eq by done. rewrite H0, Nat.sub_0_r. cbn [fst snd].
  replace (rb_len rb - BUFLEN)%nat with 0%nat by (destruct Hwf; lia). by rewrite take_0, app_nil_r.
Qed.

(** A whole message in the ring is parsed in at most two turns. *)
Lemma read_loop_parse fuel m rest rb c : wf_readbuf rb -> not_extended m -> wf_message m ->
  rb_content rb = encode m ++ rest ->
  exists m' rb', read_loop (E := E) ext_deserialize (S (S fuel)) rb c = Done (Ok m', rb', c) /\
    same_message m m' /\ wf_readbuf rb' /\ rb_content rb' = rest.
Proof.
  intros Hwf Hne Hwm Hc.
  assert (Hdone : forall rb, wf_readbuf rb -> rb_content rb = encode m ++ rest ->
    wf_readbuf (rb_advance rb (length (encode m))) /\ rb_content (rb_advance rb (length (encode m))) = rest).
  { clear rb Hwf Hc. intros rb Hwf Hc. pose proof (length_rb_content rb Hwf) as Hl. rewrite Hc, length_app in Hl.
    destruct (rb_advance_spec rb (length (encode m)) Hwf) as [Hwf' Hc']; [lia|]. split; [done|].
    by rewrite Hc', Hc, drop_app_exact by done. }
  cbn [read_loop].
  destruct (deserialize_encoded ext_deserialize m (as_slices rb).1 (as_slices rb).2 rest Hne Hwm Hc)
    as [(m' & -> & Hsm)|(-> & Hl & _)]; rsimpl.
  - exists m', (rb_advance rb (length (encode m))). destruct (Hdone rb Hwf Hc). done.
  - assert (Hsplit : is_contiguous rb = false).
    { apply slices_contiguous; [done|]. intros E0. unfold rb_content in Hc. rewrite E0, app_nil_r in Hc.
      rewrite Hc, length_app in Hl. lia. }
    destruct (make_contiguous_spec rb Hwf Hsplit) as (rb1 & -> & Hwf1 & Hc1 & H0 & _).
    rewrite Hc in Hc1. rewrite slices_at_zero by done. cbn [fst snd].
    destruct (deserialize_encoded ext_deserialize m (rb_content rb1) [] rest Hne Hwm)
      as [(m' & -> & Hsm)|(_ & Hl1 & _)]; rsimpl.
    + by rewrite app_nil_r.
    + exists m', (rb_advance rb1 (length (encode m))). destruct (Hdone rb1 Hwf1 Hc1). done.
    + rewrite Hc1, length_app in Hl1. lia.
Qed.

(** If what is missing fits the ring and is in the stream, it is read. *)
Lemma read_more_enough need rb c : wf_readbuf rb -> wf_conn c ->
  (rb_len rb + need <= BUFLEN)%nat -> (need <= length (conn_data c))%nat ->
  exists rb' c' bytes, read_more need need rb c = Done (Ok tt, rb', c') /\ wf_conn c' /\
    got rb bytes rb' /\ conn_data c = bytes ++ conn_data c' /\ (need <= length bytes)%nat.
Proof.
  intros Hwf Hwc Hroom Hdata. destruct (read_more_spec need need rb c) as (o & Ho & Hpost); [lia|done|done|].
  destruct o as [[r rb'] c']. destruct Hpost as (Hwc' & bytes & Hgot & Hr).
  pose proof (got_len _ _ _ Hwf Hgot) as Hlen.
  destruct r as [[]|[]]; try done.
  - destruct Hr as [Hd Hn]. by exists rb', c', bytes.
  - destruct Hr as [Hd ?]. rewrite Hd in Hdata. lia.
  - destruct Hr as (_ & ? & ?). lia.
  - destruct Hr as [Hd ?]. rewrite Hd in Hdata. lia.
Qed.

Lemma announced_prefix m r : wf_message m ->
  (4 + Z.to_nat (to_Z (take 4 (encode m ++ r))))%nat = length (encode m) /\ (4 <= length (encode m))%nat.
Proof.
  intros Hwf. unfold encode. destruct (frame m) as [[msg_id payload]|] eqn:Ef.
  - pose proof (frame_length m _ _ Hwf Ef). rewrite <- app_assoc, take_app_exact by (by rewrite length_be_bytes).
    rewrite be_u32 by (unfold is_u32; lia). rewrite length_app, length_be_bytes. simpl. lia.
  - rewrite take_app_exact by (by rewrite length_be_bytes). by rewrite length_be_bytes.
Qed.

(** A message was read off the stream. *)
Definition message_read m rest (o : outcome (result (ReadError E) (Message Ext) * ReadBuf * Conn E)) : Prop :=
  exists m' rb' c', o = Done (Ok m', rb', c') /\ same_message m m' /\ wf_readbuf rb' /\ wf_conn c' /\
    rb_content rb' ++ conn_data c' = rest.

Lemma read_loop_more fuel rb c need o rb' c' :
  deserialize ext_deserialize (as_slices rb).1 (as_slices rb).2 = Done (Err (NotEnoughData need o)) ->
  read_more need need rb c = Done (Ok tt, rb', c') ->
  read_loop ext_deserialize (S fuel) rb c = read_loop (E := E) ext_deserialize fuel rb' c'.
Proof. intros Hd Hm. cbn [read_loop]. rewrite Hd. rsimpl. by rewrite Hm. Qed.

Lemma read_loop_complete fuel m rest rb c : wf_readbuf rb -> wf_conn c -> not_extended m -> wf_message m ->
  rb_content rb ++ conn_data c = encode m ++ rest -> (length (encode m) <= rb_len rb)%nat ->
  message_read m rest (read_loop ext_deserialize (S (S fuel)) rb c).
Proof.
  intros Hwf Hwc Hne Hwm Hst Hl. rewrite <- (length_rb_content rb Hwf) in Hl.
  assert (Hc : rb_content rb = encode m ++ drop (length (encode m)) (rb_content rb)).
  { rewrite <- (take_drop (length (encode m)) (rb_content rb)) at 1. f_equal.
    apply (f_equal (take (length (encode m)))) in Hst. by rewrite take_app_le, take_app_exact in Hst. }
  destruct (read_loop_parse fuel m _ rb c Hwf Hne Hwm Hc) as (m' & rb' & -> & Hsm & Hwf' & Hc').
  exists m', rb', c. split_and!; [done..|]. rewrite Hc'.
  apply (f_equal (drop (length (encode m)))) in Hst. by rewrite drop_app_le, drop_app_exact in Hst.
Qed.

(** The first word is there: one more read at most. *)
Lemma read_loop_body fuel m rest rb c : wf_readbuf rb -> wf_conn c -> not_extended m -> wf_message m ->
  (length (encode m) <= BUFLEN)%nat -> rb_content rb ++ conn_data c = encode m ++ rest -> (4 <= rb_len rb)%nat ->
  message_read m rest (read_loop ext_deserialize (S (S (S fuel))) rb c).
Proof.
  intros Hwf Hwc Hne Hwm Hfit Hst H4. destruct (decide (length (encode m) <= rb_len rb)%nat) as [Hall|Hpart].
  { by apply read_loop_complete. }
  pose proof (deserialize_cases ext_deserialize (as_slices rb).1 (as_slices rb).2 (rb_content_bytes rb Hwf)) as Hdes.
  cbn zeta in Hdes. fold (rb_content rb) in Hdes. rewrite (length_rb_content rb Hwf) in Hdes.
  destruct (Nat.ltb_spec (rb_len rb) 4); [lia|].
  assert (Htake : take 4 (rb_content rb) = take 4 (encode m ++ rest)).
  { by rewrite <- Hst, take_app_le by (rewrite length_rb_content; done). }
  rewrite Htake, (proj1 (announced_prefix m rest Hwm)) in Hdes.
  destruct (Nat.ltb_spec (rb_len rb) (length (encode m))); [|lia]. destruct Hdes as [o Hdes].
  pose proof (f_equal length Hst) as Hls. rewrite !length_app, length_rb_content in Hls by done.
  destruct (read_more_enough (length (encode m) - rb_len rb) rb c) as (rb' & c' & bytes & Hmore & Hwc' & Hgot & Hd & Hn);
    [done|done|lia|lia|].
  rewrite (read_loop_more _ _ _ _ _ _ _ Hdes Hmore). pose proof (got_len _ _ _ Hwf Hgot).
  apply read_loop_complete; [apply Hgot|done|done|done| |lia].
  destruct Hgot as (_ & -> & _). by rewrite <- app_assoc, <- Hd.
Qed.

Lemma read_loop_message fuel m rest rb c : wf_readbuf rb -> wf_conn c -> not_extended m -> wf_message m ->
  (length (encode m) <= BUFLEN)%nat -> rb_content rb ++ conn_data c = encode m ++ rest ->
  message_read m rest (read_loop ext_deserialize (S (S (S (S fuel)))) rb c).
Proof.
  intros Hwf Hwc Hne Hwm Hfit Hst. destruct (decide (4 <= rb_len rb)%nat) as [H4|H4].
  { by apply read_loop_body. }
  pose proof (deserialize_cases ext_deserialize (as_slices rb).1 (as_slices rb).2 (rb_content_bytes rb Hwf)) as Hdes.
  cbn zeta in Hdes. fold (rb_content rb) in Hdes. rewrite (length_rb_content rb Hwf) in Hdes.
  destruct (Nat.ltb_spec (rb_len rb) 4); [|lia].
  pose proof (proj2 (announced_prefix m rest Hwm)) as Hmin.
  pose proof (f_equal length Hst) as Hls. rewrite !length_app, length_rb_content in Hls by done.
  destruct (read_more_enough (4 - rb_len rb) rb c) as (rb' & c' & bytes & Hmore & Hwc' & Hgot & Hd & Hn);
    [done|done|lia|lia|].
  rewrite (read_loop_more _ _ _ _ _ _ _ Hdes Hmore). pose proof (got_len _ _ _ Hwf Hgot).
  apply read_loop_body; [apply Hgot|done|done|done|done| |lia].
  destruct Hgot as (_ & -> & _). by rewrite <- app_assoc, <- Hd.
Qed.

Lemma read_message_spec m rest rb c : wf_readbuf rb -> wf_conn c -> not_extended m -> wf_message m ->
  (length (encode m) <= BUFLEN)%nat -> rb_content rb ++ conn_data c = encode m ++ rest ->
  message_read m rest (read_message ext_deserialize rb c).
Proof.
  intros. unfold read_message. replace (BUFLEN + 3)%nat with (S (S (S (S (BUFLEN - 1))))) by (pose proof BUFLEN_pos; lia).
  by apply read_loop_message.
Qed.


(** ** Every input *)

(** The errors that make [read_message] go on, of a parser of bytes split so
    that the second part is [second]: it asks for at least one byte, and for
    contiguous data only if there is a second part. *)
Definition error_ok (second : list Z) (e : MessageDeserializeError) : Prop :=
  match e with
  | NotEnoughData k _ => (0 < k)%nat
  | NeedContiguous => second <> []
  | _ => True
  end.

(** What [ExtendedMessage::deserialize] does when it fails. *)
Definition ext_errors_ok : Prop := forall b e, ext_deserialize b = Err e -> error_ok (buf_1 b) e.

Lemma payload_error lp msg_id msg_len total b e : ext_errors_ok -> (msg_len <= len b)%nat ->
  deserialize_payload ext_deserialize lp msg_id msg_len total b = Done (Err e) -> error_ok (buf_1 b) e.
Proof.
  intros Hext Hl. unfold deserialize_payload.
  repeat case_match; intros; simplify_eq; try done.
  - match goal with H : get_contiguous _ _ = None |- _ => revert H end.
    unfold get_contiguous, len in *. destruct (Nat.leb_spec msg_len (length (buf_0 b))); [done|].
    intros _. simpl. intros Hn. rewrite Hn in Hl. simpl in Hl. lia.
  - match goal with H : ext_deserialize _ = Err _ |- _ => apply Hext in H; revert H end.
    destruct e; simpl; try done. intros Hne Hn. rewrite Hn, take_nil in Hne. done.
Qed.

Lemma deserialize_error first second e : ext_errors_ok -> Forall is_u8 (first ++ second) ->
  deserialize ext_deserialize first second = Done (Err e) -> error_ok second e.
Proof.
  intros Hext Hu. unfold deserialize. pose proof (read_u32_be_spec (mkDoubleBuf first second)) as H4.
  destruct (read_u32_be _) as [[lp b1]|k].
  2: { intros [= <-]. simpl. lia. }
  destruct H4 as (Hl4 & Hlp & Hr1 & Hb1). cbn [buf_0] in Hb1. unfold content in Hlp, Hr1. cbn [buf_0 buf_1] in Hlp, Hr1.
  assert (0 <= lp).
  { rewrite Hlp. unfold len in Hl4. simpl in Hl4.
    apply (to_Z_bound 4). split; [len_lia|]. by apply Forall_take. }
  destruct (Z.eqb_spec lp 0); [done|]. pose proof (read_u8_spec b1) as H1.
  destruct (read_u8 b1) as [[msg_id b2]|].
  2: { intros [= <-]. simpl. lia. }
  destruct H1 as (_ & Hr2 & Hb2). destruct (Nat.ltb_spec (len b2) (Z.to_nat lp - 1)) as [Hlt|Hge].
  { intros [= <-]. simpl. lia. }
  intros He%payload_error; [|done|done]. destruct e; try done. simpl in *. intros ->. apply He.
  rewrite app_nil_r in Hr1. unfold content in Hr2. rewrite Hr1, Hb2, Hb1 in Hr2.
  rewrite <- (app_nil_r (drop 1 (drop 4 first))) in Hr2 at 2. by apply (app_inv_head) in Hr2.
Qed.

(** How many turns [read_message] can take. *)
Definition turns rb : nat := (BUFLEN - rb_len rb) + (if (rb_start rb =? 0)%nat then 1 else 2).

Definition safe_result (o : result (ReadError E) (Message Ext) * ReadBuf * Conn E) : Prop :=
  let '(r, rb', c') := o in wf_readbuf rb' /\ wf_conn c' /\ forall s l, r <> Err (BugReadBufMakeContiguous s l).

Lemma read_loop_returns fuel rb c : ext_errors_ok -> wf_readbuf rb -> wf_conn c -> (turns rb <= fuel)%nat ->
  exists o, read_loop ext_deserialize fuel rb c = Done o /\ safe_result o.
Proof.
  intros Hext. revert rb c. induction fuel as [|fuel IH]; intros rb c Hwf Hwc Hf.
  { unfold turns in Hf. destruct (_ =? _)%nat; lia. }
  cbn [read_loop]. pose proof (rb_content_bytes rb Hwf) as Hu.
  pose proof (deserialize_cases ext_deserialize _ _ Hu) as Hcases. cbn zeta in Hcases.
  fold (rb_content rb) in Hcases. rewrite (length_rb_content rb Hwf) in Hcases.
  destruct (deserialize ext_deserialize (as_slices rb).1 (as_slices rb).2) as [[[m n]|e]|] eqn:Hdes; rsimpl.
  - eexists. split; [done|]. destruct (Nat.ltb_spec (rb_len rb) 4); [done|].
    destruct (Nat.ltb_spec (rb_len rb) (4 + Z.to_nat (to_Z (take 4 (rb_content rb))))); [by destruct Hcases|].
    destruct Hcases as (r & [= <-] & Hn). rewrite (Hn m n eq_refl).
    split; [|done]. apply rb_advance_spec; [done|lia].
  - apply deserialize_error in Hdes; [|done|done]. destruct e; try (by eexists). 
    + simpl in Hdes. destruct (read_more_spec missing missing rb c) as (o & -> & Hpost); [lia|done|done|]. rsimpl.
      destruct o as [[[[]|e] rb'] c']; destruct Hpost as (Hwc' & bytes & Hgot & Hr).
      * apply IH; [apply Hgot|done|]. pose proof (got_len _ _ _ Hwf Hgot) as Hlen.
        destruct Hgot as (Hwf' & _ & Hs). pose proof (rb_len_le _ Hwf'). unfold turns in *. rewrite Hs. destruct (_ =? _)%nat; lia.
      * eexists. split; [done|]. split; [apply Hgot|]. split; [done|]. intros s l [= ->]. done.
    + destruct (make_contiguous_spec rb Hwf) as (rb1 & -> & Hwf1 & _ & H0 & Hl1); [by apply slices_contiguous|].
      apply IH; [done|done|]. unfold turns in *. rewrite H0, Hl1. simpl.
      destruct (Nat.eqb_spec (rb_start rb) 0) as [Hz|]; [|lia].
      exfalso. apply Hdes. by rewrite slices_at_zero.
  - destruct (_ <? 4)%nat; [done|]. destruct (_ <? _)%nat; [by destruct Hcases|]. by destruct Hcases as (? & ? & _).
Qed.

(** On any bytes and any failures of the connection, [read_message]
    returns: it does not panic, does not loop for ever, keeps the ring well
    formed, and never asks for contiguous data of a contiguous ring (the
    [BugReadBufMakeContiguous] error). *)
Theorem read_message_total rb c : ext_errors_ok -> wf_readbuf rb -> wf_conn c ->
  exists o, read_message ext_deserialize rb c = Done o /\ safe_result o.
Proof.
  intros. apply read_loop_returns; [done..|]. unfold turns. destruct (_ =? _)%nat; lia.
Qed.

(** ** Messages longer than the buffer *)

Lemma read_loop_long fuel rb c : wf_readbuf rb -> wf_conn c -> (4 <= rb_len rb)%nat ->
  (BUFLEN <= rb_len rb + length (conn_data c))%nat ->
  (BUFLEN < 4 + Z.to_nat (to_Z (take 4 (rb_content rb))))%nat ->
  exists k rb' c', read_loop ext_deserialize (S fuel) rb c = Done (Err (ReadBufFull k), rb', c').
Proof.
  intros Hwf Hwc H4 Hdata Hlong. cbn [read_loop].
  pose proof (deserialize_cases ext_deserialize _ _ (rb_content_bytes rb Hwf)) as Hdes.
  cbn zeta in Hdes. fold (rb_content rb) in Hdes. rewrite (length_rb_content rb Hwf) in Hdes.
  set (announced := (4 + Z.to_nat (to_Z (take 4 (rb_content rb))))%nat) in *. pose proof (rb_len_le rb Hwf).
  destruct (Nat.ltb_spec (rb_len rb) 4); [lia|].
  destruct (Nat.ltb_spec (rb_len rb) announced); [|lia]. destruct Hdes as [o ->]. rsimpl.
  destruct (read_more_spec (announced - rb_len rb) (announced - rb_len rb) rb c) as (r & -> & Hpost);
    [lia|done|done|]. rsimpl.
  destruct r as [[r rb'] c']. destruct Hpost as (_ & bytes & Hgot & Hr).
  pose proof (got_len _ _ _ Hwf Hgot) as Hlen. pose proof (rb_len_le _ (proj1 Hgot)).
  destruct r as [[]|[]]; try done.
  - lia.
  - destruct Hr as (Hd & _ & ?). rewrite Hd in Hdata. lia.
  - by do 3 eexists.
  - destruct Hr as (Hd & _ & ?). rewrite Hd in Hdata. lia.
Qed.

(** A message that announces more than the buffer holds is refused with
    [ReadBufFull] once the buffer is full, whatever its kind and wherever the
    ring stands (so a bitfield of more than 262,104 pieces is refused). *)
Theorem long_message_refused rb c : wf_readbuf rb -> wf_conn c ->
  (BUFLEN <= length (rb_content rb ++ conn_data c))%nat ->
  (BUFLEN < 4 + Z.to_nat (to_Z (take 4 (rb_content rb ++ conn_data c))))%nat ->
  exists k rb' c', read_message ext_deserialize rb c = Done (Err (ReadBufFull k), rb', c').
Proof.
  intros Hwf Hwc Hdata Hlong. unfold read_message. pose proof BUFLEN_handshake.
  replace (BUFLEN + 3)%nat with (S (S (BUFLEN + 1))) by lia.
  rewrite length_app, length_rb_content in Hdata by done. destruct (decide (4 <= rb_len rb)%nat) as [H4|H4].
  { rewrite take_app_le in Hlong by (rewrite length_rb_content; done). by apply read_loop_long. }
  pose proof (deserialize_cases ext_deserialize _ _ (rb_content_bytes rb Hwf)) as Hdes.
  cbn zeta in Hdes. fold (rb_content rb) in Hdes. rewrite (length_rb_content rb Hwf) in Hdes.
  destruct (Nat.ltb_spec (rb_len rb) 4); [|lia].
  destruct (read_more_enough (4 - rb_len rb) rb c) as (rb' & c' & bytes & Hmore & Hwc' & Hgot & Hd & Hn);
    [done|done|lia|lia|].
  rewrite (read_loop_more _ _ _ _ _ _ _ Hdes Hmore). pose proof (got_len _ _ _ Hwf Hgot) as Hlen.
  apply (f_equal length) in Hd as Hld. rewrite length_app in Hld.
  apply read_loop_long; [apply Hgot|done|lia|lia|].
  destruct Hgot as (_ & -> & _). rewrite Hd, app_assoc in Hlong.
  by rewrite take_app_le in Hlong by (rewrite length_app, length_rb_content by done; lia).
Qed.

(** ** The handshake *)

Lemma readbuf_new_wf : wf_readbuf readbuf_new.
Proof.
  split; cbn [readbuf_new rb_buf rb_start rb_len]; [apply length_replicate|apply BUFLEN_pos|lia|].
  apply Forall_replicate. unfold is_u8. lia.
Qed.

Lemma rb_content_new : rb_content readbuf_new = [].
Proof. apply length_zero_iff_nil. by rewrite length_rb_content by apply readbuf_new_wf. Qed.

(** The bytes of the first read of a new buffer. *)
Lemma first_read_wf bytes : Forall is_u8 bytes -> (length bytes <= BUFLEN)%nat ->
  let rb := mkReadBuf (overwrite (rb_buf readbuf_new) 0 bytes) 0 (length bytes) in
  wf_readbuf rb /\ slice (rb_buf rb) (0, rb_len rb)%nat = bytes /\ rb_content rb = bytes.
Proof.
  intros Hu Hl rb. pose proof readbuf_new_wf as [Hs _ _ Hb].
  assert (Hsl : slice (rb_buf rb) (0, rb_len rb)%nat = bytes).
  { unfold slice, rb, overwrite. cbn [fst snd rb_buf rb_len]. rewrite drop_0, take_0, Nat.sub_0_r.
    cbn [app]. by apply take_app_exact. }
  assert (Hwf : wf_readbuf rb).
  { split; unfold rb; cbn [rb_buf rb_start rb_len]; [|apply BUFLEN_pos|done|by apply overwrite_bytes].
    rewrite length_overwrite; [done|]. rewrite Hs. done. }
  split; [done|]. split; [done|]. unfold rb_content. rewrite as_slices_eq by done.
  unfold slice, rb in *. cbn [fst snd rb_buf rb_start rb_len] in *. rewrite drop_0, Nat.sub_0_r in *.
  replace (length bytes - BUFLEN)%nat with 0%nat by lia. by rewrite take_0, app_nil_r.
Qed.

(** When the first read brings the whole handshake, it is returned and
    what follows it stays in the stream; when the first read brings only a
    part of it, [read_handshake] fails, although the rest is on its way. *)
Theorem read_handshake_spec h (s : list Z) c : wf_handshake h -> Forall is_u8 s -> wf_conn c -> s <> [] ->
  (exists r, s ++ conn_data c = encode_handshake h ++ r) ->
  exists o rb' c', read_handshake readbuf_new (Ok s :: c) = (o, rb', c') /\ wf_readbuf rb' /\ wf_conn c' /\
  if (68 <=? length s)%nat
  then o = Ok h /\ rb_content rb' ++ conn_data c' = drop 68 (s ++ conn_data c)
  else o = Err (DeserializeHandshake (NotEnoughData (68 - length s) None)).
Proof.
  intros Hh Hs Hwc Hne [r Hr]. pose proof (length_encode_handshake h Hh) as Hlen. pose proof BUFLEN_handshake as H68.
  unfold read_handshake.
  pose proof (conn_read_spec BUFLEN (Ok s :: c) BUFLEN_pos ltac:(by constructor)) as Hcr.
  cbn [conn_read] in *. destruct Hcr as (Hwc' & Hu & Hl & Hd).
  set (c' := if (length s <=? BUFLEN)%nat then c else Ok (drop BUFLEN s) :: c) in *.
  assert (Hls : (0 < length s)%nat) by (destruct s; [done|simpl; lia]).
  assert (Hlt : length (take BUFLEN s) = Nat.min BUFLEN (length s)) by apply length_take.
  destruct (first_read_wf (take BUFLEN s) Hu Hl) as (Hwf & Hsl & Hcont).
  change (rb_start readbuf_new) with 0%nat.
  set (rb := mkReadBuf (overwrite (rb_buf readbuf_new) 0 (take BUFLEN s)) 0 (length (take BUFLEN s))) in *.
  destruct (Nat.eqb_spec (rb_len rb) 0) as [H0|H0]; [unfold rb in H0; cbn [rb_len] in H0; lia|].
  rewrite Hsl. destruct (Nat.eqb_spec (length (take BUFLEN s)) 0) as [?|_]; [lia|].
  assert (Hdata : s ++ conn_data c = take BUFLEN s ++ conn_data c').
  { etransitivity; [|exact Hd]. by destruct s. }
  destruct (Nat.leb_spec 68 (length s)) as [Hfull|Hpart].
  - assert (Ht : take BUFLEN s = encode_handshake h ++ drop 68 (take BUFLEN s)).
    { rewrite <- (take_drop 68 (take BUFLEN s)) at 1. f_equal. rewrite take_take, Nat.min_l by lia.
      apply (f_equal (take 68)) in Hr. by rewrite take_app_le, take_app_exact in Hr. }
    assert (Hok : handshake_deserialize (take BUFLEN s) = Ok (h, 68%nat)).
    { rewrite Ht. by apply handshake_deserialize_encoded. }
    rewrite Hok. clear Ht Hok.
    assert (Hn : (68 <= rb_len rb)%nat) by (unfold rb; cbn [rb_len]; lia).
    destruct (rb_advance_spec rb 68 Hwf Hn) as [Hwf' Hc'].
    do 3 eexists. split; [reflexivity|]. split; [exact Hwf'|]. split; [exact Hwc'|]. split; [reflexivity|].
    rewrite Hc', Hcont, Hdata, drop_app_le by lia. reflexivity.
  - unfold handshake_deserialize, HANDSHAKE_LEN. rewrite take_ge by lia.
    destruct (Nat.ltb_spec (length s) 68); [|lia].
    do 3 eexists. split; [reflexivity|]. split; [exact Hwf|]. split; [exact Hwc'|]. reflexivity.
Qed.
End reads.

(** ** Witnesses *)

(** A payload parser with the failures of [ExtendedMessage::deserialize]: it
    wants a byte for the id and then contiguous data. *)
Definition ex_ext (b : DoubleBuf) : result MessageDeserializeError (list Z) :=
  if (len b =? 0)%nat then Err (NotEnoughData 1 (Some MSGID_EXTENDED))
  else ok_or (get_contiguous b (len b)) NeedContiguous.

Lemma ex_ext_errors_ok : ext_errors_ok ex_ext.
Proof.
  intros b e. unfold ex_ext. destruct (Nat.eqb_spec (len b) 0); [intros [= <-]; simpl; lia|].
  destruct (get_contiguous b (len b)) eqn:Hg; cbn [ok_or]; [done|]. intros [= <-]. simpl. intros Hb.
  unfold get_contiguous, len in Hg. rewrite Hb in Hg. simpl in Hg. rewrite Nat.add_0_r, Nat.leb_refl in Hg. done.
Qed.

(** An empty ring three bytes before the end of its buffer. *)
Definition ex_ring : ReadBuf := mkReadBuf (replicate BUFLEN 0) (BUFLEN - 3) 0.

Lemma ex_ring_wf : wf_readbuf ex_ring.
Proof.
  split; unfold ex_ring; cbn [rb_buf rb_start rb_len]; [apply length_replicate|pose proof BUFLEN_pos; lia|lia|].
  apply Forall_replicate. unfold is_u8. lia.
Qed.

Lemma ex_ring_content : rb_content ex_ring = [].
Proof. apply length_zero_iff_nil. by rewrite length_rb_content by apply ex_ring_wf. Qed.

(** A [Have], a bitfield and a block, cut in the middle of words. *)
Definition ex_messages : list (Message (list Z)) :=
  [MHave 7; MBitfield [128; 1]; MPiece (mkPiece 1 0 [9; 8; 7] [])].
Definition ex_conn : Conn unit :=
  [Ok [0; 0; 0; 5; 4; 0]; Ok [0; 0; 7; 0; 0; 0; 3; 5; 128]; Ok [1; 0; 0; 0; 12; 7; 0; 0; 0; 1; 0; 0; 0; 0; 9; 8; 7; 0]].


Lemma read_message_total_witness :
  exists o, read_message ex_ext ex_ring ([Ok [0; 0]; Err tt] : Conn unit) = Done o /\ safe_result o.
Proof.
  apply (read_message_total ex_ext ex_ring).
  - exact ex_ext_errors_ok.
  - exact ex_ring_wf.
  - repeat constructor; unfold is_u8; lia.
Defined.

Lemma long_message_refused_witness :
  exists k rb' c', read_message ex_ext ex_ring ([Ok ([0; 1; 0; 0; 5] ++ replicate BUFLEN 0)] : Conn unit) =
    Done (Err (ReadBufFull k), rb', c').
Proof.
  apply (long_message_refused ex_ext ex_ring).
  - exact ex_ring_wf.
  - constructor; [|constructor]. apply Forall_app. split.
    + repeat constructor; unfold is_u8; lia.
    + apply Forall_replicate. unfold is_u8. lia.
  - rewrite ex_ring_content. cbn [app conn_data length]. rewrite app_nil_r, length_replicate. lia.
  - rewrite ex_ring_content. cbn [app conn_data take]. change (to_Z [0; 1; 0; 0]) with 65536.
    pose proof BUFLEN_Z. lia.
Defined.

Definition ex_handshake : Handshake := mkHandshake 0 (replicate 20 7) (replicate 20 8).

Lemma read_handshake_spec_witness :
  exists rb' c', read_handshake (E := unit) readbuf_new [Ok (take 40 (encode_handshake ex_handshake)); Ok (drop 40 (encode_handshake ex_handshake))]
    = (Err (DeserializeHandshake (NotEnoughData 28 None)), rb', c').
Proof.
  destruct (read_handshake_spec (E := unit) ex_handshake (take 40 (encode_handshake ex_handshake))
    [Ok (drop 40 (encode_handshake ex_handshake))]) as (o & rb' & c' & Hr & _ & _ & Ho).
  - repeat split; repeat constructor; unfold is_u64, is_u8; simpl; lia.
  - vm_compute. repeat constructor; discriminate.
  - vm_compute. repeat constructor; discriminate.
  - discriminate.
  - exists []. reflexivity.
  - simpl in Ho. subst o. exists rb', c'. exact Hr.
Defined.

(** An extended message without a payload is complete, but is treated as if a
    byte were missing: reading goes on until the buffer is full. *)
Lemma empty_extended_message_reads_on :
  match read_message ex_ext readbuf_new ([Ok ([0; 0; 0; 1; 20] ++ replicate BUFLEN 0)] : Conn unit) with
  | Done (Err (ReadBufFull k), rb, _) => (k =? 1) && is_full rb
  | _ => false
  end = true.
Proof. vm_compute. reflexivity. Qed.
