(* ===== verification/Streaming.v ===== *)
(** * Streaming: reading a file of a torrent while it is downloaded

    Models [crates/librtbit/src/torrent_state/streaming.rs]: the streams of a
    torrent, the pieces they want next, reading, seeking, sleeping until a
    piece is there and being woken.  The bit field of pieces, the storage and
    the shuffle are arguments; a waker is the number of the stream whose task
    it wakes. *)

From S2P Require Import Prelude Lengths.

Definition PER_STREAM_BUF_DEFAULT : Z := 32 * 1024 * 1024.

Record StreamState := mkStreamState {
  st_file_id : nat;
  st_file_len : Z;
  st_file_abs_offset : Z;
  st_position : Z;
  st_waker : option nat;
}.

Record TorrentStreams := mkTorrentStreams {
  next_stream_id : nat;
  streams : gmap nat StreamState;
}.

Record FileStream := mkFileStream {
  fs_stream_id : nat;
  fs_file_id : nat;
  fs_position : Z;
  fs_file_len : Z;
  fs_file_torrent_abs_offset : Z;
}.

Definition current_piece (st : StreamState) (lengths : Lengths) : option CurrentPiece :=
  compute_current_piece lengths (st_position st) (st_file_abs_offset st).

(** The [try_into().unwrap()]s panic beyond u32. *)
Definition queue (st : StreamState) (lengths : Lengths) : outcome (list ValidPieceIndex) :=
  let start := wrap64 (st_file_abs_offset st + st_position st) in
  let end_ := Z.min (wrap64 (start + PER_STREAM_BUF_DEFAULT)) (wrap64 (st_file_abs_offset st + st_file_len st)) in
  let dpl := l_piece_length lengths in
  start_id ←! unwrap (try_into_u32 (start / dpl));
  end_id ←! unwrap (try_into_u32 (div_ceil end_ dpl));
  Done (omap (validate_piece_index lengths) (seqZ start_id (end_id - start_id))).

(** [Interleave]: the front iterator gives its next item and goes to the back;
    an iterator that is done is dropped. *)
Fixpoint interleave {A} (fuel : nat) (all : list (list A)) : list A :=
  match fuel with
  | O => []
  | S fuel =>
      match all with
      | [] => []
      | [] :: all => interleave fuel all
      | (x :: it) :: all => x :: interleave fuel (all ++ [it])
      end
  end.

Definition interleave_fuel {A} (all : list (list A)) : nat := length (concat all) + length all.

(** [iter_next_pieces]: [all] are the queues of the streams as shuffled. *)
Definition iter_next_pieces (all : list (list ValidPieceIndex)) : list ValidPieceIndex :=
  interleave (interleave_fuel all) all.

Definition next_id (ts : TorrentStreams) : nat * TorrentStreams :=
  (next_stream_id ts, mkTorrentStreams (S (next_stream_id ts)) (streams ts)).

Definition with_waker (st : StreamState) (w : option nat) : StreamState :=
  mkStreamState (st_file_id st) (st_file_len st) (st_file_abs_offset st) (st_position st) w.

Definition register_waker (stream_id waker : nat) (ts : TorrentStreams) : TorrentStreams :=
  match streams ts !! stream_id with
  | Some st => mkTorrentStreams (next_stream_id ts) (<[stream_id := with_waker st (Some waker)]> (streams ts))
  | None => ts
  end.

(** Whether [wake_streams_on_piece_completed] takes the waker of a stream. *)
Definition wakes (piece_id : ValidPieceIndex) (lengths : Lengths) (st : StreamState) : bool :=
  bool_decide (cp_id <$> current_piece st lengths = Some piece_id).

(** The streams with their wakers taken, and the wakers that are called. *)
Definition wake_streams_on_piece_completed (piece_id : ValidPieceIndex) (lengths : Lengths)
    (ts : TorrentStreams) : list nat * TorrentStreams :=
  (omap (fun e => if wakes piece_id lengths e.2 then st_waker e.2 else None) (map_to_list (streams ts)),
   mkTorrentStreams (next_stream_id ts)
     ((fun st => if wakes piece_id lengths st then with_waker st None else st) <$> streams ts)).

Definition drop_stream (stream_id : nat) (ts : TorrentStreams) : TorrentStreams :=
  mkTorrentStreams (next_stream_id ts) (delete stream_id (streams ts)).

Definition streamed_file_ids (ts : TorrentStreams) : list nat :=
  (fun e => st_file_id e.2) <$> map_to_list (streams ts).

(** ** The stream of a file *)

(** [set_position]; the entry of the stream is there, or [unwrap] panics. *)
Definition set_position (fs : FileStream) (ts : TorrentStreams) (new_pos : Z) : outcome (FileStream * TorrentStreams) :=
  st ←! unwrap (streams ts !! fs_stream_id fs);
  Done (mkFileStream (fs_stream_id fs) (fs_file_id fs) new_pos (fs_file_len fs) (fs_file_torrent_abs_offset fs),
        mkTorrentStreams (next_stream_id ts)
          (<[fs_stream_id fs :=
               mkStreamState (st_file_id st) (st_file_len st) (st_file_abs_offset st) new_pos (st_waker st)]>
             (streams ts))).

Definition advance (fs : FileStream) (ts : TorrentStreams) (diff : Z) : outcome (FileStream * TorrentStreams) :=
  set_position fs ts (wrap64 (fs_position fs + diff)).

(** [TorrentError]: no chunk tracker or storage in this state, or the storage failed. *)
Inductive StreamError (E : Type) := InvalidPosition | TorrentError (e : E).
Arguments InvalidPosition {E}.
Arguments TorrentError {E} _.

Inductive Poll (E : Type) := Ready (r : result (StreamError E) (list Z)) | Pending.
Arguments Ready {E} _.
Arguments Pending {E}.

(** [poll_read] into [buf_len] bytes; [have] are the pieces we have by
    [with_chunk_tracker], [pread_exact] the read in [with_storage_and_file]. *)
Definition poll_read {E} (lengths : Lengths) (have : Z -> result E bool) (pread_exact : nat -> Z -> nat -> result E (list Z))
    (buf_len : nat) (fs : FileStream) (ts : TorrentStreams) : outcome (Poll E * FileStream * TorrentStreams) :=
  if fs_position fs =? fs_file_len fs then Done (Ready (Ok []), fs, ts)
  else
    match compute_current_piece lengths (fs_position fs) (fs_file_torrent_abs_offset fs) with
    | None => Done (Ready (Err InvalidPosition), fs, ts)
    | Some current =>
        match have (cp_id current) with
        | Err e => Done (Ready (Err (TorrentError e)), fs, ts)
        | Ok false => Done (Pending, fs, register_waker (fs_stream_id fs) (fs_stream_id fs) ts)
        | Ok true =>
          let file_remaining := wrap64 (fs_file_len fs - fs_position fs) in
          let bytes_to_read :=
            Z.min (Z.min (Z.of_nat buf_len) (cp_piece_remaining current)) file_remaining in
          match pread_exact (fs_file_id fs) (fs_position fs) (Z.to_nat bytes_to_read) with
          | Err e => Done (Ready (Err (TorrentError e)), fs, ts)
          | Ok data =>
              r ←! advance fs ts bytes_to_read;
              Done (Ready (Ok data), r.1, r.2)
          end
        end
    end.

Inductive SeekFrom := SeekStart (s : Z) | SeekEnd (e : Z) | SeekCurrent (o : Z).

Abbreviation I64_MAX := 9223372036854775807.

(** [i64::try_from] of a u64, and wrapping i64 addition. *)
Definition try_into_i64 (z : Z) : option Z := if z <=? I64_MAX then Some z else None.
Definition wrap_i64 (z : Z) : Z := (z + 9223372036854775808) mod U64 - 9223372036854775808.

Inductive SeekError := NotI64 | InvalidSeek.

Definition start_seek (fs : FileStream) (ts : TorrentStreams) (position : SeekFrom) :
    outcome (result SeekError unit * FileStream * TorrentStreams) :=
  match try_into_i64 (fs_file_len fs) with
  | None => Done (Err NotI64, fs, ts)
  | Some end_i64 =>
      match
        match position with
        | SeekStart s => try_into_i64 s
        | SeekEnd e => Some (wrap_i64 (end_i64 + e))
        | SeekCurrent o => (fun p => wrap_i64 (p + o)) <$> try_into_i64 (fs_position fs)
        end
      with
      | None => Done (Err NotI64, fs, ts)
      | Some new_pos =>
          if (new_pos <? 0) || (end_i64 <? new_pos) then Done (Err InvalidSeek, fs, ts)
          else r ←! set_position fs ts new_pos; Done (Ok tt, r.1, r.2)
      end
  end.

(** The end of [ManagedTorrent::stream]: a stream of a file of the torrent. *)
Definition open_stream (file_id : nat) (fd_len fd_offset : Z) (ts : TorrentStreams) : FileStream * TorrentStreams :=
  let '(stream_id, ts) := next_id ts in
  (mkFileStream stream_id file_id 0 fd_len fd_offset,
   mkTorrentStreams (next_stream_id ts)
     (<[stream_id := mkStreamState file_id fd_len fd_offset 0 None]> (streams ts))).

(** ** The order of pieces *)

(** The reference: the first items of all lists, then the second ones, etc. *)
Definition round_robin {A} (n : nat) (all : list (list A)) : list A :=
  concat ((fun k => omap (fun it => it !! k) all) <$> seq 0 n).

Section interleave.
Context {A : Type}.
Implicit Types all front back : list (list A).

Definition inter all : list A := interleave (interleave_fuel all) all.

Lemma inter_nil_cons all : inter ([] :: all) = inter all.
Proof.
  unfold inter, interleave_fuel. cbn [concat app length]. by rewrite Nat.add_succ_r.
Qed.

Lemma inter_cons x (it : list A) all : inter ((x :: it) :: all) = x :: inter (all ++ [it]).
Proof.
  unfold inter, interleave_fuel. cbn [concat app length interleave plus]. f_equal. f_equal.
  rewrite concat_app. cbn [concat]. rewrite app_nil_r, !length_app. simpl. lia.
Qed.

Definition tails all : list (list A) := (drop 1) <$> filter (fun it => it <> []) all.

(** One round serves every list once. *)
Lemma inter_round front back : inter (front ++ back) = omap head front ++ inter (back ++ tails front).
Proof.
  revert back. induction front as [|it front IH]; intros back.
  { unfold tails. simpl. by rewrite app_nil_r. }
  destruct it as [|x it].
  - cbn [app omap list_omap head]. rewrite inter_nil_cons, IH. unfold tails. by rewrite filter_cons_False by naive_solver.
  - cbn [app omap list_omap head]. rewrite inter_cons. f_equal. rewrite <- app_assoc, IH. f_equal. f_equal.
    unfold tails. rewrite filter_cons_True by done. cbn [fmap list_fmap drop]. by rewrite <- app_assoc.
Qed.

Lemma inter_round_robin n all : Forall (fun it => length it <= n)%nat all -> inter all = round_robin n all.
Proof.
  revert all. induction n as [|n IH]; intros all Hall.
  - unfold round_robin. simpl. induction Hall as [|it all Hit Hall IHall]; [done|].
    destruct it; [|simpl in Hit; lia]. by rewrite inter_nil_cons.
  - rewrite <- (app_nil_r all) at 1. rewrite inter_round. cbn [app]. rewrite IH.
    + unfold round_robin. cbn [seq fmap list_fmap concat]. f_equal.
      { clear. induction all as [|[|x it] all IHall]; [done|exact IHall|]. cbn [omap list_omap head]. by rewrite IHall. }
      rewrite <- (fmap_S_seq 0 n). rewrite <- list_fmap_compose. f_equal. apply list_fmap_ext. intros k j _.
      cbn [compose]. clear. induction all as [|[|x it] all IHall]; [done| |]; unfold tails in *.
      * rewrite filter_cons_False by naive_solver. rewrite IHall. done.
      * rewrite filter_cons_True by done. cbn [fmap list_fmap drop omap list_omap]. rewrite IHall. done.
    + unfold tails. apply Forall_fmap, Forall_forall. intros it [_ Hin]%list_elem_of_filter.
      rewrite Forall_forall in Hall. specialize (Hall it Hin). simpl. len_lia.
Qed.
End interleave.

(** The pieces of several streams are asked for in turn: the next pieces
    of all streams, then the ones after them, and so on, until every queue is
    used up. *)
Theorem next_pieces_round_robin (all : list (list ValidPieceIndex)) n :
  Forall (fun it => length it <= n)%nat all -> iter_next_pieces all = round_robin n all.
Proof. apply inter_round_robin. Qed.

(** ** Reading *)

(** The stream reads a file of the torrent and its entry is up to date. *)
Record stream_ok (lengths : Lengths) (fs : FileStream) (ts : TorrentStreams) : Prop := {
  so_len : 0 <= fs_position fs <= fs_file_len fs;
  so_offset : 0 <= fs_file_torrent_abs_offset fs;
  so_in_torrent : fs_file_torrent_abs_offset fs + fs_file_len fs <= l_total_length lengths;
  so_entry : exists w, streams ts !! fs_stream_id fs =
    Some (mkStreamState (fs_file_id fs) (fs_file_len fs) (fs_file_torrent_abs_offset fs) (fs_position fs) w);
}.

Section reading.
Context {E : Type}.
Variables (lengths : Lengths) (have : Z -> result E bool) (pread_exact : nat -> Z -> nat -> result E (list Z)).
Hypothesis lengths_wf : wf lengths.

Lemma set_position_ok fs ts pos : stream_ok lengths fs ts -> 0 <= pos <= fs_file_len fs ->
  exists fs' ts', set_position fs ts pos = Done (fs', ts') /\ stream_ok lengths fs' ts' /\ fs_position fs' = pos /\
    fs_stream_id fs' = fs_stream_id fs /\ fs_file_len fs' = fs_file_len fs /\
    fs_file_torrent_abs_offset fs' = fs_file_torrent_abs_offset fs /\ next_stream_id ts' = next_stream_id ts /\
    forall id, id <> fs_stream_id fs -> streams ts' !! id = streams ts !! id.
Proof.
  intros [Hl Ho Hin [w Hw]] Hp. unfold set_position. rewrite Hw. rsimpl. do 2 eexists. split; [done|].
  split_and!; try done.
  - split; cbn; [done|done|done|]. exists w. by rewrite lookup_insert_eq.
  - intros id Hid. cbn. by rewrite lookup_insert_ne.
Qed.

Lemma register_waker_ok fs ts w : stream_ok lengths fs ts ->
  stream_ok lengths fs (register_waker (fs_stream_id fs) w ts) /\
  (exists st, streams (register_waker (fs_stream_id fs) w ts) !! fs_stream_id fs = Some st /\ st_waker st = Some w).
Proof.
  intros [Hl Ho Hin [w0 Hw]]. unfold register_waker. rewrite Hw. split.
  - split; [done..|]. cbn [streams]. rewrite lookup_insert_eq. by eexists.
  - cbn [streams]. rewrite lookup_insert_eq. by eexists.
Qed.

(** The piece at the position, and how far a read goes. *)
Lemma current_in_piece fs ts : stream_ok lengths fs ts -> fs_position fs < fs_file_len fs ->
  let pos := fs_file_torrent_abs_offset fs + fs_position fs in
  exists cp, compute_current_piece lengths (fs_position fs) (fs_file_torrent_abs_offset fs) = Some cp /\
    valid_index lengths (cp_id cp) /\ piece_offset lengths (cp_id cp) <= pos /\ 0 < cp_piece_remaining cp /\
    pos + cp_piece_remaining cp = piece_offset lengths (cp_id cp) + piece_length lengths (cp_id cp).
Proof.
  intros [Hl Ho Hin _] Hlt pos. pose proof (wf_total_bound lengths lengths_wf). lengths_facts.
  destruct (current_piece_spec lengths (fs_position fs) (fs_file_torrent_abs_offset fs) lengths_wf) as [Hc _]; [lia..|].
  apply Hc. lia.
Qed.

(** A stream returns only bytes of pieces we have: at the end of the file a
    read gives nothing; before it, it gives the next bytes of the file, at
    least one and none beyond the piece at the position, if we have that
    piece; otherwise it sleeps with its waker registered. *)
Theorem poll_read_spec buf_len fs ts : stream_ok lengths fs ts -> (0 < buf_len)%nat ->
  let r := poll_read lengths have pread_exact buf_len fs ts in
  let pos := fs_position fs in
  (pos = fs_file_len fs /\ r = Done (Ready (Ok []), fs, ts)) \/
  (pos < fs_file_len fs /\ exists i, valid_index lengths i /\
     piece_offset lengths i <= fs_file_torrent_abs_offset fs + pos /\
     match have i with
     | Err e => r = Done (Ready (Err (TorrentError e)), fs, ts)
     | Ok true => exists n, 0 < n <= Z.of_nat buf_len /\ pos + n <= fs_file_len fs /\
         fs_file_torrent_abs_offset fs + pos + n <= piece_offset lengths i + piece_length lengths i /\
         match pread_exact (fs_file_id fs) pos (Z.to_nat n) with
         | Ok data => exists fs' ts', r = Done (Ready (Ok data), fs', ts') /\ stream_ok lengths fs' ts' /\
             fs_position fs' = pos + n
         | Err e => r = Done (Ready (Err (TorrentError e)), fs, ts)
         end
     | Ok false => exists ts', r = Done (Pending, fs, ts') /\ stream_ok lengths fs ts' /\
       exists st, streams ts' !! fs_stream_id fs = Some st /\ st_waker st = Some (fs_stream_id fs)
     end).
Proof.
  intros Hok Hbuf r pos. pose proof (so_len _ _ _ Hok) as Hl. unfold r, poll_read. fold pos.
  destruct (Z.eqb_spec pos (fs_file_len fs)) as [Heof|Hne]; [by left|right]. split; [unfold pos in *; lia|].
  destruct (current_in_piece fs ts Hok ltac:(unfold pos in *; lia)) as (cp & Hcp & Hv & Hoff & Hrem & Hend).
  fold pos in Hcp, Hoff, Hend. rewrite Hcp.
  exists (cp_id cp). split; [done|]. split; [done|]. destruct (have (cp_id cp)) as [[|]|e]; [| |done].
  - pose proof (wf_total_bound lengths lengths_wf) as Hb. pose proof (so_in_torrent _ _ _ Hok).
    pose proof (so_offset _ _ _ Hok). assert (0 < l_piece_length lengths) by (clear -lengths_wf; lengths_facts; lia).
    rewrite wrap64_small by (unfold pos in *; lia).
    set (n := Z.min (Z.min (Z.of_nat buf_len) (cp_piece_remaining cp)) (fs_file_len fs - pos)).
    exists n. split; [unfold n, pos in *; lia|]. split; [unfold n; lia|]. split; [unfold n, pos in *; lia|].
    destruct (pread_exact _ _ _) as [data|e]; [|done]. unfold advance. fold pos.
    rewrite wrap64_small by (unfold n, pos in *; lia).
    destruct (set_position_ok fs ts (pos + n) Hok) as (fs' & ts' & -> & Hok' & Hp & _); [unfold n, pos in *; lia|].
    rsimpl. by exists fs', ts'.
  - destruct (register_waker_ok fs ts (fs_stream_id fs) Hok) as [Hok' Hw]. by eexists.
Qed.
End reading.

(** ** Sleeping and waking

    The tasks of the streams run beside the tasks that complete pieces.  A
    piece is first marked as had, under the lock under which streams look for
    it and register their wakers; its streams are woken later, in
    [on_piece_completed]: in between it is in [w_completing].  If the torrent
    was paused meanwhile, [get_pieces_mut] fails there before any stream is
    woken: the piece goes to [w_unwoken].  [w_sleeping] are the streams whose
    last read is pending and whose waker was not called. *)
Section waking.
Context {E : Type}.
Variable lengths : Lengths.

Record World := mkWorld {
  w_have : gset Z;
  w_completing : gset Z;
  w_unwoken : gset Z;
  w_streams : TorrentStreams;
  w_files : gmap nat FileStream;
  w_sleeping : gset nat;
}.

Inductive StreamEvent :=
| EOpen (file_id : nat) (fd_len fd_offset : Z)
| EPoll (sid buf_len : nat) (no_tracker : option E) (pread_exact : nat -> Z -> nat -> result E (list Z))
| ESeek (sid : nat) (position : SeekFrom)
| EPiece (piece : Z)
| EWake (piece : Z) (paused : bool)
| EDrop (sid : nat).

Definition world_step (w : World) (e : StreamEvent) : outcome World :=
  match e with
  | EOpen file_id fd_len fd_offset =>
      let '(fs, ts) := open_stream file_id fd_len fd_offset (w_streams w) in
      Done (mkWorld (w_have w) (w_completing w) (w_unwoken w) ts (<[fs_stream_id fs := fs]> (w_files w)) (w_sleeping w))
  | EPoll sid buf_len no_tracker pread_exact =>
      match w_files w !! sid with
      | None => Done w
      | Some fs =>
          r ←! poll_read lengths (fun i => match no_tracker with Some e => Err e | None => Ok (bool_decide (i ∈ w_have w)) end)
                 pread_exact buf_len fs (w_streams w);
          let '(p, fs, ts) := r in
          Done (mkWorld (w_have w) (w_completing w) (w_unwoken w) ts (<[sid := fs]> (w_files w))
                  (match p with Pending => w_sleeping w ∪ {[sid]} | Ready _ => w_sleeping w ∖ {[sid]} end))
      end
  | ESeek sid position =>
      match w_files w !! sid with
      | None => Done w
      | Some fs =>
          r ←! start_seek fs (w_streams w) position;
          let '(_, fs, ts) := r in
          Done (mkWorld (w_have w) (w_completing w) (w_unwoken w) ts (<[sid := fs]> (w_files w)) (w_sleeping w ∖ {[sid]}))
      end
  | EPiece p => Done (mkWorld (w_have w ∪ {[p]}) (w_completing w ∪ {[p]}) (w_unwoken w) (w_streams w) (w_files w) (w_sleeping w))
  | EWake p true =>
      Done (mkWorld (w_have w) (w_completing w ∖ {[p]}) (w_unwoken w ∪ {[p]}) (w_streams w) (w_files w) (w_sleeping w))
  | EWake p false =>
      let '(woken, ts) := wake_streams_on_piece_completed p lengths (w_streams w) in
      Done (mkWorld (w_have w) (w_completing w ∖ {[p]}) (w_unwoken w) ts (w_files w) (w_sleeping w ∖ list_to_set woken))
  | EDrop sid =>
      Done (mkWorld (w_have w) (w_completing w) (w_unwoken w) (drop_stream sid (w_streams w)) (delete sid (w_files w))
              (w_sleeping w ∖ {[sid]}))
  end.

Definition world_new : World := mkWorld ∅ ∅ ∅ (mkTorrentStreams 0 ∅) ∅ ∅.

(** The entry of a stream agrees with the stream. *)
Definition entry_of (ts : TorrentStreams) (fs : FileStream) (w : option nat) : Prop :=
  streams ts !! fs_stream_id fs =
  Some (mkStreamState (fs_file_id fs) (fs_file_len fs) (fs_file_torrent_abs_offset fs) (fs_position fs) w).

Definition waiting (w : World) (sid : nat) : Prop := exists fs cp,
  w_files w !! sid = Some fs /\ entry_of (w_streams w) fs (Some sid) /\
  compute_current_piece lengths (fs_position fs) (fs_file_torrent_abs_offset fs) = Some cp /\
  (cp_id cp ∉ w_have w \/ cp_id cp ∈ w_completing w \/ cp_id cp ∈ w_unwoken w).

Record world_inv (w : World) : Prop := {
  wi_files : forall sid fs, w_files w !! sid = Some fs -> fs_stream_id fs = sid /\ exists k, entry_of (w_streams w) fs k;
  wi_next : forall sid, is_Some (streams (w_streams w) !! sid) -> (sid < next_stream_id (w_streams w))%nat;
  wi_sleeping : forall sid, sid ∈ w_sleeping w -> waiting w sid;
}.

(** Changing one stream and its entry. *)
Lemma update_stream_inv w sid fs fs' ts' (sleeping : gset nat) : world_inv w -> w_files w !! sid = Some fs ->
  fs_stream_id fs' = sid -> (exists k, entry_of ts' fs' k) ->
  next_stream_id ts' = next_stream_id (w_streams w) ->
  (forall id, id <> sid -> streams ts' !! id = streams (w_streams w) !! id) ->
  (forall id, id <> sid -> id ∈ sleeping -> id ∈ w_sleeping w) ->
  (sid ∈ sleeping -> waiting (mkWorld (w_have w) (w_completing w) (w_unwoken w) ts' (<[sid := fs']> (w_files w)) sleeping) sid) ->
  world_inv (mkWorld (w_have w) (w_completing w) (w_unwoken w) ts' (<[sid := fs']> (w_files w)) sleeping).
Proof.
  intros [Hf Hn Hs] Hfs Hid Hent Hnext Hother Hsub Hself. split; cbn [w_files w_streams w_sleeping].
  - intros id f. rewrite lookup_insert_Some. intros [[<- <-]|[Hne Hl]]; [done|].
    destruct (Hf _ _ Hl) as [Hi [k Hk]]. split; [done|]. exists k. unfold entry_of in *. rewrite Hother; [done|congruence].
  - intros id Hsome. rewrite Hnext. destruct (decide (id = sid)) as [->|Hne].
    + destruct (Hf _ _ Hfs) as [Hi [k Hk]]. apply Hn. unfold entry_of in Hk. rewrite Hi in Hk. by eexists.
    + rewrite Hother in Hsome by done. by apply Hn.
  - intros id Hin. destruct (decide (id = sid)) as [->|Hne]; [by apply Hself|].
    destruct (Hs id (Hsub id Hne Hin)) as (f & cp & Hl & He & Hcp & Hor). exists f, cp.
    cbn [w_files w_streams w_have w_completing w_unwoken]. rewrite lookup_insert_ne by done. split_and!; [done| |done|done].
    unfold entry_of in *. destruct (Hf _ _ Hl) as [Hi _]. rewrite Hother; [done|congruence].
Qed.

Lemma set_position_entry fs ts k pos : entry_of ts fs k ->
  exists fs' ts', set_position fs ts pos = Done (fs', ts') /\ fs_stream_id fs' = fs_stream_id fs /\
    entry_of ts' fs' k /\ next_stream_id ts' = next_stream_id ts /\
    forall id, id <> fs_stream_id fs -> streams ts' !! id = streams ts !! id.
Proof.
  unfold entry_of, set_position. intros ->. rsimpl. do 2 eexists. split; [done|].
  cbn [fs_stream_id streams next_stream_id fs_file_id fs_file_len fs_file_torrent_abs_offset fs_position].
  split_and!; [done|by rewrite lookup_insert_eq|done|]. intros id Hid. by rewrite lookup_insert_ne.
Qed.

Lemma poll_step_inv w sid buf_len no_tracker pread : world_inv w ->
  exists w', world_step w (EPoll sid buf_len no_tracker pread) = Done w' /\ world_inv w'.
Proof.
  intros Hi. cbn [world_step]. destruct (w_files w !! sid) as [fs|] eqn:Hfs; [|by eexists].
  destruct (wi_files _ Hi _ _ Hfs) as [Hid [k Hk]].
  assert (Hawake : exists w', Done (mkWorld (w_have w) (w_completing w) (w_unwoken w) (w_streams w) (<[sid := fs]> (w_files w))
      (w_sleeping w ∖ {[sid]})) = Done w' /\ world_inv w').
  { eexists. split; [done|]. apply (update_stream_inv w sid fs); try done; [by eexists|set_solver|set_solver]. }
  unfold poll_read. destruct (_ =? _); [exact Hawake|].
  destruct (compute_current_piece _ _ _) as [cp|] eqn:Hcp; [|exact Hawake].
  destruct no_tracker; [exact Hawake|].
  destruct (bool_decide_reflect (cp_id cp ∈ w_have w)) as [Hhave|Hmiss].
  - destruct (pread _ _ _) as [data|e]; [|exact Hawake]. unfold advance.
    destruct (set_position_entry fs (w_streams w) k (wrap64 (fs_position fs +
      Z.min (Z.min (Z.of_nat buf_len) (cp_piece_remaining cp)) (wrap64 (fs_file_len fs - fs_position fs)))) Hk)
      as (fs' & ts' & -> & Hid' & Hent & Hnext & Hother).
    rsimpl. cbn [fst snd]. eexists. split; [done|]. apply (update_stream_inv w sid fs); [done|done|by rewrite Hid'|by eexists|done| |set_solver|set_solver].
    intros id Hne. apply Hother. congruence.
  - rsimpl. eexists. split; [done|].
    assert (Hreg : streams (register_waker (fs_stream_id fs) (fs_stream_id fs) (w_streams w)) =
        <[sid := mkStreamState (fs_file_id fs) (fs_file_len fs) (fs_file_torrent_abs_offset fs) (fs_position fs) (Some sid)]>
          (streams (w_streams w)) /\
      next_stream_id (register_waker (fs_stream_id fs) (fs_stream_id fs) (w_streams w)) = next_stream_id (w_streams w)).
    { unfold register_waker. unfold entry_of in Hk. rewrite Hk. rewrite Hid. done. }
    destruct Hreg as [Hreg Hnext].
    assert (Hent : entry_of (register_waker (fs_stream_id fs) (fs_stream_id fs) (w_streams w)) fs (Some sid)).
    { unfold entry_of. rewrite Hreg, Hid. by rewrite lookup_insert_eq. }
    apply (update_stream_inv w sid fs); try done; [by eexists| |set_solver|].
    { intros id Hne. rewrite Hreg. by rewrite lookup_insert_ne. }
    intros _. exists fs, cp. cbn [w_files w_streams w_have]. rewrite lookup_insert_eq. split_and!; [done|done|done|by left].
Qed.

Lemma seek_step_inv w sid position : world_inv w ->
  exists w', world_step w (ESeek sid position) = Done w' /\ world_inv w'.
Proof.
  intros Hi. cbn [world_step]. destruct (w_files w !! sid) as [fs|] eqn:Hfs; [|by eexists].
  destruct (wi_files _ Hi _ _ Hfs) as [Hid [k Hk]].
  assert (Hstay : exists w', Done (mkWorld (w_have w) (w_completing w) (w_unwoken w) (w_streams w) (<[sid := fs]> (w_files w))
      (w_sleeping w ∖ {[sid]})) = Done w' /\ world_inv w').
  { eexists. split; [done|]. apply (update_stream_inv w sid fs); try done; [by eexists|set_solver|set_solver]. }
  unfold start_seek. destruct (try_into_i64 (fs_file_len fs)) as [end_|]; [|exact Hstay].
  destruct (match position with SeekStart _ => _ | _ => _ end) as [pos|]; [|exact Hstay].
  destruct (_ || _); [exact Hstay|].
  destruct (set_position_entry fs (w_streams w) k pos Hk) as (fs' & ts' & -> & Hid' & Hent & Hnext & Hother).
  rsimpl. cbn [fst snd]. eexists. split; [done|]. apply (update_stream_inv w sid fs); [done|done|by rewrite Hid'|by eexists|done| |set_solver|set_solver].
  intros id Hne. apply Hother. congruence.
Qed.

Lemma wake_step_inv w p : world_inv w -> exists w', world_step w (EWake p false) = Done w' /\ world_inv w'.
Proof.
  intros [Hf Hn Hs]. cbn [world_step wake_streams_on_piece_completed]. eexists. split; [done|].
  split; cbn [w_files w_streams w_sleeping streams next_stream_id].
  - intros sid fs Hl. destruct (Hf _ _ Hl) as [Hi [k Hk]]. split; [done|]. unfold entry_of in *. cbn [streams].
    rewrite lookup_fmap, Hk. cbn [fmap option_fmap option_map]. destruct (wakes _ _ _); by eexists.
  - intros sid Hsome. apply Hn. rewrite lookup_fmap in Hsome. by apply fmap_is_Some in Hsome.
  - intros sid [Hin Hnw]%elem_of_difference. destruct (Hs sid Hin) as (fs & cp & Hl & He & Hcp & Hor).
    destruct (Hf _ _ Hl) as [Hi _].
    assert (Hw : wakes p lengths (mkStreamState (fs_file_id fs) (fs_file_len fs) (fs_file_torrent_abs_offset fs)
        (fs_position fs) (Some sid)) = false).
    { apply not_true_is_false. intros Hw. apply Hnw. apply elem_of_list_to_set, list_elem_of_omap.
      exists (sid, mkStreamState (fs_file_id fs) (fs_file_len fs) (fs_file_torrent_abs_offset fs) (fs_position fs) (Some sid)).
      split; [apply elem_of_map_to_list; unfold entry_of in He; by rewrite Hi in He|]. cbn [snd]. by rewrite Hw. }
    exists fs, cp. cbn [w_files w_streams w_have w_completing w_unwoken]. split_and!; [done| |done|].
    + unfold entry_of in *. cbn [streams]. rewrite lookup_fmap, He. cbn [fmap option_fmap option_map]. by rewrite Hw.
    + unfold wakes, current_piece in Hw. cbn [st_position st_file_abs_offset] in Hw. rewrite Hcp in Hw.
      apply bool_decide_eq_false in Hw. cbn [fmap option_fmap option_map] in Hw.
      destruct Hor as [?|[?|?]]; [by left|right; left|by right; right]. apply elem_of_difference. split; [done|]. rewrite elem_of_singleton. congruence.
Qed.

(** More pieces without a wake-up. *)
Lemma pieces_step_inv w have completing unwoken : world_inv w ->
  (forall p, p ∉ w_have w \/ p ∈ w_completing w \/ p ∈ w_unwoken w -> p ∉ have \/ p ∈ completing \/ p ∈ unwoken) ->
  world_inv (mkWorld have completing unwoken (w_streams w) (w_files w) (w_sleeping w)).
Proof.
  intros [Hf Hn Hs] Hp. split; [done|done|].
  intros sid Hin. destruct (Hs sid Hin) as (fs & cp & Hl & He & Hcp & Hor). exists fs, cp.
  cbn [w_files w_streams w_have w_completing w_unwoken]. split_and!; [done..|]. by apply Hp.
Qed.

Lemma open_step_inv w file_id fd_len fd_offset : world_inv w ->
  exists w', world_step w (EOpen file_id fd_len fd_offset) = Done w' /\ world_inv w'.
Proof.
  intros [Hf Hn Hs]. cbn [world_step open_stream next_id]. eexists. split; [done|].
  set (id := next_stream_id (w_streams w)) in *.
  assert (Hfree : streams (w_streams w) !! id = None).
  { apply eq_None_not_Some. intros Hsome%Hn. unfold id in Hsome. lia. }
  assert (Hne : forall sid fs k, entry_of (w_streams w) fs k -> fs_stream_id fs = sid -> sid <> id).
  { intros sid fs k He Hi ->. unfold entry_of in He. rewrite Hi in He. congruence. }
  split; cbn [w_files w_streams w_sleeping streams next_stream_id fs_stream_id].
  - intros sid fs. rewrite lookup_insert_Some. intros [[<- <-]|[Hne' Hl]].
    + split; [done|]. eexists. unfold entry_of. cbn. by rewrite lookup_insert_eq.
    + destruct (Hf _ _ Hl) as [Hi [k Hk]]. split; [done|]. exists k. unfold entry_of in *. cbn [streams].
      rewrite lookup_insert_ne; [done|congruence].
  - intros sid [st Hst]. apply lookup_insert_Some in Hst as [[<- _]|[_ Hst]]; [lia|].
    specialize (Hn sid (mk_is_Some _ _ Hst)). unfold id. lia.
  - intros sid Hin. destruct (Hs sid Hin) as (fs & cp & Hl & He & Hcp & Hor). destruct (Hf _ _ Hl) as [Hi _].
    pose proof (Hne sid fs _ He Hi) as Hsid. exists fs, cp. cbn [w_files w_streams w_have w_completing w_unwoken].
    rewrite lookup_insert_ne by done. split_and!; [done| |done|done]. unfold entry_of in *. cbn [streams].
    rewrite lookup_insert_ne; [done|congruence].
Qed.

Lemma drop_step_inv w sid : world_inv w -> exists w', world_step w (EDrop sid) = Done w' /\ world_inv w'.
Proof.
  intros [Hf Hn Hs]. cbn [world_step]. eexists. split; [done|].
  split; cbn [w_files w_streams w_sleeping drop_stream streams next_stream_id].
  - intros id fs [Hne Hl]%lookup_delete_Some. destruct (Hf _ _ Hl) as [Hi [k Hk]]. split; [done|]. exists k.
    unfold entry_of in *. cbn [drop_stream streams]. rewrite lookup_delete_ne; [done|congruence].
  - intros id [_ Hsome]%lookup_delete_is_Some. by apply Hn.
  - intros id [Hin Hne%not_elem_of_singleton]%elem_of_difference. destruct (Hs id Hin) as (fs & cp & Hl & He & Hcp & Hor).
    destruct (Hf _ _ Hl) as [Hi _]. exists fs, cp. cbn [w_files w_streams w_have w_completing w_unwoken].
    rewrite lookup_delete_ne by done. split_and!; [done| |done|done].
    unfold entry_of in *. cbn [drop_stream streams]. rewrite lookup_delete_ne; [done|congruence].
Qed.

Lemma world_step_inv w e : world_inv w -> exists w', world_step w e = Done w' /\ world_inv w'.
Proof.
  intros Hi. destruct e as [f l o|sid n nt pread|sid pos|p|p [|]|sid];
    [by apply open_step_inv|by apply poll_step_inv|by apply seek_step_inv| | |by apply wake_step_inv|by apply drop_step_inv];
    eexists; (split; [done|]); apply pieces_step_inv; try done; intros q; destruct (decide (q = p)) as [->|]; set_solver.
Qed.

(** C27: in every interleaving of reads, seeks, completed pieces and wake-ups
    nothing panics, and a stream that sleeps waits for a piece that is missing,
    whose wake-up is still to come, or whose wake-up was given up because the
    torrent was paused; so once the wake-up for a piece has run, no stream
    sleeps on it. *)
Theorem no_lost_wakeup events : exists w, for_each world_step world_new events = Done w /\
  forall sid, sid ∈ w_sleeping w -> exists fs cp, w_files w !! sid = Some fs /\
    compute_current_piece lengths (fs_position fs) (fs_file_torrent_abs_offset fs) = Some cp /\
    (cp_id cp ∉ w_have w \/ cp_id cp ∈ w_completing w \/ cp_id cp ∈ w_unwoken w).
Proof.
  destruct (for_each_inv (fun _ => world_inv) world_step world_new events) as (w & Hw & Hi).
  - split; cbn; [intros ? ? Hl; by rewrite lookup_empty in Hl|intros ? [? Hl]; by rewrite lookup_empty in Hl|set_solver].
  - intros _ e w _ Hw. by apply world_step_inv.
  - exists w. split; [done|]. intros sid Hin. destruct (wi_sleeping _ Hi sid Hin) as (fs & cp & Hl & _ & Hcp & Hor).
    by exists fs, cp.
Qed.
End waking.

(** ** Witnesses *)

(** A pause between the two sections of a completed piece leaves a stream
    asleep on a piece that is there, with no wake-up to come. *)
Lemma pause_loses_wakeup : exists w,
  for_each (world_step (E := unit) ex_lengths) world_new
    [EOpen 0 10000 20000; EPoll 0 10 None (fun _ _ _ => Err tt); EPiece 1; EWake 1 true] = Done w /\
  0%nat ∈ w_sleeping w /\ w_completing w = ∅ /\ cp_id <$> compute_current_piece ex_lengths 0 20000 = Some 1 /\ 1 ∈ w_have w.
Proof. eexists. split; [reflexivity|]. cbn [w_sleeping w_completing w_have].
  split_and!; [set_solver|set_solver|reflexivity|set_solver]. Qed.

Lemma next_pieces_round_robin_witness : iter_next_pieces [[1; 2; 3]; [7]; [5; 6]] = [1; 7; 5; 2; 6; 3].
Proof. rewrite (next_pieces_round_robin [[1; 2; 3]; [7]; [5; 6]] 3); [reflexivity|]. repeat constructor. Defined.

Definition ex_stream : FileStream := mkFileStream 0 0 5000 10000 19000.
Definition ex_streams : TorrentStreams := mkTorrentStreams 1 {[0%nat := mkStreamState 0 10000 19000 5000 None]}.

Lemma poll_read_spec_witness :
  poll_read (E := unit) ex_lengths (fun _ => Ok false) (fun _ _ _ => Err tt) 10 ex_stream ex_streams <>
  Done (Ready (Ok []), ex_stream, ex_streams).
Proof.
  destruct (poll_read_spec (E := unit) ex_lengths (fun _ => Ok false) (fun _ _ _ => Err tt) ex_lengths_wf 10 ex_stream ex_streams)
    as [[Hc _]|(_ & i & _ & _ & ts' & Hr & _)].
  - split; [vm_compute; split; discriminate|vm_compute; discriminate|vm_compute; discriminate|]. exists None. reflexivity.
  - lia.
  - discriminate.
  - cbv zeta in Hr. rewrite Hr. discriminate.
Defined.
