(* ===== verification/SpeedLimits.v ===== *)
(** * SpeedLimits: the rate limits of the session and the alternative ones

    Models [crates/librtbit/src/limits.rs], [alt_speed.rs] and the handlers of
    [http_api/handlers/qbit_compat.rs] and [configure.rs] that change the
    limits.  The limiter itself (the governor crate) is its quota.  The calls
    are not atomic: each is a task whose steps are the accesses to the shared
    state, and a call that nothing interrupts runs its task to the end. *)

From S2P Require Import Prelude.

(** [NonZeroU32::new]. *)
Definition NonZeroU32_new (n : Z) : option Z := if n =? 0 then None else Some n.

(** ** One limit *)

Record Limit := mkLimit {
  lim_limiter : option Z;  (* the quota *)
  lim_current_bps : Z;
}.

Definition limit_new (bps : option Z) : Limit := mkLimit bps (default 0 bps).
Definition limit_set (limit : option Z) (_ : Limit) : Limit := mkLimit limit (default 0 limit).
Definition limit_get (l : Limit) : option Z := NonZeroU32_new (lim_current_bps l).

Record Limits := mkLimits {
  down : Limit;
  up : Limit;
}.

(** The bandwidth part of [LimitsConfig]: download, upload. *)
Record LimitsConfig := mkLimitsConfig {
  download_bps : option Z;
  upload_bps : option Z;
}.

Definition limits_new (c : LimitsConfig) : Limits := mkLimits (limit_new (download_bps c)) (limit_new (upload_bps c)).
Definition set_download_bps (bps : option Z) (l : Limits) : Limits := mkLimits (limit_set bps (down l)) (up l).
Definition set_upload_bps (bps : option Z) (l : Limits) : Limits := mkLimits (down l) (limit_set bps (up l)).
Definition get_config (l : Limits) : LimitsConfig := mkLimitsConfig (limit_get (down l)) (limit_get (up l)).

(** ** Alternative limits *)

Record AltSpeedConfig := mkAltConfig {
  download_rate : option Z;
  upload_rate : option Z;
}.

Record AltSpeedSchedule := mkSchedule {
  sc_enabled : bool;
  start_minutes : Z;
  end_minutes : Z;
  days : Z;
}.

Record AltSpeedState := mkAltSpeed {
  as_enabled : bool;
  as_config : AltSpeedConfig;
  as_schedule : AltSpeedSchedule;
  as_saved_normal : option LimitsConfig;
  as_last_schedule_decision : option bool;
}.

Record SpeedSession := mkSpeed {
  ratelimits : Limits;
  alt_speed : AltSpeedState;
}.

Definition to_bps (rate : option Z) : option Z :=
  r ← rate; NonZeroU32_new (default (U32 - 1) (try_into_u32 r)).

Definition alt_speed_enabled (s : SpeedSession) : bool := as_enabled (alt_speed s).

Definition on_limits (f : Limits -> Limits) (s : SpeedSession) : SpeedSession := mkSpeed (f (ratelimits s)) (alt_speed s).
Definition on_alt (f : AltSpeedState -> AltSpeedState) (s : SpeedSession) : SpeedSession := mkSpeed (ratelimits s) (f (alt_speed s)).

Definition with_enabled (b : bool) (a : AltSpeedState) : AltSpeedState :=
  mkAltSpeed b (as_config a) (as_schedule a) (as_saved_normal a) (as_last_schedule_decision a).
Definition with_config (c : AltSpeedConfig) (a : AltSpeedState) : AltSpeedState :=
  mkAltSpeed (as_enabled a) c (as_schedule a) (as_saved_normal a) (as_last_schedule_decision a).
Definition with_saved (n : option LimitsConfig) (a : AltSpeedState) : AltSpeedState :=
  mkAltSpeed (as_enabled a) (as_config a) (as_schedule a) n (as_last_schedule_decision a).
Definition with_schedule (c : AltSpeedSchedule) (a : AltSpeedState) : AltSpeedState :=
  mkAltSpeed (as_enabled a) (as_config a) c (as_saved_normal a) (as_last_schedule_decision a).
Definition with_decision (d : option bool) (a : AltSpeedState) : AltSpeedState :=
  mkAltSpeed (as_enabled a) (as_config a) (as_schedule a) (as_saved_normal a) d.

Definition set_both (d u : option Z) (s : SpeedSession) : SpeedSession := on_limits (fun l => set_upload_bps u (set_download_bps d l)) s.

(** ** Calls as tasks *)

Inductive Task :=
| SetEnabled (b : bool)
| SaveNormal
| ApplyAlt
| TakeNormal
| Apply (d u : option Z)
| SetConfig (c : AltSpeedConfig)
| ApplyConfig (c : AltSpeedConfig)
| SetNormal (d u : option Z)
| StoreNormal (d u : option Z).

Definition task_step (t : Task) (s : SpeedSession) : SpeedSession * option Task :=
  match t with
  | SetEnabled b =>
      let was := alt_speed_enabled s in
      let s := on_alt (with_enabled b) s in
      (s, if Bool.eqb was b then None else Some (if b then SaveNormal else TakeNormal))
  | SaveNormal => (on_alt (with_saved (Some (get_config (ratelimits s)))) s, Some ApplyAlt)
  | ApplyAlt =>
      let alt := as_config (alt_speed s) in
      (set_both (to_bps (download_rate alt)) (to_bps (upload_rate alt)) s, None)
  | TakeNormal =>
      (on_alt (with_saved None) s,
       match as_saved_normal (alt_speed s) with Some n => Some (Apply (download_bps n) (upload_bps n)) | None => None end)
  | Apply d u => (set_both d u s, None)
  | SetConfig c => (on_alt (with_config c) s, Some (ApplyConfig c))
  | ApplyConfig c =>
      (if alt_speed_enabled s then set_both (to_bps (download_rate c)) (to_bps (upload_rate c)) s else s, None)
  | SetNormal d u => (s, Some (if alt_speed_enabled s then StoreNormal d u else Apply d u))
  | StoreNormal d u => (on_alt (with_saved (Some (mkLimitsConfig d u))) s, None)
  end.

(** A call that nothing interrupts; no call has more than three steps. *)
Fixpoint run_task (fuel : nat) (t : Task) (s : SpeedSession) : SpeedSession :=
  match fuel with
  | O => s
  | S fuel => let '(s, t) := task_step t s in match t with Some t => run_task fuel t s | None => s end
  end.

Definition set_alt_speed_enabled (b : bool) : SpeedSession -> SpeedSession := run_task 3 (SetEnabled b).
Definition set_alt_speed_config (c : AltSpeedConfig) : SpeedSession -> SpeedSession := run_task 3 (SetConfig c).
Definition set_normal_rate_limits (d u : option Z) : SpeedSession -> SpeedSession := run_task 3 (SetNormal d u).

Definition set_alt_speed_schedule (c : AltSpeedSchedule) (s : SpeedSession) : SpeedSession :=
  on_alt (with_decision None) (on_alt (with_schedule c) s).

(** ** The schedule *)

(** The local time: days from Monday, hour, minute. *)
Record LocalTime := mkLocalTime {
  num_days_from_monday : Z;
  hour : Z;
  minute : Z;
}.

Definition alt_speed_schedule_wants_active (schedule : AltSpeedSchedule) (now : LocalTime) : bool :=
  let day_bit := Z.shiftl 1 (num_days_from_monday now) in
  if Z.land (days schedule) day_bit =? 0 then false
  else
    let minutes := hour now * 60 + minute now in
    if start_minutes schedule <=? end_minutes schedule
    then (start_minutes schedule <=? minutes) && (minutes <? end_minutes schedule)
    else (start_minutes schedule <=? minutes) || (minutes <? end_minutes schedule).

(** One turn of the scheduler. *)
Definition scheduler_tick (now : LocalTime) (s : SpeedSession) : SpeedSession :=
  let schedule := as_schedule (alt_speed s) in
  if negb (sc_enabled schedule) then on_alt (with_decision None) s
  else
    let should := alt_speed_schedule_wants_active schedule now in
    if bool_decide (as_last_schedule_decision (alt_speed s) = Some should) then s
    else set_alt_speed_enabled should (on_alt (with_decision (Some should)) s).

(** ** The handlers of the qBittorrent API *)

Definition bps_to_u64 (bps : option Z) : Z := default 0 bps.
Definition limit_to_bps (limit : Z) : option Z := NonZeroU32_new (default (U32 - 1) (try_into_u32 limit)).
Definition parse_torrent_limit (limit : Z) : option Z := if limit <=? 0 then None else limit_to_bps limit.

Definition h_transfer_set_download_limit (limit : Z) (s : SpeedSession) : SpeedSession :=
  let upload := upload_bps (get_config (ratelimits s)) in
  set_normal_rate_limits (limit_to_bps limit) upload s.

Definition h_transfer_set_upload_limit (limit : Z) (s : SpeedSession) : SpeedSession :=
  let download := download_bps (get_config (ratelimits s)) in
  set_normal_rate_limits download (limit_to_bps limit) s.

Definition h_transfer_toggle_speed_limits_mode (s : SpeedSession) : SpeedSession :=
  set_alt_speed_enabled (negb (alt_speed_enabled s)) s.

Definition speed_new (config : LimitsConfig) : SpeedSession :=
  mkSpeed (limits_new config) (mkAltSpeed false (mkAltConfig None None) (mkSchedule false 0 0 0) None None).

(** ** What the limits are meant to be *)

Record SpeedSpec := mkSpeedSpec {
  sp_enabled : bool;
  sp_normal : LimitsConfig;
  sp_alt : AltSpeedConfig;
}.

(** The limits in effect. *)
Definition effective (sp : SpeedSpec) : LimitsConfig :=
  if sp_enabled sp then mkLimitsConfig (to_bps (download_rate (sp_alt sp))) (to_bps (upload_rate (sp_alt sp))) else sp_normal sp.

(** A limit that [NonZeroU32] can hold. *)
Definition limit_ok (l : option Z) : Prop := match l with Some n => 0 < n < U32 | None => True end.
Definition config_ok (c : LimitsConfig) : Prop := limit_ok (download_bps c) /\ limit_ok (upload_bps c).

Inductive SpeedOp :=
| OpEnable (b : bool)
| OpToggle
| OpConfig (c : AltSpeedConfig)
| OpNormal (c : LimitsConfig)
| OpSchedule (c : AltSpeedSchedule)
| OpTick (now : LocalTime).

Definition speed_exec (op : SpeedOp) (s : SpeedSession) : SpeedSession :=
  match op with
  | OpEnable b => set_alt_speed_enabled b s
  | OpToggle => h_transfer_toggle_speed_limits_mode s
  | OpConfig c => set_alt_speed_config c s
  | OpNormal c => set_normal_rate_limits (download_bps c) (upload_bps c) s
  | OpSchedule c => set_alt_speed_schedule c s
  | OpTick now => scheduler_tick now s
  end.

(** What an operation means; a tick does what the scheduler decides. *)
Definition spec_exec (op : SpeedOp) (s : SpeedSession) (sp : SpeedSpec) : SpeedSpec :=
  match op with
  | OpEnable b => mkSpeedSpec b (sp_normal sp) (sp_alt sp)
  | OpToggle => mkSpeedSpec (negb (sp_enabled sp)) (sp_normal sp) (sp_alt sp)
  | OpConfig c => mkSpeedSpec (sp_enabled sp) (sp_normal sp) c
  | OpNormal c => mkSpeedSpec (sp_enabled sp) c (sp_alt sp)
  | OpSchedule _ => sp
  | OpTick now =>
      let wants := alt_speed_schedule_wants_active (as_schedule (alt_speed s)) now in
      if sc_enabled (as_schedule (alt_speed s)) && negb (bool_decide (as_last_schedule_decision (alt_speed s) = Some wants))
      then mkSpeedSpec wants (sp_normal sp) (sp_alt sp) else sp
  end.

Definition rate_ok (r : option Z) : Prop := match r with Some n => 0 <= n < U64 | None => True end.
Definition alt_ok (c : AltSpeedConfig) : Prop := rate_ok (download_rate c) /\ rate_ok (upload_rate c).

Definition op_ok (op : SpeedOp) : Prop :=
  match op with OpNormal c => config_ok c | OpConfig c => alt_ok c | _ => True end.

(** The session implements the specification. *)
Record implements (s : SpeedSession) (sp : SpeedSpec) : Prop := {
  im_enabled : as_enabled (alt_speed s) = sp_enabled sp;
  im_alt : as_config (alt_speed s) = sp_alt sp;
  im_saved : as_saved_normal (alt_speed s) = if sp_enabled sp then Some (sp_normal sp) else None;
  im_down : down (ratelimits s) = limit_new (download_bps (effective sp));
  im_up : up (ratelimits s) = limit_new (upload_bps (effective sp));
  im_normal_ok : config_ok (sp_normal sp);
  im_alt_ok : alt_ok (sp_alt sp);
}.

Lemma to_bps_ok r : rate_ok r -> limit_ok (to_bps r).
Proof.
  destruct r as [r|]; [|done]. cbn. intros Hr. unfold NonZeroU32_new, try_into_u32. destruct (Z.ltb_spec r U32); cbn; [|done].
  destruct (Z.eqb_spec r 0); cbn; [done|lia].
Qed.

Lemma limit_roundtrip l : limit_ok l -> limit_get (limit_new l) = l.
Proof. unfold limit_get, NonZeroU32_new. destruct l as [n|]; cbn; [|done]. intros Hn. by destruct (Z.eqb_spec n 0); [lia|]. Qed.

Lemma implements_config s sp : implements s sp -> sp_enabled sp = false -> get_config (ratelimits s) = sp_normal sp.
Proof.
  intros [_ _ _ Hd Hu [Hod Hou] _] He. unfold get_config. rewrite Hd, Hu. unfold effective. rewrite He.
  rewrite !limit_roundtrip by done. by destruct (sp_normal sp).
Qed.

Lemma enable_implements b s sp : implements s sp -> implements (set_alt_speed_enabled b s) (mkSpeedSpec b (sp_normal sp) (sp_alt sp)).
Proof.
  intros Hi. pose proof (implements_config s sp Hi) as Hc. pose proof Hi as [He Ha Hs Hd Hu Hok Hao]. unfold set_alt_speed_enabled, alt_speed_enabled in *. cbn [run_task task_step]. unfold alt_speed_enabled.
  rewrite He. destruct (Bool.eqb_spec (sp_enabled sp) b) as [<-|Hne].
  - by constructor.
  - destruct b; cbn; destruct (sp_enabled sp) eqn:Hsp; try done.
    + rewrite Hc by done. constructor; cbn; try done; by rewrite Ha.
    + rewrite Hs. constructor; cbn; try done.
Qed.

Lemma exec_implements op s sp : op_ok op -> implements s sp -> implements (speed_exec op s) (spec_exec op s sp).
Proof.
  intros Hop Hi. pose proof Hi as [He Ha Hs Hd Hu Hok Hao]. destruct op as [b| |c|c|c|now]; cbn [speed_exec spec_exec].
  - by apply enable_implements.
  - unfold h_transfer_toggle_speed_limits_mode, alt_speed_enabled. rewrite He. by apply enable_implements.
  - unfold set_alt_speed_config. cbn [run_task task_step]. unfold alt_speed_enabled. cbn. rewrite He.
    unfold effective in *. destruct (sp_enabled sp) eqn:Hsp; constructor; cbn; unfold effective; cbn; rewrite ?Hsp; done.
  - unfold set_normal_rate_limits. cbn [run_task task_step]. unfold alt_speed_enabled. cbn. rewrite He.
    unfold effective in *. destruct (sp_enabled sp) eqn:Hsp; constructor; cbn; unfold effective; cbn; rewrite ?Hsp; try done. by destruct c.
  - by constructor.
  - unfold scheduler_tick. destruct (sc_enabled _) eqn:Hsc; cbn [negb andb]; [|by constructor].
    destruct (bool_decide_reflect (as_last_schedule_decision (alt_speed s) =
      Some (alt_speed_schedule_wants_active (as_schedule (alt_speed s)) now))); cbn [negb]; [done|].
    apply enable_implements. by constructor.
Qed.

(** The specification follows the operations. *)
Fixpoint spec_run (ops : list SpeedOp) (s : SpeedSession) (sp : SpeedSpec) : SpeedSpec :=
  match ops with
  | [] => sp
  | op :: ops => spec_run ops (speed_exec op s) (spec_exec op s sp)
  end.

(** C33: the alternative speed limits replace the normal ones and give them
    back: after any sequence of switching them on and off, changing either
    kind of limit, and ticks of the schedule, the limiters have exactly the
    alternative limits while these are on, and otherwise the normal limits
    that were set last. *)
Theorem alt_speed_refines config ops : config_ok config -> Forall op_ok ops ->
  let s := foldl (fun s op => speed_exec op s) (speed_new config) ops in
  let sp := spec_run ops (speed_new config) (mkSpeedSpec false config (mkAltConfig None None)) in
  alt_speed_enabled s = sp_enabled sp /\ get_config (ratelimits s) = effective sp /\
  lim_limiter (down (ratelimits s)) = download_bps (effective sp) /\ lim_limiter (up (ratelimits s)) = upload_bps (effective sp).
Proof.
  intros Hc Hops.
  assert (Hi : implements (foldl (fun s op => speed_exec op s) (speed_new config) ops)
    (spec_run ops (speed_new config) (mkSpeedSpec false config (mkAltConfig None None)))).
  { assert (H0 : implements (speed_new config) (mkSpeedSpec false config (mkAltConfig None None))) by (by constructor).
    revert H0. generalize (speed_new config) (mkSpeedSpec false config (mkAltConfig None None)).
    induction Hops as [|op ops Hop _ IH]; intros s sp Hi; [done|]. cbn. by apply IH, exec_implements. }
  cbv zeta. destruct Hi as [He Ha _ Hd Hu Hok [Ha1 Ha2]]. split; [done|]. unfold get_config. rewrite Hd, Hu.
  assert (Heff : config_ok (effective (spec_run ops (speed_new config) (mkSpeedSpec false config (mkAltConfig None None))))).
  { unfold effective. destruct (sp_enabled _); [|done]. split; by apply to_bps_ok. }
  rewrite !limit_roundtrip by apply Heff. split; [by destruct (effective _)|done].
Qed.

Definition ex_normal : LimitsConfig := mkLimitsConfig (Some 1000) None.

Definition ex_ops : list SpeedOp :=
  [OpConfig (mkAltConfig (Some 10) (Some 20)); OpEnable true; OpNormal (mkLimitsConfig (Some 2000) (Some 3000)); OpToggle].

Lemma alt_speed_refines_witness :
  get_config (ratelimits (foldl (fun s op => speed_exec op s) (speed_new ex_normal) ex_ops)) = mkLimitsConfig (Some 2000) (Some 3000).
Proof.
  assert (Hc : config_ok ex_normal) by (split; cbn; [lia|exact I]).
  assert (Ho : Forall op_ok ex_ops) by (repeat constructor; cbn; lia).
  destruct (alt_speed_refines ex_normal ex_ops Hc Ho) as (_ & Hg & _). exact Hg.
Defined.

(** A manual switch lasts until the schedule changes its mind. *)
Lemma manual_switch_lasts now b s : sc_enabled (as_schedule (alt_speed s)) = true ->
  as_last_schedule_decision (alt_speed s) = Some (alt_speed_schedule_wants_active (as_schedule (alt_speed s)) now) ->
  scheduler_tick now (set_alt_speed_enabled b s) = set_alt_speed_enabled b s.
Proof.
  intros He Hl. assert (Hsame : as_schedule (alt_speed (set_alt_speed_enabled b s)) = as_schedule (alt_speed s) /\
    as_last_schedule_decision (alt_speed (set_alt_speed_enabled b s)) = as_last_schedule_decision (alt_speed s)).
  { unfold set_alt_speed_enabled. cbn [run_task task_step]. destruct (Bool.eqb _ b); [done|]. destruct b; cbn; [done|].
    by destruct (as_saved_normal (alt_speed s)). }
  destruct Hsame as [Hs Hd]. unfold scheduler_tick. rewrite Hs, Hd, He, Hl. cbn [negb]. by rewrite bool_decide_true.
Qed.

(** While the alternative limits are on, setting the normal download limit
    through the qBittorrent API makes the alternative upload limit the normal
    one, which stays after they are switched off. *)
Lemma download_limit_changes_upload :
  let s := set_alt_speed_enabled true (set_alt_speed_config (mkAltConfig (Some 10) (Some 20)) (speed_new ex_normal)) in
  get_config (ratelimits (set_alt_speed_enabled false (h_transfer_set_download_limit 500 s))) = mkLimitsConfig (Some 500) (Some 20).
Proof. vm_compute. reflexivity. Qed.

(** Switching off while a switch on is between its steps: the alternative
    limits stay although they are reported as off. *)
Lemma switch_off_during_switch_on :
  let s0 := set_alt_speed_config (mkAltConfig (Some 10) (Some 20)) (speed_new ex_normal) in
  let '(s1, on1) := task_step (SetEnabled true) s0 in
  let '(s2, off1) := task_step (SetEnabled false) s1 in
  let '(s3, off2) := task_step TakeNormal s2 in
  let '(s4, on2) := task_step SaveNormal s3 in
  let '(s5, on3) := task_step ApplyAlt s4 in
  (on1, off1, off2, on2, on3) = (Some SaveNormal, Some TakeNormal, None, Some ApplyAlt, None) /\
  alt_speed_enabled s5 = false /\ get_config (ratelimits s5) = mkLimitsConfig (Some 10) (Some 20).
Proof. vm_compute. done. Qed.
