(* ===== verification/Auth.v ===== *)
(** * Auth: who may use the HTTP API

    Models [crates/librtbit/src/http_api/auth.rs] (tokens, credentials and their
    handlers), the authentication layer of [http_api/mod.rs], and the sessions
    and the login of the compatibility layer ([handlers/qbit_compat.rs]), with
    the part of [crates/rtbit/src/main.rs] that sets them up.  A handler that
    checks and then acts under another lock is two events, so requests
    interleave.  Random tokens, the clock (nanoseconds), base64 and the answers
    of the file system are arguments. *)

From stdpp Require Import strings.
From S2P Require Import Prelude Bencode Serde.

Definition SECOND : Z := 1000000000.
Definition ACCESS_TOKEN_TTL : Z := 15 * 60 * SECOND.
Definition REFRESH_TOKEN_TTL : Z := 30 * 24 * 60 * 60 * SECOND.

Abbreviation Str := (list Z).

Definition constant_time_eq (a b : Str) : bool :=
  if negb (length a =? length b)%nat then false
  else foldl (fun acc p => Z.lor acc (Z.lxor p.1 p.2)) 0 (zip a b) =? 0.

(** ** Tokens *)

Record TokenStore := mkTokens {
  access_tokens : gmap Str Z;  (* when they expire *)
  refresh_tokens : gmap Str Z;
}.

Definition tokens_new : TokenStore := mkTokens ∅ ∅.

Definition create_tokens (now : Z) (access refresh : Str) (ts : TokenStore) : TokenStore :=
  mkTokens (<[access := now + ACCESS_TOKEN_TTL]> (access_tokens ts)) (<[refresh := now + REFRESH_TOKEN_TTL]> (refresh_tokens ts)).

Definition token_valid (now : Z) (m : gmap Str Z) (token : Str) : bool :=
  match m !! token with Some expires_at => now <? expires_at | None => false end.

Definition validate_access_token (now : Z) (ts : TokenStore) (token : Str) : bool := token_valid now (access_tokens ts) token.

Definition revoke_refresh_token (token : Str) (ts : TokenStore) : TokenStore :=
  mkTokens (access_tokens ts) (delete token (refresh_tokens ts)).

Definition cleanup_expired (now : Z) (ts : TokenStore) : TokenStore :=
  mkTokens (filter (fun e => now < e.2) (access_tokens ts)) (filter (fun e => now < e.2) (refresh_tokens ts)).

(** ** Credentials *)

Record StoredCredentials := mkCredentials {
  cr_username : Str;
  cr_password : Str;
}.
#[export] Instance credentials_eq_dec : EqDecision StoredCredentials.
Proof. solve_decision. Defined.

(** [credentials.json]: no file, one that is not credentials, or credentials. *)
Inductive CredFile := NoFile | Malformed | CredsFile (c : StoredCredentials).

Definition load_credentials (f : CredFile) : option StoredCredentials :=
  match f with CredsFile c => Some c | NoFile | Malformed => None end.

(** What the system answers to a save: a directory that cannot be made, a write
    that fails and what it leaves, permissions that cannot be set. *)
Inductive SaveAnswer := DirFails | WriteFails (remains : CredFile) | PermissionsFail | Saved.

Definition set_credentials (answer : SaveAnswer) (creds : StoredCredentials) (file : CredFile) (credentials : option StoredCredentials) :
    bool * CredFile * option StoredCredentials :=
  match answer with
  | DirFails => (false, file, credentials)
  | WriteFails remains => (false, remains, credentials)
  | PermissionsFail => (false, CredsFile creds, credentials)
  | Saved => (true, CredsFile creds, Some creds)
  end.

Definition same_credentials (username password : Str) (c : StoredCredentials) : bool :=
  constant_time_eq username (cr_username c) && constant_time_eq password (cr_password c).

Definition validate (credentials : option StoredCredentials) (username password : Str) : bool :=
  match credentials with Some creds => same_credentials username password creds | None => false end.

(** ** Sessions of the compatibility layer *)

Definition validate_session (now : Z) (sessions : gmap Str Z) (sid : Str) : bool :=
  match sessions !! sid with Some created => (now - created) / SECOND <? 3600 | None => false end.

(** [str::trim], for headers of visible ASCII. *)
Definition is_space (c : Z) : bool := (c =? 32) || ((9 <=? c) && (c <=? 13)).
Fixpoint trim_start (l : Str) : Str := match l with c :: r => if is_space c then trim_start r else l | [] => [] end.
Definition trim (l : Str) : Str := reverse (trim_start (reverse (trim_start l))).

Fixpoint strip_prefix (p l : Str) : option Str :=
  match p, l with
  | [], _ => Some l
  | x :: p, y :: l => if x =? y then strip_prefix p l else None
  | _ :: _, [] => None
  end.

Fixpoint find_map {A B} (f : A -> option B) (l : list A) : option B :=
  match l with [] => None | a :: l => match f a with Some b => Some b | None => find_map f l end end.

Definition extract_sid (cookie : option Str) : option Str :=
  cookies ← cookie; find_map (fun c => strip_prefix (key "SID=") (trim c)) (split_on 59 cookies).

(** [str::split_once]. *)
Fixpoint split_once (c : Z) (l : Str) : option (Str * Str) :=
  match l with
  | [] => None
  | x :: l => if x =? c then Some ([], l) else '(a, b) ← split_once c l; Some (x :: a, b)
  end.

(** ** The state of the API *)

(** A request between its check and its action. *)
Inductive Flight :=
| FRefresh (token : Str)
| FSetup (creds : StoredCredentials)
| FChange (creds : StoredCredentials).
#[export] Instance flight_eq_dec : EqDecision Flight.
Proof. solve_decision. Defined.

Record AuthState := mkAuth {
  au_basic : option StoredCredentials;
  au_credentials : option StoredCredentials;
  au_file : CredFile;
  au_tokens : TokenStore;
  au_sessions : gmap Str Z;
  au_flight : list Flight;
}.

(** [main]: the stored credentials, or those of the environment, are the basic
    ones. *)
Definition boot (env : option StoredCredentials) (file : CredFile) : AuthState :=
  let credentials := load_credentials file in
  mkAuth (match credentials with Some c => Some c | None => env end) credentials file tokens_new ∅ [].

Inductive Resp :=
| RTokens (access refresh : Str)
| ROk
| RNoContent
| RStatus (code : Z).

Definition BAD_REQUEST := 400.
Definition UNAUTHORIZED := 401.
Definition FORBIDDEN := 403.
Definition NOT_FOUND := 404.
Definition INTERNAL_SERVER_ERROR := 500.

Section api.
Context (token_store credential_store : bool) (decode_basic : Str -> option Str).

Definition has_credentials (s : AuthState) : bool := bool_decide (is_Some (au_credentials s)).
Definition has_stored_creds (s : AuthState) : bool := credential_store && has_credentials s.
Definition has_env_creds (s : AuthState) : bool := bool_decide (is_Some (au_basic s)).
Definition configured (s : AuthState) : bool := has_stored_creds s || has_env_creds s.

(** ** The layer around every route *)

Definition public_path (path : Str) : bool :=
  bool_decide (path = key "/auth/login") || bool_decide (path = key "/auth/refresh") ||
  bool_decide (path = key "/auth/status") || bool_decide (path = key "/auth/setup").

Inductive Guard := Next | Unauthorized | AskBasic.

Definition bearer (authorization : option Str) : option Str := h ← authorization; strip_prefix (key "Bearer ") h.
Definition basic (authorization : option Str) : option Str := h ← authorization; v ← strip_prefix (key "Basic ") h; decode_basic v.

Definition guard (now : Z) (s : AuthState) (path : Str) (authorization : option Str) : Guard :=
  if public_path path then Next
  else if negb (has_stored_creds s) && negb (has_env_creds s) then Next
  else
    match (if token_store then bearer authorization else None) with
    | Some token => if validate_access_token now (au_tokens s) token then Next else Unauthorized
    | None =>
        match basic authorization with
        | None => AskBasic
        | Some user_pass =>
            match split_once 58 user_pass with
            | Some (u, p) =>
                if has_stored_creds s && validate (au_credentials s) u p then Next
                else if validate (au_basic s) u p then Next
                else Unauthorized
            | None => Unauthorized
            end
        end
    end.

(** The layer of the compatibility API. *)
Definition qbit_guard (now : Z) (s : AuthState) (cookie : option Str) : bool :=
  if negb (has_env_creds s || has_stored_creds s) then true
  else match extract_sid cookie with Some sid => validate_session now (au_sessions s) sid | None => false end.

(** ** Handlers *)

Definition with_tokens (s : AuthState) (ts : TokenStore) : AuthState :=
  mkAuth (au_basic s) (au_credentials s) (au_file s) ts (au_sessions s) (au_flight s).
Definition with_sessions (s : AuthState) (m : gmap Str Z) : AuthState :=
  mkAuth (au_basic s) (au_credentials s) (au_file s) (au_tokens s) m (au_flight s).
Definition with_flight (s : AuthState) (l : list Flight) : AuthState :=
  mkAuth (au_basic s) (au_credentials s) (au_file s) (au_tokens s) (au_sessions s) l.

Definition h_auth_status (s : AuthState) : bool * bool := (configured s, negb (configured s)).

(** The credentials that a login is checked against; [None] is an answer that
    nothing is configured. *)
Definition login_valid (s : AuthState) (username password : Str) : option bool :=
  if credential_store then
    Some (if has_credentials s then validate (au_credentials s) username password else validate (au_basic s) username password)
  else
    match au_basic s with
    | Some c => Some (same_credentials username password c)
    | None => None
    end.

Definition h_auth_login (now : Z) (username password access refresh : Str) (s : AuthState) : AuthState * Resp :=
  match login_valid s username password with
  | None => (s, RStatus NOT_FOUND)
  | Some false => (s, RStatus UNAUTHORIZED)
  | Some true =>
      if token_store then (with_tokens s (create_tokens now access refresh (cleanup_expired now (au_tokens s))), RTokens access refresh)
      else (s, RStatus NOT_FOUND)
  end.

(** [refresh]: the check under the lock for reading. *)
Definition h_auth_refresh (now : Z) (token : Str) (s : AuthState) : AuthState * Resp :=
  if negb token_store then (s, RStatus NOT_FOUND)
  else if token_valid now (refresh_tokens (au_tokens s)) token then (with_flight s (FRefresh token :: au_flight s), ROk)
  else (s, RStatus UNAUTHORIZED).

Definition h_auth_logout (token : Str) (s : AuthState) : AuthState * Resp :=
  (if token_store then with_tokens s (revoke_refresh_token token (au_tokens s)) else s, RNoContent).

Definition h_auth_setup (username password : Str) (s : AuthState) : AuthState * Resp :=
  if negb credential_store then (s, RStatus NOT_FOUND)
  else if has_credentials s || has_env_creds s then (s, RStatus FORBIDDEN)
  else if bool_decide (username = []) || bool_decide (password = []) then (s, RStatus BAD_REQUEST)
  else (with_flight s (FSetup (mkCredentials username password) :: au_flight s), ROk).

Definition h_auth_change_credentials (current_password : Str) (new_username new_password : option Str) (s : AuthState) : AuthState * Resp :=
  if negb credential_store then (s, RStatus NOT_FOUND)
  else
    match (match au_credentials s with Some c => Some c | None => au_basic s end) with
    | None => (s, RStatus NOT_FOUND)
    | Some current =>
        if negb (constant_time_eq current_password (cr_password current)) then (s, RStatus UNAUTHORIZED)
        else (with_flight s (FChange (mkCredentials (default (cr_username current) new_username) (default (cr_password current) new_password))
                :: au_flight s), ROk)
    end.

Definition save (answer : SaveAnswer) (creds : StoredCredentials) (s : AuthState) : bool * AuthState :=
  let '(ok, file, credentials) := set_credentials answer creds (au_file s) (au_credentials s) in
  (ok, mkAuth (au_basic s) credentials file (au_tokens s) (au_sessions s) (au_flight s)).

(** What follows a check. *)
Definition commit (now : Z) (f : Flight) (answer : SaveAnswer) (access refresh : Str) (s : AuthState) : AuthState * Resp :=
  match f with
  | FRefresh token =>
      (with_tokens s (create_tokens now access refresh (revoke_refresh_token token (au_tokens s))), RTokens access refresh)
  | FSetup creds =>
      let '(ok, s) := save answer creds s in
      if negb ok then (s, RStatus INTERNAL_SERVER_ERROR)
      else if token_store then (with_tokens s (create_tokens now access refresh (au_tokens s)), RTokens access refresh)
      else (s, ROk)
  | FChange creds =>
      let '(ok, s) := save answer creds s in
      (s, if ok then ROk else RStatus INTERNAL_SERVER_ERROR)
  end.

(** The login of the compatibility layer. *)
Definition qbit_login_valid (s : AuthState) (username password : Str) : bool :=
  if has_stored_creds s then validate (au_credentials s) username password
  else match au_basic s with Some c => same_credentials username password c | None => true end.

Definition h_qbit_login (now : Z) (username password sid : Str) (s : AuthState) : AuthState * Resp :=
  if qbit_login_valid s username password then (with_sessions s (<[sid := now]> (au_sessions s)), ROk) else (s, RStatus FORBIDDEN).

Definition h_qbit_logout (cookie : option Str) (s : AuthState) : AuthState * Resp :=
  (match extract_sid cookie with Some sid => with_sessions s (delete sid (au_sessions s)) | None => s end, ROk).

(** ** Requests *)

Inductive AuthEvent :=
| ELogin (username password access refresh : Str)
| ERefresh (token : Str)
| ELogout (authorization : option Str) (token : Str)
| ESetup (username password : Str)
| EChange (authorization : option Str) (current_password : Str) (new_username new_password : option Str)
| ECommit (f : Flight) (answer : SaveAnswer) (access refresh : Str)
| EQbitLogin (username password sid : Str)
| EQbitLogout (cookie : option Str)
| ERestart (env : option StoredCredentials).

Fixpoint remove_one (f : Flight) (l : list Flight) : list Flight :=
  match l with [] => [] | g :: l => if bool_decide (g = f) then l else g :: remove_one f l end.

Definition auth_step (now : Z) (e : AuthEvent) (s : AuthState) : AuthState :=
  match e with
  | ELogin username password access refresh => (h_auth_login now username password access refresh s).1
  | ERefresh token => (h_auth_refresh now token s).1
  | ELogout authorization token =>
      match guard now s (key "/auth/logout") authorization with Next => (h_auth_logout token s).1 | _ => s end
  | ESetup username password => (h_auth_setup username password s).1
  | EChange authorization current new_username new_password =>
      match guard now s (key "/auth/change_credentials") authorization with
      | Next => (h_auth_change_credentials current new_username new_password s).1
      | _ => s
      end
  | ECommit f answer access refresh =>
      if bool_decide (f ∈ au_flight s) then (commit now f answer access refresh (with_flight s (remove_one f (au_flight s)))).1 else s
  | EQbitLogin username password sid => (h_qbit_login now username password sid s).1
  | EQbitLogout cookie => (h_qbit_logout cookie s).1
  | ERestart env => boot env (au_file s)
  end.

(** A request with the state and the time it came at. *)
Definition Entry : Type := AuthState * Z * AuthEvent.

(** The state and the history after a list of requests. *)
Fixpoint auth_run (s : AuthState) (h : list Entry) (es : list (Z * AuthEvent)) : AuthState * list Entry :=
  match es with
  | [] => (s, h)
  | (now, e) :: es => auth_run (auth_step now e s) (h ++ [(s, now, e)]) es
  end.
End api.

(** ** The comparison *)

Lemma lor_fold l : forall acc, foldl (fun acc p => Z.lor acc (Z.lxor p.1 p.2)) acc l = 0 <-> acc = 0 /\ Forall (fun p => p.1 = p.2) l.
Proof.
  induction l as [|[x y] l IH]; intros acc; cbn [foldl]; [by rewrite Forall_nil; tauto|].
  rewrite IH, Z.lor_eq_0_iff, Z.lxor_eq_0_iff, Forall_cons. cbn [fst snd]. tauto.
Qed.

Lemma constant_time_eq_spec a b : constant_time_eq a b = true <-> a = b.
Proof.
  unfold constant_time_eq. destruct (Nat.eqb_spec (length a) (length b)) as [Hl|Hl]; cbn [negb].
  - rewrite Z.eqb_eq, lor_fold. split; [|intros ->; split; [done|]].
    + intros [_ Hz]. revert b Hl Hz. induction a as [|x a IH]; intros [|y b]; try done. intros [= Hl] Hz. cbn in Hz.
      apply Forall_cons in Hz as [Hx Hz]. cbn in Hx. f_equal; [done|]. by apply IH.
    + clear. induction b as [|x b IH]; [constructor|]. by constructor.
  - split; [done|]. by intros ->.
Qed.

Lemma same_credentials_spec u p c : same_credentials u p c = true <-> c = mkCredentials u p.
Proof.
  unfold same_credentials. rewrite andb_true_iff, !constant_time_eq_spec. destruct c as [u' p']. cbn. split; [by intros [-> ->]|by intros [= -> ->]].
Qed.

Lemma validate_spec o u p : validate o u p = true <-> o = Some (mkCredentials u p).
Proof. destruct o as [c|]; cbn; [|done]. rewrite same_credentials_spec. split; [by intros ->|by intros [= ->]]. Qed.

(** ** Where tokens and sessions come from *)
Section history.
Context (token_store credential_store : bool) (decode_basic : Str -> option Str).
Local Abbreviation step := (auth_step token_store credential_store decode_basic).
Local Abbreviation run := (auth_run token_store credential_store decode_basic).
Local Abbreviation is_configured := (configured credential_store).

(** A pair of tokens was given out at a time: for credentials that were right, to
    who set up the first ones, or for a refresh token that was given out. *)
Inductive given (h : list Entry) : Z -> Str -> Str -> Prop :=
| given_login s t u p a r : (s, t, ELogin u p a r) ∈ h -> login_valid credential_store s u p = Some true -> given h t a r
| given_setup s0 t0 s t u p answer a r : (s0, t0, ESetup u p) ∈ h -> is_configured s0 = false ->
    (s, t, ECommit (FSetup (mkCredentials u p)) answer a r) ∈ h -> given h t a r
| given_refresh t0 a0 r0 s1 t1 s t answer a r : given h t0 a0 r0 -> (s1, t1, ERefresh r0) ∈ h -> t1 < t0 + REFRESH_TOKEN_TTL ->
    (s, t, ECommit (FRefresh r0) answer a r) ∈ h -> given h t a r.

Lemma given_mono h h' t a r : (forall x, x ∈ h -> x ∈ h') -> given h t a r -> given h' t a r.
Proof.
  intros Hs. induction 1 as [| |t0 a0 r0 s1 t1 s t answer a r _ IH Hc Ht Hr].
  - eapply given_login; [by apply Hs|done].
  - eapply given_setup; [by apply Hs|done|by apply Hs].
  - eapply given_refresh; [exact IH|by apply Hs|done|by apply Hs].
Qed.

Definition flight_ok (h : list Entry) (f : Flight) : Prop :=
  match f with
  | FRefresh r => exists t a s1 t1, given h t a r /\ (s1, t1, ERefresh r) ∈ h /\ t1 < t + REFRESH_TOKEN_TTL
  | FSetup c => exists s0 t0, (s0, t0, ESetup (cr_username c) (cr_password c)) ∈ h /\ is_configured s0 = false
  | FChange _ => True
  end.

Record auth_ok (h : list Entry) (s : AuthState) : Prop := {
  ak_access : forall a x, access_tokens (au_tokens s) !! a = Some x -> exists t r, given h t a r /\ x = t + ACCESS_TOKEN_TTL;
  ak_refresh : forall r x, refresh_tokens (au_tokens s) !! r = Some x -> exists t a, given h t a r /\ x = t + REFRESH_TOKEN_TTL;
  ak_sessions : forall sid t, au_sessions s !! sid = Some t ->
    exists s0 u p, (s0, t, EQbitLogin u p sid) ∈ h /\ qbit_login_valid credential_store s0 u p = true;
  ak_flight : forall f, f ∈ au_flight s -> flight_ok h f;
}.

Lemma flight_ok_mono h h' f : (forall x, x ∈ h -> x ∈ h') -> flight_ok h f -> flight_ok h' f.
Proof.
  intros Hs. destruct f as [r|c|c]; cbn [flight_ok]; [| |done].
  - intros (t & a & s1 & t1 & Hg & Hc & Ht). exists t, a, s1, t1. split_and!; [by eapply given_mono|by apply Hs|done].
  - intros (s0 & t0 & Hc & Hn). exists s0, t0. split; [by apply Hs|done].
Qed.

Lemma auth_ok_mono h h' s : (forall x, x ∈ h -> x ∈ h') -> auth_ok h s -> auth_ok h' s.
Proof.
  intros Hs [Ha Hr Hse Hf]. split.
  - intros a x Hx. destruct (Ha a x Hx) as (t & r & Hg & ->). exists t, r. split; [by eapply given_mono|done].
  - intros r x Hx. destruct (Hr r x Hx) as (t & a & Hg & ->). exists t, a. split; [by eapply given_mono|done].
  - intros sid t Hx. destruct (Hse sid t Hx) as (s0 & u & p & Hin & Hv). exists s0, u, p. split; [by apply Hs|done].
  - intros f Hin. eapply flight_ok_mono; [exact Hs|by apply Hf].
Qed.

(** Other fields do not matter. *)
Lemma auth_ok_fields h s s' : au_tokens s' = au_tokens s -> au_sessions s' = au_sessions s -> au_flight s' ⊆ au_flight s -> auth_ok h s -> auth_ok h s'.
Proof. intros Et Es Ef [Ha Hr Hse Hf]. split; rewrite ?Et, ?Es; [done|done|done|]. intros f Hin. by apply Hf, Ef. Qed.

Lemma create_ok h s t a r : given h t a r -> auth_ok h s -> auth_ok h (with_tokens s (create_tokens t a r (au_tokens s))).
Proof.
  intros Hg [Ha Hr Hse Hf]. split; [| |done|done]; cbn [au_tokens with_tokens create_tokens access_tokens refresh_tokens].
  - intros a' x [[<- <-]|[_ Hx]]%lookup_insert_Some; [by exists t, r|by apply Ha].
  - intros r' x [[<- <-]|[_ Hx]]%lookup_insert_Some; [by exists t, a|by apply Hr].
Qed.

Lemma tokens_shrink_ok h s ts : access_tokens ts ⊆ access_tokens (au_tokens s) -> refresh_tokens ts ⊆ refresh_tokens (au_tokens s) ->
  auth_ok h s -> auth_ok h (with_tokens s ts).
Proof.
  intros H1 H2 [Ha Hr Hse Hf]. split; [| |done|done]; cbn [au_tokens with_tokens].
  - intros a x Hx. apply Ha. by eapply lookup_weaken.
  - intros r x Hx. apply Hr. by eapply lookup_weaken.
Qed.

Lemma remove_one_sub f l : remove_one f l ⊆ l.
Proof.
  induction l as [|g l IH]; [done|]. cbn [remove_one]. case_bool_decide; intros x Hx; [by right|].
  apply elem_of_cons in Hx as [->|Hx]; [by left|right; by apply IH].
Qed.

Lemma login_ok h s t u p a r : (s, t, ELogin u p a r) ∈ h -> auth_ok h s ->
  auth_ok h (h_auth_login token_store credential_store t u p a r s).1.
Proof.
  intros Hin Hs. unfold h_auth_login. destruct (login_valid credential_store s u p) as [[|]|] eqn:Ev; [|done|done].
  destruct token_store; [|done]. cbn [fst]. apply (create_ok h (with_tokens s (cleanup_expired t (au_tokens s))) t a r).
  - by eapply given_login.
  - apply tokens_shrink_ok; [apply map_filter_subseteq..|done].
Qed.

Lemma commit_ok h s t f answer a r : (exists s0, (s0, t, ECommit f answer a r) ∈ h) -> flight_ok h f -> auth_ok h s ->
  auth_ok h (commit token_store t f answer a r s).1.
Proof.
  intros [s0 Hin] Hf Hs. assert (Hsave : forall c, auth_ok h (save answer c s).2) by (intros c; by destruct answer; apply (auth_ok_fields h s)).
  destruct f as [tok|c|c]; cbn [commit].
  - apply (create_ok h (with_tokens s (revoke_refresh_token tok (au_tokens s)))); [|by apply tokens_shrink_ok; [|apply delete_subseteq|]].
    destruct Hf as (t0 & a0 & s1 & t1 & Hg & Hc & Ht). by eapply given_refresh.
  - specialize (Hsave c). destruct (save answer c s) as [ok s1]. cbn [snd] in Hsave. destruct ok; [|done]. cbn [negb].
    destruct token_store; [|done]. cbn [fst]. apply create_ok; [|done]. destruct Hf as (s2 & t2 & Hc & Hn). destruct c as [u p].
    by eapply given_setup.
  - specialize (Hsave c). by destruct (save answer c s).
Qed.

Lemma flight_added h s f : flight_ok h f -> auth_ok h s -> auth_ok h (with_flight s (f :: au_flight s)).
Proof.
  intros Hf [Ha Hr Hse Hfl]. split; [done|done|done|]. intros g Hg. apply elem_of_cons in Hg as [->|Hg]; [done|by apply Hfl].
Qed.

Lemma auth_step_ok h s t e : auth_ok h s -> auth_ok (h ++ [(s, t, e)]) (step t e s).
Proof.
  intros Hs0. set (h' := h ++ [(s, t, e)]). assert (Hin : (s, t, e) ∈ h') by (apply elem_of_app; right; by apply list_elem_of_singleton).
  assert (Hs : auth_ok h' s) by (eapply auth_ok_mono; [|exact Hs0]; intros x Hx; apply elem_of_app; by left). clearbody h'. clear Hs0.
  destruct e as [u p a r|tok|auth tok|u p|auth cur nu np|f answer a r|u p sid|cookie|env]; cbn [auth_step].
  - by apply login_ok.
  - unfold h_auth_refresh. destruct (negb token_store); [done|]. unfold token_valid. destruct (refresh_tokens (au_tokens s) !! tok) as [x|] eqn:E; [|done].
    destruct (Z.ltb_spec t x); [|done]. apply flight_added; [|done]. destruct (ak_refresh _ _ Hs _ _ E) as (t0 & a0 & Hg & ->). by exists t0, a0, s, t.
  - destruct (guard _ _ _ _ _ _ _); [|done|done]. unfold h_auth_logout. destruct token_store; [|done].
    apply tokens_shrink_ok; [done|apply delete_subseteq|done].
  - unfold h_auth_setup. destruct credential_store eqn:Ec; cbn [negb]; [|done]. destruct (has_credentials s || has_env_creds s) eqn:Ecf; [done|].
    destruct (bool_decide (u = []) || bool_decide (p = [])); [done|]. apply flight_added; [|done]. exists s, t. split; [done|].
    unfold configured, has_stored_creds. rewrite Ec. exact Ecf.
  - destruct (guard _ _ _ _ _ _ _); [|done|done]. unfold h_auth_change_credentials. destruct (negb credential_store); [done|].
    destruct (match au_credentials s with Some c => Some c | None => au_basic s end) as [c|]; [|done].
    destruct (negb _); [done|]. by apply flight_added.
  - case_bool_decide as Hf; [|done]. apply commit_ok; [by exists s|by apply (ak_flight _ _ Hs)|].
    apply (auth_ok_fields h' s); [done|done|apply remove_one_sub|done].
  - unfold h_qbit_login. destruct (qbit_login_valid credential_store s u p) eqn:Ev; [|done]. destruct Hs as [Ha Hr Hse Hfl]. split; [done|done| |done].
    intros sid' x Hx. cbn [fst au_sessions with_sessions] in Hx. apply lookup_insert_Some in Hx as [[<- <-]|[_ Hx]]; [by exists s, u, p|by apply Hse].
  - unfold h_qbit_logout. destruct (extract_sid cookie) as [sid|]; [|done]. destruct Hs as [Ha Hr Hse Hfl]. split; [done|done| |done].
    intros sid' x Hx. cbn [fst au_sessions with_sessions] in Hx. apply Hse. by apply lookup_delete_Some in Hx as [_ Hx].
  - split; [done|done|done|]. intros f Hf. by apply not_elem_of_nil in Hf.
Qed.

Lemma boot_ok env file h : auth_ok h (boot env file).
Proof. split; [done|done|done|]. intros f Hf. by apply not_elem_of_nil in Hf. Qed.

Lemma auth_run_ok es : forall s h, auth_ok h s -> auth_ok (run s h es).2 (run s h es).1.
Proof. induction es as [|[t e] es IH]; intros s h Hs; cbn [auth_run]; [done|]. apply IH. by apply auth_step_ok. Qed.

(** C21: once credentials are configured, a request passes the layer around the
    API only with credentials that are stored or basic, or with an access token
    given out less than fifteen minutes ago, which goes back, through refresh
    tokens that were given out, to credentials that were right or to the setup of
    the first ones; and the compatibility API only with a session that a login
    made less than an hour ago, with credentials that were right or when there
    were none.  Whatever requests came before, however they interleaved, whatever
    the disk answered and however often the program was restarted. *)
Theorem only_authorized_requests env file es now path authorization cookie :
  let '(s, h) := run (boot env file) [] es in
  is_configured s = true ->
  (guard token_store credential_store decode_basic now s path authorization = Next ->
   public_path path = true \/
   (exists token t r, bearer authorization = Some token /\ given h t token r /\ now < t + ACCESS_TOKEN_TTL) \/
   (exists up u p, basic decode_basic authorization = Some up /\ split_once 58 up = Some (u, p) /\
      (au_credentials s = Some (mkCredentials u p) \/ au_basic s = Some (mkCredentials u p)))) /\
  (qbit_guard credential_store now s cookie = true ->
   exists sid t s0 u p, extract_sid cookie = Some sid /\ (s0, t, EQbitLogin u p sid) ∈ h /\
     qbit_login_valid credential_store s0 u p = true /\ now < t + 3600 * SECOND).
Proof.
  pose proof (auth_run_ok es (boot env file) [] (boot_ok env file [])) as Hok.
  destruct (run (boot env file) [] es) as [s h]. cbn [fst snd] in Hok. intros Hc. unfold configured in Hc. split.
  - unfold guard. destruct (public_path path); [by left|].
    destruct (negb (has_stored_creds credential_store s) && negb (has_env_creds s)) eqn:En; [by rewrite <- negb_orb, Hc in En|]. intros Hg. right.
    destruct (if token_store then bearer authorization else None) as [token|] eqn:Eb.
    + left. destruct token_store; [|done]. unfold validate_access_token, token_valid in Hg.
      destruct (access_tokens (au_tokens s) !! token) as [x|] eqn:Ex; [|done]. destruct (Z.ltb_spec now x); [|done].
      destruct (ak_access _ _ Hok _ _ Ex) as (t & r & Hgv & ->). by exists token, t, r.
    + right. destruct (basic decode_basic authorization) as [up|]; [|done]. destruct (split_once 58 up) as [[u p]|] eqn:Es; [|done].
      exists up, u, p. split_and!; [done|done|]. destruct (has_stored_creds credential_store s && validate (au_credentials s) u p) eqn:Ev.
      * apply andb_true_iff in Ev as [_ Ev]. left. by apply validate_spec.
      * destruct (validate (au_basic s) u p) eqn:Eb2; [|done]. right. by apply validate_spec.
  - unfold qbit_guard. rewrite orb_comm, Hc. cbn [negb]. destruct (extract_sid cookie) as [sid|]; [|done]. unfold validate_session.
    destruct (au_sessions s !! sid) as [t|] eqn:Es; [|done]. intros Hlt. destruct (ak_sessions _ _ Hok _ _ Es) as (s0 & u & p & Hin & Hv).
    exists sid, t, s0, u, p. split_and!; [done|done|done|]. apply Z.ltb_lt in Hlt. pose proof (Z.div_mod (now - t) SECOND) as Hd.
    pose proof (Z.mod_pos_bound (now - t) SECOND) as Hm. unfold SECOND in *. lia.
Qed.
End history.

(** ** Runs *)

Definition ex_old : StoredCredentials := mkCredentials (key "u") (key "old").
Definition ex_new : StoredCredentials := mkCredentials (key "u") (key "new").
Definition ex_boot : list (Z * AuthEvent) :=
  [(0, ESetup (key "u") (key "old")); (0, ECommit (FSetup ex_old) Saved (key "A0") (key "R0")); (5, ELogin (key "u") (key "old") (key "A1") (key "R1"));
   (9, ERefresh (key "R1")); (10, ECommit (FRefresh (key "R1")) Saved (key "A2") (key "R2"))].

(** A token that a refresh gave out is accepted, and was given out. *)
Lemma only_authorized_requests_witness :
  let r := auth_run true true Some (boot None NoFile) [] ex_boot in
  guard true true Some (2 * SECOND) r.1 (key "/torrents") (Some (key "Bearer A2")) = Next /\
  exists token t ref, bearer (Some (key "Bearer A2")) = Some token /\ given true r.2 t token ref /\ 2 * SECOND < t + ACCESS_TOKEN_TTL.
Proof.
  split; [vm_compute; reflexivity|].
  pose proof (only_authorized_requests true true Some None NoFile ex_boot (2 * SECOND) (key "/torrents") (Some (key "Bearer A2")) None) as H.
  destruct (auth_run true true Some (boot None NoFile) [] ex_boot) as [s h] eqn:E. destruct H as [H _].
  - vm_compute in E. injection E as <- _. reflexivity.
  - destruct H as [H|[H|(up & u & p & H & _)]]; [|discriminate H|exact H|discriminate H]. vm_compute in E. injection E as <- _. vm_compute. reflexivity.
Defined.

(** The password that was changed is still accepted: the credentials of the start
    stay the basic ones.  A login with it fails. *)
Lemma old_password_accepted :
  let r := auth_run true true Some (boot None (CredsFile ex_old)) []
    [(0, EChange (Some (key "Basic u:old")) (key "old") None (Some (key "new"))); (0, ECommit (FChange ex_new) Saved [] [])] in
  au_credentials r.1 = Some ex_new /\ guard true true Some 1 r.1 (key "/torrents") (Some (key "Basic u:old")) = Next /\
  login_valid true r.1 (key "u") (key "old") = Some false.
Proof. vm_compute. done. Qed.

(** One refresh token gives two pairs, when two requests check it before either
    removes it. *)
Lemma refresh_token_used_twice :
  let r := auth_run true true Some (boot (Some ex_old) NoFile) []
    [(0, ELogin (key "u") (key "old") (key "A") (key "R")); (1, ERefresh (key "R")); (1, ERefresh (key "R"));
     (2, ECommit (FRefresh (key "R")) Saved (key "A1") (key "R1")); (2, ECommit (FRefresh (key "R")) Saved (key "A2") (key "R2"))] in
  token_valid 3 (access_tokens (au_tokens r.1)) (key "A1") = true /\ token_valid 3 (access_tokens (au_tokens r.1)) (key "A2") = true.
Proof. vm_compute. done. Qed.

(** A file that is not credentials opens the API. *)
Lemma malformed_file_opens_api now path authorization cookie :
  guard true true Some now (boot None Malformed) path authorization = Next /\ qbit_guard true now (boot None Malformed) cookie = true.
Proof. unfold guard. by destruct (public_path path). Qed.

(** A change that is refused, since the permissions could not be set, is in force
    after a restart. *)
Lemma refused_change_after_restart :
  let s := boot None (CredsFile ex_old) in
  commit true 0 (FChange ex_new) PermissionsFail [] [] s = (mkAuth (Some ex_old) (Some ex_old) (CredsFile ex_new) tokens_new ∅ [], RStatus INTERNAL_SERVER_ERROR) /\
  au_credentials (boot None (au_file (commit true 0 (FChange ex_new) PermissionsFail [] [] s).1)) = Some ex_new.
Proof. vm_compute. done. Qed.

(** A session made while there were no credentials stays good after the setup. *)
Lemma session_before_setup :
  let r := auth_run true true Some (boot None NoFile) []
    [(0, EQbitLogin [] [] (key "S")); (1, ESetup (key "u") (key "old")); (2, ECommit (FSetup ex_old) Saved (key "A") (key "R"))] in
  configured true r.1 = true /\ qbit_guard true 3 r.1 (Some (key "SID=S")) = true.
Proof. vm_compute. done. Qed.

(** Rotation, when requests do not overlap: a refresh token that was used is
    not valid, unless it was drawn again. *)
Lemma refresh_rotates now now' token answer a r s : r <> token ->
  token_valid now' (refresh_tokens (au_tokens (commit true now (FRefresh token) answer a r s).1)) token = false.
Proof.
  intros Hr. unfold token_valid. cbn [commit fst with_tokens au_tokens create_tokens refresh_tokens revoke_refresh_token].
  by rewrite lookup_insert_ne, lookup_delete_eq.
Qed.
